(* ===== verification/_CoqProject ===== *)
-Q . S2P
Prelude.v
Programs.v
MediaProtocol.v
Device.v
Client.v
Helper.v
Rpc.v
Threads.v
Gst.v
Audio.v
Peer.v
Runtime.v
Keychain.v
Clipboard.v
NetworkPath.v
Utf8.v
AbiLayout.v
HostCall.v
Syntax.v
Staging.v
Interactions.v
TurnModes.v
TaskScheduler.v
SessionCommands.v
Engine.v
EngineTasks.v
RepositoryWorkers.v
RepositoryCalls.v
RepositoryOperations.v
RepositoryCheckCalls.v
RepositoryChecks.v
RepositoryCheckRuns.v
SkillTables.v
SkillStore.v
SkillAdmin.v
SkillCalls.v
SkillAnswers.v
LearnedCatalog.v
DataBrowsing.v
InstalledSkills.v
BrowserAbi.v
ConfigRevision.v
McpConfig.v
McpCatalog.v
McpTransactions.v
McpRequests.v
McpOperations.v
McpSecrets.v
McpServerCalls.v
McpServerAnswers.v
BrowserResult.v
BrowserPending.v
SessionObservation.v
LoopEvents.v
ComputerAbi.v
ComputerSessions.v
