(* ===== verification/Prelude.v ===== *)
(** * The C layer of haskell-agent: a verification library

    haskell-agent is an agent runtime written in Haskell.  Its C code is what surrounds that
    runtime: a media helper process, two small platform services, the life cycle of GHC
    inside a host application, and the C interface [HaskellAgentBridge.h] by which a host
    application and the runtime call each other.  This library models that C code, and the
    part of the interface whose two sides can both be read in the repository.

    ** The program and its models

    - Media helper (packages/agent-webrtc/cbits).  [MediaProtocol] is helper-protocol.h: the
      16-byte messages and [media_transfer], the only function that touches the socket.
      [Client] is helper-client.c, [Helper] is helper.c, [Device] the interface of peer.h and
      audio.h that one implements by forwarding and the other by performing; [Rpc] connects
      the two processes by their socket.  [Audio] is audio.c and [Peer] is peer.c, over the
      GStreamer calls of [Gst].
    - Host process (packages/agent-native-bridge/cbits).  [Runtime] is
      HaskellAgentBridgeRuntime.c, [Keychain] is HaskellAgentMcpKeychain.c.
    - Platform services.  [Clipboard] is agent-cli/cbits/ClipboardTypes.c, [NetworkPath] is
      agent-connectivity/cbits/NetworkPathMonitor.c.
    - The bridge interface (agent-native-bridge/include/HaskellAgentBridge.h).  [Utf8] and
      [AbiLayout] are text and structures as they cross it, [HostCall] the reading of the
      memory that the host lends to a call.  In each part the declarations and the contract
      stated in the header are definitions of their own, and the Haskell that implements them
      (under agent-native-bridge/ffi/Agent/CLI/MacOS unless another place is named) is
      translated next to them; the theorems relate the two.
      -- The engine.  [Staging] is what the host prepares for a turn (EngineStaging.hs,
         Voice.hs), [TaskScheduler] the choice of the queued turns that may run
         (agent-runtime-daemon), [SessionCommands] searches and mutations of sessions
         (NativeSessionCommands.hs), and [Engine] the mailbox, the worker, its tasks and their
         threads (EngineMailbox.hs, EngineSubmission.hs, NativeSupervisor.hs,
         EngineLifecycle.hs), which uses the three; [EngineTasks] has its invariants.
      -- A running turn.  [Interactions] are the questions that it asks the host
         (InteractionState.hs, NativeInteraction.hs), [TurnModes] the change of its mode,
         [LoopEvents] the frames of its events (NativeLoopEvent.hs).
      -- Tools that the host performs.  [BrowserAbi], [BrowserResult] and [BrowserPending]
         are the browser's requests, results and commands in flight (BrowserBridge.hs,
         src/Agent/CLI/BrowserTools.hs), [ComputerAbi] and [ComputerSessions] the computer's
         (ComputerBridge.hs).
      -- Repositories.  [RepositoryCalls] is what the entries accept (RepositoryInput.hs,
         RepositoryReviewBridge.hs, RepositoryDeliveryBridge.hs), [RepositoryOperations] the
         callbacks that an accepted operation makes, and [RepositoryWorkers] the threads that
         run operations and the calls that cancel them (RepositoryWorkers.hs).  A check runs a
         command in a repository: [RepositoryCheckCalls] is how it is asked for,
         [RepositoryChecks] its threads and processes (RepositoryChecks.hs,
         agent-repository/src/Agent/CLI/RepositoryReview/Checks.hs) and [RepositoryCheckRuns]
         what holds of its runs.
      -- Services to the host.  [SessionObservation] is the observation of a session
         (SessionObservationBridge.hs), [Syntax] the highlighting of source text
         (SyntaxBridge.hs, agent-syntax), [InstalledSkills] the catalog of the skills that are
         files (InstalledSkills.hs), [DataBrowsing] the tables of a user's data and their rows
         (DatabaseBrowseBridge.hs, agent-runtime/src/Agent/Runtime/Database/Store.hs).
      -- Learned skills, from the database up.  [SkillTables] is the rows, their constraints
         and the transactions and queries on them (Skill.hs and Skill/ under
         agent-store/src/Agent/Store/Postgres), [SkillStore] the abstract store of histories
         that they implement, [SkillAdmin] the operations
         (agent-native-bridge/src/Agent/CLI/ResourceAdmin.hs), [SkillCalls] the entries
         (ResourceAdmin.hs), [SkillAnswers] their callbacks, and [LearnedCatalog] the list for
         older clients (LearnedSkillsBridge.hs).

      -- The catalog of MCP servers, from its file up.  [ConfigRevision] is the keyed hash that
         names a configuration and [McpConfig] its JSON (agent-runtime/src/Agent/Runtime/Config.hs),
         [McpCatalog] the configuration under its lock and the operations on servers and on
         remote connections (the same file, and McpAdmin.hs and McpConnection.hs of
         agent-native-bridge/src/Agent/CLI), [McpTransactions] and [McpRequests] the abstract
         catalog that they implement, [McpOperations] what its requests change, [McpSecrets]
         what it does not tell, [McpServerCalls] the entries of the servers and
         [McpServerAnswers] their callbacks (McpAdminBridge.hs).

    [Programs] and [Threads] are the foundations of the C models, used by all of them.

    ** How C is modelled

    A C function is a [prog]: a tree of the foreign calls it makes, in order, branching on
    their answers.  Foreign code is never defined.  A theorem holds for every answer that
    the environment may give, restricted only by a named law ([posix_law], [gst_law]
    and the like) that states documented behaviour; each witness runs the
    program against a concrete environment.  Handles (descriptors, processes, reference
    counted objects, memory blocks, locks) are resources in a ledger, a multiset: a call
    states which it needs, takes and gives, and "balanced" means that no call needs a handle
    that is gone and that the ledger ends as it should.

    State shared by threads is a record guarded by one mutex, and integers accessed
    atomically.  A [system] interleaves any number of [thread]s one operation at a time;
    [safe] is a proof rule for one thread, and [threads_sound] gives race freedom, absence of
    deadlock and the final ledger for every interleaving.  Destruction of a network monitor,
    the browser commands, the observation worker, the computer sessions, interactions, the
    engine and the repository workers interleave with code that is not C; they are step
    relations with invariants by induction on reachability.  The steps of a repository check,
    of the host and of the processes that it starts are a function of the step and the state,
    and its runs lists of steps.

    Integers are [Z] with the conversions of C written out ([u32], [i32], [u64]); bytes are
    [Byte.byte].  A Haskell [Text] is the list of its scalar values.

    The engine takes from its environment what each reading of the gateway's identity finds,
    what the store answers and how a turn ends.  A turn without a session gets one that no
    running turn has, because the store makes a fresh identifier.  The order of the entries
    of a snapshot is not stated.  That the lease of a gateway credential may fail to be read
    or written is not modelled.

    The catalog of MCP servers is an [io]: a function of a disk, of which each operation on the
    file system may throw and whose file lock makes a transaction one step of all its clients.
    Aeson and Hermes are one pair of functions of which the second reads what the first wrote;
    the parser of URIs, what /dev/urandom gives and the protected store are parameters.  So are
    the retirements of the fleets that run with connections: every change of a connection runs
    those that are registered, after it is stored, and what one of them throws, as it does while
    an MCP lease is active, is the outcome of the request.

    What Git and GitHub answer to a repository operation is a parameter.  A call from C into
    the repository entries runs on a Haskell thread of its own, as calls of exported functions
    do.  The order in which cancel-all takes the workers of a map is any permutation, of which
    the order of the keys is one.

    The number of a check's process group is not used again while the check exists.  That a
    handle cannot be closed while a thread reads from it, because the reader has its lock, is
    the documented behaviour of handles.  The second that the readers of a check are given and
    the quarter of a second between two signals are any number of steps of the others.

    The transactions on learned skills are serializable, so they take effect one after
    another, each on the tables that the last one left; those of other clients, and an attempt
    that is repeated after a lost connection, are transactions like any other.  A constraint
    that does not hold aborts the transaction.  Identifiers are texts as PostgreSQL writes
    them; those that it generates, the clock, what a timestamp column keeps of an instant and
    the order of titles are parameters, and that a generated identifier is new is a condition
    of the theorems that need it.  The objects and rows of a user's data, the texts that Aeson
    writes, and what the discovery of skills finds are parameters too.

    ** The theorems

    - Safety of resources: [client_session_balanced], [helper_main_balanced],
      [agent_audio_balanced], [agent_peer_balanced], [keychain_balanced],
      [network_path_balanced].
    - Concurrency of the C code: [audio_threads_safe], [peer_threads_safe],
      [runtime_threads_safe], [clipboard_threads_safe], [destroy_quiesces].
    - Concurrency of the bridge: [browser_completes_once], [browser_registration_current],
      [computer_closes_once], [computer_registration_retained],
      [interaction_answered_once], [interaction_callback_current], [observation_protocol].
    - The engine's tasks: [tasks_kept] (what the supervisor keeps), [task_ends_once],
      [finished_turn_leaves], [engine_work_conserving] and [runnable_selection] (nothing that
      may run waits), [engine_callbacks_once] (with the mutation that ends the worker, after which callbacks that
      were accepted are lost) and [search_callbacks_conform] (callbacks),
      [task_snapshot_conforms], [engine_entries_contract], [turn_mode_applied].
    - Repository operations: [cancel_all_joins] and [cancel_all_returns] (what cancel-all
      promises), [repository_terminal_once], [repository_entries_contract]
      (with the limits that the header does not state or states otherwise),
      [repository_results_conform]; and [reentrant_cancel_never_returns], where the code
      does not do what the header says.
    - Repository checks: [check_entry_contract], [check_callbacks_conform],
      [check_output_complete], [check_teardown] (what destroy and cancel promise),
      [check_finishes] (that they return, within [work_left] steps); and [early_cancel],
      [escaped_process_blocks] and [reentrant_destroy_never_returns], where the code does not
      do what the header or its comments say.
    - Learned skills: [skill_store_refines] (the tables are a store of histories),
      [skill_revisions_once] (optimistic concurrency: no revision is made twice, and none
      changes), [skill_entries_contract], [skill_mutations_conform], [skill_reads_conform],
      [learned_catalog_conforms].
    - The catalog of MCP servers: [catalog_refines] (the file is an abstract catalog under
      optimistic concurrency), [catalog_errors_keep] (whatever fails; with the one exception of a
      change of a connection that is stored and whose outcome is the exception of a fleet),
      [requests_change_named], [env_values_withheld] (secrets), [server_entries_contract], [server_callbacks_conform],
      [config_json_round_trip], [config_revision_siphash].
    - Data and installed skills: [data_entries_contract] (with the argument for which the code
      does not do what the header says), [data_catalog_conforms], [data_rows_conform]
      (what a page shows, read back as the header describes it); [installed_entries_contract], [installed_skills_conform],
      [listed_skills_readable].
    - Refinement: [media_session_refines] (client and helper together are the device),
      [runtime_refines] (an abstract process machine), [staging_refines] (one record per
      turn), [browser_request_conforms], [syntax_spans_conform] and
      [observation_commits_frames] (what a host that follows the header understands).
    - Function and equivalence: [media_transfer_delivers], [image_snapshot_classifies],
      [browser_result_accepted], [computer_reply_accepted], [interaction_resolve_status],
      [keychain_write_upserts].
    - Well-formedness: [staging_well_typed].
    - Round trips: [keychain_round_trip], [loop_event_round_trip] (with the one field for which
      the frames are not those that the header describes).
    - Errors: [media_request_fails_closed]; also [media_request_validates],
      [audio_fails_closed], [peer_fails_closed], [keychain_rejects_invalid].
    - Termination and liveness: [media_transfer_terminates], [media_close_joins],
      [destroy_terminates], [browser_command_returns], [interaction_returns].

    ** Bounds and fuel

    Loops of the C code that wait for the environment take a fuel argument.  Where the loop
    is bounded the fuel is the bound and is proved to be enough (the transfer of n bytes, the
    reaping of a child); where it is not (retrying interrupted calls, draining a bus, serving
    requests) the safety theorems hold for every fuel, and the termination theorems say what
    the environment must do.  The search for a free browser identifier has fuel one above the
    number of commands in flight ([next_available_fresh]).  The theorems about browser
    commands and computer generations assume fewer than 2^64 - 1 of them in the life of a
    process; the reading of a frame has its length as fuel ([read_fields_written]).

    ** Not modelled

    Of HaskellAgentBridge.h: gateway accounts, the entries of MCP connections and their
    authorization, the dialogs of a connection, transfer of sessions, mobile pairing, voice calls.  Of these the C layer has
    only prototypes; what they do is decided by HTTP, OAuth, WebSocket and process protocols
    of the Haskell core, which are not modelled.  Of the engine: the requests of
    [ha_engine_send_json] other than the start and the cancellation of a turn, restarts of
    MCP servers, and the agent that a turn's thread runs.  Of a repository check: the lock of
    the repository and the comparison of its snapshot, which come before it.  Within the
    modelled parts: JSON
    decoding of tool arguments, URL and image libraries, Base64, the tokenizer of source text
    (parameters with their documented behaviour); the texts that summaries, redactions and
    charts produce; the socket client that feeds an observation; the semantic requests and
    accessibility deltas of the computer tool; the search and the ranking of learned skills,
    and the derivation of the identifiers of a directory's scopes.  Reentrant use that the contracts forbid
    (destroying a monitor from its own callback, replacing a registration from a callback) is
    not modelled.  The Haskell packages outside the bridge are not modelled. *)

From stdpp Require Import base tactics option list gmap gmultiset strings countable.
From Stdlib Require Import ZArith Lia.
From coqutil Require Import Byte Word.LittleEndianList.

Declare Scope agent_scope.
Delimit Scope agent_scope with agent.
#[global] Open Scope Z_scope.
#[global] Open Scope agent_scope.

(** [auto]-style database of the facts every component reuses. *)
Create HintDb agent.
(** Rewriting rules over byte streams of traces. *)
Create Rewrite HintDb agent_rw.

(** ** Machine integers

    A C integer is a [Z] kept in the range of its type by the conversion that the
    code performs: [u32] is conversion to [uint32_t] / [unsigned int], [i32] is
    conversion to [int32_t], [u64] to [uint64_t] / [size_t]. *)

Definition u32 (z : Z) : Z := z mod 2 ^ 32.
Definition i32 (z : Z) : Z := (z + 2 ^ 31) mod 2 ^ 32 - 2 ^ 31.
Definition u64 (z : Z) : Z := z mod 2 ^ 64.

Definition is_u32 (z : Z) : Prop := 0 <= z < 2 ^ 32.
Definition is_i32 (z : Z) : Prop := - 2 ^ 31 <= z < 2 ^ 31.

Lemma u32_range z : is_u32 (u32 z).
Proof. unfold is_u32, u32. apply Z.mod_pos_bound. lia. Qed.

Lemma u32_id z : is_u32 z -> u32 z = z.
Proof. intros H. apply Z.mod_small. exact H. Qed.

Lemma u64_id z : 0 <= z < 2 ^ 64 -> u64 z = z.
Proof. intros H. apply Z.mod_small. exact H. Qed.

Lemma i32_id z : is_i32 z -> i32 z = z.
Proof. unfold is_i32, i32. intros H. rewrite Z.mod_small; lia. Qed.

Lemma i32_range z : is_i32 (i32 z).
Proof.
  unfold is_i32, i32. pose proof (Z.mod_pos_bound (z + 2 ^ 31) (2 ^ 32)). lia.
Qed.

(** The reply argument is written with [(uint32_t)(int32_t)result] and read back with
    [(int32_t)]: the two conversions cancel on every [int]. *)
Lemma i32_u32 z : is_i32 z -> i32 (u32 z) = z.
Proof.
  intros H. rewrite <- (i32_id z H) at 2. unfold i32, u32.
  f_equal. apply Zplus_mod_idemp_l.
Qed.

Lemma i32_pos_u32 z : is_u32 z -> 0 < i32 z -> i32 z = z.
Proof.
  unfold is_u32, i32. intros H Hp.
  destruct (decide (z < 2 ^ 31)).
  - rewrite Z.mod_small; lia.
  - exfalso. rewrite <- (Z.mod_add _ (-1)) in Hp by lia.
    rewrite Z.mod_small in Hp; lia.
Qed.

Lemma i32_even z : z mod 2 = 0 -> i32 z mod 2 = 0.
Proof.
  intros H. unfold i32. change (2 ^ 32) with (2 * 2 ^ 31).
  pose proof (Z.div_mod (z + 2 ^ 31) (2 * 2 ^ 31) ltac:(lia)) as Hd.
  apply Z.mod_divide in H as [k Hk]; [|lia]. apply Z.mod_divide; [lia|].
  exists (k - 2 ^ 31 * ((z + 2 ^ 31) / (2 * 2 ^ 31))). lia.
Qed.

#[export] Hint Resolve u32_range i32_range : agent.

(** ** Lists and byte buffers *)

(** Length of a buffer as a [size_t]. *)
Abbreviation zlen l := (Z.of_nat (length l)).

(** [buf[0 .. n)] and [buf + n]. *)
Definition ztake {A} (n : Z) (l : list A) : list A := take (Z.to_nat n) l.
Definition zdrop {A} (n : Z) (l : list A) : list A := drop (Z.to_nat n) l.

Lemma ztake_zdrop {A} n (l : list A) : ztake n l ++ zdrop n l = l.
Proof. apply take_drop. Qed.

Lemma zlen_ztake {A} n (l : list A) : 0 <= n <= zlen l -> zlen (ztake n l) = n.
Proof. intros H. unfold ztake. rewrite length_take. lia. Qed.

Lemma zlen_zdrop {A} n (l : list A) : 0 <= n <= zlen l -> zlen (zdrop n l) = zlen l - n.
Proof. intros H. unfold zdrop. rewrite length_drop. lia. Qed.

Lemma ztake_all {A} (l : list A) : ztake (zlen l) l = l.
Proof. unfold ztake. rewrite Nat2Z.id. apply firstn_all. Qed.

Lemma ztake_app {A} (k l : list A) : ztake (zlen k) (k ++ l) = k.
Proof. unfold ztake. rewrite Nat2Z.id. apply take_app_length. Qed.

Lemma zdrop_app {A} (k l : list A) : zdrop (zlen k) (k ++ l) = l.
Proof. unfold zdrop. rewrite Nat2Z.id. apply drop_app_length. Qed.

Lemma ztake_prefix {A} n m (l : list A) : n <= m -> ztake n l `prefix_of` ztake m l.
Proof.
  intros H. unfold ztake. replace (Z.to_nat n) with (Z.to_nat n `min` Z.to_nat m)%nat by lia.
  rewrite <- take_take. apply prefix_take.
Qed.

Lemma zlen_nil_inv {A} (l : list A) : zlen l = 0 -> l = [].
Proof. destruct l; [done|]. simpl. lia. Qed.

#[export] Instance byte_eq_dec : EqDecision byte := Byte.byte_eq_dec.

(** [memchr(p, 0, n) != NULL] on a buffer holding exactly [n] bytes. *)
Definition is_nul (b : byte) : bool := byte.unsigned b =? 0.
Definition memchr_nul (l : list byte) : bool := existsb is_nul l.

(** The prefix of a NUL-terminated string that [strlen] counts. *)
Fixpoint c_string (l : list byte) : list byte :=
  match l with
  | [] => []
  | b :: l => if is_nul b then [] else b :: c_string l
  end.

Lemma c_string_id l : memchr_nul l = false -> c_string l = l.
Proof.
  induction l as [|b l IH]; simpl; [done|].
  rewrite orb_false_iff. intros [-> H]. by rewrite IH.
Qed.

Lemma c_string_no_nul l : memchr_nul (c_string l) = false.
Proof. induction l as [|b l IH]; simpl; [done|]. destruct (is_nul b) eqn:E; simpl; by rewrite ?E. Qed.

Lemma c_string_app_nul l t : memchr_nul l = false -> c_string (l ++ Byte.x00 :: t) = l.
Proof.
  induction l as [|b l IH]; simpl; [done|].
  rewrite orb_false_iff. intros [-> H]. by rewrite IH.
Qed.

(** A prefix of a concatenation splits: used to line up byte streams. *)
Lemma app_eq_length {A} (a b c d : list A) :
  a ++ b = c ++ d -> length a = length c -> a = c /\ b = d.
Proof. intros H L. by apply app_inj_1. Qed.
