(* ===== verification/Programs.v ===== *)
(** * Programs that call code outside the repository

    The C files call POSIX, GStreamer, CoreFoundation, the Security framework, the
    pasteboard service and the GHC runtime.  A C function is a [prog E A]: a tree whose
    nodes are the calls it makes (a signature [E], one constructor per foreign function)
    and whose branches are the answers the callee may give.  The callee itself is never
    defined: [traces p tr o] holds for every answer sequence whatsoever, and [exec] runs a
    program against any environment function, which is how the witnesses compute. *)

From stdpp Require Import base tactics option list gmap gmultiset countable.
From Stdlib Require Import ZArith Lia.
From S2P Require Import Prelude.
#[local] Open Scope Z_scope.

(** [Spin] is the leaf reached when the fuel of an unbounded C loop is exhausted. *)
Inductive prog (E : Type -> Type) (A : Type) : Type :=
  | Ret (a : A)
  | Spin
  | Call {R : Type} (e : E R) (k : R -> prog E A).
Arguments Ret {E A} a.
Arguments Spin {E A}.
Arguments Call {E A R} e k.

Fixpoint prog_bind {E A B} (f : A -> prog E B) (p : prog E A) : prog E B :=
  match p with
  | Ret a => f a
  | Spin => Spin
  | Call e k => Call e (fun r => prog_bind f (k r))
  end.
#[export] Instance prog_mret E : MRet (prog E) := fun A => Ret.
#[export] Instance prog_mbind E : MBind (prog E) := fun A B => prog_bind.

(** A single foreign call. *)
Definition call {E R} (e : E R) : prog E R := Call e Ret.

(** ** Traces *)

Record event (E : Type -> Type) := Event { ev_type : Type; ev_call : E ev_type; ev_answer : ev_type }.
Arguments Event {E ev_type} ev_call ev_answer.
Arguments ev_type {E} _.
Arguments ev_call {E} _.
Arguments ev_answer {E} _.

(** [traces p tr o]: [p] may perform exactly the calls of [tr] and then return [o]
    ([None] when the fuel runs out). *)
Fixpoint traces {E A} (p : prog E A) (tr : list (event E)) (o : option A) : Prop :=
  match p with
  | Ret a => tr = [] /\ o = Some a
  | Spin => tr = [] /\ o = None
  | Call e k => exists r tr', tr = Event e r :: tr' /\ traces (k r) tr' o
  end.

Lemma traces_bind {E A B} (p : prog E A) (f : A -> prog E B) tr o :
  traces (mbind f p) tr o <->
  (exists a tr1 tr2, tr = tr1 ++ tr2 /\ traces p tr1 (Some a) /\ traces (f a) tr2 o) \/
  (traces p tr None /\ o = None).
Proof.
  revert tr. induction p as [a| |R e k IH]; intros tr; simpl.
  - split.
    + intros H. left. exists a, [], tr. eauto.
    + intros [(a' & tr1 & tr2 & -> & [-> Ha] & Hf)|[[_ Ha] _]]; by simplify_eq/=.
  - split; [intros [-> ->]; by right|].
    intros [(a' & ? & ? & _ & [_ Ha] & _)|[[-> _] ->]]; by simplify_eq.
  - split.
    + intros (r & tr' & -> & H). apply IH in H as [(a & tr1 & tr2 & -> & H1 & H2)|[H ->]].
      * left. exists a, (Event e r :: tr1), tr2. eauto 10.
      * right. eauto 10.
    + intros [(a & tr1 & tr2 & -> & (r & tr' & -> & H1) & H2)|[(r & tr' & -> & H) ->]].
      * exists r, (tr' ++ tr2). split; [done|]. apply IH. left. eauto 10.
      * exists r, tr'. split; [done|]. apply IH. by right.
Qed.

Lemma traces_call {E A R} (e : E R) (f : R -> prog E A) tr o :
  traces (mbind f (call e)) tr o <-> exists r tr', tr = Event e r :: tr' /\ traces (f r) tr' o.
Proof. done. Qed.

(** ** Running against an environment

    An environment answers each call from, and updates, a state of any type. *)

Definition env (E : Type -> Type) (W : Type) := forall R, E R -> W -> R * W.

Fixpoint exec {E W A} (h : env E W) (p : prog E A) (w : W) : option A * W * list (event E) :=
  match p with
  | Ret a => (Some a, w, [])
  | Spin => (None, w, [])
  | Call e k =>
      let '(r, w1) := h _ e w in
      let '(o, w2, tr) := exec h (k r) w1 in
      (o, w2, Event e r :: tr)
  end.

Definition exec_trace {E W A} (h : env E W) (p : prog E A) (w : W) : list (event E) :=
  (exec h p w).2.
Definition exec_value {E W A} (h : env E W) (p : prog E A) (w : W) : option A :=
  (exec h p w).1.1.
Definition exec_world {E W A} (h : env E W) (p : prog E A) (w : W) : W :=
  (exec h p w).1.2.

(** Every run against an environment is one of the traces. *)
Lemma exec_traces {E W A} (h : env E W) (p : prog E A) w :
  traces p (exec_trace h p w) (exec_value h p w).
Proof.
  unfold exec_trace, exec_value.
  revert w. induction p as [a| |R e k IH]; intros w; simpl; [done|done|].
  destruct (h R e w) as [r w1]. specialize (IH r w1).
  destruct (exec h (k r) w1) as [[o w2] tr]. simpl in *. eauto.
Qed.

Lemma exec_traces_at {E W A} (h : env E W) (p : prog E A) w tr o :
  exec_trace h p w = tr -> exec_value h p w = o -> traces p tr o.
Proof. intros <- <-. apply exec_traces. Qed.

(** Discharges [traces p tr o] by running [p] against [h] from [w]. *)
Ltac run_with h w :=
  first [ eapply (exec_traces_at h _ w); [reflexivity | vm_compute; reflexivity] ].

(** ** Postconditions

    [wp law p Q]: whatever answers allowed by [law] the callees give, if [p] returns then
    its trace and value satisfy [Q].  [law] is the documented behaviour the program relies
    on; [fun _ _ _ => True] relies on nothing. *)

Definition laws (E : Type -> Type) := forall R, E R -> R -> Prop.
Definition no_law {E} : laws E := fun _ _ _ => True.
Definition lawful {E} (law : laws E) (ev : event E) : Prop := law _ (ev_call ev) (ev_answer ev).

Fixpoint wp {E A} (law : laws E) (p : prog E A) (Q : list (event E) -> A -> Prop) : Prop :=
  match p with
  | Ret a => Q [] a
  | Spin => True
  | Call e k => forall r, law _ e r -> wp law (k r) (fun tr => Q (Event e r :: tr))
  end.

Lemma wp_mono {E A} law (p : prog E A) (Q Q' : list (event E) -> A -> Prop) :
  wp law p Q -> (forall tr a, Q tr a -> Q' tr a) -> wp law p Q'.
Proof.
  revert Q Q'. induction p as [a| |R e k IH]; simpl; intros Q Q' H HQ; eauto.
Qed.

Lemma wp_bind {E A B} law (p : prog E A) (f : A -> prog E B) Q :
  wp law p (fun tr a => wp law (f a) (fun tr' => Q (tr ++ tr'))) -> wp law (mbind f p) Q.
Proof.
  revert Q. induction p as [a| |R e k IH]; simpl; intros Q H; [done|done|].
  intros r Hr. apply (IH r (fun tr => Q (Event e r :: tr))). by apply H.
Qed.

Lemma wp_sound {E A} law (p : prog E A) Q tr a :
  wp law p Q -> traces p tr (Some a) -> Forall (lawful law) tr -> Q tr a.
Proof.
  revert Q tr. induction p as [a'| |R e k IH]; simpl; intros Q tr H.
  - intros [-> Ha]; by simplify_eq.
  - intros [-> Ha]; by simplify_eq.
  - intros (r & tr' & -> & Ht) Hl. inversion_clear Hl as [|?? H1 H2].
    apply (IH r (fun tr => Q (Event e r :: tr))); [by apply H|done|done].
Qed.

Lemma wp_trace {E A} law (p : prog E A) (Q : list (event E) -> A -> Prop) :
  (forall tr a, traces p tr (Some a) -> Forall (lawful law) tr -> Q tr a) -> wp law p Q.
Proof.
  revert Q. induction p as [a| |R e k IH]; simpl; intros Q H; [by apply H|done|].
  intros r Hr. apply IH. intros tr a Ht Hl. apply H; [eauto|by constructor].
Qed.

(** An environment all of whose answers the law allows. *)
Definition lawful_env {E W} (law : laws E) (h : env E W) : Prop :=
  forall R (e : E R) w, law R e (h R e w).1.

Lemma exec_lawful {E W A} (law : laws E) (h : env E W) (p : prog E A) w :
  lawful_env law h -> Forall (lawful law) (exec_trace h p w).
Proof.
  intros Hh. unfold exec_trace. revert w. induction p as [a| |R e k IH]; intros w; simpl; [done|done|].
  pose proof (Hh R e w) as He. destruct (h R e w) as [r w1]. specialize (IH r w1).
  destruct (exec h (k r) w1) as [[o w2] tr]. by constructor.
Qed.

(** ** Ownership

    Foreign resources are handles of several kinds.  [gives] are the handles a call hands
    to the caller, [takes] the ones it consumes (release, close, unref, a successful wait),
    [uses] the ones that must be live when it is made.  [audit] replays a trace against the multiset of owned
    handles and fails on a use or a release of a handle that is not owned, so
    [audit tr l = Some l'] says that [tr] never uses a released handle, never releases a
    handle twice and ends owning exactly [l']. *)

Inductive rkind := Cf | Mem | Fd | Pid | Gst | Promise | Actions | PeerHandle | AudioHandle
  | StablePtr | Capability | Runtime | Os.
#[export] Instance rkind_eq_dec : EqDecision rkind.
Proof. solve_decision. Defined.
#[export] Instance rkind_countable : Countable rkind.
Proof.
  refine (inj_countable'
    (fun k => match k with Cf => 0%nat | Mem => 1%nat | Fd => 2%nat | Pid => 3%nat | Gst => 4%nat
              | Promise => 5%nat | Actions => 6%nat | PeerHandle => 7%nat | AudioHandle => 8%nat
              | StablePtr => 9%nat | Capability => 10%nat | Runtime => 11%nat | Os => 12%nat end)
    (fun n => match n with 0%nat => Cf | 1%nat => Mem | 2%nat => Fd | 3%nat => Pid | 4%nat => Gst
              | 5%nat => Promise | 6%nat => Actions | 7%nat => PeerHandle | 8%nat => AudioHandle
              | 9%nat => StablePtr | 10%nat => Capability | 11%nat => Runtime | _ => Os end) _).
  by intros [].
Qed.

Definition resource : Type := rkind * Z.
#[export] Instance resource_eq_dec : EqDecision resource := _.
#[export] Instance resource_countable : Countable resource := _.
Abbreviation ledger := (@gmultiset resource resource_eq_dec resource_countable).

Class Ownership (E : Type -> Type) := {
  gives : forall R, E R -> R -> ledger;
  takes : forall R, E R -> R -> ledger;
  uses : forall R, E R -> ledger
}.
Arguments gives {E _ R} e r.
Arguments takes {E _ R} e r.
Arguments uses {E _ R} e.

(** NULL is 0; a NULL result hands over nothing. *)
Definition own (k : rkind) (h : Z) : ledger := if h =? 0 then ∅ else {[+ (k, h) +]}.

Section ownership.
Context {E : Type -> Type} `{!Ownership E}.

Definition audit_event (ev : event E) (l : ledger) : option ledger :=
  if decide (takes (ev_call ev) (ev_answer ev) ∪ uses (ev_call ev) ⊆ l)
  then Some ((l ∖ takes (ev_call ev) (ev_answer ev)) ⊎ gives (ev_call ev) (ev_answer ev))
  else None.

Fixpoint audit (tr : list (event E)) (l : ledger) : option ledger :=
  match tr with
  | [] => Some l
  | ev :: tr => l ← audit_event ev l; audit tr l
  end.

Lemma audit_app (tr1 tr2 : list (event E)) (l : ledger) :
  audit (tr1 ++ tr2) l = mbind (audit tr2) (audit tr1 l).
Proof.
  revert l. induction tr1 as [|ev tr1 IH]; intros l; simpl; [done|].
  destruct (audit_event ev l); simpl; [apply IH|done].
Qed.

(** [owns law p l Q]: started owning [l], [p] respects ownership and, if it returns [a],
    ends owning an [l'] with [Q a l']. *)
Fixpoint owns {A} (law : laws E) (p : prog E A) (l : ledger) (Q : A -> ledger -> Prop) : Prop :=
  match p with
  | Ret a => Q a l
  | Spin => True
  | Call e k => uses e ⊆ l /\ forall r, law _ e r ->
      takes e r ⊆ l /\ owns law (k r) ((l ∖ takes e r) ⊎ gives e r) Q
  end.

Lemma owns_mono {A} (law : laws E) (p : prog E A) (l : ledger) (Q Q' : A -> ledger -> Prop) :
  owns law p l Q -> (forall a l, Q a l -> Q' a l) -> owns law p l Q'.
Proof.
  revert l. induction p as [a| |R e k IH]; simpl; intros l H HQ; eauto.
  destruct H as [? H]. split; [done|]. intros r Hr. destruct (H r Hr). eauto.
Qed.

Lemma owns_bind {A B} (law : laws E) (p : prog E A) (f : A -> prog E B) (l : ledger) (Q : B -> ledger -> Prop) :
  owns law p l (fun a l => owns law (f a) l Q) -> owns law (mbind f p) l Q.
Proof.
  revert l. induction p as [a| |R e k IH]; simpl; intros l H; [done|done|].
  destruct H as [? H]. split; [done|]. intros r Hr. destruct (H r Hr). eauto.
Qed.

(** Handles a program does not know about stay owned. *)
Lemma owns_frame {A} (law : laws E) (p : prog E A) (l m : ledger) (Q : A -> ledger -> Prop) :
  owns law p l Q -> owns law p (l ⊎ m) (fun a l' => exists l0, l' = l0 ⊎ m /\ Q a l0).
Proof.
  revert l. induction p as [a| |R e k IH]; simpl; intros l H; [eauto|done|].
  destruct H as [Hu H]. split; [multiset_solver|]. intros r Hr. destruct (H r Hr) as [Ht Hk].
  split; [multiset_solver|]. apply IH in Hk.
  by replace ((l ⊎ m) ∖ takes e r ⊎ gives e r) with (l ∖ takes e r ⊎ gives e r ⊎ m)
    by multiset_solver.
Qed.

(** Soundness, also on runs cut short by the fuel. *)
Lemma owns_sound {A} (law : laws E) (p : prog E A) (l : ledger) (Q : A -> ledger -> Prop) (tr : list (event E)) (o : option A) :
  owns law p l Q -> traces p tr o -> Forall (lawful law) tr ->
  exists l', audit tr l = Some l' /\ forall a, o = Some a -> Q a l'.
Proof.
  revert l tr. induction p as [a| |R e k IH]; simpl; intros l tr H.
  - intros [-> ->] _. exists l. split; [done|]. by intros ? [= <-].
  - intros [-> ->] _. exists l. split; [done|]. by intros ? [=].
  - intros (r & tr' & -> & Ht) Hl. inversion_clear Hl as [|?? H1 H2].
    destruct H as [Hok H]. destruct (H r H1) as [Htk Hk]. simpl. unfold audit_event. simpl.
    rewrite decide_True by multiset_solver. simpl. eauto.
Qed.
End ownership.

(** A call that neither takes nor gives leaves the ledger alone. *)
Lemma ledger_keep (l : ledger) : (l ∖ ∅) ⊎ ∅ = l.
Proof. multiset_solver. Qed.

Lemma own_singleton k h : h <> 0 -> own k h = {[+ (k, h) +]}.
Proof. intros H. unfold own. by rewrite (proj2 (Z.eqb_neq _ _) H). Qed.

Lemma own_null k : own k 0 = ∅.
Proof. done. Qed.

(** Multiset arithmetic on ledgers of known handles. *)
Ltac ledger_solve :=
  solve [done | multiset_solver | unfold own; repeat case_match; multiset_solver].

(** A summand of a left-associated sum. *)
Ltac ledger_in :=
  repeat first [reflexivity | apply gmultiset_disj_union_subseteq_r
               | etrans; [|apply gmultiset_disj_union_subseteq_l]].

(** One foreign call of an [owns] goal: check what it uses, consider any answer, check what it
    takes. *)
Ltac own_call :=
  simpl; split; [ledger_solve|];
  let r := fresh "r" in let H := fresh "Hlaw" in
  intros r H; split; [try ledger_solve|]; rewrite ?ledger_keep.

(** A program that makes no unbounded loop always returns. *)
Fixpoint returns {E A} (p : prog E A) : Prop :=
  match p with Ret _ => True | Spin => False | Call _ k => forall r, returns (k r) end.

Lemma returns_bind {E A B} (p : prog E A) (f : A -> prog E B) :
  returns p -> (forall a, returns (f a)) -> returns (mbind f p).
Proof. induction p as [a| |R e k IH]; simpl; eauto. Qed.

(** ... or does when the callees keep to their documented behaviour. *)
Fixpoint returns_under {E A} (law : laws E) (p : prog E A) : Prop :=
  match p with Ret _ => True | Spin => False | Call e k => forall r, law _ e r -> returns_under law (k r) end.

Lemma returns_returns_under {E A} (law : laws E) (p : prog E A) : returns p -> returns_under law p.
Proof. induction p as [a| |R e k IH]; simpl; eauto. Qed.

Lemma returns_under_bind {E A B} (law : laws E) (p : prog E A) (f : A -> prog E B) :
  returns_under law p -> (forall a, returns_under law (f a)) -> returns_under law (mbind f p).
Proof. induction p as [a| |R e k IH]; simpl; eauto. Qed.

Lemma returns_under_sound {E A} (law : laws E) (p : prog E A) tr o :
  returns_under law p -> traces p tr o -> Forall (lawful law) tr -> is_Some o.
Proof.
  revert tr. induction p as [a| |R e k IH]; simpl; intros tr H.
  - intros [_ ->]. eauto.
  - done.
  - intros (r & tr' & -> & Ht) [Hr Hl]%Forall_cons_1. eauto.
Qed.

Lemma returns_sound {E A} (p : prog E A) tr o : returns p -> traces p tr o -> is_Some o.
Proof.
  revert tr. induction p as [a| |R e k IH]; simpl; intros tr H.
  - intros [_ ->]. eauto.
  - done.
  - intros (r & tr' & -> & Ht). eauto.
Qed.

#[export] Hint Resolve returns_bind returns_sound owns_mono : agent.

(** ** Programs over two libraries *)

Inductive sum_sig (E F : Type -> Type) (R : Type) : Type :=
  | left_call (e : E R)
  | right_call (e : F R).
Arguments left_call {E F R} e.
Arguments right_call {E F R} e.
Notation "E +' F" := (sum_sig E F) (at level 50, left associativity) : agent_scope.

(** A program over [E] inside a program over [E +' F]. *)
Fixpoint lift_left {E F A} (p : prog E A) : prog (sum_sig E F) A :=
  match p with
  | Ret a => Ret a
  | Spin => Spin
  | Call e k => Call (left_call e) (fun r => lift_left (k r))
  end.

Definition left_event {E F} (ev : event E) : event (sum_sig E F) :=
  Event (left_call (ev_call ev)) (ev_answer ev).

(** The part of a trace that concerns one of the two libraries. *)
Definition to_left {E F} (ev : event (sum_sig E F)) : option (event E) :=
  match ev_call ev with
  | left_call e => Some (Event e (ev_answer ev))
  | right_call _ => None
  end.
Definition to_right {E F} (ev : event (sum_sig E F)) : option (event F) :=
  match ev_call ev with
  | left_call _ => None
  | right_call e => Some (Event e (ev_answer ev))
  end.
Definition lefts {E F} (tr : list (event (sum_sig E F))) : list (event E) := omap to_left tr.
Definition rights {E F} (tr : list (event (sum_sig E F))) : list (event F) := omap to_right tr.

Definition sum_law {E F} (lE : laws E) (lF : laws F) : laws (sum_sig E F) := fun R c =>
  match c with left_call e => lE R e | right_call e => lF R e end.

#[export] Instance sum_ownership {E F} `{!Ownership E, !Ownership F} : Ownership (sum_sig E F) := {
  gives := fun R c => match c with left_call e => gives e | right_call e => gives e end;
  takes := fun R c => match c with left_call e => takes e | right_call e => takes e end;
  uses := fun R c => match c with left_call e => uses e | right_call e => uses e end
}.

Section sums.
Context {E F : Type -> Type}.
Implicit Types (tr : list (event (sum_sig E F))).

Lemma traces_lift_left {A} (p : prog E A) tr o :
  traces (lift_left p) tr o <-> exists tr' : list (event E), tr = map left_event tr' /\ traces p tr' o.
Proof.
  revert tr. induction p as [a| |R e k IH]; intros tr; simpl.
  - split; [intros [-> ->]; by exists []|]; by intros (tr' & -> & -> & ->).
  - split; [intros [-> ->]; by exists []|]; by intros (tr' & -> & -> & ->).
  - split.
    + intros (r & tr1 & -> & H). apply IH in H as (tr' & -> & H).
      exists (Event e r :: tr'). split; [done|]. eauto.
    + intros (tr' & -> & r & tr1 & -> & H). exists r, (map left_event tr1).
      split; [done|]. apply IH. eauto.
Qed.

Lemma lefts_app tr1 tr2 : lefts (tr1 ++ tr2) = lefts tr1 ++ lefts tr2.
Proof. apply omap_app. Qed.
Lemma rights_app tr1 tr2 : rights (tr1 ++ tr2) = rights tr1 ++ rights tr2.
Proof. apply omap_app. Qed.
Lemma lefts_left (tr' : list (event E)) : lefts (map (left_event (F := F)) tr') = tr'.
Proof. unfold lefts. induction tr' as [|[R e r] tr' IH]; [done|]. simpl. by f_equal. Qed.
Lemma rights_left (tr' : list (event E)) : rights (map (left_event (F := F)) tr') = [].
Proof. unfold rights. by induction tr' as [|[R e r] tr' IH]. Qed.

Lemma lawful_left (lE : laws E) (lF : laws F) (tr' : list (event E)) :
  Forall (lawful (sum_law lE lF)) (map left_event tr') -> Forall (lawful lE) tr'.
Proof. rewrite Forall_map. done. Qed.

Lemma owns_lift_left `{!Ownership E, !Ownership F} {A} (lE : laws E) (lF : laws F) (p : prog E A)
    (l : ledger) (Q : A -> ledger -> Prop) :
  owns lE p l Q -> owns (sum_law lE lF) (lift_left p) l Q.
Proof.
  revert l. induction p as [a| |R e k IH]; simpl; intros l H; [done|done|].
  destruct H as [Hu H]. split; [done|]. intros r Hr. destruct (H r Hr). eauto.
Qed.
End sums.

(** Environments of two libraries over one world. *)
Definition sum_env {E F W} (hE : env E W) (hF : env F W) : env (sum_sig E F) W := fun R c =>
  match c with left_call e => hE R e | right_call e => hF R e end.

Lemma sum_env_lawful {E F W} (lE : laws E) (lF : laws F) (hE : env E W) (hF : env F W) :
  lawful_env lE hE -> lawful_env lF hF -> lawful_env (sum_law lE lF) (sum_env hE hF).
Proof. intros H1 H2 R [e|e] w; [apply H1|apply H2]. Qed.
