(* ===== verification/MediaProtocol.v ===== *)
(** * The media helper protocol (agent-webrtc/cbits/helper-protocol.h)

    The client library and the helper process exchange fixed 16-byte messages followed by
    a payload over an inherited socket.  This file holds the POSIX calls both sides make,
    the message layout and [media_transfer], the only function that touches the socket. *)

From stdpp Require Import base tactics option list gmap gmultiset.
From Stdlib Require Import ZArith Lia.
From coqutil Require Import Byte Word.LittleEndianList.
From S2P Require Import Prelude Programs.
#[local] Open Scope Z_scope.

(** ** POSIX calls

    An answer of [send] is [(n, errno)]; of [recv], [(n, errno, data)] with [data] the bytes
    the kernel stored at the buffer; of [waitpid], [(result, errno)]. *)

Inductive spawn_action := AddClose (fd : Z) | AddDup2 (fd new_fd : Z).

Inductive Posix : Type -> Type :=
  | send (fd : Z) (p : list byte) : Posix (Z * Z)
  | recv (fd : Z) (length : Z) : Posix (Z * Z * list byte)
  | close (fd : Z) : Posix unit
  | waitpid (pid : Z) (nohang : bool) : Posix (Z * Z)
  | nanosleep (nanoseconds : Z) : Posix unit
  | kill_sigkill (pid : Z) : Posix unit
  | getenv_media_helper : Posix (option (list byte))
  | socketpair_cloexec : Posix (Z * (Z * Z))
  | fcntl_dupfd_cloexec (fd min : Z) : Posix Z
  | fcntl_setfd_cloexec (fd : Z) : Posix Z
  | spawn_file_actions_init : Posix (Z * Z)
  | spawn_file_actions_add (actions : Z) (a : spawn_action) : Posix Z
  | spawn_file_actions_destroy (actions : Z) : Posix unit
  | posix_spawn (program : list byte) (actions : Z) : Posix (Z * Z)
  | setsockopt_timeouts (fd : Z) (seconds : Z) : Posix unit
  | malloc (size : Z) : Posix (Z * list byte)
  | free (p : Z) : Posix unit.

Definition EINTR : Z := 4.
Definition ECHILD : Z := 10.

(** Documented behaviour of the calls whose answers the code computes with: [send] and
    [recv] report at most the bytes they were given, a non-NULL [malloc] result points to as
    many bytes as were asked for, descriptors are nonnegative, and a blocking [waitpid] on one
    child returns it or fails with EINTR or ECHILD; process ids are positive. *)
Definition posix_law : laws Posix := fun R e =>
  match e in Posix R return R -> Prop with
  | send _ p => fun '(n, _) => n <= zlen p
  | recv _ length => fun '(n, _, data) => n <= length /\ zlen data = Z.max 0 n
  | malloc size => fun '(p, bytes) => p <> 0 -> zlen bytes = size
  | socketpair_cloexec => fun '(failed, (a, b)) => failed = 0 -> 0 <= a /\ 0 <= b
  | posix_spawn _ _ => fun '(error, p) => error = 0 -> 0 < p
  | waitpid pid false => fun '(result, errno) =>
      result = pid \/ (result < 0 /\ (errno = EINTR \/ errno = ECHILD))
  | _ => fun _ => True
  end.

(** Descriptors, allocations, child processes and spawn actions as owned handles.  A child is
    consumed by the [waitpid] that reaps it or finds it already gone. *)
#[export] Instance posix_ownership : Ownership Posix := {
  gives := fun R e =>
    match e in Posix R return R -> ledger with
    | socketpair_cloexec => fun '(failed, (a, b)) =>
        if failed =? 0 then {[+ (Fd, a) +]} ⊎ {[+ (Fd, b) +]} else ∅
    | fcntl_dupfd_cloexec _ _ => fun r => if r <? 0 then ∅ else {[+ (Fd, r) +]}
    | spawn_file_actions_init => fun '(failed, a) =>
        if failed =? 0 then {[+ (Actions, a) +]} else ∅
    | posix_spawn _ _ => fun '(error, p) => if error =? 0 then {[+ (Pid, p) +]} else ∅
    | malloc _ => fun '(p, _) => own Mem p
    | _ => fun _ => ∅
    end;
  takes := fun R e =>
    match e in Posix R return R -> ledger with
    | close f => fun _ => {[+ (Fd, f) +]}
    | waitpid p _ => fun '(result, errno) =>
        if (result =? p) || ((result <? 0) && (errno =? ECHILD)) then {[+ (Pid, p) +]} else ∅
    | spawn_file_actions_destroy a => fun _ => {[+ (Actions, a) +]}
    | free p => fun _ => own Mem p
    | _ => fun _ => ∅
    end;
  uses := fun R e =>
    match e with
    | send f _ | recv f _ | close f | fcntl_dupfd_cloexec f _ | fcntl_setfd_cloexec f
    | setsockopt_timeouts f _ => {[+ (Fd, f) +]}
    | waitpid p _ | kill_sigkill p => {[+ (Pid, p) +]}
    | spawn_file_actions_add a _ | spawn_file_actions_destroy a | posix_spawn _ a =>
        {[+ (Actions, a) +]}
    | free p => own Mem p
    | _ => ∅
    end
}.

(** The bytes a call moves out of, and into, the process. *)
Definition sent_by (ev : event Posix) : list byte :=
  match ev_call ev in Posix R return R -> list byte with
  | send _ p => fun '(n, _) => ztake n p
  | _ => fun _ => []
  end (ev_answer ev).
Definition received_by (ev : event Posix) : list byte :=
  match ev_call ev in Posix R return R -> list byte with
  | recv _ _ => fun '(_, _, data) => data
  | _ => fun _ => []
  end (ev_answer ev).
Definition interrupted (ev : event Posix) : bool :=
  match ev_call ev in Posix R return R -> bool with
  | send _ _ => fun '(n, errno) => (n <? 0) && (errno =? EINTR)
  | recv _ _ => fun '(n, errno, _) => (n <? 0) && (errno =? EINTR)
  | _ => fun _ => false
  end (ev_answer ev).

Definition sent (tr : list (event Posix)) : list byte := tr ≫= sent_by.
Definition received (tr : list (event Posix)) : list byte := tr ≫= received_by.
Definition interrupts (tr : list (event Posix)) : Z := zlen (filter interrupted tr).

(** ** Constants and message layout *)

Definition AGENT_MEDIA_LIMIT : Z := 256 * 1024.
Definition AGENT_MEDIA_MAGIC : Z := 0x414d4431.

Inductive AgentMediaOperation :=
  | MEDIA_OPEN_PEER | MEDIA_OPEN_CAPTURE | MEDIA_OPEN_PLAYBACK
  | MEDIA_CREATE | MEDIA_SET | MEDIA_OPERATION | MEDIA_LOCAL | MEDIA_STATE
  | MEDIA_PUSH | MEDIA_PULL | MEDIA_AUDIO_READ | MEDIA_AUDIO_WRITE | MEDIA_AUDIO_STATE.
#[export] Instance AgentMediaOperation_eq_dec : EqDecision AgentMediaOperation.
Proof. solve_decision. Defined.

(** The enumeration starts at 1. *)
Definition operation_code (op : AgentMediaOperation) : Z :=
  match op with
  | MEDIA_OPEN_PEER => 1 | MEDIA_OPEN_CAPTURE => 2 | MEDIA_OPEN_PLAYBACK => 3
  | MEDIA_CREATE => 4 | MEDIA_SET => 5 | MEDIA_OPERATION => 6 | MEDIA_LOCAL => 7
  | MEDIA_STATE => 8 | MEDIA_PUSH => 9 | MEDIA_PULL => 10 | MEDIA_AUDIO_READ => 11
  | MEDIA_AUDIO_WRITE => 12 | MEDIA_AUDIO_STATE => 13
  end.

Definition all_operations : list AgentMediaOperation :=
  [MEDIA_OPEN_PEER; MEDIA_OPEN_CAPTURE; MEDIA_OPEN_PLAYBACK; MEDIA_CREATE; MEDIA_SET;
   MEDIA_OPERATION; MEDIA_LOCAL; MEDIA_STATE; MEDIA_PUSH; MEDIA_PULL; MEDIA_AUDIO_READ;
   MEDIA_AUDIO_WRITE; MEDIA_AUDIO_STATE].

(** The [case] label, if any, that a received [uint32_t] matches. *)
Definition operation_of_code (z : Z) : option AgentMediaOperation :=
  find (fun op => operation_code op =? z) all_operations.

Lemma operation_of_code_code op : operation_of_code (operation_code op) = Some op.
Proof. by destruct op. Qed.

Lemma operation_of_code_Some z op : operation_of_code z = Some op -> operation_code op = z.
Proof. intros H. apply find_some in H as [_ H]. by apply Z.eqb_eq. Qed.

Lemma operation_code_u32 op : is_u32 (operation_code op).
Proof. unfold is_u32. destruct op; simpl; lia. Qed.

Record AgentMediaMessage := Message { magic : Z; operation : Z; argument : Z; length_ : Z }.

(** [sizeof (AgentMediaMessage)]: four [uint32_t], no padding. *)
Definition sizeof_message : Z := 16.

(** The struct is sent as it lies in memory, in the byte order of the one machine both
    processes run on; every supported target is little-endian. *)
Definition message_bytes (m : AgentMediaMessage) : list byte :=
  le_split 4 (magic m) ++ le_split 4 (operation m) ++ le_split 4 (argument m)
    ++ le_split 4 (length_ m).

Definition message_of_bytes (b : list byte) : AgentMediaMessage :=
  Message (le_combine (ztake 4 b)) (le_combine (ztake 4 (zdrop 4 b)))
    (le_combine (ztake 4 (zdrop 8 b))) (le_combine (ztake 4 (zdrop 12 b))).

Arguments message_bytes : simpl never.
Arguments message_of_bytes : simpl never.

Definition message_wf (m : AgentMediaMessage) : Prop :=
  is_u32 (magic m) /\ is_u32 (operation m) /\ is_u32 (argument m) /\ is_u32 (length_ m).

Lemma zlen_message_bytes m : zlen (message_bytes m) = sizeof_message.
Proof. unfold message_bytes. rewrite !length_app, !length_le_split. done. Qed.

Lemma le_combine_split_u32 z : is_u32 z -> le_combine (le_split 4 z) = z.
Proof. intros H. rewrite le_combine_split. by apply Z.mod_small. Qed.

Lemma le_combine_u32 b : zlen b <= 4 -> is_u32 (le_combine b).
Proof.
  intros H. pose proof (le_combine_bound b) as [H0 H1]. split; [done|].
  eapply Z.lt_le_trans; [exact H1|]. apply Z.pow_le_mono_r; lia.
Qed.

Lemma message_of_bytes_wf b : message_wf (message_of_bytes b).
Proof.
  unfold message_wf, message_of_bytes, ztake; simpl.
  repeat split; apply le_combine_u32; rewrite length_take; lia.
Qed.

Lemma message_bytes_roundtrip m : message_wf m -> message_of_bytes (message_bytes m) = m.
Proof.
  intros (H1 & H2 & H3 & H4). destruct m as [m1 m2 m3 m4]; simpl in *.
  rewrite <- (le_combine_split_u32 m1), <- (le_combine_split_u32 m2),
    <- (le_combine_split_u32 m3), <- (le_combine_split_u32 m4) at 2 by done.
  reflexivity.
Qed.

Lemma message_of_bytes_roundtrip b : zlen b = sizeof_message -> message_bytes (message_of_bytes b) = b.
Proof.
  intros H. do 16 (destruct b as [|? b]; [done|]).
  destruct b; [clear H|exfalso; unfold sizeof_message in H; cbn [length] in H; lia].
  unfold message_bytes, message_of_bytes. cbn [magic operation argument length_].
  rewrite !split_le_combine' by done. done.
Qed.

Lemma message_bytes_inj m m' :
  message_wf m -> message_wf m' -> message_bytes m = message_bytes m' -> m = m'.
Proof.
  intros H H' E. rewrite <- (message_bytes_roundtrip m), <- (message_bytes_roundtrip m') by done.
  by rewrite E.
Qed.

(** [operation == OPERATION || ... || operation == AUDIO_READ] *)
Definition returns_bytes_op (op : Z) : bool :=
  (op =? operation_code MEDIA_OPERATION) || (op =? operation_code MEDIA_LOCAL)
  || (op =? operation_code MEDIA_PULL) || (op =? operation_code MEDIA_AUDIO_READ).

(** ** media_transfer *)

(** The bytes [data] stored at [buffer + off]. *)
Definition store (buffer : list byte) (off : Z) (data : list byte) : list byte :=
  ztake off buffer ++ data ++ zdrop (off + zlen data) buffer.

(** One system call of the loop: [(n, errno)] and the buffer after it. *)
Definition transfer_call (fd : Z) (buffer : list byte) (off length : Z) (writing : bool)
    : prog Posix (Z * Z * list byte) :=
  if writing then
    '(n, errno) ← call (send fd (ztake length (zdrop off buffer)));
    Ret (n, errno, buffer)
  else
    '(n, errno, data) ← call (recv fd length);
    Ret (n, errno, store buffer off data).

(** [p] is [buffer + off]; the result is C's 0 or 1 and the buffer afterwards. *)
Fixpoint media_transfer (fuel : nat) (fd : Z) (buffer : list byte) (off length : Z)
    (writing : bool) : prog Posix (Z * list byte) :=
  if length =? 0 then Ret (1, buffer)
  else match fuel with
  | O => Spin
  | S fuel =>
      '(n, errno, buffer) ← transfer_call fd buffer off length writing;
      if (n <? 0) && (errno =? EINTR)
      then media_transfer fuel fd buffer off length writing
      else if n <=? 0 then Ret (0, buffer)
      else media_transfer fuel fd buffer (off + n) (u64 (length - n)) writing
  end.

Lemma zlen_store buffer off data :
  0 <= off -> off + zlen data <= zlen buffer -> zlen (store buffer off data) = zlen buffer.
Proof.
  intros H0 H. unfold store. rewrite !length_app. unfold ztake, zdrop.
  rewrite length_take, length_drop. lia.
Qed.

Lemma ztake_nonpos {A} n (l : list A) : n <= 0 -> ztake n l = [].
Proof. intros H. unfold ztake. by rewrite (Z2Nat.nonpos n H). Qed.

Lemma zdrop_zdrop {A} n m (l : list A) : 0 <= n -> 0 <= m -> zdrop n (zdrop m l) = zdrop (m + n) l.
Proof. intros. unfold zdrop. rewrite drop_drop. f_equal. lia. Qed.

Lemma ztake_zdrop_split {A} n len off (l : list A) :
  0 <= off -> 0 <= n <= len ->
  ztake len (zdrop off l) = ztake n (zdrop off l) ++ ztake (len - n) (zdrop (off + n) l).
Proof.
  intros. rewrite <- zdrop_zdrop by lia. unfold ztake, zdrop.
  rewrite take_take_drop. f_equal. lia.
Qed.

Lemma store_app (l1 l2 d : list byte) : store (l1 ++ l2) (zlen l1) d = l1 ++ d ++ zdrop (zlen d) l2.
Proof.
  unfold store. rewrite ztake_app. do 2 f_equal.
  rewrite <- zdrop_zdrop by lia. by rewrite zdrop_app.
Qed.

Lemma store_nil buffer off : 0 <= off -> store buffer off [] = buffer.
Proof. intros. unfold store. simpl. rewrite Z.add_0_r. apply ztake_zdrop. Qed.

Lemma store_store buffer off d1 d2 :
  0 <= off <= zlen buffer ->
  store (store buffer off d1) (off + zlen d1) d2 = store buffer off (d1 ++ d2).
Proof.
  intros H. pose proof (zlen_ztake off buffer ltac:(lia)) as Hl.
  pose proof (ztake_zdrop off buffer) as Hb. revert Hl Hb.
  generalize (ztake off buffer), (zdrop off buffer). intros l1 l2 <- <-.
  rewrite !store_app. replace (zlen l1 + zlen d1) with (zlen (l1 ++ d1)) by (rewrite length_app; lia).
  rewrite app_assoc, store_app, zdrop_zdrop by lia.
  rewrite <- !app_assoc. do 4 f_equal. rewrite length_app. lia.
Qed.

Lemma sent_cons ev tr : sent (ev :: tr) = sent_by ev ++ sent tr.
Proof. done. Qed.
Lemma received_cons ev tr : received (ev :: tr) = received_by ev ++ received tr.
Proof. done. Qed.
Lemma sent_app tr1 tr2 : sent (tr1 ++ tr2) = sent tr1 ++ sent tr2.
Proof. apply bind_app. Qed.
Lemma received_app tr1 tr2 : received (tr1 ++ tr2) = received tr1 ++ received tr2.
Proof. apply bind_app. Qed.
Lemma interrupts_cons ev tr :
  interrupts (ev :: tr) = (if interrupted ev then 1 else 0) + interrupts tr.
Proof.
  unfold interrupts. destruct (interrupted ev) eqn:E.
  - rewrite filter_cons_True by (rewrite E; exact I). simpl. lia.
  - rewrite filter_cons_False by (rewrite E; intros []). lia.
Qed.
Lemma interrupts_nonneg tr : 0 <= interrupts tr.
Proof. unfold interrupts. lia. Qed.
#[export] Hint Rewrite sent_cons received_cons sent_app received_app interrupts_cons : agent_rw.

(** Calls that only move bytes on [fd]. *)
Definition io_on (fd : Z) (ev : event Posix) : Prop :=
  match ev_call ev with send f _ => f = fd | recv f _ => f = fd | _ => False end.

(** What one iteration of the loop does with the answer of its call. *)
Lemma media_transfer_step fuel fd buffer off length writing tr o :
  length <> 0 ->
  traces (media_transfer (S fuel) fd buffer off length writing) tr o ->
  exists ev n errno buffer' tr', tr = ev :: tr' /\
    traces (transfer_call fd buffer off length writing) [ev] (Some (n, errno, buffer')) /\
    ((n < 0 /\ errno = EINTR /\ traces (media_transfer fuel fd buffer' off length writing) tr' o) \/
     (n <= 0 /\ tr' = [] /\ o = Some (0, buffer')) \/
     (0 < n /\ traces (media_transfer fuel fd buffer' (off + n) (u64 (length - n)) writing) tr' o)).
Proof.
  intros H. simpl. rewrite (proj2 (Z.eqb_neq _ _) H).
  rewrite traces_bind. intros [([[n errno] b'] & tr1 & tr2 & -> & Hc & Ht)|[Hc _]];
    destruct writing; simpl in Hc.
  1: destruct Hc as ([n' e'] & tr' & -> & -> & Hc).
  2: destruct Hc as ([[n' e'] data] & tr' & -> & -> & Hc).
  3: by destruct Hc as ([n' e'] & tr' & -> & _ & Hc).
  3: by destruct Hc as ([[n' e'] data] & tr' & -> & _ & Hc).
  1,2: simplify_eq/=; do 5 eexists; (split; [reflexivity|]); (split; [by do 2 eexists|]);
    destruct (Z.ltb_spec n' 0), (Z.eqb_spec e' EINTR), (Z.leb_spec n' 0); simpl in Ht; try lia;
    first [by left | right; left; destruct Ht; by simplify_eq | right; right; by eauto].
Qed.

Lemma transfer_send_event fd buffer off length ev n errno buffer' :
  traces (transfer_call fd buffer off length true) [ev] (Some (n, errno, buffer')) ->
  lawful posix_law ev -> 0 <= off -> 0 <= length -> off + length <= zlen buffer ->
  buffer' = buffer /\ io_on fd ev /\ n <= length /\ received_by ev = [] /\
  sent_by ev = ztake n (zdrop off buffer) /\
  interrupted ev = ((n <? 0) && (errno =? EINTR)).
Proof.
  simpl. intros ([n' e'] & tr' & Htr & _ & Ho) Hl Hoff Hlen Hb. simplify_eq.
  unfold lawful in Hl. simpl in *.
  rewrite zlen_ztake in Hl by (rewrite zlen_zdrop; lia).
  split_and!; try done. unfold sent_by, ztake. simpl. rewrite take_take. f_equal. lia.
Qed.

Lemma transfer_recv_event fd buffer off length ev n errno buffer' :
  traces (transfer_call fd buffer off length false) [ev] (Some (n, errno, buffer')) ->
  lawful posix_law ev ->
  buffer' = store buffer off (received_by ev) /\ io_on fd ev /\ n <= length /\
  zlen (received_by ev) = Z.max 0 n /\ sent_by ev = [] /\
  interrupted ev = ((n <? 0) && (errno =? EINTR)).
Proof.
  simpl. intros ([[n' e'] data] & tr' & Htr & _ & Ho) Hl. simplify_eq.
  unfold lawful in Hl. simpl in *. by destruct Hl as [? ?].
Qed.

(** Reading: the bytes received are stored in order from [p], nothing else of the buffer
    changes, and the result is 1 exactly when all [length] bytes arrived.  The fuel runs out
    only after that many interrupted calls and received bytes. *)
Lemma media_transfer_recv fuel fd buffer off length tr o :
  traces (media_transfer fuel fd buffer off length false) tr o ->
  Forall (lawful posix_law) tr ->
  0 <= off -> 0 <= length < 2 ^ 64 -> off + length <= zlen buffer ->
  Forall (io_on fd) tr /\ sent tr = [] /\
  match o with
  | Some (r, b) => b = store buffer off (received tr) /\
      ((r = 1 /\ zlen (received tr) = length) \/ (r = 0 /\ zlen (received tr) < length))
  | None => zlen (received tr) < length /\
      Z.of_nat fuel <= zlen (received tr) + interrupts tr
  end.
Proof.
  revert buffer off length tr. induction fuel as [|fuel IH]; intros buffer off length tr Ht Hl Hoff Hlen Hb.
  all: destruct (decide (length = 0)) as [->|Hne];
    [destruct Ht as [-> ->]; split_and!; [constructor|done|by rewrite store_nil|by left]|].
  { simpl in Ht. rewrite (proj2 (Z.eqb_neq _ _) Hne) in Ht. destruct Ht as [-> ->].
    split_and!; [constructor|done|simpl; lia|pose proof (interrupts_nonneg []); simpl; lia]. }
  apply media_transfer_step in Ht as (ev & n & errno & b' & tr' & -> & Hc & Ht); [|done].
  apply Forall_cons_1 in Hl as [Hev Hl'].
  eapply transfer_recv_event in Hc as (-> & Hio & Hn & Hz & Hs & Hi); [|done].
  rewrite sent_cons, received_cons, interrupts_cons, Hs, Hi, length_app.
  destruct Ht as [(Hneg & -> & Ht)|[(Hneg & -> & ->)|(Hpos & Ht)]].
  - rewrite Z.max_l in Hz by lia. apply zlen_nil_inv in Hz. rewrite Hz, store_nil in Ht by done.
    apply IH in Ht as (? & ? & Ho); [|done..].
    split_and!; [by constructor|done|]. rewrite Hz. simpl.
    rewrite (proj2 (Z.ltb_lt n 0)) by done. simpl. destruct o as [[r b]|]; [done|lia].
  - rewrite Z.max_l in Hz by lia. apply zlen_nil_inv in Hz. rewrite Hz. simpl.
    split_and!; [by repeat constructor|done|done|right; lia].
  - rewrite Z.max_r in Hz by lia. rewrite u64_id in Ht by lia.
    apply IH in Ht as (? & ? & Ho); [|done|lia|lia|rewrite zlen_store by lia; lia].
    split_and!; [by constructor|done|]. rewrite (proj2 (Z.ltb_ge n 0)) by lia. simpl.
    destruct o as [[r b]|]; [|lia]. destruct Ho as [-> Ho]. split.
    + rewrite <- Hz. rewrite store_store by lia. done.
    + destruct Ho as [[-> Ho]|[-> Ho]]; [left|right]; lia.
Qed.

(** Writing: the bytes sent are a prefix of [p[0 .. length)], all of it when the result
    is 1. *)
Lemma media_transfer_send fuel fd buffer off length tr o :
  traces (media_transfer fuel fd buffer off length true) tr o ->
  Forall (lawful posix_law) tr ->
  0 <= off -> 0 <= length < 2 ^ 64 -> off + length <= zlen buffer ->
  Forall (io_on fd) tr /\ received tr = [] /\
  sent tr = ztake (zlen (sent tr)) (zdrop off buffer) /\
  match o with
  | Some (r, b) => b = buffer /\
      ((r = 1 /\ zlen (sent tr) = length) \/ (r = 0 /\ zlen (sent tr) < length))
  | None => zlen (sent tr) < length /\ Z.of_nat fuel <= zlen (sent tr) + interrupts tr
  end.
Proof.
  revert off length tr. induction fuel as [|fuel IH]; intros off length tr Ht Hl Hoff Hlen Hb.
  all: destruct (decide (length = 0)) as [->|Hne];
    [destruct Ht as [-> ->]; split_and!; [constructor|done|done|done|by left]|].
  { simpl in Ht. rewrite (proj2 (Z.eqb_neq _ _) Hne) in Ht. destruct Ht as [-> ->].
    split_and!; [constructor|done|done|simpl; lia|pose proof (interrupts_nonneg []); simpl; lia]. }
  apply media_transfer_step in Ht as (ev & n & errno & b' & tr' & -> & Hc & Ht); [|done].
  apply Forall_cons_1 in Hl as [Hev Hl'].
  eapply transfer_send_event in Hc as (-> & Hio & Hn & Hz & Hs & Hi); [|done|lia..].
  rewrite sent_cons, received_cons, interrupts_cons, Hs, Hi, Hz, length_app.
  destruct Ht as [(Hneg & -> & Ht)|[(Hneg & -> & ->)|(Hpos & Ht)]].
  - rewrite ztake_nonpos by lia. apply IH in Ht as (? & ? & ? & Ho); [|done..].
    split_and!; [by constructor|done|done|]. simpl.
    rewrite (proj2 (Z.ltb_lt n 0)) by done. simpl. destruct o as [[r b]|]; [done|lia].
  - rewrite ztake_nonpos by lia. simpl.
    split_and!; [by repeat constructor|done|done|done|right; lia].
  - assert (zlen (ztake n (zdrop off buffer)) = n) as Hzn
      by (rewrite zlen_ztake; [done|rewrite zlen_zdrop; lia]).
    rewrite u64_id in Ht by lia.
    apply IH in Ht as (? & ? & Hp & Ho); [|done|lia..].
    rewrite (proj2 (Z.ltb_ge n 0)) by lia. simpl.
    split_and!; [by constructor|done| |].
    2: { destruct o as [[r b]|]; [destruct Ho as [-> Ho]; split; [done|]|]; lia. }
    rewrite Nat2Z.inj_add, Hzn.
    rewrite (ztake_zdrop_split n (n + zlen (sent tr'))) by lia. f_equal. rewrite Hp at 1. f_equal. lia.
Qed.

Lemma store_all buffer data : zlen data = zlen buffer -> store buffer 0 data = data.
Proof.
  intros H. unfold store, ztake, zdrop. rewrite drop_ge by lia. simpl. apply app_nil_r.
Qed.

(** The two transfer lemmas in the form the callers use them: a whole buffer, a run that
    returned, and the continuation [k] on the result. *)
Lemma bind_send {B} fuel fd buffer length (k : Z * list byte -> prog Posix B) tr b :
  traces (mbind k (media_transfer fuel fd buffer 0 length true)) tr (Some b) ->
  Forall (lawful posix_law) tr -> 0 <= length < 2 ^ 64 -> length <= zlen buffer ->
  exists r tr1 tr2, tr = tr1 ++ tr2 /\ traces (k (r, buffer)) tr2 (Some b) /\
    Forall (lawful posix_law) tr2 /\ received tr1 = [] /\
    sent tr1 = ztake (zlen (sent tr1)) buffer /\
    ((r = 1 /\ zlen (sent tr1) = length) \/ (r = 0 /\ zlen (sent tr1) < length)).
Proof.
  intros Ht Hl H1 H2. apply traces_bind in Ht as [([r b'] & tr1 & tr2 & -> & Hm & Hk)|[_ [=]]].
  apply Forall_app in Hl as [Hl1 Hl2].
  apply media_transfer_send in Hm as (_ & Hr & Hs & -> & Ho); [|done|lia..].
  exists r, tr1, tr2. by split_and!.
Qed.

Lemma bind_recv {B} fuel fd buffer length (k : Z * list byte -> prog Posix B) tr b :
  traces (mbind k (media_transfer fuel fd buffer 0 length false)) tr (Some b) ->
  Forall (lawful posix_law) tr -> 0 <= length < 2 ^ 64 -> length <= zlen buffer ->
  exists r tr1 tr2, tr = tr1 ++ tr2 /\ traces (k (r, store buffer 0 (received tr1))) tr2 (Some b) /\
    Forall (lawful posix_law) tr2 /\ sent tr1 = [] /\
    ((r = 1 /\ zlen (received tr1) = length) \/ (r = 0 /\ zlen (received tr1) < length)).
Proof.
  intros Ht Hl H1 H2. apply traces_bind in Ht as [([r b'] & tr1 & tr2 & -> & Hm & Hk)|[_ [=]]].
  apply Forall_app in Hl as [Hl1 Hl2].
  apply media_transfer_recv in Hm as (_ & Hs & -> & Ho); [|done|lia..].
  exists r, tr1, tr2. by split_and!.
Qed.

Lemma owns_transfer (fuel : nat) (f : Z) (buffer : list byte) (off length : Z) (writing : bool)
    (l : ledger) (Q : Z * list byte -> ledger -> Prop) :
  {[+ (Fd, f) +]} ⊆ l -> (forall a, Q a l) ->
  owns posix_law (media_transfer fuel f buffer off length writing) l Q.
Proof.
  intros Hf HQ. revert buffer off length.
  induction fuel as [|fuel IH]; intros buffer off length; simpl;
    destruct (length =? 0); simpl; try done.
  apply owns_bind. unfold transfer_call.
  destruct writing; simpl; (split; [multiset_solver|]); intros r _; split; try multiset_solver;
    rewrite ?ledger_keep; repeat case_match; simplify_eq/=; rewrite ?ledger_keep;
    destruct ((_ <? _) && _); [|destruct (_ <=? _)| |destruct (_ <=? _)]; simpl; auto.
Qed.

(** ** An environment that follows a script

    Each socket call consumes the next scripted answer; the witnesses run the programs
    against it. *)

Definition script : Type := list (Z * Z * list byte).

Definition script_env : env Posix script := fun R e =>
  match e in Posix R return script -> R * script with
  | send _ p => fun s => match s with
                         | (n, errno, _) :: s => ((n, errno), s)
                         | [] => ((zlen p, 0), [])
                         end
  | recv _ _ => fun s => match s with a :: s => (a, s) | [] => ((0, 0, []), []) end
  | close _ => fun s => (tt, s)
  | waitpid pid _ => fun s => ((pid, 0), s)
  | nanosleep _ => fun s => (tt, s)
  | kill_sigkill _ => fun s => (tt, s)
  | getenv_media_helper => fun s => (Some [Byte.x2f], s)
  | socketpair_cloexec => fun s => ((0, (5, 6)), s)
  | fcntl_dupfd_cloexec _ _ => fun s => (7, s)
  | fcntl_setfd_cloexec _ => fun s => (0, s)
  | spawn_file_actions_init => fun s => ((0, 100), s)
  | spawn_file_actions_add _ _ => fun s => (0, s)
  | spawn_file_actions_destroy _ => fun s => (tt, s)
  | posix_spawn _ _ => fun s => ((0, 77), s)
  | setsockopt_timeouts _ _ => fun s => (tt, s)
  | malloc n => fun s => ((4096, replicate (Z.to_nat n) Byte.x00), s)
  | free _ => fun s => (tt, s)
  end.

(** An environment whose socket is a pipe: [recv] takes what is available of the bytes still
    to come, [send] succeeds at once.  Every answer is lawful. *)
Definition stream_env : env Posix (list byte) := fun R e =>
  match e in Posix R return list byte -> R * list byte with
  | send _ p => fun s => ((zlen p, 0), s)
  | recv _ n => fun s => ((if n <? 0 then n else zlen (ztake n s), 0, ztake n s), zdrop n s)
  | close _ | nanosleep _ | kill_sigkill _ | spawn_file_actions_destroy _
  | setsockopt_timeouts _ _ | free _ => fun s => (tt, s)
  | waitpid pid _ => fun s => ((pid, 0), s)
  | getenv_media_helper => fun s => (Some [Byte.x2f], s)
  | socketpair_cloexec => fun s => ((0, (5, 6)), s)
  | fcntl_dupfd_cloexec _ _ => fun s => (7, s)
  | fcntl_setfd_cloexec _ | spawn_file_actions_add _ _ => fun s => (0, s)
  | spawn_file_actions_init => fun s => ((0, 100), s)
  | posix_spawn _ _ => fun s => ((0, 77), s)
  | malloc n => fun s => (if n <? 0 then (0, []) else (4096, replicate (Z.to_nat n) Byte.x00), s)
  end.

Lemma stream_env_lawful : lawful_env posix_law stream_env.
Proof.
  intros R e w. destruct e; simpl; try done; try lia.
  - unfold ztake. rewrite length_take. destruct (Z.ltb_spec length 0); split; simpl; lia.
  - destruct nohang; [done|]. by left.
  - destruct (Z.ltb_spec size 0); [done|]. intros _. rewrite length_replicate. lia.
Qed.

(** Closes [Forall (lawful law) tr] on a concrete trace. *)
Ltac check_law :=
  vm_compute; repeat first [apply Forall_nil_2 | apply Forall_cons_2];
  vm_compute; repeat split; try discriminate; try done.

(** ** Properties of media_transfer *)

(** Transfer is exact over any reliable byte stream.  Whatever partial counts and
    interruptions either side sees, if the receiver's bytes come from the sender's in order
    and the receiver's [media_transfer] returns 1, its buffer holds exactly the sender's
    [length] bytes at [off'] and is otherwise unchanged (in particular not overrun). *)
Theorem media_transfer_delivers fuel fuel' fd fd' buffer buffer' off off' length tr tr' o r b :
  traces (media_transfer fuel fd buffer off length true) tr o ->
  traces (media_transfer fuel' fd' buffer' off' length false) tr' (Some (r, b)) ->
  Forall (lawful posix_law) tr -> Forall (lawful posix_law) tr' ->
  0 <= off -> 0 <= off' -> 0 <= length < 2 ^ 64 ->
  off + length <= zlen buffer -> off' + length <= zlen buffer' ->
  received tr' `prefix_of` sent tr ->
  zlen b = zlen buffer' /\
  (r = 1 -> b = store buffer' off' (ztake length (zdrop off buffer))).
Proof.
  intros Hs Hr Hls Hlr Hoff Hoff' Hlen Hb Hb' [k Hk].
  apply media_transfer_send in Hs as (_ & _ & Hp & _); [|done..].
  apply media_transfer_recv in Hr as (_ & _ & -> & Hor); [|done..].
  split; [apply zlen_store; lia|]. intros ->.
  destruct Hor as [[_ Hz]|[[=] _]]. f_equal.
  assert (received tr' = ztake length (sent tr)) as ->
    by (rewrite Hk, <- Hz; by rewrite ztake_app).
  assert (length <= zlen (sent tr)) as Hge by (rewrite Hk, length_app; lia).
  rewrite Hp. unfold ztake. rewrite take_take. f_equal. lia.
Qed.

Lemma media_transfer_delivers_witness :
  let msg := [Byte.x01; Byte.x02; Byte.x03] in
  let s := exec script_env (media_transfer 4 9 msg 0 3 true) [(1, 0, []); (-1, 4, []); (2, 0, [])] in
  let d := exec script_env (media_transfer 4 3 [Byte.xff; Byte.xff; Byte.xff; Byte.xff] 0 3 false)
             [(-1, 4, []); (2, 0, [Byte.x01; Byte.x02]); (1, 0, [Byte.x03])] in
  d.1.1 = Some (1, msg ++ [Byte.xff]) /\ [Byte.x01; Byte.x02; Byte.x03; Byte.xff] =
    store [Byte.xff; Byte.xff; Byte.xff; Byte.xff] 0 (ztake 3 (zdrop 0 msg)).
Proof.
  split; [reflexivity|].
  eapply (media_transfer_delivers 4 4 9 3 [Byte.x01; Byte.x02; Byte.x03]
    [Byte.xff; Byte.xff; Byte.xff; Byte.xff] 0 0 3 _ _ _ 1).
  - run_with script_env [(1, 0, [] : list byte); (-1, 4, []); (2, 0, [])].
  - run_with script_env [(-1, 4, [] : list byte); (2, 0, [Byte.x01; Byte.x02]); (1, 0, [Byte.x03])].
  - check_law.
  - check_law.
  - lia.
  - lia.
  - lia.
  - simpl; lia.
  - simpl; lia.
  - exists []. reflexivity.
  - reflexivity.
Defined.

(** The transfer loop terminates.  Every iteration either moves at least one byte or was
    interrupted, so as many iterations as there are bytes and interruptions suffice, in both
    directions. *)
Theorem media_transfer_terminates fuel fd buffer off length writing tr o :
  traces (media_transfer fuel fd buffer off length writing) tr o ->
  Forall (lawful posix_law) tr ->
  0 <= off -> 0 <= length < 2 ^ 64 -> off + length <= zlen buffer ->
  length + interrupts tr <= Z.of_nat fuel -> is_Some o.
Proof.
  intros Ht Hl Hoff Hlen Hb Hf. destruct o as [x|]; [by eexists|]. exfalso.
  destruct writing.
  - apply media_transfer_send in Ht as (_ & _ & _ & Ho); [lia|done..].
  - apply media_transfer_recv in Ht as (_ & _ & Ho); [lia|done..].
Qed.

Lemma media_transfer_terminates_witness :
  is_Some (exec_value script_env (media_transfer 3 9 [Byte.x01; Byte.x02] 0 2 true)
    [(-1, 4, []); (1, 0, []); (1, 0, [])]).
Proof.
  eapply (media_transfer_terminates 3 9 [Byte.x01; Byte.x02] 0 2 true).
  - apply exec_traces.
  - check_law.
  - lia.
  - lia.
  - simpl; lia.
  - vm_compute; discriminate.
Defined.
