(* ===== verification/Device.v ===== *)
(** * The media interface (agent-webrtc/cbits/peer.h and audio.h)

    Both headers are implemented twice: by peer.c and audio.c on GStreamer, and by
    helper-client.c, which forwards every call to a helper process running the first
    implementation.  [Device] is the interface as a signature, [device_law] what a caller may
    rely on, [MediaDevice] the class an implementation provides. *)

From stdpp Require Import base tactics option list.
From Stdlib Require Import ZArith Lia.
From coqutil Require Import Byte.
From S2P Require Import Prelude Programs.
#[local] Open Scope Z_scope.

(** The functions of the two headers.  A handle is a pointer value, NULL being 0; an output
    buffer of [capacity] bytes is returned as the bytes stored at its start. *)
Inductive Device : Type -> Type :=
  | agent_peer_new : Device Z
  | agent_peer_free (peer : Z) : Device unit
  | agent_peer_create_description (peer : Z) (offer : bool) : Device Z
  | agent_peer_set_description (peer : Z) (sdp : list byte) (offer local : bool) : Device Z
  | agent_peer_operation (peer capacity : Z) : Device (Z * list byte)
  | agent_peer_local_description (peer capacity : Z) : Device (Z * list byte)
  | agent_peer_state (peer : Z) : Device Z
  | agent_peer_push (peer : Z) (pcm : list byte) : Device Z
  | agent_peer_pull (peer capacity : Z) : Device (Z * list byte)
  | agent_audio_new (capture : bool) : Device Z
  | agent_audio_free (audio : Z) : Device unit
  | agent_audio_read (audio capacity : Z) : Device (Z * list byte)
  | agent_audio_write (audio : Z) (bytes : list byte) : Device Z
  | agent_audio_state (audio : Z) : Device Z.

(** "0 pending, 1 complete, -1 failed; SDP functions return byte count": a result is a C
    [int]; a positive result of a function with an output buffer is the number of bytes
    stored there, never more than its capacity (which is an [int]'s worth: 256 KiB here). *)
Definition output_law (capacity : Z) (a : Z * list byte) : Prop :=
  is_i32 a.1 /\ (0 <= capacity < 2 ^ 31 -> zlen a.2 <= capacity /\ (0 < a.1 -> zlen a.2 = a.1)).

Definition device_law : laws Device := fun R d =>
  match d in Device R return R -> Prop with
  | agent_peer_new | agent_audio_new _ => fun _ => True
  | agent_peer_free _ | agent_audio_free _ => fun _ => True
  | agent_peer_operation _ capacity | agent_peer_local_description _ capacity
  | agent_peer_pull _ capacity | agent_audio_read _ capacity => output_law capacity
  | agent_peer_create_description _ _ | agent_peer_set_description _ _ _ _
  | agent_peer_state _ | agent_peer_push _ _
  | agent_audio_write _ _ | agent_audio_state _ => is_i32
  end.

(** Handles: [new] gives one, [free] takes it, every operation uses one of its own kind.
    [free(NULL)] is allowed. *)
#[export] Instance device_ownership : Ownership Device := {
  gives := fun R d =>
    match d in Device R return R -> ledger with
    | agent_peer_new => fun h => own PeerHandle h
    | agent_audio_new _ => fun h => own AudioHandle h
    | _ => fun _ => ∅
    end;
  takes := fun R d =>
    match d in Device R return R -> ledger with
    | agent_peer_free h => fun _ => own PeerHandle h
    | agent_audio_free h => fun _ => own AudioHandle h
    | _ => fun _ => ∅
    end;
  uses := fun R d =>
    match d with
    | agent_peer_new | agent_audio_new _ => ∅
    | agent_peer_free h => own PeerHandle h
    | agent_audio_free h => own AudioHandle h
    | agent_peer_create_description h _ | agent_peer_set_description h _ _ _
    | agent_peer_operation h _ | agent_peer_local_description h _ | agent_peer_state h
    | agent_peer_push h _ | agent_peer_pull h _ => {[+ (PeerHandle, h) +]}
    | agent_audio_read h _ | agent_audio_write h _ | agent_audio_state h => {[+ (AudioHandle, h) +]}
    end
}.

(** An implementation for the witnesses: one resource, two bytes of output. *)
Definition toy_output (capacity : Z) : Z * list byte :=
  (zlen (ztake capacity [Byte.x01; Byte.x02]), ztake capacity [Byte.x01; Byte.x02]).
Definition toy_device {W} : env Device W := fun R d =>
  match d in Device R return W -> R * W with
  | agent_peer_new | agent_audio_new _ => fun w => (42, w)
  | agent_peer_free _ | agent_audio_free _ => fun w => (tt, w)
  | agent_peer_create_description _ _ | agent_peer_set_description _ _ _ _ => fun w => (0, w)
  | agent_peer_state _ | agent_peer_push _ _ | agent_audio_write _ _ | agent_audio_state _ =>
      fun w => (1, w)
  | agent_peer_operation _ capacity | agent_peer_local_description _ capacity
  | agent_peer_pull _ capacity | agent_audio_read _ capacity => fun w => (toy_output capacity, w)
  end.

Lemma toy_output_law capacity : output_law capacity (toy_output capacity).
Proof.
  unfold output_law, toy_output, ztake. cbn [fst snd]. rewrite length_take. unfold is_i32. simpl. lia.
Qed.

Lemma toy_device_lawful {W} : lawful_env device_law (toy_device (W := W)).
Proof.
  intros R d w. destruct d; simpl; try done; try (unfold is_i32; lia); apply toy_output_law.
Qed.
