(* ===== verification/Client.v ===== *)
(** * The client library (agent-webrtc/cbits/helper-client.c)

    [media_request] sends one request and validates its reply; [media_open] spawns the helper
    and [media_close] joins it; the exported functions are one request each. *)

From stdpp Require Import base tactics option list gmap gmultiset.
From Stdlib Require Import ZArith Lia.
From coqutil Require Import Byte Word.LittleEndianList.
From S2P Require Import Prelude Programs MediaProtocol.
#[local] Open Scope Z_scope.

Record AgentMediaChild := Child { fd : Z; pid : Z }.

Definition op_code := operation_code.

(** [close(child->fd); child->fd = -1; return -1;] *)
Definition media_fail (child : AgentMediaChild) (output : list byte)
    : prog Posix (Z * list byte * AgentMediaChild) :=
  call (close (fd child));; Ret (-1, output, Child (-1) (pid child)).

(** The reply is rejected when any disjunct after the third transfer holds. *)
Definition reply_rejected (message : AgentMediaMessage) (operation_ capacity : Z) : bool :=
  let returns_bytes := returns_bytes_op operation_ in
  negb (magic message =? AGENT_MEDIA_MAGIC) || negb (operation message =? operation_)
  || (length_ message >? capacity)
  || (returns_bytes && (i32 (argument message) >? 0) && negb (argument message =? length_ message))
  || (returns_bytes && (i32 (argument message) <=? 0) && negb (length_ message =? 0)).

(** The result, the output buffer afterwards and the child. *)
Definition media_request (fuel : nat) (child : AgentMediaChild) (operation_ argument_ : Z)
    (input : list byte) (size : Z) (output : list byte) (capacity : Z)
    : prog Posix (Z * list byte * AgentMediaChild) :=
  if (fd child <? 0) || (size >? AGENT_MEDIA_LIMIT) || (capacity >? AGENT_MEDIA_LIMIT)
  then Ret (-1, output, child)
  else
    let message := Message AGENT_MEDIA_MAGIC operation_ argument_ (u32 size) in
    '(sent_header, _) ← media_transfer fuel (fd child) (message_bytes message) 0 sizeof_message true;
    if sent_header =? 0 then media_fail child output else
    '(sent_input, _) ← media_transfer fuel (fd child) input 0 size true;
    if sent_input =? 0 then media_fail child output else
    '(got_header, header) ← media_transfer fuel (fd child) (message_bytes message) 0 sizeof_message false;
    if got_header =? 0 then media_fail child output else
    let message := message_of_bytes header in
    if reply_rejected message operation_ capacity then media_fail child output else
    '(got_output, output) ← media_transfer fuel (fd child) output 0 (length_ message) false;
    if got_output =? 0 then media_fail child output else
    Ret (i32 (argument message), output, child).

(** ** media_close *)

(** The bounded polling loop: [true] when the child was reaped or is gone. *)
Fixpoint reap_poll (attempts : nat) (child : AgentMediaChild) : prog Posix bool :=
  match attempts with
  | O => Ret false
  | S attempts =>
      '(result, errno) ← call (waitpid (pid child) true);
      if (result =? pid child) || ((result <? 0) && (errno =? ECHILD)) then Ret true
      else
        call (nanosleep 10000000);;
        reap_poll attempts child
  end.

(** [while (waitpid(child->pid, NULL, 0) < 0 && errno == EINTR) {}] *)
Fixpoint reap_wait (fuel : nat) (child : AgentMediaChild) : prog Posix unit :=
  match fuel with
  | O => Spin
  | S fuel =>
      '(result, errno) ← call (waitpid (pid child) false);
      if (result <? 0) && (errno =? EINTR) then reap_wait fuel child else Ret tt
  end.

Definition media_close (fuel : nat) (child : AgentMediaChild) : prog Posix unit :=
  (if fd child >=? 0 then call (close (fd child)) else Ret tt);;
  reaped ← reap_poll 100 child;
  if reaped : bool then Ret tt
  else
    call (kill_sigkill (pid child));;
    reap_wait fuel child.

(** ** media_open *)

(** [program[0] != '/'] on the NUL-terminated environment string. *)
Definition is_absolute (program : list byte) : bool :=
  match program with b :: _ => byte.unsigned b =? 47 | [] => false end.

(** Stops at the first failing action, as the chain of [if (!error)] does. *)
Fixpoint add_actions (actions : Z) (l : list spawn_action) : prog Posix Z :=
  match l with
  | [] => Ret 0
  | a :: l =>
      error ← call (spawn_file_actions_add actions a);
      if error =? 0 then add_actions actions l else Ret error
  end.

(** C's 0 or 1, and the child structure afterwards. *)
Definition media_open (fuel : nat) (child : AgentMediaChild) (operation_ : Z)
    : prog Posix (Z * AgentMediaChild) :=
  program ← call getenv_media_helper;
  match program with
  | None => Ret (0, child)
  | Some program =>
    if negb (is_absolute program) then Ret (0, child) else
    '(failed, (socket0, socket1)) ← call socketpair_cloexec;
    if negb (failed =? 0) then Ret (0, child) else
    remote ← call (fcntl_dupfd_cloexec socket1 4);
    call (close socket1);;
    if remote <? 0 then call (close socket0);; Ret (0, child) else
    '(failed, actions) ← call spawn_file_actions_init;
    if negb (failed =? 0)
    then call (close remote);; call (close socket0);; Ret (0, child) else
    error ← add_actions actions [AddClose socket0; AddDup2 remote 3; AddClose remote];
    '(error, child) ←
      (if error =? 0
       then '(error, p) ← call (posix_spawn program actions);
            Ret (error, Child (fd child) (if error =? 0 then p else pid child))
       else Ret (error, child));
    call (spawn_file_actions_destroy actions);;
    call (close remote);;
    if negb (error =? 0) then call (close socket0);; Ret (0, child) else
    let child := Child socket0 (pid child) in
    call (setsockopt_timeouts (fd child) 5);;
    '(opened, _, child) ← media_request fuel child operation_ 0 [] 0 [] 0;
    if negb (opened =? 0) then media_close fuel child;; Ret (0, child) else
    call (setsockopt_timeouts (fd child) 1);;
    Ret (1, child)
  end.

Arguments media_request : simpl never.
Arguments media_close : simpl never.
Arguments add_actions : simpl never.

(** ** The exported functions

    A client handle is the pointer [calloc] returned together with the structure it points
    to. *)

(** [calloc] zeroes the structure. *)
Definition client_new (fuel : nat) (operation_ : AgentMediaOperation)
    : prog Posix (option (Z * AgentMediaChild)) :=
  '(p, _) ← call (malloc 8);
  if p =? 0 then Ret None else
  '(opened, child) ← media_open fuel (Child 0 0) (op_code operation_);
  if opened =? 0 then call (free p);; Ret None else Ret (Some (p, child)).

Definition client_free (fuel : nat) (h : option (Z * AgentMediaChild)) : prog Posix unit :=
  match h with
  | None => Ret tt
  | Some (p, child) => media_close fuel child;; call (free p)
  end.

Definition client_peer_new (fuel : nat) := client_new fuel MEDIA_OPEN_PEER.
Definition client_audio_new (fuel : nat) (capture : bool) :=
  client_new fuel (if capture then MEDIA_OPEN_CAPTURE else MEDIA_OPEN_PLAYBACK).

Definition client_peer_create_description fuel c (offer : Z) :=
  media_request fuel c (op_code MEDIA_CREATE) (Z.b2z (negb (offer =? 0))) [] 0 [] 0.

Definition client_peer_set_description fuel c (sdp : list byte) (offer local : Z) :=
  let sdp := c_string sdp in
  media_request fuel c (op_code MEDIA_SET)
    (Z.lor (Z.b2z (negb (offer =? 0))) (Z.shiftl (Z.b2z (negb (local =? 0))) 1))
    sdp (zlen sdp) [] 0.

Definition client_peer_operation fuel c (out : list byte) (size : Z) :=
  media_request fuel c (op_code MEDIA_OPERATION) 0 [] 0 out size.
Definition client_peer_local_description fuel c (out : list byte) (size : Z) :=
  media_request fuel c (op_code MEDIA_LOCAL) 0 [] 0 out size.
Definition client_peer_state fuel c := media_request fuel c (op_code MEDIA_STATE) 0 [] 0 [] 0.

(** [!pcm || !size || size % 2 || size > 24000]; a NULL [pcm] is [None]. *)
Definition pcm_rejected (pcm : option (list byte)) (size : Z) : bool :=
  match pcm with
  | None => true
  | Some _ => (size =? 0) || negb (size mod 2 =? 0) || (size >? 24000)
  end.

Definition client_peer_push fuel c (pcm : option (list byte)) (size : Z) :=
  if pcm_rejected pcm size then Ret (0, [], c)
  else
    '(result, out, c) ← media_request fuel c (op_code MEDIA_PUSH) 0 (default [] pcm) size [] 0;
    Ret (Z.b2z (result =? 1), out, c).

Definition client_peer_pull fuel c (pcm : list byte) (size : Z) :=
  media_request fuel c (op_code MEDIA_PULL) (u32 size) [] 0 pcm size.
Definition client_audio_read fuel c (out : list byte) (size : Z) :=
  media_request fuel c (op_code MEDIA_AUDIO_READ) (u32 size) [] 0 out size.

Definition client_audio_write fuel c (pcm : option (list byte)) (size : Z) :=
  if pcm_rejected pcm size then Ret (-1, [], c)
  else media_request fuel c (op_code MEDIA_AUDIO_WRITE) 0 (default [] pcm) size [] 0.

Definition client_audio_state fuel c :=
  media_request fuel c (op_code MEDIA_AUDIO_STATE) 0 [] 0 [] 0.

(** ** Ownership *)

(** After a request the descriptor is still the child's, or it was closed once and replaced
    by -1, and then the request failed. *)
Definition request_ledger (child : AgentMediaChild) (l : ledger) (a : Z * list byte * AgentMediaChild)
    (l' : ledger) : Prop :=
  pid a.2 = pid child /\
  ((fd a.2 = fd child /\ l' = l) \/
   (fd a.2 = -1 /\ a.1.1 = -1 /\ l' = l ∖ {[+ (Fd, fd child) +]})).

Lemma owns_fail child output (l : ledger) :
  {[+ (Fd, fd child) +]} ⊆ l ->
  owns posix_law (media_fail child output) l (request_ledger child l).
Proof.
  intros Hf. own_call. split; [done|]. right. split_and!; [done|done|]. simpl. multiset_solver.
Qed.

Lemma owns_request fuel child operation_ argument_ input size output capacity (l : ledger) :
  {[+ (Fd, fd child) +]} ⊆ l ->
  owns posix_law (media_request fuel child operation_ argument_ input size output capacity) l
    (request_ledger child l).
Proof.
  intros Hf. unfold media_request.
  assert (forall r out, request_ledger child l (r, out, child) l) as Hsame
    by (split; [done|by left]).
  destruct (_ || _); [apply Hsame|].
  do 4 (apply owns_bind, owns_transfer; [done|]; intros [? ?];
        destruct (_ =? 0); [by apply owns_fail|]; try destruct (reply_rejected _ _ _);
        try (by apply owns_fail)).
  apply Hsame.
Qed.

(** What a client handle owns: its helper process, and its descriptor until a failed request
    has closed it. *)
Definition fd_part (child : AgentMediaChild) : ledger :=
  if fd child >=? 0 then {[+ (Fd, fd child) +]} else ∅.
Definition child_ledger (child : AgentMediaChild) : ledger := fd_part child ⊎ {[+ (Pid, pid child) +]}.

Lemma owns_reap_poll attempts child (l : ledger) :
  {[+ (Pid, pid child) +]} ⊆ l ->
  owns posix_law (reap_poll attempts child) l
    (fun reaped l' => l' = if reaped : bool then l ∖ {[+ (Pid, pid child) +]} else l).
Proof.
  intros Hp. induction attempts as [|attempts IH]; [done|].
  split; [done|]. intros [result errno] _. simpl. split; [case_match; multiset_solver|].
  destruct (_ || _); simpl; [multiset_solver|].
  rewrite ledger_keep. own_call. done.
Qed.

Lemma owns_reap_wait fuel child (l : ledger) :
  {[+ (Pid, pid child) +]} ⊆ l -> 0 <= pid child ->
  owns posix_law (reap_wait fuel child) l (fun _ l' => l' = l ∖ {[+ (Pid, pid child) +]}).
Proof.
  intros Hp H0. induction fuel as [|fuel IH]; [done|].
  split; [done|]. intros [result errno] Hlaw. simpl in *. split; [case_match; multiset_solver|].
  destruct ((result <? 0) && (errno =? EINTR)) eqn:Ei.
  - assert ((result =? pid child) || ((result <? 0) && (errno =? ECHILD)) = false) as ->
      by (unfold EINTR, ECHILD in *; lia).
    by rewrite ledger_keep.
  - assert ((result =? pid child) || ((result <? 0) && (errno =? ECHILD)) = true) as ->
      by (unfold EINTR, ECHILD in *; lia).
    simpl. apply gmultiset_disj_union_right_id.
Qed.

Lemma owns_close fuel child (l : ledger) :
  child_ledger child ⊆ l -> 0 <= pid child ->
  owns posix_law (media_close fuel child) l (fun _ l' => l' = l ∖ child_ledger child).
Proof.
  intros Hl H0. unfold media_close. apply owns_bind.
  assert (owns posix_law (if fd child >=? 0 then call (close (fd child)) else Ret tt) l
    (fun _ l' => l' = l ∖ fd_part child)) as Hclose.
  { unfold child_ledger, fd_part in *. destruct (fd child >=? 0); simpl; [|multiset_solver].
    split; [multiset_solver|]. intros _ _. split; multiset_solver. }
  eapply owns_mono; [exact Hclose|]. intros _ l1 ->. unfold child_ledger in *.
  apply owns_bind. eapply owns_mono; [apply owns_reap_poll; multiset_solver|].
  intros [] l' ->; simpl; [multiset_solver|]. split; [multiset_solver|]. intros _ _.
  split; [multiset_solver|]. rewrite ledger_keep.
  eapply owns_mono; [apply owns_reap_wait; [multiset_solver|done]|].
  intros _ l' ->. multiset_solver.
Qed.

(** ** What a request exchanges *)

Definition request_message (operation_ argument_ size : Z) : AgentMediaMessage :=
  Message AGENT_MEDIA_MAGIC operation_ argument_ (u32 size).

Definition request_guard (child : AgentMediaChild) (size capacity : Z) : bool :=
  (fd child <? 0) || (size >? AGENT_MEDIA_LIMIT) || (capacity >? AGENT_MEDIA_LIMIT).

(** A request that was answered: the bytes sent are the request message and its input, the
    bytes received a reply message that passed validation and its payload. *)
Definition answered (operation_ argument_ : Z) (input : list byte) (size : Z) (output : list byte)
    (capacity : Z) (tr : list (event Posix)) (r : Z) (out : list byte) : Prop :=
  exists reply payload,
    sent tr = message_bytes (request_message operation_ argument_ size) ++ ztake size input /\
    received tr = message_bytes reply ++ payload /\
    message_wf reply /\ zlen payload = length_ reply /\
    reply_rejected reply operation_ capacity = false /\
    r = i32 (argument reply) /\ out = store output 0 payload.

Lemma media_fail_trace child output tr a :
  traces (media_fail child output) tr (Some a) ->
  a = (-1, output, Child (-1) (pid child)) /\ sent tr = [].
Proof. intros (r & tr' & -> & -> & H). by simplify_eq. Qed.

Lemma media_request_spec fuel child operation_ argument_ input size output capacity tr r out child' :
  traces (media_request fuel child operation_ argument_ input size output capacity) tr
    (Some (r, out, child')) ->
  Forall (lawful posix_law) tr -> 0 <= size <= zlen input -> 0 <= capacity <= zlen output ->
  if request_guard child size capacity
  then tr = [] /\ r = -1 /\ out = output /\ child' = child
  else (child' = child /\ answered operation_ argument_ input size output capacity tr r out) \/
       (child' = Child (-1) (pid child) /\ r = -1 /\ zlen out = zlen output).
Proof.
  intros Ht Hl Hsize Hcap. unfold media_request, request_guard in *.
  destruct (_ || _) eqn:Hguard; [by destruct Ht as [-> [= -> -> ->]]|].
  assert (size <= AGENT_MEDIA_LIMIT /\ capacity <= AGENT_MEDIA_LIMIT) as [Hs Hc] by lia.
  unfold AGENT_MEDIA_LIMIT in *. fold (request_message operation_ argument_ size) in Ht.
  pose proof (zlen_message_bytes (request_message operation_ argument_ size)) as Hm.
  unfold sizeof_message in *.
  assert (forall tr' out', zlen out' = zlen output ->
    traces (media_fail child out') tr' (Some (r, out, child')) ->
    child' = Child (-1) (pid child) /\ r = -1 /\ zlen out = zlen output) as Hfail.
  { intros tr' out' Hz H. apply media_fail_trace in H as [[= -> -> ->] _]. done. }
  apply bind_send in Ht as (r1 & tr1 & tr1' & -> & Ht & Hl1 & Hr1 & Hp1 & [[-> Hz1]|[-> _]]);
    [|by right; eapply Hfail|done|lia|lia].
  apply bind_send in Ht as (r2 & tr2 & tr2' & -> & Ht & Hl2 & Hr2 & Hp2 & [[-> Hz2]|[-> _]]);
    [|by right; eapply Hfail|done|lia|lia].
  apply bind_recv in Ht as (r3 & tr3 & tr3' & -> & Ht & Hl3 & Hs3 & [[-> Hz3]|[-> _]]);
    [|by right; eapply Hfail|done|lia|lia].
  rewrite store_all in Ht by lia. cbv beta iota zeta in Ht.
  pose proof (message_of_bytes_wf (received tr3)) as Hwf.
  remember (message_of_bytes (received tr3)) as reply eqn:Hreply. simpl in Ht.
  destruct (reply_rejected _ _ _) eqn:Hrej; [by right; eapply Hfail|].
  assert (length_ reply <= capacity) as Hlen by (unfold reply_rejected in Hrej; lia).
  assert (0 <= length_ reply < 2 ^ 64) as Hlen0
    by (destruct Hwf as (_ & _ & _ & Hlw); unfold is_u32 in Hlw; lia).
  apply bind_recv in Ht as (r4 & tr4 & tr4' & -> & Ht & Hl4 & Hs4 & [[-> Hz4]|[-> Hz4]]);
    [| |done|done|lia].
  2: { right. eapply Hfail; [|exact Ht]. apply zlen_store; lia. }
  destruct Ht as [-> [= -> -> ->]]. left. split; [done|].
  exists reply, (received tr4).
  autorewrite with agent_rw. rewrite Hreply at 1. rewrite message_of_bytes_roundtrip by done.
  rewrite Hr1, Hr2, Hs3, Hs4, Hp1, Hp2, Hz1, Hz2.
  rewrite <- Hm at 1. rewrite ztake_all. simpl. rewrite !app_nil_r. by split_and!.
Qed.

Definition slept_by (ev : event Posix) : Z :=
  match ev_call ev with nanosleep ns => ns | _ => 0 end.
(** Nanoseconds spent sleeping along a trace. *)
Definition slept (tr : list (event Posix)) : Z := foldr (fun ev t => slept_by ev + t) 0 tr.
(** Blocking waits cut short by a signal. *)
Definition wait_interrupted (ev : event Posix) : bool :=
  match ev_call ev in Posix R return R -> bool with
  | waitpid _ false => fun '(result, errno) => (result <? 0) && (errno =? EINTR)
  | _ => fun _ => false
  end (ev_answer ev).
Definition wait_interrupts (tr : list (event Posix)) : Z := zlen (List.filter wait_interrupted tr).

Lemma slept_cons ev tr : slept (ev :: tr) = slept_by ev + slept tr.
Proof. done. Qed.
Lemma slept_app tr1 tr2 : slept (tr1 ++ tr2) = slept tr1 + slept tr2.
Proof. induction tr1 as [|ev tr1 IH]; simpl; lia. Qed.

Lemma wait_interrupts_suffix tr1 tr2 : wait_interrupts tr2 <= wait_interrupts (tr1 ++ tr2).
Proof. unfold wait_interrupts. rewrite List.filter_app, length_app. lia. Qed.

Lemma reap_poll_trace attempts child tr o :
  traces (reap_poll attempts child) tr o ->
  0 <= slept tr <= 10000000 * Z.of_nat attempts /\ is_Some o.
Proof.
  revert tr. induction attempts as [|attempts IH]; intros tr.
  - intros [-> ->]. split; [simpl; lia|by eexists].
  - intros ([result errno] & tr' & -> & H). revert H. rewrite Nat2Z.inj_succ.
    cbn -[Z.mul]. destruct (_ || _); intros H.
    + destruct H as [-> ->]. split; [cbn -[Z.mul]; lia|by eexists].
    + destruct H as (r & tr'' & -> & H). apply IH in H as [H ?]. rewrite !slept_cons.
      cbn [slept_by ev_call]. split; [lia|done].
Qed.

Lemma reap_wait_trace fuel child tr o :
  traces (reap_wait fuel child) tr o ->
  slept tr = 0 /\ (wait_interrupts tr < Z.of_nat fuel -> is_Some o).
Proof.
  revert tr. induction fuel as [|fuel IH]; intros tr.
  - intros [-> ->]. split; [done|]. unfold wait_interrupts. simpl. lia.
  - intros ([result errno] & tr' & -> & H). unfold wait_interrupts in *. simpl.
    unfold wait_interrupted at 1. simpl. revert H. simpl. destruct (_ && _); intros H.
    + apply IH in H as [Hs H]. split; [done|]. intros Hw. apply H. simpl in Hw. lia.
    + destruct H as [-> ->]. split; [done|by eexists].
Qed.

(** ** Opening *)

Lemma owns_add_actions actions acts (l : ledger) (Q : Z -> ledger -> Prop) :
  {[+ (Actions, actions) +]} ⊆ l -> (forall error, Q error l) ->
  owns posix_law (add_actions actions acts) l Q.
Proof.
  intros Ha HQ. induction acts as [|a acts IH]; cbn [add_actions]; [apply HQ|].
  own_call. destruct (_ =? 0); simpl; auto.
Qed.

(** What [media_open] owns when it returns: the new child on success, nothing otherwise. *)
Definition open_ledger (a : Z * AgentMediaChild) (l : ledger) : Prop :=
  (a.1 = 1 /\ 0 < pid a.2 /\ 0 <= fd a.2 /\ l = child_ledger a.2) \/ (a.1 = 0 /\ l = ∅).

(** A child that may already have lost its descriptor owns what [media_close] gives back. *)
Lemma request_ledger_close child a (l : ledger) :
  0 <= fd child -> request_ledger child (child_ledger child) a l ->
  l = child_ledger a.2 /\ pid a.2 = pid child.
Proof.
  intros Hf [Hp H]. split; [|done]. unfold child_ledger, fd_part in *. rewrite Hp.
  destruct H as [[-> ->]|(-> & _ & ->)]; [done|].
  rewrite (Z.geb_leb (fd child)), (proj2 (Z.leb_le _ _)) by done. simpl. multiset_solver.
Qed.

(** The tail of [media_open] once the process exists. *)
Lemma owns_open_handshake fuel child operation_ (l : ledger) :
  0 <= fd child -> 0 < pid child -> l = child_ledger child ->
  owns posix_law
    ('(opened, _, child) ← media_request fuel child operation_ 0 [] 0 [] 0;
     if negb (opened =? 0) then media_close fuel child;; Ret (0, child) else
     Call (setsockopt_timeouts (fd child) 1) (fun _ => Ret (1, child))) l open_ledger.
Proof.
  intros Hf Hp ->. assert ({[+ (Fd, fd child) +]} ⊆ child_ledger child) as Hin.
  { unfold child_ledger, fd_part. rewrite Z.geb_leb, (proj2 (Z.leb_le _ _)) by done. multiset_solver. }
  apply owns_bind. eapply owns_mono; [by apply owns_request|].
  intros [[opened out] child'] l' Hl. pose proof Hl as [_ Hfd].
  apply request_ledger_close in Hl as [-> Hpid]; [|done]. simpl in *.
  destruct (Z.eqb_spec opened 0) as [->|Hne]; simpl.
  - destruct Hfd as [[Hfd _]|(_ & [=] & _)]. 
    assert ({[+ (Fd, fd child') +]} ⊆ child_ledger child') as Hin'.
    { unfold child_ledger, fd_part. rewrite Hfd, Z.geb_leb, (proj2 (Z.leb_le _ _)) by done. multiset_solver. }
    own_call. left. split_and!; simpl; [done|lia|lia|done].
  - apply owns_bind. eapply owns_mono; [apply owns_close; [done|lia]|].
    intros _ l' ->. right. split; [done|]. simpl. multiset_solver.
Qed.

#[local] Opaque add_actions media_request media_close.

Lemma owns_open fuel child operation_ :
  owns posix_law (media_open fuel child operation_) ∅ open_ledger.
Proof.
  assert (forall c, open_ledger (0, c) ∅) as Hnone by (intros; by right).
  unfold media_open. own_call. destruct r as [program|]; [|apply Hnone].
  destruct (is_absolute program); [|apply Hnone]. simpl negb. cbv iota.
  own_call. destruct r as [failed [s0 s1]]. simpl.
  destruct (Z.eqb_spec failed 0) as [->|]; [|simpl; rewrite ledger_keep; apply Hnone].
  specialize (Hlaw0 eq_refl) as [H0 _]. cbv iota.
  replace (∅ ∖ ∅ ⊎ _) with ({[+ (Fd, s0) +]} ⊎ {[+ (Fd, s1) +]} : ledger) by multiset_solver.
  own_call. rename r into remote. own_call.
  destruct (Z.ltb_spec remote 0).
  { own_call. right. split; [done|ledger_solve]. }
  replace ((_ ⊎ _) ∖ _ ⊎ _) with ({[+ (Fd, s0) +]} ⊎ {[+ (Fd, remote) +]} : ledger) by multiset_solver.
  own_call. destruct r0 as [failed actions]. simpl.
  destruct (Z.eqb_spec failed 0) as [->|]; simpl.
  2: { own_call. own_call. right. split; [done|ledger_solve]. }
  replace (_ ∖ ∅ ⊎ _) with ({[+ (Fd, s0) +]} ⊎ {[+ (Fd, remote) +]} ⊎ {[+ (Actions, actions) +]} : ledger)
    by multiset_solver.
  apply owns_bind, owns_add_actions; [multiset_solver|]. intros error.
  apply owns_bind. destruct (Z.eqb_spec error 0) as [->|He]; simpl.
  - split; [multiset_solver|]. intros [error p] Hp. split; [multiset_solver|].
    simpl in *. destruct (Z.eqb_spec error 0) as [->|He]; simpl.
    + replace (_ ∖ ∅ ⊎ _) with ({[+ (Fd, s0) +]} ⊎ {[+ (Fd, remote) +]} ⊎ {[+ (Actions, actions) +]}
        ⊎ {[+ (Pid, p) +]} : ledger) by multiset_solver.
      own_call. own_call. own_call.
      apply (owns_open_handshake fuel (Child s0 p)); [done|by apply Hp|].
      unfold child_ledger, fd_part. simpl. rewrite Z.geb_leb, (proj2 (Z.leb_le _ _)) by done.
      multiset_solver.
    + rewrite ledger_keep. own_call. own_call. own_call. right. split; [done|ledger_solve].
  - rewrite (proj2 (Z.eqb_neq _ _) He). simpl. own_call. own_call. own_call.
    right. split; [done|ledger_solve].
Qed.

#[local] Transparent add_actions media_request media_close.
#[local] Opaque media_open.

(** ** Whole sessions *)

(** One request as its arguments: operation, argument, input, output buffer. *)
Definition request_args : Type := Z * Z * list byte * list byte.

(** Any sequence of requests on one handle, as a caller may issue them. *)
Fixpoint client_requests (fuel : nat) (child : AgentMediaChild) (l : list request_args)
    : prog Posix AgentMediaChild :=
  match l with
  | [] => Ret child
  | (op, arg, input, output) :: l =>
      '(_, _, child) ← media_request fuel child op arg input (zlen input) output (zlen output);
      client_requests fuel child l
  end.

(** Open, use and free a handle. *)
Definition client_session (fuel : nat) (op : AgentMediaOperation) (l : list request_args)
    : prog Posix unit :=
  h ← client_new fuel op;
  match h with
  | None => client_free fuel None
  | Some (p, child) => child ← client_requests fuel child l; client_free fuel (Some (p, child))
  end.

Lemma owns_request_any fuel child op arg input size output capacity (m : ledger) :
  owns posix_law (media_request fuel child op arg input size output capacity)
    (child_ledger child ⊎ m)
    (fun a l => l = child_ledger a.2 ⊎ m /\ pid a.2 = pid child).
Proof.
  destruct (Z.ltb_spec (fd child) 0) as [Hneg|Hpos].
  - unfold media_request. rewrite (proj2 (Z.ltb_lt _ _)) by done. done.
  - assert (fd_part child = {[+ (Fd, fd child) +]}) as Hf.
    { unfold fd_part. by rewrite Z.geb_leb, (proj2 (Z.leb_le _ _)). }
    eapply owns_mono; [apply owns_request; unfold child_ledger; rewrite Hf; multiset_solver|].
    intros a l [Hp H]. split; [|done]. unfold child_ledger in *. rewrite Hp, Hf in *.
    destruct H as [[Hfd ->]|(Hfd & _ & ->)]; unfold fd_part; rewrite Hfd.
    + by rewrite Z.geb_leb, (proj2 (Z.leb_le _ _)).
    + simpl. multiset_solver.
Qed.

Lemma owns_requests fuel l child (m : ledger) :
  owns posix_law (client_requests fuel child l) (child_ledger child ⊎ m)
    (fun child' l => l = child_ledger child' ⊎ m /\ pid child' = pid child).
Proof.
  revert child. induction l as [|[[[op arg] input] output] l IH]; intros child; [done|].
  simpl. apply owns_bind. eapply owns_mono; [apply owns_request_any|].
  intros [[r out] child'] l' [-> Hp]. simpl in *.
  eapply owns_mono; [apply IH|]. intros c l' [-> ->]. done.
Qed.

Lemma owns_new fuel op :
  owns posix_law (client_new fuel op) ∅
    (fun h l => match h with
                | None => l = ∅
                | Some (p, child) => 0 < pid child /\ l = child_ledger child ⊎ own Mem p
                end).
Proof.
  unfold client_new. own_call. destruct r as [p bytes]. simpl.
  destruct (Z.eqb_spec p 0) as [->|Hp]; [unfold own; simpl; multiset_solver|].
  replace (∅ ∖ ∅ ⊎ own Mem p) with (∅ ⊎ own Mem p : ledger) by multiset_solver.
  apply owns_bind. eapply owns_mono; [apply owns_frame, owns_open|].
  intros [opened child] l (l0 & -> & [(Hr & Hpid & _ & ->)|[Hr ->]]); simpl in Hr; subst opened; simpl.
  - done.
  - split; [multiset_solver|]. intros _ _. split; multiset_solver.
Qed.

Lemma owns_session fuel op l : owns posix_law (client_session fuel op l) ∅ (fun _ l => l = ∅).
Proof.
  unfold client_session. apply owns_bind. eapply owns_mono; [apply owns_new|].
  intros [[p child]|] l' Hh; [destruct Hh as [Hpid ->]|by subst].
  apply owns_bind. eapply owns_mono; [apply owns_requests|]. intros child' l' [-> Hp].
  apply owns_bind. eapply owns_mono; [apply owns_frame, owns_close; [reflexivity|lia]|].
  intros _ l' (l0 & -> & ->). simpl.
  split; [multiset_solver|]. intros _ _. split; multiset_solver.
Qed.
#[local] Transparent media_open.

(** ** Properties *)

(** Closing a client handle joins its helper process, in bounded time.  Started owning
    the child's pid and, unless a failed request already closed it, its descriptor,
    [media_close] closes the descriptor exactly once, reaps the process and owns nothing of
    it afterwards.  It sleeps at most one second, and it returns unless the final blocking
    wait (after SIGKILL) is interrupted more often than the fuel allows for. *)
Theorem media_close_joins fuel child tr o :
  traces (media_close fuel child) tr o -> Forall (lawful posix_law) tr -> 0 <= pid child ->
  (exists l', audit tr (child_ledger child) = Some l' /\ (is_Some o -> l' = ∅)) /\
  slept tr <= 1000000000 /\
  (wait_interrupts tr < Z.of_nat fuel -> is_Some o).
Proof.
  intros Ht Hl H0. split.
  - destruct (owns_sound _ _ _ _ _ _ (owns_close fuel child _ (reflexivity _) H0) Ht Hl)
      as (l' & Ha & HQ).
    exists l'. split; [done|]. intros [a ->]. rewrite (HQ a eq_refl). multiset_solver.
  - unfold media_close in Ht.
    assert (forall tr1 o1, traces (if fd child >=? 0 then call (close (fd child)) else Ret tt) tr1 o1 ->
      slept tr1 = 0 /\ is_Some o1) as Hc.
    { intros tr1 o1. destruct (fd child >=? 0); [intros (r & ? & -> & -> & ->)|intros [-> ->]];
        split; by eexists. }
    apply traces_bind in Ht as [(u & tr1 & tr2 & -> & H1 & H2)|[H1 _]];
      apply Hc in H1 as [Hs1 Ho1]; [|by destruct Ho1].
    apply traces_bind in H2 as [(reaped & tr3 & tr4 & -> & H3 & H4)|[H3 _]];
      apply reap_poll_trace in H3 as [Hs3 Ho3]; [|by destruct Ho3].
    rewrite !slept_app, Hs1. destruct reaped.
    + destruct H4 as [-> ->]. split; [cbn -[Z.mul]; lia|by eexists].
    + destruct H4 as (r & tr5 & -> & H4). apply reap_wait_trace in H4 as [Hs5 Ho5].
      rewrite slept_cons, Hs5. split; [cbn -[Z.mul]; lia|]. intros Hw. apply Ho5.
      pose proof (wait_interrupts_suffix (tr1 ++ tr3 ++ [Event (kill_sigkill (pid child)) r]) tr5) as Hx.
      rewrite <- !app_assoc in Hx. simpl in Hx. lia.
Qed.

Lemma media_close_joins_witness :
  exists l', audit (exec_trace script_env (media_close 1 (Child 5 77)) []) (child_ledger (Child 5 77))
               = Some l' /\ l' = ∅.
Proof.
  destruct (media_close_joins 1 (Child 5 77) (exec_trace script_env (media_close 1 (Child 5 77)) [])
    (exec_value script_env (media_close 1 (Child 5 77)) [])) as [(l' & Ha & Hd) _].
  - apply exec_traces.
  - check_law.
  - simpl; lia.
  - exists l'. split; [exact Ha|]. apply Hd. by eexists.
Defined.

(** C14: no client session leaks or reuses an operating-system resource.  Whatever the
    operating system answers at every call (no helper configured, a failing [socketpair],
    [fcntl], spawn or handshake, a helper that dies or misbehaves, an exhausted allocator), a
    session that opens a handle, issues any requests on it and frees it uses no closed
    descriptor and no reaped pid, releases nothing twice, and when it returns every
    descriptor, allocation, spawn-actions object and child process it obtained is gone. *)
Theorem client_session_balanced fuel op l tr o :
  traces (client_session fuel op l) tr o -> Forall (lawful posix_law) tr ->
  exists l', audit tr ∅ = Some l' /\ (is_Some o -> l' = ∅).
Proof.
  intros Ht Hl. destruct (owns_sound _ _ _ _ _ _ (owns_session fuel op l) Ht Hl) as (l' & Ha & HQ).
  exists l'. split; [done|]. intros [a ->]. by apply (HQ a).
Qed.

(** The reply to [MEDIA_OPEN_PEER] with result 0, and to [MEDIA_STATE] with result 1. *)
Definition reply_to (op : AgentMediaOperation) (result : Z) : list byte :=
  message_bytes (Message AGENT_MEDIA_MAGIC (operation_code op) (u32 result) 0).

Definition session_script : script :=
  [(16, 0, []); (16, 0, reply_to MEDIA_OPEN_PEER 0); (16, 0, []); (16, 0, reply_to MEDIA_STATE 1)].

Lemma client_session_balanced_witness :
  let p := client_session 20 MEDIA_OPEN_PEER [(operation_code MEDIA_STATE, 0, [], [])] in
  exec_value script_env p session_script = Some tt /\
  exists l', audit (exec_trace script_env p session_script) ∅ = Some l' /\ l' = ∅.
Proof.
  split; [vm_compute; reflexivity|].
  destruct (client_session_balanced 20 MEDIA_OPEN_PEER [(operation_code MEDIA_STATE, 0, [], [])]
    (exec_trace script_env (client_session 20 MEDIA_OPEN_PEER [(operation_code MEDIA_STATE, 0, [], [])])
      session_script) (Some tt)) as (l' & Ha & Hd).
  - run_with script_env session_script.
  - check_law.
  - exists l'. split; [exact Ha|]. apply Hd. by eexists.
Defined.

(** A reply is only believed when it is coherent.  Whatever bytes the helper sends, the
    caller's buffer keeps its size; a positive result of a byte-returning operation never
    exceeds the capacity and is exactly the number of payload bytes stored at the start of
    the buffer; with a zero or negative result the buffer is untouched unless the request
    failed and gave up the connection. *)
Theorem media_request_validates fuel child op arg input size output capacity tr r out child' :
  traces (media_request fuel child op arg input size output capacity) tr (Some (r, out, child')) ->
  Forall (lawful posix_law) tr -> 0 <= size <= zlen input -> 0 <= capacity <= zlen output ->
  returns_bytes_op op = true ->
  is_i32 r /\ zlen out = zlen output /\
  (0 < r -> r <= capacity /\
     exists payload, zlen payload = r /\ payload `suffix_of` received tr /\ out = store output 0 payload) /\
  (r <= 0 -> child' = child -> out = output).
Proof.
  intros Ht Hl Hsize Hcap Hop. assert (is_i32 (-1)) as Hi by (unfold is_i32; lia).
  pose proof (media_request_spec _ _ _ _ _ _ _ _ _ _ _ _ Ht Hl Hsize Hcap) as H.
  destruct (request_guard child size capacity) eqn:Hg.
  { destruct H as (-> & -> & -> & ->). split_and!; [done|done|lia|done]. }
  destruct H as [(-> & reply & payload & _ & Hrec & Hwf & Hz & Hrej & -> & ->)|(-> & -> & Hz)].
  2: { split_and!; [done|done|lia|]. intros _ Hc. unfold request_guard in Hg.
       apply (f_equal fd) in Hc. simpl in Hc. lia. }
  destruct Hwf as (_ & _ & Harg & Hlen). unfold reply_rejected in Hrej.
  rewrite Hop in Hrej. cbv zeta in Hrej. rewrite !andb_true_l in Hrej.
  split_and!; [apply i32_range|apply zlen_store; lia| |].
  - intros Hr. pose proof (i32_pos_u32 _ Harg Hr) as Hi32. rewrite Hi32 in *. split; [lia|].
    exists payload. split_and!; [lia| |done]. eexists. exact Hrec.
  - intros Hr _. assert (zlen payload = 0) as Hp by lia.
    apply zlen_nil_inv in Hp as ->. apply store_nil. lia.
Qed.

Lemma media_request_validates_witness :
  let p := media_request 20 (Child 5 77) (operation_code MEDIA_PULL) 4 [] 0
             [Byte.xff; Byte.xff; Byte.xff; Byte.xff] 4 in
  let s := [(16, 0, []); (16, 0, message_bytes (Message AGENT_MEDIA_MAGIC 10 2 2));
            (2, 0, [Byte.x01; Byte.x02])] in
  2 <= 4 /\ exists payload, zlen payload = 2 /\
    [Byte.x01; Byte.x02; Byte.xff; Byte.xff] = store [Byte.xff; Byte.xff; Byte.xff; Byte.xff] 0 payload.
Proof.
  destruct (media_request_validates 20 (Child 5 77) (operation_code MEDIA_PULL) 4 [] 0
    [Byte.xff; Byte.xff; Byte.xff; Byte.xff] 4
    (exec_trace script_env (media_request 20 (Child 5 77) (operation_code MEDIA_PULL) 4 [] 0
      [Byte.xff; Byte.xff; Byte.xff; Byte.xff] 4)
      [(16, 0, []); (16, 0, message_bytes (Message AGENT_MEDIA_MAGIC 10 2 2)); (2, 0, [Byte.x01; Byte.x02])])
    2 [Byte.x01; Byte.x02; Byte.xff; Byte.xff] (Child 5 77)) as (_ & _ & Hpos & _).
  - run_with script_env
      ([(16, 0, []); (16, 0, message_bytes (Message AGENT_MEDIA_MAGIC 10 2 2)); (2, 0, [Byte.x01; Byte.x02])] : script).
  - check_law.
  - simpl; lia.
  - simpl; lia.
  - reflexivity.
  - destruct (Hpos ltac:(lia)) as [Hle (payload & Hz & _ & Hs)]. split; [exact Hle|].
    exists payload. split; [exact Hz|exact Hs].
Defined.

(** A failed request poisons its handle.  When a request gives up the connection it
    closes the descriptor once and reports -1, and every later request on the handle returns
    -1 without making a single system call or touching the caller's buffer; otherwise the
    descriptor is still open. *)
Theorem media_request_fails_closed fuel child op arg input size output capacity tr r out child' :
  traces (media_request fuel child op arg input size output capacity) tr (Some (r, out, child')) ->
  Forall (lawful posix_law) tr -> 0 <= fd child ->
  audit tr (fd_part child) = Some (fd_part child') /\
  ((fd child' = fd child) \/
   (fd child' = -1 /\ r = -1 /\
    forall fuel' op' arg' input' size' output' capacity' tr' o',
      traces (media_request fuel' child' op' arg' input' size' output' capacity') tr' o' ->
      tr' = [] /\ o' = Some (-1, output', child'))).
Proof.
  intros Ht Hl Hf.
  assert (fd_part child = {[+ (Fd, fd child) +]}) as Hp
    by (unfold fd_part; by rewrite Z.geb_leb, (proj2 (Z.leb_le _ _))).
  destruct (owns_sound _ _ _ _ _ _
    (owns_request fuel child op arg input size output capacity (fd_part child) ltac:(by rewrite Hp)) Ht Hl)
    as (l' & Ha & HQ).
  destruct (HQ _ eq_refl) as [_ [[Hfd ->]|(Hfd & Hr & ->)]]; simpl in *; rewrite Ha.
  - split; [|by left]. unfold fd_part. by rewrite Hfd.
  - split; [rewrite Hp; unfold fd_part; rewrite Hfd; f_equal; simpl; multiset_solver|].
    right. split_and!; [done|done|]. intros fuel' op' arg' input' size' output' capacity' tr' o' Ht'.
    unfold media_request in Ht'. rewrite Hfd in Ht'. simpl in Ht'. done.
Qed.

Lemma media_request_fails_closed_witness :
  let p := media_request 20 (Child 5 77) (operation_code MEDIA_STATE) 0 [] 0 [] 0 in
  audit (exec_trace script_env p [(3, 0, []); (-1, 32, [])]) (fd_part (Child 5 77))
    = Some (fd_part (Child (-1) 77)).
Proof.
  apply (media_request_fails_closed 20 (Child 5 77) (operation_code MEDIA_STATE) 0 [] 0 [] 0 _
    (-1) [] (Child (-1) 77)).
  - run_with script_env ([(3, 0, []); (-1, 32, [])] : script).
  - check_law.
  - simpl; lia.
Defined.
