(* ===== verification/Helper.v ===== *)
(** * The media helper process (agent-webrtc/cbits/helper.c)

    One resource per process: the first message opens it, every later message is one call on
    it, and end of file releases it.  The resource functions are the [Device] signature;
    the socket calls are [Posix]. *)

From stdpp Require Import base tactics option list gmap gmultiset.
From Stdlib Require Import ZArith Lia.
From coqutil Require Import Byte Word.LittleEndianList.
From S2P Require Import Prelude Programs MediaProtocol Device.
#[local] Open Scope Z_scope.

Abbreviation HelperCall := (sum_sig Posix Device).
Definition sys {R} (e : Posix R) : prog HelperCall R := call (left_call e).
Definition dev {R} (d : Device R) : prog HelperCall R := call (right_call d).
Definition helper_law : laws HelperCall := sum_law posix_law device_law.

(** The locals of [main] that live across iterations.  [peer] and [audio] are NULL or the
    one resource; [bytes] is the buffer of [AGENT_MEDIA_LIMIT + 1] bytes. *)
Record helper := Helper { peer : Z; audio : Z; initialized : bool; bytes : list byte }.

Definition protocol_fd : Z := 3.

(** A call of the two switches: functions returning [int] leave [length] at 0; functions
    filling [bytes] set it to a positive result. *)
Inductive device_call :=
  | IntCall (d : Device Z)
  | BytesCall (d : Device (Z * list byte)).

(** The outcome of a [case]: [goto done], [break] with [result] still -1, or a call. *)
Inductive dispatch := Done | NoCall | Do (c : device_call).

(** [request.argument <= AGENT_MEDIA_LIMIT ? request.argument : 0] *)
Definition bounded_capacity (argument_ : Z) : Z :=
  if argument_ <=? AGENT_MEDIA_LIMIT then argument_ else 0.

(** [bytes] holds the payload of [request.length] bytes followed by a NUL. *)
Definition peer_case (peer : Z) (request : AgentMediaMessage) (bytes : list byte) : dispatch :=
  let payload := ztake (length_ request) bytes in
  match operation_of_code (operation request) with
  | Some MEDIA_CREATE => Do (IntCall (agent_peer_create_description peer (negb (argument request =? 0))))
  | Some MEDIA_SET =>
      if memchr_nul payload then NoCall
      else Do (IntCall (agent_peer_set_description peer (c_string bytes)
             (negb (Z.land (argument request) 1 =? 0))
             (negb (Z.land (Z.shiftr (argument request) 1) 1 =? 0))))
  | Some MEDIA_OPERATION => Do (BytesCall (agent_peer_operation peer AGENT_MEDIA_LIMIT))
  | Some MEDIA_LOCAL => Do (BytesCall (agent_peer_local_description peer AGENT_MEDIA_LIMIT))
  | Some MEDIA_STATE => Do (IntCall (agent_peer_state peer))
  | Some MEDIA_PUSH => Do (IntCall (agent_peer_push peer payload))
  | Some MEDIA_PULL => Do (BytesCall (agent_peer_pull peer (bounded_capacity (argument request))))
  | _ => Done
  end.

Definition audio_case (audio : Z) (request : AgentMediaMessage) (bytes : list byte) : dispatch :=
  let payload := ztake (length_ request) bytes in
  match operation_of_code (operation request) with
  | Some MEDIA_AUDIO_READ => Do (BytesCall (agent_audio_read audio (bounded_capacity (argument request))))
  | Some MEDIA_AUDIO_WRITE => Do (IntCall (agent_audio_write audio payload))
  | Some MEDIA_AUDIO_STATE => Do (IntCall (agent_audio_state audio))
  | _ => Done
  end.

(** [result], [length] and [bytes] after the call. *)
Definition run_device_call (c : device_call) (bytes : list byte)
    : prog HelperCall (Z * Z * list byte) :=
  match c with
  | IntCall d => result ← dev d; Ret (result, 0, bytes)
  | BytesCall d =>
      '(result, data) ← dev d;
      Ret (result, (if result >? 0 then u32 result else 0), store bytes 0 data)
  end.

(** The [if (!initialized)] branch: [None] leaves the loop. *)
Definition helper_open (h : helper) (request : AgentMediaMessage)
    : prog HelperCall (option (Z * Z * helper)) :=
  if negb (length_ request =? 0) then Ret None else
  match operation_of_code (operation request) with
  | Some MEDIA_OPEN_PEER =>
      p ← dev agent_peer_new;
      Ret (Some ((if p =? 0 then -1 else 0), 0, Helper p (audio h) true (bytes h)))
  | Some MEDIA_OPEN_CAPTURE =>
      a ← dev (agent_audio_new true);
      Ret (Some ((if a =? 0 then -1 else 0), 0, Helper (peer h) a true (bytes h)))
  | Some MEDIA_OPEN_PLAYBACK =>
      a ← dev (agent_audio_new false);
      Ret (Some ((if a =? 0 then -1 else 0), 0, Helper (peer h) a true (bytes h)))
  | _ => Ret None
  end.

Definition set_bytes (h : helper) (b : list byte) : helper :=
  Helper (peer h) (audio h) (initialized h) b.

(** [result], [length] and the state after one well-formed request. *)
Definition helper_handle (h : helper) (request : AgentMediaMessage)
    : prog HelperCall (option (Z * Z * helper)) :=
  if negb (initialized h) then helper_open h request
  else
    match (if negb (peer h =? 0) then peer_case (peer h) request (bytes h)
           else if negb (audio h =? 0) then audio_case (audio h) request (bytes h)
           else NoCall) with
    | Done => Ret None
    | NoCall => Ret (Some (-1, 0, h))
    | Do c =>
        '(result, length, b) ← run_device_call c (bytes h);
        Ret (Some (result, length, set_bytes h b))
    end.

(** The response message. *)
Definition response_message (request : AgentMediaMessage) (result length : Z) : AgentMediaMessage :=
  Message AGENT_MEDIA_MAGIC (operation request) (u32 (i32 result)) length.

(** The end of an iteration: the response and its payload; [false] leaves the loop. *)
Definition helper_reply (fuel : nat) (h : helper) (request : AgentMediaMessage) (result length : Z)
    : prog HelperCall (helper * bool) :=
  if length >? AGENT_MEDIA_LIMIT then Ret (h, false) else
  '(ok, _) ← lift_left (media_transfer fuel protocol_fd
              (message_bytes (response_message request result length)) 0 sizeof_message true);
  if ok =? 0 then Ret (h, false) else
  '(ok, _) ← lift_left (media_transfer fuel protocol_fd (bytes h) 0 length true);
  if ok =? 0 then Ret (h, false) else
  Ret (h, negb ((peer h =? 0) && (audio h =? 0))).

(** One iteration of the [while] loop: the state, and whether the loop goes on. *)
Definition helper_round (fuel : nat) (h : helper) : prog HelperCall (helper * bool) :=
  '(ok, header) ← lift_left (media_transfer fuel protocol_fd (replicate 16 Byte.x00) 0 sizeof_message false);
  if ok =? 0 then Ret (h, false) else
  let request := message_of_bytes header in
  if negb (magic request =? AGENT_MEDIA_MAGIC) || (length_ request >? AGENT_MEDIA_LIMIT)
  then Ret (h, false) else
  '(ok, b) ← lift_left (media_transfer fuel protocol_fd (bytes h) 0 (length_ request) false);
  let h := set_bytes h b in
  if ok =? 0 then Ret (h, false) else
  let h := set_bytes h (store (bytes h) (length_ request) [Byte.x00]) in
  handled ← helper_handle h request;
  match handled with
  | None => Ret (h, false)
  | Some (result, length, h) => helper_reply fuel h request result length
  end.

Fixpoint helper_loop (rounds fuel : nat) (h : helper) : prog HelperCall helper :=
  match rounds with
  | O => Spin
  | S rounds =>
      '(h, continue) ← helper_round fuel h;
      if continue : bool then helper_loop rounds fuel h else Ret h
  end.

(** The exit code. *)
Definition helper_main (rounds fuel : nat) : prog HelperCall Z :=
  r ← sys (fcntl_setfd_cloexec protocol_fd);
  if r <? 0 then Ret 1 else
  '(p, b) ← sys (malloc (AGENT_MEDIA_LIMIT + 1));
  if p =? 0 then Ret 1 else
  h ← helper_loop rounds fuel (Helper 0 0 false b);
  (if negb (peer h =? 0) then dev (agent_peer_free (peer h)) else Ret tt);;
  (if negb (audio h =? 0) then dev (agent_audio_free (audio h)) else Ret tt);;
  sys (free p);;
  sys (close protocol_fd);;
  Ret 0.

Arguments run_device_call : simpl never.

(** ** What one round exchanges *)

(** [main]'s invariant: the buffer has room for [AGENT_MEDIA_LIMIT] bytes and a NUL, there is
    at most one resource, and none before initialization. *)
Definition helper_inv (h : helper) : Prop :=
  zlen (bytes h) = AGENT_MEDIA_LIMIT + 1 /\ (peer h = 0 \/ audio h = 0) /\
  (initialized h = false -> peer h = 0 /\ audio h = 0).

Lemma bind_recv_lifted {B} fuel fd buffer length (k : Z * list byte -> prog HelperCall B) tr b :
  traces (mbind k (lift_left (media_transfer fuel fd buffer 0 length false))) tr (Some b) ->
  Forall (lawful helper_law) tr -> 0 <= length < 2 ^ 64 -> length <= zlen buffer ->
  exists r tr1 tr2, tr = map left_event tr1 ++ tr2 /\
    traces (k (r, store buffer 0 (received tr1))) tr2 (Some b) /\
    Forall (lawful helper_law) tr2 /\ sent tr1 = [] /\
    ((r = 1 /\ zlen (received tr1) = length) \/ (r = 0 /\ zlen (received tr1) < length)).
Proof.
  intros Ht Hl H1 H2. apply traces_bind in Ht as [([r b'] & tr1' & tr2 & -> & Hm & Hk)|[_ [=]]].
  apply Forall_app in Hl as [Hl1 Hl2]. apply traces_lift_left in Hm as (tr1 & -> & Hm).
  apply lawful_left in Hl1.
  apply media_transfer_recv in Hm as (_ & Hs & -> & Ho); [|done|lia..].
  exists r, tr1, tr2. by split_and!.
Qed.

Lemma bind_send_lifted {B} fuel fd buffer length (k : Z * list byte -> prog HelperCall B) tr b :
  traces (mbind k (lift_left (media_transfer fuel fd buffer 0 length true))) tr (Some b) ->
  Forall (lawful helper_law) tr -> 0 <= length < 2 ^ 64 -> length <= zlen buffer ->
  exists r tr1 tr2, tr = map left_event tr1 ++ tr2 /\ traces (k (r, buffer)) tr2 (Some b) /\
    Forall (lawful helper_law) tr2 /\ received tr1 = [] /\
    sent tr1 = ztake (zlen (sent tr1)) buffer /\
    ((r = 1 /\ zlen (sent tr1) = length) \/ (r = 0 /\ zlen (sent tr1) < length)).
Proof.
  intros Ht Hl H1 H2. apply traces_bind in Ht as [([r b'] & tr1' & tr2 & -> & Hm & Hk)|[_ [=]]].
  apply Forall_app in Hl as [Hl1 Hl2]. apply traces_lift_left in Hm as (tr1 & -> & Hm).
  apply lawful_left in Hl1.
  apply media_transfer_send in Hm as (_ & Hr & Hs & -> & Ho); [|done|lia..].
  exists r, tr1, tr2. by split_and!.
Qed.

(** The device calls of the switches, with a uniform view of their answers. *)
Definition device_call_law (c : device_call) (a : Z * list byte) : Prop :=
  match c with
  | IntCall d => device_law _ d a.1 /\ a.2 = []
  | BytesCall d => device_law _ d a
  end.
Definition device_call_event (c : device_call) (a : Z * list byte) : event Device :=
  match c with IntCall d => Event d a.1 | BytesCall d => Event d a end.

Lemma run_device_call_spec c b tr result length b' :
  traces (run_device_call c b) tr (Some (result, length, b')) -> Forall (lawful helper_law) tr ->
  exists data, device_call_law c (result, data) /\ lefts tr = [] /\
    rights tr = [device_call_event c (result, data)] /\
    length = (match c with IntCall _ => 0 | BytesCall _ => if result >? 0 then u32 result else 0 end) /\
    b' = store b 0 data.
Proof.
  destruct c as [d|d]; simpl.
  - intros (r & tr' & -> & -> & H) Hl. simplify_eq. exists []. apply Forall_cons_1 in Hl as [Hl _].
    split_and!; [done|done|done|done|done|]. by rewrite store_nil.
  - intros ([r data] & tr' & -> & -> & H) Hl. simplify_eq. exists data.
    apply Forall_cons_1 in Hl as [Hl _]. by split_and!.
Qed.

Lemma bounded_capacity_range z : is_u32 z -> 0 <= bounded_capacity z <= AGENT_MEDIA_LIMIT.
Proof. unfold is_u32, bounded_capacity, AGENT_MEDIA_LIMIT. case_match; lia. Qed.

(** The case of a request in the state [h], as [helper_handle] selects it. *)
Definition helper_case (h : helper) (request : AgentMediaMessage) : dispatch :=
  if negb (peer h =? 0) then peer_case (peer h) request (bytes h)
  else if negb (audio h =? 0) then audio_case (audio h) request (bytes h)
  else NoCall.

(** Every call of the switches is given at most [AGENT_MEDIA_LIMIT] bytes of buffer. *)
Lemma helper_case_bound h request c result data :
  helper_case h request = Do c -> is_u32 (argument request) ->
  device_call_law c (result, data) ->
  is_i32 result /\ zlen data <= AGENT_MEDIA_LIMIT /\
  match c with IntCall _ => data = [] | BytesCall _ => 0 < result -> zlen data = result end.
Proof.
  intros Hc Harg. pose proof (bounded_capacity_range _ Harg) as Hcap.
  assert (0 <= AGENT_MEDIA_LIMIT < 2 ^ 31) as H0 by (unfold AGENT_MEDIA_LIMIT; lia).
  unfold helper_case, peer_case, audio_case in Hc.
  repeat case_match; simplify_eq; simpl;
    first [intros [Hr ->]; split_and!; [exact Hr|apply H0|done]
          |intros (Hr & Hd); simpl in *; split_and!; [done|lia|apply Hd; lia]].
Qed.

(** What handling a request establishes. *)
Lemma helper_handle_spec h request tr handled :
  traces (helper_handle h request) tr (Some handled) -> Forall (lawful helper_law) tr ->
  helper_inv h -> is_u32 (argument request) ->
  lefts tr = [] /\
  match handled with
  | None => rights tr = []
  | Some (result, length, h2) =>
      is_i32 result /\ 0 <= length <= AGENT_MEDIA_LIMIT /\ helper_inv h2 /\ initialized h2 = true /\
      (initialized h = true ->
         peer h2 = peer h /\ audio h2 = audio h /\
         ((helper_case h request = NoCall /\ rights tr = [] /\ result = -1 /\ length = 0 /\ h2 = h) \/
          exists c data, helper_case h request = Do c /\ device_call_law c (result, data) /\
            rights tr = [device_call_event c (result, data)] /\
            length = match c with IntCall _ => 0 | BytesCall _ => Z.max 0 result end /\
            bytes h2 = store (bytes h) 0 data))
  end.
Proof.
  intros Ht Hl Hinv Harg. pose proof Hinv as (Hb & Hone & Hinit). unfold helper_handle in Ht.
  assert (is_i32 (-1) /\ is_i32 0) as [Hm1 Hz0] by (unfold is_i32; lia).
  destruct (initialized h) eqn:Hi; simpl in Ht.
  - fold (helper_case h request) in Ht. destruct (helper_case h request) as [| |c] eqn:Hc.
    + by destruct Ht as [-> [= ->]].
    + destruct Ht as [-> [= ->]]. split; [done|]. unfold AGENT_MEDIA_LIMIT.
      split_and!; [done|lia|lia|done|done|]. intros _. split_and!; [done|done|]. by left.
    + apply traces_bind in Ht as [([[result length] b] & tr1 & tr2 & -> & H1 & H2)|[_ [=]]].
      destruct H2 as [-> [= ->]]. rewrite app_nil_r in *.
      apply run_device_call_spec in H1 as (data & Hd & -> & -> & -> & ->); [|done].
      destruct (helper_case_bound _ _ _ _ _ Hc Harg Hd) as (Hr & Hz & Hlen). split; [done|].
      assert ((match c with IntCall _ => 0 | BytesCall _ => if result >? 0 then u32 result else 0 end) =
        match c with IntCall _ => 0 | BytesCall _ => Z.max 0 result end) as ->.
      { destruct c; [done|]. destruct (Z.gtb_spec result 0); [|lia].
        rewrite u32_id by (unfold is_u32, is_i32 in *; lia). lia. }
      split_and!; [done|destruct c; lia|destruct c; lia| |exact Hi|].
      * unfold helper_inv, set_bytes. simpl. rewrite zlen_store by lia. split_and!; [done|done|congruence].
      * intros _. split_and!; [done|done|]. right. by exists c, data.
  - unfold helper_open in Ht. destruct (negb _); [by destruct Ht as [-> [= ->]]|].
    destruct (Hinit eq_refl) as [Hp Ha].
    destruct (operation_of_code (operation request)) as [[]|];
      try (by destruct Ht as [-> [= ->]]);
      destruct Ht as (r & tr' & -> & -> & [= ->]); (split; [done|]); unfold AGENT_MEDIA_LIMIT in *;
      (split_and!; [by case_match|lia|lia|split_and!; simpl; [done|auto|done]|done|done]).
Qed.

(** The buffer a request is handled with: its payload followed by a NUL. *)
Definition loaded (h : helper) (payload : list byte) : helper :=
  set_bytes h (store (store (bytes h) 0 payload) (zlen payload) [Byte.x00]).

Lemma loaded_inv h payload :
  helper_inv h -> zlen payload <= AGENT_MEDIA_LIMIT -> helper_inv (loaded h payload).
Proof.
  intros (Hb & H) Hp. split; [|done]. simpl.
  assert (zlen (store (bytes h) 0 payload) = zlen (bytes h)) as Hz by (apply zlen_store; lia).
  rewrite zlen_store; [lia|lia|]. rewrite Hz, Hb. simpl. lia.
Qed.

(** A request that was received and handled, with its (possibly unsent) reply. *)
Definition handled (h : helper) (tr : list (event HelperCall)) (h' : helper)
    (request : AgentMediaMessage) (payload : list byte) (result length : Z) : Prop :=
  message_wf request /\ zlen payload = length_ request /\ zlen payload <= AGENT_MEDIA_LIMIT /\
  received (lefts tr) = message_bytes request ++ payload /\
  exists tr', traces (helper_handle (loaded h payload) request) tr' (Some (Some (result, length, h'))) /\
    Forall (lawful helper_law) tr' /\ rights tr = rights tr'.

Definition reply_bytes (h : helper) (request : AgentMediaMessage) (result length : Z) : list byte :=
  message_bytes (response_message request result length) ++ ztake length (bytes h).

(** A round either handles a request or leaves the loop without a reply and without having
    called a device. *)
Definition round_outcome (h : helper) (tr : list (event HelperCall)) (h' : helper) (continue : bool) : Prop :=
  (exists request payload result length,
     handled h tr h' request payload result length /\
     sent (lefts tr) `prefix_of` reply_bytes h' request result length /\
     (continue = true -> sent (lefts tr) = reply_bytes h' request result length /\
        (peer h' <> 0 \/ audio h' <> 0))) \/
  (continue = false /\ sent (lefts tr) = [] /\ rights tr = [] /\
   peer h' = peer h /\ audio h' = audio h /\ initialized h' = initialized h).

Lemma helper_reply_spec fuel h request result length tr h' continue :
  traces (helper_reply fuel h request result length) tr (Some (h', continue)) ->
  Forall (lawful helper_law) tr -> helper_inv h -> 0 <= length <= AGENT_MEDIA_LIMIT ->
  h' = h /\ received (lefts tr) = [] /\ rights tr = [] /\
  sent (lefts tr) `prefix_of` reply_bytes h request result length /\
  (continue = true -> sent (lefts tr) = reply_bytes h request result length /\
     (peer h <> 0 \/ audio h <> 0)).
Proof.
  intros Ht Hl (Hb & _) Hlen. unfold helper_reply in Ht.
  destruct (Z.gtb_spec length AGENT_MEDIA_LIMIT); [lia|]. unfold AGENT_MEDIA_LIMIT in *.
  pose proof (zlen_message_bytes (response_message request result length)) as Hm.
  apply bind_send_lifted in Ht as (r1 & tr1 & tr1' & -> & Ht & Hl1 & Hr1 & Hp1 & Ho1);
    [|done|done|by rewrite Hm].
  destruct Ho1 as [[-> Hz1]|[-> _]]; simpl in Ht.
  2: { destruct Ht as [-> [= -> ->]]. rewrite app_nil_r, lefts_left, rights_left.
       split_and!; [done|done|done| |done]. rewrite Hp1. apply prefix_app_r, prefix_take. }
  rewrite Hz1 in Hp1. rewrite <- Hm, ztake_all in Hp1.
  apply bind_send_lifted in Ht as (r2 & tr2 & tr2' & -> & Ht & Hl2 & Hr2 & Hp2 & Ho2);
    [|done|lia|lia].
  assert (tr2' = [] /\ h' = h /\ (continue = true -> r2 = 1 /\ (peer h <> 0 \/ audio h <> 0)))
    as (-> & -> & Hc).
  { destruct (r2 =? 0) eqn:Hr; destruct Ht as [-> [= -> ->]]; split_and!; try done.
    intros Hc. split; lia. }
  rewrite app_nil_r, lefts_app, rights_app, !lefts_left, !rights_left, received_app, sent_app, Hr1, Hr2, Hp1.
  split_and!; [done|done|done| |].
  - unfold reply_bytes. apply prefix_app. rewrite Hp2. apply ztake_prefix. lia.
  - intros Hct. destruct (Hc Hct) as [-> Hpa]. split; [|done].
    destruct Ho2 as [[_ Hz2]|[[=] _]]. unfold reply_bytes. by rewrite Hp2, Hz2.
Qed.

Lemma helper_round_spec fuel h tr h' continue :
  traces (helper_round fuel h) tr (Some (h', continue)) -> Forall (lawful helper_law) tr ->
  helper_inv h -> helper_inv h' /\ round_outcome h tr h' continue.
Proof.
  intros Ht Hl Hinv. pose proof Hinv as (Hb & _). unfold helper_round in Ht.
  assert (forall tr1 b, sent tr1 = [] -> zlen b = zlen (bytes h) ->
    helper_inv (set_bytes h b) /\
    round_outcome h (map left_event tr1) (set_bytes h b) false) as Hstop.
  { intros tr1 b Hs Hz. split; [destruct Hinv as (_ & H); split; [simpl; lia|done]|]. right.
    by rewrite lefts_left, rights_left. }
  apply bind_recv_lifted in Ht as (r1 & tr1 & tr1' & -> & Ht & Hl1 & Hs1 & Ho1);
    [|done|done|by rewrite length_replicate].
  destruct Ho1 as [[-> Hz1]|[-> _]].
  2: { simpl in Ht. destruct Ht as [-> [= -> ->]]. rewrite app_nil_r. destruct h. by apply Hstop. }
  rewrite store_all in Ht by (by rewrite Hz1, length_replicate). cbv beta iota zeta in Ht.
  pose proof (message_of_bytes_wf (received tr1)) as Hwf.
  pose proof (message_of_bytes_roundtrip _ Hz1) as Hreq.
  generalize dependent (message_of_bytes (received tr1)). intros request Ht Hwf Hreq. simpl in Ht.
  destruct (negb (magic request =? AGENT_MEDIA_MAGIC) || _) eqn:Hg.
  { destruct Ht as [-> [= -> ->]]. rewrite app_nil_r. destruct h. by apply Hstop. }
  assert (0 <= length_ request <= AGENT_MEDIA_LIMIT) as Hlen.
  { destruct Hwf as (_ & _ & _ & Hlw). unfold is_u32 in Hlw. lia. }
  unfold AGENT_MEDIA_LIMIT in Hlen, Hb.
  apply bind_recv_lifted in Ht as (r2 & tr2 & tr2' & -> & Ht & Hl2 & Hs2 & Ho2);
    [|done|lia|lia].
  destruct Ho2 as [[-> Hz2]|[-> Hz2]]; simpl in Ht.
  2: { destruct Ht as [-> [= -> ->]]. rewrite app_nil_r, <- map_app.
       apply Hstop; [by rewrite sent_app, Hs1, Hs2|apply zlen_store; lia]. }
  rewrite <- Hz2 in Ht. fold (loaded h (received tr2)) in Ht.
  assert (helper_inv (loaded h (received tr2))) as Hinv2
    by (apply loaded_inv; [done|unfold AGENT_MEDIA_LIMIT; lia]).
  apply traces_bind in Ht as [(r3 & tr3 & tr4 & -> & Hh & Ht)|[_ [=]]].
  apply Forall_app in Hl2 as [Hl3 Hl4]. pose proof Hwf as (_ & _ & Harg & _).
  pose proof (helper_handle_spec _ _ _ _ Hh Hl3 Hinv2 Harg) as [Hlf Hspec].
  destruct r3 as [[[result length] h2]|].
  2: { destruct Ht as [-> [= -> ->]]. split; [done|]. right.
       by rewrite !lefts_app, !rights_app, !lefts_left, !rights_left, !sent_app, Hs1, Hs2, Hlf, Hspec. }
  destruct Hspec as (Hr & Hlength & Hinv3 & _).
  apply helper_reply_spec in Ht as (-> & Hr4 & Hd4 & Hs4); [|done|done|done].
  split; [done|]. left. exists request, (received tr2), result, length.
  rewrite !lefts_app, !lefts_left, !sent_app, Hs1, Hs2, Hlf. split; [|exact Hs4].
  split_and!; [done|done|unfold AGENT_MEDIA_LIMIT; lia| |].
  - rewrite !lefts_app, !lefts_left, !received_app, Hlf, Hr4, Hreq. simpl. by rewrite app_nil_r.
  - exists tr3. split_and!; [done|done|]. by rewrite !rights_app, !rights_left, Hd4, app_nil_r.
Qed.

(** ** Ownership *)

Definition resource_ledger (h : helper) : ledger := own PeerHandle (peer h) ⊎ own AudioHandle (audio h).
Definition round_ledger (h : helper) : ledger := {[+ (Fd, protocol_fd) +]} ⊎ resource_ledger h.
Definition unopened (h : helper) : Prop := initialized h = false -> peer h = 0 /\ audio h = 0.

Lemma owns_lifted_transfer (fuel : nat) (buffer : list byte) (off length : Z) (writing : bool)
    (l : ledger) (Q : Z * list byte -> ledger -> Prop) :
  {[+ (Fd, protocol_fd) +]} ⊆ l -> (forall a, Q a l) ->
  owns helper_law (lift_left (media_transfer fuel protocol_fd buffer off length writing)) l Q.
Proof. intros Hf HQ. apply owns_lift_left. by apply owns_transfer. Qed.

Lemma owns_run_device_call c b (l : ledger) (Q : Z * Z * list byte -> ledger -> Prop) :
  (forall a, Q a l) ->
  match c with
  | IntCall d => uses d ⊆ l /\ (forall r, takes d r = ∅) /\ (forall r, gives d r = ∅)
  | BytesCall d => uses d ⊆ l /\ (forall r, takes d r = ∅) /\ (forall r, gives d r = ∅)
  end -> owns helper_law (run_device_call c b) l Q.
Proof.
  intros HQ. destruct c as [d|d]; intros (Hu & Ht & Hg); simpl;
    (split; [done|]); intros r _; rewrite Ht, Hg, ledger_keep; (split; [multiset_solver|]);
    [|destruct r]; apply HQ.
Qed.

(** Every case calls a function on the one resource the helper owns. *)
Lemma helper_case_uses h request c :
  helper_case h request = Do c ->
  match c with
  | IntCall d => uses d ⊆ resource_ledger h /\ (forall r, takes d r = ∅) /\ (forall r, gives d r = ∅)
  | BytesCall d => uses d ⊆ resource_ledger h /\ (forall r, takes d r = ∅) /\ (forall r, gives d r = ∅)
  end.
Proof.
  unfold helper_case, resource_ledger.
  destruct (Z.eqb_spec (peer h) 0) as [_|Hp]; simpl;
    [destruct (Z.eqb_spec (audio h) 0) as [_|Ha]; simpl; [done|]|];
    unfold audio_case, peer_case; intros H; repeat case_match; simplify_eq; simpl;
    (split_and!; [|done|done]);
    first [rewrite (own_singleton AudioHandle (audio h)) by done|rewrite (own_singleton PeerHandle (peer h)) by done];
    multiset_solver.
Qed.

Lemma owns_handle h request :
  unopened h ->
  owns helper_law (helper_handle h request) (round_ledger h)
    (fun a l => match a with
                | Some (_, _, h') => unopened h' /\ l = round_ledger h'
                | None => l = round_ledger h
                end).
Proof.
  intros Hun. unfold helper_handle. destruct (initialized h) eqn:Hi; simpl.
  - fold (helper_case h request). destruct (helper_case h request) as [| |c] eqn:Hc; [done|done|].
    apply owns_bind, owns_run_device_call.
    + intros [[result length] b]. simpl. split; [|done]. intros Hf. simpl in Hf. congruence.
    + pose proof (helper_case_uses _ _ _ Hc) as Hu. unfold round_ledger.
      destruct c; destruct Hu as (Hu & Ht & Hg); (split_and!; [multiset_solver|done|done]).
  - destruct (Hun Hi) as [Hp Ha]. unfold helper_open, round_ledger, resource_ledger. rewrite Hp, Ha.
    destruct (negb _); [done|].
    destruct (operation_of_code (operation request)) as [[]|]; try done; own_call; simpl;
      (split; [done|]); unfold round_ledger, resource_ledger; simpl; rewrite ?Ha, ?Hp, ?own_null;
      multiset_solver.
Qed.

Lemma owns_round fuel h :
  unopened h ->
  owns helper_law (helper_round fuel h) (round_ledger h)
    (fun a l => unopened a.1 /\ l = round_ledger a.1).
Proof.
  intros Hun. unfold helper_round. assert ({[+ (Fd, protocol_fd) +]} ⊆ round_ledger h) as Hf
    by (unfold round_ledger; multiset_solver).
  apply owns_bind, owns_lifted_transfer; [done|]. intros [ok header].
  destruct (ok =? 0); [done|]. cbv zeta. destruct (_ || _); [done|].
  apply owns_bind, owns_lifted_transfer; [done|]. intros [ok2 b].
  destruct (ok2 =? 0); [done|]. apply owns_bind.
  match goal with |- owns _ (helper_handle ?x _) _ _ =>
    change (round_ledger h) with (round_ledger x) end.
  eapply owns_mono; [by apply owns_handle|].
  intros [[[result length] h2]|] l Hl; simpl in Hl; [destruct Hl as [Hun2 ->]|by subst].
  assert ({[+ (Fd, protocol_fd) +]} ⊆ round_ledger h2) as Hf2
    by (unfold round_ledger; multiset_solver).
  unfold helper_reply. destruct (_ >? _); [done|].
  apply owns_bind, owns_lifted_transfer; [done|]. intros [ok3 ?].
  destruct (ok3 =? 0); [done|]. apply owns_bind, owns_lifted_transfer; [done|]. intros [ok4 ?].
  by destruct (ok4 =? 0).
Qed.

Lemma owns_loop rounds fuel h :
  unopened h ->
  owns helper_law (helper_loop rounds fuel h) (round_ledger h) (fun h' l => l = round_ledger h').
Proof.
  revert h. induction rounds as [|rounds IH]; intros h Hun; [done|]. simpl.
  apply owns_bind. eapply owns_mono; [by apply owns_round|].
  intros [h' []] l [Hun' ->]; simpl in *; [by apply IH|done].
Qed.

Lemma owns_main rounds fuel :
  owns helper_law (helper_main rounds fuel) {[+ (Fd, protocol_fd) +]}
    (fun r l => (r = 0 /\ l = ∅) \/ (r = 1 /\ l = {[+ (Fd, protocol_fd) +]})).
Proof.
  unfold helper_main. own_call. destruct (_ <? _); [by right|]. own_call. destruct r0 as [p b]. simpl.
  destruct (Z.eqb_spec p 0) as [->|Hp]; [right; split; [done|]; rewrite own_null; multiset_solver|].
  apply owns_bind.
  replace (_ ∖ ∅ ⊎ own Mem p) with (round_ledger (Helper 0 0 false b) ⊎ own Mem p : ledger)
    by (unfold round_ledger, resource_ledger; simpl; rewrite own_null; multiset_solver).
  eapply owns_mono; [apply owns_frame, owns_loop; done|].
  intros h l (l0 & -> & ->). unfold round_ledger, resource_ledger. apply owns_bind.
  assert (forall (k : rkind) (x : Z) (d : Device unit) (l : ledger) (Q : unit -> ledger -> Prop),
    uses d = own k x -> takes d tt = own k x -> gives d tt = ∅ -> Q tt l ->
    owns helper_law (if negb (x =? 0) then dev d else Ret tt) (own k x ⊎ l) Q) as Hfree.
  { intros k x d m Q Hu Ht Hg HQ. destruct (Z.eqb_spec x 0) as [->|Hx]; simpl.
    - rewrite own_null. by replace (∅ ⊎ m) with m by multiset_solver.
    - split; [change (uses d ⊆ own k x ⊎ m); rewrite Hu; multiset_solver|]. intros [] _.
      change (takes d tt ⊆ own k x ⊎ m /\ Q tt ((own k x ⊎ m) ∖ takes d tt ⊎ gives d tt)).
      rewrite Ht, Hg. split; [multiset_solver|]. by replace ((own k x ⊎ m) ∖ own k x ⊎ ∅) with m by multiset_solver. }
  replace (_ ⊎ _) with (own PeerHandle (peer h) ⊎ (own AudioHandle (audio h) ⊎ ({[+ (Fd, protocol_fd) +]} ⊎ own Mem p)) : ledger)
    by multiset_solver.
  apply (Hfree PeerHandle); [done..|]. apply owns_bind, (Hfree AudioHandle); [done..|].
  own_call. own_call. left. split; [done|]. multiset_solver.
Qed.

(** ** The device calls of a helper *)

(** What a device call does to which resource; a resource is a peer or an audio stream. *)
Inductive device_kind := PeerResource | AudioResource.
Inductive device_action := Opens (k : device_kind) (h : Z) | Operates (k : device_kind) (h : Z)
  | Releases (k : device_kind) (h : Z).

Definition action (ev : event Device) : device_action :=
  match ev_call ev in Device R return R -> device_action with
  | agent_peer_new => fun h => Opens PeerResource h
  | agent_audio_new _ => fun h => Opens AudioResource h
  | agent_peer_free h => fun _ => Releases PeerResource h
  | agent_audio_free h => fun _ => Releases AudioResource h
  | agent_peer_create_description h _ | agent_peer_set_description h _ _ _ | agent_peer_state h
  | agent_peer_push h _ => fun _ => Operates PeerResource h
  | agent_peer_operation h _ | agent_peer_local_description h _ | agent_peer_pull h _ =>
      fun _ => Operates PeerResource h
  | agent_audio_read h _ => fun _ => Operates AudioResource h
  | agent_audio_write h _ | agent_audio_state h => fun _ => Operates AudioResource h
  end (ev_answer ev).

(** The resource of a helper: [0] when it has none. *)
Definition resource_of (h : helper) : device_kind * Z :=
  if negb (peer h =? 0) then (PeerResource, peer h) else (AudioResource, audio h).

Lemma helper_case_action h request c a :
  helper_case h request = Do c ->
  action (device_call_event c a) = Operates (resource_of h).1 (resource_of h).2 /\ (resource_of h).2 <> 0.
Proof.
  unfold helper_case, resource_of.
  destruct (Z.eqb_spec (peer h) 0) as [_|Hp]; simpl;
    [destruct (Z.eqb_spec (audio h) 0) as [_|Ha]; simpl; [done|]|];
    unfold audio_case, peer_case; intros H; repeat case_match; simplify_eq; done.
Qed.

(** The calls of one round: on the open resource, or the opening call. *)
Definition round_calls (h : helper) (evs : list (event Device)) (h' : helper) : Prop :=
  if initialized h
  then peer h' = peer h /\ audio h' = audio h /\
       Forall (fun ev => action ev = Operates (resource_of h).1 (resource_of h).2 /\ (resource_of h).2 <> 0) evs
  else (evs = [] /\ initialized h' = false /\ peer h' = 0 /\ audio h' = 0) \/
       exists ev k, evs = [ev] /\ action ev = Opens k (resource_of h').2 /\
         ((resource_of h').2 <> 0 -> k = (resource_of h').1).

Lemma helper_open_calls h request tr result length h' :
  traces (helper_open h request) tr (Some (Some (result, length, h'))) ->
  peer h = 0 -> audio h = 0 ->
  exists ev k, rights tr = [ev] /\ action ev = Opens k (resource_of h').2 /\
    ((resource_of h').2 <> 0 -> k = (resource_of h').1).
Proof.
  unfold helper_open. intros Ht Hp Ha. destruct (negb _); [by destruct Ht as [_ [=]]|].
  destruct (operation_of_code (operation request)) as [[]|]; try by destruct Ht as [_ [=]].
  all: destruct Ht as (r & tr' & -> & -> & [= -> -> ->]); unfold resource_of; simpl;
    rewrite ?Hp, ?Ha; simpl; destruct (Z.eqb_spec r 0) as [->|Hr]; simpl; eexists _, _; done.
Qed.

Lemma helper_round_calls fuel h tr h' continue :
  traces (helper_round fuel h) tr (Some (h', continue)) -> Forall (lawful helper_law) tr ->
  helper_inv h ->
  round_calls h (rights tr) h' /\
  (continue = true -> initialized h' = true) /\ (initialized h = true -> initialized h' = true).
Proof.
  intros Ht Hl Hinv. pose proof Hinv as (_ & _ & Hun).
  apply helper_round_spec in Ht as [_ [(request & payload & result & length & Hd & _)|H]]; [| |done..].
  - destruct Hd as (Hwf & Hz & Hle & _ & tr' & Hh & Hl' & ->).
    pose proof Hwf as (_ & _ & Harg & _).
    pose proof (helper_handle_spec _ _ _ _ Hh Hl' (loaded_inv _ _ Hinv Hle) Harg)
      as (_ & _ & _ & _ & Hi & Hcase).
    split; [|by split]. unfold round_calls. destruct (initialized h) eqn:Hih.
    + destruct (Hcase Hih) as (Hp & Ha & [(_ & -> & _)|(c & data & Hc & _ & -> & _)]); simpl in *.
      * by split_and!.
      * split_and!; [done|done|]. apply Forall_singleton. exact (helper_case_action (loaded h payload) _ _ _ Hc).
    + right. destruct (Hun eq_refl) as [Hp Ha]. unfold helper_handle in Hh. simpl in Hh. rewrite Hih in Hh.
      exact (helper_open_calls _ _ _ _ _ _ Hh Hp Ha).
  - destruct H as (-> & _ & -> & Hp & Ha & Hi). rewrite Hi. split; [|done]. unfold round_calls.
    destruct (initialized h) eqn:Hih; [by split_and!|]. left. rewrite Hp, Ha.
    destruct (Hun eq_refl). by split_and!.
Qed.

Lemma helper_loop_calls rounds fuel h tr h' :
  traces (helper_loop rounds fuel h) tr (Some h') -> Forall (lawful helper_law) tr ->
  helper_inv h -> initialized h = true ->
  peer h' = peer h /\ audio h' = audio h /\
  Forall (fun ev => action ev = Operates (resource_of h).1 (resource_of h).2 /\ (resource_of h).2 <> 0)
    (rights tr).
Proof.
  revert h tr. induction rounds as [|rounds IH]; intros h tr Ht Hl Hinv Hi; [by destruct Ht as [_ [=]]|].
  simpl in Ht. apply traces_bind in Ht as [([h1 c] & tr1 & tr2 & -> & H1 & H2)|[_ [=]]].
  apply Forall_app in Hl as [Hl1 Hl2].
  pose proof (helper_round_calls _ _ _ _ _ H1 Hl1 Hinv) as (Hc & _ & Hi1).
  pose proof (helper_round_spec _ _ _ _ _ H1 Hl1 Hinv) as (Hinv1 & _).
  unfold round_calls in Hc. rewrite Hi in Hc. destruct Hc as (Hp & Ha & Hf). rewrite rights_app.
  destruct c.
  - apply IH in H2 as (Hp2 & Ha2 & Hf2); [|done|done|by apply Hi1].
    split_and!; [congruence|congruence|]. apply Forall_app. split; [done|].
    unfold resource_of in *. by rewrite Hp, Ha in Hf2.
  - destruct H2 as [-> [= ->]]. by rewrite app_nil_r.
Qed.

Lemma helper_loop_inv rounds fuel h tr h' :
  traces (helper_loop rounds fuel h) tr (Some h') -> Forall (lawful helper_law) tr ->
  helper_inv h -> helper_inv h'.
Proof.
  revert h tr. induction rounds as [|rounds IH]; intros h tr Ht Hl Hinv; [by destruct Ht as [_ [=]]|].
  simpl in Ht. apply traces_bind in Ht as [([h1 c] & tr1 & tr2 & -> & H1 & H2)|[_ [=]]].
  apply Forall_app in Hl as [Hl1 Hl2].
  pose proof (helper_round_spec _ _ _ _ _ H1 Hl1 Hinv) as (Hinv1 & _).
  destruct c; [by eapply IH|]. by destruct H2 as [_ [= ->]].
Qed.

(** The loop from the start: no call at all, or an opening call followed, when it succeeded,
    by calls on the resource it opened. *)
Lemma helper_loop_life rounds fuel h tr h' :
  traces (helper_loop rounds fuel h) tr (Some h') -> Forall (lawful helper_law) tr ->
  helper_inv h -> initialized h = false ->
  (rights tr = [] /\ peer h' = 0 /\ audio h' = 0) \/
  exists ev k calls, rights tr = ev :: calls /\ action ev = Opens k (resource_of h').2 /\
    ((resource_of h').2 <> 0 -> k = (resource_of h').1) /\
    Forall (fun ev => action ev = Operates (resource_of h').1 (resource_of h').2 /\
                      (resource_of h').2 <> 0) calls.
Proof.
  intros Ht Hl Hinv Hi. destruct rounds as [|rounds]; [by destruct Ht as [_ [=]]|].
  simpl in Ht. apply traces_bind in Ht as [([h1 c] & tr1 & tr2 & -> & H1 & H2)|[_ [=]]].
  apply Forall_app in Hl as [Hl1 Hl2].
  pose proof (helper_round_spec _ _ _ _ _ H1 Hl1 Hinv) as (Hinv1 & _).
  pose proof (helper_round_calls _ _ _ _ _ H1 Hl1 Hinv) as (Hc & Hc1 & _).
  unfold round_calls in Hc. rewrite Hi in Hc. rewrite rights_app.
  destruct c.
  - destruct (helper_loop_calls _ _ _ _ _ H2 Hl2 Hinv1 (Hc1 eq_refl)) as (Hp & Ha & Hf).
    assert (resource_of h' = resource_of h1) as -> by (unfold resource_of; by rewrite Hp, Ha).
    destruct Hc as [(_ & Hi1 & _)|(ev & k & -> & Hev & Hk)]; [by rewrite Hc1 in Hi1|].
    right. by exists ev, k, (rights tr2).
  - destruct H2 as [-> [= ->]]. rewrite app_nil_r.
    destruct Hc as [(-> & _ & Hpa)|(ev & k & -> & Hev & Hk)]; [by left|].
    right. by exists ev, k, [].
Qed.

Lemma helper_release_calls h tr o :
  peer h = 0 \/ audio h = 0 ->
  traces ((if negb (peer h =? 0) then dev (agent_peer_free (peer h)) else Ret tt);;
          (if negb (audio h =? 0) then dev (agent_audio_free (audio h)) else Ret tt)) tr (Some o) ->
  ((resource_of h).2 = 0 /\ rights tr = []) \/
  ((resource_of h).2 <> 0 /\
   exists last, rights tr = [last] /\ action last = Releases (resource_of h).1 (resource_of h).2).
Proof.
  unfold resource_of. intros Hone.
  destruct (Z.eqb_spec (peer h) 0) as [Hp|Hp], (Z.eqb_spec (audio h) 0) as [Ha|Ha]; simpl; intros Ht;
    [left|right..|lia].
  - by destruct Ht as [-> _].
  - destruct Ht as (r & tr' & -> & -> & _). split; [done|]. by eexists.
  - destruct Ht as (r & tr' & -> & -> & _). split; [done|]. by eexists.
Qed.

(** ** Properties *)

(** The helper fed with requests to open a peer and to pull 4 bytes, then end of file. *)
Definition toy_env : env HelperCall (list byte) := sum_env stream_env toy_device.
Lemma toy_env_lawful : lawful_env helper_law toy_env.
Proof. apply sum_env_lawful; [apply stream_env_lawful|apply toy_device_lawful]. Qed.
Definition toy_requests : list byte :=
  message_bytes (Message AGENT_MEDIA_MAGIC (operation_code MEDIA_OPEN_PEER) 0 0)
    ++ message_bytes (Message AGENT_MEDIA_MAGIC (operation_code MEDIA_PULL) 4 0).

(** C15: the helper process releases what it acquired.  Started owning only its protocol
    descriptor, whatever it is sent and whatever its devices answer, it uses no resource it
    does not hold and releases none twice; when it exits with 0 the peer or audio stream, the
    buffer and the descriptor have each been released exactly once, and it exits with 1 only
    before acquiring anything. *)
Theorem helper_main_balanced rounds fuel tr o :
  traces (helper_main rounds fuel) tr o -> Forall (lawful helper_law) tr ->
  exists l, audit tr {[+ (Fd, protocol_fd) +]} = Some l /\
    (o = Some 0 -> l = ∅) /\ (forall r, o = Some r -> r <> 0 -> r = 1 /\ l = {[+ (Fd, protocol_fd) +]}).
Proof.
  intros Ht Hl. destruct (owns_sound _ _ _ _ _ _ (owns_main rounds fuel) Ht Hl) as (l & Ha & HQ).
  exists l. split; [done|]. split.
  - intros ->. by destruct (HQ _ eq_refl) as [[_ ?]|[[=] _]].
  - intros r -> Hr. by destruct (HQ _ eq_refl) as [[? _]|?].
Qed.

Lemma helper_main_balanced_witness :
  exec_value toy_env (helper_main 3 40) toy_requests = Some 0 /\
  exists l, audit (exec_trace toy_env (helper_main 3 40) toy_requests) {[+ (Fd, protocol_fd) +]} = Some l
    /\ l = ∅.
Proof.
  assert (exec_value toy_env (helper_main 3 40) toy_requests = Some 0) as Hv by (vm_compute; reflexivity).
  split; [exact Hv|].
  destruct (helper_main_balanced 3 40 (exec_trace toy_env (helper_main 3 40) toy_requests) (Some 0))
    as (l & Ha & H0 & _).
  - rewrite <- Hv. apply exec_traces.
  - apply exec_lawful, toy_env_lawful.
  - exists l. split; [exact Ha|]. apply H0. reflexivity.
Defined.

(** One resource per process.  Over its whole life a helper that exits opens at most one
    peer or audio stream, first of all; every later device call operates on that very
    resource and on the interface of its kind; if the opening failed nothing else is called,
    and otherwise the last call, and only it, releases the resource. *)
Theorem helper_main_one_resource rounds fuel tr r :
  traces (helper_main rounds fuel) tr (Some r) -> Forall (lawful helper_law) tr ->
  rights tr = [] \/
  exists ev k h, action ev = Opens k h /\
    ((h = 0 /\ rights tr = [ev]) \/
     (h <> 0 /\ exists calls last, rights tr = ev :: calls ++ [last] /\
        Forall (fun ev => action ev = Operates k h) calls /\ action last = Releases k h)).
Proof.
  intros Ht Hl. unfold helper_main in Ht.
  destruct Ht as (r0 & tr0 & -> & Ht). simpl in Ht. apply Forall_cons_1 in Hl as [_ Hl].
  destruct (r0 <? 0); [destruct Ht as [-> _]; by left|].
  destruct Ht as ([p b] & tr1 & -> & Ht). apply Forall_cons_1 in Hl as [Hm Hl]. simpl in Ht.
  destruct (Z.eqb_spec p 0) as [|Hp]; [destruct Ht as [-> _]; by left|].
  apply traces_bind in Ht as [(h & tr2 & tr3 & -> & Hloop & Ht)|[_ [=]]].
  apply Forall_app in Hl as [Hl2 _].
  assert (helper_inv (Helper 0 0 false b)) as Hinv by (split; [by apply Hm|auto]).
  pose proof (helper_loop_inv _ _ _ _ _ Hloop Hl2 Hinv) as (_ & Hone & _).
  apply helper_loop_life in Hloop; [|done..].
  assert (exists tr4, rights tr3 = rights tr4 /\ exists o, traces
    ((if negb (peer h =? 0) then dev (agent_peer_free (peer h)) else Ret tt);;
     (if negb (audio h =? 0) then dev (agent_audio_free (audio h)) else Ret tt)) tr4 (Some o))
    as (tr4 & Hr & o & Hrel).
  { apply traces_bind in Ht as [(u & tr5 & tr6 & -> & H1 & H2)|[_ [=]]].
    apply traces_bind in H2 as [(u' & tr7 & tr8 & -> & H2 & (? & ? & -> & ? & ? & -> & -> & _))|[_ [=]]].
    exists (tr5 ++ tr7). rewrite !rights_app. split; [by rewrite app_nil_r|].
    exists u'. apply traces_bind. left. eauto 10. }
  apply helper_release_calls in Hrel; [|done].
  change (rights (_ :: _ :: tr2 ++ tr3)) with (rights (tr2 ++ tr3)). rewrite rights_app, Hr.
  destruct Hloop as [(-> & Hp0 & Ha0)|(ev & k & calls & -> & Hev & Hk & Hf)].
  - destruct Hrel as [[_ ->]|[Hn _]]; [by left|]. unfold resource_of in Hn. by rewrite Hp0, Ha0 in Hn.
  - right. exists ev, k, (resource_of h).2. split; [done|].
    destruct Hrel as [[H0 ->]|[Hn (last & -> & Hlast)]]; [left|right]; (split; [done|]).
    + destruct calls as [|ev' calls]; [done|]. apply Forall_cons_1 in Hf as [[_ Hf] _]. done.
    + rewrite (Hk Hn). exists calls, last. split_and!; [done| |done].
      revert Hf. apply Forall_impl. by intros ? [? _].
Qed.

Lemma helper_main_one_resource_witness :
  let tr := exec_trace toy_env (helper_main 3 40) toy_requests in
  rights tr = [] \/
  exists ev k h, action ev = Opens k h /\
    ((h = 0 /\ rights tr = [ev]) \/
     (h <> 0 /\ exists calls last, rights tr = ev :: calls ++ [last] /\
        Forall (fun ev => action ev = Operates k h) calls /\ action last = Releases k h)).
Proof.
  intros tr. apply (helper_main_one_resource 3 40 tr 0).
  - assert (exec_value toy_env (helper_main 3 40) toy_requests = Some 0) as <- by (vm_compute; reflexivity).
    apply exec_traces.
  - apply exec_lawful, toy_env_lawful.
Defined.
