(* ===== verification/Rpc.v ===== *)
(** * The client and the helper together

    helper-client.c promises the interface of peer.h and audio.h; helper.c performs it in
    another process.  This file connects the traces of the two programs by the socket between
    them (what one receives is a prefix of what the other has sent) and shows that the client's
    results are the device's answers, call by call. *)

From stdpp Require Import base tactics option list gmap gmultiset.
From Stdlib Require Import ZArith Lia.
From coqutil Require Import Byte Word.LittleEndianList.
From S2P Require Import Prelude Programs MediaProtocol Device Client Helper.
#[local] Open Scope Z_scope.

(** ** Frames *)

(** A message and its payload, as they cross the socket. *)
Definition frame : Type := AgentMediaMessage * list byte.
Definition frame_bytes (f : frame) : list byte := message_bytes f.1 ++ f.2.
Definition frame_ok (f : frame) : Prop := message_wf f.1 /\ zlen f.2 = length_ f.1.

Lemma frame_split f g a b :
  frame_ok f -> frame_ok g -> frame_bytes f ++ a = frame_bytes g ++ b -> f = g /\ a = b.
Proof.
  destruct f as [m p], g as [m' p']. unfold frame_ok, frame_bytes. cbn [fst snd]. intros [Hm Hp] [Hm' Hp'] H.
  rewrite <- !app_assoc in H. pose proof (zlen_message_bytes m) as H1. pose proof (zlen_message_bytes m') as H2.
  apply app_eq_length in H as [Hmm H]; [|lia]. apply message_bytes_inj in Hmm as ->; [|done..].
  apply app_eq_length in H as [-> ->]; [done|lia].
Qed.

Lemma frame_bytes_length f : 16 <= zlen (frame_bytes f).
Proof.
  unfold frame_bytes. rewrite length_app. pose proof (zlen_message_bytes f.1) as H.
  unfold sizeof_message in H. lia.
Qed.

Lemma frames_cons f fs : (f :: fs) ≫= frame_bytes = frame_bytes f ++ (fs ≫= frame_bytes).
Proof. done. Qed.

(** A stream of frames parses in one way only. *)
Lemma frames_prefix fs gs :
  Forall frame_ok fs -> Forall frame_ok gs ->
  (fs ≫= frame_bytes) `prefix_of` (gs ≫= frame_bytes) -> fs `prefix_of` gs.
Proof.
  intros Hf. revert gs. induction Hf as [|f fs Hf Hfs IH]; intros gs Hg [k Hk]; [apply prefix_nil|].
  rewrite frames_cons, <- app_assoc in Hk. destruct Hg as [|g gs Hg Hgs].
  - pose proof (frame_bytes_length f) as Hl. apply (f_equal length) in Hk.
    rewrite length_app in Hk. change (length ([] ≫= frame_bytes)) with 0%nat in Hk. lia.
  - rewrite frames_cons in Hk. symmetry in Hk. apply frame_split in Hk as [-> Hk]; [|done..].
    apply prefix_cons, IH; [done|]. by exists k.
Qed.

(** ** The client's calls *)

(** A call of the exported functions on one handle; [None] is a NULL buffer. *)
Inductive api_call :=
  | ApiCreate (offer : Z)
  | ApiSet (sdp : list byte) (offer local : Z)
  | ApiOperation (out : list byte)
  | ApiLocal (out : list byte)
  | ApiState
  | ApiPush (pcm : option (list byte))
  | ApiPull (out : list byte)
  | ApiRead (out : list byte)
  | ApiWrite (pcm : option (list byte))
  | ApiAudioState.

Definition osize (o : option (list byte)) : Z := zlen (default [] o).

Definition api_run (fuel : nat) (c : AgentMediaChild) (a : api_call)
    : prog Posix (Z * list byte * AgentMediaChild) :=
  match a with
  | ApiCreate offer => client_peer_create_description fuel c offer
  | ApiSet sdp offer local => client_peer_set_description fuel c sdp offer local
  | ApiOperation out => client_peer_operation fuel c out (zlen out)
  | ApiLocal out => client_peer_local_description fuel c out (zlen out)
  | ApiState => client_peer_state fuel c
  | ApiPush pcm => client_peer_push fuel c pcm (osize pcm)
  | ApiPull out => client_peer_pull fuel c out (zlen out)
  | ApiRead out => client_audio_read fuel c out (zlen out)
  | ApiWrite pcm => client_audio_write fuel c pcm (osize pcm)
  | ApiAudioState => client_audio_state fuel c
  end.

Fixpoint client_calls (fuel : nat) (c : AgentMediaChild) (l : list api_call)
    : prog Posix (list (Z * list byte) * AgentMediaChild) :=
  match l with
  | [] => Ret ([], c)
  | a :: l =>
      '(r, out, c) ← api_run fuel c a;
      '(results, c) ← client_calls fuel c l;
      Ret ((r, out) :: results, c)
  end.

(** The request a call makes, if it is not rejected before any exchange. *)
Record plan := Plan { plan_op : AgentMediaOperation; plan_arg : Z; plan_input : list byte; plan_output : list byte }.

Definition too_large (p : plan) : bool :=
  (zlen (plan_input p) >? AGENT_MEDIA_LIMIT) || (zlen (plan_output p) >? AGENT_MEDIA_LIMIT).

Definition api_plan (a : api_call) : plan :=
  match a with
  | ApiCreate offer => Plan MEDIA_CREATE (Z.b2z (negb (offer =? 0))) [] []
  | ApiSet sdp offer local =>
      Plan MEDIA_SET (Z.lor (Z.b2z (negb (offer =? 0))) (Z.shiftl (Z.b2z (negb (local =? 0))) 1))
        (c_string sdp) []
  | ApiOperation out => Plan MEDIA_OPERATION 0 [] out
  | ApiLocal out => Plan MEDIA_LOCAL 0 [] out
  | ApiState => Plan MEDIA_STATE 0 [] []
  | ApiPush pcm => Plan MEDIA_PUSH 0 (default [] pcm) []
  | ApiPull out => Plan MEDIA_PULL (u32 (zlen out)) [] out
  | ApiRead out => Plan MEDIA_AUDIO_READ (u32 (zlen out)) [] out
  | ApiWrite pcm => Plan MEDIA_AUDIO_WRITE 0 (default [] pcm) []
  | ApiAudioState => Plan MEDIA_AUDIO_STATE 0 [] []
  end.

(** Rejected by the function itself, with this result. *)
Definition api_rejected (a : api_call) : option Z :=
  match a with
  | ApiPush pcm => if pcm_rejected pcm (osize pcm) then Some 0 else None
  | ApiWrite pcm => if pcm_rejected pcm (osize pcm) then Some (-1) else None
  | _ => None
  end.

(** [agent_peer_push] reports [result == 1]. *)
Definition api_result (a : api_call) (r : Z) : Z :=
  match a with ApiPush _ => Z.b2z (r =? 1) | _ => r end.

Lemma api_run_plan fuel c a :
  api_rejected a = None ->
  forall tr r out c', traces (api_run fuel c a) tr (Some (r, out, c')) ->
  exists r0, r = api_result a r0 /\
    traces (media_request fuel c (operation_code (plan_op (api_plan a))) (plan_arg (api_plan a))
      (plan_input (api_plan a)) (zlen (plan_input (api_plan a)))
      (plan_output (api_plan a)) (zlen (plan_output (api_plan a)))) tr (Some (r0, out, c')).
Proof.
  destruct a; simpl; intros Hr tr r out0 c' Ht; try (exists r; done).
  - unfold client_peer_push in Ht. destruct (pcm_rejected _ _); [done|].
    apply traces_bind in Ht as [([[r0 out1] c1] & tr1 & tr2 & -> & H & [-> [= -> -> ->]])|[_ [=]]].
    exists r0. by rewrite app_nil_r.
  - unfold client_audio_write in Ht. destruct (pcm_rejected _ _); [done|]. by exists r.
Qed.

Definition api_frame (a : api_call) : option frame :=
  match api_rejected a with
  | Some _ => None
  | None =>
      if too_large (api_plan a) then None
      else Some (request_message (operation_code (plan_op (api_plan a))) (plan_arg (api_plan a))
                   (zlen (plan_input (api_plan a))), plan_input (api_plan a))
  end.

(** The result of a call that makes no request. *)
Definition api_local (a : api_call) (r : Z) (out : list byte) : Prop :=
  match api_rejected a with
  | Some r' => r = r' /\ out = []
  | None => r = api_result a (-1) /\ out = plan_output (api_plan a)
  end.

(** The result of a call answered by [reply]. *)
Definition decodes (a : api_call) (reply : frame) (r : Z) (out : list byte) : Prop :=
  r = api_result a (i32 (argument reply.1)) /\ out = store (plan_output (api_plan a)) 0 reply.2.

Fixpoint matched (calls : list api_call) (replies : list frame) (results : list (Z * list byte)) : Prop :=
  match calls, results with
  | [], [] => replies = []
  | a :: calls, (r, out) :: results =>
      match api_frame a, replies with
      | None, _ => api_local a r out /\ matched calls replies results
      | Some _, reply :: replies => decodes a reply r out /\ matched calls replies results
      | Some _, [] => False
      end
  | _, _ => False
  end.

Lemma api_run_spec fuel c a tr r out c' :
  traces (api_run fuel c a) tr (Some (r, out, c')) -> Forall (lawful posix_law) tr -> 0 <= fd c' ->
  c' = c /\
  match api_frame a with
  | None => tr = [] /\ api_local a r out
  | Some f => sent tr = frame_bytes f /\
      exists reply, received tr = frame_bytes reply /\ frame_ok reply /\ decodes a reply r out
  end.
Proof.
  intros Ht Hl Hfd. unfold api_frame, api_local. destruct (api_rejected a) as [r0|] eqn:Hrej.
  { destruct a as [| | | | |pcm| | |pcm|]; try done; simpl in *;
      [unfold client_peer_push in Ht|unfold client_audio_write in Ht];
      destruct (pcm_rejected _ _); try done; destruct Ht as [-> [= -> -> ->]]; simplify_eq; done. }
  destruct (api_run_plan _ _ _ Hrej _ _ _ _ Ht) as (r0 & -> & H). clear Ht.
  apply media_request_spec in H; [|done|lia|lia].
  destruct (request_guard _ _ _) eqn:Hg.
  - destruct H as (-> & -> & -> & ->). split; [done|]. unfold request_guard, too_large in *.
    assert ((zlen (plan_input (api_plan a)) >? AGENT_MEDIA_LIMIT)
      || (zlen (plan_output (api_plan a)) >? AGENT_MEDIA_LIMIT) = true) as -> by lia.
    done.
  - destruct H as [[-> (reply & payload & Hs & Hr & Hwf & Hz & _ & -> & ->)]|(-> & _)];
      [|simpl in Hfd; lia].
    split; [done|]. unfold request_guard, too_large in *.
    assert ((zlen (plan_input (api_plan a)) >? AGENT_MEDIA_LIMIT)
      || (zlen (plan_output (api_plan a)) >? AGENT_MEDIA_LIMIT) = false) as -> by lia.
    rewrite ztake_all in Hs. split; [done|]. by exists (reply, payload).
Qed.

Lemma client_calls_spec fuel calls c tr results c' :
  traces (client_calls fuel c calls) tr (Some (results, c')) -> Forall (lawful posix_law) tr ->
  0 <= fd c' ->
  exists replies, sent tr = omap api_frame calls ≫= frame_bytes /\
    received tr = replies ≫= frame_bytes /\ Forall frame_ok replies /\ matched calls replies results /\
    c' = c.
Proof.
  revert c tr results. induction calls as [|a calls IH]; intros c tr results Ht Hl Hfd.
  { destruct Ht as [-> [= -> ->]]. exists []. by split_and!. }
  simpl in Ht. apply traces_bind in Ht as [([[r out] c1] & tr1 & tr2 & -> & H1 & H2)|[_ [=]]].
  apply traces_bind in H2 as [([results' c2] & tr3 & tr4 & -> & H2 & [-> [= -> ->]])|[_ [=]]].
  rewrite app_nil_r in *. apply Forall_app in Hl as [Hl1 Hl2].
  apply IH in H2 as (replies & Hs & Hr & Hok & Hm & ->); [|done..].
  apply api_run_spec in H1 as [-> H1]; [|done..]. autorewrite with agent_rw. rewrite Hs, Hr. simpl.
  destruct (api_frame a) as [f|] eqn:Hf.
  - destruct H1 as (-> & reply & -> & Hrok & Hd). exists (reply :: replies).
    rewrite !frames_cons. split_and!; [done|done|by constructor|done|done|done].
  - destruct H1 as (-> & Hloc). exists replies. by split_and!.
Qed.

Lemma matched_length calls replies results :
  matched calls replies results -> length replies = length (omap api_frame calls).
Proof.
  revert replies results. induction calls as [|a calls IH]; intros replies [|[r out] results]; simpl; try done.
  - by intros ->.
  - destruct (api_frame a); [destruct replies as [|reply replies]; [done|]|]; intros [_ Hm];
      apply IH in Hm; simpl; by rewrite Hm.
Qed.

Lemma plan_arg_u32 a : is_u32 (plan_arg (api_plan a)).
Proof.
  assert (forall b, is_u32 (Z.b2z b)) as Hb by (intros []; unfold is_u32; simpl; lia).
  assert (is_u32 0) by (unfold is_u32; lia).
  destruct a as [| sdp offer local | | | | | | | |]; try apply u32_range; try done; [apply Hb|].
  simpl. destruct (offer =? 0), (local =? 0); by vm_compute.
Qed.

Lemma api_frame_ok a f : api_frame a = Some f -> frame_ok f.
Proof.
  unfold api_frame. destruct (api_rejected a); [done|]. destruct (too_large _) eqn:Ht; [done|].
  intros [= <-]. unfold too_large, AGENT_MEDIA_LIMIT in Ht. unfold frame_ok, request_message. simpl.
  rewrite u32_id by (unfold is_u32; lia). split; [|done]. unfold message_wf; simpl.
  split_and!; [unfold is_u32, AGENT_MEDIA_MAGIC; lia|apply operation_code_u32|apply plan_arg_u32|].
  unfold is_u32. lia.
Qed.

(** ** The helper's side *)

(** The case a request selects on an open resource; [bytes] is the payload and its NUL. *)
Definition resource_case (r : device_kind * Z) (q : frame) : dispatch :=
  match r with
  | (PeerResource, x) => peer_case x q.1 (q.2 ++ [Byte.x00])
  | (AudioResource, x) => audio_case x q.1 (q.2 ++ [Byte.x00])
  end.

Lemma loaded_bytes h p :
  zlen p < zlen (bytes h) -> exists rest, bytes (loaded h p) = p ++ Byte.x00 :: rest.
Proof.
  intros H. simpl. unfold store at 2. simpl.
  change (ztake 0 (bytes h)) with (@nil byte). simpl. rewrite store_app. by eexists.
Qed.

Lemma peer_case_bytes x q p t1 t2 :
  zlen p = length_ q -> peer_case x q (p ++ Byte.x00 :: t1) = peer_case x q (p ++ Byte.x00 :: t2).
Proof.
  intros Hz. unfold peer_case. rewrite <- Hz, !ztake_app.
  destruct (operation_of_code _) as [[]|]; try done. destruct (memchr_nul p) eqn:Hn; [done|].
  by rewrite !c_string_app_nul.
Qed.

Lemma audio_case_bytes x q p t1 t2 :
  zlen p = length_ q -> audio_case x q (p ++ Byte.x00 :: t1) = audio_case x q (p ++ Byte.x00 :: t2).
Proof. intros Hz. unfold audio_case. by rewrite <- Hz, !ztake_app. Qed.

Lemma helper_case_resource h q p :
  zlen p = length_ q -> zlen p < zlen (bytes h) -> (resource_of h).2 <> 0 ->
  helper_case (loaded h p) q = resource_case (resource_of h) (q, p).
Proof.
  intros Hz Hb. destruct (loaded_bytes h p Hb) as [rest Hrest].
  unfold helper_case, resource_case, resource_of. rewrite Hrest. simpl.
  destruct (Z.eqb_spec (peer h) 0) as [_|Hp]; simpl.
  - intros Ha. rewrite (proj2 (Z.eqb_neq _ _) Ha). simpl. by apply audio_case_bytes.
  - intros _. by apply peer_case_bytes.
Qed.

(** The payload of a reply: the output of a call with a positive result. *)
Definition reply_data (c : device_call) (result : Z) (data : list byte) : list byte :=
  match c with IntCall _ => [] | BytesCall _ => if result >? 0 then data else [] end.

(** Request [q] on resource [r] was answered by [p] after the device calls [evs]. *)
Definition served (r : device_kind * Z) (q p : frame) (evs : list (event Device)) : Prop :=
  (resource_case r q = NoCall /\ evs = [] /\ p = (response_message q.1 (-1) 0, [])) \/
  exists c result data,
    resource_case r q = Do c /\ device_call_law c (result, data) /\ is_i32 result /\
    evs = [device_call_event c (result, data)] /\
    p = (response_message q.1 result (zlen (reply_data c result data)), reply_data c result data).

Lemma served_reply_ok r q p evs :
  frame_ok q -> served r q p evs -> zlen p.2 <= AGENT_MEDIA_LIMIT -> frame_ok p.
Proof.
  intros [(_ & Hop & _) _] Hs Hz. unfold AGENT_MEDIA_LIMIT in Hz.
  assert (is_u32 AGENT_MEDIA_MAGIC) by (unfold is_u32, AGENT_MEDIA_MAGIC; lia).
  destruct Hs as [(_ & _ & ->)|(c & result & data & _ & _ & _ & _ & ->)];
    (split; [|done]); unfold message_wf, response_message; simpl in *;
    (split_and!; [done|done|apply u32_range|unfold is_u32; lia]).
Qed.

Lemma handled_served h tr h' request payload result length :
  handled h tr h' request payload result length -> helper_inv h -> initialized h = true ->
  (resource_of h).2 <> 0 ->
  exists p, frame_bytes p = reply_bytes h' request result length /\
    served (resource_of h) (request, payload) p (rights tr) /\ zlen p.2 <= AGENT_MEDIA_LIMIT.
Proof.
  intros (Hwf & Hz & Hle & _ & tr' & Hh & Hl & ->) Hinv Hi Hr. pose proof Hwf as (_ & _ & Harg & _).
  pose proof (helper_handle_spec _ _ _ _ Hh Hl (loaded_inv _ _ Hinv Hle) Harg)
    as (_ & Hres & Hlen & Hinv' & _ & Hcase).
  destruct (Hcase Hi) as (_ & _ & Hc). clear Hcase. pose proof Hinv as (Hb & _).
  rewrite helper_case_resource in Hc by (done || lia).
  destruct Hc as [(Hc & Hev & -> & -> & ->)|(c & data & Hc & Hlaw & Hev & -> & Hbytes)].
  - exists (response_message request (-1) 0, []). split_and!; [done| |done]. left. by split_and!.
  - assert (zlen (bytes (loaded h payload)) = AGENT_MEDIA_LIMIT + 1) as Hb2
      by (by apply loaded_inv).
    destruct (helper_case_bound (loaded h payload) request c result data) as (_ & Hdl & Hdz);
      [rewrite helper_case_resource by (done || lia); done|done|done|].
    assert (ztake (match c with IntCall _ => 0 | BytesCall _ => Z.max 0 result end) (bytes h')
      = reply_data c result data /\
      zlen (reply_data c result data) = match c with IntCall _ => 0 | BytesCall _ => Z.max 0 result end)
      as [Hd1 Hd2].
    { destruct c; simpl; [done|]. rewrite Hbytes. destruct (Z.gtb_spec result 0) as [Hp|Hp].
      - specialize (Hdz Hp). rewrite Z.max_r by lia. split; [|done]. unfold store.
        change (ztake 0 _) with (@nil byte). rewrite <- Hdz. exact (ztake_app data _).
      - rewrite Z.max_l by lia. done. }
    exists (response_message request result (zlen (reply_data c result data)), reply_data c result data).
    unfold frame_bytes, reply_bytes. cbn [fst snd]. rewrite Hd1, Hd2.
    split_and!; [done| |by destruct c; lia]. right. exists c, result, data. rewrite Hd2. by split_and!.
Qed.

(** One exchange: request, reply and device calls. *)
Definition exchange : Type := frame * frame * list (event Device).
Definition x_request (x : exchange) : frame := x.1.1.
Definition x_reply (x : exchange) : frame := x.1.2.
Definition x_calls (x : exchange) : list (event Device) := x.2.
Definition x_served (r : device_kind * Z) (x : exchange) : Prop :=
  frame_ok (x_request x) /\ served r (x_request x) (x_reply x) (x_calls x) /\ frame_ok (x_reply x).

(** A helper with an open resource: the requests of its exchanges are a prefix of what it
    received, what it sent is a prefix of their replies, and its device calls are theirs. *)
Lemma helper_loop_exchanges rounds fuel h tr h' :
  traces (helper_loop rounds fuel h) tr (Some h') -> Forall (lawful helper_law) tr ->
  helper_inv h -> initialized h = true -> (resource_of h).2 <> 0 ->
  exists xs : list exchange,
    (map x_request xs ≫= frame_bytes) `prefix_of` received (lefts tr) /\
    sent (lefts tr) `prefix_of` (map x_reply xs ≫= frame_bytes) /\
    rights tr = xs ≫= x_calls /\ Forall (x_served (resource_of h)) xs.
Proof.
  revert h tr. induction rounds as [|rounds IH]; intros h tr Ht Hl Hinv Hi Hr; [by destruct Ht as [_ [=]]|].
  simpl in Ht. apply traces_bind in Ht as [([h1 c] & tr1 & tr2 & -> & H1 & H2)|[_ [=]]].
  apply Forall_app in Hl as [Hl1 Hl2].
  pose proof (helper_round_spec _ _ _ _ _ H1 Hl1 Hinv) as [Hinv1 Ho].
  pose proof (helper_round_calls _ _ _ _ _ H1 Hl1 Hinv) as (Hcalls & _ & Hi1).
  unfold round_calls in Hcalls. rewrite Hi in Hcalls. destruct Hcalls as (Hp & Ha & _).
  assert (resource_of h1 = resource_of h) as Hrr by (unfold resource_of; by rewrite Hp, Ha).
  rewrite lefts_app, rights_app, received_app, sent_app.
  destruct Ho as [(q & payload & result & length & Hh & Hs & Hc)|(-> & Hs & Hd & _)].
  2: { destruct H2 as [-> [= ->]]. rewrite Hs, Hd. exists []. split_and!; [apply prefix_nil|done|done|done]. }
  pose proof Hh as (Hwf & Hz & Hle & Hrec & _).
  destruct (handled_served _ _ _ _ _ _ _ Hh Hinv Hi Hr) as (p & Hpb & Hsv & Hpz).
  assert (x_served (resource_of h) ((q, payload), p, rights tr1)) as Hx.
  { split_and!; [by split|done|]. eapply served_reply_ok; [|exact Hsv|done]. by split. }
  rewrite <- Hpb in *. rewrite Hrec. destruct c.
  - destruct (Hc eq_refl) as [-> _].
    apply IH in H2 as (xs & H3 & H4 & H5 & H6); [|done|done|by apply Hi1|by rewrite Hrr].
    rewrite Hrr in H6. exists (((q, payload), p, rights tr1) :: xs).
    cbn [map]. rewrite !frames_cons. split_and!; [by apply prefix_app|by apply prefix_app| |by constructor].
    by rewrite H5.
  - destruct H2 as [-> [= ->]]. exists [((q, payload), p, rights tr1)].
    cbn [map]. rewrite !frames_cons. change ([] ≫= frame_bytes) with (@nil byte).
    rewrite !app_nil_r. split_and!; [done|done| |by constructor].
    change ([(q, payload, p, rights tr1)] ≫= x_calls) with (rights tr1 ++ []). by rewrite app_nil_r.
Qed.

(** ** The device call behind a client call *)

Definition bool_of (z : Z) : bool := negb (z =? 0).

Definition api_device (r : device_kind * Z) (a : api_call) : option device_call :=
  match r, a with
  | (PeerResource, x), ApiCreate offer => Some (IntCall (agent_peer_create_description x (bool_of offer)))
  | (PeerResource, x), ApiSet sdp offer local =>
      Some (IntCall (agent_peer_set_description x (c_string sdp) (bool_of offer) (bool_of local)))
  | (PeerResource, x), ApiOperation _ => Some (BytesCall (agent_peer_operation x AGENT_MEDIA_LIMIT))
  | (PeerResource, x), ApiLocal _ => Some (BytesCall (agent_peer_local_description x AGENT_MEDIA_LIMIT))
  | (PeerResource, x), ApiState => Some (IntCall (agent_peer_state x))
  | (PeerResource, x), ApiPush pcm => Some (IntCall (agent_peer_push x (default [] pcm)))
  | (PeerResource, x), ApiPull out => Some (BytesCall (agent_peer_pull x (zlen out)))
  | (AudioResource, x), ApiRead out => Some (BytesCall (agent_audio_read x (zlen out)))
  | (AudioResource, x), ApiWrite pcm => Some (IntCall (agent_audio_write x (default [] pcm)))
  | (AudioResource, x), ApiAudioState => Some (IntCall (agent_audio_state x))
  | _, _ => None
  end.

(** The request a client call sends makes the helper perform exactly that call. *)
Lemma resource_case_api r a f :
  api_frame a = Some f ->
  resource_case r f = match api_device r a with Some c => Do c | None => Done end.
Proof.
  unfold api_frame. destruct (api_rejected a); [done|]. destruct (too_large _) eqn:Hz; [done|].
  intros [= <-]. unfold too_large in Hz.
  destruct r as [[] x]; destruct a as [offer|sdp offer local|out|out| |pcm|out|out|pcm|];
    cbn -[ztake c_string memchr_nul bounded_capacity u32 Z.land Z.lor]; try done;
    rewrite ?(u32_id (zlen _)) by (unfold is_u32, AGENT_MEDIA_LIMIT in *; simpl in Hz; lia).
  - unfold bool_of. by destruct (offer =? 0).
  - rewrite ztake_app, c_string_no_nul, c_string_app_nul by apply c_string_no_nul.
    unfold bool_of. by destruct (offer =? 0), (local =? 0).
  - by rewrite ztake_app.
  - unfold bounded_capacity. simpl in Hz. by rewrite (proj2 (Z.leb_le _ _)) by lia.
  - unfold bounded_capacity. simpl in Hz. by rewrite (proj2 (Z.leb_le _ _)) by lia.
  - by rewrite ztake_app.
Qed.

(** ** Refinement *)

(** The specification of a remote session on resource [r]: every call that is not rejected
    locally performs its device call, and reports the device's answer: the result (for a push,
    whether it is 1) and, for a positive result of a function with an output buffer, the
    bytes. *)
Fixpoint remote_session (r : device_kind * Z) (calls : list api_call) (devices : list (event Device))
    (results : list (Z * list byte)) : Prop :=
  match calls, results with
  | [], [] => devices = []
  | a :: calls, (res, out) :: results =>
      match api_frame a with
      | None => api_local a res out /\ remote_session r calls devices results
      | Some _ => exists c result data rest,
          api_device r a = Some c /\ device_call_law c (result, data) /\
          devices = device_call_event c (result, data) :: rest /\
          res = api_result a result /\ out = store (plan_output (api_plan a)) 0 (reply_data c result data) /\
          remote_session r calls rest results
      end
  | _, _ => False
  end.

Lemma x_served_calls r x a :
  x_served r x -> api_frame a = Some (x_request x) ->
  forall res out, decodes a (x_reply x) res out ->
  exists c result data, api_device r a = Some c /\ device_call_law c (result, data) /\
    x_calls x = [device_call_event c (result, data)] /\ res = api_result a result /\
    out = store (plan_output (api_plan a)) 0 (reply_data c result data).
Proof.
  intros (_ & Hs & _) Hf res out [-> ->]. apply (resource_case_api r) in Hf.
  destruct Hs as [(Hc & _)|(c & result & data & Hc & Hlaw & Hi & -> & ->)]; rewrite Hc in Hf.
  - by destruct (api_device r a).
  - destruct (api_device r a) as [c'|]; simplify_eq. exists c', result, data. simpl.
    by rewrite (i32_id result), i32_u32.
Qed.

Lemma remote_session_of r calls xs results :
  Forall (x_served r) xs -> map x_request xs = omap api_frame calls ->
  matched calls (map x_reply xs) results -> remote_session r calls (xs ≫= x_calls) results.
Proof.
  revert xs results. induction calls as [|a calls IH]; intros xs [|[res out] results] Hx Hq Hm; try done.
  - simpl in Hm. by apply map_eq_nil in Hm as ->.
  - simpl in *. destruct (api_frame a) as [f|] eqn:Hf.
    + destruct xs as [|x xs]; simpl in *; [done|]. injection Hq as Hq1 Hq2. destruct Hm as [Hd Hm].
      apply Forall_cons_1 in Hx as [Hx Hxs]. rewrite <- Hq1 in Hf.
      destruct (x_served_calls _ _ _ Hx Hf _ _ Hd) as (c & result & data & Hc & Hlaw & Hev & Hr & Ho).
      exists c, result, data, (xs ≫= x_calls). split_and!; try done; [by rewrite Hev|by apply IH].
    + destruct Hm as [Hloc Hm]. split; [done|]. by apply IH.
Qed.

(** C1: a remote media session is the device session.  Let a client make any calls on an open
    handle while a helper holding the open resource serves it, the only assumption on the
    socket being that each side receives a prefix of what the other has sent.  If the client
    still holds the connection afterwards, then the device calls performed in the helper are
    exactly the client's calls (those not rejected locally), in order, with the client's
    arguments, and each result the client reports, buffer contents included, is the answer the
    device gave to that very call. *)
Theorem media_session_refines fuel fuel' rounds c calls trc results c' h tr h' :
  traces (client_calls fuel c calls) trc (Some (results, c')) -> Forall (lawful posix_law) trc ->
  0 <= fd c' ->
  traces (helper_loop rounds fuel' h) tr (Some h') -> Forall (lawful helper_law) tr ->
  helper_inv h -> initialized h = true -> (resource_of h).2 <> 0 ->
  received (lefts tr) `prefix_of` sent trc -> received trc `prefix_of` sent (lefts tr) ->
  c' = c /\ remote_session (resource_of h) calls (rights tr) results.
Proof.
  intros Hc Hlc Hfd Hh Hlh Hinv Hi Hr Hqs Hps.
  apply client_calls_spec in Hc as (replies & Hsent & Hrecv & Hok & Hm & ->); [|done..].
  apply helper_loop_exchanges in Hh as (xs & Hxq & Hxp & Hev & Hxs); [|done..]. split; [done|].
  assert (map x_request xs `prefix_of` omap api_frame calls) as Hq.
  { apply frames_prefix.
    - apply Forall_map. eapply Forall_impl; [|exact Hxs]. by intros x (? & _).
    - apply Forall_forall. intros f Hf. apply list_elem_of_In, list_elem_of_omap in Hf as (a & _ & Ha).
      by eapply api_frame_ok.
    - rewrite <- Hsent. by etrans. }
  assert (replies `prefix_of` map x_reply xs) as Hp.
  { apply frames_prefix; [done| |].
    - apply Forall_map. eapply Forall_impl; [|exact Hxs]. by intros x (_ & _ & ?).
    - rewrite <- Hrecv. by etrans. }
  pose proof (matched_length _ _ _ Hm) as Hlen.
  pose proof (prefix_length _ _ Hq) as Hl1. pose proof (prefix_length _ _ Hp) as Hl2.
  rewrite !length_map in *.
  apply prefix_length_eq in Hq; [|rewrite length_map; lia].
  apply prefix_length_eq in Hp; [|rewrite length_map; lia].
  rewrite Hev. apply remote_session_of; [done|done|by rewrite <- Hp].
Qed.

Lemma open_helper_inv x :
  helper_inv (Helper x 0 true (replicate (Z.to_nat (AGENT_MEDIA_LIMIT + 1)) Byte.x00)).
Proof.
  unfold helper_inv. cbn [bytes peer audio initialized]. rewrite length_replicate.
  rewrite Z2Nat.id by (unfold AGENT_MEDIA_LIMIT; lia). split_and!; [done|by right|done].
Qed.

(** A client pulls four bytes and asks for the state; the helper's device has two bytes. *)
Definition demo_calls : list api_call :=
  [ApiPull [Byte.xff; Byte.xff; Byte.xff; Byte.xff]; ApiPush None; ApiState].
Definition demo_requests : list byte := omap api_frame demo_calls ≫= frame_bytes.
Definition demo_helper : helper :=
  Helper 42 0 true (replicate (Z.to_nat (AGENT_MEDIA_LIMIT + 1)) Byte.x00).
Definition demo_helper_trace : list (event HelperCall) :=
  exec_trace toy_env (helper_loop 3 40 demo_helper) demo_requests.
Definition demo_replies : list byte := sent (lefts demo_helper_trace).
Definition demo_results : list (Z * list byte) :=
  [(2, [Byte.x01; Byte.x02; Byte.xff; Byte.xff]); (0, []); (1, [])].

Lemma media_session_refines_witness :
  Child 5 77 = Child 5 77 /\
  remote_session (PeerResource, 42) demo_calls (rights demo_helper_trace) demo_results.
Proof.
  assert (exec_value stream_env (client_calls 40 (Child 5 77) demo_calls) demo_replies
    = Some (demo_results, Child 5 77)) as Hv by (vm_compute; reflexivity).
  assert (match exec_value toy_env (helper_loop 3 40 demo_helper) demo_requests with
          | Some _ => true | None => false end = true) as Hs by (vm_compute; reflexivity).
  destruct (exec_value toy_env (helper_loop 3 40 demo_helper) demo_requests) as [h'|] eqn:Hh;
    [|discriminate Hs].
  apply (media_session_refines 40 40 3 (Child 5 77) demo_calls
    (exec_trace stream_env (client_calls 40 (Child 5 77) demo_calls) demo_replies) demo_results
    (Child 5 77) demo_helper demo_helper_trace h').
  - rewrite <- Hv. apply exec_traces.
  - apply exec_lawful, stream_env_lawful.
  - simpl; lia.
  - rewrite <- Hh. apply exec_traces.
  - apply exec_lawful, toy_env_lawful.
  - apply open_helper_inv.
  - reflexivity.
  - vm_compute; discriminate.
  - exists []. vm_compute; reflexivity.
  - exists []. vm_compute; reflexivity.
Defined.
