(* ===== verification/Threads.v ===== *)
(** * Threads sharing state under one mutex

    audio.c, HaskellAgentBridgeRuntime.c and ClipboardTypes.c each keep state that several
    threads reach under one mutex, besides atomically accessed integers.  A [thread] is a
    program with, in addition to foreign calls, the four operations on that state; a [system]
    interleaves any number of threads one operation at a time.  [safe] is a concurrent
    separation logic in miniature: the mutex guards an invariant [I] on the protected state and
    the handles [L] it owns; [safe_sound] says what it guarantees about every interleaving. *)

From stdpp Require Import base tactics option list gmap gmultiset.
From Stdlib Require Import ZArith Lia.
From S2P Require Import Prelude Programs.
#[local] Open Scope Z_scope.

(** [P] is the protected state, [A] the atomics. *)
Inductive thread (E : Type -> Type) (P A X : Type) : Type :=
  | TRet (x : X)
  | TSpin
  | TCall {R : Type} (e : E R) (k : R -> thread E P A X)
  | TLock (k : thread E P A X)
  | TUnlock (k : thread E P A X)
  | TGuarded {R : Type} (f : P -> R * P) (k : R -> thread E P A X)
  | TAtomic {R : Type} (f : A -> R * A) (k : R -> thread E P A X).
Arguments TRet {E P A X} x.
Arguments TSpin {E P A X}.
Arguments TCall {E P A X R} e k.
Arguments TLock {E P A X} k.
Arguments TUnlock {E P A X} k.
Arguments TGuarded {E P A X R} f k.
Arguments TAtomic {E P A X R} f k.

Fixpoint thread_bind {E P A X Y} (f : X -> thread E P A Y) (t : thread E P A X) : thread E P A Y :=
  match t with
  | TRet x => f x
  | TSpin => TSpin
  | TCall e k => TCall e (fun r => thread_bind f (k r))
  | TLock k => TLock (thread_bind f k)
  | TUnlock k => TUnlock (thread_bind f k)
  | TGuarded g k => TGuarded g (fun r => thread_bind f (k r))
  | TAtomic g k => TAtomic g (fun r => thread_bind f (k r))
  end.
#[export] Instance thread_mret E P A : MRet (thread E P A) := fun X => TRet.
#[export] Instance thread_mbind E P A : MBind (thread E P A) := fun X Y => thread_bind.

Definition tcall {E P A R} (e : E R) : thread E P A R := TCall e TRet.
Definition lock {E P A} : thread E P A unit := TLock (TRet tt).
Definition unlock {E P A} : thread E P A unit := TUnlock (TRet tt).
(** A read or write of protected state. *)
Definition guarded {E P A R} (f : P -> R * P) : thread E P A R := TGuarded f TRet.
Definition get {E P A} : thread E P A P := guarded (fun s => (s, s)).
Definition set {E P A} (f : P -> P) : thread E P A unit := guarded (fun s => (tt, f s)).
Definition atomic {E P A R} (f : A -> R * A) : thread E P A R := TAtomic f TRet.

(** A program that touches no shared state. *)
Fixpoint local {E P A X} (p : prog E X) : thread E P A X :=
  match p with
  | Ret x => TRet x
  | Spin => TSpin
  | Call e k => TCall e (fun r => local (k r))
  end.

(** ** Interleaving *)

Record system (E : Type -> Type) (P A X : Type) := System {
  pool : list (thread E P A X);
  state : P;
  atomics : A;
  holder : option nat
}.
Arguments System {E P A X} pool state atomics holder.
Arguments pool {E P A X} s.
Arguments state {E P A X} s.
Arguments atomics {E P A X} s.
Arguments holder {E P A X} s.

(** Thread [i] performs its next operation; the label is the foreign call, if it is one.
    Unprotected access is not prevented here: that it cannot happen is a theorem. *)
Inductive step {E P A X} (s : system E P A X) : list (event E) -> system E P A X -> Prop :=
  | step_call i R (e : E R) k r :
      pool s !! i = Some (TCall e k) ->
      step s [Event e r] (System (<[i := k r]> (pool s)) (state s) (atomics s) (holder s))
  | step_lock i k :
      pool s !! i = Some (TLock k) -> holder s = None ->
      step s [] (System (<[i := k]> (pool s)) (state s) (atomics s) (Some i))
  | step_unlock i k :
      pool s !! i = Some (TUnlock k) -> holder s = Some i ->
      step s [] (System (<[i := k]> (pool s)) (state s) (atomics s) None)
  | step_guarded i R (f : P -> R * P) k :
      pool s !! i = Some (TGuarded f k) ->
      step s [] (System (<[i := k (f (state s)).1]> (pool s)) (f (state s)).2 (atomics s) (holder s))
  | step_atomic i R (f : A -> R * A) k :
      pool s !! i = Some (TAtomic f k) ->
      step s [] (System (<[i := k (f (atomics s)).1]> (pool s)) (state s) (f (atomics s)).2 (holder s)).

Inductive steps {E P A X} : system E P A X -> list (event E) -> system E P A X -> Prop :=
  | steps_refl s : steps s [] s
  | steps_step s1 tr1 s2 tr2 s3 : step s1 tr1 s2 -> steps s2 tr2 s3 -> steps s1 (tr1 ++ tr2) s3.

Lemma steps_pool_length {E P A X} (s : system E P A X) tr s' :
  steps s tr s' -> length (pool s') = length (pool s).
Proof.
  intros Hs. induction Hs as [s|s1 tr1 s2 tr2 s3 H1 _ IH]; [done|]. rewrite IH.
  by destruct H1; simpl; rewrite length_insert.
Qed.

(** Several threads access the protected state at once, or without the mutex. *)
Definition races {E P A X} (s : system E P A X) : Prop :=
  exists i R (f : P -> R * P) k, pool s !! i = Some (TGuarded f k) /\ holder s <> Some i.

Definition finished {E P A X} (t : thread E P A X) : Prop := exists x, t = TRet x.
Definition awaits_lock {E P A X} (t : thread E P A X) : Prop := exists k, t = TLock k.
(** No thread can go on, because all that have not finished wait for the mutex. *)
Definition deadlocked {E P A X} (s : system E P A X) : Prop :=
  (exists t, t ∈ pool s /\ ~ finished t) /\
  (forall t, t ∈ pool s -> finished t \/ awaits_lock t) /\ holder s <> None.

(** ** The logic *)

Section logic.
Context {E : Type -> Type} `{!Ownership E} {P A : Type}.
Context (law : laws E) (I : P -> Prop) (L : P -> ledger) (J : A -> Prop).

(** [held] is the protected state when this thread holds the mutex. *)
Fixpoint safe {X} (t : thread E P A X) (held : option P) (l : ledger)
    (Q : X -> option P -> ledger -> Prop) : Prop :=
  match t with
  | TRet x => Q x held l
  | TSpin => held = None
  | TCall e k => uses e ⊆ l /\ forall r, law _ e r ->
      takes e r ⊆ l /\ safe (k r) held ((l ∖ takes e r) ⊎ gives e r) Q
  | TLock k => held = None /\ forall s, I s -> safe k (Some s) (l ⊎ L s) Q
  | TUnlock k => exists s, held = Some s /\ I s /\ L s ⊆ l /\ safe k None (l ∖ L s) Q
  | TGuarded f k => exists s, held = Some s /\ safe (k (f s).1) (Some (f s).2) l Q
  | TAtomic f k => forall a, J a -> J (f a).2 /\ safe (k (f a).1) held l Q
  end.

(** A whole thread ends without the mutex. *)
Definition ends {X} (Q : X -> ledger -> Prop) : X -> option P -> ledger -> Prop :=
  fun x held l => held = None /\ Q x l.

Lemma safe_mono {X} (t : thread E P A X) held (l : ledger) (Q Q' : X -> option P -> ledger -> Prop) :
  safe t held l Q -> (forall x h l, Q x h l -> Q' x h l) -> safe t held l Q'.
Proof.
  revert held l. induction t as [x| |R e k IH|k IH|k IH|R f k IH|R f k IH]; simpl; intros held l H HQ.
  - auto.
  - done.
  - destruct H as [Hu H]. split; [done|]. intros r Hr. destruct (H r Hr). eauto.
  - destruct H. eauto.
  - destruct H as (s & ? & ? & ? & ?). eauto 10.
  - destruct H as (s & ? & ?). eauto.
  - intros a Ha. destruct (H a Ha). eauto.
Qed.

Lemma safe_bind {X Y} (t : thread E P A X) (f : X -> thread E P A Y) held (l : ledger)
    (Q : Y -> option P -> ledger -> Prop) :
  safe t held l (fun x h l => safe (f x) h l Q) -> safe (mbind f t) held l Q.
Proof.
  revert held l. induction t as [x| |R e k IH|k IH|k IH|R g k IH|R g k IH]; simpl; intros held l H.
  - done.
  - done.
  - destruct H as [Hu H]. split; [done|]. intros r Hr. destruct (H r Hr). eauto.
  - destruct H. eauto.
  - destruct H as (s & ? & ? & ? & ?). eauto 10.
  - destruct H as (s & ? & ?). eauto.
  - intros a Ha. destruct (H a Ha). eauto.
Qed.

(** A part that touches no shared state runs under whatever is held, if it cannot run out of
    fuel there. *)
Lemma safe_local_under {X} (p : prog E X) held (l : ledger) (Q : X -> option P -> ledger -> Prop) :
  returns_under law p \/ held = None ->
  owns law p l (fun x l => Q x held l) -> safe (local p) held l Q.
Proof.
  intros Hr. revert l Hr. induction p as [x| |R e k IH]; simpl; intros l Hr H; [done|by destruct Hr|].
  destruct H as [Hu H]. split; [done|]. intros r Hlaw. destruct (H r Hlaw). split; [done|].
  apply IH; [|done]. destruct Hr as [Hr|Hr]; [left; by apply Hr|by right].
Qed.

Lemma safe_local {X} (p : prog E X) held (l : ledger) (Q : X -> option P -> ledger -> Prop) :
  returns p \/ held = None ->
  owns law p l (fun x l => Q x held l) -> safe (local p) held l Q.
Proof.
  intros Hr. apply safe_local_under. destruct Hr as [Hr|Hr]; [left; by apply returns_returns_under|by right].
Qed.

(** ** Soundness *)

Definition ledger_sum (ls : list ledger) : ledger := foldr disj_union ∅ ls.

Lemma ledger_sum_split (ls : list ledger) i (l : ledger) :
  ls !! i = Some l -> exists m : ledger, ledger_sum ls = l ⊎ m /\ forall l' : ledger, ledger_sum (<[i := l']> ls) = l' ⊎ m.
Proof.
  revert i. induction ls as [|l0 ls IH]; intros [|i] H; [done|done| |].
  - injection H as ->. by exists (ledger_sum ls).
  - destruct (IH _ H) as (m & Hm & Hm'). exists (l0 ⊎ m).
    change (ledger_sum (l0 :: ls)) with (l0 ⊎ ledger_sum ls). rewrite Hm.
    split; [multiset_solver|]. intros l'.
    change (ledger_sum (<[S i:=l']> (l0 :: ls))) with (l0 ⊎ ledger_sum (<[i:=l']> ls)).
    rewrite Hm'. multiset_solver.
Qed.

Lemma ledger_sum_all_empty (ls : list ledger) (m : ledger) :
  Forall (fun l => l = ∅) ls -> ledger_sum ls ⊎ m = m.
Proof.
  induction 1 as [|l ls -> _ IH]; [multiset_solver|].
  change (ledger_sum (∅ :: ls)) with (∅ ⊎ ledger_sum ls).
  by replace (∅ ⊎ ledger_sum ls) with (ledger_sum ls) by multiset_solver.
Qed.

Lemma ledger_sum_empties {X} (l : list X) : ledger_sum (map (fun _ => ∅) l) = ∅.
Proof.
  replace (ledger_sum _) with (ledger_sum (map (fun _ => ∅) l) ⊎ ∅) by multiset_solver.
  apply ledger_sum_all_empty. by apply Forall_map, Forall_true.
Qed.

(** What thread [i] holds of the protected state. *)
Definition held_by (h : option nat) (s : P) (i : nat) : option P :=
  if decide (h = Some i) then Some s else None.

Definition free_ledger (h : option nat) (s : P) : ledger :=
  match h with Some _ => ∅ | None => L s end.

(** [g] is all that the system owns. *)
Definition system_ok {X} (s : system E P A X) (Qs : list (X -> ledger -> Prop)) (g : ledger) : Prop :=
  exists ls : list ledger,
    length ls = length (pool s) /\
    g = ledger_sum ls ⊎ free_ledger (holder s) (state s) /\
    (holder s = None -> I (state s)) /\ J (atomics s) /\
    (forall i, holder s = Some i -> (i < length (pool s))%nat) /\
    forall i t l, pool s !! i = Some t -> ls !! i = Some l ->
      exists Q, Qs !! i = Some Q /\ safe t (held_by (holder s) (state s) i) l (ends Q).

(** What changes when thread [i] becomes [t'], owning [l'], under holder [h'] and state [s']:
    the other threads must still hold what they held. *)
Lemma system_ok_update {X} (s : system E P A X) Qs i t' s' a' h' (ls : list ledger) l' Q (g' : ledger) :
  length ls = length (pool s) ->
  (forall j t l, pool s !! j = Some t -> ls !! j = Some l ->
      exists Q, Qs !! j = Some Q /\ safe t (held_by (holder s) (state s) j) l (ends Q)) ->
  (i < length (pool s))%nat -> Qs !! i = Some Q -> safe t' (held_by h' s' i) l' (ends Q) ->
  (forall j, j <> i -> held_by h' s' j = held_by (holder s) (state s) j) ->
  (h' = None -> I s') -> J a' -> (forall j, h' = Some j -> (j < length (pool s))%nat) ->
  g' = ledger_sum (<[i := l']> ls) ⊎ free_ledger h' s' ->
  system_ok (System (<[i := t']> (pool s)) s' a' h') Qs g'.
Proof.
  intros Hlen Hall Hi HQ Ht Hother HI HJ Hh ->. exists (<[i := l']> ls). simpl.
  rewrite !length_insert. split_and!; [done|done|done|done|done|].
  intros j t l Hj Hl. destruct (decide (j = i)) as [->|Hne].
  - rewrite list_lookup_insert_eq in Hj by done. rewrite list_lookup_insert_eq in Hl by lia.
    simplify_eq. by exists Q.
  - rewrite list_lookup_insert_ne in Hj by done. rewrite list_lookup_insert_ne in Hl by done.
    rewrite Hother by done. by eapply Hall.
Qed.

Lemma held_by_self i (s : P) : held_by (Some i) s i = Some s.
Proof. unfold held_by. by rewrite decide_True. Qed.
Lemma held_by_none i (s : P) : held_by None s i = None.
Proof. done. Qed.
Lemma held_by_other i j (s : P) : j <> i -> held_by (Some i) s j = None.
Proof. intros H. unfold held_by. rewrite decide_False; [done|congruence]. Qed.
Lemma held_by_Some h s s' i : held_by h s i = Some s' -> h = Some i /\ s' = s.
Proof. unfold held_by. case_decide; [|done]. by intros [= ->]. Qed.

Lemma system_ok_step {X} (s : system E P A X) (Qs : list (X -> ledger -> Prop)) (g : ledger) tr s' :
  system_ok s Qs g -> step s tr s' -> Forall (lawful law) tr ->
  exists g', audit tr g = Some g' /\ system_ok s' Qs g'.
Proof.
  intros (ls & Hlen & -> & HI & HJ & Hh & Hall) Hstep Hlaw.
  assert (forall i t, pool s !! i = Some t -> (i < length (pool s))%nat /\ exists l m : ledger, exists Q,
    ls !! i = Some l /\ Qs !! i = Some Q /\
    safe t (held_by (holder s) (state s) i) l (ends Q) /\ ledger_sum ls = l ⊎ m /\
    forall l' : ledger, ledger_sum (<[i := l']> ls) = l' ⊎ m) as Hget.
  { intros i t Hi. pose proof (lookup_lt_Some _ _ _ Hi) as Hlt. split; [done|].
    destruct (lookup_lt_is_Some_2 ls i) as [l Hl]; [lia|].
    destruct (ledger_sum_split _ _ _ Hl) as (m & Hm & Hm').
    destruct (Hall _ _ _ Hi Hl) as (Q & HQ & Hs). by exists l, m, Q. }
  destruct Hstep as [i R e k r Hi|i k Hi Hn|i k Hi Hn|i R f k Hi|i R f k Hi];
    destruct (Hget _ _ Hi) as (Hlt & l & m & Q & Hl & HQ & Hs & Hm & Hm'); simpl in Hs.
  - destruct Hs as [Hu Hs]. apply Forall_cons_1 in Hlaw as [Hr _]. destruct (Hs r Hr) as [Ht Hk].
    simpl. unfold audit_event. simpl. rewrite decide_True by multiset_solver. simpl.
    eexists. split; [done|]. eapply (system_ok_update _ _ i _ _ _ (holder s) ls (l ∖ takes e r ⊎ gives e r) Q); try done.
    rewrite Hm, Hm'. multiset_solver.
  - destruct Hs as [_ Hs]. specialize (Hs _ (HI Hn)). simpl.
    eexists. split; [done|].
    eapply (system_ok_update _ _ i _ _ _ (Some i) ls (l ⊎ L (state s)) Q); try done.
    + by rewrite held_by_self.
    + intros j Hj. by rewrite Hn, held_by_other, held_by_none.
    + by intros ? [= <-].
    + rewrite Hm, Hm', Hn. simpl. multiset_solver.
  - rewrite Hn, held_by_self in Hs. destruct Hs as (s0 & [= <-] & HIs & HL & Hs). simpl.
    eexists. split; [done|].
    eapply (system_ok_update _ _ i _ _ _ None ls _ Q); try done; [|].
    + intros j Hj. by rewrite Hn, held_by_other, held_by_none.
    + rewrite Hm, Hm', Hn. simpl. multiset_solver.
  - destruct Hs as (s0 & Hheld & Hs). apply held_by_Some in Hheld as [Hn ->]. simpl.
    eexists. split; [done|].
    eapply (system_ok_update _ _ i _ _ _ (holder s) ls l Q); try done.
    + by rewrite Hn, held_by_self.
    + intros j Hj. by rewrite Hn, !held_by_other.
    + by rewrite Hn.
    + rewrite Hm, Hm', Hn. simpl. multiset_solver.
  - destruct (Hs _ HJ) as [HJ' Hs']. simpl. eexists. split; [done|].
    eapply (system_ok_update _ _ i _ _ _ (holder s) ls l Q); try done.
    rewrite Hm, Hm'. multiset_solver.
Qed.

Lemma system_ok_steps {X} (s : system E P A X) (Qs : list (X -> ledger -> Prop)) (g : ledger) tr s' :
  system_ok s Qs g -> steps s tr s' -> Forall (lawful law) tr ->
  exists g', audit tr g = Some g' /\ system_ok s' Qs g'.
Proof.
  intros Hok Hs. revert g Hok. induction Hs as [s|s1 tr1 s2 tr2 s3 H1 _ IH]; intros g Hok Hl.
  - by exists g.
  - apply Forall_app in Hl as [Hl1 Hl2].
    destruct (system_ok_step _ _ _ _ _ Hok H1 Hl1) as (g2 & Ha & Hok2).
    destruct (IH _ Hok2 Hl2) as (g3 & Hb & Hok3).
    exists g3. split; [|done]. by rewrite audit_app, Ha.
Qed.

(** Threads that are safe on their own start a system that is. *)
Lemma system_ok_init {X} (ts : list (thread E P A X)) (Qs : list (X -> ledger -> Prop)) (ls : list ledger) s a :
  I s -> J a -> length ls = length ts ->
  (forall i t l, ts !! i = Some t -> ls !! i = Some l -> exists Q, Qs !! i = Some Q /\ safe t None l (ends Q)) ->
  system_ok (System ts s a None) Qs (ledger_sum ls ⊎ L s).
Proof. intros HI HJ Hlen Hall. exists ls. by split_and!. Qed.

(** Consequences of [system_ok], at any moment of any interleaving. *)
Lemma system_ok_no_race {X} (s : system E P A X) Qs (g : ledger) : system_ok s Qs g -> ~ races s.
Proof.
  intros (ls & Hlen & _ & _ & _ & _ & Hall) (i & R & f & k & Hi & Hn).
  destruct (lookup_lt_is_Some_2 ls i) as [l Hl]; [rewrite Hlen; by eapply lookup_lt_Some|].
  destruct (Hall _ _ _ Hi Hl) as (Q & _ & s0 & Hheld & _). by apply held_by_Some in Hheld as [? _].
Qed.

Lemma system_ok_no_deadlock {X} (s : system E P A X) Qs (g : ledger) : system_ok s Qs g -> ~ deadlocked s.
Proof.
  intros (ls & Hlen & _ & _ & _ & Hh & Hall) (_ & Hwait & Hn).
  destruct (holder s) as [i|] eqn:Hi; [|done]. pose proof (Hh i eq_refl) as Hlt.
  destruct (lookup_lt_is_Some_2 (pool s) i Hlt) as [t Ht].
  destruct (lookup_lt_is_Some_2 ls i) as [l Hl]; [lia|].
  destruct (Hall _ _ _ Ht Hl) as (Q & _ & Hs). rewrite held_by_self in Hs.
  destruct (Hwait t) as [[x ->]|[k ->]]; [by eapply list_elem_of_lookup_2|by destruct Hs..].
Qed.

(** When every thread has returned, each has its postcondition and the mutex is free. *)
Lemma system_ok_finished {X} (s : system E P A X) Qs (g : ledger) :
  system_ok s Qs g -> (forall t, t ∈ pool s -> finished t) ->
  holder s = None /\ I (state s) /\
  exists ls : list ledger, length ls = length (pool s) /\ g = ledger_sum ls ⊎ L (state s) /\
    forall i x l, pool s !! i = Some (TRet x) -> ls !! i = Some l -> exists Q, Qs !! i = Some Q /\ Q x l.
Proof.
  intros (ls & Hlen & -> & HI & _ & Hh & Hall) Hfin.
  assert (holder s = None) as Hn.
  { destruct (holder s) as [i|] eqn:Hi; [|done]. pose proof (Hh i eq_refl) as Hlt.
    destruct (lookup_lt_is_Some_2 (pool s) i Hlt) as [t Ht].
    destruct (lookup_lt_is_Some_2 ls i) as [l Hl]; [lia|].
    destruct (Hall _ _ _ Ht Hl) as (Q & _ & Hs). rewrite held_by_self in Hs.
    destruct (Hfin t) as [x ->]; [by eapply list_elem_of_lookup_2|by destruct Hs]. }
  split; [done|]. split; [by apply HI|]. exists ls. split; [done|]. split; [by rewrite Hn|].
  intros i x l Hx Hl. destruct (Hall _ _ _ Hx Hl) as (Q & HQ & Hs). destruct Hs. by exists Q.
Qed.

(** Threads that own nothing between operations: what holds of every interleaving. *)
Lemma threads_sound {X O} (run : O -> thread E P A X) (Q : O -> X -> Prop) (ops : list O) s a tr s' :
  (forall o, safe (run o) None ∅ (ends (fun x l => l = ∅ /\ Q o x))) -> I s -> J a ->
  steps (System (map run ops) s a None) tr s' -> Forall (lawful law) tr ->
  ~ races s' /\ ~ deadlocked s' /\ (holder s' = None -> I (state s')) /\
  (exists l, audit tr (L s) = Some l /\ ((forall t, t ∈ pool s' -> finished t) -> l = L (state s'))) /\
  (forall i o x, ops !! i = Some o -> pool s' !! i = Some (TRet x) -> Q o x).
Proof.
  intros Hrun HI HJ Hs Hl.
  assert (system_ok (System (map run ops) s a None) (map (fun o x l => l = ∅ /\ Q o x) ops) (L s)) as Hinit.
  { rewrite <- (ledger_sum_all_empty (map (fun _ => ∅) ops) (L s)) by (by apply Forall_map, Forall_true).
    apply system_ok_init; [done|done|by rewrite !length_map|].
    intros i t l Ht Hl'. rewrite list_lookup_fmap in Ht. rewrite list_lookup_fmap in Hl'. rewrite list_lookup_fmap.
    destruct (ops !! i) as [o|]; simplify_eq/=. eexists. split; [done|]. apply Hrun. }
  destruct (system_ok_steps _ _ _ _ _ Hinit Hs Hl) as (l & Ha & Hok).
  split_and!; [by eapply system_ok_no_race|by eapply system_ok_no_deadlock|by destruct Hok as (? & _ & _ & ? & _)| |].
  - exists l. split; [done|]. intros Hfin.
    destruct (system_ok_finished _ _ _ Hok Hfin) as (_ & _ & ls & Hlen & -> & HQ).
    apply ledger_sum_all_empty. apply Forall_lookup. intros i l Hi.
    destruct (lookup_lt_is_Some_2 (pool s') i) as [t Ht]; [rewrite <- Hlen; by eapply lookup_lt_Some|].
    destruct (Hfin t) as [x ->]; [by eapply list_elem_of_lookup_2|].
    destruct (HQ i _ _ Ht Hi) as (Q' & HQi & HQx). rewrite list_lookup_fmap in HQi.
    destruct (ops !! i); simplify_eq/=. by destruct HQx.
  - intros i o x Ho Hp. destruct Hok as (ls & Hlen & _ & _ & _ & _ & Hall).
    destruct (lookup_lt_is_Some_2 ls i) as [l0 Hl0]; [rewrite Hlen; by eapply lookup_lt_Some|].
    destruct (Hall _ _ _ Hp Hl0) as (Q' & HQi & Hq). rewrite list_lookup_fmap, Ho in HQi.
    simplify_eq/=. by destruct Hq as (_ & _ & ?).
Qed.
End logic.

(** One foreign call, or the release of the mutex, of a [safe] goal. *)
Ltac safe_call :=
  simpl; split; [ledger_solve|];
  let r := fresh "r" in let H := fresh "Hlaw" in
  intros r H; split; [try ledger_solve|]; rewrite ?ledger_keep.

(** ** Guarantees

    [guarantees R t]: every access of [t] to the protected state, whatever the answers before
    it, is a transition of [R]. *)
Fixpoint guarantees {E P A X} (R : P -> P -> Prop) (t : thread E P A X) : Prop :=
  match t with
  | TRet _ | TSpin => True
  | TCall _ k => forall r, guarantees R (k r)
  | TLock k | TUnlock k => guarantees R k
  | TGuarded f k => forall s, R s (f s).2 /\ guarantees R (k (f s).1)
  | TAtomic f k => forall a, guarantees R (k (f a).1)
  end.

Lemma guarantees_bind {E P A X Y} (R : P -> P -> Prop) (t : thread E P A X) (f : X -> thread E P A Y) :
  guarantees R t -> (forall x, guarantees R (f x)) -> guarantees R (mbind f t).
Proof.
  intros Ht Hf. induction t as [x| |R' e k IH|k IH|k IH|R' g k IH|R' g k IH]; simpl in *; eauto.
  intros s. destruct (Ht s). eauto.
Qed.

Inductive chain {P} (R : P -> P -> Prop) : P -> P -> Prop :=
  | chain_refl s : chain R s s
  | chain_step s1 s2 s3 : R s1 s2 -> chain R s2 s3 -> chain R s1 s3.

(** Whatever the interleaving, the protected state moves by the threads' guarantee only. *)
Lemma guarantees_steps {E P A X} (R : P -> P -> Prop) (s : system E P A X) tr s' :
  steps s tr s' -> Forall (guarantees R) (pool s) -> chain R (state s) (state s').
Proof.
  intros Hs. induction Hs as [s|s1 tr1 s2 tr2 s3 H1 _ IH]; intros Hg; [constructor|].
  assert (Forall (guarantees R) (pool s2) /\ (state s2 = state s1 \/ R (state s1) (state s2))) as [Hg2 HR].
  { destruct H1 as [i R' e k r Hi|i k Hi Hn|i k Hi Hn|i R' f k Hi|i R' f k Hi];
      pose proof (proj1 (Forall_lookup _ _) Hg _ _ Hi) as Hk; simpl in *;
      (split; [apply Forall_insert; [done|]|]); try by left.
    - apply Hk.
    - done.
    - done.
    - apply Hk.
    - right. apply Hk.
    - apply Hk. }
  destruct HR as [<-|HR]; [by apply IH|]. eapply chain_step; [done|by apply IH].
Qed.

(** ** Running alone, and running a schedule *)

(** A thread nobody interferes with. *)
Fixpoint alone {E P A X} (t : thread E P A X) (s : P) (a : A) : prog E (X * P * A) :=
  match t with
  | TRet x => Ret (x, s, a)
  | TSpin => Spin
  | TCall e k => Call e (fun r => alone (k r) s a)
  | TLock k | TUnlock k => alone k s a
  | TGuarded f k => alone (k (f s).1) (f s).2 a
  | TAtomic f k => alone (k (f a).1) s (f a).2
  end.

Lemma alone_bind {E P A X Y} (t : thread E P A X) (f : X -> thread E P A Y) s a tr o :
  traces (alone (mbind f t) s a) tr o <->
  traces ('(x, s, a) ← alone t s a; alone (f x) s a) tr o.
Proof.
  revert s a tr. induction t as [x| |R e k IH|k IH|k IH|R g k IH|R g k IH]; intros s a tr; simpl; try done;
    try apply IH.
  split; intros (r & tr' & -> & H); exists r, tr'; (split; [done|]); by apply IH.
Qed.

Lemma alone_local {E P A X} (p : prog E X) (s : P) (a : A) tr o :
  traces (alone (local p) s a) tr o <-> exists o', traces p tr o' /\ o = (fun x => (x, s, a)) <$> o'.
Proof.
  revert tr. induction p as [x| |R e k IH]; intros tr; simpl.
  - split; [intros [-> ->]; by exists (Some x)|]. by intros (? & [-> ->] & ->).
  - split; [intros [-> ->]; by exists None|]. by intros (? & [-> ->] & ->).
  - split.
    + intros (r & tr' & -> & H). apply IH in H as (o' & H & ->). exists o'. split; [eauto|done].
    + intros (o' & (r & tr' & -> & H) & ->). exists r, tr'. split; [done|]. apply IH. eauto.
Qed.

Section schedule.
Context {E : Type -> Type} {P A X W : Type} (h : env E W).

(** Thread [i] goes next, if it can. *)
Definition step_thread (i : nat) (s : system E P A X) (w : W) : system E P A X * W * list (event E) :=
  match pool s !! i with
  | Some (TCall e k) =>
      let '(r, w) := h _ e w in
      (System (<[i := k r]> (pool s)) (state s) (atomics s) (holder s), w, [Event e r])
  | Some (TLock k) =>
      match holder s with
      | None => (System (<[i := k]> (pool s)) (state s) (atomics s) (Some i), w, [])
      | Some _ => (s, w, [])
      end
  | Some (TUnlock k) =>
      if decide (holder s = Some i)
      then (System (<[i := k]> (pool s)) (state s) (atomics s) None, w, []) else (s, w, [])
  | Some (TGuarded f k) =>
      (System (<[i := k (f (state s)).1]> (pool s)) (f (state s)).2 (atomics s) (holder s), w, [])
  | Some (TAtomic f k) =>
      (System (<[i := k (f (atomics s)).1]> (pool s)) (state s) (f (atomics s)).2 (holder s), w, [])
  | _ => (s, w, [])
  end.

Fixpoint run_schedule (l : list nat) (s : system E P A X) (w : W) : system E P A X * W * list (event E) :=
  match l with
  | [] => (s, w, [])
  | i :: l =>
      let '(s1, w1, tr1) := step_thread i s w in
      let '(s2, w2, tr2) := run_schedule l s1 w1 in
      (s2, w2, tr1 ++ tr2)
  end.

Lemma step_thread_steps i s w :
  steps s (step_thread i s w).2 (step_thread i s w).1.1.
Proof.
  unfold step_thread.
  assert (forall tr s', step s tr s' -> steps s tr s') as Hone.
  { intros tr s' H. rewrite <- (app_nil_r tr). econstructor; [done|constructor]. }
  destruct (pool s !! i) as [[x| |R e k|k|k|R f k|R f k]|] eqn:Hi; try apply steps_refl.
  - destruct (h R e w) as [r w1]. apply Hone. by apply step_call.
  - destruct (holder s) eqn:Hn; [apply steps_refl|]. apply Hone. by apply step_lock.
  - case_decide; [|apply steps_refl]. apply Hone. by apply step_unlock.
  - apply Hone. by apply step_guarded.
  - apply Hone. by apply step_atomic.
Qed.

Lemma steps_trans (s1 s2 s3 : system E P A X) tr1 tr2 :
  steps s1 tr1 s2 -> steps s2 tr2 s3 -> steps s1 (tr1 ++ tr2) s3.
Proof.
  intros H1 H2. induction H1 as [s|s1 tr1 s2 tr2' s4 H _ IH]; [done|].
  rewrite <- app_assoc. econstructor; [done|by apply IH].
Qed.

Lemma run_schedule_steps l s w :
  steps s (run_schedule l s w).2 (run_schedule l s w).1.1.
Proof.
  revert s w. induction l as [|i l IH]; intros s w; [constructor|]. simpl.
  pose proof (step_thread_steps i s w) as H. destruct (step_thread i s w) as [[s1 w1] tr1].
  specialize (IH s1 w1). destruct (run_schedule l s1 w1) as [[s2 w2] tr2]. simpl in *.
  by eapply steps_trans.
Qed.

Lemma run_schedule_lawful (law : laws E) l s w :
  lawful_env law h -> Forall (lawful law) (run_schedule l s w).2.
Proof.
  intros Hh. revert s w. induction l as [|i l IH]; intros s w; [constructor|]. simpl.
  assert (Forall (lawful law) (step_thread i s w).2) as H.
  { unfold step_thread. repeat case_match; simpl; try constructor; try constructor.
    pose proof (Hh _ e w) as Hw. by destruct (h R e w); simplify_eq/=. }
  destruct (step_thread i s w) as [[s1 w1] tr1]. specialize (IH s1 w1).
  destruct (run_schedule l s1 w1) as [[s2 w2] tr2]. by apply Forall_app.
Qed.
End schedule.
