(* ===== verification/Gst.v ===== *)
(** * The GStreamer interface of agent-webrtc/cbits/peer.c and audio.c

    Every GStreamer and GLib function the two files call, with the handles it gives, takes and
    needs, and the documented facts about its answers that the code computes with.  Element
    descriptions and property names are constants of the source and are left out of the
    signature where they do not distinguish two calls. *)

From stdpp Require Import base tactics option list gmap gmultiset.
From Stdlib Require Import ZArith Lia.
From coqutil Require Import Byte.
From S2P Require Import Prelude Programs.
#[local] Open Scope Z_scope.

(** A [GstBuffer *] that is not NULL: the pointer and the bytes of the buffer, which are
    immutable while several references to it exist. *)
Record buffer := Buffer { buffer_ptr : Z; buffer_bytes : list byte }.
Definition buffer_size (b : buffer) : Z := zlen (buffer_bytes b).

Inductive pipeline_kind := PeerPipeline | CapturePipeline (device : list byte) | PlaybackPipeline (device : list byte).
Inductive sdp_type := SdpOffer | SdpAnswer.
Inductive promise_result := PromiseReplied | PromiseOther.
Inductive connection_state := ConnNew | ConnConnecting | ConnConnected | ConnDisconnected | ConnFailed | ConnClosed.
(** The fields of [AgentPeer.description_field]. *)
Inductive description_kind := FieldOffer | FieldAnswer.

Inductive GstCall : Type -> Type :=
  (* initialization, memory, objects *)
  | gst_init_check : GstCall bool
  | g_new0 (size : Z) : GstCall Z
  | g_strdup_printf : GstCall Z
  | g_free (p : Z) : GstCall unit
  | g_clear_error (error : Z) : GstCall unit
  | gst_object_unref (o : Z) : GstCall unit
  (* pipelines *)
  | gst_parse_launch (k : pipeline_kind) : GstCall (Z * Z)
  | gst_parse_bin_from_description : GstCall (Z * Z)
  | gst_bin_get_by_name (bin : Z) (name : list byte) : GstCall Z
  | gst_bin_add (bin element : Z) : GstCall bool
  | gst_set_callbacks (endpoint : Z) : GstCall unit
  | g_signal_connect_pad_added (rtc : Z) : GstCall unit
  | gst_set_state_playing (pipeline : Z) : GstCall bool
  | gst_set_state_null (pipeline : Z) : GstCall unit
  | gst_send_flush_start (pipeline : Z) : GstCall unit
  (* the ICE agent's properties *)
  | g_object_get_object (o : Z) (property : list byte) : GstCall Z
  | g_object_has_property (o : Z) (property : list byte) : GstCall bool
  | g_object_set_false (o : Z) (property : list byte) : GstCall unit
  (* bus *)
  | gst_element_get_bus (pipeline : Z) : GstCall Z
  | gst_bus_pop (bus : Z) : GstCall (option (Z * bool))
  | gst_bus_pop_filtered (bus : Z) : GstCall Z
  | gst_message_unref (message : Z) : GstCall unit
  (* samples and buffers *)
  | gst_app_sink_pull_sample (sink : Z) : GstCall Z
  | gst_app_sink_try_pull_sample (sink : Z) : GstCall Z
  | gst_sample_get_buffer (sample : Z) : GstCall (option buffer)
  | gst_sample_unref (sample : Z) : GstCall unit
  | gst_buffer_ref (keeper : Z) (b : buffer) : GstCall unit
  | gst_buffer_unref (b : buffer) : GstCall unit
  | gst_buffer_extract (keeper : Z) (b : buffer) (size : Z) : GstCall (Z * list byte)
  | gst_buffer_new_allocate (size : Z) : GstCall Z
  | gst_buffer_fill (b : Z) (bytes : list byte) : GstCall unit
  | gst_buffer_set_duration (b : Z) (nanoseconds : Z) : GstCall unit
  | gst_app_src_level (src : Z) : GstCall Z
  | gst_app_src_push_buffer (src b : Z) : GstCall bool
  (* pads *)
  | gst_pad_is_src (pad : Z) : GstCall bool
  | gst_get_sink_pad (element : Z) : GstCall Z
  | gst_pad_is_linked (pad : Z) : GstCall bool
  | gst_pad_link (src sink : Z) : GstCall bool
  (* promises and session descriptions *)
  | gst_promise_new (done : Z) : GstCall Z
  | g_atomic_set_done (keeper done : Z) : GstCall unit
  | g_atomic_get_done (keeper done : Z) : GstCall Z
  | gst_promise_wait (promise : Z) : GstCall promise_result
  | gst_promise_has_reply (promise : Z) : GstCall bool
  | gst_reply_has_error (promise : Z) : GstCall bool
  | gst_reply_get_description (promise : Z) (field : description_kind) : GstCall Z
  | gst_promise_interrupt (promise : Z) : GstCall unit
  | gst_promise_unref (promise : Z) : GstCall unit
  | emit_create (rtc : Z) (offer : bool) (promise : Z) : GstCall unit
  | emit_set (rtc : Z) (local : bool) (description promise : Z) : GstCall unit
  | gst_sdp_message_new : GstCall (option Z)
  | gst_sdp_message_parse (message : Z) (text : list byte) : GstCall bool
  | gst_sdp_message_free (message : Z) : GstCall unit
  | gst_description_new (t : sdp_type) (message : Z) : GstCall Z
  | gst_description_free (description : Z) : GstCall unit
  | gst_sdp_message_as_text (description : Z) : GstCall (Z * list byte)
  | get_ice_gathering_complete (rtc : Z) : GstCall bool
  | get_local_description (rtc : Z) : GstCall Z
  | get_connection_state (rtc : Z) : GstCall connection_state.

(** Sizes are [size_t]; [gst_buffer_extract] stores as many bytes as it reports, at most those
    asked for and those there are; [g_new0] aborts rather than return NULL; a text is
    NUL-terminated, so the bytes before the NUL contain none; a parsed pipeline contains the
    elements its description names. *)
Definition gst_law : laws GstCall := fun R e =>
  match e in GstCall R return R -> Prop with
  | g_new0 _ | g_strdup_printf => fun p => p <> 0
  | gst_bin_get_by_name _ _ | gst_element_get_bus _ | gst_get_sink_pad _ | gst_promise_new _
  | gst_description_new _ _ => fun h => h <> 0
  | gst_sdp_message_new => fun m => m <> Some 0
  | gst_bus_pop _ => fun m => match m with Some (h, _) => h <> 0 | None => True end
  | gst_sample_get_buffer _ => fun b => match b with Some b => buffer_ptr b <> 0 | None => True end
  | gst_buffer_extract _ b size => fun '(n, data) =>
      zlen data = n /\ n <= Z.max 0 size /\ data = ztake n (buffer_bytes b) /\
      (0 <= size <= buffer_size b -> n = size)
  | gst_app_src_level _ => fun n => 0 <= n < 2 ^ 63
  | gst_sdp_message_as_text _ => fun '(p, text) =>
      (p = 0 -> text = []) /\ memchr_nul text = false /\ zlen text < 2 ^ 63
  | _ => fun _ => True
  end.

(** Who owns what (a buffer is read through its [keeper], the sample or buffer reference that
    keeps it alive): GObject references and boxed values are [Gst], plain allocations [Mem],
    promises [Promise].  A promise owns the flag it was created with, which is read and set through
    it, its [keeper].  Only [gst_init_check], the allocators and the parsers of descriptions use
    nothing. *)
#[export] Instance gst_ownership : Ownership GstCall := {
  gives := fun R e =>
    match e in GstCall R return R -> ledger with
    | g_new0 _ | g_strdup_printf => fun p => own Mem p
    | gst_parse_launch _ | gst_parse_bin_from_description => fun '(o, error) => own Gst o ⊎ own Mem error
    | gst_bin_get_by_name _ _ | g_object_get_object _ _ | gst_element_get_bus _ | gst_bus_pop_filtered _
    | gst_app_sink_pull_sample _ | gst_app_sink_try_pull_sample _ | gst_buffer_new_allocate _
    | gst_get_sink_pad _ | gst_reply_get_description _ _ | gst_description_new _ _
    | get_local_description _ => fun h => own Gst h
    | gst_bus_pop _ => fun m => match m with Some (h, _) => own Gst h | None => ∅ end
    | gst_buffer_ref _ b => fun _ => {[+ (Gst, buffer_ptr b) +]}
    | gst_promise_new _ => fun p => own Promise p
    | gst_sdp_message_new => fun m => match m with Some h => own Gst h | None => ∅ end
    | gst_sdp_message_as_text _ => fun '(p, _) => own Mem p
    | _ => fun _ => ∅
    end;
  takes := fun R e =>
    match e in GstCall R return R -> ledger with
    | g_free p => fun _ => own Mem p
    | g_clear_error e => fun _ => own Mem e
    | gst_object_unref o | gst_message_unref o | gst_sample_unref o | gst_sdp_message_free o
    | gst_description_free o => fun _ => {[+ (Gst, o) +]}
    | gst_bin_add _ e => fun added : bool => if added then {[+ (Gst, e) +]} else ∅
    | gst_buffer_unref b => fun _ => {[+ (Gst, buffer_ptr b) +]}
    | gst_app_src_push_buffer _ b => fun _ => {[+ (Gst, b) +]}
    | gst_promise_new done => fun _ => {[+ (Mem, done) +]}
    | gst_promise_unref p => fun _ => {[+ (Promise, p) +]}
    | gst_description_new _ m => fun _ => {[+ (Gst, m) +]}
    | _ => fun _ => ∅
    end;
  uses := fun R e =>
    match e with
    | g_free p => own Mem p
    | g_clear_error e => own Mem e
    | gst_object_unref o | gst_message_unref o | gst_sample_unref o | gst_sdp_message_free o
    | gst_description_free o => {[+ (Gst, o) +]}
    | gst_bin_get_by_name o _ | gst_set_callbacks o | g_signal_connect_pad_added o
    | gst_set_state_playing o | gst_set_state_null o | gst_send_flush_start o
    | g_object_get_object o _ | g_object_has_property o _ | g_object_set_false o _
    | gst_element_get_bus o | gst_bus_pop o | gst_bus_pop_filtered o
    | gst_app_sink_pull_sample o | gst_app_sink_try_pull_sample o | gst_sample_get_buffer o
    | gst_buffer_fill o _ | gst_buffer_set_duration o _ | gst_app_src_level o
    | gst_sdp_message_parse o _ | gst_description_new _ o | gst_sdp_message_as_text o
    | get_ice_gathering_complete o | get_local_description o | get_connection_state o
    | gst_pad_is_src o | gst_get_sink_pad o | gst_pad_is_linked o =>
        {[+ (Gst, o) +]}
    | gst_bin_add bin e => {[+ (Gst, bin) +]} ⊎ {[+ (Gst, e) +]}
    | gst_pad_link src sink => {[+ (Gst, src) +]} ⊎ {[+ (Gst, sink) +]}
    | gst_app_src_push_buffer src b => {[+ (Gst, src) +]} ⊎ {[+ (Gst, b) +]}
    | gst_buffer_unref b => {[+ (Gst, buffer_ptr b) +]}
    | gst_buffer_ref keeper _ | gst_buffer_extract keeper _ _ => {[+ (Gst, keeper) +]}
    | gst_promise_new done => {[+ (Mem, done) +]}
    | gst_promise_wait p | gst_promise_has_reply p | gst_reply_has_error p
    | gst_reply_get_description p _ | gst_promise_interrupt p | gst_promise_unref p
    | g_atomic_set_done p _ | g_atomic_get_done p _ =>
        {[+ (Promise, p) +]}
    | emit_create rtc _ p => {[+ (Gst, rtc) +]} ⊎ {[+ (Promise, p) +]}
    | emit_set rtc _ d p => {[+ (Gst, rtc) +]} ⊎ {[+ (Gst, d) +]} ⊎ {[+ (Promise, p) +]}
    | gst_init_check | g_new0 _ | g_strdup_printf | gst_parse_launch _ | gst_parse_bin_from_description
    | gst_buffer_new_allocate _ | gst_sdp_message_new => ∅
    end
}.

(** A guarded call on a handle that may be NULL. *)
Lemma owns_unless_null {B} x (p : prog GstCall unit) (k : unit -> prog GstCall B) (l : ledger) (Q : B -> ledger -> Prop) :
  (x = 0 -> owns gst_law (k tt) l Q) ->
  (x <> 0 -> owns gst_law p l (fun _ l => owns gst_law (k tt) l Q)) ->
  owns gst_law (mbind k (if negb (x =? 0) then p else Ret tt)) l Q.
Proof.
  intros H0 H1. destruct (Z.eqb_spec x 0) as [->|Hx]; simpl; [by apply H0|].
  apply owns_bind. eapply owns_mono; [by apply H1|]. by intros [] l'.
Qed.

(** Releasing a reference that may be NULL. *)
Lemma owns_unref_opt {B} o (k : unit -> prog GstCall B) (l : ledger) (Q : B -> ledger -> Prop) :
  owns gst_law (k tt) l Q ->
  owns gst_law (mbind k (if negb (o =? 0) then call (gst_object_unref o) else Ret tt)) (l ⊎ own Gst o) Q.
Proof.
  intros Hk. apply owns_unless_null.
  - intros ->. rewrite own_null. by replace (l ⊎ ∅) with l by multiset_solver.
  - intros Ho. rewrite own_singleton by done. own_call. destruct r.
    by replace (_ ∖ _ ⊎ _) with l by multiset_solver.
Qed.

(** ** An environment for the witnesses

    The world is the list of samples still to be delivered; everything succeeds. *)
Definition gst_demo : env GstCall (list (list byte)) := fun R e =>
  match e in GstCall R return list (list byte) -> R * list (list byte) with
  | gst_init_check | gst_set_state_playing _ | gst_app_src_push_buffer _ _ | gst_bin_add _ _
  | gst_pad_is_src _ | gst_pad_link _ _ | gst_promise_has_reply _ | gst_sdp_message_parse _ _
  | get_ice_gathering_complete _ => fun w => (true, w)
  | g_object_has_property _ _ | gst_pad_is_linked _ | gst_reply_has_error _ => fun w => (false, w)
  | g_new0 _ => fun w => (1000, w)
  | g_strdup_printf => fun w => (1001, w)
  | gst_parse_launch _ => fun w => ((1002, 0), w)
  | gst_parse_bin_from_description => fun w => ((1003, 0), w)
  | gst_bin_get_by_name _ _ => fun w => (1004, w)
  | g_object_get_object _ _ | gst_bus_pop_filtered _ | gst_app_src_level _ => fun w => (0, w)
  | gst_element_get_bus _ => fun w => (1005, w)
  | gst_bus_pop _ => fun w => (None, w)
  | gst_app_sink_pull_sample _ | gst_app_sink_try_pull_sample _ =>
      fun w => (match w with [] => 0 | _ => 1006 end, w)
  | gst_sample_get_buffer _ => fun w =>
      match w with [] => (None, []) | b :: w => (Some (Buffer 1007 b), w) end
  | gst_buffer_extract _ b size => fun w =>
      ((zlen (ztake size (buffer_bytes b)), ztake size (buffer_bytes b)), w)
  | gst_buffer_new_allocate _ => fun w => (1008, w)
  | gst_get_sink_pad _ => fun w => (1015, w)
  | gst_promise_new _ => fun w => (1009, w)
  | g_atomic_get_done _ _ => fun w => (1, w)
  | gst_promise_wait _ => fun w => (PromiseReplied, w)
  | gst_reply_get_description _ _ => fun w => (1010, w)
  | gst_sdp_message_new => fun w => (Some 1011, w)
  | gst_description_new _ _ => fun w => (1012, w)
  | gst_sdp_message_as_text _ => fun w => ((1013, [Byte.x76]), w)
  | get_local_description _ => fun w => (1014, w)
  | get_connection_state _ => fun w => (ConnConnected, w)
  | g_free _ | g_clear_error _ | gst_object_unref _ | gst_set_callbacks _
  | g_signal_connect_pad_added _ | gst_set_state_null _ | gst_send_flush_start _
  | g_object_set_false _ _ | gst_message_unref _ | gst_sample_unref _ | gst_buffer_ref _ _
  | gst_buffer_unref _ | gst_buffer_fill _ _ | gst_buffer_set_duration _ _
  | g_atomic_set_done _ _ | gst_promise_interrupt _ | gst_promise_unref _ | emit_create _ _ _
  | emit_set _ _ _ _ | gst_sdp_message_free _ | gst_description_free _ => fun w => (tt, w)
  end.

Lemma gst_demo_lawful : lawful_env gst_law gst_demo.
Proof.
  intros R e w. destruct e; simpl; try done; try lia.
  - by destruct w.
  - unfold ztake, buffer_size. rewrite length_take. split_and!; try lia.
    rewrite Nat2Z.id, <- take_take. by rewrite (take_ge (buffer_bytes b) (length (buffer_bytes b))).
Qed.
