(* ===== verification/Audio.v ===== *)
(** * Audio devices (agent-webrtc/cbits/audio.c)

    A capture stream is fed by a GStreamer streaming thread ([capture_sample]) and drained by
    the caller ([agent_audio_read]); the queue between them is guarded by the structure's
    mutex and [failed] is accessed atomically.  A playback stream has no shared queue. *)

From stdpp Require Import base tactics option list gmap gmultiset.
From Stdlib Require Import ZArith Lia.
From coqutil Require Import Byte.
From S2P Require Import Prelude Programs Threads Gst Device.
#[local] Open Scope Z_scope.

(** The fields of [struct AgentAudio] that do not change after construction; [mutex] is the
    mutex of the thread model, [failed] its atomic. *)
Record AgentAudio := Audio { audio_ptr : Z; pipeline : Z; endpoint : Z; capture : bool }.

(** The fields the mutex guards. *)
Record audio_queue := Queue { captured : list buffer; captured_bytes : Z }.
Definition empty_queue : audio_queue := Queue [] 0.

Abbreviation audio_thread := (thread GstCall audio_queue Z).
Definition set_failed : audio_thread unit := atomic (fun _ => (tt, 1)).
Definition get_failed : audio_thread Z := atomic (fun a => (a, a)).

Inductive GstFlowReturn := GST_FLOW_OK | GST_FLOW_EOS | GST_FLOW_ERROR.

(** [buffer ? gst_buffer_get_size(buffer) : 0] *)
Definition osize (b : option buffer) : Z := match b with Some b => buffer_size b | None => 0 end.

(** The overflow policy: what may not be queued. *)
Definition capture_rejected (size : Z) (q : audio_queue) : bool :=
  (size =? 0) || negb (size mod 2 =? 0) || (size >? 24000)
  || (u64 (captured_bytes q + size) >? 24000) || (zlen (captured q) >=? 100).

Definition push_tail (b : buffer) (q : audio_queue) : audio_queue :=
  Queue (captured q ++ [b]) (captured_bytes q).
Definition pop_head (q : audio_queue) : option buffer * audio_queue :=
  match captured q with
  | [] => (None, q)
  | b :: rest => (Some b, Queue rest (captured_bytes q))
  end.
Definition add_bytes (n : Z) (q : audio_queue) : audio_queue :=
  Queue (captured q) (u64 (captured_bytes q + n)).

Definition capture_sample (sink : Z) : audio_thread GstFlowReturn :=
  sample ← tcall (gst_app_sink_pull_sample sink);
  if sample =? 0 then TRet GST_FLOW_EOS else
  b ← tcall (gst_sample_get_buffer sample);
  let size := osize b in
  lock;;
  q ← get;
  (if capture_rejected size q then set_failed
   else match b with
        | None => TRet tt
        | Some b => tcall (gst_buffer_ref sample b);; set (push_tail b);; set (add_bytes size)
        end);;
  unlock;;
  tcall (gst_sample_unref sample);;
  failed ← get_failed;
  TRet (if failed =? 0 then GST_FLOW_OK else GST_FLOW_ERROR).

(** [g_queue_clear_full(&audio->captured, gst_buffer_unref)] *)
Fixpoint queue_clear (l : list buffer) : prog GstCall unit :=
  match l with
  | [] => Ret tt
  | b :: l => call (gst_buffer_unref b);; queue_clear l
  end.

(** [free] runs when readers have been joined; setting the pipeline's state to NULL joins the
    streaming thread, so the queue is read without the mutex. *)
Definition agent_audio_free (audio : option AgentAudio) (q : audio_queue) : prog GstCall unit :=
  match audio with
  | None => Ret tt
  | Some audio =>
      (if negb (pipeline audio =? 0)
       then call (gst_send_flush_start (pipeline audio));; call (gst_set_state_null (pipeline audio))
       else Ret tt);;
      queue_clear (captured q);;
      (if negb (endpoint audio =? 0) then call (gst_object_unref (endpoint audio)) else Ret tt);;
      (if negb (pipeline audio =? 0) then call (gst_object_unref (pipeline audio)) else Ret tt);;
      call (g_free (audio_ptr audio))
  end.

Arguments agent_audio_free : simpl never.

Definition sizeof_AgentAudio : Z := 88.

(** ["endpoint"], the name both descriptions give the appsink or appsrc. *)
Definition endpoint_name : list byte :=
  map byte.of_Z [101; 110; 100; 112; 111; 105; 110; 116].

(** [left] is what the streaming thread had queued by the time a pipeline that failed to start
    was stopped. *)
Definition audio_new (capture : bool) (device : list byte) (left : audio_queue)
    : prog GstCall (option AgentAudio) :=
  ok ← call gst_init_check;
  if negb (ok : bool) then Ret None else
  p ← call (g_new0 sizeof_AgentAudio);
  description ← call g_strdup_printf;
  '(pipe, error) ← call (gst_parse_launch
      (if capture then CapturePipeline device else PlaybackPipeline device));
  call (g_free description);;
  if negb (error =? 0) || (pipe =? 0)
  then
    call (g_clear_error error);;
    agent_audio_free (Some (Audio p pipe 0 capture)) empty_queue;;
    Ret None
  else
    e ← call (gst_bin_get_by_name pipe endpoint_name);
    let audio := Audio p pipe e capture in
    (if capture then call (gst_set_callbacks e) else Ret tt);;
    playing ← call (gst_set_state_playing pipe);
    if negb (playing : bool) then agent_audio_free (Some audio) left;; Ret None
    else Ret (Some audio).

(** The preprocessor's three cases; [device] is the platform's source or sink description. *)
Inductive platform := Apple (osxaudiosrc osxaudiosink : list byte)
  | Linux (pulsesrc pulsesink : list byte) | OtherPlatform.
Definition agent_audio_new (target : platform) (capture : bool) (left : audio_queue) : prog GstCall (option AgentAudio) :=
  match target with
  | Apple src sink | Linux src sink => audio_new capture (if capture then src else sink) left
  | OtherPlatform => Ret None
  end.

(** [while ((message = gst_bus_pop(bus)))]; [fatal] is "error or end of stream". *)
Fixpoint drain_bus (fuel : nat) (bus : Z) : audio_thread unit :=
  match fuel with
  | O => TSpin
  | S fuel =>
      m ← tcall (gst_bus_pop bus);
      match m with
      | None => TRet tt
      | Some (message, fatal) =>
          (if fatal : bool then set_failed else TRet tt);;
          tcall (gst_message_unref message);;
          drain_bus fuel bus
      end
  end.

Definition agent_audio_state (fuel : nat) (audio : AgentAudio) : audio_thread Z :=
  bus ← tcall (gst_element_get_bus (pipeline audio));
  drain_bus fuel bus;;
  tcall (gst_object_unref bus);;
  failed ← get_failed;
  TRet (if failed =? 0 then 1 else -1).

(** The result and the bytes stored in the caller's buffer. *)
Definition agent_audio_read (fuel : nat) (audio : AgentAudio) (capacity : Z)
    : audio_thread (Z * list byte) :=
  if negb (capture audio) then TRet (-1, []) else
  state ← agent_audio_state fuel audio;
  if state <? 0 then TRet (-1, []) else
  lock;;
  b ← guarded pop_head;
  let size := osize b in
  set (add_bytes (- size));;
  unlock;;
  match b with
  | None => TRet (0, [])
  | Some b =>
      '(result, data) ←
        (if size <=? capacity
         then '(n, data) ← tcall (gst_buffer_extract (buffer_ptr b) b size);
              TRet ((if n =? size then i32 size else -1), data)
         else TRet (-1, []));
      tcall (gst_buffer_unref b);;
      TRet (result, data)
  end.

(** [gst_util_uint64_scale(count / 2, GST_SECOND, 24000)] *)
Definition pcm_duration (count : Z) : Z := count / 2 * 1000000000 / 24000.

Definition agent_audio_write (fuel : nat) (audio : AgentAudio) (bytes : list byte) : audio_thread Z :=
  let count := zlen bytes in
  if capture audio || (count =? 0) || negb (count mod 2 =? 0) || (count >? 24000) then TRet (-1) else
  state ← agent_audio_state fuel audio;
  if state <? 0 then TRet (-1) else
  level ← tcall (gst_app_src_level (endpoint audio));
  if u64 (level + count) >? 24000 then TRet (-1) else
  b ← tcall (gst_buffer_new_allocate count);
  if b =? 0 then TRet (-1) else
  tcall (gst_buffer_fill b bytes);;
  tcall (gst_buffer_set_duration b (pcm_duration count));;
  pushed ← tcall (gst_app_src_push_buffer (endpoint audio) b);
  TRet (if pushed : bool then 1 else -1).

(** ** The queue's invariant *)

Definition total_bytes (l : list buffer) : Z := foldr (fun b n => buffer_size b + n) 0 l.
Definition sample_ok (b : buffer) : Prop :=
  0 < buffer_size b <= 24000 /\ buffer_size b mod 2 = 0.

Definition queue_ok (q : audio_queue) : Prop :=
  captured_bytes q = total_bytes (captured q) /\ captured_bytes q <= 24000 /\
  zlen (captured q) <= 100 /\ Forall sample_ok (captured q).

Definition buffers_ledger (l : list buffer) : ledger :=
  foldr (fun b m => {[+ (Gst, buffer_ptr b) +]} ⊎ m) ∅ l.
Definition queue_ledger (q : audio_queue) : ledger := buffers_ledger (captured q).

Lemma buffers_ledger_app l1 l2 :
  buffers_ledger (l1 ++ l2) = buffers_ledger l1 ⊎ buffers_ledger l2.
Proof.
  induction l1 as [|b l1 IH]; [multiset_solver|].
  change (buffers_ledger ((b :: l1) ++ l2)) with ({[+ (Gst, buffer_ptr b) +]} ⊎ buffers_ledger (l1 ++ l2)).
  rewrite IH. multiset_solver.
Qed.

Lemma total_bytes_app l1 l2 : total_bytes (l1 ++ l2) = total_bytes l1 + total_bytes l2.
Proof. unfold total_bytes. induction l1 as [|b l1 IH]; simpl; [done|]. lia. Qed.

Lemma total_bytes_nonneg l : 0 <= total_bytes l.
Proof. unfold total_bytes, buffer_size. induction l as [|b l IH]; simpl; [done|]. lia. Qed.

Lemma empty_queue_ok : queue_ok empty_queue.
Proof. split_and!; simpl; [done|lia|lia|constructor]. Qed.

(** The enqueueing branch. *)
Definition enqueue (b : buffer) (q : audio_queue) : audio_queue :=
  add_bytes (buffer_size b) (push_tail b q).
Definition dequeue (q : audio_queue) : option buffer * audio_queue :=
  let '(b, q) := pop_head q in (b, add_bytes (- osize b) q).

Lemma enqueue_ok b q :
  queue_ok q -> capture_rejected (buffer_size b) q = false ->
  queue_ok (enqueue b q) /\ queue_ledger (enqueue b q) = queue_ledger q ⊎ {[+ (Gst, buffer_ptr b) +]}.
Proof.
  intros (Hb & Hle & Hlen & Hall) Hr. unfold capture_rejected in Hr.
  pose proof (total_bytes_nonneg (captured q)).
  assert (0 < buffer_size b) by (unfold buffer_size in *; lia).
  rewrite u64_id in Hr by lia. split.
  - unfold enqueue, add_bytes, push_tail. split_and!; simpl; rewrite ?u64_id by lia.
    + rewrite total_bytes_app. simpl. lia.
    + lia.
    + rewrite length_app. simpl. lia.
    + apply Forall_app. split; [done|]. apply Forall_singleton. unfold sample_ok. lia.
  - unfold queue_ledger, enqueue. simpl. rewrite buffers_ledger_app. simpl. multiset_solver.
Qed.

Lemma dequeue_ok q b q' :
  queue_ok q -> dequeue q = (b, q') ->
  queue_ok q' /\
  match b with
  | Some b => sample_ok b /\ queue_ledger q = queue_ledger q' ⊎ {[+ (Gst, buffer_ptr b) +]}
  | None => q' = q
  end.
Proof.
  intros (Hb & Hle & Hlen & Hall). unfold dequeue, pop_head. destruct q as [[|b0 l] n]; simpl in *; intros [= <- <-].
  - unfold add_bytes. simpl. rewrite u64_id by lia. rewrite Z.add_0_r.
    split; [by split_and!|done].
  - apply Forall_cons_1 in Hall as [Hb0 Hall]. pose proof (total_bytes_nonneg l).
    unfold total_bytes in *. destruct Hb0 as [Hb1 Hb2].
    split; [|split; [by split|unfold queue_ledger; simpl; multiset_solver]].
    unfold add_bytes. unfold buffer_size in *.
    split_and!; cbn [captured captured_bytes]; rewrite ?u64_id by lia; try done; unfold total_bytes, buffer_size; lia.
Qed.

(** ** Every operation is safe next to every other *)

Section safety.
(** [J] is any property of [failed] that setting it establishes. *)
Context (J : Z -> Prop) (HJ : J 1).
Abbreviation audio_safe := (safe gst_law queue_ok queue_ledger J).

Lemma safe_set_failed held (l : ledger) (Q : unit -> option audio_queue -> ledger -> Prop) :
  Q tt held l -> audio_safe set_failed held l Q.
Proof. intros HQ a Ha. by split. Qed.

Lemma safe_drain fuel bus (l : ledger) (Q : unit -> option audio_queue -> ledger -> Prop) :
  {[+ (Gst, bus) +]} ⊆ l -> Q tt None l -> audio_safe (drain_bus fuel bus) None l Q.
Proof.
  intros Hb HQ. induction fuel as [|fuel IH]; [done|]. simpl.
  split; [done|]. intros [[m fatal]|] Hm; (split; [multiset_solver|]).
  - rewrite own_singleton by done.
    replace (l ∖ ∅ ⊎ _) with ({[+ (Gst, m) +]} ⊎ l : ledger) by multiset_solver.
    apply safe_bind.
    assert (forall k, k = (tcall (gst_message_unref m);; drain_bus fuel bus) ->
      audio_safe k None ({[+ (Gst, m) +]} ⊎ l) Q) as Hk.
    { intros k ->. safe_call.
      by replace (_ ∖ _ ⊎ _) with l by multiset_solver. }
    destruct fatal; [apply safe_set_failed|]; by apply Hk.
  - by rewrite ledger_keep.
Qed.

Lemma safe_state fuel audio (l : ledger) (Q : Z -> option audio_queue -> ledger -> Prop) :
  {[+ (Gst, pipeline audio) +]} ⊆ l ->
  (forall a, J a -> Q (if a =? 0 then 1 else -1) None l) ->
  audio_safe (agent_audio_state fuel audio) None l Q.
Proof.
  intros Hl HQ. unfold agent_audio_state. safe_call. rename r into bus. simpl in Hlaw.
  rewrite own_singleton by done. apply safe_bind, safe_drain; [multiset_solver|].
  safe_call. replace (_ ∖ _ ⊎ _) with l by multiset_solver.
  intros a Ha. split; [done|]. by apply HQ.
Qed.

(** What the caller may expect of a read into [capacity] bytes. *)
Definition read_result (capacity : Z) (a : Z * list byte) : Prop :=
  output_law capacity a /\ (0 < a.1 -> a.1 <= 24000 /\ a.1 mod 2 = 0).

Lemma safe_capture (sink : Z) (l : ledger) (Q : GstFlowReturn -> option audio_queue -> ledger -> Prop) :
  {[+ (Gst, sink) +]} ⊆ l ->
  (Q GST_FLOW_EOS None l) ->
  (forall a, J a -> Q (if a =? 0 then GST_FLOW_OK else GST_FLOW_ERROR) None l) ->
  audio_safe (capture_sample sink) None l Q.
Proof.
  intros Hl HQ1 HQ2. unfold capture_sample. safe_call. rename r into sample. simpl.
  destruct (Z.eqb_spec sample 0) as [->|Hs]; [rewrite own_null; by replace (_ ∖ ∅ ⊎ ∅) with l by multiset_solver|].
  rewrite own_singleton by done. safe_call. rename r into b.
  replace (l ∖ ∅ ⊎ _) with (l ⊎ {[+ (Gst, sample) +]} : ledger) by multiset_solver.
  simpl. split; [done|]. intros q Hq. exists q. split; [done|]. simpl.
  apply safe_bind.
  assert (forall m : ledger, l ⊎ {[+ (Gst, sample) +]} ⊆ m -> m ∖ {[+ (Gst, sample) +]} = l ->
    audio_safe (tcall (gst_sample_unref sample);; failed ← get_failed;
      TRet (if failed =? 0 then GST_FLOW_OK else GST_FLOW_ERROR)) None m Q) as Hend.
  { intros m Hm Hml. safe_call. rewrite Hml. replace (l ⊎ ∅) with l by multiset_solver.
    intros a Ha. split; [done|]. by apply HQ2. }
  destruct (capture_rejected (osize b) q) eqn:Hr.
  - apply safe_set_failed. exists q. split_and!; [done|done|multiset_solver|].
    apply Hend; multiset_solver.
  - destruct b as [b|]; [|unfold capture_rejected in Hr; by simpl in Hr].
    destruct (enqueue_ok _ _ Hq Hr) as [Hq' HL].
    safe_call. exists q. split; [done|]. simpl. eexists. split; [done|]. simpl.
    exists (enqueue b q). split; [done|]. split; [done|]. rewrite HL. split; [multiset_solver|]. apply Hend; multiset_solver.
Qed.

Lemma safe_read fuel audio capacity (l : ledger) (Q : Z * list byte -> option audio_queue -> ledger -> Prop) :
  {[+ (Gst, pipeline audio) +]} ⊆ l ->
  Q (-1, []) None l ->
  ((forall a, J a -> a <> 0) \/ (forall r, read_result capacity r -> Q r None l)) ->
  audio_safe (agent_audio_read fuel audio capacity) None l Q.
Proof.
  intros Hl HQ1 HQ. unfold agent_audio_read. destruct (capture audio); [|done]. cbn [negb].
  apply safe_bind, (safe_state _ _ _ _ Hl). intros a Ha.
  destruct (Z.eqb_spec a 0) as [->|Ha0]; [|done]. destruct HQ as [HQ|HQ]; [by destruct (HQ 0)|]. simpl.
  split; [done|]. intros q Hq. exists q. split; [done|]. eexists. split; [done|]. simpl.
  destruct (pop_head q) as [b q1] eqn:Hp. simpl. eexists. split; [done|].
  assert (dequeue q = (b, add_bytes (- osize b) q1)) as Hd by (unfold dequeue; by rewrite Hp).
  destruct (dequeue_ok _ _ _ Hq Hd) as [Hq' Hb]. split; [done|].
  assert (is_i32 0 /\ is_i32 (-1)) as [Hi0 Hi1] by (unfold is_i32; lia).
  destruct b as [b|].
  - destruct Hb as [[Hsize Heven] HL]. rewrite HL. split; [multiset_solver|].
    replace ((l ⊎ _) ∖ _) with (l ⊎ {[+ (Gst, buffer_ptr b) +]} : ledger) by multiset_solver.
    assert (forall r, read_result capacity r ->
      audio_safe (tcall (gst_buffer_unref b);; TRet r) None (l ⊎ {[+ (Gst, buffer_ptr b) +]}) Q) as Hend.
    { intros r Hr. safe_call. replace (_ ∖ _ ⊎ _) with l by multiset_solver. by apply HQ. }
    apply safe_bind. simpl. destruct (Z.leb_spec (buffer_size b) capacity) as [Hc|Hc].
    + safe_call. destruct r as [n data]. destruct Hlaw as (Hz & Hle & _ & Hn). simpl in Hle, Hn.
      rewrite Hn by lia. simpl. rewrite Z.eqb_refl. apply Hend.
      rewrite i32_id by (unfold is_i32; lia). split; [|simpl; lia]. split; simpl; [unfold is_i32; lia|lia].
    + apply Hend. split; [|simpl; lia]. split; simpl; [done|lia].
  - rewrite Hb. split; [multiset_solver|]. replace ((l ⊎ _) ∖ _) with l by multiset_solver.
    apply HQ. split; [|simpl; lia]. split; simpl; [done|lia].
Qed.

Lemma safe_write fuel audio bytes (l : ledger) (Q : Z -> option audio_queue -> ledger -> Prop) :
  {[+ (Gst, pipeline audio) +]} ⊎ {[+ (Gst, endpoint audio) +]} ⊆ l ->
  Q (-1) None l -> ((forall a, J a -> a <> 0) \/ Q 1 None l) ->
  audio_safe (agent_audio_write fuel audio bytes) None l Q.
Proof.
  intros Hl HQ1 HQ. unfold agent_audio_write. destruct (_ || _); [done|]. apply safe_bind, safe_state; [multiset_solver|].
  intros a Ha. destruct (Z.eqb_spec a 0) as [->|Ha0]; [|done]. destruct HQ as [HQ|HQ]; [by destruct (HQ 0)|].
  simpl. split; [multiset_solver|]. intros level _. split; [multiset_solver|]. rewrite ledger_keep.
  destruct (_ >? _); [done|]. simpl. split; [multiset_solver|]. intros b _. split; [multiset_solver|].
  destruct (Z.eqb_spec b 0) as [->|Hb]; [rewrite own_null, ledger_keep; done|].
  rewrite own_singleton by done.
  replace (_ ∖ _ ⊎ _) with (l ⊎ {[+ (Gst, b) +]} : ledger) by multiset_solver.
  assert ({[+ (Gst, endpoint audio) +]} ⊆ l) as He by multiset_solver. clear Hl.
  safe_call. safe_call. safe_call. replace (_ ∖ _ ⊎ _) with l by multiset_solver.
  by destruct r1.
Qed.
End safety.

(** ** Threads of operations *)

(** What a thread may do with an open stream: the streaming thread delivers samples, callers
    read, write and poll. *)
Inductive audio_op :=
  | OpCapture
  | OpRead (capacity : nat)
  | OpWrite (bytes : list byte)
  | OpState.

Definition flow_code (f : GstFlowReturn) : Z :=
  match f with GST_FLOW_OK => 0 | GST_FLOW_EOS => -3 | GST_FLOW_ERROR => -5 end.

Definition audio_run (fuel : nat) (audio : AgentAudio) (op : audio_op) : audio_thread (Z * list byte) :=
  match op with
  | OpCapture => f ← capture_sample (endpoint audio); TRet (flow_code f, [])
  | OpRead capacity => agent_audio_read fuel audio (Z.of_nat capacity)
  | OpWrite bytes => r ← agent_audio_write fuel audio bytes; TRet (r, [])
  | OpState => r ← agent_audio_state fuel audio; TRet (r, [])
  end.

Fixpoint audio_runs (fuel : nat) (audio : AgentAudio) (ops : list audio_op)
    : audio_thread (list (Z * list byte)) :=
  match ops with
  | [] => TRet []
  | op :: ops => r ← audio_run fuel audio op; rs ← audio_runs fuel audio ops; TRet (r :: rs)
  end.

(** What each operation may answer. *)
Definition audio_answer (op : audio_op) (r : Z * list byte) : Prop :=
  match op with
  | OpCapture => r = (0, []) \/ r = (-3, []) \/ r = (-5, [])
  | OpRead capacity => read_result (Z.of_nat capacity) r
  | OpWrite _ | OpState => r = (1, []) \/ r = (-1, [])
  end.

(** ... and once the stream has failed: no sample is accepted silently, nothing is read or
    written. *)
Definition failed_answer (op : audio_op) (r : Z * list byte) : Prop :=
  match op with
  | OpCapture => r = (-3, []) \/ r = (-5, [])
  | OpRead _ | OpWrite _ | OpState => r = (-1, [])
  end.

(** A thread borrows the structure's two references. *)
Definition borrowed (audio : AgentAudio) : ledger :=
  {[+ (Gst, pipeline audio) +]} ⊎ {[+ (Gst, endpoint audio) +]}.

Lemma safe_op J fuel audio op :
  J 1 -> safe gst_law queue_ok queue_ledger J (audio_run fuel audio op) None (borrowed audio)
    (ends (fun r l => l = borrowed audio /\ audio_answer op r)).
Proof.
  intros HJ. unfold borrowed. destruct op as [|capacity|bytes|]; cbn [audio_run]; try apply safe_bind.
  - apply safe_capture; [done|multiset_solver| |].
    + simpl. split_and!; [done|done|auto].
    + intros a _. simpl. split_and!; [done|done|]. destruct (a =? 0); simpl; auto.
  - apply safe_read; [done|multiset_solver| |].
    + split_and!; [done|done|]. split; [|simpl; lia]. split; simpl; [unfold is_i32; lia|lia].
    + right. intros r Hr. by split_and!.
  - apply safe_write; [done|done| |]; [|right]; simpl; (split_and!; [done|done|auto]).
  - apply safe_state; [done|multiset_solver|]. intros a _. simpl. split_and!; [done|done|].
    destruct (a =? 0); auto.
Qed.

Lemma safe_op_failed fuel audio op :
  safe gst_law queue_ok queue_ledger (fun a => a <> 0) (audio_run fuel audio op) None (borrowed audio)
    (ends (fun r l => l = borrowed audio /\ failed_answer op r)).
Proof.
  unfold borrowed. destruct op as [|capacity|bytes|]; cbn [audio_run]; try apply safe_bind.
  - apply safe_capture; [done|multiset_solver| |].
    + simpl. split_and!; [done|done|auto].
    + intros a Ha. rewrite (proj2 (Z.eqb_neq _ _) Ha). simpl. split_and!; [done|done|auto].
  - apply safe_read; [done|multiset_solver| |by left]. by split_and!.
  - apply safe_write; [done|done| |by left]. by split_and!.
  - apply safe_state; [done|multiset_solver|]. intros a Ha. rewrite (proj2 (Z.eqb_neq _ _) Ha).
    by split_and!.
Qed.

Lemma safe_ops J (answer : audio_op -> Z * list byte -> Prop) fuel audio ops :
  (forall op, safe gst_law queue_ok queue_ledger J (audio_run fuel audio op) None (borrowed audio)
    (ends (fun r l => l = borrowed audio /\ answer op r))) ->
  safe gst_law queue_ok queue_ledger J (audio_runs fuel audio ops) None (borrowed audio)
    (ends (fun rs l => l = borrowed audio /\ Forall2 answer ops rs)).
Proof.
  intros Hop. induction ops as [|op ops IH]; [by split_and!|]. simpl.
  apply safe_bind. eapply safe_mono; [apply Hop|]. intros r h l (-> & -> & Hr).
  apply safe_bind. eapply safe_mono; [apply IH|]. intros rs h l (-> & -> & Hrs).
  split_and!; [done|done|by constructor].
Qed.

(** A stream in use by one thread per list of operations. *)
Definition audio_system (fuel : nat) (audio : AgentAudio) (opss : list (list audio_op)) (q : audio_queue)
    (failed : Z) : system GstCall audio_queue Z (list (Z * list byte)) :=
  System (map (audio_runs fuel audio) opss) q failed None.

Definition borrows (audio : AgentAudio) (opss : list (list audio_op)) : ledger :=
  ledger_sum (map (fun _ => borrowed audio) opss).

(** What every interleaving of safe threads satisfies. *)
Lemma audio_system_sound (J : Z -> Prop) (answer : audio_op -> Z * list byte -> Prop) fuel audio opss q failed tr s :
  (forall op, safe gst_law queue_ok queue_ledger J (audio_run fuel audio op) None (borrowed audio)
    (ends (fun r l => l = borrowed audio /\ answer op r))) ->
  steps (audio_system fuel audio opss q failed) tr s -> Forall (lawful gst_law) tr ->
  queue_ok q -> J failed ->
  ~ races s /\ ~ deadlocked s /\ J (atomics s) /\ (holder s = None -> queue_ok (state s)) /\
  (exists l, audit tr (borrows audio opss ⊎ queue_ledger q) = Some l /\
     ((forall t, t ∈ pool s -> finished t) -> l = borrows audio opss ⊎ queue_ledger (state s))) /\
  (forall i ops rs, opss !! i = Some ops -> pool s !! i = Some (TRet rs) -> Forall2 answer ops rs).
Proof.
  intros Hop Hs Hl Hq Hf.
  set (Qs := map (fun ops rs (l : ledger) => l = borrowed audio /\ Forall2 answer ops rs) opss).
  assert (system_ok gst_law queue_ok queue_ledger J (audio_system fuel audio opss q failed) Qs
    (borrows audio opss ⊎ queue_ledger q)) as Hok.
  { apply system_ok_init; [done|done|by rewrite !length_map|]. intros i t l Ht Hli.
    rewrite list_lookup_fmap in Ht. rewrite list_lookup_fmap in Hli. unfold Qs. rewrite list_lookup_fmap.
    destruct (opss !! i) as [ops|]; simplify_eq/=. eexists. split; [done|]. by apply safe_ops. }
  destruct (system_ok_steps _ _ _ _ _ _ _ _ _ Hok Hs Hl) as (g & Ha & Hok').
  split_and!.
  - by eapply system_ok_no_race.
  - by eapply system_ok_no_deadlock.
  - by destruct Hok' as (ls & _ & _ & _ & ? & _).
  - by destruct Hok' as (ls & _ & _ & ? & _).
  - exists g. split; [done|]. intros Hfin.
    destruct (system_ok_finished _ _ _ _ _ _ _ Hok' Hfin) as (_ & _ & ls & Hlen & -> & HQ).
    f_equal. unfold borrows. f_equal. apply list_eq. intros i. rewrite list_lookup_fmap.
    apply steps_pool_length in Hs. simpl in Hs. rewrite length_map in Hs.
    destruct (opss !! i) as [ops|] eqn:Hi; simpl.
    + destruct (lookup_lt_is_Some_2 (pool s) i) as [t Ht]; [rewrite Hs; by eapply lookup_lt_Some|].
      destruct (lookup_lt_is_Some_2 ls i) as [l Hli]; [rewrite Hlen, Hs; by eapply lookup_lt_Some|].
      destruct (Hfin t) as [x ->]; [by eapply list_elem_of_lookup_2|].
      destruct (HQ _ _ _ Ht Hli) as (Q & HQi & HQx). unfold Qs in HQi.
      rewrite list_lookup_fmap, Hi in HQi. simplify_eq/=. rewrite Hli. by destruct HQx as [-> _].
    + apply lookup_ge_None in Hi. apply lookup_ge_None. lia.
  - intros i ops rs Hi Hrs. destruct Hok' as (ls & Hlen & _ & _ & _ & _ & Hall).
    destruct (lookup_lt_is_Some_2 ls i) as [l Hli]; [rewrite Hlen; by eapply lookup_lt_Some|].
    destruct (Hall _ _ _ Hrs Hli) as (Q & HQi & _ & HQx). unfold Qs in HQi.
    rewrite list_lookup_fmap, Hi in HQi. simplify_eq/=. by destruct HQx.
Qed.

(** ** Construction and release *)

Definition audio_ledger (a : AgentAudio) : ledger :=
  own Mem (audio_ptr a) ⊎ own Gst (pipeline a) ⊎ own Gst (endpoint a).

Lemma owns_queue_clear l (m : ledger) (Q : unit -> ledger -> Prop) :
  Q tt m -> owns gst_law (queue_clear l) (buffers_ledger l ⊎ m) Q.
Proof.
  intros HQ. induction l as [|b l IH]; [by replace (buffers_ledger [] ⊎ m) with m by multiset_solver|].
  change (buffers_ledger (b :: l)) with ({[+ (Gst, buffer_ptr b) +]} ⊎ buffers_ledger l).
  own_call. by replace (_ ∖ _ ⊎ _) with (buffers_ledger l ⊎ m) by multiset_solver.
Qed.

Lemma owns_audio_free a q (m : ledger) :
  owns gst_law (agent_audio_free (Some a) q) (audio_ledger a ⊎ queue_ledger q ⊎ m) (fun _ l => l = m).
Proof.
  unfold agent_audio_free, audio_ledger, queue_ledger.
  assert (forall o : Z, o <> 0 -> own Gst o = {[+ (Gst, o) +]}) as Hown by (intros; by apply own_singleton).
  apply owns_unless_null; [intros Hp|intros Hp; rewrite (Hown (pipeline a)) by done; own_call; own_call].
  all: apply owns_bind.
  all: replace (_ ⊎ _ ⊎ _ ⊎ _ ⊎ m) with (buffers_ledger (captured q)
    ⊎ (own Mem (audio_ptr a) ⊎ own Gst (pipeline a) ⊎ own Gst (endpoint a) ⊎ m))
    by (rewrite ?(Hown (pipeline a)) by done; multiset_solver).
  all: apply owns_queue_clear.
  all: apply owns_unless_null; [intros He|intros He; rewrite (Hown (endpoint a)) by done; own_call].
  all: apply owns_unless_null; [intros Hp'|intros Hp'; rewrite (Hown (pipeline a)) by done; own_call].
  all: try done; rewrite ?Hp, ?Hp', ?He, ?own_null; own_call; multiset_solver.
Qed.

Lemma owns_audio_new target capture left :
  owns gst_law (agent_audio_new target capture left) (queue_ledger left)
    (fun a l => match a with
                | None => l = queue_ledger left \/ l = ∅
                | Some a => l = audio_ledger a ⊎ queue_ledger left
                end).
Proof.
  assert (forall device, owns gst_law (audio_new capture device left) (queue_ledger left)
    (fun a l => match a with
                | None => l = queue_ledger left \/ l = ∅
                | Some a => l = audio_ledger a ⊎ queue_ledger left
                end)) as Hnew.
  2: { destruct target; simpl; [apply Hnew..|by left]. }
  intros device. unfold audio_new. own_call. destruct r; simpl; [|by left].
  own_call. rename r into p. own_call. rename r into d. own_call. destruct r as [pipe error]. own_call.
  clear Hlaw Hlaw0 Hlaw1 Hlaw2 Hlaw3. simpl.
  replace (_ ∖ own Mem d ⊎ ∅) with
    (audio_ledger (Audio p pipe 0 capture) ⊎ queue_ledger left ⊎ own Mem error : ledger)
    by (unfold audio_ledger; simpl; rewrite own_null; multiset_solver).
  destruct (negb (error =? 0) || (pipe =? 0)) eqn:Hbad.
  - own_call. apply owns_bind.
    replace (_ ∖ _ ⊎ _) with (audio_ledger (Audio p pipe 0 capture) ⊎ queue_ledger empty_queue ⊎ queue_ledger left : ledger)
      by (unfold queue_ledger at 1; simpl; multiset_solver).
    eapply owns_mono; [apply owns_audio_free|]. intros _ l ->. by left.
  - assert (error = 0 /\ pipe <> 0) as [-> Hpipe] by lia. rewrite own_null.
    assert ({[+ (Gst, pipe) +]} ⊆ audio_ledger (Audio p pipe 0 capture)) as Hin
      by (unfold audio_ledger; simpl; rewrite (own_singleton Gst pipe) by done; multiset_solver).
    simpl. split; [multiset_solver|]. intros e He. split; [multiset_solver|].
    replace (_ ∖ ∅ ⊎ own Gst e) with (audio_ledger (Audio p pipe e capture) ⊎ queue_ledger left ⊎ ∅ : ledger)
      by (unfold audio_ledger; simpl; rewrite own_null; multiset_solver).
    assert ({[+ (Gst, pipe) +]} ⊆ audio_ledger (Audio p pipe e capture) /\
            {[+ (Gst, e) +]} ⊆ audio_ledger (Audio p pipe e capture)) as [Hin1 Hin2]
      by (unfold audio_ledger; simpl; rewrite (own_singleton Gst pipe), (own_singleton Gst e) by done; split; multiset_solver).
    apply owns_bind.
    assert (owns gst_law (if capture then call (gst_set_callbacks e) else Ret tt)
      (audio_ledger (Audio p pipe e capture) ⊎ queue_ledger left ⊎ ∅)
      (fun _ l => l = audio_ledger (Audio p pipe e capture) ⊎ queue_ledger left ⊎ ∅)) as Hcb
      by (destruct capture; [own_call; done|done]).
    eapply owns_mono; [apply Hcb|]. intros _ l ->.
    simpl. split; [multiset_solver|]. intros playing _. split; [multiset_solver|]. rewrite ledger_keep.
    destruct playing; simpl; [multiset_solver|]. apply owns_bind.
    eapply owns_mono; [apply owns_audio_free|]. intros _ l ->. by right.
Qed.

(** ** Order *)

(** The queue changes by pushing at its tail and popping at its head only. *)
Definition fifo_step (q q' : audio_queue) : Prop :=
  captured q' = captured q \/ (exists b, captured q' = captured q ++ [b]) \/
  (exists b, captured q = b :: captured q').

Lemma fifo_chain q q' :
  chain fifo_step q q' -> exists pushed popped, captured q ++ pushed = popped ++ captured q'.
Proof.
  intros Hc. induction Hc as [q|q1 q2 q3 H _ (pushed & popped & IH)]; [exists [], []; by rewrite app_nil_r|].
  destruct H as [H|[(b & H)|(b & H)]].
  - exists pushed, popped. by rewrite <- H.
  - exists (b :: pushed), popped. rewrite H, <- app_assoc in IH. done.
  - exists pushed, (b :: popped). rewrite H. simpl. by rewrite IH.
Qed.

Lemma guarantees_drain fuel bus : guarantees fifo_step (drain_bus fuel bus).
Proof.
  induction fuel as [|fuel IH]; [done|]. simpl. intros [[m []]|]; simpl; intros; done.
Qed.

Lemma guarantees_state fuel audio : guarantees fifo_step (agent_audio_state fuel audio).
Proof. intros bus. apply (guarantees_bind _ (drain_bus fuel bus)); [apply guarantees_drain|]. by intros [] ? ?. Qed.

Lemma guarantees_run fuel audio op : guarantees fifo_step (audio_run fuel audio op).
Proof.
  assert (forall q n, fifo_step q (add_bytes n q)) as Hadd by (by left).
  assert (forall q, fifo_step q q) as Hrefl by (by left).
  destruct op as [|capacity|bytes|]; cbn [audio_run].
  - apply guarantees_bind; [|done]. intros sample. simpl. destruct (sample =? 0); [done|]. intros b q.
    split; [done|]. simpl. apply guarantees_bind; [|intros x; simpl; by intros].
    destruct (capture_rejected _ _); [done|]. destruct b as [b|]; [|done]. intros _ q1.
    split; [right; left; by exists b|]. intros q2. split; [apply Hadd|done].
  - unfold agent_audio_read. destruct (capture audio); [|done]. simpl.
    apply (guarantees_bind _ (agent_audio_state fuel audio)); [apply guarantees_state|].
    intros state. destruct (state <? 0); [done|]. intros q. split.
    { unfold pop_head. destruct (captured q) as [|b l] eqn:Hq; [by left|]. right. right. by exists b. }
    intros q1. split; [apply Hadd|]. destruct (pop_head q).1 as [b|]; [|done].
    simpl. apply guarantees_bind; [|intros [r data]; simpl; by intros].
    destruct (_ <=? _); [|done]. by intros [n data].
  - apply guarantees_bind; [|done]. unfold agent_audio_write. destruct (_ || _); [done|].
    apply guarantees_bind; [apply guarantees_state|]. intros state. destruct (state <? 0); [done|].
    intros level. simpl. destruct (_ >? _); [done|]. intros b. simpl. destruct (b =? 0); [done|].
    intros ??. done.
  - apply guarantees_bind; [apply guarantees_state|done].
Qed.

Lemma guarantees_runs fuel audio ops : guarantees fifo_step (audio_runs fuel audio ops).
Proof.
  induction ops as [|op ops IH]; [done|]. cbn [audio_runs].
  apply guarantees_bind; [apply guarantees_run|]. intros r. by apply guarantees_bind.
Qed.

(** ** Running alone *)

Lemma alone_drain fuel bus q f tr u q' f' :
  traces (alone (drain_bus fuel bus) q f) tr (Some (u, q', f')) -> q' = q /\ (f <> 0 -> f' <> 0).
Proof.
  revert f tr. induction fuel as [|fuel IH]; intros f tr; [by intros [_ [=]]|].
  simpl. intros ([[m fatal]|] & tr' & -> & H).
  - destruct fatal; simpl in H; destruct H as (r & tr2 & -> & H); apply IH in H as [-> H]; split; auto.
  - destruct H as [_ [= -> -> ->]]. done.
Qed.

Lemma alone_state fuel audio q f tr r q' f' :
  traces (alone (agent_audio_state fuel audio) q f) tr (Some (r, q', f')) ->
  q' = q /\ (f <> 0 -> f' <> 0) /\ r = if f' =? 0 then 1 else -1.
Proof.
  intros (bus & tr' & -> & H). apply (alone_bind (drain_bus fuel bus)) in H.
  apply traces_bind in H as [([[u q1] f1] & tr1 & tr2 & -> & H1 & H2)|[_ [=]]].
  apply alone_drain in H1 as [-> Hf]. destruct H2 as (r' & tr3 & -> & _ & [= -> -> ->]). done.
Qed.

Lemma returns_audio_free audio q : returns (agent_audio_free audio q).
Proof.
  destruct audio as [a|]; [|done]. unfold agent_audio_free.
  assert (forall l, returns (queue_clear l)) as Hc by (intros l; induction l; simpl; auto).
  assert (forall x (p : prog GstCall unit), returns p -> returns (if negb (x =? 0) then p else Ret tt))
    as Hif by (intros x p Hp; by destruct (x =? 0)).
  apply returns_bind; [by apply Hif|]. intros _. apply returns_bind; [done|]. intros _.
  apply returns_bind; [by apply Hif|]. intros _. by apply returns_bind; [apply Hif|].
Qed.

(** ** Properties *)

(** C13: a capture stream is safe under every interleaving.  Let any number of threads share an
    open stream, each performing any list of operations (samples arriving from the streaming
    thread, reads, writes, polls), in any order and whatever GStreamer answers.  Then the queue
    is never touched without the mutex, no deadlock arises, no buffer or sample is used after
    release, released twice or leaked (what is left over is what the queue holds), the queue
    never exceeds 24,000 bytes or 100 buffers and its byte count is exact, and every operation
    answers as documented: a read stores at most [capacity] bytes and a positive result counts
    exactly the bytes of whole 16-bit samples stored. *)
Theorem audio_threads_safe fuel audio opss q failed tr s :
  steps (audio_system fuel audio opss q failed) tr s -> Forall (lawful gst_law) tr -> queue_ok q ->
  ~ races s /\ ~ deadlocked s /\ (holder s = None -> queue_ok (state s)) /\
  (exists l, audit tr (borrows audio opss ⊎ queue_ledger q) = Some l /\
     ((forall t, t ∈ pool s -> finished t) -> l = borrows audio opss ⊎ queue_ledger (state s))) /\
  (forall i ops rs, opss !! i = Some ops -> pool s !! i = Some (TRet rs) -> Forall2 audio_answer ops rs).
Proof.
  intros Hs Hl Hq.
  destruct (audio_system_sound (fun _ => True) audio_answer _ _ _ _ _ _ _
    (fun op => safe_op _ fuel audio op Logic.I) Hs Hl Hq Logic.I) as (H1 & H2 & _ & H3 & H4 & H5).
  by split_and!.
Qed.

(** A capture thread and a reader, interleaved. *)
Definition demo_audio : AgentAudio := Audio 1000 1002 1004 true.
Definition demo_schedule : list nat :=
  [0; 1; 0; 1; 1; 0; 1; 1; 0; 1; 0; 0; 0; 1; 0; 1; 1; 1; 1; 1; 1; 1; 1; 0; 0; 0; 1; 1; 1; 1]%nat.
Definition demo_run :=
  run_schedule gst_demo demo_schedule (audio_system 3 demo_audio [[OpCapture]; [OpRead 4]] empty_queue 0)
    [[Byte.x01; Byte.x02]].

Lemma audio_threads_safe_witness :
  ~ races demo_run.1.1 /\ pool demo_run.1.1 = [TRet [(0, [])]; TRet [(2, [Byte.x01; Byte.x02])]].
Proof.
  split; [|vm_compute; reflexivity].
  refine (proj1 (audio_threads_safe 3 demo_audio [[OpCapture]; [OpRead 4]] empty_queue 0
    demo_run.2 demo_run.1.1 _ _ empty_queue_ok)).
  - apply run_schedule_steps.
  - apply run_schedule_lawful, gst_demo_lawful.
Defined.

(** A stream that has failed stays failed.  Once [failed] is set, under every
    interleaving of any threads it stays set, and every operation that finishes reports the
    failure: reads, writes and polls return -1 and store nothing, and the streaming thread is
    told to stop. *)
Theorem audio_fails_closed fuel audio opss q failed tr s :
  steps (audio_system fuel audio opss q failed) tr s -> Forall (lawful gst_law) tr -> queue_ok q ->
  failed <> 0 ->
  atomics s <> 0 /\
  (forall i ops rs, opss !! i = Some ops -> pool s !! i = Some (TRet rs) -> Forall2 failed_answer ops rs).
Proof.
  intros Hs Hl Hq Hf.
  destruct (audio_system_sound (fun a => a <> 0) failed_answer _ _ _ _ _ _ _
    (fun op => safe_op_failed fuel audio op) Hs Hl Hq Hf) as (_ & _ & H1 & _ & _ & H2).
  by split.
Qed.

Definition failed_run :=
  run_schedule gst_demo demo_schedule (audio_system 3 demo_audio [[OpCapture]; [OpRead 4]] empty_queue 1)
    [[Byte.x01; Byte.x02]].

Lemma audio_fails_closed_witness :
  atomics failed_run.1.1 <> 0 /\ pool failed_run.1.1 = [TRet [(-5, [])]; TRet [(-1, [])]].
Proof.
  split; [|vm_compute; reflexivity].
  refine (proj1 (audio_fails_closed 3 demo_audio [[OpCapture]; [OpRead 4]] empty_queue 1
    failed_run.2 failed_run.1.1 _ _ empty_queue_ok _)).
  - apply run_schedule_steps.
  - apply run_schedule_lawful, gst_demo_lawful.
  - discriminate.
Defined.

(** Captured audio is a first-in first-out queue.  Under every interleaving, the buffers
    queued since some moment come after those queued at that moment, the buffers taken since
    are the oldest ones, and nothing is lost, duplicated or reordered in between. *)
Theorem audio_queue_fifo fuel audio opss q failed tr s :
  steps (audio_system fuel audio opss q failed) tr s ->
  exists pushed popped, captured q ++ pushed = popped ++ captured (state s).
Proof.
  intros Hs. apply fifo_chain. apply (guarantees_steps fifo_step) in Hs; [done|].
  simpl. apply Forall_map. apply Forall_true. intros ops. apply guarantees_runs.
Qed.

Lemma audio_queue_fifo_witness :
  exists pushed popped, [] ++ pushed = popped ++ captured (state demo_run.1.1).
Proof.
  apply (audio_queue_fifo 3 demo_audio [[OpCapture]; [OpRead 4]] empty_queue 0 demo_run.2 demo_run.1.1).
  apply run_schedule_steps.
Defined.

(** A read returns the oldest captured buffer, whole or not at all.  Undisturbed, a read on
    a healthy capture stream leaves all but the oldest buffer in the queue; if that buffer fits
    the caller's, its bytes are stored and its size is the result, otherwise the result is -1
    and nothing is stored; with an empty queue the result is 0.  On a failed stream, or one
    whose bus reports an error or the end of the stream, the result is -1 and the queue is as
    it was. *)
Theorem agent_audio_read_oldest fuel audio capacity q failed tr r data q' failed' :
  traces (alone (agent_audio_read fuel audio capacity) q failed) tr (Some (r, data, q', failed')) ->
  Forall (lawful gst_law) tr -> queue_ok q -> capture audio = true ->
  if negb (failed' =? 0) then r = -1 /\ data = [] /\ q' = q
  else
    match captured q with
    | [] => r = 0 /\ data = [] /\ captured q' = []
    | b :: rest =>
        captured q' = rest /\
        if buffer_size b <=? capacity then r = buffer_size b /\ data = buffer_bytes b
        else r = -1 /\ data = []
    end.
Proof.
  intros Ht Hl (Hb & Hle & _ & Hall) Hcap. unfold agent_audio_read in Ht. rewrite Hcap in Ht. cbn [negb] in Ht.
  apply alone_bind in Ht.
  apply traces_bind in Ht as [([[st q1] f1] & tr1 & tr2 & -> & H1 & H2)|[_ [=]]].
  apply alone_state in H1 as (-> & _ & ->). apply Forall_app in Hl as [_ Hl].
  destruct (Z.eqb_spec f1 0) as [->|Hf].
  2: { destruct H2 as [-> [= -> -> -> ->]]. by rewrite (proj2 (Z.eqb_neq _ _) Hf). }
  simpl in H2. unfold pop_head in H2. destruct (captured q) as [|b rest] eqn:Hq; simpl in H2.
  { destruct H2 as [-> [= -> -> -> ->]]. split_and!; [done|done|exact Hq]. }
  apply Forall_cons_1 in Hall as [[Hsize _] _].
  destruct (Z.leb_spec (buffer_size b) capacity) as [Hc|Hc]; simpl in H2.
  - destruct H2 as ([n d] & tr3 & -> & u & tr4 & -> & -> & [= -> -> -> ->]). simpl.
    apply Forall_cons_1 in Hl as [(Hz & _ & Hd & Hn) _]. simpl in Hn, Hd, Hz. rewrite Hn by lia.
    rewrite Z.eqb_refl, i32_id by (unfold is_i32; lia). split_and!; [done|done|].
    rewrite Hd, Hn by lia. apply ztake_all.
  - by destruct H2 as (u & tr4 & -> & -> & [= -> -> -> ->]).
Qed.

Lemma agent_audio_read_oldest_witness :
  let q := Queue [Buffer 1007 [Byte.x01; Byte.x02]; Buffer 1008 [Byte.x03; Byte.x04]] 4 in
  captured (Queue [Buffer 1008 [Byte.x03; Byte.x04]] 2) = [Buffer 1008 [Byte.x03; Byte.x04]] /\
  2 = buffer_size (Buffer 1007 [Byte.x01; Byte.x02]) /\
  [Byte.x01; Byte.x02] = buffer_bytes (Buffer 1007 [Byte.x01; Byte.x02]).
Proof.
  intros q.
  apply (agent_audio_read_oldest 3 demo_audio 4 q 0
    (exec_trace gst_demo (alone (agent_audio_read 3 demo_audio 4) q 0) []) 2
    [Byte.x01; Byte.x02] (Queue [Buffer 1008 [Byte.x03; Byte.x04]] 2) 0).
  - assert (exec_value gst_demo (alone (agent_audio_read 3 demo_audio 4) q 0) []
      = Some (2, [Byte.x01; Byte.x02], Queue [Buffer 1008 [Byte.x03; Byte.x04]] 2, 0)) as <-
      by (vm_compute; reflexivity).
    apply exec_traces.
  - apply exec_lawful, gst_demo_lawful.
  - split_and!; [reflexivity|vm_compute; discriminate|vm_compute; discriminate|].
    repeat constructor; vm_compute; congruence.
  - reflexivity.
Defined.

(** Opening and freeing a stream balance.  Whatever GStreamer answers, a failed open
    leaves nothing behind (the buffers the streaming thread had queued are released with the
    pipeline), and a successful one leaves exactly the structure and its two references, which
    [agent_audio_free] releases once each together with every queued buffer. *)
Theorem agent_audio_balanced target capture left tr a :
  traces (agent_audio_new target capture left) tr (Some a) -> Forall (lawful gst_law) tr ->
  exists l, audit tr (queue_ledger left) = Some l /\
    match a with
    | None => l = queue_ledger left \/ l = ∅
    | Some audio => l = audio_ledger audio ⊎ queue_ledger left /\
        forall q tr' o, traces (agent_audio_free a q) tr' o -> Forall (lawful gst_law) tr' ->
          audit tr' (audio_ledger audio ⊎ queue_ledger q) = Some ∅ /\ is_Some o
    end.
Proof.
  intros Ht Hl.
  destruct (owns_sound _ _ _ _ _ _ (owns_audio_new target capture left) Ht Hl) as (l & Ha & HQ).
  exists l. split; [done|]. specialize (HQ _ eq_refl). destruct a as [audio|]; [|done]. split; [done|].
  intros q tr' o Ht' Hl'. pose proof (owns_audio_free audio q ∅) as Hfree.
  replace (audio_ledger audio ⊎ queue_ledger q ⊎ ∅) with (audio_ledger audio ⊎ queue_ledger q)
    in Hfree by multiset_solver.
  destruct (owns_sound _ _ _ _ _ _ Hfree Ht' Hl') as (l' & Ha' & HQ'). rewrite Ha'.
  assert (is_Some o) as [u ->] by (eapply returns_sound; [|exact Ht']; apply returns_audio_free).
  by rewrite (HQ' u eq_refl).
Qed.

Lemma agent_audio_balanced_witness :
  let p := agent_audio_new (Linux [] []) true empty_queue in
  exec_value gst_demo p [] = Some (Some demo_audio) /\
  exists l, audit (exec_trace gst_demo p []) (queue_ledger empty_queue) = Some l /\
    l = audio_ledger demo_audio ⊎ queue_ledger empty_queue.
Proof.
  assert (exec_value gst_demo (agent_audio_new (Linux [] []) true empty_queue) [] = Some (Some demo_audio))
    as Hv by (vm_compute; reflexivity).
  split; [exact Hv|].
  destruct (agent_audio_balanced (Linux [] []) true empty_queue
    (exec_trace gst_demo (agent_audio_new (Linux [] []) true empty_queue) []) (Some demo_audio))
    as (l & Ha & Hd & _).
  - rewrite <- Hv. apply exec_traces.
  - apply exec_lawful, gst_demo_lawful.
  - exists l. split; [exact Ha|exact Hd].
Defined.
