(* ===== verification/Peer.v ===== *)
(** * WebRTC peers (agent-webrtc/cbits/peer.c)

    A peer is a GStreamer pipeline driven by one caller at a time; at most one signalling
    operation (a promise) is outstanding.  [incoming] runs on streaming threads and shares only
    the atomic [failed] with the caller. *)

From stdpp Require Import base tactics option list gmap gmultiset.
From Stdlib Require Import ZArith Lia.
From coqutil Require Import Byte.
From S2P Require Import Prelude Programs Threads Gst Device.
#[local] Open Scope Z_scope.

(** [struct AgentPeer] without [failed]; NULL is 0. *)
Record AgentPeer := Peer {
  peer_ptr : Z; pipeline : Z; rtc : Z; source : Z; sink : Z; receiver : Z;
  operation : Z; operation_done_flag : Z; description_field : option description_kind
}.

Abbreviation peer_thread := (thread GstCall unit Z).
Definition set_failed : peer_thread unit := atomic (fun _ => (tt, 1)).
Definition get_failed : peer_thread Z := atomic (fun a => (a, a)).

(** The "pad-added" handler. *)
Definition incoming (p : AgentPeer) (pad : Z) : peer_thread unit :=
  src ← tcall (gst_pad_is_src pad);
  if negb (src : bool) then TRet tt else
  target ← tcall (gst_get_sink_pad (receiver p));
  linked ← tcall (gst_pad_is_linked target);
  (if linked : bool then set_failed
   else ok ← tcall (gst_pad_link pad target);
        if ok : bool then TRet tt else set_failed);;
  tcall (gst_object_unref target).

Definition agent_peer_free (p : option AgentPeer) : prog GstCall unit :=
  match p with
  | None => Ret tt
  | Some p =>
      (if negb (operation p =? 0)
       then call (gst_promise_interrupt (operation p));; call (gst_promise_unref (operation p))
       else Ret tt);;
      (if negb (pipeline p =? 0)
       then call (gst_send_flush_start (pipeline p));; call (gst_set_state_null (pipeline p))
       else Ret tt);;
      (if negb (rtc p =? 0) then call (gst_object_unref (rtc p)) else Ret tt);;
      (if negb (source p =? 0) then call (gst_object_unref (source p)) else Ret tt);;
      (if negb (sink p =? 0) then call (gst_object_unref (sink p)) else Ret tt);;
      (if negb (pipeline p =? 0) then call (gst_object_unref (pipeline p)) else Ret tt);;
      call (g_free (peer_ptr p))
  end.
Arguments agent_peer_free : simpl never.

Definition sizeof_AgentPeer : Z := 72.
Definition ascii (l : list Z) : list byte := map byte.of_Z l.
Definition rtc_name : list byte := ascii [114; 116; 99].
Definition source_name : list byte := ascii [115; 111; 117; 114; 99; 101].
Definition received_name : list byte := ascii [114; 101; 99; 101; 105; 118; 101; 100].
Definition ice_agent_property : list byte := ascii [105; 99; 101; 45; 97; 103; 101; 110; 116].
Definition agent_property : list byte := ascii [97; 103; 101; 110; 116].
Definition upnp_property : list byte := ascii [117; 112; 110; 112].

(** [g_clear_object(&o)] *)
Definition g_clear_object (o : Z) : prog GstCall unit :=
  if negb (o =? 0) then call (gst_object_unref o) else Ret tt.

(** Port mapping is switched off on this peer's ICE agent, where it has the property. *)
Definition ice_agent (ice : Z) : prog GstCall Z :=
  if negb (ice =? 0)
  then has ← call (g_object_has_property ice agent_property);
       if has : bool then call (g_object_get_object ice agent_property) else Ret 0
  else Ret 0.
Definition clear_upnp (agent : Z) : prog GstCall unit :=
  if negb (agent =? 0)
  then has ← call (g_object_has_property agent upnp_property);
       if has : bool then call (g_object_set_false agent upnp_property) else Ret tt
  else Ret tt.
Definition disable_upnp (rtc : Z) : prog GstCall unit :=
  ice ← call (g_object_get_object rtc ice_agent_property);
  agent ← ice_agent ice;
  clear_upnp agent;;
  g_clear_object agent;;
  g_clear_object ice.
Arguments disable_upnp : simpl never.

(** The label [failed]. *)
Definition peer_failed (p : AgentPeer) (error : Z) : prog GstCall (option AgentPeer) :=
  call (g_clear_error error);;
  agent_peer_free (Some p);;
  Ret None.
Arguments peer_failed : simpl never.

Definition agent_peer_new : prog GstCall (option AgentPeer) :=
  ok ← call gst_init_check;
  if negb (ok : bool) then Ret None else
  ptr ← call (g_new0 sizeof_AgentPeer);
  '(pipe, error) ← call (gst_parse_launch PeerPipeline);
  if negb (error =? 0) || (pipe =? 0) then peer_failed (Peer ptr pipe 0 0 0 0 0 0 None) error else
  rtc ← call (gst_bin_get_by_name pipe rtc_name);
  disable_upnp rtc;;
  source ← call (gst_bin_get_by_name pipe source_name);
  '(recv, error) ← call gst_parse_bin_from_description;
  if negb (error =? 0) || (recv =? 0)
  then
    (if negb (recv =? 0) then call (gst_object_unref recv) else Ret tt);;
    peer_failed (Peer ptr pipe rtc source 0 0 0 0 None) error
  else
    sink ← call (gst_bin_get_by_name recv received_name);
    added ← call (gst_bin_add pipe recv);
    if negb (added : bool)
    then call (gst_object_unref recv);; peer_failed (Peer ptr pipe rtc source sink 0 0 0 None) error
    else
      let p := Peer ptr pipe rtc source sink recv 0 0 None in
      call (g_signal_connect_pad_added rtc);;
      playing ← call (gst_set_state_playing pipe);
      if negb (playing : bool) then peer_failed p error else Ret (Some p).

(** ** Operations *)

(** The promise's change function, run by GStreamer when the promise is settled. *)
Definition operation_done (promise done : Z) : prog GstCall unit := call (g_atomic_set_done promise done).

Definition begin_operation (p : AgentPeer) (field : option description_kind)
    : prog GstCall (Z * AgentPeer) :=
  if negb (operation p =? 0) then Ret (0, p) else
  done ← call (g_new0 4);
  promise ← call (gst_promise_new done);
  Ret (1, Peer (peer_ptr p) (pipeline p) (rtc p) (source p) (sink p) (receiver p) promise done field).

Definition agent_peer_create_description (p : AgentPeer) (offer : bool) : prog GstCall (Z * AgentPeer) :=
  '(begun, p) ← begin_operation p (Some (if offer then FieldOffer else FieldAnswer));
  if begun =? 0 then Ret (0, p) else
  call (emit_create (rtc p) offer (operation p));;
  Ret (1, p).

(** [sdp] is the string up to its terminating NUL. *)
Definition agent_peer_set_description (p : AgentPeer) (sdp : list byte) (offer local : bool)
    : prog GstCall (Z * AgentPeer) :=
  let length := zlen sdp in
  if (length >? 65536) || (length =? 0) || negb (operation p =? 0) then Ret (0, p) else
  message ← call gst_sdp_message_new;
  match message with
  | None => Ret (0, p)
  | Some message =>
      parsed ← call (gst_sdp_message_parse message sdp);
      if negb (parsed : bool) then call (gst_sdp_message_free message);; Ret (0, p) else
      description ← call (gst_description_new (if offer then SdpOffer else SdpAnswer) message);
      '(_, p) ← begin_operation p None;
      call (emit_set (rtc p) local description (operation p));;
      call (gst_description_free description);;
      Ret (1, p)
  end.

(** The result and the bytes stored in [output]. *)
Definition copy_description (description capacity : Z) : prog GstCall (Z * list byte) :=
  if description =? 0 then Ret (-1, []) else
  '(text, bytes) ← call (gst_sdp_message_as_text description);
  let length := if negb (text =? 0) then zlen bytes else 0 in
  let stored := negb (length =? 0) && (length <=? 65536) && (length <=? capacity) in
  call (g_free text);;
  call (gst_description_free description);;
  Ret (if stored then (i32 length, bytes) else (-1, [])).
Arguments copy_description : simpl never.

Definition clear_operation (p : AgentPeer) : AgentPeer :=
  Peer (peer_ptr p) (pipeline p) (rtc p) (source p) (sink p) (receiver p) 0 0 (description_field p).

(** The reply of a settled promise. *)
Definition read_reply (p : AgentPeer) (capacity : Z) : prog GstCall (Z * list byte) :=
  reply ← call (gst_promise_has_reply (operation p));
  error ← (if reply : bool then call (gst_reply_has_error (operation p)) else Ret false);
  if negb reply || negb (error : bool) then
    match description_field p, reply with
    | Some field, true =>
        description ← call (gst_reply_get_description (operation p) field);
        copy_description description capacity
    | _, _ => if negb (capacity =? 0) then Ret (1, [Byte.x00]) else Ret (-1, [])
    end
  else Ret (-1, []).
Arguments read_reply : simpl never.

Definition agent_peer_operation (p : AgentPeer) (capacity : Z) : prog GstCall (Z * list byte * AgentPeer) :=
  if operation p =? 0 then Ret (-1, [], p) else
  done ← call (g_atomic_get_done (operation p) (operation_done_flag p));
  if done =? 0 then Ret (0, [], p) else
  settled ← call (gst_promise_wait (operation p));
  '(result, output) ←
    match settled with
    | PromiseReplied => read_reply p capacity
    | PromiseOther => Ret (-1, [])
    end;
  call (gst_promise_unref (operation p));;
  Ret (result, output, clear_operation p).

Definition agent_peer_local_description (p : AgentPeer) (capacity : Z) : prog GstCall (Z * list byte) :=
  complete ← call (get_ice_gathering_complete (rtc p));
  if negb (complete : bool) then Ret (0, []) else
  description ← call (get_local_description (rtc p));
  copy_description description capacity.

Definition agent_peer_state (p : AgentPeer) : peer_thread Z :=
  bus ← tcall (gst_element_get_bus (pipeline p));
  error ← tcall (gst_bus_pop_filtered bus);
  (if negb (error =? 0) then set_failed;; tcall (gst_message_unref error) else TRet tt);;
  tcall (gst_object_unref bus);;
  failed ← get_failed;
  if negb (failed =? 0) then TRet (-1) else
  state ← tcall (get_connection_state (rtc p));
  TRet match state with
       | ConnFailed | ConnClosed | ConnDisconnected => -1
       | ConnConnected => 1
       | ConnNew | ConnConnecting => 0
       end.

(** [gst_util_uint64_scale(length / 2, GST_SECOND, 24000)] *)
Definition push_duration (length : Z) : Z := length / 2 * 1000000000 / 24000.

Definition agent_peer_push (p : AgentPeer) (pcm : list byte) : prog GstCall Z :=
  let length := zlen pcm in
  if (length =? 0) || (length >? 24000) || negb (length mod 2 =? 0) then Ret 0 else
  level ← call (gst_app_src_level (source p));
  if u64 (level + length) >? 48000 then Ret 0 else
  b ← call (gst_buffer_new_allocate length);
  if b =? 0 then Ret 0 else
  call (gst_buffer_fill b pcm);;
  call (gst_buffer_set_duration b (push_duration length));;
  pushed ← call (gst_app_src_push_buffer (source p) b);
  Ret (if pushed : bool then 1 else 0).

Definition agent_peer_pull (p : AgentPeer) (capacity : Z) : prog GstCall (Z * list byte) :=
  sample ← call (gst_app_sink_try_pull_sample (sink p));
  if sample =? 0 then Ret (0, []) else
  b ← call (gst_sample_get_buffer sample);
  let length := match b with Some b => buffer_size b | None => 0 end in
  '(result, output) ←
    match b with
    | Some b =>
        if negb (length =? 0) && (length <=? capacity) && (length mod 2 =? 0)
        then '(_, data) ← call (gst_buffer_extract sample b length); Ret (i32 length, data)
        else Ret (-1, [])
    | None => Ret (-1, [])
    end;
  call (gst_sample_unref sample);;
  Ret (result, output).

(** ** What a peer owns *)

Definition base_ledger (p : AgentPeer) : ledger :=
  own Mem (peer_ptr p) ⊎ own Gst (pipeline p) ⊎ own Gst (rtc p) ⊎ own Gst (source p) ⊎ own Gst (sink p).
Definition promise_ledger (p : AgentPeer) : ledger := own Promise (operation p).
Definition peer_ledger (p : AgentPeer) : ledger := base_ledger p ⊎ promise_ledger p.

(** A constructed peer has all its elements. *)
Definition live (p : AgentPeer) : Prop :=
  peer_ptr p <> 0 /\ pipeline p <> 0 /\ rtc p <> 0 /\ source p <> 0 /\ sink p <> 0.

(** Everything but the operation is unchanged. *)
Definition same_peer (p p' : AgentPeer) : Prop :=
  peer_ptr p' = peer_ptr p /\ pipeline p' = pipeline p /\ rtc p' = rtc p /\ source p' = source p /\
  sink p' = sink p /\ receiver p' = receiver p.

Lemma same_peer_refl p : same_peer p p.
Proof. done. Qed.
Lemma same_peer_live p p' : same_peer p p' -> live p -> live p'.
Proof. unfold same_peer, live. intuition congruence. Qed.
Lemma same_peer_base p p' : same_peer p p' -> base_ledger p' = base_ledger p.
Proof. unfold same_peer, base_ledger. by intros (-> & -> & -> & -> & -> & _). Qed.

(** What the caller holds while it operates on [p]. *)
Definition holds (p : AgentPeer) (m : ledger) : Prop :=
  {[+ (Gst, pipeline p) +]} ⊆ m /\ {[+ (Gst, rtc p) +]} ⊆ m /\ {[+ (Gst, source p) +]} ⊆ m /\
  {[+ (Gst, sink p) +]} ⊆ m.

Lemma live_holds p m : live p -> base_ledger p ⊆ m -> holds p m.
Proof.
  intros (H1 & H2 & H3 & H4 & H5) Hm. unfold base_ledger in Hm.
  rewrite (own_singleton Gst (pipeline p)), (own_singleton Gst (rtc p)), (own_singleton Gst (source p)),
    (own_singleton Gst (sink p)) in Hm by done.
  repeat split; (etrans; [|exact Hm]); ledger_in.
Qed.

Lemma holds_same p p' m : same_peer p p' -> holds p m -> holds p' m.
Proof. unfold same_peer, holds. by intros (_ & -> & -> & -> & -> & _). Qed.

(** The outcome of an operation that may begin or end a promise. *)
Definition kept (p : AgentPeer) (m : ledger) (p' : AgentPeer) (l : ledger) : Prop :=
  same_peer p p' /\ l = m ⊎ promise_ledger p'.

Lemma owns_begin p field (m : ledger) (Q : Z * AgentPeer -> ledger -> Prop) :
  (operation p <> 0 -> Q (0, p) (m ⊎ promise_ledger p)) ->
  (forall p', operation p = 0 -> operation p' <> 0 -> description_field p' = field -> same_peer p p' ->
     Q (1, p') (m ⊎ promise_ledger p')) ->
  owns gst_law (begin_operation p field) (m ⊎ promise_ledger p) Q.
Proof.
  intros H0 H1. unfold begin_operation, promise_ledger in *.
  destruct (Z.eqb_spec (operation p) 0) as [Hp|Hp]; simpl; [|by apply H0].
  rewrite Hp, own_null. split; [multiset_solver|]. intros d Hd. split; [multiset_solver|].
  rewrite (own_singleton Mem d) by done. split; [multiset_solver|]. intros q Hq. split; [multiset_solver|].
  replace (_ ⊎ own Promise q) with (m ⊎ own Promise q) by multiset_solver.
  by apply (H1 (Peer _ _ _ _ _ _ q d field)).
Qed.

Lemma owns_create p offer (m : ledger) :
  holds p m ->
  owns gst_law (agent_peer_create_description p offer) (m ⊎ promise_ledger p)
    (fun a l => kept p m a.2 l /\ (a.1 = 0 \/ a.1 = 1) /\ (operation p <> 0 -> a = (0, p)) /\
       (operation p = 0 -> a.1 = 1 /\ operation a.2 <> 0)).
Proof.
  intros (_ & Hr & _). unfold agent_peer_create_description. apply owns_bind, owns_begin.
  - intros Hp. simpl. split_and!; auto; try done.
  - intros p' Hp Hp' _ Hs. pose proof Hs as (_ & _ & Hrtc & _).
    unfold promise_ledger. rewrite (own_singleton Promise (operation p')) by done. simpl. rewrite Hrtc.
    split; [by apply gmultiset_disj_union_mono|]. intros _ _. split; [multiset_solver|]. rewrite ledger_keep.
    split_and!; auto; try done. split; [done|]. unfold promise_ledger. by rewrite own_singleton.
Qed.

Lemma owns_set p sdp offer local (m : ledger) :
  holds p m ->
  owns gst_law (agent_peer_set_description p sdp offer local) (m ⊎ promise_ledger p)
    (fun a l => kept p m a.2 l /\ (a.1 = 0 \/ a.1 = 1) /\ (operation p <> 0 -> a = (0, p)) /\
       (a.1 = 0 -> a.2 = p) /\ (a.1 = 1 -> operation a.2 <> 0)).
Proof.
  intros (_ & Hr & _). unfold agent_peer_set_description.
  assert (forall l, l = m ⊎ promise_ledger p -> kept p m p l /\ (0 = 0 \/ 0 = 1) /\
    (operation p <> 0 -> (0, p) = (0, p)) /\ (0 = 0 -> p = p) /\ (0 = 1 -> operation p <> 0)) as Hno
    by (intros l ->; split_and!; auto; done).
  destruct (_ || _) eqn:Hg; [by apply Hno|].
  assert (operation p = 0) as Hp by lia.
  assert (promise_ledger p = ∅) as Hpl by (unfold promise_ledger; by rewrite Hp).
  rewrite Hpl in *. replace (m ⊎ ∅) with m in * by multiset_solver.
  simpl. split; [multiset_solver|]. intros [message|] Hm; (split; [multiset_solver|]); [|rewrite ledger_keep; by apply Hno].
  assert (message <> 0) by congruence.
  rewrite (own_singleton Gst message) by done.
  simpl. split; [multiset_solver|]. intros parsed _. split; [multiset_solver|].
  destruct parsed; simpl.
  2: { split; [multiset_solver|]. intros _ _. split; [multiset_solver|]. apply Hno. multiset_solver. }
  split; [multiset_solver|]. intros d Hd. split; [multiset_solver|].
  rewrite (own_singleton Gst d) by done.
  replace (_ ⊎ {[+ (Gst, d) +]}) with ((m ⊎ {[+ (Gst, d) +]}) ⊎ promise_ledger p : ledger)
    by (rewrite Hpl; multiset_solver).
  apply owns_bind, owns_begin; [done|]. intros p' _ Hp' _ Hs. pose proof Hs as (_ & _ & Hrtc & _).
  unfold promise_ledger. rewrite (own_singleton Promise (operation p')) by done. simpl. rewrite Hrtc.
  split; [apply gmultiset_disj_union_mono; [by apply gmultiset_disj_union_mono|done]|].
  intros _ _. split; [multiset_solver|]. rewrite ledger_keep.
  split; [multiset_solver|]. intros _ _. split; [multiset_solver|].
  split_and!; auto; try done. split; [done|]. unfold promise_ledger. rewrite own_singleton by done.
  multiset_solver.
Qed.

(** A settled result: -1 with no output, or a positive count with as many bytes. *)
Definition settled_result (capacity : Z) (a : Z * list byte) : Prop :=
  output_law capacity a /\ (a.1 = -1 /\ a.2 = [] \/ 0 < a.1).

Lemma settled_failed capacity : settled_result capacity (-1, []).
Proof. split; [|by left]. split; simpl; [unfold is_i32; lia|lia]. Qed.

Lemma owns_copy d capacity (m : ledger) (Q : Z * list byte -> ledger -> Prop) :
  (forall a, settled_result capacity a -> zlen a.2 <= 65536 -> Q a m) ->
  owns gst_law (copy_description d capacity) (m ⊎ own Gst d) Q.
Proof.
  intros HQ. unfold copy_description. destruct (Z.eqb_spec d 0) as [->|Hd].
  { rewrite own_null. replace (m ⊎ ∅) with m by multiset_solver. apply HQ; [by apply settled_failed|simpl; lia]. }
  rewrite own_singleton by done. simpl. split; [multiset_solver|]. intros [text bytes] (_ & _ & Hz).
  split; [multiset_solver|]. own_call.
  own_call.
  replace (_ ⊎ ∅) with m by multiset_solver.
  destruct (negb (_ =? 0) && _ && _) eqn:Hs; [|apply HQ; [by apply settled_failed|simpl; lia]].
  destruct (Z.eqb_spec text 0) as [->|Ht]; [by simpl in Hs|]. simpl in *.
  rewrite i32_id by (unfold is_i32; lia).
  apply HQ; [|simpl; lia]. split; [|right; simpl; lia]. split; simpl; [unfold is_i32; lia|lia].
Qed.

Lemma owns_read_reply p capacity (m : ledger) (Q : Z * list byte -> ledger -> Prop) :
  {[+ (Promise, operation p) +]} ⊆ m ->
  (forall a, settled_result capacity a -> Q a m) ->
  owns gst_law (read_reply p capacity) m Q.
Proof.
  intros Hp HQ. unfold read_reply. simpl. split; [done|]. intros reply _. split; [multiset_solver|].
  rewrite ledger_keep. apply owns_bind.
  assert (owns gst_law (if reply then call (gst_reply_has_error (operation p)) else Ret false) m
    (fun _ l => l = m)) as He.
  { destruct reply; [|done]. simpl. split; [done|]. intros r _. split; [multiset_solver|]. by rewrite ledger_keep. }
  eapply owns_mono; [apply He|]. intros error l ->.
  assert (owns gst_law (if negb (capacity =? 0) then Ret (1, [Byte.x00]) else Ret (-1, [])) m Q) as Hdone.
  { destruct (Z.eqb_spec capacity 0); simpl; apply HQ; [by apply settled_failed|].
    split; [|right; simpl; lia]. split; simpl; [unfold is_i32; lia|lia]. }
  destruct (negb reply || negb error); [|apply HQ; by apply settled_failed].
  destruct (description_field p) as [field|]; [|done]. destruct reply; [|done].
  simpl. split; [done|]. intros d _. split; [multiset_solver|].
  replace (m ∖ ∅ ⊎ own Gst d) with (m ⊎ own Gst d) by multiset_solver.
  apply owns_copy. intros a Ha _. by apply HQ.
Qed.

Lemma owns_operation p capacity (m : ledger) :
  owns gst_law (agent_peer_operation p capacity) (m ⊎ promise_ledger p)
    (fun a l => kept p m a.2 l /\
       ((a.1.1 = 0 /\ a.1.2 = [] /\ a.2 = p /\ operation p <> 0) \/
        (settled_result capacity a.1 /\ operation a.2 = 0 /\ (operation p = 0 -> a = (-1, [], p))))).
Proof.
  unfold agent_peer_operation.
  destruct (Z.eqb_spec (operation p) 0) as [Hp|Hp].
  { split; [by split|]. right. split_and!; [by apply settled_failed|done|done]. }
  unfold kept, promise_ledger. rewrite (own_singleton Promise (operation p)) by done.
  simpl. split; [multiset_solver|]. intros done_ _. split; [multiset_solver|]. rewrite ledger_keep.
  destruct (done_ =? 0); [split; [|by left]; split; [done|]; by rewrite own_singleton|].
  simpl. split; [multiset_solver|]. intros settled _. split; [multiset_solver|]. rewrite ledger_keep.
  apply owns_bind.
  assert (forall a, settled_result capacity a ->
    owns gst_law (let '(result, output) := a in call (gst_promise_unref (operation p));;
      Ret (result, output, clear_operation p)) (m ⊎ {[+ (Promise, operation p) +]})
    (fun a l => (same_peer p a.2 /\ l = m ⊎ own Promise (operation a.2)) /\
       ((a.1.1 = 0 /\ a.1.2 = [] /\ a.2 = p /\ operation p <> 0) \/
        (settled_result capacity a.1 /\ operation a.2 = 0 /\ (operation p = 0 -> a = (-1, [], p)))))) as Hend.
  { intros [r out] Ha. simpl. own_call.
    split; [split; [done|]; rewrite own_null; multiset_solver|]. by right. }
  destruct settled; [|by apply Hend, settled_failed].
  apply owns_read_reply; [multiset_solver|done].
Qed.

Lemma owns_local p capacity (m : ledger) :
  holds p m ->
  owns gst_law (agent_peer_local_description p capacity) m
    (fun a l => l = m /\ (a = (0, []) \/ settled_result capacity a)).
Proof.
  intros (_ & Hr & _). unfold agent_peer_local_description. simpl. split; [done|].
  intros complete _. split; [multiset_solver|]. rewrite ledger_keep. destruct complete; simpl; [|auto].
  split; [done|]. intros d _. split; [multiset_solver|].
  replace (m ∖ ∅ ⊎ own Gst d) with (m ⊎ own Gst d) by multiset_solver.
  apply owns_copy. auto.
Qed.

Lemma owns_push p pcm (m : ledger) :
  holds p m -> owns gst_law (agent_peer_push p pcm) m (fun r l => l = m /\ (r = 0 \/ r = 1)).
Proof.
  intros (_ & _ & Hs & _). unfold agent_peer_push. destruct (_ || _); [simpl; auto|]. simpl.
  split; [done|]. intros level _. split; [multiset_solver|]. rewrite ledger_keep.
  destruct (_ >? _); [simpl; auto|]. simpl. split; [multiset_solver|]. intros b _. split; [multiset_solver|].
  destruct (Z.eqb_spec b 0) as [->|Hb]; [rewrite own_null, ledger_keep; simpl; auto|].
  rewrite own_singleton by done. replace (_ ∖ _ ⊎ _) with (m ⊎ {[+ (Gst, b) +]} : ledger) by multiset_solver.
  own_call. own_call. split; [by apply gmultiset_disj_union_mono|]. intros pushed _.
  split; [multiset_solver|]. split; [multiset_solver|]. destruct pushed; auto.
Qed.

Lemma owns_pull p capacity (m : ledger) :
  holds p m ->
  owns gst_law (agent_peer_pull p capacity) m
    (fun a l => l = m /\ output_law capacity a /\ (0 < a.1 -> a.1 mod 2 = 0)).
Proof.
  intros (_ & _ & _ & Hs). unfold agent_peer_pull. simpl. split; [done|]. intros sample _.
  split; [multiset_solver|].
  assert (output_law capacity (0, []) /\ output_law capacity (-1, [])) as [Ho0 Ho1]
    by (split; split; simpl; unfold is_i32; lia).
  destruct (Z.eqb_spec sample 0) as [->|Hsm].
  { rewrite own_null, ledger_keep. simpl. split_and!; [done|apply Ho0|lia]. }
  rewrite own_singleton by done. replace (_ ∖ _ ⊎ _) with (m ⊎ {[+ (Gst, sample) +]} : ledger) by multiset_solver.
  simpl. split; [multiset_solver|]. intros b _. split; [multiset_solver|]. rewrite ledger_keep.
  assert (forall a, output_law capacity a -> (0 < a.1 -> a.1 mod 2 = 0) ->
    owns gst_law (let '(result, output) := a in call (gst_sample_unref sample);; Ret (result, output))
      (m ⊎ {[+ (Gst, sample) +]}) (fun a l => l = m /\ output_law capacity a /\ (0 < a.1 -> a.1 mod 2 = 0))) as Hend.
  { intros [r out] Ha He. simpl. own_call.
    split_and!; [multiset_solver|by apply Ha..|by apply He]. }
  apply owns_bind. destruct b as [b|]; [|by apply Hend].
  destruct (negb (_ =? 0) && _ && _) eqn:Hg; [|by apply Hend]. simpl.
  split; [multiset_solver|]. intros [n data] (Hz & Hle & _ & Hn). split; [multiset_solver|].
  rewrite ledger_keep. assert (0 < buffer_size b <= capacity) as Hb by (unfold buffer_size in *; lia).
  rewrite Hn in Hz by lia. apply Hend; simpl.
  - split; [apply i32_range|]. simpl. intros Hc. rewrite i32_id by (unfold is_i32; lia). lia.
  - intros _. apply i32_even. lia.
Qed.

(** ** Construction and release *)

(** Stopping a pipeline needs it and changes nothing. *)
Lemma owns_stop {B} pipe (k : unit -> prog GstCall B) (l : ledger) (Q : B -> ledger -> Prop) :
  own Gst pipe ⊆ l -> owns gst_law (k tt) l Q ->
  owns gst_law (mbind k (if negb (pipe =? 0)
    then call (gst_send_flush_start pipe);; call (gst_set_state_null pipe) else Ret tt)) l Q.
Proof.
  intros Hl Hk. apply owns_unless_null; [done|]. intros Hp. rewrite own_singleton in Hl by done.
  own_call. own_call. by destruct r0.
Qed.

Lemma owns_peer_free p (m : ledger) :
  owns gst_law (agent_peer_free (Some p)) (m ⊎ peer_ledger p) (fun _ l => l = m).
Proof.
  unfold agent_peer_free, peer_ledger, base_ledger, promise_ledger.
  replace (m ⊎ _) with (m ⊎ own Mem (peer_ptr p) ⊎ own Gst (pipeline p) ⊎ own Gst (sink p)
    ⊎ own Gst (source p) ⊎ own Gst (rtc p) ⊎ own Promise (operation p)) by multiset_solver.
  set (l := m ⊎ own Mem (peer_ptr p) ⊎ own Gst (pipeline p) ⊎ own Gst (sink p)
    ⊎ own Gst (source p) ⊎ own Gst (rtc p)).
  assert (forall k, owns gst_law (k tt) l (fun _ l => l = m) ->
    owns gst_law (mbind k (if negb (operation p =? 0)
      then call (gst_promise_interrupt (operation p));; call (gst_promise_unref (operation p)) else Ret tt))
      (l ⊎ own Promise (operation p)) (fun _ : unit => fun l => l = m)) as Hop.
  { intros k Hk. apply owns_unless_null.
    - intros ->. rewrite own_null. by replace (l ⊎ ∅) with l by multiset_solver.
    - intros Ho. rewrite own_singleton by done. own_call. own_call. destruct r0.
      by replace (_ ∖ _ ⊎ _) with l by multiset_solver. }
  apply Hop. apply owns_stop; [unfold l; ledger_in|]. unfold l. clear Hop l.
  apply owns_unref_opt. apply owns_unref_opt. apply owns_unref_opt. apply owns_unref_opt.
  own_call. multiset_solver.
Qed.

Lemma owns_peer_failed p error (m : ledger) :
  owns gst_law (peer_failed p error) (m ⊎ peer_ledger p ⊎ own Mem error) (fun a l => a = None /\ l = m).
Proof.
  unfold peer_failed. own_call. replace (_ ∖ _ ⊎ _) with (m ⊎ peer_ledger p) by multiset_solver.
  apply owns_bind. eapply owns_mono; [apply owns_peer_free|]. by intros _ l ->.
Qed.

Lemma owns_clear_object o (l : ledger) :
  owns gst_law (g_clear_object o) (l ⊎ own Gst o) (fun _ l' => l' = l).
Proof.
  unfold g_clear_object. destruct (Z.eqb_spec o 0) as [->|Ho]; simpl.
  - rewrite own_null. multiset_solver.
  - rewrite own_singleton by done. split; [multiset_solver|]. intros u _. split; multiset_solver.
Qed.

Lemma owns_ice_agent ice (l : ledger) :
  own Gst ice ⊆ l -> owns gst_law (ice_agent ice) l (fun a l' => l' = l ⊎ own Gst a).
Proof.
  intros Hl. unfold ice_agent. destruct (Z.eqb_spec ice 0) as [->|Hi]; simpl; [rewrite own_null; multiset_solver|].
  rewrite own_singleton in Hl by done. split; [done|]. intros has _. split; [multiset_solver|].
  rewrite ledger_keep. destruct has; simpl; [|rewrite own_null; multiset_solver].
  split; [done|]. intros a _. split; multiset_solver.
Qed.

Lemma owns_clear_upnp agent (l : ledger) :
  own Gst agent ⊆ l -> owns gst_law (clear_upnp agent) l (fun _ l' => l' = l).
Proof.
  intros Hl. unfold clear_upnp. destruct (Z.eqb_spec agent 0) as [->|Hi]; simpl; [done|].
  rewrite own_singleton in Hl by done. split; [done|]. intros has _. split; [multiset_solver|].
  rewrite ledger_keep. destruct has; simpl; [|done].
  split; [done|]. intros u _. split; multiset_solver.
Qed.

Lemma owns_disable_upnp rtc (l : ledger) :
  {[+ (Gst, rtc) +]} ⊆ l -> owns gst_law (disable_upnp rtc) l (fun _ l' => l' = l).
Proof.
  intros Hr. unfold disable_upnp. simpl. split; [done|]. intros ice _. split; [multiset_solver|].
  replace (l ∖ ∅ ⊎ own Gst ice) with (l ⊎ own Gst ice) by multiset_solver.
  apply owns_bind. eapply owns_mono; [apply owns_ice_agent, gmultiset_disj_union_subseteq_r|].
  intros agent l' ->. apply owns_bind.
  eapply owns_mono; [apply owns_clear_upnp, gmultiset_disj_union_subseteq_r|].
  intros _ l' ->. apply owns_bind. eapply owns_mono; [apply owns_clear_object|].
  intros _ l' ->. apply owns_clear_object.
Qed.
Arguments base_ledger : simpl never.
Arguments peer_ledger : simpl never.

(** The ledger of a structure under construction grows by one field at a time. *)
Lemma peer_ledger_fresh ptr pipe : peer_ledger (Peer ptr pipe 0 0 0 0 0 0 None) = own Mem ptr ⊎ own Gst pipe.
Proof. unfold peer_ledger, base_ledger, promise_ledger. simpl. rewrite !own_null. multiset_solver. Qed.
Lemma peer_ledger_rtc ptr pipe rtc :
  peer_ledger (Peer ptr pipe rtc 0 0 0 0 0 None) = own Mem ptr ⊎ own Gst pipe ⊎ own Gst rtc.
Proof. unfold peer_ledger, base_ledger, promise_ledger. simpl. rewrite !own_null. multiset_solver. Qed.
Lemma peer_ledger_source ptr pipe rtc source :
  peer_ledger (Peer ptr pipe rtc source 0 0 0 0 None) = own Mem ptr ⊎ own Gst pipe ⊎ own Gst rtc ⊎ own Gst source.
Proof. unfold peer_ledger, base_ledger, promise_ledger. simpl. rewrite !own_null. multiset_solver. Qed.
Lemma peer_ledger_sink ptr pipe rtc source sink recv :
  peer_ledger (Peer ptr pipe rtc source sink recv 0 0 None) =
  own Mem ptr ⊎ own Gst pipe ⊎ own Gst rtc ⊎ own Gst source ⊎ own Gst sink.
Proof. unfold peer_ledger, base_ledger, promise_ledger. simpl. rewrite !own_null. multiset_solver. Qed.

(** What [agent_peer_new] leaves: nothing, or a live peer with no operation. *)
Definition new_peer (a : option AgentPeer) (l : ledger) : Prop :=
  match a with
  | None => l = ∅
  | Some p => live p /\ operation p = 0 /\ l = peer_ledger p
  end.

Lemma owns_failed_at p error (l : ledger) :
  l = peer_ledger p ⊎ own Mem error -> owns gst_law (peer_failed p error) l new_peer.
Proof.
  intros ->. replace (_ ⊎ own Mem error) with (∅ ⊎ peer_ledger p ⊎ own Mem error) by multiset_solver.
  eapply owns_mono; [apply owns_peer_failed|]. by intros a l [-> ->].
Qed.

#[local] Opaque disable_upnp peer_failed peer_ledger.
Lemma owns_peer_new : owns gst_law agent_peer_new ∅ new_peer.
Proof.
  unfold agent_peer_new. own_call. destruct r; simpl; [|done].
  split; [multiset_solver|]. intros ptr Hptr. split; [multiset_solver|].
  split; [multiset_solver|]. intros [pipe error] _. split; [multiset_solver|].
  replace (_ ⊎ (own Gst pipe ⊎ own Mem error)) with
    (peer_ledger (Peer ptr pipe 0 0 0 0 0 0 None) ⊎ own Mem error) by (rewrite peer_ledger_fresh; multiset_solver).
  destruct (negb (error =? 0) || (pipe =? 0)) eqn:Hbad; [by apply owns_failed_at|].
  assert (error = 0 /\ pipe <> 0) as [-> Hpipe] by lia. clear Hbad.
  rewrite peer_ledger_fresh, own_null, (own_singleton Gst pipe) by done. clear Hlaw.
  simpl. split; [multiset_solver|]. intros rtc Hrtc. split; [multiset_solver|].
  rewrite (own_singleton Gst rtc) by done.
  replace (_ ⊎ {[+ (Gst, rtc) +]}) with (own Mem ptr ⊎ {[+ (Gst, pipe) +]} ⊎ {[+ (Gst, rtc) +]} : ledger)
    by multiset_solver.
  apply owns_bind. eapply owns_mono; [apply owns_disable_upnp; multiset_solver|]. intros _ l ->.
  simpl. split; [multiset_solver|]. intros source Hsource. split; [multiset_solver|].
  simpl. split; [multiset_solver|]. intros [recv error] _. split; [multiset_solver|].
  replace (_ ⊎ (own Gst recv ⊎ own Mem error)) with
    (peer_ledger (Peer ptr pipe rtc source 0 0 0 0 None) ⊎ own Mem error ⊎ own Gst recv)
    by (rewrite peer_ledger_source, (own_singleton Gst pipe), (own_singleton Gst rtc) by done; multiset_solver).
  destruct (negb (error =? 0) || (recv =? 0)) eqn:Hbad.
  { apply owns_unref_opt. by apply owns_failed_at. }
  assert (error = 0 /\ recv <> 0) as [-> Hrecv] by lia. clear Hbad.
  rewrite peer_ledger_source, own_null, (own_singleton Gst recv) by done.
  simpl. split; [multiset_solver|]. intros sink Hsink. split; [multiset_solver|].
  replace (_ ∖ ∅ ⊎ own Gst sink) with
    (peer_ledger (Peer ptr pipe rtc source sink recv 0 0 None) ⊎ {[+ (Gst, recv) +]})
    by (rewrite peer_ledger_sink; multiset_solver).
  assert ({[+ (Gst, pipe) +]} ⊆ peer_ledger (Peer ptr pipe rtc source sink recv 0 0 None) /\
          {[+ (Gst, rtc) +]} ⊆ peer_ledger (Peer ptr pipe rtc source sink recv 0 0 None)) as [Hin1 Hin2].
  { rewrite peer_ledger_sink, <- (own_singleton Gst pipe), <- (own_singleton Gst rtc) by done.
    split; ledger_in. }
  simpl. split; [by apply gmultiset_disj_union_mono|]. intros added _. split; [destruct added; multiset_solver|].
  destruct added; simpl.
  - replace (_ ∖ _ ⊎ _) with (peer_ledger (Peer ptr pipe rtc source sink recv 0 0 None)) by multiset_solver.
    own_call. split; [done|]. intros playing _. split; [multiset_solver|].
    destruct playing; simpl; [split_and!; done|]. apply owns_failed_at. rewrite own_null. multiset_solver.
  - rewrite ledger_keep. own_call. apply owns_failed_at. rewrite own_null.
    rewrite !peer_ledger_sink. multiset_solver.
Qed.
#[local] Transparent disable_upnp peer_failed peer_ledger.

(** ** Peers shared with streaming threads *)

Definition no_state (s : unit) : Prop := True.
Definition no_ledger (s : unit) : ledger := ∅.

Section safety.
Context (J : Z -> Prop) (HJ : J 1).
Abbreviation peer_safe := (safe gst_law no_state no_ledger J).

Lemma peer_set_failed_safe held (l : ledger) (Q : unit -> option unit -> ledger -> Prop) :
  Q tt held l -> peer_safe set_failed held l Q.
Proof. intros HQ a Ha. by split. Qed.

Lemma incoming_safe p pad (l : ledger) (Q : unit -> option unit -> ledger -> Prop) :
  {[+ (Gst, pad) +]} ⊆ l -> {[+ (Gst, receiver p) +]} ⊆ l ->
  Q tt None l -> peer_safe (incoming p pad) None l Q.
Proof.
  intros Hpad Hrecv HQ. unfold incoming. simpl. split; [done|]. intros r _. split; [multiset_solver|].
  rewrite ledger_keep. destruct r; simpl; [|done].
  split; [done|]. intros target Ht. split; [multiset_solver|].
  rewrite own_singleton by done. replace (l ∖ ∅ ⊎ _) with (l ⊎ {[+ (Gst, target) +]} : ledger) by multiset_solver.
  assert (forall u : unit, peer_safe (tcall (gst_object_unref target)) None (l ⊎ {[+ (Gst, target) +]}) Q) as Hend.
  { intros _. safe_call. destruct r. by replace (_ ∖ _ ⊎ _) with l by multiset_solver. }
  safe_call. apply safe_bind. destruct r.
  - apply peer_set_failed_safe, (Hend tt).
  - simpl. split; [by apply gmultiset_disj_union_mono|]. intros ok _. split; [multiset_solver|].
    rewrite ledger_keep. destruct ok; [apply (Hend tt)|]. apply peer_set_failed_safe, (Hend tt).
Qed.

Lemma peer_state_safe p (m : ledger) (Q : Z -> option unit -> ledger -> Prop) :
  holds p m -> Q (-1) None m -> ((forall a, J a -> a <> 0) \/ Q 0 None m /\ Q 1 None m) ->
  peer_safe (agent_peer_state p) None m Q.
Proof.
  intros (Hp & Hr & _) HQ1 HQ. unfold agent_peer_state. safe_call. rename r into bus. simpl in Hlaw.
  rewrite own_singleton by done. replace (m ∖ ∅ ⊎ _) with (m ⊎ {[+ (Gst, bus) +]} : ledger) by multiset_solver.
  simpl. split; [multiset_solver|]. intros error _. split; [multiset_solver|].
  apply safe_bind.
  assert (forall u : unit, peer_safe
    (tcall (gst_object_unref bus);; failed ← get_failed;
     if negb (failed =? 0) then TRet (-1) else
     state ← tcall (get_connection_state (rtc p));
     TRet match state with
          | ConnFailed | ConnClosed | ConnDisconnected => -1
          | ConnConnected => 1
          | ConnNew | ConnConnecting => 0
          end) None (m ⊎ {[+ (Gst, bus) +]}) Q) as Hend.
  { intros _. safe_call. replace (_ ∖ _ ⊎ _) with m by multiset_solver. intros a Ha. split; [done|].
    destruct (Z.eqb_spec a 0) as [->|Ha0]; simpl; [|done].
    destruct HQ as [HQ|[HQ2 HQ3]]; [by destruct (HQ 0)|].
    split; [done|]. intros state _. split; [multiset_solver|]. rewrite ledger_keep. by destruct state. }
  destruct (Z.eqb_spec error 0) as [->|He]; simpl.
  - rewrite own_null, ledger_keep. apply (Hend tt).
  - rewrite own_singleton by done. intros a Ha. split; [done|].
    split; [multiset_solver|]. intros u _. split; [multiset_solver|].
    replace (_ ∖ {[+ (Gst, error) +]} ⊎ ∅) with (m ⊎ {[+ (Gst, bus) +]} : ledger) by multiset_solver.
    apply (Hend u).
Qed.
End safety.

(** The caller's operations, as peer.h declares them. *)
Inductive peer_op :=
  | PeerCreate (offer : bool)
  | PeerSet (sdp : list byte) (offer local : bool)
  | PeerOperation (capacity : Z)
  | PeerLocal (capacity : Z)
  | PeerState
  | PeerPush (pcm : list byte)
  | PeerPull (capacity : Z).

Definition peer_run (p : AgentPeer) (op : peer_op) : peer_thread (Z * list byte * AgentPeer) :=
  match op with
  | PeerCreate offer => '(r, p) ← local (agent_peer_create_description p offer); TRet (r, [], p)
  | PeerSet sdp offer local_ => '(r, p) ← local (agent_peer_set_description p sdp offer local_); TRet (r, [], p)
  | PeerOperation capacity => local (agent_peer_operation p capacity)
  | PeerLocal capacity => '(r, out) ← local (agent_peer_local_description p capacity); TRet (r, out, p)
  | PeerState => r ← agent_peer_state p; TRet (r, [], p)
  | PeerPush pcm => r ← local (agent_peer_push p pcm); TRet (r, [], p)
  | PeerPull capacity => '(r, out) ← local (agent_peer_pull p capacity); TRet (r, out, p)
  end.

(** What each may answer; [healthy] when [failed] is not known to be set. *)
Definition peer_answer (healthy : bool) (op : peer_op) (a : Z * list byte) : Prop :=
  match op with
  | PeerCreate _ | PeerSet _ _ _ | PeerPush _ => a = (0, []) \/ a = (1, [])
  | PeerOperation capacity | PeerLocal capacity => a = (0, []) \/ settled_result capacity a
  | PeerState => a = (-1, []) \/ healthy = true /\ (a = (0, []) \/ a = (1, []))
  | PeerPull capacity => output_law capacity a /\ (0 < a.1 -> a.1 mod 2 = 0)
  end.

Lemma peer_run_safe J healthy p op (m : ledger) :
  J 1 -> (healthy = false -> forall a, J a -> a <> 0) -> holds p m ->
  safe gst_law no_state no_ledger J (peer_run p op) None (m ⊎ promise_ledger p)
    (ends (fun a l => kept p m a.2 l /\ peer_answer healthy op a.1)).
Proof.
  intros HJ Hh Hm. assert (holds p (m ⊎ promise_ledger p)) as Hmp.
  { unfold holds in *. destruct Hm as (H1 & H2 & H3 & H4).
    repeat split; (etrans; [eassumption|apply gmultiset_disj_union_subseteq_l]). }
  destruct op as [offer|sdp offer loc|capacity|capacity| |pcm|capacity]; cbn [peer_run];
    try apply safe_bind.
  - apply safe_local; [by right|]. eapply owns_mono; [by apply owns_create|].
    intros [r p'] l (Hk & Hr & _). simpl in *. split_and!; [done|exact Hk|]. destruct Hr as [->| ->]; auto.
  - apply safe_local; [by right|]. eapply owns_mono; [by apply owns_set|].
    intros [r p'] l (Hk & Hr & _). simpl in *. split_and!; [done|exact Hk|]. destruct Hr as [->| ->]; auto.
  - apply safe_local; [by right|]. eapply owns_mono; [by apply owns_operation|].
    intros [[r out] p'] l (Hk & Hr). simpl in *. split_and!; [done|exact Hk|].
    destruct Hr as [(-> & -> & _)|[Hr _]]; auto.
  - apply safe_local; [by right|]. eapply owns_mono; [by apply owns_local|].
    intros [r out] l [-> Hr]. simpl. split_and!; [done|done|]. destruct Hr as [[= -> ->]|Hr]; auto.
  - apply peer_state_safe; [done|done| |]; [simpl; split_and!; [done|done|auto]|].
    destruct healthy; [right|left; auto]. split; simpl; (split_and!; [done|done|auto]).
  - apply safe_local; [by right|]. eapply owns_mono; [by apply owns_push|].
    intros r l [-> Hr]. simpl. split_and!; [done|done|]. destruct Hr as [->| ->]; auto.
  - apply safe_local; [by right|]. eapply owns_mono; [by apply owns_pull|].
    intros [r out] l (-> & Ho & He). simpl. by split_and!.
Qed.

(** The caller's thread and the handlers of added pads. *)
Fixpoint peer_calls (p : AgentPeer) (ops : list peer_op) : peer_thread (list (Z * list byte) * AgentPeer) :=
  match ops with
  | [] => TRet ([], p)
  | op :: ops => '(r, out, p) ← peer_run p op; '(rs, p) ← peer_calls p ops; TRet ((r, out) :: rs, p)
  end.
Definition peer_handler (p : AgentPeer) (pad : Z) : peer_thread (list (Z * list byte) * AgentPeer) :=
  incoming p pad;; TRet ([], p).

Lemma peer_calls_safe J healthy p ops (m : ledger) :
  J 1 -> (healthy = false -> forall a, J a -> a <> 0) -> holds p m ->
  safe gst_law no_state no_ledger J (peer_calls p ops) None (m ⊎ promise_ledger p)
    (ends (fun a l => kept p m a.2 l /\ Forall2 (peer_answer healthy) ops a.1)).
Proof.
  intros HJ Hh. revert p. induction ops as [|op ops IH]; intros p Hm; [by split_and!|]. cbn [peer_calls].
  apply safe_bind. eapply safe_mono; [by apply peer_run_safe|].
  intros [[r out] p1] h l (-> & [Hs ->] & Ha). simpl in *.
  apply safe_bind. eapply safe_mono; [apply IH; by eapply holds_same|].
  intros [rs p2] h l (-> & [Hs2 ->] & Has). simpl in *. split_and!; [done| |by constructor].
  split; [|done]. simpl. unfold same_peer in *. intuition congruence.
Qed.

Definition peer_system (p : AgentPeer) (ops : list peer_op) (pads : list Z) (failed : Z)
    : system GstCall unit Z (list (Z * list byte) * AgentPeer) :=
  System (peer_calls p ops :: map (peer_handler p) pads) tt failed None.

(** What an emission of "pad-added" lends its handler: the pad, and the receiver, which is kept by
    the pipeline that it was added to. *)
Definition pad_emission (p : AgentPeer) (pad : Z) : ledger := {[+ (Gst, pad) +]} ⊎ {[+ (Gst, receiver p) +]}.
Definition lent (p : AgentPeer) (pads : list Z) : ledger := ledger_sum (map (pad_emission p) pads).

Lemma peer_handler_safe J p pad :
  J 1 -> safe gst_law no_state no_ledger J (peer_handler p pad) None (pad_emission p pad)
    (ends (fun _ l => l = pad_emission p pad)).
Proof. intros HJ. unfold pad_emission. apply safe_bind, incoming_safe; [done|multiset_solver..|]. by split. Qed.

Lemma peer_system_ok J healthy p ops pads failed :
  J 1 -> (healthy = false -> forall a, J a -> a <> 0) -> J failed -> live p ->
  system_ok gst_law no_state no_ledger J (peer_system p ops pads failed)
    ((fun a l => kept p (base_ledger p) a.2 l /\ Forall2 (peer_answer healthy) ops a.1)
       :: map (fun pad _ l => l = pad_emission p pad) pads)
    (peer_ledger p ⊎ lent p pads).
Proof.
  intros HJ Hh Hf Hlive.
  replace (peer_ledger p ⊎ lent p pads) with
    (ledger_sum (peer_ledger p :: map (pad_emission p) pads) ⊎ no_ledger tt).
  2: { change (ledger_sum (?x :: ?y)) with (x ⊎ ledger_sum y). unfold no_ledger, lent. multiset_solver. }
  apply system_ok_init; [done|done|simpl; by rewrite !length_map|].
  intros [|i] t l Ht Hl; simpl in *.
  - simplify_eq. eexists. split; [done|]. apply peer_calls_safe; [done|done|]. by apply live_holds.
  - rewrite list_lookup_fmap in Ht. rewrite list_lookup_fmap in Hl. rewrite list_lookup_fmap.
    destruct (pads !! i) as [pad|]; simplify_eq/=. eexists. split; [done|].
    exact (peer_handler_safe J p pad HJ).
Qed.

(** ** Properties *)

Definition demo_peer : AgentPeer := Peer 1000 1002 1004 1004 1004 1003 0 0 None.

(** C16: a peer is safe next to its streaming threads.  Let one caller perform any operations on
    a live peer while any number of pads are added by streaming threads, in any interleaving
    and whatever GStreamer answers.  Then nothing is used after release or released twice, the
    pads of the handlers, the receiver and the sink pads among them, no deadlock arises, and when
    all have returned every operation has answered as peer.h documents (a count never exceeds
    the buffer and is exactly the number of bytes stored), and what is owned is the peer itself
    with its outstanding operation, if any, and what the emissions lent: nothing has leaked. *)
Theorem peer_threads_safe p ops pads failed tr s :
  steps (peer_system p ops pads failed) tr s -> Forall (lawful gst_law) tr -> live p ->
  ~ deadlocked s /\
  exists l, audit tr (peer_ledger p ⊎ lent p pads) = Some l /\
    ((forall t, t ∈ pool s -> finished t) ->
       exists rs p', pool s !! 0%nat = Some (TRet (rs, p')) /\ Forall2 (peer_answer true) ops rs /\
         same_peer p p' /\ l = peer_ledger p' ⊎ lent p pads).
Proof.
  intros Hs Hl Hlive.
  assert (system_ok gst_law no_state no_ledger (fun _ => True) (peer_system p ops pads failed)
    ((fun a l => kept p (base_ledger p) a.2 l /\ Forall2 (peer_answer true) ops a.1)
       :: map (fun pad _ l => l = pad_emission p pad) pads)
    (peer_ledger p ⊎ lent p pads)) as Hok by (by apply peer_system_ok).
  destruct (system_ok_steps _ _ _ _ _ _ _ _ _ Hok Hs Hl) as (l & Ha & Hok').
  split; [by eapply system_ok_no_deadlock|]. exists l. split; [done|]. intros Hfin.
  destruct (system_ok_finished _ _ _ _ _ _ _ Hok' Hfin) as (_ & _ & ls & Hlen & -> & HQ).
  apply steps_pool_length in Hs. simpl in Hs. rewrite length_map in Hs.
  destruct (pool s) as [|t ts] eqn:Hpool; [done|]. destruct ls as [|l0 ls]; [done|].
  destruct (Hfin t) as [[rs p'] ->]; [by apply list_elem_of_here|].
  destruct (HQ 0%nat _ _ eq_refl eq_refl) as (Q & [= <-] & [Hsame ->] & Hans). simpl in *.
  exists rs, p'. split_and!; [done|done|done|].
  assert (ls = map (pad_emission p) pads) as ->.
  { injection Hlen as Hlen. injection Hs as Hs. apply list_eq_same_length with (n := length pads);
      [by rewrite length_map|lia|].
    intros i l l' Hi Hl1 Hl2. rewrite list_lookup_fmap in Hl2.
    destruct (lookup_lt_is_Some_2 ts i) as [t' Ht]; [lia|].
    destruct (Hfin t') as [x ->]; [apply list_elem_of_further; by eapply list_elem_of_lookup_2|].
    destruct (HQ (S i) _ _ Ht Hl1) as (Q & HQi & HQx). simpl in HQi. rewrite list_lookup_fmap in HQi.
    by destruct (pads !! i); simplify_eq/=. }
  change (ledger_sum (?x :: ?y)) with (x ⊎ ledger_sum y). fold (lent p pads). unfold peer_ledger.
  rewrite (same_peer_base p p') by done. unfold no_ledger. multiset_solver.
Qed.

Definition peer_demo_run :=
  run_schedule gst_demo (replicate 60 0%nat ++ replicate 20 1%nat)
    (peer_system demo_peer [PeerCreate true; PeerOperation 100; PeerPull 8] [7] 0) [[Byte.x01; Byte.x02]].

Lemma peer_threads_safe_witness :
  ~ deadlocked peer_demo_run.1.1 /\
  pool peer_demo_run.1.1 !! 0%nat =
    Some (TRet ([(1, []); (1, [Byte.x76]); (2, [Byte.x01; Byte.x02])],
                Peer 1000 1002 1004 1004 1004 1003 0 0 (Some FieldOffer))).
Proof.
  split; [|vm_compute; reflexivity].
  refine (proj1 (peer_threads_safe demo_peer [PeerCreate true; PeerOperation 100; PeerPull 8] [7] 0
    peer_demo_run.2 peer_demo_run.1.1 _ _ _)).
  - apply run_schedule_steps.
  - apply run_schedule_lawful, gst_demo_lawful.
  - split_and!; discriminate.
Defined.

(** A peer that has failed stays failed.  Once [failed] is set, by a pad that could not be
    linked or an error on the bus, it stays set under every interleaving, and every later poll
    of the state reports -1. *)
Theorem peer_fails_closed p ops pads failed tr s rs p' :
  steps (peer_system p ops pads failed) tr s -> Forall (lawful gst_law) tr -> live p -> failed <> 0 ->
  atomics s <> 0 /\
  (pool s !! 0%nat = Some (TRet (rs, p')) ->
   Forall2 (fun op r => op = PeerState -> r = (-1, [])) ops rs).
Proof.
  intros Hs Hl Hlive Hf.
  assert (system_ok gst_law no_state no_ledger (fun a => a <> 0) (peer_system p ops pads failed)
    ((fun a l => kept p (base_ledger p) a.2 l /\ Forall2 (peer_answer false) ops a.1)
       :: map (fun pad _ l => l = pad_emission p pad) pads)
    (peer_ledger p ⊎ lent p pads)) as Hok by (by apply peer_system_ok).
  destruct (system_ok_steps _ _ _ _ _ _ _ _ _ Hok Hs Hl) as (l & _ & ls & Hlen & _ & _ & HJ & _ & Hall).
  split; [done|]. intros Hp.
  destruct (lookup_lt_is_Some_2 ls 0) as [l0 Hl0]; [rewrite Hlen; by eapply lookup_lt_Some|].
  destruct (Hall _ _ _ Hp Hl0) as (Q & [= <-] & _ & _ & Hans). simpl in Hans.
  revert Hans. apply Forall2_impl. intros op r Hr ->. simpl in Hr. by destruct Hr as [?|[? _]].
Qed.

Lemma peer_fails_closed_witness :
  let run := run_schedule gst_demo (replicate 20 0%nat) (peer_system demo_peer [PeerState] [] 1) [] in
  atomics run.1.1 <> 0.
Proof.
  intros run.
  apply (peer_fails_closed demo_peer [PeerState] [] 1 run.2 run.1.1 [(-1, [])] demo_peer).
  - apply run_schedule_steps.
  - apply run_schedule_lawful, gst_demo_lawful.
  - split_and!; discriminate.
  - discriminate.
Defined.

(** Constructing and freeing a peer balance.  Whatever GStreamer answers, a failed
    [agent_peer_new], wherever it fails, leaves nothing owned; a successful one leaves a peer
    with all its elements and no operation; and [agent_peer_free], on any peer in any state,
    interrupts and releases the outstanding operation, stops the pipeline and releases each
    reference and the structure exactly once. *)
Theorem agent_peer_balanced tr a :
  traces agent_peer_new tr (Some a) -> Forall (lawful gst_law) tr ->
  audit tr ∅ = Some (match a with None => ∅ | Some p => peer_ledger p end) /\
  match a with None => True | Some p => live p /\ operation p = 0 end /\
  forall p tr' o, traces (agent_peer_free (Some p)) tr' (Some o) -> Forall (lawful gst_law) tr' ->
    audit tr' (peer_ledger p) = Some ∅.
Proof.
  intros Ht Hl. destruct (owns_sound _ _ _ _ _ _ owns_peer_new Ht Hl) as (l & Ha & HQ).
  specialize (HQ _ eq_refl). rewrite Ha. split_and!.
  - destruct a as [p|]; simpl in HQ; [by destruct HQ as (_ & _ & ->)|by subst].
  - destruct a as [p|]; [|done]. by destruct HQ as (? & ? & _).
  - intros p tr' o Ht' Hl'. pose proof (owns_peer_free p ∅) as Hfree.
    replace (∅ ⊎ peer_ledger p) with (peer_ledger p) in Hfree by multiset_solver.
    destruct (owns_sound _ _ _ _ _ _ Hfree Ht' Hl') as (l' & -> & HQ'). by rewrite (HQ' _ eq_refl).
Qed.

Lemma agent_peer_balanced_witness :
  exec_value gst_demo agent_peer_new [] = Some (Some demo_peer) /\
  audit (exec_trace gst_demo agent_peer_new []) ∅ = Some (peer_ledger demo_peer).
Proof.
  assert (exec_value gst_demo agent_peer_new [] = Some (Some demo_peer)) as Hv by (vm_compute; reflexivity).
  split; [exact Hv|].
  apply (agent_peer_balanced (exec_trace gst_demo agent_peer_new []) (Some demo_peer)).
  - rewrite <- Hv. apply exec_traces.
  - apply exec_lawful, gst_demo_lawful.
Defined.

(** One signalling operation at a time, completed once.  On a live peer,
    [agent_peer_operation] answers -1 when none is outstanding, answers 0 and leaves it
    outstanding while its promise is unsettled, and otherwise answers -1 or the number of bytes
    it stored and releases it; while one is outstanding, beginning another is refused without a
    call; once it is released the next one begins. *)
Theorem agent_peer_one_operation p capacity tr r out p' :
  traces (agent_peer_operation p capacity) tr (Some (r, out, p')) -> Forall (lawful gst_law) tr ->
  live p ->
  (operation p = 0 -> tr = [] /\ r = -1 /\ p' = p) /\
  (r = 0 -> out = [] /\ p' = p /\ operation p <> 0) /\
  (r <> 0 -> operation p' = 0 /\ settled_result capacity (r, out)) /\
  forall offer tr' r' p'', traces (agent_peer_create_description p' offer) tr' (Some (r', p'')) ->
    Forall (lawful gst_law) tr' ->
    (operation p' <> 0 -> tr' = [] /\ r' = 0 /\ p'' = p') /\
    (operation p' = 0 -> r' = 1 /\ operation p'' <> 0).
Proof.
  intros Ht Hl Hlive.
  destruct (owns_sound _ _ _ _ _ _ (owns_operation p capacity (base_ledger p)) Ht Hl) as (l & _ & HQ).
  destruct (HQ _ eq_refl) as [[Hsame _] Hr]. simpl in *. clear HQ.
  split_and!.
  - intros Hp. unfold agent_peer_operation in Ht. rewrite Hp in Ht. by destruct Ht as [-> [= -> -> ->]].
  - intros ->. destruct Hr as [(_ & -> & -> & Hp)|([_ [[[=] _]|Hpos]] & _)]; [done|simpl in Hpos; lia].
  - intros Hr0. by destruct Hr as [(? & _)|(Hset & Hp & _)].
  - intros offer tr' r' p'' Ht' Hl'.
    assert (holds p' (base_ledger p')) as Hh by (by apply live_holds; [eapply same_peer_live|]).
    destruct (owns_sound _ _ _ _ _ _ (owns_create p' offer (base_ledger p') Hh) Ht' Hl') as (l' & _ & HQ').
    destruct (HQ' _ eq_refl) as (_ & _ & Hno & Hyes). split; [|by apply Hyes].
    intros Hp. unfold agent_peer_create_description, begin_operation in Ht'.
    rewrite (proj2 (Z.eqb_neq _ _) Hp) in Ht'. by destruct Ht' as [-> [= -> ->]].
Qed.

Lemma agent_peer_one_operation_witness :
  let p := Peer 1000 1002 1004 1004 1004 1003 1009 1000 (Some FieldAnswer) in
  let p' := Peer 1000 1002 1004 1004 1004 1003 0 0 (Some FieldAnswer) in
  operation p' = 0 /\ settled_result 100 (1, [Byte.x76]).
Proof.
  intros p p'.
  apply (agent_peer_one_operation p 100 (exec_trace gst_demo (agent_peer_operation p 100) []) 1 [Byte.x76] p').
  - assert (exec_value gst_demo (agent_peer_operation p 100) [] = Some (1, [Byte.x76], p')) as <-
      by (vm_compute; reflexivity).
    apply exec_traces.
  - apply exec_lawful, gst_demo_lawful.
  - split_and!; discriminate.
  - discriminate.
Defined.

(** A push queues exactly the caller's samples, within bounds.  A push succeeds only by
    handing the source one buffer that holds the caller's bytes, whole 16-bit samples, at most
    24,000 bytes, timed at 24 kHz, and only when the source then holds at most 48,000 bytes;
    in every other case nothing is handed over, or the source refused it. *)
Theorem agent_peer_push_exact p pcm tr r :
  traces (agent_peer_push p pcm) tr (Some r) -> Forall (lawful gst_law) tr -> zlen pcm < 2 ^ 63 ->
  (r = 1 /\ exists level b,
     tr = [Event (gst_app_src_level (source p)) level; Event (gst_buffer_new_allocate (zlen pcm)) b;
           Event (gst_buffer_fill b pcm) tt;
           Event (gst_buffer_set_duration b (zlen pcm / 2 * 1000000000 / 24000)) tt;
           Event (gst_app_src_push_buffer (source p) b) true] /\
     0 < zlen pcm <= 24000 /\ zlen pcm mod 2 = 0 /\ level + zlen pcm <= 48000) \/
  (r = 0 /\ forall b, Event (gst_app_src_push_buffer (source p) b) true ∉ tr).
Proof.
  unfold agent_peer_push. intros Ht Hl Hsize.
  assert (forall tr' : list (event GstCall), tr' = [] -> forall b, Event (gst_app_src_push_buffer (source p) b) true ∉ tr') as Hnil
    by (intros tr' -> b; apply not_elem_of_nil).
  destruct (_ || _) eqn:Hg; [right; destruct Ht as [-> [= ->]]; split; [done|by apply Hnil]|].
  destruct Ht as (level & tr1 & -> & Ht). apply Forall_cons_1 in Hl as [Hlevel Hl].
  unfold lawful in Hlevel. simpl in Hlevel, Ht. rewrite u64_id in Ht by lia.
  destruct (Z.gtb_spec (level + zlen pcm) 48000) as [Hb|Hb].
  { right. destruct Ht as [-> [= ->]]. split; [done|]. intros b. rewrite list_elem_of_singleton. discriminate. }
  destruct Ht as (b & tr2 & -> & Ht). simpl in Ht. destruct (b =? 0).
  { right. destruct Ht as [-> [= ->]]. split; [done|]. intros b'. rewrite !elem_of_cons.
    intros [[=]|[[=]|H]]. by apply elem_of_nil in H. }
  destruct Ht as ([] & tr3 & -> & [] & tr4 & -> & pushed & tr5 & -> & -> & [= ->]).
  destruct pushed; [left|right].
  - split; [done|]. exists level, b. split_and!; [done|lia|lia|lia|lia].
  - split; [done|]. intros b'. rewrite !elem_of_cons. intros [[=]|[[=]|[[=]|[[=]|[H|H]]]]].
    + apply (f_equal (fun ev => match ev_call ev in GstCall R return R -> bool with
        gst_app_src_push_buffer _ _ => fun a => a | _ => fun _ => false end (ev_answer ev))) in H. done.
    + by apply elem_of_nil in H.
Qed.

Lemma agent_peer_push_exact_witness :
  exists level b, exec_trace gst_demo (agent_peer_push demo_peer [Byte.x01; Byte.x02]) [] =
    [Event (gst_app_src_level 1004) level; Event (gst_buffer_new_allocate 2) b;
     Event (gst_buffer_fill b [Byte.x01; Byte.x02]) tt; Event (gst_buffer_set_duration b 41666) tt;
     Event (gst_app_src_push_buffer 1004 b) true].
Proof.
  destruct (agent_peer_push_exact demo_peer [Byte.x01; Byte.x02]
    (exec_trace gst_demo (agent_peer_push demo_peer [Byte.x01; Byte.x02]) []) 1)
    as [[_ (level & b & Htr & _)]|[H _]].
  - run_with gst_demo ([] : list (list byte)).
  - apply exec_lawful, gst_demo_lawful.
  - vm_compute; reflexivity.
  - exists level, b. exact Htr.
  - discriminate H.
Defined.
