(* ===== verification/Runtime.v ===== *)
(** * The bridge runtime (agent-native-bridge/cbits/HaskellAgentBridgeRuntime.c)

    One GHC runtime per process, started either by the command line entry point [ha_cli_main],
    which then owns the process, or by the first of any number of [ha_runtime_init] calls.
    The three static variables are guarded by [runtime_lock]. *)

From stdpp Require Import base tactics option list gmap gmultiset.
From Stdlib Require Import ZArith Lia.
From coqutil Require Import Byte.
From S2P Require Import Prelude Programs Threads.
#[local] Open Scope Z_scope.

(** ** The runtime system's functions

    [SchedulerStatus] is the enumeration of Rts.h. *)
Inductive SchedulerStatus := NoStatus | Success | Killed | Interrupted | HeapExhausted.

Inductive message := UncaughtException | InterruptedMessage | InvalidStatus.

Inductive Rts : Type -> Type :=
  | hs_init_ghc (argv : list Z) : Rts unit
  | hs_init_macos : Rts unit
  | setenv_build_commit : Rts unit
  | haskell_agent_cli_main_action : Rts Z
  | rts_lock : Rts Z
  | rts_evalStableIOMain (capability action : Z) : Rts Z
  | rts_getSchedStatus (capability : Z) : Rts SchedulerStatus
  | rts_unlock (capability : Z) : Rts unit
  | hs_free_stable_ptr (action : Z) : Rts unit
  | fprintf_stderr (m : message) : Rts unit
  | shutdownHaskellAndExit (status : Z) : Rts unit.

(** The right to start the runtime exists once per process: [hs_init] and [hs_init_ghc] take
    it.  Capabilities and stable pointers are handles; evaluation may return on another
    capability than it started on. *)
Definition start_right : resource := (Runtime, 1).

#[export] Instance rts_ownership : Ownership Rts := {
  gives := fun R e =>
    match e in Rts R return R -> ledger with
    | haskell_agent_cli_main_action => fun p => {[+ (StablePtr, p) +]}
    | rts_lock | rts_evalStableIOMain _ _ => fun c => {[+ (Capability, c) +]}
    | _ => fun _ => ∅
    end;
  takes := fun R e =>
    match e in Rts R return R -> ledger with
    | hs_init_ghc _ | hs_init_macos => fun _ => {[+ start_right +]}
    | rts_unlock c | rts_evalStableIOMain c _ => fun _ => {[+ (Capability, c) +]}
    | hs_free_stable_ptr p => fun _ => {[+ (StablePtr, p) +]}
    | _ => fun _ => ∅
    end;
  uses := fun R e =>
    match e with
    | rts_evalStableIOMain c p => {[+ (Capability, c) +]} ⊎ {[+ (StablePtr, p) +]}
    | rts_getSchedStatus c | rts_unlock c => {[+ (Capability, c) +]}
    | hs_free_stable_ptr p => {[+ (StablePtr, p) +]}
    | hs_init_ghc _ | hs_init_macos => {[+ start_right +]}
    | _ => ∅
    end
}.

(** ** The static variables *)

Record runtime := Static { runtime_references : Z; runtime_initialized : bool; runtime_cli_started : bool }.
Definition initial_runtime : runtime := Static 0 false false.
Abbreviation runtime_thread := (thread Rts runtime unit).

Section runtime.
(** EXIT_KILLED, EXIT_INTERRUPTED and EXIT_HEAPOVERFLOW of Rts.h. *)
Variables (EXIT_KILLED EXIT_INTERRUPTED EXIT_HEAPOVERFLOW : Z).
Definition EXIT_SUCCESS : Z := 0.
Definition EXIT_FAILURE : Z := 1.

(** How a call ends: it returns a status, or the process exits with one. *)
Inductive outcome := Returned (status : Z) | Exited (status : Z).

(** [argc < 1 || argv == NULL || argv[argc] != NULL], or a NULL before the end; [argv] is the
    array of pointers, at least [argc + 1] long when it is not NULL. *)
Definition bad_arguments (argc : Z) (argv : option (list Z)) : bool :=
  match argv with
  | None => true
  | Some argv =>
      (argc <? 1) || negb (nth (Z.to_nat argc) argv 0 =? 0)
      || existsb (fun p => p =? 0) (take (Z.to_nat argc) argv)
  end.

Definition exit_status (status : SchedulerStatus) : prog Rts Z :=
  match status with
  | Success => Ret EXIT_SUCCESS
  | Killed => call (fprintf_stderr UncaughtException);; Ret EXIT_KILLED
  | Interrupted => call (fprintf_stderr InterruptedMessage);; Ret EXIT_INTERRUPTED
  | HeapExhausted => Ret EXIT_HEAPOVERFLOW
  | NoStatus => call (fprintf_stderr InvalidStatus);; Ret EXIT_FAILURE
  end.

(** The part of [ha_cli_main] after the mutex is released. *)
Definition cli_launch (argc : Z) (argv : list Z) : prog Rts outcome :=
  call (hs_init_ghc (take (Z.to_nat argc) argv));;
  call setenv_build_commit;;
  action ← call haskell_agent_cli_main_action;
  capability ← call rts_lock;
  capability ← call (rts_evalStableIOMain capability action);
  status ← call (rts_getSchedStatus capability);
  call (rts_unlock capability);;
  call (hs_free_stable_ptr action);;
  code ← exit_status status;
  call (shutdownHaskellAndExit code);;
  Ret (Exited code).

Definition ha_cli_main (argc : Z) (argv : option (list Z)) : runtime_thread outcome :=
  if bad_arguments argc argv then TRet (Returned 64) else
  lock;;
  s ← get;
  if runtime_initialized s then unlock;; TRet (Returned 70) else
  set (fun s => Static (runtime_references s) true (runtime_cli_started s));;
  set (fun s => Static (runtime_references s) (runtime_initialized s) true);;
  unlock;;
  local (cli_launch argc (default [] argv)).

Definition ha_runtime_init : runtime_thread outcome :=
  lock;;
  s ← get;
  if runtime_cli_started s then unlock;; TRet (Returned (-1)) else
  s ← get;
  (if negb (runtime_initialized s)
   then
     tcall hs_init_macos;;
     tcall setenv_build_commit;;
     set (fun s => Static (runtime_references s) true (runtime_cli_started s))
   else TRet tt);;
  set (fun s => Static (u32 (runtime_references s + 1)) (runtime_initialized s) (runtime_cli_started s));;
  unlock;;
  TRet (Returned 0).

(** [void]; reported as status 0. *)
Definition ha_runtime_exit : runtime_thread outcome :=
  lock;;
  s ← get;
  (if runtime_references s >? 0
   then set (fun s => Static (u32 (runtime_references s - 1)) (runtime_initialized s) (runtime_cli_started s))
   else TRet tt);;
  unlock;;
  TRet (Returned 0).

Inductive runtime_op := CliMain (argc : Z) (argv : option (list Z)) | RuntimeInit | RuntimeExit.
Definition runtime_run (op : runtime_op) : runtime_thread outcome :=
  match op with
  | CliMain argc argv => ha_cli_main argc argv
  | RuntimeInit => ha_runtime_init
  | RuntimeExit => ha_runtime_exit
  end.

(** A thread's calls in order; the process's exit ends them. *)
Fixpoint runtime_runs (ops : list runtime_op) : runtime_thread (list outcome) :=
  match ops with
  | [] => TRet []
  | op :: ops =>
      r ← runtime_run op;
      match r with
      | Exited _ => TRet [r]
      | Returned _ => rs ← runtime_runs ops; TRet (r :: rs)
      end
  end.

Definition runtime_system (opss : list (list runtime_op)) (s : runtime) :
    system Rts runtime unit (list outcome) :=
  System (map runtime_runs opss) s tt None.

(** ** The state's invariant *)

(** Who owns the process.  [Bridge]: the runtime was started by [ha_runtime_init]. *)
Inductive mode := Fresh | Cli | Bridge.
Definition mode_of (s : runtime) : mode :=
  if runtime_cli_started s then Cli else if runtime_initialized s then Bridge else Fresh.

(** References exist only while the bridge owns the process. *)
Definition runtime_ok (s : runtime) : Prop :=
  is_u32 (runtime_references s) /\
  (runtime_cli_started s = true -> runtime_initialized s = true) /\
  (mode_of s <> Bridge -> runtime_references s = 0).

(** The right to start the runtime is the mutex's until somebody has taken it. *)
Definition runtime_ledger (s : runtime) : ledger :=
  if runtime_initialized s then ∅ else {[+ start_right +]}.

(** What an operation may answer when the process is in a mode: [None] when it is not known. *)
Definition runtime_answer (m : option mode) (op : runtime_op) (r : outcome) : Prop :=
  match op with
  | CliMain argc argv =>
      if bad_arguments argc argv then r = Returned 64
      else r = Returned 70 \/ m = None /\ exists code, r = Exited code
  | RuntimeInit => r = Returned 0 /\ m <> Some Cli \/ r = Returned (-1) /\ m <> Some Bridge
  | RuntimeExit => r = Returned 0
  end.

(** The answers of a thread's calls, up to the one that ended the process. *)
Inductive runtime_answers (m : option mode) : list runtime_op -> list outcome -> Prop :=
  | answers_nil : runtime_answers m [] []
  | answers_exited op ops code : runtime_answer m op (Exited code) -> runtime_answers m (op :: ops) [Exited code]
  | answers_returned op ops r rs :
      runtime_answer m op (Returned r) -> runtime_answers m ops rs ->
      runtime_answers m (op :: ops) (Returned r :: rs).

Section safety.
(** A set of modes that is closed: anything may happen in a fresh process, the other modes are
    for good. *)
Context (m : option mode).
Definition mode_ok (s : runtime) : Prop :=
  runtime_ok s /\ match m with None => True | Some m => mode_of s = m /\ m <> Fresh end.
Abbreviation runtime_safe := (safe no_law mode_ok runtime_ledger (fun _ => True)).

Lemma owns_cli_launch argc argv :
  owns no_law (cli_launch argc argv) {[+ start_right +]} (fun r l => l = ∅ /\ exists code, r = Exited code).
Proof.
  unfold cli_launch. own_call. own_call. own_call. rename r1 into action. own_call. rename r1 into c.
  own_call. rename r1 into c'. own_call. rename r1 into status. own_call. own_call.
  replace (_ ∖ {[+ (StablePtr, action) +]} ⊎ ∅) with (∅ : ledger) by multiset_solver.
  apply owns_bind.
  destruct status; simpl; repeat (split; [done|]; intros ? _; split; [multiset_solver|]; rewrite ?ledger_keep); eauto.
Qed.

Lemma returns_cli_launch argc argv : returns (cli_launch argc argv).
Proof. unfold cli_launch. simpl. intros _ _ action c c' [] _ _; simpl; auto. Qed.

#[local] Opaque cli_launch.
Lemma runtime_run_safe op :
  runtime_safe (runtime_run op) None ∅ (ends (fun r l => l = ∅ /\ runtime_answer m op r)).
Proof.
  destruct op as [argc argv| |]; unfold runtime_run.
  - unfold ha_cli_main, runtime_answer. destruct (bad_arguments argc argv); [done|]. simpl.
    split; [done|]. intros s Hs. exists s. split; [done|]. simpl.
    destruct s as [refs [] cli]; simpl.
    + eexists. split; [done|]. split; [done|]. unfold runtime_ledger. simpl.
      split; [multiset_solver|]. split_and!; [done|multiset_solver|by left].
    + destruct Hs as [(Hr & Hci & Hrefs) Hm]. simpl in Hci. destruct cli; [by specialize (Hci eq_refl)|].
      assert (m = None) as Hnone by (destruct m as [m'|]; [by destruct Hm as [<- []]|done]).
      eexists. split; [done|]. simpl. eexists. split; [done|]. simpl. eexists. split; [done|].
      split; [split; [split_and!; [done|done|by intros _; apply Hrefs]|by rewrite Hnone]|].
      unfold runtime_ledger. simpl. split; [multiset_solver|].
      replace ((∅ ⊎ {[+ start_right +]}) ∖ ∅) with ({[+ start_right +]} : ledger) by multiset_solver.
      apply safe_local; [left; apply returns_cli_launch|].
      eapply owns_mono; [apply owns_cli_launch|]. intros r l [-> Hr']. split_and!; [done|done|by right].
  - unfold ha_runtime_init, runtime_answer. simpl. split; [done|]. intros s Hs. exists s. split; [done|]. simpl.
    destruct s as [refs init cli]. destruct Hs as [(Hr & Hci & Hrefs) Hm]. simpl in *. destruct cli; simpl.
    + rewrite Hci in * by done. eexists. split; [done|]. split; [done|]. unfold runtime_ledger. simpl.
      split; [multiset_solver|]. split_and!; [done|multiset_solver|]. right. split; [done|].
      destruct m as [m'|]; [|done]. unfold mode_of in Hm. simpl in Hm. intros [= ->]. by destruct Hm.
    + eexists. split; [done|].
      assert (forall (s : runtime) (l : ledger), s = Static (u32 (refs + 1)) true false -> l = ∅ ->
        runtime_safe ((unlock;; TRet (Returned 0)) : runtime_thread outcome) (Some s) l
          (ends (fun r l => l = ∅ /\ (r = Returned 0 /\ m <> Some Cli \/ r = Returned (-1) /\ m <> Some Bridge)))) as Hend.
      { intros s l -> ->. simpl. eexists. split; [done|]. split.
        { split; [split_and!; [apply u32_range|done|done]|]. destruct m as [m'|]; [|done].
          destruct init; [done|]. destruct Hm as [<- H]. unfold mode_of in H. by simpl in H. }
        unfold runtime_ledger. simpl. split; [multiset_solver|]. split_and!; [done|multiset_solver|].
        left. split; [done|]. intros ->. destruct Hm as [Hm _]. unfold mode_of in Hm. simpl in Hm. by destruct init. }
      destruct init; simpl.
      * eexists. split; [done|]. apply Hend; [done|]. unfold runtime_ledger. simpl. multiset_solver.
      * unfold runtime_ledger at 1. simpl. split; [multiset_solver|]. intros _ _. split; [multiset_solver|].
        split; [multiset_solver|]. intros _ _. split; [multiset_solver|].
        eexists. split; [done|]. eexists. split; [done|]. apply Hend; [done|multiset_solver].
  - unfold ha_runtime_exit, runtime_answer. simpl. split; [done|]. intros s Hs. exists s. split; [done|]. simpl.
    destruct (Z.gtb_spec (runtime_references s) 0) as [Hpos|Hpos]; simpl.
    + eexists. split; [done|]. eexists. split; [done|].
      destruct Hs as [(Hr & Hci & Hrefs) Hm]. unfold mode_of in *. simpl. unfold is_u32 in *.
      split; [split; [split_and!; simpl; [apply u32_range|done|intros H; specialize (Hrefs H); lia]|done]|].
      split; [multiset_solver|]. split_and!; [done|unfold runtime_ledger; simpl; multiset_solver|done].
    + eexists. split; [done|]. split; [done|]. split; [multiset_solver|].
      split_and!; [done|multiset_solver|done].
Qed.

#[local] Transparent cli_launch.

Lemma runtime_runs_safe ops :
  runtime_safe (runtime_runs ops) None ∅ (ends (fun rs l => l = ∅ /\ runtime_answers m ops rs)).
Proof.
  induction ops as [|op ops IH]; simpl; [split_and!; [done|done|constructor]|].
  apply safe_bind. eapply safe_mono; [apply runtime_run_safe|]. intros r h l (-> & -> & Hr).
  destruct r as [r|code]; [|split_and!; [done|done|by constructor]].
  apply safe_bind. eapply safe_mono; [apply IH|]. intros rs h l (-> & -> & Hrs).
  split_and!; [done|done|by constructor].
Qed.
End safety.

(** ** Starts of the runtime in a trace *)

Definition is_start (ev : event Rts) : bool :=
  match ev_call ev with hs_init_ghc _ | hs_init_macos => true | _ => false end.
Definition starts (tr : list (event Rts)) : nat :=
  sum_list_with (fun ev => if is_start ev then 1%nat else 0%nat) tr.

Lemma audit_starts tr (l l' : ledger) :
  audit tr l = Some l' -> (starts tr + multiplicity start_right l' = multiplicity start_right l)%nat.
Proof.
  revert l. induction tr as [|ev tr IH]; intros l; [by intros [= ->]|]. cbn [audit]. unfold audit_event.
  case_decide as Hsub; [|done]. cbn [mbind option_bind]. intros H. apply IH in H.
  rewrite multiplicity_disj_union, multiplicity_difference in H.
  assert (multiplicity start_right (takes (ev_call ev) (ev_answer ev)) <= multiplicity start_right l)%nat as Hle by
    (specialize (Hsub start_right); rewrite multiplicity_union in Hsub; lia).
  assert (multiplicity start_right ({[+ start_right +]} : ledger) = 1%nat) as H1 by (rewrite multiplicity_singleton; by rewrite decide_True).
  assert (forall p, multiplicity start_right ({[+ (StablePtr, p) +]} : ledger) = 0%nat) as H2
    by (intros p; rewrite multiplicity_singleton; by rewrite decide_False).
  assert (forall c, multiplicity start_right ({[+ (Capability, c) +]} : ledger) = 0%nat) as H3
    by (intros c; rewrite multiplicity_singleton; by rewrite decide_False).
  assert (multiplicity start_right (∅ : ledger) = 0%nat) as H4 by done.
  change (starts (ev :: tr)) with ((if is_start ev then 1 else 0) + starts tr)%nat.
  destruct ev as [R e r]; destruct e; cbn [ev_call ev_answer gives takes rts_ownership is_start] in *;
    rewrite ?H1, ?H2, ?H3, ?H4 in *; lia.
Qed.

Lemma runtime_system_sound m opss s tr s' :
  steps (runtime_system opss s) tr s' -> mode_ok m s ->
  ~ races s' /\ ~ deadlocked s' /\ (holder s' = None -> mode_ok m (state s')) /\
  (exists l, audit tr (runtime_ledger s) = Some l /\
     ((forall t, t ∈ pool s' -> finished t) -> l = runtime_ledger (state s'))) /\
  (forall i ops rs, opss !! i = Some ops -> pool s' !! i = Some (TRet rs) -> runtime_answers m ops rs).
Proof.
  intros Hs Hm. apply (threads_sound no_law (mode_ok m) runtime_ledger (fun _ => True) runtime_runs (runtime_answers m)
    opss s tt tr s'); try done; [intros ops; apply runtime_runs_safe|by apply Forall_true].
Qed.

Lemma initial_runtime_ok : mode_ok None initial_runtime.
Proof. split; [|done]. split_and!; [unfold is_u32; simpl; lia|done|done]. Qed.

(** ** The contract as an abstract machine

    A process is idle, belongs to the command line, or hosts the bridge with a number of
    references. *)
Inductive process := Idle | CommandLine | BridgeHost (references : Z).
Definition process_of (s : runtime) : process :=
  match mode_of s with Fresh => Idle | Cli => CommandLine | Bridge => BridgeHost (runtime_references s) end.

Inductive process_step : runtime_op -> process -> outcome -> process -> Prop :=
  | main_usage argc argv p : bad_arguments argc argv = true -> process_step (CliMain argc argv) p (Returned 64) p
  | main_busy argc argv p : bad_arguments argc argv = false -> p <> Idle ->
      process_step (CliMain argc argv) p (Returned 70) p
  | main_run argc argv code : bad_arguments argc argv = false ->
      process_step (CliMain argc argv) Idle (Exited code) CommandLine
  | init_refused : process_step RuntimeInit CommandLine (Returned (-1)) CommandLine
  | init_first : process_step RuntimeInit Idle (Returned 0) (BridgeHost 1)
  | init_again n : process_step RuntimeInit (BridgeHost n) (Returned 0) (BridgeHost (u32 (n + 1)))
  | exit_balanced n : process_step RuntimeExit (BridgeHost n) (Returned 0) (BridgeHost (Z.max 0 (n - 1)))
  | exit_ignored p : (forall n, p <> BridgeHost n) -> process_step RuntimeExit p (Returned 0) p.

Inductive process_steps : list runtime_op -> process -> list outcome -> process -> Prop :=
  | process_nil p : process_steps [] p [] p
  | process_exited op ops p code p' : process_step op p (Exited code) p' -> process_steps (op :: ops) p [Exited code] p'
  | process_returned op ops p r p' rs p'' :
      process_step op p (Returned r) p' -> process_steps ops p' rs p'' ->
      process_steps (op :: ops) p (Returned r :: rs) p''.

(** What the program prints before it exits. *)
Definition diagnostic (status : SchedulerStatus) : list (event Rts) :=
  match status with
  | Success | HeapExhausted => []
  | Killed => [Event (fprintf_stderr UncaughtException) tt]
  | Interrupted => [Event (fprintf_stderr InterruptedMessage) tt]
  | NoStatus => [Event (fprintf_stderr InvalidStatus) tt]
  end.
Definition exit_code (status : SchedulerStatus) : Z :=
  match status with
  | Success => EXIT_SUCCESS
  | Killed => EXIT_KILLED
  | Interrupted => EXIT_INTERRUPTED
  | HeapExhausted => EXIT_HEAPOVERFLOW
  | NoStatus => EXIT_FAILURE
  end.

(** All the runs of an operation that nothing interferes with. *)
Definition launch_trace (argv : list Z) (action c c' : Z) (status : SchedulerStatus) : list (event Rts) :=
  [Event (hs_init_ghc argv) tt; Event setenv_build_commit tt; Event haskell_agent_cli_main_action action;
   Event rts_lock c; Event (rts_evalStableIOMain c action) c'; Event (rts_getSchedStatus c') status;
   Event (rts_unlock c') tt; Event (hs_free_stable_ptr action) tt]
  ++ diagnostic status ++ [Event (shutdownHaskellAndExit (exit_code status)) tt].

Lemma cli_launch_trace argc argv tr o :
  traces (cli_launch argc argv) tr o ->
  exists action c c' status, tr = launch_trace (take (Z.to_nat argc) argv) action c c' status /\
    o = Some (Exited (exit_code status)).
Proof.
  intros ([] & ? & -> & [] & ? & -> & action & ? & -> & c & ? & -> & c' & ? & -> & status & ? & -> &
    [] & ? & -> & [] & ? & -> & H).
  exists action, c, c', status. destruct status; simpl in H.
  all: repeat match type of H with exists r _, _ => destruct H as ([] & ? & -> & H) end.
  all: by destruct H as [-> ->].
Qed.

#[local] Opaque cli_launch.
Lemma alone_cli_main argc argv s tr r s' :
  traces (alone (ha_cli_main argc argv) s tt) tr (Some (r, s', tt)) ->
  if bad_arguments argc argv then tr = [] /\ r = Returned 64 /\ s' = s
  else if runtime_initialized s then tr = [] /\ r = Returned 70 /\ s' = s
  else s' = Static (runtime_references s) true true /\
    exists action c c' status, r = Exited (exit_code status) /\
      tr = launch_trace (take (Z.to_nat argc) (default [] argv)) action c c' status.
Proof.
  unfold ha_cli_main. destruct (bad_arguments argc argv); [by intros [-> [= -> ->]]|]. simpl.
  destruct (runtime_initialized s); simpl; [by intros [-> [= -> ->]]|].
  intros H. apply alone_local in H as ([x|] & H & [=]); simplify_eq/=.
  apply cli_launch_trace in H as (action & c & c' & status & -> & [= ->]). split; [done|]. eauto 10.
Qed.
#[local] Transparent cli_launch.

Lemma process_step_alone op s tr r s' :
  traces (alone (runtime_run op) s tt) tr (Some (r, s', tt)) -> runtime_ok s ->
  runtime_ok s' /\ process_step op (process_of s) r (process_of s').
Proof.
  destruct s as [refs init cli]. intros H Hok. pose proof Hok as (Hr & Hci & Hrefs). simpl in Hr, Hci, Hrefs.
  unfold mode_of in Hrefs. simpl in Hrefs.
  destruct op as [argc argv| |]; unfold runtime_run in H.
  - apply alone_cli_main in H. simpl in H. destruct (bad_arguments argc argv) eqn:Hb.
    { destruct H as (_ & -> & ->). split; [done|by constructor]. }
    destruct init.
    + destruct H as (_ & -> & ->). split; [done|]. constructor; [done|]. unfold process_of, mode_of. simpl. by destruct cli.
    + destruct H as (-> & action & c & c' & status & -> & _). destruct cli; [by specialize (Hci eq_refl)|].
      split; [split_and!; [done|done|by intros _; apply Hrefs]|]. by constructor.
  - unfold ha_runtime_init in H. simpl in H. destruct cli; simpl in H.
    { destruct H as [-> [= -> ->]]. rewrite Hci in * by done. split; [done|]. constructor. }
    destruct init; simpl in H.
    + destruct H as [-> [= -> ->]]. split; [split_and!; [apply u32_range|done|done]|]. constructor.
    + destruct H as ([] & ? & -> & [] & ? & -> & -> & [= -> ->]). rewrite Hrefs by done.
      split; [split_and!; [apply u32_range|done|done]|]. constructor.
  - unfold ha_runtime_exit in H. simpl in H. destruct (Z.gtb_spec refs 0) as [Hpos|Hpos]; simpl in H;
      destruct H as [-> [= -> ->]].
    + destruct cli; [rewrite Hrefs in Hpos by done; lia|]. destruct init; [|rewrite Hrefs in Hpos by done; lia].
      unfold is_u32 in Hr. split; [split_and!; [apply u32_range|done|done]|].
      change (process_step RuntimeExit (BridgeHost refs) (Returned 0) (BridgeHost (u32 (refs - 1)))).
      rewrite u32_id by (unfold is_u32; lia). replace (refs - 1) with (Z.max 0 (refs - 1)) by lia. constructor.
    + split; [done|]. unfold is_u32 in Hr. assert (refs = 0) as -> by lia.
      unfold process_of, mode_of. simpl. destruct cli; [by constructor|]. destruct init; [|by constructor].
      apply (exit_balanced 0).
Qed.

(** ** Properties *)

(** C17: the runtime starts at most once, under every interleaving.  Any number of threads of a
    fresh process call the three entry points in any order.  Then the static variables are only
    touched with the mutex held, no deadlock arises, the GHC runtime is started at most once in
    the life of the process, capabilities and stable pointers are used only while held and
    given back once, and when all have returned none is left over; references are held only
    while the bridge owns the process, and every call answers with a documented status. *)
Theorem runtime_threads_safe opss tr s :
  steps (runtime_system opss initial_runtime) tr s ->
  ~ races s /\ ~ deadlocked s /\ (starts tr <= 1)%nat /\
  (holder s = None -> runtime_ok (state s)) /\
  (exists l, audit tr {[+ start_right +]} = Some l /\
     ((forall t, t ∈ pool s -> finished t) -> l = runtime_ledger (state s))) /\
  (forall i ops rs, opss !! i = Some ops -> pool s !! i = Some (TRet rs) -> runtime_answers None ops rs).
Proof.
  intros Hs. destruct (runtime_system_sound _ _ _ _ _ Hs initial_runtime_ok) as (H1 & H2 & H3 & (l & Ha & Hl) & H4).
  change (runtime_ledger initial_runtime) with ({[+ start_right +]} : ledger) in Ha.
  split_and!; [done|done| |by intros Hn; apply H3|by exists l|done].
  apply audit_starts in Ha. rewrite multiplicity_singleton, decide_True in Ha by done. lia.
Qed.

(** Who owns the process is decided once.  After the command line has taken the process,
    every later [ha_runtime_init] is refused; after the bridge has, every later [ha_cli_main]
    is (with 64 for bad arguments, else 70), and no [ha_runtime_init] is; neither ever starts
    the runtime again.  This holds for any threads under every interleaving, however often the
    bridge's references have dropped to zero. *)
Theorem runtime_owner_permanent opss s0 tr s :
  steps (runtime_system opss s0) tr s -> runtime_ok s0 -> mode_of s0 <> Fresh ->
  starts tr = 0%nat /\ (holder s = None -> mode_of (state s) = mode_of s0) /\
  (forall i ops rs, opss !! i = Some ops -> pool s !! i = Some (TRet rs) ->
     runtime_answers (Some (mode_of s0)) ops rs).
Proof.
  intros Hs Hok Hm.
  destruct (runtime_system_sound (Some (mode_of s0)) _ _ _ _ Hs (conj Hok (conj eq_refl Hm)))
    as (_ & _ & H3 & (l & Ha & _) & H4).
  split_and!; [|by intros Hn; apply H3|done].
  assert (runtime_initialized s0 = true) as Hi.
  { destruct Hok as (_ & Hci & _). unfold mode_of in Hm.
    destruct (runtime_cli_started s0); [by apply Hci|]. by destruct (runtime_initialized s0). }
  apply audit_starts in Ha. unfold runtime_ledger in Ha. rewrite Hi in Ha.
  change (multiplicity start_right ∅) with 0%nat in Ha. lia.
Qed.

(** [ha_cli_main] runs the program once and exits with its status.  On bad arguments it
    answers 64 and in an owned process 70, without a call and without changing the state;
    otherwise it starts the runtime with the caller's arguments, evaluates the program once,
    gives back the capability evaluation ended on and the stable pointer, prints the diagnostic
    of the scheduler's status and exits with the code that corresponds to it: it never returns. *)
Theorem ha_cli_main_exits argc argv s tr r s' :
  traces (alone (ha_cli_main argc argv) s tt) tr (Some (r, s', tt)) ->
  if bad_arguments argc argv then tr = [] /\ r = Returned 64 /\ s' = s
  else if runtime_initialized s then tr = [] /\ r = Returned 70 /\ s' = s
  else s' = Static (runtime_references s) true true /\
    exists action c c' status, r = Exited (exit_code status) /\
      tr = launch_trace (take (Z.to_nat argc) (default [] argv)) action c c' status.
Proof. apply alone_cli_main. Qed.

(** The entry points implement the process machine.  Every run of a sequence of calls
    from a well-formed state is a run of the abstract machine with the same answers: idle,
    then for good either the command line's or the bridge's; references go up by one per
    [ha_runtime_init], down by one per [ha_runtime_exit], never below zero, and wrap only after
    2^32 unbalanced calls. *)
Theorem runtime_refines ops s tr rs s' :
  traces (alone (runtime_runs ops) s tt) tr (Some (rs, s', tt)) -> runtime_ok s ->
  process_steps ops (process_of s) rs (process_of s') /\ runtime_ok s'.
Proof.
  revert s tr rs. induction ops as [|op ops IH]; intros s tr rs Ht Hok; cbn [runtime_runs] in Ht.
  - destruct Ht as [-> [= -> ->]]. split; [constructor|done].
  - apply alone_bind in Ht.
    apply traces_bind in Ht as [([[r s1] []] & tr1 & tr2 & -> & H1 & H2)|[_ [=]]].
    destruct (process_step_alone _ _ _ _ _ H1 Hok) as [Hok1 Hstep].
    destruct r as [r|code].
    + apply alone_bind in H2.
      apply traces_bind in H2 as [([[rs1 s2] []] & tr3 & tr4 & -> & H3 & H4)|[_ [=]]].
      destruct H4 as [-> [= -> ->]]. destruct (IH _ _ _ H3 Hok1) as [Hsteps Hok2].
      split; [|done]. by econstructor.
    + destruct H2 as [-> [= -> ->]]. split; [by constructor|done].
Qed.
End runtime.

(** ** Runs *)

(** A runtime that answers with the given status; codes as in Rts.h. *)
Definition rts_demo (status : SchedulerStatus) : env Rts unit := fun R e =>
  match e in Rts R return unit -> R * unit with
  | haskell_agent_cli_main_action => fun w => (500, w)
  | rts_lock => fun w => (600, w)
  | rts_evalStableIOMain _ _ => fun w => (601, w)
  | rts_getSchedStatus _ => fun w => (status, w)
  | hs_init_ghc _ | hs_init_macos | setenv_build_commit | rts_unlock _ | hs_free_stable_ptr _
  | fprintf_stderr _ | shutdownHaskellAndExit _ => fun w => (tt, w)
  end.

(** A bridge thread and a command line that loses the race. *)
Definition runtime_demo_run :=
  run_schedule (rts_demo Success) (replicate 8 0%nat ++ replicate 20 1%nat ++ replicate 20 0%nat)
    (runtime_system 250 252 251 [[RuntimeInit; RuntimeExit]; [CliMain 1 (Some [10; 0])]] initial_runtime) tt.

Lemma runtime_threads_safe_witness :
  (starts runtime_demo_run.2 <= 1)%nat /\
  pool runtime_demo_run.1.1 = [TRet [Returned 0; Returned 0]; TRet [Returned 70]].
Proof.
  split; [|vm_compute; reflexivity].
  refine (proj1 (proj2 (proj2 (runtime_threads_safe 250 252 251
    [[RuntimeInit; RuntimeExit]; [CliMain 1 (Some [10; 0])]] runtime_demo_run.2 runtime_demo_run.1.1 _)))).
  apply run_schedule_steps.
Defined.

Definition bridge_run :=
  run_schedule (rts_demo Success) (replicate 20 0%nat)
    (runtime_system 250 252 251 [[CliMain 1 (Some [10; 0])]] (Static 0 true false)) tt.

Lemma runtime_owner_permanent_witness :
  starts bridge_run.2 = 0%nat /\ pool bridge_run.1.1 = [TRet [Returned 70]].
Proof.
  split; [|vm_compute; reflexivity].
  refine (proj1 (runtime_owner_permanent 250 252 251 [[CliMain 1 (Some [10; 0])]] (Static 0 true false)
    bridge_run.2 bridge_run.1.1 _ _ _)).
  - apply run_schedule_steps.
  - split_and!; [split; vm_compute; congruence|reflexivity|intros _; reflexivity].
  - discriminate.
Defined.

Lemma ha_cli_main_exits_witness :
  let p := alone (ha_cli_main 250 252 251 1 (Some [10; 0])) initial_runtime tt in
  exec_value (rts_demo Killed) p tt = Some (Exited 250, Static 0 true true, tt) /\
  exists action c c' status, Exited 250 = Exited (exit_code 250 252 251 status) /\
    exec_trace (rts_demo Killed) p tt = launch_trace 250 252 251 [10] action c c' status.
Proof.
  intros p.
  assert (exec_value (rts_demo Killed) p tt = Some (Exited 250, Static 0 true true, tt)) as Hv
    by (vm_compute; reflexivity).
  split; [exact Hv|].
  refine (proj2 (ha_cli_main_exits 250 252 251 1 (Some [10; 0]) initial_runtime
    (exec_trace (rts_demo Killed) p tt) (Exited 250) (Static 0 true true) _)).
  rewrite <- Hv. apply exec_traces.
Defined.

Lemma runtime_refines_witness :
  let ops := [RuntimeInit; RuntimeInit; RuntimeExit; CliMain 1 (Some [10; 0])] in
  process_steps ops Idle [Returned 0; Returned 0; Returned 0; Returned 70] (BridgeHost 1).
Proof.
  intros ops.
  refine (proj1 (runtime_refines 250 252 251 ops initial_runtime
    (exec_trace (rts_demo Success) (alone (runtime_runs 250 252 251 ops) initial_runtime tt) tt)
    [Returned 0; Returned 0; Returned 0; Returned 70] (Static 1 true false) _ _)).
  - assert (exec_value (rts_demo Success) (alone (runtime_runs 250 252 251 ops) initial_runtime tt) tt =
      Some ([Returned 0; Returned 0; Returned 0; Returned 70], Static 1 true false, tt)) as <-
      by (vm_compute; reflexivity).
    apply exec_traces.
  - split_and!; [split; vm_compute; congruence|discriminate|intros _; reflexivity].
Defined.
