(* ===== verification/Keychain.v ===== *)
(** * MCP credential storage (agent-native-bridge/cbits/HaskellAgentMcpKeychain.c)

    Credential records are opaque byte strings kept in the login keychain, one generic password
    per identifier.  The file builds Core Foundation dictionaries and hands them to the Security
    framework; [requests] resolves the handles of a trace to the dictionaries they stand for, and
    [item_step] is the documented effect of a request on the items. *)

From stdpp Require Import base tactics option list gmap gmultiset.
From Stdlib Require Import ZArith Lia.
From coqutil Require Import Byte.
From S2P Require Import Prelude Programs.
#[local] Open Scope Z_scope.

(** ** The Core Foundation and Security calls *)

Inductive attribute := kSecClass | kSecAttrService | kSecAttrAccount | kSecAttrSynchronizable
  | kSecReturnData | kSecMatchLimit | kSecValueData | kSecAttrLabel.
#[export] Instance attribute_eq_dec : EqDecision attribute.
Proof. solve_decision. Defined.
#[export] Instance attribute_countable : Countable attribute.
Proof.
  refine (inj_countable'
    (fun a => match a with kSecClass => 0%nat | kSecAttrService => 1%nat | kSecAttrAccount => 2%nat
       | kSecAttrSynchronizable => 3%nat | kSecReturnData => 4%nat | kSecMatchLimit => 5%nat
       | kSecValueData => 6%nat | kSecAttrLabel => 7%nat end)
    (fun n => match n with 0%nat => kSecClass | 1%nat => kSecAttrService | 2%nat => kSecAttrAccount
       | 3%nat => kSecAttrSynchronizable | 4%nat => kSecReturnData | 5%nat => kSecMatchLimit
       | 6%nat => kSecValueData | _ => kSecAttrLabel end) _).
  by intros [].
Defined.

(** The constant objects of the frameworks and of the file: [service_name] is
    ["com.digitallyinduced.haskell-agent.mcp-oauth"], [label_text] is
    ["Haskell Agent MCP authorization"]. *)
Inductive constant := kSecClassGenericPassword | kCFBooleanFalse | kCFBooleanTrue | kSecMatchLimitOne
  | service_name | label_text.
#[export] Instance constant_eq_dec : EqDecision constant.
Proof. solve_decision. Defined.

(** What a dictionary is given: a constant or a handle. *)
Inductive reference := Constant (c : constant) | Object (h : Z).

(** The object a query returns: its handle and its bytes when it is a CFData. *)
Record matched := Matched { matched_ref : Z; matched_data : option (list byte) }.

Definition errSecSuccess : Z := 0.
Definition errSecItemNotFound : Z := -25300.
Definition errSecDuplicateItem : Z := -25299.

Inductive Security : Type -> Type :=
  | CFStringCreateWithBytes (bytes : list byte) : Security Z
  | CFDictionaryCreateMutable : Security Z
  | CFDictionarySetValue (dictionary : Z) (key : attribute) (value : reference) : Security unit
  | CFDictionaryRemoveValue (dictionary : Z) (key : attribute) : Security unit
  | CFDictionaryCreate (key : attribute) (value : Z) : Security Z
  | CFDataCreate (bytes : list byte) : Security Z
  | CFRelease (object : Z) : Security unit
  | SecItemCopyMatching (query : Z) : Security (Z * option matched)
  | SecItemUpdate (query attributes : Z) : Security Z
  | SecItemAdd (query : Z) : Security Z
  | SecItemDelete (query : Z) : Security Z
  | CFGetTypeID_is_data (object : matched) : Security bool
  | CFDataGetLength (object : matched) : Security Z
  | CFDataGetBytePtr (object : matched) : Security (list byte)
  | malloc (size : Z) : Security Z
  | memcpy (destination : Z) (bytes : list byte) : Security unit
  | store_zero (destination index : Z) : Security unit
  | free (p : Z) : Security unit.

(** A result that is there is not NULL, its length is a [CFIndex], and none is there when no
    item is found. *)
Definition answered (m : matched) (status : Z) : Prop :=
  matched_ref m <> 0 /\ status <> errSecItemNotFound /\
  forall bytes, matched_data m = Some bytes -> zlen bytes < 2 ^ 63.

(** An object is what it is. *)
Definition security_law : laws Security := fun R e =>
  match e in Security R return R -> Prop with
  | SecItemCopyMatching _ => fun '(status, r) => match r with Some m => answered m status | None => True end
  | CFGetTypeID_is_data m => fun b => b = bool_decide (is_Some (matched_data m))
  | CFDataGetLength m => fun n => forall bytes, matched_data m = Some bytes -> n = zlen bytes
  | CFDataGetBytePtr m => fun b => forall bytes, matched_data m = Some bytes -> b = bytes
  | _ => fun _ => True
  end.

#[export] Instance security_ownership : Ownership Security := {
  gives := fun R e =>
    match e in Security R return R -> ledger with
    | CFStringCreateWithBytes _ | CFDictionaryCreateMutable | CFDictionaryCreate _ _ | CFDataCreate _ =>
        fun h => own Cf h
    | SecItemCopyMatching _ => fun '(_, r) => match r with Some m => own Cf (matched_ref m) | None => ∅ end
    | malloc _ => fun p => own Mem p
    | _ => fun _ => ∅
    end;
  takes := fun R e =>
    match e in Security R return R -> ledger with
    | CFRelease h => fun _ => {[+ (Cf, h) +]}
    | free p => fun _ => {[+ (Mem, p) +]}
    | _ => fun _ => ∅
    end;
  uses := fun R e =>
    match e with
    | CFDictionarySetValue d _ (Object h) => {[+ (Cf, d) +]} ⊎ {[+ (Cf, h) +]}
    | CFDictionarySetValue d _ _ | CFDictionaryRemoveValue d _ => {[+ (Cf, d) +]}
    | CFDictionaryCreate _ h | CFRelease h => {[+ (Cf, h) +]}
    | SecItemCopyMatching q | SecItemAdd q | SecItemDelete q => {[+ (Cf, q) +]}
    | SecItemUpdate q a => {[+ (Cf, q) +]} ⊎ {[+ (Cf, a) +]}
    | CFGetTypeID_is_data m | CFDataGetLength m | CFDataGetBytePtr m => {[+ (Cf, matched_ref m) +]}
    | memcpy p _ | store_zero p _ | free p => {[+ (Mem, p) +]}
    | _ => ∅
    end
}.

(** ** The file *)

Definition MCP_KEYCHAIN_SUCCESS : Z := 0.
Definition MCP_KEYCHAIN_NOT_FOUND : Z := 1.
Definition MCP_KEYCHAIN_INVALID_INPUT : Z := 2.
Definition MCP_KEYCHAIN_FAILURE : Z := 3.
Definition maximum_credential_bytes : Z := 1024 * 1024.

(** A [const uint8_t *]: NULL, or the memory from there on. *)
Abbreviation pointer := (option (list byte)).

Definition invalid_identifier (identifier : pointer) (length : Z) : bool :=
  match identifier with
  | None => true
  | Some bytes => (length =? 0) || (length >? 4096) || memchr_nul (ztake length bytes)
  end.

Definition credential_query (identifier : pointer) (length : Z) : prog Security Z :=
  if invalid_identifier identifier length then Ret 0 else
  account ← call (CFStringCreateWithBytes (ztake length (default [] identifier)));
  if account =? 0 then Ret 0 else
  query ← call CFDictionaryCreateMutable;
  (if negb (query =? 0)
   then
     call (CFDictionarySetValue query kSecClass (Constant kSecClassGenericPassword));;
     call (CFDictionarySetValue query kSecAttrService (Constant service_name));;
     call (CFDictionarySetValue query kSecAttrAccount (Object account));;
     call (CFDictionarySetValue query kSecAttrSynchronizable (Constant kCFBooleanFalse))
   else Ret tt);;
  call (CFRelease account);;
  Ret query.

(** The status and the two output variables; a NULL pointer to one is [None]. *)
Definition read_outputs := (Z * option Z * option Z)%type.

(** The part of [agent_mcp_keychain_read] after the query has been answered. *)
Definition copy_result (result : option matched) (status : Z) (output output_length : option Z)
    : prog Security read_outputs :=
  if status =? errSecItemNotFound then Ret (MCP_KEYCHAIN_NOT_FOUND, output, output_length) else
  match result with
  | None => Ret (MCP_KEYCHAIN_FAILURE, output, output_length)
  | Some result =>
      if negb (status =? errSecSuccess)
      then call (CFRelease (matched_ref result));; Ret (MCP_KEYCHAIN_FAILURE, output, output_length) else
      is_data ← call (CFGetTypeID_is_data result);
      if negb (is_data : bool)
      then call (CFRelease (matched_ref result));; Ret (MCP_KEYCHAIN_FAILURE, output, output_length) else
      length ← call (CFDataGetLength result);
      if (length <=? 0) || (u64 length >? maximum_credential_bytes)
      then call (CFRelease (matched_ref result));; Ret (MCP_KEYCHAIN_FAILURE, output, output_length) else
      copy ← call (malloc length);
      if copy =? 0
      then call (CFRelease (matched_ref result));; Ret (MCP_KEYCHAIN_FAILURE, output, output_length) else
      bytes ← call (CFDataGetBytePtr result);
      call (memcpy copy (ztake length bytes));;
      call (CFRelease (matched_ref result));;
      Ret (MCP_KEYCHAIN_SUCCESS, Some copy, Some length)
  end.
Arguments copy_result : simpl never.

Definition agent_mcp_keychain_read (identifier : pointer) (identifier_length : Z)
    (output output_length : option Z) : prog Security read_outputs :=
  let output := (fun _ => 0) <$> output in
  let output_length := (fun _ => 0) <$> output_length in
  match output, output_length with
  | Some _, Some _ =>
      query ← credential_query identifier identifier_length;
      if query =? 0 then Ret (MCP_KEYCHAIN_INVALID_INPUT, output, output_length) else
      call (CFDictionarySetValue query kSecReturnData (Constant kCFBooleanTrue));;
      call (CFDictionarySetValue query kSecMatchLimit (Constant kSecMatchLimitOne));;
      '(status, result) ← call (SecItemCopyMatching query);
      call (CFRelease query);;
      copy_result result status output output_length
  | _, _ => Ret (MCP_KEYCHAIN_INVALID_INPUT, output, output_length)
  end.

(** Update the item, or add it, or update the one another process has just added. *)
Definition upsert (query attributes data : Z) : prog Security Z :=
  status ← call (SecItemUpdate query attributes);
  if negb (status =? errSecItemNotFound) then Ret status else
  call (CFDictionarySetValue query kSecValueData (Object data));;
  call (CFDictionarySetValue query kSecAttrLabel (Constant label_text));;
  status ← call (SecItemAdd query);
  if negb (status =? errSecDuplicateItem) then Ret status else
  call (CFDictionaryRemoveValue query kSecValueData);;
  call (CFDictionaryRemoveValue query kSecAttrLabel);;
  call (SecItemUpdate query attributes).
Arguments upsert : simpl never.

Definition agent_mcp_keychain_write (identifier : pointer) (identifier_length : Z)
    (value : pointer) (value_length : Z) : prog Security Z :=
  match value with
  | None => Ret MCP_KEYCHAIN_INVALID_INPUT
  | Some value =>
      if (value_length =? 0) || (value_length >? maximum_credential_bytes)
      then Ret MCP_KEYCHAIN_INVALID_INPUT else
      query ← credential_query identifier identifier_length;
      if query =? 0 then Ret MCP_KEYCHAIN_INVALID_INPUT else
      data ← call (CFDataCreate (ztake value_length value));
      if data =? 0 then call (CFRelease query);; Ret MCP_KEYCHAIN_FAILURE else
      attributes ← call (CFDictionaryCreate kSecValueData data);
      if attributes =? 0
      then call (CFRelease data);; call (CFRelease query);; Ret MCP_KEYCHAIN_FAILURE else
      status ← upsert query attributes data;
      call (CFRelease attributes);;
      call (CFRelease data);;
      call (CFRelease query);;
      Ret (if status =? errSecSuccess then MCP_KEYCHAIN_SUCCESS else MCP_KEYCHAIN_FAILURE)
  end.

Definition agent_mcp_keychain_delete (identifier : pointer) (identifier_length : Z) : prog Security Z :=
  query ← credential_query identifier identifier_length;
  if query =? 0 then Ret MCP_KEYCHAIN_INVALID_INPUT else
  status ← call (SecItemDelete query);
  call (CFRelease query);;
  Ret (if (status =? errSecSuccess) || (status =? errSecItemNotFound)
       then MCP_KEYCHAIN_SUCCESS else MCP_KEYCHAIN_FAILURE).

(** [for (index = start; count more; index++) destination[index] = 0] *)
Fixpoint zero_bytes (destination start : Z) (count : nat) : prog Security unit :=
  match count with
  | O => Ret tt
  | S count => call (store_zero destination start);; zero_bytes destination (start + 1) count
  end.

Definition agent_mcp_keychain_release (bytes length : Z) : prog Security unit :=
  if negb (bytes =? 0)
  then zero_bytes bytes 0 (Z.to_nat length);; call (free bytes)
  else Ret tt.

(** ** Requests

    The objects a trace has built, by handle, as the caller sees them: strings and data are
    immutable, a dictionary maps attributes to the objects it was given. *)
Inductive value := VConstant (c : constant) | VString (bytes : list byte) | VData (bytes : list byte).
#[export] Instance value_eq_dec : EqDecision value.
Proof. solve_decision. Defined.
Abbreviation dictionary := (gmap attribute value).
Inductive object := OString (bytes : list byte) | OData (bytes : list byte) | ODictionary (d : dictionary).
Abbreviation objects := (gmap Z object).

Definition object_value (o : object) : option value :=
  match o with OString b => Some (VString b) | OData b => Some (VData b) | ODictionary _ => None end.
Definition resolve (os : objects) (r : reference) : option value :=
  match r with Constant c => Some (VConstant c) | Object h => os !! h ≫= object_value end.
Definition dictionary_of (os : objects) (h : Z) : option dictionary :=
  match os !! h with Some (ODictionary d) => Some d | _ => None end.

(** A request as the service sees it, with its answer. *)
Inductive request :=
  | Copy (query : dictionary) (status : Z) (result : option (option (list byte)))
  | Update (query attributes : dictionary) (status : Z)
  | Add (query : dictionary) (status : Z)
  | Delete (query : dictionary) (status : Z).

(** A created object gets an address no object the caller holds has. *)
Definition create (os : objects) (h : Z) (o : object) : option (objects * list request) :=
  if h =? 0 then Some (os, [])
  else match os !! h with Some _ => None | None => Some (<[h := o]> os, []) end.

Arguments create : simpl never.

Definition ask (os : objects) (o : option request) : option (objects * list request) :=
  r ← o; Some (os, [r]).

Definition request_of (os : objects) (ev : event Security) : option (objects * list request) :=
  match ev_call ev in Security R return R -> option (objects * list request) with
  | CFStringCreateWithBytes b => fun h => create os h (OString b)
  | CFDataCreate b => fun h => create os h (OData b)
  | CFDictionaryCreateMutable => fun h => create os h (ODictionary ∅)
  | CFDictionaryCreate k v => fun h => w ← resolve os (Object v); create os h (ODictionary {[k := w]})
  | CFDictionarySetValue d k v => fun _ =>
      w ← resolve os v; m ← dictionary_of os d; Some (<[d := ODictionary (<[k := w]> m)]> os, [])
  | CFDictionaryRemoveValue d k => fun _ =>
      m ← dictionary_of os d; Some (<[d := ODictionary (delete k m)]> os, [])
  | CFRelease h => fun _ => Some (delete h os, [])
  | SecItemCopyMatching q => fun '(status, r) =>
      ask os (m ← dictionary_of os q; Some (Copy m status (matched_data <$> r)))
  | SecItemUpdate q a => fun status =>
      ask os (m ← dictionary_of os q; n ← dictionary_of os a; Some (Update m n status))
  | SecItemAdd q => fun status => ask os (m ← dictionary_of os q; Some (Add m status))
  | SecItemDelete q => fun status => ask os (m ← dictionary_of os q; Some (Delete m status))
  | _ => fun _ => Some (os, [])
  end (ev_answer ev).

(** All the requests of a trace; [None] when some created address was in use. *)
Fixpoint requests (tr : list (event Security)) (os : objects) : option (list request) :=
  match tr with
  | [] => Some []
  | ev :: tr =>
      '(os, rs) ← request_of os ev;
      rest ← requests tr os;
      Some (rs ++ rest)
  end.

(** ** The documented effect of a request on the items

    Items are identified by their primary attributes. *)
Definition primary (d : dictionary) : dictionary :=
  delete kSecReturnData (delete kSecMatchLimit (delete kSecValueData (delete kSecAttrLabel d))).
Abbreviation items := (dictionary -> option (list byte)).
Definition put (k : dictionary) (v : option (list byte)) (m : items) : items :=
  fun k' => if decide (k' = k) then v else m k'.

Definition item_step (m : items) (r : request) (m' : items) : Prop :=
  match r with
  | Copy q status result =>
      m' = m /\
      (status = errSecItemNotFound -> m (primary q) = None) /\
      (status = errSecSuccess -> q !! kSecReturnData = Some (VConstant kCFBooleanTrue) ->
         exists v, m (primary q) = Some v /\ result = Some (Some v))
  | Update q a status =>
      if decide (status = errSecSuccess)
      then exists v, is_Some (m (primary q)) /\ a !! kSecValueData = Some (VData v) /\ m' = put (primary q) (Some v) m
      else m' = m /\ (status = errSecItemNotFound -> m (primary q) = None)
  | Add q status =>
      if decide (status = errSecSuccess)
      then exists v, m (primary q) = None /\ q !! kSecValueData = Some (VData v) /\ m' = put (primary q) (Some v) m
      else m' = m /\ (status = errSecDuplicateItem -> is_Some (m (primary q)))
  | Delete q status =>
      if decide (status = errSecSuccess)
      then is_Some (m (primary q)) /\ m' = put (primary q) None m
      else m' = m /\ (status = errSecItemNotFound -> m (primary q) = None)
  end.

Inductive item_steps : items -> list request -> items -> Prop :=
  | items_nil m : item_steps m [] m
  | items_cons m r m' rs m'' : item_step m r m' -> item_steps m' rs m'' -> item_steps m (r :: rs) m''.

(** The item of an identifier. *)
Definition item_key (identifier : list byte) : dictionary :=
  <[kSecAttrSynchronizable := VConstant kCFBooleanFalse]>
  (<[kSecAttrAccount := VString identifier]>
  (<[kSecAttrService := VConstant service_name]>
  (<[kSecClass := VConstant kSecClassGenericPassword]> ∅))).

(** ** Reasoning about requests

    [asks p os Q]: started with the objects [os], every lawful run of [p] whose addresses are
    fresh ends with a trace, requests, value and objects in [Q]. *)
Fixpoint asks {A} (p : prog Security A) (os : objects)
    (Q : list (event Security) -> list request -> A -> objects -> Prop) : Prop :=
  match p with
  | Ret a => Q [] [] a os
  | Spin => True
  | Call e k => forall r os' rs, security_law _ e r -> request_of os (Event e r) = Some (os', rs) ->
      asks (k r) os' (fun tr rs' => Q (Event e r :: tr) (rs ++ rs'))
  end.

Lemma asks_mono {A} (p : prog Security A) os (Q Q' : list (event Security) -> list request -> A -> objects -> Prop) :
  asks p os Q -> (forall tr rs a os, Q tr rs a os -> Q' tr rs a os) -> asks p os Q'.
Proof.
  revert os Q Q'. induction p as [a| |R e k IH]; simpl; intros os Q Q' H HQ; [by apply HQ|done|].
  intros r os' rs Hl Hr. eapply IH; [by apply H|]. simpl. eauto.
Qed.

Lemma asks_bind {A B} (p : prog Security A) (f : A -> prog Security B) os
    (Q : list (event Security) -> list request -> B -> objects -> Prop) :
  asks p os (fun tr rs a os => asks (f a) os (fun tr' rs' => Q (tr ++ tr') (rs ++ rs'))) ->
  asks (mbind f p) os Q.
Proof.
  revert os Q. induction p as [a| |R e k IH]; simpl; intros os Q H; [done|done|].
  intros r os' rs Hl Hr. apply IH. eapply asks_mono; [by apply H|].
  intros tr rs' a os'' H'. simpl in H'. eapply asks_mono; [exact H'|].
  intros tr' rs'' b os3. by rewrite app_assoc.
Qed.

Lemma asks_sound {A} (p : prog Security A) os (Q : list (event Security) -> list request -> A -> objects -> Prop) tr a rs :
  asks p os Q -> traces p tr (Some a) -> Forall (lawful security_law) tr -> requests tr os = Some rs ->
  exists os', Q tr rs a os'.
Proof.
  revert os Q tr rs. induction p as [a'| |R e k IH]; intros os Q tr rs H Ht Hl Hrs; simpl in H, Ht.
  - destruct Ht as [-> [= <-]]. injection Hrs as <-. eauto.
  - by destruct Ht.
  - destruct Ht as (r & tr' & -> & Ht). apply Forall_cons_1 in Hl as [Hr Hl]. cbn [requests] in Hrs.
    apply bind_Some in Hrs as ([os1 rs1] & H1 & Hrs). apply bind_Some in Hrs as (rest & H2 & [= <-]).
    exact (IH r os1 (fun tr rs => Q (Event e r :: tr) (rs1 ++ rs)) _ _ (H r _ _ Hr H1) Ht Hl H2).
Qed.

(** Creating an object: no address, or a fresh one. *)
Lemma create_Some os h o os' rs :
  create os h o = Some (os', rs) ->
  rs = [] /\ (h = 0 /\ os' = os \/ h <> 0 /\ os !! h = None /\ os' = <[h := o]> os).
Proof.
  unfold create. destruct (Z.eqb_spec h 0) as [->|Hh]; [intros [= <- <-]; auto|].
  destruct (os !! h) eqn:E; [done|]. intros [= <- <-]. auto 10.
Qed.

Lemma dictionary_of_insert os h d : dictionary_of (<[h := ODictionary d]> os) h = Some d.
Proof. unfold dictionary_of. by rewrite lookup_insert_eq. Qed.
Lemma dictionary_of_insert_ne os h h' o : h' <> h -> dictionary_of (<[h' := o]> os) h = dictionary_of os h.
Proof. intros H. unfold dictionary_of. by rewrite lookup_insert_ne. Qed.
Lemma dictionary_of_fresh os h d h' : dictionary_of os h = Some d -> os !! h' = None -> h' <> h.
Proof. unfold dictionary_of. intros H H' ->. by rewrite H' in H. Qed.
Lemma resolve_data os h bytes : os !! h = Some (OData bytes) -> resolve os (Object h) = Some (VData bytes).
Proof. intros H. simpl. by rewrite H. Qed.

(** The blocks a trace fills. *)
Definition copied (tr : list (event Security)) : list (Z * list byte) :=
  omap (fun ev => match ev_call ev with memcpy p b => Some (p, b) | _ => None end) tr.

Lemma copied_app tr1 tr2 : copied (tr1 ++ tr2) = copied tr1 ++ copied tr2.
Proof. apply omap_app. Qed.

(** A query dictionary is the key of the identifier's item. *)
Lemma asks_credential_query identifier length (Q : list (event Security) -> list request -> Z -> objects -> Prop) :
  (forall tr os, (invalid_identifier identifier length = true -> tr = []) -> Q tr [] 0 os) ->
  (forall tr query os, query <> 0 -> invalid_identifier identifier length = false ->
     dictionary_of os query = Some (item_key (ztake length (default [] identifier))) -> copied tr = [] -> Q tr [] query os) ->
  asks (credential_query identifier length) ∅ Q.
Proof.
  intros H0 H1. unfold credential_query. destruct (invalid_identifier identifier length) eqn:Hv; [by apply H0|].
  simpl. intros account os rs _ Ha. unfold request_of in Ha. simpl in Ha. apply create_Some in Ha as (-> & [(-> & ->)|(Hne & _ & ->)]); [by apply H0|].
  rewrite (proj2 (Z.eqb_neq _ _) Hne). simpl. intros query os rs _ Hq. unfold request_of in Hq. simpl in Hq.
  apply create_Some in Hq as (-> & [(-> & ->)|(Hnq & Hfresh & ->)]).
  { simpl. intros u1 os rs _ [= <- <-]. by apply H0. }
  assert (account <> query) as Hd by (intros ->; by rewrite lookup_insert_eq in Hfresh).
  rewrite (proj2 (Z.eqb_neq _ _) Hnq). simpl.
  intros u2 os rs _. unfold request_of at 1. simpl. rewrite dictionary_of_insert. intros [= <- <-].
  intros u3 os rs _. unfold request_of at 1. simpl. rewrite dictionary_of_insert. intros [= <- <-].
  intros u4 os rs _. unfold request_of at 1. simpl. rewrite dictionary_of_insert.
  rewrite !lookup_insert_ne, lookup_insert_eq by done. intros [= <- <-].
  intros u5 os rs _. unfold request_of at 1. simpl. rewrite dictionary_of_insert. intros [= <- <-].
  intros u6 os rs _ [= <- <-]. apply H1; [done|done| |done].
  unfold dictionary_of. rewrite lookup_delete_ne, lookup_insert_eq by done. reflexivity.
Qed.

(** The dictionaries of a write: the add query carries the data and a label, the retry is the
    first query again. *)
Definition added (d : dictionary) (bytes : list byte) : dictionary :=
  <[kSecAttrLabel := VConstant label_text]> (<[kSecValueData := VData bytes]> d).

Inductive upserts (d attributes : dictionary) (bytes : list byte) : list request -> Z -> Prop :=
  | upsert_update status : status <> errSecItemNotFound ->
      upserts d attributes bytes [Update d attributes status] status
  | upsert_add status : status <> errSecDuplicateItem ->
      upserts d attributes bytes [Update d attributes errSecItemNotFound; Add (added d bytes) status] status
  | upsert_lost_race status :
      upserts d attributes bytes
        [Update d attributes errSecItemNotFound; Add (added d bytes) errSecDuplicateItem; Update d attributes status] status.

Lemma delete_added d bytes :
  d !! kSecValueData = None -> d !! kSecAttrLabel = None ->
  delete kSecAttrLabel (delete kSecValueData (added d bytes)) = d.
Proof.
  intros H1 H2. apply map_eq. intros k. unfold added.
  destruct (decide (k = kSecAttrLabel)) as [->|Hl]; [by rewrite lookup_delete_eq|].
  rewrite lookup_delete_ne by done.
  destruct (decide (k = kSecValueData)) as [->|Hv]; [by rewrite lookup_delete_eq|].
  by rewrite lookup_delete_ne, !lookup_insert_ne by done.
Qed.

Lemma asks_upsert os query attributes data d a bytes (Q : list (event Security) -> list request -> Z -> objects -> Prop) :
  dictionary_of os query = Some d -> dictionary_of os attributes = Some a -> os !! data = Some (OData bytes) ->
  query <> attributes -> query <> data -> d !! kSecValueData = None -> d !! kSecAttrLabel = None ->
  (forall tr rs status os, upserts d a bytes rs status -> Q tr rs status os) ->
  asks (upsert query attributes data) os Q.
Proof.
  intros Hq Ha Hd Hqa Hqd Hv Hlabel HQ. unfold upsert. simpl.
  intros status os1 rs _. unfold request_of at 1. simpl. rewrite Hq, Ha. simpl. intros [= <- <-].
  destruct (Z.eqb_spec status errSecItemNotFound) as [->|Hs]; [|by apply HQ; constructor]. simpl.
  intros u7 os1 rs _. unfold request_of at 1. simpl. rewrite Hd. simpl. rewrite Hq. simpl. intros [= <- <-].
  intros u8 os1 rs _. unfold request_of at 1. simpl. rewrite dictionary_of_insert. simpl. intros [= <- <-].
  intros status os1 rs _. unfold request_of at 1. simpl. rewrite dictionary_of_insert. simpl. intros [= <- <-].
  destruct (Z.eqb_spec status errSecDuplicateItem) as [->|Hs]; [|by apply HQ; constructor]. simpl.
  intros u9 os1 rs _. unfold request_of at 1. simpl. rewrite dictionary_of_insert. simpl. intros [= <- <-].
  intros u10 os1 rs _. unfold request_of at 1. simpl. rewrite dictionary_of_insert. simpl. intros [= <- <-].
  intros status os1 rs _. unfold request_of at 1. simpl.
  rewrite dictionary_of_insert, !dictionary_of_insert_ne, Ha by done. simpl. intros [= <- <-].
  apply HQ. fold (added d bytes). rewrite delete_added by done. constructor.
Qed.

Lemma item_key_no_value identifier : item_key identifier !! kSecValueData = None.
Proof. reflexivity. Qed.
Lemma item_key_no_label identifier : item_key identifier !! kSecAttrLabel = None.
Proof. reflexivity. Qed.
Lemma primary_item_key identifier : primary (item_key identifier) = item_key identifier.
Proof. unfold primary. by rewrite !delete_id by (rewrite ?delete_id; reflexivity). Qed.
Lemma primary_added identifier bytes : primary (added (item_key identifier) bytes) = item_key identifier.
Proof.
  unfold primary. rewrite <- (primary_item_key identifier) at 2. unfold primary, added.
  apply map_eq. intros k. rewrite !lookup_delete, !lookup_insert. by repeat case_decide; subst.
Qed.

(** What a write asks for: nothing unless its input is valid, else one upsert of the value. *)
Definition write_spec (identifier : pointer) (identifier_length : Z) (value : pointer) (value_length : Z)
    (tr : list (event Security)) (rs : list request) (r : Z) : Prop :=
  (r = MCP_KEYCHAIN_INVALID_INPUT /\ rs = []) \/
  (r = MCP_KEYCHAIN_FAILURE /\ rs = []) \/
  exists bytes status attributes, value = Some bytes /\ invalid_identifier identifier identifier_length = false /\
    attributes !! kSecValueData = Some (VData (ztake value_length bytes)) /\
    upserts (item_key (ztake identifier_length (default [] identifier))) attributes (ztake value_length bytes) rs status /\
    r = (if status =? errSecSuccess then MCP_KEYCHAIN_SUCCESS else MCP_KEYCHAIN_FAILURE).

#[local] Opaque upsert.
Lemma asks_write identifier identifier_length value value_length :
  asks (agent_mcp_keychain_write identifier identifier_length value value_length) ∅
    (fun tr rs r os => write_spec identifier identifier_length value value_length tr rs r).
Proof.
  unfold agent_mcp_keychain_write. destruct value as [bytes|]; [|by left].
  destruct (_ || _); [by left|]. apply asks_bind, asks_credential_query; [by intros; left|].
  intros tr query os Hq Hid Hdict _. rewrite (proj2 (Z.eqb_neq _ _) Hq). simpl.
  intros data os1 rs _ Hd. unfold request_of in Hd. simpl in Hd. apply create_Some in Hd as (-> & [(-> & ->)|(Hnd & Hfd & ->)]).
  { simpl. intros u1 os1 rs _ [= <- <-]. by right; left. }
  rewrite (proj2 (Z.eqb_neq _ _) Hnd). simpl.
  intros attributes os1 rs _ Ha. unfold request_of in Ha. simpl in Ha. rewrite lookup_insert_eq in Ha. simpl in Ha.
  apply create_Some in Ha as (-> & [(-> & ->)|(Hna & Hfa & ->)]).
  { simpl. intros u1 os1 rs _ [= <- <-]. simpl. intros u2 os1 rs _ [= <- <-]. by right; left. }
  rewrite (proj2 (Z.eqb_neq _ _) Hna). simpl.
  assert (data <> query) as Hdq by (by eapply dictionary_of_fresh).
  assert (attributes <> data) as Had by (intros ->; by rewrite lookup_insert_eq in Hfa).
  assert (attributes <> query) as Haq.
  { eapply dictionary_of_fresh; [|exact Hfa]. by rewrite dictionary_of_insert_ne. }
  apply asks_bind. eapply (asks_upsert _ query attributes data).
  - by rewrite !dictionary_of_insert_ne.
  - apply dictionary_of_insert.
  - rewrite lookup_insert_ne by done. apply lookup_insert_eq.
  - done.
  - done.
  - apply item_key_no_value.
  - apply item_key_no_label.
  - intros tr' rs status os' Hup.
    intros u1 os2 rs1 _ [= <- <-] u2 os3 rs2 _ [= <- <-] u3 os4 rs3 _ [= <- <-].
    right; right. exists bytes, status. eexists. split_and!; [done|done| |by rewrite app_nil_r|done].
    apply lookup_singleton_eq.
Qed.

#[local] Transparent upsert.

(** The effect of an upsert on the items. *)
Lemma upserts_effect identifier attributes bytes rs status m m' :
  upserts (item_key identifier) attributes bytes rs status ->
  attributes !! kSecValueData = Some (VData bytes) -> item_steps m rs m' ->
  m' = if status =? errSecSuccess then put (item_key identifier) (Some bytes) m else m.
Proof.
  intros Hup Ha Hs.
  assert (forall d status m m', primary d = item_key identifier -> item_step m (Update d attributes status) m' ->
    m' = if status =? errSecSuccess then put (item_key identifier) (Some bytes) m else m) as Hupdate.
  { intros d st m1 m2 Hp H. unfold item_step in H. destruct (Z.eqb_spec st errSecSuccess) as [->|Hst]; simpl in H.
    - destruct H as (v & _ & Hv & ->). rewrite Ha in Hv. injection Hv as <-. by rewrite Hp.
    - rewrite decide_False in H by done. by destruct H. }
  destruct Hup as [status Hst|status Hst|status].
  - inversion_clear Hs as [|? ? m1 ? ? H1 H2]. inversion H2; subst. by apply (Hupdate (item_key identifier)); [apply primary_item_key|].
  - inversion_clear Hs as [|? ? m1 ? ? H1 H2]. inversion_clear H2 as [|? ? m2 ? ? H3 H4]. inversion H4; subst.
    apply Hupdate in H1; [|apply primary_item_key]. simpl in H1. subst m1.
    unfold item_step in H3. rewrite primary_added in H3.
    destruct (Z.eqb_spec status errSecSuccess) as [->|Hne]; simpl in H3; [|rewrite decide_False in H3 by done; by destruct H3].
    destruct H3 as (v & _ & Hv & ->). unfold added in Hv. rewrite lookup_insert_ne, lookup_insert_eq in Hv by done.
    by injection Hv as <-.
  - inversion_clear Hs as [|? ? m1 ? ? H1 H2]. inversion_clear H2 as [|? ? m2 ? ? H3 H4].
    inversion_clear H4 as [|? ? m3 ? ? H5 H6]. inversion H6; subst.
    apply Hupdate in H1; [|apply primary_item_key]. simpl in H1. subst m1.
    unfold item_step in H3. simpl in H3. destruct H3 as [-> _].
    by apply (Hupdate (item_key identifier)); [apply primary_item_key|].
Qed.

(** ** Reads *)

Definition read_query (d : dictionary) : dictionary :=
  <[kSecMatchLimit := VConstant kSecMatchLimitOne]> (<[kSecReturnData := VConstant kCFBooleanTrue]> d).
Lemma primary_read_query identifier : primary (read_query (item_key identifier)) = item_key identifier.
Proof.
  rewrite <- (primary_item_key identifier) at 2. unfold primary, read_query.
  apply map_eq. intros k. rewrite !lookup_delete, !lookup_insert. by repeat case_decide; subst.
Qed.

(** What a read asks for and hands out: on success a block holding exactly the item's bytes,
    otherwise NULL and 0. *)
Inductive read_spec (identifier : list byte) : list (event Security) -> list request -> read_outputs -> Prop :=
  | read_refused tr st : st = MCP_KEYCHAIN_INVALID_INPUT -> read_spec identifier tr [] (st, Some 0, Some 0)
  | read_absent tr r :
      read_spec identifier tr [Copy (read_query (item_key identifier)) errSecItemNotFound r]
        (MCP_KEYCHAIN_NOT_FOUND, Some 0, Some 0)
  | read_failed tr status r : status <> errSecItemNotFound ->
      read_spec identifier tr [Copy (read_query (item_key identifier)) status r]
        (MCP_KEYCHAIN_FAILURE, Some 0, Some 0)
  | read_found tr p bytes : p <> 0 -> 0 < zlen bytes <= maximum_credential_bytes -> copied tr = [(p, bytes)] ->
      read_spec identifier tr [Copy (read_query (item_key identifier)) errSecSuccess (Some (Some bytes))]
        (MCP_KEYCHAIN_SUCCESS, Some p, Some (zlen bytes)).

Lemma asks_copy_result identifier result status os tr0 :
  copied tr0 = [] ->
  match result with Some m => answered m status | None => True end ->
  asks (copy_result result status (Some 0) (Some 0)) os
    (fun tr rs a _ => read_spec identifier (tr0 ++ tr)
       ([Copy (read_query (item_key identifier)) status (matched_data <$> result)] ++ rs) a).
Proof.
  intros Htr Hr. unfold copy_result. destruct (Z.eqb_spec status errSecItemNotFound) as [->|Hs]; [constructor|].
  destruct result as [m|]; [|by constructor].
  assert (forall (tr : list (event Security)) os, asks (call (CFRelease (matched_ref m));; Ret (MCP_KEYCHAIN_FAILURE, Some 0, Some 0)) os
    (fun tr' rs a _ => read_spec identifier (tr0 ++ tr ++ tr')
       ([Copy (read_query (item_key identifier)) status (matched_data <$> Some m)] ++ rs) a)) as Hfail.
  { intros tr os1. simpl. intros u1 os2 rs _ [= <- <-]. by constructor. }
  destruct (Z.eqb_spec status errSecSuccess) as [->|Hss]; cbn [negb]; [|apply (Hfail [])].
  simpl. intros is_data os1 rs Hlaw [= <- <-]. simpl in Hlaw. destruct is_data; [|apply (Hfail [_])].
  symmetry in Hlaw. apply bool_decide_eq_true in Hlaw as [bytes Hb]. simpl.
  intros length os1 rs Hlen [= <- <-]. simpl in Hlen. specialize (Hlen _ Hb). subst length.
  destruct Hr as (_ & _ & Hrange). specialize (Hrange _ Hb).
  destruct ((_ <=? 0) || _) eqn:Hsize; [apply (Hfail [_; _])|]. simpl.
  intros p os1 rs _ [= <- <-]. destruct (Z.eqb_spec p 0) as [->|Hp]; [apply (Hfail [_; _; _])|]. simpl.
  intros bytes' os1 rs Hb' [= <- <-]. simpl in Hb'. rewrite (Hb' _ Hb).
  intros u1 os1 rs _ [= <- <-] u2 os2 rs1 _ [= <- <-]. simpl. rewrite Hb, ztake_all.
  unfold maximum_credential_bytes in *.
  rewrite u64_id in Hsize by lia.
  apply read_found; [done|unfold maximum_credential_bytes; lia|].
  rewrite copied_app, Htr. reflexivity.
Qed.

Lemma asks_read identifier length (x y : Z) :
  asks (agent_mcp_keychain_read (Some identifier) length (Some x) (Some y)) ∅
    (fun tr rs a _ => read_spec (ztake length identifier) tr rs a).
Proof.
  unfold agent_mcp_keychain_read. simpl. apply asks_bind, asks_credential_query; [by constructor|].
  intros tr query os Hq Hid Hd Hc. rewrite (proj2 (Z.eqb_neq _ _) Hq). simpl in Hd |- *.
  intros u1 os1 rs1 _. unfold request_of at 1. simpl. rewrite Hd. simpl. intros [= <- <-].
  intros u2 os1 rs1 _. unfold request_of at 1. simpl. rewrite dictionary_of_insert. simpl. intros [= <- <-].
  intros [status result] os1 rs1 Hlaw. unfold request_of at 1. simpl. rewrite dictionary_of_insert. simpl. intros [= <- <-].
  intros u3 os1 rs1 _ [= <- <-].
  eapply asks_mono; [apply (asks_copy_result (ztake length identifier) _ _ _ (tr ++
    [Event (CFDictionarySetValue query kSecReturnData (Constant kCFBooleanTrue)) u1;
     Event (CFDictionarySetValue query kSecMatchLimit (Constant kSecMatchLimitOne)) u2;
     Event (SecItemCopyMatching query) (status, result); Event (CFRelease query) u3]))|].
  - by rewrite copied_app, Hc.
  - exact Hlaw.
  - intros tr' rs a os' H. cbv beta in H. by rewrite <- app_assoc in H.
Qed.

Lemma asks_delete identifier length :
  asks (agent_mcp_keychain_delete identifier length) ∅ (fun tr rs r _ =>
    (r = MCP_KEYCHAIN_INVALID_INPUT /\ rs = []) \/
    exists status, invalid_identifier identifier length = false /\
      rs = [Delete (item_key (ztake length (default [] identifier))) status] /\
      r = if (status =? errSecSuccess) || (status =? errSecItemNotFound)
          then MCP_KEYCHAIN_SUCCESS else MCP_KEYCHAIN_FAILURE).
Proof.
  unfold agent_mcp_keychain_delete. apply asks_bind, asks_credential_query; [by left|].
  intros tr query os Hq Hid Hd _. rewrite (proj2 (Z.eqb_neq _ _) Hq). simpl.
  intros status os1 rs1 _. unfold request_of at 1. simpl. rewrite Hd. simpl. intros [= <- <-].
  intros u1 os2 rs2 _ [= <- <-]. right. eauto.
Qed.

Lemma item_key_inj i j : item_key i = item_key j -> i = j.
Proof.
  intros H. apply (f_equal (lookup kSecAttrAccount)) in H. unfold item_key in H.
  by rewrite !(lookup_insert_ne _ kSecAttrSynchronizable), !lookup_insert_eq in H by done; simplify_eq.
Qed.

Lemma put_eq k v m : put k v m k = v.
Proof. unfold put. by rewrite decide_True. Qed.
Lemma put_item_ne i j v m : i <> j -> put (item_key i) v m (item_key j) = m (item_key j).
Proof. intros H. unfold put. rewrite decide_False; [done|]. intros E. by apply item_key_inj in E. Qed.

(** ** Ownership *)

Lemma owns_credential_query identifier length (l : ledger) (Q : Z -> ledger -> Prop) :
  (forall q, Q q (own Cf q ⊎ l)) -> owns security_law (credential_query identifier length) l Q.
Proof.
  intros HQ. assert (Q 0 l) as HQ0.
  { pose proof (HQ 0) as H. rewrite own_null in H. by replace (∅ ⊎ l) with l in H by multiset_solver. }
  unfold credential_query. destruct (invalid_identifier _ _); [done|]. own_call. rename r into account.
  destruct (Z.eqb_spec account 0) as [->|Ha]; [by rewrite own_null, ledger_keep|].
  rewrite own_singleton by done. own_call. rename r into query.
  destruct (Z.eqb_spec query 0) as [->|Hq]; simpl.
  { rewrite own_null, ledger_keep. own_call.
    replace (_ ∖ _ ⊎ ∅) with l by multiset_solver. done. }
  rewrite own_singleton by done. own_call. own_call. own_call. own_call. own_call.
  replace (_ ∖ _ ⊎ ∅) with (own Cf query ⊎ l) by (rewrite own_singleton by done; multiset_solver). done.
Qed.

(** Releases that follow one another in a failure path. *)
Lemma owns_release {B} h (k : unit -> prog Security B) (l : ledger) (Q : B -> ledger -> Prop) :
  owns security_law (k tt) l Q -> owns security_law (mbind k (call (CFRelease h))) ({[+ (Cf, h) +]} ⊎ l) Q.
Proof. intros Hk. own_call. destruct r. by replace (_ ∖ _ ⊎ _) with l by multiset_solver. Qed.

Lemma owns_copy_result result status (o n : option Z) (l : ledger) (Q : read_outputs -> ledger -> Prop) :
  match result with Some m => answered m status | None => True end ->
  (forall st, st <> MCP_KEYCHAIN_SUCCESS -> Q (st, o, n) l) ->
  (forall p len, p <> 0 -> Q (MCP_KEYCHAIN_SUCCESS, Some p, Some len) ({[+ (Mem, p) +]} ⊎ l)) ->
  owns security_law (copy_result result status o n)
    ((match result with Some m => own Cf (matched_ref m) | None => ∅ end) ⊎ l) Q.
Proof.
  intros Hr HQ HQ'. unfold copy_result.
  assert (Q (MCP_KEYCHAIN_FAILURE, o, n) l) as HQf by (by apply HQ). destruct (Z.eqb_spec status errSecItemNotFound) as [->|Hs].
  { destruct result as [m|]; [by destruct Hr as (_ & [] & _)|].
    replace (∅ ⊎ l) with l by multiset_solver. by apply HQ. }
  destruct result as [m|]; [|by replace (∅ ⊎ l) with l by multiset_solver].
  rewrite own_singleton by (by destruct Hr).
  assert (owns security_law (call (CFRelease (matched_ref m));; Ret (MCP_KEYCHAIN_FAILURE, o, n))
    ({[+ (Cf, matched_ref m) +]} ⊎ l) Q) as Hfail by (by apply owns_release).
  destruct (status =? errSecSuccess); cbn [negb]; [|done].
  own_call. destruct r; [|exact Hfail]. own_call. destruct (_ || _); [exact Hfail|]. own_call. rename r0 into p.
  destruct (Z.eqb_spec p 0) as [->|Hp]; [rewrite own_null, ledger_keep; exact Hfail|].
  rewrite own_singleton by done. own_call. own_call. own_call.
  replace (_ ∖ _ ⊎ _) with ({[+ (Mem, p) +]} ⊎ l : ledger) by multiset_solver. by apply HQ'.
Qed.

#[local] Opaque copy_result upsert.
Lemma owns_read identifier length output output_length :
  owns security_law (agent_mcp_keychain_read identifier length output output_length) ∅
    (fun '(st, o, n) l =>
       if st =? MCP_KEYCHAIN_SUCCESS then exists p, o = Some p /\ p <> 0 /\ l = {[+ (Mem, p) +]} else l = ∅).
Proof.
  unfold agent_mcp_keychain_read. destruct output, output_length; simpl; try done.
  apply owns_bind, owns_credential_query. intros query.
  destruct (Z.eqb_spec query 0) as [->|Hq]; [rewrite own_null; simpl; multiset_solver|]. rewrite own_singleton by done.
  own_call. own_call. own_call. destruct r1 as [status result]. simpl in Hlaw1. own_call.
  match goal with |- owns _ _ ?l _ =>
    replace l with ((match result with Some m => own Cf (matched_ref m) | None => ∅ end) ⊎ ∅ : ledger)
      by (destruct result; multiset_solver) end.
  apply owns_copy_result; [done| |].
  - intros st Hst. by rewrite (proj2 (Z.eqb_neq _ _) Hst).
  - intros p len Hp. simpl. exists p. split_and!; [done|done|multiset_solver].
Qed.

#[local] Transparent copy_result upsert.

Lemma owns_upsert query attributes data (l : ledger) (Q : Z -> ledger -> Prop) :
  {[+ (Cf, query) +]} ⊎ {[+ (Cf, attributes) +]} ⊎ {[+ (Cf, data) +]} ⊆ l -> (forall st, Q st l) ->
  owns security_law (upsert query attributes data) l Q.
Proof.
  intros Hl HQ.
  assert ({[+ (Cf, query) +]} ⊎ {[+ (Cf, attributes) +]} ⊆ l) as H1 by (etrans; [apply gmultiset_disj_union_subseteq_l|exact Hl]).
  assert ({[+ (Cf, query) +]} ⊎ {[+ (Cf, data) +]} ⊆ l) as H2.
  { etrans; [|exact Hl]. apply gmultiset_disj_union_mono; [apply gmultiset_disj_union_subseteq_l|done]. }
  assert ({[+ (Cf, query) +]} ⊆ l) as H3 by multiset_solver. clear Hl.
  unfold upsert.
  own_call. destruct (negb _); [apply HQ|]. own_call. own_call. own_call. destruct (negb _); [apply HQ|].
  own_call. own_call. own_call. apply HQ.
Qed.

#[local] Opaque upsert.
Lemma owns_write identifier length value value_length :
  owns security_law (agent_mcp_keychain_write identifier length value value_length) ∅ (fun _ l => l = ∅).
Proof.
  unfold agent_mcp_keychain_write. destruct value as [bytes|]; [|done]. destruct (_ || _); [done|].
  apply owns_bind, owns_credential_query. intros query.
  destruct (Z.eqb_spec query 0) as [->|Hq]; [rewrite own_null; simpl; multiset_solver|]. rewrite own_singleton by done.
  own_call. rename r into data. destruct (Z.eqb_spec data 0) as [->|Hd].
  { rewrite own_null, ledger_keep. apply owns_release. done. }
  rewrite own_singleton by done. own_call. rename r into attributes.
  destruct (Z.eqb_spec attributes 0) as [->|Ha].
  { rewrite own_null, ledger_keep.
    replace (_ ∖ _ ⊎ _) with ({[+ (Cf, data) +]} ⊎ ({[+ (Cf, query) +]} ⊎ ∅) : ledger) by multiset_solver.
    apply owns_release, owns_release. done. }
  rewrite own_singleton by done.
  match goal with |- owns _ _ ?l _ =>
    replace l with ({[+ (Cf, attributes) +]} ⊎ ({[+ (Cf, data) +]} ⊎ ({[+ (Cf, query) +]} ⊎ ∅)) : ledger)
      by multiset_solver end.
  apply owns_bind, owns_upsert; [multiset_solver|]. intros st.
  apply owns_release, owns_release, owns_release. done.
Qed.

#[local] Transparent upsert.

Lemma owns_delete identifier length :
  owns security_law (agent_mcp_keychain_delete identifier length) ∅ (fun _ l => l = ∅).
Proof.
  unfold agent_mcp_keychain_delete. apply owns_bind, owns_credential_query. intros query.
  destruct (Z.eqb_spec query 0) as [->|Hq]; [rewrite own_null; simpl; multiset_solver|]. rewrite own_singleton by done.
  own_call. own_call. multiset_solver.
Qed.

(** ** Release *)

(** A block after the stores of a trace. *)
Fixpoint block_after (p : Z) (tr : list (event Security)) (block : list byte) : list byte :=
  match tr with
  | [] => block
  | ev :: tr =>
      block_after p tr
        (match ev_call ev with
         | store_zero q i => if q =? p then <[Z.to_nat i := Byte.x00]> block else block
         | _ => block
         end)
  end.

Lemma zero_bytes_trace p start count tr o :
  traces (zero_bytes p start count) tr o ->
  o = Some tt /\ tr = map (fun i => Event (store_zero p (start + Z.of_nat i)) tt) (seq 0 count).
Proof.
  revert start tr. induction count as [|count IH]; intros start tr; simpl; [by intros [-> ->]|].
  intros ([] & tr' & -> & H). destruct (IH _ _ H) as [-> ->]. split; [done|].
  rewrite Z.add_0_r. f_equal. rewrite <- seq_shift, map_map. apply map_ext. intros i. do 2 f_equal. lia.
Qed.

Lemma block_after_zeroes p count block :
  (count <= length block)%nat ->
  block_after p (map (fun i => Event (store_zero p (Z.of_nat i)) tt) (seq 0 count)) block
  = replicate count Byte.x00 ++ drop count block.
Proof.
  assert (forall start b, (start + count <= length b)%nat ->
    block_after p (map (fun i => Event (store_zero p (Z.of_nat i)) tt) (seq start count)) b
    = take start b ++ replicate count Byte.x00 ++ drop (start + count) b) as H.
  { clear block. induction count as [|count IH]; intros start b Hb; simpl.
    - rewrite Nat.add_0_r. by rewrite take_drop.
    - rewrite Z.eqb_refl, Nat2Z.id, IH by (rewrite length_insert; lia).
      rewrite (take_S_r _ _ Byte.x00) by (apply list_lookup_insert_eq; lia).
      rewrite take_insert_ge by lia. rewrite drop_insert_lt by lia.
      rewrite <- !app_assoc. simpl. by replace (start + S count)%nat with (S start + count)%nat by lia. }
  intros Hc. by rewrite H.
Qed.

(** ** Properties *)

(** C18: a record is read back as it was written.  Suppose a write of a value reported success
    and the next process to touch the keychain reads the same identifier.  Whatever the
    services answer within their documented behaviour, the read does not report the record
    absent; if it succeeds it hands out one block holding exactly the written bytes and their
    number; if it fails it hands out NULL and 0; and it changes nothing. *)
Theorem keychain_round_trip identifier n value k tr1 rs1 m m1 x y tr2 st out len rs2 m2 :
  traces (agent_mcp_keychain_write (Some identifier) n (Some value) k) tr1 (Some MCP_KEYCHAIN_SUCCESS) ->
  Forall (lawful security_law) tr1 -> requests tr1 ∅ = Some rs1 -> item_steps m rs1 m1 ->
  traces (agent_mcp_keychain_read (Some identifier) n (Some x) (Some y)) tr2 (Some (st, out, len)) ->
  Forall (lawful security_law) tr2 -> requests tr2 ∅ = Some rs2 -> item_steps m1 rs2 m2 ->
  m2 = m1 /\ st <> MCP_KEYCHAIN_NOT_FOUND /\
  (st = MCP_KEYCHAIN_SUCCESS -> exists p, out = Some p /\ p <> 0 /\ len = Some (zlen (ztake k value)) /\
     copied tr2 = [(p, ztake k value)]) /\
  (st <> MCP_KEYCHAIN_SUCCESS -> out = Some 0 /\ len = Some 0).
Proof.
  intros Ht1 Hl1 Hr1 Hs1 Ht2 Hl2 Hr2 Hs2.
  destruct (asks_sound _ _ _ _ _ _ (asks_write (Some identifier) n (Some value) k) Ht1 Hl1 Hr1) as [_ Hw].
  destruct Hw as [[[=] _]|[[[=] _]|(bytes & status & a & [= <-] & _ & Ha & Hup & Hst)]].
  assert (m1 = put (item_key (ztake n identifier)) (Some (ztake k value)) m) as ->.
  { rewrite (upserts_effect _ _ _ _ _ _ _ Hup Ha Hs1). by destruct (status =? errSecSuccess). }
  destruct (asks_sound _ _ _ _ _ _ (asks_read identifier n x y) Ht2 Hl2 Hr2) as [_ Hread].
  inversion Hread as [? ? ? E1 E2 E3|? ? E1 E2 E3|? ? ? Hne E1 E2 E3|? p ? Hp Hlen Hc E1 E2 E3]; subst.
  - inversion Hs2; subst. by split_and!.
  - exfalso. inversion_clear Hs2 as [|? ? ma ? ? H1 H2]. destruct H1 as (_ & H & _). specialize (H eq_refl).
    by rewrite primary_read_query, put_eq in H.
  - inversion_clear Hs2 as [|? ? ma ? ? H1 H2]. destruct H1 as (-> & _). inversion H2; subst. by split_and!.
  - inversion_clear Hs2 as [|? ? ma ? ? H1 Hn]. destruct H1 as (-> & _ & H). inversion Hn; subst.
    destruct (H eq_refl eq_refl) as (v & Hv & [= ->]). rewrite primary_read_query, put_eq in Hv.
    injection Hv as <-. split_and!; [done|done|eauto|done].
Qed.

(** A write updates or adds the identifier's item and nothing else.  A write asks the
    service for nothing, or first to update the item, then, if there is none, to add it, and,
    if another process was faster, to update that one with the original query; it succeeds
    exactly when the last request did.  Undisturbed, success stores the value under the
    identifier, failure changes nothing, and every other identifier's record is as it was. *)
Theorem keychain_write_upserts identifier n value k tr r rs :
  traces (agent_mcp_keychain_write identifier n value k) tr (Some r) ->
  Forall (lawful security_law) tr -> requests tr ∅ = Some rs ->
  write_spec identifier n value k tr rs r /\
  forall m m', item_steps m rs m' ->
    (r = MCP_KEYCHAIN_SUCCESS ->
       m' (item_key (ztake n (default [] identifier))) = Some (ztake k (default [] value))) /\
    (r <> MCP_KEYCHAIN_SUCCESS -> m' = m) /\
    (forall other, other <> ztake n (default [] identifier) -> m' (item_key other) = m (item_key other)).
Proof.
  intros Ht Hl Hr. destruct (asks_sound _ _ _ _ _ _ (asks_write identifier n value k) Ht Hl Hr) as [_ Hw].
  split; [done|]. intros m m' Hs.
  destruct Hw as [[-> ->]|[[-> ->]|(bytes & status & a & -> & _ & Ha & Hup & ->)]].
  - inversion Hs; subst. by split_and!.
  - inversion Hs; subst. by split_and!.
  - rewrite (upserts_effect _ _ _ _ _ _ _ Hup Ha Hs). destruct (status =? errSecSuccess); simpl.
    + split_and!; [by intros _; rewrite put_eq|done|]. intros other Hne. by apply put_item_ne.
    + by split_and!.
Qed.

(** A deleted record is gone, and no other is.  When a delete reports success and nobody
    interferes, the identifier has no record afterwards, whether or not it had one; when it
    reports anything else nothing has changed; other identifiers' records are as they were. *)
Theorem keychain_delete_removes identifier n tr r rs m m' :
  traces (agent_mcp_keychain_delete identifier n) tr (Some r) -> Forall (lawful security_law) tr ->
  requests tr ∅ = Some rs -> item_steps m rs m' ->
  (r = MCP_KEYCHAIN_SUCCESS -> m' (item_key (ztake n (default [] identifier))) = None) /\
  (r <> MCP_KEYCHAIN_SUCCESS -> m' = m) /\
  (forall other, other <> ztake n (default [] identifier) -> m' (item_key other) = m (item_key other)).
Proof.
  intros Ht Hl Hr Hs. destruct (asks_sound _ _ _ _ _ _ (asks_delete identifier n) Ht Hl Hr) as [_ H].
  destruct H as [[-> ->]|(status & _ & -> & ->)]; [inversion Hs; subst; by split_and!|].
  inversion_clear Hs as [|? ? ? ? ? H1 H2]. inversion H2; subst. unfold item_step in H1.
  rewrite primary_item_key in H1. case_decide as Hst.
  - subst. destruct H1 as [_ ->]. simpl. split_and!; [by intros _; rewrite put_eq|done|].
    intros other Hne. by apply put_item_ne.
  - destruct H1 as [-> H1]. rewrite (proj2 (Z.eqb_neq _ _) Hst). simpl.
    destruct (status =? errSecItemNotFound) eqn:Hn; [|by split_and!].
    split_and!; [intros _; apply H1; lia|done|done].
Qed.

(** Nothing leaks and nothing is released twice.  Whatever the frameworks answer, a write
    or a delete releases every Core Foundation object it created or received exactly once; so
    does a read, which hands out one allocated block exactly when it reports success. *)
Theorem keychain_balanced identifier n value k output output_length :
  (forall tr r, traces (agent_mcp_keychain_write identifier n value k) tr (Some r) ->
     Forall (lawful security_law) tr -> audit tr ∅ = Some ∅) /\
  (forall tr r, traces (agent_mcp_keychain_delete identifier n) tr (Some r) ->
     Forall (lawful security_law) tr -> audit tr ∅ = Some ∅) /\
  (forall tr st o l, traces (agent_mcp_keychain_read identifier n output output_length) tr (Some (st, o, l)) ->
     Forall (lawful security_law) tr ->
     if st =? MCP_KEYCHAIN_SUCCESS
     then exists p, o = Some p /\ p <> 0 /\ audit tr ∅ = Some {[+ (Mem, p) +]} else audit tr ∅ = Some ∅).
Proof.
  split_and!.
  - intros tr r Ht Hl. destruct (owns_sound _ _ _ _ _ _ (owns_write identifier n value k) Ht Hl) as (l & -> & HQ).
    by rewrite (HQ r eq_refl).
  - intros tr r Ht Hl. destruct (owns_sound _ _ _ _ _ _ (owns_delete identifier n) Ht Hl) as (l & -> & HQ).
    by rewrite (HQ r eq_refl).
  - intros tr st o len Ht Hl.
    destruct (owns_sound _ _ _ _ _ _ (owns_read identifier n output output_length) Ht Hl) as (l & -> & HQ).
    specialize (HQ _ eq_refl). simpl in HQ. destruct (st =? MCP_KEYCHAIN_SUCCESS); [|by rewrite HQ].
    destruct HQ as (p & -> & Hp & ->). eauto.
Qed.

(** Invalid input is refused before any call.  An identifier that is NULL, empty, longer
    than 4,096 bytes or holds a NUL, a value that is NULL, empty or longer than 1 MiB, or a
    missing output pointer makes every operation answer "invalid input" without a call, a read
    with NULL and 0 in the output variables there are. *)
Theorem keychain_rejects_invalid identifier n value k output output_length :
  (invalid_identifier identifier n = true ->
     (forall tr o, traces (agent_mcp_keychain_delete identifier n) tr o -> tr = [] /\ o = Some MCP_KEYCHAIN_INVALID_INPUT) /\
     (forall tr o, traces (agent_mcp_keychain_write identifier n value k) tr o -> tr = [] /\ o = Some MCP_KEYCHAIN_INVALID_INPUT)) /\
  (value = None \/ k = 0 \/ maximum_credential_bytes < k ->
     forall tr o, traces (agent_mcp_keychain_write identifier n value k) tr o -> tr = [] /\ o = Some MCP_KEYCHAIN_INVALID_INPUT) /\
  (invalid_identifier identifier n = true \/ output = None \/ output_length = None ->
     forall tr o, traces (agent_mcp_keychain_read identifier n output output_length) tr o ->
       tr = [] /\ o = Some (MCP_KEYCHAIN_INVALID_INPUT, (fun _ => 0) <$> output, (fun _ => 0) <$> output_length)).
Proof.
  unfold agent_mcp_keychain_delete, agent_mcp_keychain_write, agent_mcp_keychain_read, credential_query.
  split_and!.
  - intros ->. split; [done|]. intros tr o. destruct value; [|done]. by destruct (_ || _).
  - intros Hv tr o. destruct value as [v|]; [|done].
    destruct ((k =? 0) || (k >? maximum_credential_bytes)) eqn:E; [done|]. destruct Hv as [?|[?|?]]; [done|lia|lia].
  - intros Hi tr o. destruct output, output_length; simpl; try done. destruct Hi as [->|[?|?]]; done.
Qed.

(** A record is wiped before its memory is given back.  Releasing a block of [n] bytes
    stores a zero to each of them, once and in order, and only then frees the block: no byte of
    the credential is left in the freed memory; NULL is ignored. *)
Theorem keychain_release_wipes p n tr o :
  traces (agent_mcp_keychain_release p n) tr o ->
  o = Some tt /\
  if p =? 0 then tr = []
  else exists stores, tr = stores ++ [Event (free p) tt] /\
    audit tr {[+ (Mem, p) +]} = Some ∅ /\
    forall block, zlen block = n -> block_after p stores block = replicate (length block) Byte.x00.
Proof.
  unfold agent_mcp_keychain_release. destruct (p =? 0) eqn:Hp; simpl; [by intros [-> ->]|].
  intros Ht. apply traces_bind in Ht as [([] & tr1 & tr2 & -> & H1 & H2)|[H1 _]].
  2: { by apply zero_bytes_trace in H1 as [[=] _]. }
  apply zero_bytes_trace in H1 as [_ ->]. destruct H2 as ([] & tr' & -> & -> & ->). split; [done|].
  eexists. split; [done|]. split.
  - rewrite audit_app. assert (forall l, audit (map (fun i => Event (store_zero p (0 + Z.of_nat i)) tt) l) {[+ (Mem, p) +]}
      = Some ({[+ (Mem, p) +]} : ledger)) as ->.
    { induction l as [|i l IH]; [done|]. simpl. unfold audit_event. simpl.
      rewrite decide_True by multiset_solver. simpl. rewrite ledger_keep. exact IH. }
    simpl. unfold audit_event. simpl. rewrite decide_True by multiset_solver. simpl. f_equal. multiset_solver.
  - intros block <-. rewrite Nat2Z.id. rewrite (map_ext _ (fun i => Event (store_zero p (Z.of_nat i)) tt)) by done.
    rewrite block_after_zeroes by done. by rewrite drop_all, app_nil_r.
Qed.

(** ** Runs

    A keychain whose items have the given record and where an update finds nothing. *)
Definition keychain_demo : env Security (list byte) := fun R e =>
  match e in Security R return list byte -> R * list byte with
  | CFStringCreateWithBytes _ => fun w => (100, w)
  | CFDictionaryCreateMutable => fun w => (101, w)
  | CFDataCreate _ => fun w => (102, w)
  | CFDictionaryCreate _ _ => fun w => (103, w)
  | SecItemCopyMatching _ => fun w => 
      ((errSecSuccess, Some (Matched 104 (if zlen w <? 2 ^ 63 then Some w else None))), w)
  | SecItemUpdate _ _ => fun w => (errSecItemNotFound, w)
  | SecItemAdd _ | SecItemDelete _ => fun w => (errSecSuccess, w)
  | CFGetTypeID_is_data m => fun w => (bool_decide (is_Some (matched_data m)), w)
  | CFDataGetLength m => fun w => (zlen (default [] (matched_data m)), w)
  | CFDataGetBytePtr m => fun w => (default [] (matched_data m), w)
  | malloc _ => fun w => (200, w)
  | CFDictionarySetValue _ _ _ | CFDictionaryRemoveValue _ _ | CFRelease _ | memcpy _ _ | store_zero _ _
  | free _ => fun w => (tt, w)
  end.

Lemma keychain_demo_lawful : lawful_env security_law keychain_demo.
Proof.
  intros R e w. destruct e; simpl; try done.
  - split_and!; [done|done|]. intros bytes. destruct (Z.ltb_spec (zlen w) (2 ^ 63)); [by intros [= <-]|done].
  - by intros bytes ->.
  - by intros bytes ->.
Qed.

Definition demo_identifier : list byte := [Byte.x61; Byte.x62].
Definition demo_record : list byte := [Byte.x01; Byte.x02; Byte.x03].
Definition demo_write := agent_mcp_keychain_write (Some demo_identifier) 2 (Some demo_record) 3.
Definition demo_read := agent_mcp_keychain_read (Some demo_identifier) 2 (Some 7) (Some 8).
Definition demo_attributes : dictionary := {[kSecValueData := VData demo_record]}.
Definition write_requests : list request :=
  [Update (item_key demo_identifier) demo_attributes errSecItemNotFound;
   Add (added (item_key demo_identifier) demo_record) errSecSuccess].
Definition stored_items : items := put (item_key demo_identifier) (Some demo_record) (fun _ => None).

Lemma demo_write_requests : requests (exec_trace keychain_demo demo_write demo_record) ∅ = Some write_requests.
Proof. vm_compute. reflexivity. Qed.

Lemma demo_write_items : item_steps (fun _ => None) write_requests stored_items.
Proof.
  econstructor; [|econstructor; [|constructor]].
  - split; [reflexivity|done].
  - exists demo_record. rewrite primary_added. split_and!; reflexivity.
Qed.

Lemma keychain_round_trip_witness :
  exists p, Some 200 = Some p /\ p <> 0 /\ Some 3 = Some (zlen demo_record) /\
    copied (exec_trace keychain_demo demo_read demo_record) = [(p, demo_record)].
Proof.
  destruct (keychain_round_trip demo_identifier 2 demo_record 3
    (exec_trace keychain_demo demo_write demo_record) write_requests (fun _ => None) stored_items 7 8
    (exec_trace keychain_demo demo_read demo_record) MCP_KEYCHAIN_SUCCESS (Some 200) (Some 3)
    [Copy (read_query (item_key demo_identifier)) errSecSuccess (Some (Some demo_record))] stored_items)
    as (_ & _ & H & _).
  - run_with keychain_demo demo_record.
  - apply exec_lawful, keychain_demo_lawful.
  - exact demo_write_requests.
  - exact demo_write_items.
  - run_with keychain_demo demo_record.
  - apply exec_lawful, keychain_demo_lawful.
  - vm_compute. reflexivity.
  - econstructor; [|constructor]. split; [reflexivity|]. split; [done|].
    intros _ _. exists demo_record. rewrite primary_read_query. split; [|reflexivity]. apply put_eq.
  - exact (H eq_refl).
Defined.

Lemma keychain_write_upserts_witness :
  write_spec (Some demo_identifier) 2 (Some demo_record) 3
    (exec_trace keychain_demo demo_write demo_record) write_requests MCP_KEYCHAIN_SUCCESS /\
  stored_items (item_key demo_identifier) = Some demo_record.
Proof.
  destruct (keychain_write_upserts (Some demo_identifier) 2 (Some demo_record) 3
    (exec_trace keychain_demo demo_write demo_record) MCP_KEYCHAIN_SUCCESS write_requests) as [H1 H2].
  - run_with keychain_demo demo_record.
  - apply exec_lawful, keychain_demo_lawful.
  - exact demo_write_requests.
  - split; [exact H1|]. exact (proj1 (H2 _ _ demo_write_items) eq_refl).
Defined.

Lemma keychain_delete_removes_witness :
  put (item_key demo_identifier) None stored_items (item_key demo_identifier) = None.
Proof.
  refine (proj1 (keychain_delete_removes (Some demo_identifier) 2
    (exec_trace keychain_demo (agent_mcp_keychain_delete (Some demo_identifier) 2) []) MCP_KEYCHAIN_SUCCESS
    [Delete (item_key demo_identifier) errSecSuccess] stored_items
    (put (item_key demo_identifier) None stored_items) _ _ _ _) eq_refl).
  - run_with keychain_demo ([] : list byte).
  - apply exec_lawful, keychain_demo_lawful.
  - vm_compute. reflexivity.
  - econstructor; [|constructor]. split; [|by rewrite primary_item_key].
    exists demo_record. rewrite primary_item_key. apply put_eq.
Defined.

Lemma keychain_balanced_witness :
  audit (exec_trace keychain_demo demo_write demo_record) ∅ = Some ∅.
Proof.
  refine (proj1 (keychain_balanced (Some demo_identifier) 2 (Some demo_record) 3 None None)
    _ MCP_KEYCHAIN_SUCCESS _ _).
  - run_with keychain_demo demo_record.
  - apply exec_lawful, keychain_demo_lawful.
Defined.

Lemma keychain_rejects_invalid_witness :
  let p := agent_mcp_keychain_delete (Some [Byte.x61; Byte.x00]) 2 in
  exec_trace keychain_demo p [] = [] /\ exec_value keychain_demo p [] = Some MCP_KEYCHAIN_INVALID_INPUT.
Proof.
  intros p. refine (proj1 (proj1 (keychain_rejects_invalid (Some [Byte.x61; Byte.x00]) 2 None 0 None None) _) _ _ _).
  - reflexivity.
  - apply exec_traces.
Defined.

Lemma keychain_release_wipes_witness :
  exists stores, exec_trace keychain_demo (agent_mcp_keychain_release 200 3) [] = stores ++ [Event (free 200) tt] /\
    block_after 200 stores demo_record = replicate 3 Byte.x00.
Proof.
  destruct (keychain_release_wipes 200 3 (exec_trace keychain_demo (agent_mcp_keychain_release 200 3) []) (Some tt))
    as [_ (stores & H1 & _ & H2)].
  - run_with keychain_demo ([] : list byte).
  - exists stores. split; [exact H1|]. apply H2. reflexivity.
Defined.
