(* ===== verification/Clipboard.v ===== *)
(** * Clipboard inspection (agent-cli/cbits/ClipboardTypes.c)

    The file asks the pasteboard service which representations the clipboard advertises, without
    requesting any of them.  [agent_cli_pasteboard_may_contain_images] works on a pasteboard of
    its own; the two snapshot functions share a cached reference and a change counter under
    [clipboard_snapshot_lock]. *)

From stdpp Require Import base tactics option list gmap gmultiset strings.
From Stdlib Require Import ZArith Lia.
From S2P Require Import Prelude Programs Threads.
#[local] Open Scope Z_scope.

(** ** The pasteboard service *)

(** A [CFStringRef] is its text, NULL is [None]; an array is its handle and its elements. *)
Abbreviation flavor := (option string).
Record flavors := Flavors { flavors_ref : Z; flavors_elements : list flavor }.

Definition noErr : Z := 0.
Definition kPasteboardModified : Z := 1.
Definition kPasteboardClipboard : string := "com.apple.pasteboard.clipboard".

Inductive Pasteboard : Type -> Type :=
  | UTTypeConformsTo (type other : string) : Pasteboard bool
  | CFEqual (one other : string) : Pasteboard bool
  | PasteboardCreate (name : string) : Pasteboard (Z * Z)
  | PasteboardSynchronize (clipboard : Z) : Pasteboard Z
  | PasteboardGetItemCount (clipboard : Z) : Pasteboard (Z * Z)
  | PasteboardGetItemIdentifier (clipboard index : Z) : Pasteboard (Z * Z)
  | PasteboardCopyItemFlavors (clipboard item : Z) : Pasteboard (Z * flavors)
  | CFArrayGetCount (array : flavors) : Pasteboard Z
  | CFArrayGetValueAtIndex (array : flavors) (index : Z) : Pasteboard flavor
  | CFRelease (object : Z) : Pasteboard unit.

(** A call that succeeds creates its object, one that fails leaves NULL; an array is what it
    is; [CFEqual] compares texts. *)
Definition pasteboard_law : laws Pasteboard := fun R e =>
  match e in Pasteboard R return R -> Prop with
  | CFEqual a b => fun r => r = String.eqb a b
  | PasteboardCreate _ => fun '(status, ref) => if status =? noErr then ref <> 0 else ref = 0
  | PasteboardCopyItemFlavors _ _ => fun '(status, a) => status = noErr -> flavors_ref a <> 0
  | CFArrayGetCount a => fun n => n = zlen (flavors_elements a)
  | CFArrayGetValueAtIndex a i => fun f => forall g, flavors_elements a !! Z.to_nat i = Some g -> f = g
  | _ => fun _ => True
  end.

#[export] Instance pasteboard_ownership : Ownership Pasteboard := {
  gives := fun R e =>
    match e in Pasteboard R return R -> ledger with
    | PasteboardCreate _ => fun '(_, ref) => own Cf ref
    | PasteboardCopyItemFlavors _ _ => fun '(status, a) =>
        if status =? noErr then {[+ (Cf, flavors_ref a) +]} else ∅
    | _ => fun _ => ∅
    end;
  takes := fun R e =>
    match e in Pasteboard R return R -> ledger with
    | CFRelease h => fun _ => {[+ (Cf, h) +]}
    | _ => fun _ => ∅
    end;
  uses := fun R e =>
    match e with
    | PasteboardSynchronize c | PasteboardGetItemCount c | PasteboardGetItemIdentifier c _
    | PasteboardCopyItemFlavors c _ => {[+ (Cf, c) +]}
    | CFArrayGetCount a | CFArrayGetValueAtIndex a _ => {[+ (Cf, flavors_ref a) +]}
    | CFRelease h => {[+ (Cf, h) +]}
    | _ => ∅
    end
}.

(** ** Flavor tests *)

(** [||]: the tests in order, up to the first that holds. *)
Fixpoint any_of (tests : list (Pasteboard bool)) : prog Pasteboard bool :=
  match tests with
  | [] => Ret false
  | t :: tests => b ← call t; if b : bool then Ret true else any_of tests
  end.
Arguments any_of : simpl never.

Definition image_tests (flavor : string) : list (Pasteboard bool) :=
  [UTTypeConformsTo flavor "public.image"; UTTypeConformsTo flavor "public.file-url";
   CFEqual flavor "NSFilenamesPboardType"; CFEqual flavor "com.apple.pasteboard.promised-file-url";
   CFEqual flavor "com.apple.pasteboard.promised-file-content-type";
   CFEqual flavor "com.apple.pasteboard.finder-node"].

Definition agent_cli_clipboard_flavor_may_contain_images (flavor : flavor) : prog Pasteboard Z :=
  match flavor with
  | None => Ret (-1)
  | Some flavor => b ← any_of (image_tests flavor); Ret (if b : bool then 1 else 0)
  end.

Definition file_url_tests (flavor : string) : list (Pasteboard bool) :=
  [UTTypeConformsTo flavor "public.file-url"; CFEqual flavor "public.file-url";
   CFEqual flavor "NSFilenamesPboardType"; CFEqual flavor "com.apple.pasteboard.promised-file-url";
   CFEqual flavor "com.apple.pasteboard.promised-file-content-type";
   CFEqual flavor "com.apple.pasteboard.finder-node"].
Definition flavor_is_file_url (flavor : flavor) : prog Pasteboard bool :=
  match flavor with None => Ret false | Some flavor => any_of (file_url_tests flavor) end.

Definition raster_tests (flavor : string) : list (Pasteboard bool) :=
  [UTTypeConformsTo flavor "public.png"; UTTypeConformsTo flavor "public.tiff";
   UTTypeConformsTo flavor "public.jpeg"; CFEqual flavor "public.png"; CFEqual flavor "public.tiff";
   CFEqual flavor "public.jpeg"].
Definition flavor_is_raster (flavor : flavor) : prog Pasteboard bool :=
  match flavor with None => Ret false | Some flavor => any_of (raster_tests flavor) end.

(** ** agent_cli_pasteboard_may_contain_images *)

(** [for (flavor_index = index; flavor_index < CFArrayGetCount(flavors); ++flavor_index)]; the
    count is asked for in every round.  The result is [result] after the loop. *)
Fixpoint scan_flavors (fuel : nat) (flavors : flavors) (index : Z) : prog Pasteboard Z :=
  match fuel with
  | O => Spin
  | S fuel =>
      count ← call (CFArrayGetCount flavors);
      if negb (index <? count) then Ret 0 else
      flavor ← call (CFArrayGetValueAtIndex flavors index);
      candidate ← agent_cli_clipboard_flavor_may_contain_images flavor;
      if negb (candidate =? 0) then Ret 1 else scan_flavors fuel flavors (index + 1)
  end.

(** More rounds than there are elements. *)
Definition rounds (flavors : flavors) : nat := S (length (flavors_elements flavors)).

(** The loop over [count] further items from [item_index] on. *)
Fixpoint scan_items (clipboard item_index : Z) (count : nat) : prog Pasteboard Z :=
  match count with
  | O => Ret 0
  | S count =>
      '(status, item) ← call (PasteboardGetItemIdentifier clipboard item_index);
      if negb (status =? noErr) then Ret (-1) else
      '(status, flavors) ← call (PasteboardCopyItemFlavors clipboard item);
      if negb (status =? noErr) then Ret (-1) else
      result ← scan_flavors (rounds flavors) flavors 0;
      call (CFRelease (flavors_ref flavors));;
      if negb (result =? 0) then Ret result else scan_items clipboard (item_index + 1) count
  end.

Definition agent_cli_pasteboard_may_contain_images (pasteboard_name : option string) : prog Pasteboard Z :=
  match pasteboard_name with
  | None => Ret (-1)
  | Some name =>
      '(status, clipboard) ← call (PasteboardCreate name);
      if negb (status =? noErr) then Ret (-1) else
      call (PasteboardSynchronize clipboard);;
      '(status, item_count) ← call (PasteboardGetItemCount clipboard);
      if negb (status =? noErr) then call (CFRelease clipboard);; Ret (-1) else
      result ← scan_items clipboard 1 (Z.to_nat item_count);
      call (CFRelease clipboard);;
      Ret result
  end.

Definition agent_cli_clipboard_may_contain_images : prog Pasteboard Z :=
  agent_cli_pasteboard_may_contain_images (Some kPasteboardClipboard).

(** ** Snapshots *)

(** The static variables that [clipboard_snapshot_lock] guards. *)
Record snapshot := Snapshot {
  clipboard_snapshot_ref : Z;
  clipboard_snapshot_generation : Z;
  clipboard_snapshot_generation_initialized : bool
}.
Definition initial_snapshot : snapshot := Snapshot 0 0 false.
Abbreviation clipboard_thread := (thread Pasteboard snapshot unit).

Definition set_ref (r : Z) (s : snapshot) : snapshot :=
  Snapshot r (clipboard_snapshot_generation s) (clipboard_snapshot_generation_initialized s).
Definition set_generation (g : Z) (s : snapshot) : snapshot :=
  Snapshot (clipboard_snapshot_ref s) g (clipboard_snapshot_generation_initialized s).
Definition set_initialized (s : snapshot) : snapshot :=
  Snapshot (clipboard_snapshot_ref s) (clipboard_snapshot_generation s) true.

Definition clipboard_snapshot_pasteboard : clipboard_thread Z :=
  s ← get;
  status ← (if clipboard_snapshot_ref s =? 0
            then '(status, ref) ← tcall (PasteboardCreate kPasteboardClipboard);
                 set (set_ref ref);; TRet status
            else TRet noErr);
  if negb (status =? noErr) then TRet 0 else
  s ← get;
  TRet (clipboard_snapshot_ref s).

Definition clipboard_snapshot_sync_generation (clipboard : Z) : clipboard_thread Z :=
  flags ← tcall (PasteboardSynchronize clipboard);
  s ← get;
  (if negb (clipboard_snapshot_generation_initialized s)
   then set (set_generation 1);; set set_initialized
   else if negb (Z.land flags kPasteboardModified =? 0)
   then set (fun s => set_generation (u64 (clipboard_snapshot_generation s + 1)) s)
   else TRet tt);;
  s ← get;
  TRet (clipboard_snapshot_generation s).

(** The inner loop: the two flags after it. *)
Fixpoint classify_flavors (fuel : nat) (flavors : flavors) (index : Z) (has_file_url has_raster : bool)
    : prog Pasteboard (bool * bool) :=
  match fuel with
  | O => Spin
  | S fuel =>
      count ← call (CFArrayGetCount flavors);
      if negb (index <? count) then Ret (has_file_url, has_raster) else
      flavor ← call (CFArrayGetValueAtIndex flavors index);
      file_url ← flavor_is_file_url flavor;
      let has_file_url := if file_url : bool then true else has_file_url in
      raster ← flavor_is_raster flavor;
      let has_raster := if raster : bool then true else has_raster in
      classify_flavors fuel flavors (index + 1) has_file_url has_raster
  end.

(** The outer loop; [None] when it returns 0 from within. *)
Fixpoint classify_items (clipboard item_index : Z) (count : nat) (has_file_url has_raster : bool)
    : prog Pasteboard (option (bool * bool)) :=
  match count with
  | O => Ret (Some (has_file_url, has_raster))
  | S count =>
      '(status, item) ← call (PasteboardGetItemIdentifier clipboard item_index);
      if negb (status =? noErr) then Ret None else
      '(status, flavors) ← call (PasteboardCopyItemFlavors clipboard item);
      if negb (status =? noErr) then Ret None else
      '(has_file_url, has_raster) ← classify_flavors (rounds flavors) flavors 0 has_file_url has_raster;
      call (CFRelease (flavors_ref flavors));;
      if has_file_url && has_raster then Ret (Some (has_file_url, has_raster))
      else classify_items clipboard (item_index + 1) count has_file_url has_raster
  end.

(** The result and [out_has_image]. *)
Definition clipboard_snapshot_classify (clipboard out_has_image : Z) : prog Pasteboard (Z * Z) :=
  '(status, item_count) ← call (PasteboardGetItemCount clipboard);
  if negb (status =? noErr) then Ret (0, out_has_image) else
  flags ← classify_items clipboard 1 (Z.to_nat item_count) false false;
  match flags with
  | None => Ret (0, out_has_image)
  | Some (has_file_url, has_raster) => Ret (1, if has_raster && negb has_file_url then 1 else 0)
  end.

(** The result and the caller's variable, [None] when the pointer is NULL. *)
Definition agent_cli_clipboard_change_count (out_count : option Z) : clipboard_thread (Z * option Z) :=
  match out_count with
  | None => TRet (0, None)
  | Some _ =>
      lock;;
      clipboard ← clipboard_snapshot_pasteboard;
      if clipboard =? 0 then unlock;; TRet (0, out_count) else
      generation ← clipboard_snapshot_sync_generation clipboard;
      unlock;;
      TRet (1, Some generation)
  end.

Definition agent_cli_clipboard_image_snapshot (out_count out_has_image : option Z)
    : clipboard_thread (Z * option Z * option Z) :=
  match out_count, out_has_image with
  | Some _, Some _ =>
      lock;;
      clipboard ← clipboard_snapshot_pasteboard;
      if clipboard =? 0 then unlock;; TRet (0, out_count, out_has_image) else
      generation ← clipboard_snapshot_sync_generation clipboard;
      '(classified, has_image) ← local (clipboard_snapshot_classify clipboard 0);
      if classified =? 0 then unlock;; TRet (0, out_count, out_has_image) else
      unlock;;
      TRet (1, Some generation, Some has_image)
  | _, _ => TRet (0, out_count, out_has_image)
  end.

(** ** What the tests decide *)

Section board.
(** Uniform type conformance, and what the clipboard advertises: the items and their flavors. *)
Context (conforms : string -> string -> bool) (items : list Z) (flavors_of : Z -> list flavor).

(** The service answers from one state of the clipboard; any call may fail. *)
Definition board_law : laws Pasteboard := fun R e r =>
  pasteboard_law R e r /\
  match e in Pasteboard R return R -> Prop with
  | UTTypeConformsTo a b => fun r => r = conforms a b
  | PasteboardGetItemCount _ => fun '(status, n) => status = noErr -> n = zlen items
  | PasteboardGetItemIdentifier _ i => fun '(status, item) => status = noErr -> items !! Z.to_nat (i - 1) = Some item
  | PasteboardCopyItemFlavors _ item => fun '(status, a) => status = noErr -> flavors_elements a = flavors_of item
  | _ => fun _ => True
  end r.

(** A representation that an image or a file may be read from; a NULL flavor counts, since -1 is
    not 0. *)
Definition candidate (f : flavor) : bool :=
  match f with
  | None => true
  | Some f =>
      conforms f "public.image" || conforms f "public.file-url" || String.eqb f "NSFilenamesPboardType"
      || String.eqb f "com.apple.pasteboard.promised-file-url"
      || String.eqb f "com.apple.pasteboard.promised-file-content-type"
      || String.eqb f "com.apple.pasteboard.finder-node"
  end.
Definition file_url (f : flavor) : bool :=
  match f with
  | None => false
  | Some f =>
      conforms f "public.file-url" || String.eqb f "public.file-url" || String.eqb f "NSFilenamesPboardType"
      || String.eqb f "com.apple.pasteboard.promised-file-url"
      || String.eqb f "com.apple.pasteboard.promised-file-content-type"
      || String.eqb f "com.apple.pasteboard.finder-node"
  end.
Definition raster (f : flavor) : bool :=
  match f with
  | None => false
  | Some f =>
      conforms f "public.png" || conforms f "public.tiff" || conforms f "public.jpeg"
      || String.eqb f "public.png" || String.eqb f "public.tiff" || String.eqb f "public.jpeg"
  end.

(** Everything advertised. *)
Definition advertised (ids : list Z) : list flavor := flat_map flavors_of ids.

(** A test that can only answer [a]. *)
Definition decides (t : Pasteboard bool) (a : bool) : Prop := forall r, board_law bool t r -> r = a.
Lemma decides_conforms a b : decides (UTTypeConformsTo a b) (conforms a b).
Proof. by intros r [_ ->]. Qed.
Lemma decides_equal a b : decides (CFEqual a b) (String.eqb a b).
Proof. by intros r [-> _]. Qed.

Lemma any_of_spec tests answers :
  Forall2 decides tests answers -> wp board_law (any_of tests) (fun _ b => b = existsb id answers).
Proof.
  induction 1 as [|t a tests answers Ht _ IH]; [done|]. unfold any_of. fold any_of. simpl.
  intros r Hr. rewrite (Ht _ Hr). destruct a; [done|]. exact IH.
Qed.
Hint Resolve decides_conforms decides_equal : agent.

(** Solves the specification of a list of tests. *)
Ltac tests_spec :=
  eapply wp_mono;
    [apply any_of_spec; repeat first [apply Forall2_cons_2; [eauto with agent|] | apply Forall2_nil_2]|];
  intros tr b ->; simpl; rewrite ?orb_false_r, ?orb_assoc; done.

Lemma candidate_spec f :
  wp board_law (agent_cli_clipboard_flavor_may_contain_images f) (fun _ r => negb (r =? 0) = candidate f).
Proof.
  destruct f as [f|]; [|done]. apply wp_bind.
  eapply wp_mono with (Q := fun _ b => b = candidate (Some f)); [tests_spec|].
  intros tr b ->. simpl. by destruct (_ || _).
Qed.
Lemma file_url_spec f : wp board_law (flavor_is_file_url f) (fun _ b => b = file_url f).
Proof. destruct f as [f|]; [|done]. tests_spec. Qed.
Lemma raster_spec f : wp board_law (flavor_is_raster f) (fun _ b => b = raster f).
Proof. destruct f as [f|]; [|done]. tests_spec. Qed.

(** ** The loops against the advertised flavors *)

Lemma drop_element (a : flavors) i n :
  0 <= i -> n = zlen (flavors_elements a) -> i < n ->
  forall f, (forall g, flavors_elements a !! Z.to_nat i = Some g -> f = g) ->
  zdrop i (flavors_elements a) = f :: zdrop (i + 1) (flavors_elements a).
Proof.
  intros H0 -> Hi f Hf. destruct (lookup_lt_is_Some_2 (flavors_elements a) (Z.to_nat i)) as [g Hg]; [lia|].
  rewrite (Hf g Hg). unfold zdrop. rewrite (drop_S _ g) by done. by rewrite <- Z2Nat.inj_succ.
Qed.

Lemma zdrop_end (a : flavors) i n :
  0 <= i -> n = zlen (flavors_elements a) -> (i <? n) = false -> zdrop i (flavors_elements a) = [].
Proof. intros H0 -> Hi. unfold zdrop. apply drop_ge. lia. Qed.

Lemma scan_flavors_spec fuel a i :
  0 <= i ->
  wp board_law (scan_flavors fuel a i)
    (fun _ r => r = if existsb candidate (zdrop i (flavors_elements a)) then 1 else 0).
Proof.
  revert i. induction fuel as [|fuel IH]; intros i Hi; [done|]. cbn [scan_flavors]. apply wp_bind. simpl.
  intros n [Hn _]. simpl in Hn. destruct (i <? n) eqn:Hin; simpl; [|by rewrite (zdrop_end a i n)].
  intros f [Hf _]. simpl in Hf. rewrite (drop_element a i n Hi Hn ltac:(lia) f Hf).
  apply wp_bind. eapply wp_mono; [apply candidate_spec|]. intros tr c Hc. rewrite Hc. simpl.
  destruct (candidate f); [done|]. eapply wp_mono; [apply IH; lia|]. done.
Qed.

Lemma advertised_step i id :
  1 <= i -> items !! Z.to_nat (i - 1) = Some id ->
  advertised (zdrop (i - 1) items) = flavors_of id ++ advertised (zdrop (i + 1 - 1) items).
Proof.
  intros Hi Hid. unfold zdrop. rewrite (drop_S _ id) by done.
  by replace (Z.to_nat (i + 1 - 1)) with (S (Z.to_nat (i - 1))) by lia.
Qed.

Lemma classify_flavors_spec fuel a i hf hr :
  0 <= i ->
  wp board_law (classify_flavors fuel a i hf hr) (fun _ r =>
    r = (hf || existsb file_url (zdrop i (flavors_elements a)), hr || existsb raster (zdrop i (flavors_elements a)))).
Proof.
  revert i hf hr. induction fuel as [|fuel IH]; intros i hf hr Hi; [done|]. cbn [classify_flavors]. apply wp_bind. simpl.
  intros n [Hn _]. simpl in Hn. destruct (i <? n) eqn:Hin; simpl; [|by rewrite (zdrop_end a i n), !orb_false_r].
  intros f [Hf _]. simpl in Hf. rewrite (drop_element a i n Hi Hn ltac:(lia) f Hf).
  apply wp_bind. eapply wp_mono; [apply file_url_spec|]. intros tr b ->.
  apply wp_bind. eapply wp_mono; [apply raster_spec|]. intros tr' b ->.
  eapply wp_mono; [apply IH; lia|]. intros tr3 r ->. simpl.
  destruct (file_url f), (raster f), hf, hr; reflexivity.
Qed.

#[local] Opaque scan_flavors classify_flavors.
Lemma scan_items_spec c i count :
  1 <= i -> i - 1 + Z.of_nat count = zlen items ->
  wp board_law (scan_items c i count) (fun _ r =>
    (r = 0 -> existsb candidate (advertised (zdrop (i - 1) items)) = false) /\
    (r = 1 -> existsb candidate (advertised (zdrop (i - 1) items)) = true) /\ (r = 0 \/ r = 1 \/ r = -1)).
Proof.
  revert i. induction count as [|count IH]; intros i Hi Hc; cbn [scan_items].
  - simpl. split_and!; [|done|auto]. intros _. unfold zdrop. by rewrite drop_ge by lia.
  - apply wp_bind. simpl. intros [st id] [_ Hid]. destruct (Z.eqb_spec st noErr) as [->|Hst]; simpl; [|by split_and!; auto].
    specialize (Hid eq_refl). rewrite (advertised_step i id Hi Hid), existsb_app.
    intros [st2 a] [_ Ha]. destruct (Z.eqb_spec st2 noErr) as [->|Hst2]; simpl; [|by split_and!; auto].
    specialize (Ha eq_refl). apply wp_bind. eapply wp_mono; [by apply (scan_flavors_spec _ a 0)|].
    intros tr r ->. change (zdrop 0 (flavors_elements a)) with (flavors_elements a). rewrite Ha. simpl. intros u _.
    destruct (existsb candidate (flavors_of id)); simpl; [by split_and!; auto|].
    eapply wp_mono; [apply IH; lia|]. done.
Qed.

Lemma classify_items_spec c i count hf hr :
  1 <= i -> i - 1 + Z.of_nat count = zlen items ->
  wp board_law (classify_items c i count hf hr) (fun _ r =>
    match r with
    | None => True
    | Some (f, ra) => ra && negb f =
        (hr || existsb raster (advertised (zdrop (i - 1) items)))
        && negb (hf || existsb file_url (advertised (zdrop (i - 1) items)))
    end).
Proof.
  revert i hf hr. induction count as [|count IH]; intros i hf hr Hi Hc; cbn [classify_items].
  - simpl. unfold zdrop. rewrite drop_ge by lia. by rewrite !orb_false_r.
  - apply wp_bind. simpl. intros [st id] [_ Hid]. destruct (Z.eqb_spec st noErr) as [->|Hst]; simpl; [|done].
    specialize (Hid eq_refl). rewrite (advertised_step i id Hi Hid), !existsb_app.
    intros [st2 a] [_ Ha]. destruct (Z.eqb_spec st2 noErr) as [->|Hst2]; simpl; [|done].
    specialize (Ha eq_refl). apply wp_bind. eapply wp_mono; [by apply (classify_flavors_spec _ a 0)|].
    intros tr r ->. change (zdrop 0 (flavors_elements a)) with (flavors_elements a). rewrite Ha. simpl. intros u _.
    rewrite !orb_assoc.
    destruct ((hf || existsb file_url (flavors_of id)) && (hr || existsb raster (flavors_of id))) eqn:E.
    + simpl. apply andb_true_iff in E as [-> ->]. by rewrite ?andb_false_r.
    + eapply wp_mono; [apply IH; lia|]. done.
Qed.
End board.

(** ** Ownership and termination *)

Abbreviation tests_pure tests :=
  (Forall (fun t => uses t = ∅ /\ forall r : bool, takes t r = ∅ /\ gives t r = ∅) tests).

Lemma owns_any_of tests (l : ledger) (Q : bool -> ledger -> Prop) :
  tests_pure tests -> (forall b, Q b l) -> owns pasteboard_law (any_of tests) l Q.
Proof.
  intros Ht HQ. induction Ht as [|t tests [Hu Ht] _ IH]; [apply HQ|]. unfold any_of. fold any_of.
  unfold call. cbn [mbind prog_mbind prog_bind owns]. rewrite Hu. split; [multiset_solver|]. intros r _. destruct (Ht r) as [-> ->].
  split; [multiset_solver|]. rewrite ledger_keep. destruct r; [apply HQ|exact IH].
Qed.

Lemma returns_any_of tests : returns (any_of tests).
Proof. induction tests as [|t tests IH]; [done|]. unfold any_of. fold any_of. simpl. intros [|]; [done|exact IH]. Qed.

Ltac pure_tests := apply owns_any_of; [repeat constructor|].

Lemma owns_candidate f (l : ledger) (Q : Z -> ledger -> Prop) :
  (forall r, Q r l) -> owns pasteboard_law (agent_cli_clipboard_flavor_may_contain_images f) l Q.
Proof. intros HQ. destruct f as [f|]; [|apply HQ]. apply owns_bind. pure_tests. intros b. apply HQ. Qed.
Lemma owns_file_url f (l : ledger) (Q : bool -> ledger -> Prop) :
  (forall b, Q b l) -> owns pasteboard_law (flavor_is_file_url f) l Q.
Proof. intros HQ. destruct f as [f|]; [|apply HQ]. pure_tests. exact HQ. Qed.
Lemma owns_raster f (l : ledger) (Q : bool -> ledger -> Prop) :
  (forall b, Q b l) -> owns pasteboard_law (flavor_is_raster f) l Q.
Proof. intros HQ. destruct f as [f|]; [|apply HQ]. pure_tests. exact HQ. Qed.

Lemma owns_scan_flavors fuel a i (l : ledger) (Q : Z -> ledger -> Prop) :
  {[+ (Cf, flavors_ref a) +]} ⊆ l -> (forall r, Q r l) -> owns pasteboard_law (scan_flavors fuel a i) l Q.
Proof.
  intros Hl HQ. revert i. induction fuel as [|fuel IH]; intros i; [done|]. cbn [scan_flavors].
  own_call. destruct (negb _); [apply HQ|]. own_call. apply owns_bind, owns_candidate. intros c.
  destruct (negb _); [apply HQ|apply IH].
Qed.

Lemma owns_classify_flavors fuel a i hf hr (l : ledger) (Q : bool * bool -> ledger -> Prop) :
  {[+ (Cf, flavors_ref a) +]} ⊆ l -> (forall r, Q r l) ->
  owns pasteboard_law (classify_flavors fuel a i hf hr) l Q.
Proof.
  intros Hl HQ. revert i hf hr. induction fuel as [|fuel IH]; intros i hf hr; [done|]. cbn [classify_flavors].
  own_call. destruct (negb _); [apply HQ|]. own_call. apply owns_bind, owns_file_url. intros b.
  apply owns_bind, owns_raster. intros b'. apply IH.
Qed.

#[local] Opaque scan_flavors classify_flavors.
Lemma owns_scan_items c i count (l : ledger) (Q : Z -> ledger -> Prop) :
  {[+ (Cf, c) +]} ⊆ l -> (forall r, Q r l) -> owns pasteboard_law (scan_items c i count) l Q.
Proof.
  intros Hl HQ. revert i. induction count as [|count IH]; intros i; [apply HQ|]. cbn [scan_items].
  own_call. destruct r as [st id]. destruct (negb _); [apply HQ|]. simpl. split; [done|].
  intros [st2 a] _. split; [multiset_solver|]. destruct (Z.eqb_spec st2 noErr) as [->|]; simpl.
  - replace (l ∖ ∅ ⊎ _) with ({[+ (Cf, flavors_ref a) +]} ⊎ l : ledger) by multiset_solver.
    apply owns_bind, owns_scan_flavors; [multiset_solver|]. intros result.
    own_call. replace (_ ∖ _ ⊎ _) with l by multiset_solver. destruct (negb _); [apply HQ|apply IH].
  - rewrite ledger_keep. apply HQ.
Qed.

Lemma owns_classify_items c i count hf hr (l : ledger) (Q : option (bool * bool) -> ledger -> Prop) :
  {[+ (Cf, c) +]} ⊆ l -> (forall r, Q r l) -> owns pasteboard_law (classify_items c i count hf hr) l Q.
Proof.
  intros Hl HQ. revert i hf hr. induction count as [|count IH]; intros i hf hr; [apply HQ|]. cbn [classify_items].
  own_call. destruct r as [st id]. destruct (negb _); [apply HQ|]. simpl. split; [done|].
  intros [st2 a] _. split; [multiset_solver|]. destruct (Z.eqb_spec st2 noErr) as [->|]; simpl.
  - replace (l ∖ ∅ ⊎ _) with ({[+ (Cf, flavors_ref a) +]} ⊎ l : ledger) by multiset_solver.
    apply owns_bind, owns_classify_flavors; [multiset_solver|]. intros [hf' hr'].
    own_call. replace (_ ∖ _ ⊎ _) with l by multiset_solver. destruct (_ && _); [apply HQ|apply IH].
  - rewrite ledger_keep. apply HQ.
Qed.

Lemma owns_classify c out (l : ledger) (Q : Z * Z -> ledger -> Prop) :
  {[+ (Cf, c) +]} ⊆ l ->
  Q (0, out) l -> Q (1, 0) l -> Q (1, 1) l ->
  owns pasteboard_law (clipboard_snapshot_classify c out) l Q.
Proof.
  intros Hl HQ0 HQ1 HQ2. unfold clipboard_snapshot_classify. own_call. destruct r as [st n].
  destruct (negb _); [apply HQ0|]. apply owns_bind, owns_classify_items; [done|].
  intros [[f ra]|]; [|apply HQ0]. simpl. by destruct (ra && negb f).
Qed.

Lemma owns_may_contain name :
  owns pasteboard_law (agent_cli_pasteboard_may_contain_images name) ∅ (fun _ l => l = ∅).
Proof.
  destruct name as [name|]; [|done]. unfold agent_cli_pasteboard_may_contain_images.
  simpl. split; [multiset_solver|]. intros [st c] Hlaw. split; [multiset_solver|]. simpl in Hlaw.
  destruct (Z.eqb_spec st noErr) as [->|Hst]; simpl in Hlaw |- *.
  2: { subst. rewrite own_null. multiset_solver. }
  rewrite own_singleton by done. replace (_ ∖ _ ⊎ _) with ({[+ (Cf, c) +]} : ledger) by multiset_solver.
  own_call. own_call. destruct r0 as [st2 n]. destruct (negb _); [own_call; multiset_solver|].
  apply owns_bind, owns_scan_items; [done|]. intros result. own_call. multiset_solver.
Qed.

(** Every loop ends. *)
#[local] Transparent scan_flavors classify_flavors.
Lemma returns_candidate f : returns (agent_cli_clipboard_flavor_may_contain_images f).
Proof. destruct f as [f|]; [|done]. by apply returns_bind; [apply returns_any_of|]. Qed.
Lemma returns_file_url f : returns (flavor_is_file_url f).
Proof. destruct f as [f|]; [apply returns_any_of|done]. Qed.
Lemma returns_raster f : returns (flavor_is_raster f).
Proof. destruct f as [f|]; [apply returns_any_of|done]. Qed.

Lemma returns_scan_flavors fuel a i :
  0 <= i <= zlen (flavors_elements a) -> zlen (flavors_elements a) - i < Z.of_nat fuel ->
  returns_under pasteboard_law (scan_flavors fuel a i).
Proof.
  revert i. induction fuel as [|fuel IH]; intros i Hi Hf; [lia|]. cbn [scan_flavors]. simpl.
  intros n ->. destruct (Z.ltb_spec i (zlen (flavors_elements a))) as [Hlt|Hge]; [|done]. simpl. intros f _.
  apply returns_under_bind; [apply returns_returns_under, returns_candidate|]. intros c.
  destruct (negb _); [done|]. apply IH; lia.
Qed.

Lemma returns_classify_flavors fuel a i hf hr :
  0 <= i <= zlen (flavors_elements a) -> zlen (flavors_elements a) - i < Z.of_nat fuel ->
  returns_under pasteboard_law (classify_flavors fuel a i hf hr).
Proof.
  revert i hf hr. induction fuel as [|fuel IH]; intros i hf hr Hi Hf; [lia|]. cbn [classify_flavors]. simpl.
  intros n ->. destruct (Z.ltb_spec i (zlen (flavors_elements a))) as [Hlt|Hge]; [|done]. simpl. intros f _.
  apply returns_under_bind; [apply returns_returns_under, returns_file_url|]. intros b.
  apply returns_under_bind; [apply returns_returns_under, returns_raster|]. intros b'. apply IH; lia.
Qed.

Lemma returns_scan_rounds a : returns_under pasteboard_law (scan_flavors (rounds a) a 0).
Proof. apply returns_scan_flavors; unfold rounds; lia. Qed.
Lemma returns_classify_rounds a hf hr : returns_under pasteboard_law (classify_flavors (rounds a) a 0 hf hr).
Proof. apply returns_classify_flavors; unfold rounds; lia. Qed.

#[local] Opaque scan_flavors classify_flavors.
Lemma returns_scan_items c i count : returns_under pasteboard_law (scan_items c i count).
Proof.
  revert i. induction count as [|count IH]; intros i; [done|]. cbn [scan_items]. simpl.
  intros [st id] _. destruct (negb _); [done|]. simpl. intros [st2 a] _. destruct (negb _); [done|].
  apply returns_under_bind; [apply returns_scan_rounds|]. intros r. simpl. intros u _. by destruct (negb _).
Qed.

Lemma returns_classify c out : returns_under pasteboard_law (clipboard_snapshot_classify c out).
Proof.
  assert (forall i count hf hr, returns_under pasteboard_law (classify_items c i count hf hr)) as H.
  { intros i count. revert i. induction count as [|count IH]; intros i hf hr; [done|]. cbn [classify_items]. simpl.
    intros [st id] _. destruct (negb _); [done|]. simpl. intros [st2 a] _. destruct (negb _); [done|].
    apply returns_under_bind; [apply returns_classify_rounds|]. intros [f r]. simpl. intros u _. by destruct (_ && _). }
  unfold clipboard_snapshot_classify. simpl. intros [st n] _. destruct (negb _); [done|].
  apply returns_under_bind; [apply H|]. by intros [[f r]|].
Qed.

Lemma returns_may_contain name : returns_under pasteboard_law (agent_cli_pasteboard_may_contain_images name).
Proof.
  destruct name as [name|]; [|done]. unfold agent_cli_pasteboard_may_contain_images. simpl.
  intros [st c] _. destruct (negb _); [done|]. simpl. intros u _ [st2 n] _. destruct (negb _); [done|].
  apply returns_under_bind; [apply returns_scan_items|]. done.
Qed.

(** ** Threads of operations *)

Inductive clipboard_op :=
  | ChangeCount (out_count : option Z)
  | ImageSnapshot (out_count out_has_image : option Z)
  | MayContainImages.

Definition clipboard_run (op : clipboard_op) : clipboard_thread (Z * option Z * option Z) :=
  match op with
  | ChangeCount c => '(r, c) ← agent_cli_clipboard_change_count c; TRet (r, c, None)
  | ImageSnapshot c h => agent_cli_clipboard_image_snapshot c h
  | MayContainImages => r ← local agent_cli_clipboard_may_contain_images; TRet (r, None, None)
  end.

Fixpoint clipboard_runs (ops : list clipboard_op) : clipboard_thread (list (Z * option Z * option Z)) :=
  match ops with
  | [] => TRet []
  | op :: ops => r ← clipboard_run op; rs ← clipboard_runs ops; TRet (r :: rs)
  end.

Definition clipboard_system (opss : list (list clipboard_op)) (s : snapshot) :
    system Pasteboard snapshot unit (list (Z * option Z * option Z)) :=
  System (map clipboard_runs opss) s tt None.

(** The counter is a [uint64_t] and 0 until the first look. *)
Definition snapshot_ok (s : snapshot) : Prop :=
  0 <= clipboard_snapshot_generation s < 2 ^ 64 /\
  (clipboard_snapshot_generation_initialized s = false -> clipboard_snapshot_generation s = 0).
Definition snapshot_ledger (s : snapshot) : ledger := own Cf (clipboard_snapshot_ref s).

Definition is_generation (o : option Z) : Prop := exists g, o = Some g /\ 0 <= g < 2 ^ 64.

(** 1 with every output written, or 0 with none touched. *)
Definition clipboard_answer (op : clipboard_op) (r : Z * option Z * option Z) : Prop :=
  match op with
  | ChangeCount c => r = (0, c, None) \/ c <> None /\ exists g, is_generation g /\ r = (1, g, None)
  | ImageSnapshot c h =>
      r = (0, c, h) \/
      c <> None /\ h <> None /\ exists g i, is_generation g /\ (i = 0 \/ i = 1) /\ r = (1, g, Some i)
  | MayContainImages => exists v, r = (v, None, None)
  end.

Abbreviation clipboard_safe := (safe (A := unit) pasteboard_law snapshot_ok snapshot_ledger (fun _ => True)).
Arguments snapshot_ledger : simpl never.

Lemma safe_pasteboard s (l : ledger) (Q : Z -> option snapshot -> ledger -> Prop) :
  snapshot_ok s ->
  (forall s', snapshot_ok s' -> clipboard_snapshot_generation s' = clipboard_snapshot_generation s ->
     forall c, c = 0 \/ c = clipboard_snapshot_ref s' /\ {[+ (Cf, c) +]} ⊆ snapshot_ledger s' ->
     Q c (Some s') (l ⊎ snapshot_ledger s')) ->
  clipboard_safe clipboard_snapshot_pasteboard (Some s) (l ⊎ snapshot_ledger s) Q.
Proof.
  intros Hs HQ. unfold clipboard_snapshot_pasteboard. simpl. exists s. split; [done|]. simpl.
  destruct s as [ref gen init]; simpl in *.
  destruct (Z.eqb_spec ref 0) as [->|Href]; simpl.
  - split; [multiset_solver|]. intros [st ref] Hlaw. simpl in Hlaw. split; [multiset_solver|].
    eexists. split; [done|]. simpl. unfold snapshot_ledger at 1. simpl.
    replace (_ ∖ _ ⊎ own Cf ref) with (l ⊎ snapshot_ledger (Snapshot ref gen init))
      by (unfold snapshot_ledger; simpl; multiset_solver).
    destruct (Z.eqb_spec st noErr) as [->|Hst]; simpl in Hlaw |- *.
    + eexists. split; [done|]. simpl. apply HQ; [done|done|]. right. split; [done|].
      unfold snapshot_ledger. simpl. by rewrite own_singleton.
    + apply HQ; [done|done|by left].
  - eexists. split; [done|]. simpl. apply HQ; [done|done|]. right. split; [done|].
    unfold snapshot_ledger. simpl. by rewrite own_singleton.
Qed.

Lemma safe_sync c s (l : ledger) (Q : Z -> option snapshot -> ledger -> Prop) :
  snapshot_ok s -> {[+ (Cf, c) +]} ⊆ snapshot_ledger s ->
  (forall s', snapshot_ok s' -> snapshot_ledger s' = snapshot_ledger s -> 0 <= clipboard_snapshot_generation s' < 2 ^ 64 ->
     Q (clipboard_snapshot_generation s') (Some s') (l ⊎ snapshot_ledger s)) ->
  clipboard_safe (clipboard_snapshot_sync_generation c) (Some s) (l ⊎ snapshot_ledger s) Q.
Proof.
  intros [Hg Hi] Hc HQ. unfold clipboard_snapshot_sync_generation. simpl. split; [multiset_solver|].
  intros flags _. split; [multiset_solver|]. rewrite ledger_keep. exists s. split; [done|]. simpl.
  destruct s as [ref gen init]; simpl in *. destruct init; simpl.
  - destruct (Z.land flags kPasteboardModified =? 0); simpl.
    + eexists. split; [done|]. apply (HQ (Snapshot ref gen true)); done.
    + eexists. split; [done|]. eexists. split; [done|]. simpl.
      assert (0 <= u64 (gen + 1) < 2 ^ 64) by (unfold u64; apply Z.mod_pos_bound; lia).
      apply (HQ (Snapshot ref (u64 (gen + 1)) true)); done.
  - eexists. split; [done|]. eexists. split; [done|]. eexists. split; [done|].
    apply (HQ (Snapshot ref 1 true)); done.
Qed.

#[local] Opaque clipboard_snapshot_pasteboard clipboard_snapshot_sync_generation clipboard_snapshot_classify
  agent_cli_pasteboard_may_contain_images.

Lemma safe_unlock {X} (x : X) s (l : ledger) (Q : X -> ledger -> Prop) :
  snapshot_ok s -> Q x l ->
  clipboard_safe (TUnlock (TRet x)) (Some s) (l ⊎ snapshot_ledger s) (ends Q).
Proof.
  intros Hs HQ. exists s. split_and!; [done|done|multiset_solver|]. split; [done|].
  by replace (_ ∖ _) with l by multiset_solver.
Qed.

Lemma clipboard_run_safe op :
  clipboard_safe (clipboard_run op) None ∅ (ends (fun r l => l = ∅ /\ clipboard_answer op r)).
Proof.
  destruct op as [[c|]|[c|] [h|]|]; unfold clipboard_run;
    try by (split; [done|]; split; [done|by left]).
  - simpl. split; [done|]. intros s Hs. apply safe_bind, safe_bind, safe_pasteboard; [done|].
    intros s1 Hs1 _ cb Hcb. destruct (Z.eqb_spec cb 0) as [->|Hne].
    { apply safe_unlock; [done|]. split; [done|by left]. }
    destruct Hcb as [->|[_ Hcb]]; [done|]. apply safe_bind, safe_sync; [done|done|].
    intros s2 Hs2 HL Hg. rewrite <- HL. apply safe_unlock; [done|]. split; [done|]. right.
    split; [done|]. exists (Some (clipboard_snapshot_generation s2)). split; [by eexists|done].
  - simpl. split; [done|]. intros s Hs. apply safe_bind, safe_pasteboard; [done|].
    intros s1 Hs1 _ cb Hcb. destruct (Z.eqb_spec cb 0) as [->|Hne].
    { apply safe_unlock; [done|]. split; [done|by left]. }
    destruct Hcb as [->|[_ Hcb]]; [done|]. apply safe_bind, safe_sync; [done|done|].
    intros s2 Hs2 HL Hg. rewrite <- HL in *. apply safe_bind.
    apply safe_local_under; [left; apply returns_classify|].
    assert (forall i, i = 0 \/ i = 1 ->
      clipboard_safe (TUnlock (TRet (1, Some (clipboard_snapshot_generation s2), Some i))) (Some s2) (∅ ⊎ snapshot_ledger s2)
        (ends (fun r l => l = ∅ /\ clipboard_answer (ImageSnapshot (Some c) (Some h)) r))) as Hend.
    { intros i Hi. apply safe_unlock; [done|]. split; [done|]. right. split; [done|]. split; [done|].
      exists (Some (clipboard_snapshot_generation s2)), i. split_and!; [by eexists|done|done]. }
    apply owns_classify; [multiset_solver| | |].
    + apply safe_unlock; [done|]. split; [done|by left].
    + apply Hend. by left.
    + apply Hend. by right.
  - apply safe_bind, safe_local_under; [by right|]. eapply owns_mono; [apply owns_may_contain|].
    intros r l ->. split; [done|]. split; [done|]. by eexists.
Qed.

Lemma clipboard_runs_safe ops :
  clipboard_safe (clipboard_runs ops) None ∅ (ends (fun rs l => l = ∅ /\ Forall2 clipboard_answer ops rs)).
Proof.
  induction ops as [|op ops IH]; simpl; [by split_and!|].
  apply safe_bind. eapply safe_mono; [apply clipboard_run_safe|]. intros r h l (-> & -> & Hr).
  apply safe_bind. eapply safe_mono; [apply IH|]. intros rs h l (-> & -> & Hrs).
  split_and!; [done|done|by constructor].
Qed.

(** ** The change counter *)

(** One look at the pasteboard: the first sets the counter to 1, later ones count changes. *)
Definition observe (modified : bool) (g : option Z) : option Z :=
  Some match g with None => 1 | Some g => if modified then u64 (g + 1) else g end.
Definition counter (s : snapshot) : option Z :=
  if clipboard_snapshot_generation_initialized s then Some (clipboard_snapshot_generation s) else None.

(** The looks of a trace at the cached pasteboard: did each report a change? *)
Definition looks (tr : list (event Pasteboard)) : list bool :=
  omap (fun ev => match ev_call ev in Pasteboard R return R -> option bool with
                  | PasteboardSynchronize _ => fun flags => Some (negb (Z.land flags kPasteboardModified =? 0))
                  | _ => fun _ => None
                  end (ev_answer ev)) tr.
Lemma looks_app tr1 tr2 : looks (tr1 ++ tr2) = looks tr1 ++ looks tr2.
Proof. apply omap_app. Qed.
Definition observe_all (l : list bool) (g : option Z) : option Z := foldl (fun g m => observe m g) g l.
Lemma observe_all_app l1 l2 g : observe_all (l1 ++ l2) g = observe_all l2 (observe_all l1 g).
Proof. apply foldl_app. Qed.

#[local] Transparent clipboard_snapshot_pasteboard clipboard_snapshot_sync_generation.
Lemma alone_pasteboard s tr c s' :
  traces (alone clipboard_snapshot_pasteboard s tt) tr (Some (c, s', tt)) ->
  looks tr = [] /\ counter s' = counter s /\ (c <> 0 -> c = clipboard_snapshot_ref s').
Proof.
  unfold clipboard_snapshot_pasteboard. destruct s as [ref gen init]. simpl.
  destruct (Z.eqb_spec ref 0) as [->|Href]; simpl; [|by intros [-> [= -> ->]]].
  intros ([st r] & tr' & -> & H). simpl in H.
  destruct (st =? noErr); simpl in H; destruct H as [-> [= -> ->]]; by split_and!.
Qed.

Lemma alone_sync c s tr g s' :
  traces (alone (clipboard_snapshot_sync_generation c) s tt) tr (Some (g, s', tt)) ->
  exists m, looks tr = [m] /\ counter s' = observe m (counter s) /\ counter s' = Some g.
Proof.
  unfold clipboard_snapshot_sync_generation. intros (flags & tr' & -> & H). simpl in H.
  exists (negb (Z.land flags kPasteboardModified =? 0)). destruct s as [ref gen init]. unfold counter. simpl in H |- *.
  destruct init; simpl in H; [|by destruct H as [-> [= -> ->]]].
  destruct (Z.land flags kPasteboardModified =? 0); simpl in H; by destruct H as [-> [= -> ->]].
Qed.
#[local] Opaque clipboard_snapshot_pasteboard clipboard_snapshot_sync_generation.

(** A part that does not look. *)
Definition is_look {R} (e : Pasteboard R) : bool := match e with PasteboardSynchronize _ => true | _ => false end.
Fixpoint blind {A} (p : prog Pasteboard A) : Prop :=
  match p with Ret _ | Spin => True | Call e k => is_look e = false /\ forall r, blind (k r) end.
Lemma blind_bind {A B} (p : prog Pasteboard A) (f : A -> prog Pasteboard B) :
  blind p -> (forall a, blind (f a)) -> blind (mbind f p).
Proof. induction p as [a| |R e k IH]; simpl; [eauto|done|]. intros [He H] Hf. eauto. Qed.
Lemma blind_looks {A} (p : prog Pasteboard A) tr o : blind p -> traces p tr o -> looks tr = [].
Proof.
  revert tr. induction p as [a| |R e k IH]; simpl; intros tr H; [by intros [-> _]|by intros [-> _]|].
  intros (r & tr' & -> & Ht). destruct H as [He H]. unfold looks. simpl.
  replace (match e in Pasteboard R return R -> option bool with
           | PasteboardSynchronize _ => fun flags => Some (negb (Z.land flags kPasteboardModified =? 0))
           | _ => fun _ => None end r) with (@None bool) by (by destruct e).
  by eapply IH.
Qed.

Lemma blind_any_of tests : Forall (fun t => is_look t = false) tests -> blind (any_of tests).
Proof.
  induction 1 as [|t tests Ht _ IH]; [done|]. unfold any_of. fold any_of. simpl. split; [done|].
  by intros [|].
Qed.

#[local] Transparent scan_flavors classify_flavors clipboard_snapshot_classify.
Lemma blind_classify_flavors fuel a i hf hr : blind (classify_flavors fuel a i hf hr).
Proof.
  revert i hf hr. induction fuel as [|fuel IH]; intros i hf hr; [done|]. cbn [classify_flavors]. simpl.
  split; [done|]. intros n. destruct (negb _); [done|]. simpl. split; [done|]. intros f.
  apply blind_bind; [destruct f; [apply blind_any_of; repeat constructor|done]|]. intros b.
  apply blind_bind; [destruct f; [apply blind_any_of; repeat constructor|done]|]. intros b'. apply IH.
Qed.
#[local] Opaque scan_flavors classify_flavors.

Lemma blind_classify c out : blind (clipboard_snapshot_classify c out).
Proof.
  assert (forall i count hf hr, blind (classify_items c i count hf hr)) as H.
  { intros i count. revert i. induction count as [|count IH]; intros i hf hr; [done|]. cbn [classify_items]. simpl.
    split; [done|]. intros [st id]. destruct (negb _); [done|]. simpl. split; [done|]. intros [st2 a].
    destruct (negb _); [done|]. apply blind_bind; [apply blind_classify_flavors|]. intros [f r]. simpl.
    split; [done|]. intros u. by destruct (_ && _). }
  unfold clipboard_snapshot_classify. simpl. split; [done|]. intros [st n]. destruct (negb _); [done|].
  apply blind_bind; [apply H|]. by intros [[f r]|].
Qed.
#[local] Opaque clipboard_snapshot_classify.

(** How answers relate to looks: an operation that answers 1 tells the counter as of its look;
    one that answers 0 has not looked, or has looked and then failed to classify. *)
Inductive counted : list (Z * option Z * option Z) -> list bool -> option Z -> option Z -> Prop :=
  | counted_nil c : counted [] [] c c
  | counted_unavailable out h rs ms c c' : counted rs ms c c' -> counted ((0, out, h) :: rs) ms c c'
  | counted_unclassified out h rs m ms c c' : counted rs ms (observe m c) c' -> counted ((0, out, h) :: rs) (m :: ms) c c'
  | counted_told g h rs m ms c c' :
      observe m c = Some g -> counted rs ms (Some g) c' -> counted ((1, Some g, h) :: rs) (m :: ms) c c'.

Definition one_look (r : Z * option Z * option Z) (ms : list bool) (c c' : option Z) : Prop :=
  forall rs ms' c'', counted rs ms' c' c'' -> counted (r :: rs) (ms ++ ms') c c''.

Definition is_snapshot (op : clipboard_op) : bool := match op with MayContainImages => false | _ => true end.


(** The part after the lock of each operation. *)
Lemma alone_look {X} (k : Z -> Z -> clipboard_thread X) (fail : X) s tr r s' :
  traces (alone (lock;; clipboard ← clipboard_snapshot_pasteboard;
                 if clipboard =? 0 then unlock;; TRet fail
                 else generation ← clipboard_snapshot_sync_generation clipboard; k clipboard generation) s tt) tr
    (Some (r, s', tt)) ->
  (looks tr = [] /\ r = fail /\ counter s' = counter s) \/
  exists m c g s1 tr1 tr2, tr = tr1 ++ tr2 /\ looks tr1 = [m] /\ observe m (counter s) = Some g /\
    counter s1 = Some g /\ traces (alone (k c g) s1 tt) tr2 (Some (r, s', tt)).
Proof.
  intros H. cbn [mbind thread_mbind lock thread_bind alone] in H. apply alone_bind in H.
  apply traces_bind in H as [([[c s1] []] & tr1 & tr2 & -> & H1 & H2)|[_ [=]]].
  apply alone_pasteboard in H1 as (Hl1 & Hc1 & _). destruct (c =? 0).
  - destruct H2 as [-> [= -> ->]]. left. by rewrite looks_app, Hl1.
  - right. apply alone_bind in H2.
    apply traces_bind in H2 as [([[g s2] []] & tr3 & tr4 & -> & H3 & H4)|[_ [=]]].
    apply alone_sync in H3 as (m & Hm & Ho & Hg). exists m, c, g, s2, (tr1 ++ tr3), tr4.
    rewrite Hc1 in Ho. rewrite app_assoc.
    split_and!; [done|by rewrite looks_app, Hl1, Hm|by rewrite <- Ho|done|done].
Qed.

Lemma alone_one_look op s tr r s' :
  traces (alone (clipboard_run op) s tt) tr (Some (r, s', tt)) -> is_snapshot op = true ->
  one_look r (looks tr) (counter s) (counter s').
Proof.
  intros H Hop rs ms' c'' Hrest. destruct op as [[c|]|[c|] [h|]|]; try done; unfold clipboard_run in H;
    try by (destruct H as [-> [= -> ->]]; by constructor).
  - unfold agent_cli_clipboard_change_count in H.
    apply alone_bind in H. apply traces_bind in H as [([[[v out] s1] []] & tr1 & tr2 & -> & H1 & H2)|[_ [=]]].
    destruct H2 as [-> [= -> ->]]. rewrite app_nil_r.
    apply (alone_look (fun _ g => unlock;; TRet (1, Some g))) in H1 as [(-> & [= -> ->] & Hc)|(m & cb & g & s2 & tr3 & tr4 & -> & Hl & Ho & Hg & H2)].
    + rewrite Hc in Hrest. by constructor.
    + destruct H2 as [-> [= -> -> ->]]. rewrite app_nil_r, Hl. rewrite Hg in Hrest. by constructor.
  - unfold agent_cli_clipboard_image_snapshot in H. apply alone_look in H as [(-> & -> & Hc)|(m & cb & g & s2 & tr3 & tr4 & -> & Hl & Ho & Hg & H)].
    + rewrite Hc in Hrest. by constructor.
    + rewrite looks_app, Hl. apply alone_bind in H.
      apply traces_bind in H as [([[[v i] s1] []] & tr1 & tr2 & -> & H1 & H2)|[_ [=]]].
      apply alone_local in H1 as ([x|] & H1 & [= <- <-]). apply (blind_looks _ _ _ (blind_classify _ _)) in H1.
      rewrite looks_app, H1. destruct (v =? 0); destruct H2 as [-> [= -> ->]]; rewrite Hg in Hrest; simpl.
      * apply counted_unclassified. by rewrite Ho.
      * by eapply counted_told.
Qed.

#[local] Transparent clipboard_snapshot_classify agent_cli_pasteboard_may_contain_images.
#[local] Opaque classify_items scan_items.
Section decisions.
Context (conforms : string -> string -> bool) (items : list Z) (flavors_of : Z -> list flavor).
Abbreviation law := (board_law conforms items flavors_of).
Abbreviation all_flavors := (advertised flavors_of items).

(** A raster to paste: Finder copies advertise one next to the file's URL. *)
Definition pasteable : bool :=
  existsb (raster conforms) all_flavors && negb (existsb (file_url conforms) all_flavors).

Lemma classify_spec c out :
  wp law (clipboard_snapshot_classify c out)
    (fun _ r => r = (0, out) \/ r = (1, if pasteable then 1 else 0)).
Proof.
  unfold clipboard_snapshot_classify. simpl. intros [st n] [_ Hn].
  destruct (Z.eqb_spec st noErr) as [->|Hst]; simpl; [|by left]. rewrite (Hn eq_refl), Nat2Z.id.
  apply wp_bind. eapply wp_mono; [apply (classify_items_spec _ _ _ c 1); lia|].
  intros tr [[f ra]|] Hr; [|by left]. right. rewrite Hr. reflexivity.
Qed.

Lemma may_contain_spec name :
  wp law (agent_cli_pasteboard_may_contain_images name) (fun _ r =>
    (r = 0 -> existsb (candidate conforms) all_flavors = false) /\
    (r = 1 -> existsb (candidate conforms) all_flavors = true) /\ (r = 0 \/ r = 1 \/ r = -1)).
Proof.
  destruct name as [name|]; [|simpl; split_and!; auto; discriminate]. unfold agent_cli_pasteboard_may_contain_images. simpl.
  intros [st c] _. destruct (Z.eqb_spec st noErr) as [->|Hst]; simpl; [|split_and!; auto; discriminate].
  intros u _ [st2 n] [_ Hn]. destruct (Z.eqb_spec st2 noErr) as [->|Hst2]; simpl; [|intros u1 _; split_and!; auto; discriminate].
  rewrite (Hn eq_refl), Nat2Z.id. apply wp_bind. eapply wp_mono; [apply (scan_items_spec _ _ _ c 1); lia|].
  intros tr r Hr u1 _. exact Hr.
Qed.

Lemma board_law_lawful tr : Forall (lawful law) tr -> Forall (lawful pasteboard_law) tr.
Proof. intros Hl. eapply list.Forall_impl; [exact Hl|]. by intros ev [H _]. Qed.

(** ** Properties *)

(** C19: the shared snapshot is safe under every interleaving.  Any number of threads call the
    three entry points in any order, whatever the pasteboard service answers.  Then the cached
    reference and the counter are only touched with the mutex held, no deadlock arises, every
    Core Foundation object is used only while held and released once, all that is left is the
    cached reference, and each call answers 1 with every output written or 0 with none
    touched. *)
Theorem clipboard_threads_safe opss s0 tr s :
  steps (clipboard_system opss s0) tr s -> Forall (lawful pasteboard_law) tr -> snapshot_ok s0 ->
  ~ races s /\ ~ deadlocked s /\ (holder s = None -> snapshot_ok (state s)) /\
  (exists l, audit tr (snapshot_ledger s0) = Some l /\
     ((forall t, t ∈ pool s -> finished t) -> l = snapshot_ledger (state s))) /\
  (forall i ops rs, opss !! i = Some ops -> pool s !! i = Some (TRet rs) -> Forall2 clipboard_answer ops rs).
Proof.
  intros Hs Hl Hok.
  by apply (threads_sound pasteboard_law snapshot_ok snapshot_ledger (fun _ => True) clipboard_runs
    (Forall2 clipboard_answer) opss s0 tt tr s clipboard_runs_safe).
Qed.

(** The image tip fires exactly for a raster without a file.  When the clipboard does not
    change during the call, a snapshot that answers 1 reports an image if and only if some item
    advertises a PNG, TIFF or JPEG representation and none advertises a file URL: the early
    exit of the loop gives the same answer as looking at everything. *)
Theorem image_snapshot_classifies c h s tr g i s' :
  traces (alone (agent_cli_clipboard_image_snapshot c h) s tt) tr (Some (1, g, i, s', tt)) ->
  Forall (lawful law) tr -> i = Some (if pasteable then 1 else 0).
Proof.
  intros H Hl. destruct c as [c|], h as [h|]; try (by destruct H as [-> [=]]).
  unfold agent_cli_clipboard_image_snapshot in H.
  apply alone_look in H as [(_ & [=] & _)|(m & cb & g' & s1 & tr1 & tr2 & -> & _ & _ & _ & H)].
  apply Forall_app in Hl as [_ Hl]. apply alone_bind in H.
  apply traces_bind in H as [([[[v j] s2] []] & tr3 & tr4 & -> & H1 & H2)|[_ [=]]].
  apply Forall_app in Hl as [Hl _]. apply alone_local in H1 as ([x|] & H1 & [= <- <-]).
  destruct (wp_sound _ _ _ _ _ (classify_spec _ _) H1 Hl) as [[= -> ->]|[= -> ->]].
  - by destruct H2 as [-> [=]].
  - by destruct H2 as [-> [= _ <- _]].
Qed.

(** Candidates are found exactly.  [agent_cli_pasteboard_may_contain_images] always
    returns and releases all it created; with the clipboard unchanged during the call, 0 means
    that every item was inspected and none advertises an image or a file, 1 that some item
    does, and the only other answer is -1. *)
Theorem may_contain_images_decides name tr o :
  traces (agent_cli_pasteboard_may_contain_images name) tr o -> Forall (lawful law) tr ->
  audit tr ∅ = Some ∅ /\
  exists r, o = Some r /\ (r = 0 \/ r = 1 \/ r = -1) /\
    (r = 0 -> existsb (candidate conforms) all_flavors = false) /\
    (r = 1 -> existsb (candidate conforms) all_flavors = true).
Proof.
  intros Ht Hl. pose proof (board_law_lawful _ Hl) as Hl'.
  destruct (returns_under_sound _ _ _ _ (returns_may_contain name) Ht Hl') as [r ->].
  destruct (owns_sound _ _ _ _ _ _ (owns_may_contain name) Ht Hl') as (l & -> & HQ).
  rewrite (HQ r eq_refl). split; [done|]. exists r. split; [done|].
  destruct (wp_sound _ _ _ _ _ (may_contain_spec name) Ht Hl) as (H0 & H1 & H2). by split_and!.
Qed.
End decisions.

(** The generation counts the clipboard's changes.  Over any sequence of snapshot calls,
    each call that answers 1 tells the counter as of its look at the pasteboard, calls that fail
    after looking have still counted, and the counter moves by nothing else: 1 at the first
    look, then one more for each look that reports a change, so that while fewer than 2^64
    changes are seen two equal generations mean an unchanged clipboard. *)
Theorem clipboard_generation_counts ops s tr rs s' :
  traces (alone (clipboard_runs ops) s tt) tr (Some (rs, s', tt)) -> forallb is_snapshot ops = true ->
  counted rs (looks tr) (counter s) (counter s') /\
  (forall g, counter s = Some g -> 0 <= g -> g + zlen (looks tr) < 2 ^ 64 ->
     counter s' = Some (g + zlen (List.filter id (looks tr)))).
Proof.
  intros Ht Hops.
  assert (counted rs (looks tr) (counter s) (counter s')) as Hc.
  { revert s tr rs Ht. induction ops as [|op ops IH]; intros s tr rs Ht; cbn [clipboard_runs] in Ht.
    { destruct Ht as [-> [= -> ->]]. constructor. }
    simpl in Hops. apply andb_true_iff in Hops as [Hop Hops].
    apply alone_bind in Ht. apply traces_bind in Ht as [([[r s1] []] & tr1 & tr2 & -> & H1 & H2)|[_ [=]]].
    apply alone_bind in H2. apply traces_bind in H2 as [([[rs1 s2] []] & tr3 & tr4 & -> & H3 & H4)|[_ [=]]].
    destruct H4 as [-> [= -> ->]]. rewrite app_nil_r, looks_app.
    apply (alone_one_look _ _ _ _ _ H1 Hop). by apply IH. }
  split; [done|]. clear Ht. revert Hc. generalize (looks tr), (counter s), (counter s'). clear.
  intros ms c c' Hc. induction Hc as [c|out h rs ms c c' _ IH|out h rs m ms c c' _ IH|g h rs m ms c c' Hm _ IH];
    intros g0 -> Hg Hb.
  - by rewrite Z.add_0_r.
  - by apply IH.
  - simpl in Hb. unfold observe in IH. destruct m; simpl in IH |- *.
    + rewrite u64_id in IH by lia. rewrite (IH (g0 + 1) eq_refl) by lia. f_equal. lia.
    + apply IH; [done|done|lia].
  - simpl in Hb. unfold observe in Hm. injection Hm as <-. destruct m; simpl in IH |- *.
    + rewrite u64_id in IH by lia. rewrite (IH (g0 + 1) eq_refl) by lia. f_equal. lia.
    + apply IH; [done|done|lia].
Qed.

(** ** Runs

    A clipboard with one item; every look reports a change. *)
Definition demo_flavors (item : Z) : list flavor :=
  if item =? 7 then [Some "public.utf8-plain-text"; Some "public.png"]%string else [].
Definition pasteboard_demo : env Pasteboard unit := fun R e =>
  match e in Pasteboard R return unit -> R * unit with
  | UTTypeConformsTo a b | CFEqual a b => fun w => (String.eqb a b, w)
  | PasteboardCreate _ => fun w => ((noErr, 200), w)
  | PasteboardSynchronize _ => fun w => (kPasteboardModified, w)
  | PasteboardGetItemCount _ => fun w => ((noErr, 1), w)
  | PasteboardGetItemIdentifier _ i => fun w => ((if i =? 1 then noErr else -1, 7), w)
  | PasteboardCopyItemFlavors _ item => fun w => ((noErr, Flavors 300 (demo_flavors item)), w)
  | CFArrayGetCount a => fun w => (zlen (flavors_elements a), w)
  | CFArrayGetValueAtIndex a i => fun w => (default None (flavors_elements a !! Z.to_nat i), w)
  | CFRelease _ => fun w => (tt, w)
  end.

Lemma pasteboard_demo_lawful : lawful_env (board_law String.eqb [7] demo_flavors) pasteboard_demo.
Proof.
  intros R e w. destruct e; try (split; done).
  - split; [done|]. simpl. destruct (Z.eqb_spec index 1) as [->|H]; [done|discriminate].
  - split; [|done]. simpl. by intros g ->.
Qed.

Definition clipboard_demo_run :=
  run_schedule pasteboard_demo (replicate 8 0%nat ++ replicate 3 1%nat ++ replicate 60 0%nat ++ replicate 40 1%nat)
    (clipboard_system [[ImageSnapshot (Some 0) (Some 0)]; [ChangeCount (Some 0)]] initial_snapshot) tt.

Lemma initial_snapshot_ok : snapshot_ok initial_snapshot.
Proof. split; [simpl; lia|done]. Qed.

Lemma clipboard_threads_safe_witness :
  ~ races clipboard_demo_run.1.1 /\
  pool clipboard_demo_run.1.1 = [TRet [(1, Some 1, Some 1)]; TRet [(1, Some 2, None)]].
Proof.
  split; [|vm_compute; reflexivity].
  refine (proj1 (clipboard_threads_safe [[ImageSnapshot (Some 0) (Some 0)]; [ChangeCount (Some 0)]] initial_snapshot
    clipboard_demo_run.2 clipboard_demo_run.1.1 _ _ initial_snapshot_ok)).
  - apply run_schedule_steps.
  - eapply board_law_lawful, run_schedule_lawful, pasteboard_demo_lawful.
Defined.

Lemma image_snapshot_classifies_witness :
  Some 1 = Some (if pasteable String.eqb [7] demo_flavors then 1 else 0).
Proof.
  refine (image_snapshot_classifies String.eqb [7] demo_flavors (Some 0) (Some 0) initial_snapshot
    (exec_trace pasteboard_demo (alone (agent_cli_clipboard_image_snapshot (Some 0) (Some 0)) initial_snapshot tt) tt)
    (Some 1) (Some 1) (Snapshot 200 1 true) _ _).
  - run_with pasteboard_demo tt.
  - apply exec_lawful, pasteboard_demo_lawful.
Defined.

Lemma may_contain_images_decides_witness :
  exec_value pasteboard_demo (agent_cli_pasteboard_may_contain_images (Some kPasteboardClipboard)) tt = Some 0 /\
  existsb (candidate String.eqb) (advertised demo_flavors [7]) = false.
Proof.
  assert (exec_value pasteboard_demo (agent_cli_pasteboard_may_contain_images (Some kPasteboardClipboard)) tt = Some 0)
    as Hv by (vm_compute; reflexivity).
  split; [exact Hv|].
  destruct (may_contain_images_decides String.eqb [7] demo_flavors (Some kPasteboardClipboard)
    (exec_trace pasteboard_demo (agent_cli_pasteboard_may_contain_images (Some kPasteboardClipboard)) tt) (Some 0))
    as (_ & r & Hr & _ & H0 & _).
  - rewrite <- Hv. apply exec_traces.
  - apply exec_lawful, pasteboard_demo_lawful.
  - apply H0. injection Hr as <-. reflexivity.
Defined.

Lemma clipboard_generation_counts_witness :
  counted [(1, Some 1, None); (1, Some 2, None)] [true; true] None (Some 2).
Proof.
  refine (proj1 (clipboard_generation_counts [ChangeCount (Some 0); ChangeCount (Some 0)] initial_snapshot
    (exec_trace pasteboard_demo (alone (clipboard_runs [ChangeCount (Some 0); ChangeCount (Some 0)]) initial_snapshot tt) tt)
    [(1, Some 1, None); (1, Some 2, None)] (Snapshot 200 2 true) _ _)).
  - run_with pasteboard_demo tt.
  - reflexivity.
Defined.
