(* ===== verification/NetworkPath.v ===== *)
(** * The network path monitor (agent-connectivity/cbits/NetworkPathMonitor.c)

    A monitor delivers path changes to a callback on a private serial queue.  Creation is a
    program of calls; destruction races with that queue, so it runs inside a transition system
    ([step]) that states what Network and Dispatch document of monitors, serial queues and
    semaphores.  Destruction from within the callback itself, which would wait for its own
    queue, is outside the file's contract and not modelled. *)

From stdpp Require Import base tactics option list gmap gmultiset.
From Stdlib Require Import ZArith Lia.
From S2P Require Import Prelude Programs.
#[local] Open Scope Z_scope.

(** ** Calls *)

Inductive NetCall : Type -> Type :=
  | calloc_wrapper : NetCall Z
  | nw_path_monitor_create : NetCall Z
  | dispatch_queue_create : NetCall Z
  | dispatch_semaphore_create : NetCall Z
  | nw_release (monitor : Z) : NetCall unit
  | dispatch_release (object : Z) : NetCall unit
  | free (p : Z) : NetCall unit
  | nw_path_monitor_set_queue (monitor queue : Z) : NetCall unit
  | nw_path_monitor_set_update_handler (monitor wrapper : Z) : NetCall unit
  | nw_path_monitor_set_cancel_handler (monitor wrapper : Z) : NetCall unit
  | nw_path_monitor_start (monitor : Z) : NetCall unit
  | nw_path_monitor_cancel (monitor : Z) : NetCall unit
  | dispatch_semaphore_wait (semaphore : Z) : NetCall unit
  | dispatch_sync (queue : Z) : NetCall unit.

#[export] Instance net_ownership : Ownership NetCall := {
  gives := fun R e =>
    match e in NetCall R return R -> ledger with
    | calloc_wrapper => fun p => own Mem p
    | nw_path_monitor_create | dispatch_queue_create | dispatch_semaphore_create => fun h => own Os h
    | _ => fun _ => ∅
    end;
  takes := fun R e =>
    match e in NetCall R return R -> ledger with
    | nw_release h | dispatch_release h => fun _ => {[+ (Os, h) +]}
    | free p => fun _ => {[+ (Mem, p) +]}
    | _ => fun _ => ∅
    end;
  uses := fun R e =>
    match e with
    | nw_release h | dispatch_release h | nw_path_monitor_start h | nw_path_monitor_cancel h
    | dispatch_semaphore_wait h | dispatch_sync h => {[+ (Os, h) +]}
    | nw_path_monitor_set_queue m q => {[+ (Os, m) +]} ⊎ {[+ (Os, q) +]}
    | nw_path_monitor_set_update_handler m w | nw_path_monitor_set_cancel_handler m w =>
        {[+ (Os, m) +]} ⊎ {[+ (Mem, w) +]}
    | free p => {[+ (Mem, p) +]}
    | _ => ∅
    end
}.

(** [haskell_agent_network_path_monitor]: its address and its fields but for the callback. *)
Record wrapper := Wrapper { wrapper_ptr : Z; monitor : Z; queue : Z; cancelled : Z }.

(** [objc] is OS_OBJECT_USE_OBJC: dispatch objects are then released by the compiler. *)
Definition haskell_agent_network_path_monitor_create (objc : bool) (callback : Z)
    : prog NetCall (option wrapper) :=
  if callback =? 0 then Ret None else
  w ← call calloc_wrapper;
  if w =? 0 then Ret None else
  m ← call nw_path_monitor_create;
  q ← call dispatch_queue_create;
  s ← call dispatch_semaphore_create;
  if (m =? 0) || (q =? 0) || (s =? 0)
  then
    (if negb (m =? 0) then call (nw_release m) else Ret tt);;
    (if objc then Ret tt
     else (if negb (q =? 0) then call (dispatch_release q) else Ret tt);;
          (if negb (s =? 0) then call (dispatch_release s) else Ret tt));;
    call (free w);;
    Ret None
  else
    call (nw_path_monitor_set_queue m q);;
    call (nw_path_monitor_set_update_handler m w);;
    call (nw_path_monitor_set_cancel_handler m w);;
    call (nw_path_monitor_start m);;
    Ret (Some (Wrapper w m q s)).

(** The calls of [destroy], in order. *)
Definition haskell_agent_network_path_monitor_destroy (objc : bool) (w : option wrapper) : list (NetCall unit) :=
  match w with
  | None => []
  | Some w =>
      [nw_path_monitor_cancel (monitor w); dispatch_semaphore_wait (cancelled w); dispatch_sync (queue w);
       nw_release (monitor w)]
      ++ (if objc then [] else [dispatch_release (queue w); dispatch_release (cancelled w)])
      ++ [free (wrapper_ptr w)]
  end.

Fixpoint sequence (calls : list (NetCall unit)) : prog NetCall unit :=
  match calls with [] => Ret tt | e :: calls => call e;; sequence calls end.

(** ** The queue *)

(** [nw_path_status_satisfied] *)
Definition path_satisfied : Z := 1.

(** What runs on the queue: the update handler with the path's status, the cancel handler, the
    empty block of [dispatch_sync].  The cancel handler may have signalled and not returned. *)
Inductive block := Update (status : Z) | Cancel | Barrier.
Inductive activity := Idle | Running (b : block) | Signalled.

Record machine := Machine {
  caller : list (NetCall unit);   (* what is left of destroy *)
  blocks : list block;            (* waiting on the queue *)
  active : activity;              (* running on the queue *)
  signals : nat;                  (* the semaphore *)
  requested : bool;               (* the monitor has been told to cancel *)
  ended : bool;                   (* the monitor has queued its cancel handler, its last block *)
  synced : option bool;           (* the empty block: not queued, queued, returned *)
  freed : bool;                   (* the wrapper's memory *)
  callbacks : list Z              (* what the callback was told *)
}.

(** The wrapper's [callback] is told whether the path is satisfied. *)
Definition callback_argument (status : Z) : Z := if status =? path_satisfied then 1 else 0.

(** The monitor may report a path until it has queued its cancel handler, which it does once
    after it was told to; blocks run one at a time in the order they were queued; the caller's
    two waits block until the semaphore is positive and until the empty block has returned. *)
Inductive step : machine -> machine -> Prop :=
  | monitor_update status c bs a s r sy f cb :
      step (Machine c bs a s r false sy f cb) (Machine c (bs ++ [Update status]) a s r false sy f cb)
  | monitor_cancelled c bs a s sy f cb :
      step (Machine c bs a s true false sy f cb) (Machine c (bs ++ [Cancel]) a s true true sy f cb)
  | queue_begin c b bs s r e sy f cb :
      step (Machine c (b :: bs) Idle s r e sy f cb) (Machine c bs (Running b) s r e sy f cb)
  | update_handler c bs status s r e sy f cb :
      step (Machine c bs (Running (Update status)) s r e sy f cb)
        (Machine c bs Idle s r e sy f (cb ++ [callback_argument status]))
  | cancel_signal c bs s r e sy f cb :
      step (Machine c bs (Running Cancel) s r e sy f cb) (Machine c bs Signalled (S s) r e sy f cb)
  | cancel_return c bs s r e sy f cb :
      step (Machine c bs Signalled s r e sy f cb) (Machine c bs Idle s r e sy f cb)
  | barrier_return c bs s r e sy f cb :
      step (Machine c bs (Running Barrier) s r e sy f cb) (Machine c bs Idle s r e (Some true) f cb)
  | caller_cancel m c bs a s r e sy f cb :
      step (Machine (nw_path_monitor_cancel m :: c) bs a s r e sy f cb) (Machine c bs a s true e sy f cb)
  | caller_wait h c bs a s r e sy f cb :
      step (Machine (dispatch_semaphore_wait h :: c) bs a (S s) r e sy f cb) (Machine c bs a s r e sy f cb)
  | caller_sync q c bs a s r e f cb :
      step (Machine (dispatch_sync q :: c) bs a s r e None f cb)
        (Machine (dispatch_sync q :: c) (bs ++ [Barrier]) a s r e (Some false) f cb)
  | caller_synced q c bs a s r e f cb :
      step (Machine (dispatch_sync q :: c) bs a s r e (Some true) f cb) (Machine c bs a s r e (Some true) f cb)
  | caller_nw_release m c bs a s r e sy f cb :
      step (Machine (nw_release m :: c) bs a s r e sy f cb) (Machine c bs a s r e sy f cb)
  | caller_dispatch_release o c bs a s r e sy f cb :
      step (Machine (dispatch_release o :: c) bs a s r e sy f cb) (Machine c bs a s r e sy f cb)
  | caller_free p c bs a s r e sy f cb :
      step (Machine (free p :: c) bs a s r e sy f cb) (Machine c bs a s r e sy true cb).

Inductive steps : machine -> machine -> Prop :=
  | steps_refl m : steps m m
  | steps_step m1 m2 m3 : step m1 m2 -> steps m2 m3 -> steps m1 m3.

(** [destroy] is called on a started monitor: reports may be waiting or running. *)
Definition destroying (objc : bool) (w : wrapper) (statuses : list Z) (running : option Z) : machine :=
  Machine (haskell_agent_network_path_monitor_destroy objc (Some w)) (map Update statuses)
    match running with None => Idle | Some status => Running (Update status) end
    0 false false None false [].

(** A handler that reads the wrapper is running or will run. *)
Definition touches_wrapper (m : machine) : Prop :=
  match active m with Idle | Running Barrier => False | _ => True end \/
  exists b, b ∈ blocks m /\ b <> Barrier.

(** ** The invariant of destruction *)

Definition reports (bs : list block) : Prop := Forall (fun b => exists status, b = Update status) bs.
(** No handler of the monitor but reports runs. *)
Definition reporting (a : activity) : Prop :=
  match a with Idle | Running (Update _) => True | _ => False end.
(** The cancel handler has signalled. *)
Definition signalled (a : activity) : Prop := match a with Idle | Signalled => True | _ => False end.

Section destruction.
Context (objc : bool) (w : wrapper).
Definition after_sync : list (NetCall unit) :=
  nw_release (monitor w) :: (if objc then [] else [dispatch_release (queue w); dispatch_release (cancelled w)])
    ++ [free (wrapper_ptr w)].
Definition from_sync := dispatch_sync (queue w) :: after_sync.
Definition from_wait := dispatch_semaphore_wait (cancelled w) :: from_sync.

(** The phases of destruction. *)
Inductive phase : machine -> Prop :=
  | not_cancelled bs a cb : reports bs -> reporting a ->
      phase (Machine (nw_path_monitor_cancel (monitor w) :: from_wait) bs a 0 false false None false cb)
  | cancel_requested bs a cb : reports bs -> reporting a ->
      phase (Machine from_wait bs a 0 true false None false cb)
  | cancel_queued bs a cb : reports bs -> reporting a ->
      phase (Machine from_wait (bs ++ [Cancel]) a 0 true true None false cb)
  | cancel_running cb : phase (Machine from_wait [] (Running Cancel) 0 true true None false cb)
  | cancel_signalled a cb : signalled a -> phase (Machine from_wait [] a 1 true true None false cb)
  | waited a cb : signalled a -> phase (Machine from_sync [] a 0 true true None false cb)
  | sync_queued a cb : signalled a -> phase (Machine from_sync [Barrier] a 0 true true (Some false) false cb)
  | sync_running cb : phase (Machine from_sync [] (Running Barrier) 0 true true (Some false) false cb)
  | sync_returned cb : phase (Machine from_sync [] Idle 0 true true (Some true) false cb)
  | releasing c f cb : c `suffix_of` after_sync -> (f = true <-> c = []) ->
      phase (Machine c [] Idle 0 true true (Some true) f cb).

Lemma suffix_tail {A} (x : A) l k : x :: l `suffix_of` k -> l `suffix_of` k.
Proof. intros [k' ->]. exists (k' ++ [x]). by rewrite <- app_assoc. Qed.

(** Only the last call frees the wrapper. *)
Lemma suffix_free p c : free p :: c `suffix_of` after_sync -> c = [].
Proof.
  intros [k Hk]. destruct k as [|? k]; [done|]. injection Hk as _ Hk. destruct objc; simpl in Hk.
  - destruct k as [|? k]; simplify_eq/=; [done|]. by destruct k.
  - do 3 (destruct k as [|? k]; simplify_eq/=; try done). by destruct k.
Qed.
Lemma suffix_other e c : e :: c `suffix_of` after_sync -> (forall p, e <> free p) -> c <> [].
Proof.
  intros [k Hk] He ->. unfold after_sync in Hk. rewrite app_comm_cons in Hk.
  apply app_inj_tail in Hk as [_ Hk]. exact (He _ (eq_sym Hk)).
Qed.

Lemma reports_app bs status : reports bs -> reports (bs ++ [Update status]).
Proof. intros H. apply Forall_app. split; [done|]. apply Forall_singleton. by eexists. Qed.
Lemma reports_cons b bs c : b :: bs = c -> reports c -> exists status, b = Update status /\ reports bs.
Proof. intros <- [[s ->] H]%Forall_cons_1. eauto. Qed.

Lemma phase_step m m' : phase m -> step m m' -> phase m'.
Proof.
  intros Hp Hs. destruct Hp as [bs a cb Hb Ha|bs a cb Hb Ha|bs a cb Hb Ha|cb|a cb Ha|a cb Ha|a cb Ha|cb|cb|c f cb Hc Hf].
  - inversion Hs; subst; try done; try (by constructor; [apply reports_app|]).
    + destruct (reports_cons _ _ _ eq_refl Hb) as (st & -> & Hb'). by constructor.
    + by constructor.
    + by constructor.
  - inversion Hs; subst; try done; try (by constructor; [apply reports_app|]).
    + by constructor.
    + destruct (reports_cons _ _ _ eq_refl Hb) as (st & -> & Hb'). by constructor.
    + by constructor.
  - inversion Hs as [| |? b bs' ? ? ? ? ? ? Hq| | | | | | | | | | |]; subst; try done; try (by constructor).
    destruct bs as [|b0 bs0]; simplify_eq/=; [by constructor|].
    destruct (reports_cons _ _ _ eq_refl Hb) as (st & -> & Hb'). by constructor.
  - inversion Hs; subst. by constructor.
  - inversion Hs; subst; try done; by constructor.
  - inversion Hs; subst; try done; by constructor.
  - inversion Hs; subst; try done; by constructor.
  - inversion Hs; subst; by constructor.
  - inversion Hs; subst; constructor; [done|]. split; [done|]. unfold after_sync. done.
  - inversion Hs; subst; try (by destruct Hc as [[|? []] ?]);
      (constructor; [by eapply suffix_tail|]);
      try (pose proof (suffix_other _ _ Hc ltac:(discriminate)); naive_solver).
    by rewrite (suffix_free _ _ Hc).
Qed.

Lemma phase_steps m m' : steps m m' -> phase m -> phase m'.
Proof. induction 1 as [m|m1 m2 m3 H _ IH]; [done|]. intros Hp. apply IH. by eapply phase_step. Qed.

Lemma destroying_phase statuses running : phase (destroying objc w statuses running).
Proof.
  apply not_cancelled; [|by destruct running]. apply Forall_map, Forall_true. by eexists.
Qed.
End destruction.

(** ** Progress *)

(** Work left besides new reports. *)
Definition work (m : machine) : nat :=
  4 * length (caller m) + 3 * length (blocks m)
  + (match active m with Idle => 0 | Running _ => 2 | Signalled => 1 end)
  + (if ended m then 0 else 4) + (match synced m with None => 4 | _ => 0 end).

Definition is_report (m m' : machine) : Prop :=
  exists status, m' = Machine (caller m) (blocks m ++ [Update status]) (active m) (signals m) (requested m)
    (ended m) (synced m) (freed m) (callbacks m).

Lemma step_work m m' : step m m' -> (work m' < work m)%nat \/ is_report m m' /\ ended m = false.
Proof.
  intros Hs. destruct Hs; unfold work; cbn [caller blocks active ended synced];
    try (left; rewrite ?length_app; simpl; try destruct e; try destruct r; try destruct sy; lia).
  right. split; [by eexists|done].
Qed.

Lemma phase_progress objc w m : phase objc w m -> caller m <> [] -> exists m', step m m' /\ (work m' < work m)%nat.
Proof.
  intros Hp Hc.
  assert (forall m', step m m' -> ~ is_report m m' -> exists m', step m m' /\ (work m' < work m)%nat) as Hdone.
  { intros m' Hs Hn. exists m'. split; [done|]. destruct (step_work _ _ Hs) as [?|[? _]]; done. }
  assert (forall c bs a s r e sy f cb c' bs' a' s' r' e' sy' f' cb',
    (length c <> length c' \/ a <> a' \/ e <> e' \/ sy <> sy') ->
    ~ is_report (Machine c bs a s r e sy f cb) (Machine c' bs' a' s' r' e' sy' f' cb')) as Hdiff.
  { intros * Hne [st E]. injection E. naive_solver. }
  destruct Hp as [bs a cb Hb Ha|bs a cb Hb Ha|bs a cb Hb Ha|cb|a cb Ha|a cb Ha|a cb Ha|cb|cb|c f cb Hsuf Hf].
  - eapply Hdone; [apply caller_cancel|]. apply Hdiff. left. simpl. lia.
  - eapply Hdone; [apply monitor_cancelled|]. apply Hdiff. by right; right; left.
  - destruct a as [|[st| |]|]; try done.
    + destruct bs as [|b bs]; (eapply Hdone; [apply queue_begin|]; apply Hdiff; by right; left).
    + eapply Hdone; [apply update_handler|]. apply Hdiff. by right; left.
  - eapply Hdone; [apply cancel_signal|]. apply Hdiff. by right; left.
  - eapply Hdone; [apply caller_wait|]. apply Hdiff. left. simpl. lia.
  - eapply Hdone; [apply caller_sync|]. apply Hdiff. by right; right; right.
  - destruct a as [| |]; try done.
    + eapply Hdone; [apply queue_begin|]. apply Hdiff. by right; left.
    + eapply Hdone; [apply cancel_return|]. apply Hdiff. by right; left.
  - eapply Hdone; [apply barrier_return|]. apply Hdiff. by right; left.
  - eapply Hdone; [apply caller_synced|]. apply Hdiff. left. simpl. lia.
  - assert (forall e c', c = e :: c' -> (exists m, e = nw_release m) \/ (exists o, e = dispatch_release o) \/ exists p, e = free p) as Hcall.
    { intros e c' ->. assert (e ∈ after_sync objc w) as He.
      { destruct Hsuf as [k ->]. apply elem_of_app. right. by left. }
      unfold after_sync in He. destruct objc; simpl in He; rewrite !elem_of_cons in He.
      - destruct He as [->|[->|He]]; [eauto|eauto|by apply elem_of_nil in He].
      - destruct He as [->|[->|[->|[->|He]]]]; [eauto|eauto|eauto|eauto|by apply elem_of_nil in He]. }
    destruct c as [|e c]; [done|].
    destruct (Hcall e c eq_refl) as [[x ->]|[[x ->]|[x ->]]].
    + eapply Hdone; [apply caller_nw_release|]. apply Hdiff. left. simpl. lia.
    + eapply Hdone; [apply caller_dispatch_release|]. apply Hdiff. left. simpl. lia.
    + eapply Hdone; [apply caller_free|]. apply Hdiff. left. simpl. lia.
Qed.

Lemma steps_snoc m1 m2 m3 : steps m1 m2 -> step m2 m3 -> steps m1 m3.
Proof. induction 1 as [m|m1 m2 m2' H _ IH]; intros Hs; econstructor; eauto. constructor. Qed.
Lemma steps_app m1 m2 m3 : steps m1 m2 -> steps m2 m3 -> steps m1 m3.
Proof. induction 1 as [m|m1 m2 m2' H _ IH]; intros Hs; [done|]. econstructor; eauto. Qed.

Lemma phase_finishes objc w m : phase objc w m -> exists m', steps m m' /\ caller m' = [].
Proof.
  remember (work m) as n eqn:Hn. revert m Hn. induction n as [n IH] using lt_wf_ind. intros m -> Hp.
  destruct (caller m) as [|e c] eqn:Hc; [exists m; split; [constructor|done]|].
  destruct (phase_progress _ _ _ Hp) as (m1 & Hs & Hw); [by rewrite Hc|].
  destruct (IH _ Hw m1 eq_refl) as (m2 & Hs2 & Hend); [by eapply phase_step|].
  exists m2. split; [by econstructor|done].
Qed.

(** ** Reports *)

Definition statuses_of (bs : list block) : list Z :=
  omap (fun b => match b with Update status => Some status | _ => None end) bs.
(** The reports still to be told, oldest first. *)
Definition pending (m : machine) : list Z :=
  (match active m with Running (Update status) => [status] | _ => [] end) ++ statuses_of (blocks m).

Lemma step_reports m m' :
  step m m' -> exists new,
    callbacks m' ++ map callback_argument (pending m') =
    callbacks m ++ map callback_argument (pending m) ++ map callback_argument new.
Proof.
  intros Hs. unfold pending, statuses_of.
  destruct Hs; cbn [active blocks callbacks]; rewrite ?omap_app; simpl; rewrite ?app_nil_r;
    try (exists []; simpl; rewrite ?app_nil_r; done).
  - exists [status]. by rewrite !map_app, !app_assoc.
  - exists []. destruct b; simpl; rewrite ?app_nil_r; done.
  - exists []. simpl. by rewrite app_nil_r, <- app_assoc.
Qed.

(** ** Ownership *)

Definition wrapper_ledger (w : wrapper) : ledger :=
  {[+ (Mem, wrapper_ptr w) +]} ⊎ {[+ (Os, monitor w) +]} ⊎ {[+ (Os, queue w) +]} ⊎ {[+ (Os, cancelled w) +]}.

Lemma owns_release_opt h (c : Z -> NetCall unit) (l : ledger) (Q : unit -> ledger -> Prop) :
  uses (c h) = {[+ (Os, h) +]} -> (forall r, takes (c h) r = {[+ (Os, h) +]} /\ gives (c h) r = ∅) -> Q tt l ->
  owns no_law (if negb (h =? 0) then call (c h) else Ret tt) (own Os h ⊎ l) Q.
Proof.
  intros Hu Ht HQ. destruct (Z.eqb_spec h 0) as [->|Hh]; cbn [negb].
  - rewrite own_null. replace (∅ ⊎ l) with l by multiset_solver. exact HQ.
  - rewrite own_singleton by done. unfold call. cbn [owns]. rewrite Hu. split; [multiset_solver|].
    intros [] _. destruct (Ht tt) as [-> ->]. split; [multiset_solver|].
    by replace (_ ∖ _ ⊎ ∅) with l by multiset_solver.
Qed.

Lemma owns_monitor_create callback :
  owns no_law (haskell_agent_network_path_monitor_create false callback) ∅ (fun w l =>
    match w with
    | None => l = ∅
    | Some w => l = wrapper_ledger w
    end).
Proof.
  unfold haskell_agent_network_path_monitor_create. destruct (callback =? 0); [done|].
  simpl. split; [done|]. intros w _. split; [done|].
  destruct (Z.eqb_spec w 0) as [->|Hw]; [rewrite own_null; simpl; multiset_solver|]. rewrite own_singleton by done.
  simpl. split; [multiset_solver|]. intros m _. split; [multiset_solver|].
  split; [multiset_solver|]. intros q _. split; [multiset_solver|].
  split; [multiset_solver|]. intros s _. split; [multiset_solver|].
  match goal with |- owns _ _ ?l _ =>
    replace l with (own Os m ⊎ (own Os q ⊎ (own Os s ⊎ {[+ (Mem, w) +]})) : ledger) by multiset_solver end.
  destruct ((m =? 0) || (q =? 0) || (s =? 0)) eqn:E.
  - apply owns_bind, (owns_release_opt m nw_release); [done|done|].
    apply owns_bind, owns_bind, (owns_release_opt q dispatch_release); [done|done|].
    apply (owns_release_opt s dispatch_release); [done|done|]. own_call. multiset_solver.
  - rewrite !own_singleton by lia. own_call. own_call. own_call. own_call.
    unfold wrapper_ledger. simpl. multiset_solver.
Qed.

Lemma owns_monitor_destroy w :
  owns no_law (sequence (haskell_agent_network_path_monitor_destroy false (Some w))) (wrapper_ledger w)
    (fun _ l => l = ∅).
Proof.
  destruct w as [w m q s]. unfold wrapper_ledger. simpl.
  own_call. own_call. own_call. own_call. own_call. own_call. own_call. multiset_solver.
Qed.

(** ** Properties *)

(** C20: no callback after destruction.  Whatever reports are waiting or running when [destroy]
    is called and whatever more arrive, in any interleaving of the caller, the queue and the
    monitor: when the wrapper's memory is freed no handler that reads it is running or will
    run, and when [destroy] has returned nothing more can happen, so the callback is not called
    again. *)
Theorem destroy_quiesces objc w statuses running m :
  steps (destroying objc w statuses running) m ->
  (freed m = true -> caller m = [] /\ ~ touches_wrapper m) /\
  (caller m = [] -> freed m = true /\ forall m', ~ step m m').
Proof.
  intros Hs. pose proof (phase_steps _ _ _ _ Hs (destroying_phase objc w statuses running)) as Hp.
  destruct Hp; try (split; discriminate). split.
  - intros Hfr. split; [by apply H0|]. intros [[]|(b & Hb & _)]. by apply elem_of_nil in Hb.
  - intros Hc. split; [by apply H0|]. intros m' Hstep. simpl in Hc. subst. inversion Hstep.
Qed.

(** Destruction terminates.  From every state it can reach, the wait for the cancel
    handler and the wait for the queue end: as long as [destroy] has not returned some step
    other than a new report is possible, every such step leaves less work, reports come to an
    end with the cancellation, and so a run to the return exists from everywhere. *)
Theorem destroy_terminates objc w statuses running m :
  steps (destroying objc w statuses running) m ->
  (caller m <> [] -> exists m', step m m' /\ (work m' < work m)%nat) /\
  (forall m', step m m' -> (work m' < work m)%nat \/ is_report m m' /\ ended m = false) /\
  exists m', steps m m' /\ caller m' = [].
Proof.
  intros Hs. pose proof (phase_steps _ _ _ _ Hs (destroying_phase objc w statuses running)) as Hp.
  split_and!; [by eapply phase_progress|apply step_work|by eapply phase_finishes].
Qed.

(** Reports are told once and in order.  During destruction the callback is told the
    reports that were waiting and those that arrived since, each once and in order, as 1 for a
    satisfied path and 0 for any other; none is dropped: when [destroy] has returned all have
    been told. *)
Theorem reports_in_order objc w statuses running m :
  steps (destroying objc w statuses running) m -> exists new,
  callbacks m ++ map callback_argument (pending m) =
    map callback_argument (pending (destroying objc w statuses running)) ++ map callback_argument new /\
  (caller m = [] -> callbacks m =
    map callback_argument (pending (destroying objc w statuses running)) ++ map callback_argument new).
Proof.
  intros Hs. pose proof (phase_steps _ _ _ _ Hs (destroying_phase objc w statuses running)) as Hp.
  assert (exists new, callbacks m ++ map callback_argument (pending m) =
    map callback_argument (pending (destroying objc w statuses running)) ++ map callback_argument new) as [new Hnew].
  { change (map callback_argument (pending (destroying objc w statuses running))) with
      (callbacks (destroying objc w statuses running) ++ map callback_argument (pending (destroying objc w statuses running))).
    clear Hp. induction Hs as [m|m1 m2 m3 H _ IH]; [exists []; by rewrite app_nil_r|].
    destruct IH as [new Hn]. destruct (step_reports _ _ H) as [new' Hn']. exists (new' ++ new).
    rewrite Hn, Hn', map_app. by rewrite <- !app_assoc. }
  exists new. split; [done|]. intros Hc. rewrite <- Hnew.
  destruct Hp; try discriminate. unfold pending. simpl. by rewrite app_nil_r.
Qed.

(** Creating and destroying balance.  A failed creation, wherever it fails, releases what
    it had created; a successful one leaves the wrapper, the monitor, the queue and the
    semaphore, which [destroy] uses only while they live and releases once each. *)
Theorem network_path_balanced callback tr w :
  traces (haskell_agent_network_path_monitor_create false callback) tr (Some w) ->
  match w with
  | None => audit tr ∅ = Some ∅
  | Some w => callback <> 0 /\ audit tr ∅ = Some (wrapper_ledger w)
  end /\
  forall w tr' o, traces (sequence (haskell_agent_network_path_monitor_destroy false (Some w))) tr' (Some o) ->
    audit tr' (wrapper_ledger w) = Some ∅.
Proof.
  intros Ht. assert (forall tr : list (event NetCall), Forall (lawful no_law) tr) as Hlaw by (intros t; by apply Forall_true).
  split.
  - destruct (owns_sound _ _ _ _ _ _ (owns_monitor_create callback) Ht (Hlaw _)) as (l & -> & HQ).
    specialize (HQ _ eq_refl). destruct w as [w|]; [|by rewrite HQ]. rewrite HQ. split; [|done].
    intros ->. by destruct Ht as [_ [=]].
  - intros v tr' o Ht'. destruct (owns_sound _ _ _ _ _ _ (owns_monitor_destroy v) Ht' (Hlaw _)) as (l & -> & HQ).
    by rewrite (HQ o eq_refl).
Qed.

(** ** Runs *)

Definition demo_wrapper : wrapper := Wrapper 10 11 12 13.
Definition demo_end : machine := Machine [] [] Idle 0 true true (Some true) true [1].

Lemma demo_destroy : steps (destroying false demo_wrapper [path_satisfied] None) demo_end.
Proof.
  eapply steps_step; [apply caller_cancel|]. eapply steps_step; [apply monitor_cancelled|].
  eapply steps_step; [apply queue_begin|]. eapply steps_step; [apply update_handler|].
  eapply steps_step; [apply queue_begin|]. eapply steps_step; [apply cancel_signal|].
  eapply steps_step; [apply caller_wait|]. eapply steps_step; [apply caller_sync|].
  eapply steps_step; [apply cancel_return|]. eapply steps_step; [apply queue_begin|].
  eapply steps_step; [apply barrier_return|]. eapply steps_step; [apply caller_synced|].
  eapply steps_step; [apply caller_nw_release|]. eapply steps_step; [apply caller_dispatch_release|].
  eapply steps_step; [apply caller_dispatch_release|]. eapply steps_step; [apply caller_free|].
  apply steps_refl.
Qed.

Lemma destroy_quiesces_witness : ~ touches_wrapper demo_end /\ forall m, ~ step demo_end m.
Proof.
  destruct (destroy_quiesces false demo_wrapper [path_satisfied] None demo_end demo_destroy) as [H1 H2].
  split; [exact (proj2 (H1 eq_refl))|exact (proj2 (H2 eq_refl))].
Defined.

Lemma destroy_terminates_witness :
  exists m, steps (destroying true demo_wrapper [1; 0] (Some 1)) m /\ caller m = [].
Proof.
  exact (proj2 (proj2 (destroy_terminates true demo_wrapper [1; 0] (Some 1) _ (steps_refl _)))).
Defined.

Lemma reports_in_order_witness : exists new, [1] = [1] ++ map callback_argument new.
Proof.
  destruct (reports_in_order false demo_wrapper [path_satisfied] None demo_end demo_destroy) as (new & _ & H).
  exists new. exact (H eq_refl).
Defined.

Definition net_demo : env NetCall Z := fun R e =>
  match e in NetCall R return Z -> R * Z with
  | calloc_wrapper | nw_path_monitor_create | dispatch_queue_create | dispatch_semaphore_create =>
      fun next => (next, next + 1)
  | nw_release _ | dispatch_release _ | free _ | nw_path_monitor_set_queue _ _
  | nw_path_monitor_set_update_handler _ _ | nw_path_monitor_set_cancel_handler _ _
  | nw_path_monitor_start _ | nw_path_monitor_cancel _ | dispatch_semaphore_wait _
  | dispatch_sync _ => fun next => (tt, next)
  end.

Lemma network_path_balanced_witness :
  5 <> 0 /\ audit (exec_trace net_demo (haskell_agent_network_path_monitor_create false 5) 10) ∅
    = Some (wrapper_ledger demo_wrapper).
Proof.
  refine (proj1 (network_path_balanced 5
    (exec_trace net_demo (haskell_agent_network_path_monitor_create false 5) 10) (Some demo_wrapper) _)).
  run_with net_demo 10.
Defined.
