(* ===== verification/Utf8.v ===== *)
(** * Text at the boundary between the Haskell runtime and its C callers

    The bridge passes text over its C interface as borrowed UTF-8 slices.  A Haskell
    [Text] is the list of its Unicode scalar values; [utf8_encode] is [encodeUtf8] and
    [utf8_decode] the strict [decodeUtf8'] of the [text] library.  The two are inverse to
    each other, on every valid text and on every byte string that decodes. *)

From stdpp Require Import base tactics option list strings pretty.
From Stdlib Require Import ZArith Lia.
From coqutil Require Import Byte Word.LittleEndianList.
From S2P Require Import Prelude.
#[local] Open Scope Z_scope.

Abbreviation text := (list Z).

(** A Unicode scalar value: a code point that is not a surrogate. *)
Definition scalar (c : Z) : Prop := 0 <= c < 55296 \/ 57344 <= c < 1114112.

Definition bytes_of (l : list Z) : list byte := map byte.of_Z l.

Definition utf8_char (c : Z) : list Z :=
  if c <? 128 then [c]
  else if c <? 2048 then [192 + c / 64; 128 + c mod 64]
  else if c <? 65536 then [224 + c / 4096; 128 + c / 64 mod 64; 128 + c mod 64]
  else [240 + c / 262144; 128 + c / 4096 mod 64; 128 + c / 64 mod 64; 128 + c mod 64].

Definition utf8_encode (s : text) : list byte := bytes_of (flat_map utf8_char s).

(** A continuation byte [10xxxxxx]. *)
Definition is_cont (x : Z) : bool := (128 <=? x) && (x <? 192).

Fixpoint utf8_decode (l : list byte) : option text :=
  match l with
  | [] => Some []
  | b0 :: t0 =>
      let x0 := byte.unsigned b0 in
      if x0 <? 128 then cons x0 <$> utf8_decode t0
      else if x0 <? 192 then None
      else match t0 with
      | [] => None
      | b1 :: t1 =>
          let x1 := byte.unsigned b1 in
          if negb (is_cont x1) then None
          else if x0 <? 224 then
            let c := (x0 - 192) * 64 + (x1 - 128) in
            if c <? 128 then None else cons c <$> utf8_decode t1
          else match t1 with
          | [] => None
          | b2 :: t2 =>
              let x2 := byte.unsigned b2 in
              if negb (is_cont x2) then None
              else if x0 <? 240 then
                let c := (x0 - 224) * 4096 + (x1 - 128) * 64 + (x2 - 128) in
                if (c <? 2048) || ((55296 <=? c) && (c <? 57344)) then None
                else cons c <$> utf8_decode t2
              else match t2 with
              | [] => None
              | b3 :: t3 =>
                  let x3 := byte.unsigned b3 in
                  if negb (is_cont x3) then None
                  else
                    let c := (x0 - 240) * 262144 + (x1 - 128) * 4096
                             + (x2 - 128) * 64 + (x3 - 128) in
                    if (c <? 65536) || (1114112 <=? c) then None
                    else cons c <$> utf8_decode t3
              end
          end
      end
  end.

(** An ASCII literal of the source, as text. *)
Fixpoint txt (s : string) : text :=
  match s with
  | EmptyString => []
  | String a s => Z.of_N (Ascii.N_of_ascii a) :: txt s
  end.

(** [Text.pack (show z)] for the machine integers of the source. *)
Definition show_text (z : Z) : text := txt (pretty z).

(** ** Round trips *)

Lemma byte_unsigned_of_Z z : 0 <= z < 256 -> byte.unsigned (byte.of_Z z) = z.
Proof. intros H. rewrite byte.unsigned_of_Z. unfold byte.wrap. apply Z.mod_small. lia. Qed.

Lemma utf8_encode_cons c s : utf8_encode (c :: s) = bytes_of (utf8_char c) ++ utf8_encode s.
Proof. unfold utf8_encode, bytes_of. cbn [flat_map]. by rewrite map_app. Qed.

Lemma utf8_encode_app s t : utf8_encode (s ++ t) = utf8_encode s ++ utf8_encode t.
Proof. unfold utf8_encode, bytes_of. by rewrite flat_map_app, map_app. Qed.

(** Splits a boolean comparison of the goal by its outcome. *)
Ltac split_cmp :=
  match goal with
  | |- context [ (?a <? ?b) ] => destruct (Z.ltb_spec a b); try lia
  | |- context [ (?a <=? ?b) ] => destruct (Z.leb_spec a b); try lia
  end.

Lemma is_cont_true x : 128 <= x < 192 -> is_cont x = true.
Proof. intros H. unfold is_cont. apply andb_true_intro. split; lia. Qed.

Lemma is_cont_range x : is_cont x = true -> 128 <= x < 192.
Proof. unfold is_cont. intros [? ?]%andb_prop. lia. Qed.

(** The digits of a scalar value in base 64. *)
Lemma base64_two c : c = c / 64 * 64 + c mod 64 /\ 0 <= c mod 64 < 64.
Proof.
  pose proof (Z.div_mod c 64 ltac:(lia)). pose proof (Z.mod_pos_bound c 64 ltac:(lia)). lia.
Qed.

Lemma base64_three c :
  c = c / 4096 * 4096 + c / 64 mod 64 * 64 + c mod 64 /\ 0 <= c / 64 mod 64 < 64.
Proof.
  destruct (base64_two c) as [H0 _]. destruct (base64_two (c / 64)) as [H1 B1].
  rewrite Z.div_div in H1 by lia. change (64 * 64) with 4096 in H1. split; lia.
Qed.

Lemma base64_four c :
  c = c / 262144 * 262144 + c / 4096 mod 64 * 4096 + c / 64 mod 64 * 64 + c mod 64
  /\ 0 <= c / 4096 mod 64 < 64.
Proof.
  destruct (base64_three c) as [H0 _]. destruct (base64_two (c / 4096)) as [H1 B1].
  rewrite Z.div_div in H1 by lia. change (4096 * 64) with 262144 in H1. split; lia.
Qed.

Lemma utf8_decode_char c t :
  scalar c -> utf8_decode (bytes_of (utf8_char c) ++ t) = cons c <$> utf8_decode t.
Proof.
  intros Hc. unfold scalar in Hc.
  destruct (base64_two c) as [H2 B2]. destruct (base64_three c) as [H3 B3].
  destruct (base64_four c) as [H4 B4].
  assert (Hd : c < 2048 -> c / 64 < 32) by (intros; apply Z.div_lt_upper_bound; lia).
  assert (Hd' : c < 65536 -> c / 4096 < 16) by (intros; apply Z.div_lt_upper_bound; lia).
  assert (Hd'' : c / 262144 < 5) by (apply Z.div_lt_upper_bound; lia).
  unfold utf8_char.
  destruct (Z.ltb_spec c 128); [|destruct (Z.ltb_spec c 2048); [|destruct (Z.ltb_spec c 65536)]];
    cbn -[byte.unsigned byte.of_Z Z.ltb Z.leb Z.mul Z.div Z.add Z.sub Z.modulo is_cont];
    rewrite ?byte_unsigned_of_Z by lia;
    rewrite ?is_cont_true by lia; cbn [negb];
    repeat (split_cmp; cbn [orb andb]);
    (match goal with |- cons ?x <$> _ = cons ?y <$> _ => replace x with y by lia end; reflexivity)
    || (repeat f_equal; lia).
Qed.

Lemma utf8_roundtrip s : Forall scalar s -> utf8_decode (utf8_encode s) = Some s.
Proof.
  induction 1 as [|c s Hc Hs IH]; [done|].
  rewrite utf8_encode_cons, utf8_decode_char by done. by rewrite IH.
Qed.

(** Consumes the [Some] of a decoded remainder. *)
Ltac decoded_tail H :=
  match type of H with
  | cons ?c <$> utf8_decode ?t = Some ?s =>
      destruct (utf8_decode t) as [r|] eqn:Et; [|discriminate H];
      injection H as <-
  end.

(** The bytes of a scalar value, put back from its base-64 digits. *)
Lemma utf8_char_two a b :
  2 <= a < 32 -> 0 <= b < 64 -> utf8_char (a * 64 + b) = [192 + a; 128 + b].
Proof.
  intros Ha Hb. unfold utf8_char. repeat split_cmp.
  replace ((a * 64 + b) / 64) with a by (apply Z.div_unique with b; lia).
  replace ((a * 64 + b) mod 64) with b by (apply Z.mod_unique with a; lia).
  done.
Qed.

Lemma utf8_char_three a b d :
  0 <= a < 16 -> 0 <= b < 64 -> 0 <= d < 64 -> 2048 <= a * 4096 + b * 64 + d ->
  utf8_char (a * 4096 + b * 64 + d) = [224 + a; 128 + b; 128 + d].
Proof.
  intros Ha Hb Hd Hc. unfold utf8_char. repeat split_cmp.
  set (c := a * 4096 + b * 64 + d).
  replace (c / 4096) with a by (apply Z.div_unique with (b * 64 + d); lia).
  replace (c / 64) with (a * 64 + b) by (apply Z.div_unique with d; lia).
  replace ((a * 64 + b) mod 64) with b by (apply Z.mod_unique with a; lia).
  replace (c mod 64) with d by (apply Z.mod_unique with (a * 64 + b); lia).
  done.
Qed.

Lemma utf8_char_four a b d e :
  0 <= a < 8 -> 0 <= b < 64 -> 0 <= d < 64 -> 0 <= e < 64 ->
  65536 <= a * 262144 + b * 4096 + d * 64 + e ->
  utf8_char (a * 262144 + b * 4096 + d * 64 + e) = [240 + a; 128 + b; 128 + d; 128 + e].
Proof.
  intros Ha Hb Hd He Hc. unfold utf8_char. repeat split_cmp.
  set (c := a * 262144 + b * 4096 + d * 64 + e).
  replace (c / 262144) with a by (apply Z.div_unique with (b * 4096 + d * 64 + e); lia).
  replace (c / 4096) with (a * 64 + b) by (apply Z.div_unique with (d * 64 + e); lia).
  replace ((a * 64 + b) mod 64) with b by (apply Z.mod_unique with a; lia).
  replace (c / 64) with ((a * 64 + b) * 64 + d) by (apply Z.div_unique with e; lia).
  replace (((a * 64 + b) * 64 + d) mod 64) with d by (apply Z.mod_unique with (a * 64 + b); lia).
  replace (c mod 64) with e by (apply Z.mod_unique with ((a * 64 + b) * 64 + d); lia).
  done.
Qed.

Lemma bytes_of_unsigned l : bytes_of (map byte.unsigned l) = l.
Proof.
  unfold bytes_of. rewrite map_map. induction l as [|b l IH]; [done|].
  cbn [map]. by rewrite byte.of_Z_unsigned, IH.
Qed.

(** What one step of the decoder has read: the scalar value and its encoding. *)
Lemma utf8_step k c t s :
  scalar c -> map byte.unsigned k = utf8_char c ->
  utf8_encode s = t /\ Forall scalar s ->
  utf8_encode (c :: s) = k ++ t /\ Forall scalar (c :: s).
Proof.
  intros Hc Hk [<- Hs]. split; [|by constructor].
  by rewrite utf8_encode_cons, <- Hk, bytes_of_unsigned.
Qed.

Lemma utf8_decode_sound l s :
  utf8_decode l = Some s -> utf8_encode s = l /\ Forall scalar s.
Proof.
  revert s. induction l as [l IH] using (induction_ltof1 _ (@length byte)).
  unfold ltof in IH. intros s. destruct l as [|b0 t0]; cbn [utf8_decode].
  { by intros [= <-]. }
  pose proof (byte.unsigned_range b0) as R0.
  destruct (Z.ltb_spec (byte.unsigned b0) 128) as [L|L].
  { intros H. decoded_tail H. apply (utf8_step [b0]).
    - left. lia.
    - unfold utf8_char. by split_cmp.
    - apply IH; [simpl; lia|done]. }
  destruct (Z.ltb_spec (byte.unsigned b0) 192) as [|L2]; [done|].
  destruct t0 as [|b1 t1]; [done|].
  destruct (is_cont (byte.unsigned b1)) eqn:C1; cbn [negb]; [|done].
  apply is_cont_range in C1.
  destruct (Z.ltb_spec (byte.unsigned b0) 224) as [|L3].
  { match goal with |- context [?c <? 128] => destruct (Z.ltb_spec c 128); [done|] end.
    intros H1. decoded_tail H1. apply (utf8_step [b0; b1]).
    - left. lia.
    - rewrite utf8_char_two by lia. cbn [map]. repeat f_equal; lia.
    - apply IH; [simpl; lia|done]. }
  destruct t1 as [|b2 t2]; [done|].
  destruct (is_cont (byte.unsigned b2)) eqn:C2; cbn [negb]; [|done].
  apply is_cont_range in C2.
  destruct (Z.ltb_spec (byte.unsigned b0) 240) as [|L4].
  { match goal with |- context [?b] => match b with orb _ _ => destruct b eqn:E; [done|] end end.
    intros H1. decoded_tail H1.
    apply orb_false_iff in E as [E1 E2]. apply andb_false_iff in E2.
    apply (utf8_step [b0; b1; b2]).
    - unfold scalar. lia.
    - rewrite utf8_char_three by lia. cbn [map]. repeat f_equal; lia.
    - apply IH; [simpl; lia|done]. }
  destruct t2 as [|b3 t3]; [done|].
  destruct (is_cont (byte.unsigned b3)) eqn:C3; cbn [negb]; [|done].
  apply is_cont_range in C3.
  match goal with |- context [?b] => match b with orb _ _ => destruct b eqn:E; [done|] end end.
  intros H1. decoded_tail H1. apply orb_false_iff in E as [E1 E2].
  apply (utf8_step [b0; b1; b2; b3]).
  - unfold scalar. lia.
  - rewrite utf8_char_four by lia. cbn [map]. repeat f_equal; lia.
  - apply IH; [simpl; lia|done].
Qed.

(** ** Lengths and emptiness *)

Lemma utf8_encode_nil s : utf8_encode s = [] <-> s = [].
Proof.
  split; [|by intros ->]. destruct s as [|c s]; [done|].
  rewrite utf8_encode_cons. unfold utf8_char.
  by repeat match goal with |- context [if ?b then _ else _] => destruct b end.
Qed.

Lemma utf8_encode_pos s : s <> [] -> 0 < zlen (utf8_encode s).
Proof.
  intros H. destruct (utf8_encode s) eqn:E; [by apply utf8_encode_nil in E|]. simpl. lia.
Qed.

Lemma txt_scalar s : Forall scalar (txt s).
Proof.
  induction s as [|a s IH]; [constructor|]. cbn [txt]. constructor; [|done].
  left. pose proof (Ascii.N_ascii_bounded a). lia.
Qed.

Example utf8_umlaut : utf8_encode [215] = bytes_of [195; 151].
Proof. reflexivity. Qed.
