(* ===== verification/AbiLayout.v ===== *)
(** * C structures as bytes

    The bridge's Haskell side writes and reads the structures of
    [HaskellAgentBridge.h] one field at a time, at literal byte offsets.  A C compiler
    derives the offsets from the declaration: on an LP64 target each field is placed at
    the next multiple of its alignment.  This file has that rule ([field_offset],
    [struct_size]), the memory accesses of both sides ([peek], [poke]) and the borrowed
    (pointer, length) slices through which text crosses the interface. *)

From stdpp Require Import base tactics option list gmap strings.
From Stdlib Require Import ZArith Lia.
From coqutil Require Import Byte Word.LittleEndianList.
From S2P Require Import Prelude Utf8.
#[local] Open Scope Z_scope.

(** ** Layout *)

(** The scalar types that the interface's structures use. *)
Inductive ctype := c_uint32 | c_int32 | c_double | c_uint64 | c_size | c_pointer.

Definition c_sizeof (t : ctype) : Z :=
  match t with c_uint32 | c_int32 => 4 | _ => 8 end.

(** On LP64 every scalar is aligned to its size. *)
Definition c_alignof (t : ctype) : Z := c_sizeof t.

Definition round_up (at_ align : Z) : Z := (at_ + align - 1) / align * align.

Fixpoint layout_from (at_ : Z) (fs : list (string * ctype)) : list (string * (Z * ctype)) * Z :=
  match fs with
  | [] => ([], at_)
  | (f, t) :: fs =>
      let off := round_up at_ (c_alignof t) in
      let '(rest, stop) := layout_from (off + c_sizeof t) fs in
      ((f, (off, t)) :: rest, stop)
  end.

Definition struct_layout (fs : list (string * ctype)) : list (string * (Z * ctype)) :=
  fst (layout_from 0 fs).

Definition struct_align (fs : list (string * ctype)) : Z :=
  foldr (fun ft => Z.max (c_alignof (snd ft))) 1 fs.

Definition struct_size (fs : list (string * ctype)) : Z :=
  round_up (snd (layout_from 0 fs)) (struct_align fs).

Fixpoint assoc {A} (f : string) (l : list (string * A)) : option A :=
  match l with
  | [] => None
  | (g, a) :: l => if decide (f = g) then Some a else assoc f l
  end.

Definition field_offset (fs : list (string * ctype)) (f : string) : option (Z * ctype) :=
  assoc f (struct_layout fs).

(** ** Accesses *)

(** [w] bytes of a buffer at an offset, as an unsigned little-endian integer. *)
Definition peek (w off : Z) (buf : list byte) : Z := le_combine (ztake w (zdrop off buf)).

(** [pokeByteOff]: overwrites [w] bytes at an offset. *)
Definition poke (w off v : Z) (buf : list byte) : list byte :=
  ztake off buf ++ le_split (Z.to_nat w) v ++ zdrop (off + w) buf.

(** [fillBytes buf 0 n]. *)
Definition zeroed (n : Z) : list byte := replicate (Z.to_nat n) Byte.x00.

(** A C lvalue of the structure: its bytes read with the type of the field. *)
Definition load_field (fs : list (string * ctype)) (f : string) (buf : list byte) : option Z :=
  '(off, t) ← field_offset fs f;
  let v := peek (c_sizeof t) off buf in
  Some (match t with c_int32 => i32 v | _ => v end).

Lemma zlen_poke w off v buf :
  0 <= w -> 0 <= off -> off + w <= zlen buf -> zlen (poke w off v buf) = zlen buf.
Proof.
  intros Hw Ho H. unfold poke. rewrite !length_app, length_le_split.
  unfold ztake, zdrop. rewrite length_take, length_drop. lia.
Qed.

Lemma peek_poke_same w off v buf :
  0 <= w -> 0 <= off -> off + w <= zlen buf ->
  peek w off (poke w off v buf) = v mod 2 ^ (8 * w).
Proof.
  intros Hw Ho H. unfold peek, poke.
  assert (Hl : zlen (ztake off buf) = off) by (apply zlen_ztake; lia).
  rewrite <- Hl at 1. rewrite zdrop_app.
  assert (Hs : zlen (le_split (Z.to_nat w) v) = w) by (rewrite length_le_split; lia).
  rewrite <- Hs at 1. rewrite ztake_app, le_combine_split. f_equal. f_equal. lia.
Qed.

Lemma ztake_poke n w off v buf :
  n <= off -> 0 <= off -> off + w <= zlen buf -> 0 <= w ->
  ztake n (poke w off v buf) = ztake n buf.
Proof.
  intros. unfold poke, ztake. rewrite take_app.
  rewrite take_take, length_take.
  replace (Z.to_nat n - _)%nat with 0%nat by lia. rewrite take_0, app_nil_r.
  f_equal. lia.
Qed.

Lemma peek_poke_other w off v w' off' buf :
  0 <= w -> 0 <= off -> off + w <= zlen buf -> 0 <= w' -> 0 <= off' ->
  off' + w' <= off \/ off + w <= off' ->
  peek w' off' (poke w off v buf) = peek w' off' buf.
Proof.
  intros Hw Ho H Hw' Ho' [Hd|Hd]; unfold peek; f_equal.
  - unfold ztake, zdrop. rewrite !take_drop_commute.
    pose proof (ztake_poke (off' + w') w off v buf ltac:(lia) Ho H Hw) as E. unfold ztake in E.
    replace (Z.to_nat off' + Z.to_nat w')%nat with (Z.to_nat (off' + w')) by lia.
    by rewrite E.
  - f_equal. unfold poke, ztake, zdrop.
    rewrite app_assoc, drop_app_ge.
    + rewrite length_app, length_take, length_le_split, drop_drop. f_equal. lia.
    + rewrite length_app, length_take, length_le_split. lia.
Qed.

(** A sequence of [pokeByteOff]s: width, offset and value of each. *)
Definition pokes (l : list (Z * Z * Z)) (buf : list byte) : list byte :=
  foldl (fun buf '(w, off, v) => poke w off v buf) buf l.

(** The written field [w], [off] does not meet the field [w'], [off']. *)
Definition apart (w off w' off' : Z) : bool := (off' + w' <=? off) || (off + w <=? off').

(** Each write lies in a buffer of [n] bytes and meets no later one. *)
Fixpoint pokes_ok (n : Z) (l : list (Z * Z * Z)) : bool :=
  match l with
  | [] => true
  | (w, off, _) :: l =>
      (0 <=? w) && (0 <=? off) && (off + w <=? n)
      && forallb (fun '(w', off', _) => apart w' off' w off) l && pokes_ok n l
  end.

Lemma pokes_ok_cons n w off v l :
  pokes_ok n ((w, off, v) :: l) = true ->
  0 <= w /\ 0 <= off /\ off + w <= n
  /\ forallb (fun '(w', off', _) => apart w' off' w off) l = true /\ pokes_ok n l = true.
Proof. cbn. rewrite !andb_true_iff. intros [[[[? ?] ?] ?] ?]. repeat split; lia || done. Qed.

Lemma peek_pokes_other n l w off buf :
  zlen buf = n -> pokes_ok n l = true -> 0 <= w -> 0 <= off ->
  forallb (fun '(w', off', _) => apart w' off' w off) l = true ->
  peek w off (pokes l buf) = peek w off buf.
Proof.
  intros Hn Hok Hw Ho. revert buf Hn. induction l as [|[[w' off'] v] l IH]; intros buf Hn Ha;
    [done|].
  apply pokes_ok_cons in Hok as (? & ? & ? & _ & Hok). cbn in Ha.
  apply andb_prop in Ha as [Ha Hl]. unfold apart in Ha. apply orb_prop in Ha.
  unfold pokes. cbn [foldl]. fold (pokes l (poke w' off' v buf)).
  rewrite IH by (done || (rewrite zlen_poke; lia)).
  apply peek_poke_other; lia.
Qed.

(** Reading a written field gives the value written, at the width of the field. *)
Lemma peek_pokes n l w off v buf :
  zlen buf = n -> pokes_ok n l = true -> In (w, off, v) l ->
  peek w off (pokes l buf) = v mod 2 ^ (8 * w).
Proof.
  revert buf. induction l as [|[[w' off'] v'] l IH]; intros buf Hn Hok Hin; [done|].
  apply pokes_ok_cons in Hok as (? & ? & ? & Ha & Hok).
  unfold pokes. cbn [foldl]. fold (pokes l (poke w' off' v' buf)).
  assert (Hn' : zlen (poke w' off' v' buf) = n) by (rewrite zlen_poke; lia).
  destruct Hin as [[= -> -> ->]|Hin]; [|by apply IH].
  rewrite (peek_pokes_other n) by done. apply peek_poke_same; lia.
Qed.

Lemma zlen_zeroed n : 0 <= n -> zlen (zeroed n) = n.
Proof. intros H. unfold zeroed. rewrite length_replicate. lia. Qed.

Lemma load_field_at fs f off t buf :
  field_offset fs f = Some (off, t) ->
  load_field fs f buf =
  Some (match t with c_int32 => i32 (peek (c_sizeof t) off buf) | _ => peek (c_sizeof t) off buf end).
Proof. intros H. unfold load_field. by rewrite H. Qed.

(** Finds the write of a list that fills a field. *)
Ltac find_poke := cbn [In]; repeat first [left; reflexivity | right].

(** Reads a field of a structure that was filled by [pokes]. *)
Ltac read_pokes n :=
  repeat match goal with
  | |- context [peek ?w ?off (pokes ?l ?buf)] =>
      first
        [ erewrite (peek_pokes n l w off _ buf) by first [reflexivity | find_poke]
        | rewrite (peek_pokes_other n l w off buf) by first [reflexivity | lia] ]
  end.

(** ** Borrowed slices

    Live buffers are blocks of memory named by their (nonzero) address. *)
Abbreviation memory := (gmap Z (list byte)).

(** The bytes of a borrowed slice: NULL goes with length zero and only with it. *)
Definition slice (m : memory) (p len : Z) : option (list byte) :=
  if len =? 0 then (if p =? 0 then Some [] else None)
  else if p =? 0 then None
  else bs ← m !! p; if len <=? zlen bs then Some (ztake len bs) else None.

Lemma slice_null m : slice m 0 0 = Some [].
Proof. done. Qed.

Lemma slice_block m p bs :
  m !! p = Some bs -> p <> 0 -> bs <> [] -> slice m p (zlen bs) = Some bs.
Proof.
  intros Hm Hp Hb. unfold slice.
  destruct bs as [|b bs]; [done|].
  destruct (Z.eqb_spec (zlen (b :: bs)) 0); [simpl in *; lia|].
  destruct (Z.eqb_spec p 0); [done|]. rewrite Hm. cbn [mbind option_bind].
  rewrite Z.leb_refl. by rewrite ztake_all.
Qed.

(** ** Binary64 numbers

    A C [double] is kept as its 64-bit pattern; its value is [m * 2 ^ e] with a sign. *)
Inductive double :=
  | d_finite (negative : bool) (mantissa exponent : Z)
  | d_infinity (negative : bool)
  | d_nan.

Definition double_of_bits (b : Z) : double :=
  let s := Z.testbit b 63 in
  let ex := Z.land (Z.shiftr b 52) 2047 in
  let frac := Z.land b (2 ^ 52 - 1) in
  if ex =? 2047 then (if frac =? 0 then d_infinity s else d_nan)
  else if ex =? 0 then d_finite s frac (-1074)
  else d_finite s (frac + 2 ^ 52) (ex - 1075).

Definition is_nan (d : double) : bool := match d with d_nan => true | _ => false end.
Definition is_infinite (d : double) : bool := match d with d_infinity _ => true | _ => false end.

(** [d == 0], for either zero. *)
Definition is_zero (d : double) : bool :=
  match d with d_finite _ m _ => m =? 0 | _ => false end.

(** [abs d > k] for an integer [k >= 0]: the value [m * 2 ^ e] against [k], exactly. *)
Definition abs_exceeds (d : double) (k : Z) : bool :=
  match d with
  | d_finite _ m e => if 0 <=? e then k <? m * 2 ^ e else k * 2 ^ (- e) <? m
  | d_infinity _ => true
  | d_nan => false
  end.
