(* ===== verification/HostCall.v ===== *)
(** * Calls from the host: reading borrowed buffers

    The exported functions of the bridge run a Haskell action on pointers that the host
    lends for the duration of the call.  An access outside the lent memory is undefined
    behaviour in C; an exception inside the action is caught by [tryAny] and becomes a
    status.  This file has the monad of such actions ([outcome]), the copying of a buffer
    and of array elements out of the host's memory, and the host's side of the bargain
    ([readable]), under which every access is defined; at its end, what the callbacks to the
    host share. *)

From stdpp Require Import base tactics option list gmap strings.
From Stdlib Require Import ZArith Lia.
From coqutil Require Import Byte Word.LittleEndianList.
From S2P Require Import Prelude Utf8 AbiLayout.
#[local] Open Scope Z_scope.

(** ** Actions *)

Inductive outcome (A : Type) :=
  | undefined
  | threw
  | value (a : A).
Arguments undefined {A}.
Arguments threw {A}.
Arguments value {A} a.

#[export] Instance outcome_ret : MRet outcome := fun A a => value a.
#[export] Instance outcome_bind : MBind outcome := fun A B f m =>
  match m with undefined => undefined | threw => threw | value a => f a end.

(** [mapM]. *)
Fixpoint map_outcome {A B} (f : A -> outcome B) (l : list A) : outcome (list B) :=
  match l with
  | [] => value []
  | a :: l => b ← f a; bs ← map_outcome f l; value (b :: bs)
  end.

(** [either (const d) id <$> tryAny m]: undefined behaviour is not an exception. *)
Definition either_thrown {A} (d : A) (m : outcome A) : outcome A :=
  match m with threw => value d | _ => m end.

Lemma map_outcome_values {A B} (f : A -> outcome B) (g : A -> B) l :
  Forall (fun a => f a = value (g a)) l -> map_outcome f l = value (map g l).
Proof.
  induction 1 as [|a l Ha _ IH]; [done|]. cbn [map_outcome map]. by rewrite Ha, IH.
Qed.

(** ** The host's memory *)

(** [fromIntegral] from [CSize] to [Int]. *)
Definition int_of_size (n : Z) : Z := if n <? 2 ^ 63 then n else n - 2 ^ 64.

(** [BS.packCStringLen (castPtr p, fromIntegral len)]. *)
Definition packCStringLen (m : memory) (p len : Z) : outcome (list byte) :=
  let n := int_of_size len in
  if n <? 0 then threw
  else if n =? 0 then value []
  else match m !! p with
       | Some b => if n <=? zlen b then value (ztake n b) else undefined
       | None => undefined
       end.

(** [peekByteOff base off], for a scalar of [w] bytes. *)
Definition peekByteOff (m : memory) (base off w : Z) : outcome Z :=
  match m !! base with
  | Some b => if (0 <=? off) && (off + w <=? zlen b) then value (peek w off b) else undefined
  | None => undefined
  end.

Definition pointerSize : Z := 8.
Definition sizeSize : Z := 8.

Lemma layout_pointer : pointerSize = c_sizeof c_pointer /\ sizeSize = c_sizeof c_size.
Proof. done. Qed.

(** ** The host's contract *)

(** A lent buffer: all its bytes can be read, or there are none.  No object of C is larger
    than [PTRDIFF_MAX]. *)
Definition readable (m : memory) (p len : Z) : Prop :=
  0 <= len < 2 ^ 63 /\ (len = 0 \/ exists b, m !! p = Some b /\ len <= zlen b).

(** What the lent buffer holds. *)
Definition bytes_at (m : memory) (p len : Z) : list byte := ztake len (default [] (m !! p)).

Lemma int_of_size_small n : n < 2 ^ 63 -> int_of_size n = n.
Proof. intros H. unfold int_of_size. destruct (Z.ltb_spec n (2 ^ 63)); lia. Qed.

Lemma pack_readable m p len :
  readable m p len -> packCStringLen m p len = value (bytes_at m p len).
Proof.
  intros [Hl Hb]. unfold packCStringLen, bytes_at. rewrite int_of_size_small by lia.
  destruct (Z.ltb_spec len 0); [lia|]. destruct (Z.eqb_spec len 0) as [->|]; [done|].
  destruct Hb as [?|(b & -> & Hle)]; [lia|]. cbn [default id].
  by destruct (Z.leb_spec len (zlen b)); [|lia].
Qed.

Lemma zlen_bytes_at m p len : readable m p len -> zlen (bytes_at m p len) = len.
Proof.
  intros [Hl Hb]. unfold bytes_at. destruct Hb as [->|(b & -> & Hle)]; [done|].
  apply zlen_ztake. cbn [default id]. lia.
Qed.

Lemma bytes_at_whole m p b : m !! p = Some b -> bytes_at m p (zlen b) = b.
Proof. intros H. unfold bytes_at. rewrite H. apply ztake_all. Qed.

Lemma readable_whole m p b : m !! p = Some b -> zlen b < 2 ^ 63 -> readable m p (zlen b).
Proof. intros H Hb. split; [lia|]. right. by exists b. Qed.

Lemma readable_empty m p : readable m p 0.
Proof. split; [lia|by left]. Qed.

#[export] Hint Resolve readable_empty readable_whole : agent.

(** ** Optional text *)

(** Whether a slice is a null pointer with bytes: every entry refuses those. *)
Definition null_with_bytes (p len : Z) : bool := (p =? 0) && negb (len =? 0).

(** [mapMaybe]-style sequencing: [sequence] at [Maybe]. *)
Fixpoint sequence {A} (l : list (option A)) : option (list A) :=
  match l with
  | [] => Some []
  | o :: l => a ← o; r ← sequence l; Some (a :: r)
  end.

Lemma sequence_Some {A} (l : list (option A)) (r : list A) :
  sequence l = Some r <-> l = Some <$> r.
Proof.
  revert r. induction l as [|o l IH]; intros r; cbn [sequence].
  - destruct r; by split.
  - destruct o as [a|]; cbn [mbind option_bind]; [|destruct r; by split].
    destruct (sequence l) as [r'|] eqn:E; cbn [mbind option_bind].
    + pose proof (proj1 (IH r') eq_refl) as ->. split.
      * by intros [= <-].
      * destruct r as [|b r]; [done|]. cbn. intros [= -> H]. do 2 f_equal.
        apply (inj (fmap Some)) in H. done.
    + split; [done|]. destruct r as [|b r]; [done|]. cbn. intros [= -> H].
      by apply IH in H.
Qed.

Lemma sequence_None {A} (l : list (option A)) : sequence l = None <-> In None l.
Proof.
  induction l as [|o l IH]; cbn [sequence]; [by split|].
  destruct o as [a|]; cbn [mbind option_bind]; [|by split; [left|]].
  destruct (sequence l) as [r|] eqn:E; cbn [mbind option_bind].
  - split; [done|]. intros [?|H]; [done|]. by apply IH in H.
  - split; [|done]. intros _. right. by apply IH.
Qed.

(** A (pointer, length) argument of a call: any pointer that is not null must be readable. *)
Definition lent (m : memory) (p len : Z) : Prop :=
  0 <= len < 2 ^ 64 /\ (p <> 0 -> readable m p len).

Lemma lent_readable m p len : lent m p len -> null_with_bytes p len = false -> readable m p len.
Proof.
  unfold null_with_bytes. intros [Hl Hr] Hn.
  destruct (Z.eqb_spec p 0) as [->|Hp]; [|by apply Hr].
  destruct (Z.eqb_spec len 0) as [->|]; [apply readable_empty|done].
Qed.

Lemma pack_lent m p len :
  lent m p len -> null_with_bytes p len = false ->
  packCStringLen m p len = value (bytes_at m p len).
Proof. intros. by apply pack_readable, lent_readable. Qed.

Lemma readable_lent m p len : readable m p len -> lent m p len.
Proof. intros H. split; [destruct H; lia|done]. Qed.

#[export] Hint Resolve readable_lent : agent.

(** ** Text decoded late

    A value that is computed when it is first used: [None] is one whose computation throws. *)
Abbreviation lazy := option.

(** [decodeInput]: the bytes are copied, but [decodeUtf8] runs - and throws - only when the
    text is used. *)
Definition decodeInput (m : memory) (pointer length : Z) : outcome (lazy text) :=
  if (pointer =? 0) || (length =? 0) then value (Some [])
  else b ← packCStringLen m pointer length; value (utf8_decode b).

(** ** Arrays of structures *)

(** The object representation of the [i]-th element of an array. *)
Definition element (size i : Z) (b : list byte) : list byte := ztake size (zdrop (i * size) b).

(** A field of it, as C reads it. *)
Definition struct_field (fs : list (string * ctype)) (f : string) (e : list byte) : Z :=
  default 0 (load_field fs f e).

(** The host's array of [count] structures at [p]. *)
Definition array_readable (m : memory) (p count size : Z) : Prop :=
  count = 0 \/ exists b, m !! p = Some b /\ count * size <= zlen b.

Definition array_at (m : memory) (p count size : Z) : list (list byte) :=
  map (fun i => element size i (default [] (m !! p))) (seqZ 0 count).

Lemma peek_element w off size i b :
  0 <= w -> 0 <= off -> off + w <= size -> 0 <= i ->
  peek w (i * size + off) b = peek w off (element size i b).
Proof.
  intros Hw Ho Hs Hi. unfold peek, element, ztake, zdrop. f_equal.
  rewrite skipn_firstn_comm, take_take, drop_drop.
  replace (Z.to_nat w `min` (Z.to_nat size - Z.to_nat off))%nat with (Z.to_nat w) by lia.
  do 2 f_equal. nia.
Qed.

Lemma peek_array m p count size i off w :
  array_readable m p count size -> 0 <= i < count ->
  0 <= w -> 0 <= off -> off + w <= size ->
  peekByteOff m p (i * size + off) w =
  value (peek w off (element size i (default [] (m !! p)))).
Proof.
  intros [?|(b & Hm & Hb)] Hi Hw Ho Hs; [lia|]. unfold peekByteOff. rewrite Hm. cbn [default id].
  destruct (Z.leb_spec 0 (i * size + off)); [|nia].
  destruct (Z.leb_spec (i * size + off + w) (zlen b)); [|nia]. cbn [andb].
  by rewrite peek_element by lia.
Qed.

(** Reading every element of a readable array by an action that reads one. *)
Lemma map_array {A} m p count size (f : Z -> outcome A) (g : list byte -> A) :
  (forall i, 0 <= i < count -> f i = value (g (element size i (default [] (m !! p))))) ->
  map_outcome f (seqZ 0 count) = value (map g (array_at m p count size)).
Proof.
  intros H. unfold array_at. rewrite map_map. apply map_outcome_values, Forall_forall.
  intros i Hi. apply H. apply elem_of_seqZ in Hi. lia.
Qed.

(** ** Callbacks

    A borrowed buffer of a callback: [None] is NULL with length 0. *)
Abbreviation callback_text := (option text).

(** [fromIntegral] from [Integer] to [Int64]. *)
Definition i64_wrap (n : Z) : Z := (n + 2 ^ 63) mod 2 ^ 64 - 2 ^ 63.
