(* ===== verification/Syntax.v ===== *)
(** * Syntax highlighting for the host

    [ha_syntax_highlight] of HaskellAgentBridge.h: the terminal's tokenizer, with the result
    delivered as byte ranges of the source.  This file has the header's classes and its
    contract for the delivered spans, the entry of SyntaxBridge.hs, and the checks of
    Agent/Syntax.hs around the tokenizer.  [syntax_spans_conform]: whatever the tokenizer
    library answers, the status is the one that the header gives to the arguments, and the
    delivered spans satisfy the header. *)

From stdpp Require Import base tactics option list gmap strings.
From Stdlib Require Import ZArith Lia.
From coqutil Require Import Byte.
From S2P Require Import Prelude Utf8 AbiLayout HostCall.
#[local] Open Scope Z_scope.

(** ** The header *)

Inductive ha_syntax_class :=
  | HA_SYNTAX_NORMAL
  | HA_SYNTAX_KEYWORD
  | HA_SYNTAX_TYPE
  | HA_SYNTAX_FUNCTION
  | HA_SYNTAX_VARIABLE
  | HA_SYNTAX_STRING
  | HA_SYNTAX_NUMBER
  | HA_SYNTAX_COMMENT
  | HA_SYNTAX_OPERATOR
  | HA_SYNTAX_ANNOTATION
  | HA_SYNTAX_PREPROCESSOR
  | HA_SYNTAX_WARNING
  | HA_SYNTAX_ERROR.

Definition ha_syntax_class_value (c : ha_syntax_class) : Z :=
  match c with
  | HA_SYNTAX_NORMAL => 0
  | HA_SYNTAX_KEYWORD => 1
  | HA_SYNTAX_TYPE => 2
  | HA_SYNTAX_FUNCTION => 3
  | HA_SYNTAX_VARIABLE => 4
  | HA_SYNTAX_STRING => 5
  | HA_SYNTAX_NUMBER => 6
  | HA_SYNTAX_COMMENT => 7
  | HA_SYNTAX_OPERATOR => 8
  | HA_SYNTAX_ANNOTATION => 9
  | HA_SYNTAX_PREPROCESSOR => 10
  | HA_SYNTAX_WARNING => 11
  | HA_SYNTAX_ERROR => 12
  end.

(** What one call of [ha_syntax_span_callback] hands over. *)
Record span := { byte_offset : Z; byte_length : Z; syntax_class : Z }.

(** "Spans are nonempty UTF-8 byte ranges in source, never split a Unicode scalar, and omit
    LF separators": the span is the encoding of a piece [t] of the source text. *)
Definition span_of (source : text) (s : span) (t : text) : Prop :=
  (exists pre post, source = pre ++ t ++ post
     /\ byte_offset s = zlen (utf8_encode pre) /\ byte_length s = zlen (utf8_encode t))
  /\ t <> [] /\ ~ In 10 t
  /\ exists c, syntax_class s = ha_syntax_class_value c.

(** "Nonoverlapping", and delivered in source order, within [lo, hi). *)
Fixpoint spans_between (lo hi : Z) (l : list span) : Prop :=
  match l with
  | [] => lo <= hi
  | s :: l => lo <= byte_offset s /\ spans_between (byte_offset s + byte_length s) hi l
  end.

(** The contract of the spans that a successful call delivers, with their texts. *)
Definition spans_conform (source : text) (l : list span) (ts : list text) : Prop :=
  Forall2 (span_of source) l ts /\ spans_between 0 (zlen (utf8_encode source)) l.

(** "source exceeding 256 KiB or 5000 lines, or language exceeding 4096 bytes" *)
Definition syntax_source_bytes : Z := 256 * 1024.
Definition syntax_source_lines : Z := 5000.
Definition syntax_language_bytes : Z := 4096.

(** ** Tokens *)

Inductive SyntaxClass :=
  | SyntaxNormal
  | SyntaxKeyword
  | SyntaxType
  | SyntaxFunction
  | SyntaxVariable
  | SyntaxString
  | SyntaxNumber
  | SyntaxComment
  | SyntaxOperator
  | SyntaxAnnotation
  | SyntaxPreprocessor
  | SyntaxWarning
  | SyntaxError.

Record SyntaxSpan := { syntaxClass : SyntaxClass; syntaxText : text }.

Abbreviation HighlightedLine := (list SyntaxSpan).

Definition syntaxClassCode (c : SyntaxClass) : Z :=
  match c with
  | SyntaxNormal => 0
  | SyntaxKeyword => 1
  | SyntaxType => 2
  | SyntaxFunction => 3
  | SyntaxVariable => 4
  | SyntaxString => 5
  | SyntaxNumber => 6
  | SyntaxComment => 7
  | SyntaxOperator => 8
  | SyntaxAnnotation => 9
  | SyntaxPreprocessor => 10
  | SyntaxWarning => 11
  | SyntaxError => 12
  end.

(** Skylighting's vocabulary. *)
Inductive TokenType :=
  | KeywordTok | DataTypeTok | DecValTok | BaseNTok | FloatTok | ConstantTok | CharTok
  | SpecialCharTok | StringTok | VerbatimStringTok | SpecialStringTok | ImportTok
  | CommentTok | DocumentationTok | AnnotationTok | CommentVarTok | OtherTok | FunctionTok
  | VariableTok | ControlFlowTok | OperatorTok | BuiltInTok | ExtensionTok
  | PreprocessorTok | AttributeTok | RegionMarkerTok | InformationTok | WarningTok
  | AlertTok | ErrorTok | NormalTok.

Definition syntaxClassForTokenType (t : TokenType) : SyntaxClass :=
  match t with
  | KeywordTok => SyntaxKeyword
  | DataTypeTok => SyntaxType
  | DecValTok | BaseNTok | FloatTok | ConstantTok => SyntaxNumber
  | CharTok | SpecialCharTok | StringTok | VerbatimStringTok | SpecialStringTok => SyntaxString
  | ImportTok => SyntaxType
  | CommentTok | DocumentationTok => SyntaxComment
  | AnnotationTok => SyntaxAnnotation
  | CommentVarTok => SyntaxComment
  | OtherTok => SyntaxNormal
  | FunctionTok => SyntaxFunction
  | VariableTok => SyntaxVariable
  | ControlFlowTok => SyntaxKeyword
  | OperatorTok => SyntaxOperator
  | BuiltInTok => SyntaxFunction
  | ExtensionTok => SyntaxType
  | PreprocessorTok => SyntaxPreprocessor
  | AttributeTok => SyntaxAnnotation
  | RegionMarkerTok => SyntaxPreprocessor
  | InformationTok | WarningTok => SyntaxWarning
  | AlertTok | ErrorTok => SyntaxError
  | NormalTok => SyntaxNormal
  end.

(** ** Text *)

(** [Text.splitOn] at a single character. *)
Fixpoint split_on (d : Z) (s : text) : list text :=
  match s with
  | [] => [[]]
  | c :: s =>
      if c =? d then [] :: split_on d s
      else match split_on d s with
           | l :: ls => (c :: l) :: ls
           | [] => [[c]]
           end
  end.

(** [Text.intercalate]. *)
Fixpoint join_with (d : Z) (l : list text) : text :=
  match l with
  | [] => []
  | [x] => x
  | x :: l => x ++ d :: join_with d l
  end.

(** [Text.count] of a single character. *)
Definition count_char (d : Z) (s : text) : Z := zlen (filter (fun c => c = d) s).

Definition LF : Z := 10.

(** ** What the libraries provide

    Skylighting's tokenizer and the definitions on disk, and functions of [text] and
    [filepath].  [None] is an exception. *)
Class SyntaxLibrary := {
  Syntax : Type;
  SyntaxHighlighter : Type;
  text_words : text -> list text;
  text_strip : text -> text;
  text_toLower : text -> text;
  takeFileName : text -> text;
  takeExtension : text -> text;
  newSyntaxHighlighter : option (text + SyntaxHighlighter);
  loadSyntaxLanguage : SyntaxHighlighter -> text -> option (text + SyntaxHighlighter);
  lookupLoadedSyntax : SyntaxHighlighter -> text -> option Syntax;
  tokenize : SyntaxHighlighter -> Syntax -> text -> text + list (list (TokenType * text));
}.

(** ** Fence languages *)

Definition plainTextAliases : list text :=
  map txt ["plain"; "plaintext"; "text"; "txt"]%string.

Definition languageAliases : list (text * text) :=
  map (fun '(a, b) => (txt a, txt b))
    [("c++", "cpp"); ("cs", "csharp"); ("docker", "dockerfile"); ("hs", "haskell");
     ("js", "javascript"); ("patch", "diff"); ("py", "python"); ("rs", "rust");
     ("sh", "bash"); ("shell", "bash"); ("ts", "typescript"); ("tsx", "jsx");
     ("udiff", "diff"); ("yml", "yaml")]%string.

Fixpoint find_alias (candidate : text) (l : list (text * text)) : text :=
  match l with
  | [] => candidate
  | (a, b) :: l => if decide (a = candidate) then b else find_alias candidate l
  end.

Definition normalizeLanguage (candidate : text) : option text :=
  let aliased := find_alias candidate languageAliases in
  if bool_decide (aliased ∈ plainTextAliases) || bool_decide (aliased = []) then None
  else Some aliased.

Definition isDecimal (t : text) : bool :=
  negb (bool_decide (t = [])) && forallb (fun c => (48 <=? c) && (c <=? 57)) t.

(** A fence of the form [12:20:path]. *)
Definition lineRangePath (t : text) : option text :=
  match split_on 58 t with
  | startLine :: endLine :: p :: pathParts =>
      if isDecimal startLine && isDecimal endLine then Some (join_with 58 (p :: pathParts))
      else None
  | _ => None
  end.

Definition normalizePathSeparators (t : text) : text :=
  map (fun c => if c =? 92 then 47 else c) t.

Section Highlighting.
Context `{SyntaxLibrary}.

Definition languageFromPath (path : text) : text :=
  let fileName := takeFileName path in
  let extension := takeExtension fileName in
  match extension with
  | [] => text_toLower fileName
  | _ :: rest => text_toLower rest
  end.

Definition resolveFenceLanguage (info : text) : option text :=
  match text_words info with
  | [] => None
  | firstToken :: _ =>
      let normalized := text_toLower (text_strip firstToken) in
      normalizeLanguage
        match lineRangePath normalized with
        | Some path => languageFromPath path
        | None =>
            if existsb (fun c => (c =? 47) || (c =? 92)) normalized
            then languageFromPath (normalizePathSeparators normalized)
            else normalized
        end
  end.

(** ** Highlighting a code block *)

Definition maxHighlightBytes : Z := 256 * 1024.
Definition maxHighlightLines : Z := 5000.

Definition sourceLineCount (source : text) : Z :=
  match source with [] => 1 | _ => count_char LF source + 1 end.

Definition line_text (l : HighlightedLine) : text := concat (map syntaxText l).

Definition preserveSourceLines (source : text) (highlightedLines : list HighlightedLine)
    : text + list HighlightedLine :=
  let sourceLines := split_on LF source in
  let highlightedTexts := map line_text highlightedLines in
  let tokenizedSourceLines := take (length highlightedTexts) sourceLines in
  if (length sourceLines <? length highlightedTexts)%nat
     || negb (bool_decide (highlightedTexts = tokenizedSourceLines))
  then inl (txt "Syntax tokenizer did not preserve the original source text")
  else inr (highlightedLines
            ++ replicate (length sourceLines - length highlightedLines) []).

Definition tokenSpan (t : TokenType * text) : SyntaxSpan :=
  {| syntaxClass := syntaxClassForTokenType (fst t); syntaxText := snd t |}.

Definition highlightCode (highlighter : SyntaxHighlighter) (fenceInfo source : text)
    : text + list HighlightedLine :=
  if maxHighlightBytes <? zlen (utf8_encode source) then
    inl (txt "Code block exceeds the syntax-highlighting byte limit")
  else if maxHighlightLines <? sourceLineCount source then
    inl (txt "Code block exceeds the syntax-highlighting line limit")
  else match resolveFenceLanguage fenceInfo with
  | None => inl (txt "Fence does not specify a highlighted language")
  | Some language =>
  match lookupLoadedSyntax highlighter language with
  | None => inl (txt "Unknown syntax language: " ++ language)
  | Some syntax =>
  match tokenize highlighter syntax source with
  | inl e => inl e
  | inr tokenLines => preserveSourceLines source (map (map tokenSpan) tokenLines)
  end end end.

(** ** The entry *)

(** The cached definitions, [syntaxHighlighterState]. *)
Abbreviation cache := (option SyntaxHighlighter).

(** An answer of a library action, [None] being an exception. *)
Definition library_call {A} (o : option A) : outcome A :=
  match o with Some a => value a | None => threw end.

(** [loadedHighlighter]: the cache after the call, and the snapshot to use. *)
Definition loadedHighlighter (previous : cache) (language : text)
    : outcome (cache * (text + SyntaxHighlighter)) :=
  initial ← match previous with
            | None => library_call newSyntaxHighlighter
            | Some h => value (inr h)
            end;
  result ← match initial with
           | inl message => value (inl message)
           | inr highlighter => library_call (loadSyntaxLanguage highlighter language)
           end;
  value (match result with inl _ => previous | inr h => Some h end, result).

(** [foldM emitSpan]: the offset after the line's tokens, and the spans delivered. *)
Fixpoint emit_tokens (offset : Z) (tokens : HighlightedLine) : Z * list span :=
  match tokens with
  | [] => (offset, [])
  | token :: tokens =>
      let byteLength := zlen (utf8_encode (syntaxText token)) in
      let '(stop, spans) := emit_tokens (u64 (offset + byteLength)) tokens in
      (stop, if byteLength =? 0 then spans
             else Build_span offset byteLength (syntaxClassCode (syntaxClass token)) :: spans)
  end.

(** [emitLine]: one byte more for the newline. *)
Definition emit_line (offset : Z) (tokens : HighlightedLine) : Z * list span :=
  let '(stop, spans) := emit_tokens offset tokens in
  (u64 (stop + 1), spans).

Fixpoint emit_lines (offset : Z) (lines : list HighlightedLine) : list span :=
  match lines with
  | [] => []
  | l :: lines => let '(stop, spans) := emit_line offset l in spans ++ emit_lines stop lines
  end.

Definition readBytes (m : memory) (p len : Z) : outcome (list byte) :=
  if len =? 0 then value [] else packCStringLen m p len.

(** The status, the spans that were delivered and the cache.  The host's callbacks do not
    throw; an exception of the library leaves the cache as it was. *)
Definition ha_syntax_highlight (m : memory) (st : cache)
    (languagePointer languageLength sourcePointer sourceLength callback : Z)
    : outcome (Z * list span * cache) :=
  if (callback =? 0) || null_with_bytes languagePointer languageLength
     || null_with_bytes sourcePointer sourceLength then value (2, [], st)
  else if (256 * 1024 <? sourceLength) || (4096 <? languageLength) then value (1, [], st)
  else either_thrown (3, [], st)
    (languageBytes ← readBytes m languagePointer languageLength;
     sourceBytes ← readBytes m sourcePointer sourceLength;
     match utf8_decode languageBytes, utf8_decode sourceBytes with
     | Some language, Some source =>
         if 5000 <=? count_char LF source then value (1, [], st)
         else
           '(st', loaded) ← loadedHighlighter st language;
           value match loaded with
                 | inl _ => (1, [], st')
                 | inr highlighter =>
                     match highlightCode highlighter language source with
                     | inl _ => (1, [], st')
                     | inr highlightedLines => (0, emit_lines 0 highlightedLines, st')
                     end
                 end
     | _, _ => value (2, [], st)
     end).

End Highlighting.

(** ** Lines *)

Lemma split_on_nonempty d s : split_on d s <> [].
Proof. destruct s as [|c s]; cbn; [done|]. destruct (c =? d); [done|]. by destruct (split_on d s). Qed.

Lemma join_with_cons d x l : l <> [] -> join_with d (x :: l) = x ++ d :: join_with d l.
Proof. by destruct l. Qed.

(** Joining the lines gives the text back, and no line has the separator. *)
Lemma join_split_on d s : join_with d (split_on d s) = s.
Proof.
  induction s as [|c s IH]; [done|]. cbn [split_on].
  pose proof (split_on_nonempty d s) as Hn.
  destruct (Z.eqb_spec c d) as [->|Hc].
  - rewrite join_with_cons by done. by rewrite IH.
  - destruct (split_on d s) as [|l [|l' ls]] eqn:E; [done| |]; cbn in *; by rewrite <- IH.
Qed.

Lemma split_on_free d s : Forall (fun l => ~ In d l) (split_on d s).
Proof.
  induction s as [|c s IH]; cbn [split_on]; [apply Forall_singleton; cbn; tauto|].
  destruct (Z.eqb_spec c d) as [->|Hc]; [by constructor; [cbn; tauto|]|].
  destruct (split_on d s) as [|l ls] eqn:E; [by destruct (split_on_nonempty d s)|].
  apply list.Forall_cons in IH as [Hl Hls]. constructor; [|done]. intros [?|?]; [lia|done].
Qed.

Lemma take_drop_lines {A} (l k : list A) : l = take (length l) k -> exists r, k = l ++ r.
Proof. intros H. exists (drop (length l) k). rewrite H at 1. by rewrite take_drop. Qed.

(** The tokenizer's lines are the first lines of the source, whatever it did. *)
Lemma preserveSourceLines_inr source lines out :
  preserveSourceLines source lines = inr out ->
  exists rest, split_on LF source = map line_text lines ++ rest
    /\ out = lines ++ replicate (length rest) [].
Proof.
  unfold preserveSourceLines.
  destruct (Nat.ltb_spec (length (split_on LF source)) (length (map line_text lines)));
    [done|]. destruct (bool_decide_reflect
      (map line_text lines = take (length (map line_text lines)) (split_on LF source)))
      as [E|]; [|done]. cbn [orb negb]. intros [= <-].
  destruct (take_drop_lines _ _ E) as [rest Hr]. exists rest. split; [done|].
  rewrite Hr, length_app, length_map. do 2 f_equal. lia.
Qed.

(** ** The delivered spans *)

Lemma spans_between_app lo mid hi l k :
  spans_between lo mid l -> spans_between mid hi k -> spans_between lo hi (l ++ k).
Proof.
  revert lo. induction l as [|s l IH]; intros lo; cbn.
  - destruct k as [|s k]; cbn; [lia|]. intros ? [? ?]. split; [lia|done].
  - intros [? ?] ?. split; [done|]. by apply IH.
Qed.

Lemma spans_between_weaken lo mid hi l : spans_between lo mid l -> mid <= hi -> spans_between lo hi l.
Proof. intros H Hm. rewrite <- (app_nil_r l). by eapply spans_between_app. Qed.

Lemma zlen_utf8_app s t : zlen (utf8_encode (s ++ t)) = zlen (utf8_encode s) + zlen (utf8_encode t).
Proof. rewrite utf8_encode_app, length_app. lia. Qed.

Lemma syntaxClassCode_header c : exists h, syntaxClassCode c = ha_syntax_class_value h.
Proof.
  destruct c; [exists HA_SYNTAX_NORMAL|exists HA_SYNTAX_KEYWORD|exists HA_SYNTAX_TYPE
    |exists HA_SYNTAX_FUNCTION|exists HA_SYNTAX_VARIABLE|exists HA_SYNTAX_STRING
    |exists HA_SYNTAX_NUMBER|exists HA_SYNTAX_COMMENT|exists HA_SYNTAX_OPERATOR
    |exists HA_SYNTAX_ANNOTATION|exists HA_SYNTAX_PREPROCESSOR|exists HA_SYNTAX_WARNING
    |exists HA_SYNTAX_ERROR]; reflexivity.
Qed.

(** What a run of tokens delivers, when the source is [pre], their texts and [post]. *)
Lemma emit_tokens_conform source tokens pre post :
  source = pre ++ line_text tokens ++ post -> ~ In LF (line_text tokens) ->
  zlen (utf8_encode source) + 1 < 2 ^ 64 ->
  let '(stop, spans) := emit_tokens (zlen (utf8_encode pre)) tokens in
  stop = zlen (utf8_encode (pre ++ line_text tokens))
  /\ spans_between (zlen (utf8_encode pre)) stop spans
  /\ exists ts, Forall2 (span_of source) spans ts /\ concat ts = line_text tokens.
Proof.
  revert pre. induction tokens as [|tok tokens IH]; intros pre Hs Hf Hb; cbn [emit_tokens].
  { rewrite app_nil_r. split; [done|]. split; [cbn; lia|]. by exists []. }
  set (t := syntaxText tok) in *.
  assert (El : line_text (tok :: tokens) = t ++ line_text tokens) by done.
  rewrite El in *. rewrite <- app_assoc in Hs.
  assert (u64 (zlen (utf8_encode pre) + zlen (utf8_encode t)) = zlen (utf8_encode (pre ++ t)))
    as ->.
  { rewrite zlen_utf8_app. apply u64_id. rewrite Hs, !zlen_utf8_app in Hb. lia. }
  specialize (IH (pre ++ t)). destruct (emit_tokens _ tokens) as [stop spans].
  destruct IH as (-> & Hbt & ts & Hts & Hc); [by rewrite <- app_assoc| |done|].
  { intros Hin. apply Hf, in_or_app. by right. }
  rewrite <- (app_assoc pre t). split; [done|]. rewrite zlen_utf8_app in Hbt.
  rewrite <- app_assoc in Hbt.
  destruct (Z.eqb_spec (zlen (utf8_encode t)) 0) as [E|E].
  - assert (t = []) as Ht by (apply utf8_encode_nil, zlen_nil_inv, E).
    rewrite Ht. split; [|by exists ts]. rewrite E, Z.add_0_r in Hbt. by rewrite Ht in Hbt.
  - split; [cbn; split; [lia|done]|]. exists (t :: ts). split; [|cbn; by rewrite Hc].
    constructor; [|done]. split.
    + exists pre, (line_text tokens ++ post). done.
    + split; [by intros Ht; rewrite Ht in E|]. split.
      * intros Hin. apply Hf, in_or_app. by left.
      * apply syntaxClassCode_header.
Qed.

Lemma emit_lines_padding n offset : emit_lines offset (replicate n []) = [].
Proof. revert offset. induction n as [|n IH]; intros offset; cbn; [done|apply IH]. Qed.

(** What the lines deliver, when they are the first lines of what follows [pre]. *)
Lemma emit_lines_conform source lines n rest pre :
  source = pre ++ join_with LF (map line_text lines ++ rest) ->
  Forall (fun l => ~ In LF l) (map line_text lines) ->
  zlen (utf8_encode source) + 1 < 2 ^ 64 ->
  spans_between (zlen (utf8_encode pre)) (zlen (utf8_encode source))
    (emit_lines (zlen (utf8_encode pre)) (lines ++ replicate n []))
  /\ exists ts, Forall2 (span_of source)
                  (emit_lines (zlen (utf8_encode pre)) (lines ++ replicate n [])) ts
       /\ concat ts = concat (map line_text lines).
Proof.
  revert pre. induction lines as [|l lines IH]; intros pre Hs Hf Hb.
  { cbn [app map]. rewrite emit_lines_padding. split; [|by exists []].
    cbn. rewrite Hs, zlen_utf8_app. lia. }
  cbn [map] in *. apply list.Forall_cons in Hf as [Hl Hf].
  assert (exists post, source = pre ++ line_text l ++ post
            /\ (map line_text lines ++ rest <> [] ->
                post = LF :: join_with LF (map line_text lines ++ rest))) as (post & Hp & Hpost).
  { cbn [app] in Hs. destruct (map line_text lines ++ rest) as [|y ys].
    - exists []. by rewrite app_nil_r.
    - exists (LF :: join_with LF (y :: ys)). by split. }
  pose proof (emit_tokens_conform source l pre post Hp Hl Hb) as Ht.
  cbn [app emit_lines]. unfold emit_line.
  destruct (emit_tokens _ l) as [stop spans]. destruct Ht as (Hstop & Hbt & ts & Hts & Hc).
  assert (Hle : stop <= zlen (utf8_encode source))
    by (rewrite Hstop, Hp, app_assoc, (zlen_utf8_app (pre ++ _)); lia).
  destruct lines as [|l2 lines].
  { cbn [app]. rewrite emit_lines_padding, app_nil_r.
    split; [by eapply spans_between_weaken|]. exists ts. split; [done|].
    cbn. by rewrite app_nil_r. }
  specialize (Hpost ltac:(done)).
  assert (zlen (utf8_encode [LF]) = 1) as HLF by reflexivity.
  assert (u64 (stop + 1) = zlen (utf8_encode ((pre ++ line_text l) ++ [LF]))) as ->.
  { rewrite zlen_utf8_app, <- Hstop, HLF. apply u64_id. lia. }
  destruct (IH ((pre ++ line_text l) ++ [LF])) as (Hbt2 & ts2 & Hts2 & Hc2); [|done|done|].
  { rewrite Hp, Hpost. by rewrite <- !app_assoc. }
  split.
  - eapply spans_between_app; [|exact Hbt2]. eapply spans_between_weaken; [exact Hbt|].
    rewrite zlen_utf8_app, HLF, <- Hstop. lia.
  - exists (ts ++ ts2). split; [by apply Forall2_app|]. rewrite concat_app, Hc, Hc2. done.
Qed.

Section Theorems.
Context `{SyntaxLibrary}.

Lemma count_char_split d s : count_char d s + 1 = zlen (split_on d s).
Proof.
  unfold count_char. induction s as [|c s IH]; [done|]. cbn [split_on].
  rewrite filter_cons. destruct (Z.eqb_spec c d) as [->|Hc].
  - rewrite decide_True by done. cbn [length]. lia.
  - rewrite decide_False by done. rewrite IH.
    pose proof (split_on_nonempty d s). by destruct (split_on d s).
Qed.

Lemma highlightCode_inr h info source out :
  highlightCode h info source = inr out ->
  zlen (utf8_encode source) <= maxHighlightBytes
  /\ exists lines rest, split_on LF source = map line_text lines ++ rest
       /\ out = lines ++ replicate (length rest) [].
Proof.
  unfold highlightCode.
  destruct (Z.ltb_spec maxHighlightBytes (zlen (utf8_encode source))); [done|].
  destruct (_ <? _); [done|]. destruct (resolveFenceLanguage info); [|done].
  destruct (lookupLoadedSyntax h _); [|done]. destruct (tokenize h _ source); [done|].
  intros Hp. split; [done|]. by apply preserveSourceLines_inr in Hp as (rest & ? & ?); eauto.
Qed.

Lemma readBytes_lent m p len :
  lent m p len -> null_with_bytes p len = false ->
  readBytes m p len = value (bytes_at m p len).
Proof.
  intros Hl Hn. unfold readBytes. destruct (Z.eqb_spec len 0) as [->|]; [done|].
  by apply pack_lent.
Qed.

(** The snapshot [h'] has the language, added to [h]. *)
Definition found_in (st : option SyntaxHighlighter) (language : text) (h' : SyntaxHighlighter)
    : Prop :=
  exists h, (st = Some h \/ st = None /\ newSyntaxHighlighter = Some (inr h))
    /\ loadSyntaxLanguage h language = Some (inr h').

Lemma loadedHighlighter_cases st language :
  loadedHighlighter st language = threw
  \/ (exists e, loadedHighlighter st language = value (st, inl e))
  \/ exists h, loadedHighlighter st language = value (Some h, inr h) /\ found_in st language h.
Proof.
  unfold loadedHighlighter, library_call, found_in. destruct st as [h|]; cbn.
  - destruct (loadSyntaxLanguage h language) as [[e|h']|] eqn:E; cbn; [by eauto| |by eauto].
    right; right. exists h'. eauto 6.
  - destruct newSyntaxHighlighter as [[e|h]|]; cbn; [by eauto| |by left].
    destruct (loadSyntaxLanguage h language) as [[e|h']|] eqn:E; cbn; [by eauto| |by eauto].
    right; right. exists h'. eauto 6.
Qed.

(** The call, as the header's table: the first row that applies decides. *)
Lemma ha_syntax_highlight_cases m st lp ll sp sl cb :
  lent m lp ll -> lent m sp sl ->
  let refused := (cb =? 0) || null_with_bytes lp ll || null_with_bytes sp sl in
  let oversized := (syntax_source_bytes <? sl) || (syntax_language_bytes <? ll) in
  ha_syntax_highlight m st lp ll sp sl cb =
  if refused then value (2, [], st)
  else if oversized then value (1, [], st)
  else match utf8_decode (bytes_at m lp ll), utf8_decode (bytes_at m sp sl) with
       | Some language, Some source =>
           if syntax_source_lines <? zlen (split_on LF source) then value (1, [], st)
           else match loadedHighlighter st language with
                | value (st', inr h) =>
                    match highlightCode h language source with
                    | inl _ => value (1, [], st')
                    | inr out => value (0, emit_lines 0 out, st')
                    end
                | value (st', inl _) => value (1, [], st')
                | _ => value (3, [], st)
                end
       | _, _ => value (2, [], st)
       end.
Proof.
  intros Hl Hs. cbn zeta. unfold ha_syntax_highlight.
  destruct ((cb =? 0) || null_with_bytes lp ll || null_with_bytes sp sl) eqn:E; [done|].
  apply orb_false_iff in E as [[_ El]%orb_false_iff Es].
  change (256 * 1024) with syntax_source_bytes. change 4096 with syntax_language_bytes.
  destruct (_ || _); [done|]. rewrite !readBytes_lent by done. cbn [mbind outcome_bind].
  destruct (utf8_decode (bytes_at m lp ll)) as [language|]; [|done].
  destruct (utf8_decode (bytes_at m sp sl)) as [source|]; [|done].
  rewrite <- count_char_split.
  replace (syntax_source_lines <? count_char LF source + 1) with (5000 <=? count_char LF source)
    by (unfold syntax_source_lines; lia).
  destruct (5000 <=? count_char LF source); [done|].
  destruct (loadedHighlighter_cases st language) as [->|[[e ->]|(h & -> & _)]]; [done..|].
  cbn. by destruct (highlightCode h language source).
Qed.

(** What is delivered on success, and on no other status. *)
Lemma syntax_spans m st lp ll sp sl cb :
  lent m lp ll -> lent m sp sl ->
  exists status spans st',
    ha_syntax_highlight m st lp ll sp sl cb = value (status, spans, st')
    /\ 0 <= status <= 3
    /\ (status = 0 ->
        exists source ts n, utf8_decode (bytes_at m sp sl) = Some source
          /\ zlen (split_on LF source) <= syntax_source_lines /\ sl <= syntax_source_bytes
          /\ spans_conform source spans ts
          /\ concat ts = concat (take n (split_on LF source)))
    /\ (status <> 0 -> spans = []).
Proof.
  intros Hl Hs. rewrite ha_syntax_highlight_cases by done.
  assert (Hfail : forall status (st' : option SyntaxHighlighter), 1 <= status <= 3 ->
    exists status' spans st'', value (status, [], st') = value (status', spans, st'')
      /\ 0 <= status' <= 3
      /\ (status' = 0 ->
          exists source ts n, utf8_decode (bytes_at m sp sl) = Some source
            /\ zlen (split_on LF source) <= syntax_source_lines /\ sl <= syntax_source_bytes
            /\ spans_conform source spans ts
            /\ concat ts = concat (take n (split_on LF source)))
      /\ (status' <> 0 -> spans = [])).
  { intros status st' Hst. exists status, [], st'. split; [done|]. split; [lia|].
    split; [lia|done]. }
  destruct (_ || _ || _); [by apply Hfail|].
  destruct (Z.ltb_spec syntax_source_bytes sl) as [|Hsl]; [by apply Hfail|].
  destruct (syntax_language_bytes <? ll); [by apply Hfail|]. cbn [orb].
  destruct (utf8_decode (bytes_at m lp ll)) as [language|]; [|by apply Hfail].
  destruct (utf8_decode (bytes_at m sp sl)) as [source|] eqn:Es; [|by apply Hfail].
  destruct (Z.ltb_spec syntax_source_lines (zlen (split_on LF source))) as [|Hn];
    [by apply Hfail|].
  destruct (loadedHighlighter_cases st language) as [->|[[e ->]|(h & -> & _)]];
    [by apply Hfail..|].
  destruct (highlightCode h language source) as [|out] eqn:Eh; [by apply Hfail|].
  apply highlightCode_inr in Eh as (Hb & lines & rest & Hsplit & ->).
  assert (Hsrc : source = [] ++ join_with LF (map line_text lines ++ rest))
    by (rewrite <- Hsplit, join_split_on; done).
  pose proof (split_on_free LF source) as Hfree. rewrite Hsplit in Hfree.
  apply Forall_app in Hfree as [Hfree _].
  destruct (emit_lines_conform source lines (length rest) rest [] Hsrc Hfree) as
    (Hbt & ts & Hts & Hc); [unfold maxHighlightBytes in Hb; lia|].
  eexists _, _, _. split; [done|]. split; [lia|]. split; [|done]. intros _.
  exists source, ts, (length lines). split; [done|]. split; [done|]. split; [done|].
  split; [by split|]. rewrite Hsplit, Hc. f_equal.
  rewrite take_app_le by (rewrite length_map; lia).
  by rewrite firstn_all2 by (rewrite length_map; lia).
Qed.

(** *** The status of the header

    "Returns 0 on success; 1 for plain-text fallback (unsupported language, unavailable definitions,
    tokenizer refusal, source exceeding 256 KiB or 5000 lines, or language exceeding 4096 bytes); 2
    for invalid arguments or malformed UTF-8; 3 for internal failure." *)

(** "The callback is required", and "NULL is permitted only with zero length". *)
Definition invalid_arguments (lp ll sp sl cb : Z) : Prop :=
  cb = 0 \/ lp = 0 /\ ll <> 0 \/ sp = 0 /\ sl <> 0.

(** The definitions that the language was added to, as a library that does not throw gives them:
    [None] where they are not available; and the ways in which it throws. *)
Definition available (st : option SyntaxHighlighter) : option (option SyntaxHighlighter) :=
  match st, newSyntaxHighlighter with
  | Some h, _ | None, Some (inr h) => Some (Some h)
  | None, Some (inl _) => Some None
  | None, None => None
  end.

Definition definitions (st : option SyntaxHighlighter) (language : text) : option (option SyntaxHighlighter) :=
  match available st with
  | Some (Some h) =>
      match loadSyntaxLanguage h language with
      | Some (inr h) => Some (Some h)
      | Some (inl _) => Some None
      | None => None
      end
  | unavailable => unavailable
  end.

(** The language is supported, and the tokenizer gives pieces of the first lines of the source. *)
Definition highlights (h : SyntaxHighlighter) (language source : text) : Prop :=
  exists name syntax tokens,
    resolveFenceLanguage language = Some name /\ lookupLoadedSyntax h name = Some syntax
    /\ tokenize h syntax source = inr tokens
    /\ map (fun line => concat (map snd line)) tokens `prefix_of` split_on LF source.

#[export] Instance invalid_arguments_dec lp ll sp sl cb : Decision (invalid_arguments lp ll sp sl cb).
Proof. unfold invalid_arguments. apply _. Defined.

#[export] Instance highlights_dec h language source : Decision (highlights h language source).
Proof.
  unfold highlights. destruct (resolveFenceLanguage language) as [name|]; [|right; by intros (? & ? & ? & [=] & _)].
  destruct (lookupLoadedSyntax h name) as [syntax|] eqn:E1; [|right; by intros (? & ? & ? & [= <-] & ? & _); congruence].
  destruct (tokenize h syntax source) as [e|tokens] eqn:E2.
  { right. intros (? & ? & ? & [= <-] & H1 & H2 & _). congruence. }
  destruct (decide (map (fun line => concat (map snd line)) tokens `prefix_of` split_on LF source)) as [Hp|Hp].
  - left. by exists name, syntax, tokens.
  - right. intros (? & ? & ? & [= <-] & H1 & H2 & Hp'). apply Hp. congruence.
Defined.

Definition header_status (m : memory) (st : option SyntaxHighlighter) (lp ll sp sl cb : Z) : Z :=
  if decide (invalid_arguments lp ll sp sl cb) then 2
  else if decide (syntax_source_bytes < sl \/ syntax_language_bytes < ll) then 1
  else match utf8_decode (bytes_at m lp ll), utf8_decode (bytes_at m sp sl) with
       | Some language, Some source =>
           if decide (syntax_source_lines < zlen (split_on LF source)) then 1
           else match definitions st language with
                | None => 3
                | Some None => 1
                | Some (Some h) => if decide (highlights h language source) then 0 else 1
                end
       | _, _ => 2
       end.

Lemma refused_arguments lp ll sp sl cb :
  (cb =? 0) || null_with_bytes lp ll || null_with_bytes sp sl = true <-> invalid_arguments lp ll sp sl cb.
Proof. unfold null_with_bytes, invalid_arguments. rewrite !orb_true_iff, !andb_true_iff, !negb_true_iff. lia. Qed.

Lemma definitions_loaded st language :
  match definitions st language with
  | None => loadedHighlighter st language = threw
  | Some None => exists e, loadedHighlighter st language = value (st, inl e)
  | Some (Some h) => loadedHighlighter st language = value (Some h, inr h)
  end.
Proof.
  unfold definitions, available, loadedHighlighter, library_call. destruct st as [h|]; cbn.
  - destruct (loadSyntaxLanguage h language) as [[e|h']|]; cbn; [by eexists|done..].
  - destruct newSyntaxHighlighter as [[e|h]|]; cbn; [by eexists| |done].
    destruct (loadSyntaxLanguage h language) as [[e|h']|]; cbn; [by eexists|done..].
Qed.

Lemma prefix_take {A} (l k : list A) : l `prefix_of` k <-> (length l <= length k)%nat /\ l = take (length l) k.
Proof.
  split.
  - intros [r ->]. rewrite length_app, take_app_length. split; [lia|done].
  - intros [_ Hl]. exists (drop (length l) k). rewrite Hl at 1. by rewrite take_drop.
Qed.

Lemma token_lines (tokens : list (list (TokenType * text))) :
  map line_text (map (map tokenSpan) tokens) = map (fun line => concat (map snd line)) tokens.
Proof.
  rewrite map_map. apply map_ext. intros line. unfold line_text. by rewrite map_map.
Qed.

(** Within the limits the terminal's function refuses what cannot be highlighted and nothing else. *)
Lemma highlightCode_highlights h language source :
  zlen (utf8_encode source) <= syntax_source_bytes -> zlen (split_on LF source) <= syntax_source_lines ->
  (exists out, highlightCode h language source = inr out) <-> highlights h language source.
Proof.
  intros Hb Hn. unfold highlightCode, highlights.
  change maxHighlightBytes with syntax_source_bytes. rewrite (proj2 (Z.ltb_ge _ _)) by done.
  assert (maxHighlightLines <? sourceLineCount source = false) as ->.
  { apply Z.ltb_ge. unfold sourceLineCount, maxHighlightLines, syntax_source_lines in *.
    rewrite <- count_char_split in Hn. destruct source; lia. }
  destruct (resolveFenceLanguage language) as [name|]; [|split; [by intros [? ?]|by intros (? & ? & ? & [=] & _)]].
  destruct (lookupLoadedSyntax h name) as [syntax|] eqn:E1;
    [|split; [by intros [? ?]|intros (? & ? & ? & [= <-] & ? & _); congruence]].
  destruct (tokenize h syntax source) as [e|tokens] eqn:E2.
  { split; [by intros [? ?]|]. intros (? & ? & ? & [= <-] & H1 & H2 & _). congruence. }
  unfold preserveSourceLines. rewrite token_lines.
  set (lines := map _ tokens). transitivity (lines `prefix_of` split_on LF source).
  - rewrite prefix_take. destruct (Nat.ltb_spec (length (split_on LF source)) (length lines)) as [Hl|Hl]; cbn [orb].
    + split; [by intros [? ?]|lia].
    + destruct (bool_decide_reflect (lines = take (length lines) (split_on LF source))) as [He|He]; cbn [negb].
      * split; [by intros _|by eexists].
      * split; [by intros [? ?]|by intros [_ ?]].
  - split; [by exists name, syntax, tokens|]. intros (? & ? & ? & [= <-] & H1 & H2 & Hp).
    rewrite E1 in H1. injection H1 as <-. rewrite E2 in H2. injection H2 as <-. exact Hp.
Qed.

Lemma decoded_length m p len t :
  lent m p len -> utf8_decode (bytes_at m p len) = Some t -> zlen (utf8_encode t) <= len.
Proof.
  intros [Hl _] Ht. apply utf8_decode_sound in Ht as [-> _]. unfold bytes_at, ztake. rewrite length_take. lia.
Qed.

Lemma ha_syntax_highlight_status m st lp ll sp sl cb :
  lent m lp ll -> lent m sp sl ->
  exists spans st', ha_syntax_highlight m st lp ll sp sl cb
    = value (header_status m st lp ll sp sl cb, spans, st').
Proof.
  intros Hl Hs. rewrite ha_syntax_highlight_cases by done. unfold header_status.
  destruct (decide (invalid_arguments lp ll sp sl cb)) as [Hi|Hi].
  { apply refused_arguments in Hi. rewrite Hi. by eexists _, _. }
  rewrite <- refused_arguments in Hi. apply not_true_is_false in Hi. rewrite Hi.
  destruct (Z.ltb_spec syntax_source_bytes sl) as [H1|H1];
    [rewrite decide_True by lia; by eexists _, _|].
  destruct (Z.ltb_spec syntax_language_bytes ll) as [H2|H2];
    [rewrite decide_True by lia; by eexists _, _|].
  rewrite decide_False by lia. cbn [orb].
  destruct (utf8_decode (bytes_at m lp ll)) as [language|]; [|by eexists _, _].
  destruct (utf8_decode (bytes_at m sp sl)) as [source|] eqn:Es; [|by eexists _, _].
  destruct (Z.ltb_spec syntax_source_lines (zlen (split_on LF source))) as [Hn|Hn];
    [rewrite decide_True by done; by eexists _, _|rewrite decide_False by lia].
  pose proof (definitions_loaded st language) as Hd.
  destruct (definitions st language) as [[h|]|]; [|destruct Hd as [e ->]; by eexists _, _|rewrite Hd; by eexists _, _].
  rewrite Hd. pose proof (highlightCode_highlights h language source) as Hh.
  apply decoded_length in Es; [|done]. destruct (decide (highlights h language source)) as [Hok|Hno].
  - destruct (proj2 (Hh ltac:(lia) Hn) Hok) as [out ->]. by eexists _, _.
  - destruct (highlightCode h language source) as [e|out]; [by eexists _, _|].
    exfalso. apply Hno, (Hh ltac:(lia) Hn). by eexists.
Qed.

(** C39: whatever the tokenizer and the definitions are, a call on readable buffers returns the
    status of the header, in which invalid arguments come first, the limits of the buffers before
    their encoding, and an exception of the library is an internal failure; when it reports success
    the source was valid UTF-8 within the limits, the delivered spans are nonempty ranges of whole
    scalars of it, in order, without overlap and without line feeds, and together they are the text
    of its first lines; on every other status nothing was delivered. *)
Theorem syntax_spans_conform m st lp ll sp sl cb :
  lent m lp ll -> lent m sp sl ->
  exists status spans st',
    ha_syntax_highlight m st lp ll sp sl cb = value (status, spans, st')
    /\ status = header_status m st lp ll sp sl cb
    /\ 0 <= status <= 3
    /\ (status = 0 ->
        exists source ts n, utf8_decode (bytes_at m sp sl) = Some source
          /\ zlen (split_on LF source) <= syntax_source_lines /\ sl <= syntax_source_bytes
          /\ spans_conform source spans ts
          /\ concat ts = concat (take n (split_on LF source)))
    /\ (status <> 0 -> spans = []).
Proof.
  intros Hl Hs. destruct (ha_syntax_highlight_status m st lp ll sp sl cb Hl Hs) as (spans & st' & Hst).
  destruct (syntax_spans m st lp ll sp sl cb Hl Hs) as (status & spans' & st'' & Hv & Hrest).
  rewrite Hst in Hv. injection Hv as <- <- <-. exists (header_status m st lp ll sp sl cb), spans, st'.
  exact (conj Hst (conj eq_refl Hrest)).
Qed.

(** The cache of definitions changes only when a definition was found: to the snapshot that
    has it, whether or not the block could then be highlighted.  A failed discovery is not
    cached. *)
Theorem syntax_cache_grows m st lp ll sp sl cb status spans st' :
  lent m lp ll -> lent m sp sl ->
  ha_syntax_highlight m st lp ll sp sl cb = value (status, spans, st') ->
  st' = st
  \/ exists h language, st' = Some h
       /\ utf8_decode (bytes_at m lp ll) = Some language
       /\ found_in st language h.
Proof.
  intros Hl Hs. rewrite ha_syntax_highlight_cases by done.
  destruct (_ || _ || _); [intros [= _ _ <-]; by left|].
  destruct (_ || _); [intros [= _ _ <-]; by left|].
  destruct (utf8_decode (bytes_at m lp ll)) as [language|]; [|intros [= _ _ <-]; by left].
  destruct (utf8_decode _) as [source|]; [|intros [= _ _ <-]; by left].
  destruct (_ <? _); [intros [= _ _ <-]; by left|].
  destruct (loadedHighlighter_cases st language) as [->|[[e ->]|(h & -> & Hf)]];
    [intros [= _ _ <-]; by left..|].
  intros Hv. right. exists h, language. split; [|done].
  by destruct (highlightCode h language source); injection Hv.
Qed.

End Theorems.

(** ** An example

    A library with one language, whose tokenizer takes each line as one keyword. *)
#[local] Instance demo_library : SyntaxLibrary := {
  Syntax := unit;
  SyntaxHighlighter := unit;
  text_words := fun t => [t];
  text_strip := fun t => t;
  text_toLower := fun t => t;
  takeFileName := fun t => t;
  takeExtension := fun t => [];
  newSyntaxHighlighter := Some (inr ());
  loadSyntaxLanguage := fun h _ => Some (inr h);
  lookupLoadedSyntax := fun _ _ => Some ();
  tokenize := fun _ _ source => inr (map (fun l => [(KeywordTok, l)]) (split_on LF source));
}.

Definition demo_source : text := txt "let x" ++ [LF; LF] ++ txt "in x".

Definition demo_memory : memory :=
  {[ 1 := utf8_encode (txt "hs"); 2 := utf8_encode demo_source ]}.

Example demo_resolved :
  resolveFenceLanguage (txt "hs") = Some (txt "haskell")
  /\ resolveFenceLanguage (txt "text") = None.
Proof. split; vm_compute; reflexivity. Qed.

Example demo_highlight :
  ha_syntax_highlight demo_memory None 1 2 2 11 7 =
  value (0, [Build_span 0 5 1; Build_span 7 4 1], Some ()).
Proof. vm_compute. reflexivity. Qed.

Lemma demo_lent_language : lent demo_memory 1 2.
Proof. apply readable_lent, (readable_whole _ _ (utf8_encode (txt "hs"))); done. Qed.

Lemma demo_lent_source : lent demo_memory 2 11.
Proof. apply readable_lent, (readable_whole _ _ (utf8_encode demo_source)); done. Qed.

Lemma syntax_spans_conform_witness :
  exists source ts, utf8_decode (bytes_at demo_memory 2 11) = Some source
    /\ spans_conform source [Build_span 0 5 1; Build_span 7 4 1] ts.
Proof.
  destruct (syntax_spans_conform demo_memory None 1 2 2 11 7 demo_lent_language demo_lent_source)
    as (status & spans & st' & Hv & _ & _ & Hok & _).
  rewrite demo_highlight in Hv. injection Hv as <- <- <-.
  destruct (Hok eq_refl) as (source & ts & n & Hd & _ & _ & Hc & _). by exists source, ts.
Defined.

Lemma syntax_cache_grows_witness :
  Some () = (None : option SyntaxHighlighter)
  \/ exists h language, Some () = Some h
       /\ utf8_decode (bytes_at demo_memory 1 2) = Some language /\ found_in None language h.
Proof.
  exact (syntax_cache_grows demo_memory None 1 2 2 11 7 0 _ (Some ()) demo_lent_language
    demo_lent_source demo_highlight).
Defined.
