(* ===== verification/Staging.v ===== *)
(** * Staging of turns

    Before it starts a turn the host may stage images, execution options, a prompt context
    and a voice callback under the turn's identifier ([ha_engine_stage_turn_images] and the
    like in HaskellAgentBridge.h; EngineStaging.hs, Voice.hs).  Admission of the turn takes
    what is staged (NativeSupervisor.hs).  This file has the header's structures and
    conditions, the entries that read the host's memory, and a specification of staging as
    one record per turn; [staging_refines]: the entries implement it, and a call that fails
    changes nothing. *)

From stdpp Require Import base tactics option list gmap strings.
From Stdlib Require Import ZArith Lia.
From coqutil Require Import Byte.
From S2P Require Import Prelude Utf8 AbiLayout HostCall.
#[local] Open Scope Z_scope.

(** ** The header *)

Inductive ha_interaction_mode :=
  | HA_INTERACTION_MODE_ASK
  | HA_INTERACTION_MODE_PLAN
  | HA_INTERACTION_MODE_YOLO.

Definition ha_interaction_mode_value (i : ha_interaction_mode) : Z :=
  match i with
  | HA_INTERACTION_MODE_ASK => 0
  | HA_INTERACTION_MODE_PLAN => 1
  | HA_INTERACTION_MODE_YOLO => 2
  end.

Inductive ha_shell_mode :=
  | HA_SHELL_MODE_NONE
  | HA_SHELL_MODE_BASH
  | HA_SHELL_MODE_GHCI
  | HA_SHELL_MODE_BOTH.

Definition ha_shell_mode_value (s : ha_shell_mode) : Z :=
  match s with
  | HA_SHELL_MODE_NONE => 0
  | HA_SHELL_MODE_BASH => 1
  | HA_SHELL_MODE_GHCI => 2
  | HA_SHELL_MODE_BOTH => 3
  end.

Definition ha_image_attachment : list (string * ctype) :=
  [("mime", c_pointer); ("mime_length", c_size); ("bytes", c_pointer); ("bytes_length", c_size)]%string.

Definition ha_integration_attachment : list (string * ctype) :=
  [("connection_id", c_pointer); ("connection_id_length", c_size);
   ("server_name", c_pointer); ("server_name_length", c_size);
   ("display_name", c_pointer); ("display_name_length", c_size)]%string.

(** ** What is staged *)

Inductive NativeInteractionMode := NativeAsk | NativePlan | NativeYolo.

Inductive NativeShellMode := NativeShellNone | NativeShellBash | NativeShellGhci | NativeShellBoth.

Record ImageAttachment := { imageMime : text; imageBytes : list byte }.

Record NativeIntegrationAttachment := {
  attachedConnectionId : text;
  attachedServerName : text;
  attachedDisplayName : text;
}.

Record NativePromptContext := {
  attachedWindowToken : Z;
  attachedApplicationName : text;
  attachedWindowTitle : text;
  attachedIntegrations : list NativeIntegrationAttachment;
}.

Definition emptyNativePromptContext : NativePromptContext := Build_NativePromptContext 0 [] [] [].

Record NativeTurnOptions := {
  nativeTurnInteractionMode : NativeInteractionMode;
  nativeTurnShellMode : NativeShellMode;
  nativeTurnVoice : option (Z * Z);
  nativeTurnPromptContext : NativePromptContext;
}.

Definition defaultNativeTurnOptions : NativeTurnOptions :=
  Build_NativeTurnOptions NativeAsk NativeShellBash None emptyNativePromptContext.

Definition with_context (c : NativePromptContext) (o : NativeTurnOptions) : NativeTurnOptions :=
  Build_NativeTurnOptions (nativeTurnInteractionMode o) (nativeTurnShellMode o) (nativeTurnVoice o) c.

Definition with_voice (v : Z * Z) (o : NativeTurnOptions) : NativeTurnOptions :=
  Build_NativeTurnOptions (nativeTurnInteractionMode o) (nativeTurnShellMode o) (Some v)
    (nativeTurnPromptContext o).

(** The two maps of the engine. *)
Record staging := {
  engineStagedImages : gmap text (list ImageAttachment);
  engineStagedTurnOptions : gmap text NativeTurnOptions;
}.

Definition interactionModeFromCode (c : Z) : option NativeInteractionMode :=
  match c with
  | 0 => Some NativeAsk
  | 1 => Some NativePlan
  | 2 => Some NativeYolo
  | _ => None
  end.

Definition shellModeFromCode (c : Z) : option NativeShellMode :=
  match c with
  | 0 => Some NativeShellNone
  | 1 => Some NativeShellBash
  | 2 => Some NativeShellGhci
  | 3 => Some NativeShellBoth
  | _ => None
  end.

Definition maxNativeTurnIDBytes : Z := 1024.

Definition validNativeTurnIDLength (length : Z) : bool :=
  (0 <? length) && (length <=? 2 ^ 63 - 1) && (length <=? maxNativeTurnIDBytes).

(** ** The entries *)

Section Entries.
Context (m : memory).

Definition imageSize : Z := pointerSize + sizeSize + pointerSize + sizeSize.

Definition peekImage (imagePointer index : Z) : outcome (option ImageAttachment) :=
  let read offset := peekByteOff m imagePointer (index * imageSize + offset) 8 in
  mimePointer ← read 0;
  mimeLength ← read pointerSize;
  bytesPointer ← read (pointerSize + sizeSize);
  bytesLength ← read (pointerSize + sizeSize + pointerSize);
  if null_with_bytes mimePointer mimeLength || null_with_bytes bytesPointer bytesLength
     || (mimeLength =? 0) || (bytesLength =? 0) then value None
  else
    mimeBytes ← packCStringLen m mimePointer mimeLength;
    bytes ← packCStringLen m bytesPointer bytesLength;
    value match utf8_decode mimeBytes with
          | None => None
          | Some mimeValue => Some (Build_ImageAttachment mimeValue bytes)
          end.

Definition ha_engine_stage_turn_images (st : staging)
    (pointer turnID turnIDLength imagePointer imageCount : Z) : outcome (Z * staging) :=
  if pointer =? 0 then value (1, st)
  else if (turnID =? 0) || negb (validNativeTurnIDLength turnIDLength) then value (2, st)
  else if (imagePointer =? 0) && (0 <? imageCount) then value (4, st)
  else if 2 ^ 63 - 1 <? imageCount then value (4, st)
  else either_thrown (3, st)
    (turnIDBytes ← packCStringLen m turnID turnIDLength;
     imageResults ← map_outcome (peekImage imagePointer) (seqZ 0 imageCount);
     value match utf8_decode turnIDBytes, sequence imageResults with
           | Some turnIDValue, Some images =>
               (0, Build_staging
                     (match images with
                      | [] => delete turnIDValue (engineStagedImages st)
                      | _ => <[turnIDValue := images]> (engineStagedImages st)
                      end)
                     (engineStagedTurnOptions st))
           | _, _ => (4, st)
           end).

Definition set_options (key : text) (o : NativeTurnOptions) (st : staging) : staging :=
  Build_staging (engineStagedImages st) (<[key := o]> (engineStagedTurnOptions st)).

Definition ha_engine_stage_turn_options (st : staging)
    (pointer turnID turnIDLength rawMode rawShell : Z) : outcome (Z * staging) :=
  if pointer =? 0 then value (1, st)
  else if (turnID =? 0) || negb (validNativeTurnIDLength turnIDLength) then value (2, st)
  else match interactionModeFromCode rawMode, shellModeFromCode rawShell with
  | Some interactionMode, Some shellMode =>
      either_thrown (3, st)
        (bytes ← packCStringLen m turnID turnIDLength;
         value match utf8_decode bytes with
               | None | Some [] => (2, st)
               | Some turnIDText =>
                   (0, set_options turnIDText
                         (Build_NativeTurnOptions interactionMode shellMode None
                            emptyNativePromptContext) st)
               end)
  | _, _ => value (4, st)
  end.

Definition readText (maximumLength bytes length : Z) : outcome (option text) :=
  if maximumLength <? length then value None
  else if null_with_bytes bytes length then value None
  else if length =? 0 then value (Some [])
  else
    copied ← packCStringLen m bytes length;
    value match utf8_decode copied with
          | Some v => if existsb (Z.eqb 0) v then None else Some v
          | None => None
          end.

Definition fieldSize : Z := pointerSize + sizeSize.

Definition readIntegration (items index : Z) : outcome (option NativeIntegrationAttachment) :=
  let readField offset :=
    bytes ← peekByteOff m items (index * (fieldSize * 3) + offset) 8;
    length ← peekByteOff m items (index * (fieldSize * 3) + (offset + pointerSize)) 8;
    readText 4096 bytes length in
  connection ← readField 0;
  server ← readField fieldSize;
  name ← readField (fieldSize * 2);
  value match connection, server, name with
        | Some ((_ :: _) as connectionID), Some ((_ :: _) as serverName),
          Some ((_ :: _) as displayName) =>
            Some (Build_NativeIntegrationAttachment connectionID serverName displayName)
        | _, _, _ => None
        end.

Definition ha_engine_stage_turn_context (st : staging)
    (pointer turnID turnIDLength windowToken application applicationLength title titleLength
     items itemCount : Z) : outcome (Z * staging) :=
  if pointer =? 0 then value (1, st)
  else if (turnID =? 0) || negb (validNativeTurnIDLength turnIDLength) then value (2, st)
  else if (32 <? itemCount) || null_with_bytes items itemCount then value (4, st)
  else either_thrown (3, st)
    (identifier ← readText 1024 turnID turnIDLength;
     applicationName ← readText 4096 application applicationLength;
     windowTitle ← readText 4096 title titleLength;
     integrations ← map_outcome (readIntegration items) (seqZ 0 itemCount);
     value match identifier, applicationName, windowTitle, sequence integrations with
           | Some key, Some appName, Some windowName, Some references =>
               if negb (bool_decide (key = []))
                  && ((negb (windowToken =? 0) && negb (bool_decide (appName = [])))
                      || ((windowToken =? 0) && bool_decide (appName = [])
                          && bool_decide (windowName = [])))
               then match engineStagedTurnOptions st !! key with
                    | None => (5, st)
                    | Some options =>
                        (0, set_options key
                              (with_context
                                 (Build_NativePromptContext windowToken appName windowName references)
                                 options) st)
                    end
               else (4, st)
           | _, _, _, _ => (4, st)
           end).

Definition ha_engine_stage_voice (st : staging) (pointer ident len callback context : Z)
    : outcome (Z * staging) :=
  if (pointer =? 0) || (ident =? 0) || (len =? 0) || (512 <? len) || (callback =? 0)
  then value (1, st)
  else either_thrown (3, st)
    (bytes ← packCStringLen m ident len;
     value match utf8_decode bytes with
           | None => (2, st)
           | Some key =>
               match engineStagedTurnOptions st !! key with
               | None => (2, st)
               | Some old => (0, set_options key (with_voice (callback, context) old) st)
               end
           end).

Definition discardStagedTurnById (turnId : text) (st : staging) : staging :=
  Build_staging (delete turnId (engineStagedImages st)) (delete turnId (engineStagedTurnOptions st)).

Definition ha_engine_discard_turn_staging (st : staging) (pointer turnID turnIDLength : Z)
    : outcome (Z * staging) :=
  if pointer =? 0 then value (1, st)
  else if (turnID =? 0) || negb (validNativeTurnIDLength turnIDLength) then value (2, st)
  else either_thrown (3, st)
    (bytes ← packCStringLen m turnID turnIDLength;
     value match utf8_decode bytes with
           | None | Some [] => (2, st)
           | Some turnIDText => (0, discardStagedTurnById turnIDText st)
           end).

End Entries.

(** ** Admission

    [enqueueNativeTurn]: what a [turn.start] request finds.  [start_malformed] carries the
    identifier that [turnStartCleanupId] recovers. *)
Inductive turn_start :=
  | start_malformed (cleanupId : text)
  | start_rejected (turnStartId : text)
  | start_queued (turnStartId : text).

(** The staging left, and the images and options of the queued turn. *)
Definition enqueueNativeTurn (st : staging) (request : turn_start)
    : staging * option (list ImageAttachment * NativeTurnOptions) :=
  match request with
  | start_malformed id | start_rejected id => (discardStagedTurnById id st, None)
  | start_queued id =>
      (discardStagedTurnById id st,
       Some (default [] (engineStagedImages st !! id),
             default defaultNativeTurnOptions (engineStagedTurnOptions st !! id)))
  end.

(** [ha_engine_send_json] with an envelope that does not parse. *)
Definition discard_all (st : staging) : staging := Build_staging ∅ ∅.

Definition empty_staging : staging := Build_staging ∅ ∅.

(** ** The specification

    Staging as the header describes it: one record per turn identifier. *)
Record staged_turn := {
  turn_images : list ImageAttachment;
  turn_options : option NativeTurnOptions;
}.

Definition view (st : staging) (id : text) : staged_turn :=
  Build_staged_turn (default [] (engineStagedImages st !! id)) (engineStagedTurnOptions st !! id).

Definition nothing_staged : staged_turn := Build_staged_turn [] None.

Inductive staging_request :=
  | req_images (images : list ImageAttachment)
  | req_options (i : NativeInteractionMode) (s : NativeShellMode)
  | req_context (c : NativePromptContext)
  | req_voice (callback context : Z)
  | req_discard.

(** A status other than 0, or what is staged for the turn afterwards. *)
Definition apply_request (t : staged_turn) (r : staging_request) : Z + staged_turn :=
  match r with
  | req_images images => inr (Build_staged_turn images (turn_options t))
  | req_options i s =>
      inr (Build_staged_turn (turn_images t)
             (Some (Build_NativeTurnOptions i s None emptyNativePromptContext)))
  | req_context c =>
      match turn_options t with
      | None => inl 5
      | Some o => inr (Build_staged_turn (turn_images t) (Some (with_context c o)))
      end
  | req_voice callback context =>
      match turn_options t with
      | None => inl 2
      | Some o => inr (Build_staged_turn (turn_images t) (Some (with_voice (callback, context) o)))
      end
  | req_discard => inr nothing_staged
  end.

(** The calls of the host. *)
Inductive staging_call :=
  | stage_turn_images (engine turn_id turn_id_length images image_count : Z)
  | stage_turn_options (engine turn_id turn_id_length interaction_mode shell_mode : Z)
  | stage_turn_context (engine turn_id turn_id_length window_host_token application_name
      application_name_length window_title window_title_length integrations integration_count : Z)
  | stage_voice (engine turn_id turn_id_length callback context : Z)
  | discard_turn_staging (engine turn_id turn_id_length : Z).

Definition run_call (m : memory) (st : staging) (c : staging_call) : outcome (Z * staging) :=
  match c with
  | stage_turn_images e t tl p n => ha_engine_stage_turn_images m st e t tl p n
  | stage_turn_options e t tl i s => ha_engine_stage_turn_options m st e t tl i s
  | stage_turn_context e t tl w a al ti til p n =>
      ha_engine_stage_turn_context m st e t tl w a al ti til p n
  | stage_voice e t tl cb cx => ha_engine_stage_voice m st e t tl cb cx
  | discard_turn_staging e t tl => ha_engine_discard_turn_staging m st e t tl
  end.

(** How the header reads the structures of a call. *)
Section Reading.
Context (m : memory).

(** "For every image, mime and bytes are required, non-null, and have non-zero lengths." *)
Definition image_of (e : list byte) : option ImageAttachment :=
  let mime := struct_field ha_image_attachment "mime" e in
  let mime_length := struct_field ha_image_attachment "mime_length" e in
  let bytes := struct_field ha_image_attachment "bytes" e in
  let bytes_length := struct_field ha_image_attachment "bytes_length" e in
  if (mime =? 0) || (mime_length =? 0) || (bytes =? 0) || (bytes_length =? 0) then None
  else (fun mime => Build_ImageAttachment mime (bytes_at m bytes bytes_length))
         <$> utf8_decode (bytes_at m mime mime_length).

(** "Each text field is valid UTF-8, contains no NUL, and is at most 4096 bytes." *)
Definition text_of (limit p len : Z) : option text :=
  if (limit <? len) || null_with_bytes p len then None
  else t ← utf8_decode (bytes_at m p len);
       if bool_decide (0 ∈ t) then None else Some t.

Definition nonempty_text_of (p len : Z) : option text :=
  match text_of 4096 p len with Some [] => None | o => o end.

(** "... with all three fields nonempty." *)
Definition integration_of (e : list byte) : option NativeIntegrationAttachment :=
  let field f l := nonempty_text_of (struct_field ha_integration_attachment f e)
                     (struct_field ha_integration_attachment l e) in
  connection ← field "connection_id"%string "connection_id_length"%string;
  server ← field "server_name"%string "server_name_length"%string;
  name ← field "display_name"%string "display_name_length"%string;
  Some (Build_NativeIntegrationAttachment connection server name).

(** "window_host_token=0 means no window; both window text fields must be empty.  A nonzero
    token requires a nonempty application name." *)
Definition window_ok (token : Z) (application title : text) : bool :=
  if token =? 0 then bool_decide (application = []) && bool_decide (title = [])
  else negb (bool_decide (application = [])).

Definition turn_id_ok (p len : Z) : bool := negb (p =? 0) && (1 <=? len) && (len <=? 1024).

(** The status that refuses a call, or the turn and the request that it makes. *)
Definition request_of (c : staging_call) : Z + text * staging_request :=
  match c with
  | stage_turn_images e t tl p n =>
      if e =? 0 then inl 1
      else if negb (turn_id_ok t tl) then inl 2
      else if null_with_bytes p n || (2 ^ 63 <=? n) then inl 4
      else match utf8_decode (bytes_at m t tl),
                 sequence (map image_of (array_at m p n (struct_size ha_image_attachment))) with
           | Some id, Some images => inr (id, req_images images)
           | _, _ => inl 4
           end
  | stage_turn_options e t tl i s =>
      if e =? 0 then inl 1
      else if negb (turn_id_ok t tl) then inl 2
      else match interactionModeFromCode i, shellModeFromCode s with
           | Some i, Some s =>
               match utf8_decode (bytes_at m t tl) with
               | Some id => inr (id, req_options i s)
               | None => inl 2
               end
           | _, _ => inl 4
           end
  | stage_turn_context e t tl w a al ti til p n =>
      if e =? 0 then inl 1
      else if negb (turn_id_ok t tl) then inl 2
      else if (32 <? n) || null_with_bytes p n then inl 4
      else match text_of 1024 t tl, text_of 4096 a al, text_of 4096 ti til,
                 sequence (map integration_of
                   (array_at m p n (struct_size ha_integration_attachment))) with
           | Some id, Some application, Some title, Some items =>
               if window_ok w application title
               then inr (id, req_context (Build_NativePromptContext w application title items))
               else inl 4
           | _, _, _, _ => inl 4
           end
  | stage_voice e t tl cb cx =>
      if (e =? 0) || (t =? 0) || (tl =? 0) || (512 <? tl) || (cb =? 0) then inl 1
      else match utf8_decode (bytes_at m t tl) with
           | Some id => inr (id, req_voice cb cx)
           | None => inl 2
           end
  | discard_turn_staging e t tl =>
      if e =? 0 then inl 1
      else if negb (turn_id_ok t tl) then inl 2
      else match utf8_decode (bytes_at m t tl) with
           | Some id => inr (id, req_discard)
           | None => inl 2
           end
  end.

(** The buffers that a call lends: the identifier, the texts, the array and, through each of
    its elements, the buffers of the element. *)
Definition image_lent (e : list byte) : Prop :=
  lent m (struct_field ha_image_attachment "mime" e) (struct_field ha_image_attachment "mime_length" e)
  /\ lent m (struct_field ha_image_attachment "bytes" e)
       (struct_field ha_image_attachment "bytes_length" e).

Definition integration_lent (e : list byte) : Prop :=
  let field f l := lent m (struct_field ha_integration_attachment f e)
                     (struct_field ha_integration_attachment l e) in
  field "connection_id"%string "connection_id_length"%string
  /\ field "server_name"%string "server_name_length"%string
  /\ field "display_name"%string "display_name_length"%string.

Definition array_lent (p count size : Z) (ok : list byte -> Prop) : Prop :=
  0 <= count < 2 ^ 64
  /\ (p <> 0 -> array_readable m p count size /\ Forall ok (array_at m p count size)).

Definition call_lent (c : staging_call) : Prop :=
  match c with
  | stage_turn_images e t tl p n =>
      lent m t tl /\ array_lent p n (struct_size ha_image_attachment) image_lent
  | stage_turn_context e t tl w a al ti til p n =>
      lent m t tl /\ lent m a al /\ lent m ti til
      /\ array_lent p n (struct_size ha_integration_attachment) integration_lent
  | stage_turn_options e t tl _ _ | stage_voice e t tl _ _ | discard_turn_staging e t tl =>
      lent m t tl
  end.

End Reading.

(** ** Reading the host's structures *)

Section ReadingFacts.
Context (m : memory).

(** Where C places the fields. *)
Lemma image_fields e :
  struct_field ha_image_attachment "mime" e = peek 8 0 e
  /\ struct_field ha_image_attachment "mime_length" e = peek 8 8 e
  /\ struct_field ha_image_attachment "bytes" e = peek 8 16 e
  /\ struct_field ha_image_attachment "bytes_length" e = peek 8 24 e.
Proof. done. Qed.

Lemma integration_fields e :
  struct_field ha_integration_attachment "connection_id" e = peek 8 0 e
  /\ struct_field ha_integration_attachment "connection_id_length" e = peek 8 8 e
  /\ struct_field ha_integration_attachment "server_name" e = peek 8 16 e
  /\ struct_field ha_integration_attachment "server_name_length" e = peek 8 24 e
  /\ struct_field ha_integration_attachment "display_name" e = peek 8 32 e
  /\ struct_field ha_integration_attachment "display_name_length" e = peek 8 40 e.
Proof. done. Qed.

(** The reading of an array: what every element gives. *)
Lemma map_lent_array {A} p n size ok (f : Z -> outcome A) (g : list byte -> A) :
  array_lent m p n size ok -> null_with_bytes p n = false ->
  (forall i e, 0 <= i < n -> array_readable m p n size ->
     e = element size i (default [] (m !! p)) -> ok e -> f i = value (g e)) ->
  map_outcome f (seqZ 0 n) = value (map g (array_at m p n size)).
Proof.
  intros [Hn Ha] Hnull Hf. apply map_array. intros i Hi.
  destruct (decide (p = 0)) as [->|Hp].
  { unfold null_with_bytes in Hnull. destruct (Z.eqb_spec n 0); [lia|done]. }
  destruct (Ha Hp) as [Hr Hall]. apply (Hf i _ Hi Hr eq_refl).
  eapply Forall_forall; [exact Hall|]. unfold array_at. apply list_elem_of_fmap.
  exists i. split; [done|]. apply elem_of_seqZ. lia.
Qed.

Lemma peekImage_value p n i e :
  array_readable m p n (struct_size ha_image_attachment) -> 0 <= i < n ->
  e = element (struct_size ha_image_attachment) i (default [] (m !! p)) -> image_lent m e ->
  peekImage m p i = value (image_of m e).
Proof.
  intros Hr Hi -> [Hm Hb]. unfold peekImage, imageSize, pointerSize, sizeSize.
  change (struct_size ha_image_attachment) with 32 in *. change (8 + 8 + 8 + 8) with 32.
  rewrite !(peek_array m p n 32) by (done || lia). cbn [mbind outcome_bind].
  set (e := element 32 i _) in *. unfold image_of.
  change (8 + 8) with 16. change (16 + 8) with 24.
  destruct (image_fields e) as (E1 & E2 & E3 & E4). rewrite E1, E2 in Hm. rewrite E3, E4 in Hb.
  rewrite E1, E2, E3, E4. clear E1 E2 E3 E4.
  generalize dependent (peek 8 0 e). generalize dependent (peek 8 8 e).
  generalize dependent (peek 8 16 e). generalize dependent (peek 8 24 e).
  intros bl b Hb ml mp Hm. destruct (null_with_bytes mp ml) eqn:Em.
  { unfold null_with_bytes in Em. apply andb_prop in Em as [-> _]. done. }
  destruct (null_with_bytes b bl) eqn:Eb.
  { unfold null_with_bytes in Eb. apply andb_prop in Eb as [-> _]. cbn [orb].
    by rewrite !orb_true_r. }
  unfold null_with_bytes in Em, Eb. cbn [orb].
  destruct (Z.eqb_spec ml 0) as [->|]; [cbn [orb]; by rewrite !orb_true_r|].
  destruct (Z.eqb_spec bl 0) as [->|]; [cbn [orb]; by rewrite !orb_true_r|].
  cbn [negb] in *. rewrite andb_true_r in *. rewrite Em, Eb. cbn [orb].
  rewrite !pack_lent by (done || (unfold null_with_bytes; by rewrite ?Em, ?Eb)).
  cbn [mbind outcome_bind]. by destruct (utf8_decode _).
Qed.

Lemma existsb_nul t : existsb (Z.eqb 0) t = bool_decide (0 ∈ t).
Proof.
  induction t as [|c t IH]; [done|]. cbn [existsb]. rewrite IH.
  destruct (Z.eqb_spec 0 c) as [<-|Hc]; cbn [orb].
  - rewrite bool_decide_true by (apply list_elem_of_here). done.
  - apply bool_decide_ext. rewrite elem_of_cons. tauto.
Qed.

Lemma readText_value limit p len :
  lent m p len -> readText m limit p len = value (text_of m limit p len).
Proof.
  intros Hl. unfold readText, text_of. destruct (limit <? len); [done|]. cbn [orb].
  destruct (null_with_bytes p len) eqn:En; [done|].
  destruct (Z.eqb_spec len 0) as [->|]; [done|].
  rewrite pack_lent by done. cbn [mbind outcome_bind].
  destruct (utf8_decode _) as [t|]; [|done]. cbn [mbind option_bind].
  rewrite existsb_nul. by destruct (bool_decide (0 ∈ t)).
Qed.

Lemma readIntegration_value p n i e :
  array_readable m p n (struct_size ha_integration_attachment) -> 0 <= i < n ->
  e = element (struct_size ha_integration_attachment) i (default [] (m !! p)) ->
  integration_lent m e ->
  readIntegration m p i = value (integration_of m e).
Proof.
  intros Hr Hi -> (Hc & Hs & Hd). unfold readIntegration, fieldSize, pointerSize, sizeSize.
  change (struct_size ha_integration_attachment) with 48 in *. change ((8 + 8) * 3) with 48.
  rewrite !(peek_array m p n 48) by (done || lia). cbn [mbind outcome_bind].
  set (e := element 48 i _) in *.
  change (0 + 8) with 8. change ((8 + 8) * 2) with 32. change (8 + 8) with 16.
  change (16 + 8) with 24. change (32 + 8) with 40.
  destruct (integration_fields e) as (E1 & E2 & E3 & E4 & E5 & E6).
  unfold integration_of, nonempty_text_of. rewrite E1, E2 in Hc. rewrite E3, E4 in Hs.
  rewrite E5, E6 in Hd. rewrite E1, E2, E3, E4, E5, E6.
  rewrite !readText_value by done. cbn [mbind outcome_bind].
  destruct (text_of m 4096 (peek 8 0 e) (peek 8 8 e)) as [[|c cs]|]; try done.
  all: destruct (text_of m 4096 (peek 8 16 e) (peek 8 24 e)) as [[|s ss]|]; try done.
  all: by destruct (text_of m 4096 (peek 8 32 e) (peek 8 40 e)) as [[|d ds]|].
Qed.

End ReadingFacts.

(** ** Refinement *)

(** [o] is what the request [req] asks for, on the staging [st]. *)
Definition implements (st : staging) (o : outcome (Z * staging)) (req : Z + text * staging_request)
    : Prop :=
  exists status st', o = value (status, st')
  /\ match req with
     | inl e => status = e /\ e <> 0 /\ st' = st
     | inr (key, r) =>
         match apply_request (view st key) r with
         | inl e => status = e /\ e <> 0 /\ st' = st
         | inr t => status = 0 /\ forall id, view st' id = if decide (id = key) then t else view st id
         end
     end.

Lemma implements_refused st e : e <> 0 -> implements st (value (e, st)) (inl e).
Proof. intros H. by exists e, st. Qed.

Lemma implements_done st st' key r t :
  apply_request (view st key) r = inr t ->
  (forall id, view st' id = if decide (id = key) then t else view st id) ->
  implements st (value (0, st')) (inr (key, r)).
Proof. intros Hr Hv. exists 0, st'. split; [done|]. by rewrite Hr. Qed.

Lemma implements_not_staged st key r e :
  apply_request (view st key) r = inl e -> e <> 0 -> implements st (value (e, st)) (inr (key, r)).
Proof. intros Hr He. exists e, st. split; [done|]. by rewrite Hr. Qed.

Lemma lookup_default_key {A} (m : gmap text A) key a id :
  <[key := a]> m !! id = if decide (id = key) then Some a else m !! id.
Proof.
  destruct (decide (id = key)) as [->|]; [by rewrite lookup_insert_eq|by rewrite lookup_insert_ne].
Qed.

Lemma view_images st key images id :
  view (Build_staging
          (match images with
           | [] => delete key (engineStagedImages st)
           | _ => <[key := images]> (engineStagedImages st)
           end) (engineStagedTurnOptions st)) id
  = if decide (id = key) then Build_staged_turn images (turn_options (view st key)) else view st id.
Proof.
  unfold view. cbn. destruct (decide (id = key)) as [->|Hne].
  - f_equal. destruct images; [by rewrite lookup_delete_eq|by rewrite lookup_insert_eq].
  - f_equal. destruct images; [by rewrite lookup_delete_ne|by rewrite lookup_insert_ne].
Qed.

Lemma view_set_options st key o id :
  view (set_options key o st) id
  = if decide (id = key) then Build_staged_turn (turn_images (view st key)) (Some o) else view st id.
Proof.
  unfold view. cbn. rewrite lookup_default_key. by destruct (decide (id = key)) as [->|].
Qed.

Lemma view_discard st key id :
  view (discardStagedTurnById key st) id = if decide (id = key) then nothing_staged else view st id.
Proof.
  unfold view. cbn. destruct (decide (id = key)) as [->|Hne]; [by rewrite !lookup_delete_eq|].
  by rewrite !lookup_delete_ne.
Qed.

Section Refinement.
Context (m : memory).

Lemma turn_id_test t tl :
  (t =? 0) || negb (validNativeTurnIDLength tl) = negb (turn_id_ok t tl).
Proof.
  unfold validNativeTurnIDLength, turn_id_ok, maxNativeTurnIDBytes.
  destruct (t =? 0); cbn [orb negb andb]; [done|]. f_equal.
  destruct (Z.ltb_spec 0 tl), (Z.leb_spec 1 tl), (Z.leb_spec tl (2 ^ 63 - 1)),
    (Z.leb_spec tl 1024); cbn; lia.
Qed.

Lemma turn_id_readable t tl :
  lent m t tl -> turn_id_ok t tl = true ->
  packCStringLen m t tl = value (bytes_at m t tl) /\ utf8_decode (bytes_at m t tl) <> Some [].
Proof.
  intros Hl Ho. unfold turn_id_ok in Ho. apply andb_prop in Ho as [[Ht H1]%andb_prop H2].
  assert (readable m t tl) as Hr by (apply Hl; intros ->; done).
  split; [by apply pack_readable|]. intros Hd. apply utf8_decode_sound in Hd as [Hd _].
  apply zlen_bytes_at in Hr. rewrite <- Hd in Hr. cbn in Hr. lia.
Qed.

Lemma turn_text_nonempty limit t tl key :
  lent m t tl -> turn_id_ok t tl = true -> text_of m limit t tl = Some key -> key <> [].
Proof.
  intros Hl Ht. unfold text_of. destruct (turn_id_readable _ _ Hl Ht) as [_ Hne].
  destruct (_ || _); [done|]. destruct (utf8_decode _) as [k|]; [|done].
  cbn [mbind option_bind]. destruct (bool_decide (0 ∈ k)); congruence.
Qed.

Lemma images_refine st e t tl p n :
  call_lent m (stage_turn_images e t tl p n) ->
  implements st (run_call m st (stage_turn_images e t tl p n))
    (request_of m (stage_turn_images e t tl p n)).
Proof.
  intros [Hl Ha]. cbn [run_call request_of]. unfold ha_engine_stage_turn_images.
  rewrite turn_id_test. destruct (e =? 0); [by apply implements_refused|].
  destruct (turn_id_ok t tl) eqn:Ht; cbn [negb]; [|by apply implements_refused].
  assert ((p =? 0) && (0 <? n) = null_with_bytes p n) as ->.
  { unfold null_with_bytes. f_equal. destruct Ha as [Hn _].
    destruct (Z.ltb_spec 0 n), (Z.eqb_spec n 0); cbn; lia. }
  destruct (null_with_bytes p n) eqn:Hn; cbn [orb]; [by apply implements_refused|].
  replace (2 ^ 63 - 1 <? n) with (2 ^ 63 <=? n) by lia.
  destruct (2 ^ 63 <=? n); [by apply implements_refused|].
  destruct (turn_id_readable _ _ Hl Ht) as [-> _]. cbn [mbind outcome_bind].
  rewrite (map_lent_array m p n _ _ _ (image_of m) Ha Hn) by (intros; by eapply peekImage_value).
  cbn [mbind outcome_bind either_thrown].
  destruct (utf8_decode _) as [key|]; [|by apply implements_refused].
  destruct (sequence _) as [images|]; [|by apply implements_refused].
  eapply implements_done; [done|]. intros id. apply view_images.
Qed.

Lemma options_refine st e t tl i s :
  call_lent m (stage_turn_options e t tl i s) ->
  implements st (run_call m st (stage_turn_options e t tl i s))
    (request_of m (stage_turn_options e t tl i s)).
Proof.
  intros Hl. cbn [run_call request_of]. unfold ha_engine_stage_turn_options.
  rewrite turn_id_test. destruct (e =? 0); [by apply implements_refused|].
  destruct (turn_id_ok t tl) eqn:Ht; cbn [negb]; [|by apply implements_refused].
  destruct (interactionModeFromCode i) as [i'|]; [|by apply implements_refused].
  destruct (shellModeFromCode s) as [s'|]; [|by apply implements_refused].
  destruct (turn_id_readable _ _ Hl Ht) as [-> Hne]. cbn [mbind outcome_bind either_thrown].
  destruct (utf8_decode _) as [[|c key]|]; [done| |by apply implements_refused].
  eapply implements_done; [done|]. intros id. apply view_set_options.
Qed.

Lemma voice_refine st e t tl cb cx :
  call_lent m (stage_voice e t tl cb cx) ->
  implements st (run_call m st (stage_voice e t tl cb cx))
    (request_of m (stage_voice e t tl cb cx)).
Proof.
  intros Hl. cbn [run_call request_of]. unfold ha_engine_stage_voice.
  destruct (e =? 0); [by apply implements_refused|]. cbn [orb].
  destruct (Z.eqb_spec t 0) as [|Ht]; [by apply implements_refused|]. cbn [orb].
  destruct (tl =? 0); [by apply implements_refused|]. cbn [orb].
  destruct (512 <? tl); [by apply implements_refused|]. cbn [orb].
  destruct (cb =? 0); [by apply implements_refused|].
  rewrite pack_readable by (by apply Hl). cbn [mbind outcome_bind either_thrown].
  destruct (utf8_decode _) as [key|]; [|by apply implements_refused].
  destruct (engineStagedTurnOptions st !! key) as [o|] eqn:Ho.
  - eapply implements_done; [|intros id; apply view_set_options]. cbn. by rewrite Ho.
  - apply implements_not_staged; [|done]. cbn. by rewrite Ho.
Qed.

Lemma discard_refine st e t tl :
  call_lent m (discard_turn_staging e t tl) ->
  implements st (run_call m st (discard_turn_staging e t tl))
    (request_of m (discard_turn_staging e t tl)).
Proof.
  intros Hl. cbn [run_call request_of]. unfold ha_engine_discard_turn_staging.
  rewrite turn_id_test. destruct (e =? 0); [by apply implements_refused|].
  destruct (turn_id_ok t tl) eqn:Ht; cbn [negb]; [|by apply implements_refused].
  destruct (turn_id_readable _ _ Hl Ht) as [-> Hne]. cbn [mbind outcome_bind either_thrown].
  destruct (utf8_decode _) as [[|c key]|]; [done| |by apply implements_refused].
  eapply implements_done; [done|]. intros id. apply view_discard.
Qed.

Lemma window_test w a ti :
  (negb (w =? 0) && negb (bool_decide (a = [])))
  || ((w =? 0) && bool_decide (a = []) && bool_decide (ti = []))
  = window_ok w a ti.
Proof. unfold window_ok. destruct (w =? 0); cbn; [done|]. by rewrite orb_false_r. Qed.

Lemma context_refine st e t tl w a al ti til p n :
  call_lent m (stage_turn_context e t tl w a al ti til p n) ->
  implements st (run_call m st (stage_turn_context e t tl w a al ti til p n))
    (request_of m (stage_turn_context e t tl w a al ti til p n)).
Proof.
  intros (Hl & Hal & Htl & Ha). cbn [run_call request_of]. unfold ha_engine_stage_turn_context.
  rewrite turn_id_test. destruct (e =? 0); [by apply implements_refused|].
  destruct (turn_id_ok t tl) eqn:Ht; cbn [negb]; [|by apply implements_refused].
  destruct (32 <? n); [by apply implements_refused|]. cbn [orb].
  destruct (null_with_bytes p n) eqn:Hn; [by apply implements_refused|].
  rewrite !readText_value by done. cbn [mbind outcome_bind].
  rewrite (map_lent_array m p n _ _ _ (integration_of m) Ha Hn)
    by (intros; by eapply readIntegration_value).
  cbn [mbind outcome_bind either_thrown].
  destruct (text_of m 1024 t tl) as [key|] eqn:Ek; [|by apply implements_refused].
  destruct (text_of m 4096 a al) as [app|]; [|by apply implements_refused].
  destruct (text_of m 4096 ti til) as [title|]; [|by apply implements_refused].
  destruct (sequence _) as [items|]; [|by apply implements_refused].
  rewrite window_test, (bool_decide_false (key = [])) by (eapply turn_text_nonempty; [exact Hl|exact Ht|exact Ek]).
  cbn [negb andb]. destruct (window_ok w app title); [|by apply implements_refused].
  destruct (engineStagedTurnOptions st !! key) as [o|] eqn:Ho.
  - eapply implements_done; [|intros id; apply view_set_options]. cbn. by rewrite Ho.
  - apply implements_not_staged; [|done]. cbn. by rewrite Ho.
Qed.

Lemma call_refines st c :
  call_lent m c -> implements st (run_call m st c) (request_of m c).
Proof.
  destruct c; [apply images_refine|apply options_refine|apply context_refine|apply voice_refine
              |apply discard_refine].
Qed.

End Refinement.

(** *** Histories

    Everything that happens to the staging of one engine: the host's calls, each with the
    memory of its moment, the requests that the supervisor admits or refuses, and malformed
    request envelopes. *)
Inductive staging_event :=
  | on_call (m : memory) (c : staging_call)
  | on_turn_start (request : turn_start)
  | on_bad_envelope.

(** What an event gives back: a status to the host, or a turn to the supervisor. *)
Inductive staging_output :=
  | out_status (status : Z)
  | out_turn (turn : option (list ImageAttachment * NativeTurnOptions))
  | out_none.

Definition run_event (st : staging) (e : staging_event) : outcome (staging_output * staging) :=
  match e with
  | on_call m c => '(status, st') ← run_call m st c; value (out_status status, st')
  | on_turn_start r => let '(st', turn) := enqueueNativeTurn st r in value (out_turn turn, st')
  | on_bad_envelope => value (out_none, discard_all st)
  end.

Fixpoint run_events (st : staging) (es : list staging_event)
    : outcome (list staging_output * staging) :=
  match es with
  | [] => value ([], st)
  | e :: es =>
      '(o, st1) ← run_event st e;
      '(os, st2) ← run_events st1 es;
      value (o :: os, st2)
  end.

(** The specification's state: what is staged for every turn. *)
Definition put_turn (id : text) (t : staged_turn) (sp : text -> staged_turn) : text -> staged_turn :=
  fun id' => if decide (id' = id) then t else sp id'.

Definition spec_event (sp : text -> staged_turn) (e : staging_event)
    : staging_output * (text -> staged_turn) :=
  match e with
  | on_call m c =>
      match request_of m c with
      | inl e => (out_status e, sp)
      | inr (id, r) =>
          match apply_request (sp id) r with
          | inl e => (out_status e, sp)
          | inr t => (out_status 0, put_turn id t sp)
          end
      end
  | on_turn_start (start_malformed id) | on_turn_start (start_rejected id) =>
      (out_turn None, put_turn id nothing_staged sp)
  | on_turn_start (start_queued id) =>
      (out_turn (Some (turn_images (sp id), default defaultNativeTurnOptions (turn_options (sp id)))),
       put_turn id nothing_staged sp)
  | on_bad_envelope => (out_none, fun _ => nothing_staged)
  end.

Fixpoint spec_events (sp : text -> staged_turn) (es : list staging_event)
    : list staging_output * (text -> staged_turn) :=
  match es with
  | [] => ([], sp)
  | e :: es =>
      let '(o, sp1) := spec_event sp e in
      let '(os, sp2) := spec_events sp1 es in
      (o :: os, sp2)
  end.

Definition event_lent (e : staging_event) : Prop :=
  match e with on_call m c => call_lent m c | _ => True end.

(** The maps of the engine hold what the specification has staged. *)
Definition represents (st : staging) (sp : text -> staged_turn) : Prop :=
  forall id, view st id = sp id.

Lemma event_refines st sp e :
  represents st sp -> event_lent e ->
  exists st', run_event st e = value (fst (spec_event sp e), st')
    /\ represents st' (snd (spec_event sp e)).
Proof.
  intros Hr Hl. destruct e as [m c|r|]; cbn [run_event spec_event].
  - destruct (call_refines m st c Hl) as (status & st' & -> & Hreq). exists st'.
    cbn [mbind outcome_bind]. destruct (request_of m c) as [e|[key r]].
    + destruct Hreq as (-> & _ & ->). by split.
    + rewrite <- (Hr key). destruct (apply_request (view st key) r) as [e|t].
      * destruct Hreq as (-> & _ & ->). by split.
      * destruct Hreq as [-> Hv]. split; [done|]. intros id. cbn. unfold put_turn.
        rewrite Hv. destruct (decide (id = key)); [done|apply Hr].
  - assert (Hd : forall id, represents (discardStagedTurnById id st) (put_turn id nothing_staged sp)).
    { intros id id'. rewrite view_discard. unfold put_turn.
      destruct (decide (id' = id)); [done|apply Hr]. }
    destruct r as [id|id|id]; cbn [enqueueNativeTurn]; eexists; (split; [|apply Hd]); try done.
    cbn [fst]. by rewrite <- (Hr id).
  - exists (discard_all st). by split.
Qed.

(** C27: on buffers that the host lends as declared, every history of staging calls and turn
    starts returns, with exactly the statuses and the admitted turns of the specification: a
    refused call leaves all that is staged as it was, an accepted one changes exactly its own
    turn, to what its structures say when they are read with C's layout, and a turn that is
    admitted takes what was staged for it, once. *)
Theorem staging_refines st sp es :
  represents st sp -> Forall event_lent es ->
  exists st', run_events st es = value (fst (spec_events sp es), st')
    /\ represents st' (snd (spec_events sp es)).
Proof.
  intros Hr Hl. revert st sp Hr. induction Hl as [|e es He _ IH]; intros st sp Hr.
  - by exists st.
  - destruct (event_refines st sp e Hr He) as (st1 & Hrun & Hr1). cbn [run_events spec_events].
    destruct (spec_event sp e) as [o sp1]. cbn [fst snd] in *.
    destruct (IH st1 sp1 Hr1) as (st2 & Hrun2 & Hr2).
    destruct (spec_events sp1 es) as [os sp2]. cbn [fst snd] in *.
    exists st2. rewrite Hrun. cbn [mbind outcome_bind]. by rewrite Hrun2.
Qed.

(** ** What can be staged *)

Definition text_ok (limit : Z) (t : text) : Prop :=
  Forall scalar t /\ zlen (utf8_encode t) <= limit.

Definition plain_text (t : text) : Prop := text_ok 4096 t /\ ~ In 0 t.

Definition image_ok (i : ImageAttachment) : Prop :=
  Forall scalar (imageMime i) /\ imageMime i <> [] /\ imageBytes i <> [].

Definition integration_ok (i : NativeIntegrationAttachment) : Prop :=
  Forall (fun t => plain_text t /\ t <> [])
    [attachedConnectionId i; attachedServerName i; attachedDisplayName i].

Record context_ok (c : NativePromptContext) : Prop := {
  application_ok : plain_text (attachedApplicationName c);
  title_ok : plain_text (attachedWindowTitle c);
  window_named : window_ok (attachedWindowToken c) (attachedApplicationName c)
                   (attachedWindowTitle c) = true;
  integrations_few : zlen (attachedIntegrations c) <= 32;
  integrations_ok : Forall integration_ok (attachedIntegrations c);
}.

Definition options_ok (o : NativeTurnOptions) : Prop :=
  context_ok (nativeTurnPromptContext o)
  /\ match nativeTurnVoice o with Some (callback, _) => callback <> 0 | None => True end.

(** The identifier of a turn: a text of 1 to 1024 bytes. *)
Definition turn_key_ok (id : text) : Prop := text_ok 1024 id /\ id <> [].

(** What may be staged for a turn. *)
Record turn_ok (id : text) (t : staged_turn) : Prop := {
  key_typed : t = nothing_staged \/ turn_key_ok id;
  images_typed : Forall image_ok (turn_images t);
  options_typed : match turn_options t with Some o => options_ok o | None => True end;
}.

Definition staging_ok (st : staging) : Prop := forall id, turn_ok id (view st id).

(** An admitted turn: its images and its options. *)
Definition admitted_ok (o : staging_output) : Prop :=
  match o with
  | out_turn (Some (images, options)) => Forall image_ok images /\ options_ok options
  | _ => True
  end.

Definition request_ok (r : staging_request) : Prop :=
  match r with
  | req_images images => Forall image_ok images
  | req_options _ _ | req_discard => True
  | req_context c => context_ok c
  | req_voice callback _ => callback <> 0
  end.

Lemma decode_text_ok limit b t :
  utf8_decode b = Some t -> zlen b <= limit -> text_ok limit t.
Proof. intros Hd Hb. apply utf8_decode_sound in Hd as [<- Hs]. by split. Qed.

Lemma decode_nonempty b t : utf8_decode b = Some t -> b <> [] -> t <> [].
Proof. intros Hd Hb ->. apply utf8_decode_sound in Hd as [<- _]. done. Qed.

Lemma emptyNativePromptContext_ok : context_ok emptyNativePromptContext.
Proof.
  assert (plain_text []) as Ht by (split; [split; [constructor|cbn; lia]|cbn; tauto]).
  split; cbn; try done. 
Qed.

Lemma defaultNativeTurnOptions_ok : options_ok defaultNativeTurnOptions.
Proof. split; [apply emptyNativePromptContext_ok|done]. Qed.

Lemma nothing_staged_ok id : turn_ok id nothing_staged.
Proof. split; [by left|constructor|done]. Qed.

#[local] Hint Resolve emptyNativePromptContext_ok defaultNativeTurnOptions_ok nothing_staged_ok : agent.

Section Typing.
Context (m : memory).

Lemma text_of_ok limit p len t :
  lent m p len -> text_of m limit p len = Some t -> text_ok limit t /\ ~ In 0 t.
Proof.
  intros Hl. unfold text_of. destruct (Z.ltb_spec limit len); [done|]. cbn [orb].
  destruct (null_with_bytes p len) eqn:Hn; [done|].
  destruct (utf8_decode _) as [t'|] eqn:Hd; [|done]. cbn [mbind option_bind].
  case_bool_decide as H0; [done|]. intros [= ->]. split.
  - eapply decode_text_ok; [exact Hd|]. by rewrite zlen_bytes_at by (by apply lent_readable).
  - by rewrite <- list_elem_of_In.
Qed.

Lemma image_of_ok e i : image_lent m e -> image_of m e = Some i -> image_ok i.
Proof.
  intros [Hm Hb]. unfold image_of. destruct (image_fields e) as (E1 & E2 & E3 & E4).
  rewrite E1, E2 in Hm. rewrite E3, E4 in Hb. rewrite E1, E2, E3, E4. clear E1 E2 E3 E4.
  destruct (Z.eqb_spec (peek 8 0 e) 0); [done|]. destruct (Z.eqb_spec (peek 8 8 e) 0); [done|].
  destruct (Z.eqb_spec (peek 8 16 e) 0); [done|]. destruct (Z.eqb_spec (peek 8 24 e) 0); [done|].
  cbn [orb]. destruct (utf8_decode _) as [t|] eqn:Hd; [|done]. intros [= <-].
  assert (Hne : forall p len, lent m p len -> p <> 0 -> len <> 0 -> bytes_at m p len <> []).
  { intros p len Hl Hp Hlen E. apply (f_equal (fun l => zlen l)) in E.
    rewrite zlen_bytes_at in E by (by apply Hl). done. }
  repeat split; cbn.
  - by apply utf8_decode_sound in Hd as [_ ?].
  - eapply decode_nonempty; [exact Hd|by apply Hne].
  - by apply Hne.
Qed.

Lemma nonempty_text_of_ok p len t :
  lent m p len -> nonempty_text_of m p len = Some t -> plain_text t /\ t <> [].
Proof.
  intros Hl. unfold nonempty_text_of. destruct (text_of m 4096 p len) as [[|c u]|] eqn:E; [done| |done].
  intros [= <-]. apply text_of_ok in E; [|done]. by split.
Qed.

Lemma integration_of_ok e i : integration_lent m e -> integration_of m e = Some i -> integration_ok i.
Proof.
  intros (Hc & Hs & Hd). unfold integration_of.
  destruct (nonempty_text_of m (struct_field _ "connection_id" e) _) as [c|] eqn:E1; [|done].
  cbn [mbind option_bind].
  destruct (nonempty_text_of m (struct_field _ "server_name" e) _) as [s|] eqn:E2; [|done].
  cbn [mbind option_bind].
  destruct (nonempty_text_of m (struct_field _ "display_name" e) _) as [d|] eqn:E3; [|done].
  cbn [mbind option_bind].
  intros [= <-]. unfold integration_ok. cbn.
  pose proof (nonempty_text_of_ok _ _ _ Hc E1). pose proof (nonempty_text_of_ok _ _ _ Hs E2).
  pose proof (nonempty_text_of_ok _ _ _ Hd E3).
  do 3 (apply Forall_cons_2; [done|]). apply Forall_nil_2.
Qed.

(** Everything read from an array is well-formed when each readable element gives something
    well-formed. *)
Lemma array_ok {A} p n size ok (f : list byte -> option A) (P : A -> Prop) l :
  array_lent m p n size ok -> null_with_bytes p n = false ->
  (forall e a, ok e -> f e = Some a -> P a) ->
  sequence (map f (array_at m p n size)) = Some l -> Forall P l /\ zlen l = n.
Proof.
  intros [Hn Ha] Hnull Hf Hs. apply sequence_Some in Hs.
  assert (Forall ok (array_at m p n size)) as Hok.
  { destruct (decide (p = 0)) as [->|]; [|by apply Ha].
    unfold null_with_bytes in Hnull. destruct (Z.eqb_spec n 0) as [->|]; [constructor|done]. }
  split.
  - clear Hn Ha Hnull. revert l Hs. induction Hok as [|e es He _ IH]; intros [|a l]; try done.
    cbn. intros [= Hfe Hl]. constructor; [by eapply Hf|by apply IH].
  - apply (f_equal length) in Hs. rewrite length_fmap, length_map in Hs. unfold array_at in Hs.
    rewrite length_map, length_seqZ in Hs. lia.
Qed.

Lemma turn_id_key t tl id :
  lent m t tl -> turn_id_ok t tl = true -> utf8_decode (bytes_at m t tl) = Some id -> turn_key_ok id.
Proof.
  intros Hl Ho Hd. destruct (turn_id_readable m _ _ Hl Ho) as [_ Hne].
  unfold turn_id_ok in Ho. apply andb_prop in Ho as [[Ht H1]%andb_prop H2].
  split; [|by intros ->]. eapply decode_text_ok; [exact Hd|].
  rewrite zlen_bytes_at by (apply Hl; by intros ->). lia.
Qed.

Lemma request_typed c id r :
  call_lent m c -> request_of m c = inr (id, r) -> turn_key_ok id /\ request_ok r.
Proof.
  destruct c as [e t tl p n|e t tl i s|e t tl w a al ti til p n|e t tl cb cx|e t tl];
    cbn [call_lent request_of].
  - intros [Hl Ha]. destruct (e =? 0); [done|]. destruct (turn_id_ok t tl) eqn:Ht; [|done].
    cbn [negb]. destruct (null_with_bytes p n) eqn:Hn; [done|]. destruct (2 ^ 63 <=? n); [done|].
    cbn [orb]. destruct (utf8_decode _) as [key|] eqn:Hd; [|done].
    destruct (sequence _) as [l|] eqn:Hs; [|done]. intros [= <- <-].
    split; [by eapply turn_id_key|]. eapply array_ok; [done|done| |done]. apply image_of_ok.
  - intros Hl. destruct (e =? 0); [done|]. destruct (turn_id_ok t tl) eqn:Ht; [|done]. cbn [negb].
    destruct (interactionModeFromCode i); [|done]. destruct (shellModeFromCode s); [|done].
    destruct (utf8_decode _) as [key|] eqn:Hd; [|done]. intros [= <- <-].
    split; [by eapply turn_id_key|done].
  - intros (Hl & Hal & Htl & Ha). destruct (e =? 0); [done|].
    destruct (turn_id_ok t tl) eqn:Ht; [|done]. cbn [negb].
    destruct (Z.ltb_spec 32 n); [done|]. destruct (null_with_bytes p n) eqn:Hn; [done|]. cbn [orb].
    destruct (text_of m 1024 t tl) as [key|] eqn:Ek; [|done].
    destruct (text_of m 4096 a al) as [app|] eqn:Ea; [|done].
    destruct (text_of m 4096 ti til) as [title|] eqn:Eti; [|done].
    destruct (sequence _) as [items|] eqn:Hs; [|done].
    destruct (window_ok w app title) eqn:Hw; [|done]. intros [= <- <-].
    pose proof (turn_text_nonempty m _ _ _ _ Hl Ht Ek) as Hne.
    apply text_of_ok in Ea; [|done]. apply text_of_ok in Eti; [|done].
    eapply array_ok in Hs as [Hi Hlen]; [|done|done|apply integration_of_ok].
    split.
    + apply text_of_ok in Ek as [Hk _]; [|done]. by split.
    + split; cbn; [done|done|done|lia|done].
  - intros Hl. destruct (e =? 0); [done|]. destruct (Z.eqb_spec t 0) as [|Ht]; [done|].
    destruct (Z.eqb_spec tl 0) as [|Htl]; [done|]. destruct (Z.ltb_spec 512 tl); [done|].
    destruct (Z.eqb_spec cb 0) as [|Hcb]; [done|]. cbn [orb].
    destruct (utf8_decode _) as [key|] eqn:Hd; [|done]. intros [= <- <-]. split; [|done].
    eapply turn_id_key; [exact Hl| |exact Hd]. unfold turn_id_ok. destruct Hl as [? _].
    apply andb_true_intro. split; [apply andb_true_intro; split|]; [|lia..].
    by destruct (Z.eqb_spec t 0).
  - intros Hl. destruct (e =? 0); [done|]. destruct (turn_id_ok t tl) eqn:Ht; [|done]. cbn [negb].
    destruct (utf8_decode _) as [key|] eqn:Hd; [|done]. intros [= <- <-].
    split; [by eapply turn_id_key|done].
Qed.

End Typing.

Lemma apply_request_typed id t r t' :
  turn_ok id t -> turn_key_ok id -> request_ok r -> apply_request t r = inr t' -> turn_ok id t'.
Proof.
  intros [Hk Hi Ho] Hid Hr. destruct r as [images|i s|c|cb cx|]; cbn.
  - intros [= <-]. split; cbn; [by right|done|done].
  - intros [= <-]. split; cbn; [by right|done|]. split; [apply emptyNativePromptContext_ok|done].
  - destruct (turn_options t) as [o|]; [|done]. intros [= <-]. destruct Ho as [_ Hv].
    split; cbn; [by right|done|by split].
  - destruct (turn_options t) as [o|]; [|done]. intros [= <-]. destruct Ho as [Hc _].
    split; cbn; [by right|done|by split].
  - intros [= <-]. apply nothing_staged_ok.
Qed.

Lemma put_turn_typed sp id t :
  (forall id', turn_ok id' (sp id')) -> turn_ok id t -> forall id', turn_ok id' (put_turn id t sp id').
Proof. intros Hs Ht id'. unfold put_turn. by destruct (decide (id' = id)) as [->|]. Qed.

Lemma spec_event_typed sp e :
  (forall id, turn_ok id (sp id)) -> event_lent e ->
  (forall id, turn_ok id (snd (spec_event sp e) id)) /\ admitted_ok (fst (spec_event sp e)).
Proof.
  intros Hs Hl. destruct e as [m c|[id|id|id]|]; cbn [spec_event].
  - destruct (request_of m c) as [e|[id r]] eqn:Hreq; [by split|].
    destruct (request_typed m c id r Hl Hreq) as [Hid Hr].
    destruct (apply_request (sp id) r) as [e|t] eqn:Ha; [by split|]. split; [|done].
    apply put_turn_typed; [done|]. by eapply apply_request_typed.
  - split; [|done]. apply put_turn_typed; [done|apply nothing_staged_ok].
  - split; [|done]. apply put_turn_typed; [done|apply nothing_staged_ok].
  - split; [apply put_turn_typed; [done|apply nothing_staged_ok]|].
    destruct (Hs id) as [_ Hi Ho]. cbn. split; [done|].
    destruct (turn_options (sp id)); [done|apply defaultNativeTurnOptions_ok].
  - split; [intros id; apply nothing_staged_ok|done].
Qed.

(** Whatever the host stages, from any memory that it lends as declared, the engine
    holds and the supervisor receives only well-formed data: identifiers of 1 to 1024 bytes,
    images with a type and bytes, contexts within their limits that name a window exactly
    when they attach one, and callbacks that are not null. *)
Theorem staging_well_typed st es :
  staging_ok st -> Forall event_lent es ->
  exists outs st', run_events st es = value (outs, st')
    /\ staging_ok st' /\ Forall admitted_ok outs.
Proof.
  intros Hok Hl. revert st Hok. induction Hl as [|e es He _ IH]; intros st Hok.
  - exists [], st. split; [done|]. split; [done|constructor].
  - destruct (event_refines st (view st) e (fun id => eq_refl) He) as (st1 & Hrun & Hr1).
    destruct (spec_event_typed (view st) e Hok He) as [Hok1 Ho].
    destruct (IH st1) as (outs & st2 & Hrun2 & Hok2 & Houts).
    { intros id. rewrite Hr1. apply Hok1. }
    eexists (_ :: outs), st2. cbn [run_events]. rewrite Hrun. cbn [mbind outcome_bind].
    rewrite Hrun2. split; [done|]. split; [done|by constructor].
Qed.

(** ** An example *)

Definition demo_image_array : list byte :=
  pokes [(8, 0, 2); (8, 8, 9); (8, 16, 3); (8, 24, 4)] (zeroed 32).

Definition demo_memory : memory :=
  {[ 1 := utf8_encode (txt "turn-1"); 2 := utf8_encode (txt "image/png");
     3 := [Byte.x89; Byte.x50; Byte.x4e; Byte.x47]; 4 := demo_image_array;
     5 := utf8_encode (txt "Finder") ]}.

(** Options, one image and the attached window, then the start of the turn, twice. *)
Definition demo_history : list staging_event :=
  [on_call demo_memory (stage_turn_options 9 1 6 1 3);
   on_call demo_memory (stage_turn_images 9 1 6 4 1);
   on_call demo_memory (stage_turn_context 9 1 6 77 5 6 0 0 0 0);
   on_call demo_memory (stage_turn_context 9 1 6 0 5 6 0 0 0 0);
   on_turn_start (start_queued (txt "turn-1"));
   on_turn_start (start_queued (txt "turn-1"))].

Definition demo_turn : list ImageAttachment * NativeTurnOptions :=
  ([Build_ImageAttachment (txt "image/png") [Byte.x89; Byte.x50; Byte.x4e; Byte.x47]],
   Build_NativeTurnOptions NativePlan NativeShellBoth None
     (Build_NativePromptContext 77 (txt "Finder") [] [])).

Example demo_history_outputs :
  run_events empty_staging demo_history =
  value ([out_status 0; out_status 0; out_status 0; out_status 4; out_turn (Some demo_turn);
          out_turn (Some ([], defaultNativeTurnOptions))], empty_staging).
Proof. vm_compute. reflexivity. Qed.

Lemma demo_block p b : demo_memory !! p = Some b -> zlen b < 2 ^ 63 -> lent demo_memory p (zlen b).
Proof. intros Hp Hb. by apply readable_lent, readable_whole. Qed.

Lemma demo_history_lent : Forall event_lent demo_history.
Proof.
  assert (Hid : lent demo_memory 1 6) by (by apply (demo_block 1 (utf8_encode (txt "turn-1")))).
  assert (Happ : lent demo_memory 5 6) by (by apply (demo_block 5 (utf8_encode (txt "Finder")))).
  assert (H0 : forall p, lent demo_memory p 0) by (intros p; apply readable_lent, readable_empty).
  assert (Hno : forall size ok, array_lent demo_memory 0 0 size ok)
    by (intros size ok; split; [lia|done]).
  repeat (apply Forall_cons_2; [|]); try apply Forall_nil_2; try done.
  cbn [event_lent call_lent]. split; [done|]. split; [lia|]. intros _. split.
  - right. exists demo_image_array. split; [done|]. reflexivity.
  - apply Forall_singleton. split.
    + by apply (demo_block 2 (utf8_encode (txt "image/png"))).
    + by apply (demo_block 3 [Byte.x89; Byte.x50; Byte.x4e; Byte.x47]).
Qed.

Lemma empty_staging_ok : staging_ok empty_staging.
Proof. intros id. apply nothing_staged_ok. Qed.

Lemma staging_refines_witness :
  exists st', run_events empty_staging demo_history =
    value (fst (spec_events (view empty_staging) demo_history), st').
Proof.
  destruct (staging_refines empty_staging (view empty_staging) demo_history (fun id => eq_refl)
    demo_history_lent) as (st' & Hrun & _). by exists st'.
Defined.

Lemma staging_well_typed_witness :
  Forall admitted_ok [out_status 0; out_status 0; out_status 0; out_status 4;
    out_turn (Some demo_turn); out_turn (Some ([], defaultNativeTurnOptions))].
Proof.
  destruct (staging_well_typed empty_staging demo_history empty_staging_ok demo_history_lent)
    as (outs & st' & Hrun & _ & Ho).
  rewrite demo_history_outputs in Hrun. injection Hrun as <- _. exact Ho.
Defined.
