(* ===== verification/Interactions.v ===== *)
(** * Interactions: questions that a turn asks the host

    A turn that needs a decision calls the host's interaction callback under a lock and then
    waits; the host answers from any thread with [ha_engine_resolve_interaction], or the turn
    is cancelled, or the callback is replaced ([ha_engine_set_interaction_callback] of
    HaskellAgentBridge.h; InteractionState.hs, EngineHostRegistration.hs,
    NativeInteraction.hs, [cancelTurn] of TurnState.hs).  This file has these threads as a
    step relation.  [interaction_answered_once]: every request takes one answer, the one that
    was published for it; [interaction_callback_current]: a replaced callback is not called
    again and leaves no request waiting; [interaction_returns]: an answer that was given
    reaches its turn. *)

From stdpp Require Import base tactics option list gmap strings pretty.
From Stdlib Require Import ZArith Lia.
From coqutil Require Import Byte.
From S2P Require Import Prelude Utf8 AbiLayout HostCall.
#[local] Open Scope Z_scope.

(** ** The header *)

Inductive ha_interaction_kind :=
  | HA_INTERACTION_PLAN_ENTER
  | HA_INTERACTION_PLAN_EXIT
  | HA_INTERACTION_QUESTION.

Definition ha_interaction_kind_value (k : ha_interaction_kind) : Z :=
  match k with
  | HA_INTERACTION_PLAN_ENTER => 1
  | HA_INTERACTION_PLAN_EXIT => 2
  | HA_INTERACTION_QUESTION => 3
  end.

Definition ha_interaction_option : list (string * ctype) :=
  [("label", c_pointer); ("label_length", c_size)]%string.

(** ** Resolutions *)

Record NativeInteractionResolution := {
  interactionSelectedIndex : Z;
  interactionCustomText : option text;
}.

Definition cancelledInteractionResolution : NativeInteractionResolution :=
  {| interactionSelectedIndex := -1; interactionCustomText := None |}.

Record InteractionCallbackTarget := {
  interactionTargetCallback : Z;
  interactionTargetContext : Z;
}.

(** A pending interaction: its number of options, and its waiter, a variable that is filled
    at most once.  Every request makes a waiter of its own, so its number names the request
    too. *)
Record PendingInteraction := {
  pendingInteractionOptionCount : Z;
  pendingInteractionWaiter : nat;
}.

Abbreviation key := (text * text)%type.
Abbreviation waiters := (gmap nat (option NativeInteractionResolution)).

(** [tryPutTMVar]: whether it filled the waiter, and the waiters. *)
Definition try_put (w : nat) (r : NativeInteractionResolution) (ws : waiters) : bool * waiters :=
  match ws !! w with
  | Some None => (true, <[w := Some r]> ws)
  | _ => (false, ws)
  end.

Definition put_all (l : list nat) (r : NativeInteractionResolution) (ws : waiters) : waiters :=
  foldl (fun ws w => snd (try_put w r ws)) ws l.

Definition in_range (count : Z) (r : NativeInteractionResolution) : bool :=
  negb ((interactionSelectedIndex r <? -1) || (count <=? interactionSelectedIndex r)).

(** [resolvePendingInteraction], as one transaction. *)
Definition resolvePendingInteraction (k : key) (r : NativeInteractionResolution)
    (pending : gmap key PendingInteraction) (ws : waiters)
    : bool * gmap key PendingInteraction * waiters :=
  match pending !! k with
  | None => (false, pending, ws)
  | Some interaction =>
      if negb (in_range (pendingInteractionOptionCount interaction) r) then (false, pending, ws)
      else
        let '(published, ws') := try_put (pendingInteractionWaiter interaction) r ws in
        (published, if published then delete k pending else pending, ws')
  end.

(** [cancelPendingInteractions]. *)
Definition pending_waiters (pending : gmap key PendingInteraction) : list nat :=
  pendingInteractionWaiter ∘ snd <$> map_to_list pending.

Definition cancelPendingInteractions (pending : gmap key PendingInteraction) (ws : waiters)
    : gmap key PendingInteraction * waiters :=
  (∅, put_all (pending_waiters pending) cancelledInteractionResolution ws).

(** ** The state *)

(** Where a request is: its callback is being called, it waits, or it has taken its answer
    (or was interrupted) and removes itself. *)
Inductive stage :=
  | Calling
  | Waiting
  | Cleanup (taken : option NativeInteractionResolution).

Record request := {
  rq_turn : text;
  rq_id : text;
  rq_count : Z;
  rq_stage : stage;
}.

Definition rq_key (r : request) : key := (rq_turn r, rq_id r).

Definition at_stage (r : request) (st : stage) : request :=
  Build_request (rq_turn r) (rq_id r) (rq_count r) st.

Record interactions := {
  ia_target : option InteractionCallbackTarget;
  ia_lock : option nat;
  ia_pending : gmap key PendingInteraction;
  ia_waiters : waiters;
  ia_counters : gmap text Z;
  ia_cancelling : list nat;
  ia_requests : gmap nat request;
  ia_next : nat;
}.

Definition interactions_init : interactions :=
  Build_interactions None None ∅ ∅ ∅ [] ∅ 0.

Definition interaction_id (turn : text) (n : Z) : text := turn ++ txt "-interaction-" ++ show_text n.

(** [register]: the state in which the callback of the request is called. *)
Definition register (turn : text) (count : Z) (s : interactions) : text * interactions :=
  let next := default 0 (ia_counters s !! turn) + 1 in
  let id := interaction_id turn next in
  let w := ia_next s in
  (id,
   Build_interactions (ia_target s) (Some w)
     (<[(turn, id) := Build_PendingInteraction count w]> (ia_pending s))
     (<[w := None]> (ia_waiters s)) (<[turn := next]> (ia_counters s)) (ia_cancelling s)
     (<[w := Build_request turn id count Calling]> (ia_requests s)) (S w)).

Definition set_target (t : option InteractionCallbackTarget) (s : interactions) : interactions :=
  let '(pending, ws) := cancelPendingInteractions (ia_pending s) (ia_waiters s) in
  Build_interactions t (ia_lock s) pending ws (ia_counters s) (ia_cancelling s) (ia_requests s)
    (ia_next s).

Definition set_stage (w : nat) (r : request) (st : stage) (s : interactions) : interactions :=
  Build_interactions (ia_target s) (ia_lock s) (ia_pending s) (ia_waiters s) (ia_counters s)
    (ia_cancelling s) (<[w := at_stage r st]> (ia_requests s)) (ia_next s).

Definition unlock (s : interactions) : interactions :=
  Build_interactions (ia_target s) None (ia_pending s) (ia_waiters s) (ia_counters s)
    (ia_cancelling s) (ia_requests s) (ia_next s).

Definition with_pending (pending : gmap key PendingInteraction) (ws : waiters) (s : interactions)
    : interactions :=
  Build_interactions (ia_target s) (ia_lock s) pending ws (ia_counters s) (ia_cancelling s)
    (ia_requests s) (ia_next s).

(** The request leaves, and removes its entry. *)
Definition leave (w : nat) (r : request) (s : interactions) : interactions :=
  Build_interactions (ia_target s) (ia_lock s) (delete (rq_key r) (ia_pending s)) (ia_waiters s)
    (ia_counters s) (ia_cancelling s) (delete w (ia_requests s)) (ia_next s).

(** [cancelTurn], first transaction: the waiters of the turn leave the registry... *)
Definition owned (turn : text) (pending : gmap key PendingInteraction) : gmap key PendingInteraction :=
  filter (fun p => p.1.1 = turn) pending.

Definition collect_turn (turn : text) (s : interactions) : interactions :=
  Build_interactions (ia_target s) (ia_lock s)
    (filter (fun p => p.1.1 <> turn) (ia_pending s)) (ia_waiters s) (ia_counters s)
    (pending_waiters (owned turn (ia_pending s)) ++ ia_cancelling s) (ia_requests s) (ia_next s).

(** ... and second transaction, for some of them: they are told. *)
Definition tell (w : nat) (rest : list nat) (s : interactions) : interactions :=
  Build_interactions (ia_target s) (ia_lock s) (ia_pending s)
    (snd (try_put w cancelledInteractionResolution (ia_waiters s))) (ia_counters s) rest
    (ia_requests s) (ia_next s).

(** ** Steps *)

Inductive event :=
  | ia_set (t : option InteractionCallbackTarget)
  | ia_declined (turn : text)
  | ia_call (t : InteractionCallbackTarget) (w : nat) (k : key) (count : Z)
  | ia_callback_returned (w : nat)
  | ia_abandoned (w : nat)
  | ia_resolve (k : key) (r : NativeInteractionResolution) (published : bool)
  | ia_cancel (turn : text)
  | ia_answer (w : nat) (taken : option NativeInteractionResolution)
  | ia_internal.

Inductive step (s : interactions) : event -> interactions -> Prop :=
  (** The host replaces its callback: when no callback is in flight. *)
  | step_set t : ia_lock s = None -> step s (ia_set t) (set_target t s)
  (** A turn asks: without a callback it gets the default... *)
  | step_declined turn :
      ia_lock s = None -> ia_target s = None -> step s (ia_declined turn) s
  (** ... otherwise it registers and calls, holding the lock. *)
  | step_call t turn count id s' :
      ia_lock s = None -> ia_target s = Some t -> 0 <= count ->
      register turn count s = (id, s') ->
      step s (ia_call t (ia_next s) (turn, id) count) s'
  | step_callback_returned w r :
      ia_requests s !! w = Some r -> rq_stage r = Calling ->
      step s (ia_callback_returned w) (unlock (set_stage w r Waiting s))
  (** The thread was interrupted by the time the callback returned: [onException]. *)
  | step_abandoned w r :
      ia_requests s !! w = Some r -> rq_stage r = Calling ->
      step s (ia_abandoned w) (unlock (leave w r s))
  (** The host answers, on any thread, for any identifiers. *)
  | step_resolve k r published pending ws :
      resolvePendingInteraction k r (ia_pending s) (ia_waiters s) = (published, pending, ws) ->
      step s (ia_resolve k r published) (with_pending pending ws s)
  (** A turn is cancelled. *)
  | step_cancel turn : step s (ia_cancel turn) (collect_turn turn s)
  | step_tell w l1 l2 :
      ia_cancelling s = l1 ++ w :: l2 -> step s ia_internal (tell w (l1 ++ l2) s)
  (** The request takes its answer, or its thread is interrupted, and leaves. *)
  | step_take w r a :
      ia_requests s !! w = Some r -> rq_stage r = Waiting -> ia_waiters s !! w = Some (Some a) ->
      step s ia_internal
        (set_stage w r (Cleanup (Some a)) (with_pending (ia_pending s) (<[w := None]> (ia_waiters s)) s))
  | step_interrupt w r :
      ia_requests s !! w = Some r -> rq_stage r = Waiting ->
      step s ia_internal (set_stage w r (Cleanup None) s)
  | step_leave w r taken :
      ia_requests s !! w = Some r -> rq_stage r = Cleanup taken ->
      step s (ia_answer w taken) (leave w r s).

(** Executions of an engine. *)
Inductive reach : list event -> interactions -> Prop :=
  | reach_init : reach [] interactions_init
  | reach_step tr s e s' : reach tr s -> step s e s' -> reach (tr ++ [e]) s'.

(** ** Traces *)

(** The answers that were published under a key. *)
Fixpoint published (k : key) (tr : list event) : list NativeInteractionResolution :=
  match tr with
  | [] => []
  | ia_resolve k' r true :: tr => if decide (k' = k) then r :: published k tr else published k tr
  | _ :: tr => published k tr
  end.

(** The callback that is installed. *)
Fixpoint installed (tr : list event) (t : option InteractionCallbackTarget)
    : option InteractionCallbackTarget :=
  match tr with
  | [] => t
  | ia_set t' :: tr => installed tr t'
  | _ :: tr => installed tr t
  end.

Definition called (tr : list event) (w : nat) (k : key) (count : Z) : Prop :=
  exists t, In (ia_call t w k count) tr.

(** After the request [w] was called, its turn was cancelled or the callback replaced. *)
Definition retired (tr : list event) (w : nat) (turn : text) : Prop :=
  exists tr1 e tr2, tr = tr1 ++ e :: tr2 /\ (exists k count, called tr1 w k count)
    /\ (e = ia_cancel turn \/ exists t, e = ia_set t).

Lemma ia_published_app k tr tr' : published k (tr ++ tr') = published k tr ++ published k tr'.
Proof.
  induction tr as [|e tr IH]; [done|]. destruct e as [| | | | |k' r [] | | |]; cbn; try done.
  destruct (decide (k' = k)); by rewrite IH.
Qed.

Lemma ia_installed_app tr tr' t : installed (tr ++ tr') t = installed tr' (installed tr t).
Proof. revert t. induction tr as [|e tr IH]; intros t; [done|]. destruct e; cbn; apply IH. Qed.

Lemma called_app tr tr' w k count : called tr w k count -> called (tr ++ tr') w k count.
Proof. intros [t H]. exists t. apply in_or_app. by left. Qed.

Lemma called_last tr e w k count :
  called (tr ++ [e]) w k count -> called tr w k count \/ exists t, e = ia_call t w k count.
Proof.
  intros [t H]. apply in_app_or in H as [H|[->|[]]]; [left|right]; by exists t.
Qed.

Lemma retired_app tr tr' w turn : retired tr w turn -> retired (tr ++ tr') w turn.
Proof.
  intros (tr1 & e & tr2 & -> & H). exists tr1, e, (tr2 ++ tr'). split; [|done].
  by rewrite <- app_assoc.
Qed.

Lemma retired_last tr e w k count turn :
  called tr w k count -> e = ia_cancel turn \/ (exists t, e = ia_set t) ->
  retired (tr ++ [e]) w turn.
Proof. intros Hc He. exists tr, e, []. split; [done|]. split; [by exists k, count|done]. Qed.

(** ** Waiters *)

Lemma try_put_lookup w r ws w' :
  snd (try_put w r ws) !! w' =
  match ws !! w' with
  | Some None => if decide (w' = w) then Some (Some r) else Some None
  | o => o
  end.
Proof.
  unfold try_put. destruct (decide (w' = w)) as [->|Hne].
  - destruct (ws !! w) as [[a|]|] eqn:E; cbn; rewrite ?lookup_insert_eq, ?E; done.
  - destruct (ws !! w) as [[a|]|] eqn:E; cbn; rewrite ?lookup_insert_ne by done;
      by destruct (ws !! w') as [[]|].
Qed.

Lemma put_all_lookup l r ws w :
  put_all l r ws !! w =
  match ws !! w with
  | Some None => if decide (w ∈ l) then Some (Some r) else Some None
  | o => o
  end.
Proof.
  revert ws. induction l as [|x l IH]; intros ws; cbn [put_all foldl].
  - by destruct (ws !! w) as [[a|]|].
  - fold (put_all l r (snd (try_put x r ws))). rewrite IH, try_put_lookup.
    destruct (ws !! w) as [[a|]|]; try done. destruct (decide (w = x)) as [->|Hne].
    + rewrite decide_True by apply list_elem_of_here. done.
    + destruct (decide (w ∈ l)) as [H|H]; [rewrite decide_True|rewrite decide_False]; try done.
      * by apply list_elem_of_further.
      * rewrite elem_of_cons. tauto.
Qed.

Lemma pending_waiters_elem pending w :
  w ∈ pending_waiters pending <->
  exists k p, pending !! k = Some p /\ pendingInteractionWaiter p = w.
Proof.
  unfold pending_waiters. rewrite list_elem_of_fmap. split.
  - intros ([k p] & -> & H). apply elem_of_map_to_list in H. by exists k, p.
  - intros (k & p & H & <-). exists (k, p). split; [done|]. by apply elem_of_map_to_list.
Qed.

(** ** Identifiers *)

Lemma txt_inj s t : txt s = txt t -> s = t.
Proof.
  revert t. induction s as [|a s IH]; intros [|b t]; cbn; try done.
  intros [= Hab Hst]. f_equal; [|by apply IH].
  apply N2Z.inj in Hab. rewrite <- (Ascii.ascii_N_embedding a), <- (Ascii.ascii_N_embedding b).
  by rewrite Hab.
Qed.

Lemma interaction_id_inj turn n n' : interaction_id turn n = interaction_id turn n' -> n = n'.
Proof.
  unfold interaction_id, show_text. intros H.
  apply app_inv_head, app_inv_head, txt_inj in H. by apply (inj pretty) in H.
Qed.

(** ** The invariant *)

Definition taken_of (st : stage) : option NativeInteractionResolution :=
  match st with Cleanup t => t | _ => None end.

(** Where an answer comes from: it was published under the request's key, or the request's
    turn was cancelled or its callback replaced. *)
Definition source (tr : list event) (w : nat) (k : key) (count : Z)
    (a : NativeInteractionResolution) : Prop :=
  (published k tr = [a] /\ in_range count a = true)
  \/ (published k tr = [] /\ a = cancelledInteractionResolution /\ retired tr w k.1).

(** Where the answer of a request is. *)
Inductive located (tr : list event) (s : interactions) (w : nat) (r : request) : Prop :=
  | is_pending :
      ia_pending s !! rq_key r = Some (Build_PendingInteraction (rq_count r) w) ->
      ia_waiters s !! w = Some None -> w ∉ ia_cancelling s -> published (rq_key r) tr = [] ->
      taken_of (rq_stage r) = None -> located tr s w r
  | is_cancelling :
      ia_pending s !! rq_key r = None -> ia_waiters s !! w = Some None ->
      w ∈ ia_cancelling s -> published (rq_key r) tr = [] -> retired tr w (rq_turn r) ->
      taken_of (rq_stage r) = None -> located tr s w r
  | is_answered a :
      ia_pending s !! rq_key r = None -> ia_waiters s !! w = Some (Some a) ->
      source tr w (rq_key r) (rq_count r) a -> taken_of (rq_stage r) = None -> located tr s w r
  | has_taken a :
      ia_pending s !! rq_key r = None -> source tr w (rq_key r) (rq_count r) a ->
      rq_stage r = Cleanup (Some a) -> located tr s w r.

(** A key that was handed out. *)
Definition used (s : interactions) (k : key) : Prop :=
  exists n, n <= default 0 (ia_counters s !! k.1) /\ k.2 = interaction_id k.1 n.

Record inv (tr : list event) (s : interactions) : Prop := {
  inv_called : forall w r, ia_requests s !! w = Some r -> called tr w (rq_key r) (rq_count r);
  inv_used : forall w k count, called tr w k count -> (w < ia_next s)%nat /\ used s k;
  inv_unique : forall w k count w' k' count', called tr w k count -> called tr w' k' count' ->
    w = w' \/ k = k' -> w = w' /\ k = k' /\ count = count';
  inv_pending : forall k p, ia_pending s !! k = Some p ->
    exists r, ia_requests s !! pendingInteractionWaiter p = Some r /\ rq_key r = k
      /\ rq_count r = pendingInteractionOptionCount p;
  inv_located : forall w r, ia_requests s !! w = Some r -> located tr s w r;
  inv_cancelling : forall w, w ∈ ia_cancelling s -> (w < ia_next s)%nat;
  inv_published : forall k, published k tr <> [] -> used s k;
  inv_once : forall k, (length (published k tr) <= 1)%nat;
  inv_lock : forall w r, ia_requests s !! w = Some r -> rq_stage r = Calling -> ia_lock s = Some w;
  inv_target : ia_target s = installed tr None;
}.

Lemma ia_inv_init : inv [] interactions_init.
Proof.
  split; cbn.
  - by intros w r H%lookup_empty_Some.
  - by intros w k count [t []].
  - by intros w k count w' k' count' [t []].
  - by intros k p H%lookup_empty_Some.
  - by intros w r H%lookup_empty_Some.
  - by intros w H%not_elem_of_nil.
  - done.
  - intros k. lia.
  - by intros w r H%lookup_empty_Some.
  - done.
Qed.

Lemma ia_published_quiet k tr e : published k [e] = [] -> published k (tr ++ [e]) = published k tr.
Proof. intros H. by rewrite ia_published_app, H, app_nil_r. Qed.

Lemma source_quiet tr e w k count a :
  source tr w k count a -> published k [e] = [] -> source (tr ++ [e]) w k count a.
Proof.
  intros [[H1 H2]|(H1 & H2 & H3)] He; [left|right]; rewrite ia_published_quiet by done; [done|].
  split; [done|]. split; [done|by apply retired_app].
Qed.

(** A request keeps its place when nothing that concerns it changes. *)
Lemma located_same tr e s s' w r :
  located tr s w r ->
  ia_pending s' !! rq_key r = ia_pending s !! rq_key r ->
  ia_waiters s' !! w = ia_waiters s !! w ->
  (w ∈ ia_cancelling s' <-> w ∈ ia_cancelling s) ->
  published (rq_key r) [e] = [] ->
  located (tr ++ [e]) s' w r.
Proof.
  intros Hl Hp Hw Hc He.
  pose proof (ia_published_quiet (rq_key r) tr e He) as Hpub.
  destruct Hl as [H1 H2 H3 H4 H5|H1 H2 H3 H4 H5 H6|a H1 H2 H3 H4|a H1 H2 H3].
  - apply is_pending; rewrite ?Hp, ?Hw, ?Hpub, ?Hc; done.
  - apply is_cancelling; rewrite ?Hp, ?Hw, ?Hpub, ?Hc; try done. by apply retired_app.
  - apply (is_answered _ _ _ _ a); rewrite ?Hp, ?Hw; try done. by apply source_quiet.
  - apply (has_taken _ _ _ _ a); rewrite ?Hp; try done. by apply source_quiet.
Qed.

Lemma ia_located_stage tr s w r st :
  located tr s w r -> taken_of (rq_stage r) = None -> taken_of st = None ->
  located tr s w (at_stage r st).
Proof.
  intros Hl Ht Hst. destruct Hl as [H1 H2 H3 H4 H5|H1 H2 H3 H4 H5 H6|a H1 H2 H3 H4|a H1 H2 H3].
  - by apply is_pending.
  - by apply is_cancelling.
  - by apply (is_answered _ _ _ _ a).
  - by rewrite H3 in Ht.
Qed.

(** Two live requests have different keys. *)
Lemma live_key tr s w w' r r' :
  inv tr s -> ia_requests s !! w = Some r -> ia_requests s !! w' = Some r' ->
  rq_key r = rq_key r' -> w = w'.
Proof.
  intros I Hr Hr' Hk.
  by destruct (inv_unique _ _ I _ _ _ _ _ _ (inv_called _ _ I _ _ Hr) (inv_called _ _ I _ _ Hr'))
    as [? _]; [right|].
Qed.

(** A pending entry is that of its request. *)
Lemma pending_is tr s w r p :
  inv tr s -> ia_requests s !! w = Some r -> ia_pending s !! rq_key r = Some p ->
  p = Build_PendingInteraction (rq_count r) w.
Proof.
  intros I Hr Hp. destruct (inv_located _ _ I _ _ Hr) as [H1|H1|a H1|a H1]; congruence.
Qed.

(** An entry of the registry: its request, whose waiter is empty and to which nothing was
    published. *)
Lemma pending_open tr s k p :
  inv tr s -> ia_pending s !! k = Some p ->
  exists r, ia_requests s !! pendingInteractionWaiter p = Some r /\ rq_key r = k
    /\ rq_count r = pendingInteractionOptionCount p
    /\ ia_waiters s !! pendingInteractionWaiter p = Some None
    /\ (pendingInteractionWaiter p ∉ ia_cancelling s) /\ published k tr = []
    /\ taken_of (rq_stage r) = None.
Proof.
  intros I Hp. destruct (inv_pending _ _ I _ _ Hp) as (r & Hr & <- & Hc). exists r.
  destruct (inv_located _ _ I _ _ Hr) as [H1 H2 H3 H4 H5|H1|a H1|a H1]; try congruence.
  by repeat split.
Qed.

(** Steps that neither call nor publish nor install: what they must keep. *)
Definition silent (e : event) : Prop :=
  match e with
  | ia_set _ | ia_call _ _ _ _ | ia_resolve _ _ true => False
  | _ => True
  end.

Lemma silent_called tr e w k count : silent e -> called (tr ++ [e]) w k count -> called tr w k count.
Proof. intros Hs [?|[t ->]]%called_last; [done|by destruct Hs]. Qed.

Lemma silent_published tr e k : silent e -> published k (tr ++ [e]) = published k tr.
Proof. rewrite ia_published_app. destruct e as [| | | | |? ? []| | |]; cbn; try done; by rewrite app_nil_r. Qed.

Lemma silent_installed tr e t : silent e -> installed (tr ++ [e]) t = installed tr t.
Proof. rewrite ia_installed_app. by destruct e. Qed.

(** What a step that makes no call must establish. *)
Lemma inv_moves tr s e s' :
  inv tr s ->
  (forall w k count, called (tr ++ [e]) w k count -> called tr w k count) ->
  (forall k, published k [e] = []
     \/ used s k /\ published k tr = [] /\ (length (published k [e]) <= 1)%nat) ->
  ia_counters s' = ia_counters s -> ia_next s' = ia_next s ->
  ia_target s' = installed (tr ++ [e]) None ->
  (forall w r, ia_requests s' !! w = Some r ->
     exists r0, ia_requests s !! w = Some r0 /\ rq_key r = rq_key r0 /\ rq_count r = rq_count r0
       /\ located (tr ++ [e]) s' w r
       /\ (rq_stage r = Calling -> ia_lock s' = Some w)) ->
  (forall k p, ia_pending s' !! k = Some p ->
     ia_pending s !! k = Some p /\ is_Some (ia_requests s' !! pendingInteractionWaiter p)) ->
  (forall w, w ∈ ia_cancelling s' -> (w < ia_next s)%nat) ->
  inv (tr ++ [e]) s'.
Proof.
  intros I He Hpub Hc Hn Ht Hlive Hpend Hcan. split; [..|done].
  - intros w r Hr. destruct (Hlive w r Hr) as (r0 & Hr0 & -> & -> & _).
    by apply called_app, (inv_called _ _ I).
  - intros w k count H%He. rewrite Hn. unfold used. rewrite Hc. by apply (inv_used _ _ I) in H.
  - intros w k count w' k' count' H%He H'%He. by apply (inv_unique _ _ I).
  - intros k p Hp. destruct (Hpend k p Hp) as [Hp0 [r Hr]].
    destruct (Hlive _ _ Hr) as (r0 & Hr0 & E1 & E2 & _).
    destruct (inv_pending _ _ I _ _ Hp0) as (r1 & Hr1 & Hk & Hcount).
    exists r. split; [done|]. rewrite E1, E2. by simplify_eq.
  - intros w r Hr. by destruct (Hlive w r Hr) as (_ & _ & _ & _ & ? & _).
  - intros w Hw. rewrite Hn. by apply Hcan.
  - intros k. rewrite ia_published_app. unfold used. rewrite Hc. intros Hne.
    destruct (Hpub k) as [E|[Hu _]]; [|done]. apply (inv_published _ _ I).
    by rewrite E, app_nil_r in Hne.
  - intros k. rewrite ia_published_app, length_app. pose proof (inv_once _ _ I k).
    destruct (Hpub k) as [E|(_ & E & ?)]; rewrite E;
      change (length (@nil NativeInteractionResolution)) with 0%nat; lia.
  - intros w r Hr Hst. destruct (Hlive w r Hr) as (_ & _ & _ & _ & _ & H). by apply H.
Qed.

Lemma inv_silent tr s e s' :
  inv tr s -> silent e ->
  ia_counters s' = ia_counters s -> ia_next s' = ia_next s -> ia_target s' = ia_target s ->
  (forall w r, ia_requests s' !! w = Some r ->
     exists r0, ia_requests s !! w = Some r0 /\ rq_key r = rq_key r0 /\ rq_count r = rq_count r0
       /\ located (tr ++ [e]) s' w r
       /\ (rq_stage r = Calling -> ia_lock s' = Some w)) ->
  (forall k p, ia_pending s' !! k = Some p ->
     ia_pending s !! k = Some p /\ is_Some (ia_requests s' !! pendingInteractionWaiter p)) ->
  (forall w, w ∈ ia_cancelling s' -> (w < ia_next s)%nat) ->
  inv (tr ++ [e]) s'.
Proof.
  intros I He Hc Hn Ht Hlive Hpend Hcan. apply (inv_moves tr s); try done.
  - intros w k count. by apply silent_called.
  - intros k. left. apply (app_inv_head (published k tr)).
    rewrite <- ia_published_app, app_nil_r. by apply silent_published.
  - by rewrite Ht, silent_installed, (inv_target _ _ I).
Qed.

(** Steps of one request: it changes its stage, or leaves. *)
Lemma inv_own_step tr s e s' w r (new : option stage) :
  inv tr s -> silent e -> ia_requests s !! w = Some r ->
  ia_counters s' = ia_counters s -> ia_next s' = ia_next s -> ia_target s' = ia_target s ->
  ia_cancelling s' = ia_cancelling s ->
  (ia_lock s' = ia_lock s \/ rq_stage r = Calling) ->
  (forall w', w' <> w -> ia_waiters s' !! w' = ia_waiters s !! w') ->
  match new with
  | Some st => ia_requests s' = <[w := at_stage r st]> (ia_requests s)
      /\ ia_pending s' = ia_pending s /\ st <> Calling
      /\ located (tr ++ [e]) s' w (at_stage r st)
  | None => ia_requests s' = delete w (ia_requests s)
      /\ ia_pending s' = delete (rq_key r) (ia_pending s)
  end ->
  inv (tr ++ [e]) s'.
Proof.
  intros I He Hr Hc Hn Ht Hcan Hlock Hw Hnew.
  assert (Hpub : forall k, published k [e] = [])
    by (intros k; apply (app_inv_head (published k tr)); rewrite <- ia_published_app, app_nil_r;
        by apply silent_published).
  assert (Hother : forall w' r', w' <> w -> ia_requests s !! w' = Some r' ->
            ia_pending s' !! rq_key r' = ia_pending s !! rq_key r' ->
            located (tr ++ [e]) s' w' r' /\ (rq_stage r' = Calling -> ia_lock s' = Some w')).
  { intros w' r' Hne Hr' Hp'. split.
    - apply (located_same tr e s); [by apply (inv_located _ _ I)|done|by apply Hw|by rewrite Hcan|done].
    - intros Hst. pose proof (inv_lock _ _ I _ _ Hr' Hst) as Hl. destruct Hlock as [->|Hcall]; [done|].
      pose proof (inv_lock _ _ I _ _ Hr Hcall). congruence. }
  assert (Hkey : forall w' r', w' <> w -> ia_requests s !! w' = Some r' -> rq_key r' <> rq_key r)
    by (intros w' r' Hne Hr' Hk; by apply Hne, (live_key tr s _ _ r' r)).
  apply (inv_silent tr s); try done.
  - intros w' r' Hr'. destruct (decide (w' = w)) as [->|Hne]; destruct new as [st|].
    + destruct Hnew as (Hreq & _ & Hst & Hl). rewrite Hreq, lookup_insert_eq in Hr'.
      injection Hr' as <-. by exists r.
    + destruct Hnew as [Hreq _]. by rewrite Hreq, lookup_delete_eq in Hr'.
    + destruct Hnew as (Hreq & Hp & _). rewrite Hreq, lookup_insert_ne in Hr' by done.
      exists r'. do 3 (split; [done|]). apply Hother; [done|done|by rewrite Hp].
    + destruct Hnew as [Hreq Hp]. rewrite Hreq, lookup_delete_ne in Hr' by done.
      exists r'. do 3 (split; [done|]). apply Hother; [done|done|].
      rewrite Hp. apply lookup_delete_ne. intros Hk. by apply (Hkey w' r').
  - intros k p Hp'. assert (Hp : ia_pending s !! k = Some p).
    { destruct new as [st|]; [by destruct Hnew as (_ & <- & _)|].
      destruct Hnew as [_ Hd]. rewrite Hd in Hp'. by apply lookup_delete_Some in Hp' as [_ ?]. }
    split; [done|]. destruct (inv_pending _ _ I _ _ Hp) as (r0 & Hr0 & Hk & _).
    destruct new as [st|].
    + destruct Hnew as (Hreq & _). rewrite Hreq.
      destruct (decide (pendingInteractionWaiter p = w)) as [->|Hne];
        [by rewrite lookup_insert_eq|by rewrite lookup_insert_ne, Hr0].
    + destruct Hnew as [Hreq Hd]. rewrite Hd in Hp'. apply lookup_delete_Some in Hp' as [Hne _].
      rewrite Hreq, lookup_delete_ne, Hr0 by congruence. done.
  - intros w' Hw'. rewrite Hcan in Hw'. by apply (inv_cancelling _ _ I).
Qed.

Lemma inv_callback_returned tr s w r :
  inv tr s -> ia_requests s !! w = Some r -> rq_stage r = Calling ->
  inv (tr ++ [ia_callback_returned w]) (unlock (set_stage w r Waiting s)).
Proof.
  intros I Hr Hst. apply (inv_own_step tr s _ _ w r (Some Waiting)); try done; [by right|].
  do 3 (split; [done|]). apply (located_same tr _ s); try done.
  apply ia_located_stage; [by apply (inv_located _ _ I)|by rewrite Hst|done].
Qed.

Lemma inv_abandoned tr s w r :
  inv tr s -> ia_requests s !! w = Some r -> rq_stage r = Calling ->
  inv (tr ++ [ia_abandoned w]) (unlock (leave w r s)).
Proof. intros I Hr Hst. apply (inv_own_step tr s _ _ w r None); try done. by right. Qed.

Lemma inv_interrupt tr s w r :
  inv tr s -> ia_requests s !! w = Some r -> rq_stage r = Waiting ->
  inv (tr ++ [ia_internal]) (set_stage w r (Cleanup None) s).
Proof.
  intros I Hr Hst. apply (inv_own_step tr s _ _ w r (Some (Cleanup None))); try done; [by left|].
  do 3 (split; [done|]). apply (located_same tr _ s); try done.
  apply ia_located_stage; [by apply (inv_located _ _ I)|by rewrite Hst|done].
Qed.

Lemma ia_inv_leave tr s w r taken :
  inv tr s -> ia_requests s !! w = Some r -> rq_stage r = Cleanup taken ->
  inv (tr ++ [ia_answer w taken]) (leave w r s).
Proof. intros I Hr Hst. apply (inv_own_step tr s _ _ w r None); try done. by left. Qed.

Lemma ia_inv_take tr s w r a :
  inv tr s -> ia_requests s !! w = Some r -> rq_stage r = Waiting ->
  ia_waiters s !! w = Some (Some a) ->
  inv (tr ++ [ia_internal])
    (set_stage w r (Cleanup (Some a)) (with_pending (ia_pending s) (<[w := None]> (ia_waiters s)) s)).
Proof.
  intros I Hr Hst Hfull.
  apply (inv_own_step tr s _ _ w r (Some (Cleanup (Some a)))); try done; [by left| |].
  - intros w' Hne. cbn. by rewrite lookup_insert_ne.
  - do 3 (split; [done|]).
    destruct (inv_located _ _ I _ _ Hr) as [H1 H2|H1 H2|b H1 H2 H3 H4|b H1 H2 H3]; try congruence.
    assert (b = a) as -> by congruence.
    apply (has_taken _ _ _ _ a); [done| |done]. by apply source_quiet.
Qed.

(** Steps that move entries of the registry and fill waiters: every request must be found
    again. *)
Lemma inv_relocate tr s e s' :
  inv tr s ->
  (forall w k count, called (tr ++ [e]) w k count -> called tr w k count) ->
  (forall k, published k [e] = []
     \/ used s k /\ published k tr = [] /\ (length (published k [e]) <= 1)%nat) ->
  ia_counters s' = ia_counters s -> ia_next s' = ia_next s -> ia_requests s' = ia_requests s ->
  ia_lock s' = ia_lock s -> ia_target s' = installed (tr ++ [e]) None ->
  (forall k p, ia_pending s' !! k = Some p -> ia_pending s !! k = Some p) ->
  (forall w, w ∈ ia_cancelling s' -> (w < ia_next s)%nat) ->
  (forall w r, ia_requests s !! w = Some r -> located (tr ++ [e]) s' w r) ->
  inv (tr ++ [e]) s'.
Proof.
  intros I He Hpub Hc Hn Hreq Hlock Ht Hpend Hcan Hloc. apply (inv_moves tr s); try done.
  - intros w r Hr. rewrite Hreq in Hr. exists r. do 3 (split; [done|]).
    split; [by apply Hloc|]. rewrite Hlock. by apply (inv_lock _ _ I).
  - intros k p Hp%Hpend. split; [done|].
    destruct (inv_pending _ _ I _ _ Hp) as (r & Hr & _). by rewrite Hreq, Hr.
Qed.

Lemma pending_used tr s k p : inv tr s -> ia_pending s !! k = Some p -> used s k.
Proof.
  intros I Hp. destruct (inv_pending _ _ I _ _ Hp) as (r & Hr & <- & _).
  by destruct (inv_used _ _ I _ _ _ (inv_called _ _ I _ _ Hr)).
Qed.

(** Filling waiters keeps the place of a request whose own waiter is not filled. *)
Lemma ia_inv_set tr s t :
  inv tr s -> ia_lock s = None -> inv (tr ++ [ia_set t]) (set_target t s).
Proof.
  intros I Hl. apply (inv_relocate tr s); try done.
  - intros w k count [?|[? ?]]%called_last; done.
  - intros k. by left.
  - by rewrite ia_installed_app.
  - intros w. apply (inv_cancelling _ _ I).
  - intros w r Hr.
    pose proof (ia_published_quiet (rq_key r) tr (ia_set t) eq_refl) as Hpub.
    pose proof (inv_called _ _ I _ _ Hr) as Hcall.
    destruct (inv_located _ _ I _ _ Hr) as [H1 H2 H3 H4 H5|H1 H2 H3 H4 H5 H6|a H1 H2 H3 H4|a H1 H2 H3].
    + apply (is_answered _ _ _ _ cancelledInteractionResolution); [done| | |done].
      * cbn. rewrite put_all_lookup, H2, decide_True; [done|].
        apply pending_waiters_elem. by eexists _, _.
      * right. rewrite Hpub. split; [done|]. split; [done|]. eapply retired_last; [done|].
        right. by exists t.
    + apply is_cancelling; [done| |done|by rewrite Hpub|by apply retired_app|done].
      cbn. rewrite put_all_lookup, H2, decide_False; [done|].
      intros (k & p & Hp & Hw)%pending_waiters_elem.
      destruct (pending_open _ _ _ _ I Hp) as (r' & Hr' & Hk & _). rewrite Hw in Hr'. congruence.
    + apply (is_answered _ _ _ _ a); [done| |by apply source_quiet|done].
      cbn. by rewrite put_all_lookup, H2.
    + apply (has_taken _ _ _ _ a); [done|by apply source_quiet|done].
Qed.

Lemma resolve_false k r pending ws pending' ws' :
  resolvePendingInteraction k r pending ws = (false, pending', ws') -> pending' = pending /\ ws' = ws.
Proof.
  unfold resolvePendingInteraction, try_put. destruct (pending !! k) as [i|]; [|by intros [= <- <-]].
  destruct (in_range _ r); cbn [negb]; [|by intros [= <- <-]].
  destruct (ws !! _) as [[a|]|]; by intros [= <- <-].
Qed.

Lemma resolve_true k r pending ws pending' ws' :
  resolvePendingInteraction k r pending ws = (true, pending', ws') ->
  exists i, pending !! k = Some i /\ in_range (pendingInteractionOptionCount i) r = true
    /\ ws !! pendingInteractionWaiter i = Some None
    /\ pending' = delete k pending /\ ws' = <[pendingInteractionWaiter i := Some r]> ws.
Proof.
  unfold resolvePendingInteraction, try_put. destruct (pending !! k) as [i|]; [|done].
  destruct (in_range _ r) eqn:Hr; cbn [negb]; [|done].
  destruct (ws !! _) as [[a|]|] eqn:Hw; [done| |done]. intros [= <- <-]. by exists i.
Qed.

Lemma inv_resolve_ignored tr s k r :
  inv tr s -> inv (tr ++ [ia_resolve k r false]) (with_pending (ia_pending s) (ia_waiters s) s).
Proof.
  intros I. apply (inv_relocate tr s); try done.
  - intros w k' count. by apply silent_called.
  - intros k'. by left.
  - by rewrite ia_installed_app, <- (inv_target _ _ I).
  - intros w. apply (inv_cancelling _ _ I).
  - intros w r' Hr. apply (located_same tr _ s); try done. by apply (inv_located _ _ I).
Qed.

Lemma inv_resolve_published tr s k r i :
  inv tr s -> ia_pending s !! k = Some i -> in_range (pendingInteractionOptionCount i) r = true ->
  inv (tr ++ [ia_resolve k r true])
    (with_pending (delete k (ia_pending s))
       (<[pendingInteractionWaiter i := Some r]> (ia_waiters s)) s).
Proof.
  intros I Hi Hin. destruct (pending_open _ _ _ _ I Hi) as (q & Hq & Hk & Hc & Hw & Hnc & Hp & Ht).
  apply (inv_relocate tr s); try done.
  - intros w k' count [?|[? ?]]%called_last; done.
  - intros k'. cbn. destruct (decide (k = k')) as [<-|]; [right|by left].
    split; [by eapply pending_used|]. split; [done|cbn; lia].
  - by rewrite ia_installed_app, <- (inv_target _ _ I).
  - intros k' p Hp'. cbn in Hp'. by apply lookup_delete_Some in Hp' as [_ ?].
  - intros w. apply (inv_cancelling _ _ I).
  - intros w r' Hr. destruct (decide (w = pendingInteractionWaiter i)) as [->|Hne].
    + assert (r' = q) as -> by congruence. apply (is_answered _ _ _ _ r); [| | |done].
      * cbn. by rewrite Hk, lookup_delete_eq.
      * cbn. by rewrite lookup_insert_eq.
      * left. rewrite ia_published_app, Hk, Hp. cbn. rewrite decide_True by done. by rewrite Hc.
    + assert (rq_key r' <> k) as Hkey.
      { intros E. apply Hne, (live_key tr s _ _ r' q I Hr Hq). by rewrite Hk. }
      apply (located_same tr _ s); [by apply (inv_located _ _ I)|cbn..].
      * by rewrite lookup_delete_ne.
      * by rewrite lookup_insert_ne.
      * done.
      * by rewrite decide_False.
Qed.

Lemma inv_cancel tr s turn :
  inv tr s -> inv (tr ++ [ia_cancel turn]) (collect_turn turn s).
Proof.
  intros I. apply (inv_relocate tr s); try done.
  - intros w k count. by apply silent_called.
  - intros k. by left.
  - by rewrite ia_installed_app, <- (inv_target _ _ I).
  - intros k p Hp. by apply map_lookup_filter_Some in Hp as [? _].
  - intros w [(k & p & Hp & <-)%pending_waiters_elem|Hw]%elem_of_app; [|by apply (inv_cancelling _ _ I)].
    apply map_lookup_filter_Some in Hp as [Hp _].
    destruct (pending_open _ _ _ _ I Hp) as (r & Hr & _).
    by apply (inv_used _ _ I _ _ _ (inv_called _ _ I _ _ Hr)).
  - intros w r Hr. assert (Hin : forall p, ia_pending s !! rq_key r = Some p -> rq_turn r = turn ->
              w ∈ ia_cancelling (collect_turn turn s)).
    { intros p Hp Htn. cbn. apply elem_of_app. left. apply pending_waiters_elem.
      exists (rq_key r), p. split; [by apply map_lookup_filter_Some|].
      by rewrite (pending_is _ _ _ _ _ I Hr Hp). }
    assert (Hmore : w ∈ ia_cancelling (collect_turn turn s) ->
              w ∈ ia_cancelling s \/ exists p, ia_pending s !! rq_key r = Some p /\ rq_turn r = turn).
    { cbn. intros [(k & p & Hp & Hw)%pending_waiters_elem|?]%elem_of_app; [right|by left].
      apply map_lookup_filter_Some in Hp as [Hp Hk].
      destruct (pending_open _ _ _ _ I Hp) as (r' & Hr' & <- & _). rewrite Hw in Hr'.
      assert (r' = r) as -> by congruence. by exists p. }
    pose proof (inv_located _ _ I _ _ Hr) as Hl.
    destruct (decide (rq_turn r = turn)) as [Htn|Htn]; cycle 1.
    { apply (located_same tr _ s); [done| |done| |done].
      - cbn. destruct (ia_pending s !! rq_key r) as [p|] eqn:Hp.
        + by apply map_lookup_filter_Some.
        + apply map_lookup_filter_None. by left.
      - split; [intros [?|(p & _ & ?)]%Hmore; done|]. intros Hw. cbn. apply elem_of_app. by right. }
    assert (Hnone : ia_pending (collect_turn turn s) !! rq_key r = None)
      by (apply map_lookup_filter_None; right; by intros p _ ?).
    pose proof (ia_published_quiet (rq_key r) tr (ia_cancel turn) eq_refl) as Hpub.
    destruct Hl as [H1 H2 H3 H4 H5|H1 H2 H3 H4 H5 H6|a H1 H2 H3 H4|a H1 H2 H3].
    + apply is_cancelling; [done|done|by eapply Hin|by rewrite Hpub| |done].
      eapply retired_last; [by apply (inv_called _ _ I)|]. left. by rewrite Htn.
    + apply is_cancelling; [done|done| |by rewrite Hpub|by apply retired_app|done].
      cbn. apply elem_of_app. by right.
    + apply (is_answered _ _ _ _ a); [done|done|by apply source_quiet|done].
    + apply (has_taken _ _ _ _ a); [done|by apply source_quiet|done].
Qed.

Lemma inv_tell tr s w l1 l2 :
  inv tr s -> ia_cancelling s = l1 ++ w :: l2 -> inv (tr ++ [ia_internal]) (tell w (l1 ++ l2) s).
Proof.
  intros I Hl. assert (Hsub : forall x, x ∈ l1 ++ l2 -> x ∈ ia_cancelling s)
    by (intros x; rewrite Hl, !elem_of_app, elem_of_cons; tauto).
  apply (inv_relocate tr s); try done.
  - intros w' k count. by apply silent_called.
  - intros k. by left.
  - by rewrite ia_installed_app, <- (inv_target _ _ I).
  - intros x Hx%Hsub. by apply (inv_cancelling _ _ I).
  - intros x r Hr. pose proof (ia_published_quiet (rq_key r) tr ia_internal eq_refl) as Hpub.
    assert (Hother : forall o, ia_waiters s !! x = Some (Some o) ->
              ia_waiters (tell w (l1 ++ l2) s) !! x = Some (Some o))
      by (intros o Ho; cbn; by rewrite try_put_lookup, Ho).
    destruct (inv_located _ _ I _ _ Hr) as [H1 H2 H3 H4 H5|H1 H2 H3 H4 H5 H6|a H1 H2 H3 H4|a H1 H2 H3].
    + apply is_pending; [done| | |by rewrite Hpub|done].
      * cbn. rewrite try_put_lookup, H2, decide_False; [done|]. intros ->. apply H3.
        rewrite Hl. apply elem_of_app. right. apply list_elem_of_here.
      * by intros ?%Hsub.
    + destruct (decide (x = w)) as [->|Hne].
      * apply (is_answered _ _ _ _ cancelledInteractionResolution); [done| | |done].
        -- cbn. by rewrite try_put_lookup, H2, decide_True.
        -- right. rewrite Hpub. split; [done|]. split; [done|by apply retired_app].
      * apply is_cancelling; [done| | |by rewrite Hpub|by apply retired_app|done].
        -- cbn. by rewrite try_put_lookup, H2, decide_False.
        -- cbn. rewrite Hl, elem_of_app, elem_of_cons in H3. apply elem_of_app. tauto.
    + apply (is_answered _ _ _ _ a); [done|by apply Hother|by apply source_quiet|done].
    + apply (has_taken _ _ _ _ a); [done|by apply source_quiet|done].
Qed.

Lemma called_new tr t w k count w' k' count' :
  called (tr ++ [ia_call t w k count]) w' k' count' ->
  called tr w' k' count' \/ (w' = w /\ k' = k /\ count' = count).
Proof. intros [?|[t' [= _ <- <- <-]]]%called_last; [by left|by right]. Qed.

(** The next identifier of a turn was never handed out. *)
Lemma next_unused s turn :
  ~ used s (turn, interaction_id turn (default 0 (ia_counters s !! turn) + 1)).
Proof. intros (n & Hn & E). cbn in *. apply interaction_id_inj in E. lia. Qed.

Lemma ia_inv_call tr s t turn count id s' :
  inv tr s -> ia_lock s = None -> ia_target s = Some t -> register turn count s = (id, s') ->
  inv (tr ++ [ia_call t (ia_next s) (turn, id) count]) s'.
Proof.
  intros I Hlock Ht. unfold register. intros [= <- <-].
  set (n := default 0 (ia_counters s !! turn) + 1). set (id := interaction_id turn n).
  set (k := (turn, id)). pose proof (next_unused s turn) as Hnew. fold n in Hnew.
  fold id in Hnew. fold k in Hnew.
  assert (Hold : forall w' k' c, called tr w' k' c -> w' <> ia_next s /\ k' <> k).
  { intros w' k' c [Hw Hu]%(inv_used _ _ I). split; [lia|]. by intros ->. }
  assert (Hlive : forall w r, ia_requests s !! w = Some r -> w <> ia_next s /\ rq_key r <> k)
    by (intros w r Hr; eapply Hold, (inv_called _ _ I), Hr).
  assert (Hused : forall k', used s k' ->
            exists m, m <= default 0 (<[turn := n]> (ia_counters s) !! k'.1)
              /\ k'.2 = interaction_id k'.1 m).
  { intros k' (m & Hm & E). exists m. split; [|done]. destruct (decide (k'.1 = turn)) as [Ek|Ek].
    - rewrite Ek in *. rewrite lookup_insert_eq. cbn. unfold n. lia.
    - by rewrite lookup_insert_ne. }
  assert (Hpub : forall k', published k' (tr ++ [ia_call t (ia_next s) k count]) = published k' tr)
    by (intros k'; by apply ia_published_quiet).
  split; cbn [ia_requests ia_next ia_pending ia_waiters ia_cancelling ia_lock ia_target ia_counters].
  - intros w r [[<- <-]|[Hne Hr]]%lookup_insert_Some.
    + exists t. apply in_or_app. right. by left.
    + by apply called_app, (inv_called _ _ I).
  - intros w k' c [H|(-> & -> & ->)]%called_new.
    + destruct (inv_used _ _ I _ _ _ H) as [Hw Hu]. split; [lia|]. by apply Hused.
    + split; [lia|]. exists n. cbn. by rewrite lookup_insert_eq.
  - intros w k' c w' k'' c' [H|(-> & -> & ->)]%called_new [H'|(-> & -> & ->)]%called_new.
    + by apply (inv_unique _ _ I).
    + destruct (Hold _ _ _ H). by intros [?|?].
    + destruct (Hold _ _ _ H'). by intros [?|?].
    + done.
  - intros k' p [[<- <-]|[Hne Hp]]%lookup_insert_Some.
    + cbn. rewrite lookup_insert_eq. by eexists.
    + destruct (inv_pending _ _ I _ _ Hp) as (r & Hr & Hk & Hc).
      destruct (Hlive _ _ Hr) as [Hw _]. rewrite lookup_insert_ne by done. by exists r.
  - intros w r [[<- <-]|[Hne Hr]]%lookup_insert_Some.
    + apply is_pending; cbn.
      * by rewrite lookup_insert_eq.
      * by rewrite lookup_insert_eq.
      * intros Hw. apply (inv_cancelling _ _ I) in Hw. lia.
      * rewrite Hpub. destruct (published k tr) eqn:E; [done|exfalso].
        apply Hnew, (inv_published _ _ I). by rewrite E.
      * done.
    + destruct (Hlive _ _ Hr) as [Hw Hk].
      apply (located_same tr _ s); [by apply (inv_located _ _ I)|cbn..]; try done.
      * by rewrite lookup_insert_ne.
      * by rewrite lookup_insert_ne.
  - intros w Hw. apply (inv_cancelling _ _ I) in Hw. lia.
  - intros k'. rewrite Hpub. intros Hu. by apply Hused, (inv_published _ _ I).
  - intros k'. rewrite Hpub. apply (inv_once _ _ I).
  - intros w r [[<- <-]|[Hne Hr]]%lookup_insert_Some; [done|].
    intros Hst. rewrite (inv_lock _ _ I _ _ Hr Hst) in Hlock. done.
  - by rewrite ia_installed_app, <- (inv_target _ _ I).
Qed.

Lemma ia_inv_step tr s e s' : inv tr s -> step s e s' -> inv (tr ++ [e]) s'.
Proof.
  intros I [ | |? ? ? ? ? ? ? ? Hreg| | |k r [] pending ws Hres| | | | |].
  - by apply ia_inv_set.
  - apply (inv_relocate tr s); try done.
    + intros w k count. by apply silent_called.
    + intros k. by left.
    + by rewrite ia_installed_app, <- (inv_target _ _ I).
    + intros w. apply (inv_cancelling _ _ I).
    + intros w r Hr. apply (located_same tr _ s); try done. by apply (inv_located _ _ I).
  - by eapply ia_inv_call.
  - by apply inv_callback_returned.
  - by apply inv_abandoned.
  - apply resolve_true in Hres as (i & Hi & Hin & _ & -> & ->). by apply inv_resolve_published.
  - apply resolve_false in Hres as [-> ->]. by apply inv_resolve_ignored.
  - by apply inv_cancel.
  - by apply inv_tell.
  - by apply ia_inv_take.
  - by apply inv_interrupt.
  - by apply ia_inv_leave.
Qed.

Lemma ia_reach_inv tr s : reach tr s -> inv tr s.
Proof. induction 1 as [|tr s e s' _ IH Hs]; [apply ia_inv_init|by eapply ia_inv_step]. Qed.

(** ** What every execution guarantees *)

(** The ends of a request. *)
Fixpoint answers (w : nat) (tr : list event) : list (option NativeInteractionResolution) :=
  match tr with
  | [] => []
  | ia_answer w' t :: tr => if decide (w' = w) then t :: answers w tr else answers w tr
  | _ :: tr => answers w tr
  end.

Lemma answers_app w tr tr' : answers w (tr ++ tr') = answers w tr ++ answers w tr'.
Proof.
  induction tr as [|e tr IH]; [done|]. destruct e; cbn; try done.
  destruct (decide _); by rewrite IH.
Qed.

(** A request that has left does not come back. *)
Lemma step_dead s e s' w :
  step s e s' -> ia_requests s !! w = None -> (w < ia_next s)%nat ->
  ia_requests s' !! w = None /\ (w < ia_next s')%nat.
Proof.
  intros Hs Hw Hn. destruct Hs as [ | |? ? ? ? ? ? ? ? Hreg| | |? ? ? ? ? ?| | | | |]; cbn; try done.
  - unfold register in Hreg. injection Hreg as _ <-. cbn. split; [|lia].
    rewrite lookup_insert_ne by lia. done.
  - split; [|done]. apply lookup_insert_None. split; [done|]. by intros ->; simplify_eq.
  - split; [|done]. apply lookup_delete_None. by right.
  - split; [|done]. apply lookup_insert_None. split; [done|]. by intros ->; simplify_eq.
  - split; [|done]. apply lookup_insert_None. split; [done|]. by intros ->; simplify_eq.
  - split; [|done]. apply lookup_delete_None. by right.
Qed.

(** What was published to a request that has left does not change. *)
Lemma step_published_dead tr s e s' w k count :
  inv tr s -> step s e s' -> called tr w k count -> ia_requests s !! w = None ->
  published k [e] = [].
Proof.
  intros I Hs Hc Hw. destruct Hs as [ | | | | |k' r [] ? ? Hres| | | | |]; try done. cbn.
  apply resolve_true in Hres as (i & Hi & _). destruct (decide (k' = k)) as [->|]; [exfalso|done].
  destruct (pending_open _ _ _ _ I Hi) as (q & Hq & Hk & _).
  pose proof (inv_called _ _ I _ _ Hq) as Hc'. rewrite Hk in Hc'.
  destruct (inv_unique _ _ I _ _ _ _ _ _ Hc Hc') as [-> _]; [by right|]. by rewrite Hw in Hq.
Qed.

(** A request that has answered has left, with an answer that is still accounted for. *)
Lemma answers_accounted tr s w :
  reach tr s -> answers w tr <> [] ->
  exists t k count, answers w tr = [t] /\ ia_requests s !! w = None /\ (w < ia_next s)%nat
    /\ called tr w k count /\ forall a, t = Some a -> source tr w k count a.
Proof.
  induction 1 as [|tr s e s' Hr IH Hs]; [done|]. rewrite answers_app. intros Hne.
  pose proof (ia_reach_inv _ _ Hr) as I.
  destruct (answers w tr) as [|t0 ts] eqn:E.
  - cbn [app] in *. destruct Hs as [ | | | | | | | | | |w' r taken Hr0 Hst]; try done.
    cbn in *. destruct (decide (w' = w)) as [->|]; [|done].
    pose proof (inv_called _ _ I _ _ Hr0) as Hc.
    exists taken, (rq_key r), (rq_count r). split; [done|]. split; [by rewrite lookup_delete_eq|].
    split; [by apply (inv_used _ _ I) in Hc as [? _]|]. split; [by apply called_app|].
    intros a ->. apply source_quiet; [|done].
    destruct (inv_located _ _ I _ _ Hr0) as [H1 H2 H3 H4 H5|H1 H2 H3 H4 H5 H6|b H1 H2 H3 H4|b H1 H2 H3];
      rewrite Hst in *; try done. by injection H3 as ->.
  - destruct IH as (t & k & count & [= -> ->] & Hw & Hn & Hc & Hsrc); [done|].
    destruct (step_dead _ _ _ _ Hs Hw Hn) as [Hw' Hn'].
    assert (answers w [e] = []) as ->.
    { destruct Hs as [ | | | | | | | | | |w' r taken Hr0 Hst]; try done. cbn.
      destruct (decide (w' = w)) as [->|]; [|done]. by rewrite Hw in Hr0. }
    exists t, k, count. split; [done|]. split; [done|]. split; [done|].
    split; [by apply called_app|]. intros a Ha. apply source_quiet; [by apply Hsrc|].
    by eapply step_published_dead.
Qed.

(** C37: however the host's answers, cancellations and replacements of the callback
    interleave with the turns: at most one answer is published under an interaction's key,
    and it is in the range of its options; a request ends at most once; and what it ends
    with is the answer published under its own key, or the cancelled one after its turn was
    cancelled or the callback replaced. *)
Theorem interaction_answered_once tr s :
  reach tr s ->
  (forall k, (length (published k tr) <= 1)%nat)
  /\ (forall w, (length (answers w tr) <= 1)%nat)
  /\ (forall w a, In (ia_answer w (Some a)) tr ->
        exists k count, called tr w k count
          /\ ((published k tr = [a] /\ in_range count a = true)
              \/ (published k tr = [] /\ a = cancelledInteractionResolution /\ retired tr w k.1))).
Proof.
  intros Hr. pose proof (ia_reach_inv _ _ Hr) as I. split; [apply (inv_once _ _ I)|].
  split.
  - intros w. destruct (answers w tr) eqn:E; [cbn; lia|].
    destruct (answers_accounted _ _ w Hr) as (t & k & c & Ht & _); [by rewrite E|].
    rewrite Ht in E. injection E as <- <-. done.
  - intros w a Hin. assert (Some a ∈ answers w tr) as Ha.
    { apply in_split in Hin as (l1 & l2 & ->). rewrite answers_app. cbn.
      rewrite decide_True by done. apply elem_of_app. right. apply list_elem_of_here. }
    destruct (answers_accounted _ _ w Hr) as (t & k & c & Ht & _ & _ & Hc & Hs).
    { intros E. rewrite E in Ha. by apply not_elem_of_nil in Ha. }
    rewrite Ht in Ha. apply list_elem_of_singleton in Ha. exists k, c. split; [done|].
    by apply Hs.
Qed.

(** The callback is called only as it is installed at that moment; when it is replaced
    no call of it is in flight, and nothing is left that waits for an answer: every request
    still waiting has been answered or is being told. *)
Theorem interaction_callback_current tr s e s' :
  reach tr s -> step s e s' ->
  match e with
  | ia_call t w k count => installed tr None = Some t
  | ia_set _ =>
      (forall w r, ia_requests s !! w = Some r -> rq_stage r <> Calling)
      /\ ia_pending s' = ∅
      /\ (forall w r, ia_requests s' !! w = Some r -> rq_stage r = Waiting ->
            (exists a, ia_waiters s' !! w = Some (Some a)) \/ w ∈ ia_cancelling s')
  | _ => True
  end.
Proof.
  intros Hr Hs. pose proof (ia_reach_inv _ _ Hr) as I. pose proof (ia_inv_step _ _ _ _ I Hs) as I'.
  destruct Hs as [t Hl| |? ? ? ? ? ? Ht| | | | | | | |]; try done.
  - split; [intros w r Hq Hst; by rewrite (inv_lock _ _ I _ _ Hq Hst) in Hl|]. split; [done|].
    intros w r Hq Hst. destruct (inv_located _ _ I' _ _ Hq) as [H1|H1 H2 H3|a H1 H2|a H1 H2 H3].
    + cbn in H1. by rewrite lookup_empty in H1.
    + by right.
    + left. by exists a.
    + by rewrite Hst in H3.
  - by rewrite <- (inv_target _ _ I).
Qed.

(** The runtime's own steps: without the host, and without an interruption. *)
Inductive runtime_steps : interactions -> list event -> interactions -> Prop :=
  | runtime_done s : runtime_steps s [] s
  | runtime_step s e s1 tr s2 :
      e = ia_internal \/ (exists w t, e = ia_answer w t) -> step s e s1 ->
      runtime_steps s1 tr s2 -> runtime_steps s (e :: tr) s2.

Lemma answer_from_waiter s w r a :
  ia_requests s !! w = Some r -> rq_stage r = Waiting -> ia_waiters s !! w = Some (Some a) ->
  exists s', runtime_steps s [ia_internal; ia_answer w (Some a)] s'.
Proof.
  intros Hr Hst Hw. eexists. eapply runtime_step; [by left|by eapply step_take|].
  eapply runtime_step; [by right; eauto| |apply runtime_done].
  eapply step_leave; [cbn; by rewrite lookup_insert_eq|done].
Qed.

(** A request that waits is never lost: either it is pending, and then the host's next
    answer in the range of its options is accepted, or its answer is decided and reaches it
    by at most three of the runtime's own steps. *)
Theorem interaction_returns tr s w r :
  reach tr s -> ia_requests s !! w = Some r -> rq_stage r = Waiting ->
  (forall a, in_range (rq_count r) a = true -> exists s', step s (ia_resolve (rq_key r) a true) s')
  \/ exists tr' s' a, runtime_steps s tr' s' /\ In (ia_answer w (Some a)) tr'
       /\ (length tr' <= 3)%nat.
Proof.
  intros Hreach Hr Hst. pose proof (ia_reach_inv _ _ Hreach) as I.
  destruct (inv_located _ _ I _ _ Hr) as [H1 H2 H3 H4 H5|H1 H2 H3 H4 H5 H6|a H1 H2 H3 H4|a H1 H2 H3].
  - left. intros a Ha. eexists. apply step_resolve. unfold resolvePendingInteraction, try_put.
    rewrite H1. cbn. by rewrite Ha, H2.
  - right. apply list_elem_of_split in H3 as (l1 & l2 & Hl).
    destruct (answer_from_waiter (tell w (l1 ++ l2) s) w r cancelledInteractionResolution)
      as [s' Hs']; [done|done|cbn; by rewrite try_put_lookup, H2, decide_True|].
    exists (ia_internal :: [ia_internal; ia_answer w (Some cancelledInteractionResolution)]), s',
      cancelledInteractionResolution.
    split; [|split; [right; right; by left|cbn; lia]].
    eapply runtime_step; [by left|by eapply step_tell|exact Hs'].
  - right. destruct (answer_from_waiter s w r a Hr Hst H2) as [s' Hs'].
    eexists _, s', a. split; [exact Hs'|]. split; [right; by left|cbn; lia].
  - by rewrite Hst in H3.
Qed.

(** ** The entries *)

(** [ha_engine_set_interaction_callback], once it has the lock. *)
Definition ha_engine_set_interaction_callback (s : interactions) (pointer callback callbackContext : Z)
    : Z * interactions :=
  if pointer =? 0 then (1, s)
  else (0, set_target (if callback =? 0 then None
                       else Some (Build_InteractionCallbackTarget callback callbackContext)) s).

Definition ha_engine_resolve_interaction (m : memory) (s : interactions)
    (pointer turnID turnIDLength interactionID interactionIDLength selectedIndex customText
     customTextLength : Z) : outcome (Z * interactions) :=
  if pointer =? 0 then value (1, s)
  else if (turnID =? 0) || (turnIDLength =? 0) then value (2, s)
  else if (interactionID =? 0) || (interactionIDLength =? 0) then value (2, s)
  else if (customText =? 0) && (0 <? customTextLength) then value (2, s)
  else either_thrown (3, s)
    (turnBytes ← packCStringLen m turnID turnIDLength;
     interactionBytes ← packCStringLen m interactionID interactionIDLength;
     customBytes ←
       (if customTextLength =? 0 then value (Some None)
        else b ← packCStringLen m customText customTextLength; value (Some <$> utf8_decode b));
     value match utf8_decode turnBytes, utf8_decode interactionBytes, customBytes with
           | Some turnIDText, Some interactionIDText, Some custom =>
               let '(published, pending, ws) :=
                 resolvePendingInteraction (turnIDText, interactionIDText)
                   (Build_NativeInteractionResolution selectedIndex custom)
                   (ia_pending s) (ia_waiters s) in
               (if published then 0 else 4, with_pending pending ws s)
           | _, _, _ => (2, s)
           end).

(** "selected_index is a zero-based option index, or -1 for custom text/cancel." *)
Definition index_ok (count selected_index : Z) : Prop := -1 <= selected_index < count.

Lemma in_range_index count r : in_range count r = true <-> index_ok count (interactionSelectedIndex r).
Proof.
  unfold in_range, index_ok. rewrite negb_true_iff, orb_false_iff.
  destruct (Z.ltb_spec (interactionSelectedIndex r) (-1)),
    (Z.leb_spec count (interactionSelectedIndex r)); split; lia || (intros []; done) || done.
Qed.

(** The answer that the buffers of a call hold, or nothing when the header refuses them. *)
Definition resolution_of (m : memory) (turn tl id il index custom cl : Z)
    : option (key * NativeInteractionResolution) :=
  if (turn =? 0) || (tl =? 0) || (id =? 0) || (il =? 0) || null_with_bytes custom cl then None
  else
    t ← utf8_decode (bytes_at m turn tl);
    i ← utf8_decode (bytes_at m id il);
    c ← (if cl =? 0 then Some None else Some <$> utf8_decode (bytes_at m custom cl));
    Some ((t, i), Build_NativeInteractionResolution index c).

(** On buffers that the host lends, [ha_engine_resolve_interaction] returns with the
    header's status: 2 for pointers or text that it refuses, 0 when the interaction is
    pending and the index is one of its options or -1, and then the call is the step that
    answers it; 4 otherwise - it is absent, was answered already, or the index is out of
    range - and then nothing changes. *)
Theorem interaction_resolve_status tr m s turn tl id il index custom cl engine :
  reach tr s -> engine <> 0 -> lent m turn tl -> lent m id il -> lent m custom cl ->
  exists status s',
    ha_engine_resolve_interaction m s engine turn tl id il index custom cl = value (status, s')
    /\ match resolution_of m turn tl id il index custom cl with
       | None => status = 2 /\ s' = s
       | Some (k, r) =>
           (status = 0 <-> exists p, ia_pending s !! k = Some p
                            /\ index_ok (pendingInteractionOptionCount p) index)
           /\ (status = 0 -> step s (ia_resolve k r true) s')
           /\ (status <> 0 -> status = 4 /\ s' = s)
       end.
Proof.
  intros Hreach He Ht Hi Hc. unfold ha_engine_resolve_interaction, resolution_of.
  destruct (Z.eqb_spec engine 0); [done|].
  destruct (Z.eqb_spec turn 0) as [|Htn]; [by exists 2, s|]. cbn [orb].
  destruct (tl =? 0); [by exists 2, s|]. cbn [orb].
  destruct (Z.eqb_spec id 0) as [|Hid]; [by exists 2, s|]. cbn [orb].
  destruct (il =? 0); [by exists 2, s|]. cbn [orb].
  assert ((custom =? 0) && (0 <? cl) = null_with_bytes custom cl) as ->.
  { unfold null_with_bytes. f_equal. destruct Hc as [? _].
    destruct (Z.ltb_spec 0 cl), (Z.eqb_spec cl 0); cbn; lia. }
  destruct (null_with_bytes custom cl) eqn:Hn; [by exists 2, s|].
  rewrite (pack_readable m turn tl), (pack_readable m id il) by (by apply Ht || by apply Hi).
  rewrite (pack_lent m custom cl) by done. cbn [mbind outcome_bind].
  assert (Hcustom : (if cl =? 0 then value (Some None)
            else value (Some <$> utf8_decode (bytes_at m custom cl)))
          = value (if cl =? 0 then Some None else Some <$> utf8_decode (bytes_at m custom cl)))
    by (by destruct (cl =? 0)).
  rewrite Hcustom. cbn [mbind outcome_bind either_thrown].
  destruct (utf8_decode (bytes_at m turn tl)) as [t|]; [|by exists 2, s].
  destruct (utf8_decode (bytes_at m id il)) as [i|]; [|by exists 2, s]. cbn [mbind option_bind].
  destruct (if cl =? 0 then Some None else Some <$> utf8_decode (bytes_at m custom cl)) as [c|];
    [|by exists 2, s]. cbn [mbind option_bind].
  set (r := Build_NativeInteractionResolution index c).
  destruct (resolvePendingInteraction (t, i) r (ia_pending s) (ia_waiters s)) as [[[] pending] ws] eqn:E.
  - eexists 0, _. split; [done|]. split; [|split; [by intros _; apply step_resolve|done]].
    split; [intros _|done]. apply resolve_true in E as (p & Hp & Hin & _).
    exists p. split; [done|]. by apply in_range_index in Hin.
  - exists 4, s. apply resolve_false in E as E'. destruct E' as [-> ->].
    split; [by destruct s|]. split; [|by split]. split; [done|]. intros (p & Hp & Hix). exfalso.
    destruct (pending_open _ _ _ _ (ia_reach_inv _ _ Hreach) Hp) as (q & _ & _ & _ & Hw & _).
    unfold resolvePendingInteraction, try_put in E. rewrite Hp in E.
    rewrite (proj2 (in_range_index _ r) Hix) in E. cbn in E. by rewrite Hw in E.
Qed.

(** ** The options of a call

    [withInteractionOptions]: the labels' slices, one structure each; NULL for none.  The
    array is filled front to back. *)
Definition optionSize : Z := pointerSize + sizeSize.

Fixpoint poke_options (index : Z) (encoded : list (Z * Z)) (buf : list byte) : list byte :=
  match encoded with
  | [] => buf
  | (label, labelLength) :: encoded =>
      poke_options (index + 1) encoded
        (poke 8 (index * optionSize + pointerSize) labelLength
           (poke 8 (index * optionSize) label buf))
  end.

(** The buffer that [allocaArray] returned, filled; no buffer for no options. *)
Definition withInteractionOptions (buf : list byte) (encoded : list (Z * Z)) : option (list byte) :=
  match encoded with
  | [] => None
  | _ => Some (poke_options 0 encoded buf)
  end.

Lemma zlen_poke_options index encoded buf :
  0 <= index -> (index + zlen encoded) * optionSize <= zlen buf ->
  zlen (poke_options index encoded buf) = zlen buf.
Proof.
  revert index buf. unfold optionSize, pointerSize, sizeSize.
  induction encoded as [|[p n] encoded IH]; intros index buf Hi Hb; [done|].
  cbn [poke_options length] in *. unfold optionSize, pointerSize, sizeSize.
  rewrite IH; rewrite ?zlen_poke; rewrite ?zlen_poke; lia.
Qed.

Lemma peek_poke_options index encoded buf off :
  0 <= off -> off + 8 <= index * optionSize -> (index + zlen encoded) * optionSize <= zlen buf ->
  peek 8 off (poke_options index encoded buf) = peek 8 off buf.
Proof.
  revert index buf. unfold optionSize, pointerSize, sizeSize.
  induction encoded as [|[p n] encoded IH]; intros index buf Ho Hoff Hb; [done|].
  cbn [poke_options length] in *. unfold optionSize, pointerSize, sizeSize.
  rewrite IH; [|lia|lia|rewrite !zlen_poke; rewrite ?zlen_poke; lia].
  rewrite !peek_poke_other; rewrite ?zlen_poke; lia.
Qed.

(** The host reads with C's layout exactly the labels that were encoded. *)
Theorem interaction_options_read encoded buf i p n :
  zlen encoded * optionSize <= zlen buf -> encoded !! i = Some (p, n) ->
  0 <= p < 2 ^ 64 -> 0 <= n < 2 ^ 64 ->
  exists b, withInteractionOptions buf encoded = Some b
    /\ struct_size ha_interaction_option = optionSize
    /\ struct_field ha_interaction_option "label" (element optionSize (Z.of_nat i) b) = p
    /\ struct_field ha_interaction_option "label_length" (element optionSize (Z.of_nat i) b) = n.
Proof.
  intros Hb Hi Hp Hn. exists (poke_options 0 encoded buf).
  split; [by destruct encoded|]. split; [done|].
  change (struct_field ha_interaction_option "label" (element optionSize (Z.of_nat i) ?b))
    with (peek 8 0 (element optionSize (Z.of_nat i) b)).
  change (struct_field ha_interaction_option "label_length" ?e) with (peek 8 8 e).
  rewrite <- !peek_element by (unfold optionSize, pointerSize, sizeSize; lia).
  assert (Hgen : forall index encoded buf i, 0 <= index ->
    (index + zlen encoded) * optionSize <= zlen buf -> encoded !! i = Some (p, n) ->
    peek 8 ((index + Z.of_nat i) * optionSize + 0) (poke_options index encoded buf) = p
    /\ peek 8 ((index + Z.of_nat i) * optionSize + 8) (poke_options index encoded buf) = n).
  { clear -Hp Hn. unfold optionSize, pointerSize, sizeSize. intros index encoded.
    revert index. induction encoded as [|[q k] encoded IH]; intros index buf i Hx Hb Hi; [done|].
    cbn [poke_options length] in *. unfold optionSize, pointerSize, sizeSize.
    destruct i as [|i].
    - injection Hi as -> ->. rewrite Z.add_0_r, Z.add_0_r.
      rewrite !peek_poke_options by
        (unfold optionSize, pointerSize, sizeSize; rewrite ?zlen_poke; rewrite ?zlen_poke; lia).
      rewrite peek_poke_other, !peek_poke_same by (rewrite ?zlen_poke; lia).
      change (2 ^ (8 * 8)) with (2 ^ 64). by rewrite !Z.mod_small.
    - replace (index + Z.of_nat (S i)) with (index + 1 + Z.of_nat i) by lia.
      apply IH; [lia|rewrite !zlen_poke; rewrite ?zlen_poke; lia|done]. }
  apply (Hgen 0 encoded buf i); [lia|done|done].
Qed.

(** ** What the turn makes of an answer

    [nativePlanModeHooks]; [None] is a request without a callback. *)
Inductive PlanDecision :=
  | PlanApprove
  | PlanRequestChanges (notes : text)
  | PlanCancel.

Section Hooks.
Context (text_strip : text -> text).

Definition nonBlank (t : option text) : option text :=
  t ← t; match text_strip t with [] => None | stripped => Some stripped end.

Definition planConfirmEnter (o : option NativeInteractionResolution) : bool :=
  match o with Some r => interactionSelectedIndex r =? 0 | None => false end.

Definition planDecideExit (o : option NativeInteractionResolution) : PlanDecision :=
  match o with
  | None => PlanCancel
  | Some r =>
      if interactionSelectedIndex r =? 0 then PlanApprove
      else if interactionSelectedIndex r =? 1 then
        PlanRequestChanges (default (txt "(no notes)") (nonBlank (interactionCustomText r)))
      else PlanCancel
  end.

Definition atMay {A} (index : Z) (l : list A) : option A :=
  if index <? 0 then None else l !! Z.to_nat index.

Definition planAskQuestion (options : list text) (o : option NativeInteractionResolution)
    : option text :=
  match o with
  | None => None
  | Some r =>
      if 0 <=? interactionSelectedIndex r then atMay (interactionSelectedIndex r) options
      else nonBlank (interactionCustomText r)
  end.

(** Without a callback, and after a cancellation, the turn takes the declining default. *)
Theorem interaction_defaults_decline o options :
  o = None \/ o = Some cancelledInteractionResolution ->
  planConfirmEnter o = false /\ planDecideExit o = PlanCancel /\ planAskQuestion options o = None.
Proof. by intros [->| ->]. Qed.

(** A published answer to a question is one of its options or the host's own text. *)
Lemma planAskQuestion_option options r :
  in_range (zlen options) r = true -> 0 <= interactionSelectedIndex r ->
  exists t, planAskQuestion options (Some r) = Some t /\ t ∈ options.
Proof.
  intros [_ Hr]%in_range_index Hi. unfold planAskQuestion, atMay.
  destruct (Z.leb_spec 0 (interactionSelectedIndex r)); [|lia].
  destruct (Z.ltb_spec (interactionSelectedIndex r) 0); [lia|].
  destruct (lookup_lt_is_Some_2 options (Z.to_nat (interactionSelectedIndex r))) as [t Ht]; [lia|].
  exists t. split; [done|]. by eapply list_elem_of_lookup_2.
Qed.

End Hooks.

(** ** An execution

    The host installs its callback; a turn asks a question with two options; the host answers
    with the second one after the callback has returned, and then once more. *)
Definition demo_target : InteractionCallbackTarget := Build_InteractionCallbackTarget 11 12.

Definition demo_key : key := (txt "t", txt "t-interaction-1").

Definition demo_answer : NativeInteractionResolution := Build_NativeInteractionResolution 1 None.

Definition demo_waiting : list event :=
  [ia_set (Some demo_target); ia_call demo_target 0 demo_key 2; ia_callback_returned 0].

Definition demo_answered : list event :=
  demo_waiting ++ [ia_resolve demo_key demo_answer true; ia_resolve demo_key demo_answer false;
    ia_internal; ia_answer 0 (Some demo_answer)].

Definition demo_request (st : stage) : request := Build_request (txt "t") (txt "t-interaction-1") 2 st.

Definition demo_registered : interactions :=
  snd (register (txt "t") 2 (set_target (Some demo_target) interactions_init)).

Definition demo_waiting_state : interactions :=
  unlock (set_stage 0 (demo_request Calling) Waiting demo_registered).

Lemma demo_waiting_reach : reach demo_waiting demo_waiting_state.
Proof.
  refine (reach_step [_; _] _ _ _ (reach_step [_] _ _ _ (reach_step [] _ _ _ reach_init _) _) _).
  - by apply step_set.
  - exact (step_call (set_target (Some demo_target) interactions_init) demo_target (txt "t") 2
      (txt "t-interaction-1") demo_registered eq_refl eq_refl ltac:(lia) eq_refl).
  - apply (step_callback_returned _ 0 (demo_request Calling)); vm_compute; reflexivity.
Qed.

Lemma demo_answered_reach : exists s, reach demo_answered s.
Proof.
  eexists.
  refine (reach_step (demo_waiting ++ [_; _; _]) _ _ _ (reach_step (demo_waiting ++ [_; _]) _ _ _
    (reach_step (demo_waiting ++ [_]) _ _ _ (reach_step demo_waiting _ _ _ demo_waiting_reach _) _) _) _).
  - eapply step_resolve. vm_compute. reflexivity.
  - eapply step_resolve. vm_compute. reflexivity.
  - eapply (step_take _ 0 (demo_request Waiting)); vm_compute; reflexivity.
  - eapply (step_leave _ 0 (demo_request (Cleanup (Some demo_answer)))); vm_compute; reflexivity.
Qed.

Lemma interaction_answered_once_witness :
  exists s, reach demo_answered s /\ answers 0 demo_answered = [Some demo_answer]
    /\ exists k count, called demo_answered 0 k count
         /\ ((published k demo_answered = [demo_answer] /\ in_range count demo_answer = true)
             \/ (published k demo_answered = [] /\ demo_answer = cancelledInteractionResolution
                 /\ retired demo_answered 0 k.1)).
Proof.
  destruct demo_answered_reach as [s Hs]. exists s. split; [exact Hs|]. split; [reflexivity|].
  apply (interaction_answered_once demo_answered s Hs). cbn. tauto.
Defined.

Lemma interaction_callback_current_witness :
  reach demo_waiting demo_waiting_state
  /\ forall s', step demo_waiting_state (ia_set None) s' -> ia_pending s' = ∅.
Proof.
  split; [exact demo_waiting_reach|]. intros s' Hs.
  apply (interaction_callback_current demo_waiting demo_waiting_state (ia_set None) s'
    demo_waiting_reach Hs).
Defined.

Lemma interaction_returns_witness :
  ia_requests demo_waiting_state !! 0%nat = Some (demo_request Waiting)
  /\ ((forall a, in_range 2 a = true -> exists s', step demo_waiting_state (ia_resolve demo_key a true) s')
      \/ exists tr' s' a, runtime_steps demo_waiting_state tr' s' /\ In (ia_answer 0 (Some a)) tr'
           /\ (length tr' <= 3)%nat).
Proof.
  split; [reflexivity|].
  exact (interaction_returns demo_waiting demo_waiting_state 0 (demo_request Waiting)
    demo_waiting_reach eq_refl eq_refl).
Defined.

Definition demo_memory : memory :=
  {[ 1 := utf8_encode (txt "t"); 2 := utf8_encode (txt "t-interaction-1") ]}.

Lemma interaction_resolve_status_witness :
  exists status s',
    ha_engine_resolve_interaction demo_memory demo_waiting_state 9 1 1 2 15 1 0 0 = value (status, s')
    /\ (status = 0 <-> exists p, ia_pending demo_waiting_state !! demo_key = Some p
                        /\ index_ok (pendingInteractionOptionCount p) 1).
Proof.
  destruct (interaction_resolve_status demo_waiting demo_memory demo_waiting_state 1 1 2 15 1 0 0 9
    demo_waiting_reach) as (status & s' & Hv & Hs).
  - done.
  - apply readable_lent, (readable_whole _ _ (utf8_encode (txt "t"))); done.
  - apply readable_lent, (readable_whole _ _ (utf8_encode (txt "t-interaction-1"))); done.
  - apply readable_lent, readable_empty.
  - exists status, s'. split; [exact Hv|]. exact (proj1 Hs).
Defined.
