(* ===== verification/TurnModes.v ===== *)
(** * The interaction mode of a running turn

    A turn registers a setter for its approval policy and its plan state when its session
    starts, and removes it when it ends; [ha_engine_set_turn_interaction_mode] of
    HaskellAgentBridge.h applies a mode through it (EngineStaging.hs, InteractionState.hs,
    TurnExecution.hs; [applyNativeInteractionMode] of agent-cli).  The setter writes two
    variables one after the other while the turn runs: [turn_mode_applied] gives the status
    and the final values, and the values that the turn can see in between. *)

From stdpp Require Import base tactics option list gmap strings.
From Stdlib Require Import ZArith Lia.
From coqutil Require Import Byte.
From S2P Require Import Prelude Utf8 AbiLayout HostCall Staging.
#[local] Open Scope Z_scope.

Inductive ApprovalPolicy := ApproveAll | DenyMutating | PromptMutating.

Inductive PlanModeState := PlanInactive | PlanPending | PlanActive.

(** The two variables of a turn. *)
Record turn_policy := { policyRef : ApprovalPolicy; planStateRef : PlanModeState }.

(** The writes of [applyNativeInteractionMode], in order. *)
Inductive policy_write := write_policy (p : ApprovalPolicy) | write_plan (s : PlanModeState).

Definition applyNativeInteractionMode (mode : NativeInteractionMode) : list policy_write :=
  match mode with
  | NativeAsk => [write_policy PromptMutating; write_plan PlanInactive]
  | NativePlan => [write_policy PromptMutating; write_plan PlanActive]
  | NativeYolo => [write_plan PlanInactive; write_policy ApproveAll]
  end.

Definition do_write (t : turn_policy) (w : policy_write) : turn_policy :=
  match w with
  | write_policy p => Build_turn_policy p (planStateRef t)
  | write_plan s => Build_turn_policy (policyRef t) s
  end.

(** The values that a turn sees, from before the first write to after the last. *)
Fixpoint seen (t : turn_policy) (ws : list policy_write) : list turn_policy :=
  match ws with
  | [] => [t]
  | w :: ws => t :: seen (do_write t w) ws
  end.

(** The setters that are registered, each with the variables it writes: a turn has one from
    the start of its session until it ends. *)
Abbreviation setters := (gmap text turn_policy).

Definition nativeRegisterInteractionMode (id : text) (t : turn_policy) (s : setters) : setters :=
  <[id := t]> s.

Definition turn_ended (id : text) (s : setters) : setters := delete id s.

(** [setTurnInteractionMode], under the registry's lock. *)
Definition setTurnInteractionMode (s : setters) (id : text) (mode : NativeInteractionMode)
    : bool * setters :=
  match s !! id with
  | None => (false, s)
  | Some t => (true, <[id := foldl do_write t (applyNativeInteractionMode mode)]> s)
  end.

Definition ha_engine_set_turn_interaction_mode (m : memory) (s : setters)
    (pointer turnID turnIDLength rawMode : Z) : outcome (Z * setters) :=
  if pointer =? 0 then value (1, s)
  else if (turnID =? 0) || negb (validNativeTurnIDLength turnIDLength) then value (2, s)
  else match interactionModeFromCode rawMode with
  | None => value (4, s)
  | Some mode =>
      either_thrown (3, s)
        (bytes ← packCStringLen m turnID turnIDLength;
         value match utf8_decode bytes with
               | None => (2, s)
               | Some identifier =>
                   let '(applied, s') := setTurnInteractionMode s identifier mode in
                   (if applied then 0 else 5, s')
               end)
  end.

(** The policy that a mode means: "Plan activates read-only planning immediately; Ask/Yolo
    exit plan mode." *)
Definition policy_of (mode : ha_interaction_mode) : turn_policy :=
  match mode with
  | HA_INTERACTION_MODE_ASK => Build_turn_policy PromptMutating PlanInactive
  | HA_INTERACTION_MODE_PLAN => Build_turn_policy PromptMutating PlanActive
  | HA_INTERACTION_MODE_YOLO => Build_turn_policy ApproveAll PlanInactive
  end.

(** A turn acts without asking when its policy approves everything. *)
Definition unprompted (t : turn_policy) : Prop := policyRef t = ApproveAll.

Definition mode_of (mode : ha_interaction_mode) : NativeInteractionMode :=
  match mode with
  | HA_INTERACTION_MODE_ASK => NativeAsk
  | HA_INTERACTION_MODE_PLAN => NativePlan
  | HA_INTERACTION_MODE_YOLO => NativeYolo
  end.

Lemma interactionModeFromCode_header code mode :
  interactionModeFromCode code = Some mode <->
  exists h, code = ha_interaction_mode_value h /\ mode = mode_of h.
Proof.
  split.
  - destruct code as [|[p|[p|p|]|]|p]; try done; intros [= <-].
    + by exists HA_INTERACTION_MODE_ASK.
    + by exists HA_INTERACTION_MODE_YOLO.
    + by exists HA_INTERACTION_MODE_PLAN.
  - by intros ([] & -> & ->).
Qed.

Lemma apply_mode_policy t h : foldl do_write t (applyNativeInteractionMode (mode_of h)) = policy_of h.
Proof. by destruct t, h. Qed.

(** In between, a turn is never less restricted than it was and will be: it acts without
    asking only if it did before or will after, and it leaves plan mode before it stops
    asking. *)
Lemma seen_restricted t h x :
  In x (seen t (applyNativeInteractionMode (mode_of h))) ->
  (unprompted x -> unprompted t \/ h = HA_INTERACTION_MODE_YOLO)
  /\ (unprompted x -> planStateRef x = PlanActive -> x = t).
Proof.
  destruct t as [p s], h; cbn; intros [<-|[<-|[<-|[]]]]; unfold unprompted; cbn;
    split; intros; try done; auto.
Qed.

(** On a readable identifier, the call has the header's status; it succeeds exactly when
    the mode is known and the turn has registered and not ended, and then the turn's policy
    becomes the mode's, no other turn's changes, and what the turn sees meanwhile is never
    less restricted than before and after; on any other status nothing changes. *)
Theorem turn_mode_applied m s engine turn tl raw :
  engine <> 0 -> lent m turn tl ->
  exists status s',
    ha_engine_set_turn_interaction_mode m s engine turn tl raw = value (status, s')
    /\ (turn_id_ok turn tl = false -> status = 2)
    /\ (turn_id_ok turn tl = true -> (forall h, raw <> ha_interaction_mode_value h) -> status = 4)
    /\ (forall h, turn_id_ok turn tl = true -> raw = ha_interaction_mode_value h ->
          match utf8_decode (bytes_at m turn tl) with
          | None => status = 2
          | Some id =>
              match s !! id with
              | None => status = 5
              | Some t =>
                  status = 0 /\ s' = <[id := policy_of h]> s
                  /\ Forall (fun x =>
                       (unprompted x -> unprompted t \/ h = HA_INTERACTION_MODE_YOLO)
                       /\ (unprompted x -> planStateRef x = PlanActive -> x = t))
                       (seen t (applyNativeInteractionMode (mode_of h)))
              end
          end)
    /\ (status <> 0 -> s' = s).
Proof.
  intros He Hl. unfold ha_engine_set_turn_interaction_mode.
  destruct (Z.eqb_spec engine 0); [done|]. rewrite turn_id_test.
  destruct (turn_id_ok turn tl) eqn:Ht; cbn [negb]; [|by exists 2, s].
  destruct (interactionModeFromCode raw) as [mode|] eqn:Hm.
  - destruct (turn_id_readable m _ _ Hl Ht) as [-> _]. cbn [mbind outcome_bind either_thrown].
    apply interactionModeFromCode_header in Hm as (h & -> & ->).
    assert (Hinj : forall h', ha_interaction_mode_value h = ha_interaction_mode_value h' -> h' = h)
      by (intros []; by destruct h).
    destruct (utf8_decode _) as [id|]; cycle 1.
    { exists 2, s. split; [done|]. split; [done|]. split; [intros _ Hn; by destruct (Hn h)|done]. }
    unfold setTurnInteractionMode. destruct (s !! id) as [t|] eqn:Hs; cycle 1.
    { exists 5, s. split; [done|]. split; [done|]. split; [intros _ Hn; by destruct (Hn h)|done]. }
    eexists 0, _. split; [done|]. split; [done|]. split; [intros _ Hn; by destruct (Hn h)|].
    split; [|done]. intros h' _ ->%Hinj. split; [done|]. rewrite apply_mode_policy.
    split; [done|]. apply List.Forall_forall. intros x. apply seen_restricted.
  - exists 4, s. split; [done|]. split; [done|]. split; [done|]. split; [|done].
    intros h _ ->. by destruct h.
Qed.

Definition demo_setters : setters :=
  nativeRegisterInteractionMode (txt "t") (Build_turn_policy ApproveAll PlanInactive) ∅.

Lemma turn_mode_applied_witness :
  exists s', ha_engine_set_turn_interaction_mode {[ 1 := utf8_encode (txt "t") ]} demo_setters 9 1 1 1
    = value (0, s') /\ s' = <[txt "t" := policy_of HA_INTERACTION_MODE_PLAN]> demo_setters.
Proof.
  destruct (turn_mode_applied {[ 1 := utf8_encode (txt "t") ]} demo_setters 9 1 1 1) as
    (status & s' & Hv & _ & _ & Hok & _).
  - done.
  - apply readable_lent, (readable_whole _ _ (utf8_encode (txt "t"))); done.
  - specialize (Hok HA_INTERACTION_MODE_PLAN eq_refl eq_refl).
    change (utf8_decode (bytes_at {[ 1 := utf8_encode (txt "t") ]} 1 1)) with (Some (txt "t")) in Hok.
    change (demo_setters !! txt "t") with (Some (Build_turn_policy ApproveAll PlanInactive)) in Hok.
    destruct Hok as (-> & -> & _). by eexists.
Defined.
