(* ===== verification/TaskScheduler.v ===== *)
(** * Which queued tasks may run

    [selectRunnableTasks] of agent-runtime-daemon/.../TaskScheduler.hs, by which the native
    engine (and the daemon) fill the concurrency limit that [ha_engine_set_task_limit] of
    HaskellAgentBridge.h sets.  [runnable_selection] is what the scheduler promises: the
    queue is split without reordering, within the capacity, with one task per session, in
    the order of each session, and leaving nothing that could run. *)

From stdpp Require Import base tactics option list gmap sorting.
From Stdlib Require Import ZArith Lia.
From S2P Require Import Prelude Utf8.
#[local] Open Scope Z_scope.

Record TaskIdentity := {
  taskIdentityId : text;
  taskIdentitySessionId : option text;
}.

Section Scheduler.
Context {task : Type}.

Abbreviation candidate := (TaskIdentity * task)%type.

Definition session_of (c : candidate) : option text := taskIdentitySessionId (fst c).

Fixpoint go (capacity : nat) (sessions : gset text) (selected deferred l : list candidate)
    : list candidate * list candidate :=
  match l with
  | [] => (reverse selected, reverse deferred)
  | c :: rest =>
      match capacity with
      | O => (reverse selected, reverse deferred ++ l)
      | S capacity' =>
          match session_of c with
          | Some sessionId =>
              if decide (sessionId ∈ sessions) then go capacity sessions selected (c :: deferred) rest
              else go capacity' ({[sessionId]} ∪ sessions) (c :: selected) deferred rest
          | None => go capacity' sessions (c :: selected) deferred rest
          end
      end
  end.

Definition selectRunnableTasks (rawCapacity : Z) (activeSessions : gset text) (l : list candidate)
    : list candidate * list candidate :=
  go (Z.to_nat (Z.max 0 rawCapacity)) activeSessions [] [] l.

(** The same choice, front to back. *)
Fixpoint pick (capacity : nat) (sessions : gset text) (l : list candidate)
    : list candidate * list candidate :=
  match l with
  | [] => ([], [])
  | c :: rest =>
      match capacity with
      | O => ([], l)
      | S capacity' =>
          match session_of c with
          | Some sessionId =>
              if decide (sessionId ∈ sessions) then
                let '(sel, def) := pick capacity sessions rest in (sel, c :: def)
              else let '(sel, def) := pick capacity' ({[sessionId]} ∪ sessions) rest in (c :: sel, def)
          | None => let '(sel, def) := pick capacity' sessions rest in (c :: sel, def)
          end
      end
  end.

Lemma go_pick l : forall capacity sessions selected deferred,
  go capacity sessions selected deferred l =
  (reverse selected ++ fst (pick capacity sessions l), reverse deferred ++ snd (pick capacity sessions l)).
Proof.
  induction l as [|c l IH]; intros capacity sessions selected deferred; cbn [go pick].
  - by rewrite !app_nil_r.
  - destruct capacity as [|capacity]; [cbn; by rewrite app_nil_r|].
    destruct (session_of c) as [s|].
    + destruct (decide (s ∈ sessions)).
      * rewrite IH. destruct (pick (S capacity) sessions l). cbn [fst snd].
        by rewrite reverse_cons, <- app_assoc.
      * rewrite IH. destruct (pick capacity _ l). cbn [fst snd]. by rewrite reverse_cons, <- app_assoc.
    + rewrite IH. destruct (pick capacity _ l). cbn [fst snd]. by rewrite reverse_cons, <- app_assoc.
Qed.

Lemma select_pick rawCapacity active l :
  selectRunnableTasks rawCapacity active l = pick (Z.to_nat rawCapacity) active l.
Proof.
  unfold selectRunnableTasks. rewrite go_pick. cbn.
  replace (Z.to_nat (Z.max 0 rawCapacity)) with (Z.to_nat rawCapacity) by lia.
  by destruct (pick _ active l).
Qed.

(** ** The promise *)

(** [l] is [a] and [b] with their orders kept. *)
Inductive merged : list candidate -> list candidate -> list candidate -> Prop :=
  | merged_nil : merged [] [] []
  | merged_left c a b l : merged a b l -> merged (c :: a) b (c :: l)
  | merged_right c a b l : merged a b l -> merged a (c :: b) (c :: l).

Lemma merged_only_right l : merged [] l l.
Proof. induction l; by constructor. Qed.

Definition of_session (s : text) (l : list candidate) : list candidate :=
  filter (fun c => session_of c = Some s) l.

Lemma of_session_cons s c l :
  of_session s (c :: l) = if decide (session_of c = Some s) then c :: of_session s l else of_session s l.
Proof. unfold of_session. by rewrite filter_cons. Qed.

(** What [pick] guarantees, for [active] sessions. *)
Record picked (capacity : nat) (active : gset text) (l sel def : list candidate) : Prop := {
  picked_merged : merged sel def l;
  picked_capacity : (length sel <= capacity)%nat;
  picked_active : forall s, s ∈ active -> of_session s sel = [];
  picked_exclusive : forall s, (length (of_session s sel) <= 1)%nat;
  picked_order : forall s, of_session s sel `prefix_of` of_session s l;
  picked_busy : (length sel < capacity)%nat -> forall c, In c def ->
    exists s, session_of c = Some s /\ (s ∈ active \/ of_session s sel <> []);
}.

Lemma pick_picked l : forall capacity active,
  picked capacity active l (fst (pick capacity active l)) (snd (pick capacity active l)).
Proof.
  induction l as [|c l IH]; intros capacity active; cbn [pick].
  { split; cbn; try done; [constructor|lia|intros s; lia]. }
  destruct capacity as [|capacity].
  { split; cbn; try done; [apply merged_only_right|intros s; lia|intros s; apply prefix_nil|lia]. }
  destruct (session_of c) as [s|] eqn:Hc.
  - destruct (decide (s ∈ active)) as [Ha|Ha].
    + specialize (IH (S capacity) active). destruct (pick (S capacity) active l) as [sel def].
      destruct IH as [Hm Hcap Hact Hex Hord Hbusy]. cbn [fst snd] in *. split; try done.
      * by constructor.
      * intros s'. rewrite of_session_cons. destruct (decide _) as [E|]; [|done].
        rewrite Hc in E. injection E as <-. rewrite Hact by done. apply prefix_nil.
      * intros Hlt c' [<-|Hin]; [|by apply Hbusy]. exists s. auto.
    + specialize (IH capacity ({[s]} ∪ active)).
      destruct (pick capacity ({[s]} ∪ active) l) as [sel def].
      destruct IH as [Hm Hcap Hact Hex Hord Hbusy]. cbn [fst snd] in *.
      assert (Hs : of_session s sel = []) by (apply Hact; set_solver). split.
      * by constructor.
      * cbn. lia.
      * intros s' Hs'. rewrite of_session_cons. rewrite decide_False by (rewrite Hc; congruence).
        apply Hact. set_solver.
      * intros s'. rewrite of_session_cons. destruct (decide _) as [E|]; [|done].
        rewrite Hc in E. injection E as <-. rewrite Hs. cbn. lia.
      * intros s'. rewrite !of_session_cons. destruct (decide _) as [E|]; [|done].
        apply prefix_cons, Hord.
      * cbn [length]. intros Hlt c' Hin. destruct (Hbusy ltac:(lia) c' Hin) as (s' & Hc' & Hs').
        exists s'. split; [done|]. rewrite of_session_cons.
        destruct (decide (session_of c = Some s')) as [E|E]; [by right|].
        destruct Hs' as [Hs'|?]; [|by right]. left.
        apply elem_of_union in Hs' as [->%elem_of_singleton|?]; [congruence|done].
  - specialize (IH capacity active). destruct (pick capacity active l) as [sel def].
    destruct IH as [Hm Hcap Hact Hex Hord Hbusy]. cbn [fst snd] in *.
    assert (Hno : forall s k, of_session s (c :: k) = of_session s k)
      by (intros s k; rewrite of_session_cons, decide_False; [done|by rewrite Hc]).
    split.
    + by constructor.
    + cbn. lia.
    + intros s. rewrite Hno. apply Hact.
    + intros s. rewrite Hno. apply Hex.
    + intros s. rewrite !Hno. apply Hord.
    + cbn [length]. intros Hlt c' Hin. destruct (Hbusy ltac:(lia) c' Hin) as (s' & Hc' & Hs').
      exists s'. by rewrite Hno.
Qed.

Lemma selected_picked rawCapacity active l sel def :
  selectRunnableTasks rawCapacity active l = (sel, def) ->
  picked (Z.to_nat rawCapacity) active l sel def.
Proof.
  rewrite select_pick. intros H. pose proof (pick_picked l (Z.to_nat rawCapacity) active) as Hp.
  by rewrite H in Hp.
Qed.

(** The tasks that are selected and those that stay are the queue, each in its order;
    no more are selected than the capacity; none belongs to a session that is active, and no
    two to one session; within a session none overtakes an earlier one; and while there is
    capacity left, every task that stays waits for its session. *)
Theorem runnable_selection rawCapacity active l :
  exists sel def, selectRunnableTasks rawCapacity active l = (sel, def)
    /\ merged sel def l
    /\ zlen sel <= Z.max 0 rawCapacity
    /\ (forall s, s ∈ active -> of_session s sel = [])
    /\ (forall s, (length (of_session s sel) <= 1)%nat)
    /\ (forall s, of_session s sel `prefix_of` of_session s l)
    /\ (zlen sel < rawCapacity -> forall c, In c def ->
          exists s, session_of c = Some s /\ (s ∈ active \/ of_session s sel <> [])).
Proof.
  destruct (selectRunnableTasks rawCapacity active l) as [sel def] eqn:E. exists sel, def.
  split; [done|]. destruct (selected_picked _ _ _ _ _ E) as [Hm Hcap Hact Hex Hord Hbusy].
  split; [done|]. split; [lia|]. split; [done|]. split; [done|]. split; [done|].
  intros Hlt. apply Hbusy. lia.
Qed.

End Scheduler.
