(* ===== verification/SessionCommands.v ===== *)
(** * Session mutations and conversation searches

    What the engine's worker does for [ha_engine_search_conversations] and the
    [ha_engine_session_*] calls of HaskellAgentBridge.h (NativeSessionCommands.hs,
    NativeGatewayBoundary.hs).  The store is a parameter, and so is what each reading of the
    gateway's current identity finds.  [search_callbacks_conform]: a search calls back with
    results and then exactly one terminal status, each callback under the identity the search
    was admitted for; [mutation_reports]: a mutation calls back once. *)

From stdpp Require Import base tactics option list gmap strings.
From Stdlib Require Import ZArith Lia.
From S2P Require Import Prelude Utf8 HostCall.
#[local] Open Scope Z_scope.

Inductive SessionMutation :=
  | SessionRename (sessionId title : text)
  | SessionDelete (sessionId : text)
  | SessionArchive (sessionId : text) (archived : bool).

(** Times are in picoseconds since the Unix epoch, as [UTCTime] counts; a rank is the bits of
    its double. *)
Record NativeConversationSearchResult := {
  nativeSearchSessionId : text;
  nativeSearchTitle : text;
  nativeSearchCwd : text;
  nativeSearchProvider : text;
  nativeSearchModel : text;
  nativeSearchUpdatedAt : Z;
  nativeSearchArchived : bool;
  nativeSearchTurnIndex : option Z;
  nativeSearchOccurredAt : option Z;
  nativeSearchRole : option text;
  nativeSearchUserText : option text;
  nativeSearchAssistantText : option text;
  nativeSearchRank : Z;
}.

(** One call of [ha_conversation_search_callback]. *)
Record search_call := {
  sc_status : Z;
  sc_session_id : callback_text;
  sc_title : callback_text;
  sc_cwd : callback_text;
  sc_provider : callback_text;
  sc_model : callback_text;
  sc_updated_at_ms : Z;
  sc_archived : Z;
  sc_turn_index : Z;
  sc_occurred_at_ms : Z;
  sc_role : Z;
  sc_user_text : callback_text;
  sc_assistant_text : callback_text;
  sc_rank : Z;
  sc_error : callback_text;
}.

(** [floor], then into an [Int64]. *)
Definition epochMilliseconds (t : Z) : Z := i64_wrap (t / 10 ^ 9).

Definition searchRoleCode (role : option text) : Z :=
  match role with
  | Some r => if decide (r = txt "user") then 1 else if decide (r = txt "assistant") then 2 else 0
  | None => 0
  end.

Definition sendSearchResult (r : NativeConversationSearchResult) : search_call :=
  Build_search_call 0
    (Some (nativeSearchSessionId r)) (Some (nativeSearchTitle r)) (Some (nativeSearchCwd r))
    (Some (nativeSearchProvider r)) (Some (nativeSearchModel r))
    (epochMilliseconds (nativeSearchUpdatedAt r))
    (if nativeSearchArchived r then 1 else 0)
    (default (-1) (nativeSearchTurnIndex r))
    (match nativeSearchOccurredAt r with Some t => epochMilliseconds t | None => 0 end)
    (searchRoleCode (nativeSearchRole r))
    (nativeSearchUserText r) (nativeSearchAssistantText r) (nativeSearchRank r) None.

Definition search_terminal (status : Z) (error : callback_text) : search_call :=
  Build_search_call status None None None None None 0 0 (-1) 0 0 None None 0 error.

Definition sendSearchFailure (message : text) : search_call := search_terminal (-1) (Some message).

Definition search_complete : search_call := search_terminal 1 None.

Definition GatewayBoundaryChanged : text :=
  txt "Gateway credentials changed during the session operation.".

(** ** The worker's commands *)

Record world := {
  (** The identity that each reading finds, or why there is none. *)
  w_load : nat -> text + option text;
  (** The store's answers, exceptions rendered. *)
  w_search : option text -> text -> Z -> text + list NativeConversationSearchResult;
  w_mutate : option text -> SessionMutation -> text + unit;
}.

Section Commands.
Context (w : world).

(** [ensureNativeGatewayIdentity], at the [n]th reading: why it fails. *)
Definition ensureNativeGatewayIdentity (expected : option text) (n : nat) : option text :=
  match w_load w n with
  | inl err => Some err
  | inr current => if decide (expected = current) then None else Some GatewayBoundaryChanged
  end.

(** [emitBoundaryChecked]: what was emitted, and why it stopped. *)
Fixpoint emitBoundaryChecked {A} (check : nat -> option text) (n : nat) (emit : A -> search_call)
    (terminal : search_call) (items : list A) : list search_call * option text :=
  match check n with
  | Some err => ([], Some err)
  | None =>
      match items with
      | [] => ([terminal], None)
      | item :: remaining =>
          let '(calls, err) := emitBoundaryChecked check (S n) emit terminal remaining in
          (emit item :: calls, err)
      end
  end.

Definition emitSearchResultsForBoundary (identity : option text)
    (results : list NativeConversationSearchResult) : list search_call * option text :=
  emitBoundaryChecked (ensureNativeGatewayIdentity identity) 1 sendSearchResult search_complete results.

Definition runConversationSearch (identity : option text) (query : text) (limit : Z)
    : list search_call :=
  match w_search w identity query limit with
  | inl err => [sendSearchFailure err]
  | inr results =>
      match emitSearchResultsForBoundary identity results with
      | (calls, Some err) => calls ++ [sendSearchFailure err]
      | (calls, None) => calls
      end
  end.

(** The command [EngineSearch]. *)
Definition engine_search (query : text) (limit : Z) : list search_call :=
  match w_load w 0 with
  | inl err => [sendSearchFailure err]
  | inr identity => runConversationSearch identity query limit
  end.

(** The one call of [ha_session_result_callback]: its status and its error. *)
Definition runSessionMutation (mutation : SessionMutation) : Z * callback_text :=
  match w_load w 0 with
  | inl err => (-1, Some err)
  | inr identity =>
      match w_mutate w identity mutation with
      | inl err => (-1, Some err)
      | inr _ =>
          match ensureNativeGatewayIdentity identity 1 with
          | Some err => (-1, Some err)
          | None => (0, None)
          end
      end
  end.

End Commands.

(** ** What the header promises *)

(** "status is 0 for a result, 1 for terminal success, and -1 for terminal failure (with error
    populated). A result has error == NULL. Completion has no result fields." *)
Definition no_result (c : search_call) : Prop :=
  [sc_session_id c; sc_title c; sc_cwd c; sc_provider c; sc_model c; sc_user_text c;
   sc_assistant_text c] = [None; None; None; None; None; None; None].

Definition ha_conversation_search_callback (c : search_call) : Prop :=
  (sc_status c = 0 /\ sc_error c = None /\ In (sc_role c) [0; 1; 2] /\ In (sc_archived c) [0; 1]
   /\ is_Some (sc_session_id c))
  \/ (sc_status c = 1 /\ sc_error c = None /\ no_result c)
  \/ (sc_status c = -1 /\ is_Some (sc_error c) /\ no_result c).

(** Callbacks of one request: results, then one terminal call. *)
Definition search_protocol (calls : list search_call) : Prop :=
  exists items terminal, calls = items ++ [terminal]
    /\ Forall (fun c => sc_status c = 0) items /\ sc_status terminal <> 0
    /\ Forall ha_conversation_search_callback calls.

Lemma send_result_ok r : ha_conversation_search_callback (sendSearchResult r).
Proof.
  left. split; [done|]. split; [done|]. split; [|split].
  - cbn. unfold searchRoleCode. destruct (nativeSearchRole r) as [t|]; [|by left].
    case_decide; [right; by left|]. case_decide; [right; right; by left|by left].
  - cbn. destruct (nativeSearchArchived r); [right; by left|by left].
  - by eexists.
Qed.

Lemma failure_ok message : ha_conversation_search_callback (sendSearchFailure message).
Proof. right. right. by split; [|split; [eexists|]]. Qed.

Lemma complete_ok : ha_conversation_search_callback search_complete.
Proof. right. by left. Qed.

(** Each emission was checked: the results are a prefix, and all of them with the terminal
    call exactly when no check failed. *)
Lemma emit_checked {A} check n (emit : A -> search_call) terminal items :
  exists k, (k <= length items)%nat
    /\ (forall i, (i < k)%nat -> check (n + i)%nat = None)
    /\ match emitBoundaryChecked check n emit terminal items with
       | (calls, Some err) => calls = map emit (take k items) /\ check (n + k)%nat = Some err
       | (calls, None) => k = length items /\ calls = map emit items ++ [terminal]
                          /\ check (n + k)%nat = None
       end.
Proof.
  revert n. induction items as [|item items IH]; intros n; cbn [emitBoundaryChecked].
  - exists 0%nat. split; [done|]. split; [lia|]. rewrite Nat.add_0_r. by destruct (check n) eqn:E.
  - destruct (check n) as [err|] eqn:E.
    + exists 0%nat. split; [cbn; lia|]. split; [lia|]. by rewrite Nat.add_0_r.
    + destruct (IH (S n)) as (k & Hk & Hc & Hm).
      destruct (emitBoundaryChecked check (S n) emit terminal items) as [calls [err|]];
        exists (S k); (split; [cbn; lia|]); split.
      1, 3: intros [|i] Hi; [by rewrite Nat.add_0_r|];
        rewrite <- Nat.add_succ_comm; apply Hc; lia.
      * destruct Hm as [-> Hm]. rewrite <- Nat.add_succ_comm. by split.
      * destruct Hm as (-> & -> & Hm). rewrite <- Nat.add_succ_comm. by split; [|split].
Qed.

Lemma search_protocol_results (results : list NativeConversationSearchResult) terminal :
  sc_status terminal <> 0 -> ha_conversation_search_callback terminal ->
  search_protocol (map sendSearchResult results ++ [terminal]).
Proof.
  intros Hs Ht. exists (map sendSearchResult results), terminal. split; [done|]. split; [|split; [done|]].
  - apply Forall_forall. intros c [r [-> _]]%list_elem_of_fmap. done.
  - apply Forall_app. split; [|by apply Forall_singleton].
    apply Forall_forall. intros c [r [-> _]]%list_elem_of_fmap. apply send_result_ok.
Qed.

(** The calls of a search are results and one terminal call. *)
Lemma engine_search_protocol w query limit : search_protocol (engine_search w query limit).
Proof.
  assert (Hfail : forall err, search_protocol [sendSearchFailure err])
    by (intros err; by apply (search_protocol_results []), failure_ok).
  unfold engine_search. destruct (w_load w 0) as [err|identity]; [apply Hfail|].
  unfold runConversationSearch. destruct (w_search w identity query limit) as [err|results]; [apply Hfail|].
  unfold emitSearchResultsForBoundary.
  destruct (emit_checked (ensureNativeGatewayIdentity w identity) 1 sendSearchResult search_complete
    results) as (k & _ & _ & Hm).
  destruct (emitBoundaryChecked _ _ _ _ _) as [calls [err|]].
  - destruct Hm as [-> _]. by apply search_protocol_results, failure_ok.
  - destruct Hm as (_ & -> & _). by apply search_protocol_results, complete_ok.
Qed.

(** An accepted search calls back with results and then exactly one terminal call, all as
    the header describes them; the results are a prefix of those the store found for the
    identity read first, each sent while that identity was still current, and the terminal
    call is a success exactly when all of them were sent and it still is. *)
Theorem search_callbacks_conform w identity results query limit :
  w_load w 0 = inr identity -> w_search w identity query limit = inr results ->
  search_protocol (engine_search w query limit)
  /\ exists k terminal, (k <= length results)%nat
       /\ engine_search w query limit = map sendSearchResult (take k results) ++ [terminal]
       /\ (forall i, (i < k)%nat -> w_load w (S i) = inr identity)
       /\ (sc_status terminal = 1 <-> k = length results /\ w_load w (S k) = inr identity).
Proof.
  intros Hl Hs. split; [apply engine_search_protocol|].
  assert (Hcheck : forall n, ensureNativeGatewayIdentity w identity n = None -> w_load w n = inr identity).
  { intros n. unfold ensureNativeGatewayIdentity. destruct (w_load w n) as [?|current]; [done|].
    case_decide; [by subst|done]. }
  unfold engine_search, runConversationSearch, emitSearchResultsForBoundary. rewrite Hl, Hs.
  destruct (emit_checked (ensureNativeGatewayIdentity w identity) 1 sendSearchResult search_complete
    results) as (k & Hk & Hi & Hm).
  destruct (emitBoundaryChecked _ _ _ _ _) as [calls [err|]]; exists k.
  - destruct Hm as [-> Herr]. exists (sendSearchFailure err). split; [done|]. split; [done|].
    split; [intros i Hlt; by apply Hcheck, Hi|]. split; [done|]. intros [_ Hlast].
    unfold ensureNativeGatewayIdentity in Herr. cbn in Herr. rewrite Hlast in Herr.
    by rewrite decide_True in Herr.
  - destruct Hm as (-> & -> & Hlast). exists search_complete. split; [done|].
    rewrite take_ge by lia. split; [done|]. split; [intros i Hlt; by apply Hcheck, Hi|].
    split; [intros _|done]. split; [done|]. by apply (Hcheck (1 + length results)%nat).
Qed.

(** A mutation calls back once: with status 0 and no error when the store has made it
    and the identity it was made for is still current, and otherwise with -1 and an error. *)
Theorem mutation_reports w mutation :
  (runSessionMutation w mutation = (0, None) <->
     exists identity, w_load w 0 = inr identity /\ w_mutate w identity mutation = inr tt
       /\ w_load w 1 = inr identity)
  /\ (runSessionMutation w mutation <> (0, None) ->
        exists err, runSessionMutation w mutation = (-1, Some err)).
Proof.
  unfold runSessionMutation, ensureNativeGatewayIdentity.
  destruct (w_load w 0) as [err|identity] eqn:E0.
  { split; [|by exists err]. split; [done|]. by intros (? & ? & _). }
  destruct (w_mutate w identity mutation) as [err|[]] eqn:Em.
  { split; [|by exists err]. split; [done|]. intros (i & [= <-] & Hm & _). congruence. }
  destruct (w_load w 1) as [err|current] eqn:E1.
  { split; [|by exists err]. split; [done|]. by intros (i & _ & _ & ?). }
  case_decide as Hd.
  - subst current. split; [|done]. split; [|done]. by exists identity.
  - split; [|by eexists]. split; [done|]. intros (i & [= <-] & _ & [= <-]). done.
Qed.

(** ** An example: the identity changes after the first result. *)
Definition demo_result : NativeConversationSearchResult :=
  Build_NativeConversationSearchResult (txt "s") (txt "title") (txt "/tmp") (txt "p") (txt "m")
    1700000000123000000000 false (Some 4) None (Some (txt "user")) (Some (txt "hi")) None 0.

Definition demo_changing : world :=
  Build_world (fun n => if (n <=? 1)%nat then inr None else inr (Some (txt "other")))
    (fun _ _ _ => inr [demo_result; demo_result]) (fun _ _ => inr tt).

Example demo_search_calls :
  engine_search demo_changing (txt "hi") 10
  = [sendSearchResult demo_result; sendSearchFailure GatewayBoundaryChanged]
  /\ sc_updated_at_ms (sendSearchResult demo_result) = 1700000000123.
Proof. vm_compute. done. Qed.

Lemma search_callbacks_conform_witness :
  search_protocol (engine_search demo_changing (txt "hi") 10).
Proof.
  exact (proj1 (search_callbacks_conform demo_changing None [demo_result; demo_result] (txt "hi") 10
    eq_refl eq_refl)).
Defined.
