(* ===== verification/Engine.v ===== *)
(** * The engine: its mailbox, its tasks and its supervisor

    Calls of the host that concern tasks, sessions and searches put a command into the
    engine's mailbox and return; one worker thread takes the commands in order, keeps the
    tasks ([TaskSupervisor]) and starts what may run; each running task has a thread of its
    own that reports its session and its end through the same mailbox (HaskellAgentBridge.h
    from [ha_engine_send_json] to [ha_engine_destroy]; EngineMailbox.hs,
    EngineSubmission.hs, NativeSupervisor.hs, EngineLifecycle.hs).  This file has the
    entries with their statuses, the handling of every command, and the threads as a step
    relation; EngineTasks.v proves what they keep. *)

From stdpp Require Import base tactics option list gmap strings.
From Stdlib Require Import ZArith Lia.
From coqutil Require Import Byte.
From S2P Require Import Prelude Utf8 AbiLayout HostCall Staging TaskScheduler SessionCommands.
#[local] Open Scope Z_scope.

(** ** Commands *)

Inductive TaskResult :=
  | TaskOutcome (turnOutcomeSessionId : option text) (turnOutcomeError : option text)
  | TaskFailure (message : text).

(** The requests of [ha_engine_send_json] that change the tasks, as they parse: [turn.start]
    with the turn and its session, or with the identifier whose staging is discarded;
    [turn.cancel] with its turn.  The replies to other requests are not modelled. *)
Inductive BridgeRequest :=
  | request_turn_start (start : text + text * option text)
  | request_turn_cancel (reference : option text)
  | request_other.

Inductive EngineCommand :=
  | EngineRequest (request : BridgeRequest)
  | EngineSearch (query : text) (limit callback context : Z)
  | EngineSessionMutation (mutation : lazy SessionMutation) (callback context : Z)
  | EngineCancelTask (taskId : text)
  | EngineTaskSnapshot (callback context : Z)
  | EngineSetTaskLimit (limit : Z)
  | EngineTaskSession (taskId sessionId : text)
  | EngineTaskFinished (taskId : text) (result : TaskResult)
  | EngineStop.

(** ** The mailbox *)

Record EngineMailbox := {
  mailboxCommands : list EngineCommand;
  mailboxAccepting : bool;
}.

Definition newEngineMailbox : EngineMailbox := Build_EngineMailbox [] true.

Definition acceptEngineCommand (b : EngineMailbox) (c : EngineCommand) : bool * EngineMailbox :=
  if mailboxAccepting b then (true, Build_EngineMailbox (mailboxCommands b ++ [c]) true)
  else (false, b).

Definition closeEngineMailbox (b : EngineMailbox) (c : EngineCommand) : bool * EngineMailbox :=
  if mailboxAccepting b then (true, Build_EngineMailbox (mailboxCommands b ++ [c]) false)
  else (false, b).

(** [readEngineCommand]: [None] blocks. *)
Definition readEngineCommand (b : EngineMailbox) : option (EngineCommand * EngineMailbox) :=
  match mailboxCommands b with
  | [] => None
  | c :: cs => Some (c, Build_EngineMailbox cs (mailboxAccepting b))
  end.

Definition drainEngineCommands (b : EngineMailbox) : list EngineCommand * EngineMailbox :=
  (mailboxCommands b, Build_EngineMailbox [] (mailboxAccepting b)).

(** ** The entries

    The status of a call and the command it submits; [submit] puts it into the mailbox. *)
Definition submit (b : EngineMailbox) (r : Z + EngineCommand) : Z * EngineMailbox :=
  match r with
  | inl status => (status, b)
  | inr c => let '(accepted, b') := acceptEngineCommand b c in (if accepted then 0 else 3, b')
  end.

Section Entries.
Context (m : memory).

(** [text]'s [Text.strip], and the parser of request envelopes. *)
Context (text_strip : text -> text) (parse_request : list byte -> option BridgeRequest).

(** The envelope's own failure also discards what is staged: status 4. *)
Definition ha_engine_send_json (pointer bytes length : Z) : outcome (Z + EngineCommand) :=
  if pointer =? 0 then value (inl 1)
  else if (bytes =? 0) && (0 <? length) then value (inl 2)
  else either_thrown (inl 3)
    (payload ← packCStringLen m bytes length;
     value match parse_request payload with
           | None => inl 4
           | Some request => inr (EngineRequest request)
           end).

Definition staging_after_send (status : Z) (st : staging) : staging :=
  if status =? 4 then discard_all st else st.

Definition ha_engine_cancel_task (pointer taskID taskIDLength : Z) : outcome (Z + EngineCommand) :=
  if pointer =? 0 then value (inl 1)
  else if (taskID =? 0) || (taskIDLength =? 0) then value (inl 2)
  else either_thrown (inl 3)
    (taskIDBytes ← packCStringLen m taskID taskIDLength;
     value match utf8_decode taskIDBytes with
           | None | Some [] => inl 2
           | Some taskIDText => inr (EngineCancelTask taskIDText)
           end).

Definition ha_engine_list_tasks (pointer callback context : Z) : outcome (Z + EngineCommand) :=
  if pointer =? 0 then value (inl 1)
  else if callback =? 0 then value (inl 2)
  else value (inr (EngineTaskSnapshot callback context)).

(** [limit = fromIntegral rawLimit], an [Int]. *)
Definition ha_engine_set_task_limit (pointer rawLimit : Z) : outcome (Z + EngineCommand) :=
  let limit := int_of_size rawLimit in
  if pointer =? 0 then value (inl 1)
  else if (limit <? 1) || (32 <? limit) then value (inl 2)
  else value (inr (EngineSetTaskLimit limit)).

Definition ha_engine_search_conversations (pointer bytes length rawLimit callback context : Z)
    : outcome (Z + EngineCommand) :=
  if pointer =? 0 then value (inl 1)
  else if callback =? 0 then value (inl 2)
  else if (bytes =? 0) || (length =? 0) then value (inl 2)
  else either_thrown (inl 3)
    (payload ← packCStringLen m bytes length;
     value match utf8_decode payload with
           | None => inl 2
           | Some query =>
               match text_strip query with
               | [] => inl 2
               | _ => inr (EngineSearch query (Z.max 1 (Z.min 100 rawLimit)) callback context)
               end
           end).

(** [enqueueSessionMutation]; the strict fields of the mutation are those texts. *)
Definition enqueueSessionMutation (pointer : Z) (mutation : lazy SessionMutation)
    (callback context : Z) : Z + EngineCommand :=
  if pointer =? 0 then inl 1
  else if callback =? 0 then inl 2
  else inr (EngineSessionMutation mutation callback context).

Definition ha_engine_session_rename (engine idBytes idLength titleBytes titleLength callback context : Z)
    : outcome (Z + EngineCommand) :=
  if null_with_bytes idBytes idLength || null_with_bytes titleBytes titleLength then value (inl 2)
  else
    sessionId ← decodeInput m idBytes idLength;
    title ← decodeInput m titleBytes titleLength;
    value (enqueueSessionMutation engine
             (i ← sessionId; t ← title; Some (SessionRename i t)) callback context).

Definition ha_engine_session_delete (engine idBytes idLength callback context : Z)
    : outcome (Z + EngineCommand) :=
  if null_with_bytes idBytes idLength then value (inl 2)
  else
    sessionId ← decodeInput m idBytes idLength;
    value (enqueueSessionMutation engine (SessionDelete <$> sessionId) callback context).

Definition ha_engine_session_archive (engine idBytes idLength archived callback context : Z)
    : outcome (Z + EngineCommand) :=
  if null_with_bytes idBytes idLength then value (inl 2)
  else
    sessionId ← decodeInput m idBytes idLength;
    value (enqueueSessionMutation engine
             ((fun i => SessionArchive i (negb (archived =? 0))) <$> sessionId) callback context).

End Entries.

(** ** Tasks *)

Record PendingTurn := {
  pt_id : text;
  pt_session : option text;
  pt_gateway : option text;
  pt_images : list ImageAttachment;
  pt_options : NativeTurnOptions;
}.

(** A running turn: the session it has reported or was started with, whether it was
    cancelled, and whether its thread still runs. *)
Record RunningTurn := {
  rt_session : option text;
  rt_gateway : option text;
  rt_cancelled : bool;
  rt_alive : bool;
}.

Record TaskSupervisor := {
  supervisorLimit : Z;
  supervisorPending : list PendingTurn;
  supervisorRunning : gmap text RunningTurn;
  supervisorKnownTaskIds : gset text;
}.

Definition defaultTaskLimit : Z := 3.

Definition newTaskSupervisor : TaskSupervisor := Build_TaskSupervisor defaultTaskLimit [] ∅ ∅.

Inductive task_state := queued | running | cancelled | succeeded | failed.

(** What the worker tells the host. *)
Inductive output :=
  | out_reply (ok : bool)
  | out_task_state (id : text) (session : option text) (state : task_state)
  | out_turn_failed (id : text) (message : text)
  | out_turn_completed (id : text) (session : option text)
  | out_snapshot_item (callback context : Z) (id : text) (session : option text) (state : Z)
  | out_snapshot_end (callback context status : Z)
  | out_search (callback context : Z) (c : search_call)
  | out_mutation (callback context status : Z) (error : option text).

(** What the worker finds outside: the gateway's identity, whether an identity still holds,
    the world of a search or a mutation, and how a cancelled turn ends. *)
Record environment := {
  env_gateway : text + option text;
  env_holds : option text -> bool;
  env_world : world;
  env_result : TaskResult;
}.

Definition taskResultState (r : TaskResult) : task_state :=
  match r with
  | TaskFailure _ => failed
  | TaskOutcome _ (Some _) => failed
  | TaskOutcome _ None => succeeded
  end.

Definition taskResultSessionId (fallback : option text) (r : TaskResult) : option text :=
  match r with
  | TaskFailure _ => fallback
  | TaskOutcome (Some s) _ => Some s
  | TaskOutcome None _ => fallback
  end.

Definition finishTurnEvent (id : text) (r : TaskResult) : output :=
  match r with
  | TaskFailure message => out_turn_failed id message
  | TaskOutcome _ (Some err) => out_turn_failed id err
  | TaskOutcome session None => out_turn_completed id session
  end.

(** [emitForNativeGatewayBoundary]. *)
Definition emit_for (env : environment) (identity : option text) (outs : list output) : list output :=
  if env_holds env identity then outs else [].

Section Handling.
Context (env : environment).

Definition with_running (r : gmap text RunningTurn) (s : TaskSupervisor) : TaskSupervisor :=
  Build_TaskSupervisor (supervisorLimit s) (supervisorPending s) r (supervisorKnownTaskIds s).

Definition with_queue (p : list PendingTurn) (s : TaskSupervisor) : TaskSupervisor :=
  Build_TaskSupervisor (supervisorLimit s) p (supervisorRunning s) (supervisorKnownTaskIds s).

Definition with_limit (limit : Z) (s : TaskSupervisor) : TaskSupervisor :=
  Build_TaskSupervisor limit (supervisorPending s) (supervisorRunning s) (supervisorKnownTaskIds s).

(** [enqueueNativeTurn]. *)
Definition enqueueTurn (s : TaskSupervisor) (st : staging) (start : text + text * option text)
    : TaskSupervisor * staging * list output :=
  match start with
  | inl cleanupId => (s, fst (enqueueNativeTurn st (start_malformed cleanupId)), [out_reply false])
  | inr (id, session) =>
      if decide (id ∈ supervisorKnownTaskIds s) then
        (s, fst (enqueueNativeTurn st (start_rejected id)), [out_reply false])
      else match env_gateway env with
      | inl _ => (s, fst (enqueueNativeTurn st (start_rejected id)), [out_reply false])
      | inr gatewayIdentity =>
          match enqueueNativeTurn st (start_queued id) with
          | (st', Some (images, options)) =>
              (Build_TaskSupervisor (supervisorLimit s)
                 (supervisorPending s
                  ++ [Build_PendingTurn id session gatewayIdentity images options])
                 (supervisorRunning s) ({[id]} ∪ supervisorKnownTaskIds s),
               st', [out_reply true; out_task_state id session queued])
          | (st', None) => (s, st', [])
          end
      end
  end.

(** [cancelNativeTaskById]: a running turn is told, and waited for, so that its end is in the
    mailbox afterwards; a queued one is removed. *)
Definition cancelTaskById (s : TaskSupervisor) (id : text)
    : TaskSupervisor * list output * option EngineCommand :=
  match supervisorRunning s !! id with
  | Some r =>
      (with_running (<[id := Build_RunningTurn (rt_session r) (rt_gateway r) true false]>
                       (supervisorRunning s)) s,
       [], if rt_alive r then Some (EngineTaskFinished id (env_result env)) else None)
  | None =>
      (with_queue (filter (fun p => pt_id p <> id) (supervisorPending s)) s,
       flat_map (fun p => emit_for env (pt_gateway p)
                            [out_task_state (pt_id p) (pt_session p) cancelled;
                             out_turn_failed (pt_id p) (txt "turn cancelled")])
         (filter (fun p => pt_id p = id) (supervisorPending s)),
       None)
  end.

(** [sendTaskSnapshot]. *)
Definition sendTaskSnapshot (s : TaskSupervisor) (callback context : Z) : list output :=
  match env_gateway env with
  | inl _ => [out_snapshot_end callback context (-1)]
  | inr identity =>
      flat_map (fun p =>
          if decide (pt_gateway p = identity)
          then [out_snapshot_item callback context (pt_id p) (pt_session p) 0] else [])
        (supervisorPending s)
      ++ flat_map (fun '(id, r) =>
          if decide (rt_gateway r = identity)
          then [out_snapshot_item callback context id (rt_session r) 1] else [])
        (map_to_list (supervisorRunning s))
      ++ [out_snapshot_end callback context 1]
  end.

(** The end of a turn's thread. *)
Definition finishTask (s : TaskSupervisor) (id : text) (result : TaskResult)
    : TaskSupervisor * list output :=
  match supervisorRunning s !! id with
  | None => (s, [])
  | Some r =>
      (with_running (delete id (supervisorRunning s)) s,
       emit_for env (rt_gateway r)
         (if rt_cancelled r then
            [out_task_state id (rt_session r) cancelled; out_turn_failed id (txt "turn cancelled")]
          else
            [out_task_state id (taskResultSessionId (rt_session r) result) (taskResultState result);
             finishTurnEvent id result]))
  end.

Definition reportSession (s : TaskSupervisor) (id sessionId : text) : TaskSupervisor :=
  match supervisorRunning s !! id with
  | None => s
  | Some r =>
      with_running (<[id := Build_RunningTurn (Some sessionId) (rt_gateway r) (rt_cancelled r)
                              (rt_alive r)]> (supervisorRunning s)) s
  end.

(** [handleCommand], for the commands after which the worker goes on: the supervisor, the
    staging, what the host is told and what a cancelled turn has put into the mailbox. *)
Definition handleCommand (s : TaskSupervisor) (st : staging) (c : EngineCommand)
    : TaskSupervisor * staging * list output * option EngineCommand :=
  match c with
  | EngineRequest (request_turn_start start) =>
      let '(s', st', outs) := enqueueTurn s st start in (s', st', outs, None)
  | EngineRequest (request_turn_cancel None) => (s, st, [out_reply false], None)
  | EngineRequest (request_turn_cancel (Some id)) =>
      let active := bool_decide (is_Some (supervisorRunning s !! id)) in
      let is_queued := existsb (fun p => bool_decide (pt_id p = id)) (supervisorPending s) in
      let '(s', outs, posted) := cancelTaskById s id in
      (s', st, outs ++ [out_reply (active || is_queued)], posted)
  | EngineRequest request_other => (s, st, [], None)
  | EngineSearch query limit callback context =>
      (s, st, map (out_search callback context) (engine_search (env_world env) query limit), None)
  | EngineSessionMutation (Some mutation) callback context =>
      let '(status, error) := runSessionMutation (env_world env) mutation in
      (s, st, [out_mutation callback context status error], None)
  | EngineSessionMutation None _ _ => (s, st, [], None)
  | EngineCancelTask id =>
      let '(s', outs, posted) := cancelTaskById s id in (s', st, outs, posted)
  | EngineTaskSnapshot callback context => (s, st, sendTaskSnapshot s callback context, None)
  | EngineSetTaskLimit limit => (with_limit limit s, st, [], None)
  | EngineTaskSession id sessionId => (reportSession s id sessionId, st, [], None)
  | EngineTaskFinished id result =>
      let '(s', outs) := finishTask s id result in (s', st, outs, None)
  | EngineStop => (s, st, [], None)
  end.

End Handling.

(** [startRunnableTasks]: the sessions of the running turns are busy; what is selected gets a
    thread. *)
Definition activeSessionIds (s : TaskSupervisor) : gset text :=
  list_to_set (omap rt_session ((map_to_list (supervisorRunning s)).*2)).

Definition candidate_of (p : PendingTurn) : TaskIdentity * PendingTurn :=
  (Build_TaskIdentity (pt_id p) (pt_session p), p).

Definition start_turn (r : gmap text RunningTurn) (p : PendingTurn) : gmap text RunningTurn :=
  <[pt_id p := Build_RunningTurn (pt_session p) (pt_gateway p) false true]> r.

Definition startRunnableTasks (s : TaskSupervisor) : TaskSupervisor :=
  let available := supervisorLimit s - Z.of_nat (size (supervisorRunning s)) in
  let '(selected, remaining) :=
    selectRunnableTasks available (activeSessionIds s) (candidate_of <$> supervisorPending s) in
  Build_TaskSupervisor (supervisorLimit s) (snd <$> remaining)
    (foldl start_turn (supervisorRunning s) (snd <$> selected)) (supervisorKnownTaskIds s).

(** ** The threads *)

Record engine := {
  en_mailbox : EngineMailbox;
  en_staging : staging;
  en_supervisor : TaskSupervisor;
  en_worker : bool;
}.

Definition engine_init : engine :=
  Build_engine newEngineMailbox empty_staging newTaskSupervisor true.

Definition with_mailbox (b : EngineMailbox) (e : engine) : engine :=
  Build_engine b (en_staging e) (en_supervisor e) (en_worker e).

Definition with_staging (st : staging) (e : engine) : engine :=
  Build_engine (en_mailbox e) st (en_supervisor e) (en_worker e).

Definition with_supervisor (s : TaskSupervisor) (e : engine) : engine :=
  Build_engine (en_mailbox e) (en_staging e) s (en_worker e).

Definition post (c : EngineCommand) (b : EngineMailbox) : EngineMailbox :=
  snd (acceptEngineCommand b c).

(** [cancelPendingCallbacks], for the commands modelled here: only snapshots are told. *)
Definition stopped_callbacks (cs : list EngineCommand) : list output :=
  flat_map (fun c => match c with
                     | EngineTaskSnapshot callback context => [out_snapshot_end callback context (-1)]
                     | _ => []
                     end) cs.

(** Whether the worker ends when it takes a command: at the stop command, and by an
    exception when the command cannot be computed. *)
Definition ends_worker (c : EngineCommand) : bool :=
  match c with
  | EngineStop | EngineSessionMutation None _ _ => true
  | _ => false
  end.

Inductive event :=
  | en_submit (c : EngineCommand) (accepted : bool)
  | en_handle (c : EngineCommand) (outs : list output)
  | en_end (c : EngineCommand) (outs : list output)
  | en_internal.

(** The commands that calls of the host submit. *)
Definition host_command (c : EngineCommand) : Prop :=
  match c with
  | EngineTaskSession _ _ | EngineTaskFinished _ _ | EngineStop => False
  | EngineSetTaskLimit n => 1 <= n <= 32
  | _ => True
  end.

Inductive step (e : engine) : event -> engine -> Prop :=
  (** A call of the host, on any thread. *)
  | step_submit c accepted b :
      host_command c -> acceptEngineCommand (en_mailbox e) c = (accepted, b) ->
      step e (en_submit c accepted) (with_mailbox b e)
  | step_stage st : step e en_internal (with_staging st e)
  | step_destroy :
      step e en_internal (with_mailbox (snd (closeEngineMailbox (en_mailbox e) EngineStop)) e)
  (** The worker takes a command, and starts what may run. *)
  | step_handle env c b s st outs posted :
      en_worker e = true -> readEngineCommand (en_mailbox e) = Some (c, b) ->
      ends_worker c = false ->
      handleCommand env (en_supervisor e) (en_staging e) c = (s, st, outs, posted) ->
      step e (en_handle c outs)
        (Build_engine (match posted with Some p => post p b | None => b end) st
           (startRunnableTasks s) true)
  (** The worker ends: the turns are joined, the mailbox is closed and drained. *)
  | step_end c b :
      en_worker e = true -> readEngineCommand (en_mailbox e) = Some (c, b) ->
      ends_worker c = true ->
      step e (en_end c (stopped_callbacks (mailboxCommands b)))
        (Build_engine (Build_EngineMailbox [] false) (en_staging e)
           (with_running ∅ (en_supervisor e)) false)
  (** A turn's thread reports the session it was started with, or the new one it made. *)
  | step_session id r sessionId :
      supervisorRunning (en_supervisor e) !! id = Some r -> rt_alive r = true ->
      (rt_session r = Some sessionId
       \/ rt_session r = None
          /\ forall id' r', supervisorRunning (en_supervisor e) !! id' = Some r' ->
               rt_session r' <> Some sessionId) ->
      step e en_internal
        (with_mailbox (post (EngineTaskSession id sessionId) (en_mailbox e))
           (with_supervisor (reportSession (en_supervisor e) id sessionId) e))
  (** A turn's thread ends. *)
  | step_finish id r result :
      supervisorRunning (en_supervisor e) !! id = Some r -> rt_alive r = true ->
      step e en_internal
        (with_mailbox (post (EngineTaskFinished id result) (en_mailbox e))
           (with_supervisor
              (with_running (<[id := Build_RunningTurn (rt_session r) (rt_gateway r)
                                       (rt_cancelled r) false]>
                               (supervisorRunning (en_supervisor e))) (en_supervisor e)) e)).

Inductive reach : list event -> engine -> Prop :=
  | reach_init : reach [] engine_init
  | reach_step tr e ev e' : reach tr e -> step e ev e' -> reach (tr ++ [ev]) e'.
