(* ===== verification/EngineTasks.v ===== *)
(** * What the engine keeps: tasks, callbacks and order

    Invariants of the step relation of Engine.v, by induction on its executions.
    [tasks_kept]: the tasks are known by distinct identifiers, at most 32 run, and no two of
    one session.  [task_ends_once]: a task is reported as ended at most once, and is gone
    then.  [finished_turn_leaves]: a turn whose thread has ended leaves when the worker has
    taken the commands before it.  [engine_work_conserving]: no queued turn that may run
    waits.  [engine_callbacks_once]: accepted commands are taken in order, each that asks for a last
    callback with one, unless the worker was ended by a mutation whose texts are not UTF-8.
    [task_snapshot_conforms] and [engine_entries_contract] are the header's words on snapshots
    and on the entries.  [undecodable_mutation_ends_worker] shows an exception: a
    session identifier that is not UTF-8. *)

From stdpp Require Import base tactics option list gmap strings.
From Stdlib Require Import ZArith Lia.
From coqutil Require Import Byte.
From S2P Require Import Prelude Utf8 AbiLayout HostCall Staging TaskScheduler SessionCommands Engine.
#[local] Open Scope Z_scope.

(** ** Supervisors *)

Definition pending_ids (s : TaskSupervisor) : list text := pt_id <$> supervisorPending s.

Definition live (s : TaskSupervisor) (id : text) : Prop :=
  id ∈ pending_ids s \/ is_Some (supervisorRunning s !! id).

(** No two running turns have one session. *)
Definition exclusive (r : gmap text RunningTurn) : Prop :=
  forall id id' t t' sid, r !! id = Some t -> r !! id' = Some t' ->
    rt_session t = Some sid -> rt_session t' = Some sid -> id = id'.

Record tasks_ok (s : TaskSupervisor) : Prop := {
  tasks_limit : 1 <= supervisorLimit s <= 32;
  tasks_distinct : NoDup (pending_ids s);
  tasks_disjoint : forall id, id ∈ pending_ids s -> supervisorRunning s !! id = None;
  tasks_known : forall id, live s id -> id ∈ supervisorKnownTaskIds s;
  tasks_count : Z.of_nat (size (supervisorRunning s)) <= 32;
  tasks_exclusive : exclusive (supervisorRunning s);
}.

(** From [s] to [s'] no task is taken up again, and a session that is set stays. *)
Definition evolves (s s' : TaskSupervisor) : Prop :=
  supervisorKnownTaskIds s ⊆ supervisorKnownTaskIds s'
  /\ forall id, id ∈ supervisorKnownTaskIds s -> id ∉ pending_ids s ->
       (id ∉ pending_ids s')
       /\ forall t', supervisorRunning s' !! id = Some t' ->
            exists t, supervisorRunning s !! id = Some t
              /\ (forall sid, rt_session t = Some sid -> rt_session t' = Some sid).

Lemma evolves_refl s : evolves s s.
Proof. split; [done|]. eauto. Qed.

Lemma evolves_trans s1 s2 s3 : evolves s1 s2 -> evolves s2 s3 -> evolves s1 s3.
Proof.
  intros [K1 E1] [K2 E2]. split; [by transitivity (supervisorKnownTaskIds s2)|]. intros id Hk Hp.
  destruct (E1 id Hk Hp) as [P1 R1]. destruct (E2 id (K1 _ Hk) P1) as [P2 R2].
  split; [done|]. intros t3 H3. destruct (R2 _ H3) as (t2 & H2 & S2).
  destruct (R1 _ H2) as (t1 & H1 & S1). exists t1. auto.
Qed.

Lemma evolves_gone s s' id :
  evolves s s' -> id ∈ supervisorKnownTaskIds s -> ~ live s id -> ~ live s' id.
Proof.
  intros [K E] Hk Hl. destruct (E id Hk) as [P R]; [by intros ?; apply Hl; left|].
  intros [?|[t' Ht]]; [done|]. destruct (R t' Ht) as (t & Ht' & _). apply Hl. right. by exists t.
Qed.

(** What a command in the mailbox says is still true when it is taken. *)
Definition command_ok (s : TaskSupervisor) (c : EngineCommand) : Prop :=
  match c with
  | EngineSetTaskLimit n => 1 <= n <= 32
  | EngineTaskSession id sid =>
      id ∈ supervisorKnownTaskIds s /\ (id ∉ pending_ids s)
      /\ forall t, supervisorRunning s !! id = Some t -> rt_session t = Some sid
  | _ => True
  end.

Lemma command_ok_evolves s s' c : evolves s s' -> command_ok s c -> command_ok s' c.
Proof.
  intros [K E]. destruct c; try done. intros (Hk & Hp & Ht).
  destruct (E _ Hk Hp) as [P R]. split; [by apply K|]. split; [done|].
  intros t' H'. destruct (R t' H') as (t & H & S). auto.
Qed.

(** ** Changing one running turn *)

Lemma with_running_evolves s r :
  (forall id t', r !! id = Some t' -> exists t, supervisorRunning s !! id = Some t
     /\ forall sid, rt_session t = Some sid -> rt_session t' = Some sid) ->
  evolves s (with_running r s).
Proof. intros H. split; [done|]. intros id _ Hp. split; [done|]. apply H. Qed.

(** The turn keeps its session, or gets a first one that no other turn has. *)
Lemma update_running s id t t' :
  supervisorRunning s !! id = Some t ->
  rt_session t' = rt_session t
  \/ rt_session t = None
     /\ (forall sid, rt_session t' = Some sid ->
           forall id' x, supervisorRunning s !! id' = Some x -> rt_session x <> Some sid) ->
  tasks_ok s ->
  tasks_ok (with_running (<[id := t']> (supervisorRunning s)) s)
  /\ evolves s (with_running (<[id := t']> (supervisorRunning s)) s).
Proof.
  intros Ht Hs [L D J K C X]. split.
  - split; try done.
    + intros i Hi. cbn. destruct (decide (id = i)) as [<-|]; [|by rewrite lookup_insert_ne; auto].
      rewrite J in Ht by done. done.
    + intros i [Hi|Hi]; apply K; [by left|right]. cbn in Hi.
      destruct (decide (id = i)) as [<-|]; [by exists t|by rewrite lookup_insert_ne in Hi].
    + cbn. rewrite map_size_insert_Some by by exists t. done.
    + intros i j a b sid. cbn. rewrite !lookup_insert_Some.
      intros [[<- <-]|[Hi Ha]] [[<- <-]|[Hj Hb]] Sa Sb; try done.
      * destruct Hs as [Hs|[_ Hs]]; [rewrite Hs in Sa; by eapply X|by destruct (Hs _ Sa _ _ Hb)].
      * destruct Hs as [Hs|[_ Hs]]; [rewrite Hs in Sb; by eapply X|by destruct (Hs _ Sb _ _ Ha)].
      * by eapply X.
  - apply with_running_evolves. intros i a. rewrite lookup_insert_Some.
    intros [[<- <-]|[Hi Ha]]; [|eauto]. exists t. split; [done|].
    intros sid Hsid. destruct Hs as [->|[Hn _]]; [done|congruence].
Qed.

Lemma delete_running s id :
  tasks_ok s -> tasks_ok (with_running (delete id (supervisorRunning s)) s)
    /\ evolves s (with_running (delete id (supervisorRunning s)) s).
Proof.
  intros [L D J K C X]. split.
  - split; try done.
    + intros i Hi. cbn. apply lookup_delete_None. auto.
    + intros i [Hi|[t Hi]]; apply K; [by left|right]. cbn in Hi. apply lookup_delete_Some in Hi as [_ Hi].
      by exists t.
    + cbn. rewrite map_size_delete. destruct (supervisorRunning s !! id); cbn; [lia|done].
    + intros i j a b sid. cbn. rewrite !lookup_delete_Some. intros [_ Ha] [_ Hb]. by eapply X.
  - apply with_running_evolves. intros i a Hi%lookup_delete_Some. exists a. tauto.
Qed.

(** ** Ends *)

(** The tasks that outputs report as ended. *)
Definition ends (outs : list output) : list text :=
  omap (fun o => match o with
                 | out_turn_failed id _ | out_turn_completed id _ => Some id
                 | _ => None
                 end) outs.

Lemma ends_app a b : ends (a ++ b) = ends a ++ ends b.
Proof. apply omap_app. Qed.

Lemma ends_emit_for env identity outs :
  ends (emit_for env identity outs) = if env_holds env identity then ends outs else [].
Proof. unfold emit_for. by destruct (env_holds env identity). Qed.

Lemma ends_finish_event id r : ends [finishTurnEvent id r] = [id].
Proof. by destruct r as [? []|]. Qed.

(** What handling a command guarantees. *)
Record handled (s s' : TaskSupervisor) (outs : list output) : Prop := {
  handled_ok : tasks_ok s';
  handled_evolves : evolves s s';
  handled_ends : ends outs = [] \/ exists id, ends outs = [id]
                   /\ live s id /\ id ∈ supervisorKnownTaskIds s' /\ ~ live s' id;
}.

Lemma handled_none s outs : tasks_ok s -> ends outs = [] -> handled s s outs.
Proof. intros H E. split; [done|apply evolves_refl|by left]. Qed.

Lemma pending_ids_filter_ne id (l : list PendingTurn) :
  pt_id <$> filter (fun p => pt_id p <> id) l = filter (fun i => i <> id) (pt_id <$> l).
Proof.
  induction l as [|p l IH]; [done|]. rewrite fmap_cons, !filter_cons.
  case_decide; rewrite ?fmap_cons; by rewrite IH.
Qed.

(** In a list of distinct identifiers, those that equal one are at most one. *)
Lemma filter_one id (l : list PendingTurn) :
  NoDup (pt_id <$> l) ->
  filter (fun p => pt_id p = id) l = [] /\ (id ∉ pt_id <$> l)
  \/ exists p, filter (fun p => pt_id p = id) l = [p] /\ pt_id p = id /\ id ∈ pt_id <$> l.
Proof.
  induction l as [|p l IH]; intros Hd; [left; split; [done|apply not_elem_of_nil]|].
  cbn in Hd. apply NoDup_cons in Hd as [Hp Hd]. rewrite filter_cons, fmap_cons.
  destruct (IH Hd) as [[E N]|(q & E & <- & I)].
  - case_decide as H; [right|left].
    + exists p. rewrite E, <- H. split; [done|]. split; [done|]. apply list_elem_of_here.
    + split; [done|]. rewrite elem_of_cons. intros [->|?]; done.
  - right. case_decide as H; [by rewrite H in Hp|]. exists q. split; [done|]. split; [done|].
    by apply list_elem_of_further.
Qed.

(** ** Handling a command *)

Section Handling.
Context (env : environment).

Lemma cancel_handled s id s' outs posted :
  tasks_ok s -> cancelTaskById env s id = (s', outs, posted) -> handled s s' outs.
Proof.
  intros Hs. unfold cancelTaskById. destruct (supervisorRunning s !! id) as [t|] eqn:Ht.
  - intros [= <- <- <-].
    destruct (update_running s id t (Build_RunningTurn (rt_session t) (rt_gateway t) true false) Ht
                ltac:(by left) Hs). split; try done. by left.
  - intros [= <- <- <-]. destruct Hs as [L D J K C X].
    assert (Hsub : forall i, i ∈ filter (fun i => i <> id) (pending_ids s) <-> (i <> id) /\ i ∈ pending_ids s)
      by (intros i; by rewrite list_elem_of_filter).
    split.
    + split; try done; unfold pending_ids; cbn; rewrite ?pending_ids_filter_ne.
      * by apply NoDup_filter.
      * intros i [_ Hi]%Hsub. auto.
      * intros i [Hi|Hi]; apply K; [left|by right]. unfold pending_ids in Hi. cbn in Hi.
        rewrite pending_ids_filter_ne in Hi. apply Hsub in Hi. tauto.
    + split; [done|]. intros i _ Hp. split; [|eauto]. unfold pending_ids. cbn.
      rewrite pending_ids_filter_ne. by intros [_ Hi]%Hsub.
    + destruct (filter_one id (supervisorPending s) D) as [[-> _]|(p & -> & Hp & Hi)]; [by left|].
      cbn [flat_map]. rewrite app_nil_r, ends_emit_for. destruct (env_holds _ _); [right|by left].
      exists id. cbn. rewrite Hp. split; [done|]. split; [by left|]. split; [by apply K; left|].
      intros [H|H]; [|cbn in H; rewrite Ht in H; by destruct H]. unfold pending_ids in H. cbn in H.
      rewrite pending_ids_filter_ne in H. apply Hsub in H. tauto.
Qed.

Lemma enqueue_handled s st start s' st' outs :
  tasks_ok s -> enqueueTurn env s st start = (s', st', outs) -> handled s s' outs.
Proof.
  intros Hs. unfold enqueueTurn.
  destruct start as [?|[id session]]; [intros [= <- _ <-]; by apply handled_none|].
  case_decide as Hk; [intros [= <- _ <-]; by apply handled_none|].
  destruct (env_gateway env) as [?|g]; [intros [= <- _ <-]; by apply handled_none|].
  destruct (enqueueNativeTurn st (start_queued id)) as [st1 [[images options]|]];
    [|intros [= <- _ <-]; by apply handled_none].
  intros [= <- _ <-]. destruct Hs as [L D J K C X].
  assert (Hids : forall i, i ∈ pt_id <$> supervisorPending s ++ [Build_PendingTurn id session g images options]
    <-> i ∈ pending_ids s \/ i = id).
  { intros i. rewrite fmap_app, elem_of_app. cbn. by rewrite list_elem_of_singleton. }
  assert (Hn : supervisorRunning s !! id = None).
  { apply eq_None_not_Some. intros H. apply Hk, K. by right. }
  split; [split; try done| |by left].
  - unfold pending_ids. cbn. rewrite fmap_app. apply NoDup_app. split; [done|].
    split; [|apply NoDup_singleton]. intros i Hi Hs%list_elem_of_singleton; subst i. apply Hk, K. by left.
  - intros i [Hi| -> ]%Hids; auto.
  - intros i [[Hi|Hi]%Hids|Hi]; cbn.
    + apply elem_of_union_r, K. by left.
    + apply elem_of_union_l. by apply elem_of_singleton.
    + apply elem_of_union_r, K. by right.
  - split; [apply union_subseteq_r|]. intros i Hi Hp. split; [|eauto].
    intros [?| -> ]%Hids; done.
Qed.

Lemma finish_handled s id result s' outs :
  tasks_ok s -> finishTask env s id result = (s', outs) -> handled s s' outs.
Proof.
  intros Hs. unfold finishTask. destruct (supervisorRunning s !! id) as [t|] eqn:Ht;
    [|intros [= <- <-]; by apply handled_none].
  destruct (delete_running s id Hs) as [Hok Hev]. intros [= <- <-]. split; [done..|].
  rewrite ends_emit_for. destruct (env_holds _ _); [right|by left]. exists id.
  assert (Hl : live s id) by (right; by exists t). destruct Hs as [L D J K C X].
  split; [destruct (rt_cancelled t); [done|]; apply ends_finish_event|].
  split; [done|]. split; [by apply K|]. intros [Hp|Hr].
  - apply J in Hp. congruence.
  - cbn in Hr. rewrite lookup_delete_eq in Hr. by destruct Hr.
Qed.

(** A report in the mailbox says what is known already. *)
Lemma report_same s id sid :
  (forall t, supervisorRunning s !! id = Some t -> rt_session t = Some sid) ->
  reportSession s id sid = s.
Proof.
  intros H. unfold reportSession. destruct (supervisorRunning s !! id) as [t|] eqn:Ht; [|done].
  rewrite <- (H t eq_refl). replace (Build_RunningTurn _ _ _ _) with t by by destruct t.
  unfold with_running. rewrite insert_id by done. by destruct s.
Qed.

Lemma snapshot_ends s callback context : ends (sendTaskSnapshot env s callback context) = [].
Proof.
  unfold sendTaskSnapshot. destruct (env_gateway env) as [?|g]; [done|].
  assert (H : forall {A} (f : A -> list output) l, (forall x, ends (f x) = []) -> ends (flat_map f l) = []).
  { intros A f l Hf. induction l as [|x l IH]; [done|]. cbn. by rewrite ends_app, Hf. }
  rewrite !ends_app, !H; [done|intros [id t]|intros p]; by case_decide.
Qed.

Lemma search_ends callback context calls : ends (map (out_search callback context) calls) = [].
Proof. induction calls as [|c calls IH]; [done|]. exact IH. Qed.

Lemma command_handled s st c s' st' outs posted :
  tasks_ok s -> command_ok s c -> handleCommand env s st c = (s', st', outs, posted) ->
  handled s s' outs.
Proof.
  intros Hs Hc. destruct c as [[start|[id|]|]|query lim scb scx|[mu|] mcb mcx|id|callback context|n|id sid|id result|];
    cbn [handleCommand]; try (by intros [= <- _ <- _]; apply handled_none).
  - destruct (enqueueTurn env s st start) as [[s1 st1] o1] eqn:E. intros [= <- _ <- _].
    by eapply enqueue_handled.
  - destruct (cancelTaskById env s id) as [[s1 o1] p1] eqn:E. intros [= <- _ <- _].
    apply cancel_handled in E as [? ? He]; [|done]. split; [done..|].
    rewrite ends_app. cbn. by rewrite app_nil_r.
  - intros [= <- _ <- _]. apply handled_none; [done|]. apply search_ends.
  - destruct (runSessionMutation (env_world env) mu). by intros [= <- _ <- _]; apply handled_none.
  - destruct (cancelTaskById env s id) as [[s1 o1] p1] eqn:E. intros [= <- _ <- _].
    by eapply cancel_handled.
  - intros [= <- _ <- _]. apply handled_none; [done|]. apply snapshot_ends.
  - intros [= <- _ <- _]. destruct Hs. split; [split; try done| |by left]. split; [done|eauto].
  - intros [= <- _ <- _]. rewrite report_same by apply Hc. by apply handled_none.
  - destruct (finishTask env s id result) as [s1 o1] eqn:E. intros [= <- _ <- _].
    by eapply finish_handled.
Qed.

End Handling.

(** ** Starting what may run *)

Lemma merged_fmap {task} (f : PendingTurn -> TaskIdentity * task) a b l l0 :
  merged a b l -> l = f <$> l0 ->
  exists a0 b0, a = f <$> a0 /\ b = f <$> b0 /\ l0 ≡ₚ a0 ++ b0.
Proof.
  intros H. revert l0. induction H as [|c a b l H IH|c a b l H IH]; intros [|p l0] Hl; try done.
  { by exists [], []. }
  all: rewrite fmap_cons in Hl; injection Hl as -> Hl;
    destruct (IH l0 Hl) as (a0 & b0 & -> & -> & P).
  - exists (p :: a0), b0. split; [done|]. split; [done|]. by apply Permutation_skip.
  - exists a0, (p :: b0). split; [done|]. split; [done|].
    etrans; [apply Permutation_skip, P|apply Permutation_middle].
Qed.

Lemma started s :
  exists selected remaining,
    startRunnableTasks s
    = Build_TaskSupervisor (supervisorLimit s) remaining
        (foldl start_turn (supervisorRunning s) selected) (supervisorKnownTaskIds s)
    /\ supervisorPending s ≡ₚ selected ++ remaining
    /\ Z.of_nat (length selected) <= Z.max 0 (supervisorLimit s - Z.of_nat (size (supervisorRunning s)))
    /\ (forall p sid, p ∈ selected -> pt_session p = Some sid -> sid ∉ activeSessionIds s)
    /\ (forall sid, (length (filter (fun p => pt_session p = Some sid) selected) <= 1)%nat)
    /\ (Z.of_nat (size (supervisorRunning s)) + Z.of_nat (length selected) < supervisorLimit s ->
        forall p, p ∈ remaining -> exists sid, pt_session p = Some sid
          /\ (sid ∈ activeSessionIds s \/ exists q, q ∈ selected /\ pt_session q = Some sid)).
Proof.
  unfold startRunnableTasks. set (n := supervisorLimit s - _).
  destruct (selectRunnableTasks n _ _) as [sel def] eqn:E.
  apply selected_picked in E as [Hm Hc Ha Hx _ Hb].
  destruct (merged_fmap candidate_of _ _ _ _ Hm eq_refl) as (a & b & -> & -> & P).
  assert (Hs : forall l : list PendingTurn, snd <$> (candidate_of <$> l) = l).
  { intros l. rewrite <- list_fmap_compose. apply list_fmap_id. }
  assert (Hf : forall sid l, of_session sid (candidate_of <$> l)
                = candidate_of <$> filter (fun p => pt_session p = Some sid) l).
  { intros sid l. induction l as [|p l IH]; [done|]. rewrite fmap_cons, of_session_cons, IH, filter_cons.
    by repeat case_decide. }
  exists a, b. rewrite !Hs. split; [done|]. split; [done|]. rewrite length_fmap in Hc.
  split; [lia|]. split; [|split].
  - intros p sid Hp Hsid Hact. specialize (Ha sid Hact). rewrite Hf in Ha.
    apply fmap_nil_inv in Ha.
    assert (Hin : p ∈ filter (fun p => pt_session p = Some sid) a) by by rewrite list_elem_of_filter.
    rewrite Ha in Hin. by apply not_elem_of_nil in Hin.
  - intros sid. specialize (Hx sid). by rewrite Hf, length_fmap in Hx.
  - intros Hlt p Hp. destruct (Hb ltac:(rewrite length_fmap; lia) (candidate_of p)) as (sid & Hsid & Hbusy).
    { apply list_elem_of_In. by apply list_elem_of_fmap_2. }
    exists sid. split; [done|]. destruct Hbusy as [Hbusy|Hbusy]; [by left|right]. rewrite Hf in Hbusy.
    destruct (filter _ a) as [|q l] eqn:El; [done|]. exists q.
    assert (Hq : q ∈ filter (fun p => pt_session p = Some sid) a) by (rewrite El; apply list_elem_of_here).
    by apply list_elem_of_filter in Hq as [? ?].
Qed.

Definition running_of (p : PendingTurn) : RunningTurn :=
  Build_RunningTurn (pt_session p) (pt_gateway p) false true.

Lemma start_lookup l r id t :
  foldl start_turn r l !! id = Some t ->
  r !! id = Some t \/ exists p, p ∈ l /\ pt_id p = id /\ t = running_of p.
Proof.
  revert r. induction l as [|p l IH]; intros r H; [by left|]. cbn in H.
  apply IH in H as [H|(q & Hq & E & ->)].
  - unfold start_turn in H. apply lookup_insert_Some in H as [[E <-]|[_ H]]; [right|by left].
    exists p. split; [apply list_elem_of_here|done].
  - right. exists q. split; [by apply list_elem_of_further|done].
Qed.

Lemma start_lookup_other l r id :
  (id ∉ pt_id <$> l) -> foldl start_turn r l !! id = r !! id.
Proof.
  revert r. induction l as [|p l IH]; intros r H; [done|]. cbn in *.
  rewrite not_elem_of_cons in H. destruct H as [Hne H]. rewrite IH by done.
  by apply lookup_insert_ne.
Qed.

Lemma start_size l r : (size (foldl start_turn r l) <= size r + length l)%nat.
Proof.
  revert r. induction l as [|p l IH]; intros r; cbn; [lia|].
  specialize (IH (start_turn r p)).
  assert (size (start_turn r p) <= S (size r))%nat; [|lia].
  unfold start_turn. rewrite map_size_insert. destruct (r !! pt_id p); cbn; lia.
Qed.

Lemma start_exclusive l : forall r,
  exclusive r ->
  NoDup (pt_id <$> l) -> (forall p, p ∈ l -> r !! pt_id p = None) ->
  (forall p sid id t, p ∈ l -> pt_session p = Some sid -> r !! id = Some t -> rt_session t <> Some sid) ->
  (forall sid, (length (filter (fun p => pt_session p = Some sid) l) <= 1)%nat) ->
  exclusive (foldl start_turn r l).
Proof.
  induction l as [|p l IH]; intros r Hx Hd Hn Hs Ho; [done|].
  rewrite fmap_cons in Hd. apply NoDup_cons in Hd as [Hp Hd]. cbn [foldl]. apply IH; try done.
  - intros i j a b sid. unfold start_turn. rewrite !lookup_insert_Some.
    intros [[<- <-]|[_ Ha]] [[<- <-]|[_ Hb]] Sa Sb; try done.
    + by edestruct (Hs p sid j b); [apply list_elem_of_here|..].
    + by edestruct (Hs p sid i a); [apply list_elem_of_here|..].
    + by eapply Hx.
  - intros q Hq. unfold start_turn. rewrite lookup_insert_ne.
    + apply Hn. by apply list_elem_of_further.
    + intros E. apply Hp. rewrite E. by apply list_elem_of_fmap_2.
  - intros q sid id t Hq Sq. unfold start_turn. rewrite lookup_insert_Some.
    intros [[<- <-]|[_ Ht]]; [|eapply Hs; [by apply list_elem_of_further|done..]].
    cbn. intros Sp. specialize (Ho sid). rewrite filter_cons, decide_True in Ho by done.
    assert (Hin : q ∈ filter (fun p => pt_session p = Some sid) l) by by rewrite list_elem_of_filter.
    destruct (filter _ l); [by apply not_elem_of_nil in Hin|]. cbn in Ho. lia.
  - intros sid. specialize (Ho sid). rewrite filter_cons in Ho. case_decide; cbn in Ho; lia.
Qed.

Lemma start_handled s : tasks_ok s -> handled s (startRunnableTasks s) [].
Proof.
  intros [L D J K C X].
  destruct (started s) as (sel & rest & -> & P & Hlen & Hact & Hone & _).
  assert (Hids : pending_ids s ≡ₚ (pt_id <$> sel) ++ (pt_id <$> rest))
    by (unfold pending_ids; by rewrite P, fmap_app).
  assert (Hd := D). rewrite Hids in Hd. apply NoDup_app in Hd as (Hd1 & Hd2 & Hd3).
  assert (Hsel : forall p, p ∈ sel -> pt_id p ∈ pending_ids s).
  { intros p Hp. rewrite Hids. apply elem_of_app. left. by apply list_elem_of_fmap_2. }
  assert (Hrest : forall i, i ∈ pt_id <$> rest -> i ∈ pending_ids s).
  { intros i Hi. rewrite Hids. apply elem_of_app. by right. }
  split; [split; cbn; try done| |by left].
  - intros i Hi. rewrite start_lookup_other; [by apply J, Hrest|]. intros Hs. by eapply Hd2.
  - intros i [Hi|[t Ht]]; apply K; [by left; apply Hrest|]. cbn in Ht.
    apply start_lookup in Ht as [Ht|(p & Hp & <- & _)]; [right; by exists t|left; by apply Hsel].
  - pose proof (start_size sel (supervisorRunning s)). lia.
  - apply start_exclusive; try done.
    + intros p Hp. by apply J, Hsel.
    + intros p sid id t Hp Hsid Ht Hts. apply (Hact p sid Hp Hsid). unfold activeSessionIds.
      apply elem_of_list_to_set, list_elem_of_omap. exists t. split; [|done].
      apply list_elem_of_fmap. exists (id, t). split; [done|]. by apply elem_of_map_to_list.
  - split; [done|]. intros i Hi Hp. split; [by intros ?%Hrest|]. cbn. intros t Ht.
    apply start_lookup in Ht as [Ht|(p & Hq & <- & _)]; [by exists t|by destruct (Hp (Hsel p Hq))].
Qed.

(** A turn that is selected, or runs already, runs afterwards. *)
Lemma start_runs l r p : p ∈ l -> NoDup (pt_id <$> l) -> foldl start_turn r l !! pt_id p = Some (running_of p).
Proof.
  revert r. induction l as [|q l IH]; intros r Hp Hd; [by apply not_elem_of_nil in Hp|].
  rewrite fmap_cons in Hd. apply NoDup_cons in Hd as [Hq Hd]. cbn [foldl].
  apply elem_of_cons in Hp as [->|Hp]; [|by apply IH].
  rewrite start_lookup_other by done. apply lookup_insert_eq.
Qed.

(** While there is capacity left, what stays waits for a session that runs. *)
Lemma start_busy s p :
  tasks_ok s ->
  Z.of_nat (size (supervisorRunning (startRunnableTasks s))) < supervisorLimit s ->
  p ∈ supervisorPending (startRunnableTasks s) ->
  exists sid id t, pt_session p = Some sid
    /\ supervisorRunning (startRunnableTasks s) !! id = Some t /\ rt_session t = Some sid.
Proof.
  intros [L D J K C X]. destruct (started s) as (sel & rest & -> & P & Hlen & _ & _ & Hbusy). cbn.
  assert (Hd : NoDup (pt_id <$> sel)).
  { unfold pending_ids in D. rewrite P, fmap_app in D. by apply NoDup_app in D as [? _]. }
  assert (Hin : forall q, q ∈ sel -> supervisorRunning s !! pt_id q = None).
  { intros q Hq. apply J, list_elem_of_fmap_2. rewrite P. apply elem_of_app. by left. }
  assert (Hsz : forall l r, NoDup (pt_id <$> l) -> (forall q, q ∈ l -> r !! pt_id q = None) ->
            size (foldl start_turn r l) = (size r + length l)%nat).
  { clear. intros l. induction l as [|q l IH]; intros r Hd Hn; cbn; [lia|].
    rewrite fmap_cons in Hd. apply NoDup_cons in Hd as [Hq Hd]. rewrite IH; [|done|].
    - unfold start_turn. rewrite map_size_insert_None; [lia|]. apply Hn, list_elem_of_here.
    - intros x Hx. unfold start_turn. rewrite lookup_insert_ne.
      + apply Hn. by apply list_elem_of_further.
      + intros E. apply Hq. rewrite E. by apply list_elem_of_fmap_2. }
  rewrite Hsz by done. intros Hlt Hp. destruct (Hbusy ltac:(lia) p Hp) as (sid & Hsid & Hb).
  exists sid. destruct Hb as [Hb|(q & Hq & Hsq)].
  - unfold activeSessionIds in Hb. apply elem_of_list_to_set, list_elem_of_omap in Hb as (t & Ht & Hst).
    apply list_elem_of_fmap in Ht as ([id t'] & -> & Ht). apply elem_of_map_to_list in Ht.
    exists id, t'. split; [done|]. split; [|done]. rewrite start_lookup_other; [done|].
    intros Hi. apply list_elem_of_fmap in Hi as (q & -> & Hq). by rewrite (Hin q Hq) in Ht.
  - exists (pt_id q), (running_of q). split; [done|]. split; [by apply start_runs|done].
Qed.

Lemma command_size env s st c s' st' outs posted :
  handleCommand env s st c = (s', st', outs, posted) ->
  (size (supervisorRunning s') <= size (supervisorRunning s))%nat.
Proof.
  assert (Hcancel : forall id s1 o1 p1, cancelTaskById env s id = (s1, o1, p1) ->
            (size (supervisorRunning s1) <= size (supervisorRunning s))%nat).
  { intros id s1 o1 p1. unfold cancelTaskById.
    destruct (supervisorRunning s !! id) as [t|] eqn:Ht; intros [= <- _ _]; cbn; [|lia].
    rewrite map_size_insert_Some by (by exists t). lia. }
  destruct c as [[start|[id|]|]|query lim scb scx|[mu|] mcb mcx|id|callback context|n|id sid|id result|];
    cbn [handleCommand]; try (intros [= <- _ _ _]; cbn; lia).
  - destruct (enqueueTurn env s st start) as [[s1 st1] o1] eqn:E. intros [= <- _ _ _].
    revert E. unfold enqueueTurn. destruct start as [?|[id session]]; [intros [= <- _ _]; lia|].
    case_decide; [intros [= <- _ _]; lia|]. destruct (env_gateway env); [intros [= <- _ _]; lia|].
    destruct (enqueueNativeTurn st (start_queued id)) as [? [[? ?]|]]; intros [= <- _ _]; cbn; lia.
  - destruct (cancelTaskById env s id) as [[s1 o1] p1] eqn:E. intros [= <- _ _ _]. by eapply Hcancel.
  - destruct (runSessionMutation (env_world env) mu). intros [= <- _ _ _]. lia.
  - destruct (cancelTaskById env s id) as [[s1 o1] p1] eqn:E. intros [= <- _ _ _]. by eapply Hcancel.
  - intros [= <- _ _ _]. unfold reportSession. destruct (supervisorRunning s !! id) as [t|] eqn:Ht; [|lia].
    cbn. rewrite map_size_insert_Some by (by exists t). lia.
  - destruct (finishTask env s id result) as [s1 o1] eqn:E. intros [= <- _ _ _]. revert E.
    unfold finishTask. destruct (supervisorRunning s !! id); intros [= <- _]; [|lia].
    cbn. rewrite map_size_delete. destruct (supervisorRunning s !! id); cbn; lia.
Qed.

(** ** Executions *)

Definition event_outs (ev : event) : list output :=
  match ev with en_handle _ outs | en_end _ outs => outs | _ => [] end.

Definition told (tr : list event) : list output := flat_map event_outs tr.

Lemma told_last tr ev : told (tr ++ [ev]) = told tr ++ event_outs ev.
Proof. unfold told. rewrite flat_map_app. cbn. by rewrite app_nil_r. Qed.

(** The mailbox says the truth, tasks that ended are gone, a turn whose thread has ended is
    announced, and nothing follows the stop command. *)
Record engine_ok (tr : list event) (e : engine) : Prop := {
  eng_tasks : tasks_ok (en_supervisor e);
  eng_commands : forall c, c ∈ mailboxCommands (en_mailbox e) -> command_ok (en_supervisor e) c;
  eng_ended : NoDup (ends (told tr)) /\ (forall id, id ∈ ends (told tr) ->
                id ∈ supervisorKnownTaskIds (en_supervisor e) /\ ~ live (en_supervisor e) id);
  eng_announced : mailboxAccepting (en_mailbox e) = true ->
    forall id t, supervisorRunning (en_supervisor e) !! id = Some t -> rt_alive t = false ->
      exists r, EngineTaskFinished id r ∈ mailboxCommands (en_mailbox e);
  eng_stop : forall l1 l2, mailboxCommands (en_mailbox e) = l1 ++ EngineStop :: l2 ->
    l2 = [] /\ mailboxAccepting (en_mailbox e) = false;
}.

Lemma engine_ok_init : engine_ok [] engine_init.
Proof.
  split; cbn; try done.
  - split; try done; [constructor|].
    intros id [H|[t Ht]]; [by apply not_elem_of_nil in H|by cbn in Ht; rewrite lookup_empty in Ht].
  - intros c H. by apply not_elem_of_nil in H.
  - split; [constructor|]. intros id H. by apply not_elem_of_nil in H.
  - by intros [|].
Qed.

(** Ends, over one step. *)
Lemma ended_step s s' tr ev :
  NoDup (ends (told tr)) ->
  (forall id, id ∈ ends (told tr) -> id ∈ supervisorKnownTaskIds s /\ ~ live s id) ->
  handled s s' (event_outs ev) ->
  NoDup (ends (told (tr ++ [ev])))
  /\ (forall id, id ∈ ends (told (tr ++ [ev])) -> id ∈ supervisorKnownTaskIds s' /\ ~ live s' id).
Proof.
  intros Hd Hi [_ Hev He]. rewrite told_last, ends_app.
  assert (Hold : forall id, id ∈ ends (told tr) -> id ∈ supervisorKnownTaskIds s' /\ ~ live s' id).
  { intros id [Hk Hl]%Hi. split; [by apply Hev|by eapply evolves_gone]. }
  destruct He as [-> | (id & -> & Hl & Hk & Hg)]; [by rewrite app_nil_r|]. split.
  - apply NoDup_app. split; [done|]. split; [|apply NoDup_singleton].
    intros i Hin E%list_elem_of_singleton. subst i. by apply Hi in Hin as [_ ?].
  - intros i [H|H]%elem_of_app; [auto|]. apply list_elem_of_singleton in H as ->. done.
Qed.

(** The mailbox after a command is put into it. *)
Lemma post_elem c c' b :
  c' ∈ mailboxCommands (post c b) -> c' = c \/ c' ∈ mailboxCommands b.
Proof.
  unfold post, acceptEngineCommand. destruct (mailboxAccepting b); cbn; [|by right].
  intros [H|H]%elem_of_app; [by right|left]. by apply list_elem_of_singleton in H.
Qed.

Lemma post_kept c c' b : c' ∈ mailboxCommands b -> c' ∈ mailboxCommands (post c b).
Proof.
  unfold post, acceptEngineCommand. destruct (mailboxAccepting b); cbn; [|done].
  intros H. apply elem_of_app. by left.
Qed.

Lemma post_posted c b : mailboxAccepting b = true -> c ∈ mailboxCommands (post c b).
Proof.
  unfold post, acceptEngineCommand. intros ->. cbn. apply elem_of_app. right. apply list_elem_of_here.
Qed.

Lemma post_accepting c b : mailboxAccepting (post c b) = mailboxAccepting b.
Proof. unfold post, acceptEngineCommand. destruct (mailboxAccepting b) eqn:E; cbn; congruence. Qed.

Definition stop_last (b : EngineMailbox) : Prop :=
  forall l1 l2, mailboxCommands b = l1 ++ EngineStop :: l2 -> l2 = [] /\ mailboxAccepting b = false.

Lemma stop_last_post c b : c <> EngineStop -> stop_last b -> stop_last (post c b).
Proof.
  unfold stop_last, post, acceptEngineCommand. intros Hc H. destruct (mailboxAccepting b) eqn:E;
    [|cbn; rewrite E; intros l1 l2 Hl; destruct (H l1 l2 Hl); by split].
  cbn. intros l1 l2 Hl. exfalso. destruct l2 as [|x l2 _] using rev_ind.
  - apply app_inj_tail in Hl as [_ Hl]. done.
  - rewrite app_comm_cons, app_assoc in Hl. apply app_inj_tail in Hl as [Hl _].
    by destruct (H _ _ Hl).
Qed.

Lemma stop_last_read b c b' : readEngineCommand b = Some (c, b') -> stop_last b -> stop_last b'.
Proof.
  unfold readEngineCommand, stop_last. destruct (mailboxCommands b) as [|x l] eqn:E; [done|].
  intros [= <- <-] H l1 l2 Hl. cbn in Hl. apply (H (x :: l1)). cbn. by rewrite Hl.
Qed.

Lemma read_commands b c b' :
  readEngineCommand b = Some (c, b') ->
  mailboxCommands b = c :: mailboxCommands b' /\ mailboxAccepting b' = mailboxAccepting b.
Proof. unfold readEngineCommand. destruct (mailboxCommands b) eqn:E; [done|]. by intros [= -> <-]. Qed.

(** What a handled command leaves announced. *)
Lemma announced_command env s st c s' st' outs posted :
  handleCommand env s st c = (s', st', outs, posted) ->
  forall id t, supervisorRunning s' !! id = Some t -> rt_alive t = false ->
    (exists r, posted = Some (EngineTaskFinished id r))
    \/ exists t0, supervisorRunning s !! id = Some t0 /\ rt_alive t0 = false
       /\ forall r, c <> EngineTaskFinished id r.
Proof.
  assert (Hcancel : forall i s1 o1 p1, cancelTaskById env s i = (s1, o1, p1) ->
    forall id t, supervisorRunning s1 !! id = Some t -> rt_alive t = false ->
    (exists r, p1 = Some (EngineTaskFinished id r))
    \/ exists t0, supervisorRunning s !! id = Some t0 /\ rt_alive t0 = false).
  { intros i s1 o1 p1. unfold cancelTaskById. destruct (supervisorRunning s !! i) as [t0|] eqn:Ht;
      intros [= <- _ <-] id t; cbn; [|eauto].
    rewrite lookup_insert_Some. intros [[<- <-]|[_ Hid]] Ha; [|eauto].
    destruct (rt_alive t0) eqn:E; eauto. }
  assert (Hrep : forall i sid id t, supervisorRunning (reportSession s i sid) !! id = Some t ->
    rt_alive t = false -> exists t0, supervisorRunning s !! id = Some t0 /\ rt_alive t0 = false).
  { intros i sid id t. unfold reportSession. destruct (supervisorRunning s !! i) as [t0|] eqn:Ht; [|eauto].
    cbn. rewrite lookup_insert_Some. intros [[<- <-]|[_ Hid]] Ha; eauto. }
  destruct c as [[start|[i|]|]|query lim scb scx|[mu|] mcb mcx|i|callback context|n|i sid|i result|];
    cbn [handleCommand]; try (intros [= <- _ _ <-] id t Ht Ha; right; by exists t).
  - destruct (enqueueTurn env s st start) as [[s1 st1] o1] eqn:E. intros [= <- _ _ <-] id t Ht Ha.
    right. exists t. split; [|done]. revert E. unfold enqueueTurn.
    destruct start as [?|[j session]]; [by intros [= -> _ _]|].
    case_decide; [by intros [= -> _ _]|]. destruct (env_gateway env); [by intros [= -> _ _]|].
    destruct (enqueueNativeTurn st (start_queued j)) as [? [[? ?]|]]; intros [= <- _ _]; done.
  - destruct (cancelTaskById env s i) as [[s1 o1] p1] eqn:E. intros [= <- _ _ <-] id t Ht Ha.
    destruct (Hcancel _ _ _ _ E _ _ Ht Ha) as [?|(t0 & ? & ?)]; [by left|right; by exists t0].
  - destruct (runSessionMutation (env_world env) mu). intros [= <- _ _ <-] id t Ht Ha. right. by exists t.
  - destruct (cancelTaskById env s i) as [[s1 o1] p1] eqn:E. intros [= <- _ _ <-] id t Ht Ha.
    destruct (Hcancel _ _ _ _ E _ _ Ht Ha) as [?|(t0 & ? & ?)]; [by left|right; by exists t0].
  - intros [= <- _ _ <-] id t Ht Ha. right. destruct (Hrep _ _ _ _ Ht Ha) as (t0 & ? & ?). by exists t0.
  - destruct (finishTask env s i result) as [s1 o1] eqn:E. intros [= <- _ _ <-] id t Ht Ha. right.
    revert E. unfold finishTask. destruct (supervisorRunning s !! i) as [t0|] eqn:Hi; intros [= <- _].
    + cbn in Ht. apply lookup_delete_Some in Ht as [Hne Ht]. exists t. split; [done|]. split; [done|].
      congruence.
    + exists t. split; [done|]. split; [done|]. congruence.
Qed.

Lemma announced_start s id t :
  supervisorRunning (startRunnableTasks s) !! id = Some t -> rt_alive t = false ->
  supervisorRunning s !! id = Some t.
Proof.
  destruct (started s) as (sel & rest & -> & _). cbn. intros Ht Ha.
  apply start_lookup in Ht as [Ht|(p & _ & _ & ->)]; [done|done].
Qed.

Lemma handled_trans s1 s2 s3 outs :
  handled s1 s2 outs -> handled s2 s3 [] -> handled s1 s3 outs.
Proof.
  intros [O1 E1 D1] [O2 E2 _]. split; [done|by eapply evolves_trans|].
  destruct D1 as [?|(id & Ho & Hl & Hk & Hg)]; [by left|right]. exists id.
  split; [done|]. split; [done|]. split; [by apply E2|by eapply evolves_gone].
Qed.

(** A turn's thread changes its own turn. *)
Lemma engine_ok_update tr e id t t' c :
  engine_ok tr e -> supervisorRunning (en_supervisor e) !! id = Some t ->
  rt_session t' = rt_session t
  \/ rt_session t = None
     /\ (forall sid, rt_session t' = Some sid -> forall id' x,
           supervisorRunning (en_supervisor e) !! id' = Some x -> rt_session x <> Some sid) ->
  let s' := with_running (<[id := t']> (supervisorRunning (en_supervisor e))) (en_supervisor e) in
  command_ok s' c -> c <> EngineStop ->
  (rt_alive t' = false -> exists r, c = EngineTaskFinished id r) ->
  engine_ok (tr ++ [en_internal]) (with_mailbox (post c (en_mailbox e)) (with_supervisor s' e)).
Proof.
  intros [Ht Hc [Hd He] Ha Hs] Hid Hsess s' Hcs Hstop Hal.
  destruct (update_running _ _ _ t' Hid Hsess Ht) as [Ht' Hev]. split; cbn; try done.
  - intros c' [->|Hc']%post_elem; [done|]. eapply command_ok_evolves; [exact Hev|by apply Hc].
  - eapply (ended_step _ s' _ en_internal); [done|exact He|]. split; [done..|by left].
  - rewrite post_accepting. intros Hacc i x. rewrite lookup_insert_Some.
    intros [[<- <-]|[_ Hx]] Hx'.
    + destruct (Hal Hx') as [r ->]. exists r. by apply post_posted.
    + destruct (Ha Hacc i x Hx Hx') as [r Hr]. exists r. by apply post_kept.
  - by apply (stop_last_post c (en_mailbox e)).
Qed.

Lemma engine_ok_submit tr e c ev :
  engine_ok tr e -> command_ok (en_supervisor e) c -> c <> EngineStop -> event_outs ev = [] ->
  engine_ok (tr ++ [ev]) (with_mailbox (post c (en_mailbox e)) e).
Proof.
  intros [Ht Hcs [Hd He] Ha Hs] Hc Hstop Hev. split; cbn; try done.
  - intros c' [->|Hc']%post_elem; [done|by apply Hcs].
  - eapply ended_step; [done|exact He|]. rewrite Hev. by apply handled_none.
  - rewrite post_accepting. intros Hacc i x Hx Hx'.
    destruct (Ha Hacc i x Hx Hx') as [r Hr]. exists r. by apply post_kept.
  - by apply (stop_last_post c (en_mailbox e)).
Qed.

Lemma engine_ok_destroy tr e :
  engine_ok tr e ->
  engine_ok (tr ++ [en_internal])
    (with_mailbox (snd (closeEngineMailbox (en_mailbox e) EngineStop)) e).
Proof.
  intros [Ht Hcs [Hd He] Ha Hs].
  assert (Hend := ended_step _ (en_supervisor e) tr en_internal Hd He (handled_none _ [] Ht eq_refl)).
  unfold closeEngineMailbox. destruct (mailboxAccepting (en_mailbox e)) eqn:Hacc; split; cbn; try done.
  - intros c [H|H]%elem_of_app; [by apply Hcs|]. by apply list_elem_of_singleton in H as ->.
  - intros l1 l2 Hl. split; [|done]. destruct l2 as [|x l2 _] using rev_ind; [done|].
    rewrite app_comm_cons, app_assoc in Hl. apply app_inj_tail in Hl as [Hl _].
    destruct (Hs _ _ Hl). congruence.
  - congruence.
  - intros l1 l2 Hl. rewrite Hacc. by apply (Hs l1).
Qed.

(** Only a cancelled turn puts something into the mailbox, its end. *)
Lemma posted_finish env s st c s' st' outs p :
  handleCommand env s st c = (s', st', outs, Some p) -> exists id r, p = EngineTaskFinished id r.
Proof.
  assert (Hcancel : forall i s1 o1, cancelTaskById env s i = (s1, o1, Some p) ->
            exists id r, p = EngineTaskFinished id r).
  { intros i s1 o1. unfold cancelTaskById. destruct (supervisorRunning s !! i) as [t|]; [|done].
    destruct (rt_alive t); [|done]. intros [= _ _ <-]. eauto. }
  destruct c as [[start|[id|]|]|query lim scb scx|[mu|] mcb mcx|id|? ?|n|id sid|id result|]; cbn; try done.
  - by destruct (enqueueTurn env s st start) as [[? ?] ?].
  - destruct (cancelTaskById env s id) as [[s1 o1] p1] eqn:E. intros [= _ _ _ ->]. by eapply Hcancel.
  - by destruct (runSessionMutation (env_world env) mu).
  - destruct (cancelTaskById env s id) as [[s1 o1] p1] eqn:E. intros [= _ _ _ ->]. by eapply Hcancel.
  - by destruct (finishTask env s id result).
Qed.

Definition post_opt (posted : option EngineCommand) (b : EngineMailbox) : EngineMailbox :=
  match posted with Some p => post p b | None => b end.

Lemma engine_ok_handle tr e env c b s st outs posted :
  engine_ok tr e -> readEngineCommand (en_mailbox e) = Some (c, b) ->
  handleCommand env (en_supervisor e) (en_staging e) c = (s, st, outs, posted) ->
  engine_ok (tr ++ [en_handle c outs])
    (Build_engine (post_opt posted b) st (startRunnableTasks s) true).
Proof.
  intros [Ht Hcs [Hd Hen] Ha Hs] Hr Hh. destruct (read_commands _ _ _ Hr) as [Hcmd Hacc].
  assert (Hc : command_ok (en_supervisor e) c) by (apply Hcs; rewrite Hcmd; apply list_elem_of_here).
  assert (Hh' := command_handled _ _ _ _ _ _ _ _ Ht Hc Hh).
  assert (H2 := handled_trans _ _ _ _ Hh' (start_handled s (handled_ok _ _ _ Hh'))).
  split; cbn; [by destruct H2| |by eapply (ended_step _ _ _ (en_handle c outs))| |].
  - intros x Hx. assert (Hx' : posted = Some x \/ x ∈ mailboxCommands b).
    { destruct posted as [p|]; [|by right]. apply post_elem in Hx as [->|?]; auto. }
    destruct Hx' as [->|Hx'].
    + by destruct (posted_finish _ _ _ _ _ _ _ _ Hh) as (i & r & ->).
    + eapply command_ok_evolves; [by destruct H2|]. apply Hcs. rewrite Hcmd. by apply list_elem_of_further.
  - intros Hacc' id t Hid Hal. pose proof (announced_start _ _ _ Hid Hal) as Hid'.
    assert (Hacc2 : mailboxAccepting b = true)
      by (destruct posted; [cbn in Hacc'; rewrite post_accepting in Hacc'|]; done).
    destruct (announced_command _ _ _ _ _ _ _ _ Hh _ _ Hid' Hal) as [[r ->]|(t0 & H0 & Hal0 & Hne)].
    + exists r. by apply post_posted.
    + destruct (Ha ltac:(congruence) _ _ H0 Hal0) as [r Hr0]. exists r.
      rewrite Hcmd in Hr0. apply elem_of_cons in Hr0 as [Hr0|Hr0]; [by destruct (Hne r)|].
      destruct posted; [by apply post_kept|done].
  - assert (Hsb := stop_last_read _ _ _ Hr Hs). destruct posted as [p|]; [|done].
    apply (stop_last_post p b); [|done].
    by destruct (posted_finish _ _ _ _ _ _ _ _ Hh) as (i & r & ->).
Qed.

Lemma stopped_ends l : ends (stopped_callbacks l) = [].
Proof.
  induction l as [|c l IH]; [done|]. unfold stopped_callbacks. cbn [flat_map]. rewrite ends_app.
  fold (stopped_callbacks l). rewrite IH. by destruct c.
Qed.

Lemma engine_ok_end tr e c l :
  engine_ok tr e ->
  engine_ok (tr ++ [en_end c (stopped_callbacks l)])
    (Build_engine (Build_EngineMailbox [] false) (en_staging e) (with_running ∅ (en_supervisor e)) false).
Proof.
  intros [Ht Hcs [Hd Hen] Ha Hs].
  assert (Hh : handled (en_supervisor e) (with_running ∅ (en_supervisor e)) (stopped_callbacks l)).
  { destruct Ht as [L D J K C X]. split; [split; try done| |left; apply stopped_ends].
    - intros i [Hi|[x Hx]]; [apply K; by left|]. cbn in Hx. by rewrite lookup_empty in Hx.
    - apply with_running_evolves. intros i x Hx. by rewrite lookup_empty in Hx. }
  split; cbn; [by destruct Hh| |by apply (ended_step (en_supervisor e) (with_running ∅ (en_supervisor e)) tr (en_end c _))
    |done|by intros [|]].
  intros x Hx. by apply not_elem_of_nil in Hx.
Qed.

Lemma engine_ok_step tr e ev e' : engine_ok tr e -> step e ev e' -> engine_ok (tr ++ [ev]) e'.
Proof.
  intros H Hstep. destruct Hstep as
    [c accepted b Hc Hb|st| |env c b s st outs posted Hw Hr He Hh|c b Hw Hr He
    |id t sid Hid Hal Hs|id t result Hid Hal].
  - replace b with (post c (en_mailbox e)) by (unfold post; by rewrite Hb).
    apply engine_ok_submit; [done| |by intros ->|done]. by destruct c.
  - destruct H as [Ht Hcs [Hd He] Ha Hs]. split; cbn; try done.
    by eapply (ended_step _ _ _ en_internal), handled_none.
  - by apply engine_ok_destroy.
  - by eapply engine_ok_handle.
  - by apply engine_ok_end.
  - unfold reportSession. rewrite Hid.
    eapply engine_ok_update; [done..| |split| done|].
    + destruct Hs as [Hs|[Hn Hs]]; [by left; rewrite Hs|right]. split; [done|].
      intros sid' [= <-]. exact Hs.
    + cbn. apply (tasks_known _ (eng_tasks _ _ H)). right. by exists t.
    + split; [|intros x; cbn; rewrite lookup_insert_eq; by intros [= <-]].
      intros Hp. apply (tasks_disjoint _ (eng_tasks _ _ H)) in Hp. congruence.
    + cbn. congruence.
  - eapply engine_ok_update; [done..|by left|done|done|]. intros _. by exists result.
Qed.

Lemma engine_reach_ok tr e : reach tr e -> engine_ok tr e.
Proof. induction 1 as [|tr e ev e' _ IH Hs]; [apply engine_ok_init|by eapply engine_ok_step]. Qed.

(** ** Calls and callbacks *)

(** A last callback that a call asks for. *)
Inductive asked :=
  | ask_snapshot (callback context : Z)
  | ask_search (callback context : Z)
  | ask_mutation (callback context : Z).

Definition last_callback (c : EngineCommand) : option asked :=
  match c with
  | EngineTaskSnapshot callback context => Some (ask_snapshot callback context)
  | EngineSearch _ _ callback context => Some (ask_search callback context)
  | EngineSessionMutation _ callback context => Some (ask_mutation callback context)
  | _ => None
  end.

Definition answer_of (o : output) : option asked :=
  match o with
  | out_snapshot_end callback context _ => Some (ask_snapshot callback context)
  | out_search callback context c =>
      if sc_status c =? 0 then None else Some (ask_search callback context)
  | out_mutation callback context _ _ => Some (ask_mutation callback context)
  | _ => None
  end.

Definition is_snapshot (a : asked) : Prop :=
  match a with ask_snapshot _ _ => True | _ => False end.

#[global] Instance is_snapshot_dec a : Decision (is_snapshot a).
Proof. destruct a; cbn; apply _. Defined.

Definition from_host (c : EngineCommand) : Prop :=
  match c with EngineTaskSession _ _ | EngineTaskFinished _ _ | EngineStop => False | _ => True end.

#[global] Instance from_host_dec c : Decision (from_host c).
Proof. destruct c; cbn; apply _. Defined.

(** The commands of the host that were accepted, and those the worker has taken. *)
Definition accepted (tr : list event) : list EngineCommand :=
  omap (fun ev => match ev with en_submit c true => Some c | _ => None end) tr.

Definition takes (ev : event) : option EngineCommand :=
  match ev with en_handle c _ | en_end c _ => Some c | _ => None end.

Definition taken (tr : list event) : list EngineCommand := filter from_host (omap takes tr).

Definition asks (cs : list EngineCommand) : list asked := omap last_callback cs.

Definition answers (tr : list event) : list asked := omap answer_of (told tr).

Lemma accepted_last tr ev : accepted (tr ++ [ev]) = accepted tr ++ accepted [ev].
Proof. apply omap_app. Qed.

Lemma taken_last tr ev : taken (tr ++ [ev]) = taken tr ++ taken [ev].
Proof. unfold taken. by rewrite omap_app, filter_app. Qed.

Lemma answers_last tr ev : answers (tr ++ [ev]) = answers tr ++ omap answer_of (event_outs ev).
Proof. unfold answers. by rewrite told_last, omap_app. Qed.

Lemma emit_for_answers env identity outs :
  omap answer_of outs = [] -> omap answer_of (emit_for env identity outs) = [].
Proof. unfold emit_for. by destruct (env_holds env identity). Qed.

Lemma flat_map_answers {A} (f : A -> list output) l :
  (forall x, omap answer_of (f x) = []) -> omap answer_of (flat_map f l) = [].
Proof. intros Hf. induction l as [|x l IH]; [done|]. cbn. by rewrite omap_app, Hf. Qed.

Lemma search_answers callback context calls :
  search_protocol calls ->
  omap answer_of (map (out_search callback context) calls) = [ask_search callback context].
Proof.
  intros (items & terminal & -> & Hi & Ht & _). rewrite map_app, omap_app.
  assert (H : omap answer_of (map (out_search callback context) items) = []).
  { induction Hi as [|c items Hc _ IH]; [done|]. cbn. by rewrite Hc. }
  rewrite H. cbn. by rewrite (proj2 (Z.eqb_neq _ _)) by done.
Qed.

(** A command is answered when it is handled, and only it. *)
Lemma command_answers env s st c s' st' outs posted :
  ends_worker c = false -> handleCommand env s st c = (s', st', outs, posted) ->
  omap answer_of outs = asks [c].
Proof.
  assert (Hcancel : forall i s1 o1 p1, cancelTaskById env s i = (s1, o1, p1) -> omap answer_of o1 = []).
  { intros i s1 o1 p1. unfold cancelTaskById. destruct (supervisorRunning s !! i); intros [= _ <- _]; [done|].
    apply flat_map_answers. intros x. by apply emit_for_answers. }
  intros Hends. destruct c as [[start|[i|]|]|query lim scb scx|[mu|] mcb mcx|i|callback context|n|i sid|i result|];
    cbn [handleCommand]; try (by intros [= _ _ <- _]).
  - destruct (enqueueTurn env s st start) as [[s1 st1] o1] eqn:E. intros [= _ _ <- _]. revert E.
    unfold enqueueTurn. destruct start as [?|[j session]]; [by intros [= _ _ <-]|].
    case_decide; [by intros [= _ _ <-]|]. destruct (env_gateway env); [by intros [= _ _ <-]|].
    destruct (enqueueNativeTurn st (start_queued j)) as [? [[? ?]|]]; by intros [= _ _ <-].
  - destruct (cancelTaskById env s i) as [[s1 o1] p1] eqn:E. intros [= _ _ <- _].
    rewrite omap_app, (Hcancel _ _ _ _ E). done.
  - intros [= _ _ <- _]. apply search_answers, engine_search_protocol.
  - destruct (runSessionMutation (env_world env) mu). by intros [= _ _ <- _].
  - destruct (cancelTaskById env s i) as [[s1 o1] p1] eqn:E. intros [= _ _ <- _]. by eapply Hcancel.
  - intros [= _ _ <- _]. unfold sendTaskSnapshot. destruct (env_gateway env) as [?|g]; [done|].
    rewrite !omap_app, !flat_map_answers; [done|intros [id t]|intros p]; by case_decide.
  - destruct (finishTask env s i result) as [s1 o1] eqn:E. intros [= _ _ <- _]. revert E. unfold finishTask.
    destruct (supervisorRunning s !! i) as [t|]; intros [= _ <-]; [|done]. apply emit_for_answers.
    destruct (rt_cancelled t); [done|]. by destruct result as [? []|].
Qed.

Lemma stopped_answers l : omap answer_of (stopped_callbacks l) = filter is_snapshot (asks l).
Proof.
  induction l as [|c l IH]; [done|]. unfold stopped_callbacks, asks. cbn [flat_map omap list_omap].
  rewrite omap_app. fold (stopped_callbacks l) (asks l). rewrite IH. by destruct c.
Qed.

Lemma asks_from_host l : asks (filter from_host l) = asks l.
Proof.
  induction l as [|c l IH]; [done|]. rewrite filter_cons. unfold asks in *.
  case_decide; destruct c; cbn in *; try tauto; by rewrite ?IH.
Qed.

Lemma asks_app l k : asks (l ++ k) = asks l ++ asks k.
Proof. apply omap_app. Qed.

Lemma filter_post c b :
  ~ from_host c -> filter from_host (mailboxCommands (post c b)) = filter from_host (mailboxCommands b).
Proof.
  unfold post, acceptEngineCommand. destruct (mailboxAccepting b); cbn; [|done]. intros H.
  rewrite filter_app, filter_cons, decide_False by done. apply app_nil_r.
Qed.

(** How the worker ended: at the stop command, when every call that asks for a last callback has
    had it; or at a mutation whose texts are not UTF-8, which has not, and after it only the
    snapshot requests have. *)
Definition ended_at (c : EngineCommand) (asked answered : list asked) : Prop :=
  c = EngineStop /\ answered = asked
  \/ exists callback context before after,
       c = EngineSessionMutation None callback context
       /\ asked = before ++ ask_mutation callback context :: after
       /\ answered = before ++ filter is_snapshot after.

Record calls_ok (tr : list event) (e : engine) : Prop := {
  calls_running : en_worker e = true ->
    accepted tr = taken tr ++ filter from_host (mailboxCommands (en_mailbox e))
    /\ answers tr = asks (taken tr) /\ (forall c outs, ~ In (en_end c outs) tr);
  calls_ended : en_worker e = false ->
    mailboxAccepting (en_mailbox e) = false
    /\ filter is_snapshot (answers tr) = filter is_snapshot (asks (accepted tr))
    /\ (forall outs, In (en_end EngineStop outs) tr -> answers tr = asks (accepted tr))
    /\ exists c outs, In (en_end c outs) tr /\ ended_at c (asks (accepted tr)) (answers tr);
}.

(** A step that neither takes nor accepts a command. *)
Lemma calls_ok_quiet tr e ev e' :
  calls_ok tr e -> en_worker e' = en_worker e -> accepted [ev] = [] -> takes ev = None ->
  filter from_host (mailboxCommands (en_mailbox e')) = filter from_host (mailboxCommands (en_mailbox e)) ->
  (mailboxAccepting (en_mailbox e) = false -> mailboxAccepting (en_mailbox e') = false) ->
  calls_ok (tr ++ [ev]) e'.
Proof.
  intros [Hr He] Hw Ha Ht Hf Hm.
  assert (Ho : event_outs ev = []) by by destruct ev.
  assert (Htk : taken [ev] = []) by (unfold taken; cbn; by rewrite Ht).
  assert (Hin : forall c outs, In (en_end c outs) (tr ++ [ev]) -> In (en_end c outs) tr).
  { intros c outs [H|[->|[]]]%in_app_or; done. }
  split; rewrite Hw, accepted_last, ?taken_last, answers_last, ?Ha, ?Ho, ?Htk, ?Hf, ?app_nil_r.
  - intros Hwk. destruct (Hr Hwk) as (A & B & C). split; [done|]. split; [done|].
    intros c outs Hi%Hin. by eapply C.
  - intros Hwk. destruct (He Hwk) as (A & B & C & c & outs & D & E). split; [auto|]. split; [done|]. split.
    + intros outs' Hi%Hin. by eapply C.
    + exists c, outs. split; [apply in_or_app; by left|done].
Qed.

Lemma from_host_command c : host_command c -> from_host c.
Proof. by destruct c. Qed.

Lemma calls_ok_submit tr e c acc b :
  calls_ok tr e -> from_host c -> acceptEngineCommand (en_mailbox e) c = (acc, b) ->
  calls_ok (tr ++ [en_submit c acc]) (with_mailbox b e).
Proof.
  intros H Hc. unfold acceptEngineCommand. destruct (mailboxAccepting (en_mailbox e)) eqn:Ha; intros [= <- <-].
  - destruct H as [Hr He]. split; cbn [en_worker en_mailbox with_mailbox mailboxCommands mailboxAccepting]; intros Hw.
    + destruct (Hr Hw) as (A & B & C). rewrite accepted_last, taken_last, answers_last, A. cbn.
      rewrite !app_nil_r, filter_app, filter_cons, decide_True by done. split; [by rewrite app_assoc|].
      split; [done|]. intros c' outs [Hi|[Hi|[]]]%in_app_or; [by eapply C|done].
    + destruct (He Hw) as [? _]. congruence.
  - apply calls_ok_quiet with e; try done.
Qed.

Lemma calls_ok_take tr e c b ev :
  calls_ok tr e -> en_worker e = true -> readEngineCommand (en_mailbox e) = Some (c, b) ->
  takes ev = Some c -> accepted [ev] = [] ->
  accepted (tr ++ [ev]) = taken (tr ++ [ev]) ++ filter from_host (mailboxCommands b).
Proof.
  intros [Hr _] Hw Hrd Ht Ha. destruct (Hr Hw) as (A & _ & _).
  destruct (read_commands _ _ _ Hrd) as [Hcmd _].
  rewrite accepted_last, taken_last, Ha, app_nil_r, A, Hcmd, filter_cons, <- app_assoc. f_equal.
  unfold taken. cbn. rewrite Ht, filter_cons. by case_decide.
Qed.

Lemma taken_one ev c : takes ev = Some c -> taken [ev] = filter from_host [c].
Proof. intros H. unfold taken. cbn. by rewrite H. Qed.

Lemma calls_ok_step tr e ev e' : engine_ok tr e -> calls_ok tr e -> step e ev e' -> calls_ok (tr ++ [ev]) e'.
Proof.
  intros Hok H Hstep. destruct Hstep as
    [c acc b Hc Hb|st| |env c b s st outs posted Hw Hr He Hh|c b Hw Hr He
    |id t sid Hid Hal Hs|id t result Hid Hal].
  - apply calls_ok_submit; [done|by apply from_host_command|done].
  - by apply calls_ok_quiet with e.
  - apply calls_ok_quiet with e; try done; cbn; unfold closeEngineMailbox;
      destruct (mailboxAccepting (en_mailbox e)) eqn:Ha; try done.
    cbn. rewrite filter_app. apply app_nil_r.
  - assert (Hacc := calls_ok_take _ _ _ _ (en_handle c outs) H Hw Hr eq_refl eq_refl).
    destruct H as [Hrun _]. destruct (Hrun Hw) as (_ & B & C). split; [intros _|done].
    split; [|split].
    + rewrite Hacc. cbn. destruct posted as [p|]; [|done].
      destruct (posted_finish _ _ _ _ _ _ _ _ Hh) as (i & r & ->). by rewrite filter_post by (cbn; tauto).
    + rewrite answers_last, taken_last, B. cbn [event_outs].
      rewrite (command_answers _ _ _ _ _ _ _ _ He Hh), (taken_one _ c) by done.
      rewrite <- (asks_from_host [c]). unfold asks. by rewrite omap_app.
    + intros c' o [Hi|[Hi|[]]]%in_app_or; [by eapply C|done].
  - assert (Hacc := calls_ok_take _ _ _ _ (en_end c (stopped_callbacks (mailboxCommands b)))
                      H Hw Hr eq_refl eq_refl).
    destruct (read_commands _ _ _ Hr) as [Hcmd Hm].
    destruct H as [Hrun _]. destruct (Hrun Hw) as (_ & B & C). split; [done|intros _]. split; [done|].
    rewrite Hacc, answers_last, taken_last, B, (taken_one _ c) by done. cbn [event_outs].
    rewrite stopped_answers. split_and!.
    + unfold asks. rewrite !omap_app. fold (asks (mailboxCommands b)) (asks (taken tr)).
      fold (asks (filter from_host (mailboxCommands b))) (asks (filter from_host [c])).
      rewrite !asks_from_host, !filter_app. unfold asks at 4.
      assert (E : filter is_snapshot (omap last_callback [c]) = []) by by destruct c as [| |[]| | | | | |].
      rewrite E, app_nil_r. f_equal. apply list_filter_filter_l. auto.
    + intros o [Hi|[Hi|[]]]%in_app_or; [by destruct (C _ _ Hi)|]. injection Hi as -> _.
      destruct (eng_stop _ _ Hok [] _ Hcmd) as [-> _]. cbn. unfold asks.
      by rewrite !app_nil_r.
    + exists c, (stopped_callbacks (mailboxCommands b)). split; [apply in_or_app; right; by left|].
      destruct c as [| |[mu|] callback context| | | | | |]; try done; [right|left].
      * exists callback, context, (asks (taken tr)), (asks (mailboxCommands b)). split; [done|].
        split; [|done]. rewrite !asks_app, !asks_from_host. cbn. by rewrite <- app_assoc.
      * split; [done|]. destruct (eng_stop _ _ Hok [] _ Hcmd) as [-> _]. cbn. unfold asks.
        by rewrite !app_nil_r.
  - apply calls_ok_quiet with e; try done; cbn.
    + by rewrite filter_post by (cbn; tauto).
    + by rewrite post_accepting.
  - apply calls_ok_quiet with e; try done; cbn.
    + by rewrite filter_post by (cbn; tauto).
    + by rewrite post_accepting.
Qed.

Lemma engine_reach_calls tr e : reach tr e -> calls_ok tr e.
Proof.
  induction 1 as [|tr e ev e' Hr IH Hs].
  { split; [intros _|done]. split; [done|]. split; [done|]. intros c outs []. }
  eapply calls_ok_step; [by apply engine_reach_ok|done..].
Qed.

(** ** Continuations of an execution *)

Inductive steps : engine -> list event -> engine -> Prop :=
  | steps_nil e : steps e [] e
  | steps_last e tr e' ev e'' : steps e tr e' -> step e' ev e'' -> steps e (tr ++ [ev]) e''.

Lemma reach_steps tr e tr' e' : reach tr e -> steps e tr' e' -> reach (tr ++ tr') e'.
Proof.
  intros Hr H. induction H as [e|e tr' e' ev e'' _ IH Hs]; [by rewrite app_nil_r|].
  rewrite app_assoc. eapply reach_step; [by apply IH|done].
Qed.

(** How many commands the worker takes. *)
Definition count_taken (tr : list event) : nat := length (omap takes tr).

Lemma count_taken_last tr ev :
  count_taken (tr ++ [ev]) = (count_taken tr + match takes ev with Some _ => 1 | None => 0 end)%nat.
Proof. unfold count_taken. rewrite omap_app, length_app. cbn. by destruct (takes ev). Qed.

(** A world in which every search is empty. *)
Definition quiet_world : world :=
  Build_world (fun _ => inr None) (fun _ _ _ => inr []) (fun _ _ => inr tt).

(** While the worker runs, it takes what is there. *)
Lemma worker_takes e c b :
  en_worker e = true -> readEngineCommand (en_mailbox e) = Some (c, b) ->
  exists ev e', step e ev e' /\ takes ev = Some c.
Proof.
  intros Hw Hr. destruct (ends_worker c) eqn:He.
  - eexists _, _. split; [by eapply step_end|done].
  - pose (env := Build_environment (inr None) (fun _ => true) quiet_world (TaskFailure [])).
    destruct (handleCommand env (en_supervisor e) (en_staging e) c) as [[[s st] outs] posted] eqn:Hh.
    eexists _, _. split; [by eapply step_handle|done].
Qed.

(** The end of a turn has [n] commands before it, or has been taken. *)
Definition leaving (id : text) (n k : nat) (e : engine) : Prop :=
  ~ live (en_supervisor e) id
  \/ en_worker e = true /\ (exists l1 r l2,
       mailboxCommands (en_mailbox e) = l1 ++ EngineTaskFinished id r :: l2
       /\ (length l1 + k = n)%nat).

Lemma leaving_post id n k c b :
  (exists l1 r l2, mailboxCommands b = l1 ++ EngineTaskFinished id r :: l2 /\ (length l1 + k = n)%nat) ->
  exists l1 r l2, mailboxCommands (post c b) = l1 ++ EngineTaskFinished id r :: l2
    /\ (length l1 + k = n)%nat.
Proof.
  intros (l1 & r & l2 & E & H). unfold post, acceptEngineCommand. destruct (mailboxAccepting b); cbn; [|eauto].
  exists l1, r, (l2 ++ [c]). split; [|done]. by rewrite E, <- app_assoc.
Qed.

Lemma finish_not_live env s st id r s' st' outs posted :
  tasks_ok s -> id ∈ supervisorKnownTaskIds s -> (id ∉ pending_ids s) ->
  handleCommand env s st (EngineTaskFinished id r) = (s', st', outs, posted) ->
  ~ live (startRunnableTasks s') id.
Proof.
  intros Hs Hk Hp. cbn [handleCommand]. destruct (finishTask env s id r) as [s1 o1] eqn:E.
  intros [= <- _ _ _]. pose proof (finish_handled _ _ _ _ _ _ Hs E) as H1.
  pose proof (start_handled _ (handled_ok _ _ _ H1)) as H2.
  apply (evolves_gone s1); [by destruct H2|by apply (handled_evolves _ _ _ H1)|].
  revert E. unfold finishTask. destruct (supervisorRunning s !! id) as [t|] eqn:Ht; intros [= <- _].
  - intros [?|[x Hx]]; [done|]. cbn in Hx. by rewrite lookup_delete_eq in Hx.
  - intros [?|[x Hx]]; [done|congruence].
Qed.

Lemma step_evolves tr e ev e' :
  engine_ok tr e -> step e ev e' -> evolves (en_supervisor e) (en_supervisor e').
Proof.
  intros Hok Hstep. destruct Hstep as
    [c acc b Hc Hb|st| |env c b s st outs posted Hw Hr He Hh|c b Hw Hr He
    |id t sid Hid Hal Hs|id t result Hid Hal]; cbn; try apply evolves_refl.
  - destruct (read_commands _ _ _ Hr) as [Hcmd _].
    assert (Hc : command_ok (en_supervisor e) c).
    { apply (eng_commands _ _ Hok). rewrite Hcmd. apply list_elem_of_here. }
    pose proof (command_handled _ _ _ _ _ _ _ _ (eng_tasks _ _ Hok) Hc Hh) as H1.
    pose proof (start_handled _ (handled_ok _ _ _ H1)) as H2.
    eapply evolves_trans; [by destruct H1|by destruct H2].
  - apply with_running_evolves. intros i x Hx. by rewrite lookup_empty in Hx.
  - unfold reportSession. rewrite Hid.
    apply (update_running _ id t); [done| |by apply (eng_tasks _ _ Hok)].
    destruct Hs as [Hs|[Hn Hs]]; [by left; rewrite Hs|right]. split; [done|].
    intros sid' [= <-]. exact Hs.
  - apply (update_running _ id t); [done|by left|by apply (eng_tasks _ _ Hok)].
Qed.

Lemma leaving_step tr e ev e' id n :
  reach tr e -> step e ev e' ->
  id ∈ supervisorKnownTaskIds (en_supervisor e) -> (id ∉ pending_ids (en_supervisor e)) ->
  forall k, leaving id n k e ->
  leaving id n (k + match takes ev with Some _ => 1 | None => 0 end) e'.
Proof.
  intros Hr Hstep Hk Hp k. pose proof (engine_reach_ok _ _ Hr) as Hok.
  pose proof (step_evolves _ _ _ _ Hok Hstep) as Hev.
  intros [Hg|(Hw & Hl)]; [left; by eapply evolves_gone|].
  destruct Hstep as
    [c acc b Hc Hb|st| |env c b s st outs posted _ Hrd He Hh|c b _ Hrd He
    |i t sid Hid Hal Hs|i t result Hid Hal]; cbn [takes]; rewrite ?Nat.add_0_r.
  - right. split; [done|]. cbn. replace b with (post c (en_mailbox e)) by (unfold post; by rewrite Hb).
    by apply leaving_post.
  - by right.
  - right. split; [done|]. cbn. unfold closeEngineMailbox.
    destruct (mailboxAccepting (en_mailbox e)); cbn; [|done].
    destruct Hl as (l1 & r & l2 & E & H). exists l1, r, (l2 ++ [EngineStop]). split; [|done].
    by rewrite E, <- app_assoc.
  - destruct (read_commands _ _ _ Hrd) as [Hcmd _]. destruct Hl as (l1 & r & l2 & E & H).
    rewrite Hcmd in E. destruct l1 as [|c1 l1]; injection E as -> E.
    + left. cbn. by eapply finish_not_live; [apply (eng_tasks _ _ Hok)|..].
    + right. split; [done|]. cbn.
      assert (Hb : exists l1 r l2, mailboxCommands b = l1 ++ EngineTaskFinished id r :: l2
                     /\ (length l1 + (k + 1) = n)%nat).
      { exists l1, r, l2. split; [done|]. cbn in H. lia. }
      destruct posted; [by apply leaving_post|done].
  - left. cbn. intros [?|[x Hx]]; [done|]. cbn in Hx. by rewrite lookup_empty in Hx.
  - right. split; [done|]. by apply leaving_post.
  - right. split; [done|]. by apply leaving_post.
Qed.

Lemma leaving_steps tr e tr' e' id n :
  reach tr e -> steps e tr' e' ->
  id ∈ supervisorKnownTaskIds (en_supervisor e) -> (id ∉ pending_ids (en_supervisor e)) ->
  leaving id n 0 e ->
  leaving id n (count_taken tr') e' /\ id ∈ supervisorKnownTaskIds (en_supervisor e')
  /\ (id ∉ pending_ids (en_supervisor e')).
Proof.
  intros Hr H Hk Hp Hl. induction H as [e|e tr' e' ev e'' H IH Hs]; [done|].
  destruct (IH Hr Hk Hp Hl) as (Hl' & Hk' & Hp'). pose proof (reach_steps _ _ _ _ Hr H) as Hr'.
  destruct (step_evolves _ _ _ _ (engine_reach_ok _ _ Hr') Hs) as [K E].
  rewrite count_taken_last. split; [by eapply leaving_step|].
  split; [by apply K|]. by apply E.
Qed.

(** ** What the engine keeps *)

(** C40: in every execution the concurrency limit is in 1..32 and at most 32 turns run; the
    queued tasks have distinct identifiers, none of which runs; every queued or running task
    is known; no two running turns have one session; and no step lets more turns run than
    ran before, or than the limit. *)
Theorem tasks_kept tr e :
  reach tr e ->
  tasks_ok (en_supervisor e)
  /\ forall ev e', step e ev e' ->
       Z.of_nat (size (supervisorRunning (en_supervisor e')))
       <= Z.max (supervisorLimit (en_supervisor e'))
            (Z.of_nat (size (supervisorRunning (en_supervisor e)))).
Proof.
  intros Hr. split; [apply (eng_tasks _ _ (engine_reach_ok _ _ Hr))|]. intros ev e' Hstep.
  destruct Hstep as
    [c acc b Hc Hb|st| |env c b s st outs posted _ Hrd He Hh|c b _ Hrd He
    |i t sid Hid Hal Hs|i t result Hid Hal]; cbn; try lia.
  - apply command_size in Hh. destruct (started s) as (sel & rest & -> & _ & Hlen & _). cbn.
    pose proof (start_size sel (supervisorRunning s)). lia.
  - rewrite map_size_empty. lia.
  - unfold reportSession. rewrite Hid. cbn. rewrite map_size_insert_Some by (by exists t). lia.
  - rewrite map_size_insert_Some by (by exists t). lia.
Qed.

(** When the worker has handled a command and fewer turns run than the limit, every task
    that stays queued belongs to a session of which a turn runs. *)
Theorem engine_work_conserving tr e c outs e' p :
  reach tr e -> step e (en_handle c outs) e' ->
  Z.of_nat (size (supervisorRunning (en_supervisor e'))) < supervisorLimit (en_supervisor e') ->
  p ∈ supervisorPending (en_supervisor e') ->
  exists sid id t, pt_session p = Some sid
    /\ supervisorRunning (en_supervisor e') !! id = Some t /\ rt_session t = Some sid.
Proof.
  intros Hr Hstep. apply engine_reach_ok in Hr as Hok.
  inversion Hstep as [| | |env c0 b s st outs0 posted _ Hrd He Hh| | |]; subst. cbn.
  destruct (read_commands _ _ _ Hrd) as [Hcmd _].
  assert (Hc : command_ok (en_supervisor e) c).
  { apply (eng_commands _ _ Hok). rewrite Hcmd. apply list_elem_of_here. }
  pose proof (command_handled _ _ _ _ _ _ _ _ (eng_tasks _ _ Hok) Hc Hh) as H1.
  assert (Hlim : supervisorLimit (startRunnableTasks s) = supervisorLimit s)
    by (by destruct (started s) as (? & ? & -> & _)).
  rewrite Hlim. by apply start_busy, H1.
Qed.

(** C38: over an execution, [ha_event_callback] is told at most once that a task has ended;
    a task of which it was told is neither queued nor running, and a [turn.start] with its
    identifier is refused. *)
Theorem task_ends_once tr e :
  reach tr e ->
  NoDup (ends (told tr))
  /\ forall id, id ∈ ends (told tr) ->
       ~ live (en_supervisor e) id
       /\ (forall env st session, exists st',
             enqueueTurn env (en_supervisor e) st (inr (id, session))
             = (en_supervisor e, st', [out_reply false])).
Proof.
  intros Hr. destruct (eng_ended _ _ (engine_reach_ok _ _ Hr)) as [Hd Hi]. split; [done|].
  intros id [Hk Hl]%Hi. split; [done|]. intros env st session. unfold enqueueTurn.
  rewrite decide_True by done. by eexists.
Qed.

(** A turn whose thread has ended is announced in the mailbox, after fewer than [n]
    commands; in every continuation the worker can take a command until it has taken [n] of
    them or the task is gone, and then the task is gone. *)
Theorem finished_turn_leaves tr e id t :
  reach tr e -> mailboxAccepting (en_mailbox e) = true ->
  supervisorRunning (en_supervisor e) !! id = Some t -> rt_alive t = false ->
  exists n, (n <= length (mailboxCommands (en_mailbox e)))%nat
    /\ forall tr' e', steps e tr' e' ->
         ((n <= count_taken tr')%nat -> ~ live (en_supervisor e') id)
         /\ (live (en_supervisor e') id -> exists ev e'' c, step e' ev e'' /\ takes ev = Some c).
Proof.
  intros Hr Hacc Ht Hal. pose proof (engine_reach_ok _ _ Hr) as Hok.
  destruct (eng_announced _ _ Hok Hacc _ _ Ht Hal) as [r Hin].
  apply list_elem_of_split in Hin as (l1 & l2 & E).
  assert (Hw : en_worker e = true).
  { destruct (en_worker e) eqn:Hw; [done|].
    destruct (calls_ended _ _ (engine_reach_calls _ _ Hr) Hw). congruence. }
  assert (Hk : id ∈ supervisorKnownTaskIds (en_supervisor e))
    by (apply (tasks_known _ (eng_tasks _ _ Hok)); right; by exists t).
  assert (Hp : id ∉ pending_ids (en_supervisor e)).
  { intros Hp. apply (tasks_disjoint _ (eng_tasks _ _ Hok)) in Hp. congruence. }
  assert (Hl : leaving id (length l1) 0 e).
  { right. split; [done|]. exists l1, r, l2. split; [done|lia]. }
  exists (S (length l1)). rewrite E, length_app. cbn. split; [lia|]. intros tr' e' Hs.
  destruct (leaving_steps _ _ _ _ _ _ Hr Hs Hk Hp Hl) as ([Hg|(Hw' & k1 & r' & k2 & E' & Hn)] & _ & _).
  - by split.
  - split; [lia|]. intros _.
    destruct (readEngineCommand (en_mailbox e')) as [[c b]|] eqn:Hrd.
    + destruct (worker_takes _ _ _ Hw' Hrd) as (ev & e'' & ? & ?). by exists ev, e'', c.
    + revert Hrd. unfold readEngineCommand. rewrite E'. by destruct k1.
Qed.

(** C36: while the worker runs, it has taken the commands that were accepted, in their order,
    up to those in the mailbox, and the calls among them that ask for a last callback have
    had it, in that order.  It ends at the stop command, when all of them have; or at a mutation
    whose texts are not UTF-8, and then the calls before that one have had theirs, that one never
    has, and of the calls after it the snapshot requests have and no other. *)
Theorem engine_callbacks_once tr e :
  reach tr e ->
  (en_worker e = true ->
     accepted tr = taken tr ++ filter from_host (mailboxCommands (en_mailbox e))
     /\ asks (accepted tr) = answers tr ++ asks (mailboxCommands (en_mailbox e)))
  /\ (forall outs, In (en_end EngineStop outs) tr -> asks (accepted tr) = answers tr)
  /\ (en_worker e = false ->
        mailboxAccepting (en_mailbox e) = false
        /\ filter is_snapshot (asks (accepted tr)) = filter is_snapshot (answers tr)
        /\ exists c outs, In (en_end c outs) tr /\ ended_at c (asks (accepted tr)) (answers tr)).
Proof.
  intros Hr. destruct (engine_reach_calls _ _ Hr) as [Hrun Hend]. split; [|split].
  - intros Hw. destruct (Hrun Hw) as (A & B & _). split; [done|].
    rewrite A, B. unfold asks. rewrite omap_app. f_equal. apply asks_from_host.
  - intros outs Hi. destruct (en_worker e) eqn:Hw.
    + destruct (Hrun eq_refl) as (_ & _ & C). by destruct (C _ _ Hi).
    + symmetry. destruct (Hend eq_refl) as (_ & _ & C & _). by eapply C.
  - intros Hw. destruct (Hend Hw) as (A & B & _ & D). split_and!; [done|by symmetry|done].
Qed.

(** No callback follows the worker's end. *)
Lemma ended_silent e tr e' :
  en_worker e = false -> steps e tr e' -> en_worker e' = false /\ told tr = [].
Proof.
  intros Hw H. induction H as [e|e tr e' ev e'' _ IH Hs]; [done|].
  destruct (IH Hw) as [Hw' Ht]. rewrite told_last, Ht. destruct Hs; done || congruence.
Qed.

(** A task as [ha_task_snapshot_callback] is told of it: 0 for queued, 1 for running. *)
Record snapshot_task := { st_id : text; st_session : option text; st_state : Z }.

(** "Status 0 for each task, status 1 exactly once on completion", -1 for a failure. *)
Definition ha_task_snapshot_callback (callback context : Z) (tasks : option (list snapshot_task))
    : list output :=
  match tasks with
  | Some l => map (fun t => out_snapshot_item callback context (st_id t) (st_session t) (st_state t)) l
              ++ [out_snapshot_end callback context 1]
  | None => [out_snapshot_end callback context (-1)]
  end.

Definition queued_task (identity : option text) (p : PendingTurn) : list snapshot_task :=
  if decide (pt_gateway p = identity) then [Build_snapshot_task (pt_id p) (pt_session p) 0] else [].

Definition running_task (identity : option text) (p : text * RunningTurn) : list snapshot_task :=
  if decide (rt_gateway p.2 = identity) then [Build_snapshot_task p.1 (rt_session p.2) 1] else [].

Lemma flat_map_items {A} callback context (f : A -> list snapshot_task) (g : A -> list output) l :
  (forall x, g x = map (fun t => out_snapshot_item callback context (st_id t) (st_session t) (st_state t)) (f x)) ->
  flat_map g l
  = map (fun t => out_snapshot_item callback context (st_id t) (st_session t) (st_state t)) (flat_map f l).
Proof. intros H. induction l as [|x l IH]; [done|]. cbn. by rewrite H, IH, map_app. Qed.

Lemma flat_map_ids {A} (f : A -> list snapshot_task) (key : A -> text) l :
  (forall x, f x = [] \/ exists t, f x = [t] /\ st_id t = key x) ->
  map st_id (flat_map f l) `sublist_of` map key l.
Proof.
  intros H. induction l as [|x l IH]; [done|]. cbn.
  destruct (H x) as [-> | (t & -> & Ht)]; cbn; [by apply sublist_cons|]. rewrite Ht. by apply sublist_skip.
Qed.

(** A snapshot that does not fail is, as the header says, one call with status 0 for
    each queued or running task of the current gateway identity - each once, with its session
    and its state - and then status 1. *)
Theorem task_snapshot_conforms tr e env identity callback context :
  reach tr e -> env_gateway env = inr identity ->
  exists l, sendTaskSnapshot env (en_supervisor e) callback context
            = ha_task_snapshot_callback callback context (Some l)
    /\ NoDup (map st_id l)
    /\ (forall t, t ∈ l <->
          (st_state t = 0 /\ exists p, p ∈ supervisorPending (en_supervisor e)
             /\ pt_gateway p = identity /\ pt_id p = st_id t /\ pt_session p = st_session t)
          \/ (st_state t = 1 /\ exists r, supervisorRunning (en_supervisor e) !! st_id t = Some r
                /\ rt_gateway r = identity /\ rt_session r = st_session t)).
Proof.
  intros Hr Hg. destruct (eng_tasks _ _ (engine_reach_ok _ _ Hr)) as [L D J K C X].
  set (s := en_supervisor e) in *. unfold sendTaskSnapshot. rewrite Hg.
  exists (flat_map (queued_task identity) (supervisorPending s)
          ++ flat_map (running_task identity) (map_to_list (supervisorRunning s))).
  split; [|split].
  - cbn. rewrite map_app, <- app_assoc.
    rewrite (flat_map_items callback context (queued_task identity)),
      (flat_map_items callback context (running_task identity)); [done|intros [id r]|intros p].
    all: unfold running_task, queued_task; cbn; by case_decide.
  - assert (Hq := flat_map_ids (queued_task identity) pt_id (supervisorPending s)
      ltac:(intros x; unfold queued_task; case_decide; eauto)).
    assert (Hn := flat_map_ids (running_task identity) fst (map_to_list (supervisorRunning s))
      ltac:(intros x; unfold running_task; case_decide; eauto)).
    rewrite map_app. apply NoDup_app. split; [by eapply sublist_NoDup|]. split.
    + intros i Hi Hi'. apply (elem_of_sublist _ _ _ Hi) in Hq.
      apply (elem_of_sublist _ _ _ Hi') in Hn. apply list_elem_of_fmap in Hn as ([j r] & -> & Hr').
      apply elem_of_map_to_list in Hr'. rewrite (J j Hq) in Hr'. done.
    + eapply sublist_NoDup; [|exact Hn]. apply NoDup_fst_map_to_list.
  - intros t. rewrite elem_of_app, !list_elem_of_In, !in_flat_map. split.
    + intros [(p & Hp & Ht)|([i r] & Hp & Ht)]; [left|right].
      * unfold queued_task in Ht. case_decide; [|done]. destruct Ht as [<-|[]].
        split; [done|]. exists p. by rewrite list_elem_of_In.
      * unfold running_task in Ht. cbn in Ht. case_decide; [|done]. destruct Ht as [<-|[]].
        split; [done|]. exists r. by apply list_elem_of_In, elem_of_map_to_list in Hp.
    + intros [(Hs & p & Hp & <- & Hi & He)|(Hs & r & Hrun & <- & He)]; [left|right].
      * exists p. split; [by apply list_elem_of_In|]. unfold queued_task. rewrite decide_True by done.
        left. destruct t; cbn in *; by subst.
      * exists (st_id t, r). split; [by apply list_elem_of_In, elem_of_map_to_list|].
        unfold running_task. cbn. rewrite decide_True by done. left. destruct t; cbn in *; by subst.
Qed.

(** A session identifier that is not UTF-8 is accepted with status 0; the worker then
    ends when it takes the command, the callback is never called, and nothing is done for
    any later call. *)
Theorem undecodable_mutation_ends_worker m handle p len callback context e :
  handle <> 0 -> callback <> 0 -> p <> 0 -> 0 < len -> readable m p len ->
  utf8_decode (bytes_at m p len) = None ->
  en_worker e = true -> mailboxAccepting (en_mailbox e) = true ->
  mailboxCommands (en_mailbox e) = [] ->
  exists c e1 e2, ha_engine_session_delete m handle p len callback context = value (inr c)
    /\ submit (en_mailbox e) (inr c) = (0, en_mailbox e1)
    /\ step e (en_submit c true) e1 /\ step e1 (en_end c []) e2
    /\ forall tr' e', steps e2 tr' e' -> en_worker e' = false /\ answers tr' = [].
Proof.
  intros Hh Hcb Hp Hlen Hm Hu Hw Hacc Hcmd.
  set (c := EngineSessionMutation None callback context).
  exists c, (with_mailbox (post c (en_mailbox e)) e). eexists. split; [|split; [|split; [|split]]].
  - unfold ha_engine_session_delete, null_with_bytes, decodeInput, enqueueSessionMutation.
    rewrite !(proj2 (Z.eqb_neq _ _)) by lia. cbn. rewrite pack_readable by done. cbn.
    by rewrite Hu.
  - cbn. unfold post, acceptEngineCommand. by rewrite Hacc.
  - apply step_submit; [done|]. unfold post, acceptEngineCommand. by rewrite Hacc.
  - eapply (step_end _ c (Build_EngineMailbox [] true)); [done| |done].
    cbn. unfold post, acceptEngineCommand, readEngineCommand. by rewrite Hacc, Hcmd.
  - intros tr' e' Hs. apply ended_silent in Hs as [Hw' Ht]; [|done]. split; [done|].
    unfold answers. by rewrite Ht.
Qed.

(** ** The entries *)

Definition contract (handle : Z) (c : option EngineCommand) (b : EngineMailbox) : Z * EngineMailbox :=
  if handle =? 0 then (1, b)
  else match c with
       | None => (2, b)
       | Some c => if mailboxAccepting b then (0, Build_EngineMailbox (mailboxCommands b ++ [c]) true)
                   else (3, b)
       end.

(** A non-empty text that the host lends. *)
Definition lent_text (m : memory) (p len : Z) : option text :=
  if (p =? 0) || (len =? 0) then None
  else match utf8_decode (bytes_at m p len) with Some [] => None | t => t end.

Lemma submit_contract handle c b :
  handle <> 0 -> submit b (inr c) = contract handle (Some c) b.
Proof.
  intros H. unfold submit, contract, acceptEngineCommand. rewrite (proj2 (Z.eqb_neq _ _)) by done.
  by destruct (mailboxAccepting b).
Qed.

Lemma submit_refused handle b : handle <> 0 -> submit b (inl 2) = contract handle None b.
Proof. intros H. unfold contract. by rewrite (proj2 (Z.eqb_neq _ _)) by done. Qed.

Lemma pack_given m p len :
  lent m p len -> (p =? 0) || (len =? 0) = false -> packCStringLen m p len = value (bytes_at m p len).
Proof.
  intros Hm [Hp Hz]%orb_false_iff. apply pack_lent; [done|]. unfold null_with_bytes. by rewrite Hp.
Qed.

Lemma cancel_task_contract m handle p len b :
  lent m p len ->
  exists r, ha_engine_cancel_task m handle p len = value r
    /\ submit b r = contract handle (EngineCancelTask <$> lent_text m p len) b.
Proof.
  intros Hm. unfold ha_engine_cancel_task, lent_text.
  destruct (Z.eqb_spec handle 0) as [->|Hh]; [by eexists|].
  destruct ((p =? 0) || (len =? 0)) eqn:Hz; [eexists; split; [done|by apply submit_refused]|].
  rewrite pack_given by done. cbn. eexists. split; [done|].
  destruct (utf8_decode (bytes_at m p len)) as [[|x t]|];
    [by apply submit_refused|by apply submit_contract|by apply submit_refused].
Qed.

Lemma search_contract m strip handle p len limit callback context b :
  lent m p len ->
  exists r, ha_engine_search_conversations m strip handle p len limit callback context = value r
    /\ submit b r = contract handle
         (if (callback =? 0) || ((p =? 0) || (len =? 0)) then None
          else query ← utf8_decode (bytes_at m p len);
               if decide (strip query = []) then None
               else Some (EngineSearch query (Z.max 1 (Z.min 100 limit)) callback context)) b.
Proof.
  intros Hm. unfold ha_engine_search_conversations.
  destruct (Z.eqb_spec handle 0) as [->|Hh]; [by eexists|].
  destruct (callback =? 0); [eexists; split; [done|by apply submit_refused]|].
  destruct ((p =? 0) || (len =? 0)) eqn:Hz; [eexists; split; [done|by apply submit_refused]|].
  rewrite pack_given by done. cbn. eexists. split; [done|].
  destruct (utf8_decode (bytes_at m p len)) as [query|]; [|by apply submit_refused]. cbn.
  destruct (strip query) eqn:Hs; case_decide;
    [by apply submit_refused|done|done|by apply submit_contract].
Qed.

Lemma task_limit_contract handle limit b :
  0 <= limit < 2 ^ 64 ->
  exists r, ha_engine_set_task_limit handle limit = value r
    /\ submit b r = contract handle
         (if (1 <=? limit) && (limit <=? 32) then Some (EngineSetTaskLimit limit) else None) b.
Proof.
  intros Hl. unfold ha_engine_set_task_limit, int_of_size.
  destruct (Z.eqb_spec handle 0) as [->|Hh]; [by eexists|].
  destruct (Z.ltb_spec limit (2 ^ 63)) as [Hs|Hs].
  - destruct (Z.ltb_spec limit 1), (Z.leb_spec 1 limit), (Z.ltb_spec 32 limit), (Z.leb_spec limit 32);
      try lia; eexists; (split; [done|]); by (apply submit_refused || apply submit_contract).
  - destruct (Z.ltb_spec (limit - 2 ^ 64) 1), (Z.leb_spec limit 32); try lia.
    rewrite andb_false_r. eexists. split; [done|]. by apply submit_refused.
Qed.

(** The entries return 1 for a null engine; otherwise 2 for an argument outside the
    contract - a missing callback, a task identifier or query that is empty, blank or not
    UTF-8, a limit outside 1..32 - and then submit nothing; otherwise 0 and one command,
    with the query's limit clamped to 1..100, or 3 when the engine stops accepting. *)
Theorem engine_entries_contract m strip handle p len limit callback context b :
  lent m p len -> 0 <= limit < 2 ^ 64 ->
  (exists r, ha_engine_cancel_task m handle p len = value r
     /\ submit b r = contract handle (EngineCancelTask <$> lent_text m p len) b)
  /\ (exists r, ha_engine_list_tasks handle callback context = value r
     /\ submit b r = contract handle
          (if callback =? 0 then None else Some (EngineTaskSnapshot callback context)) b)
  /\ (exists r, ha_engine_set_task_limit handle limit = value r
     /\ submit b r = contract handle
          (if (1 <=? limit) && (limit <=? 32) then Some (EngineSetTaskLimit limit) else None) b)
  /\ (exists r, ha_engine_search_conversations m strip handle p len limit callback context = value r
     /\ submit b r = contract handle
          (if (callback =? 0) || ((p =? 0) || (len =? 0)) then None
           else query ← utf8_decode (bytes_at m p len);
                if decide (strip query = []) then None
                else Some (EngineSearch query (Z.max 1 (Z.min 100 limit)) callback context)) b).
Proof.
  intros Hm Hl. split; [by apply cancel_task_contract|]. split; [|split].
  - unfold ha_engine_list_tasks. destruct (Z.eqb_spec handle 0) as [->|Hh]; [by eexists|].
    destruct (callback =? 0); eexists; (split; [done|]);
      [by apply submit_refused|by apply submit_contract].
  - by apply task_limit_contract.
  - by apply search_contract.
Qed.

(** ** Examples *)

Definition demo_world : environment :=
  Build_environment (inr None) (fun _ => true) quiet_world (TaskFailure (txt "turn cancelled")).

Abbreviation run := (list event * engine)%type.

Definition call_engine (c : EngineCommand) (x : run) : run :=
  let '(acc, b) := acceptEngineCommand (en_mailbox x.2) c in
  (x.1 ++ [en_submit c acc], with_mailbox b x.2).

Definition take_engine (x : run) : run :=
  match readEngineCommand (en_mailbox x.2) with
  | None => x
  | Some (c, b) =>
      if en_worker x.2 && negb (ends_worker c) then
        let '(s, st, outs, posted) :=
          handleCommand demo_world (en_supervisor x.2) (en_staging x.2) c in
        (x.1 ++ [en_handle c outs], Build_engine (post_opt posted b) st (startRunnableTasks s) true)
      else x
  end.

Definition end_thread (id : text) (result : TaskResult) (x : run) : run :=
  match supervisorRunning (en_supervisor x.2) !! id with
  | Some t =>
      if rt_alive t then
        (x.1 ++ [en_internal],
         with_mailbox (post (EngineTaskFinished id result) (en_mailbox x.2))
           (with_supervisor
              (with_running (<[id := Build_RunningTurn (rt_session t) (rt_gateway t) (rt_cancelled t) false]>
                               (supervisorRunning (en_supervisor x.2))) (en_supervisor x.2)) x.2))
      else x
  | None => x
  end.

Definition reached (x : run) : Prop := reach x.1 x.2.

Lemma call_reached c x : host_command c -> reached x -> reached (call_engine c x).
Proof.
  intros Hc Hx. unfold call_engine. destruct (acceptEngineCommand (en_mailbox x.2) c) as [acc b] eqn:E.
  eapply reach_step; [exact Hx|by apply step_submit].
Qed.

Lemma take_step x c b :
  readEngineCommand (en_mailbox x.2) = Some (c, b) -> en_worker x.2 = true -> ends_worker c = false ->
  exists outs, (take_engine x).1 = x.1 ++ [en_handle c outs]
    /\ step x.2 (en_handle c outs) (take_engine x).2.
Proof.
  intros E Hw Hc. unfold take_engine. rewrite E, Hw, Hc. cbn [andb negb].
  destruct (handleCommand demo_world (en_supervisor x.2) (en_staging x.2) c) as [[[s st] outs] posted] eqn:Hh.
  exists outs. split; [done|by eapply step_handle].
Qed.

Lemma take_reached x : reached x -> reached (take_engine x).
Proof.
  intros Hx. destruct (readEngineCommand (en_mailbox x.2)) as [[c b]|] eqn:E;
    [|unfold take_engine; by rewrite E].
  destruct (en_worker x.2) eqn:Hw; [|unfold take_engine; by rewrite E, Hw].
  destruct (ends_worker c) eqn:Hc; [unfold take_engine; by rewrite E, Hw, Hc|].
  destruct (take_step x c b E Hw Hc) as (outs & Ht & Hs). unfold reached. rewrite Ht.
  by eapply reach_step.
Qed.

Lemma end_reached id result x : reached x -> reached (end_thread id result x).
Proof.
  intros Hx. unfold end_thread. destruct (supervisorRunning (en_supervisor x.2) !! id) as [t|] eqn:E; [|done].
  destruct (rt_alive t) eqn:Ha; [|done]. eapply reach_step; [exact Hx|by eapply step_finish].
Qed.

(** Two turns of one session, a request for the tasks, and the end of the first turn. *)
Definition demo_start (id : string) : EngineCommand :=
  EngineRequest (request_turn_start (inr (txt id, Some (txt "session")))).

Definition demo_queued : run :=
  take_engine (take_engine (call_engine (EngineTaskSnapshot 7 8)
    (call_engine (demo_start "b") (call_engine (demo_start "a") ([], engine_init))))).

Definition demo_finishing : run :=
  end_thread (txt "a") (TaskOutcome None None) (take_engine demo_queued).

Definition demo_finished : run := take_engine demo_finishing.

Lemma demo_queued_reached : reached demo_queued.
Proof. repeat apply take_reached. repeat (apply call_reached; [done|]). apply reach_init. Qed.

Lemma demo_finishing_reached : reached demo_finishing.
Proof. apply end_reached, take_reached, demo_queued_reached. Qed.

Lemma demo_finished_reached : reached demo_finished.
Proof. apply take_reached, demo_finishing_reached. Qed.

(** The second turn waited for the first, and runs when it has ended. *)
Example demo_turns :
  pending_ids (en_supervisor demo_queued.2) = [txt "b"]
  /\ ends (told demo_finished.1) = [txt "a"]
  /\ pending_ids (en_supervisor demo_finished.2) = []
  /\ (map_to_list (supervisorRunning (en_supervisor demo_finished.2))).*1 = [txt "b"]
  /\ answers demo_finished.1 = [ask_snapshot 7 8].
Proof. vm_compute. repeat split. Qed.

Lemma tasks_kept_witness : tasks_ok (en_supervisor demo_finished.2).
Proof. apply (tasks_kept demo_finished.1 demo_finished.2), demo_finished_reached. Defined.

Lemma engine_work_conserving_witness :
  exists sid id t, Some (txt "session") = Some sid
    /\ supervisorRunning (en_supervisor demo_queued.2) !! id = Some t /\ rt_session t = Some sid.
Proof.
  destruct (take_step (take_engine (call_engine (EngineTaskSnapshot 7 8)
    (call_engine (demo_start "b") (call_engine (demo_start "a") ([], engine_init))))) _ _
    eq_refl eq_refl eq_refl) as (outs & _ & Hs).
  eapply (engine_work_conserving _ _ _ outs _
    (Build_PendingTurn (txt "b") (Some (txt "session")) None [] defaultNativeTurnOptions));
    [|exact Hs|vm_compute; reflexivity|].
  - apply take_reached. repeat (apply call_reached; [done|]). apply reach_init.
  - vm_compute. apply list_elem_of_here.
Defined.

Lemma task_ends_once_witness :
  txt "a" ∈ ends (told demo_finished.1) /\ ~ live (en_supervisor demo_finished.2) (txt "a").
Proof.
  assert (Hin : txt "a" ∈ ends (told demo_finished.1)) by (vm_compute; apply list_elem_of_here).
  split; [exact Hin|].
  by apply (proj2 (task_ends_once demo_finished.1 demo_finished.2 demo_finished_reached) (txt "a") Hin).
Defined.

Lemma finished_turn_leaves_witness :
  exists n, (n <= 1)%nat
    /\ forall tr' e', steps demo_finishing.2 tr' e' ->
         (n <= count_taken tr')%nat -> ~ live (en_supervisor e') (txt "a").
Proof.
  destruct (finished_turn_leaves demo_finishing.1 demo_finishing.2 (txt "a")
    (Build_RunningTurn (Some (txt "session")) None false false) demo_finishing_reached
    eq_refl eq_refl eq_refl) as (n & Hn & H).
  exists n. split; [exact Hn|]. intros tr' e' Hs. exact (proj1 (H tr' e' Hs)).
Defined.

Lemma engine_callbacks_once_witness :
  asks (accepted demo_finished.1) = answers demo_finished.1.
Proof.
  pose proof (proj2 (proj1 (engine_callbacks_once demo_finished.1 demo_finished.2 demo_finished_reached)
    eq_refl)) as H.
  rewrite H. reflexivity.
Defined.

(** The byte ff is no UTF-8 text. *)
Definition demo_bad_memory : memory := list_to_map [(1, [Byte.xff])].

Lemma undecodable_mutation_ends_worker_witness :
  exists c e1 e2, ha_engine_session_delete demo_bad_memory 9 1 1 5 6 = value (inr c)
    /\ submit (en_mailbox engine_init) (inr c) = (0, en_mailbox e1)
    /\ step engine_init (en_submit c true) e1 /\ step e1 (en_end c []) e2 /\ en_worker e2 = false.
Proof.
  destruct (undecodable_mutation_ends_worker demo_bad_memory 9 1 1 5 6 engine_init
    ltac:(done) ltac:(done) ltac:(done) ltac:(lia)
    (readable_whole demo_bad_memory 1 [Byte.xff] eq_refl ltac:(reflexivity)) eq_refl eq_refl eq_refl eq_refl)
    as (c & e1 & e2 & Hc & Hsub & H1 & H2 & Hlast).
  exists c, e1, e2. split; [exact Hc|]. split; [exact Hsub|]. split; [exact H1|]. split; [exact H2|].
  exact (proj1 (Hlast [] e2 (steps_nil e2))).
Defined.

Lemma engine_entries_contract_witness :
  exists r, ha_engine_set_task_limit 9 33 = value r /\ submit newEngineMailbox r = (2, newEngineMailbox).
Proof.
  destruct (engine_entries_contract demo_bad_memory (fun t => t) 9 1 1 33 5 6 newEngineMailbox
    (readable_lent _ _ _ (readable_whole demo_bad_memory 1 [Byte.xff] eq_refl ltac:(reflexivity)))
    ltac:(lia)) as (_ & _ & (r & Hr & Hsub) & _).
  by exists r.
Defined.

Lemma task_snapshot_conforms_witness :
  exists l, sendTaskSnapshot demo_world (en_supervisor demo_queued.2) 7 8
            = ha_task_snapshot_callback 7 8 (Some l).
Proof.
  destruct (task_snapshot_conforms demo_queued.1 demo_queued.2 demo_world None 7 8
    demo_queued_reached eq_refl) as (l & Hl & _). by exists l.
Defined.
