(* ===== verification/RepositoryWorkers.v ===== *)
(** * The workers of repository operations

    Every accepted repository operation runs on a worker thread of one process-wide group
    (RepositoryWorkers.hs); [ha_repository_cancel_all] of HaskellAgentBridge.h interrupts and
    joins them.  This file has the worker's thread, the admission barrier and the calls of
    cancel-all as a step relation, for operations that are any sequence of callbacks.
    [worker_callbacks]: which callbacks an operation makes under every interleaving;
    [cancel_all_joins]: what has ended when cancel-all returns; [cancel_all_returns]: that it
    returns.  [reentrant_cancel_never_returns]: called from a callback it does not. *)

From stdpp Require Import base tactics option list gmap sets.
From Stdlib Require Import ZArith Lia.
From S2P Require Import Prelude.
#[local] Open Scope nat_scope.

Section Group.
Context {callback : Type}.

(** ** Operations

    What a worker emits: a callback, or a callback behind the [terminal] variable of
    [emitDeliveryOnce]. *)
Inductive emission := direct (c : callback) | once (c : callback).

(** The callbacks that [prepare] makes, the action that it returns, and [onCancelled]. *)
Record operation := {
  op_stream : list callback;
  op_result : list emission;
  op_cancelled : list emission;
}.

(** The callbacks of an action, given whether [terminal] is set. *)
Fixpoint emitted (terminal : bool) (l : list emission) : list callback :=
  match l with
  | [] => []
  | direct c :: l => c :: emitted terminal l
  | once c :: l => if terminal then emitted true l else c :: emitted true l
  end.

(** ** Workers

    Where the thread of a worker is: before and while it records itself in
    [repositoryCallbackThreads]; at its gate; in [prepare], unmasked, or in the action after
    it, masked (with what is left, and whether a callback is being called); in the two
    finalizers.  A worker that was interrupted before it was recorded is [lost]. *)
Inductive stage :=
  | Entering
  | Recording
  | Gated
  | Preparing (rest : list callback) (calling : bool)
  | Finishing (rest : list emission) (calling : bool)
  | Leaving
  | Removing
  | Unregistering (lost : bool)
  | Ended (lost : bool).

Record worker := {
  wk_operation : operation;
  wk_stage : stage;
  wk_gate : bool;
  (** Whether [AsyncCancelled] was thrown to the thread. *)
  wk_interrupted : bool;
  wk_terminal : bool;
  (** The callbacks that the worker has begun, in order. *)
  wk_calls : list callback;
}.

Definition new_worker (op : operation) : worker := Build_worker op Entering false false false [].

Definition at_stage (st : stage) (x : worker) : worker :=
  Build_worker (wk_operation x) st (wk_gate x) (wk_interrupted x) (wk_terminal x) (wk_calls x).

(** A callback begins. *)
Definition calls (c : callback) (terminal : bool) (st : stage) (x : worker) : worker :=
  Build_worker (wk_operation x) st (wk_gate x) (wk_interrupted x) terminal (wk_calls x ++ [c]).

Definition open_gate (x : worker) : worker :=
  Build_worker (wk_operation x) (wk_stage x) true (wk_interrupted x) (wk_terminal x) (wk_calls x).

Definition interrupt (x : worker) : worker :=
  Build_worker (wk_operation x) (wk_stage x) (wk_gate x) true (wk_terminal x) (wk_calls x).

(** The steps of the thread that touch nothing else.  An exception thrown to a masked thread
    is raised where the thread blocks: at a gate that is still closed. *)
Inductive advance (x : worker) : worker -> Prop :=
  | advance_gate :
      wk_stage x = Gated -> wk_gate x = true ->
      advance x (at_stage (Preparing (op_stream (wk_operation x)) false) x)
  | advance_gate_interrupted :
      wk_stage x = Gated -> wk_gate x = false -> wk_interrupted x = true ->
      advance x (at_stage (Finishing (op_cancelled (wk_operation x)) false) x)
  | advance_stream c rest :
      wk_stage x = Preparing (c :: rest) false ->
      advance x (calls c (wk_terminal x) (Preparing rest true) x)
  | advance_prepared :
      wk_stage x = Preparing [] false ->
      advance x (at_stage (Finishing (op_result (wk_operation x)) false) x)
  | advance_interrupted rest :
      wk_stage x = Preparing rest false -> wk_interrupted x = true ->
      advance x (at_stage (Finishing (op_cancelled (wk_operation x)) false) x)
  | advance_direct c rest :
      wk_stage x = Finishing (direct c :: rest) false ->
      advance x (calls c (wk_terminal x) (Finishing rest true) x)
  | advance_once c rest :
      wk_stage x = Finishing (once c :: rest) false -> wk_terminal x = false ->
      advance x (calls c true (Finishing rest true) x)
  | advance_skip c rest :
      wk_stage x = Finishing (once c :: rest) false -> wk_terminal x = true ->
      advance x (at_stage (Finishing rest false) x)
  | advance_finished :
      wk_stage x = Finishing [] false -> advance x (at_stage Leaving x).

(** The callback in progress, and the stage after its return. *)
Definition returned (st : stage) : option stage :=
  match st with
  | Preparing rest true => Some (Preparing rest false)
  | Finishing rest true => Some (Finishing rest false)
  | _ => None
  end.

(** ** Calls of cancel-all

    Where a call is: about to ask [isRepositoryCallbackThread], about to take
    [repositoryWorkers], waiting for the barrier of another call, in [mapM_ cancel] (with the
    workers left, whether the exception is thrown to the first, and all of them), in
    [mapM_ waitCatch], in the two steps of the finalizer. *)
Inductive cancel_stage :=
  | Asking
  | Admission
  | Waiting (barrier : nat)
  | Cancelling (barrier : nat) (left : list nat) (thrown : bool) (workers : list nat)
  | Joining (barrier : nat) (left : list nat)
  | Releasing (barrier : nat)
  | Filling (barrier : nat)
  | Returned.

(** A call, the worker whose callback makes it, and the number of operations that were
    accepted before it. *)
Record cancel_call := {
  cc_stage : cancel_stage;
  cc_within : option nat;
  cc_before : nat;
}.

(** A thread: of a worker, or of a call.  A call from C is a Haskell thread of its own. *)
Abbreviation thread := (nat + nat)%type.
Abbreviation worker_thread := (@inl nat nat).
Abbreviation call_thread := (@inr nat nat).

Record group := {
  repositoryWorkerNextId : nat;
  repositoryWorkerActive : gset nat;
  repositoryWorkerBarrier : option nat;
  (** The barriers made, with the number of operations accepted then, and those filled. *)
  gr_barriers : gmap nat nat;
  gr_filled : gset nat;
  repositoryCallbackThreads : gset thread;
  (** The worker that has taken [repositoryCallbackThreads]. *)
  gr_holder : option nat;
  gr_workers : gmap nat worker;
  gr_calls : gmap nat cancel_call;
}.

Definition group_init : group := Build_group 0 ∅ None ∅ ∅ ∅ None ∅ ∅.

Definition set_worker (w : nat) (x : worker) (s : group) : group :=
  Build_group (repositoryWorkerNextId s) (repositoryWorkerActive s) (repositoryWorkerBarrier s)
    (gr_barriers s) (gr_filled s) (repositoryCallbackThreads s) (gr_holder s)
    (<[w := x]> (gr_workers s)) (gr_calls s).

Definition set_threads (threads : gset thread) (holder : option nat) (s : group) : group :=
  Build_group (repositoryWorkerNextId s) (repositoryWorkerActive s) (repositoryWorkerBarrier s)
    (gr_barriers s) (gr_filled s) threads holder (gr_workers s) (gr_calls s).

Definition set_group (active : gset nat) (barrier : option nat) (s : group) : group :=
  Build_group (repositoryWorkerNextId s) active barrier
    (gr_barriers s) (gr_filled s) (repositoryCallbackThreads s) (gr_holder s)
    (gr_workers s) (gr_calls s).

Definition set_barriers (barriers : gmap nat nat) (filled : gset nat) (s : group) : group :=
  Build_group (repositoryWorkerNextId s) (repositoryWorkerActive s) (repositoryWorkerBarrier s)
    barriers filled (repositoryCallbackThreads s) (gr_holder s) (gr_workers s) (gr_calls s).

Definition set_call (i : nat) (c : cancel_call) (s : group) : group :=
  Build_group (repositoryWorkerNextId s) (repositoryWorkerActive s) (repositoryWorkerBarrier s)
    (gr_barriers s) (gr_filled s) (repositoryCallbackThreads s) (gr_holder s) (gr_workers s)
    (<[i := c]> (gr_calls s)).

Definition call_at (st : cancel_stage) (c : cancel_call) : cancel_call :=
  Build_cancel_call st (cc_within c) (cc_before c).

(** [startRepositoryWorker], the transaction: the worker's thread is forked in it. *)
Definition startRepositoryWorker (op : operation) (s : group) : bool * group :=
  match repositoryWorkerBarrier s with
  | Some _ => (false, s)
  | None =>
      let workerId := repositoryWorkerNextId s in
      (true,
       Build_group (S workerId) ({[workerId]} ∪ repositoryWorkerActive s) None (gr_barriers s)
         (gr_filled s) (repositoryCallbackThreads s) (gr_holder s)
         (<[workerId := new_worker op]> (gr_workers s)) (gr_calls s))
  end.

Definition unregisterRepositoryWorker (w : nat) (s : group) : group :=
  set_group (repositoryWorkerActive s ∖ {[w]}) (repositoryWorkerBarrier s) s.

Definition isRepositoryCallbackThread (t : thread) (s : group) : bool :=
  bool_decide (t ∈ repositoryCallbackThreads s).

Definition is_ended (st : stage) : bool := match st with Ended _ => true | _ => false end.

Definition ended (s : group) (w : nat) : Prop :=
  exists x lost, gr_workers s !! w = Some x /\ wk_stage x = Ended lost.

(** ** Steps of the runtime's threads *)

Inductive run_step (s : group) : group -> Prop :=
  | run_advance w x x' :
      gr_workers s !! w = Some x -> advance x x' -> run_step s (set_worker w x' s)
  (** A callback returns, unless it is still inside a call of cancel-all. *)
  | run_returned w x st :
      gr_workers s !! w = Some x -> returned (wk_stage x) = Some st ->
      (forall i c, gr_calls s !! i = Some c -> cc_within c = Some w -> cc_stage c = Returned) ->
      run_step s (set_worker w (at_stage st x) s)
  (** [withRepositoryCallbackThread]: [takeMVar] blocks while another thread has taken the
      variable, and can be interrupted then; it cannot in the finalizer. *)
  | run_enter w x :
      gr_workers s !! w = Some x -> wk_stage x = Entering -> gr_holder s = None ->
      run_step s (set_threads (repositoryCallbackThreads s) (Some w)
                    (set_worker w (at_stage Recording x) s))
  | run_enter_interrupted w x v :
      gr_workers s !! w = Some x -> wk_stage x = Entering -> gr_holder s = Some v ->
      wk_interrupted x = true ->
      run_step s (set_worker w (at_stage (Unregistering true) x) s)
  | run_record w x :
      gr_workers s !! w = Some x -> wk_stage x = Recording -> gr_holder s = Some w ->
      run_step s (set_threads ({[worker_thread w]} ∪ repositoryCallbackThreads s) None
                    (set_worker w (at_stage Gated x) s))
  | run_leave w x :
      gr_workers s !! w = Some x -> wk_stage x = Leaving -> gr_holder s = None ->
      run_step s (set_threads (repositoryCallbackThreads s) (Some w)
                    (set_worker w (at_stage Removing x) s))
  | run_remove w x :
      gr_workers s !! w = Some x -> wk_stage x = Removing -> gr_holder s = Some w ->
      run_step s (set_threads (repositoryCallbackThreads s ∖ {[worker_thread w]}) None
                    (set_worker w (at_stage (Unregistering false) x) s))
  | run_unregister w x lost :
      gr_workers s !! w = Some x -> wk_stage x = Unregistering lost ->
      run_step s (unregisterRepositoryWorker w (set_worker w (at_stage (Ended lost) x) s))
  (** The call that started the worker opens its gate. *)
  | run_gate w x :
      gr_workers s !! w = Some x -> wk_gate x = false ->
      run_step s (set_worker w (open_gate x) s)
  (** [cancelRepositoryWorkers]. *)
  | run_ask i c :
      gr_calls s !! i = Some c -> cc_stage c = Asking -> gr_holder s = None ->
      run_step s (set_call i (call_at (if isRepositoryCallbackThread (call_thread i) s
                                       then Returned else Admission) c) s)
  | run_wait i c b :
      gr_calls s !! i = Some c -> cc_stage c = Admission -> repositoryWorkerBarrier s = Some b ->
      run_step s (set_call i (call_at (Waiting b) c) s)
  | run_begin i c b l :
      gr_calls s !! i = Some c -> cc_stage c = Admission -> repositoryWorkerBarrier s = None ->
      gr_barriers s !! b = None -> l ≡ₚ elements (repositoryWorkerActive s) ->
      run_step s (set_call i (call_at (Cancelling b l false l) c)
                    (set_group ∅ (Some b)
                       (set_barriers (<[b := repositoryWorkerNextId s]> (gr_barriers s))
                          (gr_filled s) s)))
  | run_throw i c b w x l all :
      gr_calls s !! i = Some c -> cc_stage c = Cancelling b (w :: l) false all ->
      gr_workers s !! w = Some x ->
      run_step s (set_call i (call_at (Cancelling b (w :: l) true all) c)
                    (set_worker w (interrupt x) s))
  | run_cancelled i c b w l all :
      gr_calls s !! i = Some c -> cc_stage c = Cancelling b (w :: l) true all -> ended s w ->
      run_step s (set_call i (call_at (Cancelling b l false all) c) s)
  | run_join i c b all t :
      gr_calls s !! i = Some c -> cc_stage c = Cancelling b [] t all ->
      run_step s (set_call i (call_at (Joining b all) c) s)
  | run_joined i c b w l :
      gr_calls s !! i = Some c -> cc_stage c = Joining b (w :: l) -> ended s w ->
      run_step s (set_call i (call_at (Joining b l) c) s)
  | run_all_joined i c b :
      gr_calls s !! i = Some c -> cc_stage c = Joining b [] ->
      run_step s (set_call i (call_at (Releasing b) c) s)
  | run_release i c b :
      gr_calls s !! i = Some c -> cc_stage c = Releasing b ->
      run_step s (set_call i (call_at (Filling b) c)
                    (set_group (repositoryWorkerActive s) None s))
  | run_fill i c b :
      gr_calls s !! i = Some c -> cc_stage c = Filling b ->
      run_step s (set_call i (call_at Returned c)
                    (set_barriers (gr_barriers s) ({[b]} ∪ gr_filled s) s))
  | run_waited i c b :
      gr_calls s !! i = Some c -> cc_stage c = Waiting b -> b ∈ gr_filled s ->
      run_step s (set_call i (call_at Returned c) s).

(** A call of cancel-all, made at a moment when the workers are [s]. *)
Definition ha_repository_cancel_all (i : nat) (within : option nat) (s : group) : group :=
  set_call i (Build_cancel_call Asking within (repositoryWorkerNextId s)) s.

(** A callback of the worker is being called. *)
Definition in_callback (s : group) (w : nat) : Prop :=
  exists x, gr_workers s !! w = Some x /\ is_Some (returned (wk_stage x)).

(** The host's calls: an operation, and cancel-all, on a thread of the host or inside a
    callback. *)
Inductive host_step (s : group) : group -> Prop :=
  | host_start op : host_step s (snd (startRepositoryWorker op s))
  | host_cancel_all i within :
      gr_calls s !! i = None -> (forall w, within = Some w -> in_callback s w) ->
      host_step s (ha_repository_cancel_all i within s).

Definition step (s s' : group) : Prop := host_step s s' \/ run_step s s'.

Inductive reach : group -> Prop :=
  | reach_init : reach group_init
  | reach_step s s' : reach s -> step s s' -> reach s'.

Inductive steps (s : group) : group -> Prop :=
  | steps_refl : steps s s
  | steps_step s' s'' : steps s s' -> step s' s'' -> steps s s''.

(** ** What one worker does

    The callbacks of a complete run: all that [prepare] makes and the result; or, when the
    worker was interrupted, some of them and the cancellation. *)
Inductive complete (op : operation) (interrupted : bool) : list callback -> Prop :=
  | complete_result : complete op interrupted (op_stream op ++ emitted false (op_result op))
  | complete_cancelled pre :
      interrupted = true -> pre `prefix_of` op_stream op ->
      complete op interrupted (pre ++ emitted false (op_cancelled op)).

Definition worker_ok (x : worker) : Prop :=
  match wk_stage x with
  | Entering | Recording | Gated => wk_calls x = [] /\ wk_terminal x = false
  | Preparing rest _ => wk_calls x ++ rest = op_stream (wk_operation x) /\ wk_terminal x = false
  | Finishing rest _ =>
      complete (wk_operation x) (wk_interrupted x) (wk_calls x ++ emitted (wk_terminal x) rest)
  | Leaving | Removing | Unregistering false | Ended false =>
      complete (wk_operation x) (wk_interrupted x) (wk_calls x)
  | Unregistering true | Ended true => wk_calls x = [] /\ wk_interrupted x = true
  end.

Lemma complete_interrupt op b full : complete op b full -> complete op true full.
Proof. intros [|pre _ Hp]; [apply complete_result|by apply complete_cancelled]. Qed.

Lemma new_worker_ok op : worker_ok (new_worker op).
Proof. done. Qed.

Lemma open_gate_ok x : worker_ok x -> worker_ok (open_gate x).
Proof. done. Qed.

Lemma interrupt_ok x : worker_ok x -> worker_ok (interrupt x).
Proof.
  unfold worker_ok, interrupt. cbn. destruct (wk_stage x) as [| | | | | | |[]|[]]; try done;
    try (by apply complete_interrupt); by intros [? _].
Qed.

Lemma advance_ok x x' : worker_ok x -> advance x x' -> worker_ok x'.
Proof.
  unfold worker_ok. intros Hx Ha.
  destruct Ha as [Hst Hg|Hst Hg Hi|c rest Hst|Hst|rest Hst Hi|c rest Hst|c rest Hst Ht
                 |c rest Hst Ht|Hst]; rewrite Hst in Hx; cbn.
  - destruct Hx as [-> ->]. by split.
  - destruct Hx as [-> ->]. cbn. apply (complete_cancelled _ _ []); [done|apply prefix_nil].
  - destruct Hx as [<- Hx]. by rewrite <- app_assoc.
  - destruct Hx as [Hx ->]. rewrite app_nil_r in Hx. rewrite Hx. apply complete_result.
  - destruct Hx as [Hx ->]. apply complete_cancelled; [done|]. rewrite <- Hx. by apply prefix_app_r.
  - rewrite <- app_assoc. exact Hx.
  - rewrite Ht in Hx. rewrite <- app_assoc. exact Hx.
  - rewrite Ht in *. exact Hx.
  - cbn in Hx. by rewrite app_nil_r in Hx.
Qed.

Lemma returned_ok x st : worker_ok x -> returned (wk_stage x) = Some st -> worker_ok (at_stage st x).
Proof.
  unfold worker_ok. destruct (wk_stage x) as [| | |rest []|rest []| | | |] eqn:E; try done;
    intros Hx [= <-]; exact Hx.
Qed.

Definition workers_ok (s : group) : Prop := map_Forall (fun _ => worker_ok) (gr_workers s).

Lemma workers_ok_insert s w x :
  workers_ok s -> worker_ok x -> map_Forall (fun _ => worker_ok) (<[w := x]> (gr_workers s)).
Proof. intros. by apply map_Forall_insert_2. Qed.

(** A change of stage that keeps what the worker has done. *)
Lemma at_stage_ok x st st' :
  wk_stage x = st -> worker_ok x ->
  (worker_ok (at_stage st x) -> worker_ok (at_stage st' x)) -> worker_ok (at_stage st' x).
Proof. intros <- Hx H. apply H. by destruct x. Qed.

Lemma run_workers_ok s s' : workers_ok s -> run_step s s' -> workers_ok s'.
Proof.
  intros Hok Hs.
  destruct Hs as [w x x' Hw Ha|w x st Hw Hst _|w x Hw Hst _|w x v Hw Hst _ Hi|w x Hw Hst _
    |w x Hw Hst _|w x Hw Hst _|w x lost Hw Hst|w x Hw Hg|i c Hi Hst _|i c b Hi Hst Hb
    |i c b l Hi Hst Hb Hf Hl|i c b w x l all Hi Hst Hw|i c b w l all Hi Hst He
    |i c b all t Hi Hst|i c b w l Hi Hst He|i c b Hi Hst|i c b Hi Hst|i c b Hi Hst|i c b Hi Hst Hf];
    try exact Hok; apply workers_ok_insert; try exact Hok; pose proof (Hok _ _ Hw) as Hx.
  - by eapply advance_ok.
  - by apply returned_ok.
  - by eapply at_stage_ok.
  - unfold worker_ok in *. rewrite Hst in Hx. cbn. by destruct Hx.
  - by eapply at_stage_ok.
  - by eapply at_stage_ok.
  - by eapply at_stage_ok.
  - eapply at_stage_ok; [done..|]. by destruct lost.
  - by apply open_gate_ok.
  - by apply interrupt_ok.
Qed.

Lemma reach_workers_ok s : reach s -> workers_ok s.
Proof.
  induction 1 as [|s s' _ IH [Hh|Hr]]; [by intros w x ?| |by eapply run_workers_ok].
  destruct Hh as [op|i within Hi Hw]; [|exact IH]. unfold startRepositoryWorker.
  destruct (repositoryWorkerBarrier s); [exact IH|]. by apply workers_ok_insert.
Qed.

(** The callbacks begun are the beginning of a complete run. *)
Lemma worker_ok_prefix x :
  worker_ok x -> exists full, complete (wk_operation x) (wk_interrupted x) full /\ wk_calls x `prefix_of` full.
Proof.
  unfold worker_ok. intros Hx. destruct (wk_stage x) as [| | |rest b|rest b| | |[]|[]].
  1-3: destruct Hx as [-> _]; eexists; split; [apply complete_result|apply prefix_nil].
  - destruct Hx as [Hx _]. eexists. split; [apply complete_result|].
    rewrite <- Hx, <- app_assoc. by apply prefix_app_r.
  - eexists. split; [exact Hx|by apply prefix_app_r].
  - by eexists.
  - by eexists.
  - destruct Hx as [-> _]. eexists. split; [apply complete_result|apply prefix_nil].
  - by eexists.
  - destruct Hx as [-> _]. eexists. split; [apply complete_result|apply prefix_nil].
  - by eexists.
Qed.

(** ** The registry of callback threads *)

Definition holding (st : stage) : bool :=
  match st with Recording | Removing => true | _ => false end.

Definition holds (s : group) (w : nat) : Prop :=
  exists x, gr_workers s !! w = Some x /\ holding (wk_stage x) = true.

Record threads_ok (s : group) : Prop := {
  (** The variable is taken exactly while a worker writes it. *)
  threads_holder w : gr_holder s = Some w <-> holds s w;
  (** A call from C never runs on a thread that is recorded. *)
  threads_workers t : t ∈ repositoryCallbackThreads s -> exists w, t = worker_thread w;
}.

Lemma holds_insert s w x v :
  (exists y, <[w := x]> (gr_workers s) !! v = Some y /\ holding (wk_stage y) = true)
  <-> (if decide (v = w) then holding (wk_stage x) = true else holds s v).
Proof.
  destruct (decide (v = w)) as [->|Hne].
  - rewrite lookup_insert_eq. split; [by intros (y & [= <-] & ?)|by eexists].
  - by rewrite lookup_insert_ne.
Qed.

(** A worker moves without taking or giving the variable. *)
Lemma threads_ok_move s s' w x x' :
  threads_ok s -> gr_workers s !! w = Some x -> holding (wk_stage x') = holding (wk_stage x) ->
  gr_workers s' = <[w := x']> (gr_workers s) -> gr_holder s' = gr_holder s ->
  repositoryCallbackThreads s' = repositoryCallbackThreads s -> threads_ok s'.
Proof.
  intros Hok Hw Hh Hws Hho Ht. split.
  - intros v. unfold holds. rewrite Hws, Hho, holds_insert, (threads_holder _ Hok).
    destruct (decide (v = w)) as [->|]; [|done]. rewrite Hh. unfold holds. rewrite Hw.
    split; [by intros (? & [= <-] & ?)|by eexists].
  - rewrite Ht. apply (threads_workers _ Hok).
Qed.

Lemma threads_ok_frame s s' :
  threads_ok s -> gr_workers s' = gr_workers s -> gr_holder s' = gr_holder s ->
  repositoryCallbackThreads s' = repositoryCallbackThreads s -> threads_ok s'.
Proof.
  intros Hok Hw Hh Ht. split.
  - intros v. unfold holds. rewrite Hw, Hh. apply (threads_holder _ Hok).
  - rewrite Ht. apply (threads_workers _ Hok).
Qed.

(** A worker takes the free variable... *)
Lemma threads_ok_take s w x x' :
  threads_ok s -> gr_holder s = None -> gr_workers s !! w = Some x -> holding (wk_stage x') = true ->
  threads_ok (set_threads (repositoryCallbackThreads s) (Some w) (set_worker w x' s)).
Proof.
  intros Hok Hn Hw Hh. split; [|apply (threads_workers _ Hok)]. cbn. intros v.
  unfold holds. cbn. rewrite holds_insert. destruct (decide (v = w)) as [->|Hne]; [done|].
  rewrite <- (threads_holder _ Hok), Hn. split; [by intros [= ->]|done].
Qed.

(** ... and gives it back. *)
Lemma threads_ok_give s w x' threads :
  threads_ok s -> gr_holder s = Some w -> holding (wk_stage x') = false ->
  (forall t, t ∈ threads -> t ∈ repositoryCallbackThreads s \/ t = worker_thread w) ->
  threads_ok (set_threads threads None (set_worker w x' s)).
Proof.
  intros Hok Hn Hh Ht. split; cbn.
  - intros v. unfold holds. cbn. rewrite holds_insert.
    destruct (decide (v = w)) as [->|Hne]; [by rewrite Hh|].
    rewrite <- (threads_holder _ Hok), Hn. split; [done|by intros [= ->]].
  - intros t [Hin| ->]%Ht; [by apply (threads_workers _ Hok)|by eexists].
Qed.

Lemma advance_holding x x' : advance x x' -> holding (wk_stage x') = holding (wk_stage x).
Proof. by destruct 1 as [Hst|Hst|? ? Hst|Hst|? Hst|? ? Hst|? ? Hst|? ? Hst|Hst]; rewrite Hst. Qed.

Lemma returned_holding st st' : returned st = Some st' -> holding st' = holding st.
Proof. by destruct st as [| | |rest []|rest []| | | |]; try done; intros [= <-]. Qed.

Lemma run_threads_ok s s' : threads_ok s -> run_step s s' -> threads_ok s'.
Proof.
  intros Hok Hs.
  destruct Hs as [w x x' Hw Ha|w x st Hw Hst _|w x Hw Hst Hh|w x v Hw Hst _ Hi|w x Hw Hst Hh
    |w x Hw Hst Hh|w x Hw Hst Hh|w x lost Hw Hst|w x Hw Hg|i c Hi Hst _|i c b Hi Hst Hb
    |i c b l Hi Hst Hb Hf Hl|i c b w x l all Hi Hst Hw|i c b w l all Hi Hst He
    |i c b all t Hi Hst|i c b w l Hi Hst He|i c b Hi Hst|i c b Hi Hst|i c b Hi Hst|i c b Hi Hst Hf];
    try exact Hok;
    try (eapply threads_ok_move; [exact Hok|exact Hw| |reflexivity..]; cbn; by rewrite ?Hst);
    try (eapply threads_ok_frame; [exact Hok|reflexivity..]).
  - apply (threads_ok_move s _ w x x'); try done. by apply advance_holding.
  - apply (threads_ok_move s _ w x (at_stage st x)); try done. by apply returned_holding.
  - by eapply threads_ok_take.
  - apply threads_ok_give; [done..|]. set_solver.
  - by eapply threads_ok_take.
  - apply threads_ok_give; [done..|]. set_solver.
Qed.

(** ** What is joined *)

(** The list that a call of cancel-all still has to cancel. *)
Definition to_cancel (st : cancel_stage) : list nat :=
  match st with Cancelling _ l _ _ => l | _ => [] end.

(** All that it has still to cancel or to wait for. *)
Definition listed (st : cancel_stage) : list nat :=
  match st with Cancelling _ l _ all => l ++ all | Joining _ l => l | _ => [] end.

(** The barrier that a call has set and not yet taken down. *)
Definition owns (st : cancel_stage) : option nat :=
  match st with Cancelling b _ _ _ | Joining b _ | Releasing b => Some b | _ => None end.

(** The barrier that a call has still to fill. *)
Definition fills (st : cancel_stage) : option nat :=
  match st with Filling b => Some b | _ => owns st end.

(** The barrier on which the end of a call depends. *)
Definition relies (st : cancel_stage) : option nat :=
  match st with Waiting b => Some b | _ => fills st end.

Definition ended_below (s : group) (n : nat) : Prop := forall w, w < n -> ended s w.

Record joins_ok (s : group) : Prop := {
  joins_ids w : is_Some (gr_workers s !! w) <-> w < repositoryWorkerNextId s;
  joins_active w : w ∈ repositoryWorkerActive s -> w < repositoryWorkerNextId s /\ ~ ended s w;
  (** A worker that runs is registered, or a call of cancel-all is about to join it. *)
  joins_tracked w :
    w < repositoryWorkerNextId s -> ended s w \/ w ∈ repositoryWorkerActive s
    \/ exists i c, gr_calls s !! i = Some c /\ w ∈ to_cancel (cc_stage c);
  joins_listed i c w :
    gr_calls s !! i = Some c -> w ∈ listed (cc_stage c) -> w < repositoryWorkerNextId s;
  (** One call owns the barrier. *)
  joins_barrier b :
    repositoryWorkerBarrier s = Some b ->
    gr_barriers s !! b = Some (repositoryWorkerNextId s) /\ repositoryWorkerActive s = ∅;
  joins_owner i c b :
    gr_calls s !! i = Some c -> owns (cc_stage c) = Some b -> repositoryWorkerBarrier s = Some b;
  joins_unique i j c c' b :
    gr_calls s !! i = Some c -> gr_calls s !! j = Some c' ->
    owns (cc_stage c) = Some b -> owns (cc_stage c') = Some b -> i = j;
  (** A barrier is filled by a call; when it is down, the workers before it have ended. *)
  joins_filler b :
    is_Some (gr_barriers s !! b) ->
    b ∈ gr_filled s \/ exists i c, gr_calls s !! i = Some c /\ fills (cc_stage c) = Some b;
  joins_down b n :
    gr_barriers s !! b = Some n ->
    n <= repositoryWorkerNextId s /\ (repositoryWorkerBarrier s <> Some b -> ended_below s n);
  joins_filled b :
    b ∈ gr_filled s -> is_Some (gr_barriers s !! b) /\ repositoryWorkerBarrier s <> Some b;
  joins_filling i c b :
    gr_calls s !! i = Some c -> cc_stage c = Filling b -> repositoryWorkerBarrier s <> Some b;
  joins_before i c :
    gr_calls s !! i = Some c -> cc_before c <= repositoryWorkerNextId s;
  joins_relies i c b :
    gr_calls s !! i = Some c -> relies (cc_stage c) = Some b ->
    exists n, gr_barriers s !! b = Some n /\ cc_before c <= n;
  joins_returned i c :
    gr_calls s !! i = Some c -> cc_stage c = Returned -> ended_below s (cc_before c);
}.

(** Steps of the workers leave this, as long as none begins or ends. *)
Lemma joins_ok_frame s s' :
  joins_ok s -> (forall w, is_Some (gr_workers s' !! w) <-> is_Some (gr_workers s !! w)) ->
  (forall w, ended s' w <-> ended s w) ->
  repositoryWorkerNextId s' = repositoryWorkerNextId s ->
  repositoryWorkerActive s' = repositoryWorkerActive s ->
  repositoryWorkerBarrier s' = repositoryWorkerBarrier s ->
  gr_barriers s' = gr_barriers s -> gr_filled s' = gr_filled s -> gr_calls s' = gr_calls s ->
  joins_ok s'.
Proof.
  intros [] Hw He Hn Ha Hb Hbs Hf Hc.
  assert (Heb : forall n, ended_below s n -> ended_below s' n) by (intros n H w ?; by apply He, H).
  split; rewrite ?Hn, ?Ha, ?Hb, ?Hbs, ?Hf, ?Hc; try done.
  - intros w. by rewrite Hw.
  - intros w Hin. rewrite He. auto.
  - intros w Hlt. rewrite He. auto.
  - intros b n Hbn. destruct (joins_down0 _ _ Hbn) as [? H]. split; [done|]. auto.
  - intros i c Hi Hst. eauto.
Qed.

Lemma ended_insert s w x x' v threads holder :
  gr_workers s !! w = Some x -> is_ended (wk_stage x') = is_ended (wk_stage x) ->
  ended (set_threads threads holder (set_worker w x' s)) v <-> ended s v.
Proof.
  intros Hw He. unfold ended. cbn. destruct (decide (v = w)) as [->|].
  - rewrite lookup_insert_eq, Hw.
    split; intros (y & lost & [= <-] & Hy); rewrite Hy in He; cbn in He.
    + destruct (wk_stage x) eqn:E; try done. by eexists _, _.
    + destruct (wk_stage x') eqn:E; try done. by eexists _, _.
  - by rewrite lookup_insert_ne.
Qed.

Lemma joins_ok_move s w x x' threads holder :
  joins_ok s -> gr_workers s !! w = Some x -> is_ended (wk_stage x') = is_ended (wk_stage x) ->
  joins_ok (set_threads threads holder (set_worker w x' s)).
Proof.
  intros Hok Hw He. eapply joins_ok_frame; [exact Hok| |intros v; by eapply ended_insert|reflexivity..].
  intros v. cbn. rewrite lookup_insert_is_Some'. split; [intros [<-|?]; [by eexists|done]|by right].
Qed.

Lemma set_same s : set_threads (repositoryCallbackThreads s) (gr_holder s) s = s.
Proof. by destruct s. Qed.

Lemma joins_ok_worker s w x x' :
  joins_ok s -> gr_workers s !! w = Some x -> is_ended (wk_stage x') = is_ended (wk_stage x) ->
  joins_ok (set_worker w x' s).
Proof. intros. rewrite <- (set_same (set_worker w x' s)). by eapply joins_ok_move. Qed.

Lemma advance_ended x x' : advance x x' -> is_ended (wk_stage x') = is_ended (wk_stage x).
Proof. by destruct 1 as [Hst|Hst|? ? Hst|Hst|? Hst|? ? Hst|? ? Hst|? ? Hst|Hst]; rewrite Hst. Qed.

Lemma returned_ended st st' : returned st = Some st' -> is_ended st' = is_ended st.
Proof. by destruct st as [| | |rest []|rest []| | | |]; try done; intros [= <-]. Qed.

(** A worker is admitted. *)
Lemma joins_ok_start op s : joins_ok s -> joins_ok (snd (startRepositoryWorker op s)).
Proof.
  intros Hok. unfold startRepositoryWorker. destruct (repositoryWorkerBarrier s) as [b|] eqn:Eb; [done|].
  pose proof Hok as []. cbn. set (n := repositoryWorkerNextId s) in *.
  assert (Hfresh : gr_workers s !! n = None).
  { apply eq_None_not_Some. rewrite joins_ids0. lia. }
  assert (He : forall s', gr_workers s' = <[n := new_worker op]> (gr_workers s) ->
                 forall v, ended s' v <-> ended s v).
  { intros s' Hs v. unfold ended. rewrite Hs. destruct (decide (v = n)) as [->|].
    - rewrite lookup_insert_eq, Hfresh. split; intros (y & lost & [= <-] & Hy); done.
    - by rewrite lookup_insert_ne. }
  split; cbn; try done.
  - intros w. rewrite lookup_insert_is_Some'. rewrite joins_ids0. lia.
  - intros w. rewrite He by done. intros [->%elem_of_singleton|Hin]%elem_of_union.
    + split; [lia|]. intros (y & lost & Hy & _). by rewrite Hfresh in Hy.
    + apply joins_active0 in Hin as [? ?]. split; [lia|done].
  - intros w Hw. rewrite He by done. destruct (decide (w = n)) as [->|]; [set_solver|].
    destruct (joins_tracked0 w) as [?|[?|?]]; [lia|auto| |auto]. right. left. set_solver.
  - intros i c w Hi Hw. specialize (joins_listed0 _ _ _ Hi Hw). lia.
  - intros i c b Hi Hb. specialize (joins_owner0 _ _ _ Hi Hb). congruence.
  - intros b m Hb. destruct (joins_down0 _ _ Hb) as [? H]. split; [lia|]. intros _ w Hw.
    apply He; [done|]. by apply H; [rewrite Eb|].
  - intros b Hb. split; [|done]. by apply joins_filled0.
  - intros i c Hi. specialize (joins_before0 _ _ Hi). lia.
  - intros i c Hi Hst w Hw. apply He; [done|]. by eapply joins_returned0.
Qed.

(** A worker ends. *)
Lemma joins_ok_unregister s w x x' lost :
  joins_ok s -> gr_workers s !! w = Some x -> is_ended (wk_stage x) = false ->
  wk_stage x' = Ended lost -> joins_ok (unregisterRepositoryWorker w (set_worker w x' s)).
Proof.
  intros Hok Hw Hx Hx'. pose proof Hok as []. set (s' := unregisterRepositoryWorker _ _).
  assert (Hlt : w < repositoryWorkerNextId s) by (apply joins_ids0; by eexists).
  assert (He : forall v, ended s' v <-> v = w \/ ended s v).
  { intros v. unfold ended. cbn. destruct (decide (v = w)) as [->|].
    - rewrite lookup_insert_eq. split; [by left|]. intros _. by eexists _, _.
    - rewrite lookup_insert_ne by done. naive_solver. }
  assert (Heb : forall n, ended_below s n -> ended_below s' n).
  { intros n H v Hv. apply He. right. by apply H. }
  split; cbn; try done.
  - intros v. rewrite lookup_insert_is_Some'. rewrite joins_ids0. split; [intros [<-|?]; done|by right].
  - intros v [Hin Hne]%elem_of_difference. destruct (joins_active0 _ Hin) as [? Hn].
    split; [done|]. rewrite He. set_solver.
  - intros v Hv. rewrite He. destruct (decide (v = w)); [by left; left|].
    destruct (joins_tracked0 _ Hv) as [?|[?|?]]; [auto| |auto]. right. left. set_solver.
  - intros b Hb. destruct (joins_barrier0 _ Hb) as [? ->]. split; [done|set_solver].
  - intros b n Hb. destruct (joins_down0 _ _ Hb) as [? H]. split; [done|]. auto.
  - intros i c Hi Hst. eauto.
Qed.

(** A call moves on, and the barrier stays as it is. *)
Lemma joins_ok_call s i c st :
  joins_ok s -> gr_calls s !! i = Some c ->
  (forall w, w ∈ to_cancel (cc_stage c) -> ended s w \/ w ∈ to_cancel st) ->
  (forall w, w ∈ listed st -> w ∈ listed (cc_stage c)) ->
  owns st = owns (cc_stage c) -> fills st = fills (cc_stage c) ->
  (forall b, st <> Filling b) ->
  (forall b, relies st = Some b ->
     exists n, gr_barriers s !! b = Some n /\ cc_before c <= n) ->
  (st = Returned -> ended_below s (cc_before c)) ->
  joins_ok (set_call i (call_at st c) s).
Proof.
  intros [] Hi Htc Hl Ho Hf Hnf Hr Hret.
  split; cbn; try done.
  - intros w Hw. destruct (joins_tracked0 _ Hw) as [?|[?|(j & c' & Hj & Hin)]]; [auto..|].
    destruct (decide (j = i)) as [->|Hne].
    + assert (c' = c) as -> by congruence. destruct (Htc _ Hin) as [?|?]; [auto|].
      right. right. exists i. eexists. rewrite lookup_insert_eq. by split.
    + right. right. exists j, c'. by rewrite lookup_insert_ne.
  - intros j c' w [[<- <-]|[Hne Hj]]%lookup_insert_Some; cbn; [|eauto]. intros Hin. eauto.
  - intros j c' b [[<- <-]|[Hne Hj]]%lookup_insert_Some; cbn; [rewrite Ho|]; eauto.
  - intros j k c1 c2 b [[<- <-]|[Hne Hj]]%lookup_insert_Some [[<- <-]|[Hne' Hk]]%lookup_insert_Some;
      cbn; rewrite ?Ho; eauto.
  - intros b Hb. destruct (joins_filler0 _ Hb) as [?|(j & c' & Hj & Hin)]; [auto|]. right.
    destruct (decide (j = i)) as [->|Hne].
    + assert (c' = c) as -> by congruence. exists i. eexists. rewrite lookup_insert_eq.
      split; [done|]. cbn. by rewrite Hf.
    + exists j, c'. by rewrite lookup_insert_ne.
  - intros j c' b [[<- <-]|[Hne Hj]]%lookup_insert_Some; cbn; [|by eauto]. intros E. by apply Hnf in E.
  - intros j c' [[<- <-]|[Hne Hj]]%lookup_insert_Some; cbn; by eauto.
  - intros j c' b [[<- <-]|[Hne Hj]]%lookup_insert_Some; cbn; by eauto.
  - intros j c' [[<- <-]|[Hne Hj]]%lookup_insert_Some; cbn; [done|by eauto].
Qed.

(** No worker is left to cancel: all have ended. *)
Lemma joined_ended s i c b :
  joins_ok s -> gr_calls s !! i = Some c -> owns (cc_stage c) = Some b ->
  to_cancel (cc_stage c) = [] -> ended_below s (repositoryWorkerNextId s).
Proof.
  intros [] Hi Ho Htc w Hw.
  pose proof (joins_owner0 _ _ _ Hi Ho) as Hb. destruct (joins_barrier0 _ Hb) as [_ Ha].
  destruct (joins_tracked0 _ Hw) as [?|[Hin|(j & c' & Hj & Hin)]]; [done|set_solver|].
  destruct (cc_stage c') as [| | |b' l t all| | | |] eqn:E; try by apply elem_of_nil in Hin.
  assert (Hb' : b' = b) by (apply (f_equal Some) in Hb; specialize (joins_owner0 _ _ b' Hj);
    rewrite E in joins_owner0; specialize (joins_owner0 eq_refl); congruence).
  assert (j = i) as -> by (eapply joins_unique0; [done..| |done]; by rewrite E, Hb').
  assert (c' = c) as -> by congruence. rewrite E in Htc. cbn in Htc, Hin. subst l.
  by apply elem_of_nil in Hin.
Qed.

Lemma joins_ok_begin s i c b l :
  joins_ok s -> gr_calls s !! i = Some c -> cc_stage c = Admission ->
  repositoryWorkerBarrier s = None -> gr_barriers s !! b = None ->
  l ≡ₚ elements (repositoryWorkerActive s) ->
  joins_ok (set_call i (call_at (Cancelling b l false l) c)
              (set_group ∅ (Some b)
                 (set_barriers (<[b := repositoryWorkerNextId s]> (gr_barriers s)) (gr_filled s) s))).
Proof.
  intros [] Hi Hst Hb Hf Hl.
  assert (Hin : forall w, w ∈ l <-> w ∈ repositoryWorkerActive s)
    by (intros w; by rewrite Hl, elem_of_elements).
  assert (Hno : forall j c' b', gr_calls s !! j = Some c' -> owns (cc_stage c') <> Some b').
  { intros j c' b' Hj Ho. specialize (joins_owner0 _ _ _ Hj Ho). congruence. }
  split; cbn; try done.
  - intros w Hw. destruct (joins_tracked0 _ Hw) as [?|[Hw'|(j & c' & Hj & Hw')]]; [auto| |].
    + right. right. exists i. eexists. rewrite lookup_insert_eq. split; [done|]. cbn. by apply Hin.
    + right. right. exists j, c'. rewrite lookup_insert_ne; [done|]. intros <-.
      assert (c' = c) as -> by congruence. rewrite Hst in Hw'. by apply elem_of_nil in Hw'.
  - intros j c' w [[<- <-]|[Hne Hj]]%lookup_insert_Some; cbn; [|eauto].
    intros [Hw|Hw]%elem_of_app; by apply joins_active0, Hin.
  - intros b' [= <-]. by rewrite lookup_insert_eq.
  - intros j c' b' [[<- <-]|[Hne Hj]]%lookup_insert_Some; cbn; [done|]. intros Ho. by destruct (Hno _ _ _ Hj Ho).
  - intros j k c1 c2 b' [[<- <-]|[Hne Hj]]%lookup_insert_Some [[<- <-]|[Hne' Hk]]%lookup_insert_Some;
      cbn; intros ? ?; try done; exfalso; by eapply Hno.
  - intros b'. rewrite lookup_insert_is_Some'. intros [<-|Hb'].
    + right. exists i. eexists. rewrite lookup_insert_eq. by split.
    + destruct (joins_filler0 _ Hb') as [?|(j & c' & Hj & Hw)]; [auto|]. right. exists j, c'.
      rewrite lookup_insert_ne; [done|]. intros <-. assert (c' = c) as -> by congruence.
      by rewrite Hst in Hw.
  - intros b' n [[<- <-]|[Hne Hb']]%lookup_insert_Some; [by split|].
    destruct (joins_down0 _ _ Hb') as [? H]. split; [done|]. intros _. apply H. by rewrite Hb.
  - intros b' Hb'. destruct (joins_filled0 _ Hb') as [Hs _]. split.
    + rewrite lookup_insert_is_Some'. by right.
    + intros [= <-]. rewrite Hf in Hs. by destruct Hs.
  - intros j c' b' [[<- <-]|[Hne Hj]]%lookup_insert_Some; cbn; [done|]. intros Hst' [= <-].
    destruct (joins_relies0 _ _ b Hj) as (n & Hn & _); [by rewrite Hst'|congruence].
  - intros j c' [[<- <-]|[Hne Hj]]%lookup_insert_Some; cbn; eauto.
  - intros j c' b' [[<- <-]|[Hne Hj]]%lookup_insert_Some; cbn.
    + intros [= <-]. eexists. rewrite lookup_insert_eq. split; [done|eauto].
    + intros Hr. destruct (joins_relies0 _ _ _ Hj Hr) as (n & Hn & ?). exists n.
      rewrite lookup_insert_ne by congruence. by split.
  - intros j c' [[<- <-]|[Hne Hj]]%lookup_insert_Some; cbn; [done|]. intros ? w Hw.
    by apply (joins_returned0 _ _ Hj).
Qed.

Lemma joins_ok_release s i c b :
  joins_ok s -> gr_calls s !! i = Some c -> cc_stage c = Releasing b ->
  joins_ok (set_call i (call_at (Filling b) c) (set_group (repositoryWorkerActive s) None s)).
Proof.
  intros Hok Hi Hst. assert (Ho : owns (cc_stage c) = Some b) by (by rewrite Hst).
  pose proof (joined_ended _ _ _ _ Hok Hi Ho ltac:(by rewrite Hst)) as Hend. pose proof Hok as [].
  pose proof (joins_owner0 _ _ _ Hi Ho) as Hb. destruct (joins_barrier0 _ Hb) as [Hbn Ha].
  assert (Hun : forall j c' b', gr_calls s !! j = Some c' -> owns (cc_stage c') = Some b' -> j = i).
  { intros j c' b' Hj Ho'. pose proof (joins_owner0 _ _ _ Hj Ho'). eapply joins_unique0; [done..|].
    congruence. }
  split; cbn; try done.
  - intros w Hw. left. by apply Hend.
  - intros j c' w [[<- <-]|[Hne Hj]]%lookup_insert_Some; cbn; [|by eauto]. by intros ?%elem_of_nil.
  - intros j c' b' [[<- <-]|[Hne Hj]]%lookup_insert_Some; cbn; [done|]. intros Ho'.
    by rewrite (Hun _ _ _ Hj Ho') in Hne.
  - intros j k c1 c2 b' [[<- <-]|[Hne Hj]]%lookup_insert_Some [[<- <-]|[Hne' Hk]]%lookup_insert_Some;
      cbn; try done. by eauto.
  - intros b' Hb'. destruct (joins_filler0 _ Hb') as [?|(j & c' & Hj & Hin)]; [auto|]. right.
    destruct (decide (j = i)) as [->|Hne].
    + assert (c' = c) as -> by congruence. exists i. eexists. rewrite lookup_insert_eq.
      split; [done|]. cbn. rewrite Hst in Hin. done.
    + exists j, c'. by rewrite lookup_insert_ne.
  - intros b' n Hb'. destruct (joins_down0 _ _ Hb') as [? H]. split; [done|]. intros _ w Hw.
    apply Hend. lia.
  - intros b' Hb'. split; [|done]. by apply joins_filled0.
  - intros j c' [[<- <-]|[Hne Hj]]%lookup_insert_Some; cbn; by eauto.
  - intros j c' b' [[<- <-]|[Hne Hj]]%lookup_insert_Some; cbn; [|by eauto]. intros [= <-].
    eapply joins_relies0; [done|]. by rewrite Hst.
  - intros j c' [[<- <-]|[Hne Hj]]%lookup_insert_Some; cbn; [done|]. intros ? w Hw.
    by apply (joins_returned0 _ _ Hj).
Qed.

Lemma joins_ok_fill s i c b :
  joins_ok s -> gr_calls s !! i = Some c -> cc_stage c = Filling b ->
  joins_ok (set_call i (call_at Returned c) (set_barriers (gr_barriers s) ({[b]} ∪ gr_filled s) s)).
Proof.
  intros Hok Hi Hst. pose proof Hok as [].
  pose proof (joins_filling0 _ _ _ Hi Hst) as Hb.
  destruct (joins_relies0 _ _ b Hi) as (n & Hn & Hle); [by rewrite Hst|].
  destruct (joins_down0 _ _ Hn) as [Hnn Hend]. specialize (Hend Hb).
  split; cbn; try done.
  - intros w Hw. destruct (joins_tracked0 _ Hw) as [?|[?|(j & c' & Hj & Hin)]]; [auto..|].
    right. right. exists j, c'. rewrite lookup_insert_ne; [done|]. intros <-.
    assert (c' = c) as -> by congruence. rewrite Hst in Hin. by apply elem_of_nil in Hin.
  - intros j c' w [[<- <-]|[Hne Hj]]%lookup_insert_Some; cbn; [by intros ?%elem_of_nil|by eauto].
  - intros j c' b' [[<- <-]|[Hne Hj]]%lookup_insert_Some; cbn; [done|by eauto].
  - intros j k c1 c2 b' [[<- <-]|[Hne Hj]]%lookup_insert_Some [[<- <-]|[Hne' Hk]]%lookup_insert_Some;
      cbn; try done. by eauto.
  - intros b' Hb'. destruct (joins_filler0 _ Hb') as [?|(j & c' & Hj & Hin)]; [set_solver|].
    destruct (decide (j = i)) as [->|Hne].
    + assert (c' = c) as -> by congruence. rewrite Hst in Hin. injection Hin as <-. set_solver.
    + right. exists j, c'. by rewrite lookup_insert_ne.
  - intros b' [->%elem_of_singleton|Hin]%elem_of_union; [by split; [eexists|]|by apply joins_filled0].
  - intros j c' b' [[<- <-]|[Hne Hj]]%lookup_insert_Some; cbn; [done|by eauto].
  - intros j c' [[<- <-]|[Hne Hj]]%lookup_insert_Some; cbn; by eauto.
  - intros j c' b' [[<- <-]|[Hne Hj]]%lookup_insert_Some; cbn; [done|by eauto].
  - intros j c' [[<- <-]|[Hne Hj]]%lookup_insert_Some; cbn.
    + intros _ w Hw. apply Hend. lia.
    + intros ? w Hw. by apply (joins_returned0 _ _ Hj).
Qed.

(** The exception is thrown to a worker, and nothing else changes. *)
Lemma joins_ok_throw s i c b w x l all :
  joins_ok s -> gr_calls s !! i = Some c -> cc_stage c = Cancelling b (w :: l) false all ->
  gr_workers s !! w = Some x ->
  joins_ok (set_call i (call_at (Cancelling b (w :: l) true all) c) (set_worker w (interrupt x) s)).
Proof.
  intros Hok Hi Hst Hw.
  assert (Hok' : joins_ok (set_worker w (interrupt x) s)) by (by eapply joins_ok_worker).
  apply joins_ok_call; try rewrite Hst; try done.
  - by right.
  - intros b' Hb'. apply (joins_relies _ Hok' _ _ _ Hi). by rewrite Hst.
Qed.

Lemma run_joins_ok s s' : threads_ok s -> joins_ok s -> run_step s s' -> joins_ok s'.
Proof.
  intros Hth Hok Hs.
  destruct Hs as [w x x' Hw Ha|w x st Hw Hst _|w x Hw Hst Hh|w x v Hw Hst _ Hi|w x Hw Hst Hh
    |w x Hw Hst Hh|w x Hw Hst Hh|w x lost Hw Hst|w x Hw Hg|i c Hi Hst _|i c b Hi Hst Hb
    |i c b l Hi Hst Hb Hf Hl|i c b w x l all Hi Hst Hw|i c b w l all Hi Hst He
    |i c b all t Hi Hst|i c b w l Hi Hst He|i c b Hi Hst|i c b Hi Hst|i c b Hi Hst|i c b Hi Hst Hf];
    try (eapply joins_ok_move; [done..|]; by rewrite Hst);
    try (eapply joins_ok_worker; [done..|]; cbn; by rewrite ?Hst).
  - eapply joins_ok_worker; [done..|]. by apply advance_ended.
  - eapply joins_ok_worker; [done..|]. by apply returned_ended.
  - eapply joins_ok_unregister; [done..| |done]. by rewrite Hst.
  - unfold isRepositoryCallbackThread.
    rewrite bool_decide_false by (intros (w & [=])%(threads_workers _ Hth)).
    apply joins_ok_call; rewrite ?Hst; try done. by right.
  - destruct (joins_barrier _ Hok _ Hb) as [Hbn _].
    apply joins_ok_call; rewrite ?Hst; try done; [by right|]. intros b' [= <-].
    eexists. split; [done|]. by apply (joins_before _ Hok) in Hi.
  - by apply joins_ok_begin.
  - by eapply joins_ok_throw.
  - apply joins_ok_call; rewrite ?Hst; try done.
    + intros v [->|Hv]%elem_of_cons; [by left|by right].
    + cbn. set_solver.
    + intros b' Hb'. apply (joins_relies _ Hok _ _ _ Hi). by rewrite Hst.
  - apply joins_ok_call; rewrite ?Hst; try done; [by right|].
    intros b' Hb'. apply (joins_relies _ Hok _ _ _ Hi). by rewrite Hst.
  - apply joins_ok_call; rewrite ?Hst; try done; [by right|cbn; set_solver|].
    intros b' Hb'. apply (joins_relies _ Hok _ _ _ Hi). by rewrite Hst.
  - apply joins_ok_call; rewrite ?Hst; try done; [by right|].
    intros b' Hb'. apply (joins_relies _ Hok _ _ _ Hi). by rewrite Hst.
  - by apply joins_ok_release.
  - by apply joins_ok_fill.
  - destruct (joins_filled _ Hok _ Hf) as [_ Hb].
    destruct (joins_relies _ Hok _ _ b Hi) as (n & Hn & Hle); [by rewrite Hst|].
    destruct (joins_down _ Hok _ _ Hn) as [_ Hend].
    apply joins_ok_call; rewrite ?Hst; try done; [by right|]. intros _ w Hw. apply Hend; [done|lia].
Qed.

Record group_ok (s : group) : Prop := {
  ok_threads : threads_ok s;
  ok_joins : joins_ok s;
}.

Lemma group_ok_init : group_ok group_init.
Proof.
  assert (Hemp : forall A (b : nat), ~ is_Some ((∅ : gmap nat A) !! b)) by (by intros A b []).
  split; split; cbn; try done; try lia.
  - intros w. split; [done|]. by intros (x & ? & _).
  - intros w. split; [by intros ?%Hemp|lia].
  - by intros b ?%Hemp.
Qed.

Lemma threads_ok_start op s :
  joins_ok s -> threads_ok s -> threads_ok (snd (startRepositoryWorker op s)).
Proof.
  intros Hj Hok. unfold startRepositoryWorker. destruct (repositoryWorkerBarrier s); [done|].
  split; [|apply (threads_workers _ Hok)]. intros v. cbn. unfold holds. cbn. rewrite holds_insert.
  rewrite (threads_holder _ Hok). destruct (decide (v = _)) as [->|]; [|done].
  split; [|done]. intros (x & Hx & _).
  assert (is_Some (gr_workers s !! repositoryWorkerNextId s)) as Hlt by (by eexists).
  apply (joins_ids _ Hj) in Hlt. lia.
Qed.

Lemma joins_ok_cancel_all i within s :
  joins_ok s -> gr_calls s !! i = None -> joins_ok (ha_repository_cancel_all i within s).
Proof.
  intros [] Hi. split; cbn; try done.
  - intros w Hw. destruct (joins_tracked0 _ Hw) as [?|[?|(j & c' & Hj & Hin)]]; [auto..|].
    right. right. exists j, c'. rewrite lookup_insert_ne; [done|congruence].
  - intros j c' w [[<- <-]|[Hne Hj]]%lookup_insert_Some; cbn; [by intros ?%elem_of_nil|by eauto].
  - intros j c' b' [[<- <-]|[Hne Hj]]%lookup_insert_Some; cbn; [done|by eauto].
  - intros j k c1 c2 b' [[<- <-]|[Hne Hj]]%lookup_insert_Some [[<- <-]|[Hne' Hk]]%lookup_insert_Some;
      cbn; try done. by eauto.
  - intros b' Hb'. destruct (joins_filler0 _ Hb') as [?|(j & c' & Hj & Hin)]; [auto|].
    right. exists j, c'. rewrite lookup_insert_ne; [done|congruence].
  - intros j c' b' [[<- <-]|[Hne Hj]]%lookup_insert_Some; cbn; [done|by eauto].
  - intros j c' [[<- <-]|[Hne Hj]]%lookup_insert_Some; cbn; [done|by eauto].
  - intros j c' b' [[<- <-]|[Hne Hj]]%lookup_insert_Some; cbn; [done|by eauto].
  - intros j c' [[<- <-]|[Hne Hj]]%lookup_insert_Some; cbn; [done|by eauto].
Qed.

Lemma step_group_ok s s' : group_ok s -> step s s' -> group_ok s'.
Proof.
  intros [Hth Hj] [Hh|Hr].
  - destruct Hh as [op|i within Hi Hw]; split.
    + by apply threads_ok_start.
    + by apply joins_ok_start.
    + by eapply threads_ok_frame.
    + by apply joins_ok_cancel_all.
  - split; [by eapply run_threads_ok|by eapply run_joins_ok].
Qed.

Lemma reach_group_ok s : reach s -> group_ok s.
Proof. induction 1; [apply group_ok_init|by eapply step_group_ok]. Qed.

(** ** Calls from a callback *)

Definition reentrant_ok (s : group) : Prop :=
  forall i c w, gr_calls s !! i = Some c -> cc_within c = Some w ->
    in_callback s w /\ w < cc_before c.

Lemma in_callback_not_ended s w : in_callback s w -> ~ ended s w.
Proof.
  intros (x & Hx & [st Hst]) (y & lost & Hy & He). assert (y = x) as -> by congruence.
  rewrite He in Hst. done.
Qed.

(** A call made in a callback has not returned. *)
Lemma reentrant_open s i c w :
  joins_ok s -> reentrant_ok s -> gr_calls s !! i = Some c -> cc_within c = Some w ->
  cc_stage c <> Returned.
Proof.
  intros Hj Hr Hi Hw Hst. destruct (Hr _ _ _ Hi Hw) as [Hcb Hlt].
  apply (in_callback_not_ended _ _ Hcb). by apply (joins_returned _ Hj _ _ Hi Hst).
Qed.

Lemma in_callback_insert s s' w x x' v :
  gr_workers s !! w = Some x -> gr_workers s' = <[w := x']> (gr_workers s) ->
  (is_Some (returned (wk_stage x)) -> is_Some (returned (wk_stage x'))) ->
  in_callback s v -> in_callback s' v.
Proof.
  intros Hw Hs Hst (y & Hy & Hc). unfold in_callback. rewrite Hs. destruct (decide (v = w)) as [->|].
  - rewrite lookup_insert_eq. eexists. split; [done|]. apply Hst. congruence.
  - rewrite lookup_insert_ne by done. by eexists.
Qed.

Lemma advance_not_calling x x' : advance x x' -> returned (wk_stage x) = None.
Proof. by destruct 1 as [Hst|Hst|? ? Hst|Hst|? Hst|? ? Hst|? ? Hst|? ? Hst|Hst]; rewrite Hst. Qed.

(** What a step of the runtime does to the calls: at most one moves on. *)
Lemma run_calls s s' i c' :
  run_step s s' -> gr_calls s' !! i = Some c' ->
  exists c, gr_calls s !! i = Some c /\ cc_within c = cc_within c' /\ cc_before c = cc_before c'.
Proof.
  intros Hs. destruct Hs; cbn; try (by eexists);
    (intros [[<- <-]|[Hne Hj]]%lookup_insert_Some; by eexists).
Qed.

(** A callback in progress goes on, unless it returns. *)
Lemma run_in_callback s s' w :
  run_step s s' -> in_callback s w ->
  in_callback s' w
  \/ (forall i c, gr_calls s !! i = Some c -> cc_within c = Some w -> cc_stage c = Returned).
Proof.
  intros Hs Hw.
  destruct Hs as [v x x' Hv Ha|v x st Hv Hst Hall|v x Hv Hst Hh|v x v' Hv Hst _ Hi|v x Hv Hst Hh
    |v x Hv Hst Hh|v x Hv Hst Hh|v x lost Hv Hst|v x Hv Hg|i c Hi Hst _|i c b Hi Hst Hb
    |i c b l Hi Hst Hb Hf Hl|i c b v x l all Hi Hst Hv|i c b v l all Hi Hst He
    |i c b all t Hi Hst|i c b v l Hi Hst He|i c b Hi Hst|i c b Hi Hst|i c b Hi Hst|i c b Hi Hst Hf];
    try (left; exact Hw);
    try (left; eapply in_callback_insert; [exact Hv|reflexivity| |exact Hw]; rewrite ?Hst; by intros []).
  - left. eapply in_callback_insert; [exact Hv|reflexivity| |exact Hw].
    rewrite (advance_not_calling _ _ Ha). by intros [].
  - destruct (decide (w = v)) as [->|Hne]; [by right|left]. destruct Hw as (y & Hy & Hc).
    exists y. split; [|done]. cbn. by rewrite lookup_insert_ne.
Qed.

Lemma step_reentrant_ok s s' : group_ok s -> reentrant_ok s -> step s s' -> reentrant_ok s'.
Proof.
  intros Hok Hr [Hh|Hs].
  - destruct Hh as [op|i within Hi Hw]; intros j c w Hj Hc.
    + unfold startRepositoryWorker in *. destruct (repositoryWorkerBarrier s); [by eapply Hr|].
      destruct (Hr _ _ _ Hj Hc) as [(x & Hx & Hcb) ?]. split; [|done]. exists x.
      split; [|done]. cbn. rewrite lookup_insert_ne; [done|]. intros <-.
      assert (is_Some (gr_workers s !! repositoryWorkerNextId s)) as Hlt by (by eexists).
      apply (joins_ids _ (ok_joins _ Hok)) in Hlt. lia.
    + cbn in Hj. apply lookup_insert_Some in Hj as [[<- <-]|[Hne Hj]]; [|by eapply Hr].
      cbn in *. specialize (Hw _ Hc). split; [exact Hw|]. destruct Hw as (x & Hx & _).
      apply (joins_ids _ (ok_joins _ Hok)). by eexists.
  - intros i c' w Hi Hw. destruct (run_calls _ _ _ _ Hs Hi) as (c & Hc & Hwc & <-).
    rewrite <- Hwc in Hw. destruct (Hr _ _ _ Hc Hw) as [Hcb ?]. split; [|done].
    destruct (run_in_callback _ _ _ Hs Hcb) as [?|Hret]; [done|].
    by destruct (reentrant_open _ _ _ _ (ok_joins _ Hok) Hr Hc Hw (Hret _ _ Hc Hw)).
Qed.

Lemma reach_reentrant_ok s : reach s -> reentrant_ok s.
Proof.
  induction 1 as [|s s' Hr IH Hs]; [by intros i c w ?|].
  eapply step_reentrant_ok; [by apply reach_group_ok|done..].
Qed.

(** ** Ended workers stay *)

Lemma step_ended s s' w x :
  group_ok s -> gr_workers s !! w = Some x -> is_ended (wk_stage x) = true -> step s s' ->
  exists x', gr_workers s' !! w = Some x' /\ wk_stage x' = wk_stage x /\ wk_calls x' = wk_calls x.
Proof.
  intros Hok Hw He Hs.
  assert (Hmove : forall v y y', gr_workers s !! v = Some y ->
            (v = w -> wk_stage y' = wk_stage y /\ wk_calls y' = wk_calls y) ->
            exists x', <[v := y']> (gr_workers s) !! w = Some x' /\ wk_stage x' = wk_stage x
                       /\ wk_calls x' = wk_calls x).
  { intros v y y' Hv H. destruct (decide (v = w)) as [->|].
    - assert (y = x) as -> by congruence. eexists. rewrite lookup_insert_eq. auto.
    - eexists. by rewrite lookup_insert_ne. }
  destruct Hs as [Hh|Hs].
  - destruct Hh as [op|i within Hi Hc]; [|by eexists]. unfold startRepositoryWorker.
    destruct (repositoryWorkerBarrier s); [by eexists|]. exists x. cbn. rewrite lookup_insert_ne; [done|].
    intros <-. assert (is_Some (gr_workers s !! repositoryWorkerNextId s)) as Hlt by (by eexists).
    apply (joins_ids _ (ok_joins _ Hok)) in Hlt. lia.
  - destruct Hs as [v y y' Hv Ha|v y st Hv Hst Hall|v y Hv Hst Hh|v y v' Hv Hst _ Hi|v y Hv Hst Hh
      |v y Hv Hst Hh|v y Hv Hst Hh|v y lost Hv Hst|v y Hv Hg|i c Hi Hst _|i c b Hi Hst Hb
      |i c b l Hi Hst Hb Hf Hl|i c b v y l all Hi Hst Hv|i c b v l all Hi Hst Hen
      |i c b all t Hi Hst|i c b v l Hi Hst Hen|i c b Hi Hst|i c b Hi Hst|i c b Hi Hst|i c b Hi Hst Hf];
      try (by eexists); apply (Hmove _ y); try done; intros ->; assert (y = x) as -> by congruence;
      try (by rewrite Hst in He).
    + by destruct Ha as [Hst|Hst|? ? Hst|Hst|? Hst|? ? Hst|? ? Hst|? ? Hst|Hst]; rewrite Hst in He.
    + by destruct (wk_stage x).
Qed.

Lemma steps_ended s s' w x :
  group_ok s -> gr_workers s !! w = Some x -> is_ended (wk_stage x) = true -> steps s s' ->
  exists x', gr_workers s' !! w = Some x' /\ wk_stage x' = wk_stage x /\ wk_calls x' = wk_calls x.
Proof.
  intros Hok Hw He Hs. assert (Hr : forall s', steps s s' -> group_ok s').
  { induction 1; [done|]. by eapply step_group_ok. }
  induction Hs as [|s' s'' Hs IH Hstep]; [by eexists|]. destruct IH as (x1 & H1 & Hst & Hc).
  rewrite <- Hst in He. destruct (step_ended _ _ _ _ (Hr _ Hs) H1 He Hstep) as (x2 & H2 & Hst2 & Hc2).
  exists x2. split; [done|]. split; congruence.
Qed.

(** ** Cancel-all returns

    What is left to do, as a number that every step of the runtime decreases. *)
Definition actions (op : operation) : nat := length (op_result op) + length (op_cancelled op).

Definition stage_weight (op : operation) (st : stage) : nat :=
  match st with
  | Entering => 9 + 2 * (length (op_stream op) + actions op)
  | Recording => 8 + 2 * (length (op_stream op) + actions op)
  | Gated => 7 + 2 * (length (op_stream op) + actions op)
  | Preparing rest calling => 6 + 2 * (length rest + actions op) + Nat.b2n calling
  | Finishing rest calling => 5 + 2 * length rest + Nat.b2n calling
  | Leaving => 4
  | Removing => 3
  | Unregistering _ => 2
  | Ended _ => 0
  end.

Definition worker_weight (x : worker) : nat :=
  stage_weight (wk_operation x) (wk_stage x) + Nat.b2n (negb (wk_gate x)).

Definition call_weight (c : cancel_call) : nat :=
  match cc_stage c with
  | Asking => 10
  | Admission => 9
  | Waiting _ => 1
  | Cancelling _ l thrown all => 4 + 2 * length l + Nat.b2n (negb thrown) + length all
  | Joining _ l => 3 + length l
  | Releasing _ => 2
  | Filling _ => 1
  | Returned => 0
  end.

Definition map_sum {A} (f : A -> nat) (m : gmap nat A) : nat := map_fold (fun _ a n => f a + n) 0 m.

Lemma map_sum_insert {A} (f : A -> nat) (m : gmap nat A) i a b :
  m !! i = Some a -> map_sum f (<[i := b]> m) + f a = map_sum f m + f b.
Proof.
  intros Hi. unfold map_sum.
  assert (H : forall b, map_fold (fun _ a n => f a + n) 0 (<[i := b]> m)
                = f b + map_fold (fun _ a n => f a + n) 0 (delete i m)).
  { intros b'. rewrite <- insert_delete_eq.
    rewrite map_fold_insert_L; [done|intros; lia|apply lookup_delete_eq]. }
  rewrite H. rewrite <- (insert_id _ _ _ Hi) at 2. rewrite H. lia.
Qed.

Definition work_left (s : group) : nat :=
  map_sum worker_weight (gr_workers s) + map_sum call_weight (gr_calls s)
  + 3 * size (repositoryWorkerActive s).

Lemma advance_weight x x' : advance x x' -> worker_weight x' < worker_weight x.
Proof.
  unfold worker_weight.
  destruct 1 as [Hst|Hst|? ? Hst|Hst|? Hst|? ? Hst|? ? Hst|? ? Hst|Hst]; rewrite Hst; cbn;
    unfold actions; lia.
Qed.

Lemma returned_weight x st :
  returned (wk_stage x) = Some st -> worker_weight (at_stage st x) < worker_weight x.
Proof.
  unfold worker_weight. destruct (wk_stage x) as [| | |rest []|rest []| | | |]; try done;
    intros [= <-]; cbn; lia.
Qed.

(** A worker moves on. *)
Lemma work_left_worker s s' w x x' :
  gr_workers s !! w = Some x -> worker_weight x' < worker_weight x ->
  gr_workers s' = <[w := x']> (gr_workers s) -> gr_calls s' = gr_calls s ->
  size (repositoryWorkerActive s') <= size (repositoryWorkerActive s) ->
  work_left s' < work_left s.
Proof.
  intros Hw Hlt Hws Hc Ha. unfold work_left. rewrite Hws, Hc.
  pose proof (map_sum_insert worker_weight _ _ _ x' Hw). lia.
Qed.

(** A call moves on. *)
Lemma work_left_call s s' i c c' :
  gr_calls s !! i = Some c -> gr_calls s' = <[i := c']> (gr_calls s) ->
  map_sum worker_weight (gr_workers s') = map_sum worker_weight (gr_workers s) ->
  call_weight c' + 3 * size (repositoryWorkerActive s')
    < call_weight c + 3 * size (repositoryWorkerActive s) ->
  work_left s' < work_left s.
Proof.
  intros Hi Hc Hw Hlt. unfold work_left. rewrite Hw, Hc.
  pose proof (map_sum_insert call_weight _ _ _ c' Hi). lia.
Qed.

Lemma run_decreases s s' : run_step s s' -> work_left s' < work_left s.
Proof.
  intros Hs.
  destruct Hs as [w x x' Hw Ha|w x st Hw Hst _|w x Hw Hst Hh|w x v Hw Hst _ Hi|w x Hw Hst Hh
    |w x Hw Hst Hh|w x Hw Hst Hh|w x lost Hw Hst|w x Hw Hg|i c Hi Hst _|i c b Hi Hst Hb
    |i c b l Hi Hst Hb Hf Hl|i c b w x l all Hi Hst Hw|i c b w l all Hi Hst He
    |i c b all t Hi Hst|i c b w l Hi Hst He|i c b Hi Hst|i c b Hi Hst|i c b Hi Hst|i c b Hi Hst Hf];
    try (eapply work_left_worker; [exact Hw| |reflexivity..|reflexivity];
         unfold worker_weight; cbn; rewrite Hst; cbn; lia);
    try (eapply work_left_call; [exact Hi|reflexivity..|]; unfold call_weight; cbn; rewrite Hst;
         cbn; lia).
  - eapply work_left_worker; [exact Hw|by apply advance_weight|reflexivity..].
  - eapply work_left_worker; [exact Hw|by apply returned_weight|reflexivity..].
  - eapply work_left_worker; [exact Hw| |reflexivity..|].
    + unfold worker_weight. cbn. rewrite Hst. cbn. lia.
    + cbn. apply subseteq_size. set_solver.
  - eapply work_left_worker; [exact Hw| |reflexivity..]. unfold worker_weight. cbn. rewrite Hg. cbn. lia.
  - eapply work_left_call; [exact Hi|reflexivity..|]. unfold call_weight. cbn. rewrite Hst.
    destruct (isRepositoryCallbackThread _ _); lia.
  - eapply work_left_call; [exact Hi|reflexivity..|]. unfold call_weight. cbn. rewrite Hst.
    rewrite size_empty, Hl. unfold size, set_size. cbn. lia.
  - eapply work_left_call; [exact Hi|reflexivity| |].
    + cbn. pose proof (map_sum_insert worker_weight _ _ _ (interrupt x) Hw) as H.
      change (worker_weight (interrupt x)) with (worker_weight x) in H. lia.
    + unfold call_weight. cbn. rewrite Hst. cbn. lia.
Qed.

(** [n] steps of the runtime. *)
Inductive runs : nat -> group -> group -> Prop :=
  | runs_refl s : runs 0 s s
  | runs_step n s s' s'' : run_step s s' -> runs n s' s'' -> runs (S n) s s''.

Lemma runs_bounded n s s' : runs n s s' -> n + work_left s' <= work_left s.
Proof. induction 1 as [|n s s' s'' Hs _ IH]; [done|]. apply run_decreases in Hs. lia. Qed.

Lemma runs_group_ok n s s' : runs n s s' -> group_ok s -> group_ok s'.
Proof. induction 1 as [|n s s' s'' Hs _ IH]; [done|]. intros Hok. apply IH. eapply step_group_ok; [done|by right]. Qed.

(** No call is inside a callback. *)
Definition no_reentrant (s : group) : Prop :=
  forall i c, gr_calls s !! i = Some c -> cc_within c = None.

Lemma runs_no_reentrant n s s' : runs n s s' -> no_reentrant s -> no_reentrant s'.
Proof.
  induction 1 as [|n s s' s'' Hs _ IH]; [done|]. intros Hno. apply IH. intros i c' Hi.
  destruct (run_calls _ _ _ _ Hs Hi) as (c & Hc & <- & _). by eapply Hno.
Qed.

(** Where nothing can move, all workers have ended... *)
Lemma stuck_workers s w x :
  group_ok s -> no_reentrant s -> (forall s', ~ run_step s s') ->
  gr_workers s !! w = Some x -> exists lost, wk_stage x = Ended lost.
Proof.
  intros Hok Hno Hstuck Hw.
  assert (Hgive : forall v, gr_holder s = Some v -> False).
  { intros v Hv. pose proof Hv as (y & Hy & Hh)%(threads_holder _ (ok_threads _ Hok)).
    destruct (wk_stage y) eqn:E; try done; eapply Hstuck; [by eapply run_record|by eapply run_remove]. }
  assert (Hfree : gr_holder s = None) by (apply eq_None_not_Some; by intros [v ?%Hgive]).
  assert (Hmove : forall x', ~ advance x x') by (intros x' Ha; eapply Hstuck; by eapply run_advance).
  assert (Hret : returned (wk_stage x) = None).
  { destruct (returned (wk_stage x)) eqn:E; [|done]. exfalso. eapply Hstuck, run_returned; [done..|].
    intros i c Hi Hc. by rewrite (Hno _ _ Hi) in Hc. }
  destruct (wk_stage x) as [| | |rest b|rest b| | |lost|lost] eqn:E; try (by exists lost); exfalso.
  - eapply Hstuck. by eapply run_enter.
  - apply (Hgive w), (threads_holder _ (ok_threads _ Hok)). exists x. by rewrite E.
  - destruct (wk_gate x) eqn:Eg; [eapply Hmove; by apply advance_gate|].
    eapply Hstuck. by eapply run_gate.
  - destruct b; [done|]. destruct rest; eapply Hmove; [by apply advance_prepared|by eapply advance_stream].
  - destruct b; [done|]. destruct rest as [|[c|c] rest]; [eapply Hmove; by apply advance_finished|
      eapply Hmove; by eapply advance_direct|].
    destruct (wk_terminal x) eqn:Et; eapply Hmove; [by eapply advance_skip|by eapply advance_once].
  - eapply Hstuck. by eapply run_leave.
  - apply (Hgive w), (threads_holder _ (ok_threads _ Hok)). exists x. by rewrite E.
  - eapply Hstuck. by eapply run_unregister.
Qed.

(** ... and all calls have returned. *)
Lemma stuck_calls s i c :
  group_ok s -> no_reentrant s -> (forall s', ~ run_step s s') ->
  gr_calls s !! i = Some c -> cc_stage c = Returned.
Proof.
  intros Hok Hno Hstuck Hi. pose proof Hok as [Hth Hj].
  assert (Hend : forall w, w < repositoryWorkerNextId s -> ended s w).
  { intros w [x Hx]%(joins_ids _ Hj). destruct (stuck_workers _ _ _ Hok Hno Hstuck Hx) as [lost ?].
    by exists x, lost. }
  assert (Hfree : gr_holder s = None).
  { destruct (gr_holder s) as [v|] eqn:E; [|done].
    apply (threads_holder _ Hth) in E as (y & Hy & Hh).
    destruct (stuck_workers _ _ _ Hok Hno Hstuck Hy) as [lost Hl]. by rewrite Hl in Hh. }
  assert (Hfills : forall j c' b, gr_calls s !! j = Some c' -> fills (cc_stage c') <> Some b).
  { intros j c' b Hj' Hf. destruct (cc_stage c') as [| | |b' l t all|b' l|b'|b'|] eqn:E; try done.
    - destruct l as [|w l]; [eapply Hstuck; by eapply run_join|].
      assert (ended s w) as Hw.
      { apply Hend, (joins_listed _ Hj _ _ _ Hj'). rewrite E. cbn. set_solver. }
      destruct t; [eapply Hstuck; by eapply run_cancelled|]. destruct Hw as (x & ? & Hx & _).
      eapply Hstuck. by eapply run_throw.
    - destruct l as [|w l]; [eapply Hstuck; by eapply run_all_joined|].
      eapply Hstuck. eapply run_joined; [done..|]. apply Hend, (joins_listed _ Hj _ _ _ Hj').
      rewrite E. cbn. set_solver.
    - eapply Hstuck. by eapply run_release.
    - eapply Hstuck. by eapply run_fill. }
  destruct (cc_stage c) as [| |b|b l t all|b l|b|b|] eqn:E; try done; exfalso.
  - eapply Hstuck. by eapply run_ask.
  - destruct (repositoryWorkerBarrier s) as [b|] eqn:Eb; [eapply Hstuck; by eapply run_wait|].
    eapply Hstuck, (run_begin s i c (fresh (dom (gr_barriers s)))); try done.
    apply not_elem_of_dom, is_fresh.
  - destruct (joins_relies _ Hj _ _ b Hi) as (n & Hn & _); [by rewrite E|].
    destruct (joins_filler _ Hj b) as [Hf|(j & c' & Hj' & Hf)]; [by eexists| |].
    + eapply Hstuck. by eapply run_waited.
    + by eapply Hfills.
  - eapply (Hfills i c b); [done|]. by rewrite E.
  - eapply (Hfills i c b); [done|]. by rewrite E.
  - eapply (Hfills i c b); [done|]. by rewrite E.
  - eapply (Hfills i c b); [done|]. by rewrite E.
Qed.

(** ** Schedules

    The steps as functions, by which an execution can be evaluated. *)
Inductive action :=
  | do_start (op : operation)
  | do_cancel_all (i : nat) (within : option nat)
  | do_gate (w : nat)
  | do_worker (w : nat)
  | do_interrupt (w : nat)
  | do_return (w : nat)
  | do_call (i : nat).

(** The next step of a worker that is not interrupted. *)
Definition next_stage (x : worker) : option worker :=
  match wk_stage x with
  | Gated => if wk_gate x then Some (at_stage (Preparing (op_stream (wk_operation x)) false) x) else None
  | Preparing (c :: rest) false => Some (calls c (wk_terminal x) (Preparing rest true) x)
  | Preparing [] false => Some (at_stage (Finishing (op_result (wk_operation x)) false) x)
  | Finishing (direct c :: rest) false => Some (calls c (wk_terminal x) (Finishing rest true) x)
  | Finishing (once c :: rest) false =>
      Some (if wk_terminal x then at_stage (Finishing rest false) x
            else calls c true (Finishing rest true) x)
  | Finishing [] false => Some (at_stage Leaving x)
  | _ => None
  end.

Definition perform_worker (w : nat) (x : worker) (s : group) : option group :=
  match wk_stage x, gr_holder s with
  | Entering, None =>
      Some (set_threads (repositoryCallbackThreads s) (Some w) (set_worker w (at_stage Recording x) s))
  | Recording, Some v =>
      if decide (v = w)
      then Some (set_threads ({[worker_thread w]} ∪ repositoryCallbackThreads s) None
                   (set_worker w (at_stage Gated x) s))
      else None
  | Leaving, None =>
      Some (set_threads (repositoryCallbackThreads s) (Some w) (set_worker w (at_stage Removing x) s))
  | Removing, Some v =>
      if decide (v = w)
      then Some (set_threads (repositoryCallbackThreads s ∖ {[worker_thread w]}) None
                   (set_worker w (at_stage (Unregistering false) x) s))
      else None
  | Unregistering lost, _ =>
      Some (unregisterRepositoryWorker w (set_worker w (at_stage (Ended lost) x) s))
  | _, _ => (fun x' => set_worker w x' s) <$> next_stage x
  end.

Definition perform_interrupt (w : nat) (x : worker) (s : group) : option group :=
  if negb (wk_interrupted x) then None
  else
    match wk_stage x, gr_holder s with
    | Entering, Some _ => Some (set_worker w (at_stage (Unregistering true) x) s)
    | Gated, _ =>
        if wk_gate x then None
        else Some (set_worker w (at_stage (Finishing (op_cancelled (wk_operation x)) false) x) s)
    | Preparing _ false, _ =>
        Some (set_worker w (at_stage (Finishing (op_cancelled (wk_operation x)) false) x) s)
    | _, _ => None
    end.

Definition has_ended (w : nat) (s : group) : bool :=
  match gr_workers s !! w with Some x => is_ended (wk_stage x) | None => false end.

Definition perform_call (i : nat) (c : cancel_call) (s : group) : option group :=
  match cc_stage c with
  | Asking =>
      match gr_holder s with
      | Some _ => None
      | None => Some (set_call i (call_at (if isRepositoryCallbackThread (call_thread i) s
                                           then Returned else Admission) c) s)
      end
  | Admission =>
      match repositoryWorkerBarrier s with
      | Some b => Some (set_call i (call_at (Waiting b) c) s)
      | None =>
          let b := fresh (dom (gr_barriers s)) in
          let l := elements (repositoryWorkerActive s) in
          Some (set_call i (call_at (Cancelling b l false l) c)
                  (set_group ∅ (Some b)
                     (set_barriers (<[b := repositoryWorkerNextId s]> (gr_barriers s))
                        (gr_filled s) s)))
      end
  | Waiting b => if decide (b ∈ gr_filled s) then Some (set_call i (call_at Returned c) s) else None
  | Cancelling b (w :: l) false all =>
      (fun x => set_call i (call_at (Cancelling b (w :: l) true all) c) (set_worker w (interrupt x) s))
        <$> gr_workers s !! w
  | Cancelling b (w :: l) true all =>
      if has_ended w s then Some (set_call i (call_at (Cancelling b l false all) c) s) else None
  | Cancelling b [] t all => Some (set_call i (call_at (Joining b all) c) s)
  | Joining b (w :: l) =>
      if has_ended w s then Some (set_call i (call_at (Joining b l) c) s) else None
  | Joining b [] => Some (set_call i (call_at (Releasing b) c) s)
  | Releasing b =>
      Some (set_call i (call_at (Filling b) c) (set_group (repositoryWorkerActive s) None s))
  | Filling b =>
      Some (set_call i (call_at Returned c) (set_barriers (gr_barriers s) ({[b]} ∪ gr_filled s) s))
  | Returned => None
  end.

Definition open_within (w : nat) (c : cancel_call) : bool :=
  bool_decide (cc_within c = Some w)
  && match cc_stage c with Returned => false | _ => true end.

Definition perform (s : group) (a : action) : option group :=
  match a with
  | do_start op => Some (snd (startRepositoryWorker op s))
  | do_cancel_all i within =>
      match gr_calls s !! i, within with
      | None, None => Some (ha_repository_cancel_all i None s)
      | None, Some w =>
          x ← gr_workers s !! w; _ ← returned (wk_stage x);
          Some (ha_repository_cancel_all i (Some w) s)
      | Some _, _ => None
      end
  | do_gate w =>
      x ← gr_workers s !! w;
      if wk_gate x then None else Some (set_worker w (open_gate x) s)
  | do_worker w => x ← gr_workers s !! w; perform_worker w x s
  | do_interrupt w => x ← gr_workers s !! w; perform_interrupt w x s
  | do_return w =>
      x ← gr_workers s !! w; st ← returned (wk_stage x);
      if existsb (fun p => open_within w (snd p)) (map_to_list (gr_calls s)) then None
      else Some (set_worker w (at_stage st x) s)
  | do_call i => c ← gr_calls s !! i; perform_call i c s
  end.

Lemma has_ended_sound w s : has_ended w s = true -> ended s w.
Proof.
  unfold has_ended, ended. destruct (gr_workers s !! w) as [x|]; [|done].
  destruct (wk_stage x) eqn:E; try done. intros _. by eexists _, _.
Qed.

Lemma perform_worker_sound w x s s' :
  gr_workers s !! w = Some x -> perform_worker w x s = Some s' -> run_step s s'.
Proof.
  intros Hw. assert (Hnext : (fun x' => set_worker w x' s) <$> next_stage x = Some s' -> run_step s s').
  { intros (x' & Hx' & ->)%fmap_Some. eapply run_advance; [done|]. unfold next_stage in Hx'.
    destruct (wk_stage x) as [| | |[|c rest] []|[|[c|c] rest] []| | | |] eqn:E; try done.
    - destruct (wk_gate x) eqn:Eg; [|done]. injection Hx' as <-. by apply advance_gate.
    - injection Hx' as <-. by apply advance_prepared.
    - injection Hx' as <-. by eapply advance_stream.
    - injection Hx' as <-. by apply advance_finished.
    - injection Hx' as <-. by eapply advance_direct.
    - injection Hx' as <-. destruct (wk_terminal x) eqn:Et; [by eapply advance_skip|by eapply advance_once]. }
  unfold perform_worker. destruct (wk_stage x) eqn:E, (gr_holder s) as [v|] eqn:Eh; try exact Hnext;
    try (destruct (decide (v = w)) as [->|]; [|done]); intros [= <-].
  - by eapply run_enter.
  - by eapply run_record.
  - by eapply run_leave.
  - by eapply run_remove.
  - by eapply run_unregister.
  - by eapply run_unregister.
Qed.

Lemma perform_interrupt_sound w x s s' :
  gr_workers s !! w = Some x -> perform_interrupt w x s = Some s' -> run_step s s'.
Proof.
  intros Hw. unfold perform_interrupt. destruct (wk_interrupted x) eqn:Ei; [cbn|done].
  destruct (wk_stage x) as [| | |rest []|rest b| | | |] eqn:E, (gr_holder s) as [v|] eqn:Eh; try done;
    try (destruct (wk_gate x) eqn:Eg; [done|]); intros [= <-].
  - by eapply run_enter_interrupted.
  - eapply run_advance; [done|by apply advance_gate_interrupted].
  - eapply run_advance; [done|by apply advance_gate_interrupted].
  - eapply run_advance; [done|by eapply advance_interrupted].
  - eapply run_advance; [done|by eapply advance_interrupted].
Qed.

Lemma perform_call_sound i c s s' :
  gr_calls s !! i = Some c -> perform_call i c s = Some s' -> run_step s s'.
Proof.
  intros Hi. unfold perform_call.
  destruct (cc_stage c) as [| |b|b [|w l] t all|b [|w l]|b|b|] eqn:E.
  - destruct (gr_holder s) eqn:Eh; [done|]. intros [= <-]. by eapply run_ask.
  - destruct (repositoryWorkerBarrier s) eqn:Eb; intros [= <-]; [by eapply run_wait|].
    eapply run_begin; try done. apply not_elem_of_dom, is_fresh.
  - destruct (decide (b ∈ gr_filled s)); [|done]. intros [= <-]. by eapply run_waited.
  - assert (run_step s (set_call i (call_at (Joining b all) c) s)) by (by eapply run_join).
    destruct t; by intros [= <-].
  - destruct t.
    + destruct (has_ended w s) eqn:Ew; [|done]. intros [= <-].
      eapply run_cancelled; [done..|]. by apply has_ended_sound.
    + intros (x & Hx & ->)%fmap_Some. by eapply run_throw.
  - intros [= <-]. by eapply run_all_joined.
  - destruct (has_ended w s) eqn:Ew; [|done]. intros [= <-].
    eapply run_joined; [done..|]. by apply has_ended_sound.
  - intros [= <-]. by eapply run_release.
  - intros [= <-]. by eapply run_fill.
  - done.
Qed.

Lemma perform_sound s a s' : perform s a = Some s' -> step s s'.
Proof.
  destruct a as [op|i within|w|w|w|w|i]; cbn [perform].
  - intros [= <-]. left. constructor.
  - destruct (gr_calls s !! i) eqn:Ei; [done|]. destruct within as [w|].
    + intros (x & Hx & (st & Hst & [= <-])%bind_Some)%bind_Some. left.
      constructor; [done|]. intros w' [= <-]. exists x. by rewrite Hst.
    + intros [= <-]. left. by constructor.
  - intros (x & Hx & H)%bind_Some. destruct (wk_gate x) eqn:Eg; [done|]. injection H as <-.
    right. by eapply run_gate.
  - intros (x & Hx & H)%bind_Some. right. by eapply perform_worker_sound.
  - intros (x & Hx & H)%bind_Some. right. by eapply perform_interrupt_sound.
  - intros (x & Hx & (st & Hst & H)%bind_Some)%bind_Some.
    destruct (existsb _ _) eqn:Ex; [done|]. injection H as <-. right. eapply run_returned; [done..|].
    intros i c Hi Hw. destruct (cc_stage c) eqn:E; try done; exfalso;
      (assert (existsb (fun p => open_within w (snd p)) (map_to_list (gr_calls s)) = true) as Ht;
       [|congruence]); apply existsb_exists; exists (i, c);
      (split; [by apply list_elem_of_In, elem_of_map_to_list|]); unfold open_within; cbn;
      by rewrite E, bool_decide_true.
  - intros (c & Hc & H)%bind_Some. right. by eapply perform_call_sound.
Qed.

(** A schedule from the start. *)
Fixpoint performs (s : group) (l : list action) : option group :=
  match l with
  | [] => Some s
  | a :: l => s' ← perform s a; performs s' l
  end.

Lemma performs_reach l s s' : reach s -> performs s l = Some s' -> reach s'.
Proof.
  revert s. induction l as [|a l IH]; intros s Hr; [by intros [= <-]|].
  cbn. intros (s1 & H1 & H)%bind_Some. eapply IH; [|exact H].
  eapply reach_step; [exact Hr|by eapply perform_sound].
Qed.

Lemma performed_reach l : reach (default group_init (performs group_init l)).
Proof.
  destruct (performs group_init l) as [s|] eqn:E; [|apply reach_init].
  eapply performs_reach; [apply reach_init|exact E].
Qed.

(** ** Theorems *)

(** The callbacks that a worker has begun are the beginning of those of a complete run: all
    that [prepare] makes and then the result, or, only for an interrupted worker, some of them
    and then the cancellation.  A worker that has ended has made the whole run; one that was
    interrupted while it was blocked before it recorded itself has made none. *)
Lemma worker_callbacks s w x :
  reach s -> gr_workers s !! w = Some x ->
  (exists full, complete (wk_operation x) (wk_interrupted x) full /\ wk_calls x `prefix_of` full)
  /\ (wk_stage x = Ended false -> complete (wk_operation x) (wk_interrupted x) (wk_calls x))
  /\ (wk_stage x = Ended true -> wk_calls x = [] /\ wk_interrupted x = true).
Proof.
  intros Hr Hw. pose proof (reach_workers_ok _ Hr _ _ Hw) as Hx.
  split; [by apply worker_ok_prefix|]. unfold worker_ok in Hx.
  split; intros Hst; by rewrite Hst in Hx.
Qed.

(** C29: when [ha_repository_cancel_all] has returned, the worker of every operation accepted
    before the call has ended, and begins no callback whatever happens later; while it
    cancels and joins, no operation is accepted, and when it has joined its list no worker is
    left. *)
Theorem cancel_all_joins s i c :
  reach s -> gr_calls s !! i = Some c ->
  (cc_stage c = Returned ->
     forall w, w < cc_before c ->
     exists x, gr_workers s !! w = Some x /\ is_ended (wk_stage x) = true
       /\ forall s', steps s s' ->
            exists x', gr_workers s' !! w = Some x' /\ wk_calls x' = wk_calls x)
  /\ (is_Some (owns (cc_stage c)) ->
       (forall op, startRepositoryWorker op s = (false, s))
       /\ (to_cancel (cc_stage c) = [] -> ended_below s (repositoryWorkerNextId s))).
Proof.
  intros Hr Hi. pose proof (reach_group_ok _ Hr) as Hok. pose proof (ok_joins _ Hok) as Hj. split.
  - intros Hst w Hw. destruct (joins_returned _ Hj _ _ Hi Hst _ Hw) as (x & lost & Hx & He).
    exists x. split; [done|]. split; [by rewrite He|]. intros s' Hs.
    destruct (steps_ended _ _ _ _ Hok Hx ltac:(by rewrite He) Hs) as (x' & ? & _ & ?). by exists x'.
  - intros [b Hb]. split.
    + intros op. unfold startRepositoryWorker. by rewrite (joins_owner _ Hj _ _ _ Hi Hb).
    + intros Hl. by eapply joined_ended.
Qed.

(** C30: as long as no call of [ha_repository_cancel_all] is made in a callback, the threads of
    the runtime take a bounded number of steps from every state, whatever their order, and
    when none can be taken every call of cancel-all has returned and every worker has ended
    with its gate open: there is no deadlock. *)
Theorem cancel_all_returns s n s' :
  reach s -> no_reentrant s -> runs n s s' ->
  n + work_left s' <= work_left s
  /\ ((forall s'', ~ run_step s' s'') ->
       (forall i c, gr_calls s' !! i = Some c -> cc_stage c = Returned)
       /\ forall w x, gr_workers s' !! w = Some x -> exists lost, wk_stage x = Ended lost).
Proof.
  intros Hr Hno Hs. split; [by apply runs_bounded|]. intros Hstuck.
  pose proof (runs_group_ok _ _ _ Hs (reach_group_ok _ Hr)) as Hok.
  pose proof (runs_no_reentrant _ _ _ Hs Hno) as Hno'.
  split; [intros; by eapply stuck_calls|intros; by eapply stuck_workers].
Qed.

(** A call of [ha_repository_cancel_all] in a callback never returns, and neither does the
    callback: a call from C is a thread of its own, which is never recorded. *)
Theorem reentrant_cancel_never_returns s i c w :
  reach s -> gr_calls s !! i = Some c -> cc_within c = Some w ->
  isRepositoryCallbackThread (call_thread i) s = false /\ cc_stage c <> Returned
  /\ in_callback s w.
Proof.
  intros Hr Hi Hw. pose proof (reach_group_ok _ Hr) as [Hth Hj].
  pose proof (reach_reentrant_ok _ Hr) as Hre. split; [|split].
  - apply bool_decide_false. by intros (v & [=])%(threads_workers _ Hth).
  - by eapply reentrant_open.
  - by apply (Hre _ _ _ Hi Hw).
Qed.

End Group.

Arguments emission : clear implicits.
Arguments operation : clear implicits.
Arguments worker : clear implicits.
Arguments group : clear implicits.
Arguments action : clear implicits.

(** ** Executions

    An operation with one streamed callback and one result. *)
Definition demo_operation : operation nat := Build_operation [0] [direct 1] [direct 2].

(** The worker of an operation goes to the callback that it streams. *)
Definition demo_prefix : list (action nat) :=
  [do_start demo_operation; do_worker 0; do_worker 0; do_gate 0; do_worker 0; do_worker 0].

(** Cancel-all interrupts it there, joins it, and returns. *)
Definition demo_cancelled : option (group nat) :=
  performs group_init
    (demo_prefix ++ [do_cancel_all 0 None; do_call 0; do_call 0; do_call 0; do_return 0;
       do_interrupt 0; do_worker 0; do_return 0; do_worker 0; do_worker 0; do_worker 0; do_worker 0;
       do_call 0; do_call 0; do_call 0; do_call 0; do_call 0; do_call 0]).

(** The worker is interrupted before it is recorded, while another one records itself. *)
Definition demo_lost : option (group nat) :=
  performs group_init
    [do_start demo_operation; do_start demo_operation; do_cancel_all 0 None;
     do_call 0; do_call 0; do_call 0; do_worker 0; do_interrupt 1; do_worker 1].

(** Cancel-all in the streamed callback. *)
Definition demo_reentrant : option (group nat) :=
  performs group_init (demo_prefix ++ [do_cancel_all 0 (Some 0); do_call 0; do_call 0; do_call 0]).

Definition state_of (o : option (group nat)) : group nat := default group_init o.

Lemma demo_reach (l : list (action nat)) : reach (state_of (performs group_init l)).
Proof. apply performed_reach. Qed.

Example demo_cancelled_calls :
  (wk_calls <$> gr_workers (state_of demo_cancelled) !! 0) = Some [0; 2].
Proof. by vm_compute. Qed.

(** An accepted operation can end without a callback. *)
Example accepted_without_result :
  reach (state_of demo_lost)
  /\ exists x, gr_workers (state_of demo_lost) !! 1 = Some x
       /\ wk_stage x = Ended true /\ wk_calls x = [].
Proof. split; [apply demo_reach|]. eexists. by vm_compute. Qed.

Lemma cancel_all_joins_witness :
  exists x, gr_workers (state_of demo_cancelled) !! 0 = Some x /\ is_ended (wk_stage x) = true.
Proof.
  destruct (cancel_all_joins (state_of demo_cancelled) 0 (Build_cancel_call Returned None 1)
              (demo_reach _) ltac:(by vm_compute)) as [H _].
  destruct (H eq_refl 0 ltac:(cbn; lia)) as (x & ? & ? & _). by exists x.
Defined.

Lemma cancel_all_returns_witness :
  0 + work_left (state_of demo_cancelled) <= work_left (state_of demo_cancelled).
Proof.
  apply (cancel_all_returns (state_of demo_cancelled) 0 (state_of demo_cancelled) (demo_reach _)).
  - assert (gr_calls (state_of demo_cancelled) = {[0 := Build_cancel_call Returned None 1]}) as Hc
      by (by vm_compute).
    intros i c. rewrite Hc. by intros [<- <-]%lookup_singleton_Some.
  - constructor.
Defined.

Lemma reentrant_cancel_never_returns_witness :
  in_callback (state_of demo_reentrant) 0.
Proof.
  eapply (reentrant_cancel_never_returns (state_of demo_reentrant) 0 _ 0 (demo_reach _));
    [by vm_compute|reflexivity].
Defined.
