(* ===== verification/RepositoryCalls.v ===== *)
(** * Entries of the repository operations

    The repository functions of HaskellAgentBridge.h copy and check their arguments before
    they start a worker (RepositoryInput.hs, RepositoryReviewBridge.hs,
    RepositoryDeliveryBridge.hs).  This file has the entries over the host's memory, and what
    the header says of them: which status refuses a call, or the request that is accepted.
    [repository_entries_contract]: the entries are that, but for two disagreements: they refuse
    paths, tokens and session identifiers beyond limits that the header does not have, and they
    accept titles of pull requests of more than its 512 characters, which the worker refuses
    later (agent-repository/src/Agent/CLI/RepositoryDelivery.hs). *)

From stdpp Require Import base tactics option list gmap strings.
From Stdlib Require Import ZArith Lia.
From coqutil Require Import Byte.
From S2P Require Import Prelude Utf8 AbiLayout HostCall.
#[local] Open Scope Z_scope.

(** ** The header *)

Inductive ha_repository_operation :=
  | HA_REPOSITORY_STAGE
  | HA_REPOSITORY_UNSTAGE
  | HA_REPOSITORY_RESTORE.

Definition ha_repository_operation_value (o : ha_repository_operation) : Z :=
  match o with
  | HA_REPOSITORY_STAGE => 0
  | HA_REPOSITORY_UNSTAGE => 1
  | HA_REPOSITORY_RESTORE => 2
  end.

Inductive ha_repository_diff_kind :=
  | HA_REPOSITORY_DIFF_WORKTREE
  | HA_REPOSITORY_DIFF_STAGED.

Definition ha_repository_diff_kind_value (k : ha_repository_diff_kind) : Z :=
  match k with
  | HA_REPOSITORY_DIFF_WORKTREE => 0
  | HA_REPOSITORY_DIFF_STAGED => 1
  end.

(** A pointer and a length. *)
Abbreviation buffer := (Z * Z)%type.

(** The calls of the host; a callback is the address of a function. *)
Inductive review_call :=
  | repository_snapshot (path : buffer) (snapshot_callback file_callback result_callback : Z)
  | repository_diff (path snapshot_id : buffer) (diff_kind : Z) (file_path : buffer)
      (diff_callback hunk_callback result_callback : Z)
  | repository_apply_path (path snapshot_id : buffer) (operation : Z) (file_path : buffer)
      (result_callback : Z)
  | repository_apply_hunks (path snapshot_id : buffer) (operation : Z) (file_path : buffer)
      (hunk_indices hunk_count : Z) (result_callback : Z)
  | repository_commit (path snapshot_id message : buffer) (result_callback : Z).

Inductive delivery_call :=
  | repository_delivery_status (path snapshot_id : buffer) (callback : Z)
  | repository_push_preview (path snapshot_id : buffer) (callback : Z)
  | repository_push_confirm (path confirmation : buffer) (callback : Z)
  | repository_pr_preview (path snapshot_id base title body : buffer) (callback : Z)
  | repository_pr_confirm (path confirmation : buffer) (callback : Z).

Inductive pull_request_call :=
  | repository_pr_status (path : buffer) (callback : Z)
  | session_pr_status (session_id : buffer) (callback : Z)
  | pull_request_summary (path url : buffer) (callback : Z).

Inductive repository_call :=
  | review (c : review_call)
  | delivery (c : delivery_call)
  | pull_request (c : pull_request_call).

(** ** Requests *)

Inductive RepositoryDiffKind := RepositoryWorktreeDiff | RepositoryStagedDiff.

Inductive RepositoryMutation :=
  | StagePath (path : text)
  | UnstagePath (path : text)
  | RestorePath (path : text)
  | StageHunks (path : text) (hunks : list Z)
  | UnstageHunks (path : text) (hunks : list Z)
  | RestoreHunks (path : text) (hunks : list Z).

(** What a worker is started for. *)
Inductive repository_request :=
  | ask_snapshot (path : text)
  | ask_diff (path expected : text) (kind : RepositoryDiffKind) (file : text)
  | ask_mutation (path expected : text) (mutation : RepositoryMutation)
  | ask_commit (path expected message : text)
  | ask_delivery_status (path snapshot : text)
  | ask_push_preview (path snapshot : text)
  | ask_push_confirm (path token : text)
  | ask_pr_preview (path snapshot base title body : text)
  | ask_pr_confirm (path token : text)
  | ask_pr_status (path : text)
  | ask_session_pr_status (session : text)
  | ask_pr_summary (path url : text).

(** ** Input *)

Definition maxRepositoryRequestItemBytes : Z := 8 * 1024 * 1024.
Definition maxRepositoryRequestTotalBytes : Z := 16 * 1024 * 1024.

Definition maxInt : Z := 2 ^ 63 - 1.

Section Entries.
Context (m : memory).

Definition copyRequiredText (f : buffer) : outcome (option text) :=
  let '(pointer, length) := f in
  if (pointer =? 0) || (length =? 0) then value None
  else if maxInt <? length then value None
  else if maxRepositoryRequestItemBytes <? length then value None
  else
    bytes ← packCStringLen m pointer length;
    value (utf8_decode bytes).

Definition total_bytes (fields : list buffer) : Z := foldr Z.add 0 (map snd fields).

Definition copyRequiredTexts (fields : list buffer) : outcome (option (list text)) :=
  if maxRepositoryRequestTotalBytes <? total_bytes fields then value None
  else
    texts ← map_outcome copyRequiredText fields;
    value (sequence texts).

Definition repositoryPathMutation (operation : Z) (path : text) : option RepositoryMutation :=
  if operation =? 0 then Some (StagePath path)
  else if operation =? 1 then Some (UnstagePath path)
  else if operation =? 2 then Some (RestorePath path)
  else None.

Definition repositoryDiffKind (kind : Z) : option RepositoryDiffKind :=
  if kind =? 0 then Some RepositoryWorktreeDiff
  else if kind =? 1 then Some RepositoryStagedDiff
  else None.

Definition repositoryHunkMutation (operation : Z) (path : text) (hunks : list Z)
    : option RepositoryMutation :=
  if operation =? 0 then Some (StageHunks path hunks)
  else if operation =? 1 then Some (UnstageHunks path hunks)
  else if operation =? 2 then Some (RestoreHunks path hunks)
  else None.

(** ** The entries

    The status that refuses the call, or the request for which a worker is started. *)

Definition ha_repository_snapshot (path : buffer)
    (snapshotCallback fileCallback resultCallback : Z) : outcome (Z + repository_request) :=
  if (snapshotCallback =? 0) || (fileCallback =? 0) || (resultCallback =? 0) then value (inl 1)
  else
    copied ← copyRequiredText path;
    value (match copied with None => inl 2 | Some path => inr (ask_snapshot path) end).

Definition ha_repository_diff (path snapshot : buffer) (diffKind : Z) (file : buffer)
    (diffCallback hunkCallback resultCallback : Z) : outcome (Z + repository_request) :=
  if (diffCallback =? 0) || (hunkCallback =? 0) || (resultCallback =? 0) then value (inl 1)
  else
    copied ← copyRequiredTexts [path; snapshot; file];
    value (match copied with
           | None => inl 2
           | Some [path; expected; file] =>
               match repositoryDiffKind diffKind with
               | None => inl 2
               | Some kind => inr (ask_diff path expected kind file)
               end
           | Some _ => inl 3
           end).

Definition ha_repository_apply_path (path snapshot : buffer) (operation : Z) (file : buffer)
    (callback : Z) : outcome (Z + repository_request) :=
  if callback =? 0 then value (inl 1)
  else
    copied ← copyRequiredTexts [path; snapshot; file];
    value (match copied with
           | None => inl 2
           | Some [path; expected; file] =>
               match repositoryPathMutation operation file with
               | None => inl 2
               | Some mutation => inr (ask_mutation path expected mutation)
               end
           | Some _ => inl 3
           end).

Definition ha_repository_apply_hunks (path snapshot : buffer) (operation : Z) (file : buffer)
    (hunkIndices hunkCount callback : Z) : outcome (Z + repository_request) :=
  if callback =? 0 then value (inl 1)
  else if (hunkIndices =? 0) || (hunkCount =? 0) then value (inl 2)
  else if 4096 <? hunkCount then value (inl 2)
  else if maxInt / sizeSize <? int_of_size hunkCount then value (inl 2)
  else
    copied ← copyRequiredTexts [path; snapshot; file];
    match copied with
    | None => value (inl 2)
    | Some [path; expected; file] =>
        rawIndices ← map_outcome (fun index => peekByteOff m hunkIndices (index * sizeSize) sizeSize)
                       (seqZ 0 hunkCount);
        value (if existsb (Z.ltb maxInt) rawIndices then inl 2
               else match repositoryHunkMutation operation file rawIndices with
                    | None => inl 2
                    | Some mutation => inr (ask_mutation path expected mutation)
                    end)
    | Some _ => value (inl 3)
    end.

Definition ha_repository_commit (path snapshot message : buffer) (callback : Z)
    : outcome (Z + repository_request) :=
  if callback =? 0 then value (inl 1)
  else
    copied ← copyRequiredTexts [path; snapshot; message];
    value (match copied with
           | None => inl 2
           | Some [path; expected; message] => inr (ask_commit path expected message)
           | Some _ => inl 3
           end).

Definition deliveryInputValid (f : buffer) (limit : Z) : bool :=
  negb (fst f =? 0) && (0 <? snd f) && (snd f <=? limit).

Definition deliveryPathLimit : Z := 16 * 1024.
Definition deliveryTokenLimit : Z := 4 * 1024.
Definition deliveryRefLimit : Z := 1024.
Definition deliveryUrlLimit : Z := 2048.
Definition deliveryTitleLimit : Z := 4 * 1024.
Definition deliveryBodyLimit : Z := 1024 * 1024.

(** The delivery entries of a path and a token have one shape. *)
Definition delivery_entry (path token : buffer) (callback : Z)
    (ask : text -> text -> repository_request) : outcome (Z + repository_request) :=
  if callback =? 0 then value (inl 1)
  else if negb (deliveryInputValid path deliveryPathLimit)
          || negb (deliveryInputValid token deliveryTokenLimit) then value (inl 2)
  else
    copied ← copyRequiredTexts [path; token];
    value (match copied with Some [path; token] => inr (ask path token) | _ => inl 2 end).

Definition ha_repository_delivery_status (path snapshot : buffer) (callback : Z) :=
  delivery_entry path snapshot callback ask_delivery_status.

Definition ha_repository_push_preview (path snapshot : buffer) (callback : Z) :=
  delivery_entry path snapshot callback ask_push_preview.

Definition ha_repository_push_confirm (path token : buffer) (callback : Z) :=
  delivery_entry path token callback ask_push_confirm.

Definition ha_repository_pr_confirm (path token : buffer) (callback : Z) :=
  delivery_entry path token callback ask_pr_confirm.

Definition ha_repository_pr_preview (path snapshot base title body : buffer) (callback : Z)
    : outcome (Z + repository_request) :=
  if callback =? 0 then value (inl 1)
  else if negb (deliveryInputValid path deliveryPathLimit)
          || negb (deliveryInputValid snapshot deliveryTokenLimit)
          || negb (deliveryInputValid base deliveryRefLimit)
          || negb (deliveryInputValid title deliveryTitleLimit)
          || negb (deliveryInputValid body deliveryBodyLimit) then value (inl 2)
  else
    copied ← copyRequiredTexts [path; snapshot; base; title; body];
    value (match copied with
           | Some [path; snapshot; base; title; body] =>
               inr (ask_pr_preview path snapshot base title body)
           | _ => inl 2
           end).

Definition ha_repository_pr_status (path : buffer) (callback : Z)
    : outcome (Z + repository_request) :=
  if callback =? 0 then value (inl 1)
  else if negb (deliveryInputValid path deliveryPathLimit) then value (inl 2)
  else
    copied ← copyRequiredTexts [path];
    value (match copied with Some [path] => inr (ask_pr_status path) | _ => inl 2 end).

Definition isValidSessionId (sessionId : text) : bool :=
  negb (bool_decide (sessionId = [])) && negb (bool_decide (sessionId = txt "."))
  && negb (bool_decide (sessionId = txt ".."))
  && forallb (fun c => negb (c =? 47) && negb (c =? 92) && negb (c =? 0)) sessionId.

Definition ha_session_pr_status (session : buffer) (callback : Z)
    : outcome (Z + repository_request) :=
  if callback =? 0 then value (inl 1)
  else if negb (deliveryInputValid session 1024) then value (inl 2)
  else
    copied ← copyRequiredTexts [session];
    value (match copied with
           | Some [sessionId] =>
               if isValidSessionId sessionId then inr (ask_session_pr_status sessionId) else inl 2
           | _ => inl 2
           end).

Definition ha_pull_request_summary (path url : buffer) (callback : Z)
    : outcome (Z + repository_request) :=
  if callback =? 0 then value (inl 1)
  else if negb (deliveryInputValid path deliveryPathLimit) then value (inl 2)
  else if negb (deliveryInputValid url deliveryUrlLimit) then value (inl 2)
  else
    copied ← copyRequiredTexts [path; url];
    value (match copied with Some [path; url] => inr (ask_pr_summary path url) | _ => inl 2 end).

Definition run_repository_call (c : repository_call) : outcome (Z + repository_request) :=
  match c with
  | review (repository_snapshot p s f r) => ha_repository_snapshot p s f r
  | review (repository_diff p s k f d h r) => ha_repository_diff p s k f d h r
  | review (repository_apply_path p s o f r) => ha_repository_apply_path p s o f r
  | review (repository_apply_hunks p s o f i n r) => ha_repository_apply_hunks p s o f i n r
  | review (repository_commit p s msg r) => ha_repository_commit p s msg r
  | delivery (repository_delivery_status p s c) => ha_repository_delivery_status p s c
  | delivery (repository_push_preview p s c) => ha_repository_push_preview p s c
  | delivery (repository_push_confirm p t c) => ha_repository_push_confirm p t c
  | delivery (repository_pr_preview p s b t d c) => ha_repository_pr_preview p s b t d c
  | delivery (repository_pr_confirm p t c) => ha_repository_pr_confirm p t c
  | pull_request (repository_pr_status p c) => ha_repository_pr_status p c
  | pull_request (session_pr_status s c) => ha_session_pr_status s c
  | pull_request (pull_request_summary p u c) => ha_pull_request_summary p u c
  end.

End Entries.

(** ** What the header says *)

Section Contract.
Context (m : memory).

(** "Input text is required, non-null, non-empty UTF-8", of at most [limit] bytes. *)
Definition input (limit : Z) (f : buffer) : option text :=
  if (fst f =? 0) || (snd f =? 0) || (limit <? snd f) then None
  else utf8_decode (bytes_at m (fst f) (snd f)).

(** "Each input text is capped at 8 MiB, combined text per request at 16 MiB": the texts of a
    request, each with its limit. *)
Definition inputs (fields : list (buffer * Z)) : option (list text) :=
  if 16 * 1024 * 1024 <? total_bytes (map fst fields) then None
  else sequence (map (fun f => input (snd f) (fst f)) fields).

Definition review_text (f : buffer) : buffer * Z := (f, 8 * 1024 * 1024).

(** The operation or the kind that a value names. *)
Definition operation_of_value (z : Z) : option ha_repository_operation :=
  find (fun o => ha_repository_operation_value o =? z)
    [HA_REPOSITORY_STAGE; HA_REPOSITORY_UNSTAGE; HA_REPOSITORY_RESTORE].

Definition diff_kind_of_value (z : Z) : option ha_repository_diff_kind :=
  find (fun k => ha_repository_diff_kind_value k =? z)
    [HA_REPOSITORY_DIFF_WORKTREE; HA_REPOSITORY_DIFF_STAGED].

Definition path_mutation (o : ha_repository_operation) (path : text) : RepositoryMutation :=
  match o with
  | HA_REPOSITORY_STAGE => StagePath path
  | HA_REPOSITORY_UNSTAGE => UnstagePath path
  | HA_REPOSITORY_RESTORE => RestorePath path
  end.

Definition hunk_mutation (o : ha_repository_operation) (path : text) (hunks : list Z)
    : RepositoryMutation :=
  match o with
  | HA_REPOSITORY_STAGE => StageHunks path hunks
  | HA_REPOSITORY_UNSTAGE => UnstageHunks path hunks
  | HA_REPOSITORY_RESTORE => RestoreHunks path hunks
  end.

Definition diff_kind (k : ha_repository_diff_kind) : RepositoryDiffKind :=
  match k with
  | HA_REPOSITORY_DIFF_WORKTREE => RepositoryWorktreeDiff
  | HA_REPOSITORY_DIFF_STAGED => RepositoryStagedDiff
  end.

(** The array of hunk indices, "hunk_count at 4096". *)
Definition hunks_of (p count : Z) : option (list Z) :=
  if (p =? 0) || (count =? 0) || (4096 <? count) then None
  else
    let l := map (peek 8 0) (array_at m p count 8) in
    if forallb (fun i => i <? 2 ^ 63) l then Some l else None.

(** The callbacks of a call. *)
Definition callbacks (c : repository_call) : list Z :=
  match c with
  | review (repository_snapshot _ s f r) => [s; f; r]
  | review (repository_diff _ _ _ _ d h r) => [d; h; r]
  | review (repository_apply_path _ _ _ _ r)
  | review (repository_apply_hunks _ _ _ _ _ _ r)
  | review (repository_commit _ _ _ r) => [r]
  | delivery (repository_delivery_status _ _ c)
  | delivery (repository_push_preview _ _ c)
  | delivery (repository_push_confirm _ _ c)
  | delivery (repository_pr_preview _ _ _ _ _ c)
  | delivery (repository_pr_confirm _ _ c)
  | pull_request (repository_pr_status _ c)
  | pull_request (session_pr_status _ c)
  | pull_request (pull_request_summary _ _ c) => [c]
  end.

Definition null_callback (c : repository_call) : bool := existsb (Z.eqb 0) (callbacks c).

(** The limits of the texts that are not the same everywhere: of paths, tokens, session identifiers
    and titles in bytes, and of titles in characters. *)
Record text_limits := {
  path_limit : Z;
  token_limit : Z;
  session_limit : Z;
  title_limit : Z;
  title_characters : option Z;
}.

(** "Each input text is capped at 8 MiB", and a "512-character title". *)
Definition header_limits : text_limits := {|
  path_limit := 8 * 1024 * 1024;
  token_limit := 8 * 1024 * 1024;
  session_limit := 8 * 1024 * 1024;
  title_limit := 8 * 1024 * 1024;
  title_characters := Some 512;
|}.

(** The same without the number of characters. *)
Definition untitled_limits : text_limits := {|
  path_limit := 8 * 1024 * 1024;
  token_limit := 8 * 1024 * 1024;
  session_limit := 8 * 1024 * 1024;
  title_limit := 8 * 1024 * 1024;
  title_characters := None;
|}.

(** Those of the entries. *)
Definition entry_limits : text_limits := {|
  path_limit := 16 * 1024;
  token_limit := 4 * 1024;
  session_limit := 1024;
  title_limit := 4 * 1024;
  title_characters := None;
|}.

Definition delivery_texts (limits : text_limits) (path token : buffer) (rest : list (buffer * Z))
    : list (buffer * Z) :=
  (path, path_limit limits) :: (token, token_limit limits) :: rest.

(** "A 1 KiB base, 512-character title, and 1 MiB body". *)
Definition preview_texts (limits : text_limits) (path token base title body : buffer) : list (buffer * Z) :=
  delivery_texts limits path token [(base, 1024); (title, title_limit limits); (body, 1024 * 1024)].

Definition title_fits (limits : text_limits) (title : text) : bool :=
  match title_characters limits with Some n => zlen title <=? n | None => true end.

(** The request that a call makes, when its input is valid: "2 invalid input (path above 16 KiB, url
    above 2 KiB, or either empty)" for the summary of a pull request, and the limits elsewhere. *)
Definition asked (limits : text_limits) (c : repository_call) : option repository_request :=
  match c with
  | review (repository_snapshot p _ _ _) => ask_snapshot <$> input (8 * 1024 * 1024) p
  | review (repository_diff p s k f _ _ _) =>
      texts ← inputs [review_text p; review_text s; review_text f];
      kind ← diff_kind_of_value k;
      match texts with
      | [path; expected; file] => Some (ask_diff path expected (diff_kind kind) file)
      | _ => None
      end
  | review (repository_apply_path p s o f _) =>
      texts ← inputs [review_text p; review_text s; review_text f];
      op ← operation_of_value o;
      match texts with
      | [path; expected; file] => Some (ask_mutation path expected (path_mutation op file))
      | _ => None
      end
  | review (repository_apply_hunks p s o f i n _) =>
      hunks ← hunks_of i n;
      texts ← inputs [review_text p; review_text s; review_text f];
      op ← operation_of_value o;
      match texts with
      | [path; expected; file] => Some (ask_mutation path expected (hunk_mutation op file hunks))
      | _ => None
      end
  | review (repository_commit p s msg _) =>
      texts ← inputs [review_text p; review_text s; review_text msg];
      match texts with
      | [path; expected; message] => Some (ask_commit path expected message)
      | _ => None
      end
  | delivery (repository_delivery_status p s _) =>
      texts ← inputs (delivery_texts limits p s []);
      match texts with [path; snapshot] => Some (ask_delivery_status path snapshot) | _ => None end
  | delivery (repository_push_preview p s _) =>
      texts ← inputs (delivery_texts limits p s []);
      match texts with [path; snapshot] => Some (ask_push_preview path snapshot) | _ => None end
  | delivery (repository_push_confirm p t _) =>
      texts ← inputs (delivery_texts limits p t []);
      match texts with [path; token] => Some (ask_push_confirm path token) | _ => None end
  | delivery (repository_pr_confirm p t _) =>
      texts ← inputs (delivery_texts limits p t []);
      match texts with [path; token] => Some (ask_pr_confirm path token) | _ => None end
  | delivery (repository_pr_preview p s b t d _) =>
      texts ← inputs (preview_texts limits p s b t d);
      match texts with
      | [path; snapshot; base; title; body] =>
          if title_fits limits title then Some (ask_pr_preview path snapshot base title body) else None
      | _ => None
      end
  | pull_request (repository_pr_status p _) =>
      texts ← inputs [(p, path_limit limits)];
      match texts with [path] => Some (ask_pr_status path) | _ => None end
  | pull_request (session_pr_status s _) =>
      texts ← inputs [(s, session_limit limits)];
      match texts with
      | [session] => if isValidSessionId session then Some (ask_session_pr_status session) else None
      | _ => None
      end
  | pull_request (pull_request_summary p u _) =>
      texts ← inputs [(p, 16 * 1024); (u, 2 * 1024)];
      match texts with [path; url] => Some (ask_pr_summary path url) | _ => None end
  end.

(** "1 for a null required callback, 2 for an invalid pointer/length/UTF-8/operation." *)
Definition repository_request_of (limits : text_limits) (c : repository_call) : Z + repository_request :=
  if null_callback c then inl 1
  else match asked limits c with Some r => inr r | None => inl 2 end.

(** A text beyond a limit of the entries that the header does not have. *)
Definition beyond_entry_limits (c : repository_call) : bool :=
  match c with
  | review _ | pull_request (pull_request_summary _ _ _) => false
  | delivery (repository_delivery_status p s _)
  | delivery (repository_push_preview p s _)
  | delivery (repository_push_confirm p s _)
  | delivery (repository_pr_preview p s _ _ _ _)
  | delivery (repository_pr_confirm p s _) =>
      (path_limit entry_limits <? snd p) || (token_limit entry_limits <? snd s)
  | pull_request (repository_pr_status p _) => path_limit entry_limits <? snd p
  | pull_request (session_pr_status s _) => session_limit entry_limits <? snd s
  end.

(** A title of more than 512 characters in at most 4 KiB. *)
Definition long_title (c : repository_call) : bool :=
  match c with
  | delivery (repository_pr_preview _ _ _ t _ _) =>
      match input (title_limit entry_limits) t with
      | Some title => negb (title_fits header_limits title)
      | None => false
      end
  | _ => false
  end.

(** What the host lends. *)
Definition buffers (c : repository_call) : list buffer :=
  match c with
  | review (repository_snapshot p _ _ _) => [p]
  | review (repository_diff p s _ f _ _ _)
  | review (repository_apply_path p s _ f _)
  | review (repository_apply_hunks p s _ f _ _ _) => [p; s; f]
  | review (repository_commit p s msg _) => [p; s; msg]
  | delivery (repository_delivery_status p s _)
  | delivery (repository_push_preview p s _)
  | delivery (repository_push_confirm p s _)
  | delivery (repository_pr_confirm p s _) => [p; s]
  | delivery (repository_pr_preview p s b t d _) => [p; s; b; t; d]
  | pull_request (repository_pr_status p _)
  | pull_request (session_pr_status p _) => [p]
  | pull_request (pull_request_summary p u _) => [p; u]
  end.

Definition repository_lent (c : repository_call) : Prop :=
  Forall (fun f => lent m (fst f) (snd f)) (buffers c)
  /\ match c with
     | review (repository_apply_hunks _ _ _ _ i n _) =>
         0 <= n < 2 ^ 64 /\ (i <> 0 -> array_readable m i n 8)
     | _ => True
     end.

End Contract.

(** [Forall] on a list that is written out. *)
Ltac each := repeat (apply Forall_cons_2; [done || by vm_compute|]); apply Forall_nil_2.

(** ** Reading the input *)

Section Reading.
Context (m : memory).

Lemma copyRequiredText_value f :
  lent m (fst f) (snd f) -> copyRequiredText m f = value (input m maxRepositoryRequestItemBytes f).
Proof.
  destruct f as [p len]. cbn [fst snd]. intros Hl. unfold copyRequiredText, input. cbn [fst snd].
  destruct (Z.eqb_spec p 0) as [|Hp]; [done|]. destruct (Z.eqb_spec len 0) as [|Hn]; [done|]. cbn [orb].
  destruct (Z.ltb_spec maxRepositoryRequestItemBytes len) as [Hb|Hb].
  { by destruct (maxInt <? len). }
  destruct (Z.ltb_spec maxInt len); [unfold maxInt, maxRepositoryRequestItemBytes in *; lia|].
  rewrite pack_lent; [done|done|]. unfold null_with_bytes.
  by destruct (Z.eqb_spec p 0).
Qed.

Lemma copyRequiredTexts_value fields :
  Forall (fun f => lent m (fst f) (snd f)) fields ->
  copyRequiredTexts m fields = value (inputs m (map review_text fields)).
Proof.
  intros Hl. unfold copyRequiredTexts, inputs. rewrite map_map. cbn [review_text fst]. rewrite map_id.
  change maxRepositoryRequestTotalBytes with (16 * 1024 * 1024).
  destruct (_ <? total_bytes fields); [done|].
  rewrite (map_outcome_values _ (input m maxRepositoryRequestItemBytes)).
  - cbn [mbind outcome_bind]. by rewrite map_map.
  - eapply Forall_impl; [exact Hl|]. intros f. apply copyRequiredText_value.
Qed.

(** A check of a field before it is copied. *)
Lemma input_limited limit f :
  0 <= snd f -> limit <= maxRepositoryRequestItemBytes ->
  input m limit f = if deliveryInputValid f limit then input m maxRepositoryRequestItemBytes f else None.
Proof.
  intros Hn Hl. unfold input, deliveryInputValid.
  destruct (Z.eqb_spec (fst f) 0); [done|]. cbn [orb negb andb].
  destruct (Z.eqb_spec (snd f) 0) as [->|]; [done|]. cbn [orb].
  destruct (Z.ltb_spec 0 (snd f)); [|lia]. cbn [andb].
  destruct (Z.ltb_spec limit (snd f)), (Z.leb_spec (snd f) limit); try lia; [done|].
  destruct (Z.ltb_spec maxRepositoryRequestItemBytes (snd f)); [lia|done].
Qed.

Definition checked (fields : list (buffer * Z)) : bool :=
  forallb (fun f => deliveryInputValid (fst f) (snd f)) fields.

Lemma inputs_checked fields :
  Forall (fun f => lent m (fst (fst f)) (snd (fst f))) fields ->
  Forall (fun f => snd f <= maxRepositoryRequestItemBytes) fields ->
  inputs m fields = if checked fields then inputs m (map (review_text ∘ fst) fields) else None.
Proof.
  intros Hl Hm. unfold inputs. rewrite map_map. cbn [compose review_text fst].
  change (map (fun x : buffer * Z => x.1) fields) with (map fst fields).
  destruct (_ <? total_bytes _); [by destruct (checked fields)|]. rewrite map_map.
  induction fields as [|f fields IH]; [done|].
  inversion_clear Hl as [|? ? Hf Hl']. inversion_clear Hm as [|? ? Hfm Hm'].
  cbn [map sequence checked forallb compose review_text fst snd]. fold (checked fields).
  rewrite (input_limited (snd f)) by (destruct Hf; cbn in *; lia).
  destruct (deliveryInputValid (fst f) (snd f)); [cbn [andb]|done].
  destruct (input m _ (fst f)) as [t|]; cbn [mbind option_bind]; [|by destruct (checked fields)].
  rewrite (IH Hl' Hm'). by destruct (checked fields).
Qed.

(** An entry that checks its fields and then copies them. *)
Lemma checked_value {A} fields (k : option (list text) -> A) bad :
  Forall (fun f => lent m (fst (fst f)) (snd (fst f))) fields ->
  Forall (fun f => snd f <= maxRepositoryRequestItemBytes) fields ->
  bad = negb (checked fields) ->
  (if bad then value (k None) else copied ← copyRequiredTexts m (map fst fields); value (k copied))
  = value (k (inputs m fields)).
Proof.
  intros Hl Hm ->. rewrite inputs_checked by done. destruct (checked fields); [cbn [negb]|done].
  rewrite copyRequiredTexts_value; [|by apply Forall_map]. cbn [mbind outcome_bind]. by rewrite map_map.
Qed.

Lemma hunks_value i n :
  0 <= n < 2 ^ 64 -> (i <> 0 -> array_readable m i n 8) -> i <> 0 -> n <= 4096 ->
  map_outcome (fun index => peekByteOff m i (index * sizeSize) sizeSize) (seqZ 0 n)
  = value (map (peek 8 0) (array_at m i n 8)).
Proof.
  intros Hn Hr Hi Hle. apply map_array. intros j Hj. unfold sizeSize.
  replace (j * 8) with (j * 8 + 0) by lia. apply (peek_array m i n 8); [by apply Hr|lia..].
Qed.

Lemma find_operation o :
  operation_of_value o =
  if o =? 0 then Some HA_REPOSITORY_STAGE
  else if o =? 1 then Some HA_REPOSITORY_UNSTAGE
  else if o =? 2 then Some HA_REPOSITORY_RESTORE
  else None.
Proof.
  unfold operation_of_value. cbn [find ha_repository_operation_value]. rewrite !(Z.eqb_sym _ o). done.
Qed.

Lemma find_diff_kind k :
  diff_kind_of_value k =
  if k =? 0 then Some HA_REPOSITORY_DIFF_WORKTREE
  else if k =? 1 then Some HA_REPOSITORY_DIFF_STAGED
  else None.
Proof.
  unfold diff_kind_of_value. cbn [find ha_repository_diff_kind_value]. rewrite !(Z.eqb_sym _ k). done.
Qed.

(** The number of texts is the number of fields. *)
Lemma inputs_length fields texts : inputs m fields = Some texts -> length texts = length fields.
Proof.
  unfold inputs. destruct (_ <? _); [done|]. intros H%sequence_Some.
  apply (f_equal length) in H. by rewrite length_map, length_fmap in H.
Qed.

Lemma texts_three fields texts :
  inputs m fields = Some texts -> length fields = 3%nat ->
  exists a b c, texts = [a; b; c].
Proof.
  intros H%inputs_length Hf. rewrite Hf in H.
  destruct texts as [|a [|b [|c [|]]]]; try done. by eexists _, _, _.
Qed.

Lemma null_callback_cases c :
  null_callback c = match callbacks c with
                    | [a; b; c] => (a =? 0) || (b =? 0) || (c =? 0)
                    | [a] => a =? 0
                    | _ => null_callback c
                    end.
Proof.
  unfold null_callback. destruct c as [[]|[]|[]]; cbn [callbacks existsb];
    rewrite ?orb_false_r, ?orb_assoc, !(Z.eqb_sym 0); done.
Qed.

Lemma review_value c :
  repository_lent m (review c) ->
  run_repository_call m (review c) = value (repository_request_of m entry_limits (review c)).
Proof.
  intros [Hl Ha]. unfold repository_request_of. rewrite null_callback_cases.
  destruct c as [p s f r|p s k f d h r|p s o f r|p s o f i n r|p s msg r];
    cbn [run_repository_call callbacks buffers asked] in *.
  - unfold ha_repository_snapshot. destruct (_ || _); [done|].
    inversion_clear Hl as [|? ? Hp _]. rewrite copyRequiredText_value by done.
    cbn [mbind outcome_bind]. change maxRepositoryRequestItemBytes with (8 * 1024 * 1024).
    by destruct (input m _ p).
  - unfold ha_repository_diff. destruct (_ || _); [done|].
    rewrite copyRequiredTexts_value by done. cbn [mbind outcome_bind map].
    destruct (inputs m _) as [texts|] eqn:E; [|done]. cbn [mbind option_bind].
    destruct (texts_three _ _ E eq_refl) as (a & b & c & ->).
    rewrite find_diff_kind. unfold repositoryDiffKind.
    by destruct (k =? 0), (k =? 1).
  - unfold ha_repository_apply_path. destruct (_ =? 0); [done|].
    rewrite copyRequiredTexts_value by done. cbn [mbind outcome_bind map].
    destruct (inputs m _) as [texts|] eqn:E; [|done]. cbn [mbind option_bind].
    destruct (texts_three _ _ E eq_refl) as (a & b & c & ->).
    rewrite find_operation. unfold repositoryPathMutation.
    by destruct (o =? 0), (o =? 1), (o =? 2).
  - unfold ha_repository_apply_hunks, hunks_of. destruct (_ =? 0); [done|].
    destruct (Z.eqb_spec i 0) as [|Hi]; [done|]. destruct (Z.eqb_spec n 0) as [|Hn0]; [done|]. cbn [orb].
    destruct (Z.ltb_spec 4096 n) as [|Hn]; [done|]. destruct Ha as [Hr Ha].
    rewrite int_of_size_small by lia. change (maxInt / sizeSize) with 1152921504606846975.
    destruct (Z.ltb_spec 1152921504606846975 n); [lia|].
    rewrite copyRequiredTexts_value by done. cbn [mbind outcome_bind map].
    rewrite hunks_value by done. set (l := map (peek 8 0) (array_at m i n 8)).
    assert (Hall : existsb (Z.ltb maxInt) l = negb (forallb (fun j => j <? 2 ^ 63) l)).
    { clear. induction l as [|j l IH]; [done|]. cbn [existsb forallb]. rewrite IH, negb_andb. f_equal.
      unfold maxInt. destruct (Z.ltb_spec (2 ^ 63 - 1) j), (Z.ltb_spec j (2 ^ 63)); done || lia. }
    destruct (inputs m _) as [texts|] eqn:E; cbn [mbind option_bind].
    + destruct (texts_three _ _ E eq_refl) as (a & b & c & ->).
      cbn [mbind outcome_bind]. rewrite Hall. destruct (forallb _ l); [|done]. cbn [negb mbind option_bind].
      rewrite find_operation. unfold repositoryHunkMutation. by destruct (o =? 0), (o =? 1), (o =? 2).
    + by destruct (forallb _ l).
  - unfold ha_repository_commit. destruct (_ =? 0); [done|].
    rewrite copyRequiredTexts_value by done. cbn [mbind outcome_bind map].
    destruct (inputs m _) as [texts|] eqn:E; [|done]. cbn [mbind option_bind].
    by destruct (texts_three _ _ E eq_refl) as (a & b & c & ->).
Qed.

Lemma fields_lent fields :
  Forall (fun f : buffer => lent m (fst f) (snd f)) (map fst fields) ->
  Forall (fun f : buffer * Z => lent m (fst (fst f)) (snd (fst f))) fields.
Proof. by rewrite Forall_map. Qed.

Lemma delivery_entry_value p t c ask :
  lent m (fst p) (snd p) -> lent m (fst t) (snd t) ->
  delivery_entry m p t c ask =
  value (if c =? 0 then inl 1
         else match inputs m (delivery_texts entry_limits p t []) with
              | Some [path; token] => inr (ask path token)
              | _ => inl 2
              end).
Proof.
  intros Hp Ht. unfold delivery_entry. destruct (c =? 0); [done|].
  apply (checked_value (delivery_texts entry_limits p t [])
    (fun copied => match copied with Some [path; token] => inr (ask path token) | _ => inl 2 end)).
  - each.
  - each.
  - unfold checked. cbn. by rewrite andb_true_r, negb_andb.
Qed.

Lemma if_or {A} (a b : bool) (x y : A) : (if a then x else if b then x else y) = if a || b then x else y.
Proof. by destruct a. Qed.

(** Two ways to write a status. *)
Lemma asked_two {A B} (o : option (list text)) (f : text -> text -> A) (g : A -> Z + B) :
  match o with Some [a; b] => g (f a b) | _ => inl 2 end
  = match (texts ← o; match texts with [a; b] => Some (f a b) | _ => None end) with
    | Some r => g r
    | None => inl 2
    end.
Proof. destruct o as [[|a [|b [|]]]|]; done. Qed.

Lemma delivery_value c :
  repository_lent m (delivery c) ->
  run_repository_call m (delivery c) = value (repository_request_of m entry_limits (delivery c)).
Proof.
  intros [Hl _]. unfold repository_request_of. rewrite null_callback_cases.
  destruct c as [p s c|p s c|p t c|p s b t d c|p t c];
    cbn [run_repository_call callbacks buffers asked] in *.
  1-3, 5: inversion_clear Hl as [|? ? Hp Hl']; inversion_clear Hl' as [|? ? Ht _];
    unfold ha_repository_delivery_status, ha_repository_push_preview, ha_repository_push_confirm,
      ha_repository_pr_confirm;
    rewrite delivery_entry_value by done; destruct (c =? 0); [done|]; by rewrite (asked_two _ _ inr).
  unfold ha_repository_pr_preview. destruct (c =? 0); [done|].
  set (fields := preview_texts entry_limits p s b t d).
  etrans; [apply (checked_value fields (fun copied =>
    match copied with
    | Some [path; snapshot; base; title; body] => inr (ask_pr_preview path snapshot base title body)
    | _ => inl 2
    end))|].
  - by apply fields_lent.
  - each.
  - unfold checked. cbn. by rewrite andb_true_r, !negb_andb, !orb_assoc.
  - by destruct (inputs m fields) as [[|p1 [|p2 [|p3 [|p4 [|p5 [|]]]]]]|].
Qed.

Lemma pull_request_value c :
  repository_lent m (pull_request c) ->
  run_repository_call m (pull_request c) = value (repository_request_of m entry_limits (pull_request c)).
Proof.
  intros [Hl _]. unfold repository_request_of. rewrite null_callback_cases.
  destruct c as [p c|s c|p u c]; cbn [run_repository_call callbacks buffers asked] in *.
  - unfold ha_repository_pr_status. destruct (c =? 0); [done|].
    etrans; [apply (checked_value [(p, 16 * 1024)]
      (fun copied => match copied with Some [path] => inr (ask_pr_status path) | _ => inl 2 end))|].
    + by apply fields_lent.
    + each.
    + unfold checked. cbn. by rewrite andb_true_r.
    + by destruct (inputs m _) as [[|a [|]]|].
  - unfold ha_session_pr_status. destruct (c =? 0); [done|].
    etrans; [apply (checked_value [(s, 1024)]
      (fun copied => match copied with
                     | Some [sessionId] =>
                         if isValidSessionId sessionId then inr (ask_session_pr_status sessionId) else inl 2
                     | _ => inl 2
                     end))|].
    + by apply fields_lent.
    + each.
    + unfold checked. cbn. by rewrite andb_true_r.
    + destruct (inputs m _) as [[|a [|]]|]; [done| |done..]. cbn [mbind option_bind].
      by destruct (isValidSessionId a).
  - unfold ha_pull_request_summary. destruct (c =? 0); [done|].
    rewrite if_or.
    etrans; [apply (checked_value [(p, 16 * 1024); (u, 2 * 1024)]
      (fun copied => match copied with Some [path; url] => inr (ask_pr_summary path url) | _ => inl 2 end))|].
    + by apply fields_lent.
    + each.
    + unfold checked. cbn. by rewrite andb_true_r, negb_andb.
    + by rewrite (asked_two _ _ inr).
Qed.

End Reading.

(** ** The contract *)

Definition request_text (limit : Z) (t : text) : Prop :=
  zlen (utf8_encode t) <= limit /\ Forall scalar t /\ t <> [].

Definition review_text_ok : text -> Prop := request_text (8 * 1024 * 1024).

Definition mutation_ok (mutation : RepositoryMutation) : Prop :=
  match mutation with
  | StagePath p | UnstagePath p | RestorePath p => review_text_ok p
  | StageHunks p l | UnstageHunks p l | RestoreHunks p l =>
      review_text_ok p /\ 1 <= zlen l <= 4096 /\ Forall (fun i => i < 2 ^ 63) l
  end.

(** The texts of an accepted request are valid, not empty, and within their limits. *)
Definition repository_request_ok (r : repository_request) : Prop :=
  let path := request_text (16 * 1024) in
  let token := request_text (4 * 1024) in
  match r with
  | ask_snapshot p => review_text_ok p
  | ask_diff p e _ f => review_text_ok p /\ review_text_ok e /\ review_text_ok f
  | ask_mutation p e mu => review_text_ok p /\ review_text_ok e /\ mutation_ok mu
  | ask_commit p e msg => review_text_ok p /\ review_text_ok e /\ review_text_ok msg
  | ask_delivery_status p s | ask_push_preview p s => path p /\ token s
  | ask_push_confirm p t | ask_pr_confirm p t => path p /\ token t
  | ask_pr_preview p s b t d =>
      path p /\ token s /\ request_text 1024 b /\ request_text (4 * 1024) t
      /\ request_text (1024 * 1024) d
  | ask_pr_status p => path p
  | ask_session_pr_status s => request_text 1024 s /\ isValidSessionId s = true
  | ask_pr_summary p u => path p /\ request_text (2 * 1024) u
  end.

Section Accepted.
Context (m : memory).

Lemma input_ok limit f t :
  lent m (fst f) (snd f) -> input m limit f = Some t -> request_text limit t.
Proof.
  intros Hl. unfold input. destruct (Z.eqb_spec (fst f) 0) as [|Hp]; [done|].
  destruct (Z.eqb_spec (snd f) 0) as [|Hn]; [done|]. cbn [orb].
  destruct (Z.ltb_spec limit (snd f)) as [|Hb]; [done|]. intros Hd.
  pose proof (zlen_bytes_at _ _ _ (proj2 Hl Hp)) as Hlen.
  apply utf8_decode_sound in Hd as [He Hs]. rewrite <- He in Hlen.
  split; [lia|]. split; [done|]. intros ->. cbn in Hlen. lia.
Qed.

Lemma inputs_ok fields texts :
  Forall (fun f => lent m (fst (fst f)) (snd (fst f))) fields ->
  inputs m fields = Some texts ->
  Forall2 (fun f t => request_text (snd f) t) fields texts.
Proof.
  intros Hl. unfold inputs. destruct (_ <? _); [done|].
  revert texts. induction fields as [|f fields IH]; intros texts.
  - cbn. intros [= <-]. constructor.
  - inversion_clear Hl as [|? ? Hf Hl']. cbn [map sequence].
    intros (t & Ht & (texts' & Hts & [= <-])%bind_Some)%bind_Some.
    constructor; [by eapply input_ok|by apply IH].
Qed.

Lemma hunks_ok i n l :
  0 <= n -> hunks_of m i n = Some l -> 1 <= zlen l <= 4096 /\ Forall (fun j => j < 2 ^ 63) l.
Proof.
  intros Hn. unfold hunks_of. destruct (Z.eqb_spec i 0); [done|].
  destruct (Z.eqb_spec n 0) as [|Hn0]; [done|]. destruct (Z.ltb_spec 4096 n) as [|Hle]; [done|]. cbn [orb].
  destruct (forallb _ _) eqn:E; [|done]. intros [= <-]. split.
  - rewrite length_map. unfold array_at. rewrite length_map, length_seqZ. lia.
  - apply Forall_forall. intros j Hj. rewrite forallb_forall in E.
    apply list_elem_of_In, E in Hj. by apply Z.ltb_lt.
Qed.

(** Takes apart the texts of a request, with what is known of each. *)
Ltac take_texts :=
  match goal with
  | H : inputs m _ = Some ?texts |- _ =>
      apply inputs_ok in H; [|each];
      repeat (apply Forall2_cons_inv_l in H as (? & ? & ? & H & ->)); apply Forall2_nil_inv_l in H as ->
  end.

Lemma asked_ok c r : repository_lent m c -> asked m entry_limits c = Some r -> repository_request_ok r.
Proof.
  intros [Hl Ha].
  destruct c as [[p s f r'|p s k f d h r'|p s o f r'|p s o f i n r'|p s msg r']
                |[p s c|p s c|p t c|p s b t d c|p t c]|[p c|s c|p u c]];
    cbn [asked buffers] in *; rewrite ?Forall_cons in Hl; destruct_and? Hl.
  - intros (t & Ht & ->)%fmap_Some. by eapply input_ok.
  - intros (texts & Ht & (k' & _ & Hr)%bind_Some)%bind_Some. take_texts. by injection Hr as <-.
  - intros (texts & Ht & (o' & _ & Hr)%bind_Some)%bind_Some. take_texts. injection Hr as <-.
    by destruct o'.
  - intros (hs & [Hh Hh']%hunks_ok & (texts & Ht & (o' & _ & Hr)%bind_Some)%bind_Some)%bind_Some; [|lia].
    take_texts. injection Hr as <-. by destruct o'.
  - intros (texts & Ht & Hr)%bind_Some. take_texts. by injection Hr as <-.
  - intros (texts & Ht & Hr)%bind_Some. take_texts. by injection Hr as <-.
  - intros (texts & Ht & Hr)%bind_Some. take_texts. by injection Hr as <-.
  - intros (texts & Ht & Hr)%bind_Some. take_texts. by injection Hr as <-.
  - intros (texts & Ht & Hr)%bind_Some. take_texts. by injection Hr as <-.
  - intros (texts & Ht & Hr)%bind_Some. take_texts. by injection Hr as <-.
  - intros (texts & Ht & Hr)%bind_Some. take_texts. by injection Hr as <-.
  - intros (texts & Ht & Hr)%bind_Some. take_texts. destruct (isValidSessionId _) eqn:E; [|done].
    by injection Hr as <-.
  - intros (texts & Ht & Hr)%bind_Some. take_texts. by injection Hr as <-.
Qed.

Lemma run_request c :
  repository_lent m c -> run_repository_call m c = value (repository_request_of m entry_limits c).
Proof.
  intros Hl. destruct c; [by apply review_value|by apply delivery_value|by apply pull_request_value].
Qed.

Lemma null_callback_spec c : null_callback c = bool_decide (0 ∈ callbacks c).
Proof.
  unfold null_callback. induction (callbacks c) as [|x l IH]; [done|]. cbn [existsb]. rewrite IH.
  destruct (Z.eqb_spec 0 x) as [<-|Hx]; cbn [orb].
  - rewrite bool_decide_true; [done|]. apply list_elem_of_here.
  - apply bool_decide_ext. rewrite elem_of_cons. tauto.
Qed.

Lemma request_status limits c st : repository_request_of m limits c = inl st -> st = 1 \/ st = 2.
Proof.
  unfold repository_request_of. destruct (null_callback c); [intros [= <-]; by left|].
  destruct (asked m limits c); [done|]. intros [= <-]. by right.
Qed.

(** *** The entries and the header *)

Definition beyond (f : buffer * Z) : bool := snd f <? snd (fst f).

(** Narrower limits only refuse more. *)
Lemma inputs_narrow fields :
  Forall (fun f => lent m (fst (fst f)) (snd (fst f))) fields ->
  Forall (fun f => snd f <= maxRepositoryRequestItemBytes) fields ->
  inputs m fields = if existsb beyond fields then None else inputs m (map (review_text ∘ fst) fields).
Proof.
  intros Hl Hm. rewrite inputs_checked by done. destruct (existsb beyond fields) eqn:E.
  - destruct (checked fields) eqn:Ec; [|done]. apply existsb_exists in E as (f & Hin & Hf).
    unfold checked in Ec. rewrite forallb_forall in Ec. apply Ec in Hin.
    unfold beyond, deliveryInputValid in *. lia.
  - destruct (checked fields) eqn:Ec; [done|].
    rewrite (inputs_checked m (map (review_text ∘ fst) fields)).
    + rewrite map_map. destruct (checked (map _ fields)) eqn:Eb; [|done]. exfalso.
      apply not_true_iff_false in Ec. apply Ec. unfold checked in *. rewrite forallb_forall in *. intros f Hin.
      specialize (Eb (review_text (fst f))). cbn [review_text fst snd] in Eb.
      assert (beyond f = false) as Hf.
      { apply not_true_iff_false. intros Hf. apply not_true_iff_false in E. apply E, existsb_exists. by exists f. }
      assert (In (review_text (fst f)) (map (review_text ∘ fst) fields)) as Hin'
        by (apply in_map_iff; by exists f).
      specialize (Eb Hin'). unfold beyond, deliveryInputValid in *. lia.
    + apply Forall_map. eapply Forall_impl; [exact Hl|done].
    + apply Forall_map, Forall_true. intros f. by vm_compute.
Qed.

Lemma utf8_title t : zlen t <= 512 -> zlen (utf8_encode t) <= 4 * 1024.
Proof.
  intros Ht. assert (zlen (utf8_encode t) <= 4 * zlen t) as H; [|lia]. clear Ht.
  induction t as [|c t IH]; [done|]. rewrite utf8_encode_cons, length_app. cbn [length].
  assert (zlen (bytes_of (utf8_char c)) <= 4) as Hc; [|lia].
  unfold bytes_of. rewrite length_map. unfold utf8_char. repeat case_match; cbn; lia.
Qed.

Lemma input_same f limit limit' :
  snd f <= limit -> snd f <= limit' -> input m limit f = input m limit' f.
Proof.
  intros H1 H2. unfold input. by rewrite (proj2 (Z.ltb_ge _ _) H1), (proj2 (Z.ltb_ge _ _) H2).
Qed.

Lemma input_beyond f limit : limit < snd f -> input m limit f = None.
Proof. intros H. unfold input. rewrite (proj2 (Z.ltb_lt _ _) H). by rewrite orb_true_r. Qed.

(** A text of more than 4 KiB has more than 512 characters. *)
Lemma long_input f t :
  lent m (fst f) (snd f) -> input m maxRepositoryRequestItemBytes f = Some t -> 4 * 1024 < snd f -> 512 < zlen t.
Proof.
  intros Hl Ht Hf. destruct (Z.ltb_spec 512 (zlen t)) as [|Hle]; [done|]. apply utf8_title in Hle.
  unfold input in Ht. destruct (Z.eqb_spec (fst f) 0) as [|Hp]; [done|].
  destruct (_ || _); [done|]. apply utf8_decode_sound in Ht as [He _].
  pose proof (zlen_bytes_at _ _ _ (proj2 Hl Hp)) as Hlen. rewrite He in Hle. lia.
Qed.

(** Two texts by the limits of the entries. *)
Lemma inputs_two p s a b :
  lent m (fst p) (snd p) -> lent m (fst s) (snd s) ->
  a <= maxRepositoryRequestItemBytes -> b <= maxRepositoryRequestItemBytes ->
  inputs m [(p, a); (s, b)] =
  if (a <? snd p) || (b <? snd s) then None else inputs m [review_text p; review_text s].
Proof.
  intros. rewrite inputs_narrow by each. unfold beyond. cbn [existsb fst snd map compose review_text].
  by rewrite orb_false_r.
Qed.

Lemma inputs_one p a :
  lent m (fst p) (snd p) -> a <= maxRepositoryRequestItemBytes ->
  inputs m [(p, a)] = if a <? snd p then None else inputs m [review_text p].
Proof.
  intros. rewrite inputs_narrow by each. unfold beyond. cbn [existsb fst snd map compose review_text].
  by rewrite orb_false_r.
Qed.

Lemma inputs_preview limits p s b t d :
  Forall (fun f => lent m (fst f) (snd f)) [p; s; b; t; d] ->
  path_limit limits <= maxRepositoryRequestItemBytes -> token_limit limits <= maxRepositoryRequestItemBytes ->
  title_limit limits <= maxRepositoryRequestItemBytes ->
  inputs m (preview_texts limits p s b t d) =
  if (path_limit limits <? snd p) || (token_limit limits <? snd s) || (title_limit limits <? snd t)
  then None else inputs m (preview_texts header_limits p s b t d).
Proof.
  intros Hl H1 H2 H3. rewrite !Forall_cons in Hl. destruct_and! Hl.
  unfold preview_texts, delivery_texts. rewrite (inputs_narrow [(p, path_limit limits); _; _; _; _]) by each.
  rewrite (inputs_narrow [(p, path_limit header_limits); _; _; _; _]) by each.
  unfold beyond. cbn [existsb fst snd map compose header_limits path_limit token_limit title_limit].
  set (big := inputs m [review_text p; _; _; _; _]).
  unfold maxRepositoryRequestItemBytes in *.
  destruct (Z.ltb_spec (path_limit limits) (snd p)), (Z.ltb_spec (token_limit limits) (snd s)),
    (Z.ltb_spec (title_limit limits) (snd t)); cbn [orb]; rewrite ?orb_true_r; try done.
  repeat (rewrite (proj2 (Z.ltb_ge (8 * 1024 * 1024) _)) by lia). by rewrite orb_false_r.
Qed.

(** The title of a preview is its fourth text. *)
Lemma preview_title limits p s b t d path snapshot base title body :
  inputs m (preview_texts limits p s b t d) = Some [path; snapshot; base; title; body] ->
  input m (title_limit limits) t = Some title.
Proof.
  unfold inputs. destruct (_ <? _); [done|]. intros H%sequence_Some.
  apply (f_equal (.!! 3%nat)) in H. by injection H.
Qed.

Lemma inputs_token p s :
  lent m (fst p) (snd p) -> lent m (fst s) (snd s) ->
  inputs m (delivery_texts entry_limits p s []) =
  if (path_limit entry_limits <? snd p) || (token_limit entry_limits <? snd s) then None
  else inputs m (delivery_texts header_limits p s []).
Proof. intros. unfold delivery_texts. by rewrite inputs_two. Qed.

Lemma preview_five limits p s b t d texts :
  inputs m (preview_texts limits p s b t d) = Some texts ->
  exists path snapshot base title body, texts = [path; snapshot; base; title; body]
  /\ input m (title_limit limits) t = Some title.
Proof.
  intros H. pose proof (inputs_length m _ _ H) as Hl.
  destruct texts as [|path [|snapshot [|base [|title [|body [|]]]]]]; try done.
  exists path, snapshot, base, title, body. split; [done|by eapply preview_title].
Qed.

Lemma preview_asked p s b t d cb :
  Forall (fun f => lent m (fst f) (snd f)) [p; s; b; t; d] ->
  let c := delivery (repository_pr_preview p s b t d cb) in
  asked m entry_limits c =
  if beyond_entry_limits c then None
  else asked m (if long_title m c then untitled_limits else header_limits) c.
Proof.
  intros Hl. cbn [asked beyond_entry_limits long_title].
  rewrite (inputs_preview entry_limits) by (done || by vm_compute).
  destruct (_ <? snd p); [done|]. destruct (_ <? snd s); [done|]. cbn [orb].
  assert (lent m (fst t) (snd t)) as Ht by (rewrite !Forall_cons in Hl; by destruct_and! Hl).
  change (title_limit entry_limits) with (4 * 1024).
  destruct (Z.ltb_spec (4 * 1024) (snd t)) as [Hlong|Hshort].
  - rewrite input_beyond by done. destruct (inputs m _) as [texts|] eqn:E; [|done]. cbn [mbind option_bind].
    apply preview_five in E as (path & snapshot & base & title & body & -> & E).
    apply long_input in E; [|done..]. unfold title_fits. cbn [header_limits title_characters].
    by rewrite (proj2 (Z.leb_gt _ _)) by lia.
  - rewrite (input_same t (4 * 1024) (8 * 1024 * 1024)) by lia.
    assert (forall title : text, (match Some title with Some x => negb (title_fits header_limits x) | None => false end)
      = negb (title_fits header_limits title)) as Hm by done.
    destruct (inputs m (preview_texts header_limits p s b t d)) as [texts|] eqn:E.
    + pose proof E as E'. apply preview_five in E' as (path & snapshot & base & title & body & -> & Et).
      change (title_limit header_limits) with (8 * 1024 * 1024) in Et. rewrite Et.
      destruct (title_fits header_limits title) eqn:Ef; cbn [negb].
      * rewrite E. cbn [mbind option_bind]. by rewrite Ef.
      * change (preview_texts untitled_limits p s b t d) with (preview_texts header_limits p s b t d).
        by rewrite E.
    + destruct (match input m _ t with Some _ => _ | None => _ end).
      * change (preview_texts untitled_limits p s b t d) with (preview_texts header_limits p s b t d).
        by rewrite E.
      * by rewrite E.
Qed.

(** What the entries accept, by the header. *)
Lemma beyond_asked c :
  repository_lent m c ->
  asked m entry_limits c =
  if beyond_entry_limits c then None
  else asked m (if long_title m c then untitled_limits else header_limits) c.
Proof.
  intros [Hl _]. destruct c as [c|[p s c|p s c|p t c|p s b t d c|p t c]|[p c|s c|p u c]];
    [by destruct c| | | |by apply preview_asked| | | |done]; cbn [buffers] in Hl;
    rewrite !Forall_cons in Hl; destruct_and? Hl; cbn [asked beyond_entry_limits long_title].
  1-4: rewrite inputs_token by done; by destruct (_ || _).
  - rewrite (inputs_one p (path_limit entry_limits)), (inputs_one p (path_limit header_limits)) by done.
    cbn [entry_limits header_limits path_limit]. destruct (Z.ltb_spec (16 * 1024) (snd p)); [done|].
    by rewrite (proj2 (Z.ltb_ge (8 * 1024 * 1024) _)) by lia.
  - rewrite (inputs_one s (session_limit entry_limits)), (inputs_one s (session_limit header_limits)) by done.
    cbn [entry_limits header_limits session_limit]. destruct (Z.ltb_spec 1024 (snd s)); [done|].
    by rewrite (proj2 (Z.ltb_ge (8 * 1024 * 1024) _)) by lia.
Qed.

(** C34: every call of a repository function whose buffers are readable is what the header says:
    status 1 exactly when a required callback is null, else status 2 when its input is not
    valid, else a request, whose texts are valid UTF-8, not empty, and within the limits; with two
    exceptions.  Paths of more than 16 KiB, tokens of more than 4 KiB and session identifiers of
    more than 1 KiB are refused, of which the header says nothing; and the title of a pull request
    may have more than the 512 characters of the header, in up to 4 KiB. *)
Theorem repository_entries_contract c :
  repository_lent m c ->
  exists answer,
    run_repository_call m c = value answer
    /\ (beyond_entry_limits c = false -> long_title m c = false ->
         answer = repository_request_of m header_limits c)
    /\ (beyond_entry_limits c = true -> answer = inl (if null_callback c then 1 else 2))
    /\ (beyond_entry_limits c = false -> long_title m c = true ->
         answer = repository_request_of m untitled_limits c
         /\ exists status, repository_request_of m header_limits c = inl status)
    /\ match answer with
       | inl status => (status = 1 /\ 0 ∈ callbacks c) \/ (status = 2 /\ 0 ∉ callbacks c)
       | inr r => 0 ∉ callbacks c /\ repository_request_ok r
       end.
Proof.
  intros Hl. exists (repository_request_of m entry_limits c). split; [by apply run_request|].
  pose proof (beyond_asked c Hl) as Hb. unfold repository_request_of. rewrite Hb.
  split_and!.
  - by intros -> ->.
  - intros ->. by destruct (null_callback c).
  - intros -> Ht. rewrite Ht. split; [done|]. destruct (null_callback c); [by eexists|].
    destruct c as [|[]|]; try done. cbn [long_title] in Ht. cbn [asked].
    destruct (inputs m _) as [texts|] eqn:E; [|by eexists]. cbn [mbind option_bind].
    apply preview_five in E as (path' & snapshot & base' & title' & body' & -> & Et).
    destruct (input m (title_limit entry_limits) title) as [t|] eqn:Et'; [|done].
    assert (t = title') as ->.
    { assert (input m (title_limit header_limits) title = Some t) as H; [|congruence].
      rewrite <- Et'. symmetry. apply input_same; (destruct (Z.ltb_spec (4 * 1024) (snd title)) as [Hlt|Hge];
        [by rewrite input_beyond in Et'|cbn [entry_limits header_limits title_limit]; lia]). }
    apply negb_true_iff in Ht. rewrite Ht. by eexists.
  - rewrite null_callback_spec. case_bool_decide; [by left|].
    rewrite <- Hb. destruct (asked m entry_limits c) as [r|] eqn:E; [|by right]. split; [done|].
    by eapply asked_ok.
Qed.

End Accepted.

(** ** Calls that are evaluated *)

Definition demo_memory : memory :=
  <[16 := bytes_of [47; 114]]> (<[32 := bytes_of [97]]> (<[48 := bytes_of [102]]>
    (<[64 := bytes_of [3; 0; 0; 0; 0; 0; 0; 0]]> ∅))).

(** Staging of one hunk. *)
Definition demo_call : repository_call :=
  review (repository_apply_hunks (16, 2) (32, 1) 0 (48, 1) 64 1 4096).

Example demo_call_request :
  run_repository_call demo_memory demo_call
  = value (inr (ask_mutation [47; 114] [97] (StageHunks [102] [3]))).
Proof. by vm_compute. Qed.

(** A preview whose title has 513 characters: accepted, and refused by the header. *)
Definition long_title_call : repository_call :=
  delivery (repository_pr_preview (16, 2) (32, 1) (48, 1) (80, 513) (32, 1) 4096).

Example long_title_accepted :
  let m := <[80 := replicate 513 Byte.x61]> demo_memory in
  run_repository_call m long_title_call
  = value (inr (ask_pr_preview [47; 114] [97] [102] (replicate 513 97) [97]))
  /\ repository_request_of m header_limits long_title_call = inl 2.
Proof. split; by vm_compute. Qed.

Lemma repository_entries_contract_witness :
  run_repository_call demo_memory demo_call = value (repository_request_of demo_memory header_limits demo_call).
Proof.
  destruct (repository_entries_contract demo_memory demo_call) as (answer & -> & H & _).
  { assert (Hread : forall p b, demo_memory !! p = Some b -> zlen b < 2 ^ 63 ->
              lent demo_memory p (zlen b)) by (intros; by apply readable_lent, readable_whole).
    split.
    - apply Forall_cons_2; [|apply Forall_cons_2; [|apply Forall_cons_2; [|apply Forall_nil_2]]].
      + by apply (Hread 16 (bytes_of [47; 114])).
      + by apply (Hread 32 (bytes_of [97])).
      + by apply (Hread 48 (bytes_of [102])).
    - split; [lia|]. intros _. right. eexists. by split; [reflexivity|]. }
  by rewrite (H eq_refl eq_refl).
Defined.
