(* ===== verification/RepositoryOperations.v ===== *)
(** * What the repository operations deliver

    The callbacks of an accepted repository operation (RepositoryReviewBridge.hs,
    RepositoryDeliveryBridge.hs): what its worker streams, its result, and its cancellation.
    What Git and GitHub answer is a parameter ([world]).  [repository_results_conform]: the
    callbacks are what HaskellAgentBridge.h says of them, and what a host assembles from them
    is the answer; [repository_terminal_once]: on the workers of RepositoryWorkers.v, every
    operation makes at most one terminal callback, as its last. *)

From stdpp Require Import base tactics option list gmap strings.
From Stdlib Require Import ZArith Lia.
From coqutil Require Import Byte.
From S2P Require Import Prelude Utf8 AbiLayout HostCall RepositoryWorkers RepositoryCalls.
#[local] Open Scope Z_scope.

(** ** Answers *)

(** A Haskell [String]: any code points.  [Text.pack] replaces what is no scalar value. *)
Abbreviation hs_string := (list Z).

Definition Text_pack (s : hs_string) : text :=
  map (fun c => if (55296 <=? c) && (c <? 57344) then 65533 else c) s.

(** What an operation of Agent.CLI.RepositoryReview or RepositoryDelivery gives: an exception,
    shown, or [Left], or [Right]. *)
Inductive answer (E A : Type) :=
  | raised (shown : text)
  | refused (e : E)
  | obtained (a : A).
Arguments raised {E A} shown.
Arguments refused {E A} e.
Arguments obtained {E A} a.

Inductive RepositoryError :=
  | NotARepository (message : text)
  | StaleRepositorySnapshot (expected actual : text)
  | InvalidRepositoryRequest (message : text)
  | RepositoryCommandFailed (command : text) (code : Z) (message : text).

Definition repositoryErrorText (err : RepositoryError) : text :=
  match err with
  | NotARepository message | InvalidRepositoryRequest message => message
  | StaleRepositorySnapshot expected actual =>
      txt "repository changed (expected " ++ expected ++ txt ", actual " ++ actual ++ txt ")"
  | RepositoryCommandFailed command code message =>
      command ++ txt " exited " ++ show_text code
      ++ (if decide (message = []) then [] else txt ": " ++ message)
  end.

Record RepositoryFile := {
  repositoryFilePath : hs_string;
  repositoryFileOriginalPath : option hs_string;
  repositoryFileIndexStatus : Z;
  repositoryFileWorktreeStatus : Z;
}.

Record RepositorySnapshot := {
  snapshotId : text;
  snapshotRoot : hs_string;
  snapshotHead : option text;
  snapshotIndexFingerprint : text;
  snapshotWorktreeFingerprint : text;
  snapshotFiles : list RepositoryFile;
}.

Record DiffHunk := {
  hunkOldStart : Z;
  hunkOldCount : Z;
  hunkNewStart : Z;
  hunkNewCount : Z;
  hunkHeader : text;
}.

Record RepositoryDiff := {
  repositoryDiffPatch : list byte;
  repositoryDiffBinary : bool;
  repositoryDiffHunks : list DiffHunk;
}.

Inductive DeliveryError :=
  | DeliveryInvalidRequest (message : text)
  | DeliveryStale (message : text)
  | DeliveryUnavailable (message : text)
  | DeliveryCommandFailed (message : text)
  | DeliveryConfirmationRejected (message : text).

Definition deliveryErrorText (err : DeliveryError) : text :=
  match err with
  | DeliveryInvalidRequest message | DeliveryStale message | DeliveryUnavailable message
  | DeliveryCommandFailed message | DeliveryConfirmationRejected message => message
  end.

Record DeliveryStatus := {
  deliverySnapshotId : text;
  deliveryRoot : hs_string;
  deliveryHeadOid : text;
  deliveryBranch : text;
  deliveryRemote : text;
  deliveryRemoteFingerprint : text;
  deliveryUpstreamRef : text;
  deliveryUpstreamOid : text;
  deliveryAhead : Z;
  deliveryBehind : Z;
}.

(** Times are in picoseconds, as [POSIXTime] counts. *)
Record PushPreview := {
  pushPreviewStatus : DeliveryStatus;
  pushPreviewConfirmation : text;
  pushPreviewExpiresAt : Z;
}.

Record PullRequestPreview := {
  pullRequestRepository : text;
  pullRequestBaseRef : text;
  pullRequestHeadRef : text;
  pullRequestTitle : text;
  pullRequestConfirmation : text;
  pullRequestExpiresAt : Z;
}.

Record RepositoryPullRequest := {
  repositoryPullRequestNumber : Z;
  repositoryPullRequestUrl : text;
  repositoryPullRequestState : Z;
  repositoryPullRequestCI : Z;
}.

Record RepositoryPullRequestSummary := {
  pullRequestSummaryNumber : Z;
  pullRequestSummaryUrl : text;
  pullRequestSummaryRepository : text;
  pullRequestSummaryTitle : text;
  pullRequestSummaryAuthorLogin : text;
  pullRequestSummaryAuthorName : text;
  pullRequestSummaryAuthorAvatarUrl : text;
  pullRequestSummaryState : Z;
  pullRequestSummaryCI : Z;
  pullRequestSummaryAdditions : Z;
  pullRequestSummaryDeletions : Z;
  pullRequestSummaryChangedFiles : Z;
  pullRequestSummaryUpdatedAt : Z;
}.

(** What the workers find outside. *)
Record world := {
  w_snapshot : text -> answer RepositoryError RepositorySnapshot;
  w_diff : text -> text -> RepositoryDiffKind -> text -> answer RepositoryError RepositoryDiff;
  w_mutate : text -> text -> RepositoryMutation -> answer RepositoryError RepositorySnapshot;
  w_commit : text -> text -> text -> answer RepositoryError RepositorySnapshot;
  (** An exception while callbacks are streamed: after how many, and shown. *)
  w_fault : option (nat * text);
  w_delivery_status : text -> text -> answer DeliveryError DeliveryStatus;
  w_push_preview : text -> text -> answer DeliveryError PushPreview;
  w_push_confirm : text -> text -> answer DeliveryError DeliveryStatus;
  w_pr_preview : text -> text -> text -> text -> text -> answer DeliveryError PullRequestPreview;
  w_pr_confirm : text -> text -> answer DeliveryError text;
  w_pull_request : text -> answer DeliveryError (option RepositoryPullRequest);
  w_pull_request_by_url : text -> text -> answer DeliveryError RepositoryPullRequest;
  w_summary : text -> text -> answer DeliveryError RepositoryPullRequestSummary;
  (** The session's directory, once its boundary is entered; the links of the session, the
      most recent first; whether the boundary still holds. *)
  w_session_cwd : text -> answer text text;
  w_session_urls : text -> answer text (list text);
  w_session_valid : text -> answer text unit;
  (** [reads], of a whole string as an [Int]. *)
  w_reads : text -> option Z;
}.

(** ** Callbacks *)

Inductive review_callback :=
  | snapshot_callback (snapshot_id root head index_fingerprint worktree_fingerprint : text)
  | file_callback (path : text) (original_path : callback_text) (index_status worktree_status : Z)
  | diff_callback (bytes : list byte) (is_binary : Z)
  | hunk_callback (old_start old_count new_start new_count : Z) (header : text)
  | result_callback (status : Z) (snapshot_id error : callback_text).

Inductive delivery_callback :=
  | delivery_status_callback (status : Z)
      (snapshot_id head_oid branch remote upstream_ref upstream_oid : callback_text)
      (ahead behind : Z) (error : callback_text)
  | push_preview_callback (status : Z) (confirmation : callback_text) (expires_at_unix : Z)
      (head_oid branch remote upstream_ref : callback_text) (ahead behind : Z) (error : callback_text)
  | push_result_callback (status : Z) (snapshot_id pushed_oid error : callback_text)
  | pr_preview_callback (status : Z) (confirmation : callback_text) (expires_at_unix : Z)
      (repository base_ref head_ref title error : callback_text)
  | pr_result_callback (status : Z) (url error : callback_text).

(** [ha_repository_pr_status_callback]. *)
Record pr_status_callback := {
  ps_status : Z;
  ps_number : Z;
  ps_url : callback_text;
  ps_state : Z;
  ps_ci : Z;
}.

(** [ha_pull_request_summary_callback]. *)
Record pr_summary_callback := {
  sm_status : Z;
  sm_number : Z;
  sm_url : callback_text;
  sm_repository : callback_text;
  sm_title : callback_text;
  sm_author_login : callback_text;
  sm_author_name : callback_text;
  sm_author_avatar_url : callback_text;
  sm_state : Z;
  sm_ci : Z;
  sm_additions : Z;
  sm_deletions : Z;
  sm_changed_files : Z;
  sm_updated_at_unix : Z;
}.

Inductive repository_callback :=
  | on_review (c : review_callback)
  | on_delivery (c : delivery_callback)
  | on_pr_status (c : pr_status_callback)
  | on_pr_summary (c : pr_summary_callback).

(** ** Review operations *)

Definition emitRepositorySuccess (snapshotId : text) : repository_callback :=
  on_review (result_callback 0 (Some snapshotId) None).

Definition emitRepositoryFailure (message : text) : repository_callback :=
  on_review (result_callback (-1) None (Some message)).

Definition emitRepositoryCancelled : repository_callback :=
  on_review (result_callback (-3) None (Some (txt "cancelled"))).

Definition emitRepositoryError (err : RepositoryError) : repository_callback :=
  match err with
  | StaleRepositorySnapshot _ actual =>
      on_review (result_callback (-2) (Some actual) (Some (repositoryErrorText err)))
  | _ => emitRepositoryFailure (repositoryErrorText err)
  end.

(** [byteStringChunks], with the number of chunks at most the number of bytes. *)
Fixpoint byteStringChunks (fuel : nat) (size : Z) (bytes : list byte) : list (list byte) :=
  match fuel, bytes with
  | S fuel, _ :: _ => ztake size bytes :: byteStringChunks fuel size (zdrop size bytes)
  | _, _ => []
  end.

Definition snapshot_stream (s : RepositorySnapshot) : list review_callback :=
  snapshot_callback (snapshotId s) (Text_pack (snapshotRoot s)) (default [] (snapshotHead s))
    (snapshotIndexFingerprint s) (snapshotWorktreeFingerprint s)
  :: map (fun file =>
       file_callback (Text_pack (repositoryFilePath file))
         (Text_pack <$> repositoryFileOriginalPath file)
         (i32 (repositoryFileIndexStatus file)) (i32 (repositoryFileWorktreeStatus file)))
     (snapshotFiles s).

Definition diff_stream (d : RepositoryDiff) : list review_callback :=
  map (fun chunk => diff_callback chunk (if repositoryDiffBinary d then 1 else 0))
    (byteStringChunks (length (repositoryDiffPatch d)) (64 * 1024) (repositoryDiffPatch d))
  ++ map (fun hunk =>
       hunk_callback (hunkOldStart hunk) (hunkOldCount hunk) (hunkNewStart hunk)
         (hunkNewCount hunk) (hunkHeader hunk))
     (repositoryDiffHunks d).

(** A worker that streams an answer and then reports it: an exception stops the stream. *)
Definition streaming {A} (w : world) (a : answer RepositoryError A) (stream : A -> list review_callback)
    (success : A -> text) : operation repository_callback :=
  match a with
  | raised shown =>
      Build_operation [] [direct (emitRepositoryFailure shown)] [direct emitRepositoryCancelled]
  | refused err =>
      Build_operation [] [direct (emitRepositoryError err)] [direct emitRepositoryCancelled]
  | obtained v =>
      match w_fault w with
      | Some (n, shown) =>
          Build_operation (map on_review (take n (stream v)))
            [direct (emitRepositoryFailure shown)] [direct emitRepositoryCancelled]
      | None =>
          Build_operation (map on_review (stream v))
            [direct (emitRepositorySuccess (success v))] [direct emitRepositoryCancelled]
      end
  end.

Definition prepareRepositoryResult (a : answer RepositoryError RepositorySnapshot)
    : operation repository_callback :=
  Build_operation []
    [direct (match a with
             | raised shown => emitRepositoryFailure shown
             | refused err => emitRepositoryError err
             | obtained snapshot => emitRepositorySuccess (snapshotId snapshot)
             end)]
    [direct emitRepositoryCancelled].

(** ** Delivery operations *)

Definition deliveryErrorStatus (err : DeliveryError) : Z :=
  match err with
  | DeliveryStale _ => -2
  | DeliveryConfirmationRejected _ => -4
  | _ => -1
  end.

Definition prepareDeliveryResult {A} (a : answer DeliveryError A)
    (unexpectedFailure : repository_callback) (knownFailure : Z -> text -> repository_callback)
    (success : A -> repository_callback) : list (emission repository_callback) :=
  [once (match a with
         | raised _ => unexpectedFailure
         | refused err => knownFailure (deliveryErrorStatus err) (deliveryErrorText err)
         | obtained v => success v
         end)].

(** An operation of one callback, behind [emitDeliveryOnce]. *)
Definition delivering {A} (a : answer DeliveryError A) (failure : Z -> text -> repository_callback)
    (cancelled unexpected : text) (success : A -> repository_callback)
    : operation repository_callback :=
  Build_operation [] (prepareDeliveryResult a (failure (-1) unexpected) failure success)
    [once (failure (-3) cancelled)].

Definition emitDeliveryStatus (status : DeliveryStatus) : repository_callback :=
  on_delivery (delivery_status_callback 0
    (Some (deliverySnapshotId status)) (Some (deliveryHeadOid status))
    (Some (deliveryBranch status)) (Some (deliveryRemote status))
    (Some (deliveryUpstreamRef status)) (Some (deliveryUpstreamOid status))
    (deliveryAhead status) (deliveryBehind status) None).

Definition emitDeliveryStatusFailure (status : Z) (message : text) : repository_callback :=
  on_delivery (delivery_status_callback status None None None None None None 0 0 (Some message)).

(** [floor] of a time, in seconds. *)
Definition floor_seconds (t : Z) : Z := i64_wrap (t / 10 ^ 12).

Definition emitPushPreview (preview : PushPreview) : repository_callback :=
  let status := pushPreviewStatus preview in
  on_delivery (push_preview_callback 0 (Some (pushPreviewConfirmation preview))
    (floor_seconds (pushPreviewExpiresAt preview))
    (Some (deliveryHeadOid status)) (Some (deliveryBranch status)) (Some (deliveryRemote status))
    (Some (deliveryUpstreamRef status)) (deliveryAhead status) (deliveryBehind status) None).

Definition emitPushPreviewFailure (status : Z) (message : text) : repository_callback :=
  on_delivery (push_preview_callback status None 0 None None None None 0 0 (Some message)).

Definition emitPushResult (status : DeliveryStatus) : repository_callback :=
  on_delivery (push_result_callback 0 (Some (deliverySnapshotId status))
    (Some (deliveryHeadOid status)) None).

Definition emitPushResultFailure (status : Z) (message : text) : repository_callback :=
  on_delivery (push_result_callback status None None (Some message)).

Definition emitPullRequestPreview (preview : PullRequestPreview) : repository_callback :=
  on_delivery (pr_preview_callback 0 (Some (pullRequestConfirmation preview))
    (floor_seconds (pullRequestExpiresAt preview))
    (Some (pullRequestRepository preview)) (Some (pullRequestBaseRef preview))
    (Some (pullRequestHeadRef preview)) (Some (pullRequestTitle preview)) None).

Definition emitPullRequestPreviewFailure (status : Z) (message : text) : repository_callback :=
  on_delivery (pr_preview_callback status None 0 None None None None (Some message)).

Definition emitPullRequestResult (url : text) : repository_callback :=
  on_delivery (pr_result_callback 0 (Some url) None).

Definition emitPullRequestResultFailure (status : Z) (message : text) : repository_callback :=
  on_delivery (pr_result_callback status None (Some message)).

(** ** Pull requests *)

Definition empty_pr_status (status : Z) : repository_callback :=
  on_pr_status (Build_pr_status_callback status 0 None 0 0).

Definition emit_pr_status (pr : RepositoryPullRequest) : repository_callback :=
  on_pr_status (Build_pr_status_callback 0 (repositoryPullRequestNumber pr)
    (Some (repositoryPullRequestUrl pr)) (i32 (repositoryPullRequestState pr))
    (i32 (repositoryPullRequestCI pr))).

Definition empty_summary (status : Z) : repository_callback :=
  on_pr_summary (Build_pr_summary_callback status 0 None None None None None None 0 0 0 0 0 0).

Definition emit_summary (s : RepositoryPullRequestSummary) : repository_callback :=
  on_pr_summary (Build_pr_summary_callback 0 (pullRequestSummaryNumber s)
    (Some (pullRequestSummaryUrl s)) (Some (pullRequestSummaryRepository s))
    (Some (pullRequestSummaryTitle s)) (Some (pullRequestSummaryAuthorLogin s))
    (Some (pullRequestSummaryAuthorName s)) (Some (pullRequestSummaryAuthorAvatarUrl s))
    (i32 (pullRequestSummaryState s)) (i32 (pullRequestSummaryCI s))
    (pullRequestSummaryAdditions s) (pullRequestSummaryDeletions s)
    (pullRequestSummaryChangedFiles s) (pullRequestSummaryUpdatedAt s)).

(** [Text.takeWhileEnd (/= '/')]. *)
Fixpoint take_to_slash (l : text) : text :=
  match l with
  | c :: l => if c =? 47 then [] else c :: take_to_slash l
  | [] => []
  end.

Definition last_component (url : text) : text := reverse (take_to_slash (reverse url)).

Definition resolve (w : world) (directory url : text) : option RepositoryPullRequest :=
  match w_pull_request_by_url w directory url with
  | raised _ => None
  | obtained pr => Some pr
  | refused _ =>
      Some (Build_RepositoryPullRequest (default 0 (w_reads w (last_component url))) url 0 0)
  end.

Definition get {E A} (a : answer E A) : option A :=
  match a with obtained v => Some v | _ => None end.

(** The pull requests of a session; [None] when anything failed. *)
Definition session_pull_requests (w : world) (session : text) : option (list RepositoryPullRequest) :=
  cwd ← get (w_session_cwd w session);
  urls ← get (w_session_urls w session);
  prs ← match urls with
        | [] => option_list <$> get (w_pull_request w cwd)
        | _ => sequence (map (resolve w cwd) (take 20 urls))
        end;
  _ ← get (w_session_valid w session);
  Some prs.

Definition session_operation (w : world) (session : text) : operation repository_callback :=
  Build_operation []
    (match session_pull_requests w session with
     | Some prs => map direct (map emit_pr_status prs) ++ [once (empty_pr_status 1)]
     | None => [once (empty_pr_status (-1))]
     end)
    [once (empty_pr_status (-3))].

(** ** The operation of a request *)

Definition operation_of (w : world) (r : repository_request) : operation repository_callback :=
  match r with
  | ask_snapshot path => streaming w (w_snapshot w path) snapshot_stream snapshotId
  | ask_diff path expected kind file =>
      streaming w (w_diff w path expected kind file) diff_stream (fun _ => expected)
  | ask_mutation path expected mutation =>
      prepareRepositoryResult (w_mutate w path expected mutation)
  | ask_commit path expected message => prepareRepositoryResult (w_commit w path expected message)
  | ask_delivery_status path snapshot =>
      delivering (w_delivery_status w path snapshot) emitDeliveryStatusFailure
        (txt "repository delivery was cancelled") (txt "repository delivery failed")
        emitDeliveryStatus
  | ask_push_preview path snapshot =>
      delivering (w_push_preview w path snapshot) emitPushPreviewFailure
        (txt "repository push preview was cancelled") (txt "repository push preview failed")
        emitPushPreview
  | ask_push_confirm path token =>
      delivering (w_push_confirm w path token) emitPushResultFailure
        (txt "repository push was cancelled") (txt "repository push failed") emitPushResult
  | ask_pr_preview path snapshot base title body =>
      delivering (w_pr_preview w path snapshot base title body) emitPullRequestPreviewFailure
        (txt "pull-request preview was cancelled") (txt "pull-request preview failed")
        emitPullRequestPreview
  | ask_pr_confirm path token =>
      delivering (w_pr_confirm w path token) emitPullRequestResultFailure
        (txt "pull-request creation was cancelled") (txt "pull-request creation failed")
        emitPullRequestResult
  | ask_pr_status path =>
      Build_operation []
        (prepareDeliveryResult (w_pull_request w path) (empty_pr_status (-1))
           (fun _ _ => empty_pr_status (-1))
           (fun pr => match pr with Some pr => emit_pr_status pr | None => empty_pr_status 1 end))
        [once (empty_pr_status (-3))]
  | ask_session_pr_status session => session_operation w session
  | ask_pr_summary path url =>
      Build_operation []
        (prepareDeliveryResult (w_summary w path url) (empty_summary (-1))
           (fun _ _ => empty_summary (-1)) emit_summary)
        [once (empty_summary (-3))]
  end.

(** The status of a call, and the worker that it starts. *)
Definition repository_entry (m : memory) (w : world) (c : repository_call)
    (s : group repository_callback) : outcome (Z * group repository_callback) :=
  result ← run_repository_call m c;
  value (match result with
         | inl status => (status, s)
         | inr r =>
             let '(started, s') := startRepositoryWorker (operation_of w r) s in
             (if started then 0 else 3, s')
         end).

(** ** What the header says of the callbacks *)

(** "Success and stale results populate snapshot_id; failures populate error." *)
Definition review_result_ok (status : Z) (snapshot_id error : callback_text) : Prop :=
  (status = 0 /\ is_Some snapshot_id /\ error = None)
  \/ (status = -2 /\ is_Some snapshot_id)
  \/ ((status = -1 \/ status = -3) /\ snapshot_id = None /\ is_Some error).

(** "Status is 0 for success, -1 for failure, -2 for stale state, -3 for cancellation, and -4
    for an invalid/expired/already-used confirmation": with its texts, or with an error. *)
Definition delivery_ok (status : Z) (texts : list callback_text) (numbers : list Z)
    (error : callback_text) : Prop :=
  (status = 0 /\ Forall is_Some texts /\ error = None)
  \/ (status ∈ [-1; -2; -3; -4] /\ Forall (eq None) texts /\ Forall (eq 0) numbers /\ is_Some error).

(** "Number/url are populated only for status 0"; the statuses without them. *)
Definition pr_status_ok (blank : list Z) (c : pr_status_callback) : Prop :=
  (ps_status c = 0 /\ is_Some (ps_url c))
  \/ (ps_status c ∈ blank /\ ps_number c = 0 /\ ps_url c = None /\ ps_state c = 0 /\ ps_ci c = 0).

(** "Every field is zero or NULL unless status is 0." *)
Definition summary_ok (c : pr_summary_callback) : Prop :=
  let texts := [sm_url c; sm_repository c; sm_title c; sm_author_login c; sm_author_name c;
                sm_author_avatar_url c] in
  (sm_status c = 0 /\ Forall is_Some texts)
  \/ (sm_status c ∈ [-1; -3] /\ Forall (eq None) texts
      /\ Forall (eq 0) [sm_number c; sm_state c; sm_ci c; sm_additions c; sm_deletions c;
                        sm_changed_files c; sm_updated_at_unix c]).

(** The terminal callback of a request, and its status. *)
Definition terminal (r : repository_request) (c : repository_callback) : option Z :=
  match c with
  | on_review (result_callback st _ _) => Some st
  | on_review _ => None
  | on_delivery (delivery_status_callback st _ _ _ _ _ _ _ _ _)
  | on_delivery (push_preview_callback st _ _ _ _ _ _ _ _ _)
  | on_delivery (push_result_callback st _ _ _)
  | on_delivery (pr_preview_callback st _ _ _ _ _ _ _)
  | on_delivery (pr_result_callback st _ _) => Some st
  | on_pr_status c =>
      match r with
      | ask_session_pr_status _ => if ps_status c =? 0 then None else Some (ps_status c)
      | _ => Some (ps_status c)
      end
  | on_pr_summary c => Some (sm_status c)
  end.

Definition terminal_ok (r : repository_request) (c : repository_callback) : Prop :=
  match r, c with
  | (ask_snapshot _ | ask_diff _ _ _ _ | ask_mutation _ _ _ | ask_commit _ _ _),
    on_review (result_callback st id err) => review_result_ok st id err
  | ask_delivery_status _ _, on_delivery (delivery_status_callback st a b c d e f x y err) =>
      delivery_ok st [a; b; c; d; e; f] [x; y] err
  | ask_push_preview _ _, on_delivery (push_preview_callback st a t b c d e x y err) =>
      delivery_ok st [a; b; c; d; e] [t; x; y] err
  | ask_push_confirm _ _, on_delivery (push_result_callback st a b err) =>
      delivery_ok st [a; b] [] err
  | ask_pr_preview _ _ _ _ _, on_delivery (pr_preview_callback st a t b c d e err) =>
      delivery_ok st [a; b; c; d; e] [t] err
  | ask_pr_confirm _ _, on_delivery (pr_result_callback st a err) => delivery_ok st [a] [] err
  | ask_pr_status _, on_pr_status c => pr_status_ok [1; -1; -3] c
  | ask_session_pr_status _, on_pr_status c => pr_status_ok [1; -1; -3] c /\ ps_status c <> 0
  | ask_pr_summary _ _, on_pr_summary c => summary_ok c
  | _, _ => False
  end.

(** A callback before the terminal one. *)
Definition item_ok (r : repository_request) (c : repository_callback) : Prop :=
  match r, c with
  | ask_snapshot _, on_review (snapshot_callback _ _ _ _ _ | file_callback _ _ _ _) => True
  | ask_diff _ _ _ _, on_review (diff_callback b f) =>
      0 < zlen b <= 64 * 1024 /\ (f = 0 \/ f = 1)
  | ask_diff _ _ _ _, on_review (hunk_callback _ _ _ _ _) => True
  | ask_session_pr_status _, on_pr_status c => ps_status c = 0 /\ is_Some (ps_url c)
  | _, _ => False
  end.

(** *** What a host assembles *)

Record host_file := {
  hf_path : text;
  hf_original_path : callback_text;
  hf_index_status : Z;
  hf_worktree_status : Z;
}.

Fixpoint received_files (l : list repository_callback) : option (list host_file) :=
  match l with
  | [] => Some []
  | on_review (file_callback path original index worktree) :: l =>
      cons (Build_host_file path original index worktree) <$> received_files l
  | _ => None
  end.

(** A snapshot: its identifier, root, HEAD and fingerprints, and its files. *)
Definition received_snapshot (l : list repository_callback)
    : option (text * text * text * text * text * list host_file) :=
  match l with
  | on_review (snapshot_callback id root head index worktree) :: l =>
      (fun files => (id, root, head, index, worktree, files)) <$> received_files l
  | _ => None
  end.

Fixpoint received_hunks (l : list repository_callback) : option (list DiffHunk) :=
  match l with
  | [] => Some []
  | on_review (hunk_callback a b c d header) :: l =>
      cons (Build_DiffHunk a b c d header) <$> received_hunks l
  | _ => None
  end.

(** A diff: its patch, and its hunks. *)
Fixpoint received_diff (l : list repository_callback) : option (list byte * list DiffHunk) :=
  match l with
  | on_review (diff_callback chunk _) :: l =>
      (fun '(patch, hunks) => (chunk ++ patch, hunks)) <$> received_diff l
  | l => pair [] <$> received_hunks l
  end.

Definition file_view (f : RepositoryFile) : host_file :=
  Build_host_file (Text_pack (repositoryFilePath f)) (Text_pack <$> repositoryFileOriginalPath f)
    (repositoryFileIndexStatus f) (repositoryFileWorktreeStatus f).

(** The status characters of Git are bytes. *)
Definition statuses_ok (s : RepositorySnapshot) : Prop :=
  Forall (fun f => 0 <= repositoryFileIndexStatus f < 256 /\ 0 <= repositoryFileWorktreeStatus f < 256)
    (snapshotFiles s).

(** ** Shapes *)

Lemma byteStringChunks_sizes fuel size b :
  0 < size -> Forall (fun c => 0 < zlen c <= size) (byteStringChunks fuel size b).
Proof.
  intros Hs. revert b. induction fuel as [|fuel IH]; intros b; [constructor|].
  destruct b as [|x b]; [constructor|]. cbn [byteStringChunks]. constructor; [|apply IH].
  unfold ztake. rewrite length_take. cbn [length]. lia.
Qed.

Lemma byteStringChunks_concat fuel size b :
  0 < size -> (length b <= fuel)%nat -> concat (byteStringChunks fuel size b) = b.
Proof.
  intros Hs. revert b. induction fuel as [|fuel IH]; intros b Hb.
  - by destruct b; [|cbn in Hb; lia].
  - destruct b as [|x b]; [done|]. cbn [byteStringChunks concat]. rewrite IH.
    + apply ztake_zdrop.
    + unfold zdrop. rewrite length_drop. cbn [length] in *. lia.
Qed.

Lemma received_hunks_map l :
  received_hunks (map (fun h => on_review (hunk_callback (hunkOldStart h) (hunkOldCount h)
    (hunkNewStart h) (hunkNewCount h) (hunkHeader h))) l) = Some l.
Proof. induction l as [|[] l IH]; [done|]. cbn in *. by rewrite IH. Qed.

Lemma received_diff_stream d :
  received_diff (map on_review (diff_stream d)) = Some (repositoryDiffPatch d, repositoryDiffHunks d).
Proof.
  unfold diff_stream. rewrite map_app, !map_map.
  set (hunks := map _ (repositoryDiffHunks d)).
  assert (Hh : received_diff hunks = Some ([], repositoryDiffHunks d)).
  { transitivity (pair (A := list byte) [] <$> received_hunks hunks).
    - unfold hunks. by destruct (repositoryDiffHunks d).
    - unfold hunks. by rewrite received_hunks_map. }
  assert (Hc : forall f l, received_diff (map (fun c => on_review (diff_callback c f)) l ++ hunks)
                = Some (concat l, repositoryDiffHunks d)).
  { intros f l. induction l as [|c l IH]; [exact Hh|].
    cbn [map app received_diff concat]. by rewrite IH. }
  rewrite Hc, byteStringChunks_concat by lia. done.
Qed.

Lemma received_snapshot_stream s :
  statuses_ok s ->
  received_snapshot (map on_review (snapshot_stream s))
  = Some (snapshotId s, Text_pack (snapshotRoot s), default [] (snapshotHead s),
          snapshotIndexFingerprint s, snapshotWorktreeFingerprint s, map file_view (snapshotFiles s)).
Proof.
  unfold statuses_ok, snapshot_stream. intros Hf. cbn. rewrite map_map.
  induction Hf as [|f l [H1 H2] _ IH]; [done|]. cbn.
  destruct (received_files _) as [files|]; [|done]. injection IH as ->. cbn.
  rewrite !i32_id by (unfold is_i32; lia). done.
Qed.

(** What is needed of the operation of a request: the callbacks that its complete runs end
    with. *)
Record shape (r : repository_request) (op : operation repository_callback) : Prop := {
  shape_stream : Forall (fun c => item_ok r c /\ terminal r c = None) (op_stream op);
  shape_result : exists items t st,
    emitted false (op_result op) = items ++ [t] /\ zlen items <= 20
    /\ Forall (fun c => item_ok r c /\ terminal r c = None) items
    /\ terminal r t = Some st /\ terminal_ok r t /\ st <> -3;
  shape_cancelled : exists t,
    emitted false (op_cancelled op) = [t] /\ terminal r t = Some (-3) /\ terminal_ok r t;
}.

Lemma review_failure_ok status message :
  status = -1 \/ status = -3 -> review_result_ok status None (Some message).
Proof. intros H. right. right. by repeat split. Qed.

Lemma success_ok id : review_result_ok 0 (Some id) None.
Proof. left. by repeat split. Qed.

Lemma stale_ok id e : review_result_ok (-2) (Some id) e.
Proof. right. left. by split. Qed.

Lemma review_stale err :
  exists st id e, emitRepositoryError err = on_review (result_callback st id e)
    /\ review_result_ok st id e /\ st <> -3.
Proof.
  destruct err as [m|x y|m|x y m].
  2: { eexists _, _, _. split; [reflexivity|]. by split; [apply stale_ok|]. }
  all: eexists _, _, _; split; [reflexivity|]; by split; [apply review_failure_ok; left|].
Qed.

(** A worker whose result is one callback. *)
Lemma one_callback r stream c (emit : repository_callback -> emission repository_callback)
    t st cancelled :
  (forall c, emitted false [emit c] = [c]) ->
  Forall (fun c => item_ok r c /\ terminal r c = None) stream ->
  c = t -> terminal r t = Some st -> terminal_ok r t -> st <> -3 ->
  terminal r cancelled = Some (-3) -> terminal_ok r cancelled ->
  shape r (Build_operation stream [emit c] [emit cancelled]).
Proof.
  intros He Hs -> Ht Hok Hst Hc Hcok. split; cbn [op_stream op_result op_cancelled].
  - done.
  - exists [], t, st. rewrite He. split; [done|]. split; [cbn; lia|].
    by split; [constructor|].
  - exists cancelled. by rewrite He.
Qed.

Definition is_review (r : repository_request) : bool :=
  match r with
  | ask_snapshot _ | ask_diff _ _ _ _ | ask_mutation _ _ _ | ask_commit _ _ _ => true
  | _ => false
  end.

(** A review operation: any stream of items, and a result callback. *)
Lemma review_shape r stream st id e :
  is_review r = true -> Forall (fun c => item_ok r c /\ terminal r c = None) stream ->
  review_result_ok st id e -> st <> -3 ->
  shape r (Build_operation stream [direct (on_review (result_callback st id e))]
             [direct emitRepositoryCancelled]).
Proof.
  intros Hr Hs Hok Hst. eapply one_callback; [done|done|reflexivity|reflexivity|by destruct r|done|done|].
  pose proof (review_failure_ok (-3) (txt "cancelled") (or_intror eq_refl)).
  by destruct r.
Qed.

Lemma review_error_shape r stream err :
  is_review r = true -> Forall (fun c => item_ok r c /\ terminal r c = None) stream ->
  shape r (Build_operation stream [direct (emitRepositoryError err)] [direct emitRepositoryCancelled]).
Proof.
  intros Hr Hs. destruct (review_stale err) as (st & id & e & -> & Hok & Hst). by apply review_shape.
Qed.

Lemma streaming_shape {A} r w (a : answer RepositoryError A) stream success :
  is_review r = true ->
  (forall v, Forall (fun c => item_ok r (on_review c) /\ terminal r (on_review c) = None) (stream v)) ->
  shape r (streaming w a stream success).
Proof.
  intros Hr Hs. unfold streaming. destruct a as [shown|err|v].
  - apply review_shape; [done|constructor|by apply review_failure_ok; left|done].
  - by apply review_error_shape.
  - destruct (w_fault w) as [[n shown]|]; (apply review_shape; [done| |(by apply review_failure_ok; left) || apply success_ok|done]).
    + apply Forall_map. by apply Forall_take.
    + by apply Forall_map.
Qed.

Lemma prepared_shape r a : is_review r = true -> shape r (prepareRepositoryResult a).
Proof.
  intros Hr. unfold prepareRepositoryResult. destruct a as [shown|err|v].
  - apply review_shape; [done|constructor|by apply review_failure_ok; left|done].
  - by apply review_error_shape.
  - apply review_shape; [done|constructor|apply success_ok|done].
Qed.

Lemma snapshot_items path s :
  Forall (fun c => item_ok (ask_snapshot path) (on_review c) /\ terminal (ask_snapshot path) (on_review c) = None)
    (snapshot_stream s).
Proof. constructor; [done|]. apply Forall_map, Forall_true. by intros f. Qed.

Lemma diff_items path expected kind file d :
  Forall (fun c => item_ok (ask_diff path expected kind file) (on_review c)
                   /\ terminal (ask_diff path expected kind file) (on_review c) = None) (diff_stream d).
Proof.
  unfold diff_stream. apply Forall_app. split; apply Forall_map.
  - eapply Forall_impl; [apply (byteStringChunks_sizes _ (64 * 1024)); lia|]. intros c Hc. cbn in *.
    split; [|done]. split; [done|]. destruct (repositoryDiffBinary d); auto.
  - apply Forall_true. by intros h.
Qed.

Lemma error_status err : deliveryErrorStatus err ∈ [-1; -2; -3; -4] /\ deliveryErrorStatus err <> -3.
Proof. split; [|by destruct err]. destruct err; set_solver. Qed.

(** A delivery operation: its failures and its success are the callbacks of the request. *)
Lemma delivering_shape {A} r (a : answer DeliveryError A) failure cancelled unexpected success :
  (forall st message, st ∈ [-1; -2; -3; -4] ->
     terminal r (failure st message) = Some st /\ terminal_ok r (failure st message)) ->
  (forall v, terminal r (success v) = Some 0 /\ terminal_ok r (success v)) ->
  shape r (delivering a failure cancelled unexpected success).
Proof.
  intros Hf Hs. unfold delivering, prepareDeliveryResult.
  destruct (Hf (-3) cancelled ltac:(set_solver)) as [Hc Hcok].
  destruct a as [shown|err|v].
  - destruct (Hf (-1) unexpected ltac:(set_solver)).
    by eapply (one_callback _ _ _ once); [done|constructor|reflexivity|..].
  - destruct (error_status err) as [He Hne]. destruct (Hf _ (deliveryErrorText err) He).
    by eapply (one_callback _ _ _ once); [done|constructor|reflexivity|..].
  - destruct (Hs v). by eapply (one_callback _ _ _ once); [done|constructor|reflexivity|..].
Qed.

(** A delivery callback with an error, or with its texts. *)
Lemma delivery_failure_ok st texts numbers message :
  st ∈ [-1; -2; -3; -4] -> Forall (eq None) texts -> Forall (eq 0) numbers ->
  delivery_ok st texts numbers (Some message).
Proof. intros. right. by repeat split. Qed.

Lemma delivery_success_ok texts numbers :
  Forall is_Some texts -> delivery_ok 0 texts numbers None.
Proof. by left. Qed.

Lemma session_urls_bound w session prs :
  session_pull_requests w session = Some prs -> zlen prs <= 20.
Proof.
  unfold session_pull_requests. intros (cwd & _ & (urls & _ & (l & Hl & (u & _ & [= <-])%bind_Some)%bind_Some)%bind_Some)%bind_Some.
  destruct urls as [|url urls].
  - apply fmap_Some in Hl as (o & _ & ->). by destruct o.
  - apply sequence_Some, (f_equal length) in Hl. rewrite length_fmap, length_map, length_take in Hl. lia.
Qed.

Lemma emitted_direct b l t :
  emitted b (map direct l ++ t) = l ++ emitted (callback := repository_callback) b t.
Proof. induction l as [|c l IH]; [done|]. cbn. by rewrite IH. Qed.

(** A pull-request operation: no stream, and what its answer gives behind [emitDeliveryOnce]. *)
Lemma pull_request_shape {A} r (a : answer DeliveryError A) blank (success : A -> repository_callback) :
  (forall st, st = -1 \/ st = -3 -> terminal r (blank st) = Some st /\ terminal_ok r (blank st)) ->
  (forall v, exists st, terminal r (success v) = Some st /\ terminal_ok r (success v) /\ st <> -3) ->
  shape r (Build_operation []
             (prepareDeliveryResult a (blank (-1)) (fun _ _ => blank (-1)) success) [once (blank (-3))]).
Proof.
  intros Hb Hs. destruct (Hb (-3) (or_intror eq_refl)) as [Hc Hcok].
  destruct (Hb (-1) (or_introl eq_refl)) as [Hf Hfok]. unfold prepareDeliveryResult.
  destruct a as [shown|err|v].
  - by eapply (one_callback _ _ _ once); [done|constructor|reflexivity|..].
  - by eapply (one_callback _ _ _ once); [done|constructor|reflexivity|..].
  - destruct (Hs v) as (st & ? & ? & ?).
    by eapply (one_callback _ _ _ once); [done|constructor|reflexivity|..].
Qed.

Lemma blank_pr_status st :
  st ∈ [1; -1; -3] -> pr_status_ok [1; -1; -3] (Build_pr_status_callback st 0 None 0 0).
Proof. by right. Qed.

Lemma blank_summary st :
  st = -1 \/ st = -3 ->
  summary_ok (Build_pr_summary_callback st 0 None None None None None None 0 0 0 0 0 0).
Proof. intros H. right. split; [destruct H; set_solver|]. split; each. Qed.

Lemma session_shape w session : shape (ask_session_pr_status session) (session_operation w session).
Proof.
  unfold session_operation. split; cbn [op_stream op_result op_cancelled]; [done| |].
  - destruct (session_pull_requests w session) as [prs|] eqn:E.
    + exists (map emit_pr_status prs), (empty_pr_status 1), 1.
      split; [apply emitted_direct|]. split; [rewrite length_map; by eapply session_urls_bound|].
      split; [apply Forall_map, Forall_true; intros pr; by repeat split|].
      split; [done|]. split; [|done]. split; [apply blank_pr_status; set_solver|done].
    + exists [], (empty_pr_status (-1)), (-1). do 4 (split; [done|]). split; [|done].
      split; [apply blank_pr_status; set_solver|done].
  - exists (empty_pr_status (-3)). do 2 (split; [done|]). split; [apply blank_pr_status; set_solver|done].
Qed.

Lemma operation_shape w r : shape r (operation_of w r).
Proof.
  destruct r as [path|path expected kind file|path expected mutation|path expected message
    |path snapshot|path snapshot|path token|path snapshot base title body|path token|path|session
    |path url]; cbn [operation_of].
  - apply streaming_shape; [done|]. apply snapshot_items.
  - apply streaming_shape; [done|]. apply diff_items.
  - by apply prepared_shape.
  - by apply prepared_shape.
  - apply delivering_shape; [intros st message Hst|intros v]; (split; [done|]).
    + apply delivery_failure_ok; [done|each..].
    + apply delivery_success_ok. each.
  - apply delivering_shape; [intros st message Hst|intros v]; (split; [done|]).
    + apply delivery_failure_ok; [done|each..].
    + apply delivery_success_ok. each.
  - apply delivering_shape; [intros st message Hst|intros v]; (split; [done|]).
    + apply delivery_failure_ok; [done|each..].
    + apply delivery_success_ok. each.
  - apply delivering_shape; [intros st message Hst|intros v]; (split; [done|]).
    + apply delivery_failure_ok; [done|each..].
    + apply delivery_success_ok. each.
  - apply delivering_shape; [intros st message Hst|intros v]; (split; [done|]).
    + apply delivery_failure_ok; [done|each..].
    + apply delivery_success_ok. each.
  - apply pull_request_shape.
    + intros st Hst. split; [done|]. apply blank_pr_status. destruct Hst; set_solver.
    + intros [pr|].
      * exists 0. split; [done|]. split; [|done]. left. by split.
      * exists 1. split; [done|]. split; [|done]. apply blank_pr_status. set_solver.
  - apply session_shape.
  - apply pull_request_shape.
    + intros st Hst. split; [done|]. by apply blank_summary.
    + intros v. exists 0. split; [done|]. split; [|done]. left. split; [done|]. each.
Qed.

(** ** Theorems *)

(** For every request and whatever the world answers, the stream is of callbacks that the
    header allows there (a patch in chunks of 1 to 64 KiB), the result is at most 20 items and
    one terminal callback of the request's type, filled in as its status demands and not with
    the status of a cancellation, and the cancellation is one terminal callback of status -3.
    A host that assembles the callbacks of a successful snapshot or diff has the snapshot's
    fields and files, or the whole patch and its hunks, in order. *)
Theorem repository_results_conform w r :
  shape r (operation_of w r)
  /\ match r with
     | ask_snapshot path =>
         forall s, w_snapshot w path = obtained s -> w_fault w = None -> statuses_ok s ->
         received_snapshot (op_stream (operation_of w r))
         = Some (snapshotId s, Text_pack (snapshotRoot s), default [] (snapshotHead s),
                 snapshotIndexFingerprint s, snapshotWorktreeFingerprint s,
                 map file_view (snapshotFiles s))
     | ask_diff path expected kind file =>
         forall d, w_diff w path expected kind file = obtained d -> w_fault w = None ->
         received_diff (op_stream (operation_of w r))
         = Some (repositoryDiffPatch d, repositoryDiffHunks d)
     | _ => op_stream (operation_of w r) = []
     end.
Proof.
  split; [apply operation_shape|]. destruct r; try done; cbn [operation_of]; unfold streaming.
  - intros s -> -> Hs. by apply received_snapshot_stream.
  - intros d -> ->. apply received_diff_stream.
Qed.

(** The beginning of a run that ends with its terminal callback. *)
Lemma prefix_terminal (l items : list repository_callback) t :
  l `prefix_of` items ++ [t] ->
  exists items' last, l = items' ++ option_list last /\ items' `prefix_of` items
    /\ (last = None \/ last = Some t).
Proof.
  intros [k Hk]. destruct k as [|x k _] using rev_ind.
  - rewrite app_nil_r in Hk. exists items, (Some t). split; [done|]. split; [done|by right].
  - rewrite app_assoc in Hk. apply app_inj_tail in Hk as [-> _]. exists l, None.
    split; [by rewrite app_nil_r|]. split; [by apply prefix_app_r|by left].
Qed.

Definition items_ok (r : repository_request) (l : list repository_callback) : Prop :=
  Forall (fun c => item_ok r c /\ terminal r c = None) l.

(** The complete runs of an operation: items, and a terminal callback. *)
Lemma complete_shape r op interrupted full :
  shape r op -> complete op interrupted full ->
  exists items t st, full = items ++ [t] /\ items_ok r items /\ terminal r t = Some st
    /\ terminal_ok r t /\ (st = -3 -> interrupted = true).
Proof.
  intros [Hs (items & t & st & He & _ & Hi & Ht & Hok & Hst) (t' & He' & Ht' & Hok')] [|pre Hint Hp].
  - exists (op_stream op ++ items), t, st. rewrite He, app_assoc. split; [done|].
    split; [by apply Forall_app|]. by repeat split.
  - exists pre, t', (-3). rewrite He'. split; [done|]. split; [|by repeat split].
    destruct Hp as [k Hk]. rewrite Hk in Hs. by apply Forall_app in Hs as [? _].
Qed.

(** C28: under every interleaving of the workers and the calls of cancel-all, the callbacks of an
    operation are items and then at most one terminal callback, with status -3 only if the
    worker was interrupted; an operation whose worker has ended has made its terminal callback,
    except where the worker was interrupted while it was blocked before it recorded itself,
    and it has made no callback then. *)
Theorem repository_terminal_once (s : group repository_callback) i x w r :
  reach s -> gr_workers s !! i = Some x -> wk_operation x = operation_of w r ->
  exists items last,
    wk_calls x = items ++ option_list last /\ items_ok r items
    /\ (forall t, last = Some t -> exists st, terminal r t = Some st /\ terminal_ok r t
          /\ (st = -3 -> wk_interrupted x = true))
    /\ (wk_stage x = Ended false -> is_Some last)
    /\ (wk_stage x = Ended true -> wk_calls x = [] /\ wk_interrupted x = true).
Proof.
  intros Hr Hx Hop. destruct (worker_callbacks _ _ _ Hr Hx) as ((full & Hfull & Hp) & He & Hl).
  rewrite Hop in *. pose proof (operation_shape w r) as Hs.
  assert (wk_stage x = Ended false \/ wk_stage x <> Ended false) as [Hst|Hst]
    by (destruct (wk_stage x) as [| | |? ?|? ?| | |?|[]]; (by left) || by right).
  - destruct (complete_shape _ _ _ _ Hs (He Hst)) as (items & t & st & Hc & Hi & Ht & Hok & Hint).
    exists items, (Some t). split; [done|]. split; [done|]. split; [|split; [by eexists|done]].
    intros t' [= <-]. by exists st.
  - destruct (complete_shape _ _ _ _ Hs Hfull) as (items & t & st & -> & Hi & Ht & Hok & Hint).
    destruct (prefix_terminal _ _ _ Hp) as (items' & last & Hc & [k ->] & Hlast).
    exists items', last. split; [done|]. split; [by apply Forall_app in Hi as [? _]|].
    split; [|split; [done|exact Hl]]. intros t' ->. destruct Hlast as [|[= ->]]; [done|]. by exists st.
Qed.

(** The status of an accepted call: 0 when its worker is started, 3 while cancel-all runs. *)
Lemma repository_entry_status m w c s :
  repository_lent m c ->
  exists status s', repository_entry m w c s = value (status, s')
    /\ (status = 0 <-> exists r, repository_request_of m entry_limits c = inr r /\ repositoryWorkerBarrier s = None)
    /\ (status <> 0 -> s' = s).
Proof.
  intros Hl. unfold repository_entry. rewrite run_request by done. cbn [mbind outcome_bind].
  destruct (repository_request_of m entry_limits c) as [st|r] eqn:E.
  - apply request_status in E. exists st, s. split; [done|]. split; [|done].
    split; [lia|by intros (r & [=] & _)].
  - unfold startRepositoryWorker. destruct (repositoryWorkerBarrier s) as [b|] eqn:Eb.
    + exists 3, s. split; [done|]. split; [|done]. split; [done|by intros (? & _ & [=])].
    + eexists 0, _. split; [reflexivity|]. split; [|done]. split; [by eexists|done].
Qed.

(** ** Executions *)

(** A world with a diff of one hunk, in which nothing else succeeds. *)
Definition demo_diff : RepositoryDiff :=
  Build_RepositoryDiff (bytes_of [64; 64; 10]) false [Build_DiffHunk 1 1 1 2 (txt "@@")].

Definition demo_world : world :=
  Build_world (fun _ => raised []) (fun _ _ _ _ => obtained demo_diff) (fun _ _ _ => raised [])
    (fun _ _ _ => raised []) None (fun _ _ => raised []) (fun _ _ => raised []) (fun _ _ => raised [])
    (fun _ _ _ _ _ => raised []) (fun _ _ => raised []) (fun _ => raised []) (fun _ _ => raised [])
    (fun _ _ => raised []) (fun _ => raised []) (fun _ => raised []) (fun _ => raised []) (fun _ => None).

Definition demo_request : repository_request := ask_diff (txt "/r") (txt "s") RepositoryStagedDiff (txt "f").

(** The worker of the request runs to its end. *)
Definition demo_ended : option (group repository_callback) :=
  performs group_init
    ([do_start (operation_of demo_world demo_request); do_worker 0; do_worker 0; do_gate 0; do_worker 0]
     ++ [do_worker 0; do_return 0; do_worker 0; do_return 0; do_worker 0; do_worker 0; do_return 0]
     ++ [do_worker 0; do_worker 0; do_worker 0; do_worker 0]).

Definition ended_state : group repository_callback := default group_init demo_ended.

Definition ended_worker : worker repository_callback :=
  default (new_worker (operation_of demo_world demo_request)) (gr_workers ended_state !! 0%nat).

Lemma repository_terminal_once_witness :
  exists items last, wk_calls ended_worker = items ++ option_list last /\ is_Some last.
Proof.
  destruct (repository_terminal_once ended_state 0 ended_worker demo_world demo_request)
    as (items & last & Hc & _ & _ & He & _).
  - apply performed_reach.
  - by vm_compute.
  - by vm_compute.
  - exists items, last. split; [exact Hc|]. apply He. by vm_compute.
Defined.

Example demo_host_diff :
  received_diff (op_stream (operation_of demo_world demo_request))
  = Some (bytes_of [64; 64; 10], [Build_DiffHunk 1 1 1 2 (txt "@@")]).
Proof. by vm_compute. Qed.
