(* ===== verification/RepositoryCheckCalls.v ===== *)
(** * How a repository check is asked for

    [ha_repository_check_start] reads its texts and its argument vector from the host's memory
    (RepositoryChecks.hs), and the start of the check looks at them once more
    (agent-repository/src/Agent/CLI/RepositoryReview/Checks.hs).  [check_entry_contract]: the
    entry accepts what HaskellAgentBridge.h says, and of the errors of the start only three are
    left for what it accepts. *)

From stdpp Require Import base tactics option list gmap strings.
From Stdlib Require Import ZArith Lia.
From coqutil Require Import Byte.
From S2P Require Import Prelude Utf8 AbiLayout HostCall RepositoryWorkers RepositoryCalls RepositoryOperations.
#[local] Open Scope Z_scope.

Definition ha_utf8_string : list (string * ctype) :=
  [("bytes", c_pointer); ("length", c_size)]%string.

Record check_request := {
  cr_path : text;
  cr_expected : text;
  cr_executable : text;
  cr_arguments : list text;
}.

Definition maxRepositoryCheckArguments : Z := 4096.
Definition maxRepositoryCheckArgumentBytes : Z := 1024 * 1024.
Definition maxRepositoryCheckTotalArgumentBytes : Z := 8 * 1024 * 1024.

(** ** The entry *)

Section Entry.
Context (m : memory).

Definition itemSize : Z := pointerSize + sizeSize.

(** [go] of [copyRepositoryCheckArguments], with the number of arguments that are left. *)
Fixpoint copy_arguments (remaining : nat) (pointer index total : Z) (acc : list text)
    : outcome (option (list text)) :=
  match remaining with
  | O => value (Some (rev acc))
  | S remaining =>
      if maxInt / itemSize <? index then value None
      else
        let base := index * itemSize in
        bytes ← peekByteOff m pointer base pointerSize;
        length ← peekByteOff m pointer (base + pointerSize) sizeSize;
        if (maxRepositoryCheckArgumentBytes <? length)
           || (maxRepositoryCheckTotalArgumentBytes <? total + length)
        then value None
        else
          copied ← copyRequiredText m (bytes, length);
          match copied with
          | None => value None
          | Some t => copy_arguments remaining pointer (index + 1) (total + length) (t :: acc)
          end
  end.

Definition copyRepositoryCheckArguments (pointer count : Z) : outcome (option (list text)) :=
  if maxRepositoryCheckArguments <? count then value None
  else if itemSize <=? 0 then value None
  else copy_arguments (Z.to_nat (int_of_size count)) pointer 0 0 [].

(** The status that refuses the call, or the check that the owner starts. *)
Definition ha_repository_check_start (path snapshot executable : buffer)
    (arguments count outputCallback exitCallback outCheck : Z) : outcome (Z + check_request) :=
  if (outputCallback =? 0) || (exitCallback =? 0) || (outCheck =? 0) then value (inl 1)
  else if (arguments =? 0) && (0 <? count) then value (inl 2)
  else if maxRepositoryCheckArguments <? count then value (inl 2)
  else
    copied ← copyRequiredTexts m [path; snapshot; executable];
    match copied with
    | None => value (inl 2)
    | Some [path; expected; executable] =>
        copiedArguments ← copyRepositoryCheckArguments arguments count;
        value (match copiedArguments with
               | None => inl 2
               | Some arguments => inr (Build_check_request path expected executable arguments)
               end)
    | Some _ => value (inl 3)
    end.

End Entry.

(** ** The start *)

Definition maxRepositoryArgumentCharacters : Z := 1024 * 1024.
Definition maxRepositoryCheckTotalCharacters : Z := 8 * 1024 * 1024.

Definition has_nul (t : text) : bool := existsb (Z.eqb 0) t.

Definition characters (arguments : list text) : Z := foldr Z.add 0 (map (fun a : text => zlen a) arguments).

(** The guards of [startRepositoryCheckAtRoot]. *)
Definition check_refusal (executable : text) (arguments : list text) : option RepositoryError :=
  let refuse message := Some (InvalidRepositoryRequest message) in
  if bool_decide (executable = []) || has_nul executable
  then refuse (txt "check executable is invalid")
  else if maxRepositoryArgumentCharacters <? zlen executable
  then refuse (txt "check executable exceeds the 1 MiB character limit")
  else if maxRepositoryCheckArguments <? zlen arguments
  then refuse (txt "check has too many arguments")
  else if existsb has_nul arguments
  then refuse (txt "check argument contains a NUL byte")
  else if existsb (fun a => bool_decide (a = [])) arguments
  then refuse (txt "check argument is empty")
  else if existsb (fun a => maxRepositoryArgumentCharacters <? zlen a) arguments
  then refuse (txt "check argument exceeds the 1 MiB character limit")
  else if maxRepositoryCheckTotalCharacters <? characters arguments
  then refuse (txt "check arguments exceed the 8 MiB total limit")
  else None.

(** The error text of the exit callback when the check cannot be started.  [checked]: what is
    wrong with the repository or its snapshot; [created]: the exception of the creation of the
    process, shown, after the command ([renderCommand]). *)
Definition start_failure (checked : option RepositoryError) (created : option (text * text))
    (r : check_request) : option text :=
  match checked with
  | Some err => Some (repositoryErrorText err)
  | None =>
      match check_refusal (cr_executable r) (cr_arguments r) with
      | Some err => Some (repositoryErrorText err)
      | None =>
          match created with
          | Some (command, shown) => Some (repositoryErrorText (RepositoryCommandFailed command (-1) shown))
          | None => None
          end
      end
  end.

(** ** What the header says *)

Section Contract.
Context (m : memory).

Definition string_buffer (e : list byte) : buffer :=
  (struct_field ha_utf8_string "bytes" e, struct_field ha_utf8_string "length" e).

Definition argument_buffers (p count : Z) : list buffer :=
  map string_buffer (array_at m p count (struct_size ha_utf8_string)).

(** "executable and every argument are required non-empty UTF-8; arguments may be NULL only when
    argument_count is zero.  At most 4096 arguments, 1 MiB per argument, and 8 MiB total argument
    bytes are accepted." *)
Definition arguments_of (p count : Z) : option (list text) :=
  if ((p =? 0) && (0 <? count)) || (4096 <? count) then None
  else if 8 * 1024 * 1024 <? total_bytes (argument_buffers p count) then None
  else sequence (map (input m (1024 * 1024)) (argument_buffers p count)).

Definition asked_check (path snapshot executable : buffer) (arguments count : Z) : option check_request :=
  texts ← inputs m [review_text path; review_text snapshot; review_text executable];
  l ← arguments_of arguments count;
  match texts with
  | [path; expected; executable] => Some (Build_check_request path expected executable l)
  | _ => None
  end.

(** "Status values match the other repository functions." *)
Definition check_start_of (path snapshot executable : buffer)
    (arguments count outputCallback exitCallback outCheck : Z) : Z + check_request :=
  if (outputCallback =? 0) || (exitCallback =? 0) || (outCheck =? 0) then inl 1
  else match asked_check path snapshot executable arguments count with Some r => inr r | None => inl 2 end.

(** What the host lends: the texts, the array, and the buffer of each of its elements. *)
Definition check_start_lent (path snapshot executable : buffer) (arguments count : Z) : Prop :=
  Forall (fun f : buffer => lent m (fst f) (snd f)) [path; snapshot; executable]
  /\ 0 <= count < 2 ^ 64
  /\ (arguments <> 0 ->
      array_readable m arguments count (struct_size ha_utf8_string)
      /\ Forall (fun f : buffer => lent m (fst f) (snd f)) (argument_buffers arguments count)).

Lemma string_fields e :
  string_buffer e = (peek 8 0 e, peek 8 8 e) /\ struct_size ha_utf8_string = itemSize.
Proof. done. Qed.

Lemma input_smaller limit f :
  limit <= maxRepositoryRequestItemBytes ->
  input m limit f = if limit <? snd f then None else input m maxRepositoryRequestItemBytes f.
Proof.
  intros Hl. unfold input. destruct ((fst f =? 0) || (snd f =? 0)); [by destruct (_ <? _)|]. cbn [orb].
  destruct (Z.ltb_spec limit (snd f)); [done|].
  by destruct (Z.ltb_spec maxRepositoryRequestItemBytes (snd f)); [lia|].
Qed.

(** The argument at an index. *)
Definition argument_at (p : Z) (i : Z) : buffer :=
  string_buffer (element (struct_size ha_utf8_string) i (default [] (m !! p))).

Lemma buffers_nonneg l :
  Forall (fun f : buffer => lent m (fst f) (snd f)) l -> 0 <= total_bytes l.
Proof.
  induction 1 as [|f l [Hf _] _ IH]; [done|]. change (total_bytes (f :: l)) with (snd f + total_bytes l). lia.
Qed.

Lemma copy_arguments_value n p count i total acc :
  array_readable m p count itemSize -> 0 <= i -> i + Z.of_nat n = count -> count <= 4096 ->
  total <= 8 * 1024 * 1024 ->
  Forall (fun f : buffer => lent m (fst f) (snd f)) (map (argument_at p) (seqZ i (Z.of_nat n))) ->
  copy_arguments m n p i total acc
  = value (if 8 * 1024 * 1024 <? total + total_bytes (map (argument_at p) (seqZ i (Z.of_nat n)))
           then None
           else l ← sequence (map (input m (1024 * 1024)) (map (argument_at p) (seqZ i (Z.of_nat n))));
                Some (rev acc ++ l)).
Proof.
  revert i total acc. induction n as [|n IH]; intros i total acc Ha Hi Hc Hm Ht Hl.
  - change (seqZ i (Z.of_nat 0)) with (@nil Z). cbn [map sequence mbind option_bind copy_arguments].
    change (total_bytes []) with 0. rewrite app_nil_r. by destruct (Z.ltb_spec (8 * 1024 * 1024) (total + 0)); [lia|].
  - rewrite seqZ_cons in Hl |- * by lia. replace (Z.pred (Z.of_nat (S n))) with (Z.of_nat n) in * by lia.
    replace (Z.succ i) with (i + 1) in * by lia.
    cbn [map] in *. apply Forall_cons in Hl as [Hf Hl]. set (f := argument_at p i) in *.
    set (rest := map (argument_at p) (seqZ (i + 1) (Z.of_nat n))) in *.
    change (total_bytes (f :: rest)) with (snd f + total_bytes rest). cbn [copy_arguments map sequence].
    assert (Hlim : (maxInt / itemSize <? i) = false) by (apply Z.ltb_ge; change (maxInt / itemSize) with 576460752303423487; lia).
    rewrite Hlim.
    assert (Hb : peekByteOff m p (i * itemSize) pointerSize = value (fst f)).
    { replace (i * itemSize) with (i * itemSize + 0) by lia.
      by rewrite (peek_array m p count itemSize) by (done || (unfold itemSize, pointerSize, sizeSize; lia)). }
    assert (Hn : peekByteOff m p (i * itemSize + pointerSize) sizeSize = value (snd f)).
    { by rewrite (peek_array m p count itemSize) by (done || (unfold itemSize, pointerSize, sizeSize; lia)). }
    rewrite Hb, Hn. cbn [mbind outcome_bind].
    pose proof (buffers_nonneg _ Hl) as Hr. pose proof (proj1 Hf) as Hf0.
    rewrite (input_smaller (1024 * 1024)) by (unfold maxRepositoryRequestItemBytes; lia).
    unfold maxRepositoryCheckArgumentBytes, maxRepositoryCheckTotalArgumentBytes in *.
    destruct (Z.ltb_spec (1024 * 1024) (snd f)) as [Hbig|Hbig]; cbn [orb].
    { by destruct (_ <? total + _). }
    destruct (Z.ltb_spec (8 * 1024 * 1024) (total + snd f)) as [Hsum|Hsum].
    { by destruct (Z.ltb_spec (8 * 1024 * 1024) (total + (snd f + total_bytes rest))); [|lia]. }
    rewrite <- (surjective_pairing f), copyRequiredText_value by done. cbn [mbind outcome_bind].
    destruct (input m maxRepositoryRequestItemBytes f) as [t|]; cbn [mbind option_bind];
      [|by destruct (_ <? total + _)].
    rewrite IH by (done || lia). fold rest. replace (total + snd f + total_bytes rest)
      with (total + (snd f + total_bytes rest)) by lia.
    destruct (_ <? total + _); [done|].
    destruct (sequence (map (input m (1024 * 1024)) rest)); [|done]. cbn. by rewrite <- app_assoc.
Qed.

Lemma argument_buffers_at p count : argument_buffers p count = map (argument_at p) (seqZ 0 count).
Proof. unfold argument_buffers, array_at, argument_at. by rewrite map_map. Qed.

Lemma copyRepositoryCheckArguments_value p count :
  0 <= count < 2 ^ 64 ->
  (p <> 0 -> array_readable m p count (struct_size ha_utf8_string)
      /\ Forall (fun f : buffer => lent m (fst f) (snd f)) (argument_buffers p count)) ->
  (p =? 0) && (0 <? count) = false -> count <= 4096 ->
  copyRepositoryCheckArguments m p count = value (arguments_of p count).
Proof.
  intros Hc Hl Hp Hm. unfold copyRepositoryCheckArguments, arguments_of. rewrite Hp.
  change maxRepositoryCheckArguments with 4096. destruct (Z.ltb_spec 4096 count); [lia|]. cbn [orb].
  change (itemSize <=? 0) with false. cbn [orb]. rewrite int_of_size_small by lia.
  destruct (decide (count = 0)) as [->|Hn].
  { change (argument_buffers p 0) with (@nil buffer). done. }
  assert (Hp0 : p <> 0).
  { intros ->. destruct (Z.ltb_spec 0 count); [done|lia]. }
  destruct (Hl Hp0) as [Ha Hf]. rewrite argument_buffers_at in *.
  rewrite (copy_arguments_value _ p count); rewrite ?Z2Nat.id by lia; try done; try lia.
  cbn [app rev]. change (0 + total_bytes ?l) with (total_bytes l).
  destruct (_ <? total_bytes _); [done|]. by destruct (sequence _).
Qed.

Lemma check_start_value path snapshot executable arguments count outputCallback exitCallback outCheck :
  check_start_lent path snapshot executable arguments count ->
  ha_repository_check_start m path snapshot executable arguments count outputCallback exitCallback outCheck
  = value (check_start_of path snapshot executable arguments count outputCallback exitCallback outCheck).
Proof.
  intros (Hl & Hc & Ha). unfold ha_repository_check_start, check_start_of, asked_check.
  destruct ((outputCallback =? 0) || (exitCallback =? 0) || (outCheck =? 0)); [done|].
  rewrite (copyRequiredTexts_value _ _ Hl). cbn [mbind outcome_bind map].
  change maxRepositoryCheckArguments with 4096.
  destruct ((arguments =? 0) && (0 <? count)) eqn:Ep.
  { destruct (inputs m _); [|done]. cbn [mbind option_bind]. unfold arguments_of. by rewrite Ep. }
  destruct (Z.ltb_spec 4096 count) as [Hb|Hb].
  { destruct (inputs m _); [|done]. cbn [mbind option_bind]. unfold arguments_of.
    destruct (Z.ltb_spec 4096 count); [|lia]. by rewrite orb_true_r. }
  destruct (inputs m _) as [texts|] eqn:E; [|done]. cbn [mbind option_bind].
  destruct (texts_three _ _ _ E eq_refl) as (a & b & c & ->).
  rewrite copyRepositoryCheckArguments_value by done. cbn [mbind outcome_bind].
  by destruct (arguments_of arguments count).
Qed.

End Contract.

(** ** What is accepted *)

Definition argument_bytes (l : list text) : Z := foldr Z.add 0 (map (fun a => zlen (utf8_encode a)) l).

Definition check_request_ok (r : check_request) : Prop :=
  review_text_ok (cr_path r) /\ review_text_ok (cr_expected r) /\ review_text_ok (cr_executable r)
  /\ zlen (cr_arguments r) <= 4096 /\ Forall (request_text (1024 * 1024)) (cr_arguments r)
  /\ argument_bytes (cr_arguments r) <= 8 * 1024 * 1024.

(** A text has at most as many characters as bytes. *)
Lemma characters_bytes (t : text) : zlen t <= zlen (utf8_encode t).
Proof.
  induction t as [|c t IH]; [done|]. rewrite utf8_encode_cons.
  change (Z.of_nat (length (c :: t))) with (Z.of_nat (S (length t))). rewrite length_app.
  assert (1 <= zlen (utf8_char c)).
  { unfold utf8_char. repeat match goal with |- context [if ?b then _ else _] => destruct b end;
      cbn [length]; lia. }
  unfold bytes_of. rewrite length_map. lia.
Qed.

Lemma arguments_ok m l ts :
  Forall (fun f : buffer => lent m (fst f) (snd f)) l ->
  sequence (map (input m (1024 * 1024)) l) = Some ts ->
  length ts = length l /\ Forall (request_text (1024 * 1024)) ts /\ argument_bytes ts <= total_bytes l.
Proof.
  intros Hl. revert ts. induction Hl as [|f l Hf _ IH]; intros ts; [by intros [= <-]|]. cbn [map sequence].
  intros (t & Ht & (ts' & Hts & [= <-])%bind_Some)%bind_Some. destruct (IH _ Hts) as (Hn & Ho & Hb).
  pose proof (input_ok _ _ _ _ Hf Ht) as Hr. split_and!; [cbn; congruence|by constructor|].
  change (total_bytes (f :: l)) with (snd f + total_bytes l).
  change (argument_bytes (t :: ts')) with (zlen (utf8_encode t) + argument_bytes ts').
  assert (zlen (utf8_encode t) <= snd f); [|lia]. unfold input in Ht.
  destruct (Z.eqb_spec (fst f) 0) as [|Hp]; [done|]. destruct (_ || _); [done|].
  apply utf8_decode_sound in Ht as [He _]. rewrite He, (zlen_bytes_at m); [lia|by apply Hf].
Qed.

Lemma existsb_none {A} (f : A -> bool) l : Forall (fun a => f a = false) l -> existsb f l = false.
Proof. induction 1 as [|a l Ha _ IH]; [done|]. cbn. by rewrite Ha, IH. Qed.

(** What the start still refuses of an accepted check. *)
Definition start_refuses (executable : text) (arguments : list text) : option text :=
  if has_nul executable then Some (txt "check executable is invalid")
  else if 1024 * 1024 <? zlen executable
  then Some (txt "check executable exceeds the 1 MiB character limit")
  else if existsb has_nul arguments then Some (txt "check argument contains a NUL byte")
  else None.

Lemma check_refusal_accepted r :
  check_request_ok r ->
  check_refusal (cr_executable r) (cr_arguments r)
  = InvalidRepositoryRequest <$> start_refuses (cr_executable r) (cr_arguments r).
Proof.
  intros (_ & _ & (_ & _ & He) & Hn & Ha & Hb). unfold check_refusal, start_refuses.
  rewrite bool_decide_false by done. cbn [orb]. destruct (has_nul (cr_executable r)); [done|].
  change maxRepositoryArgumentCharacters with (1024 * 1024).
  destruct (1024 * 1024 <? zlen (cr_executable r)); [done|]. unfold maxRepositoryCheckArguments.
  destruct (Z.ltb_spec 4096 (zlen (cr_arguments r))); [lia|].
  destruct (existsb has_nul (cr_arguments r)); [done|].
  rewrite existsb_none; [|eapply Forall_impl; [exact Ha|]; intros t (_ & _ & Ht); by apply bool_decide_false].
  rewrite existsb_none.
  - assert (Hc : characters (cr_arguments r) <= argument_bytes (cr_arguments r)).
    { clear. unfold characters, argument_bytes. induction (cr_arguments r) as [|t l IH]; [done|].
      cbn [map foldr]. pose proof (characters_bytes t). lia. }
    unfold maxRepositoryCheckTotalCharacters. by destruct (Z.ltb_spec (8 * 1024 * 1024) (characters (cr_arguments r))); [lia|].
  - eapply Forall_impl; [exact Ha|]. intros t (Ht & _ & _). pose proof (characters_bytes t).
    apply Z.ltb_ge. lia.
Qed.

Lemma asked_check_ok m path snapshot executable arguments count r :
  check_start_lent m path snapshot executable arguments count ->
  asked_check m path snapshot executable arguments count = Some r -> check_request_ok r.
Proof.
  intros (Hl & Hc & Ha). unfold asked_check.
  intros (texts & Ht & (l & Hargs & H)%bind_Some)%bind_Some.
  apply inputs_ok in Ht; [|exact (proj2 (Forall_map review_text (fun f => lent m (fst (fst f)) (snd (fst f))) [path; snapshot; executable]) Hl)].
  repeat (apply Forall2_cons_inv_l in Ht as (? & ? & ? & Ht & ->)). apply Forall2_nil_inv_l in Ht as ->.
  injection H as <-. unfold arguments_of in Hargs.
  destruct ((arguments =? 0) && (0 <? count)) eqn:Ep; [done|]. cbn [orb] in Hargs.
  destruct (Z.ltb_spec 4096 count); [done|].
  destruct (Z.ltb_spec (8 * 1024 * 1024) (total_bytes (argument_buffers m arguments count))); [done|].
  assert (Hb : Forall (fun f : buffer => lent m (fst f) (snd f)) (argument_buffers m arguments count)).
  { destruct (decide (arguments = 0)) as [->|Hp]; [|by apply Ha].
    destruct (Z.ltb_spec 0 count); [done|]. by replace count with 0 by lia. }
  destruct (arguments_ok _ _ _ Hb Hargs) as (Hn & Hf & Hs). split_and!; try done; cbn [cr_arguments]; [|lia].
  rewrite Hn. unfold argument_buffers, array_at. rewrite !length_map, length_seqZ. lia.
Qed.

(** A call of [ha_repository_check_start] whose buffers are readable is what the header says:
    status 1 exactly when a callback or out_check is null, else status 2 when its input is not
    valid, else the check is asked for, with texts of valid UTF-8 that are not empty, at most 4096
    arguments of at most 1 MiB each and 8 MiB together.  Of the guards with which the start
    refuses a check, only three can hold for an accepted one: a NUL in the executable, more than
    2^20 characters in it, a NUL in an argument. *)
Theorem check_entry_contract m path snapshot executable arguments count outputCallback exitCallback outCheck :
  check_start_lent m path snapshot executable arguments count ->
  let answer := check_start_of m path snapshot executable arguments count outputCallback exitCallback outCheck in
  ha_repository_check_start m path snapshot executable arguments count outputCallback exitCallback outCheck
  = value answer
  /\ match answer with
     | inl status =>
         status = 1 /\ 0 ∈ [outputCallback; exitCallback; outCheck]
         \/ status = 2 /\ 0 ∉ [outputCallback; exitCallback; outCheck]
     | inr r =>
         check_request_ok r
         /\ check_refusal (cr_executable r) (cr_arguments r)
            = InvalidRepositoryRequest <$> start_refuses (cr_executable r) (cr_arguments r)
     end.
Proof.
  intros Hl. split; [by apply check_start_value|]. unfold check_start_of.
  assert (Hz : (outputCallback =? 0) || (exitCallback =? 0) || (outCheck =? 0)
               = bool_decide (0 ∈ [outputCallback; exitCallback; outCheck])).
  { apply eq_true_iff_eq. rewrite bool_decide_eq_true, !orb_true_iff, !Z.eqb_eq.
    rewrite !elem_of_cons, elem_of_nil. intuition congruence. }
  rewrite Hz. case_bool_decide; [by left|].
  destruct (asked_check _ _ _ _ _ _) as [r|] eqn:E; [|by right].
  pose proof (asked_check_ok _ _ _ _ _ _ _ Hl E). split; [done|by apply check_refusal_accepted].
Qed.

(** ** A call that is evaluated *)

(** "/r", "a", "f" and the arguments "f" and "/r". *)
Definition check_memory : memory :=
  <[16 := bytes_of [47; 114]]> (<[32 := bytes_of [97]]> (<[48 := bytes_of [102]]>
    (<[64 := bytes_of [48; 0; 0; 0; 0; 0; 0; 0; 1; 0; 0; 0; 0; 0; 0; 0;
                       16; 0; 0; 0; 0; 0; 0; 0; 2; 0; 0; 0; 0; 0; 0; 0]]> ∅))).

Example check_memory_request :
  ha_repository_check_start check_memory (16, 2) (32, 1) (48, 1) 64 2 1 1 1
  = value (inr (Build_check_request [47; 114] [97] [102] [[102]; [47; 114]])).
Proof. by vm_compute. Qed.

Lemma check_entry_contract_witness :
  ha_repository_check_start check_memory (16, 2) (32, 1) (48, 1) 64 2 1 1 1
  = value (check_start_of check_memory (16, 2) (32, 1) (48, 1) 64 2 1 1 1).
Proof.
  apply (check_entry_contract check_memory (16, 2) (32, 1) (48, 1) 64 2 1 1 1).
  assert (Hread : forall p b, check_memory !! p = Some b -> zlen b < 2 ^ 63 ->
            lent check_memory p (zlen b)) by (intros; by apply readable_lent, readable_whole).
  pose proof (Hread 16 (bytes_of [47; 114]) eq_refl eq_refl) as H1.
  pose proof (Hread 32 (bytes_of [97]) eq_refl eq_refl) as H2.
  pose proof (Hread 48 (bytes_of [102]) eq_refl eq_refl) as H3.
  split; [each|]. split; [done|]. intros _. split; [right; eexists; by split|].
  replace (argument_buffers check_memory 64 2) with [(48, 1); (16, 2)] by (by vm_compute).
  each.
Defined.
