(* ===== verification/RepositoryChecks.v ===== *)
(** * Repository checks

    A check runs a command of the host's choice in a repository and streams its output
    (RepositoryChecks.hs, agent-repository/src/Agent/CLI/RepositoryReview/Checks.hs).  This file
    has the threads of one check - the owner, the worker, the two readers, the host's calls of
    cancel and destroy - and the processes, as executable steps that interleave, and the
    invariant of every run ([reach_ok]).  What it gives is in RepositoryCheckRuns.v; how a check
    is asked for is in RepositoryCheckCalls.v. *)

From stdpp Require Import base tactics option list.
From Stdlib Require Import ZArith Lia.
From coqutil Require Import Byte.
From S2P Require Import Prelude Utf8 HostCall.
#[local] Open Scope Z_scope.

(** ** Threads *)

Inductive RepositoryCheckStream := RepositoryCheckStdout | RepositoryCheckStderr.

(** A call of a callback of the host; the exit callback without an error text has a null
    pointer. *)
Inductive check_event :=
  | ev_output (stream : Z) (bytes : list byte)
  | ev_exit (cancelled exit_code : Z) (error : callback_text).

(** [drainCheckOutput]: before [hGetSome]; in it, with the lock of the handle; in the callback;
    at its end.  [enabled] is [callbackEnabled]. *)
Inductive reader :=
  | Idle (enabled : bool)
  | Reading (enabled : bool)
  | Calling
  | Ended.

(** The worker of [startRepositoryCheckAtRoot], with the exit code: waiting for the process;
    about to kill what is left of its group; waiting for the readers; closing their handles,
    the first and the second; in [cancel] of the readers; about to call the exit callback; in it;
    in its finalizer. *)
Inductive worker :=
  | W_none
  | W_wait
  | W_kill (code : Z)
  | W_drain (code : Z)
  | W_close (stream : RepositoryCheckStream) (code : Z)
  | W_stop (code : Z)
  | W_exit (code : Z)
  | W_exiting
  | W_cleanup
  | W_done.

(** [cancelRepositoryCheck]: about to set the flag, to send SIGTERM, to poll the worker and send
    SIGKILL; waiting for the worker. *)
Inductive canceller := C_mark | C_term | C_poll | C_join | C_done.

(** The owner of a check in [ha_repository_check_start]: at its gate; starting the process; in
    the exit callback of a failure; about to publish the check, to look whether it was
    cancelled; cancelling it; waiting for the worker. *)
Inductive owner :=
  | O_gate
  | O_starting
  | O_report
  | O_started
  | O_published
  | O_cancelling (c : canceller)
  | O_waiting
  | O_done.

(** A call of the host: [ha_repository_check_cancel] about to set its flag, to read the check;
    returned without one; cancelling; returned; [ha_repository_check_destroy] waiting for the
    owner, and returned. *)
Inductive call_stage :=
  | K_request
  | K_read
  | K_early
  | K_cancelling (c : canceller)
  | K_cancelled
  | K_destroying
  | K_destroyed.

(** The callback in which the host makes a call. *)
Inductive place := in_output (s : RepositoryCheckStream) | in_exit.

Record host_call := { hc_within : option place; hc_stage : call_stage }.

#[export] Instance stream_eq_dec : EqDecision RepositoryCheckStream.
Proof. solve_decision. Defined.
#[export] Instance worker_eq_dec : EqDecision worker.
Proof. solve_decision. Defined.
#[export] Instance place_eq_dec : EqDecision place.
Proof. solve_decision. Defined.
#[export] Instance canceller_eq_dec : EqDecision canceller.
Proof. solve_decision. Defined.
#[export] Instance owner_eq_dec : EqDecision owner.
Proof. solve_decision. Defined.
#[export] Instance reader_eq_dec : EqDecision reader.
Proof. solve_decision. Defined.

(** A pipe and its reader: all that was written, what is not read yet, whether a process holds
    the end for writing, whether the worker has closed the handle for reading. *)
Record pipe := {
  pi_reader : reader;
  pi_written : list byte;
  pi_unread : list byte;
  pi_held : bool;
  pi_closed : bool;
}.

(** The processes: the one that was started ([None] before, then its exit code once it has
    one), how many more are in its group, and how many of its descendants left the group. *)
Record processes := {
  ps_leader : option (option Z);
  ps_group : nat;
  ps_escaped : nat;
}.

(** One check.  [ck_ref], [ck_requested] and [ck_cancelled] are [repositoryCheckValue] (whether
    there is one), [repositoryCheckCancelRequested] and [repositoryCheckCancelled]; [ck_termed]
    tells whether SIGTERM was sent, [ck_freed] whether the handle is freed. *)
Record check := {
  ck_gate : bool;
  ck_owner : owner;
  ck_ref : bool;
  ck_requested : bool;
  ck_cancelled : bool;
  ck_termed : bool;
  ck_freed : bool;
  ck_worker : worker;
  ck_out : pipe;
  ck_err : pipe;
  ck_processes : processes;
  ck_calls : list host_call;
  ck_trace : list check_event;
}.

Definition no_pipe : pipe := Build_pipe Ended [] [] false false.

(** When the handle has been stored. *)
Definition new_check : check :=
  Build_check false O_gate false false false false false W_none no_pipe no_pipe
    (Build_processes None 0 0) [] [].

(** *** Changes of a part *)

Definition with_owner (o : owner) (s : check) : check :=
  Build_check (ck_gate s) o (ck_ref s) (ck_requested s) (ck_cancelled s) (ck_termed s) (ck_freed s)
    (ck_worker s) (ck_out s) (ck_err s) (ck_processes s) (ck_calls s) (ck_trace s).

Definition with_worker (x : worker) (s : check) : check :=
  Build_check (ck_gate s) (ck_owner s) (ck_ref s) (ck_requested s) (ck_cancelled s) (ck_termed s)
    (ck_freed s) x (ck_out s) (ck_err s) (ck_processes s) (ck_calls s) (ck_trace s).

Definition with_flags (ref requested cancelled termed freed : bool) (s : check) : check :=
  Build_check (ck_gate s) (ck_owner s) ref requested cancelled termed freed (ck_worker s)
    (ck_out s) (ck_err s) (ck_processes s) (ck_calls s) (ck_trace s).

Definition with_pipes (out err : pipe) (s : check) : check :=
  Build_check (ck_gate s) (ck_owner s) (ck_ref s) (ck_requested s) (ck_cancelled s) (ck_termed s)
    (ck_freed s) (ck_worker s) out err (ck_processes s) (ck_calls s) (ck_trace s).

Definition with_processes (p : processes) (s : check) : check :=
  Build_check (ck_gate s) (ck_owner s) (ck_ref s) (ck_requested s) (ck_cancelled s) (ck_termed s)
    (ck_freed s) (ck_worker s) (ck_out s) (ck_err s) p (ck_calls s) (ck_trace s).

Definition with_calls (l : list host_call) (s : check) : check :=
  Build_check (ck_gate s) (ck_owner s) (ck_ref s) (ck_requested s) (ck_cancelled s) (ck_termed s)
    (ck_freed s) (ck_worker s) (ck_out s) (ck_err s) (ck_processes s) l (ck_trace s).

Definition traced (e : check_event) (s : check) : check :=
  Build_check (ck_gate s) (ck_owner s) (ck_ref s) (ck_requested s) (ck_cancelled s) (ck_termed s)
    (ck_freed s) (ck_worker s) (ck_out s) (ck_err s) (ck_processes s) (ck_calls s)
    (ck_trace s ++ [e]).

Definition pipe_of (st : RepositoryCheckStream) (s : check) : pipe :=
  match st with RepositoryCheckStdout => ck_out s | RepositoryCheckStderr => ck_err s end.

Definition with_pipe (st : RepositoryCheckStream) (p : pipe) (s : check) : check :=
  match st with
  | RepositoryCheckStdout => with_pipes p (ck_err s) s
  | RepositoryCheckStderr => with_pipes (ck_out s) p s
  end.

Definition mark_cancelled (s : check) : check :=
  with_flags (ck_ref s) (ck_requested s) true (ck_termed s) (ck_freed s) s.

Definition mark_termed (s : check) : check :=
  with_flags (ck_ref s) (ck_requested s) (ck_cancelled s) true (ck_freed s) s.

Definition mark_requested (s : check) : check :=
  with_flags (ck_ref s) true (ck_cancelled s) (ck_termed s) (ck_freed s) s.

Definition mark_published (s : check) : check :=
  with_flags true (ck_requested s) (ck_cancelled s) (ck_termed s) (ck_freed s) s.

Definition mark_freed (s : check) : check :=
  with_flags (ck_ref s) (ck_requested s) (ck_cancelled s) (ck_termed s) true s.

(** ** The steps of the runtime *)

Definition stream_code (st : RepositoryCheckStream) : Z :=
  match st with RepositoryCheckStdout => 1 | RepositoryCheckStderr => 2 end.

(** SIGKILL to the group: none of it runs any more.  The group's number is not used again
    while the check exists. *)
Definition sigkill (s : check) : check :=
  let p := ck_processes s in
  with_processes
    (Build_processes (match ps_leader p with Some None => Some (Some (-9)) | l => l end) 0
       (ps_escaped p)) s.

(** Whether a call that the host has made in a callback has not returned. *)
Definition open_call (c : host_call) : bool :=
  match hc_stage c with K_early | K_cancelled | K_destroyed => false | _ => true end.

Definition occupied (p : place) (s : check) : bool :=
  existsb (fun c => bool_decide (hc_within c = Some p) && open_call c) (ck_calls s).

Definition reader_ended (st : RepositoryCheckStream) (s : check) : bool :=
  match pi_reader (pipe_of st s) with Ended => true | _ => false end.

Definition both_ended (s : check) : bool :=
  reader_ended RepositoryCheckStdout s && reader_ended RepositoryCheckStderr s.

(** [hClose] takes the lock of the handle, which a reader in [hGetSome] holds. *)
Definition locked (st : RepositoryCheckStream) (s : check) : bool :=
  match pi_reader (pipe_of st s) with Reading _ => true | _ => false end.

Definition close_handle (st : RepositoryCheckStream) (s : check) : check :=
  let p := pipe_of st s in
  with_pipe st (Build_pipe (pi_reader p) (pi_written p) (pi_unread p) (pi_held p) true) s.

(** [cancelRepositoryCheck]; the delay of a quarter of a second is any number of steps of
    others. *)
Definition cancel_step (c : canceller) (s : check) : option (canceller * check) :=
  match c with
  | C_mark => Some (C_term, mark_cancelled s)
  | C_term => Some (C_poll, mark_termed s)
  | C_poll => Some (C_join, if decide (ck_worker s = W_done) then s else sigkill s)
  | C_join => if decide (ck_worker s = W_done) then Some (C_done, s) else None
  | C_done => None
  end.

(** A process is created: its pipes, its worker, and their readers. *)
Definition spawn (s : check) : check :=
  with_processes (Build_processes (Some None) 0 0)
    (with_pipes (Build_pipe (Idle true) [] [] true false) (Build_pipe (Idle true) [] [] true false)
       (with_worker W_wait s)).

(** [failure] is the text of the error with which the start fails, if it does ([start_failure] of
    RepositoryCheckCalls.v, or an exception, shown). *)
Definition owner_step (failure : option text) (s : check) : option check :=
  match ck_owner s with
  | O_gate => if ck_gate s then Some (with_owner O_starting s) else None
  | O_starting =>
      Some (match failure with
            | Some err => with_owner O_report (traced (ev_exit 0 (-1) (Some err)) s)
            | None => with_owner O_started (spawn s)
            end)
  | O_report => if occupied in_exit s then None else Some (with_owner O_done s)
  | O_started => Some (with_owner O_published (mark_published s))
  | O_published =>
      Some (with_owner (if ck_requested s then O_cancelling C_mark else O_waiting) s)
  | O_cancelling C_done => Some (with_owner O_waiting s)
  | O_cancelling c =>
      match cancel_step c s with
      | Some (c, s) => Some (with_owner (O_cancelling c) s)
      | None => None
      end
  | O_waiting => if decide (ck_worker s = W_done) then Some (with_owner O_done s) else None
  | O_done => None
  end.

(** [late]: the readers have not ended within a second. *)
Definition worker_step (late : bool) (s : check) : option check :=
  match ck_worker s with
  | W_none => None
  | W_wait =>
      match ps_leader (ck_processes s) with
      | Some (Some code) => Some (with_worker (W_kill code) s)
      | _ => None
      end
  | W_kill code => Some (with_worker (W_drain code) (sigkill s))
  | W_drain code =>
      if both_ended s then Some (with_worker (W_exit code) s)
      else if late then Some (with_worker (W_close RepositoryCheckStdout code) s)
      else None
  | W_close st code =>
      if locked st s then None
      else
        Some (with_worker
                (match st with
                 | RepositoryCheckStdout => W_close RepositoryCheckStderr code
                 | RepositoryCheckStderr => W_stop code
                 end) (close_handle st s))
  | W_stop code => if both_ended s then Some (with_worker (W_exit code) s) else None
  | W_exit code =>
      Some (with_worker W_exiting
              (traced (ev_exit (if ck_cancelled s then 1 else 0) (i32 code) None) s))
  | W_exiting => if occupied in_exit s then None else Some (with_worker W_cleanup s)
  | W_cleanup => Some (with_worker W_done (sigkill s))
  | W_done => None
  end.

(** [n] bytes are there when [hGetSome] looks; [ok] tells whether the callback succeeds. *)
Definition reader_step (st : RepositoryCheckStream) (n : Z) (ok : bool) (s : check)
    : option check :=
  let p := pipe_of st s in
  let read_by x := with_pipe st (Build_pipe x (pi_written p) (pi_unread p) (pi_held p) (pi_closed p)) in
  match pi_reader p with
  | Idle enabled => Some (read_by (if pi_closed p then Ended else Reading enabled) s)
  | Reading enabled =>
      match pi_unread p with
      | [] => if pi_held p then None else Some (read_by Ended s)
      | _ =>
          let count := Z.max 1 (Z.min n (64 * 1024)) in
          let bytes := ztake count (pi_unread p) in
          let s := with_pipe st (Build_pipe (if enabled then Calling else Idle false) (pi_written p)
                                   (zdrop count (pi_unread p)) (pi_held p) (pi_closed p)) s in
          Some (if enabled then traced (ev_output (stream_code st) bytes) s else s)
      end
  | Calling => if occupied (in_output st) s then None else Some (read_by (Idle ok) s)
  | Ended => None
  end.

(** The pipe's end for writing is closed with the last process that holds it. *)
Definition pipe_step (st : RepositoryCheckStream) (s : check) : option check :=
  let p := pipe_of st s in
  match ck_processes s with
  | Build_processes (Some (Some _)) O O =>
      if pi_held p
      then Some (with_pipe st (Build_pipe (pi_reader p) (pi_written p) (pi_unread p) false
                                 (pi_closed p)) s)
      else None
  | _ => None
  end.

Definition set_host_call (i : nat) (c : host_call) (st : call_stage) (s : check) : check :=
  with_calls (<[i := Build_host_call (hc_within c) st]> (ck_calls s)) s.

Definition call_step (i : nat) (s : check) : option check :=
  match ck_calls s !! i with
  | None => None
  | Some c =>
      match hc_stage c with
      | K_request => Some (set_host_call i c K_read (mark_requested s))
      | K_read => Some (set_host_call i c (if ck_ref s then K_cancelling C_mark else K_early) s)
      | K_cancelling C_done => Some (set_host_call i c K_cancelled s)
      | K_cancelling k =>
          match cancel_step k s with
          | Some (k, s) => Some (set_host_call i c (K_cancelling k) s)
          | None => None
          end
      | K_destroying =>
          if decide (ck_owner s = O_done) then Some (set_host_call i c K_destroyed (mark_freed s)) else None
      | K_early | K_cancelled | K_destroyed => None
      end
  end.

Inductive runtime_action :=
  | do_gate
  | do_owner (failure : option text)
  | do_worker (late : bool)
  | do_reader (st : RepositoryCheckStream) (n : Z) (ok : bool)
  | do_pipe (st : RepositoryCheckStream)
  | do_call (i : nat).

Definition runtime_step (a : runtime_action) (s : check) : option check :=
  match a with
  | do_gate =>
      if ck_gate s then None
      else Some (Build_check true (ck_owner s) (ck_ref s) (ck_requested s) (ck_cancelled s)
                   (ck_termed s) (ck_freed s) (ck_worker s) (ck_out s) (ck_err s) (ck_processes s)
                   (ck_calls s) (ck_trace s))
  | do_owner failure => owner_step failure s
  | do_worker late => worker_step late s
  | do_reader st n ok => reader_step st n ok s
  | do_pipe st => pipe_step st s
  | do_call i => call_step i s
  end.

(** ** The steps of the host and of the processes *)

(** The callback is being called. *)
Definition in_flight (p : place) (s : check) : bool :=
  match p with
  | in_output st => match pi_reader (pipe_of st s) with Calling => true | _ => false end
  | in_exit =>
      match ck_worker s with W_exiting => true | _ => false end
      || match ck_owner s with O_report => true | _ => false end
  end.

(** The host calls cancel as long as the handle exists, and destroy once; from any thread or
    from a callback.  A call from C runs on a thread of its own, which
    [isRepositoryCallbackThread] has never recorded, so that its test is not a step. *)
Inductive host_action :=
  | host_cancel (within : option place)
  | host_destroy (within : option place).

Definition is_destroy (c : host_call) : bool :=
  match hc_stage c with K_destroying | K_destroyed => true | _ => false end.

Definition host_moves (a : host_action) (s : check) : option check :=
  let allowed within := match within with Some p => in_flight p s | None => true end in
  match a with
  | host_cancel within =>
      if ck_freed s || negb (allowed within) then None
      else Some (with_calls (ck_calls s ++ [Build_host_call within K_request]) s)
  | host_destroy within =>
      if existsb is_destroy (ck_calls s) || negb (allowed within) then None
      else Some (with_calls (ck_calls s ++ [Build_host_call within K_destroying]) s)
  end.

(** A process of the group, or outside of it, exits, starts another, leaves the group, writes to
    a stream or closes it. *)
Inductive process_action :=
  | leader_exits (code : Z)
  | forks
  | member_exits
  | escapes
  | escaped_exits
  | writes (st : RepositoryCheckStream) (bytes : list byte)
  | releases (st : RepositoryCheckStream).

Definition processes_step (a : process_action) (p : processes) : option processes :=
  match a, p with
  | leader_exits code, Build_processes (Some None) g e => Some (Build_processes (Some (Some code)) g e)
  | forks, Build_processes (Some None) g e => Some (Build_processes (Some None) (S g) e)
  | forks, Build_processes l (S g) e => Some (Build_processes l (S (S g)) e)
  | member_exits, Build_processes l (S g) e => Some (Build_processes l g e)
  | escapes, Build_processes l (S g) e => Some (Build_processes l g (S e))
  | escaped_exits, Build_processes l g (S e) => Some (Build_processes l g e)
  | _, _ => None
  end.

Definition process_moves (a : process_action) (s : check) : option check :=
  match a with
  | writes st bytes =>
      let p := pipe_of st s in
      if pi_held p
      then Some (with_pipe st (Build_pipe (pi_reader p) (pi_written p ++ bytes)
                                 (pi_unread p ++ bytes) true (pi_closed p)) s)
      else None
  | releases st =>
      let p := pipe_of st s in
      if pi_held p
      then Some (with_pipe st (Build_pipe (pi_reader p) (pi_written p) (pi_unread p) false
                                 (pi_closed p)) s)
      else None
  | a =>
      match processes_step a (ck_processes s) with
      | Some p => Some (with_processes p s)
      | None => None
      end
  end.

Inductive action :=
  | runtime (a : runtime_action)
  | host (a : host_action)
  | process (a : process_action).

Definition step (a : action) (s : check) : option check :=
  match a with
  | runtime a => runtime_step a s
  | host a => host_moves a s
  | process a => process_moves a s
  end.

Fixpoint steps (l : list action) (s : check) : option check :=
  match l with
  | [] => Some s
  | a :: l => match step a s with Some s => steps l s | None => None end
  end.

Definition reach (s : check) : Prop := exists l, steps l new_check = Some s.

Lemma check_steps_app l k s : steps (l ++ k) s = match steps l s with Some s => steps k s | None => None end.
Proof. revert s. induction l as [|a l IH]; intros s; [done|]. cbn. destruct (step a s); [apply IH|done]. Qed.

Lemma steps_ind (P : check -> Prop) :
  (forall a s s', P s -> step a s = Some s' -> P s') ->
  forall l s s', steps l s = Some s' -> P s -> P s'.
Proof.
  intros Hstep l. induction l as [|a l IH]; intros s s'; cbn; [by intros [= <-]|].
  destruct (step a s) as [s1|] eqn:E; [|done]. intros H HP. eapply IH; [exact H|]. by eapply Hstep.
Qed.

(** ** The invariant *)

Definition exited (c : Z) (s : check) : Prop := ps_leader (ck_processes s) = Some (Some c).

(** Nothing of the group runs. *)
Definition group_dead (s : check) : Prop :=
  (exists c, exited c s) /\ ps_group (ck_processes s) = 0%nat.

Definition is_output (e : check_event) : Prop :=
  match e with ev_output _ bytes => 1 <= zlen bytes <= 64 * 1024 | ev_exit _ _ _ => False end.

(** The exit callback has been called, for the exit code [c]. *)
Definition exit_called (c : Z) (s : check) : Prop :=
  exists outs f, ck_trace s = outs ++ [ev_exit f (i32 c) None] /\ Forall is_output outs
    /\ (f = 0 \/ f = 1 /\ ck_requested s = true).

Definition check_worker_ok (s : check) : Prop :=
  let running c := exited c s /\ Forall is_output (ck_trace s) in
  let killed c := running c /\ ps_group (ck_processes s) = 0%nat in
  match ck_worker s with
  | W_none => ck_processes s = Build_processes None 0 0 /\ ck_out s = no_pipe /\ ck_err s = no_pipe
  | W_wait => is_Some (ps_leader (ck_processes s)) /\ Forall is_output (ck_trace s)
  | W_kill c => running c
  | W_drain c | W_close RepositoryCheckStdout c => killed c
  | W_close RepositoryCheckStderr c => killed c /\ pi_closed (ck_out s) = true
  | W_stop c => killed c /\ pi_closed (ck_out s) = true /\ pi_closed (ck_err s) = true
  | W_exit c => killed c /\ both_ended s = true
  | W_exiting | W_cleanup | W_done =>
      exists c, exited c s /\ ps_group (ck_processes s) = 0%nat /\ both_ended s = true
                /\ exit_called c s
  end.

Definition canceller_ok (c : canceller) (s : check) : Prop :=
  ck_requested s = true
  /\ match c with
     | C_mark => True
     | C_term => ck_cancelled s = true
     | C_poll => ck_cancelled s = true /\ ck_termed s = true
     | C_join => ck_cancelled s = true /\ ck_termed s = true /\ exists c, exited c s
     | C_done => ck_cancelled s = true /\ ck_termed s = true /\ ck_worker s = W_done
     end.

Definition owner_ok (s : check) : Prop :=
  let started := ck_worker s <> W_none in
  let failed := exists err, ck_trace s = [ev_exit 0 (-1) (Some err)] in
  match ck_owner s with
  | O_gate | O_starting => ck_worker s = W_none /\ ck_ref s = false /\ ck_trace s = []
  | O_report => ck_worker s = W_none /\ ck_ref s = false /\ failed
  | O_started => started /\ ck_ref s = false
  | O_published => started /\ ck_ref s = true
  | O_cancelling c => started /\ ck_ref s = true /\ canceller_ok c s
  | O_waiting => started /\ ck_ref s = true
  | O_done =>
      ck_worker s = W_none /\ ck_ref s = false /\ failed
      \/ ck_worker s = W_done /\ ck_ref s = true
  end.

(** A cancel that found no check: the owner has not looked yet, or it cancels the check, or has
    cancelled it, or there was none. *)
Definition early_ok (s : check) : Prop :=
  match ck_owner s with
  | O_waiting => ck_cancelled s = true /\ ck_termed s = true /\ ck_worker s = W_done
  | O_done => ck_worker s = W_done -> ck_cancelled s = true /\ ck_termed s = true
  | _ => True
  end.

Definition call_ok (s : check) (c : host_call) : Prop :=
  match hc_stage c with
  | K_request | K_destroying => True
  | K_read => ck_requested s = true
  | K_early => ck_requested s = true /\ early_ok s
  | K_cancelling c => ck_ref s = true /\ canceller_ok c s
  | K_cancelled => ck_cancelled s = true /\ ck_termed s = true /\ ck_worker s = W_done
  | K_destroyed => ck_owner s = O_done
  end.

(** What the callbacks have delivered of a stream. *)
Definition delivered (st : RepositoryCheckStream) (l : list check_event) : list byte :=
  flat_map (fun e => match e with
                     | ev_output k bytes => if k =? stream_code st then bytes else []
                     | ev_exit _ _ _ => []
                     end) l.

(** What a reader has not delivered it has dropped after a failed callback, or not read; and a
    closed handle is not being read. *)
Definition pipe_inv (st : RepositoryCheckStream) (l : list check_event) (p : pipe) : Prop :=
  (exists dropped, pi_written p = delivered st l ++ dropped ++ pi_unread p
     /\ (dropped = [] \/ match pi_reader p with Idle e | Reading e => e = false
                          | Calling => False | Ended => True end))
  /\ (pi_closed p = true -> match pi_reader p with Reading _ => False | _ => True end).

Definition pipe_ok (s : check) (st : RepositoryCheckStream) : Prop :=
  pipe_inv st (ck_trace s) (pipe_of st s).

Record check_ok (s : check) : Prop := {
  ok_worker : check_worker_ok s;
  ok_owner : owner_ok s;
  ok_calls : Forall (call_ok s) (ck_calls s);
  ok_pipes : forall st, pipe_ok s st;
  ok_cancelled : ck_cancelled s = true -> ck_requested s = true;
  ok_freed : ck_freed s = true -> ck_owner s = O_done;
}.

Lemma new_check_ok : check_ok new_check.
Proof.
  constructor; try done. intros st. split; [|by destruct st]. exists []. destruct st; (split; [done|by left]).
Qed.

(** The cases of a step. *)
Ltac step_cases H :=
  try match goal with st : RepositoryCheckStream |- _ => destruct st end;
  unfold step, runtime_step, host_moves, process_moves, owner_step, worker_step, reader_step, pipe_step,
    call_step, cancel_step, processes_step in H;
  cbn [pipe_of with_pipe] in H;
  repeat (case_match; try done); simplify_eq.

(** What never changes back. *)
Definition later (s s' : check) : Prop :=
  (ck_requested s = true -> ck_requested s' = true)
  /\ (ck_cancelled s = true -> ck_cancelled s' = true)
  /\ (ck_termed s = true -> ck_termed s' = true)
  /\ (ck_ref s = true -> ck_ref s' = true)
  /\ (ck_worker s = W_done -> ck_worker s' = W_done)
  /\ (ck_owner s = O_done -> ck_owner s' = O_done)
  /\ (forall c, exited c s -> exited c s').

Lemma sigkill_exited c s : exited c s -> exited c (sigkill s).
Proof. unfold exited. intros H. cbn. by rewrite H. Qed.

(** Before a process is started there is nothing of the check. *)
Lemma starting_idle s :
  check_ok s -> ck_owner s = O_starting ->
  ck_worker s = W_none /\ ck_processes s = Build_processes None 0 0
  /\ ck_out s = no_pipe /\ ck_err s = no_pipe /\ ck_ref s = false /\ ck_trace s = [].
Proof.
  intros Hok Ho. pose proof (ok_owner _ Hok) as H. unfold owner_ok in H. rewrite Ho in H.
  destruct H as (Hw & ? & ?). pose proof (ok_worker _ Hok) as Hi. unfold check_worker_ok in Hi.
  rewrite Hw in Hi. by destruct Hi as (? & ? & ?).
Qed.

Lemma step_later a s s' : check_ok s -> step a s = Some s' -> later s s'.
Proof.
  intros Hok H. pose proof (starting_idle _ Hok) as Hidle. clear Hok. unfold later, exited in *.
  destruct a as [[]|[]|[]]; step_cases H; split_and!; try done; cbn; intros; try congruence;
    try (destruct (Hidle eq_refl) as (Hw & Hp & _); try congruence;
         match goal with K : ps_leader _ = _ |- _ => by rewrite Hp in K end);
    try (match goal with H : ps_leader _ = Some (Some _) |- _ => by rewrite H end);
    match goal with H : ck_processes _ = _, K : context [ck_processes _] |- _ =>
      rewrite H in K; by simplify_eq/=
    | H : ck_processes _ = _ |- _ => rewrite H in *; by simplify_eq/= end.
Qed.

Lemma canceller_later c s s' : later s s' -> canceller_ok c s -> canceller_ok c s'.
Proof.
  intros (Hq & Hc & Ht & _ & Hw & _ & He) [H1 H]. split; [by apply Hq|].
  destruct c; naive_solver.
Qed.

Lemma sigkill_later s : later s (sigkill s).
Proof. unfold later. split_and!; try done. intros c. apply sigkill_exited. Qed.

Lemma started_leader s :
  check_worker_ok s -> ck_worker s <> W_none -> is_Some (ps_leader (ck_processes s)).
Proof.
  unfold check_worker_ok, exited. intros H Hw.
  destruct (ck_worker s) as [| | | |[]| | | | |]; naive_solver.
Qed.

(** What a step of a cancellation makes of it. *)
Lemma cancel_step_ok c s c' s' :
  check_ok s -> ck_worker s <> W_none -> canceller_ok c s -> cancel_step c s = Some (c', s') ->
  canceller_ok c' s'.
Proof.
  intros Hok Hw [Hq H] E. pose proof (ok_worker _ Hok) as Hwk. unfold check_worker_ok in Hwk.
  destruct c; cbn [cancel_step] in E; try done; try case_decide as Hd; simplify_eq; (split; [done|]).
  - done.
  - split; [apply H|done].
  - rewrite Hd in Hwk. destruct H, Hwk as (code & ? & _). split_and!; [done..|by exists code].
  - destruct H. split_and!; [done..|]. unfold exited. cbn.
    destruct (started_leader s (ok_worker _ Hok) Hw) as [[code|] ->]; [by exists code|by exists (-9)].
  - destruct H as (? & ? & _). done.
Qed.

(** A cancellation writes its flags and kills; nothing else changes. *)
Lemma cancel_step_parts c s c' s' :
  cancel_step c s = Some (c', s') ->
  ck_gate s' = ck_gate s /\ ck_owner s' = ck_owner s /\ ck_ref s' = ck_ref s
  /\ ck_requested s' = ck_requested s /\ ck_freed s' = ck_freed s /\ ck_worker s' = ck_worker s
  /\ ck_out s' = ck_out s /\ ck_err s' = ck_err s /\ ck_calls s' = ck_calls s
  /\ ck_trace s' = ck_trace s
  /\ (ck_processes s' = ck_processes s
      \/ ck_worker s <> W_done /\ ck_processes s' = ck_processes (sigkill s))
  /\ (ck_cancelled s' = ck_cancelled s \/ c = C_mark).
Proof. destruct c; cbn; intros H; try case_decide; simplify_eq; cbn; split_and!; auto. Qed.

(** *** Preservation *)

(** What every other thread leaves of the worker's state. *)
Lemma worker_frame s s' :
  check_worker_ok s -> ck_worker s <> W_none -> ck_worker s' = ck_worker s -> later s s' ->
  (is_Some (ps_leader (ck_processes s)) -> is_Some (ps_leader (ck_processes s'))) ->
  (group_dead s -> ps_group (ck_processes s') = 0%nat) ->
  (forall st, pi_closed (pipe_of st s) = true -> pi_closed (pipe_of st s') = true) ->
  (forall st, reader_ended st s = true -> reader_ended st s' = true) ->
  (ck_trace s' = ck_trace s
   \/ both_ended s = false /\ exists e, is_output e /\ ck_trace s' = ck_trace s ++ [e]) ->
  check_worker_ok s'.
Proof.
  intros Hok Hn Hw (Hq & _ & _ & _ & _ & _ & He) Hl Hg Hc Hend Ht.
  assert (Hb : both_ended s = true -> both_ended s' = true).
  { unfold both_ended. intros [H1 H2]%andb_prop. by rewrite !Hend. }
  assert (Hout : Forall is_output (ck_trace s) -> Forall is_output (ck_trace s')).
  { destruct Ht as [-> |(_ & e & Hi & ->)]; [done|]. intros H. apply Forall_app. by split; [|constructor]. }
  assert (Hcall : forall c, both_ended s = true -> exit_called c s -> exit_called c s').
  { intros c H (outs & f & Htr & Ho & Hf). destruct Ht as [Ht|[Hno _]]; [|congruence].
    exists outs, f. rewrite Ht. split_and!; naive_solver. }
  assert (Hdead : forall c, exited c s -> ps_group (ck_processes s) = 0%nat ->
                  ps_group (ck_processes s') = 0%nat).
  { intros c Hx Hz. apply Hg. split; [by exists c|done]. }
  pose proof (Hc RepositoryCheckStdout) as Hc1. pose proof (Hc RepositoryCheckStderr) as Hc2.
  unfold check_worker_ok in *. rewrite Hw. cbn [pipe_of] in *.
  destruct (ck_worker s) as [| | | |[]| | | | |]; naive_solver.
Qed.

(** Before its process is started, a step of a check starts it or leaves its parts alone. *)
Lemma step_none a s s' :
  check_ok s -> ck_worker s = W_none -> step a s = Some s' -> check_worker_ok s'.
Proof.
  intros Hok Hn H. pose proof (starting_idle _ Hok) as Hidle. pose proof (ok_worker _ Hok) as Hw.
  clear Hok. unfold check_worker_ok in Hw. rewrite Hn in Hw. destruct Hw as (Hp & Ho & He).
  destruct a as [[]|[]|[]]; step_cases H; rewrite ?Hn, ?Hp, ?Ho, ?He in *; simplify_eq/=;
    unfold check_worker_ok; cbn; rewrite ?Hn, ?Hp, ?Ho, ?He; try done.
  - destruct Hidle as (_ & _ & _ & _ & _ & ->); [done|]. by split; [eexists|constructor].
Qed.

Definition is_worker_action (a : action) : bool :=
  match a with runtime (do_worker _) => true | _ => false end.


(** The steps of other threads, as [worker_frame] needs them. *)
Lemma step_others a s s' :
  check_ok s -> ck_worker s <> W_none -> is_worker_action a = false -> step a s = Some s' ->
  ck_worker s' = ck_worker s
  /\ (is_Some (ps_leader (ck_processes s)) -> is_Some (ps_leader (ck_processes s')))
  /\ (group_dead s -> ps_group (ck_processes s') = 0%nat)
  /\ (forall st, pi_closed (pipe_of st s) = true -> pi_closed (pipe_of st s') = true)
  /\ (forall st, reader_ended st s = true -> reader_ended st s' = true).
Proof.
  intros Hok Hn Ha H. pose proof (starting_idle _ Hok) as Hidle. clear Hok.
  unfold group_dead, exited.
  destruct a as [[]|[]|[]]; try done; clear Ha; step_cases H; try (by destruct (Hidle eq_refl));
    cbn; split_and!; try done; try (by intros [_ ?]); try (by intros [[? ?] ?]);
    try (by intros [[|] ->]); try (match goal with H : ck_processes _ = _ |- _ => by rewrite H end);
    intros []; unfold reader_ended; cbn; try congruence; match goal with H : pi_reader _ = _ |- _ => by rewrite H end.
Qed.

(** [hGetSome] on a pipe with something to read. *)
Lemma some_bytes (n : Z) (b : byte) (l : list byte) :
  1 <= zlen (ztake (Z.max 1 (Z.min n (64 * 1024))) (b :: l)) <= 64 * 1024.
Proof. unfold ztake. rewrite length_take. cbn [length]. lia. Qed.

Lemma step_trace a s s' :
  check_ok s -> ck_worker s <> W_none -> is_worker_action a = false -> step a s = Some s' ->
  ck_trace s' = ck_trace s
  \/ both_ended s = false /\ exists e, is_output e /\ ck_trace s' = ck_trace s ++ [e].
Proof.
  intros Hok Hn Ha H. pose proof (starting_idle _ Hok) as Hidle. clear Hok.
  destruct a as [[]|[]|[]]; try done; clear Ha; step_cases H; try (by left);
    try (by destruct (Hidle eq_refl)).
  all: right; unfold both_ended, reader_ended; cbn [pipe_of];
    match goal with H : pi_reader _ = Reading true |- _ => rewrite H end;
    rewrite ?andb_false_r; (split; [done|]);
    eexists; (split; [|reflexivity]); apply some_bytes.
Qed.

(** The worker's own steps. *)
Lemma check_worker_step_ok late s s' : check_ok s -> worker_step late s = Some s' -> check_worker_ok s'.
Proof.
  intros Hok H. pose proof (ok_worker _ Hok) as Hw. pose proof (ok_cancelled _ Hok) as Hq. clear Hok.
  unfold check_worker_ok in Hw. unfold worker_step in H.
  destruct (ck_worker s) eqn:Ew; try done; repeat (case_match; try done); simplify_eq;
    unfold check_worker_ok, exit_called, exited in *; cbn; try tauto.
  - by destruct Hw as [-> ?].
  - eexists. split_and!; [apply Hw..|]. eexists _, _. split_and!; [reflexivity|apply Hw|]. right. auto.
  - eexists. split_and!; [apply Hw..|]. eexists _, _. split_and!; [reflexivity|apply Hw|]. by left.
  - destruct Hw as (c & -> & _ & Hw). exists c. split; [done|]. by split.
Qed.

Lemma step_worker_ok a s s' : check_ok s -> step a s = Some s' -> check_worker_ok s'.
Proof.
  intros Hok H. destruct (decide (ck_worker s = W_none)) as [Hn|Hn]; [by eapply step_none|].
  destruct (is_worker_action a) eqn:Ea.
  - destruct a as [[]| |]; try done. by eapply check_worker_step_ok.
  - pose proof (step_others _ _ _ Hok Hn Ea H) as (? & ? & ? & ? & ?).
    eapply worker_frame; eauto using ok_worker, step_later, step_trace.
Qed.

(** *** The owner and the calls *)

Lemma cancel_step_later c s c' s' : cancel_step c s = Some (c', s') -> later s s'.
Proof.
  destruct c; cbn; intros H; try case_decide; simplify_eq; try apply sigkill_later; by split_and!.
Qed.

Definition is_owner_action (a : action) : bool :=
  match a with runtime (do_owner _) => true | _ => false end.

Definition is_call_action (a : action) : bool :=
  match a with runtime (do_call _) => true | _ => false end.

Lemma step_started a s s' :
  ck_worker s <> W_none -> step a s = Some s' -> ck_worker s' <> W_none.
Proof. intros Hn H. destruct a as [[]|[]|[]]; step_cases H; done. Qed.

(** What the other threads leave of the owner's state. *)
Lemma step_owner_frame a s s' :
  check_ok s -> is_owner_action a = false -> step a s = Some s' ->
  ck_owner s' = ck_owner s /\ ck_ref s' = ck_ref s
  /\ (ck_worker s = W_none -> ck_worker s' = W_none /\ ck_trace s' = ck_trace s).
Proof.
  intros Hok Ha H. pose proof (ok_worker _ Hok) as Hw. clear Hok. unfold check_worker_ok in Hw.
  assert (Hidle : ck_worker s = W_none ->
                  ck_processes s = Build_processes None 0 0 /\ ck_out s = no_pipe /\ ck_err s = no_pipe).
  { intros E. by rewrite E in Hw. }
  clear Hw. destruct a as [[]|[]|[]]; try done; clear Ha; step_cases H; split_and!; try done; cbn;
    try congruence; intros Hn; destruct (Hidle Hn) as (Hp & Ho & He); rewrite ?Hp, ?Ho, ?He in *; done.
Qed.

Lemma owner_step_ok failure s s' : check_ok s -> owner_step failure s = Some s' -> owner_ok s'.
Proof.
  intros Hok H. pose proof (ok_owner _ Hok) as Ho. unfold owner_ok in Ho. unfold owner_step in H.
  destruct (ck_owner s) as [| | | | |c| |] eqn:Eo; try done.
  - case_match; simplify_eq. done.
  - destruct failure as [err|]; simplify_eq; cbn.
    + destruct Ho as (? & ? & Ht). unfold owner_ok. cbn. rewrite Ht. eauto.
    + by destruct Ho as (? & ? & ?).
  - case_match; simplify_eq. by left.
  - simplify_eq. by destruct Ho.
  - simplify_eq. unfold owner_ok. cbn. destruct (ck_requested s) eqn:Eq; destruct Ho; split_and!; try done.
  - assert (Hc : exists s1 o, s' = with_owner o s1 /\ ck_worker s1 = ck_worker s /\ ck_ref s1 = ck_ref s
                 /\ (o = O_waiting \/ exists k, o = O_cancelling k /\ canceller_ok k s1)).
    { destruct Ho as (Hn & _ & Hc).
      destruct c; try (case_match eqn:E; [|done]; case_match; simplify_eq;
        pose proof (cancel_step_parts _ _ _ _ E) as (_ & _ & ? & _ & _ & ? & _);
        pose proof (cancel_step_ok _ _ _ _ Hok Hn Hc E); by eauto 10).
      simplify_eq. by eauto 10. }
    destruct Hc as (s1 & o & -> & Hw & Hr & Hk). destruct Ho as (Hn & Hf & _).
    destruct Hk as [->|(k & -> & Hk)]; unfold owner_ok; cbn; rewrite Hw, Hr; done.
  - case_decide; simplify_eq. right. by destruct Ho.
Qed.

Lemma step_owner_ok a s s' : check_ok s -> step a s = Some s' -> owner_ok s'.
Proof.
  intros Hok H. destruct (is_owner_action a) eqn:Ea.
  { destruct a as [[]| |]; try done. by eapply owner_step_ok. }
  pose proof (ok_owner _ Hok) as Ho. pose proof (step_owner_frame _ _ _ Hok Ea H) as (Eo & Er & Hn).
  assert (Hs : ck_worker s <> W_none -> ck_worker s' <> W_none) by eauto using step_started.
  pose proof (step_later _ _ _ Hok H) as Hl. pose proof Hl as (_ & _ & _ & _ & Hd & _).
  unfold owner_ok in *. rewrite Eo, Er.
  destruct (ck_owner s);
    try (destruct Ho as (Hw & ? & ?); destruct (Hn Hw) as [? ->]; done); try tauto.
  - destruct Ho as (? & ? & ?). eauto using canceller_later.
  - destruct Ho as [(Hw & ? & ?)|[? ?]]; [left|right; auto]. by destruct (Hn Hw) as [? ->].
Qed.

(** *** The calls and the pipes *)

Lemma early_later a s s' :
  check_ok s -> step a s = Some s' -> ck_requested s = true -> early_ok s -> early_ok s'.
Proof.
  intros Hok H Hq He. pose proof (step_later _ _ _ Hok H) as (_ & Hc & Ht & _ & Hd & _).
  destruct (is_owner_action a) eqn:Ea.
  - destruct a as [[]| |]; try done. cbn in H. unfold owner_step in H.
    pose proof (ok_owner _ Hok) as Ho. unfold owner_ok in Ho. unfold early_ok in *.
    destruct (ck_owner s) as [| | | | |[]| |] eqn:Eo; try done; cbn in H;
      repeat (case_match; try done); simplify_eq; cbn in *; try done; try congruence; try tauto.
    + intros Hw. destruct Ho as (? & _). congruence.
    + apply Ho.
  - pose proof (ok_owner _ Hok) as Ho. pose proof (step_owner_frame _ _ _ Hok Ea H) as (Eo & Er & Hn).
    unfold early_ok, owner_ok in *. rewrite Eo. destruct (ck_owner s); try done; [tauto|].
    intros Hw. destruct Ho as [(Hw0 & _)|[? _]]; [destruct (Hn Hw0); congruence|tauto].
Qed.

(** What a step makes of a call it is not a step of. *)
Lemma call_later a s s' c :
  check_ok s -> step a s = Some s' -> call_ok s c -> call_ok s' c.
Proof.
  intros Hok H. pose proof (step_later _ _ _ Hok H) as Hl. pose proof Hl as (Hq & Hc & Ht & Hr & Hd & Ho & _).
  unfold call_ok. destruct (hc_stage c); try tauto.
  - intros [? ?]. split; [auto|]. by eapply early_later.
  - intros [? ?]. eauto using canceller_later.
Qed.

Lemma published_started s : check_ok s -> ck_ref s = true -> ck_worker s <> W_none.
Proof.
  intros Hok Hr. pose proof (ok_owner _ Hok) as Ho. unfold owner_ok in Ho.
  destruct (ck_owner s); intuition congruence.
Qed.

(** What a step of a call makes of it. *)
Lemma call_step_ok i s s' :
  check_ok s -> call_step i s = Some s' ->
  exists c st, ck_calls s !! i = Some c /\ ck_calls s' = <[i := Build_host_call (hc_within c) st]> (ck_calls s)
    /\ call_ok s' (Build_host_call (hc_within c) st).
Proof.
  intros Hok H. pose proof (ok_owner _ Hok) as Ho. unfold call_step in H.
  destruct (ck_calls s !! i) as [c|] eqn:Ei; [|done].
  pose proof (Forall_lookup_1 _ _ _ _ (ok_calls _ Hok) Ei) as Hc. unfold call_ok in Hc.
  exists c. destruct (hc_stage c) eqn:Es; try done.
  - simplify_eq. exists K_read. by split_and!.
  - simplify_eq. eexists. split_and!; [done..|]. unfold call_ok. cbn.
    destruct (ck_ref s) eqn:Er; [by split|]. split; [done|]. unfold early_ok, owner_ok in *. cbn.
    destruct (ck_owner s); try done; intuition congruence.
  - destruct Hc as [Hr Hc]. pose proof (published_started _ Hok Hr) as Hn.
    destruct c0; try (case_match eqn:E; [|done]; case_match; simplify_eq;
      pose proof (cancel_step_parts _ _ _ _ E) as (_ & _ & Hr' & _ & _ & _ & _ & _ & Hl & _);
      pose proof (cancel_step_ok _ _ _ _ Hok Hn Hc E); eexists; split_and!; [done|cbn; by rewrite Hl|];
      split; [cbn; congruence|done]).
    simplify_eq. exists K_cancelled. split_and!; [done..|]. apply Hc.
  - case_decide; simplify_eq. by exists K_destroyed.
Qed.

Lemma step_calls_frame a s s' :
  is_call_action a = false -> step a s = Some s' ->
  ck_calls s' = ck_calls s
  \/ exists w st, (st = K_request \/ st = K_destroying) /\ ck_calls s' = ck_calls s ++ [Build_host_call w st].
Proof.
  intros Ha H. destruct a as [[]|[]|[]]; try done; clear Ha; step_cases H; try (by left);
   right; eauto 10.
Qed.

Lemma step_calls_ok a s s' : check_ok s -> step a s = Some s' -> Forall (call_ok s') (ck_calls s').
Proof.
  intros Hok H.
  assert (Hf : Forall (call_ok s') (ck_calls s))
    by (eapply Forall_impl; [apply (ok_calls _ Hok)|eauto using call_later]).
  destruct (is_call_action a) eqn:Ea.
  - destruct a as [[]| |]; try done. destruct (call_step_ok _ _ _ Hok H) as (c & st & Hi & -> & Hc).
    apply Forall_insert; done.
  - destruct (step_calls_frame _ _ _ Ea H) as [->|(w & st & Hst & ->)]; [done|].
    apply Forall_app. split; [done|]. constructor; [|done]. by destruct Hst as [-> | ->].
Qed.

Lemma pipe_inv_new st : pipe_inv st [] (Build_pipe (Idle true) [] [] true false).
Proof. split; [|done]. exists []. by split; [|left]. Qed.

Lemma delivered_snoc st l e :
  delivered st (l ++ [e])
  = delivered st l ++ match e with ev_output k bytes => if k =? stream_code st then bytes else []
                      | ev_exit _ _ _ => [] end.
Proof. unfold delivered. rewrite flat_map_app. cbn. by rewrite app_nil_r. Qed.

(** An event that is not of this stream. *)
Lemma pipe_inv_event st l e p :
  pipe_inv st l p -> delivered st (l ++ [e]) = delivered st l -> pipe_inv st (l ++ [e]) p.
Proof. intros [H1 H2] E. split; [|done]. by rewrite E. Qed.

Lemma delivered_other st k l bytes :
  k <> st -> delivered st (l ++ [ev_output (stream_code k) bytes]) = delivered st l.
Proof. intros H. rewrite delivered_snoc. destruct st, k; try done; cbn; apply app_nil_r. Qed.

(** A reader reads some of what is there, and delivers it or drops it. *)
Lemma pipe_inv_read st l enabled p n :
  pi_reader p = Reading enabled -> pipe_inv st l p ->
  pipe_inv st (if enabled then l ++ [ev_output (stream_code st) (ztake n (pi_unread p))] else l)
    (Build_pipe (if enabled then Calling else Idle false) (pi_written p) (zdrop n (pi_unread p))
       (pi_held p) (pi_closed p)).
Proof.
  intros Hr [(d & Hw & Hd) Hc]. rewrite Hr in *.
  assert (Hs : pi_unread p = ztake n (pi_unread p) ++ zdrop n (pi_unread p)) by (by rewrite ztake_zdrop).
  split; [|by destruct enabled]. destruct enabled; cbn.
  - exists []. split; [|by left]. destruct Hd as [-> |]; [|done].
    rewrite delivered_snoc, Z.eqb_refl, Hw at 1. rewrite Hs at 1. by rewrite <- app_assoc.
  - exists (d ++ ztake n (pi_unread p)). split; [|by right]. rewrite Hw. rewrite Hs at 1.
    by rewrite <- app_assoc.
Qed.

Lemma pipe_ok_with k p s st :
  pipe_ok s st -> (k = st -> pipe_inv st (ck_trace s) p) -> pipe_ok (with_pipe k p s) st.
Proof. intros H Hk. destruct k, st; try exact H; by apply Hk. Qed.

(** A change of a pipe that keeps its bytes; a reader that goes on keeps its callback disabled. *)
Lemma pipe_inv_keep st l p x held closed :
  pipe_inv st l p ->
  match x with
  | Idle e | Reading e => pi_reader p = Calling \/ pi_reader p = Idle e \/ pi_reader p = Reading e
  | Calling => pi_reader p = Calling
  | Ended => True
  end ->
  (closed = true -> match x with Reading _ => False | _ => True end) ->
  pipe_inv st l (Build_pipe x (pi_written p) (pi_unread p) held closed).
Proof.
  intros [(d & Hw & Hd) _] Hx Hc. split; [|done]. exists d. split; [done|]. cbn.
  destruct Hd as [?|Hd]; [by left|right]. destruct x as [e|e| |]; try done.
  - destruct Hx as [E|[E|E]]; by rewrite E in Hd.
  - destruct Hx as [E|[E|E]]; by rewrite E in Hd.
  - by rewrite Hx in Hd.
Qed.

Lemma reader_step_pipes k n ok s s' st :
  pipe_ok s st -> reader_step k n ok s = Some s' -> pipe_ok s' st.
Proof.
  intros Hp H. unfold reader_step in H.
  destruct (pi_reader (pipe_of k s)) as [enabled|enabled| |] eqn:Er; try done.
  - simplify_eq. apply pipe_ok_with; [done|]. intros ->. apply pipe_inv_keep; [done|..];
      destruct (pi_closed (pipe_of st s)) eqn:Ec; auto; done.
  - destruct (pi_unread (pipe_of k s)) as [|b bytes] eqn:Eu.
    + case_match; simplify_eq. apply pipe_ok_with; [done|]. intros ->. rewrite <- Eu.
      by apply pipe_inv_keep.
    + set (bound := Z.max 1 (Z.min n (64 * 1024))) in *. simplify_eq. rewrite <- Eu.
      destruct (decide (k = st)) as [->|Hne].
      * pose proof (pipe_inv_read st (ck_trace s) enabled _ bound Er Hp) as Hr.
        destruct enabled, st; exact Hr.
      * destruct enabled; [|by apply pipe_ok_with].
        assert (Hk : pipe_of st (with_pipe k (Build_pipe Calling (pi_written (pipe_of k s))
            (zdrop bound (pi_unread (pipe_of k s))) (pi_held (pipe_of k s)) (pi_closed (pipe_of k s))) s)
          = pipe_of st s) by (by destruct k, st).
        unfold pipe_ok. change (pipe_of st (traced ?e ?x)) with (pipe_of st x).
        replace (ck_trace (traced _ _)) with
          (ck_trace s ++ [ev_output (stream_code k) (ztake bound (pi_unread (pipe_of k s)))])
          by (by destruct k).
        destruct k, st; try done; (apply pipe_inv_event; [exact Hp|by apply delivered_other]).
  - case_match; simplify_eq. apply pipe_ok_with; [done|]. intros ->.
    apply pipe_inv_keep; [done|by left|done].
Qed.

Lemma process_step_pipes a s s' st : pipe_ok s st -> process_moves a s = Some s' -> pipe_ok s' st.
Proof.
  intros Hp H. unfold process_moves in H.
  destruct a as [| | | | |k bytes|k]; try (case_match; [|done]; simplify_eq; destruct st; exact Hp).
  - case_match; simplify_eq. apply pipe_ok_with; [done|]. intros ->.
    destruct Hp as [(d & Hw & Hd) Hc]. split; [|done]. exists d. cbn. rewrite Hw, <- !app_assoc. done.
  - case_match; simplify_eq. apply pipe_ok_with; [done|]. intros ->.
    apply pipe_inv_keep; [done|by destruct (pi_reader _); auto|apply Hp].
Qed.

Lemma step_pipes_ok a s s' st : check_ok s -> step a s = Some s' -> pipe_ok s' st.
Proof.
  intros Hok H. pose proof (ok_pipes _ Hok st) as Hp. pose proof (starting_idle _ Hok) as Hidle. clear Hok.
  destruct a as [[| | |k n ok| |]|a|a]; [..|by eapply process_step_pipes].
  4: by eapply reader_step_pipes.
  all: step_cases H; try (exact Hp);
    try (apply (pipe_inv_event _ _ _ _ Hp); rewrite delivered_snoc; by rewrite app_nil_r).
  all: try (apply pipe_ok_with; [done|]; intros ->; apply pipe_inv_keep; [done|..|apply Hp];
            by destruct (pi_reader _); auto).
  - destruct (Hidle eq_refl) as (_ & _ & _ & _ & _ & Ht). unfold pipe_ok. cbn. rewrite Ht. apply pipe_inv_new.
  - destruct (Hidle eq_refl) as (_ & _ & _ & _ & _ & Ht). unfold pipe_ok. cbn. rewrite Ht. apply pipe_inv_new.
  - apply (pipe_inv_keep _ _ (ck_out s)); [done|..]; unfold locked in *; cbn [pipe_of] in *;
      by destruct (pi_reader (ck_out s)); auto.
  - apply (pipe_inv_keep _ _ (ck_err s)); [done|..]; unfold locked in *; cbn [pipe_of] in *;
      by destruct (pi_reader (ck_err s)); auto.
Qed.

Lemma step_cancelled a s s' :
  check_ok s -> step a s = Some s' -> ck_cancelled s' = true -> ck_requested s' = true.
Proof.
  intros Hok H. pose proof (ok_cancelled _ Hok) as Hc. pose proof (ok_owner _ Hok) as Ho.
  unfold owner_ok, canceller_ok in Ho.
  assert (Hl : forall i c k, ck_calls s !! i = Some c -> hc_stage c = K_cancelling k -> ck_requested s = true).
  { intros i c k Hi Hs. pose proof (Forall_lookup_1 _ _ _ _ (ok_calls _ Hok) Hi) as Hk.
    unfold call_ok, canceller_ok in Hk. rewrite Hs in Hk. apply Hk. }
  clear Hok. destruct a as [[| | | | |i]|[]|[]]; step_cases H; try done; cbn; try tauto; eauto.
Qed.

Lemma step_freed a s s' :
  check_ok s -> step a s = Some s' -> ck_freed s' = true -> ck_owner s' = O_done.
Proof.
  intros Hok H. pose proof (ok_freed _ Hok) as Hf. pose proof (step_later _ _ _ Hok H) as Hl.
  clear Hok. destruct Hl as (_ & _ & _ & _ & _ & Hl & _).
  destruct a as [[| | | | |i]|[]|[]]; step_cases H; try done; cbn; try tauto; eauto.
Qed.

Lemma step_ok a s s' : check_ok s -> step a s = Some s' -> check_ok s'.
Proof.
  intros Hok H. constructor; eauto using step_worker_ok, step_owner_ok, step_calls_ok, step_pipes_ok,
    step_cancelled, step_freed.
Qed.

Lemma reach_ok s : reach s -> check_ok s.
Proof.
  intros [l H]. by apply (steps_ind check_ok (fun a s s' => step_ok a s s') _ _ _ H), new_check_ok.
Qed.
