(* ===== verification/RepositoryCheckRuns.v ===== *)
(** * What a repository check promises

    Theorems on the runs of RepositoryChecks.v, whatever the order in which the threads, the host
    and the processes take their steps.  [check_callbacks_conform] and [check_output_complete]:
    the callbacks; [check_teardown]: what has ended when destroy and cancel return;
    [check_finishes]: that they return.  [early_cancel], [escaped_process_blocks] and
    [reentrant_destroy_never_returns] are the cases in which the code does not do what the header
    or its comments say. *)

From stdpp Require Import base tactics option list.
From Stdlib Require Import ZArith Lia.
From coqutil Require Import Byte.
From S2P Require Import Prelude Utf8 HostCall RepositoryChecks.
#[local] Open Scope Z_scope.

Lemma steps_ok l s s' : check_ok s -> steps l s = Some s' -> check_ok s'.
Proof. intros Hok H. by apply (steps_ind check_ok (fun a s s' => step_ok a s s') _ _ _ H). Qed.

Lemma steps_later l s s' : check_ok s -> steps l s = Some s' -> later s s'.
Proof.
  revert s. induction l as [|a l IH]; intros s Hok; cbn; [intros [= <-]; by split_and!|].
  destruct (step a s) as [s1|] eqn:E; [|done]. intros H.
  pose proof (step_later _ _ _ Hok E) as L1. pose proof (IH _ (step_ok _ _ _ Hok E) H) as L2.
  unfold later in *. naive_solver.
Qed.

(** ** Callbacks *)

(** After the worker is done there is no callback: the readers have ended. *)
Lemma done_ended s : check_ok s -> ck_worker s = W_done -> both_ended s = true /\ group_dead s.
Proof.
  intros Hok Hw. pose proof (ok_worker _ Hok) as H. unfold check_worker_ok in H. rewrite Hw in H.
  destruct H as (c & He & Hg & Hb & _). split; [done|]. split; [by exists c|done].
Qed.

Lemma quiet_step a s s' :
  check_ok s -> ck_worker s = W_done \/ ck_owner s = O_done -> step a s = Some s' ->
  ck_trace s' = ck_trace s.
Proof.
  intros Hok Hd H.
  assert (Hw : ck_worker s = W_none /\ ck_owner s = O_done \/ ck_worker s = W_done).
  { destruct Hd as [?|Ho]; [by right|]. pose proof (ok_owner _ Hok) as Hk. unfold owner_ok in Hk.
    rewrite Ho in Hk. tauto. }
  destruct Hw as [[Hn Ho]|Hw].
  - destruct (is_owner_action a) eqn:Ea.
    + destruct a as [[]| |]; try done. cbn in H. unfold owner_step in H. by rewrite Ho in H.
    + by apply (step_owner_frame _ _ _ Hok Ea H).
  - destruct (is_worker_action a) eqn:Ea.
    + destruct a as [[]| |]; try done. cbn in H. unfold worker_step in H. by rewrite Hw in H.
    + destruct (step_trace _ _ _ Hok ltac:(congruence) Ea H) as [?|[Hb _]]; [done|].
      destruct (done_ended _ Hok Hw). congruence.
Qed.

Lemma quiet_steps l s s' :
  check_ok s -> ck_worker s = W_done \/ ck_owner s = O_done -> steps l s = Some s' ->
  ck_trace s' = ck_trace s.
Proof.
  revert s. induction l as [|a l IH]; intros s Hok Hd; cbn; [by intros [= <-]|].
  destruct (step a s) as [s1|] eqn:E; [|done]. intros H.
  pose proof (step_later _ _ _ Hok E) as (_ & _ & _ & _ & Hw & Ho & _).
  rewrite (IH s1); [by eapply quiet_step|by eapply step_ok|tauto|done].
Qed.

(** The last callback, if it has been called. *)
Definition exit_ok (s : check) (outs exit : list check_event) : Prop :=
  match exit with
  | [] => ck_owner s <> O_done /\ ck_worker s <> W_done
  | [ev_exit cancelled code None] =>
      (exists c, exited c s /\ code = i32 c) /\ (cancelled = 0 \/ cancelled = 1 /\ ck_requested s = true)
  | [ev_exit cancelled code (Some _)] =>
      outs = [] /\ cancelled = 0 /\ code = -1 /\ ps_leader (ck_processes s) = None
  | _ => False
  end.

Lemma trace_shape s :
  check_ok s -> exists outs exit, ck_trace s = outs ++ exit /\ Forall is_output outs /\ exit_ok s outs exit.
Proof.
  intros Hok. pose proof (ok_worker _ Hok) as Hw. pose proof (ok_owner _ Hok) as Ho.
  unfold check_worker_ok in Hw. unfold owner_ok in Ho.
  destruct (decide (ck_worker s = W_none)) as [Hn|Hn].
  - rewrite Hn in Hw. destruct Hw as (Hp & _).
    assert (Ht : ck_trace s = [] /\ ck_owner s <> O_done
                 \/ exists err, ck_trace s = [ev_exit 0 (-1) (Some err)]).
    { destruct (ck_owner s); try (left; split; [tauto|done]); right; intuition congruence. }
    destruct Ht as [[Ht Hd]|[err Ht]]; exists [], (ck_trace s); rewrite Ht; cbn; rewrite ?Hp; split_and!;
      try done; by rewrite Hn.
  - assert (Hrun : Forall is_output (ck_trace s) /\ ck_worker s <> W_done \/ exists c, exited c s /\ exit_called c s).
    { destruct (ck_worker s) as [| | | |[]| | | | |]; naive_solver. }
    destruct Hrun as [[Hr Hd]|(c & Hc & outs & f & Ht & Hr & Hf)].
    + exists (ck_trace s), []. rewrite app_nil_r. split; [done|]. split; [done|]. split; [|done].
      intros E. rewrite E in Ho. destruct Ho as [(? & _)|[? _]]; congruence.
    + exists outs, [ev_exit f (i32 c) None]. split; [done|]. split; [done|]. split; [by exists c|done].
Qed.

Lemma delivered_prefix s st :
  check_ok s -> delivered st (ck_trace s) `prefix_of` pi_written (pipe_of st s).
Proof. intros Hok. destruct (ok_pipes _ Hok st) as [(d & -> & _) _]. by eexists. Qed.

(** C31: at every point of every run of a check, the output callbacks have delivered, of each
    stream, a prefix of what the processes have written to it, in order and in pieces of 1 byte to
    64 KiB; the exit callback has been called at most once and after it there is none; it has
    been called exactly once when the check's worker or owner is done; its code is the exit code
    of the process that was started, it tells of a cancellation only if there was one, and with
    an error its code is -1 and no process was started. *)
Theorem check_callbacks_conform s :
  reach s ->
  (forall st, delivered st (ck_trace s) `prefix_of` pi_written (pipe_of st s))
  /\ exists outs exit, ck_trace s = outs ++ exit /\ Forall is_output outs /\ exit_ok s outs exit.
Proof.
  intros H%reach_ok. split; [|by apply trace_shape]. intros st. by apply delivered_prefix.
Qed.

(** ** Destroy and cancel *)

(** No process of the check's group runs, no callback is in progress, and none comes. *)
Definition torn_down (s : check) : Prop :=
  both_ended s = true
  /\ (ck_processes s = Build_processes None 0 0 \/ group_dead s)
  /\ (exists e, last (ck_trace s) = Some e /\ ~ is_output e)
  /\ forall l s', steps l s = Some s' -> ck_trace s' = ck_trace s.

Lemma finished_torn_down s :
  check_ok s -> ck_worker s = W_done \/ ck_owner s = O_done -> torn_down s.
Proof.
  intros Hok Hd. split_and!.
  - destruct (decide (ck_worker s = W_done)) as [Hw|Hw]; [by apply done_ended|].
    destruct Hd as [?|Ho]; [done|]. pose proof (ok_owner _ Hok) as Hk. unfold owner_ok in Hk.
    rewrite Ho in Hk. destruct Hk as [(Hn & _)|[? _]]; [|done].
    pose proof (ok_worker _ Hok) as Hi. unfold check_worker_ok in Hi. rewrite Hn in Hi.
    destruct Hi as (_ & E1 & E2). unfold both_ended, reader_ended. cbn. by rewrite E1, E2.
  - destruct (decide (ck_worker s = W_done)) as [Hw|Hw]; [right; by apply done_ended|left].
    destruct Hd as [?|Ho]; [done|]. pose proof (ok_owner _ Hok) as Hk. unfold owner_ok in Hk.
    rewrite Ho in Hk. destruct Hk as [(Hn & _)|[? _]]; [|done].
    pose proof (ok_worker _ Hok) as Hi. unfold check_worker_ok in Hi. rewrite Hn in Hi. apply Hi.
  - destruct (trace_shape _ Hok) as (outs & exit & -> & _ & He). unfold exit_ok in He.
    destruct exit as [|[|? ? []] []]; try done; [tauto| |]; rewrite last_snoc; eexists; by split; [|intros ?].
  - intros l s' H. by eapply quiet_steps.
Qed.

(** C32: when [ha_repository_check_destroy] has returned, the check is torn down: the process and
    what was left of its group are gone, the readers have ended, the exit callback was called,
    and no callback is called after it, whatever happens.  When [ha_repository_check_cancel] has
    returned after it found the check, the check is marked as cancelled, its group was sent SIGTERM,
    and it is torn down.  When it found none because the check was being started, the one who
    starts it sees the request: if a process was started, by the time the owner is done it was
    cancelled in the same way. *)
Theorem check_teardown s c :
  reach s -> c ∈ ck_calls s ->
  match hc_stage c with
  | K_destroyed => ck_owner s = O_done /\ torn_down s
  | K_cancelled => ck_cancelled s = true /\ ck_termed s = true /\ torn_down s
  | K_early =>
      ck_owner s = O_done ->
      ps_leader (ck_processes s) = None \/ ck_cancelled s = true /\ ck_termed s = true
  | _ => True
  end.
Proof.
  intros Hok%reach_ok Hc.
  pose proof (proj1 (Forall_forall _ _) (ok_calls _ Hok) c Hc) as H. unfold call_ok in H.
  destruct (hc_stage c); try done.
  - intros Ho. pose proof (ok_owner _ Hok) as Hk. destruct H as [_ H]. unfold early_ok in H.
    unfold owner_ok in Hk. rewrite Ho in Hk, H. destruct Hk as [(Hn & _)|[Hw _]]; [left|right; by apply H].
    pose proof (ok_worker _ Hok) as Hi. unfold check_worker_ok in Hi. rewrite Hn in Hi. by destruct Hi as (-> & _).
  - destruct H as (? & ? & ?). split_and!; [done..|]. apply finished_torn_down; auto.
  - split; [done|]. apply finished_torn_down; auto.
Qed.

(** ** A check whose callbacks succeed, and whose readers are not given up *)

Definition undisturbed (a : action) : Prop :=
  match a with
  | runtime (do_reader _ _ ok) => ok = true
  | runtime (do_worker late) => late = false
  | _ => True
  end.

Definition pipe_whole (st : RepositoryCheckStream) (l : list check_event) (p : pipe) : Prop :=
  pi_written p = delivered st l ++ pi_unread p
  /\ pi_closed p = false
  /\ match pi_reader p with
     | Idle e | Reading e => e = true
     | Calling => True
     | Ended => pi_unread p = [] /\ pi_held p = false
     end.

Definition given_up (w : worker) : bool :=
  match w with W_close _ _ | W_stop _ => true | _ => false end.

Record whole (s : check) : Prop := {
  whole_pipe : forall st, pipe_whole st (ck_trace s) (pipe_of st s);
  whole_worker : given_up (ck_worker s) = false;
}.

Lemma pipe_whole_with k p s st :
  pipe_whole st (ck_trace s) (pipe_of st s) -> (k = st -> pipe_whole st (ck_trace s) p) ->
  pipe_whole st (ck_trace (with_pipe k p s)) (pipe_of st (with_pipe k p s)).
Proof. intros H Hk. destruct k, st; try exact H; by apply Hk. Qed.

Lemma whole_event st l e p :
  pipe_whole st l p -> delivered st (l ++ [e]) = delivered st l -> pipe_whole st (l ++ [e]) p.
Proof. intros H E. unfold pipe_whole. by rewrite E. Qed.

Lemma whole_read k n s s' st :
  pipe_whole st (ck_trace s) (pipe_of st s) -> reader_step k n true s = Some s' ->
  pipe_whole st (ck_trace s') (pipe_of st s').
Proof.
  intros Hp H. unfold reader_step in H.
  destruct (pi_reader (pipe_of k s)) as [enabled|enabled| |] eqn:Er; try done.
  - simplify_eq. apply pipe_whole_with; [done|]. intros ->. unfold pipe_whole in *. rewrite Er in Hp. cbn.
    destruct Hp as (? & -> & ->). done.
  - destruct (pi_unread (pipe_of k s)) as [|b bytes] eqn:Eu.
    + case_match eqn:Eh; simplify_eq. apply pipe_whole_with; [done|]. intros ->. unfold pipe_whole in *.
      rewrite Er, Eu in Hp. cbn. tauto.
    + set (bound := Z.max 1 (Z.min n (64 * 1024))) in *. rewrite <- Eu in H.
      destruct (decide (k = st)) as [->|Hne].
      * unfold pipe_whole in Hp. rewrite Er in Hp. destruct Hp as (Hw & Hc & ->).
        assert (Hs : ck_trace s' = ck_trace s ++ [ev_output (stream_code st) (ztake bound (pi_unread (pipe_of st s)))]
          /\ pipe_of st s' = Build_pipe Calling (pi_written (pipe_of st s)) (zdrop bound (pi_unread (pipe_of st s)))
               (pi_held (pipe_of st s)) (pi_closed (pipe_of st s))) by (by destruct st; simplify_eq).
        destruct Hs as [-> ->]. unfold pipe_whole. cbn. rewrite delivered_snoc, Z.eqb_refl, <- app_assoc.
        rewrite ztake_zdrop. done.
      * assert (Hs : pipe_of st s' = pipe_of st s
          /\ (ck_trace s' = ck_trace s
              \/ ck_trace s' = ck_trace s ++ [ev_output (stream_code k) (ztake bound (pi_unread (pipe_of k s)))]))
          by (destruct enabled, k, st; simplify_eq; auto).
        destruct Hs as [-> [-> | ->]]; [done|]. apply whole_event; [done|]. by apply delivered_other.
  - case_match; simplify_eq. apply pipe_whole_with; [done|]. intros ->. unfold pipe_whole in *. cbn.
    rewrite Er in Hp. tauto.
Qed.

Lemma whole_step a s s' :
  check_ok s -> whole s -> undisturbed a -> step a s = Some s' -> whole s'.
Proof.
  intros Hok [Hp Hw] Ha H. pose proof (starting_idle _ Hok) as Hidle. clear Hok.
  constructor.
  - intros st. specialize (Hp st).
    destruct a as [[| | |k n ok| |]|a|a]; cbn in Ha; subst.
    4: by eapply whole_read.
    all: step_cases H; try (exact Hp);
      try (apply (whole_event _ _ _ _ Hp); rewrite delivered_snoc; by rewrite app_nil_r).
    all: try (apply pipe_whole_with; [done|]; intros ->; unfold pipe_whole in *; cbn;
              destruct (pi_reader _); tauto).
    all: try (destruct (Hidle eq_refl) as (_ & _ & _ & _ & _ & Ht); cbn; by rewrite Ht).
    all: apply pipe_whole_with; [done|]; intros ->; unfold pipe_whole in *; cbn [pipe_of] in *; cbn;
      destruct Hp as (E & ? & Hr); (split; [rewrite E; by rewrite app_assoc|]); split; [done|];
      destruct (pi_reader _); try done; destruct Hr; congruence.
  - destruct a as [[| |late| | |]|[]|[]]; cbn in Ha; subst; step_cases H; done.
Qed.

(** When no output callback fails and the readers are not given up, all that the processes
    have written has been delivered, of each stream, when the exit callback is called. *)
Theorem check_output_complete l s st :
  Forall undisturbed l -> steps l new_check = Some s -> ck_worker s = W_exiting \/ ck_worker s = W_done ->
  delivered st (ck_trace s) = pi_written (pipe_of st s).
Proof.
  intros Hl H Hw.
  assert (Hr : forall l s, Forall undisturbed l -> steps l new_check = Some s -> check_ok s /\ whole s).
  { clear. intros l. induction l as [|a l IH] using rev_ind; intros s Hl H.
    - simplify_eq/=. split; [apply new_check_ok|]. constructor; [|done]. by intros [].
    - apply Forall_app in Hl as [Hl Ha]. apply Forall_cons in Ha as [Ha _]. rewrite check_steps_app in H.
      destruct (steps l new_check) as [s1|] eqn:E; [|done]. destruct (IH s1 Hl eq_refl) as [Hok Hh].
      cbn in H. destruct (step a s1) as [s2|] eqn:E2; [|done]. simplify_eq.
      split; [by eapply step_ok|]. exact (whole_step _ _ _ Hok Hh Ha E2). }
  destruct (Hr l s Hl H) as [Hok [Hp _]]. destruct (Hp st) as (-> & _ & He).
  pose proof (ok_worker _ Hok) as Hk. unfold check_worker_ok in Hk.
  assert (Hb : both_ended s = true) by (destruct Hw as [Hw|Hw]; rewrite Hw in Hk; naive_solver).
  apply andb_prop in Hb as [Ho Hx]. unfold reader_ended in *. cbn [pipe_of] in *.
  assert (Hu : pi_unread (pipe_of st s) = []) by (destruct st; cbn in *; destruct (pi_reader _); naive_solver).
  by rewrite Hu, app_nil_r.
Qed.

(** ** The runtime's steps come to an end

    While the host makes no new call and the processes do nothing, every step of the runtime
    takes off the work that is left. *)

Definition canceller_work (c : canceller) : nat :=
  match c with C_mark => 6 | C_term => 5 | C_poll => 4 | C_join => 3 | C_done => 2 end.

(** Before the process is started its worker and readers are part of the owner's work. *)
Definition owner_work (o : owner) : nat :=
  match o with
  | O_gate => 31
  | O_starting => 30
  | O_report => 1
  | O_started => 8
  | O_published => 7
  | O_cancelling c => canceller_work c
  | O_waiting => 1
  | O_done => 0
  end.

Definition worker_work (w : worker) : nat :=
  match w with
  | W_none => 0
  | W_wait => 9
  | W_kill _ => 8
  | W_drain _ => 7
  | W_close RepositoryCheckStdout _ => 6
  | W_close RepositoryCheckStderr _ => 5
  | W_stop _ => 4
  | W_exit _ => 3
  | W_exiting => 2
  | W_cleanup => 1
  | W_done => 0
  end.

Definition pipe_work (p : pipe) : nat :=
  4 * length (pi_unread p) + (if pi_held p then 1 else 0)
  + match pi_reader p with Idle _ => 2 | Reading _ => 1 | Calling => 3 | Ended => 0 end.

Definition call_work (c : host_call) : nat :=
  match hc_stage c with
  | K_request => 8
  | K_read => 7
  | K_cancelling c => canceller_work c
  | K_destroying => 1
  | K_early | K_cancelled | K_destroyed => 0
  end.

Definition work_left (s : check) : nat :=
  (if ck_gate s then 0 else 1) + owner_work (ck_owner s) + worker_work (ck_worker s)
  + pipe_work (ck_out s) + pipe_work (ck_err s) + sum_list_with call_work (ck_calls s).

Lemma sum_insert (f : host_call -> nat) l i c d :
  l !! i = Some c -> (sum_list_with f (<[i := d]> l) + f c = sum_list_with f l + f d)%nat.
Proof.
  revert i. induction l as [|x l IH]; intros [|i] H; simplify_eq/=; [lia|]. specialize (IH _ H). lia.
Qed.

Lemma drop_some (n : Z) (b : byte) (l : list byte) :
  (length (zdrop (Z.max 1 (Z.min n (64 * 1024))) (b :: l)) <= length l)%nat.
Proof. unfold zdrop. rewrite length_drop. cbn [length]. lia. Qed.

Lemma runtime_decreases a s s' :
  check_ok s -> runtime_step a s = Some s' -> (work_left s' < work_left s)%nat.
Proof.
  intros Hok H. pose proof (starting_idle _ Hok) as Hidle. clear Hok.
  change (step (runtime a) s = Some s') in H.
  destruct a as [| | | |st|i]; try (destruct st); step_cases H; unfold work_left, pipe_work;
    cbn -[Nat.add Nat.mul zdrop length];
    repeat match goal with
      | H : ck_owner _ = _ |- _ => rewrite H | H : ck_worker _ = _ |- _ => rewrite H
      | H : ck_gate _ = _ |- _ => rewrite H | H : pi_reader _ = _ |- _ => rewrite H
      | H : pi_unread _ = _ |- _ => rewrite H | H : pi_held _ = _ |- _ => rewrite H
      | H : ck_calls _ !! _ = Some _ |- context [<[_ := ?d]> _] =>
          pose proof (sum_insert call_work _ _ _ d H); clear H
      | H : hc_stage ?c = _, K : context [call_work ?c] |- _ => unfold call_work in K at 2 4; rewrite H in K; clear H
      end;
    cbn -[Nat.add Nat.mul zdrop length] in *; try lia;
    try (match goal with |- context [zdrop _ (?b :: ?l)] => pose proof (drop_some n b l) end;
         cbn [length]; lia).
  - destruct (Hidle eq_refl) as (-> & _ & -> & -> & _). cbn. lia.
Qed.

(** A call that has asked for cancellation. *)
Definition requesting (c : host_call) : Prop :=
  match hc_stage c with K_read | K_early | K_cancelling _ | K_cancelled => True | _ => False end.

Definition requests_ok (s : check) : Prop :=
  ck_requested s = true -> exists i c, ck_calls s !! i = Some c /\ requesting c.

Lemma call_step_shape i s s' :
  call_step i s = Some s' ->
  exists c st, ck_calls s !! i = Some c /\ ck_calls s' = <[i := Build_host_call (hc_within c) st]> (ck_calls s)
    /\ (ck_requested s' = ck_requested s \/ st = K_read)
    /\ (requesting c -> requesting (Build_host_call (hc_within c) st))
    /\ ps_escaped (ck_processes s') = ps_escaped (ck_processes s).
Proof.
  unfold call_step. destruct (ck_calls s !! i) as [c|]; [|done]. intros H. exists c.
  unfold requesting. destruct (hc_stage c) as [| | |k| | |]; try done.
  - simplify_eq. eexists. split_and!; eauto; done.
  - simplify_eq. destruct (ck_ref s); eexists; split_and!; eauto; done.
  - destruct k; try (case_match eqn:E; [|done]; case_match; simplify_eq;
      pose proof (cancel_step_parts _ _ _ _ E) as (_ & _ & _ & Hr & _ & _ & _ & _ & Hl & _ & Hp & _);
      eexists; split_and!; [done|cbn; by rewrite Hl|by left|done|cbn; by destruct Hp as [-> |[_ ->]]]).
    simplify_eq. eexists. split_and!; eauto; done.
  - case_decide; simplify_eq. eexists. split_and!; eauto; done.
Qed.

Lemma step_requested a s s' :
  is_call_action a = false -> step a s = Some s' -> ck_requested s' = ck_requested s.
Proof. intros Ha H. destruct a as [[]|[]|[]]; try done; clear Ha; step_cases H; done. Qed.

Lemma requests_step a s s' : requests_ok s -> step a s = Some s' -> requests_ok s'.
Proof.
  intros Hr H. unfold requests_ok in *. destruct (is_call_action a) eqn:Ea.
  - destruct a as [[| | | | |i]| |]; try done.
    destruct (call_step_shape _ _ _ H) as (c & st & Hi & -> & Hq & Hc & _).
    pose proof (lookup_lt_Some _ _ _ Hi) as Hlt. intros Hq'.
    destruct Hq as [Hq|Hst]; [|exists i; eexists; split; [by apply list_lookup_insert_eq|by rewrite Hst]].
    rewrite Hq in Hq'. destruct (Hr Hq') as (j & d & Hj & Hd). destruct (decide (i = j)) as [<-|Hne].
    + exists i. eexists. split; [by apply list_lookup_insert_eq|]. apply Hc. congruence.
    + exists j, d. split; [by rewrite list_lookup_insert_ne|done].
  - rewrite (step_requested _ _ _ Ea H). intros Hq. destruct (Hr Hq) as (j & d & Hj & Hd).
    exists j, d. split; [|done].
    destruct (step_calls_frame _ _ _ Ea H) as [->|(w & st & _ & ->)]; [done|by apply lookup_app_l_Some].
Qed.

Lemma reach_requests s : reach s -> requests_ok s.
Proof. intros [l H]. by apply (steps_ind requests_ok (fun a s s' => requests_step a s s') _ _ _ H). Qed.

(** The processes let the check end: the one that was started has exited, or the host has
    asked for cancellation; none is outside of the group.  And no call was made from a
    callback. *)
Record quiet (s : check) : Prop := {
  quiet_calls : Forall (fun c => hc_within c = None) (ck_calls s);
  quiet_escaped : ps_escaped (ck_processes s) = 0%nat;
  quiet_ending : ck_requested s = true \/ exists c, exited c s;
}.

Lemma quiet_runtime a s s' : check_ok s -> quiet s -> runtime_step a s = Some s' -> quiet s'.
Proof.
  intros Hok [Hc He Hq] H. change (step (runtime a) s = Some s') in H.
  pose proof (step_later _ _ _ Hok H) as (Lq & _ & _ & _ & _ & _ & Lx).
  assert (Hq' : ck_requested s' = true \/ exists c, exited c s') by (destruct Hq as [?|[c ?]]; eauto).
  destruct (is_call_action (runtime a)) eqn:Ea.
  - destruct a as [| | | | |i]; try done.
    destruct (call_step_shape _ _ _ H) as (c & st & Hi & Hl & _ & _ & Hx).
    constructor; [|congruence|done]. rewrite Hl. apply Forall_insert; [done|].
    exact (Forall_lookup_1 _ _ _ _ Hc Hi).
  - constructor; [| |done].
    + destruct (step_calls_frame _ _ _ Ea H) as [->|(w & st & Hst & E)]; [done|].
      destruct a as [| | | | |i]; step_cases H; done.
    + clear Hok Hc Lq Lx Hq Hq'. destruct a as [| | | |st|i]; try destruct st; step_cases H; try done;
        by match goal with H : ck_processes _ = _ |- _ => cbn; rewrite H end.
Qed.

Definition call_returned (c : host_call) : Prop := open_call c = false.

Definition check_finished (s : check) : Prop := ck_owner s = O_done /\ Forall call_returned (ck_calls s).

(** The steps that are looked at for the next one. *)
Definition candidates (s : check) : list runtime_action :=
  [do_gate; do_owner None; do_worker true;
   do_reader RepositoryCheckStdout 1 true; do_reader RepositoryCheckStderr 1 true;
   do_pipe RepositoryCheckStdout; do_pipe RepositoryCheckStderr]
  ++ map do_call (seq 0 (length (ck_calls s))).

Definition stuck (s : check) : Prop := Forall (fun a => runtime_step a s = None) (candidates s).

(** One of the actions that are written out. *)
Ltac candidate := apply list_elem_of_In; cbn; tauto.

Section Stuck.
Context (s : check) (Hok : check_ok s) (Hq : quiet s) (Hr : requests_ok s) (Hs : stuck s).

Lemma stuck_at a : a ∈ candidates s -> runtime_step a s = None.
Proof. exact (proj1 (Forall_forall _ _) Hs a). Qed.

Lemma stuck_call i c : ck_calls s !! i = Some c -> call_step i s = None.
Proof.
  intros Hi. apply (stuck_at (do_call i)). unfold candidates. apply elem_of_app. right.
  apply list_elem_of_fmap. exists i. split; [done|]. apply elem_of_seq. pose proof (lookup_lt_Some _ _ _ Hi). lia.
Qed.

Lemma stuck_reader st : reader_step st 1 true s = None.
Proof. apply (stuck_at (do_reader st 1 true)). destruct st; candidate. Qed.

Lemma stuck_pipe st : pipe_step st s = None.
Proof. apply (stuck_at (do_pipe st)). destruct st; candidate. Qed.

Lemma unoccupied p : occupied p s = false.
Proof.
  unfold occupied. apply not_true_is_false. intros H. apply existsb_exists in H as (c & Hc & Hb).
  apply list_elem_of_In in Hc. rewrite (proj1 (Forall_forall _ _) (quiet_calls _ Hq) c Hc) in Hb. done.
Qed.

(** The readers of a check whose process has exited are at their end. *)
Lemma stuck_readers c :
  exited c s -> ps_group (ck_processes s) = 0%nat ->
  forall st, reader_ended st s = true.
Proof.
  intros Hx Hg st. pose proof (stuck_reader st) as Hd. pose proof (stuck_pipe st) as Hp.
  unfold reader_step in Hd. unfold reader_ended. destruct (pi_reader (pipe_of st s)) as [e|e| |]; try done.
  - exfalso. unfold pipe_step in Hp. destruct (pi_unread _); [|done].
    pose proof (quiet_escaped _ Hq) as He. unfold exited in Hx. destruct (ck_processes s) as [l g x].
    cbn in *. subst. by destruct (pi_held _).
  - by rewrite unoccupied in Hd.
Qed.

Lemma stuck_worker c : exited c s -> ck_worker s = W_done.
Proof.
  intros Hx. assert (Hw : worker_step true s = None) by (apply (stuck_at (do_worker true)); candidate).
  pose proof (ok_worker _ Hok) as Hk. unfold check_worker_ok in Hk. unfold worker_step in Hw.
  pose proof (stuck_readers _ Hx) as He.
  destruct (ck_worker s) as [| |k|k|st k|k|k| | |] eqn:Ew; try done.
  - exfalso. destruct Hk as (Hp & _). unfold exited in Hx. by rewrite Hp in Hx.
  - unfold exited in Hx. by rewrite Hx in Hw.
  - by destruct (both_ended s).
  - exfalso. assert (Hg : ps_group (ck_processes s) = 0%nat) by (destruct st; tauto).
    unfold locked in Hw. specialize (He Hg st). unfold reader_ended in He. by destruct (pi_reader _).
  - exfalso. destruct Hk as ((_ & Hg) & _). unfold both_ended in Hw. by rewrite !(He Hg) in Hw.
  - by rewrite unoccupied in Hw.
Qed.

Lemma canceller_stuck c :
  ck_worker s <> W_none -> canceller_ok c s -> cancel_step c s = None -> c <> C_done -> ck_worker s = W_done.
Proof.
  intros Hn [_ Hc] H Hd. destruct c; try done. destruct Hc as (_ & _ & c & Hx). by eapply stuck_worker.
Qed.

Lemma stuck_owner : ck_owner s = O_done.
Proof.
  assert (Hg : ck_gate s = true).
  { assert (H : runtime_step do_gate s = None) by (apply (stuck_at do_gate); candidate). cbn in H.
    by destruct (ck_gate s). }
  assert (Ho : owner_step None s = None) by (apply (stuck_at (do_owner None)); candidate).
  pose proof (ok_owner _ Hok) as Hk. unfold owner_step in Ho. unfold owner_ok in Hk.
  destruct (ck_owner s) as [| | | | |c| |] eqn:Eo; try done.
  - by rewrite Hg in Ho.
  - by rewrite unoccupied in Ho.
  - exfalso. destruct Hk as (Hn & _ & Hc). destruct c; try done. cbn in Ho. case_decide as Hd; [done|].
    apply Hd. destruct Hc as (_ & _ & _ & c & Hx). by eapply stuck_worker.
  - exfalso. case_decide as Hd; [done|]. apply Hd. destruct Hk as [Hn _].
    destruct (quiet_ending _ Hq) as [Hreq|[c Hx]]; [|by eapply stuck_worker].
    destruct (Hr Hreq) as (i & c & Hi & Hc). pose proof (stuck_call _ _ Hi) as Hst.
    pose proof (Forall_lookup_1 _ _ _ _ (ok_calls _ Hok) Hi) as Hcall. unfold call_step in Hst.
    rewrite Hi in Hst. unfold requesting in Hc. unfold call_ok in Hcall.
    destruct (hc_stage c) as [| | |k| | |]; try done.
    + destruct Hcall as [_ He]. unfold early_ok in He. rewrite Eo in He. apply He.
    + destruct Hcall as [_ Hcall]. eapply canceller_stuck; [done|done|..].
      * destruct k; try done. by destruct (cancel_step C_join s) as [[]|].
      * by intros ->.
    + apply Hcall.
Qed.

Lemma stuck_finished : check_finished s.
Proof.
  split; [apply stuck_owner|]. apply Forall_lookup. intros i c Hi.
  pose proof (stuck_call _ _ Hi) as Hst. pose proof (Forall_lookup_1 _ _ _ _ (ok_calls _ Hok) Hi) as Hcall.
  pose proof stuck_owner as Ho. pose proof (ok_owner _ Hok) as Hk. unfold owner_ok in Hk. rewrite Ho in Hk.
  unfold call_step in Hst. rewrite Hi in Hst. unfold call_returned, open_call. unfold call_ok in Hcall.
  destruct (hc_stage c) as [| | |k| | |]; try done.
  - exfalso. destruct k; try done. cbn in Hst. case_decide as Hd; [done|]. apply Hd.
    destruct Hcall as [? _]. intuition congruence.
  - by case_decide.
Qed.

End Stuck.

Lemma runtime_kept a s s' :
  check_ok s /\ quiet s /\ requests_ok s -> runtime_step a s = Some s' ->
  check_ok s' /\ quiet s' /\ requests_ok s'.
Proof.
  intros (Hok & Hq & Hr) H. split_and!; [by eapply (step_ok (runtime a))|by eapply quiet_runtime|].
  by eapply (requests_step (runtime a)).
Qed.

Lemma runtime_runs l s s' :
  check_ok s /\ quiet s /\ requests_ok s -> steps (map runtime l) s = Some s' ->
  (check_ok s' /\ quiet s' /\ requests_ok s') /\ (length l + work_left s' <= work_left s)%nat.
Proof.
  revert s. induction l as [|a l IH]; intros s Hk; cbn; [intros [= <-]; by split|].
  destruct (runtime_step a s) as [s1|] eqn:E; [|done]. intros H.
  destruct (IH s1 (runtime_kept _ _ _ Hk E) H) as [? ?]. split; [done|].
  pose proof (runtime_decreases _ _ _ (proj1 Hk) E). lia.
Qed.

Lemma finish_by n s :
  (work_left s <= n)%nat -> check_ok s /\ quiet s /\ requests_ok s ->
  exists l s', steps (map runtime l) s = Some s' /\ check_finished s'.
Proof.
  revert s. induction n as [n IH] using lt_wf_ind. intros s Hn Hk.
  destruct (decide (Exists (fun a => is_Some (runtime_step a s)) (candidates s))) as [H|H].
  - apply Exists_exists in H as (a & _ & s1 & E). pose proof (runtime_decreases _ _ _ (proj1 Hk) E).
    destruct (IH (work_left s1) ltac:(lia) s1 ltac:(lia) (runtime_kept _ _ _ Hk E)) as (l & s' & Hl & Hf).
    exists (a :: l), s'. split; [|done]. cbn. by rewrite E.
  - exists [], s. split; [done|]. destruct Hk as (Hok & Hq & Hr). apply stuck_finished; try done.
    apply not_Exists_Forall in H; [|intros a; apply _]. eapply Forall_impl; [exact H|]. cbn.
    intros a Ha. by destruct (runtime_step a s) eqn:E; [destruct Ha|].
Qed.

(** C33: a check ends.  When its process has exited or the host has asked for cancellation, no
    process is outside of its group, no call was made from a callback, and processes and host do
    nothing more, then the runtime takes at most [work_left s] steps, in whatever order its threads
    run; it can always go on until the check's owner is done and every call has returned; and
    it stops only there. *)
Theorem check_finishes s :
  reach s -> quiet s ->
  (exists l s', steps (map runtime l) s = Some s' /\ check_finished s')
  /\ forall l s', steps (map runtime l) s = Some s' ->
       (length l <= work_left s)%nat
       /\ ((forall a, runtime_step a s' = None) -> check_finished s').
Proof.
  intros Hreach Hq.
  assert (Hk : check_ok s /\ quiet s /\ requests_ok s) by (auto using reach_ok, reach_requests).
  split; [by eapply finish_by|]. intros l s' H. destruct (runtime_runs _ _ _ Hk H) as [(? & ? & ?) ?].
  split; [lia|]. intros Hs. apply stuck_finished; try done. by apply Forall_forall.
Qed.

(** ** What the header does not say *)

(** A call that is made from a callback waits for itself. *)
Definition waits_in (p : place) (i : nat) (s : check) : Prop :=
  ck_calls s !! i = Some (Build_host_call (Some p) K_destroying) /\ in_flight p s = true.

Lemma in_flight_unfinished p s : check_ok s -> in_flight p s = true -> ck_owner s <> O_done.
Proof.
  intros Hok Hf Ho. pose proof (ok_owner _ Hok) as Hk. pose proof (ok_worker _ Hok) as Hw.
  unfold owner_ok in Hk. rewrite Ho in Hk. unfold check_worker_ok in Hw.
  destruct Hk as [(E & _)|[E _]]; rewrite E in Hw.
  - destruct Hw as (_ & Eo & Ee). destruct p as [[]|]; cbn in Hf; by rewrite ?Eo, ?Ee, ?E, ?Ho in Hf.
  - destruct Hw as (c & _ & _ & Hb & _). apply andb_prop in Hb as [H1 H2]. unfold reader_ended in *. cbn in *.
    destruct p as [[]|]; cbn in Hf; rewrite ?E, ?Ho in Hf; try done; by destruct (pi_reader _).
Qed.

Lemma waits_occupied p i s : waits_in p i s -> occupied p s = true.
Proof.
  intros [Hi _]. apply existsb_exists. eexists. split; [by apply list_elem_of_In, list_elem_of_lookup; eexists|].
  cbn. by rewrite bool_decide_true.
Qed.

(** A callback that is occupied goes on. *)
Lemma calling_step st a s s' :
  check_ok s -> pi_reader (pipe_of st s) = Calling -> occupied (in_output st) s = true ->
  step a s = Some s' -> pi_reader (pipe_of st s') = Calling.
Proof.
  intros Hok Hr Ho H. pose proof (starting_idle _ Hok) as Hidle. clear Hok.
  assert (Hi : ck_owner s <> O_starting).
  { intros E. destruct (Hidle E) as (_ & _ & Eo & Ee & _). destruct st; cbn in Hr; by rewrite ?Eo, ?Ee in Hr. }
  clear Hidle. destruct a as [[| | |k n ok|k|]|[]|[| | | | |k bytes|k]]; try destruct k; step_cases H;
    cbn in *; congruence.
Qed.

Lemma exiting_step a s s' :
  check_ok s -> occupied in_exit s = true -> step a s = Some s' ->
  (ck_worker s = W_exiting -> ck_worker s' = W_exiting)
  /\ (ck_owner s = O_report -> ck_owner s' = O_report).
Proof.
  intros Hok Ho H. pose proof (starting_idle _ Hok) as Hidle. clear Hok.
  destruct a as [[| | | | |]|[]|[]]; step_cases H; cbn; split; intros; try congruence.
  destruct (Hidle eq_refl). congruence.
Qed.

Lemma waits_step a p i s s' : check_ok s -> waits_in p i s -> step a s = Some s' -> waits_in p i s'.
Proof.
  intros Hok Hw H. pose proof (waits_occupied _ _ _ Hw) as Ho. destruct Hw as [Hi Hf].
  pose proof (in_flight_unfinished _ _ Hok Hf) as Hn. split.
  - destruct (is_call_action a) eqn:Ea.
    + destruct a as [[| | | | |j]| |]; try done. cbn in H. destruct (decide (i = j)) as [<-|Hne].
      * unfold call_step in H. rewrite Hi in H. cbn in H. by case_decide.
      * destruct (call_step_shape _ _ _ H) as (c & st & _ & -> & _). by rewrite list_lookup_insert_ne.
    + destruct (step_calls_frame _ _ _ Ea H) as [->|(w & st & _ & ->)]; [done|by apply lookup_app_l_Some].
  - clear Hi Hn. destruct p as [st|]; cbn [in_flight] in *.
    + rewrite (calling_step st a s s'); try done. by destruct (pi_reader (pipe_of st s)).
    + destruct (exiting_step _ _ _ Hok Ho H) as [Hx Hr]. apply orb_prop in Hf as [Hf|Hf].
      * rewrite Hx; [done|]. by destruct (ck_worker s).
      * rewrite Hr, orb_true_r; [done|]. by destruct (ck_owner s).
Qed.

(** "A check callback must not call ha_repository_check_destroy [...] Reentrant destroy is
    detected and is a no-op": a destroy that the host calls from a callback of the check is not
    detected - the call runs on a thread that [isRepositoryCallbackThread] does not know - and
    waits for the callback it was called from; it never returns, nor does the callback, whatever
    the runtime, the host and the processes do. *)
Theorem reentrant_destroy_never_returns l p i s s' :
  reach s -> ck_calls s !! i = Some (Build_host_call (Some p) K_destroying) -> in_flight p s = true ->
  steps l s = Some s' ->
  ck_calls s' !! i = Some (Build_host_call (Some p) K_destroying) /\ in_flight p s' = true
  /\ ck_owner s' <> O_done.
Proof.
  intros Hok%reach_ok Hi Hf H.
  assert (Hw : waits_in p i s' /\ check_ok s').
  { apply (steps_ind (fun s => waits_in p i s /\ check_ok s)
             (fun a s s' Hk H => conj (waits_step _ _ _ _ _ (proj2 Hk) (proj1 Hk) H)
                                   (step_ok _ _ _ (proj2 Hk) H)) _ _ _ H).
    by split. }
  destruct Hw as [[Hi' Hf'] Hok']. split_and!; [done..|]. by eapply in_flight_unfinished.
Qed.

(** "Cancel targets the check's process group and joins teardown before returning": a cancel
    that comes while the check is being started returns at once, and the process is started
    after it. *)
Definition early_run : list action :=
  [runtime do_gate; runtime (do_owner None); host (host_cancel None); runtime (do_call 0); runtime (do_call 0);
   runtime (do_owner None)].

Example early_cancel :
  exists s, steps early_run new_check = Some s
    /\ hc_stage <$> (ck_calls s !! 0%nat) = Some K_early /\ ps_leader (ck_processes s) = Some None.
Proof. eexists. by vm_compute. Qed.

(** ** A descendant that has left the group *)

(** The worker closes the standard output while its reader is in [hGetSome], and a process outside
    of the group holds the pipe. *)
Definition blocked (s : check) : Prop :=
  (exists code, ck_worker s = W_close RepositoryCheckStdout code)
  /\ (exists e, pi_reader (ck_out s) = Reading e) /\ pi_unread (ck_out s) = [] /\ pi_held (ck_out s) = true
  /\ exists n, ps_escaped (ck_processes s) = S n.

(** The process outside of the group goes on as it is. *)
Definition keeps_pipe (a : action) : Prop :=
  match a with
  | process escaped_exits | process (writes RepositoryCheckStdout _)
  | process (releases RepositoryCheckStdout) => False
  | _ => True
  end.

Lemma blocked_step a s s' :
  check_ok s -> blocked s -> keeps_pipe a -> step a s = Some s' -> blocked s'.
Proof.
  intros Hok ((code & Hw) & (e & Hr) & Hu & Hh & n & Hn) Ha H.
  pose proof (starting_idle _ Hok) as Hidle. clear Hok.
  assert (Hi : ck_owner s <> O_starting) by (intros E; destruct (Hidle E); congruence). clear Hidle.
  destruct a as [[| | |k m ok|k|]|[]|[| | | | |k bytes|k]]; try destruct k; try done; step_cases H;
    unfold blocked; cbn in *; try congruence; eauto 10.
  unfold locked in *. cbn [pipe_of] in *. by rewrite Hr in *.
Qed.

(** "An escaped process outside the group still cannot hold this worker indefinitely": it can.
    When the readers have not ended within a second the worker closes their handles, and [hClose]
    waits for the lock that the reader holds in [hGetSome]; the readers are cancelled only after
    that.  As long as a process outside of the group keeps the pipe open and writes nothing, the
    worker stays where it is: the exit callback is not called and neither cancel nor destroy
    returns, whatever else happens. *)
Theorem escaped_process_blocks l s s' :
  reach s -> blocked s -> Forall keeps_pipe l -> steps l s = Some s' ->
  blocked s' /\ Forall is_output (ck_trace s') /\ ck_owner s' <> O_done
  /\ Forall (fun c => hc_stage c <> K_cancelled /\ hc_stage c <> K_destroyed) (ck_calls s').
Proof.
  intros Hok%reach_ok Hb Hl H.
  assert (Hk : blocked s' /\ check_ok s').
  { revert s Hok Hb H. induction Hl as [|a l Ha _ IH]; intros s Hok Hb H; [by simplify_eq/=|].
    cbn in H. destruct (step a s) as [s1|] eqn:E; [|done]. apply (IH s1); [by eapply step_ok| |done].
    exact (blocked_step _ _ _ Hok Hb Ha E). }
  clear Hb. destruct Hk as [Hb Hok']. pose proof Hb as ((code & Hw) & _).
  pose proof (ok_worker _ Hok') as Hi. unfold check_worker_ok in Hi. rewrite Hw in Hi.
  assert (Ho : ck_owner s' <> O_done).
  { intros E. pose proof (ok_owner _ Hok') as Ho. unfold owner_ok in Ho. rewrite E in Ho.
    destruct Ho as [(? & _)|[? _]]; congruence. }
  split_and!; [done|apply Hi|done|]. eapply Forall_impl; [exact (ok_calls _ Hok')|].
  intros c Hc. unfold call_ok in Hc. split; intros E; rewrite E in Hc; [|done].
  destruct Hc as (_ & _ & ?). congruence.
Qed.

(** ** Runs that are evaluated *)

(** A check that writes to both streams, is read, and exits with 3. *)
Definition plain_run : list action :=
  [runtime do_gate; runtime (do_owner None); runtime (do_owner None); runtime (do_owner None);
   runtime (do_owner None); process (writes RepositoryCheckStdout [Byte.x61; Byte.x62]);
   runtime (do_reader RepositoryCheckStdout 1 true); runtime (do_reader RepositoryCheckStdout 1 true);
   runtime (do_reader RepositoryCheckStdout 1 true); process (writes RepositoryCheckStderr [Byte.x63]);
   process (leader_exits 3); runtime (do_worker false); runtime (do_worker false);
   runtime (do_pipe RepositoryCheckStdout); runtime (do_pipe RepositoryCheckStderr);
   runtime (do_reader RepositoryCheckStdout 1 true); runtime (do_reader RepositoryCheckStdout 9 true);
   runtime (do_reader RepositoryCheckStdout 1 true); runtime (do_reader RepositoryCheckStdout 1 true);
   runtime (do_reader RepositoryCheckStdout 1 true);
   runtime (do_reader RepositoryCheckStderr 1 true); runtime (do_reader RepositoryCheckStderr 1 true);
   runtime (do_reader RepositoryCheckStderr 1 true); runtime (do_reader RepositoryCheckStderr 1 true);
   runtime (do_reader RepositoryCheckStderr 1 true);
   runtime (do_worker false); runtime (do_worker false)].

Definition end_of_run : list action :=
  [runtime (do_worker false); runtime (do_worker false); runtime (do_owner None);
   host (host_destroy None); runtime (do_call 0)].

Definition run_of (l : list action) : check := default new_check (steps l new_check).

Example plain_run_trace :
  ck_trace (run_of plain_run)
  = [ev_output 1 [Byte.x61]; ev_output 1 [Byte.x62]; ev_output 2 [Byte.x63]; ev_exit 0 3 None].
Proof. by vm_compute. Qed.

Definition runs_through (l : list action) : bool := match steps l new_check with Some _ => true | None => false end.

Lemma run_steps l : runs_through l = true -> steps l new_check = Some (run_of l).
Proof. unfold runs_through, run_of. by destruct (steps l new_check). Qed.

Lemma run_reach l : runs_through l = true -> reach (run_of l).
Proof. intros H. exists l. by apply run_steps. Qed.

Lemma check_callbacks_conform_witness :
  delivered RepositoryCheckStdout (ck_trace (run_of plain_run))
  `prefix_of` pi_written (pipe_of RepositoryCheckStdout (run_of plain_run)).
Proof. apply (check_callbacks_conform (run_of plain_run)). apply run_reach. by vm_compute. Defined.

Lemma check_output_complete_witness :
  delivered RepositoryCheckStdout (ck_trace (run_of plain_run))
  = pi_written (pipe_of RepositoryCheckStdout (run_of plain_run)).
Proof.
  apply (check_output_complete plain_run); [|apply run_steps; by vm_compute|left; by vm_compute].
  repeat constructor.
Defined.

Example destroyed_run :
  hc_stage <$> (ck_calls (run_of (plain_run ++ end_of_run)) !! 0%nat) = Some K_destroyed
  /\ ck_freed (run_of (plain_run ++ end_of_run)) = true.
Proof. by vm_compute. Qed.

(** A check that is cancelled: it ignores SIGTERM and is killed. *)
Definition cancel_run : list action :=
  [runtime do_gate; runtime (do_owner None); runtime (do_owner None); runtime (do_owner None);
   runtime (do_owner None); host (host_cancel None)]
  ++ repeat (runtime (do_call 0)) 5.

Definition cancelled_run : list action :=
  cancel_run
  ++ [runtime (do_worker false); runtime (do_worker false);
      runtime (do_pipe RepositoryCheckStdout); runtime (do_pipe RepositoryCheckStderr);
      runtime (do_reader RepositoryCheckStdout 1 true); runtime (do_reader RepositoryCheckStdout 1 true);
      runtime (do_reader RepositoryCheckStderr 1 true); runtime (do_reader RepositoryCheckStderr 1 true);
      runtime (do_worker false); runtime (do_worker false); runtime (do_worker false);
      runtime (do_worker false); runtime (do_call 0); runtime (do_call 0)].

Example cancelled_run_trace : ck_trace (run_of cancelled_run) = [ev_exit 1 (-9) None].
Proof. by vm_compute. Qed.

Lemma check_teardown_witness :
  ck_cancelled (run_of cancelled_run) = true /\ ck_termed (run_of cancelled_run) = true
  /\ torn_down (run_of cancelled_run).
Proof.
  apply (check_teardown _ (Build_host_call None K_cancelled)).
  - apply run_reach. by vm_compute.
  - apply list_elem_of_lookup. exists 0%nat. by vm_compute.
Defined.

Lemma check_finishes_witness :
  exists l s', steps (map runtime l) (run_of cancel_run) = Some s' /\ check_finished s'.
Proof.
  apply (check_finishes (run_of cancel_run)); [apply run_reach; by vm_compute|].
  constructor; [|done|left; by vm_compute].
  replace (ck_calls (run_of cancel_run)) with [Build_host_call None (K_cancelling C_join)] by (by vm_compute).
  by repeat constructor.
Defined.

(** A destroy in an output callback. *)
Definition reentrant_run : list action :=
  [runtime do_gate; runtime (do_owner None); runtime (do_owner None);
   process (writes RepositoryCheckStdout [Byte.x61]);
   runtime (do_reader RepositoryCheckStdout 1 true); runtime (do_reader RepositoryCheckStdout 1 true);
   host (host_destroy (Some (in_output RepositoryCheckStdout)))].

Lemma reentrant_destroy_never_returns_witness :
  ck_owner (default new_check (steps [process (leader_exits 0); runtime (do_worker false)]
                                 (run_of reentrant_run))) <> O_done.
Proof.
  refine (proj2 (proj2 (reentrant_destroy_never_returns
    [process (leader_exits 0); runtime (do_worker false)] (in_output RepositoryCheckStdout) 0
    (run_of reentrant_run) _ _ _ _ _))).
  - apply run_reach. by vm_compute.
  - by vm_compute.
  - by vm_compute.
  - by vm_compute.
Defined.

(** A process leaves the group with the standard output, and the process that was started exits. *)
Definition blocked_run : list action :=
  [runtime do_gate; runtime (do_owner None); runtime (do_owner None); runtime (do_owner None);
   runtime (do_owner None); process forks; process escapes;
   runtime (do_reader RepositoryCheckStdout 1 true); process (leader_exits 0);
   runtime (do_worker false); runtime (do_worker false); runtime (do_worker true)].

Definition blocked_more : list action := [host (host_destroy None); runtime (do_reader RepositoryCheckStderr 1 true)].

Lemma escaped_process_blocks_witness :
  ck_owner (default new_check (steps blocked_more (run_of blocked_run))) <> O_done.
Proof.
  apply (escaped_process_blocks blocked_more (run_of blocked_run)).
  - apply run_reach. by vm_compute.
  - split; [by eexists; vm_compute|]. split; [by eexists; vm_compute|]. split_and!; [by vm_compute..|].
    by exists 0%nat; vm_compute.
  - repeat constructor.
  - by vm_compute.
Defined.
