(* ===== verification/SkillTables.v ===== *)
(** * The tables of learned skills

    Learned skills are versioned rows of PostgreSQL tables.  This file has the tables and their
    constraints, the statements, and the transactions and queries over them
    (agent-store/src/Agent/Store/Postgres/Skill.hs and Skill/).  A transaction is a function of
    the tables that answers and changes them, or is refused by the server.  SkillStore.v says
    what it all implements. *)

From stdpp Require Import base tactics option list strings.
From Stdlib Require Import ZArith Lia.
From S2P Require Import Prelude Utf8 HostCall.
#[local] Open Scope Z_scope.

(** ** Skills *)

Inductive ScopeKind := UserScope | RepositoryScope | CheckoutScope.

Record Scope := { scopeKind : ScopeKind; scopeId : text }.

Inductive LearnedSkillActivation := SkillAlways | SkillRelevant | SkillManual.

Inductive LearnedSkillStatus := SkillActive | SkillArchived.

(** The seven fields that a skill and each of its revisions have, and that
    [sameSkillContents] compares. *)
Record contents := {
  skillTitle : text;
  skillDescription : text;
  skillAppliesWhen : text;
  skillInstructions : text;
  skillActivation : LearnedSkillActivation;
  skillPriority : Z;
  skillStatus : LearnedSkillStatus;
}.

#[export] Instance ScopeKind_eq_dec : EqDecision ScopeKind.
Proof. solve_decision. Defined.
#[export] Instance Scope_eq_dec : EqDecision Scope.
Proof. solve_decision. Defined.
#[export] Instance LearnedSkillActivation_eq_dec : EqDecision LearnedSkillActivation.
Proof. solve_decision. Defined.
#[export] Instance LearnedSkillStatus_eq_dec : EqDecision LearnedSkillStatus.
Proof. solve_decision. Defined.
#[export] Instance contents_eq_dec : EqDecision contents.
Proof. solve_decision. Defined.

(** Times are in picoseconds since the Unix epoch, as [UTCTime] counts. *)
Record LearnedSkill := {
  learnedSkillId : text;
  learnedSkillScope : Scope;
  learnedSkillSlug : text;
  learnedSkillContents : contents;
  learnedSkillRevision : Z;
  learnedSkillCreatedAt : Z;
  learnedSkillUpdatedAt : Z;
}.

Record LearnedSkillRevision := {
  learnedSkillRevisionId : text;
  learnedSkillRevisionNumber : Z;
  learnedSkillRevisionContents : contents;
  learnedSkillRevisionSummary : text;
  learnedSkillRevisionCreatedAt : Z;
}.

Record LearnedSkillSourceInput := {
  learnedSkillSourceInputSessionKey : option text;
  learnedSkillSourceInputTurnIndex : option Z;
  learnedSkillSourceInputResponseItemId : option text;
  learnedSkillSourceInputEvidence : text;
}.

Record LearnedSkillPatch := {
  learnedSkillPatchTitle : option text;
  learnedSkillPatchDescription : option text;
  learnedSkillPatchAppliesWhen : option text;
  learnedSkillPatchInstructions : option text;
  learnedSkillPatchActivation : option LearnedSkillActivation;
  learnedSkillPatchPriority : option Z;
  learnedSkillPatchStatus : option LearnedSkillStatus;
}.

Definition emptySkillPatch : LearnedSkillPatch :=
  Build_LearnedSkillPatch None None None None None None None.

(** What [LearnedSkillCreate], [LearnedSkillUpdate] and [LearnedSkillRollback] ask for. *)
Inductive change :=
  | LearnedSkillCreate (c : contents)
  | LearnedSkillUpdate (expectedRevision : Z) (patch : LearnedSkillPatch)
  | LearnedSkillRollback (expectedRevision targetRevision : Z).

(** The fields that the three have in common. *)
Record mutation := {
  mutationScope : Scope;
  mutationSlug : text;
  mutationChange : change;
  mutationSummary : text;
  mutationSource : LearnedSkillSourceInput;
  mutationAt : Z;
}.

Inductive LearnedSkillMutationResult :=
  | LearnedSkillMutationApplied (skill : LearnedSkill)
  | LearnedSkillMutationAlreadyExists
  | LearnedSkillMutationNotFound
  | LearnedSkillMutationConflict (revision : Z)
  | LearnedSkillMutationRevisionNotFound.

(** ** Tables

    The columns that harness.skills and harness.skill_revisions share. *)
Record columns := {
  title : text;
  description : text;
  applies_when : text;
  instructions_text : text;
  activation_mode : text;
  priority : Z;
  status : text;
}.

Record SkillRow := {
  skillRowId : text;
  skillRowScopeKind : text;
  skillRowScopeId : text;
  skillRowSlug : text;
  skillRowColumns : columns;
  skillRowRevision : Z;
  skillRowCreatedAt : Z;
  skillRowUpdatedAt : Z;
}.

Record RevisionRow := {
  revisionRowId : text;
  revisionRowSkillId : text;
  revisionRowNumber : Z;
  revisionRowColumns : columns;
  revisionRowSummary : text;
  revisionRowCreatedAt : Z;
}.

Record SourceRow := {
  sourceRowId : text;
  sourceRowRevisionId : text;
  sourceRowInput : LearnedSkillSourceInput;
  sourceRowCreatedAt : Z;
}.

(** Rows in the order of their insertion. *)
Record tables := {
  skills : list SkillRow;
  skill_revisions : list RevisionRow;
  skill_sources : list SourceRow;
}.

Definition no_tables : tables := Build_tables [] [] [].

(** *** Columns as text *)

Definition scopeKindText (k : ScopeKind) : text :=
  match k with
  | UserScope => txt "user"
  | RepositoryScope => txt "repository"
  | CheckoutScope => txt "checkout"
  end.

Definition learnedSkillActivationText (a : LearnedSkillActivation) : text :=
  match a with
  | SkillAlways => txt "always"
  | SkillRelevant => txt "relevant"
  | SkillManual => txt "manual"
  end.

Definition learnedSkillStatusText (s : LearnedSkillStatus) : text :=
  match s with SkillActive => txt "active" | SkillArchived => txt "archived" end.

Definition scopeKindFromText (s : text) : text + ScopeKind :=
  if decide (s = txt "user") then inr UserScope
  else if decide (s = txt "repository") then inr RepositoryScope
  else if decide (s = txt "checkout") then inr CheckoutScope
  else inl (txt "unknown learned skill scope kind: " ++ s).

Definition activationFromText (s : text) : text + LearnedSkillActivation :=
  if decide (s = txt "always") then inr SkillAlways
  else if decide (s = txt "relevant") then inr SkillRelevant
  else if decide (s = txt "manual") then inr SkillManual
  else inl (txt "unknown learned skill activation mode: " ++ s).

Definition statusFromText (s : text) : text + LearnedSkillStatus :=
  if decide (s = txt "active") then inr SkillActive
  else if decide (s = txt "archived") then inr SkillArchived
  else inl (txt "unknown learned skill status: " ++ s).

Definition columns_of (c : contents) : columns := {|
  title := skillTitle c;
  description := skillDescription c;
  applies_when := skillAppliesWhen c;
  instructions_text := skillInstructions c;
  activation_mode := learnedSkillActivationText (skillActivation c);
  priority := skillPriority c;
  status := learnedSkillStatusText (skillStatus c);
|}.

#[export] Instance either_ret : MRet (sum text) := fun A a => inr a.
#[export] Instance either_bind : MBind (sum text) := fun A B f m =>
  match m with inl e => inl e | inr a => f a end.

Definition decode_columns (c : columns) : text + contents :=
  activation ← activationFromText (activation_mode c);
  status ← statusFromText (status c);
  mret {|
    skillTitle := title c;
    skillDescription := description c;
    skillAppliesWhen := applies_when c;
    skillInstructions := instructions_text c;
    skillActivation := activation;
    skillPriority := priority c;
    skillStatus := status;
  |}.

(** Identifiers are the texts that [mkScopeId] and PostgreSQL's uuid agree on. *)
Definition decodeSkillRow (row : SkillRow) : text + LearnedSkill :=
  kind ← scopeKindFromText (skillRowScopeKind row);
  c ← decode_columns (skillRowColumns row);
  mret {|
    learnedSkillId := skillRowId row;
    learnedSkillScope := {| scopeKind := kind; scopeId := skillRowScopeId row |};
    learnedSkillSlug := skillRowSlug row;
    learnedSkillContents := c;
    learnedSkillRevision := skillRowRevision row;
    learnedSkillCreatedAt := skillRowCreatedAt row;
    learnedSkillUpdatedAt := skillRowUpdatedAt row;
  |}.

Definition decodeRevisionRow (row : RevisionRow) : text + LearnedSkillRevision :=
  c ← decode_columns (revisionRowColumns row);
  mret {|
    learnedSkillRevisionId := revisionRowId row;
    learnedSkillRevisionNumber := revisionRowNumber row;
    learnedSkillRevisionContents := c;
    learnedSkillRevisionSummary := revisionRowSummary row;
    learnedSkillRevisionCreatedAt := revisionRowCreatedAt row;
  |}.

(** *** Constraints

    [length(btrim(s)) > 0]: [btrim] removes spaces. *)
Definition btrim_nonempty (s : text) : bool := existsb (fun c => negb (c =? 32)) s.

(** A text of PostgreSQL has no NUL. *)
Definition no_nul (s : text) : bool := forallb (fun c => negb (c =? 0)) s.

Definition at_most (n : Z) (s : text) : bool := zlen s <=? n.

(** One character of the pattern's brackets. *)
Definition slug_char (c : Z) : bool := (97 <=? c) && (c <=? 122) || (48 <=? c) && (c <=? 57).

(** Matching [[a-z0-9]+(-[a-z0-9]+)*$]; [word] tells whether the last word has a character. *)
Fixpoint slug_match (word : bool) (s : text) : bool :=
  match s with
  | [] => word
  | c :: s =>
      if slug_char c then slug_match true s
      else if c =? 45 then word && slug_match false s
      else false
  end.

Definition in_texts (s : text) (l : list text) : bool := bool_decide (s ∈ l).

Definition check_columns (c : columns) : bool :=
  forallb no_nul [title c; description c; applies_when c; instructions_text c;
                  activation_mode c; status c]
  && btrim_nonempty (title c) && at_most 200 (title c)
  && btrim_nonempty (description c) && at_most 1000 (description c)
  && at_most 2000 (applies_when c)
  && btrim_nonempty (instructions_text c) && at_most 30000 (instructions_text c)
  && in_texts (activation_mode c) [txt "always"; txt "relevant"; txt "manual"]
  && (-100 <=? priority c) && (priority c <=? 100)
  && in_texts (status c) [txt "active"; txt "archived"].

Definition check_skill (r : SkillRow) : bool :=
  in_texts (skillRowScopeKind r) [txt "user"; txt "repository"; txt "checkout"]
  && no_nul (skillRowSlug r) && slug_match false (skillRowSlug r) && at_most 80 (skillRowSlug r)
  && check_columns (skillRowColumns r)
  && (1 <=? skillRowRevision r)
  && (skillRowCreatedAt r <=? skillRowUpdatedAt r).

(** The columns of a revision have fewer constraints. *)
Definition check_revision (r : RevisionRow) : bool :=
  (1 <=? revisionRowNumber r)
  && forallb no_nul [title (revisionRowColumns r); description (revisionRowColumns r);
                     applies_when (revisionRowColumns r); instructions_text (revisionRowColumns r);
                     activation_mode (revisionRowColumns r); status (revisionRowColumns r)]
  && in_texts (activation_mode (revisionRowColumns r))
       [txt "always"; txt "relevant"; txt "manual"]
  && (-100 <=? priority (revisionRowColumns r)) && (priority (revisionRowColumns r) <=? 100)
  && in_texts (status (revisionRowColumns r)) [txt "active"; txt "archived"]
  && no_nul (revisionRowSummary r) && btrim_nonempty (revisionRowSummary r).

Definition check_source (i : LearnedSkillSourceInput) : bool :=
  forallb no_nul (option_list (learnedSkillSourceInputSessionKey i)
                  ++ option_list (learnedSkillSourceInputResponseItemId i))
  && (match learnedSkillSourceInputTurnIndex i with Some n => 0 <=? n | None => true end)
  && no_nul (learnedSkillSourceInputEvidence i)
  && btrim_nonempty (learnedSkillSourceInputEvidence i)
  && at_most 8000 (learnedSkillSourceInputEvidence i).

(** ** Statements

    A statement answers and changes the tables, or the server refuses it, which aborts the
    transaction. *)

Definition txn (A : Type) := tables -> option (A * tables).

#[export] Instance txn_ret : MRet txn := fun A a t => Some (a, t).
#[export] Instance txn_bind : MBind txn := fun A B f m t =>
  match m t with Some (a, t) => f a t | None => None end.

(** What a skill is found by. *)
Definition key := (Scope * text)%type.

Definition row_key (r : SkillRow) : text * text * text :=
  (skillRowScopeKind r, skillRowScopeId r, skillRowSlug r).

Definition key_columns (k : key) : text * text * text :=
  (scopeKindText (scopeKind (fst k)), scopeId (fst k), snd k).

Definition find_skill (k : key) (t : tables) : option SkillRow :=
  find (fun r => bool_decide (row_key r = key_columns k)) (skills t).

(** The identifiers that the server generates for the rows of one transaction. *)
Record uuids := { skill_uuid : text; revision_uuid : text; source_uuid : text }.

Section Statements.
(** The time that a [timestamptz] column keeps. *)
Context (timestamptz : Z -> Z).

(** [insertSkillStatement], without the row it inserts: [None] on the conflict. *)
Definition insertSkillStatement (id : text) (k : key) (c : contents) (at_ : Z)
    : txn (option text) := fun t =>
  let row := {|
    skillRowId := id;
    skillRowScopeKind := scopeKindText (scopeKind (fst k));
    skillRowScopeId := scopeId (fst k);
    skillRowSlug := snd k;
    skillRowColumns := columns_of c;
    skillRowRevision := 1;
    skillRowCreatedAt := timestamptz at_;
    skillRowUpdatedAt := timestamptz at_;
  |} in
  if check_skill row then
    match find_skill k t with
    | Some _ => Some (None, t)
    | None =>
        if bool_decide (id ∈ skillRowId <$> skills t) then None
        else Some (Some id, Build_tables (skills t ++ [row]) (skill_revisions t) (skill_sources t))
    end
  else None.

(** [lockSkillStatement], and [readSkillStatement] without the lock. *)
Definition lockSkillStatement (k : key) : txn (option SkillRow) := fun t =>
  Some (find_skill k t, t).

Definition updated_row (skill : LearnedSkill) (r : SkillRow) : SkillRow :=
  if decide (skillRowId r = learnedSkillId skill) then {|
    skillRowId := skillRowId r;
    skillRowScopeKind := skillRowScopeKind r;
    skillRowScopeId := skillRowScopeId r;
    skillRowSlug := skillRowSlug r;
    skillRowColumns := columns_of (learnedSkillContents skill);
    skillRowRevision := learnedSkillRevision skill;
    skillRowCreatedAt := skillRowCreatedAt r;
    skillRowUpdatedAt := timestamptz (learnedSkillUpdatedAt skill);
  |} else r.

Definition updateSkillStatement (skill : LearnedSkill) : txn unit := fun t =>
  if forallb (fun r => check_skill (updated_row skill r))
       (filter (fun r => skillRowId r = learnedSkillId skill) (skills t)) then
    Some (tt, Build_tables (updated_row skill <$> skills t) (skill_revisions t) (skill_sources t))
  else None.

Definition insertRevisionStatement (id : text) (skill : LearnedSkill) (summary : text)
    : txn text := fun t =>
  let row := {|
    revisionRowId := id;
    revisionRowSkillId := learnedSkillId skill;
    revisionRowNumber := learnedSkillRevision skill;
    revisionRowColumns := columns_of (learnedSkillContents skill);
    revisionRowSummary := summary;
    revisionRowCreatedAt := timestamptz (learnedSkillUpdatedAt skill);
  |} in
  let same r := bool_decide (revisionRowSkillId r = learnedSkillId skill
                             /\ revisionRowNumber r = learnedSkillRevision skill) in
  if check_revision row
     && bool_decide (learnedSkillId skill ∈ skillRowId <$> skills t)
     && negb (bool_decide (id ∈ revisionRowId <$> skill_revisions t))
     && negb (existsb same (skill_revisions t)) then
    Some (id, Build_tables (skills t) (skill_revisions t ++ [row]) (skill_sources t))
  else None.

Definition insertSourceStatement (id revisionId : text) (source : LearnedSkillSourceInput)
    (at_ : Z) : txn unit := fun t =>
  if check_source source
     && bool_decide (revisionId ∈ revisionRowId <$> skill_revisions t)
     && negb (bool_decide (id ∈ sourceRowId <$> skill_sources t)) then
    Some (tt, Build_tables (skills t) (skill_revisions t)
                (skill_sources t ++ [Build_SourceRow id revisionId source (timestamptz at_)]))
  else None.

Definition loadRevisionStatement (id : text) (number : Z) : txn (option RevisionRow) := fun t =>
  Some (find (fun r => bool_decide (revisionRowSkillId r = id /\ revisionRowNumber r = number))
          (skill_revisions t), t).

(** ** Transactions

    [Left] is an error that the transaction itself reports. *)

Definition applySkillPatch (patch : LearnedSkillPatch) (c : contents) : contents := {|
  skillTitle := default (skillTitle c) (learnedSkillPatchTitle patch);
  skillDescription := default (skillDescription c) (learnedSkillPatchDescription patch);
  skillAppliesWhen := default (skillAppliesWhen c) (learnedSkillPatchAppliesWhen patch);
  skillInstructions := default (skillInstructions c) (learnedSkillPatchInstructions patch);
  skillActivation := default (skillActivation c) (learnedSkillPatchActivation patch);
  skillPriority := default (skillPriority c) (learnedSkillPatchPriority patch);
  skillStatus := default (skillStatus c) (learnedSkillPatchStatus patch);
|}.

(** The next revision of a skill: the rest of [applySkillPatch], and [skillFromRevision]. *)
Definition next_revision (current : LearnedSkill) (c : contents) (at_ : Z) : LearnedSkill := {|
  learnedSkillId := learnedSkillId current;
  learnedSkillScope := learnedSkillScope current;
  learnedSkillSlug := learnedSkillSlug current;
  learnedSkillContents := c;
  learnedSkillRevision := i64_wrap (learnedSkillRevision current + 1);
  learnedSkillCreatedAt := learnedSkillCreatedAt current;
  learnedSkillUpdatedAt := at_;
|}.

Definition skillFromCreate (id : text) (m : mutation) (c : contents) : LearnedSkill := {|
  learnedSkillId := id;
  learnedSkillScope := mutationScope m;
  learnedSkillSlug := mutationSlug m;
  learnedSkillContents := c;
  learnedSkillRevision := 1;
  learnedSkillCreatedAt := mutationAt m;
  learnedSkillUpdatedAt := mutationAt m;
|}.

Definition mutation_key (m : mutation) : key := (mutationScope m, mutationSlug m).

Definition unchanged_message : text := txt "learned skill update does not change any stored field".

Definition target_message : text :=
  txt "learned skill rollback target must be earlier than the current revision".

(** The revision and the source of a change that was made. *)
Definition record_revision (ids : uuids) (m : mutation) (skill : LearnedSkill)
    : txn (text + LearnedSkillMutationResult) :=
  revisionId ← insertRevisionStatement (revision_uuid ids) skill (mutationSummary m);
  insertSourceStatement (source_uuid ids) revisionId (mutationSource m) (mutationAt m) ;;
  mret (inr (LearnedSkillMutationApplied skill)).

Definition createLearnedSkill (ids : uuids) (m : mutation) (c : contents)
    : txn (text + LearnedSkillMutationResult) :=
  inserted ← insertSkillStatement (skill_uuid ids) (mutation_key m) c (mutationAt m);
  match inserted with
  | None => mret (inr LearnedSkillMutationAlreadyExists)
  | Some skillId => record_revision ids m (skillFromCreate skillId m c)
  end.

(** What [updateLearnedSkill] and [rollbackLearnedSkill] do first. *)
Definition with_current (m : mutation) (expected : Z)
    (action : LearnedSkill -> txn (text + LearnedSkillMutationResult))
    : txn (text + LearnedSkillMutationResult) :=
  currentRow ← lockSkillStatement (mutation_key m);
  match currentRow with
  | None => mret (inr LearnedSkillMutationNotFound)
  | Some row =>
      match decodeSkillRow row with
      | inl err => mret (inl err)
      | inr current =>
          if decide (learnedSkillRevision current = expected) then action current
          else mret (inr (LearnedSkillMutationConflict (learnedSkillRevision current)))
      end
  end.

Definition updateLearnedSkill (ids : uuids) (m : mutation) (expected : Z)
    (patch : LearnedSkillPatch) : txn (text + LearnedSkillMutationResult) :=
  with_current m expected (fun current =>
    let updated :=
      next_revision current (applySkillPatch patch (learnedSkillContents current)) (mutationAt m) in
    if decide (learnedSkillContents current = learnedSkillContents updated) then
      mret (inl unchanged_message)
    else updateSkillStatement updated ;; record_revision ids m updated).

Definition rollbackLearnedSkill (ids : uuids) (m : mutation) (expected target : Z)
    : txn (text + LearnedSkillMutationResult) :=
  with_current m expected (fun current =>
    if learnedSkillRevision current <=? target then mret (inl target_message)
    else
      targetRow ← loadRevisionStatement (learnedSkillId current) target;
      match targetRow with
      | None => mret (inr LearnedSkillMutationRevisionNotFound)
      | Some rawRevision =>
          match decodeRevisionRow rawRevision with
          | inl err => mret (inl err)
          | inr revision =>
              let restored :=
                next_revision current (learnedSkillRevisionContents revision) (mutationAt m) in
              updateSkillStatement restored ;; record_revision ids m restored
          end
      end).

Definition transaction (ids : uuids) (m : mutation) : txn (text + LearnedSkillMutationResult) :=
  match mutationChange m with
  | LearnedSkillCreate c => createLearnedSkill ids m c
  | LearnedSkillUpdate expected patch => updateLearnedSkill ids m expected patch
  | LearnedSkillRollback expected target => rollbackLearnedSkill ids m expected target
  end.

End Statements.

(** ** Queries *)

Definition readLearnedSkill (k : key) (t : tables) : text + option LearnedSkill :=
  match find_skill k t with
  | None => inr None
  | Some row => skill ← decodeSkillRow row; mret (Some skill)
  end.

(** The rows of the join of both tables, for one skill. *)
Definition joined (k : key) (t : tables) : list RevisionRow :=
  match find_skill k t with
  | None => []
  | Some row => filter (fun r => revisionRowSkillId r = skillRowId row) (skill_revisions t)
  end.

Definition readLearnedSkillRevision (k : key) (n : Z) (t : tables)
    : text + option LearnedSkillRevision :=
  match find (fun r => revisionRowNumber r =? n) (joined k t) with
  | None => inr None
  | Some row => revision ← decodeRevisionRow row; mret (Some revision)
  end.

(** [ORDER BY revision_number DESC]. *)
Fixpoint insert_desc (r : RevisionRow) (l : list RevisionRow) : list RevisionRow :=
  match l with
  | [] => [r]
  | x :: l => if revisionRowNumber x <=? revisionRowNumber r then r :: x :: l
              else x :: insert_desc r l
  end.

Definition order_desc (l : list RevisionRow) : list RevisionRow :=
  foldl (fun l r => insert_desc r l) [] l.

(** [traverse]. *)
Fixpoint decode_all {A B} (f : A -> text + B) (l : list A) : text + list B :=
  match l with
  | [] => mret []
  | x :: l => y ← f x; ys ← decode_all f l; mret (y :: ys)
  end.

Definition page_limit (limit : Z) : Z := Z.max 1 (Z.min 1000 limit).

Definition listLearnedSkillRevisionsLimited (k : key) (limit : Z) (t : tables)
    : text + list LearnedSkillRevision :=
  decode_all decodeRevisionRow (ztake (page_limit limit) (order_desc (joined k t))).

Definition findScope (scopes : list Scope) (kind : ScopeKind) : text + text :=
  match scopeId <$> filter (fun s => scopeKind s = kind) scopes with
  | [id] => inr id
  | [] => inl (txt "missing " ++ scopeKindText kind ++ txt " learned skill scope")
  | _ => inl (txt "duplicate " ++ scopeKindText kind ++ txt " learned skill scope")
  end.

(** [applicableWhereSql] on the three identifiers, and the optional kind. *)
Definition applicable (user repository checkout : text) (kind : option ScopeKind) (r : SkillRow)
    : bool :=
  (bool_decide (skillRowScopeKind r = txt "user" /\ skillRowScopeId r = user)
   || bool_decide (skillRowScopeKind r = txt "repository" /\ skillRowScopeId r = repository)
   || bool_decide (skillRowScopeKind r = txt "checkout" /\ skillRowScopeId r = checkout))
  && match kind with
     | None => true
     | Some kind => bool_decide (skillRowScopeKind r = scopeKindText kind)
     end.

(** [order_by] is the order of titles in the database. *)
Definition listAllLearnedSkillsLimited (order_by : list SkillRow -> list SkillRow)
    (scopes : list Scope) (kind : option ScopeKind) (limit : Z) (t : tables)
    : text + list LearnedSkill :=
  user ← findScope scopes UserScope;
  repository ← findScope scopes RepositoryScope;
  checkout ← findScope scopes CheckoutScope;
  decode_all decodeSkillRow
    (ztake (page_limit limit)
       (order_by (filter (fun r => applicable user repository checkout kind r = true) (skills t)))).
