(* ===== verification/SkillStore.v ===== *)
(** * The store of learned skills

    The abstract store behind the tables of SkillTables.v: for each skill the list of its
    versions.  [skill_store_refines]: each transaction is the step of the abstract store that
    its inputs name, or is refused by a constraint and changes nothing, and each query reads
    the store; [skill_revisions_once]: over any number of transactions of any clients, no two
    make the same revision of a skill, and none changes a version. *)

From stdpp Require Import base tactics option list strings.
From Stdlib Require Import ZArith Lia.
From S2P Require Import Prelude Utf8 HostCall SkillTables.
#[local] Open Scope Z_scope.

(** ** The abstract store

    A history is the list of a skill's versions, the oldest first; revision [n] is its [n]th
    version. *)

Record version := {
  version_contents : contents;
  version_summary : text;
  version_source : LearnedSkillSourceInput;
  version_at : Z;
}.

Abbreviation history := (list version).

Inductive spec_result :=
  | made (k : key) (c : contents) (revision : Z)
  | exists_already
  | missing
  | conflict (revision : Z)
  | no_such_revision
  | pointless (message : text).

Definition view (r : text + LearnedSkillMutationResult) : spec_result :=
  match r with
  | inl message => pointless message
  | inr (LearnedSkillMutationApplied skill) =>
      made (learnedSkillScope skill, learnedSkillSlug skill) (learnedSkillContents skill)
        (learnedSkillRevision skill)
  | inr LearnedSkillMutationAlreadyExists => exists_already
  | inr LearnedSkillMutationNotFound => missing
  | inr (LearnedSkillMutationConflict revision) => conflict revision
  | inr LearnedSkillMutationRevisionNotFound => no_such_revision
  end.

(** Whether a change writes, and what, or what it is answered. *)
Definition decision (ch : change) (h : option history) : spec_result + contents :=
  match ch, h with
  | LearnedSkillCreate c, None => inr c
  | LearnedSkillCreate _, Some _ => inl exists_already
  | _, None => inl missing
  | LearnedSkillUpdate expected patch, Some h =>
      if decide (zlen h = expected) then
        match last h with
        | Some v =>
            let c := applySkillPatch patch (version_contents v) in
            if decide (version_contents v = c) then inl (pointless unchanged_message) else inr c
        | None => inl missing
        end
      else inl (conflict (zlen h))
  | LearnedSkillRollback expected target, Some h =>
      if decide (zlen h = expected) then
        if zlen h <=? target then inl (pointless target_message)
        else if 1 <=? target then
          match h !! Z.to_nat (target - 1) with
          | Some v => inr (version_contents v)
          | None => inl no_such_revision
          end
        else inl no_such_revision
      else inl (conflict (zlen h))
  end.

Section Refinement.
Context (timestamptz : Z -> Z).

Definition new_version (m : mutation) (c : contents) : version :=
  Build_version c (mutationSummary m) (mutationSource m) (timestamptz (mutationAt m)).

Definition spec (m : mutation) (h : option history) : spec_result * option history :=
  match decision (mutationChange m) h with
  | inl r => (r, h)
  | inr c =>
      (made (mutation_key m) c (zlen (default [] h) + 1),
       Some (default [] h ++ [new_version m c]))
  end.

Abbreviation store := (key -> option history).

Definition spec_store (m : mutation) (a : store) : store := fun k =>
  if decide (k = mutation_key m) then snd (spec m (a k)) else a k.

(** *** What the tables represent *)

Definition revisions_of (t : tables) (id : text) : list RevisionRow :=
  filter (fun r => revisionRowSkillId r = id) (skill_revisions t).

Definition is_version (sources : list SourceRow) (r : RevisionRow) (v : version) : Prop :=
  revisionRowColumns r = columns_of (version_contents v)
  /\ revisionRowSummary r = version_summary v
  /\ revisionRowCreatedAt r = version_at v
  /\ (exists s, s ∈ sources /\ sourceRowRevisionId s = revisionRowId r
                /\ sourceRowInput s = version_source v)
  /\ check_columns (columns_of (version_contents v)) = true.

Record is_history (t : tables) (r : SkillRow) (h : history) : Prop := {
  row_checked : check_skill r = true;
  row_revision : skillRowRevision r = zlen h;
  row_bounded : zlen h < 2 ^ 63;
  row_numbers : revisionRowNumber <$> revisions_of t (skillRowId r) = seqZ 1 (zlen h);
  row_versions : Forall2 (is_version (skill_sources t)) (revisions_of t (skillRowId r)) h;
  row_current : exists v, last h = Some v /\ skillRowColumns r = columns_of (version_contents v)
                          /\ skillRowUpdatedAt r = version_at v;
  row_created : exists v, head h = Some v /\ skillRowCreatedAt r = version_at v;
}.

Record represents (t : tables) (a : store) : Prop := {
  rep_ids : NoDup (skillRowId <$> skills t);
  rep_keys : NoDup (row_key <$> skills t);
  rep_rows : forall r, r ∈ skills t ->
    exists k h, row_key r = key_columns k /\ a k = Some h /\ is_history t r h;
  rep_histories : forall k h, a k = Some h -> key_columns k ∈ row_key <$> skills t;
  rep_references : forall r, r ∈ skill_revisions t ->
    revisionRowSkillId r ∈ skillRowId <$> skills t;
  rep_revision_ids : NoDup (revisionRowId <$> skill_revisions t);
  rep_sources : sourceRowRevisionId <$> skill_sources t = revisionRowId <$> skill_revisions t;
}.

(** The constraints on a mutation.  A create is checked before it conflicts. *)
Definition fresh (ids : uuids) (t : tables) : Prop :=
  skill_uuid ids ∉ skillRowId <$> skills t
  /\ revision_uuid ids ∉ revisionRowId <$> skill_revisions t
  /\ source_uuid ids ∉ sourceRowId <$> skill_sources t.

Definition slug_ok (s : text) : bool := no_nul s && slug_match false s && at_most 80 s.

Definition summary_ok (s : text) : bool := no_nul s && btrim_nonempty s.

Definition permitted (m : mutation) (h : option history) : Prop :=
  (match mutationChange m with
   | LearnedSkillCreate c =>
       slug_ok (mutationSlug m) = true /\ check_columns (columns_of c) = true
   | _ => True
   end)
  /\ match decision (mutationChange m) h with
     | inl _ => True
     | inr c =>
         check_columns (columns_of c) = true
         /\ summary_ok (mutationSummary m) = true
         /\ check_source (mutationSource m) = true
         /\ zlen (default [] h) + 1 < 2 ^ 63
         /\ match h ≫= head with
            | Some v => version_at v <= timestamptz (mutationAt m)
            | None => True
            end
     end.

(** *** Columns *)

Lemma decode_columns_of c : decode_columns (columns_of c) = inr c.
Proof. destruct c as [? ? ? ? [] ? []]; reflexivity. Qed.

Lemma columns_of_inj c c' : columns_of c = columns_of c' -> c = c'.
Proof. intros H. apply (f_equal decode_columns) in H. rewrite !decode_columns_of in H. congruence. Qed.

Lemma scope_kind_text k : scopeKindFromText (scopeKindText k) = inr k.
Proof. by destruct k. Qed.

Lemma key_columns_inj k k' : key_columns k = key_columns k' -> k = k'.
Proof.
  destruct k as [[k i] s], k' as [[k' i'] s']. unfold key_columns. cbn. intros [= H -> ->].
  apply (f_equal scopeKindFromText) in H. rewrite !scope_kind_text in H. by injection H as ->.
Qed.

Lemma kind_in_texts k : in_texts (scopeKindText k) [txt "user"; txt "repository"; txt "checkout"] = true.
Proof. by destruct k. Qed.

Lemma check_revision_columns r :
  check_columns (revisionRowColumns r) = true -> 1 <= revisionRowNumber r ->
  check_revision r = summary_ok (revisionRowSummary r).
Proof.
  unfold check_columns, check_revision, summary_ok. rewrite !andb_true_iff.
  intros (((((((((((Hn & _) & _) & _) & _) & _) & _) & _) & Ha) & Hp) & Hp') & Hs) H1.
  rewrite Hn, Ha, Hp, Hp', Hs. by destruct (Z.leb_spec 1 (revisionRowNumber r)); [|lia].
Qed.

(** *** Finding a skill *)

Lemma find_skill_Some t a k r :
  represents t a -> r ∈ skills t -> row_key r = key_columns k -> find_skill k t = Some r.
Proof.
  intros H Hr Hk. unfold find_skill. pose proof (rep_keys _ _ H) as Hd. revert Hr Hd.
  induction (skills t) as [|r' l IH]; intros Hr Hd; [by apply elem_of_nil in Hr|].
  cbn [find fmap list_fmap] in *. apply NoDup_cons in Hd as [Hn Hd].
  apply elem_of_cons in Hr as [<-|Hr].
  - by rewrite bool_decide_eq_true_2.
  - rewrite bool_decide_eq_false_2; [by apply IH|]. intros E. apply Hn. rewrite E, <- Hk.
    by apply list_elem_of_fmap_2.
Qed.

Lemma find_skill_elem k t r : find_skill k t = Some r -> r ∈ skills t /\ row_key r = key_columns k.
Proof.
  intros H. apply find_some in H as [H E]. apply bool_decide_eq_true_1 in E.
  split; [by apply list_elem_of_In|done].
Qed.

(** The row of a skill that has a history. *)
Lemma skill_row t a k h :
  represents t a -> a k = Some h ->
  exists r, find_skill k t = Some r /\ r ∈ skills t /\ row_key r = key_columns k /\ is_history t r h.
Proof.
  intros H Ha. pose proof (rep_histories _ _ H _ _ Ha) as Hk.
  apply list_elem_of_fmap in Hk as (r & Hk & Hr). exists r.
  destruct (rep_rows _ _ H r Hr) as (k' & h' & Hk' & Ha' & Hh).
  assert (k = k') as <- by (apply key_columns_inj; congruence).
  assert (h = h') as <- by congruence. eauto using find_skill_Some.
Qed.

Lemma no_skill_row t a k : represents t a -> a k = None -> find_skill k t = None.
Proof.
  intros H Ha. destruct (find_skill k t) as [r|] eqn:E; [|done].
  apply find_skill_elem in E as [Hr Hk].
  destruct (rep_rows _ _ H r Hr) as (k' & h' & Hk' & Ha' & _).
  assert (k = k') as <- by (apply key_columns_inj; congruence). congruence.
Qed.

Definition skill_of (r : SkillRow) (k : key) (c : contents) : LearnedSkill := {|
  learnedSkillId := skillRowId r;
  learnedSkillScope := fst k;
  learnedSkillSlug := snd k;
  learnedSkillContents := c;
  learnedSkillRevision := skillRowRevision r;
  learnedSkillCreatedAt := skillRowCreatedAt r;
  learnedSkillUpdatedAt := skillRowUpdatedAt r;
|}.

Lemma decode_row r k c :
  row_key r = key_columns k -> skillRowColumns r = columns_of c ->
  decodeSkillRow r = inr (skill_of r k c).
Proof.
  destruct k as [[k i] s]. unfold row_key, key_columns, decodeSkillRow. cbn. intros [= Hk Hi Hs] Hc.
  rewrite Hk, scope_kind_text, Hc. cbn [mbind either_bind].
  rewrite decode_columns_of. cbn. unfold skill_of. cbn. by rewrite Hi, Hs.
Qed.

(** *** The transactions, evaluated *)

(** The rows that [record_revision] inserts. *)
Definition revision_row (ids : uuids) (m : mutation) (skill : LearnedSkill) : RevisionRow := {|
  revisionRowId := revision_uuid ids;
  revisionRowSkillId := learnedSkillId skill;
  revisionRowNumber := learnedSkillRevision skill;
  revisionRowColumns := columns_of (learnedSkillContents skill);
  revisionRowSummary := mutationSummary m;
  revisionRowCreatedAt := timestamptz (learnedSkillUpdatedAt skill);
|}.

Definition source_row (ids : uuids) (m : mutation) : SourceRow :=
  Build_SourceRow (source_uuid ids) (revision_uuid ids) (mutationSource m)
    (timestamptz (mutationAt m)).

Definition recorded (ids : uuids) (m : mutation) (skill : LearnedSkill) (rows : list SkillRow)
    (t : tables) : tables :=
  Build_tables rows (skill_revisions t ++ [revision_row ids m skill])
    (skill_sources t ++ [source_row ids m]).

(** The constraints on those rows. *)
Definition record_ok (ids : uuids) (m : mutation) (skill : LearnedSkill) (t : tables) : Prop :=
  check_revision (revision_row ids m skill) = true
  /\ learnedSkillId skill ∈ skillRowId <$> skills t
  /\ revision_uuid ids ∉ revisionRowId <$> skill_revisions t
  /\ (forall r, r ∈ skill_revisions t -> revisionRowSkillId r = learnedSkillId skill ->
        revisionRowNumber r <> learnedSkillRevision skill)
  /\ check_source (mutationSource m) = true
  /\ source_uuid ids ∉ sourceRowId <$> skill_sources t.

Lemma record_revision_runs ids m skill t :
  match record_revision timestamptz ids m skill t with
  | Some (r, t') =>
      r = inr (LearnedSkillMutationApplied skill) /\ t' = recorded ids m skill (skills t) t
      /\ record_ok ids m skill t
  | None => ~ record_ok ids m skill t
  end.
Proof.
  unfold record_revision, mbind, txn_bind, insertRevisionStatement, insertSourceStatement.
  fold (revision_row ids m skill).
  destruct (check_revision _) eqn:E1; cbn [andb]; [|by intros (? & _); congruence].
  case_bool_decide as E2; cbn [andb]; [|by intros (_ & ? & _)].
  case_bool_decide as E3; cbn [andb negb]; [by intros (_ & _ & ? & _)|].
  match goal with |- context [existsb ?f ?l] => destruct (existsb f l) eqn:E4 end; cbn [negb].
  { intros (_ & _ & _ & H & _). apply existsb_exists in E4 as (r & Hr & E).
    apply bool_decide_eq_true_1 in E as [Hs Hn]. apply list_elem_of_In in Hr. by eapply H. }
  cbn [skills skill_revisions skill_sources].
  destruct (check_source _) eqn:E5; cbn [andb]; [|intros (_ & _ & _ & _ & ? & _); congruence].
  rewrite bool_decide_eq_true_2.
  2:{ rewrite fmap_app. apply elem_of_app. right. by apply list_elem_of_singleton. }
  cbn [andb]. case_bool_decide as E6; cbn [negb]; [by intros (_ & _ & _ & _ & _ & ?)|].
  split; [done|]. split; [done|]. unfold record_ok. rewrite E1, E5. split_and!; try done.
  intros r Hr Hs Hn. apply not_true_iff_false in E4. apply E4. apply existsb_exists.
  exists r. split; [by apply list_elem_of_In|]. by apply bool_decide_eq_true_2.
Qed.

(** *** Writing the next version *)

Lemma is_version_mono l l' r v : is_version l r v -> is_version (l ++ l') r v.
Proof.
  intros (H1 & H2 & H3 & (s & Hs & H4) & H5). split_and!; try done.
  exists s. split; [apply elem_of_app; by left|done].
Qed.

Lemma updated_key skill r : row_key (updated_row timestamptz skill r) = row_key r.
Proof. unfold updated_row. by case_decide. Qed.

Lemma updated_id skill r : skillRowId (updated_row timestamptz skill r) = skillRowId r.
Proof. unfold updated_row. by case_decide. Qed.

Lemma updated_ids skill (l : list SkillRow) :
  skillRowId <$> (updated_row timestamptz skill <$> l) = skillRowId <$> l.
Proof. rewrite <- list_fmap_compose. apply list_fmap_ext. intros. apply updated_id. Qed.

Lemma updated_keys skill (l : list SkillRow) :
  row_key <$> (updated_row timestamptz skill <$> l) = row_key <$> l.
Proof. rewrite <- list_fmap_compose. apply list_fmap_ext. intros. apply updated_key. Qed.

Lemma same_id t a r r' :
  represents t a -> r ∈ skills t -> r' ∈ skills t -> skillRowId r = skillRowId r' -> r = r'.
Proof.
  intros H Hr Hr' E. pose proof (rep_ids _ _ H) as Hd.
  apply list_elem_of_lookup in Hr as [i Hi]. apply list_elem_of_lookup in Hr' as [j Hj].
  assert (i = j) as <-; [|congruence].
  apply (NoDup_lookup _ i j (skillRowId r) Hd); rewrite list_lookup_fmap.
  - by rewrite Hi.
  - rewrite Hj. cbn. by rewrite E.
Qed.

Lemma revisions_of_recorded ids m skill rows t id :
  revisions_of (recorded ids m skill rows t) id =
  revisions_of t id ++ (if decide (learnedSkillId skill = id) then [revision_row ids m skill] else []).
Proof.
  unfold revisions_of, recorded. cbn [skill_revisions]. rewrite filter_app. f_equal.
Qed.

(** A version that is recorded is the one the abstract store adds. *)
Lemma recorded_version ids m skill t c :
  learnedSkillContents skill = c -> learnedSkillUpdatedAt skill = mutationAt m ->
  check_columns (columns_of c) = true ->
  is_version (skill_sources t ++ [source_row ids m]) (revision_row ids m skill) (new_version m c).
Proof.
  intros <- Hat Hc. unfold is_version. cbn. rewrite Hat. split_and!; try done.
  exists (source_row ids m). split; [|done]. apply elem_of_app. right. by apply list_elem_of_singleton.
Qed.

Lemma seqZ_snoc n : seqZ 1 (Z.of_nat (S n)) = seqZ 1 (Z.of_nat n) ++ [Z.of_nat n + 1].
Proof.
  replace (Z.of_nat (S n)) with (Z.of_nat n + 1) by lia.
  rewrite (seqZ_app 1 (Z.of_nat n) 1) by lia. f_equal.
  rewrite seqZ_cons by lia. cbn. f_equal. lia.
Qed.

(** The rows of another skill represent what they did. *)
Lemma other_history ids m skill rows t r h :
  is_history t r h -> learnedSkillId skill <> skillRowId r ->
  is_history (recorded ids m skill rows t) r h.
Proof.
  intros [H1 H2 H3 H4 H5 H6 H7] Hne.
  split; rewrite ?revisions_of_recorded, ?decide_False, ?app_nil_r by done; try done.
  eapply Forall2_impl; [exact H5|]. intros. by apply is_version_mono.
Qed.

(** The rows of the skill itself, with one more version. *)
Lemma next_history ids m t k r h c :
  is_history t r h ->
  let skill := next_revision (skill_of r k c) c (mutationAt m) in
  zlen h + 1 < 2 ^ 63 -> check_columns (columns_of c) = true ->
  check_skill (updated_row timestamptz skill r) = true ->
  is_history (recorded ids m skill (updated_row timestamptz skill <$> skills t) t)
    (updated_row timestamptz skill r) (h ++ [new_version m c]).
Proof.
  intros [H1 H2 H3 H4 H5 H6 H7] skill Hb Hc Hck.
  assert (Hid : skillRowId r = learnedSkillId skill) by done.
  assert (Hrev : learnedSkillRevision skill = zlen h + 1).
  { cbn. rewrite H2. unfold i64_wrap. rewrite Z.mod_small; lia. }
  assert (Hlen : length (h ++ [new_version m c]) = S (length h)) by (rewrite length_app; cbn; lia).
  split.
  - done.
  - unfold updated_row. rewrite decide_True by done. cbn [skillRowRevision]. rewrite Hlen. lia.
  - rewrite Hlen. lia.
  - rewrite updated_id, revisions_of_recorded, decide_True by done.
    rewrite fmap_app, H4, Hlen, seqZ_snoc. do 2 f_equal. cbn [fmap list_fmap revision_row revisionRowNumber].
    by rewrite Hrev.
  - rewrite updated_id, revisions_of_recorded, decide_True by done.
    apply Forall2_app; [|constructor; [|constructor]].
    + eapply Forall2_impl; [exact H5|]. intros. by apply is_version_mono.
    + by apply recorded_version.
  - exists (new_version m c). rewrite last_snoc. unfold updated_row. by rewrite decide_True.
  - destruct H7 as (v & Hv & Hcr). exists v. unfold updated_row. rewrite decide_True by done.
    split; [|done]. by destruct h.
Qed.

Lemma advance_represents ids m t a k r h c :
  represents t a -> a k = Some h -> mutation_key m = k -> r ∈ skills t ->
  row_key r = key_columns k -> is_history t r h ->
  let skill := next_revision (skill_of r k c) c (mutationAt m) in
  zlen h + 1 < 2 ^ 63 -> check_columns (columns_of c) = true ->
  check_skill (updated_row timestamptz skill r) = true ->
  revision_uuid ids ∉ revisionRowId <$> skill_revisions t ->
  represents (recorded ids m skill (updated_row timestamptz skill <$> skills t) t)
    (fun k' => if decide (k' = mutation_key m) then Some (h ++ [new_version m c]) else a k').
Proof.
  intros H Ha Hm Hr Hk Hh skill Hb Hc Hck Hf. split; cbn [skills skill_revisions skill_sources recorded].
  - rewrite updated_ids. apply H.
  - rewrite updated_keys. apply H.
  - intros r' Hr'. apply list_elem_of_fmap in Hr' as (r0 & -> & Hr0).
    destruct (decide (skillRowId r0 = skillRowId r)) as [E|E].
    + assert (r0 = r) as -> by eauto using same_id.
      exists k, (h ++ [new_version m c]). rewrite updated_key, decide_True by done.
      split_and!; [done..|]. by apply next_history.
    + destruct (rep_rows _ _ H r0 Hr0) as (k0 & h0 & Hk0 & Ha0 & Hh0).
      exists k0, h0. rewrite updated_key. rewrite decide_False.
      2:{ rewrite Hm. intros ->. apply E. f_equal.
          pose proof (find_skill_Some _ _ _ _ H Hr Hk). pose proof (find_skill_Some _ _ _ _ H Hr0 Hk0).
          congruence. }
      assert (updated_row timestamptz skill r0 = r0) as ->.
      { unfold updated_row. rewrite decide_False; done. }
      split_and!; [done..|]. by apply other_history.
  - intros k' h'. rewrite updated_keys. case_decide as E; [|apply H].
    intros _. rewrite E, Hm, <- Hk. by apply list_elem_of_fmap_2.
  - intros x Hx. rewrite updated_ids. apply elem_of_app in Hx as [Hx|Hx]; [by apply H|].
    apply list_elem_of_singleton in Hx as ->. cbn. by apply list_elem_of_fmap_2.
  - rewrite fmap_app. apply NoDup_app. split; [apply H|]. split; [|apply NoDup_singleton].
    intros x Hx Hx'. apply list_elem_of_singleton in Hx' as ->. by apply Hf.
  - rewrite !fmap_app. f_equal. apply H.
Qed.

(** The two statements and the record of an update, evaluated. *)
Definition write (ids : uuids) (m : mutation) (skill : LearnedSkill)
    : txn (text + LearnedSkillMutationResult) :=
  updateSkillStatement timestamptz skill ;; record_revision timestamptz ids m skill.

Lemma update_runs t a skill r :
  represents t a -> r ∈ skills t -> learnedSkillId skill = skillRowId r ->
  updateSkillStatement timestamptz skill t =
  if check_skill (updated_row timestamptz skill r)
  then Some (tt, Build_tables (updated_row timestamptz skill <$> skills t)
                   (skill_revisions t) (skill_sources t))
  else None.
Proof.
  intros H Hr Hid. unfold updateSkillStatement.
  match goal with |- (if forallb ?f ?l then _ else _) = _ => assert (forallb f l = f r) as -> end; [|done].
  assert (Hin : r ∈ filter (fun r => skillRowId r = learnedSkillId skill) (skills t)).
  { by apply list_elem_of_filter. }
  destruct (check_skill _) eqn:E.
  - apply forallb_forall. intros r' Hr'. apply list_elem_of_In, list_elem_of_filter in Hr' as [E' Hr'].
    assert (r' = r) as -> by (eapply same_id; eauto; congruence). done.
  - apply not_true_iff_false. intros Hf. rewrite forallb_forall in Hf.
    rewrite Hf in E; [done|]. by apply list_elem_of_In.
Qed.

(** The constraints on the next version of a skill. *)
Lemma next_permitted ids m t a k r h c :
  represents t a -> is_history t r h -> r ∈ skills t -> row_key r = key_columns k ->
  let skill := next_revision (skill_of r k c) c (mutationAt m) in
  check_columns (columns_of c) = true -> summary_ok (mutationSummary m) = true ->
  check_source (mutationSource m) = true -> zlen h + 1 < 2 ^ 63 ->
  (exists v, head h = Some v /\ version_at v <= timestamptz (mutationAt m)) -> fresh ids t ->
  check_skill (updated_row timestamptz skill r) = true /\ record_ok ids m skill t.
Proof.
  intros H Hh Hr Hk skill Hc Hs Hsrc Hb (v & Hv & Hat) (_ & Hf1 & Hf2).
  assert (Hrev : learnedSkillRevision skill = zlen h + 1).
  { cbn. rewrite (row_revision _ _ _ Hh). unfold i64_wrap. rewrite Z.mod_small; lia. }
  split.
  - pose proof (row_checked _ _ _ Hh) as Hck. unfold check_skill in *.
    unfold updated_row. rewrite decide_True by done.
    cbn [skillRowScopeKind skillRowSlug skillRowColumns skillRowRevision skillRowCreatedAt
         skillRowUpdatedAt].
    rewrite !andb_true_iff in *. destruct Hck as ((((((H1 & H2) & H3) & H4) & H5) & H6) & H7).
    rewrite Hrev. split_and!; try done; apply Z.leb_le; [lia|].
    destruct (row_created _ _ _ Hh) as (v' & Hv' & ->). assert (v' = v) as -> by congruence. exact Hat.
  - unfold record_ok.
    rewrite check_revision_columns
      by (cbn [revision_row revisionRowNumber revisionRowColumns]; done || lia).
    split_and!; try done; [by apply (list_elem_of_fmap_2 skillRowId _ r)|].
    intros x Hx Hid E. pose proof (row_numbers _ _ _ Hh) as Hn.
    assert (In' : revisionRowNumber x ∈ seqZ 1 (zlen h)).
    { rewrite <- Hn. apply list_elem_of_fmap_2, list_elem_of_filter. by split. }
    apply elem_of_seqZ in In'. lia.
Qed.

(** *** The refinement *)

#[export] Instance represents_proper t :
  Proper (pointwise_relation key (=) ==> iff) (represents t).
Proof.
  intros a a' E. split; intros [H1 H2 H3 H4 H5 H6 H7]; (split; [done..| | |done|done|done]).
  - intros r Hr. destruct (H3 r Hr) as (k & h & ? & ? & ?). exists k, h. by rewrite <- E.
  - intros k h. rewrite <- E. apply H4.
  - intros r Hr. destruct (H3 r Hr) as (k & h & ? & ? & ?). exists k, h. by rewrite E.
  - intros k h. rewrite E. apply H4.
Qed.

Definition refines (ids : uuids) (m : mutation) (t : tables) (a : store)
    (o : option ((text + LearnedSkillMutationResult) * tables)) : Prop :=
  match o with
  | Some (r, t') => view r = fst (spec m (a (mutation_key m))) /\ represents t' (spec_store m a)
  | None => ~ (fresh ids t /\ permitted m (a (mutation_key m)))
  end.

Lemma answered_refines ids m t a r :
  represents t a -> decision (mutationChange m) (a (mutation_key m)) = inl (view r) ->
  refines ids m t a (Some (r, t)).
Proof.
  intros H Hd. unfold refines, spec. rewrite Hd. split; [done|].
  apply (represents_proper t a (spec_store m a)); [|done].
  intros k. unfold spec_store, spec. case_decide as E; [|done]. by rewrite E, Hd.
Qed.

Lemma write_refines ids m t a r h c :
  represents t a -> a (mutation_key m) = Some h -> r ∈ skills t ->
  row_key r = key_columns (mutation_key m) -> is_history t r h ->
  decision (mutationChange m) (Some h) = inr c ->
  refines ids m t a (write ids m (next_revision (skill_of r (mutation_key m) c) c (mutationAt m)) t).
Proof.
  intros H Ha Hr Hk Hh Hd. set (skill := next_revision _ _ _).
  unfold write, mbind, txn_bind. rewrite (update_runs t a skill r) by done.
  assert (Hnot : fresh ids t /\ permitted m (a (mutation_key m)) ->
                 check_skill (updated_row timestamptz skill r) = true /\ record_ok ids m skill t).
  { rewrite Ha. intros (Hf & _ & Hp). rewrite Hd in Hp. destruct Hp as (Hc & Hs & Hsrc & Hb & Hat).
    cbn [default] in Hb. eapply next_permitted; try done.
    destruct (row_created _ _ _ Hh) as (v & Hv & _). exists v. split; [done|].
    cbn [mbind option_bind] in Hat. by rewrite Hv in Hat. }
  destruct (check_skill _) eqn:Hck; cbn [refines]; [|intros Hp; by destruct (Hnot Hp)].
  set (t1 := Build_tables _ _ _). pose proof (record_revision_runs ids m skill t1) as Hrun.
  assert (Hok : record_ok ids m skill t1 <-> record_ok ids m skill t).
  { unfold record_ok, t1. cbn [skills skill_revisions skill_sources]. by rewrite updated_ids. }
  destruct (record_revision timestamptz ids m skill t1) as [[res t']|]; cbn [refines].
  2:{ intros Hp. by apply Hrun, Hok, Hnot. }
  destruct Hrun as (-> & -> & Hrec).
  apply Hok in Hrec. pose proof Hck as Hck'. unfold check_skill in Hck'. rewrite !andb_true_iff in Hck'.
  unfold updated_row in Hck'. rewrite decide_True in Hck' by done.
  cbn [skillRowColumns skillRowRevision skill next_revision learnedSkillContents
       learnedSkillRevision skill_of] in Hck'.
  destruct Hck' as ((((_ & _) & Hc) & Hpos) & _). rewrite (row_revision _ _ _ Hh) in Hpos.
  apply Z.leb_le in Hpos. pose proof (row_bounded _ _ _ Hh) as Hlt.
  assert (Hb : zlen h + 1 < 2 ^ 63).
  { destruct (Z.lt_ge_cases (zlen h + 1) (2 ^ 63)) as [?|Hge]; [done|]. exfalso.
    replace (zlen h + 1) with (2 ^ 63) in Hpos by lia. by vm_compute in Hpos. }
  split.
  - rewrite Ha. unfold spec. rewrite Hd. cbn [fst view default learnedSkillRevision skill next_revision skill_of
      learnedSkillScope learnedSkillSlug learnedSkillContents id].
    rewrite (row_revision _ _ _ Hh).
    assert (i64_wrap (zlen h + 1) = zlen h + 1) as -> by (unfold i64_wrap; rewrite Z.mod_small; lia).
    done.
  - eapply represents_proper; [|apply (advance_represents ids m t a (mutation_key m) r h c); try done; apply Hrec].
    intros k. unfold spec_store. case_decide as E; [|done].
    rewrite E, Ha. unfold spec. by rewrite Hd.
Qed.

(** A new skill. *)
Definition new_row (ids : uuids) (m : mutation) (c : contents) : SkillRow := {|
  skillRowId := skill_uuid ids;
  skillRowScopeKind := scopeKindText (scopeKind (mutationScope m));
  skillRowScopeId := scopeId (mutationScope m);
  skillRowSlug := mutationSlug m;
  skillRowColumns := columns_of c;
  skillRowRevision := 1;
  skillRowCreatedAt := timestamptz (mutationAt m);
  skillRowUpdatedAt := timestamptz (mutationAt m);
|}.

Lemma check_new_row ids m c :
  check_skill (new_row ids m c) = slug_ok (mutationSlug m) && check_columns (columns_of c).
Proof.
  unfold check_skill. cbn [new_row skillRowScopeKind skillRowSlug skillRowColumns skillRowRevision
    skillRowCreatedAt skillRowUpdatedAt].
  rewrite kind_in_texts, !Z.leb_refl, !andb_true_r. cbn [andb]. done.
Qed.

Lemma create_represents ids m t a c :
  represents t a -> a (mutation_key m) = None -> skill_uuid ids ∉ skillRowId <$> skills t ->
  check_skill (new_row ids m c) = true -> revision_uuid ids ∉ revisionRowId <$> skill_revisions t ->
  represents (recorded ids m (skillFromCreate (skill_uuid ids) m c) (skills t ++ [new_row ids m c]) t)
    (fun k => if decide (k = mutation_key m) then Some [new_version m c] else a k).
Proof.
  intros H Ha Hid Hck Hf. set (skill := skillFromCreate _ m c).
  assert (Hkey : row_key (new_row ids m c) = key_columns (mutation_key m)) by done.
  split; cbn [skills skill_revisions skill_sources recorded].
  - rewrite fmap_app. apply NoDup_app. split; [apply H|]. split; [|apply NoDup_singleton].
    intros x Hx Hx'. apply list_elem_of_singleton in Hx' as ->. by apply Hid.
  - rewrite fmap_app. apply NoDup_app. split; [apply H|]. split; [|apply NoDup_singleton].
    intros x Hx Hx'. apply list_elem_of_singleton in Hx' as ->.
    apply list_elem_of_fmap in Hx as (r & Hr & Hin). rewrite Hkey in Hr.
    pose proof (find_skill_Some t a _ r H Hin (eq_sym Hr)). by rewrite (no_skill_row t a) in *.
  - intros r Hr. apply elem_of_app in Hr as [Hr|Hr].
    + destruct (rep_rows _ _ H r Hr) as (k & h & Hk & Hh & His). exists k, h.
      rewrite decide_False by congruence. split_and!; try done. apply other_history; [done|].
      cbn. intros E. apply Hid. rewrite E. by apply list_elem_of_fmap_2.
    + apply list_elem_of_singleton in Hr as ->. exists (mutation_key m), [new_version m c].
      rewrite decide_True by done. split_and!; try done.
      assert (Hno : revisions_of t (skill_uuid ids) = []).
      { destruct (revisions_of t (skill_uuid ids)) as [|x l] eqn:E; [done|].
        exfalso. assert (Hx : x ∈ revisions_of t (skill_uuid ids)) by (rewrite E; left).
        apply list_elem_of_filter in Hx as [Hx Hx']. apply Hid. rewrite <- Hx. by apply H. }
      split; rewrite ?revisions_of_recorded; cbn [skillRowId new_row];
        rewrite ?Hno, ?decide_True by done; try done.
      * constructor; [|constructor]. apply recorded_version; [done..|].
        rewrite check_new_row in Hck. by apply andb_true_iff in Hck as [_ ?].
      * by exists (new_version m c).
      * by exists (new_version m c).
  - intros k h. rewrite fmap_app. case_decide as E; intros Hk; apply elem_of_app.
    + right. rewrite E. by apply list_elem_of_singleton.
    + left. by eapply H.
  - intros r Hr. rewrite fmap_app. apply elem_of_app in Hr as [Hr|Hr]; apply elem_of_app.
    + left. by apply H.
    + right. apply list_elem_of_singleton in Hr as ->. by apply list_elem_of_singleton.
  - rewrite fmap_app. apply NoDup_app. split; [apply H|]. split; [|apply NoDup_singleton].
    intros x Hx Hx'. apply list_elem_of_singleton in Hx' as ->. by apply Hf.
  - rewrite !fmap_app. f_equal. apply H.
Qed.

Lemma create_refines ids m t a c :
  represents t a -> mutationChange m = LearnedSkillCreate c ->
  refines ids m t a (createLearnedSkill timestamptz ids m c t).
Proof.
  intros H Hm. unfold createLearnedSkill, mbind, txn_bind, insertSkillStatement.
  change (check_skill _) with (check_skill (new_row ids m c)). rewrite check_new_row.
  destruct (slug_ok _ && check_columns _) eqn:Hck.
  2:{ intros (_ & Hp & _). rewrite Hm in Hp. destruct Hp as [H1 H2]. by rewrite H1, H2 in Hck. }
  destruct (a (mutation_key m)) as [h|] eqn:Ha.
  { destruct (skill_row t a _ h H Ha) as (r & -> & _). apply answered_refines; [done|].
    by rewrite Ha, Hm. }
  rewrite (no_skill_row t a) by done. case_bool_decide as Hid; [by intros ((? & _) & _)|].
  set (skill := skillFromCreate _ _ _). set (t1 := Build_tables _ _ _).
  pose proof (record_revision_runs ids m skill t1) as Hrun.
  pose proof Hck as [Hslug Hc]%andb_true_iff.
  destruct (record_revision timestamptz ids m skill t1) as [[res t']|]; cbn [refines].
  - destruct Hrun as (-> & -> & Hrec). unfold spec, decision. rewrite Ha, Hm. split; [done|].
    eapply represents_proper; [|apply (create_represents ids m t a c); try done].
    + intros k. unfold spec_store. case_decide as E; [|done]. rewrite E, Ha. unfold spec, decision.
      by rewrite Hm.
    + by rewrite check_new_row.
    + apply Hrec.
  - intros ((_ & Hf1 & Hf2) & _ & Hp). unfold decision in Hp. rewrite Ha, Hm in Hp.
    destruct Hp as (_ & Hs & Hsrc & _). apply Hrun. unfold record_ok.
    rewrite check_revision_columns by done.
    split_and!; try done.
    + cbn. rewrite fmap_app. apply elem_of_app. right. by apply list_elem_of_singleton.
    + intros r Hr E. exfalso. apply Hid. cbn in E. rewrite <- E. by apply H.
Qed.

(** Loading a revision finds the version of that number. *)
Lemma load_version t r h n :
  is_history t r h ->
  match find (fun x => bool_decide (revisionRowSkillId x = skillRowId r /\ revisionRowNumber x = n))
          (skill_revisions t) with
  | Some x => 1 <= n /\ exists v, h !! Z.to_nat (n - 1) = Some v /\ is_version (skill_sources t) x v
  | None => n < 1 \/ h !! Z.to_nat (n - 1) = None
  end.
Proof.
  intros Hh. pose proof (row_numbers _ _ _ Hh) as Hn. pose proof (row_versions _ _ _ Hh) as Hv.
  destruct (find _ _) as [x|] eqn:E.
  - apply find_some in E as [Hx E]. apply bool_decide_eq_true_1 in E as [Hid <-].
    assert (Hin : x ∈ revisions_of t (skillRowId r)).
    { apply list_elem_of_filter. split; [done|]. by apply list_elem_of_In. }
    apply list_elem_of_lookup in Hin as [i Hi].
    assert (Hz : seqZ 1 (zlen h) !! i = Some (revisionRowNumber x)) by (rewrite <- Hn, list_lookup_fmap, Hi; done).
    apply lookup_seqZ in Hz as [-> Hi']. split; [lia|].
    destruct (Forall2_lookup_l _ _ _ _ _ Hv Hi) as (v & Hv' & Hver). exists v.
    replace (Z.to_nat (1 + Z.of_nat i - 1)) with i by lia. done.
  - destruct (h !! Z.to_nat (n - 1)) as [v|] eqn:Hl; [|by right].
    destruct (Z.lt_ge_cases n 1) as [?|Hge]; [by left|]. exfalso.
    destruct (Forall2_lookup_r _ _ _ _ _ Hv Hl) as (x & Hx & _).
    assert (Hx' : revisionRowNumber x = n).
    { assert (Hz : (revisionRowNumber <$> revisions_of t (skillRowId r)) !! Z.to_nat (n - 1)
                   = Some (revisionRowNumber x)) by (by rewrite list_lookup_fmap, Hx).
      rewrite Hn in Hz. apply lookup_seqZ in Hz as [-> _]. lia. }
    apply list_elem_of_lookup_2, list_elem_of_filter in Hx as [Hid Hx].
    apply list_elem_of_In in Hx. pose proof (find_none _ _ E x Hx) as Hno.
    cbn in Hno. apply bool_decide_eq_false_1 in Hno. by apply Hno.
Qed.

(** What [with_current] finds. *)
Lemma with_current_refines ids m t a expected action :
  represents t a ->
  (forall h, a (mutation_key m) = Some h -> zlen h <> expected ->
     decision (mutationChange m) (Some h) = inl (conflict (zlen h))) ->
  (a (mutation_key m) = None -> decision (mutationChange m) None = inl missing) ->
  (forall r h v, a (mutation_key m) = Some h -> zlen h = expected -> last h = Some v ->
     r ∈ skills t -> row_key r = key_columns (mutation_key m) -> is_history t r h ->
     refines ids m t a (action (skill_of r (mutation_key m) (version_contents v)) t)) ->
  refines ids m t a (with_current m expected action t).
Proof.
  intros H Hcon Hmiss Hact. unfold with_current, mbind, txn_bind, lockSkillStatement.
  destruct (a (mutation_key m)) as [h|] eqn:Ha.
  - destruct (skill_row t a _ h H Ha) as (r & Hf & Hr & Hk & Hh). rewrite Hf.
    destruct (row_current _ _ _ Hh) as (v & Hv & Hc & _).
    rewrite (decode_row r (mutation_key m) (version_contents v)) by done.
    cbn [learnedSkillRevision skill_of]. pose proof (row_revision _ _ _ Hh) as Hrev.
    case_decide as E; [by eapply Hact; eauto; congruence|].
    apply answered_refines; [done|]. rewrite Ha. cbn [view learnedSkillRevision skill_of].
    rewrite Hrev. apply Hcon; [done|congruence].
  - rewrite (no_skill_row t a) by done. apply answered_refines; [done|]. rewrite Ha. by apply Hmiss.
Qed.

Lemma update_refines ids m t a expected patch :
  represents t a -> mutationChange m = LearnedSkillUpdate expected patch ->
  refines ids m t a (updateLearnedSkill timestamptz ids m expected patch t).
Proof.
  intros H Hm. unfold updateLearnedSkill. apply with_current_refines; [done| | |].
  - intros h _ Hne. rewrite Hm. cbn. by rewrite decide_False.
  - intros _. by rewrite Hm.
  - intros r h v Ha He Hv Hr Hk Hh.
    assert (Hd : decision (mutationChange m) (Some h) =
      let c := applySkillPatch patch (version_contents v) in
      if decide (version_contents v = c) then inl (pointless unchanged_message) else inr c).
    { rewrite Hm. cbn [decision]. by rewrite decide_True, Hv by done. }
    cbn [learnedSkillContents skill_of next_revision]. case_decide as E.
    + apply answered_refines; [done|]. rewrite Ha, Hd. cbn zeta. by rewrite decide_True.
    + refine (write_refines ids m t a r h _ H Ha Hr Hk Hh _). rewrite Hd. cbn zeta.
      by rewrite decide_False.
Qed.

Lemma rollback_refines ids m t a expected target :
  represents t a -> mutationChange m = LearnedSkillRollback expected target ->
  refines ids m t a (rollbackLearnedSkill timestamptz ids m expected target t).
Proof.
  intros H Hm. unfold rollbackLearnedSkill. apply with_current_refines; [done| | |].
  - intros h _ Hne. rewrite Hm. cbn. by rewrite decide_False.
  - intros _. by rewrite Hm.
  - intros r h v Ha He Hv Hr Hk Hh. cbn [learnedSkillRevision learnedSkillId skill_of].
    rewrite (row_revision _ _ _ Hh). destruct (zlen h <=? target) eqn:Et.
    { apply answered_refines; [done|]. rewrite Ha, Hm. cbn [decision].
      by rewrite decide_True, Et by done. }
    unfold mbind at 1, txn_bind at 1, loadRevisionStatement. pose proof (load_version t r h target Hh) as Hl.
    destruct (find _ _) as [x|].
    + destruct Hl as (Ht & v' & Hv' & Hx). unfold decodeRevisionRow. rewrite (proj1 Hx), decode_columns_of.
      cbn [mbind either_bind mret either_ret learnedSkillRevisionContents].
      refine (write_refines ids m t a r h _ H Ha Hr Hk Hh _). rewrite Hm. cbn [decision].
      rewrite decide_True, Et by done. apply Z.leb_le in Ht. by rewrite Ht, Hv'.
    + apply answered_refines; [done|]. rewrite Ha, Hm. cbn [decision view].
      rewrite decide_True, Et by done. destruct (Z.leb_spec 1 target); [|done].
      destruct Hl as [?|Hl]; [lia|]. by rewrite Hl.
Qed.

Lemma transaction_refines ids m t a :
  represents t a -> refines ids m t a (transaction timestamptz ids m t).
Proof.
  intros H. unfold transaction. destruct (mutationChange m) eqn:Hm;
    eauto using create_refines, update_refines, rollback_refines.
Qed.

Lemma represents_empty : represents no_tables (fun _ => None).
Proof. by split; try done; try constructor; intros ? ?%elem_of_nil. Qed.

(** ** Reading *)

Lemma joined_history t a k h :
  represents t a -> a k = Some h ->
  revisionRowNumber <$> joined k t = seqZ 1 (zlen h)
  /\ Forall2 (is_version (skill_sources t)) (joined k t) h.
Proof.
  intros H Ha. destruct (skill_row t a k h H Ha) as (r & Hf & _ & _ & Hh).
  unfold joined. rewrite Hf. split; apply Hh.
Qed.

Lemma joined_none t a k : represents t a -> a k = None -> joined k t = [].
Proof. intros H Ha. unfold joined. by rewrite (no_skill_row t a). Qed.

(** Revision [n], as it is read. *)
Definition revision_of (id : text) (n : Z) (v : version) : LearnedSkillRevision := {|
  learnedSkillRevisionId := id;
  learnedSkillRevisionNumber := n;
  learnedSkillRevisionContents := version_contents v;
  learnedSkillRevisionSummary := version_summary v;
  learnedSkillRevisionCreatedAt := version_at v;
|}.

Lemma decode_revision l r v :
  is_version l r v ->
  decodeRevisionRow r = inr (revision_of (revisionRowId r) (revisionRowNumber r) v).
Proof.
  intros (H1 & H2 & H3 & _). unfold decodeRevisionRow. rewrite H1, decode_columns_of.
  cbn. unfold revision_of. by rewrite H2, H3.
Qed.

Lemma read_revision t a k n h v :
  represents t a -> a k = Some h -> 1 <= n -> h !! Z.to_nat (n - 1) = Some v ->
  exists id, readLearnedSkillRevision k n t = inr (Some (revision_of id n v)).
Proof.
  intros H Ha Hn Hv. unfold readLearnedSkillRevision.
  destruct (joined_history t a k h H Ha) as [Hnum Hver].
  destruct (Forall2_lookup_r _ _ _ _ _ Hver Hv) as (x & Hx & _).
  assert (Hxn : revisionRowNumber x = n).
  { assert (Hz : (revisionRowNumber <$> joined k t) !! Z.to_nat (n - 1) = Some (revisionRowNumber x))
      by (by rewrite list_lookup_fmap, Hx).
    rewrite Hnum in Hz. apply lookup_seqZ in Hz as [-> _]. lia. }
  destruct (find _ _) as [y|] eqn:E.
  2:{ apply find_none with (x := x) in E; [|by eapply list_elem_of_In, list_elem_of_lookup_2].
      by apply Z.eqb_neq in E. }
  apply find_some in E as [Hy E]. apply Z.eqb_eq in E.
  apply list_elem_of_In, list_elem_of_lookup in Hy as [j Hj].
  assert (Hz : (revisionRowNumber <$> joined k t) !! j = Some n) by (by rewrite list_lookup_fmap, Hj, <- E).
  rewrite Hnum in Hz. apply lookup_seqZ in Hz as [Hjn _].
  destruct (Forall2_lookup_l _ _ _ _ _ Hver Hj) as (v' & Hv' & Hy).
  replace (Z.to_nat (n - 1)) with j in Hv by lia. assert (v' = v) as -> by congruence.
  exists (revisionRowId y). rewrite (decode_revision _ _ _ Hy). cbn. by rewrite E.
Qed.

Lemma read_no_revision t a k n :
  represents t a -> 1 <= n -> default [] (a k) !! Z.to_nat (n - 1) = None ->
  readLearnedSkillRevision k n t = inr None.
Proof.
  intros H Hn Hv. unfold readLearnedSkillRevision.
  destruct (find _ _) as [y|] eqn:E; [exfalso|done]. apply find_some in E as [Hy E].
  apply list_elem_of_In, list_elem_of_lookup in Hy as [j Hj]. apply Z.eqb_eq in E.
  destruct (a k) as [h|] eqn:Ha; [|by rewrite (joined_none t a k H Ha) in Hj].
  destruct (joined_history t a k h H Ha) as [Hnum Hver].
  assert (Hz : (revisionRowNumber <$> joined k t) !! j = Some n) by (by rewrite list_lookup_fmap, Hj, <- E).
  rewrite Hnum in Hz. apply lookup_seqZ in Hz as [Hjn Hlt]. apply lookup_ge_None in Hv.
  cbn [default id] in Hv. lia.
Qed.

(** ** Sequences of transactions

    The tables are serializable: transactions of all clients take effect one after the other. *)

Definition attempt (ids : uuids) (m : mutation) (t : tables)
    : option (text + LearnedSkillMutationResult) * tables :=
  match transaction timestamptz ids m t with
  | Some (r, t') => (Some r, t')
  | None => (None, t)
  end.

Fixpoint run (l : list (uuids * mutation)) (t : tables)
    : list (option (text + LearnedSkillMutationResult)) * tables :=
  match l with
  | [] => ([], t)
  | (ids, m) :: l =>
      let '(r, t) := attempt ids m t in
      let '(rs, t) := run l t in
      (r :: rs, t)
  end.

(** The revisions that were reported as made, with their contents. *)
Definition made_revision (r : option (text + LearnedSkillMutationResult))
    : option (key * Z * contents) :=
  match view <$> r with Some (made k c n) => Some (k, n, c) | _ => None end.

Definition revisions_made (rs : list (option (text + LearnedSkillMutationResult)))
    : list (key * Z * contents) := omap made_revision rs.

Lemma spec_grows m h :
  default [] h `prefix_of` default [] (snd (spec m h))
  /\ forall k c n, fst (spec m h) = made k c n ->
       k = mutation_key m /\ n = zlen (default [] h) + 1
       /\ snd (spec m h) = Some (default [] h ++ [new_version m c]).
Proof.
  unfold spec. destruct (decision (mutationChange m) h) as [r|c] eqn:E; cbn [fst snd].
  - split; [done|]. intros k c n ->. exfalso. unfold decision in E.
    repeat (match type of E with context [match ?x with _ => _ end] => destruct x end; try done).
  - split; [by apply prefix_app_r|]. by intros k c' n [= <- <- <-].
Qed.

Lemma attempt_grows ids m t a :
  represents t a ->
  exists a', represents (snd (attempt ids m t)) a'
    /\ (forall k, default [] (a k) `prefix_of` default [] (a' k))
    /\ forall k n c, made_revision (fst (attempt ids m t)) = Some (k, n, c) ->
         n = zlen (default [] (a k)) + 1
         /\ default [] (a' k) = default [] (a k) ++ [new_version m c].
Proof.
  intros H. pose proof (transaction_refines ids m t a H) as Hr. unfold attempt.
  destruct (transaction timestamptz ids m t) as [[r t']|]; cbn [fst snd refines] in *.
  2:{ exists a. by split_and!. }
  destruct Hr as [Hv Hr']. exists (spec_store m a). split; [done|].
  destruct (spec_grows m (a (mutation_key m))) as [Hg Hm]. split.
  - intros k. unfold spec_store. case_decide as E; [by rewrite E|done].
  - unfold made_revision. cbn [fmap option_fmap option_map]. rewrite Hv. intros k n c E.
    destruct (fst (spec m _)) as [k' c' n'| | | | |] eqn:Es; try done. injection E as -> -> ->.
    destruct (Hm _ _ _ eq_refl) as (-> & -> & Hs). split; [done|].
    unfold spec_store. rewrite decide_True by done. by rewrite Hs.
Qed.

Lemma run_grows l t a :
  represents t a ->
  exists a', represents (snd (run l t)) a'
    /\ (forall k, default [] (a k) `prefix_of` default [] (a' k))
    /\ NoDup (fst <$> revisions_made (fst (run l t)))
    /\ forall k n c, (k, n, c) ∈ revisions_made (fst (run l t)) ->
         zlen (default [] (a k)) < n
         /\ exists v, default [] (a' k) !! Z.to_nat (n - 1) = Some v /\ version_contents v = c.
Proof.
  revert t a. induction l as [|[ids m] l IH]; intros t a H.
  { exists a. cbn. split_and!; try done; [constructor|]. intros k n c ?%elem_of_nil. done. }
  destruct (attempt_grows ids m t a H) as (a1 & H1 & Hp1 & Hm1). cbn [run].
  destruct (attempt ids m t) as [r t1]. cbn [fst snd] in *.
  destruct (IH t1 a1 H1) as (a2 & H2 & Hp2 & Hnd & Hm2).
  destruct (run l t1) as [rs t2]. cbn [fst snd] in *.
  exists a2. split; [done|]. split; [intros k; etransitivity; [apply Hp1|apply Hp2]|].
  assert (Hle : forall k n c, (k, n, c) ∈ revisions_made rs -> zlen (default [] (a k)) < n).
  { intros k n c Hin. destruct (Hm2 k n c Hin) as [Hlt _]. pose proof (prefix_length _ _ (Hp1 k)). lia. }
  unfold revisions_made in *. cbn [omap list_omap]. destruct (made_revision r) as [[[k0 n0] c0]|].
  2:{ split; [done|]. intros k n c Hin. split; [by eapply Hle|]. by eapply Hm2. }
  destruct (Hm1 k0 n0 c0 eq_refl) as [-> Ha1]. split.
  - cbn [fmap list_fmap fst]. constructor; [|done]. intros Hin.
    apply list_elem_of_fmap in Hin as ([[k n] c] & [= <- <-] & Hin).
    destruct (Hm2 _ _ _ Hin) as [Hlt _]. rewrite Ha1, length_app in Hlt. cbn in Hlt. lia.
  - intros k n c Hin. apply elem_of_cons in Hin as [[= -> -> ->]|Hin].
    + split; [lia|]. exists (new_version m c0). split; [|done].
      eapply prefix_lookup_Some; [|apply Hp2]. rewrite Ha1.
      rewrite lookup_app_r by lia. by replace (Z.to_nat _ - _)%nat with 0%nat by lia.
    + split; [by eapply Hle|]. by eapply Hm2.
Qed.

(** ** What clients see *)

Lemma order_desc_snoc l r :
  Forall (fun x => revisionRowNumber x <= revisionRowNumber r) l ->
  order_desc (l ++ [r]) = r :: order_desc l.
Proof.
  intros H. unfold order_desc. rewrite foldl_app. cbn [foldl].
  assert (Hle : Forall (fun x => revisionRowNumber x <= revisionRowNumber r)
                  (foldl (fun l r => insert_desc r l) [] l)).
  { assert (Hins : forall y l', Forall (fun x => revisionRowNumber x <= revisionRowNumber r) l' ->
              revisionRowNumber y <= revisionRowNumber r ->
              Forall (fun x => revisionRowNumber x <= revisionRowNumber r) (insert_desc y l')).
    { intros y l'. induction 1 as [|x l' Hx Hl IH]; intros Hy; cbn [insert_desc]; [by repeat constructor|].
      destruct (_ <=? _); repeat constructor; auto. }
    assert (Hfold : forall l0, Forall (fun x => revisionRowNumber x <= revisionRowNumber r) l0 ->
              Forall (fun x => revisionRowNumber x <= revisionRowNumber r)
                (foldl (fun l r => insert_desc r l) l0 l)).
    { induction H as [|x l Hx Hl IH]; intros l0 Hl0; cbn [foldl]; auto. }
    by apply Hfold. }
  destruct (foldl _ _ _) as [|x l'] eqn:E; [done|]. cbn [insert_desc].
  apply Forall_cons in Hle as [Hx _]. by destruct (Z.leb_spec (revisionRowNumber x) (revisionRowNumber r)); [|lia].
Qed.

Lemma order_desc_ascending l n :
  revisionRowNumber <$> l = seqZ 1 (Z.of_nat n) -> order_desc l = reverse l.
Proof.
  revert n. induction l as [|r l IH] using rev_ind; intros n H; [done|].
  destruct n as [|n]; [by destruct l|].
  rewrite seqZ_snoc, fmap_app in H. apply app_inj_2 in H as [Hl [= Hr]]; [|done].
  rewrite reverse_snoc, <- (IH n Hl). apply order_desc_snoc. apply Forall_forall. intros x Hx.
  assert (Hin : revisionRowNumber x ∈ seqZ 1 (Z.of_nat n)) by (rewrite <- Hl; by apply list_elem_of_fmap_2).
  apply elem_of_seqZ in Hin. lia.
Qed.

Definition current_of (h : history) (k : key) (s : LearnedSkill) : Prop :=
  (learnedSkillScope s, learnedSkillSlug s) = k
  /\ learnedSkillRevision s = zlen h
  /\ (exists v, last h = Some v /\ learnedSkillContents s = version_contents v
                /\ learnedSkillUpdatedAt s = version_at v)
  /\ (exists v, head h = Some v /\ learnedSkillCreatedAt s = version_at v).

Lemma row_current_of t r h k :
  is_history t r h -> row_key r = key_columns k ->
  exists s, decodeSkillRow r = inr s /\ current_of h k s.
Proof.
  intros Hh Hk. destruct (row_current _ _ _ Hh) as (v & Hv & Hc & Hu).
  exists (skill_of r k (version_contents v)). split; [by apply decode_row|].
  split; [by destruct k|]. split; [apply Hh|]. split; [by exists v|]. apply Hh.
Qed.

Lemma read_current t a k :
  represents t a ->
  match a k with
  | None => readLearnedSkill k t = inr None
  | Some h => exists s, readLearnedSkill k t = inr (Some s) /\ current_of h k s
  end.
Proof.
  intros H. unfold readLearnedSkill. destruct (a k) as [h|] eqn:Ha; [|by rewrite (no_skill_row t a)].
  destruct (skill_row t a k h H Ha) as (r & -> & _ & Hk & Hh).
  destruct (row_current_of t r h k Hh Hk) as (s & -> & Hs). by exists s.
Qed.

(** The versions with their numbers, the newest first. *)
Definition numbered (h : history) : list (Z * version) := reverse (zip (seqZ 1 (zlen h)) h).

Definition is_revision (x : LearnedSkillRevision) (nv : Z * version) : Prop :=
  exists id, x = revision_of id (fst nv) (snd nv).

Lemma decode_history (l : list RevisionRow) nvs :
  Forall2 (fun r (nv : Z * version) => exists sources,
             revisionRowNumber r = fst nv /\ is_version sources r (snd nv)) l nvs ->
  exists xs, decode_all decodeRevisionRow l = inr xs /\ Forall2 is_revision xs nvs.
Proof.
  induction 1 as [|r [n v] l nvs (sources & Hn & Hv) _ (xs & IH & Hxs)]; cbn [decode_all].
  - by exists [].
  - rewrite (decode_revision _ _ _ Hv), IH. cbn [mbind either_bind].
    eexists. split; [done|]. constructor; [|done]. exists (revisionRowId r). cbn in Hn. by rewrite Hn.
Qed.

Lemma list_history t a k limit :
  represents t a ->
  exists xs, listLearnedSkillRevisionsLimited k limit t = inr xs
    /\ Forall2 is_revision xs (ztake (page_limit limit) (numbered (default [] (a k)))).
Proof.
  intros H. unfold listLearnedSkillRevisionsLimited. destruct (a k) as [h|] eqn:Ha.
  2:{ rewrite (joined_none t a k H Ha). exists []. unfold ztake. cbn [default].
      change (order_desc []) with (@nil RevisionRow). change (numbered []) with (@nil (Z * version)).
      rewrite !firstn_nil. by split. }
  destruct (joined_history t a k h H Ha) as [Hnum Hver].
  rewrite (order_desc_ascending _ (length h)) by done. apply decode_history.
  unfold ztake, numbered. apply Forall2_take, Forall2_reverse. apply Forall2_same_length_lookup.
  cbn [default id]. split.
  { rewrite length_zip, length_seqZ. apply Forall2_length in Hver. rewrite Hver. lia. }
  intros i x [n v] Hx Hnv. apply lookup_zip_with_Some in Hnv as (n' & v' & [= -> ->] & Hn & Hv).
  exists (skill_sources t). split; cbn [fst snd].
  - assert (Hz : (revisionRowNumber <$> joined k t) !! i = Some (revisionRowNumber x))
      by (by rewrite list_lookup_fmap, Hx).
    rewrite Hnum in Hz. congruence.
  - destruct (Forall2_lookup_l _ _ _ _ _ Hver Hx) as (v'' & Hv'' & His).
    by assert (v'' = v') as -> by congruence.
Qed.

(** The skills that a list is asked for. *)
Definition listed (scopes : list Scope) (kind : option ScopeKind) (k : key) : Prop :=
  fst k ∈ scopes /\ forall kd, kind = Some kd -> scopeKind (fst k) = kd.

Lemma findScope_elem scopes kd id id' :
  findScope scopes kd = inr id -> Build_Scope kd id' ∈ scopes <-> id' = id.
Proof.
  unfold findScope. destruct (scopeId <$> _) as [|x []] eqn:E; try done. intros [= ->].
  assert (Hiff : Build_Scope kd id' ∈ scopes
                 <-> id' ∈ scopeId <$> filter (fun s => scopeKind s = kd) scopes).
  { rewrite list_elem_of_fmap. split.
    - intros H. exists (Build_Scope kd id'). split; [done|]. by apply list_elem_of_filter.
    - intros ([kd' i] & -> & H). apply list_elem_of_filter in H as [<- H]. done. }
  by rewrite Hiff, E, list_elem_of_singleton.
Qed.

Lemma applicable_listed scopes u r c kind x k :
  findScope scopes UserScope = inr u -> findScope scopes RepositoryScope = inr r ->
  findScope scopes CheckoutScope = inr c -> row_key x = key_columns k ->
  applicable u r c kind x = true <-> listed scopes kind k.
Proof.
  intros Hu Hr Hc Hk. destruct k as [[kd id] slug]. unfold row_key, key_columns in Hk. cbn in Hk.
  injection Hk as Hkd Hid _. unfold applicable, listed. rewrite Hkd, Hid. cbn [fst scopeKind].
  rewrite andb_true_iff, !orb_true_iff, !bool_decide_eq_true. split.
  - intros [Hs Hkind]. split.
    + destruct kd; destruct Hs as [[[E ->]|[E ->]]|[E ->]]; try (vm_compute in E; congruence);
        by eapply findScope_elem.
    + intros kd' ->. apply bool_decide_eq_true_1 in Hkind. apply (f_equal scopeKindFromText) in Hkind.
      rewrite !scope_kind_text in Hkind. congruence.
  - intros [Hs Hkind]. split.
    + destruct kd; [left; left|left; right|right]; (split; [done|]); by eapply findScope_elem.
    + destruct kind as [kd'|]; [|done]. apply bool_decide_eq_true_2. by rewrite (Hkind kd').
Qed.

Lemma decode_rows t a rows :
  represents t a -> (forall x, x ∈ rows -> x ∈ skills t) ->
  exists ks l, decode_all decodeSkillRow rows = inr l /\ key_columns <$> ks = row_key <$> rows
    /\ Forall2 (fun k s => exists h, a k = Some h /\ current_of h k s) ks l.
Proof.
  intros H. induction rows as [|x rows IH]; intros Hin; [by exists [], []|].
  destruct IH as (ks & l & Hl & Hks & Hf); [intros y Hy; apply Hin; by right|].
  destruct (rep_rows _ _ H x) as (k & h & Hk & Ha & Hh); [apply Hin; left|].
  destruct (row_current_of t x h k Hh Hk) as (s & Hs & Hcur). cbn [decode_all].
  rewrite Hs, Hl. cbn [mbind either_bind]. exists (k :: ks), (s :: l). split; [done|].
  split; [cbn; by rewrite Hks, Hk|]. constructor; [by exists h|done].
Qed.

(** A list has the current versions of skills it was asked for, each once, and all of them
    unless it is as long as its limit. *)
Lemma list_skills t a order_by scopes kind limit :
  represents t a -> (forall l, order_by l ≡ₚ l) ->
  match listAllLearnedSkillsLimited order_by scopes kind limit t with
  | inl err => exists k, findScope scopes k = inl err
  | inr l =>
      exists ks, NoDup ks /\ zlen ks <= page_limit limit
        /\ Forall2 (fun k s => exists h, a k = Some h /\ current_of h k s) ks l
        /\ Forall (listed scopes kind) ks
        /\ (zlen ks < page_limit limit -> forall k h, a k = Some h -> listed scopes kind k -> k ∈ ks)
  end.
Proof.
  intros H Horder. unfold listAllLearnedSkillsLimited.
  destruct (findScope scopes UserScope) as [e|u] eqn:Eu; cbn [mbind either_bind]; [by exists UserScope|].
  destruct (findScope scopes RepositoryScope) as [e|r] eqn:Er; cbn [mbind either_bind];
    [by exists RepositoryScope|].
  destruct (findScope scopes CheckoutScope) as [e|c] eqn:Ec; cbn [mbind either_bind];
    [by exists CheckoutScope|].
  set (all := filter _ _). set (rows := ztake _ _).
  assert (Hrows : forall x, x ∈ rows -> x ∈ all).
  { intros x Hx. rewrite <- (Horder all). by eapply elem_of_take in Hx as (? & ? & _);
      eapply list_elem_of_lookup_2. }
  destruct (decode_rows t a rows H) as (ks & l & -> & Hks & Hf).
  { intros x Hx. apply Hrows in Hx. by apply list_elem_of_filter in Hx as [_ ?]. }
  exists ks. assert (Hlen : length ks = length rows).
  { apply (f_equal length) in Hks. by rewrite !length_fmap in Hks. }
  rewrite Hlen. split_and!.
  - apply (NoDup_fmap_1 key_columns). rewrite Hks. unfold rows, ztake. rewrite fmap_take.
    eapply sublist_NoDup; [|apply sublist_take]. rewrite Horder.
    eapply sublist_NoDup; [apply H|]. apply fmap_sublist, sublist_filter.
  - unfold rows, ztake. rewrite length_take. unfold page_limit. lia.
  - done.
  - apply Forall_forall. intros k Hk.
    assert (Hk' : key_columns k ∈ row_key <$> rows) by (rewrite <- Hks; by apply list_elem_of_fmap_2).
    apply list_elem_of_fmap in Hk' as (x & Hx & Hin). apply Hrows, list_elem_of_filter in Hin as [Happ _].
    by eapply applicable_listed.
  - intros Hlt k h Ha Hk. destruct (skill_row t a k h H Ha) as (x & _ & Hx & Hxk & _).
    assert (Hin : x ∈ rows).
    { assert (rows = order_by all) as ->.
      { unfold rows, ztake. apply firstn_all2. unfold rows, ztake in Hlt. rewrite length_take in Hlt.
        unfold page_limit in *. lia. }
      rewrite (Horder all). apply list_elem_of_filter. split; [|done]. by eapply applicable_listed. }
    assert (Hk' : key_columns k ∈ key_columns <$> ks).
    { rewrite Hks, <- Hxk. by apply list_elem_of_fmap_2. }
    apply list_elem_of_fmap in Hk' as (k' & Ek & Hk'). by apply key_columns_inj in Ek as ->.
Qed.

(** C2: whatever transactions clients have made, the tables represent an abstract store of
    histories.  A further transaction answers and changes it as that store's step does, or is
    refused by a constraint that the mutation or its generated identifiers violate, and changes
    nothing; and each query of a skill reads the store: the current version, the version of a
    number, and the versions from the newest. *)
Theorem skill_store_refines l :
  let t := snd (run l no_tables) in
  exists a, represents t a
    /\ (forall ids m,
          match transaction timestamptz ids m t with
          | Some (r, t') =>
              view r = fst (spec m (a (mutation_key m))) /\ represents t' (spec_store m a)
          | None => ~ (fresh ids t /\ permitted m (a (mutation_key m)))
          end)
    /\ (forall k,
          match a k with
          | None => readLearnedSkill k t = inr None
          | Some h => exists s, readLearnedSkill k t = inr (Some s) /\ current_of h k s
          end)
    /\ (forall k n v, 1 <= n -> default [] (a k) !! Z.to_nat (n - 1) = Some v ->
          exists id, readLearnedSkillRevision k n t = inr (Some (revision_of id n v)))
    /\ (forall k limit, exists xs, listLearnedSkillRevisionsLimited k limit t = inr xs
          /\ Forall2 is_revision xs (ztake (page_limit limit) (numbered (default [] (a k))))).
Proof.
  destruct (run_grows l no_tables _ represents_empty) as (a & H & _). exists a. split_and!.
  - exact H.
  - intros ids m. exact (transaction_refines ids m _ a H).
  - intros k. by apply read_current.
  - intros k n v Hn. destruct (a k) as [h|] eqn:Ha; [|done].
    intros Hv. by eapply read_revision.
  - intros k limit. by apply list_history.
Qed.

(** C3: over any sequence of transactions (of any clients, and with repeated attempts of one
    client), no revision of a skill is made twice, so of the mutations that expect one revision
    at most one is applied; and a revision that was reported as made is read for ever after
    with the contents that were reported. *)
Theorem skill_revisions_once l :
  let '(results, t) := run l no_tables in
  NoDup (fst <$> revisions_made results)
  /\ forall k n c, (k, n, c) ∈ revisions_made results ->
       exists x, readLearnedSkillRevision k n t = inr (Some x)
         /\ learnedSkillRevisionNumber x = n /\ learnedSkillRevisionContents x = c.
Proof.
  destruct (run_grows l no_tables _ represents_empty) as (a & H & _ & Hnd & Hm).
  destruct (run l no_tables) as [results t]. cbn [fst snd] in *. split; [done|].
  intros k n c Hin. destruct (Hm k n c Hin) as (Hn & v & Hv & <-).
  destruct (a k) as [h|] eqn:Ha; [|done].
  destruct (read_revision t a k n h v H Ha ltac:(cbn in Hn; lia) Hv) as [id Hr].
  exists (revision_of id n v). by split_and!.
Qed.

End Refinement.

(** ** A run *)

Definition demo_scope : Scope := {| scopeKind := UserScope; scopeId := txt "0a" |}.

Definition demo_contents (t : string) : contents :=
  Build_contents (txt t) (txt "d") [] (txt "i") SkillRelevant 0 SkillActive.

Definition demo_source : LearnedSkillSourceInput :=
  Build_LearnedSkillSourceInput None None None (txt "evidence").

Definition demo_mutation (ch : change) (at_ : Z) : mutation :=
  Build_mutation demo_scope (txt "use-tabs") ch (txt "why") demo_source at_.

Definition demo_patch (t : string) : LearnedSkillPatch :=
  Build_LearnedSkillPatch (Some (txt t)) None None None None None None.

Definition demo_ids (s : string) : uuids := Build_uuids (txt s) (txt s) (txt s).

(** A create whose answer was lost is repeated and told that the skill exists; an update that
    expects revision 1 is applied, a second one is told of revision 2; a rollback to revision 1
    makes revision 3. *)
Example demo_run :
  option_map view <$> fst (run (fun t => t) [
    (demo_ids "a", demo_mutation (LearnedSkillCreate (demo_contents "one")) 10);
    (demo_ids "b", demo_mutation (LearnedSkillCreate (demo_contents "one")) 20);
    (demo_ids "c", demo_mutation (LearnedSkillUpdate 1 (demo_patch "two")) 30);
    (demo_ids "d", demo_mutation (LearnedSkillUpdate 1 (demo_patch "three")) 40);
    (demo_ids "e", demo_mutation (LearnedSkillRollback 2 1) 50);
    (demo_ids "f", demo_mutation (LearnedSkillUpdate 3 (demo_patch "")) 60)] no_tables)
  = [Some (made (demo_scope, txt "use-tabs") (demo_contents "one") 1);
     Some exists_already;
     Some (made (demo_scope, txt "use-tabs") (demo_contents "two") 2);
     Some (conflict 2);
     Some (made (demo_scope, txt "use-tabs") (demo_contents "one") 3);
     None].
Proof. vm_compute. reflexivity. Qed.
