(* ===== verification/SkillAdmin.v ===== *)
(** * Administration of learned skills

    agent-native-bridge/src/Agent/CLI/ResourceAdmin.hs: what a draft, a slug and a change
    summary must be, and the operations on the store of learned skills, each given what the
    store's sessions answer.  [validated_permitted]: what passes validation violates no
    constraint of the tables, so that only the clock, a generated identifier or the length of a
    history can make the server refuse it. *)

From stdpp Require Import base tactics option list strings.
From Stdlib Require Import ZArith Lia.
From S2P Require Import Prelude Utf8 HostCall SkillTables SkillStore.
#[local] Open Scope Z_scope.

(** ** Data *)

Inductive ResourceScope := ResourceUserScope | ResourceRepositoryScope | ResourceCheckoutScope.

Record ResourceSkillDraft := {
  resourceDraftTitle : text;
  resourceDraftDescription : text;
  resourceDraftAppliesWhen : text;
  resourceDraftInstructions : text;
  resourceDraftActivation : LearnedSkillActivation;
  resourceDraftPriority : Z;
}.

Record ResourceSkill := {
  resourceSkillScope : ResourceScope;
  resourceSkillSlug : text;
  resourceSkillRevision : Z;
  resourceSkillTitle : text;
  resourceSkillDescription : text;
  resourceSkillAppliesWhen : text;
  resourceSkillInstructions : text;
  resourceSkillActivation : LearnedSkillActivation;
  resourceSkillPriority : Z;
  resourceSkillArchived : bool;
  resourceSkillCreatedAt : Z;
  resourceSkillUpdatedAt : Z;
}.

Record ResourceSkillRevision := {
  resourceRevisionNumber : Z;
  resourceRevisionTitle : text;
  resourceRevisionDescription : text;
  resourceRevisionAppliesWhen : text;
  resourceRevisionInstructions : text;
  resourceRevisionActivation : LearnedSkillActivation;
  resourceRevisionPriority : Z;
  resourceRevisionArchived : bool;
  resourceRevisionSummary : text;
  resourceRevisionCreatedAt : Z;
}.

Inductive ResourceAdminError :=
  | ResourceAdminInvalid (message : text)
  | ResourceAdminNotFound
  | ResourceAdminAlreadyExists
  | ResourceAdminConflict (revision : Z)
  | ResourceAdminRevisionNotFound
  | ResourceAdminUnavailable.

#[export] Instance admin_ret : MRet (sum ResourceAdminError) := fun A a => inr a.
#[export] Instance ResourceScope_eq_dec : EqDecision ResourceScope.
Proof. solve_decision. Defined.

#[export] Instance admin_bind : MBind (sum ResourceAdminError) := fun A B f m =>
  match m with inl e => inl e | inr a => f a end.

Definition invalid {A} (message : text) : ResourceAdminError + A := inl (ResourceAdminInvalid message).

(** ** Validation *)

(** [Data.Char.isSpace]. *)
Definition isSpace (c : Z) : bool :=
  (c =? 32) || (9 <=? c) && (c <=? 13) || (c =? 160) || (c =? 5760)
  || (8192 <=? c) && (c <=? 8202) || (c =? 8239) || (c =? 8287) || (c =? 12288).

(** [Text.null (Text.strip s)]. *)
Definition blank (s : text) : bool := forallb isSpace s.

(** [Text.splitOn] on one character. *)
Fixpoint splitOn (sep : Z) (s : text) : list text :=
  match s with
  | [] => [[]]
  | c :: s =>
      if c =? sep then [] :: splitOn sep s
      else match splitOn sep s with
           | [] => [[c]]
           | w :: ws => (c :: w) :: ws
           end
  end.

Definition isAsciiLower (c : Z) : bool := (97 <=? c) && (c <=? 122).
Definition isDigit (c : Z) : bool := (48 <=? c) && (c <=? 57).

Definition invalidSegment (segment : text) : bool :=
  match segment with [] => true | _ => false end
  || existsb (fun c => negb (isAsciiLower c || isDigit c)) segment.

Definition validateResourceSlug (slug : text) : ResourceAdminError + text :=
  match slug with
  | [] => invalid (txt "slug must not be empty")
  | _ =>
      if 80 <? zlen slug then invalid (txt "slug must contain at most 80 characters")
      else if existsb invalidSegment (splitOn 45 slug) then
        invalid (txt "slug must use lower-case ASCII words separated by single hyphens")
      else inr slug
  end.

Definition too_long (label : text) (maximum : Z) : text :=
  label ++ txt " must contain at most " ++ show_text maximum ++ txt " characters".

Definition validateRequired (label : text) (maximum : Z) (s : text) : ResourceAdminError + text :=
  if existsb (Z.eqb 0) s then invalid (label ++ txt " must not contain NUL")
  else if blank s then invalid (label ++ txt " must not be empty")
  else if maximum <? zlen s then invalid (too_long label maximum)
  else inr s.

Definition validateOptional (label : text) (maximum : Z) (s : text) : ResourceAdminError + text :=
  if existsb (Z.eqb 0) s then invalid (label ++ txt " must not contain NUL")
  else if maximum <? zlen s then invalid (too_long label maximum)
  else inr s.

Definition validateResourceSummary (summary : text) : ResourceAdminError + text :=
  validateRequired (txt "change summary") 1000 summary.

Definition validateResourceSkillDraft (draft : ResourceSkillDraft)
    : ResourceAdminError + ResourceSkillDraft :=
  title ← validateRequired (txt "title") 200 (resourceDraftTitle draft);
  description ← validateRequired (txt "description") 1000 (resourceDraftDescription draft);
  appliesWhen ← validateOptional (txt "applies_when") 2000 (resourceDraftAppliesWhen draft);
  instructions ← validateRequired (txt "instructions") 30000 (resourceDraftInstructions draft);
  if (resourceDraftPriority draft <? -100) || (100 <? resourceDraftPriority draft) then
    invalid (txt "priority must be between -100 and 100")
  else inr {|
    resourceDraftTitle := title;
    resourceDraftDescription := description;
    resourceDraftAppliesWhen := appliesWhen;
    resourceDraftInstructions := instructions;
    resourceDraftActivation := resourceDraftActivation draft;
    resourceDraftPriority := resourceDraftPriority draft;
  |}.

Definition validatePositiveRevision (label : text) (revision : Z) : ResourceAdminError + Z :=
  if revision <? 1 then invalid (label ++ txt " must be positive") else inr revision.

Definition validateKey (slug : text) (revision : option Z) : ResourceAdminError + unit :=
  validateResourceSlug slug ;;
  match revision with
  | Some revision => validatePositiveRevision (txt "revision") revision ;; mret tt
  | None => mret tt
  end.

Definition validateMutationKey (slug : text) (revision : Z) : ResourceAdminError + unit :=
  validateKey slug (Some revision).

Definition validateLimit (label : text) (limit : Z) : ResourceAdminError + Z :=
  if (limit <? 1) || (1000 <? limit) then
    invalid (label ++ txt " limit must be between 1 and 1000")
  else inr limit.

(** ** The store's answers *)

Inductive StoreError :=
  | StoreConfigurationError (message : text)
  | StoreProcessError (message : text)
  | StoreConnectionError (message : text)
  | StoreMigrationError (message : text)
  | StoreDataError (message : text).

Fixpoint isPrefixOf (needle s : text) : bool :=
  match needle, s with
  | [], _ => true
  | c :: needle, d :: s => (c =? d) && isPrefixOf needle s
  | _ :: _, [] => false
  end.

Fixpoint isInfixOf (needle s : text) : bool :=
  isPrefixOf needle s || match s with [] => false | _ :: s => isInfixOf needle s end.

Definition mapStoreError {A} (r : StoreError + A) : ResourceAdminError + A :=
  match r with
  | inr a => inr a
  | inl (StoreDataError message) =>
      if isInfixOf (txt "does not change any stored field") message then
        invalid (txt "mutation does not change the resource")
      else inl ResourceAdminUnavailable
  | inl _ => inl ResourceAdminUnavailable
  end.

Definition resourceScopeFromStored (k : ScopeKind) : ResourceScope :=
  match k with
  | UserScope => ResourceUserScope
  | RepositoryScope => ResourceRepositoryScope
  | CheckoutScope => ResourceCheckoutScope
  end.

Definition resourceScopeKind (s : ResourceScope) : ScopeKind :=
  match s with
  | ResourceUserScope => UserScope
  | ResourceRepositoryScope => RepositoryScope
  | ResourceCheckoutScope => CheckoutScope
  end.

(** The identifiers that [deriveDatabaseScopes] finds for the three scopes of a directory. *)
Record DatabaseScopes := { userId : text; repositoryId : text; checkoutId : text }.

Definition selectScope (scopes : DatabaseScopes) (s : ResourceScope) : Scope :=
  match s with
  | ResourceUserScope => {| scopeKind := UserScope; scopeId := userId scopes |}
  | ResourceRepositoryScope => {| scopeKind := RepositoryScope; scopeId := repositoryId scopes |}
  | ResourceCheckoutScope => {| scopeKind := CheckoutScope; scopeId := checkoutId scopes |}
  end.

Definition applicableDatabaseScopes (scopes : DatabaseScopes) : list Scope :=
  map (selectScope scopes) [ResourceUserScope; ResourceRepositoryScope; ResourceCheckoutScope].

Definition archived (s : LearnedSkillStatus) : bool := bool_decide (s = SkillArchived).

Definition resource_skill (scope : ResourceScope) (slug : text) (revision : Z) (c : contents)
    (createdAt updatedAt : Z) : ResourceSkill := {|
  resourceSkillScope := scope;
  resourceSkillSlug := slug;
  resourceSkillRevision := revision;
  resourceSkillTitle := skillTitle c;
  resourceSkillDescription := skillDescription c;
  resourceSkillAppliesWhen := skillAppliesWhen c;
  resourceSkillInstructions := skillInstructions c;
  resourceSkillActivation := skillActivation c;
  resourceSkillPriority := skillPriority c;
  resourceSkillArchived := archived (skillStatus c);
  resourceSkillCreatedAt := createdAt;
  resourceSkillUpdatedAt := updatedAt;
|}.

Definition skillFromStored (s : LearnedSkill) : ResourceSkill :=
  resource_skill (resourceScopeFromStored (scopeKind (learnedSkillScope s))) (learnedSkillSlug s)
    (learnedSkillRevision s) (learnedSkillContents s) (learnedSkillCreatedAt s)
    (learnedSkillUpdatedAt s).

Definition historicalSkill (current : LearnedSkill) (r : LearnedSkillRevision) : ResourceSkill :=
  resource_skill (resourceScopeFromStored (scopeKind (learnedSkillScope current)))
    (learnedSkillSlug current) (learnedSkillRevisionNumber r) (learnedSkillRevisionContents r)
    (learnedSkillCreatedAt current) (learnedSkillRevisionCreatedAt r).

Definition revisionFromStored (r : LearnedSkillRevision) : ResourceSkillRevision :=
  let c := learnedSkillRevisionContents r in {|
  resourceRevisionNumber := learnedSkillRevisionNumber r;
  resourceRevisionTitle := skillTitle c;
  resourceRevisionDescription := skillDescription c;
  resourceRevisionAppliesWhen := skillAppliesWhen c;
  resourceRevisionInstructions := skillInstructions c;
  resourceRevisionActivation := skillActivation c;
  resourceRevisionPriority := skillPriority c;
  resourceRevisionArchived := archived (skillStatus c);
  resourceRevisionSummary := learnedSkillRevisionSummary r;
  resourceRevisionCreatedAt := learnedSkillRevisionCreatedAt r;
|}.

Definition nativeAdminSource : LearnedSkillSourceInput :=
  Build_LearnedSkillSourceInput None None None
    (txt "Changed through typed native memory administration.").

Definition finishMutation (r : LearnedSkillMutationResult) : ResourceAdminError + ResourceSkill :=
  match r with
  | LearnedSkillMutationApplied skill => inr (skillFromStored skill)
  | LearnedSkillMutationAlreadyExists => inl ResourceAdminAlreadyExists
  | LearnedSkillMutationNotFound => inl ResourceAdminNotFound
  | LearnedSkillMutationConflict revision => inl (ResourceAdminConflict revision)
  | LearnedSkillMutationRevisionNotFound => inl ResourceAdminRevisionNotFound
  end.

(** ** Operations

    The environment of one operation: the clock, the identifiers that the server would
    generate, the order of titles, and how each session ends.  A session that loses its
    connection may have been committed or not.  An attempt that is repeated after a loss is a
    transaction like any other, so the attempt that answers finds tables on which earlier
    attempts, and other clients, have run. *)

Inductive fate :=
  | fate_answered
  | fate_lost (committed : bool) (message : text).

Record world := {
  w_timestamptz : Z -> Z;
  w_now : Z;
  w_ids : uuids;
  w_order_by : list SkillRow -> list SkillRow;
  w_fate : fate;
  (** Of a second session of the same operation, and the transactions before it. *)
  w_second_fate : fate;
  w_between : list (uuids * mutation);
}.

Definition writeSession (w : world) (m : mutation) (t : tables)
    : (StoreError + LearnedSkillMutationResult) * tables :=
  match w_fate w with
  | fate_answered =>
      match transaction (w_timestamptz w) (w_ids w) m t with
      | Some (inr r, t) => (inr r, t)
      | Some (inl message, t) => (inl (StoreDataError message), t)
      | None => (inl (StoreConnectionError (txt "PostgreSQL session failed")), t)
      end
  | fate_lost committed message =>
      (inl (StoreConnectionError message),
       if committed then snd (attempt (w_timestamptz w) (w_ids w) m t) else t)
  end.

Definition readSession {A} (f : fate) (query : tables -> text + A) (t : tables) : StoreError + A :=
  match f with
  | fate_answered =>
      match query t with
      | inr a => inr a
      | inl message => inl (StoreDataError message)
      end
  | fate_lost _ message => inl (StoreConnectionError message)
  end.

Section Operations.
Context (w : world) (scopes : DatabaseScopes).

(** [throwE] before, or the session and [finishMutation]. *)
Definition mutate (m : ResourceAdminError + mutation) (t : tables)
    : (ResourceAdminError + ResourceSkill) * tables :=
  match m with
  | inl e => (inl e, t)
  | inr m =>
      let '(result, t) := writeSession w m t in
      (result ← mapStoreError result; finishMutation result, t)
  end.

Definition draft_contents (draft : ResourceSkillDraft) (s : LearnedSkillStatus) : contents := {|
  skillTitle := resourceDraftTitle draft;
  skillDescription := resourceDraftDescription draft;
  skillAppliesWhen := resourceDraftAppliesWhen draft;
  skillInstructions := resourceDraftInstructions draft;
  skillActivation := resourceDraftActivation draft;
  skillPriority := resourceDraftPriority draft;
  skillStatus := s;
|}.

Definition native_mutation (selected : ResourceScope) (slug : text) (ch : change) (summary : text)
    : mutation := {|
  mutationScope := selectScope scopes selected;
  mutationSlug := slug;
  mutationChange := ch;
  mutationSummary := summary;
  mutationSource := nativeAdminSource;
  mutationAt := w_now w;
|}.

Definition createResourceSkill (selected : ResourceScope) (slug : text)
    (rawDraft : ResourceSkillDraft) (rawSummary : text) : tables -> _ :=
  mutate (
    validateResourceSlug slug ;;
    draft ← validateResourceSkillDraft rawDraft;
    summary ← validateResourceSummary rawSummary;
    mret (native_mutation selected slug
            (LearnedSkillCreate (draft_contents draft SkillActive)) summary)).

Definition draft_patch (draft : ResourceSkillDraft) : LearnedSkillPatch := {|
  learnedSkillPatchTitle := Some (resourceDraftTitle draft);
  learnedSkillPatchDescription := Some (resourceDraftDescription draft);
  learnedSkillPatchAppliesWhen := Some (resourceDraftAppliesWhen draft);
  learnedSkillPatchInstructions := Some (resourceDraftInstructions draft);
  learnedSkillPatchActivation := Some (resourceDraftActivation draft);
  learnedSkillPatchPriority := Some (resourceDraftPriority draft);
  learnedSkillPatchStatus := None;
|}.

Definition updateResourceSkill (selected : ResourceScope) (slug : text) (expected : Z)
    (rawDraft : ResourceSkillDraft) (rawSummary : text) : tables -> _ :=
  mutate (
    validateMutationKey slug expected ;;
    draft ← validateResourceSkillDraft rawDraft;
    summary ← validateResourceSummary rawSummary;
    mret (native_mutation selected slug (LearnedSkillUpdate expected (draft_patch draft)) summary)).

Definition status_patch (s : LearnedSkillStatus) : LearnedSkillPatch :=
  Build_LearnedSkillPatch None None None None None None (Some s).

Definition setResourceSkillArchived (s : LearnedSkillStatus) (selected : ResourceScope)
    (slug : text) (expected : Z) (rawSummary : text) : tables -> _ :=
  mutate (
    validateMutationKey slug expected ;;
    summary ← validateResourceSummary rawSummary;
    mret (native_mutation selected slug (LearnedSkillUpdate expected (status_patch s)) summary)).

Definition archiveResourceSkill := setResourceSkillArchived SkillArchived.
Definition restoreResourceSkill := setResourceSkillArchived SkillActive.

Definition rollbackResourceSkill (selected : ResourceScope) (slug : text) (expected target : Z)
    (rawSummary : text) : tables -> _ :=
  mutate (
    validateMutationKey slug expected ;;
    validatePositiveRevision (txt "target revision") target ;;
    summary ← validateResourceSummary rawSummary;
    mret (native_mutation selected slug (LearnedSkillRollback expected target) summary)).

Definition listResourceSkills (selected : option ResourceScope) (limit : Z) (t : tables)
    : ResourceAdminError + list ResourceSkill :=
  validateLimit (txt "list") limit ;;
  stored ← mapStoreError (readSession (w_fate w)
             (listAllLearnedSkillsLimited (w_order_by w) (applicableDatabaseScopes scopes)
                (resourceScopeKind <$> selected) limit) t);
  mret (map skillFromStored
          (ztake limit
             (match selected with
              | None => stored
              | Some scope =>
                  filter (fun s => resourceScopeFromStored (scopeKind (learnedSkillScope s)) = scope)
                    stored
              end))).

Definition require {A} (e : ResourceAdminError) (o : option A) : ResourceAdminError + A :=
  match o with Some a => inr a | None => inl e end.

Definition readResourceSkill (selected : ResourceScope) (slug : text) (requestedRevision : option Z)
    (t : tables) : ResourceAdminError + ResourceSkill :=
  let scope := selectScope scopes selected in
  validateKey slug requestedRevision ;;
  found ← mapStoreError (readSession (w_fate w) (readLearnedSkill (scope, slug)) t);
  current ← require ResourceAdminNotFound found;
  match requestedRevision with
  | None => mret (skillFromStored current)
  | Some revision =>
      found ← mapStoreError (readSession (w_second_fate w)
                (readLearnedSkillRevision (scope, slug) revision)
                (snd (run (w_timestamptz w) (w_between w) t)));
      stored ← require ResourceAdminRevisionNotFound found;
      mret (historicalSkill current stored)
  end.

Definition historyResourceSkill (selected : ResourceScope) (slug : text) (limit : Z) (t : tables)
    : ResourceAdminError + list ResourceSkillRevision :=
  validateLimit (txt "history") limit ;;
  validateResourceSlug slug ;;
  revisions ← mapStoreError (readSession (w_fate w)
                (listLearnedSkillRevisionsLimited (selectScope scopes selected, slug) limit) t);
  match revisions with
  | [] => inl ResourceAdminNotFound
  | _ => mret (map revisionFromStored revisions)
  end.

End Operations.

(** ** Validation and the constraints of the tables *)

Lemma segment_ok w :
  negb (invalidSegment w) =
  match w with [] => false | _ => true end && forallb slug_char w.
Proof.
  unfold invalidSegment. destruct w as [|x w]; [done|]. cbn [orb andb].
  induction (x :: w) as [|y l IH]; [done|]. cbn [forallb existsb].
  rewrite negb_orb, IH. f_equal. by destruct (isAsciiLower y || isDigit y) eqn:E; cbn [negb]; unfold slug_char;
    unfold isAsciiLower, isDigit in E; rewrite E.
Qed.

Lemma splitOn_cons s : exists w ws, splitOn 45 s = w :: ws.
Proof.
  induction s as [|c s (w & ws & IH)]; cbn [splitOn]; [by eexists _, _|].
  destruct (c =? 45); [by eexists _, _|]. rewrite IH. by eexists _, _.
Qed.

Lemma slug_match_split s w ws b :
  splitOn 45 s = w :: ws ->
  slug_match b s =
  (b || match w with [] => false | _ => true end) && forallb slug_char w
  && forallb (fun x => negb (invalidSegment x)) ws.
Proof.
  revert w ws b. induction s as [|c s IH]; intros w ws b H; cbn [splitOn slug_match] in *.
  { injection H as <- <-. cbn. by rewrite orb_false_r, !andb_true_r. }
  assert (Hdash : slug_char 45 = false) by done.
  destruct (Z.eqb_spec c 45) as [->|Hc].
  - rewrite Hdash. injection H as <- <-. destruct (splitOn_cons s) as (w' & ws' & E).
    rewrite (IH w' ws' false E), E. cbn [forallb orb]. rewrite segment_ok, orb_false_r, andb_true_r.
    done.
  - destruct (splitOn_cons s) as (w' & ws' & E). rewrite E in H. injection H as <- <-.
    cbn [forallb]. rewrite orb_true_r. cbn [andb].
    destruct (slug_char c); [|done]. by rewrite (IH w' ws' true E).
Qed.

(** The segments of a slug and the pattern of the table agree. *)
Lemma slug_segments s : existsb invalidSegment (splitOn 45 s) = negb (slug_match false s).
Proof.
  destruct (splitOn_cons s) as (w & ws & E). rewrite E, (slug_match_split s w ws false E).
  assert (Hex : forall l, existsb invalidSegment l = negb (forallb (fun x => negb (invalidSegment x)) l)).
  { induction l as [|x l IH]; [done|]. cbn. by rewrite IH, negb_andb, negb_involutive. }
  rewrite Hex. cbn [forallb orb]. by rewrite segment_ok.
Qed.

Lemma slug_match_no_nul b s : slug_match b s = true -> no_nul s = true.
Proof.
  revert b. induction s as [|c s IH]; intros b; [done|]. cbn [slug_match no_nul forallb].
  destruct (slug_char c) eqn:E.
  - intros H. change (negb (c =? 0) && no_nul s = true). rewrite (IH _ H), andb_true_r.
    destruct (Z.eqb_spec c 0) as [->|]; [by vm_compute in E|done].
  - destruct (Z.eqb_spec c 45) as [->|]; [|done]. intros [_ H]%andb_true_iff.
    change (no_nul s = true). by eapply IH.
Qed.

Lemma slug_valid s :
  match validateResourceSlug s with
  | inr s' => s' = s /\ slug_ok s = true
  | inl _ => slug_ok s = false
  end.
Proof.
  unfold validateResourceSlug, invalid, slug_ok, at_most. destruct s as [|c s]; [done|].
  rewrite slug_segments. set (slug := c :: s). clearbody slug.
  destruct (Z.ltb_spec 80 (zlen slug)), (Z.leb_spec (zlen slug) 80); try lia.
  destruct (slug_match false slug) eqn:Em; cbn [negb]; [|by destruct (no_nul slug)].
  by rewrite (slug_match_no_nul _ _ Em).
Qed.

(** What a required and an optional text must be. *)
Definition required_ok (n : Z) (s : text) : bool := no_nul s && negb (blank s) && at_most n s.

Definition optional_ok (n : Z) (s : text) : bool := no_nul s && at_most n s.

Lemma no_nul_exists s : existsb (Z.eqb 0) s = negb (no_nul s).
Proof.
  induction s as [|c s IH]; [done|]. cbn [existsb no_nul forallb]. rewrite IH, negb_andb, negb_involutive.
  by rewrite Z.eqb_sym.
Qed.

Lemma required_valid label n s :
  match validateRequired label n s with
  | inr s' => s' = s /\ required_ok n s = true
  | inl _ => required_ok n s = false
  end.
Proof.
  unfold validateRequired, required_ok, invalid, at_most. rewrite no_nul_exists.
  destruct (no_nul s); [|done]. cbn [negb andb]. destruct (blank s); [done|]. cbn [negb andb].
  destruct (Z.ltb_spec n (zlen s)); destruct (Z.leb_spec (zlen s) n); done || lia.
Qed.

Lemma optional_valid label n s :
  match validateOptional label n s with
  | inr s' => s' = s /\ optional_ok n s = true
  | inl _ => optional_ok n s = false
  end.
Proof.
  unfold validateOptional, optional_ok, invalid, at_most. rewrite no_nul_exists.
  destruct (no_nul s); [|done]. cbn [negb andb].
  destruct (Z.ltb_spec n (zlen s)); destruct (Z.leb_spec (zlen s) n); done || lia.
Qed.

Lemma not_blank s : blank s = false -> btrim_nonempty s = true.
Proof.
  unfold blank, btrim_nonempty. induction s as [|c s IH]; [done|]. cbn [forallb existsb].
  destruct (Z.eqb_spec c 32) as [->|]; [exact IH|done].
Qed.

Definition draft_ok (d : ResourceSkillDraft) : bool :=
  required_ok 200 (resourceDraftTitle d) && required_ok 1000 (resourceDraftDescription d)
  && optional_ok 2000 (resourceDraftAppliesWhen d)
  && required_ok 30000 (resourceDraftInstructions d)
  && (-100 <=? resourceDraftPriority d) && (resourceDraftPriority d <=? 100).

Lemma draft_valid d :
  match validateResourceSkillDraft d with
  | inr d' => d' = d /\ draft_ok d = true
  | inl _ => draft_ok d = false
  end.
Proof.
  unfold validateResourceSkillDraft, draft_ok.
  pose proof (required_valid (txt "title") 200 (resourceDraftTitle d)) as H1.
  destruct (validateRequired _ 200 _) as [|s1]; cbn [mbind admin_bind]; [by rewrite H1|].
  destruct H1 as [-> ->]. cbn [andb].
  pose proof (required_valid (txt "description") 1000 (resourceDraftDescription d)) as H2.
  destruct (validateRequired _ 1000 _) as [|s2]; cbn [mbind admin_bind]; [by rewrite H2|].
  destruct H2 as [-> ->]. cbn [andb].
  pose proof (optional_valid (txt "applies_when") 2000 (resourceDraftAppliesWhen d)) as H3.
  destruct (validateOptional _ 2000 _) as [|s3]; cbn [mbind admin_bind]; [by rewrite H3|].
  destruct H3 as [-> ->]. cbn [andb].
  pose proof (required_valid (txt "instructions") 30000 (resourceDraftInstructions d)) as H4.
  destruct (validateRequired _ 30000 _) as [|s4]; cbn [mbind admin_bind]; [by rewrite H4|].
  destruct H4 as [-> ->]. cbn [andb].
  destruct (Z.ltb_spec (resourceDraftPriority d) (-100)), (Z.ltb_spec 100 (resourceDraftPriority d)),
    (Z.leb_spec (-100) (resourceDraftPriority d)), (Z.leb_spec (resourceDraftPriority d) 100);
    cbn [orb andb]; try done; try lia. split; [by destruct d|done].
Qed.

(** ** Mutations that passed validation *)

Inductive native_change : change -> Prop :=
  | native_create d : draft_ok d = true ->
      native_change (LearnedSkillCreate (draft_contents d SkillActive))
  | native_update expected d : 1 <= expected -> draft_ok d = true ->
      native_change (LearnedSkillUpdate expected (draft_patch d))
  | native_status expected s : 1 <= expected ->
      native_change (LearnedSkillUpdate expected (status_patch s))
  | native_rollback expected target : 1 <= expected -> 1 <= target ->
      native_change (LearnedSkillRollback expected target).

Definition native (m : mutation) : Prop :=
  slug_ok (mutationSlug m) = true /\ required_ok 1000 (mutationSummary m) = true
  /\ mutationSource m = nativeAdminSource /\ native_change (mutationChange m).

Lemma status_text_ok s : in_texts (learnedSkillStatusText s) [txt "active"; txt "archived"] = true.
Proof. by destruct s. Qed.

Lemma activation_text_ok a :
  in_texts (learnedSkillActivationText a) [txt "always"; txt "relevant"; txt "manual"] = true.
Proof. by destruct a. Qed.

Lemma draft_columns d s : draft_ok d = true -> check_columns (columns_of (draft_contents d s)) = true.
Proof.
  unfold draft_ok, required_ok, optional_ok. rewrite !andb_true_iff, !negb_true_iff.
  intros (((((((H1 & B1) & L1) & ((H2 & B2) & L2)) & (H3 & L3)) & ((H4 & B4) & L4)) & P1) & P2).
  unfold check_columns. cbn [forallb title description applies_when instructions_text activation_mode
    priority status columns_of draft_contents skillTitle skillDescription skillAppliesWhen
    skillInstructions skillActivation skillPriority skillStatus].
  rewrite H1, H2, H3, H4, L1, L2, L3, L4, P1, P2, status_text_ok, activation_text_ok.
  rewrite !not_blank by done. by destruct s, (resourceDraftActivation d).
Qed.

Lemma status_columns c s :
  check_columns (columns_of c) = true ->
  check_columns (columns_of (applySkillPatch (status_patch s) c)) = true.
Proof.
  unfold check_columns. cbn [forallb title description applies_when instructions_text activation_mode
    priority status columns_of applySkillPatch status_patch learnedSkillPatchTitle
    learnedSkillPatchDescription learnedSkillPatchAppliesWhen learnedSkillPatchInstructions
    learnedSkillPatchActivation learnedSkillPatchPriority learnedSkillPatchStatus default id
    skillTitle skillDescription skillAppliesWhen skillInstructions skillActivation skillPriority
    skillStatus].
  rewrite !status_text_ok. by destruct s, (skillStatus c).
Qed.

Lemma version_checked t a k h v :
  represents t a -> a k = Some h -> v ∈ h -> check_columns (columns_of (version_contents v)) = true.
Proof.
  intros H Ha Hv. destruct (skill_row t a k h H Ha) as (r & _ & _ & _ & Hh).
  apply list_elem_of_lookup in Hv as [i Hi].
  destruct (Forall2_lookup_r _ _ _ _ _ (row_versions _ _ _ Hh) Hi) as (x & _ & Hx). apply Hx.
Qed.

Lemma native_source_ok : check_source nativeAdminSource = true.
Proof. by vm_compute. Qed.

(** The contents that a native mutation would write satisfy the constraints. *)
Lemma decision_checked t a m c :
  represents t a -> native m -> decision (mutationChange m) (a (mutation_key m)) = inr c ->
  check_columns (columns_of c) = true.
Proof.
  intros H (_ & _ & _ & Hch) Hd. destruct (a (mutation_key m)) as [h|] eqn:Ha; unfold decision in Hd.
  2:{ destruct Hch; try done. injection Hd as <-. by apply draft_columns. }
  destruct Hch as [d Hok|e d He Hok|e s He|e target He Ht]; [done| | |].
  - case_decide; [|done]. destruct (last h) as [v|]; [|done]. cbn zeta in Hd. case_decide; [done|].
    injection Hd as <-. by apply (draft_columns d (skillStatus (version_contents v))).
  - case_decide; [|done]. destruct (last h) as [v|] eqn:Hv; [|done]. cbn zeta in Hd. case_decide; [done|].
    injection Hd as <-. apply status_columns. eapply version_checked; eauto.
    apply last_Some_elem_of; done.
  - case_decide; [|done]. destruct (_ <=? target); [done|]. destruct (1 <=? target); [|done].
    destruct (h !! _) as [v|] eqn:Hv; [|done]. injection Hd as <-.
    eapply version_checked; eauto. by eapply list_elem_of_lookup_2.
Qed.

(** What the server may still refuse: the clock, or the number of versions. *)
Definition timely (tz : Z -> Z) (m : mutation) (h : option history) : Prop :=
  zlen (default [] h) + 1 < 2 ^ 63
  /\ match h ≫= head with Some v => version_at v <= tz (mutationAt m) | None => True end.

Lemma validated_permitted tz t a m :
  represents t a -> native m -> timely tz m (a (mutation_key m)) ->
  permitted tz m (a (mutation_key m)).
Proof.
  intros H Hn (Hlen & Hat). pose proof Hn as (Hslug & Hsum & Hsrc & Hch). split.
  - destruct Hch; try done. split; [done|]. by apply draft_columns.
  - destruct (decision _ _) as [|c] eqn:Hd; [done|]. split_and!; try done.
    + by eapply decision_checked.
    + unfold required_ok in Hsum. rewrite !andb_true_iff, negb_true_iff in Hsum.
      destruct Hsum as ((H1 & H2) & _). unfold summary_ok. by rewrite H1, not_blank.
    + rewrite Hsrc. apply native_source_ok.
Qed.

(** ** What an operation answers *)

(** The answer that the step of the abstract store becomes. *)
Definition answer_of (r : spec_result) : ResourceAdminError + Z :=
  match r with
  | made _ _ n => inr n
  | exists_already => inl ResourceAdminAlreadyExists
  | missing => inl ResourceAdminNotFound
  | conflict n => inl (ResourceAdminConflict n)
  | no_such_revision => inl ResourceAdminRevisionNotFound
  | pointless message =>
      inl (if decide (message = unchanged_message)
           then ResourceAdminInvalid (txt "mutation does not change the resource")
           else ResourceAdminUnavailable)
  end.

Definition answered_revision (r : ResourceAdminError + ResourceSkill) : ResourceAdminError + Z :=
  match r with inl e => inl e | inr s => inr (resourceSkillRevision s) end.

Lemma decision_messages ch h message :
  decision ch h = inl (pointless message) -> message = unchanged_message \/ message = target_message.
Proof.
  intros H. destruct ch as [c|e p|e n], h as [h|]; cbn [decision] in H; try done.
  - destruct (decide _); [|done]. destruct (last h) as [v|]; [|done]. cbn zeta in H.
    destruct (decide _); [|done]. injection H as <-. by left.
  - destruct (decide _); [|done]. destruct (_ <=? _); [injection H as <-; by right|].
    destruct (1 <=? n); [|done]. by destruct (h !! _).
Qed.

Lemma finish_answer tz m h r :
  view r = fst (spec tz m h) ->
  answered_revision (
    result ← mapStoreError (match r with inr r => inr r | inl message => inl (StoreDataError message) end);
    finishMutation result)
  = answer_of (fst (spec tz m h)).
Proof.
  intros H. rewrite <- H. destruct r as [message|[]]; [|done..].
  assert (Hm : message = unchanged_message \/ message = target_message).
  { apply (decision_messages (mutationChange m) h). unfold spec in H.
    destruct (decision (mutationChange m) h); cbn in H; congruence. }
  by destruct Hm as [-> | ->]; vm_compute.
Qed.

(** A native mutation is answered by the step of the abstract store, or it is unavailable and
    that step was taken or not. *)
Lemma mutate_outcome w t a m :
  represents t a -> native m ->
  let '(r, t') := mutate w (inr m) t in
  (answered_revision r = answer_of (fst (spec (w_timestamptz w) m (a (mutation_key m))))
   /\ represents t' (spec_store (w_timestamptz w) m a))
  \/ (r = inl ResourceAdminUnavailable
      /\ (t' = t \/ represents t' (spec_store (w_timestamptz w) m a))
      /\ ~ (w_fate w = fate_answered /\ fresh (w_ids w) t
            /\ timely (w_timestamptz w) m (a (mutation_key m)))).
Proof.
  intros H Hn. set (tz := w_timestamptz w). pose proof (transaction_refines tz (w_ids w) m t a H) as Hr.
  unfold mutate, writeSession. fold tz. destruct (w_fate w) as [|committed message].
  - destruct (transaction tz (w_ids w) m t) as [[r t']|]; cbn [refines] in Hr.
    + destruct Hr as [Hv Hr]. pose proof (finish_answer tz m _ r Hv) as Hf. destruct r; left; by split.
    + cbn beta iota. right. split_and!; [done|by left|]. intros (_ & Hf & Ht). apply Hr. split; [done|].
      by eapply validated_permitted.
  - cbn beta iota. right. split_and!; [done| |by intros (? & _)]. destruct committed; [|by left].
    unfold attempt. destruct (transaction tz (w_ids w) m t) as [[r t']|]; [right; apply Hr|by left].
Qed.
