(* ===== verification/SkillCalls.v ===== *)
(** * The learned-skill entries

    The [ha_learned_skill_*] functions of HaskellAgentBridge.h and what they accept
    (ResourceAdmin.hs of agent-native-bridge/ffi), over the memory that the host lends.
    [skill_entries_contract]: each call is refused with the status that the header names, or
    accepted as the request that its arguments describe.  The entries limit bytes before they
    decode and characters after; [utf8_length_bound] is why the first limit refuses nothing
    that the second would allow. *)

From stdpp Require Import base tactics option list gmap strings.
From Stdlib Require Import ZArith Lia.
From coqutil Require Import Byte.
From S2P Require Import Prelude Utf8 AbiLayout HostCall SkillTables SkillStore SkillAdmin.
#[local] Open Scope Z_scope.

(** ** The header *)

Definition HA_LEARNED_SKILL_SCOPE_ALL : Z := -1.
Definition HA_LEARNED_SKILL_SCOPE_USER : Z := 0.
Definition HA_LEARNED_SKILL_SCOPE_REPOSITORY : Z := 1.
Definition HA_LEARNED_SKILL_SCOPE_CHECKOUT : Z := 2.

Definition HA_LEARNED_SKILL_ACTIVATION_ALWAYS : Z := 0.
Definition HA_LEARNED_SKILL_ACTIVATION_RELEVANT : Z := 1.
Definition HA_LEARNED_SKILL_ACTIVATION_MANUAL : Z := 2.

(** A pointer and a length. *)
Abbreviation buffer := (Z * Z)%type.

(** The text arguments of a create and of an update. *)
Record draft_arguments := {
  arg_title : buffer;
  arg_description : buffer;
  arg_applies_when : buffer;
  arg_instructions : buffer;
  arg_activation : Z;
  arg_priority : Z;
}.

(** The calls of the host; a callback is the address of a function. *)
Inductive skill_call :=
  | learned_skill_list (cwd : buffer) (scope limit callback : Z)
  | learned_skill_read (cwd : buffer) (scope : Z) (slug : buffer) (revision callback : Z)
  | learned_skill_create (cwd : buffer) (scope : Z) (slug : buffer) (draft : draft_arguments)
      (change_summary : buffer) (callback : Z)
  | learned_skill_update (cwd : buffer) (scope : Z) (slug : buffer) (expected_revision : Z)
      (draft : draft_arguments) (change_summary : buffer) (callback : Z)
  | learned_skill_archive (cwd : buffer) (scope : Z) (slug : buffer) (expected_revision : Z)
      (change_summary : buffer) (callback : Z)
  | learned_skill_restore (cwd : buffer) (scope : Z) (slug : buffer) (expected_revision : Z)
      (change_summary : buffer) (callback : Z)
  | learned_skill_rollback (cwd : buffer) (scope : Z) (slug : buffer)
      (expected_revision target_revision : Z) (change_summary : buffer) (callback : Z)
  | learned_skill_history (cwd : buffer) (scope : Z) (slug : buffer) (limit callback : Z).

(** ** What is asked of the store *)

Inductive skill_request :=
  | ask_list (selected : option ResourceScope) (limit : Z)
  | ask_read (scope : ResourceScope) (slug : text) (revision : option Z)
  | ask_create (scope : ResourceScope) (slug : text) (draft : ResourceSkillDraft) (summary : text)
  | ask_update (scope : ResourceScope) (slug : text) (expected : Z) (draft : ResourceSkillDraft)
      (summary : text)
  | ask_status (s : LearnedSkillStatus) (scope : ResourceScope) (slug : text) (expected : Z)
      (summary : text)
  | ask_rollback (scope : ResourceScope) (slug : text) (expected target : Z) (summary : text)
  | ask_history (scope : ResourceScope) (slug : text) (limit : Z).

(** The working directory, and the request. *)
Abbreviation asked_request := (text * skill_request)%type.

Section Entries.
Context (m : memory).

(** ** Reading the arguments

    Why a text is refused is not used. *)

Definition maxPathBytes : Z := 1024 * 1024.

Definition decodeOptional (maximum : Z) (f : buffer) : outcome (option text) :=
  let '(pointer, length) := f in
  if (maximum <? length) || (2 ^ 63 - 1 <? length) then value None
  else if (pointer =? 0) && (0 <? length) then value None
  else if length =? 0 then value (Some [])
  else
    bytes ← packCStringLen m pointer length;
    value (match utf8_decode bytes with
           | None => None
           | Some s => if existsb (Z.eqb 0) s then None else Some s
           end).

Definition decodeRequired (maximum : Z) (f : buffer) : outcome (option text) :=
  if (fst f =? 0) || (snd f =? 0) then value None else decodeOptional maximum f.

Definition decodeCommon (cwd slug : buffer) : outcome (option (text * text)) :=
  cwd ← decodeRequired maxPathBytes cwd;
  slug ← decodeRequired 320 slug;
  value (cwd ← cwd; slug ← slug; Some (cwd, slug)).

Definition decodeMutation (cwd slug summary : buffer) : outcome (option (text * text * text)) :=
  cwd ← decodeRequired maxPathBytes cwd;
  slug ← decodeRequired 320 slug;
  summary ← decodeRequired 4000 summary;
  value (cwd ← cwd; slug ← slug; summary ← summary; Some (cwd, slug, summary)).

(** With the draft that the callers make of the texts. *)
Definition decodeDraft (cwd slug : buffer) (d : draft_arguments) (activation : LearnedSkillActivation)
    (summary : buffer) : outcome (option (text * text * ResourceSkillDraft * text)) :=
  cwd ← decodeRequired maxPathBytes cwd;
  slug ← decodeRequired 320 slug;
  title ← decodeRequired 800 (arg_title d);
  description ← decodeRequired 4000 (arg_description d);
  applies ← decodeOptional 8000 (arg_applies_when d);
  instructions ← decodeRequired 120000 (arg_instructions d);
  summary ← decodeRequired 4000 summary;
  value (cwd ← cwd; slug ← slug; title ← title; description ← description; applies ← applies;
         instructions ← instructions; summary ← summary;
         Some (cwd, slug,
               Build_ResourceSkillDraft title description applies instructions activation
                 (arg_priority d),
               summary)).

Definition parseScope (z : Z) : option ResourceScope :=
  if z =? 0 then Some ResourceUserScope
  else if z =? 1 then Some ResourceRepositoryScope
  else if z =? 2 then Some ResourceCheckoutScope
  else None.

Definition parseOptionalScope (z : Z) : option (option ResourceScope) :=
  if z =? -1 then Some None else Some <$> parseScope z.

Definition parseActivation (z : Z) : option LearnedSkillActivation :=
  if z =? 0 then Some SkillAlways
  else if z =? 1 then Some SkillRelevant
  else if z =? 2 then Some SkillManual
  else None.

Definition positiveWord64Revision (z : Z) : option Z :=
  if (z =? 0) || (2 ^ 63 - 1 <? z) then None else Some z.

Definition word64Revision (z : Z) : option (option Z) :=
  if z =? 0 then Some None else Some <$> positiveWord64Revision z.

Definition right {E A} (r : E + A) : bool := match r with inr _ => true | inl _ => false end.

Definition validatePayload (slug : text) (draft : ResourceSkillDraft) (summary : text) : bool :=
  right (validateResourceSlug slug) && right (validateResourceSkillDraft draft)
  && right (validateResourceSummary summary).

Definition validateMutationPayload (slug summary : text) : bool :=
  right (validateResourceSlug slug) && right (validateResourceSummary summary).

(** ** The entries

    The status that refuses the call, or the request for which a thread is started. *)

Definition ha_learned_skill_list (cwd : buffer) (rawScope rawLimit callback : Z)
    : outcome (Z + asked_request) :=
  if callback =? 0 then value (inl 1)
  else if (rawLimit <? 1) || (1000 <? rawLimit) then value (inl 2)
  else match parseOptionalScope rawScope with
  | None => value (inl 2)
  | Some selected =>
      cwd ← decodeRequired maxPathBytes cwd;
      value (match cwd with
             | None => inl 2
             | Some cwd => inr (cwd, ask_list selected rawLimit)
             end)
  end.

Definition ha_learned_skill_read (cwd : buffer) (rawScope : Z) (slug : buffer)
    (rawRevision callback : Z) : outcome (Z + asked_request) :=
  if callback =? 0 then value (inl 1)
  else match parseScope rawScope with
  | None => value (inl 2)
  | Some scope =>
      decoded ← decodeCommon cwd slug;
      value (match decoded with
             | None => inl 2
             | Some (cwd, slug) =>
                 match validateResourceSlug slug, word64Revision rawRevision with
                 | inl _, _ => inl 2
                 | _, None => inl 2
                 | inr _, Some revision => inr (cwd, ask_read scope slug revision)
                 end
             end)
  end.

Definition ha_learned_skill_create (cwd : buffer) (rawScope : Z) (slug : buffer)
    (d : draft_arguments) (summary : buffer) (callback : Z) : outcome (Z + asked_request) :=
  if callback =? 0 then value (inl 1)
  else match parseScope rawScope, parseActivation (arg_activation d) with
  | Some scope, Some activation =>
      decoded ← decodeDraft cwd slug d activation summary;
      value (match decoded with
             | None => inl 2
             | Some (cwd, slug, draft, summary) =>
                 if validatePayload slug draft summary
                 then inr (cwd, ask_create scope slug draft summary)
                 else inl 2
             end)
  | _, _ => value (inl 2)
  end.

Definition ha_learned_skill_update (cwd : buffer) (rawScope : Z) (slug : buffer)
    (rawExpected : Z) (d : draft_arguments) (summary : buffer) (callback : Z)
    : outcome (Z + asked_request) :=
  if callback =? 0 then value (inl 1)
  else match parseScope rawScope, parseActivation (arg_activation d),
             positiveWord64Revision rawExpected with
  | Some scope, Some activation, Some expected =>
      decoded ← decodeDraft cwd slug d activation summary;
      value (match decoded with
             | None => inl 2
             | Some (cwd, slug, draft, summary) =>
                 if validatePayload slug draft summary
                 then inr (cwd, ask_update scope slug expected draft summary)
                 else inl 2
             end)
  | _, _, _ => value (inl 2)
  end.

Definition statusMutation (s : LearnedSkillStatus) (cwd : buffer) (rawScope : Z) (slug : buffer)
    (rawExpected : Z) (summary : buffer) (callback : Z) : outcome (Z + asked_request) :=
  if callback =? 0 then value (inl 1)
  else match parseScope rawScope, positiveWord64Revision rawExpected with
  | Some scope, Some expected =>
      decoded ← decodeMutation cwd slug summary;
      value (match decoded with
             | None => inl 2
             | Some (cwd, slug, summary) =>
                 if validateMutationPayload slug summary
                 then inr (cwd, ask_status s scope slug expected summary)
                 else inl 2
             end)
  | _, _ => value (inl 2)
  end.

Definition ha_learned_skill_archive := statusMutation SkillArchived.
Definition ha_learned_skill_restore := statusMutation SkillActive.

Definition ha_learned_skill_rollback (cwd : buffer) (rawScope : Z) (slug : buffer)
    (rawExpected rawTarget : Z) (summary : buffer) (callback : Z) : outcome (Z + asked_request) :=
  if callback =? 0 then value (inl 1)
  else match parseScope rawScope, positiveWord64Revision rawExpected,
             positiveWord64Revision rawTarget with
  | Some scope, Some expected, Some target =>
      decoded ← decodeMutation cwd slug summary;
      value (match decoded with
             | None => inl 2
             | Some (cwd, slug, summary) =>
                 if expected <=? target then inl 2
                 else if validateMutationPayload slug summary
                 then inr (cwd, ask_rollback scope slug expected target summary)
                 else inl 2
             end)
  | _, _, _ => value (inl 2)
  end.

Definition ha_learned_skill_history (cwd : buffer) (rawScope : Z) (slug : buffer)
    (rawLimit callback : Z) : outcome (Z + asked_request) :=
  if callback =? 0 then value (inl 1)
  else if (rawLimit <? 1) || (1000 <? rawLimit) then value (inl 2)
  else match parseScope rawScope with
  | None => value (inl 2)
  | Some scope =>
      decoded ← decodeCommon cwd slug;
      value (match decoded with
             | None => inl 2
             | Some (cwd, slug) =>
                 if right (validateResourceSlug slug)
                 then inr (cwd, ask_history scope slug rawLimit)
                 else inl 2
             end)
  end.

Definition run_skill_call (c : skill_call) : outcome (Z + asked_request) :=
  match c with
  | learned_skill_list cwd scope limit cb => ha_learned_skill_list cwd scope limit cb
  | learned_skill_read cwd scope slug rev cb => ha_learned_skill_read cwd scope slug rev cb
  | learned_skill_create cwd scope slug d sum cb => ha_learned_skill_create cwd scope slug d sum cb
  | learned_skill_update cwd scope slug e d sum cb =>
      ha_learned_skill_update cwd scope slug e d sum cb
  | learned_skill_archive cwd scope slug e sum cb => ha_learned_skill_archive cwd scope slug e sum cb
  | learned_skill_restore cwd scope slug e sum cb => ha_learned_skill_restore cwd scope slug e sum cb
  | learned_skill_rollback cwd scope slug e t sum cb =>
      ha_learned_skill_rollback cwd scope slug e t sum cb
  | learned_skill_history cwd scope slug limit cb => ha_learned_skill_history cwd scope slug limit cb
  end.

(** ** The contract *)

(** A text argument: at most [bytes] bytes of UTF-8 without NUL, or nothing of length 0. *)
Definition given (f : buffer) : option text :=
  if null_with_bytes (fst f) (snd f) then None
  else s ← utf8_decode (bytes_at m (fst f) (snd f)); if no_nul s then Some s else None.

(** One that must be there, with what it must be. *)
Definition required (ok : text -> bool) (f : buffer) : option text :=
  if (fst f =? 0) || (snd f =? 0) then None
  else s ← given f; if ok s then Some s else None.

Definition optional (ok : text -> bool) (f : buffer) : option text :=
  s ← given f; if ok s then Some s else None.

(** The path is limited in bytes. *)
Definition directory (f : buffer) : option text :=
  if maxPathBytes <? snd f then None else required (fun _ => true) f.

Definition slug_argument : buffer -> option text := required slug_ok.

Definition summary_argument : buffer -> option text := required (required_ok 1000).

Definition scope_argument (z : Z) : option ResourceScope :=
  if z =? HA_LEARNED_SKILL_SCOPE_USER then Some ResourceUserScope
  else if z =? HA_LEARNED_SKILL_SCOPE_REPOSITORY then Some ResourceRepositoryScope
  else if z =? HA_LEARNED_SKILL_SCOPE_CHECKOUT then Some ResourceCheckoutScope
  else None.

Definition activation_argument (z : Z) : option LearnedSkillActivation :=
  if z =? HA_LEARNED_SKILL_ACTIVATION_ALWAYS then Some SkillAlways
  else if z =? HA_LEARNED_SKILL_ACTIVATION_RELEVANT then Some SkillRelevant
  else if z =? HA_LEARNED_SKILL_ACTIVATION_MANUAL then Some SkillManual
  else None.

(** A revision is a positive [int64_t]. *)
Definition revision_argument (z : Z) : option Z :=
  if (1 <=? z) && (z <? 2 ^ 63) then Some z else None.

Definition limit_argument (z : Z) : option Z :=
  if (1 <=? z) && (z <=? 1000) then Some z else None.

Definition draft_argument (d : draft_arguments) : option ResourceSkillDraft :=
  title ← required (required_ok 200) (arg_title d);
  description ← required (required_ok 1000) (arg_description d);
  applies ← optional (optional_ok 2000) (arg_applies_when d);
  instructions ← required (required_ok 30000) (arg_instructions d);
  activation ← activation_argument (arg_activation d);
  if (-100 <=? arg_priority d) && (arg_priority d <=? 100) then
    Some (Build_ResourceSkillDraft title description applies instructions activation (arg_priority d))
  else None.

Definition skill_callback_of (c : skill_call) : Z :=
  match c with
  | learned_skill_list _ _ _ cb | learned_skill_read _ _ _ _ cb
  | learned_skill_create _ _ _ _ _ cb | learned_skill_update _ _ _ _ _ _ cb
  | learned_skill_archive _ _ _ _ _ cb | learned_skill_restore _ _ _ _ _ cb
  | learned_skill_rollback _ _ _ _ _ _ cb | learned_skill_history _ _ _ _ cb => cb
  end.

(** The request that the arguments describe. *)
Definition described (c : skill_call) : option asked_request :=
  match c with
  | learned_skill_list cwd scope limit _ =>
      cwd ← directory cwd;
      selected ← (if scope =? HA_LEARNED_SKILL_SCOPE_ALL then Some None
                  else Some <$> scope_argument scope);
      limit ← limit_argument limit;
      Some (cwd, ask_list selected limit)
  | learned_skill_read cwd scope slug revision _ =>
      cwd ← directory cwd; scope ← scope_argument scope; slug ← slug_argument slug;
      revision ← (if revision =? 0 then Some None else Some <$> revision_argument revision);
      Some (cwd, ask_read scope slug revision)
  | learned_skill_create cwd scope slug draft summary _ =>
      cwd ← directory cwd; scope ← scope_argument scope; slug ← slug_argument slug;
      draft ← draft_argument draft; summary ← summary_argument summary;
      Some (cwd, ask_create scope slug draft summary)
  | learned_skill_update cwd scope slug expected draft summary _ =>
      cwd ← directory cwd; scope ← scope_argument scope; slug ← slug_argument slug;
      expected ← revision_argument expected; draft ← draft_argument draft;
      summary ← summary_argument summary;
      Some (cwd, ask_update scope slug expected draft summary)
  | learned_skill_archive cwd scope slug expected summary _ =>
      cwd ← directory cwd; scope ← scope_argument scope; slug ← slug_argument slug;
      expected ← revision_argument expected; summary ← summary_argument summary;
      Some (cwd, ask_status SkillArchived scope slug expected summary)
  | learned_skill_restore cwd scope slug expected summary _ =>
      cwd ← directory cwd; scope ← scope_argument scope; slug ← slug_argument slug;
      expected ← revision_argument expected; summary ← summary_argument summary;
      Some (cwd, ask_status SkillActive scope slug expected summary)
  | learned_skill_rollback cwd scope slug expected target summary _ =>
      cwd ← directory cwd; scope ← scope_argument scope; slug ← slug_argument slug;
      expected ← revision_argument expected; target ← revision_argument target;
      summary ← summary_argument summary;
      if target <? expected then Some (cwd, ask_rollback scope slug expected target summary)
      else None
  | learned_skill_history cwd scope slug limit _ =>
      cwd ← directory cwd; scope ← scope_argument scope; slug ← slug_argument slug;
      limit ← limit_argument limit;
      Some (cwd, ask_history scope slug limit)
  end.

(** "Functions return 0 when accepted, 1 for a missing callback, and 2 for an invalid pointer,
    enum, UTF-8 buffer, bound, count, or revision." *)
Definition skill_request_of (c : skill_call) : Z + asked_request :=
  if skill_callback_of c =? 0 then inl 1
  else match described c with None => inl 2 | Some r => inr r end.

(** What the host lends. *)
Definition skill_buffers (c : skill_call) : list buffer :=
  match c with
  | learned_skill_list cwd _ _ _ => [cwd]
  | learned_skill_read cwd _ slug _ _ | learned_skill_history cwd _ slug _ _ => [cwd; slug]
  | learned_skill_create cwd _ slug d summary _ | learned_skill_update cwd _ slug _ d summary _ =>
      [cwd; slug; arg_title d; arg_description d; arg_applies_when d; arg_instructions d; summary]
  | learned_skill_archive cwd _ slug _ summary _ | learned_skill_restore cwd _ slug _ summary _
  | learned_skill_rollback cwd _ slug _ _ summary _ => [cwd; slug; summary]
  end.

Definition is_u64 (z : Z) : Prop := 0 <= z < 2 ^ 64.

(** The words of a call are of their types. *)
Definition skill_words (c : skill_call) : Prop :=
  match c with
  | learned_skill_list _ _ limit _ | learned_skill_history _ _ _ limit _ => is_u64 limit
  | learned_skill_read _ _ _ revision _ => is_u64 revision
  | learned_skill_create _ _ _ _ _ _ => True
  | learned_skill_update _ _ _ e _ _ _ | learned_skill_archive _ _ _ e _ _
  | learned_skill_restore _ _ _ e _ _ => is_u64 e
  | learned_skill_rollback _ _ _ e t _ _ => is_u64 e /\ is_u64 t
  end.

Definition skill_lent (c : skill_call) : Prop :=
  Forall (fun f : buffer => lent m (fst f) (snd f)) (skill_buffers c) /\ skill_words c.

(** ** Texts *)

Lemma utf8_length_bound s : zlen (utf8_encode s) <= 4 * zlen s.
Proof.
  induction s as [|c s IH]; [done|]. rewrite utf8_encode_cons, length_app. cbn [length].
  unfold bytes_of. rewrite length_map. unfold utf8_char.
  repeat case_match; cbn [length]; lia.
Qed.

(** A text that must be there, before its characters are checked. *)
Definition raw (maximum : Z) (f : buffer) : option text :=
  if (fst f =? 0) || (snd f =? 0) then None
  else if maximum <? snd f then None else given f.

Lemma given_length f s : given f = Some s -> lent m (fst f) (snd f) -> snd f <= 4 * zlen s.
Proof.
  unfold given. destruct (null_with_bytes _ _) eqn:E; [done|]. intros H Hl.
  destruct (utf8_decode _) as [s'|] eqn:Ed; [|done]. cbn in H. destruct (no_nul s'); [|done].
  injection H as ->. apply utf8_decode_sound in Ed as [Ed _].
  pose proof (zlen_bytes_at m _ _ (lent_readable _ _ _ Hl E)) as Hz. rewrite <- Ed in Hz.
  pose proof (utf8_length_bound s). lia.
Qed.

Lemma decodeOptional_value maximum f :
  maximum < 2 ^ 63 - 1 -> lent m (fst f) (snd f) ->
  decodeOptional maximum f = value (if maximum <? snd f then None else given f).
Proof.
  intros Hmax Hl. destruct f as [p len]. cbn [fst snd] in *. unfold decodeOptional, given.
  cbn [fst snd]. destruct (Z.ltb_spec maximum len); [done|]. cbn [orb].
  destruct (Z.ltb_spec (2 ^ 63 - 1) len); [lia|].
  assert (Hn : (p =? 0) && (0 <? len) = null_with_bytes p len).
  { unfold null_with_bytes. destruct Hl as [[? ?] _]. destruct (Z.ltb_spec 0 len), (Z.eqb_spec len 0); done || lia. }
  rewrite Hn. destruct (null_with_bytes p len) eqn:E; [done|].
  destruct (Z.eqb_spec len 0) as [->|].
  { unfold bytes_at, ztake. cbn. done. }
  rewrite pack_lent by done. cbn [mbind outcome_bind]. f_equal.
  destruct (utf8_decode _) as [s|]; [|done]. cbn. rewrite no_nul_exists. by destruct (no_nul s).
Qed.

Lemma decodeRequired_value maximum f :
  maximum < 2 ^ 63 - 1 -> lent m (fst f) (snd f) ->
  decodeRequired maximum f = value (raw maximum f).
Proof.
  intros Hmax Hl. unfold decodeRequired, raw. destruct (_ || _); [done|]. by apply decodeOptional_value.
Qed.

Lemma directory_raw f : directory f = raw maxPathBytes f.
Proof.
  unfold directory, required, raw. destruct (_ || _), (maxPathBytes <? snd f); try done.
  by destruct (given f).
Qed.

(** The limit in bytes refuses nothing of the limit in characters. *)
Lemma limited_given n (ok : text -> bool) f :
  lent m (fst f) (snd f) -> (forall s, ok s = true -> zlen s <= n) ->
  (s ← (if 4 * n <? snd f then None else given f); if ok s then Some s else None)
  = (s ← given f; if ok s then Some s else None).
Proof.
  intros Hl Hok. destruct (Z.ltb_spec (4 * n) (snd f)) as [Hlt|]; [|done].
  destruct (given f) as [s|] eqn:E; [|done]. cbn. destruct (ok s) eqn:Eo; [|done].
  pose proof (given_length f s E Hl). specialize (Hok s Eo). lia.
Qed.

Lemma required_raw n maximum ok f :
  maximum = 4 * n -> lent m (fst f) (snd f) -> (forall s, ok s = true -> zlen s <= n) ->
  required ok f = (s ← raw maximum f; if ok s then Some s else None).
Proof.
  intros -> Hl Hok. unfold required, raw. destruct (_ || _); [done|].
  symmetry. by apply limited_given.
Qed.

Lemma required_ok_length n s : required_ok n s = true -> zlen s <= n.
Proof. unfold required_ok, at_most. rewrite !andb_true_iff, Z.leb_le. tauto. Qed.

Lemma optional_ok_length n s : optional_ok n s = true -> zlen s <= n.
Proof. unfold optional_ok, at_most. rewrite !andb_true_iff, Z.leb_le. tauto. Qed.

Lemma slug_ok_length s : slug_ok s = true -> zlen s <= 80.
Proof. unfold slug_ok, at_most. rewrite !andb_true_iff, Z.leb_le. tauto. Qed.

Lemma slug_raw f : lent m (fst f) (snd f) ->
  slug_argument f = (s ← raw 320 f; if slug_ok s then Some s else None).
Proof. intros. apply (required_raw 80); [done..|]. apply slug_ok_length. Qed.

Lemma summary_raw f : lent m (fst f) (snd f) ->
  summary_argument f = (s ← raw 4000 f; if required_ok 1000 s then Some s else None).
Proof. intros. apply (required_raw 1000); [done..|]. apply required_ok_length. Qed.

(** ** Validation *)

Lemma slug_right s : right (validateResourceSlug s) = slug_ok s.
Proof. pose proof (slug_valid s) as H. destruct (validateResourceSlug s); cbn; [done|]. by destruct H. Qed.

Lemma summary_right s : right (validateResourceSummary s) = required_ok 1000 s.
Proof.
  pose proof (required_valid (txt "change summary") 1000 s) as H. unfold validateResourceSummary.
  destruct (validateRequired _ _ _); cbn [right]; [done|]. by destruct H.
Qed.

Lemma payload_ok slug draft summary :
  validatePayload slug draft summary = slug_ok slug && draft_ok draft && required_ok 1000 summary.
Proof.
  unfold validatePayload. rewrite slug_right, summary_right. do 2 f_equal.
  pose proof (draft_valid draft) as H. destruct (validateResourceSkillDraft draft); cbn; [done|].
  by destruct H.
Qed.

Lemma revision_word z : is_u64 z -> positiveWord64Revision z = revision_argument z.
Proof.
  unfold is_u64, positiveWord64Revision, revision_argument. intros Hz.
  destruct (Z.eqb_spec z 0), (Z.ltb_spec (2 ^ 63 - 1) z), (Z.leb_spec 1 z), (Z.ltb_spec z (2 ^ 63));
    cbn [orb andb]; done || lia.
Qed.

Lemma revision_optional z : is_u64 z ->
  word64Revision z = if z =? 0 then Some None else Some <$> revision_argument z.
Proof. intros Hz. unfold word64Revision. by rewrite revision_word. Qed.

Lemma limit_word z :
  (if (z <? 1) || (1000 <? z) then None else Some z) = limit_argument z.
Proof.
  unfold limit_argument.
  destruct (Z.ltb_spec z 1), (Z.ltb_spec 1000 z), (Z.leb_spec 1 z), (Z.leb_spec z 1000);
    cbn [orb andb]; done || lia.
Qed.

(** ** The entries, evaluated *)

Ltac decode_values :=
  repeat (rewrite decodeRequired_value by (done || auto); cbn [mbind outcome_bind]);
  repeat (rewrite decodeOptional_value by (done || auto); cbn [mbind outcome_bind]);
  repeat (rewrite decodeRequired_value by (done || auto); cbn [mbind outcome_bind]).

Lemma decodeCommon_value cwd slug :
  lent m (fst cwd) (snd cwd) -> lent m (fst slug) (snd slug) ->
  decodeCommon cwd slug =
  value (cwd ← directory cwd; slug ← raw 320 slug; Some (cwd, slug)).
Proof. intros H1 H2. unfold decodeCommon. decode_values. by rewrite directory_raw. Qed.

Lemma decodeMutation_value cwd slug summary :
  lent m (fst cwd) (snd cwd) -> lent m (fst slug) (snd slug) -> lent m (fst summary) (snd summary) ->
  decodeMutation cwd slug summary =
  value (cwd ← directory cwd; slug ← raw 320 slug; summary ← raw 4000 summary;
         Some (cwd, slug, summary)).
Proof. intros H1 H2 H3. unfold decodeMutation. decode_values. by rewrite directory_raw. Qed.

(** The draft before its characters are checked. *)
Definition raw_draft (d : draft_arguments) (activation : LearnedSkillActivation)
    : option ResourceSkillDraft :=
  title ← raw 800 (arg_title d);
  description ← raw 4000 (arg_description d);
  applies ← (if 8000 <? snd (arg_applies_when d) then None else given (arg_applies_when d));
  instructions ← raw 120000 (arg_instructions d);
  Some (Build_ResourceSkillDraft title description applies instructions activation (arg_priority d)).

Lemma decodeDraft_value cwd slug d activation summary :
  Forall (fun f : buffer => lent m (fst f) (snd f))
    [cwd; slug; arg_title d; arg_description d; arg_applies_when d; arg_instructions d; summary] ->
  decodeDraft cwd slug d activation summary =
  value (cwd ← directory cwd; slug ← raw 320 slug; draft ← raw_draft d activation;
         summary ← raw 4000 summary; Some (cwd, slug, draft, summary)).
Proof.
  rewrite !Forall_cons. intros (H1 & H2 & H3 & H4 & H5 & H6 & H7 & _). unfold decodeDraft.
  decode_values. f_equal. rewrite directory_raw. unfold raw_draft.
  destruct (raw maxPathBytes cwd); [|done]. cbn [mbind option_bind].
  destruct (raw 320 slug); [|done]. cbn [mbind option_bind].
  destruct (raw 800 _); [|done]. cbn [mbind option_bind].
  destruct (raw 4000 (arg_description d)); [|done]. cbn [mbind option_bind].
  destruct (if 8000 <? _ then _ else _); [|done]. cbn [mbind option_bind].
  by destruct (raw 120000 _).
Qed.

Lemma draft_raw d :
  Forall (fun f : buffer => lent m (fst f) (snd f))
    [arg_title d; arg_description d; arg_applies_when d; arg_instructions d] ->
  draft_argument d =
  (activation ← activation_argument (arg_activation d);
   draft ← raw_draft d activation;
   if draft_ok draft then Some draft else None).
Proof.
  rewrite !Forall_cons. intros (H1 & H2 & H3 & H4 & _). unfold draft_argument, raw_draft.
  rewrite (required_raw 200 800 _ (arg_title d)) by (done || apply required_ok_length).
  rewrite (required_raw 1000 4000 _ (arg_description d)) by (done || apply required_ok_length).
  rewrite (required_raw 30000 120000 _ (arg_instructions d)) by (done || apply required_ok_length).
  unfold optional. rewrite <- (limited_given 2000) by (done || apply optional_ok_length).
  change (4 * 2000) with 8000.
  destruct (activation_argument _) as [act|]; cbn [mbind option_bind].
  - destruct (raw 800 _) as [s1|]; [|done]. cbn [mbind option_bind].
    destruct (raw 4000 _) as [s2|]; cbn [mbind option_bind]; [|by destruct (required_ok 200 s1)].
    destruct (if 8000 <? _ then _ else _) as [s3|]; cbn [mbind option_bind];
      [|by destruct (required_ok 200 s1), (required_ok 1000 s2)].
    destruct (raw 120000 _) as [s4|]; cbn [mbind option_bind];
      [|by destruct (required_ok 200 s1), (required_ok 1000 s2), (optional_ok 2000 s3)].
    unfold draft_ok. cbn [resourceDraftTitle resourceDraftDescription resourceDraftAppliesWhen
      resourceDraftInstructions resourceDraftPriority].
    destruct (required_ok 200 s1); [|done]. destruct (required_ok 1000 s2); [|done].
    destruct (optional_ok 2000 s3); [|done]. destruct (required_ok 30000 s4); [|done].
    cbn [andb mbind option_bind]. done.
  - repeat (match goal with |- (?o ≫= _) = None => destruct o; [cbn [mbind option_bind]|done] end).
    done.
Qed.

(** One optional argument at a time, on both sides of an equation. *)
Ltac bind_cases :=
  repeat (cbn [mbind option_bind fmap option_fmap option_map];
          match goal with
          | |- context [mbind _ ?o] =>
              match o with Some _ => fail 1 | None => fail 1 | _ => destruct o end
          end).

Lemma list_value cwd scope limit cb :
  skill_lent (learned_skill_list cwd scope limit cb) ->
  run_skill_call (learned_skill_list cwd scope limit cb) =
  value (skill_request_of (learned_skill_list cwd scope limit cb)).
Proof.
  intros [Hl _]. cbn [skill_buffers] in Hl. rewrite Forall_singleton in Hl.
  cbn [run_skill_call]. unfold ha_learned_skill_list, skill_request_of.
  cbn [skill_callback_of described]. destruct (cb =? 0); [done|].
  rewrite <- limit_word.
  change (if scope =? HA_LEARNED_SKILL_SCOPE_ALL then Some None else Some <$> scope_argument scope)
    with (parseOptionalScope scope).
  destruct (_ || _).
  { by destruct (directory cwd), (parseOptionalScope scope). }
  destruct (parseOptionalScope scope) as [sel|]; [|by destruct (directory cwd)].
  rewrite decodeRequired_value by done. rewrite <- directory_raw. cbn [mbind outcome_bind].
  by destruct (directory cwd).
Qed.

Lemma read_value cwd scope slug revision cb :
  skill_lent (learned_skill_read cwd scope slug revision cb) ->
  run_skill_call (learned_skill_read cwd scope slug revision cb) =
  value (skill_request_of (learned_skill_read cwd scope slug revision cb)).
Proof.
  intros [Hl Hw]. cbn [skill_buffers skill_words] in Hl, Hw. rewrite !Forall_cons in Hl.
  destruct Hl as (H1 & H2 & _).
  cbn [run_skill_call]. unfold ha_learned_skill_read, skill_request_of.
  cbn [skill_callback_of described]. destruct (cb =? 0); [done|].
  rewrite <- revision_optional by done. change (scope_argument scope) with (parseScope scope).
  rewrite decodeCommon_value by done. cbn [mbind outcome_bind]. rewrite slug_raw by done.
  destruct (parseScope scope); [|by destruct (directory cwd)].
  destruct (directory cwd); [|done]. cbn [mbind option_bind].
  destruct (raw 320 slug) as [s|]; [|done]. cbn [mbind option_bind].
  rewrite <- slug_right. destruct (validateResourceSlug s); cbn [right mbind option_bind]; [done|].
  by destruct (word64Revision revision).
Qed.

Lemma history_value cwd scope slug limit cb :
  skill_lent (learned_skill_history cwd scope slug limit cb) ->
  run_skill_call (learned_skill_history cwd scope slug limit cb) =
  value (skill_request_of (learned_skill_history cwd scope slug limit cb)).
Proof.
  intros [Hl _]. cbn [skill_buffers] in Hl. rewrite !Forall_cons in Hl. destruct Hl as (H1 & H2 & _).
  cbn [run_skill_call]. unfold ha_learned_skill_history, skill_request_of.
  cbn [skill_callback_of described]. destruct (cb =? 0); [done|].
  rewrite <- limit_word. change (scope_argument scope) with (parseScope scope).
  rewrite decodeCommon_value by done. cbn [mbind outcome_bind]. rewrite slug_raw by done.
  destruct (_ || _).
  { by destruct (directory cwd), (parseScope scope), (raw 320 slug) as [s|];
      cbn [mbind option_bind]; try destruct (slug_ok s). }
  destruct (parseScope scope); [|by destruct (directory cwd)].
  destruct (directory cwd); [|done]. cbn [mbind option_bind].
  destruct (raw 320 slug) as [s|]; [|done]. cbn [mbind option_bind].
  rewrite slug_right. by destruct (slug_ok s).
Qed.

Lemma draft_lent cwd slug d summary :
  Forall (fun f : buffer => lent m (fst f) (snd f))
    [cwd; slug; arg_title d; arg_description d; arg_applies_when d; arg_instructions d; summary] ->
  lent m (fst slug) (snd slug) /\ lent m (fst summary) (snd summary)
  /\ Forall (fun f : buffer => lent m (fst f) (snd f))
       [arg_title d; arg_description d; arg_applies_when d; arg_instructions d].
Proof. rewrite !Forall_cons. intros (_ & ? & ? & ? & ? & ? & ? & _). by split_and!. Qed.

(** After the scope, the texts of a create and of an update. *)
Lemma payload_value cwd slug d summary activation (k : text -> text -> ResourceSkillDraft -> text -> asked_request) :
  Forall (fun f : buffer => lent m (fst f) (snd f))
    [cwd; slug; arg_title d; arg_description d; arg_applies_when d; arg_instructions d; summary] ->
  activation_argument (arg_activation d) = Some activation ->
  (decoded ← decodeDraft cwd slug d activation summary;
   value (match decoded with
          | None => inl 2
          | Some (cwd, slug, draft, summary) =>
              if validatePayload slug draft summary then inr (k cwd slug draft summary) else inl 2
          end))
  = value (match (cwd ← directory cwd; slug ← slug_argument slug; draft ← draft_argument d;
                  summary ← summary_argument summary; Some (k cwd slug draft summary)) with
           | None => inl 2
           | Some r => inr r
           end).
Proof.
  intros Hl Ha. destruct (draft_lent _ _ _ _ Hl) as (H2 & H7 & Hd).
  rewrite decodeDraft_value by done. cbn [mbind outcome_bind]. f_equal.
  rewrite (slug_raw slug), (summary_raw summary), draft_raw by done. rewrite Ha.
  destruct (directory cwd); [|done]. cbn [mbind option_bind].
  destruct (raw 320 slug) as [s|]; [|done]. cbn [mbind option_bind].
  destruct (raw_draft d activation) as [draft|]; cbn [mbind option_bind]; [|by destruct (slug_ok s)].
  destruct (raw 4000 summary) as [sum|]; cbn [mbind option_bind];
    [|by destruct (slug_ok s), (draft_ok draft)].
  rewrite payload_ok. by destruct (slug_ok s), (draft_ok draft), (required_ok 1000 sum).
Qed.

(** After the scope and the revisions, those of the other mutations. *)
Lemma mutation_value cwd slug summary (refuse : bool) (k : text -> text -> text -> asked_request) :
  Forall (fun f : buffer => lent m (fst f) (snd f)) [cwd; slug; summary] ->
  (decoded ← decodeMutation cwd slug summary;
   value (match decoded with
          | None => inl 2
          | Some (cwd, slug, summary) =>
              if refuse then inl 2
              else if validateMutationPayload slug summary then inr (k cwd slug summary) else inl 2
          end))
  = value (match (cwd ← directory cwd; slug ← slug_argument slug;
                  summary ← summary_argument summary;
                  if refuse then None else Some (k cwd slug summary)) with
           | None => inl 2
           | Some r => inr r
           end).
Proof.
  rewrite !Forall_cons. intros (H1 & H2 & H3 & _).
  rewrite decodeMutation_value by done. cbn [mbind outcome_bind]. f_equal.
  rewrite (slug_raw slug), (summary_raw summary) by done.
  destruct (directory cwd); [|done]. cbn [mbind option_bind].
  destruct (raw 320 slug) as [s|]; [|done]. cbn [mbind option_bind].
  destruct (raw 4000 summary) as [sum|]; cbn [mbind option_bind]; [|by destruct (slug_ok s)].
  unfold validateMutationPayload. rewrite slug_right, summary_right.
  by destruct refuse, (slug_ok s), (required_ok 1000 sum).
Qed.

(** Where an argument is invalid, the order of the others does not matter. *)
Lemma invalid_later {A B} (o : option A) (f : A -> option B) :
  (forall a, f a = None) -> (o ≫= f) = None.
Proof. intros H. destruct o; [apply H|done]. Qed.

Ltac refused := repeat (apply invalid_later; intros); try done.

Lemma no_activation d : Forall (fun f : buffer => lent m (fst f) (snd f))
    [arg_title d; arg_description d; arg_applies_when d; arg_instructions d] ->
  activation_argument (arg_activation d) = None -> draft_argument d = None.
Proof. intros Hl Ha. rewrite draft_raw by done. by rewrite Ha. Qed.

Lemma create_value cwd scope slug d summary cb :
  skill_lent (learned_skill_create cwd scope slug d summary cb) ->
  run_skill_call (learned_skill_create cwd scope slug d summary cb) =
  value (skill_request_of (learned_skill_create cwd scope slug d summary cb)).
Proof.
  intros [Hl _]. cbn [skill_buffers] in Hl.
  cbn [run_skill_call]. unfold ha_learned_skill_create, skill_request_of.
  cbn [skill_callback_of described]. destruct (cb =? 0); [done|].
  change (parseScope scope) with (scope_argument scope).
  change (parseActivation (arg_activation d)) with (activation_argument (arg_activation d)).
  destruct (scope_argument scope) as [sc|]; [|by rewrite invalid_later].
  destruct (activation_argument (arg_activation d)) as [act|] eqn:Ha.
  - exact (payload_value cwd slug d summary act
             (fun cwd slug draft summary => (cwd, ask_create sc slug draft summary)) Hl Ha).
  - destruct (draft_lent _ _ _ _ Hl) as (_ & _ & Hd). rewrite (no_activation d Hd Ha).
    rewrite invalid_later; [done|]. intros. cbn. by apply invalid_later.
Qed.

Lemma update_value cwd scope slug e d summary cb :
  skill_lent (learned_skill_update cwd scope slug e d summary cb) ->
  run_skill_call (learned_skill_update cwd scope slug e d summary cb) =
  value (skill_request_of (learned_skill_update cwd scope slug e d summary cb)).
Proof.
  intros [Hl Hw]. cbn [skill_buffers skill_words] in Hl, Hw.
  cbn [run_skill_call]. unfold ha_learned_skill_update, skill_request_of.
  cbn [skill_callback_of described]. destruct (cb =? 0); [done|].
  change (parseScope scope) with (scope_argument scope). rewrite revision_word by done.
  change (parseActivation (arg_activation d)) with (activation_argument (arg_activation d)).
  destruct (scope_argument scope) as [sc|]; [|by rewrite invalid_later].
  destruct (draft_lent _ _ _ _ Hl) as (_ & _ & Hd).
  destruct (activation_argument (arg_activation d)) as [act|] eqn:Ha.
  - destruct (revision_argument e) as [ex|].
    + exact (payload_value cwd slug d summary act
             (fun cwd slug draft summary => (cwd, ask_update sc slug ex draft summary)) Hl Ha).
    + rewrite invalid_later; [done|]. intros. cbn. by apply invalid_later.
  - rewrite (no_activation d Hd Ha).
    rewrite invalid_later; [done|]. intros. cbn. apply invalid_later. intros. cbn. by apply invalid_later.
Qed.

Lemma status_value s cwd scope slug e summary cb :
  Forall (fun f : buffer => lent m (fst f) (snd f)) [cwd; slug; summary] -> is_u64 e ->
  statusMutation s cwd scope slug e summary cb =
  value (if cb =? 0 then inl 1
         else match (cwd ← directory cwd; scope ← scope_argument scope; slug ← slug_argument slug;
                     expected ← revision_argument e; summary ← summary_argument summary;
                     Some (cwd, ask_status s scope slug expected summary)) with
              | None => inl 2
              | Some r => inr r
              end).
Proof.
  intros Hl Hw. unfold statusMutation. destruct (cb =? 0); [done|].
  change (parseScope scope) with (scope_argument scope). rewrite revision_word by done.
  destruct (scope_argument scope) as [sc|]; [|by rewrite invalid_later].
  destruct (revision_argument e) as [ex|].
  - exact (mutation_value cwd slug summary false
             (fun cwd slug summary => (cwd, ask_status s sc slug ex summary)) Hl).
  - rewrite invalid_later; [done|]. intros. cbn. by apply invalid_later.
Qed.

Lemma rollback_value cwd scope slug e t summary cb :
  skill_lent (learned_skill_rollback cwd scope slug e t summary cb) ->
  run_skill_call (learned_skill_rollback cwd scope slug e t summary cb) =
  value (skill_request_of (learned_skill_rollback cwd scope slug e t summary cb)).
Proof.
  intros [Hl [He Ht]]. cbn [skill_buffers] in Hl.
  cbn [run_skill_call]. unfold ha_learned_skill_rollback, skill_request_of.
  cbn [skill_callback_of described]. destruct (cb =? 0); [done|].
  change (parseScope scope) with (scope_argument scope). rewrite !revision_word by done.
  destruct (scope_argument scope) as [sc|]; [|by rewrite invalid_later].
  destruct (revision_argument e) as [ex|].
  2:{ rewrite invalid_later; [done|]. intros. cbn. by apply invalid_later. }
  destruct (revision_argument t) as [tg|].
  2:{ rewrite invalid_later; [done|]. intros. cbn. by apply invalid_later. }
  etransitivity; [exact (mutation_value cwd slug summary (ex <=? tg)
                           (fun cwd slug summary => (cwd, ask_rollback sc slug ex tg summary)) Hl)|].
  assert (Hb : (tg <? ex) = negb (ex <=? tg)).
  { destruct (Z.ltb_spec tg ex), (Z.leb_spec ex tg); done || lia. }
  f_equal. destruct (directory cwd); [|done]. cbn [mbind option_bind].
  destruct (slug_argument slug); [|done]. cbn [mbind option_bind].
  destruct (summary_argument summary); [|done]. cbn [mbind option_bind]. rewrite Hb.
  by destruct (ex <=? tg).
Qed.

(** ** What an accepted request is *)

Definition skill_request_ok (r : skill_request) : Prop :=
  match r with
  | ask_list _ limit => 1 <= limit <= 1000
  | ask_read _ slug revision =>
      slug_ok slug = true /\ match revision with Some n => 1 <= n < 2 ^ 63 | None => True end
  | ask_create _ slug draft summary =>
      slug_ok slug = true /\ draft_ok draft = true /\ required_ok 1000 summary = true
  | ask_update _ slug expected draft summary =>
      slug_ok slug = true /\ 1 <= expected < 2 ^ 63 /\ draft_ok draft = true
      /\ required_ok 1000 summary = true
  | ask_status _ _ slug expected summary =>
      slug_ok slug = true /\ 1 <= expected < 2 ^ 63 /\ required_ok 1000 summary = true
  | ask_rollback _ slug expected target summary =>
      slug_ok slug = true /\ 1 <= target < expected /\ expected < 2 ^ 63
      /\ required_ok 1000 summary = true
  | ask_history _ slug limit => slug_ok slug = true /\ 1 <= limit <= 1000
  end.

Lemma required_is ok f s : required ok f = Some s -> ok s = true.
Proof.
  unfold required. destruct (_ || _); [done|]. destruct (given f) as [s'|]; [|done]. cbn.
  destruct (ok s') eqn:E; [|done]. by intros [= <-].
Qed.

Lemma revision_is z n : revision_argument z = Some n -> 1 <= n < 2 ^ 63.
Proof.
  unfold revision_argument. destruct (Z.leb_spec 1 z), (Z.ltb_spec z (2 ^ 63)); cbn [andb]; try done.
  intros [= <-]. lia.
Qed.

Lemma limit_is z n : limit_argument z = Some n -> 1 <= n <= 1000.
Proof.
  unfold limit_argument. destruct (Z.leb_spec 1 z), (Z.leb_spec z 1000); cbn [andb]; try done.
  intros [= <-]. lia.
Qed.

Lemma draft_is d draft :
  Forall (fun f : buffer => lent m (fst f) (snd f))
    [arg_title d; arg_description d; arg_applies_when d; arg_instructions d] ->
  draft_argument d = Some draft -> draft_ok draft = true.
Proof.
  intros Hl. rewrite draft_raw by done. destruct (activation_argument _); [|done].
  cbn [mbind option_bind]. destruct (raw_draft _ _) as [d'|]; [|done]. cbn [mbind option_bind].
  destruct (draft_ok d') eqn:E; [|done]. by intros [= <-].
Qed.

(** The steps of [described] that succeed. *)
Ltac described_steps H :=
  repeat (match type of H with
          | mbind _ ?o = Some _ =>
              let x := fresh "x" in let E := fresh "E" in
              destruct o as [x|] eqn:E; [cbn [mbind option_bind] in H|done]
          end).

Lemma described_ok c cwd r :
  skill_lent c -> described c = Some (cwd, r) -> skill_request_ok r.
Proof.
  intros [Hl _] H. destruct c; cbn [described] in H; described_steps H.
  all: try (destruct (_ <? _) eqn:Elt in H; [|done]); injection H as <- <-; cbn [skill_request_ok].
  all: repeat match goal with
    | E : slug_argument _ = Some _ |- _ => apply required_is in E
    | E : summary_argument _ = Some _ |- _ => apply required_is in E
    | E : revision_argument _ = Some _ |- _ => apply revision_is in E
    | E : limit_argument _ = Some _ |- _ => apply limit_is in E
    | E : draft_argument _ = Some _ |- _ =>
        apply draft_is in E; [|by cbn [skill_buffers] in Hl; apply draft_lent in Hl as (_ & _ & ?)]
    end.
  all: rewrite ?Z.ltb_lt in *; split_and!; try done; try lia.
  match goal with E : (if _ then Some None else _) = Some _ |- _ => revert E end.
  destruct (_ =? 0); [by intros [= <-]|]. destruct (revision_argument _) eqn:Er; [|done].
  cbn. intros [= <-]. by eapply revision_is.
Qed.

End Entries.

(** C12: under the host's bargain, every learned-skill entry is refused with 1 for a missing
    callback and with 2 for an argument that the header rules out, and otherwise accepted as
    the request that its arguments describe; an accepted request keeps the limits of the
    header. *)
Theorem skill_entries_contract m c :
  skill_lent m c ->
  run_skill_call m c = value (skill_request_of m c)
  /\ match skill_request_of m c with
     | inl status => status = 1 \/ status = 2
     | inr (_, r) => skill_request_ok r
     end.
Proof.
  intros H. split.
  - destruct c; [by apply list_value|by apply read_value|by apply create_value|by apply update_value
      | | |by apply rollback_value|by apply history_value];
      destruct H as [Hl Hw]; by apply status_value.
  - unfold skill_request_of. destruct (_ =? 0); [by left|].
    destruct (described m c) as [[cwd r]|] eqn:E; [|by right]. by eapply described_ok.
Qed.

(** ** An example *)

Definition demo_memory : memory :=
  {[ 16 := utf8_encode (txt "/w"); 32 := utf8_encode (txt "use-tabs");
     48 := utf8_encode (txt "Tabs"); 64 := utf8_encode [954; 945; 953] ]}.

Definition demo_draft : draft_arguments := {|
  arg_title := (48, 4);
  arg_description := (64, 6);
  arg_applies_when := (0, 0);
  arg_instructions := (48, 4);
  arg_activation := 1;
  arg_priority := 100;
|}.

Definition demo_call : skill_call :=
  learned_skill_update (16, 2) 0 (32, 8) 7 demo_draft (64, 6) 4096.

Lemma skill_entries_contract_witness :
  run_skill_call demo_memory demo_call =
  value (inr (txt "/w",
    ask_update ResourceUserScope (txt "use-tabs") 7
      (Build_ResourceSkillDraft (txt "Tabs") [954; 945; 953] [] (txt "Tabs") SkillRelevant 100)
      [954; 945; 953])).
Proof.
  assert (H : skill_lent demo_memory demo_call).
  { split; [|by vm_compute]. cbn [skill_buffers demo_call demo_draft arg_title arg_description
      arg_applies_when arg_instructions].
    repeat (constructor; [split; [cbn; lia|intros _; split; [cbn; lia|right; eexists; split;
      [reflexivity|by vm_compute]]] || (split; [cbn; lia|intros []; reflexivity])|]).
    constructor. }
  etransitivity; [exact (proj1 (skill_entries_contract demo_memory demo_call H))|].
  vm_compute. reflexivity.
Defined.
