(* ===== verification/SkillAnswers.v ===== *)
(** * What the learned-skill calls deliver

    The callbacks of an accepted learned-skill request (ResourceAdmin.hs of
    agent-native-bridge/ffi), from the operations of SkillAdmin.v on the tables of
    SkillTables.v.  [skill_mutations_conform]: a mutation makes one callback, whose status and
    revision are what the step of the abstract store says; [skill_reads_conform]: lists, reads
    and histories deliver the versions of the abstract store, and one terminal callback. *)

From stdpp Require Import base tactics option list strings.
From Stdlib Require Import ZArith Lia.
From S2P Require Import Prelude Utf8 HostCall SkillTables SkillStore SkillAdmin SkillCalls.
#[local] Open Scope Z_scope.

(** ** The header *)

Definition HA_RESOURCE_STATUS_ITEM : Z := 0.
Definition HA_RESOURCE_STATUS_COMPLETE : Z := 1.
Definition HA_RESOURCE_STATUS_ERROR : Z := -1.
Definition HA_RESOURCE_STATUS_NOT_FOUND : Z := -2.
Definition HA_RESOURCE_STATUS_REVISION_CONFLICT : Z := -3.
Definition HA_RESOURCE_STATUS_ALREADY_EXISTS : Z := -4.
Definition HA_RESOURCE_STATUS_REVISION_NOT_FOUND : Z := -5.

(** One call of [ha_learned_skill_callback]. *)
Record learned_skill_event := {
  ls_status : Z;
  ls_scope : Z;
  ls_slug : callback_text;
  ls_revision : Z;
  ls_title : callback_text;
  ls_description : callback_text;
  ls_applies_when : callback_text;
  ls_instructions : callback_text;
  ls_activation : Z;
  ls_priority : Z;
  ls_archived : Z;
  ls_created_at_ms : Z;
  ls_updated_at_ms : Z;
  ls_error : callback_text;
}.

(** One call of [ha_learned_skill_revision_callback]. *)
Record revision_event := {
  lr_status : Z;
  lr_revision : Z;
  lr_title : callback_text;
  lr_description : callback_text;
  lr_applies_when : callback_text;
  lr_instructions : callback_text;
  lr_activation : Z;
  lr_priority : Z;
  lr_archived : Z;
  lr_change_summary : callback_text;
  lr_created_at_ms : Z;
  lr_error : callback_text;
}.

(** One call of [ha_resource_result_callback]. *)
Record resource_result := { rr_status : Z; rr_revision : Z; rr_error : callback_text }.

Inductive skill_callback :=
  | call_skill (e : learned_skill_event)
  | call_revision (e : revision_event)
  | call_result (e : resource_result).

(** ** Emitting *)

Definition scopeCode (s : ResourceScope) : Z :=
  match s with
  | ResourceUserScope => 0
  | ResourceRepositoryScope => 1
  | ResourceCheckoutScope => 2
  end.

Definition activationCode (a : LearnedSkillActivation) : Z :=
  match a with SkillAlways => 0 | SkillRelevant => 1 | SkillManual => 2 end.

Definition timestampMillis (t : Z) : Z := i64_wrap (t / 10 ^ 9).

Definition errorStatus (e : ResourceAdminError) : Z :=
  match e with
  | ResourceAdminNotFound => -2
  | ResourceAdminConflict _ => -3
  | ResourceAdminAlreadyExists => -4
  | ResourceAdminRevisionNotFound => -5
  | _ => -1
  end.

Definition conflictRevision (e : ResourceAdminError) : Z :=
  match e with ResourceAdminConflict revision => revision | _ => 0 end.

Definition errorMessage (e : ResourceAdminError) : text :=
  match e with
  | ResourceAdminInvalid message => message
  | ResourceAdminNotFound => txt "resource not found"
  | ResourceAdminAlreadyExists => txt "resource already exists"
  | ResourceAdminConflict _ => txt "resource revision conflict"
  | ResourceAdminRevisionNotFound => txt "resource revision not found"
  | ResourceAdminUnavailable => txt "resource store unavailable"
  end.

Definition flag (b : bool) : Z := if b then 1 else 0.

Definition emitSkillItem (s : ResourceSkill) : skill_callback := call_skill {|
  ls_status := 0;
  ls_scope := scopeCode (resourceSkillScope s);
  ls_slug := Some (resourceSkillSlug s);
  ls_revision := resourceSkillRevision s;
  ls_title := Some (resourceSkillTitle s);
  ls_description := Some (resourceSkillDescription s);
  ls_applies_when := Some (resourceSkillAppliesWhen s);
  ls_instructions := Some (resourceSkillInstructions s);
  ls_activation := activationCode (resourceSkillActivation s);
  ls_priority := resourceSkillPriority s;
  ls_archived := flag (resourceSkillArchived s);
  ls_created_at_ms := timestampMillis (resourceSkillCreatedAt s);
  ls_updated_at_ms := timestampMillis (resourceSkillUpdatedAt s);
  ls_error := None;
|}.

(** A callback that carries no item. *)
Definition skill_status (status revision : Z) (error : callback_text) : skill_callback :=
  call_skill (Build_learned_skill_event status 0 None revision None None None None 0 0 0 0 0 error).

Definition emitSkillError (e : ResourceAdminError) : skill_callback :=
  skill_status (errorStatus e) (conflictRevision e) (Some (errorMessage e)).

Definition emitSkillList (r : ResourceAdminError + list ResourceSkill) : list skill_callback :=
  match r with
  | inl e => [emitSkillError e]
  | inr skills => map emitSkillItem skills ++ [skill_status 1 0 None]
  end.

Definition emitSkillOne (r : ResourceAdminError + ResourceSkill) : list skill_callback :=
  match r with inl e => [emitSkillError e] | inr skill => [emitSkillItem skill] end.

Definition emitRevisionItem (r : ResourceSkillRevision) : skill_callback := call_revision {|
  lr_status := 0;
  lr_revision := resourceRevisionNumber r;
  lr_title := Some (resourceRevisionTitle r);
  lr_description := Some (resourceRevisionDescription r);
  lr_applies_when := Some (resourceRevisionAppliesWhen r);
  lr_instructions := Some (resourceRevisionInstructions r);
  lr_activation := activationCode (resourceRevisionActivation r);
  lr_priority := resourceRevisionPriority r;
  lr_archived := flag (resourceRevisionArchived r);
  lr_change_summary := Some (resourceRevisionSummary r);
  lr_created_at_ms := timestampMillis (resourceRevisionCreatedAt r);
  lr_error := None;
|}.

Definition revision_status (status revision : Z) (error : callback_text) : skill_callback :=
  call_revision (Build_revision_event status revision None None None None 0 0 0 None 0 error).

Definition emitRevisionList (r : ResourceAdminError + list ResourceSkillRevision)
    : list skill_callback :=
  match r with
  | inl e => [revision_status (errorStatus e) (conflictRevision e) (Some (errorMessage e))]
  | inr revisions => map emitRevisionItem revisions ++ [revision_status 1 0 None]
  end.

Definition emitMutation (r : ResourceAdminError + ResourceSkill) : list skill_callback :=
  match r with
  | inr skill => [call_result (Build_resource_result 0 (resourceSkillRevision skill) None)]
  | inl e => [call_result (Build_resource_result (errorStatus e) (conflictRevision e)
                             (Some (errorMessage e)))]
  end.

(** ** The worker of a request

    [runResourceAsync] of [withResourceStore]: without scopes ([None]) the store could not be
    set up, or an exception was caught. *)
Definition serve (w : world) (setup : option DatabaseScopes) (r : skill_request) (t : tables)
    : list skill_callback * tables :=
  let read {A} (emit : ResourceAdminError + A -> list skill_callback)
        (action : DatabaseScopes -> ResourceAdminError + A) :=
    (emit (match setup with None => inl ResourceAdminUnavailable | Some s => action s end), t) in
  let change (action : DatabaseScopes -> (ResourceAdminError + ResourceSkill) * tables) :=
    match setup with
    | None => (emitMutation (inl ResourceAdminUnavailable), t)
    | Some s => let '(result, t) := action s in (emitMutation result, t)
    end in
  match r with
  | ask_list selected limit =>
      read emitSkillList (fun s => listResourceSkills w s selected limit t)
  | ask_read scope slug revision =>
      read emitSkillOne (fun s => readResourceSkill w s scope slug revision t)
  | ask_history scope slug limit =>
      read emitRevisionList (fun s => historyResourceSkill w s scope slug limit t)
  | ask_create scope slug draft summary =>
      change (fun s => createResourceSkill w s scope slug draft summary t)
  | ask_update scope slug expected draft summary =>
      change (fun s => updateResourceSkill w s scope slug expected draft summary t)
  | ask_status s' scope slug expected summary =>
      change (fun s => setResourceSkillArchived w s s' scope slug expected summary t)
  | ask_rollback scope slug expected target summary =>
      change (fun s => rollbackResourceSkill w s scope slug expected target summary t)
  end.

(** ** Mutations *)

(** The mutation of the abstract store that a request asks for. *)
Definition mutation_of (w : world) (scopes : DatabaseScopes) (r : skill_request) : option mutation :=
  match r with
  | ask_create scope slug draft summary =>
      Some (native_mutation w scopes scope slug
              (LearnedSkillCreate (draft_contents draft SkillActive)) summary)
  | ask_update scope slug expected draft summary =>
      Some (native_mutation w scopes scope slug
              (LearnedSkillUpdate expected (draft_patch draft)) summary)
  | ask_status s scope slug expected summary =>
      Some (native_mutation w scopes scope slug (LearnedSkillUpdate expected (status_patch s)) summary)
  | ask_rollback scope slug expected target summary =>
      Some (native_mutation w scopes scope slug (LearnedSkillRollback expected target) summary)
  | _ => None
  end.

(** "Mutation callbacks use status 0 for success and the same negative failures.  Their
    revision is the new revision on success or current revision on conflict." *)
Definition promised (r : spec_result) : Z * Z :=
  match r with
  | made _ _ n => (HA_RESOURCE_STATUS_ITEM, n)
  | exists_already => (HA_RESOURCE_STATUS_ALREADY_EXISTS, 0)
  | missing => (HA_RESOURCE_STATUS_NOT_FOUND, 0)
  | conflict n => (HA_RESOURCE_STATUS_REVISION_CONFLICT, n)
  | no_such_revision => (HA_RESOURCE_STATUS_REVISION_NOT_FOUND, 0)
  | pointless _ => (HA_RESOURCE_STATUS_ERROR, 0)
  end.

Lemma native_of w scopes r m :
  skill_request_ok r -> mutation_of w scopes r = Some m -> native m.
Proof.
  intros Hr. destruct r; cbn [skill_request_ok mutation_of] in *; try done; intros [= <-];
    unfold native; cbn [native_mutation mutationSlug mutationSummary mutationSource mutationChange].
  - destruct Hr as (? & ? & ?). split_and!; try done. by constructor.
  - destruct Hr as (? & ? & ? & ?). split_and!; try done. constructor; [lia|done].
  - destruct Hr as (? & ? & ?). split_and!; try done. constructor. lia.
  - destruct Hr as (? & ? & ? & ?). split_and!; try done. constructor; lia.
Qed.

(** Validation passes what the entries accepted. *)
Lemma slug_passes s : slug_ok s = true -> validateResourceSlug s = inr s.
Proof. intros H. pose proof (slug_valid s) as Hv. destruct (validateResourceSlug s); [congruence|]. by destruct Hv as [-> _]. Qed.

Lemma draft_passes d : draft_ok d = true -> validateResourceSkillDraft d = inr d.
Proof. intros H. pose proof (draft_valid d) as Hv. destruct (validateResourceSkillDraft d); [congruence|]. by destruct Hv as [-> _]. Qed.

Lemma summary_passes s : required_ok 1000 s = true -> validateResourceSummary s = inr s.
Proof.
  intros H. pose proof (required_valid (txt "change summary") 1000 s) as Hv.
  unfold validateResourceSummary. destruct (validateRequired _ _ _); [congruence|]. by destruct Hv as [-> _].
Qed.

Lemma revision_passes label n : 1 <= n -> validatePositiveRevision label n = inr n.
Proof. intros H. unfold validatePositiveRevision. by destruct (Z.ltb_spec n 1); [lia|]. Qed.

Lemma limit_passes label n : 1 <= n <= 1000 -> validateLimit label n = inr n.
Proof.
  intros H. unfold validateLimit.
  by destruct (Z.ltb_spec n 1), (Z.ltb_spec 1000 n); try lia.
Qed.

Lemma serve_mutation w scopes r m t :
  skill_request_ok r -> mutation_of w scopes r = Some m ->
  serve w (Some scopes) r t =
  (let '(result, t) := mutate w (inr m) t in (emitMutation result, t)).
Proof.
  intros Hr. destruct r; cbn [skill_request_ok mutation_of] in *; try done; intros [= <-]; cbn [serve];
    unfold createResourceSkill, updateResourceSkill, setResourceSkillArchived, rollbackResourceSkill,
      validateMutationKey, validateKey.
  - destruct Hr as (? & ? & ?). by rewrite slug_passes, draft_passes, summary_passes by done.
  - destruct Hr as (? & ? & ? & ?).
    by rewrite slug_passes, draft_passes, summary_passes, revision_passes by (done || lia).
  - destruct Hr as (? & ? & ?).
    by rewrite slug_passes, summary_passes, revision_passes by (done || lia).
  - destruct Hr as (? & ? & ? & ?).
    by rewrite slug_passes, summary_passes, !revision_passes by (done || lia).
Qed.

Lemma emit_answer r st :
  answered_revision r = answer_of st ->
  exists error, emitMutation r =
    [call_result (Build_resource_result (fst (promised st)) (snd (promised st)) error)]
    /\ (error = None <-> fst (promised st) = HA_RESOURCE_STATUS_ITEM).
Proof.
  intros H. destruct st, r as [e|s]; cbn in H; simplify_eq; try case_decide;
    eexists; (split; [cbn; reflexivity|]); done.
Qed.

(** ** Reads *)

Lemma decide_answered f : f = fate_answered \/ f <> fate_answered.
Proof. by destruct f; [left|right]. Qed.

(** The callback of version [v], revision [n] of skill [k]. *)
Definition event_of (k : key) (n : Z) (v : version) (createdAt : Z) : skill_callback :=
  let c := version_contents v in call_skill {|
  ls_status := HA_RESOURCE_STATUS_ITEM;
  ls_scope := scopeCode (resourceScopeFromStored (scopeKind (fst k)));
  ls_slug := Some (snd k);
  ls_revision := n;
  ls_title := Some (skillTitle c);
  ls_description := Some (skillDescription c);
  ls_applies_when := Some (skillAppliesWhen c);
  ls_instructions := Some (skillInstructions c);
  ls_activation := activationCode (skillActivation c);
  ls_priority := skillPriority c;
  ls_archived := flag (archived (skillStatus c));
  ls_created_at_ms := timestampMillis createdAt;
  ls_updated_at_ms := timestampMillis (version_at v);
  ls_error := None;
|}.

Definition current_event (k : key) (h : history) (e : skill_callback) : Prop :=
  exists first v, head h = Some first /\ last h = Some v
    /\ e = event_of k (zlen h) v (version_at first).

Definition revision_event_of (n : Z) (v : version) : skill_callback :=
  let c := version_contents v in call_revision {|
  lr_status := HA_RESOURCE_STATUS_ITEM;
  lr_revision := n;
  lr_title := Some (skillTitle c);
  lr_description := Some (skillDescription c);
  lr_applies_when := Some (skillAppliesWhen c);
  lr_instructions := Some (skillInstructions c);
  lr_activation := activationCode (skillActivation c);
  lr_priority := skillPriority c;
  lr_archived := flag (archived (skillStatus c));
  lr_change_summary := Some (version_summary v);
  lr_created_at_ms := timestampMillis (version_at v);
  lr_error := None;
|}.

Lemma emit_current k h s :
  current_of h k s -> current_event k h (emitSkillItem (skillFromStored s)).
Proof.
  intros (Hk & Hn & (v & Hv & Hc & Hu) & (f & Hf & Hcr)). exists f, v. split; [done|]. split; [done|].
  unfold emitSkillItem, skillFromStored, event_of. cbn. rewrite <- Hk. cbn [fst snd].
  by rewrite Hn, Hc, Hu, Hcr.
Qed.

Lemma emit_historical k h s id n v first :
  current_of h k s -> head h = Some first ->
  emitSkillItem (historicalSkill s (revision_of id n v)) = event_of k n v (version_at first).
Proof.
  intros (Hk & _ & _ & (f & Hf & Hcr)) Hh. assert (f = first) as -> by congruence.
  unfold emitSkillItem, historicalSkill, event_of. cbn. rewrite <- Hk. cbn [fst snd]. by rewrite Hcr.
Qed.

Lemma emit_revision x nv :
  is_revision x nv -> emitRevisionItem (revisionFromStored x) = revision_event_of (fst nv) (snd nv).
Proof. by intros [id ->]. Qed.

Lemma unavailable_read {A} f (query : tables -> text + A) t :
  f <> fate_answered -> mapStoreError (readSession f query t) = inl ResourceAdminUnavailable.
Proof. by destruct f. Qed.

(** Lists: the skills [ks] that a list has. *)
Definition skill_page (a : key -> option history) (scopes : list Scope)
    (selected : option ResourceScope) (limit : Z) (items : list skill_callback) : Prop :=
  let asked := listed scopes (resourceScopeKind <$> selected) in
  exists ks, NoDup ks /\ zlen ks <= limit
    /\ Forall2 (fun k e => exists h, a k = Some h /\ current_event k h e) ks items
    /\ Forall asked ks
    /\ (zlen ks < limit -> forall k h, a k = Some h -> asked k -> k ∈ ks).

(** The callbacks that the header promises for the reads of the store [a]; a read of a revision
    has a second session, which finds the store [a2]. *)
Definition read_promise (scopes : DatabaseScopes) (a a2 : key -> option history)
    (r : skill_request) (calls : list skill_callback) : Prop :=
  match r with
  | ask_list selected limit =>
      exists items, calls = items ++ [skill_status HA_RESOURCE_STATUS_COMPLETE 0 None]
        /\ skill_page a (applicableDatabaseScopes scopes) selected limit items
  | ask_read scope slug revision =>
      let k := (selectScope scopes scope, slug) in
      match a k with
      | None =>
          calls = [skill_status HA_RESOURCE_STATUS_NOT_FOUND 0 (Some (txt "resource not found"))]
      | Some h =>
          match revision with
          | None => exists e, calls = [e] /\ current_event k h e
          | Some n =>
              match default [] (a2 k) !! Z.to_nat (n - 1) with
              | None => calls = [skill_status HA_RESOURCE_STATUS_REVISION_NOT_FOUND 0
                                   (Some (txt "resource revision not found"))]
              | Some v => exists first, head h = Some first
                            /\ calls = [event_of k n v (version_at first)]
              end
          end
      end
  | ask_history scope slug limit =>
      match a (selectScope scopes scope, slug) with
      | None =>
          calls = [revision_status HA_RESOURCE_STATUS_NOT_FOUND 0 (Some (txt "resource not found"))]
      | Some h =>
          calls = map (fun nv => revision_event_of (fst nv) (snd nv)) (ztake limit (numbered h))
                  ++ [revision_status HA_RESOURCE_STATUS_COMPLETE 0 None]
      end
  | _ => False
  end.

(** When a session of a read is lost: one error. *)
Definition read_failure (r : skill_request) (calls : list skill_callback) : Prop :=
  let message := Some (txt "resource store unavailable") in
  match r with
  | ask_history _ _ _ => calls = [revision_status HA_RESOURCE_STATUS_ERROR 0 message]
  | _ => calls = [skill_status HA_RESOURCE_STATUS_ERROR 0 message]
  end.

Lemma scopes_found scopes k : exists id, findScope (applicableDatabaseScopes scopes) k = inr id.
Proof. destruct k; by eexists. Qed.

Lemma resource_scope_kind (k : ScopeKind) s :
  resourceScopeFromStored k = s <-> k = resourceScopeKind s.
Proof. by destruct k, s. Qed.

Section Reads.
Context (w : world) (scopes : DatabaseScopes) (t : tables) (a a2 : key -> option history).
Context (Horder : forall l, w_order_by w l ≡ₚ l).
Context (Ht : represents t a).
Context (Ht2 : represents (snd (run (w_timestamptz w) (w_between w) t)) a2).

Lemma page_limit_id limit : 1 <= limit <= 1000 -> page_limit limit = limit.
Proof. unfold page_limit. lia. Qed.

Lemma list_conforms selected limit :
  1 <= limit <= 1000 -> w_fate w = fate_answered ->
  read_promise scopes a a2 (ask_list selected limit)
    (fst (serve w (Some scopes) (ask_list selected limit) t)).
Proof.
  intros Hlim Hf. cbn [serve fst read_promise]. unfold listResourceSkills.
  rewrite limit_passes by done. rewrite Hf. cbn [mbind admin_bind readSession].
  pose proof (list_skills t a (w_order_by w) (applicableDatabaseScopes scopes)
                (resourceScopeKind <$> selected) limit Ht Horder) as Hl.
  destruct (listAllLearnedSkillsLimited _ _ _ _ _) as [err|l].
  { destruct Hl as [k Hk]. destruct (scopes_found scopes k). congruence. }
  destruct Hl as (ks & Hnd & Hlen & Hks & Hasked & Hall). rewrite page_limit_id in * by done.
  cbn [mapStoreError mbind admin_bind mret admin_ret emitSkillList].
  assert (Hkeep : (match selected with
              | None => l
              | Some scope =>
                  filter (fun s => resourceScopeFromStored (scopeKind (learnedSkillScope s)) = scope) l
              end) = l).
  { destruct selected as [sc|]; [|done].
    assert (HF : Forall (fun s => resourceScopeFromStored (scopeKind (learnedSkillScope s)) = sc) l).
    { apply Forall_forall. intros s Hs. apply list_elem_of_lookup in Hs as [i Hi].
      destruct (Forall2_lookup_r _ _ _ _ _ Hks Hi) as (k & Hki & h & _ & Hcur).
      rewrite Forall_lookup in Hasked. destruct (Hasked i k Hki) as [_ Hkd].
      apply resource_scope_kind. rewrite <- (Hkd (resourceScopeKind sc) eq_refl).
      destruct Hcur as (<- & _). done. }
    clear -HF. induction HF as [|s l Hs _ IH]; [done|]. rewrite filter_cons_True by done. by rewrite IH. }
  rewrite Hkeep.
  assert (Hll : zlen l <= limit) by (apply Forall2_length in Hks; lia).
  replace (ztake limit l) with l by (unfold ztake; rewrite firstn_all2; [done|lia]).
  eexists. split; [done|]. exists ks. split_and!; try done.
  rewrite map_map. apply Forall2_fmap_r. eapply Forall2_impl; [exact Hks|].
  intros k s (h & Ha & Hcur). exists h. split; [done|]. by apply emit_current.
Qed.

Lemma history_conforms scope slug limit :
  slug_ok slug = true -> 1 <= limit <= 1000 -> w_fate w = fate_answered ->
  read_promise scopes a a2 (ask_history scope slug limit)
    (fst (serve w (Some scopes) (ask_history scope slug limit) t)).
Proof.
  intros Hslug Hlim Hf. cbn [serve fst read_promise]. unfold historyResourceSkill.
  rewrite limit_passes, slug_passes by done. rewrite Hf. cbn [mbind admin_bind readSession].
  set (k := (selectScope scopes scope, slug)).
  destruct (list_history t a k limit Ht) as (xs & -> & Hxs). rewrite page_limit_id in Hxs by done.
  cbn [mapStoreError mbind admin_bind]. destruct (a k) as [h|] eqn:Ha; cbn [default id] in Hxs.
  - assert (Hne : xs <> []).
    { intros ->. apply Forall2_nil_inv_l in Hxs. destruct (skill_row t a k h Ht Ha) as (r & _ & _ & _ & Hh).
      destruct (row_created _ _ _ Hh) as (v & Hv & _). destruct h as [|v' h]; [done|].
      apply (f_equal length) in Hxs. unfold ztake, numbered in Hxs.
      rewrite length_take, length_reverse, length_zip, length_seqZ in Hxs. cbn in Hxs. lia. }
    destruct xs as [|x xs]; [done|]. cbn [mret admin_ret emitRevisionList].
    f_equal. rewrite map_map. remember (ztake limit (numbered h)) as nvs. clear -Hxs.
    induction Hxs as [|y nv l nvs Hy _ IH]; [done|]. cbn [map]. by rewrite (emit_revision y nv), IH.
  - change (numbered []) with (@nil (Z * version)) in Hxs. unfold ztake in Hxs. rewrite firstn_nil in Hxs.
    apply Forall2_nil_inv_r in Hxs as ->. done.
Qed.

Lemma read_conforms scope slug revision :
  skill_request_ok (ask_read scope slug revision) ->
  w_fate w = fate_answered -> w_second_fate w = fate_answered ->
  read_promise scopes a a2 (ask_read scope slug revision)
    (fst (serve w (Some scopes) (ask_read scope slug revision) t)).
Proof.
  intros [Hslug Hrev] Hf Hf2. cbn [serve fst read_promise]. unfold readResourceSkill, validateKey.
  rewrite slug_passes by done. cbn [mbind admin_bind].
  assert (Hpass : (match revision with
             | Some revision => validatePositiveRevision (txt "revision") revision ;; mret tt
             | None => mret tt
             end : ResourceAdminError + unit) = inr tt).
  { destruct revision as [n|]; [|done]. by rewrite revision_passes by lia. }
  rewrite Hpass. rewrite Hf. cbn [readSession mbind admin_bind].
  set (k := (selectScope scopes scope, slug)). pose proof (read_current t a k Ht) as Hcur.
  destruct (a k) as [h|] eqn:Ha; [|by rewrite Hcur].
  destruct Hcur as (s & -> & Hs). cbn [mapStoreError mbind admin_bind require].
  destruct revision as [n|]; [|eexists; split; [done|by apply emit_current]].
  rewrite Hf2. cbn [readSession]. set (t2 := snd (run _ _ _)).
  destruct (default [] (a2 k) !! Z.to_nat (n - 1)) as [v|] eqn:Hv.
  - destruct (a2 k) as [h2|] eqn:Ha2; [|done].
    destruct (read_revision t2 a2 k n h2 v Ht2 Ha2) as [id ->]; [lia|done|].
    cbn [mapStoreError mbind admin_bind require mret admin_ret emitSkillOne].
    destruct (proj2 (proj2 (proj2 Hs))) as (first & Hfirst & _). exists first. split; [done|].
    by rewrite (emit_historical k h s id n v first).
  - assert (Hnone : readLearnedSkillRevision k n t2 = inr None).
    { eapply read_no_revision; [done|lia|done]. }
    rewrite Hnone. done.
Qed.

(** A read of a revision whose second session is lost. *)
Lemma read_second_lost scope slug revision :
  skill_request_ok (ask_read scope slug revision) ->
  w_fate w = fate_answered -> w_second_fate w <> fate_answered ->
  let calls := fst (serve w (Some scopes) (ask_read scope slug revision) t) in
  read_promise scopes a a2 (ask_read scope slug revision) calls
  \/ read_failure (ask_read scope slug revision) calls.
Proof.
  intros [Hslug Hrev] Hf Hf2. cbn [serve fst read_promise]. unfold readResourceSkill, validateKey.
  rewrite slug_passes by done. cbn [mbind admin_bind].
  set (k := (selectScope scopes scope, slug)). pose proof (read_current t a k Ht) as Hcur.
  destruct revision as [n|]; rewrite ?revision_passes by lia; cbn [mbind admin_bind mret admin_ret];
    rewrite Hf; cbn [readSession]; (destruct (a k) as [h|] eqn:Ha; [|left; by rewrite Hcur]);
    destruct Hcur as (s & -> & Hs); cbn [mapStoreError mbind admin_bind require].
  - right. by rewrite unavailable_read.
  - left. eexists. split; [done|]. by apply emit_current.
Qed.

End Reads.

(** C11: whatever transactions clients have made, an accepted mutation makes exactly one
    callback.  Its status and revision are those that the header promises for the step of the
    abstract store that it asks for, and the store takes the step; or it is an error and the
    step was taken or not, which happens only when the answer is lost, an identifier that the
    server generates is not new, the clock is behind the skill's creation, or its revisions are
    exhausted.  An error text comes with every status but success. *)
Theorem skill_mutations_conform w scopes r m l :
  skill_request_ok r -> mutation_of w scopes r = Some m ->
  let tz := w_timestamptz w in
  let t := snd (run tz l no_tables) in
  exists a, represents t a
    /\ let '(calls, t') := serve w (Some scopes) r t in
       exists status revision error,
         calls = [call_result (Build_resource_result status revision error)]
         /\ (error = None <-> status = HA_RESOURCE_STATUS_ITEM)
         /\ ((status, revision) = promised (fst (spec tz m (a (mutation_key m))))
             /\ represents t' (spec_store tz m a)
             \/ (status, revision) = (HA_RESOURCE_STATUS_ERROR, 0)
                /\ (t' = t \/ represents t' (spec_store tz m a))
                /\ ~ (w_fate w = fate_answered /\ fresh (w_ids w) t
                      /\ timely tz m (a (mutation_key m)))).
Proof.
  intros Hr Hm tz t. destruct (run_grows tz l no_tables _ represents_empty) as (a & Ht & _).
  exists a. split; [done|]. rewrite (serve_mutation w scopes r m) by done.
  pose proof (mutate_outcome w t a m Ht (native_of w scopes r m Hr Hm)) as Ho.
  destruct (mutate w (inr m) t) as [result t']. destruct Ho as [[Hans Ht']|(-> & Ht' & Hno)].
  - destruct (emit_answer result _ Hans) as (error & -> & Herr). do 3 eexists.
    split; [done|]. split; [done|]. left. split; [|done]. by destruct (promised _).
  - exists (-1), 0, (Some (txt "resource store unavailable")). split; [done|]. split; [done|]. by right.
Qed.

(** Whatever transactions clients have made, an accepted read leaves the tables as they are
    and delivers what the header promises of the abstract store: a list, the current versions of
    the skills it asks for, each once, and all of them unless its limit is reached, then the
    completion; a read, the current version or the one of its revision, or why there is none; a
    history, the newest versions up to its limit, then the completion.  If an answer is lost it
    delivers one error. *)
Theorem skill_reads_conform w scopes r l :
  (forall rows, w_order_by w rows ≡ₚ rows) -> skill_request_ok r -> mutation_of w scopes r = None ->
  let tz := w_timestamptz w in
  let t := snd (run tz l no_tables) in
  exists a a2, represents t a /\ represents (snd (run tz (w_between w) t)) a2
    /\ let '(calls, t') := serve w (Some scopes) r t in
       t' = t
       /\ (read_promise scopes a a2 r calls
           \/ read_failure r calls /\ (w_fate w <> fate_answered \/ w_second_fate w <> fate_answered)).
Proof.
  intros Horder Hr Hm tz t. destruct (run_grows tz l no_tables _ represents_empty) as (a & Ht & _).
  destruct (run_grows tz (w_between w) t a Ht) as (a2 & Ht2 & _). exists a, a2.
  split; [done|]. split; [done|].
  destruct (decide_answered (w_fate w)) as [Hf|Hf].
  2:{ destruct r; try done; cbn [serve skill_request_ok] in *; (split; [done|]); right; (split; [|by left]);
        unfold listResourceSkills, readResourceSkill, historyResourceSkill, validateKey.
      - by rewrite limit_passes, unavailable_read by done.
      - destruct Hr as [? Hrev]. rewrite slug_passes by done. cbn [mbind admin_bind].
        destruct revision as [n|]; rewrite ?revision_passes by lia; cbn [mbind admin_bind mret admin_ret];
          by rewrite (unavailable_read (w_fate w)) by done.
      - destruct Hr as [? ?]. by rewrite limit_passes, slug_passes, unavailable_read by done. }
  destruct r as [selected limit|scope slug revision| | | | |scope slug limit]; try done.
  - split; [done|]. left. by apply (list_conforms w scopes t a a2).
  - destruct (decide_answered (w_second_fate w)) as [Hf2|Hf2].
    { split; [done|]. left. by apply (read_conforms w scopes t a a2). }
    destruct (read_second_lost w scopes t a a2 Ht scope slug revision Hr Hf Hf2) as [Hp|Hp].
    + split; [done|]. by left.
    + split; [done|]. right. split; [done|by right].
  - split; [done|]. left. destruct Hr. by apply (history_conforms w scopes t a a2).
Qed.

(** ** Examples *)

Definition demo_world (f : fate) : world :=
  Build_world (fun t => t) 100 (demo_ids "z") (fun rows => rows) f fate_answered [].

Definition demo_scopes : DatabaseScopes := Build_DatabaseScopes (txt "0a") (txt "0b") (txt "0c").

Definition demo_history : list (uuids * mutation) :=
  [(demo_ids "a", demo_mutation (LearnedSkillCreate (demo_contents "one")) 10)].

Definition demo_archive : skill_request :=
  ask_status SkillArchived ResourceUserScope (txt "use-tabs") 1 (txt "old").

Definition demo_tables : tables := snd (run (fun t => t) demo_history no_tables).

(** The answer to an archive of the first revision: success, and revision 2. *)
Lemma skill_mutations_conform_witness :
  let calls := fst (serve (demo_world fate_answered) (Some demo_scopes) demo_archive demo_tables) in
  skill_request_ok demo_archive
  /\ calls = [call_result (Build_resource_result 0 2 None)]
  /\ exists status revision error,
       calls = [call_result (Build_resource_result status revision error)]
       /\ (error = None <-> status = HA_RESOURCE_STATUS_ITEM).
Proof.
  intros calls.
  assert (Hr : skill_request_ok demo_archive) by (vm_compute; split_and!; done).
  split; [exact Hr|]. split; [vm_compute; reflexivity|].
  destruct (skill_mutations_conform (demo_world fate_answered) demo_scopes demo_archive _ demo_history
              Hr eq_refl) as (a & _ & H).
  change (snd (run _ demo_history no_tables)) with demo_tables in H. unfold calls.
  destruct (serve _ _ _ _) as [calls' t']. destruct H as (status & revision & error & Hc & He & _).
  exists status, revision, error. by split.
Defined.

(** A list of all scopes has the skill and the completion, and changes nothing. *)
Lemma skill_reads_conform_witness :
  let served := serve (demo_world fate_answered) (Some demo_scopes) (ask_list None 1000) demo_tables in
  skill_request_ok (ask_list None 1000)
  /\ length (fst served) = 2%nat /\ snd served = demo_tables.
Proof.
  intros served. assert (Hr : skill_request_ok (ask_list None 1000)) by (cbn; lia).
  split; [exact Hr|]. split; [vm_compute; reflexivity|].
  destruct (skill_reads_conform (demo_world fate_answered) demo_scopes (ask_list None 1000) demo_history
              ltac:(done) Hr eq_refl) as (a & a2 & _ & _ & H).
  change (snd (run _ demo_history no_tables)) with demo_tables in H. unfold served.
  destruct (serve _ _ _ _) as [calls' t']. by destruct H as [-> _].
Defined.
