(* ===== verification/LearnedCatalog.v ===== *)
(** * The compatibility catalog of learned skills

    [ha_learned_skills_list] of HaskellAgentBridge.h (LearnedSkillsBridge.hs): the current
    versions of all applicable scopes as text, kept for older clients.
    [learned_catalog_conforms]: what its callbacks are, on the abstract store of SkillStore.v. *)

From stdpp Require Import base tactics option list gmap strings.
From Stdlib Require Import ZArith Lia.
From coqutil Require Import Byte.
From S2P Require Import Prelude Utf8 AbiLayout HostCall SkillTables SkillStore SkillAdmin.
#[local] Open Scope Z_scope.

(** One call of [ha_learned_skills_list_callback]. *)
Record catalog_event := {
  lc_status : Z;
  lc_scope : callback_text;
  lc_slug : callback_text;
  lc_revision : Z;
  lc_title : callback_text;
  lc_description : callback_text;
  lc_applies_when : callback_text;
  lc_instructions : callback_text;
  lc_activation : callback_text;
  lc_status_text : callback_text;
  lc_priority : Z;
  lc_updated_at : callback_text;
  lc_error : callback_text;
}.

(** The directory of an accepted call is text that is decoded on its thread. *)
Definition ha_learned_skills_list (m : memory) (cwd : Z * Z) (callback : Z)
    : outcome (Z + lazy text) :=
  let '(pointer, length) := cwd in
  if callback =? 0 then value (inl 1)
  else if null_with_bytes pointer length then value (inl 2)
  else cwd ← decodeInput m pointer length; value (inr cwd).

(** What the thread meets: a store that is set up for the directory, or an exception or an error,
    as text; the rendering of an instant; and what [show] gives of
    the exception of a directory that is not UTF-8. *)
Record catalog_world := {
  cw_setup : text -> text + DatabaseScopes;
  cw_order_by : list SkillRow -> list SkillRow;
  cw_fate : fate;
  cw_show_time : Z -> text;
  cw_undecodable : text;
}.

Definition renderStoreError (e : StoreError) : text :=
  match e with
  | StoreConfigurationError message | StoreProcessError message | StoreConnectionError message
  | StoreMigrationError message | StoreDataError message => message
  end.

Section Worker.
Context (w : catalog_world).

Definition listLearnedSkillsFor (cwd : text) (t : tables) : text + list LearnedSkill :=
  match cw_setup w cwd with
  | inl err => inl err
  | inr databaseScopes =>
      match readSession (cw_fate w)
              (listAllLearnedSkillsLimited (cw_order_by w)
                 (applicableDatabaseScopes databaseScopes) None 1000) t with
      | inl err => inl (renderStoreError err)
      | inr skills => inr skills
      end
  end.

Definition withLearnedSkillStrings (s : LearnedSkill) : catalog_event :=
  let c := learnedSkillContents s in {|
  lc_status := 0;
  lc_scope := Some (scopeKindText (scopeKind (learnedSkillScope s)));
  lc_slug := Some (learnedSkillSlug s);
  lc_revision := learnedSkillRevision s;
  lc_title := Some (skillTitle c);
  lc_description := Some (skillDescription c);
  lc_applies_when := Some (skillAppliesWhen c);
  lc_instructions := Some (skillInstructions c);
  lc_activation := Some (learnedSkillActivationText (skillActivation c));
  lc_status_text := Some (learnedSkillStatusText (skillStatus c));
  lc_priority := skillPriority c;
  lc_updated_at := Some (cw_show_time w (learnedSkillUpdatedAt s));
  lc_error := None;
|}.

Definition learnedSkillsTerminal (status : Z) (error : callback_text) : catalog_event :=
  Build_catalog_event status None None 0 None None None None None None 0 None error.

Definition run_catalog (cwd : lazy text) (t : tables) : list catalog_event :=
  match cwd with
  | None => [learnedSkillsTerminal (-1) (Some (cw_undecodable w))]
  | Some cwd =>
      match listLearnedSkillsFor cwd t with
      | inl err => [learnedSkillsTerminal (-1) (Some err)]
      | inr skills => map withLearnedSkillStrings skills ++ [learnedSkillsTerminal 1 None]
      end
  end.

(** The item of the skill [k] whose history is [h]. *)
Definition catalog_item (k : key) (h : history) (e : catalog_event) : Prop :=
  exists v, last h = Some v /\ let c := version_contents v in e = {|
    lc_status := 0;
    lc_scope := Some (scopeKindText (scopeKind (fst k)));
    lc_slug := Some (snd k);
    lc_revision := zlen h;
    lc_title := Some (skillTitle c);
    lc_description := Some (skillDescription c);
    lc_applies_when := Some (skillAppliesWhen c);
    lc_instructions := Some (skillInstructions c);
    lc_activation := Some (learnedSkillActivationText (skillActivation c));
    lc_status_text := Some (learnedSkillStatusText (skillStatus c));
    lc_priority := skillPriority c;
    lc_updated_at := Some (cw_show_time w (version_at v));
    lc_error := None |}.

(** "Emit current rows from all applicable scopes, including archived skills, capped at 1000
    rows.  Status is 0 for an item, 1 for end-of-list, and -1 for an error." *)
Definition catalog_of (scopes : list Scope) (a : key -> option history) (calls : list catalog_event)
    : Prop :=
  exists ks items, calls = items ++ [learnedSkillsTerminal 1 None]
    /\ NoDup ks /\ zlen ks <= 1000
    /\ Forall2 (fun k e => exists h, a k = Some h /\ catalog_item k h e) ks items
    /\ (forall k, k ∈ ks -> fst k ∈ scopes)
    /\ (zlen ks < 1000 -> forall k h, a k = Some h -> fst k ∈ scopes -> k ∈ ks).

Lemma item_current k h s : current_of h k s -> catalog_item k h (withLearnedSkillStrings s).
Proof.
  intros (Hk & Hn & (v & Hv & Hc & Hu) & _). exists v. split; [done|].
  unfold withLearnedSkillStrings. cbn. rewrite <- Hk. cbn [fst snd]. by rewrite Hn, Hc, Hu.
Qed.

Lemma catalog_listed scopes t a :
  represents t a -> (forall rows, cw_order_by w rows ≡ₚ rows) ->
  match listAllLearnedSkillsLimited (cw_order_by w) (applicableDatabaseScopes scopes) None 1000 t with
  | inl _ => False
  | inr l => catalog_of (applicableDatabaseScopes scopes) a
               (map withLearnedSkillStrings l ++ [learnedSkillsTerminal 1 None])
  end.
Proof.
  intros Ht Horder.
  pose proof (list_skills t a (cw_order_by w) (applicableDatabaseScopes scopes) None 1000 Ht Horder)
    as Hl.
  destruct (listAllLearnedSkillsLimited _ _ _ _ _) as [err|l].
  { destruct Hl as [k Hk]. by destruct k. }
  destruct Hl as (ks & Hnd & Hlen & Hks & Hasked & Hall). change (page_limit 1000) with 1000 in *.
  exists ks, (map withLearnedSkillStrings l). split_and!; try done.
  - apply Forall2_fmap_r. eapply Forall2_impl; [exact Hks|]. intros k s (h & Ha & Hcur).
    exists h. split; [done|]. by apply item_current.
  - rewrite Forall_forall in Hasked. intros k Hk. by apply Hasked.
  - intros Hlt k h Ha Hk. apply (Hall Hlt k h Ha). by split.
Qed.

End Worker.

(** Under the host's bargain the entry refuses a missing callback and a null pointer with
    bytes, and whatever transactions clients have made, an accepted call delivers the current
    versions of the skills of the directory's scopes, archived ones too, each once, and all
    unless there are a thousand, then the end; or only an error, which it does when the
    directory is not UTF-8, the store cannot be set up, or its answer is lost. *)
Theorem learned_catalog_conforms m w cwd callback l tz :
  lent m (fst cwd) (snd cwd) -> (forall rows, cw_order_by w rows ≡ₚ rows) ->
  exists r, ha_learned_skills_list m cwd callback = value r
    /\ match r with
       | inl status =>
           callback = 0 /\ status = 1
           \/ callback <> 0 /\ null_with_bytes (fst cwd) (snd cwd) = true /\ status = 2
       | inr directory =>
           callback <> 0 /\ null_with_bytes (fst cwd) (snd cwd) = false
           /\ directory = utf8_decode (bytes_at m (fst cwd) (snd cwd))
           /\ let t := snd (run tz l no_tables) in
              exists a, represents t a
              /\ match cw_setup w <$> directory, cw_fate w with
                 | Some (inr scopes), fate_answered =>
                     catalog_of w (applicableDatabaseScopes scopes) a (run_catalog w directory t)
                 | _, _ => exists error,
                     run_catalog w directory t = [learnedSkillsTerminal (-1) (Some error)]
                 end
       end.
Proof.
  intros Hl Horder. destruct cwd as [p len]. unfold ha_learned_skills_list. cbn [fst snd] in *.
  destruct (Z.eqb_spec callback 0); [eexists; split; [done|by left]|].
  destruct (null_with_bytes p len) eqn:En; [eexists; split; [done|by right]|].
  assert (Hd : decodeInput m p len = value (utf8_decode (bytes_at m p len))).
  { unfold decodeInput. destruct (Z.eqb_spec len 0) as [->|Hlen].
    { by rewrite orb_true_r. }
    destruct (Z.eqb_spec p 0) as [->|Hp].
    { apply Z.eqb_neq in Hlen. unfold null_with_bytes in En. by rewrite Hlen in En. }
    cbn [orb]. by rewrite pack_lent. }
  rewrite Hd. cbn [mbind outcome_bind]. eexists. split; [done|]. split_and!; try done.
  destruct (run_grows tz l no_tables _ represents_empty) as (a & Ht & _). exists a. split; [done|].
  set (t := snd _) in *. destruct (utf8_decode _) as [directory|]; cbn [fmap option_fmap option_map];
    [|by eexists].
  unfold run_catalog, listLearnedSkillsFor. destruct (cw_setup w directory) as [err|scopes];
    [by eexists|].
  pose proof (catalog_listed w scopes t a Ht Horder) as Hc. destruct (cw_fate w); [|by eexists].
  cbn [readSession]. by destruct (listAllLearnedSkillsLimited _ _ _ _ _).
Qed.

(** ** An example *)

Definition demo_memory : memory := {[ 16 := utf8_encode (txt "/w"); 32 := [Byte.x80] ]}.

Definition demo_catalog_world : catalog_world := {|
  cw_setup := fun _ => inr (Build_DatabaseScopes (txt "0a") (txt "0b") (txt "0c"));
  cw_order_by := fun rows => rows;
  cw_fate := fate_answered;
  cw_show_time := fun _ => txt "now";
  cw_undecodable := txt "Cannot decode byte";
|}.

Definition demo_skill_store : tables :=
  snd (run (fun t => t)
         [(demo_ids "a", demo_mutation (LearnedSkillCreate (demo_contents "one")) 10)] no_tables).

(** The catalog of one skill; and that of a directory that is not UTF-8. *)
Lemma learned_catalog_conforms_witness :
  length (run_catalog demo_catalog_world (Some (txt "/w")) demo_skill_store) = 2%nat
  /\ ha_learned_skills_list demo_memory (16, 2) 4096 = value (inr (Some (txt "/w")))
  /\ exists error, run_catalog demo_catalog_world None demo_skill_store
       = [learnedSkillsTerminal (-1) (Some error)].
Proof.
  assert (H1 : lent demo_memory 16 2).
  { split; [lia|]. intros _. split; [lia|]. right. eexists. split; [reflexivity|by vm_compute]. }
  assert (H2 : lent demo_memory 32 1).
  { split; [lia|]. intros _. split; [lia|]. right. eexists. split; [reflexivity|by vm_compute]. }
  split; [vm_compute; reflexivity|]. split.
  - destruct (learned_catalog_conforms demo_memory demo_catalog_world (16, 2) 4096 [] (fun t => t) H1
                (fun _ => reflexivity _)) as (r & -> & Hr).
    destruct r as [status|d]; [exfalso; by destruct Hr as [[? _]|(_ & ? & _)]|].
    destruct Hr as (_ & _ & -> & _). vm_compute. reflexivity.
  - destruct (learned_catalog_conforms demo_memory demo_catalog_world (32, 1) 4096
                [(demo_ids "a", demo_mutation (LearnedSkillCreate (demo_contents "one")) 10)]
                (fun t => t) H2 (fun _ => reflexivity _)) as (r & _ & Hr).
    destruct r as [status|d]; [exfalso; by destruct Hr as [[? _]|(_ & ? & _)]|].
    destruct Hr as (_ & _ & -> & (a & _ & Hc)).
    assert (Hd : utf8_decode (bytes_at demo_memory (fst (32, 1)) (snd (32, 1))) = None)
      by (vm_compute; reflexivity).
    rewrite Hd in Hc. exact Hc.
Defined.
