(* ===== verification/DataBrowsing.v ===== *)
(** * Browsing of data

    [ha_data_catalog_list] and [ha_data_rows_load] of HaskellAgentBridge.h
    (DatabaseBrowseBridge.hs, agent-runtime/src/Agent/Runtime/Database/Store.hs): the tables of
    the three scopes of a directory, and the rows of one.  What PostgreSQL answers, and the JSON
    texts of Aeson, are parameters.  [data_catalog_conforms] and [data_rows_conform]: what a host
    assembles from the callbacks is what was found; [data_entries_contract]: the entries, and the
    one argument on which the second throws. *)

From stdpp Require Import base tactics option list gmap strings.
From Stdlib Require Import ZArith Lia.
From coqutil Require Import Byte.
From S2P Require Import Prelude Utf8 AbiLayout HostCall.
#[local] Open Scope Z_scope.

(** ** The header *)

Definition HA_DATA_SCOPE_USER : Z := 0.
Definition HA_DATA_SCOPE_REPOSITORY : Z := 1.
Definition HA_DATA_SCOPE_CHECKOUT : Z := 2.

Definition HA_DATA_CATALOG_OBJECT : Z := 0.
Definition HA_DATA_CATALOG_COLUMN : Z := 1.
Definition HA_DATA_CATALOG_COMPLETE : Z := 2.
Definition HA_DATA_CATALOG_ERROR : Z := -1.

Definition HA_DATA_OBJECT_TABLE : Z := 0.
Definition HA_DATA_OBJECT_VIEW : Z := 1.

Definition HA_DATA_ROWS_VALUE : Z := 0.
Definition HA_DATA_ROWS_COMPLETE : Z := 1.
Definition HA_DATA_ROWS_ERROR : Z := -1.

Definition HA_DATA_VALUE_NULL : Z := 0.
Definition HA_DATA_VALUE_TEXT : Z := 1.
Definition HA_DATA_VALUE_NUMBER : Z := 2.
Definition HA_DATA_VALUE_BOOLEAN : Z := 3.
Definition HA_DATA_VALUE_JSON : Z := 4.

(** One call of [ha_data_catalog_callback]. *)
Record catalog_event := {
  dc_status : Z;
  dc_scope : Z;
  dc_object_kind : Z;
  dc_object_name : callback_text;
  dc_object_comment : callback_text;
  dc_column_name : callback_text;
  dc_column_type : callback_text;
  dc_column_nullable : Z;
  dc_column_comment : callback_text;
  dc_error : callback_text;
}.

(** One call of [ha_data_rows_callback]. *)
Record rows_event := {
  dr_status : Z;
  dr_offset : Z;
  dr_row_index : Z;
  dr_column_index : Z;
  dr_value_kind : Z;
  dr_value : callback_text;
  dr_row_count : Z;
  dr_has_more : Z;
  dr_error : callback_text;
}.

(** A pointer and a length. *)
Abbreviation buffer := (Z * Z)%type.

Inductive data_call :=
  | data_catalog_list (cwd : buffer) (callback : Z)
  | data_rows_load (cwd : buffer) (scope : Z) (object_name : buffer) (offset limit callback : Z).

(** ** What is found *)

Inductive CustomDatabaseScope :=
  | DatabaseUserScope
  | DatabaseRepositoryScope
  | DatabaseCheckoutScope.

Record CatalogColumn := {
  columnName : text;
  columnType : text;
  columnNullable : bool;
  columnComment : option text;
}.

Record CatalogObject := {
  catalogObjectKind : text;
  catalogObjectName : text;
  definitionComment : option text;
  definitionColumns : list CatalogColumn;
}.

(** A value of Aeson; a number and a compound value by what [encode] writes. *)
Inductive json :=
  | Null
  | String_ (s : text)
  | Number (encoded : text)
  | Bool (b : bool)
  | Array (encoded : text)
  | Object_ (fields : list (text * json)) (encoded : text).

Record DatabaseBrowsePage := {
  databaseBrowseRows : list (list json);
  databaseBrowseHasMore : bool;
}.

(** What the machine and the database answer, errors and exceptions rendered. *)
Record data_world := {
  (** What a text that is not UTF-8 raises when it is used. *)
  dw_decode_error : text;
  (** Why the store or the scopes of a directory cannot be had. *)
  dw_setup : text -> option text;
  (** The objects of a scope; [None] where the scope has no database. *)
  dw_inspect : text -> CustomDatabaseScope -> text + option (list CatalogObject);
  (** The rows of [select * from name limit n offset k], and whether they were cut. *)
  dw_query : text -> CustomDatabaseScope -> text -> Z -> Z -> text + (list json * bool);
}.

Inductive data_request :=
  | ask_catalog (cwd : lazy text)
  | ask_rows (cwd : lazy text) (scope : CustomDatabaseScope) (objectName : text) (offset limit : Z).

(** ** The entries *)

Definition dataScopeFromCode (z : Z) : option CustomDatabaseScope :=
  if z =? 0 then Some DatabaseUserScope
  else if z =? 1 then Some DatabaseRepositoryScope
  else if z =? 2 then Some DatabaseCheckoutScope
  else None.

Section Entries.
Context (m : memory).

Definition ha_data_catalog_list (cwd : buffer) (callback : Z) : outcome (Z + data_request) :=
  if callback =? 0 then value (inl 1)
  else if null_with_bytes (fst cwd) (snd cwd) then value (inl 2)
  else cwd ← decodeInput m (fst cwd) (snd cwd); value (inr (ask_catalog cwd)).

(** [Text.null objectName] is the first use of the name, in the caller's thread and outside any
    handler. *)
Definition ha_data_rows_load (cwd : buffer) (rawScope : Z) (object : buffer)
    (offset rawLimit callback : Z) : outcome (Z + data_request) :=
  if callback =? 0 then value (inl 1)
  else if null_with_bytes (fst cwd) (snd cwd) then value (inl 2)
  else if null_with_bytes (fst object) (snd object) then value (inl 2)
  else if offset <? 0 then value (inl 3)
  else if (rawLimit <? 1) || (500 <? rawLimit) then value (inl 3)
  else match dataScopeFromCode rawScope with
  | None => value (inl 3)
  | Some scope =>
      cwd ← decodeInput m (fst cwd) (snd cwd);
      objectName ← decodeInput m (fst object) (snd object);
      match objectName with
      | None => threw
      | Some [] => value (inl 3)
      | Some objectName => value (inr (ask_rows cwd scope objectName offset rawLimit))
      end
  end.

Definition run_data_call (c : data_call) : outcome (Z + data_request) :=
  match c with
  | data_catalog_list cwd cb => ha_data_catalog_list cwd cb
  | data_rows_load cwd scope name offset limit cb => ha_data_rows_load cwd scope name offset limit cb
  end.

(** *** Their contract *)

(** A text argument; a null pointer has no bytes. *)
Definition argument_text (f : buffer) : lazy text := utf8_decode (bytes_at m (fst f) (snd f)).

Definition invalid_pair (f : buffer) : bool := null_with_bytes (fst f) (snd f).

Definition data_scope (z : Z) : option CustomDatabaseScope :=
  if z =? HA_DATA_SCOPE_USER then Some DatabaseUserScope
  else if z =? HA_DATA_SCOPE_REPOSITORY then Some DatabaseRepositoryScope
  else if z =? HA_DATA_SCOPE_CHECKOUT then Some DatabaseCheckoutScope
  else None.

(** "Return 0 when accepted, 1 for a null callback, 2 for an invalid pointer/length pair, or 3
    for invalid scope, object name, offset, or limit." *)
Definition data_request_of (c : data_call) : Z + data_request :=
  match c with
  | data_catalog_list cwd cb =>
      if cb =? 0 then inl 1
      else if invalid_pair cwd then inl 2
      else inr (ask_catalog (argument_text cwd))
  | data_rows_load cwd scope name offset limit cb =>
      if cb =? 0 then inl 1
      else if invalid_pair cwd || invalid_pair name then inl 2
      else
        match data_scope scope, argument_text name with
        | Some scope, Some ((_ :: _) as name) =>
            if (0 <=? offset) && (1 <=? limit) && (limit <=? 500)
            then inr (ask_rows (argument_text cwd) scope name offset limit)
            else inl 3
        | _, _ => inl 3
        end
  end.

(** The call that throws: everything is valid but the encoding of the name. *)
Definition undecodable_name (c : data_call) : bool :=
  match c with
  | data_catalog_list _ _ => false
  | data_rows_load cwd scope name offset limit cb =>
      negb (cb =? 0) && negb (invalid_pair cwd || invalid_pair name)
      && (match data_scope scope with Some _ => true | None => false end)
      && (0 <=? offset) && (1 <=? limit) && (limit <=? 500)
      && (match argument_text name with None => true | Some _ => false end)
  end.

Definition data_lent (c : data_call) : Prop :=
  match c with
  | data_catalog_list cwd _ => lent m (fst cwd) (snd cwd)
  | data_rows_load cwd _ name _ _ _ => lent m (fst cwd) (snd cwd) /\ lent m (fst name) (snd name)
  end.

Lemma decodeInput_value f :
  lent m (fst f) (snd f) -> invalid_pair f = false ->
  decodeInput m (fst f) (snd f) = value (argument_text f).
Proof.
  intros Hl Hn. unfold decodeInput, argument_text. destruct f as [p len]. cbn [fst snd] in *.
  destruct (Z.eqb_spec len 0) as [->|Hne].
  { rewrite orb_true_r. unfold bytes_at, ztake. cbn. done. }
  unfold invalid_pair, null_with_bytes in Hn. cbn [fst snd] in Hn.
  destruct (Z.eqb_spec p 0) as [->|Hp]; [by destruct (Z.eqb_spec len 0)|]. cbn [orb].
  rewrite pack_lent; [done|done|]. unfold null_with_bytes. by rewrite (proj2 (Z.eqb_neq p 0)).
Qed.

End Entries.

(** ** The workers *)

Definition listDatabaseObjects (w : data_world) (cwd : text) (s : CustomDatabaseScope)
    : text + list CatalogObject :=
  match dw_inspect w cwd s with
  | inl err => inl err
  | inr None => inr []
  | inr (Some objects) =>
      inr (filter (fun o => catalogObjectKind o ∈
                     map txt ["table"; "partitioned_table"; "view"; "materialized_view"]%string) objects)
  end.

#[local] Instance found_bind : MBind (sum text) := fun A B f m =>
  match m with inl e => inl e | inr a => f a end.

(** [sequence] at [Either]: all the scopes are read, and the first error counts. *)
Definition loadDataCatalogFor (w : data_world) (cwd : text)
    : text + list (Z * list CatalogObject) :=
  match dw_setup w cwd with
  | Some err => inl err
  | None =>
      user ← listDatabaseObjects w cwd DatabaseUserScope;
      repository ← listDatabaseObjects w cwd DatabaseRepositoryScope;
      checkout ← listDatabaseObjects w cwd DatabaseCheckoutScope;
      inr [(0, user); (1, repository); (2, checkout)]
  end.

Definition lookup_field (fields : list (text * json)) (name : text) : json :=
  match find (fun f => bool_decide (fst f = name)) fields with Some (_, v) => v | None => Null end.

Fixpoint decodeBrowseRows (columns : list CatalogColumn) (values : list json)
    : text + list (list json) :=
  match values with
  | [] => inr []
  | Object_ fields _ :: values =>
      rows ← decodeBrowseRows columns values;
      inr (map (fun c => lookup_field fields (columnName c)) columns :: rows)
  | _ :: _ => inl (txt "database rows did not have the expected shape")
  end.

Definition no_table : text := txt "the selected data table no longer exists".

Definition loadDatabaseRows (w : data_world) (cwd : text) (s : CustomDatabaseScope)
    (objectName : text) (offset limit : Z) : text + DatabaseBrowsePage :=
  if offset <? 0 then inl (txt "data preview offset must not be negative")
  else if (limit <=? 0) || (500 <? limit) then
    inl (txt "data page size must be between 1 and 500")
  else
    match dw_inspect w cwd s with
    | inl err => inl err
    | inr None => inl no_table
    | inr (Some catalog) =>
        match find (fun o => bool_decide (catalogObjectName o = objectName /\ catalogObjectKind o ∈
                       map txt ["table"; "partitioned_table"; "view"; "materialized_view"]%string))
                catalog with
        | None => inl no_table
        | Some object =>
            result ← dw_query w cwd s objectName (limit + 1) offset;
            rows ← decodeBrowseRows (definitionColumns object) (fst result);
            inr (Build_DatabaseBrowsePage (ztake limit rows) (snd result || (limit <? zlen rows)))
        end
    end.

Definition loadDataPageFor (w : data_world) (cwd : text) (s : CustomDatabaseScope)
    (objectName : text) (offset limit : Z) : text + DatabaseBrowsePage :=
  match dw_setup w cwd with
  | Some err => inl err
  | None => loadDatabaseRows w cwd s objectName offset limit
  end.

(** ** The callbacks *)

Definition optional_text (o : option text) : callback_text := Some (default [] o).

Definition dataObjectKind (kind : text) : Z :=
  if bool_decide (kind = txt "view") then 1
  else if bool_decide (kind = txt "materialized_view") then 1
  else 0.

Definition emitDataCatalogObject (scope : Z) (o : CatalogObject) : list catalog_event :=
  let kind := dataObjectKind (catalogObjectKind o) in
  Build_catalog_event 0 scope kind (Some (catalogObjectName o)) (optional_text (definitionComment o))
    None None 0 None None
  :: map (fun c =>
       Build_catalog_event 1 scope kind (Some (catalogObjectName o)) None
         (Some (columnName c)) (Some (columnType c)) (if columnNullable c then 1 else 0)
         (optional_text (columnComment c)) None) (definitionColumns o).

Definition dataCatalogTerminal (status : Z) (error : callback_text) : catalog_event :=
  Build_catalog_event status 0 0 None None None None 0 None error.

Definition catalog_events (w : data_world) (cwd : lazy text) : list catalog_event :=
  match cwd with
  | None => [dataCatalogTerminal (-1) (Some (dw_decode_error w))]
  | Some cwd =>
      match loadDataCatalogFor w cwd with
      | inl err => [dataCatalogTerminal (-1) (Some err)]
      | inr scopedObjects =>
          flat_map (fun so => flat_map (emitDataCatalogObject (fst so)) (snd so)) scopedObjects
          ++ [dataCatalogTerminal 2 None]
      end
  end.

(** [withDataValue]. *)
Definition data_value (v : json) : Z * callback_text :=
  match v with
  | Null => (0, None)
  | String_ s => (1, Some s)
  | Number encoded => (2, Some encoded)
  | Bool true => (3, Some (txt "true"))
  | Bool false => (3, Some (txt "false"))
  | Array encoded | Object_ _ encoded => (4, Some encoded)
  end.

Definition dataRowsTerminal (status offset rowCount : Z) (hasMore : bool) (error : callback_text)
    : rows_event :=
  Build_rows_event status offset (-1) (-1) (-1) None rowCount (if hasMore then 1 else 0) error.

(** The callbacks of one row, from a column on: [zip [0 ..] row]. *)
Fixpoint row_events (offset rowIndex column : Z) (row : list json) : list rows_event :=
  match row with
  | [] => []
  | v :: row =>
      let '(kind, bytes) := data_value v in
      Build_rows_event 0 offset rowIndex (i32 column) kind bytes 0 0 None
      :: row_events offset rowIndex (column + 1) row
  end.

Fixpoint page_events (offset rowIndex : Z) (rows : list (list json)) : list rows_event :=
  match rows with
  | [] => []
  | row :: rows => row_events offset rowIndex 0 row ++ page_events offset (rowIndex + 1) rows
  end.

Definition data_rows_events (w : data_world) (cwd : lazy text) (s : CustomDatabaseScope)
    (objectName : text) (offset limit : Z) : list rows_event :=
  match cwd with
  | None => [dataRowsTerminal (-1) offset 0 false (Some (dw_decode_error w))]
  | Some cwd =>
      match loadDataPageFor w cwd s objectName offset limit with
      | inl err => [dataRowsTerminal (-1) offset 0 false (Some err)]
      | inr page =>
          page_events offset 0 (databaseBrowseRows page)
          ++ [dataRowsTerminal 1 offset (zlen (databaseBrowseRows page))
                (databaseBrowseHasMore page) None]
      end
  end.

(** ** The entries, proved *)

(** Under the host's bargain the two entries return the status of the header or accept the
    request that their arguments describe; except that an object name that is not UTF-8, where
    every other argument is valid, is an exception in the calling thread and not a status. *)
Theorem data_entries_contract m c :
  data_lent m c ->
  run_data_call m c = if undecodable_name m c then threw else value (data_request_of m c).
Proof.
  intros Hl. destruct c as [cwd cb|cwd scope name offset limit cb]; cbn [run_data_call
    undecodable_name data_request_of data_lent] in *.
  - unfold ha_data_catalog_list. destruct (cb =? 0); [done|]. fold (invalid_pair cwd).
    destruct (invalid_pair cwd) eqn:E; [done|]. by rewrite decodeInput_value.
  - destruct Hl as [Hc Hn]. unfold ha_data_rows_load. destruct (cb =? 0); [done|]. cbn [negb andb].
    fold (invalid_pair cwd) (invalid_pair name).
    destruct (invalid_pair cwd) eqn:E1; [done|]. destruct (invalid_pair name) eqn:E2; [done|].
    cbn [negb andb orb]. change (dataScopeFromCode scope) with (data_scope scope).
    rewrite !decodeInput_value by done. cbn [mbind outcome_bind].
    destruct (Z.ltb_spec offset 0), (Z.leb_spec 0 offset); try lia.
    { rewrite andb_false_r. cbn [andb]. by destruct (data_scope scope), (argument_text m name) as [[]|]. }
    destruct (Z.ltb_spec limit 1), (Z.leb_spec 1 limit); try lia.
    { rewrite andb_false_r. cbn [andb orb].
      by destruct (data_scope scope), (argument_text m name) as [[]|]. }
    destruct (Z.ltb_spec 500 limit), (Z.leb_spec limit 500); try lia.
    { rewrite andb_false_r. cbn [andb orb].
      by destruct (data_scope scope), (argument_text m name) as [[]|]. }
    cbn [orb andb]. destruct (data_scope scope); [|done]. cbn [andb].
    by destruct (argument_text m name) as [[]|].
Qed.

(** ** What a host assembles *)

Record hosted_object := {
  ho_scope : Z;
  ho_kind : Z;
  ho_name : text;
  ho_comment : text;
  (** Name, type, whether it may be null, comment. *)
  ho_columns : list (text * text * Z * text);
}.

Definition add_column (o : hosted_object) (c : text * text * Z * text) : hosted_object :=
  Build_hosted_object (ho_scope o) (ho_kind o) (ho_name o) (ho_comment o) (ho_columns o ++ [c]).

(** A reader of the catalog: the objects so far, the last one first.  [None] is a sequence that
    the header rules out. *)
Fixpoint receive_catalog (seen : list hosted_object) (calls : list catalog_event)
    : option (text + list hosted_object) :=
  match calls with
  | [] => None
  | e :: calls =>
      if dc_status e =? HA_DATA_CATALOG_OBJECT then
        name ← dc_object_name e;
        receive_catalog
          (Build_hosted_object (dc_scope e) (dc_object_kind e) name
             (default [] (dc_object_comment e)) [] :: seen) calls
      else if dc_status e =? HA_DATA_CATALOG_COLUMN then
        match seen, dc_object_name e, dc_column_name e, dc_column_type e with
        | o :: seen, Some object, Some name, Some type =>
            if bool_decide (ho_name o = object /\ ho_scope o = dc_scope e) then
              receive_catalog
                (add_column o (name, type, dc_column_nullable e, default [] (dc_column_comment e)) :: seen)
                calls
            else None
        | _, _, _, _ => None
        end
      else if dc_status e =? HA_DATA_CATALOG_COMPLETE then
        match calls with [] => Some (inr (reverse seen)) | _ => None end
      else if dc_status e =? HA_DATA_CATALOG_ERROR then
        match calls, seen with [], [] => inl <$> dc_error e | _, _ => None end
      else None
  end.

(** What it should hold of an object. *)
Definition hosted (scope : Z) (o : CatalogObject) : hosted_object := {|
  ho_scope := scope;
  ho_kind := if decide (catalogObjectKind o = txt "view"
                        \/ catalogObjectKind o = txt "materialized_view")
             then HA_DATA_OBJECT_VIEW else HA_DATA_OBJECT_TABLE;
  ho_name := catalogObjectName o;
  ho_comment := default [] (definitionComment o);
  ho_columns := map (fun c => (columnName c, columnType c, if columnNullable c then 1 else 0,
                               default [] (columnComment c))) (definitionColumns o);
|}.

Lemma object_kind o scope : dataObjectKind (catalogObjectKind o) = ho_kind (hosted scope o).
Proof.
  unfold dataObjectKind, hosted. cbn [ho_kind].
  repeat case_bool_decide; case_decide; tauto || done.
Qed.

Lemma receive_columns o seen scope object kind (cols : list CatalogColumn) calls :
  ho_name o = object -> ho_scope o = scope ->
  receive_catalog (o :: seen)
    (map (fun c => Build_catalog_event 1 scope kind (Some object) None (Some (columnName c))
            (Some (columnType c)) (if columnNullable c then 1 else 0)
            (optional_text (columnComment c)) None) cols ++ calls)
  = receive_catalog
      (Build_hosted_object (ho_scope o) (ho_kind o) (ho_name o) (ho_comment o)
         (ho_columns o ++ map (fun c => (columnName c, columnType c,
            if columnNullable c then 1 else 0, default [] (columnComment c))) cols) :: seen) calls.
Proof.
  intros <- <-. revert o. induction cols as [|c cols IH]; intros o; cbn [map app].
  { rewrite app_nil_r. by destruct o. }
  cbn [receive_catalog dc_status dc_object_name dc_column_name dc_column_type dc_scope
       dc_column_nullable dc_column_comment].
  change (1 =? HA_DATA_CATALOG_OBJECT) with false. change (1 =? HA_DATA_CATALOG_COLUMN) with true.
  cbn match. rewrite bool_decide_eq_true_2 by done.
  rewrite (IH (add_column o _)). cbn [add_column ho_scope ho_kind ho_name ho_comment ho_columns].
  by rewrite <- app_assoc.
Qed.

Lemma receive_object seen scope o calls :
  receive_catalog seen (emitDataCatalogObject scope o ++ calls)
  = receive_catalog (hosted scope o :: seen) calls.
Proof.
  unfold emitDataCatalogObject. cbn [app receive_catalog dc_status dc_object_name].
  change (0 =? HA_DATA_CATALOG_OBJECT) with true. cbn match. cbn [mbind option_bind].
  rewrite receive_columns by done. cbn [ho_scope ho_kind ho_name ho_comment ho_columns dc_scope
    dc_object_kind dc_object_comment app]. by rewrite (object_kind o scope).
Qed.

Lemma receive_objects seen scope os calls :
  receive_catalog seen (flat_map (emitDataCatalogObject scope) os ++ calls)
  = receive_catalog (reverse (map (hosted scope) os) ++ seen) calls.
Proof.
  revert seen. induction os as [|o os IH]; intros seen; [done|]. cbn [flat_map map].
  rewrite <- app_assoc, receive_object, IH, reverse_cons, <- app_assoc. done.
Qed.

Lemma receive_scopes seen (sos : list (Z * list CatalogObject)) calls :
  receive_catalog seen
    (flat_map (fun so => flat_map (emitDataCatalogObject (fst so)) (snd so)) sos ++ calls)
  = receive_catalog (reverse (flat_map (fun so => map (hosted (fst so)) (snd so)) sos) ++ seen) calls.
Proof.
  revert seen. induction sos as [|[s os] sos IH]; intros seen; [done|]. cbn [flat_map fst snd].
  rewrite <- app_assoc, receive_objects, IH, reverse_app, <- app_assoc. done.
Qed.

(** The callbacks of a catalog are objects, each followed by its columns, and exactly one
    terminal callback, last; a host that reads them so has the tables and views of the three
    scopes with their columns, or the error. *)
Theorem data_catalog_conforms w cwd :
  receive_catalog [] (catalog_events w cwd) =
  Some (match cwd with
        | None => inl (dw_decode_error w)
        | Some cwd =>
            match loadDataCatalogFor w cwd with
            | inl err => inl err
            | inr found => inr (flat_map (fun so => map (hosted (fst so)) (snd so)) found)
            end
        end).
Proof.
  unfold catalog_events. destruct cwd as [cwd|]; [|done].
  destruct (loadDataCatalogFor w cwd) as [err|found]; [done|].
  rewrite receive_scopes, app_nil_r. cbn [receive_catalog dc_status dataCatalogTerminal].
  change (2 =? HA_DATA_CATALOG_OBJECT) with false. change (2 =? HA_DATA_CATALOG_COLUMN) with false.
  change (2 =? HA_DATA_CATALOG_COMPLETE) with true. cbn match. by rewrite reverse_involutive.
Qed.

(** ** Rows *)

(** What a host shows in a cell. *)
Inductive shown_value :=
  | ShownNull
  | ShownText (s : text)
  | ShownNumber (s : text)
  | ShownBoolean (b : bool)
  | ShownJson (s : text).

(** The value of a callback by the header: "Text is unquoted UTF-8; numbers use JSON number syntax;
    booleans are 'true' or 'false'; JSON arrays/objects are encoded as UTF-8 JSON; null has no value
    bytes." *)
Definition read_value (kind : Z) (bytes : callback_text) : option shown_value :=
  if kind =? HA_DATA_VALUE_NULL then match bytes with None => Some ShownNull | Some _ => None end
  else if kind =? HA_DATA_VALUE_TEXT then ShownText <$> bytes
  else if kind =? HA_DATA_VALUE_NUMBER then ShownNumber <$> bytes
  else if kind =? HA_DATA_VALUE_BOOLEAN then
    s ← bytes;
    if bool_decide (s = txt "true") then Some (ShownBoolean true)
    else if bool_decide (s = txt "false") then Some (ShownBoolean false)
    else None
  else if kind =? HA_DATA_VALUE_JSON then ShownJson <$> bytes
  else None.

(** A value callback for the page at an offset: its row, its column and its value. *)
Definition read_cell (offset : Z) (e : rows_event) : option (Z * Z * shown_value) :=
  if (dr_status e =? HA_DATA_ROWS_VALUE) && (dr_offset e =? offset) && bool_decide (dr_error e = None)
  then (fun v => (dr_row_index e, dr_column_index e, v)) <$> read_value (dr_value_kind e) (dr_value e)
  else None.

(** What is to be shown for a value of the database. *)
Definition shown (v : json) : shown_value :=
  match v with
  | Null => ShownNull
  | String_ s => ShownText s
  | Number encoded => ShownNumber encoded
  | Bool b => ShownBoolean b
  | Array encoded | Object_ _ encoded => ShownJson encoded
  end.

(** The cells of some rows, each once, row by row. *)
Definition page_cells (rows : list (list json)) : list (Z * Z * shown_value) :=
  concat (imap (fun i row => imap (fun j v => (Z.of_nat i, Z.of_nat j, shown v)) row) rows).

Lemma read_data_value v kind bytes : data_value v = (kind, bytes) -> read_value kind bytes = Some (shown v).
Proof. by destruct v as [| | |[]| |]; intros [= <- <-]. Qed.

Lemma read_row offset i (c : nat) row :
  zlen row + Z.of_nat c < 2 ^ 31 ->
  map (read_cell offset) (row_events offset (Z.of_nat i) (Z.of_nat c) row)
  = map Some (imap (fun j v => (Z.of_nat i, Z.of_nat (c + j), shown v)) row).
Proof.
  revert c. induction row as [|v row IH]; intros c Hl; [done|]. cbn [row_events].
  destruct (data_value v) as [kind bytes] eqn:Ev. cbn [imap map length] in *.
  rewrite i32_id by (unfold is_i32; lia).
  unfold read_cell at 1. cbn [dr_status dr_offset dr_error dr_row_index dr_column_index dr_value_kind dr_value].
  rewrite (read_data_value v kind bytes Ev), Z.eqb_refl. cbn.
  rewrite Nat.add_0_r. f_equal; [by rewrite Z.eqb_refl|].
  replace (Z.of_nat c + 1) with (Z.of_nat (S c)) by lia. rewrite IH by lia.
  f_equal. apply imap_ext. intros j x _. cbn. by rewrite Nat.add_succ_r.
Qed.

Lemma read_page offset (b : nat) rows :
  Forall (fun row => zlen row < 2 ^ 31) rows ->
  map (read_cell offset) (page_events offset (Z.of_nat b) rows)
  = map Some (concat (imap (fun i row =>
      imap (fun j v => (Z.of_nat (b + i), Z.of_nat j, shown v)) row) rows)).
Proof.
  intros Hw. revert b. induction Hw as [|row rows Hrow _ IH]; intros b; [done|].
  cbn [page_events imap concat]. rewrite !map_app.
  pose proof (read_row offset b 0 row ltac:(lia)) as Hr. change (Z.of_nat 0) with 0 in Hr.
  rewrite Hr, Nat.add_0_r. f_equal.
  replace (Z.of_nat b + 1) with (Z.of_nat (S b)) by lia. rewrite IH.
  do 2 f_equal. apply imap_ext. intros i x _. cbn. by rewrite Nat.add_succ_r.
Qed.

Lemma page_bounded w cwd s name offset limit page :
  loadDataPageFor w cwd s name offset limit = inr page ->
  zlen (databaseBrowseRows page) <= limit /\ 1 <= limit <= 500.
Proof.
  unfold loadDataPageFor, loadDatabaseRows. destruct (dw_setup w cwd); [done|].
  destruct (offset <? 0); [done|]. destruct (Z.leb_spec limit 0); [done|].
  destruct (Z.ltb_spec 500 limit); [done|]. cbn [orb].
  destruct (dw_inspect w cwd s) as [|[catalog|]]; try done. destruct (find _ catalog) as [object|]; [|done].
  destruct (dw_query w cwd s name (limit + 1) offset) as [|result]; [done|]. cbn [mbind found_bind].
  destruct (decodeBrowseRows _ _) as [|rows]; [done|]. cbn [mbind found_bind]. intros [= <-].
  cbn [databaseBrowseRows]. unfold ztake. rewrite length_take. lia.
Qed.

(** A row of an object of JSON: for each column the field of that name, or null. *)
Definition row_of (columns : list CatalogColumn) (v : json) (row : list json) : Prop :=
  exists fields encoded, v = Object_ fields encoded
    /\ Forall2 (fun c x => (columnName c, x) ∈ fields \/ x = Null /\ columnName c ∉ fields.*1) columns row.

(** The rows of a page and whether more remain, by what the database answered when it was asked for
    one row more than the page has. *)
Definition page_answer (w : data_world) (cwd : text) (s : CustomDatabaseScope) (name : text)
    (offset limit : Z) (columns : list CatalogColumn) (rows : list (list json)) (more : bool) : Prop :=
  exists catalog object values cut,
    dw_inspect w cwd s = inr (Some catalog) /\ object ∈ catalog
    /\ catalogObjectName object = name /\ columns = definitionColumns object
    /\ dw_query w cwd s name (limit + 1) offset = inr (values, cut)
    /\ Forall2 (row_of columns) (ztake limit values) rows
    /\ (more = true <-> cut = true \/ limit < zlen values).

Lemma lookup_field_spec fields name :
  (name, lookup_field fields name) ∈ fields \/ lookup_field fields name = Null /\ name ∉ fields.*1.
Proof.
  unfold lookup_field. destruct (find _ fields) as [[k v]|] eqn:E.
  - left. apply find_some in E as [Hin Hk]. apply bool_decide_eq_true in Hk. cbn in Hk. subst k.
    by apply list_elem_of_In.
  - right. split; [done|]. intros ([k v] & -> & Hin)%list_elem_of_fmap.
    apply list_elem_of_In in Hin. apply (find_none _ _ E) in Hin. by apply bool_decide_eq_false in Hin.
Qed.

Lemma browse_rows_decoded columns values rows :
  decodeBrowseRows columns values = inr rows -> Forall2 (row_of columns) values rows.
Proof.
  revert rows. induction values as [|v values IH]; intros rows; [by intros [= <-]|]. cbn [decodeBrowseRows].
  destruct v as [| | | | |fields encoded]; try done.
  destruct (decodeBrowseRows columns values) as [|rest] eqn:E; [done|]. cbn. intros [= <-].
  constructor; [|by apply IH]. exists fields, encoded. split; [done|].
  apply Forall2_fmap_r, Forall_Forall2_diag, Forall_true. intros c. apply lookup_field_spec.
Qed.

Lemma page_answered w cwd s name offset limit page :
  loadDataPageFor w cwd s name offset limit = inr page ->
  exists columns, page_answer w cwd s name offset limit columns
    (databaseBrowseRows page) (databaseBrowseHasMore page).
Proof.
  unfold loadDataPageFor, loadDatabaseRows. destruct (dw_setup w cwd); [done|].
  destruct (offset <? 0); [done|]. destruct (_ || _); [done|].
  destruct (dw_inspect w cwd s) as [|[catalog|]] eqn:Ei; try done.
  destruct (find _ catalog) as [object|] eqn:Ef; [|done].
  destruct (dw_query w cwd s name (limit + 1) offset) as [|[values cut]] eqn:Eq; [done|]. cbn [mbind found_bind fst snd].
  destruct (decodeBrowseRows _ _) as [|rows] eqn:E; [done|]. cbn [mbind found_bind]. intros [= <-].
  apply find_some in Ef as [Hin Hname%bool_decide_eq_true]. destruct Hname as [Hname _].
  apply browse_rows_decoded in E. exists (definitionColumns object), catalog, object, values, cut.
  cbn [databaseBrowseRows databaseBrowseHasMore].
  split_and!; [done|by apply list_elem_of_In|done..|by apply Forall2_take|].
  apply Forall2_length in E. rewrite <- E, orb_true_iff, Z.ltb_lt. done.
Qed.

(** C35: the callbacks of a page are the values of its cells and exactly one terminal callback,
    last.  On failure there is only the error.  On success a host that reads the values by the
    header has every cell of the rows once, row by row and in each row in the order of the columns,
    with its kind; the rows are those that the database answered, within the limit; and the
    terminal callback has the offset that was asked for, the number of rows, and whether there are
    more: of a table that does not change the page is the slice at the offset, and there are more
    exactly when it does not reach the end. *)
Theorem data_rows_conform w cwd s name offset limit :
  let calls := data_rows_events w cwd s name offset limit in
  match (match cwd with
         | None => inl (dw_decode_error w)
         | Some cwd => loadDataPageFor w cwd s name offset limit
         end) with
  | inl err =>
      calls = [Build_rows_event HA_DATA_ROWS_ERROR offset (-1) (-1) (-1) None 0 0 (Some err)]
  | inr page =>
      exists cwd' columns rows more values,
        cwd = Some cwd' /\ page_answer w cwd' s name offset limit columns rows more
        /\ calls = values ++ [Build_rows_event HA_DATA_ROWS_COMPLETE offset (-1) (-1) (-1) None
                                (zlen rows) (if more then 1 else 0) None]
        /\ zlen rows <= limit
        /\ (Forall (fun row => zlen row < 2 ^ 31) rows ->
             map (read_cell offset) values = map Some (page_cells rows))
        /\ (forall table, 0 <= offset ->
             dw_query w cwd' s name (limit + 1) offset = inr (ztake (limit + 1) (zdrop offset table), false) ->
             zlen rows = Z.min limit (Z.max 0 (zlen table - offset))
             /\ (more = true <-> offset + limit < zlen table)
             /\ Forall2 (row_of columns) (ztake limit (zdrop offset table)) rows)
  end.
Proof.
  cbv zeta. unfold data_rows_events. destruct cwd as [cwd|]; [|done].
  destruct (loadDataPageFor w cwd s name offset limit) as [err|page] eqn:E; [done|].
  destruct (page_answered _ _ _ _ _ _ _ E) as [columns Ha]. apply page_bounded in E as [Hl Hlim].
  exists cwd, columns, (databaseBrowseRows page), (databaseBrowseHasMore page),
    (page_events offset 0 (databaseBrowseRows page)).
  split_and!; [done|done|done|done|intros Hw; apply (read_page offset 0 _ Hw)|].
  intros table Ho Hq. destruct Ha as (catalog & object & values & cut & _ & _ & _ & _ & Hq' & Hd & Hm).
  rewrite Hq in Hq'. injection Hq' as <- <-.
  assert (Htake : ztake limit (ztake (limit + 1) (zdrop offset table)) = ztake limit (zdrop offset table)).
  { unfold ztake. rewrite take_take. f_equal. lia. }
  rewrite Htake in Hd. split_and!; [|rewrite Hm|done].
  - rewrite <- (Forall2_length _ _ _ Hd). unfold ztake, zdrop. rewrite length_take, length_drop. lia.
  - unfold ztake, zdrop. rewrite length_take, length_drop. split; [intros [?|?]; [done|lia]|right; lia].
Qed.

(** ** Examples *)

Definition demo_memory : memory := {[ 16 := utf8_encode (txt "notes"); 32 := [Byte.xff] ]}.

(** A load whose name is UTF-8, and one whose name is the byte 0xff. *)
Lemma data_entries_contract_witness :
  run_data_call demo_memory (data_rows_load (0, 0) 1 (16, 5) 0 500 4096)
    = value (inr (ask_rows (Some []) DatabaseRepositoryScope (txt "notes") 0 500))
  /\ run_data_call demo_memory (data_rows_load (0, 0) 1 (32, 1) 0 500 4096) = threw.
Proof.
  assert (H0 : lent demo_memory 0 0) by (split; [lia|done]).
  assert (H1 : lent demo_memory 16 5).
  { split; [lia|]. intros _. split; [lia|]. right. eexists. split; [reflexivity|by vm_compute]. }
  assert (H2 : lent demo_memory 32 1).
  { split; [lia|]. intros _. split; [lia|]. right. eexists. split; [reflexivity|by vm_compute]. }
  split.
  - etransitivity; [apply data_entries_contract; by split|]. vm_compute. reflexivity.
  - etransitivity; [apply data_entries_contract; by split|]. vm_compute. reflexivity.
Defined.
