(* ===== verification/InstalledSkills.v ===== *)
(** * Installed skills

    [ha_installed_skill_list] and [ha_installed_skill_read] of HaskellAgentBridge.h
    (InstalledSkills.hs): the catalog of the skills that are files.  What discovery finds is a
    parameter.  [installed_entries_contract]: the entries; [installed_skills_conform]: the
    callbacks of a list and of a read; [listed_skills_readable]: what a list shows can be read
    under the identity it shows, and nothing else can. *)

From stdpp Require Import base tactics option list gmap strings.
From Stdlib Require Import ZArith Lia.
From coqutil Require Import Byte.
From S2P Require Import Prelude Utf8 AbiLayout HostCall.
#[local] Open Scope Z_scope.

(** ** The header *)

(** One call of [ha_installed_skill_callback]. *)
Record installed_event := {
  is_status : Z;
  is_source : Z;
  is_identity : callback_text;
  is_name : callback_text;
  is_description : callback_text;
  is_instructions : callback_text;
  is_error : callback_text;
}.

(** A pointer and a length. *)
Abbreviation buffer := (Z * Z)%type.

Inductive installed_call :=
  | installed_skill_list (cwd : buffer) (callback : Z)
  | installed_skill_read (cwd identity : buffer) (callback : Z).

(** ** What discovery finds (agent-core/src/Agent/Skills.hs): the fields this part reads; paths
    as text *)

Inductive SkillScope :=
  | BuiltinSkill
  | UserSkill
  | RepositorySkill (skillDepth : Z) (skillAtCwd : bool).

Inductive SkillSource :=
  | FilesystemSkillSource (skillPath : text) (skillScope : SkillScope) (skillFileText : text)
  | McpSkillSource (skillMcpServer skillMcpUri : text).

Record Skill := { skillName : text; skillDescription : text; skillSource : SkillSource }.

Record SkillWarning := { skillWarningPath : text; skillWarningMessage : text }.

Record SkillCatalog := { catalogSkills : list Skill; catalogWarnings : list SkillWarning }.

(** ** The entries *)

(** A directory, and the identity that is read. *)
Abbreviation installed_request := (text * option text)%type.

Section Entries.
Context (m : memory).

Definition decodePath (f : buffer) : outcome (option text) :=
  let '(pointer, count) := f in
  if (pointer =? 0) || (count =? 0) || (32768 <? count) then value None
  else
    bytes ← packCStringLen m pointer count;
    value (match utf8_decode bytes with
           | Some s =>
               if bool_decide (head s = Some 47) && negb (existsb (Z.eqb 0) s) then Some s else None
           | None => None
           end).

Definition ha_installed_skill_list (cwd : buffer) (callback : Z) : outcome (Z + installed_request) :=
  if callback =? 0 then value (inl 1)
  else
    cwd ← decodePath cwd;
    value (match cwd with None => inl 2 | Some cwd => inr (cwd, None) end).

Definition ha_installed_skill_read (cwd identity : buffer) (callback : Z)
    : outcome (Z + installed_request) :=
  if callback =? 0 then value (inl 1)
  else
    cwd ← decodePath cwd;
    identity ← decodePath identity;
    value (match cwd, identity with
           | Some directory, Some selected => inr (directory, Some selected)
           | _, _ => inl 2
           end).

Definition run_installed_call (c : installed_call) : outcome (Z + installed_request) :=
  match c with
  | installed_skill_list cwd cb => ha_installed_skill_list cwd cb
  | installed_skill_read cwd identity cb => ha_installed_skill_read cwd identity cb
  end.

(** "cwd and identity must be absolute UTF-8 paths without NUL, 1..32768 bytes, and
    non-NULL." *)
Definition absolute_path (f : buffer) (s : text) : Prop :=
  fst f <> 0 /\ 1 <= snd f <= 32768
  /\ bytes_at m (fst f) (snd f) = utf8_encode s /\ Forall scalar s
  /\ head s = Some 47 /\ 0 ∉ s.

Definition path_lent (f : buffer) : Prop := lent m (fst f) (snd f).

(** "Return: 0 accepted, 1 missing callback, 2 invalid input." *)
Definition installed_contract (c : installed_call) (r : Z + installed_request) : Prop :=
  match c with
  | installed_skill_list cwd cb =>
      (cb = 0 /\ r = inl 1)
      \/ (cb <> 0 /\ (forall s, ~ absolute_path cwd s) /\ r = inl 2)
      \/ (cb <> 0 /\ exists s, absolute_path cwd s /\ r = inr (s, None))
  | installed_skill_read cwd identity cb =>
      (cb = 0 /\ r = inl 1)
      \/ (cb <> 0 /\ (forall s s', ~ (absolute_path cwd s /\ absolute_path identity s')) /\ r = inl 2)
      \/ (cb <> 0 /\ exists s s', absolute_path cwd s /\ absolute_path identity s'
                                 /\ r = inr (s, Some s'))
  end.

Definition installed_lent (c : installed_call) : Prop :=
  match c with
  | installed_skill_list cwd _ => path_lent cwd
  | installed_skill_read cwd identity _ => path_lent cwd /\ path_lent identity
  end.

Lemma no_zero s : existsb (Z.eqb 0) s = false <-> 0 ∉ s.
Proof.
  rewrite <- not_true_iff_false, existsb_exists. split.
  - intros H Hin. apply H. exists 0. split; [by apply list_elem_of_In|done].
  - intros H (x & Hx & E). apply Z.eqb_eq in E as <-. apply H. by apply list_elem_of_In.
Qed.

Lemma decodePath_value f :
  path_lent f ->
  exists o, decodePath f = value o
    /\ match o with Some s => absolute_path f s | None => forall s, ~ absolute_path f s end.
Proof.
  intros Hl. destruct f as [p n]. unfold path_lent in Hl. cbn [fst snd] in Hl. unfold decodePath.
  destruct (Z.eqb_spec p 0) as [->|Hp]; cbn [orb].
  { exists None. split; [done|]. by intros s [? _]. }
  destruct (Z.eqb_spec n 0) as [->|Hn]; cbn [orb].
  { exists None. split; [done|]. intros s (_ & H & _). cbn in H. lia. }
  destruct (Z.ltb_spec 32768 n) as [Hbig|Hsmall].
  { exists None. split; [done|]. intros s (_ & H & _). cbn in H. lia. }
  rewrite pack_lent; [|done|unfold null_with_bytes; by rewrite (proj2 (Z.eqb_neq p 0))].
  cbn [mbind outcome_bind]. eexists. split; [done|]. destruct Hl as [[Hn0 _] _].
  destruct (utf8_decode (bytes_at m p n)) as [s|] eqn:Ed.
  - pose proof (utf8_decode_sound _ _ Ed) as [Eb Hsc].
    assert (Huniq : forall s', absolute_path (p, n) s' -> s' = s).
    { intros s' (_ & _ & Hb & Hs' & _). cbn [fst snd] in Hb. rewrite Hb in Ed.
      rewrite utf8_roundtrip in Ed by done. congruence. }
    destruct (bool_decide_reflect (head s = Some 47)) as [Hh|Hh]; cbn [andb].
    + destruct (existsb (Z.eqb 0) s) eqn:Ez; cbn [negb].
      * intros s' H. pose proof (Huniq s' H) as ->. destruct H as (_ & _ & _ & _ & _ & H).
        apply no_zero in H. congruence.
      * apply no_zero in Ez. split; [done|]. repeat split; done || (cbn; lia).
    + intros s' H. pose proof (Huniq s' H) as ->. by destruct H as (_ & _ & _ & _ & ? & _).
  - intros s (_ & _ & Hb & Hs & _). cbn [fst snd] in Hb. rewrite Hb in Ed.
    by rewrite utf8_roundtrip in Ed.
Qed.

End Entries.

(** Under the host's bargain the entries return 1 for a missing callback, 2 exactly when an
    argument is not an absolute path of the header's kind, and otherwise accept the request for
    those paths. *)
Theorem installed_entries_contract m c :
  installed_lent m c ->
  exists r, run_installed_call m c = value r /\ installed_contract m c r.
Proof.
  intros Hl. destruct c as [cwd cb|cwd identity cb]; cbn [run_installed_call installed_contract
    installed_lent] in *.
  - unfold ha_installed_skill_list. destruct (Z.eqb_spec cb 0); [eexists; split; [done|by left]|].
    destruct (decodePath_value m cwd Hl) as (o & -> & Ho). cbn [mbind outcome_bind].
    eexists. split; [done|]. right. destruct o as [s|]; [right|left]; [|done]. split; [done|]. by exists s.
  - destruct Hl as [H1 H2]. unfold ha_installed_skill_read.
    destruct (Z.eqb_spec cb 0); [eexists; split; [done|by left]|].
    destruct (decodePath_value m cwd H1) as (o & -> & Ho). cbn [mbind outcome_bind].
    destruct (decodePath_value m identity H2) as (o' & -> & Ho'). cbn [mbind outcome_bind].
    eexists. split; [done|]. right. destruct o as [s|], o' as [s'|].
    + right. split; [done|]. by exists s, s'.
    + left. split; [done|]. split; [|done]. intros x x' [_ H]. by eapply Ho'.
    + left. split; [done|]. split; [|done]. intros x x' [H _]. by eapply Ho.
    + left. split; [done|]. split; [|done]. intros x x' [H _]. by eapply Ho.
Qed.

(** ** The worker *)

Definition skillIdentity (s : Skill) : option text :=
  match skillSource s with
  | FilesystemSkillSource path _ _ => Some path
  | McpSkillSource _ _ => None
  end.

Definition scopeValue (s : SkillScope) : Z :=
  match s with BuiltinSkill => 0 | UserSkill => 1 | RepositorySkill _ _ => 2 end.

Definition emitSkill (includeInstructions : bool) (s : Skill) : list installed_event :=
  match skillSource s with
  | McpSkillSource _ _ => []
  | FilesystemSkillSource path scope fileText =>
      [Build_installed_event 0 (scopeValue scope) (Some path) (Some (skillName s))
         (Some (skillDescription s)) (Some (if includeInstructions then fileText else [])) None]
  end.

Definition emitStatus (status : Z) (message : text) : installed_event :=
  Build_installed_event status (-1) None None None None (Some message).

Definition unavailable_message : text :=
  txt "Installed skill is no longer available in this workspace.".

(** [runCatalog], for what discovery gives: an exception, shown, or a catalog. *)
Definition runCatalog (selected : option text) (found : text + SkillCatalog) : list installed_event :=
  match found with
  | inl exception => [emitStatus (-1) exception]
  | inr catalog =>
      map (fun w => emitStatus 2 (skillWarningPath w ++ txt ": " ++ skillWarningMessage w))
        (catalogWarnings catalog)
      ++ match selected with
         | None => flat_map (emitSkill false) (catalogSkills catalog) ++ [emitStatus 1 []]
         | Some identity =>
             match find (fun s => bool_decide (skillIdentity s = Some identity)) (catalogSkills catalog) with
             | None => [emitStatus (-2) unavailable_message]
             | Some s => emitSkill true s ++ [emitStatus 1 []]
             end
         end
  end.

(** *** What the header says of the callbacks *)

(** "Status 0 is an item, 2 a nonterminal discovery warning (error text)."  "Source is -1 on
    non-item callbacks."  "List omits instructions." *)
Definition item_event (withInstructions : bool) (e : installed_event) : Prop :=
  is_status e = 0 /\ 0 <= is_source e <= 2
  /\ (exists identity, is_identity e = Some identity)
  /\ (exists name, is_name e = Some name)
  /\ (exists description, is_description e = Some description)
  /\ (withInstructions = false -> default [] (is_instructions e) = [])
  /\ default [] (is_error e) = [].

Definition status_event (status : Z) (e : installed_event) : Prop :=
  is_status e = status /\ is_source e = -1 /\ is_identity e = None /\ is_name e = None
  /\ is_description e = None /\ is_instructions e = None.

(** "Exactly one terminal callback (1 or negative)"; "a read emits one item on success followed
    by completion." *)
Definition installed_protocol (selected : option text) (calls : list installed_event) : Prop :=
  exists warnings items terminal,
    calls = warnings ++ items ++ [terminal]
    /\ Forall (status_event 2) warnings
    /\ Forall (item_event (match selected with Some _ => true | None => false end)) items
    /\ match selected with
       | None => status_event 1 terminal \/ status_event (-1) terminal /\ warnings = [] /\ items = []
       | Some identity =>
           (status_event 1 terminal /\ exists e, items = [e] /\ is_identity e = Some identity)
           \/ (status_event (-2) terminal /\ items = [])
           \/ (status_event (-1) terminal /\ warnings = [] /\ items = [])
       end.

Lemma emitted_items b s : Forall (item_event b) (emitSkill b s).
Proof.
  unfold emitSkill. destruct (skillSource s) as [path scope file|? ?]; [|done].
  constructor; [|done]. unfold item_event. cbn. split_and!; eauto; try (by destruct scope).
  by intros ->.
Qed.

Lemma warnings_ok l :
  Forall (status_event 2)
    (map (fun w => emitStatus 2 (skillWarningPath w ++ txt ": " ++ skillWarningMessage w)) l).
Proof. by induction l; constructor. Qed.

(** Whatever discovery finds, the callbacks are warnings, items and exactly one terminal
    callback: a list has items without instructions and completes, a read has the one item it
    asked for or says that there is none, and a failure has nothing but its error. *)
Theorem installed_skills_conform selected found : installed_protocol selected (runCatalog selected found).
Proof.
  unfold runCatalog. destruct found as [exception|catalog].
  { exists [], [], (emitStatus (-1) exception). split_and!; [done..|].
    destruct selected; [right|]; right; by split_and!. }
  destruct selected as [identity|].
  - destruct (find _ _) as [s|] eqn:E.
    + do 3 eexists. split; [reflexivity|]. split; [apply warnings_ok|]. split; [apply emitted_items|]. left. split; [done|].
      apply find_some in E as [_ E]. apply bool_decide_eq_true_1 in E. unfold emitSkill, skillIdentity in *.
      destruct (skillSource s) as [path scope file|? ?]; [|done]. injection E as ->. by eexists.
    + do 3 eexists. split; [exact (f_equal _ (eq_sym (app_nil_l [_])))|]. split; [apply warnings_ok|].
      split; [constructor|]. right. left. by split.
  - do 3 eexists. split; [reflexivity|]. split; [apply warnings_ok|]. split; [|by left].
    induction (catalogSkills catalog) as [|s l IH]; [done|]. cbn [flat_map]. apply Forall_app.
    split; [apply emitted_items|done].
Qed.

(** A read of the same catalog delivers the text of a skill exactly when a list shows its
    identity. *)
Theorem listed_skills_readable catalog identity :
  (exists e, e ∈ runCatalog None (inr catalog) /\ is_identity e = Some identity)
  <-> exists s scope fileText,
        s ∈ catalogSkills catalog /\ skillSource s = FilesystemSkillSource identity scope fileText
        /\ Build_installed_event 0 (scopeValue scope) (Some identity) (Some (skillName s))
             (Some (skillDescription s)) (Some fileText) None
           ∈ runCatalog (Some identity) (inr catalog).
Proof.
  unfold runCatalog. split.
  - intros (e & He & Hid). apply elem_of_app in He as [He|He].
    { apply list_elem_of_fmap in He as (w & -> & _). done. }
    apply elem_of_app in He as [He|He]; [|apply list_elem_of_singleton in He as ->; done].
    apply list_elem_of_In, in_flat_map in He as (s & Hs & He).
    destruct (find _ _) as [s'|] eqn:E.
    + apply find_some in E as [Hs' E]. apply bool_decide_eq_true_1 in E.
      unfold skillIdentity, emitSkill in *. destruct (skillSource s') as [path scope file|? ?] eqn:Es; [|done].
      injection E as ->. exists s', scope, file. split; [by apply list_elem_of_In|]. split; [done|].
      apply elem_of_app. right. apply elem_of_app. left. by apply list_elem_of_singleton.
    + exfalso. pose proof (find_none _ _ E s Hs) as Hno. cbn in Hno.
      apply bool_decide_eq_false_1 in Hno. apply Hno. unfold skillIdentity, emitSkill in *.
      destruct (skillSource s); [|done]. destruct He as [<-|[]]. done.
  - intros (s & scope & file & Hs & Hsrc & _).
    exists (Build_installed_event 0 (scopeValue scope) (Some identity) (Some (skillName s))
              (Some (skillDescription s)) (Some []) None). split; [|done].
    apply elem_of_app. right. apply elem_of_app. left. apply list_elem_of_In, in_flat_map.
    exists s. split; [by apply list_elem_of_In|]. unfold emitSkill. rewrite Hsrc. by left.
Qed.

(** ** An example *)

Definition demo_memory : memory := {[ 16 := utf8_encode (txt "/w"); 32 := utf8_encode (txt "w/S") ]}.

(** A read of an identity that is not absolute. *)
Lemma installed_entries_contract_witness :
  installed_lent demo_memory (installed_skill_read (16, 2) (32, 3) 4096)
  /\ run_installed_call demo_memory (installed_skill_read (16, 2) (32, 3) 4096) = value (inl 2).
Proof.
  assert (H : installed_lent demo_memory (installed_skill_read (16, 2) (32, 3) 4096)).
  { split; (split; [cbn; lia|]); intros _; (split; [cbn; lia|]); right; eexists;
      (split; [reflexivity|by vm_compute]). }
  split; [exact H|]. destruct (installed_entries_contract _ _ H) as (r & Hr & _).
  revert Hr. vm_compute. done.
Defined.
