(* ===== verification/BrowserAbi.v ===== *)
(** * The browser bridge: requests to the host

    The runtime asks a host application to drive a browser through [ha_browser_request]
    (HaskellAgentBridge.h).  This file has the header's enumerations, limits and structure,
    the tool layer that validates what the model asked for (BrowserTools.hs), the code that
    marshals a command into the structure (BrowserBridge.hs) and, from the header's
    contract, the reading of a request by a host that rejects everything the contract
    rejects.  [browser_request_conforms]: such a host accepts every request sent and reads
    back the identifiers and the command that the tool layer built. *)

From stdpp Require Import base tactics option list gmap strings.
From Stdlib Require Import ZArith Lia.
From coqutil Require Import Byte Word.LittleEndianList.
From S2P Require Import Prelude Utf8 AbiLayout.
#[local] Open Scope Z_scope.

(** ** The header *)

Inductive ha_browser_command :=
  | HA_BROWSER_NAVIGATE
  | HA_BROWSER_SNAPSHOT
  | HA_BROWSER_CLICK
  | HA_BROWSER_TYPE
  | HA_BROWSER_BACK
  | HA_BROWSER_FORWARD
  | HA_BROWSER_RELOAD
  | HA_BROWSER_KEY
  | HA_BROWSER_SCROLL
  | HA_BROWSER_SCREENSHOT
  | HA_BROWSER_LIST_TABS
  | HA_BROWSER_SWITCH_TAB
  | HA_BROWSER_LIST_DOWNLOADS.

(** The enumerators by value; [None] is an unknown command. *)
Definition ha_browser_command_of (z : Z) : option ha_browser_command :=
  match z with
  | 1 => Some HA_BROWSER_NAVIGATE
  | 2 => Some HA_BROWSER_SNAPSHOT
  | 3 => Some HA_BROWSER_CLICK
  | 4 => Some HA_BROWSER_TYPE
  | 5 => Some HA_BROWSER_BACK
  | 6 => Some HA_BROWSER_FORWARD
  | 7 => Some HA_BROWSER_RELOAD
  | 8 => Some HA_BROWSER_KEY
  | 9 => Some HA_BROWSER_SCROLL
  | 10 => Some HA_BROWSER_SCREENSHOT
  | 11 => Some HA_BROWSER_LIST_TABS
  | 12 => Some HA_BROWSER_SWITCH_TAB
  | 13 => Some HA_BROWSER_LIST_DOWNLOADS
  | _ => None
  end.

Definition HA_BROWSER_TYPE_SUBMIT : Z := 1.

Inductive ha_browser_limit :=
  | HA_BROWSER_URL_MAX_BYTES
  | HA_BROWSER_REF_MAX_BYTES
  | HA_BROWSER_TEXT_MAX_BYTES
  | HA_BROWSER_KEY_MAX_BYTES
  | HA_BROWSER_TAB_ID_MAX_BYTES
  | HA_BROWSER_SCOPE_ID_MAX_BYTES
  | HA_BROWSER_CALL_ID_MAX_BYTES
  | HA_BROWSER_SCROLL_MAX_ABS_DELTA
  | HA_BROWSER_TEXT_RESULT_MAX_BYTES
  | HA_BROWSER_IMAGE_RESULT_MAX_BYTES
  | HA_BROWSER_IMAGE_MAX_DIMENSION
  | HA_BROWSER_PNG_MAX_DIMENSION
  | HA_BROWSER_PNG_MAX_PIXELS
  | HA_BROWSER_REQUEST_STRUCT_SIZE
  | HA_BROWSER_RESULT_STRUCT_SIZE.

Definition ha_browser_limit_value (l : ha_browser_limit) : Z :=
  match l with
  | HA_BROWSER_URL_MAX_BYTES => 8192
  | HA_BROWSER_REF_MAX_BYTES => 4096
  | HA_BROWSER_TEXT_MAX_BYTES => 65536
  | HA_BROWSER_KEY_MAX_BYTES => 128
  | HA_BROWSER_TAB_ID_MAX_BYTES => 512
  | HA_BROWSER_SCOPE_ID_MAX_BYTES => 1024
  | HA_BROWSER_CALL_ID_MAX_BYTES => 1024
  | HA_BROWSER_SCROLL_MAX_ABS_DELTA => 10000
  | HA_BROWSER_TEXT_RESULT_MAX_BYTES => 262144
  | HA_BROWSER_IMAGE_RESULT_MAX_BYTES => 16777216
  | HA_BROWSER_IMAGE_MAX_DIMENSION => 100000
  | HA_BROWSER_PNG_MAX_DIMENSION => 16384
  | HA_BROWSER_PNG_MAX_PIXELS => 67108864
  | HA_BROWSER_REQUEST_STRUCT_SIZE => 96
  | HA_BROWSER_RESULT_STRUCT_SIZE => 56
  end.

Coercion ha_browser_limit_value : ha_browser_limit >-> Z.

(** The declaration of [ha_browser_request], field by field. *)
Definition ha_browser_request_fields : list (string * ctype) :=
  [ ("struct_size", c_uint32);
    ("command", c_int32);
    ("flags", c_int32);
    ("reserved", c_int32);
    ("scroll_delta_x", c_double);
    ("scroll_delta_y", c_double);
    ("scope_id", c_pointer);
    ("scope_id_length", c_size);
    ("call_id", c_pointer);
    ("call_id_length", c_size);
    ("argument1", c_pointer);
    ("argument1_length", c_size);
    ("argument2", c_pointer);
    ("argument2_length", c_size) ]%string.

(** ** The tool layer *)

Inductive BrowserCommand :=
  | BrowserNavigate (url : text)
  | BrowserSnapshot
  | BrowserClick (ref_ : text)
  | BrowserType (ref_ text_ : text) (submit : bool)
  | BrowserKey (key : text)
  | BrowserScroll (delta_x delta_y : Z)
  | BrowserBack
  | BrowserForward
  | BrowserReload
  | BrowserScreenshot
  | BrowserListTabs
  | BrowserSwitchTab (tab_id : text)
  | BrowserListDownloads.

#[export] Instance BrowserCommand_eq_dec : EqDecision BrowserCommand.
Proof. solve_decision. Defined.

Record BrowserInvocation := {
  browserScopeId : text;
  browserCallId : text;
  browserCommand : BrowserCommand;
}.

(** A tool call with its JSON arguments read as text, booleans and binary64 numbers. *)
Inductive browser_call :=
  | browser_navigate (url : text)
  | browser_snapshot
  | browser_click (ref_ : text)
  | browser_type (ref_ text_ : text) (submit : option bool)
  | browser_key (key : text)
  | browser_scroll (delta_x delta_y : Z)
  | browser_back
  | browser_forward
  | browser_reload
  | browser_screenshot
  | browser_list_tabs
  | browser_switch_tab (tab_id : text)
  | browser_list_downloads.

Definition maxUrlBytes : Z := 8192.
Definition maxRefBytes : Z := 4096.
Definition maxTextBytes : Z := 64 * 1024.
Definition maxKeyBytes : Z := 128.
Definition maxTabIdBytes : Z := 512.
Definition maxScrollDelta : Z := 10000.

(** [Data.Char.isSpace]. *)
Definition isSpace (c : Z) : bool :=
  existsb (Z.eqb c)
    [32; 9; 10; 11; 12; 13; 160; 5760; 8192; 8193; 8194; 8195; 8196; 8197; 8198; 8199;
     8200; 8201; 8202; 8239; 8287; 12288].

Fixpoint drop_while {A} (f : A -> bool) (l : list A) : list A :=
  match l with
  | [] => []
  | a :: l' => if f a then drop_while f l' else l
  end.

(** [Text.strip]. *)
Definition strip (s : text) : text :=
  rev (drop_while isSpace (rev (drop_while isSpace s))).

(** [sum]-valued decoders: the left side is the message reported to the model. *)
Definition checked {A B} (x : text + A) (k : A -> text + B) : text + B :=
  match x with inl e => inl e | inr a => k a end.

Notation "x <- m ;; k" := (checked m (fun x => k))
  (at level 100, m at next level, right associativity) : agent_scope.

Definition validateByteLength (name : text) (limit : Z) (value : text) : text + text :=
  if limit <? zlen (utf8_encode value)
  then inl (name ++ txt " must not exceed " ++ show_text limit ++ txt " UTF-8 bytes")
  else inr value.

Definition validateNonBlank (name : text) (limit : Z) (value : text) : text + text :=
  match strip value with
  | [] => inl (name ++ txt " must not be empty")
  | _ => validateByteLength name limit value
  end.

(** What [Network.URI.parseURI] returns, as far as the code looks at it. *)
Record URIAuth := { uriUserInfo : text; uriRegName : text }.
Record URI := { uriScheme : text; uriAuthority : option URIAuth }.

Section BrowserRequests.

Context (parseURI : text -> option URI) (toCaseFold : text -> text).

(** An [http:] or [https:] scheme, whatever its case. *)
Definition http_scheme (uri : URI) : bool :=
  existsb (fun s => bool_decide (toCaseFold (uriScheme uri) = s)) [txt "http:"; txt "https:"].

Definition validateHttpUrl (value : text) : text + text :=
  let invalid := inl (txt "url must be an absolute HTTP or HTTPS URL") in
  url <- validateNonBlank (txt "url") maxUrlBytes value;;
  if negb (bool_decide (strip url = url)) then invalid
  else match parseURI url with
       | Some uri =>
           match uriAuthority uri with
           | Some authority =>
               if http_scheme uri && negb (bool_decide (uriRegName authority = [])) then
                 if bool_decide (uriUserInfo authority = []) then inr url
                 else inl (txt "url must not contain embedded credentials")
               else invalid
           | None => invalid
           end
       | None => invalid
       end.

Definition requiredFiniteNumber (name : text) (value : Z) : text + Z :=
  let d := double_of_bits value in
  if is_nan d || is_infinite d then inl (name ++ txt " must be a finite number") else inr value.

Definition scrollArgs (x y : Z) : text + BrowserCommand :=
  dx <- requiredFiniteNumber (txt "delta_x") x;;
  dy <- requiredFiniteNumber (txt "delta_y") y;;
  if abs_exceeds (double_of_bits dx) maxScrollDelta
     || abs_exceeds (double_of_bits dy) maxScrollDelta
  then inl (txt "delta_x and delta_y must be between -10000 and 10000")
  else if is_zero (double_of_bits dx) && is_zero (double_of_bits dy)
  then inl (txt "at least one of delta_x and delta_y must be nonzero")
  else inr (BrowserScroll dx dy).

(** [browserTools]: the decoder of each tool, and the command it becomes. *)
Definition browserTools (call : browser_call) : text + BrowserCommand :=
  match call with
  | browser_navigate url => url <- validateHttpUrl url;; inr (BrowserNavigate url)
  | browser_snapshot => inr BrowserSnapshot
  | browser_click r => r <- validateNonBlank (txt "ref") maxRefBytes r;; inr (BrowserClick r)
  | browser_type r t submit =>
      r <- validateNonBlank (txt "ref") maxRefBytes r;;
      t <- validateByteLength (txt "text") maxTextBytes t;;
      inr (BrowserType r t (default false submit))
  | browser_key k => k <- validateNonBlank (txt "key") maxKeyBytes k;; inr (BrowserKey k)
  | browser_scroll x y => scrollArgs x y
  | browser_back => inr BrowserBack
  | browser_forward => inr BrowserForward
  | browser_reload => inr BrowserReload
  | browser_screenshot => inr BrowserScreenshot
  | browser_list_tabs => inr BrowserListTabs
  | browser_switch_tab t =>
      t <- validateNonBlank (txt "tab_id") maxTabIdBytes t;; inr (BrowserSwitchTab t)
  | browser_list_downloads => inr BrowserListDownloads
  end.

(** ** Marshalling *)

(** [browserCommandABI]: code, both arguments, both deltas (as bit patterns), flags. *)
Definition browserCommandABI (c : BrowserCommand) : Z * text * text * Z * Z * Z :=
  match c with
  | BrowserNavigate url => (1, url, [], 0, 0, 0)
  | BrowserSnapshot => (2, [], [], 0, 0, 0)
  | BrowserClick r => (3, r, [], 0, 0, 0)
  | BrowserType r t submit => (4, r, t, 0, 0, if submit then 1 else 0)
  | BrowserBack => (5, [], [], 0, 0, 0)
  | BrowserForward => (6, [], [], 0, 0, 0)
  | BrowserReload => (7, [], [], 0, 0, 0)
  | BrowserKey k => (8, k, [], 0, 0, 0)
  | BrowserScroll x y => (9, [], [], x, y, 0)
  | BrowserScreenshot => (10, [], [], 0, 0, 0)
  | BrowserListTabs => (11, [], [], 0, 0, 0)
  | BrowserSwitchTab t => (12, t, [], 0, 0, 0)
  | BrowserListDownloads => (13, [], [], 0, 0, 0)
  end.

Definition browserRequestStructSize : Z := 96.
Definition browserScopeIdMaxBytes : Z := 1024.
Definition browserCallIdMaxBytes : Z := 1024.

Definition validBrowserIdentifier (limit : Z) (value : text) : bool :=
  match value with
  | [] => false
  | _ => zlen (utf8_encode value) <=? limit
  end.

(** A borrowed slice in a memory that grew by its block. *)
Definition borrowed : Type := memory * (Z * Z).

(** [withTextBytes]: a fresh block at [p] lent to the action. *)
Definition withTextBytes (p : Z) (value : text) (m : memory) : borrowed :=
  let bs := utf8_encode value in (<[p := bs]> m, (p, zlen bs)).

Definition withBrowserTextBytes (p : Z) (value : text) (m : memory) : borrowed :=
  match value with
  | [] => (m, (0, 0))
  | _ => withTextBytes p value m
  end.

(** The addresses that the allocator picks for the four text blocks. *)
Record addresses := { p_scope : Z; p_call : Z; p_argument1 : Z; p_argument2 : Z }.

(** The structure at [request], field by field at the offsets of the source. *)
Definition poke_request (code flags dx dy : Z) (scope call a1 a2 : Z * Z) : list byte :=
  pokes
    [ (4, 0, browserRequestStructSize);
      (4, 4, code);
      (4, 8, flags);
      (8, 16, dx);
      (8, 24, dy);
      (8, 32, fst scope);
      (8, 40, snd scope);
      (8, 48, fst call);
      (8, 56, snd call);
      (8, 64, fst a1);
      (8, 72, snd a1);
      (8, 80, fst a2);
      (8, 88, snd a2) ]
    (zeroed browserRequestStructSize).

(** [invokeBrowserCommand] up to the callback: what the host is given, or the message
    when an identifier is refused. *)
Definition invoke_request (at_ : addresses) (invocation : BrowserInvocation)
    : text + memory * list byte :=
  let '(code, argument1, argument2, dx, dy, flags) :=
    browserCommandABI (browserCommand invocation) in
  if negb (validBrowserIdentifier browserScopeIdMaxBytes (browserScopeId invocation))
     || negb (validBrowserIdentifier browserCallIdMaxBytes (browserCallId invocation))
  then inl (txt "The browser scope or tool-call identifier is invalid.")
  else
    let '(m, scope) := withTextBytes (p_scope at_) (browserScopeId invocation) ∅ in
    let '(m, call) := withTextBytes (p_call at_) (browserCallId invocation) m in
    let '(m, a1) := withBrowserTextBytes (p_argument1 at_) argument1 m in
    let '(m, a2) := withBrowserTextBytes (p_argument2 at_) argument2 m in
    inr (m, poke_request code flags dx dy scope call a1 a2).

(** ** The host's side of the contract *)

(** [*request], read as the declared structure. *)
Record ha_browser_request := {
  request_struct_size : Z;
  request_command : Z;
  request_flags : Z;
  request_reserved : Z;
  request_scroll_delta_x : Z;
  request_scroll_delta_y : Z;
  request_scope_id : Z;
  request_scope_id_length : Z;
  request_call_id : Z;
  request_call_id_length : Z;
  request_argument1 : Z;
  request_argument1_length : Z;
  request_argument2 : Z;
  request_argument2_length : Z;
}.

Definition load_ha_browser_request (buf : list byte) : option ha_browser_request :=
  let field := fun f => load_field ha_browser_request_fields f buf in
  sz ← field "struct_size"%string;
  command ← field "command"%string;
  flags ← field "flags"%string;
  reserved ← field "reserved"%string;
  dx ← field "scroll_delta_x"%string;
  dy ← field "scroll_delta_y"%string;
  scope ← field "scope_id"%string;
  scope_len ← field "scope_id_length"%string;
  call ← field "call_id"%string;
  call_len ← field "call_id_length"%string;
  a1 ← field "argument1"%string;
  a1_len ← field "argument1_length"%string;
  a2 ← field "argument2"%string;
  a2_len ← field "argument2_length"%string;
  Some (Build_ha_browser_request sz command flags reserved dx dy
          scope scope_len call call_len a1 a1_len a2 a2_len).

(** "an absolute HTTP(S) URL without userinfo" *)
Definition http_url (s : text) : bool :=
  match parseURI s with
  | Some uri =>
      http_scheme uri &&
      match uriAuthority uri with
      | Some authority => bool_decide (uriUserInfo authority = [])
      | None => false
      end
  | None => false
  end.

(** A nonempty text argument of at most [limit] bytes. *)
Definition bounded_argument (limit : Z) (s : text) : bool :=
  negb (bool_decide (s = [])) && (zlen (utf8_encode s) <=? limit).

Definition scroll_delta_ok (d : double) : bool :=
  negb (is_nan d || is_infinite d) && negb (abs_exceeds d HA_BROWSER_SCROLL_MAX_ABS_DELTA).

(** The typed fields of each command; anything else is an invalid argument. *)
Definition host_command (c : ha_browser_command) (a1 a2 : text) (dx dy flags : Z)
    : option BrowserCommand :=
  let zero := fun d => is_zero (double_of_bits d) in
  let no_argument1 := bool_decide (a1 = []) in
  let no_argument2 := bool_decide (a2 = []) in
  let no_scroll := zero dx && zero dy in
  let no_flags := flags =? 0 in
  let plain := fun cmd =>
    if no_argument1 && no_argument2 && no_scroll && no_flags then Some cmd else None in
  let with_argument1 := fun ok cmd =>
    if ok && no_argument2 && no_scroll && no_flags then Some cmd else None in
  match c with
  | HA_BROWSER_NAVIGATE =>
      with_argument1 (bounded_argument HA_BROWSER_URL_MAX_BYTES a1 && http_url a1)
        (BrowserNavigate a1)
  | HA_BROWSER_SNAPSHOT => plain BrowserSnapshot
  | HA_BROWSER_CLICK =>
      with_argument1 (bounded_argument HA_BROWSER_REF_MAX_BYTES a1) (BrowserClick a1)
  | HA_BROWSER_TYPE =>
      if bounded_argument HA_BROWSER_REF_MAX_BYTES a1
         && (zlen (utf8_encode a2) <=? HA_BROWSER_TEXT_MAX_BYTES)
         && no_scroll && (Z.land flags (Z.lnot HA_BROWSER_TYPE_SUBMIT) =? 0)
      then Some (BrowserType a1 a2 (negb (Z.land flags HA_BROWSER_TYPE_SUBMIT =? 0)))
      else None
  | HA_BROWSER_KEY =>
      with_argument1 (bounded_argument HA_BROWSER_KEY_MAX_BYTES a1) (BrowserKey a1)
  | HA_BROWSER_SCROLL =>
      if no_argument1 && no_argument2 && no_flags
         && scroll_delta_ok (double_of_bits dx) && scroll_delta_ok (double_of_bits dy)
         && negb no_scroll
      then Some (BrowserScroll dx dy) else None
  | HA_BROWSER_SWITCH_TAB =>
      with_argument1 (bounded_argument HA_BROWSER_TAB_ID_MAX_BYTES a1) (BrowserSwitchTab a1)
  | HA_BROWSER_BACK => plain BrowserBack
  | HA_BROWSER_FORWARD => plain BrowserForward
  | HA_BROWSER_RELOAD => plain BrowserReload
  | HA_BROWSER_SCREENSHOT => plain BrowserScreenshot
  | HA_BROWSER_LIST_TABS => plain BrowserListTabs
  | HA_BROWSER_LIST_DOWNLOADS => plain BrowserListDownloads
  end.

Definition slice_text (m : memory) (p len : Z) : option text :=
  slice m p len ≫= utf8_decode.

(** A host that enforces the contract: the invocation it understands, or [None] for
    [HA_BROWSER_STATUS_INVALID_ARGUMENT]. *)
Definition host_request (m : memory) (buf : list byte) : option BrowserInvocation :=
  r ← load_ha_browser_request buf;
  if negb ((request_struct_size r =? HA_BROWSER_REQUEST_STRUCT_SIZE)
           && (request_reserved r =? 0)) then None
  else
    scope ← slice_text m (request_scope_id r) (request_scope_id_length r);
    call ← slice_text m (request_call_id r) (request_call_id_length r);
    a1 ← slice_text m (request_argument1 r) (request_argument1_length r);
    a2 ← slice_text m (request_argument2 r) (request_argument2_length r);
    if negb (bounded_argument HA_BROWSER_SCOPE_ID_MAX_BYTES scope
             && bounded_argument HA_BROWSER_CALL_ID_MAX_BYTES call) then None
    else
      c ← ha_browser_command_of (request_command r);
      cmd ← host_command c a1 a2 (request_scroll_delta_x r) (request_scroll_delta_y r)
              (request_flags r);
      Some (Build_BrowserInvocation scope call cmd).


(** ** Every request sent satisfies the contract *)

(** What the source's types promise of a tool call: [Text] holds scalar values only, a
    [Double] is 64 bits. *)
Definition is_text (s : text) : Prop := Forall scalar s.
Definition is_bits (b : Z) : Prop := 0 <= b < 2 ^ 64.

Definition browser_call_ok (call : browser_call) : Prop :=
  match call with
  | browser_navigate s | browser_click s | browser_key s | browser_switch_tab s => is_text s
  | browser_type r t _ => is_text r /\ is_text t
  | browser_scroll x y => is_bits x /\ is_bits y
  | _ => True
  end.

Lemma checked_inr {A B} (x : text + A) (k : A -> text + B) b :
  checked x k = inr b -> exists a, x = inr a /\ k a = inr b.
Proof. destruct x as [e|a]; [done|]. intros H. by exists a. Qed.

Lemma validateByteLength_inr name limit v u :
  validateByteLength name limit v = inr u -> u = v /\ zlen (utf8_encode v) <= limit.
Proof.
  unfold validateByteLength. destruct (Z.ltb_spec limit (zlen (utf8_encode v))); [done|].
  intros [= ->]. split; [done|lia].
Qed.

Lemma validateNonBlank_inr name limit v u :
  validateNonBlank name limit v = inr u -> u = v /\ bounded_argument limit v = true.
Proof.
  unfold validateNonBlank, bounded_argument. destruct (strip v) eqn:E; [done|].
  intros [-> H]%validateByteLength_inr. split; [done|].
  apply andb_true_intro. split; [|lia].
  rewrite bool_decide_false; [done|]. intros ->. done.
Qed.

Lemma validateHttpUrl_inr v u :
  validateHttpUrl v = inr u ->
  u = v /\ bounded_argument HA_BROWSER_URL_MAX_BYTES v = true /\ http_url v = true.
Proof.
  unfold validateHttpUrl, http_url.
  intros (u' & [-> Hb]%validateNonBlank_inr & H)%checked_inr.
  destruct (bool_decide (strip v = v)); [|done]. cbn [negb] in H.
  destruct (parseURI v) as [uri|]; [|done].
  destruct (uriAuthority uri) as [a|]; [|done].
  destruct (http_scheme uri); cbn [andb] in *; [|done].
  destruct (negb (bool_decide (uriRegName a = []))); [|done].
  destruct (bool_decide (uriUserInfo a = [])); [|done].
  by injection H as ->.
Qed.

Lemma scroll_delta_ok_number name x d :
  requiredFiniteNumber name x = inr d ->
  abs_exceeds (double_of_bits d) maxScrollDelta = false ->
  d = x /\ scroll_delta_ok (double_of_bits d) = true.
Proof.
  unfold requiredFiniteNumber, scroll_delta_ok.
  destruct (is_nan (double_of_bits x) || is_infinite (double_of_bits x)) eqn:E; [done|].
  intros [= ->] H. change (ha_browser_limit_value _) with maxScrollDelta. by rewrite E, H.
Qed.

(** The command survives its encoding: the host decodes what the tool layer built. *)
Lemma host_command_sent call cmd :
  browser_call_ok call -> browserTools call = inr cmd ->
  let '(code, a1, a2, dx, dy, flags) := browserCommandABI cmd in
  (exists c, ha_browser_command_of code = Some c /\ host_command c a1 a2 dx dy flags = Some cmd)
  /\ is_text a1 /\ is_text a2 /\ is_bits dx /\ is_bits dy /\ 0 <= flags <= 1
  /\ 0 <= code <= 13.
Proof.
  assert (Hz : is_bits 0) by (unfold is_bits; lia).
  assert (Ht : is_text []) by constructor.
  intros Hok Hcall. destruct call; cbn [browserTools browser_call_ok] in *;
    try (injection Hcall as <-; cbn [browserCommandABI];
         split; [eexists; split; reflexivity|]; repeat split; done || lia).
  - apply checked_inr in Hcall as (u & (-> & Hb & Hu)%validateHttpUrl_inr & [= <-]).
    cbn [browserCommandABI]. split; [|repeat split; done || lia].
    eexists; split; [reflexivity|]. cbn [host_command]. by rewrite Hb, Hu.
  - apply checked_inr in Hcall as (u & (-> & Hb)%validateNonBlank_inr & [= <-]).
    cbn [browserCommandABI]. split; [|repeat split; done || lia].
    eexists; split; [reflexivity|]. cbn [host_command]. unfold maxRefBytes in Hb. 
    change 4096 with (ha_browser_limit_value HA_BROWSER_REF_MAX_BYTES) in Hb. by rewrite Hb.
  - destruct Hok as [Hr Ht'].
    apply checked_inr in Hcall as (u & (-> & Hb)%validateNonBlank_inr & Hcall).
    apply checked_inr in Hcall as (u & (-> & Hl)%validateByteLength_inr & [= <-]).
    cbn [browserCommandABI].
    split; [|repeat split; first [done|destruct (default false submit); lia]].
    eexists; split; [reflexivity|]. cbn [host_command].
    change (bounded_argument maxRefBytes) with (bounded_argument HA_BROWSER_REF_MAX_BYTES) in Hb.
    rewrite Hb.
    assert ((zlen (utf8_encode text_) <=? HA_BROWSER_TEXT_MAX_BYTES) = true) as ->.
    { apply Z.leb_le. exact Hl. }
    by destruct (default false submit).
  - apply checked_inr in Hcall as (u & (-> & Hb)%validateNonBlank_inr & [= <-]).
    cbn [browserCommandABI]. split; [|repeat split; done || lia].
    eexists; split; [reflexivity|]. cbn [host_command].
    change (bounded_argument maxKeyBytes) with (bounded_argument HA_BROWSER_KEY_MAX_BYTES) in Hb.
    by rewrite Hb.
  - destruct Hok as [Hx Hy]. unfold scrollArgs in Hcall.
    apply checked_inr in Hcall as (dx & Hdx & Hcall).
    apply checked_inr in Hcall as (dy & Hdy & Hcall).
    destruct (abs_exceeds (double_of_bits dx) maxScrollDelta) eqn:Ex; [done|].
    destruct (abs_exceeds (double_of_bits dy) maxScrollDelta) eqn:Ey; [done|].
    cbn [orb] in Hcall.
    destruct (is_zero (double_of_bits dx) && is_zero (double_of_bits dy)) eqn:Ez; [done|].
    injection Hcall as <-.
    apply scroll_delta_ok_number in Hdx as [-> Hdx]; [|done].
    apply scroll_delta_ok_number in Hdy as [-> Hdy]; [|done].
    cbn [browserCommandABI]. split; [|repeat split; done || apply Hx || apply Hy || lia].
    eexists; split; [reflexivity|]. cbn [host_command]. by rewrite Hdx, Hdy, Ez.
  - apply checked_inr in Hcall as (u & (-> & Hb)%validateNonBlank_inr & [= <-]).
    cbn [browserCommandABI]. split; [|repeat split; done || lia].
    eexists; split; [reflexivity|]. cbn [host_command].
    change (bounded_argument maxTabIdBytes) with (bounded_argument HA_BROWSER_TAB_ID_MAX_BYTES) in Hb.
    by rewrite Hb.
Qed.

(** A pointer or length as it is stored in a structure. *)
Definition is_word (z : Z) : Prop := 0 <= z < 2 ^ 64.
Definition is_slice (s : Z * Z) : Prop := is_word (fst s) /\ is_word (snd s).

(** The literal offsets of the marshalling code are the offsets of the declaration. *)
Lemma load_poke_request code flags dx dy scope call a1 a2 :
  0 <= code <= 13 -> 0 <= flags <= 1 -> is_bits dx -> is_bits dy ->
  is_slice scope -> is_slice call -> is_slice a1 -> is_slice a2 ->
  load_ha_browser_request (poke_request code flags dx dy scope call a1 a2) =
  Some (Build_ha_browser_request 96 code flags 0 dx dy (fst scope) (snd scope)
          (fst call) (snd call) (fst a1) (snd a1) (fst a2) (snd a2)).
Proof.
  unfold is_slice, is_word, is_bits. intros Hc Hf Hx Hy [? ?] [? ?] [? ?] [? ?].
  unfold load_ha_browser_request, poke_request.
  erewrite !load_field_at by reflexivity. cbn [mbind option_bind c_sizeof].
  read_pokes 96.
  change (peek 4 12 (zeroed browserRequestStructSize)) with 0.
  rewrite !i32_id by (unfold is_i32; try rewrite !Z.mod_small by lia; lia).
  rewrite !Z.mod_small by (unfold browserRequestStructSize; lia). done.
Qed.

Lemma host_command_bounds c a1 a2 dx dy flags cmd :
  host_command c a1 a2 dx dy flags = Some cmd ->
  zlen (utf8_encode a1) <= 65536 /\ zlen (utf8_encode a2) <= 65536.
Proof.
  intros H. destruct c; cbn [host_command] in H;
    (match type of H with (if ?b then _ else _) = _ => destruct b eqn:E; [clear H|discriminate H] end);
    unfold bounded_argument in E; rewrite ?andb_true_iff, ?bool_decide_eq_true, ?Z.leb_le in E;
    cbn [ha_browser_limit_value] in E; destruct_and?; subst; cbn; lia.
Qed.

Lemma slice_text_block m p s :
  m !! p = Some (utf8_encode s) -> p <> 0 -> s <> [] -> is_text s ->
  slice_text m p (zlen (utf8_encode s)) = Some s.
Proof.
  intros Hm Hp Hs Ht. unfold slice_text. rewrite slice_block by (done || by rewrite utf8_encode_nil).
  by apply utf8_roundtrip.
Qed.

(** What [withBrowserTextBytes] lends: later allocations elsewhere do not disturb it. *)
Lemma withBrowserTextBytes_lends p s m m1 sl :
  withBrowserTextBytes p s m = (m1, sl) -> is_text s -> is_word p -> p <> 0 ->
  zlen (utf8_encode s) <= 65536 ->
  is_slice sl /\ (forall q, q <> p -> m1 !! q = m !! q)
  /\ forall m2, m2 !! p = m1 !! p -> slice_text m2 (fst sl) (snd sl) = Some s.
Proof.
  intros H Ht Hp Hp0 Hl. destruct s as [|c s].
  - injection H as <- <-. repeat split; cbn; lia || done.
  - unfold withBrowserTextBytes, withTextBytes in H. injection H as <- <-.
    split; [|split].
    + unfold is_slice, is_word in *. cbn [fst snd]. split; lia.
    + intros q Hq. by rewrite lookup_insert_ne.
    + intros m2 H2. rewrite lookup_insert_eq in H2. cbn [fst snd]. by apply slice_text_block.
Qed.

Lemma withTextBytes_nonempty p s m :
  s <> [] -> withTextBytes p s m = withBrowserTextBytes p s m.
Proof. by destruct s. Qed.

Lemma validBrowserIdentifier_bounded limit s :
  validBrowserIdentifier limit s = bounded_argument limit s.
Proof. by destruct s. Qed.

Definition addresses_ok (at_ : addresses) : Prop :=
  let l := [p_scope at_; p_call at_; p_argument1 at_; p_argument2 at_] in
  NoDup l /\ Forall (fun p => is_word p /\ p <> 0) l.

(** C22: every request that the runtime sends to the host's browser callback satisfies the
    header's contract: the bytes written at literal offsets, read as the declared
    structure over the lent memory, are a request that a host enforcing every clause of the
    contract accepts, and from which it recovers exactly the scope, the call and the
    command that the tool layer validated. *)
Theorem browser_request_conforms at_ call cmd scope callId m buf :
  addresses_ok at_ -> browser_call_ok call -> is_text scope -> is_text callId ->
  browserTools call = inr cmd ->
  invoke_request at_ (Build_BrowserInvocation scope callId cmd) = inr (m, buf) ->
  host_request m buf = Some (Build_BrowserInvocation scope callId cmd).
Proof.
  intros [Hnd Hw] Hok Hscope Hcall Htool Hinv.
  pose proof (host_command_sent _ _ Hok Htool) as Habi.
  unfold invoke_request in Hinv. cbn [browserScopeId browserCallId browserCommand] in Hinv.
  destruct (browserCommandABI cmd) as [[[[[code a1] a2] dx] dy] flags].
  destruct Habi as ((c & Hc & Hhost) & Ht1 & Ht2 & Hx & Hy & Hf & Hcode).
  destruct (host_command_bounds _ _ _ _ _ _ _ Hhost) as [Hl1 Hl2].
  rewrite !validBrowserIdentifier_bounded in Hinv.
  destruct (bounded_argument browserScopeIdMaxBytes scope) eqn:Es; [|done].
  destruct (bounded_argument browserCallIdMaxBytes callId) eqn:Ec; [|done].
  cbn [negb orb] in Hinv.
  pose proof (proj1 (andb_true_iff _ _) Es) as [Esn%negb_true_iff%bool_decide_eq_false Esl%Z.leb_le].
  pose proof (proj1 (andb_true_iff _ _) Ec) as [Ecn%negb_true_iff%bool_decide_eq_false Ecl%Z.leb_le].
  rewrite withTextBytes_nonempty in Hinv by done.
  destruct (withBrowserTextBytes (p_scope at_) scope ∅) as [m1 s1] eqn:E1.
  rewrite withTextBytes_nonempty in Hinv by done.
  destruct (withBrowserTextBytes (p_call at_) callId m1) as [m2 s2] eqn:E2.
  destruct (withBrowserTextBytes (p_argument1 at_) a1 m2) as [m3 s3] eqn:E3.
  destruct (withBrowserTextBytes (p_argument2 at_) a2 m3) as [m4 s4] eqn:E4.
  injection Hinv as <- <-.
  rewrite !list.Forall_cons in Hw. destruct Hw as ([W1 N1] & [W2 N2] & [W3 N3] & [W4 N4] & _).
  rewrite !NoDup_cons, !not_elem_of_cons in Hnd.
  destruct Hnd as ((D12 & D13 & D14 & _) & (D23 & D24 & _) & (D34 & _) & _).
  unfold browserScopeIdMaxBytes, browserCallIdMaxBytes in *.
  apply withBrowserTextBytes_lends in E1 as (S1 & K1 & L1); [|done..|lia].
  apply withBrowserTextBytes_lends in E2 as (S2 & K2 & L2); [|done..|lia].
  apply withBrowserTextBytes_lends in E3 as (S3 & K3 & L3); [|done..].
  apply withBrowserTextBytes_lends in E4 as (S4 & K4 & L4); [|done..].
  unfold host_request. rewrite load_poke_request by done. cbn -[slice_text host_command].
  rewrite L1 by (rewrite K4, K3, K2 by congruence; done). cbn [mbind option_bind].
  rewrite L2 by (rewrite K4, K3 by congruence; done). cbn [mbind option_bind].
  rewrite L3 by (rewrite K4 by congruence; done). cbn [mbind option_bind].
  rewrite L4 by done. cbn [mbind option_bind].
  change (bounded_argument 1024 scope = true) in Es.
  change (bounded_argument 1024 callId = true) in Ec.
  change (ha_browser_limit_value HA_BROWSER_SCOPE_ID_MAX_BYTES) with 1024.
  change (ha_browser_limit_value HA_BROWSER_CALL_ID_MAX_BYTES) with 1024.
  rewrite Es, Ec. cbn [andb negb]. rewrite Hc. cbn [mbind option_bind]. by rewrite Hhost.
Qed.

End BrowserRequests.

(** A browser call at work: the URL parser knows one address. *)
Definition demo_url : text := txt "https://www.haskell.org/".
Definition demo_parseURI (s : text) : option URI :=
  if decide (s = demo_url)
  then Some (Build_URI (txt "https:") (Some (Build_URIAuth [] (txt "www.haskell.org"))))
  else None.
Definition demo_addresses : addresses := Build_addresses 4096 8192 12288 16384.

Lemma browser_request_conforms_witness :
  exists m buf,
    invoke_request demo_addresses
      (Build_BrowserInvocation (txt "turn") (txt "call") (BrowserNavigate demo_url)) = inr (m, buf)
    /\ host_request demo_parseURI id m buf =
       Some (Build_BrowserInvocation (txt "turn") (txt "call") (BrowserNavigate demo_url)).
Proof.
  eexists _, _. split; [vm_compute; reflexivity|].
  eapply (browser_request_conforms demo_parseURI id demo_addresses (browser_navigate demo_url)).
  - split; [|repeat constructor; try discriminate].
    repeat (apply NoDup_cons; split; [rewrite ?not_elem_of_cons; repeat split; try discriminate;
                                      apply not_elem_of_nil|]). apply NoDup_nil_2.
  - apply txt_scalar.
  - apply txt_scalar.
  - apply txt_scalar.
  - vm_compute. reflexivity.
  - vm_compute. reflexivity.
Defined.
