(* ===== verification/ConfigRevision.v ===== *)
(** * The revision of the machine configuration

    Clients of the MCP catalog name the configuration that they have seen by a revision: a keyed
    hash of the bytes of its file (agent-runtime/src/Agent/Runtime/Config.hs).
    [config_revision_siphash]: the hash is SipHash-2-4, given here by the instructions of its
    round as its authors state them. *)

From stdpp Require Import base tactics option list.
From Stdlib Require Import ZArith Lia.
From coqutil Require Import Byte Word.LittleEndianList.
From S2P Require Import Prelude Utf8.
#[local] Open Scope Z_scope.

(** ** The code *)

Definition word : Type := Z * Z * Z * Z.

(** [rotateL] of a 64-bit word. *)
Definition rotateL (x n : Z) : Z := Z.lor (u64 (Z.shiftl x n)) (Z.shiftr x (64 - n)).

Fixpoint sipRounds (count : nat) (state : word) : word :=
  match count with
  | O => state
  | S count =>
      let '(v0, v1, v2, v3) := state in
      let a0 := u64 (v0 + v1) in
      let a1 := Z.lxor (rotateL v1 13) a0 in
      let a2 := rotateL a0 32 in
      let a3 := u64 (v2 + v3) in
      let a4 := Z.lxor (rotateL v3 16) a3 in
      let b0 := u64 (a2 + a4) in
      let b1 := Z.lxor (rotateL a4 21) b0 in
      let b2 := u64 (a3 + a1) in
      let b3 := Z.lxor (rotateL a1 17) b2 in
      let b4 := rotateL b2 32 in
      sipRounds count (b0, b3, b4, b1)
  end.

(** A fold with the offset of the next byte. *)
Definition word64LE (bytes : list byte) : Z :=
  snd (foldl (fun acc b => (fst acc + 8, Z.lor (snd acc) (u64 (Z.shiftl (byte.unsigned b) (fst acc)))))
             (0, 0) bytes).

(** [compressBlocks], with the length of what remains as fuel; [total] is [BS.length bytes]. *)
Fixpoint compressBlocks (fuel : nat) (total : Z) (state : word) (remaining : list byte) : word :=
  match fuel with
  | O => state
  | S fuel =>
      let '(v0, v1, v2, v3) := state in
      if 8 <=? zlen remaining then
        let message := word64LE (ztake 8 remaining) in
        let '(r0, r1, r2, r3) := sipRounds 2 (v0, v1, v2, Z.lxor v3 message) in
        compressBlocks fuel total (Z.lxor r0 message, r1, r2, r3) (zdrop 8 remaining)
      else
        let finalBlock := Z.lor (u64 (Z.shiftl total 56)) (word64LE remaining) in
        let '(r0, r1, r2, r3) := sipRounds 2 (v0, v1, v2, Z.lxor v3 finalBlock) in
        (Z.lxor r0 finalBlock, r1, r2, r3)
  end.

Definition finalize (state : word) : Z :=
  let '(v0, v1, v2, v3) := state in
  let '(r0, r1, r2, r3) := sipRounds 4 (v0, v1, Z.lxor v2 255, v3) in
  Z.lxor (Z.lxor (Z.lxor r0 r1) r2) r3.

Definition keyedConfigRevision (key bytes : list byte) : Z :=
  let k0 := word64LE (ztake 8 key) in
  let k1 := word64LE (zdrop 8 key) in
  let initial :=
    (Z.lxor 0x736f6d6570736575 k0, Z.lxor 0x646f72616e646f6d k1,
     Z.lxor 0x6c7967656e657261 k0, Z.lxor 0x7465646279746573 k1) in
  finalize (compressBlocks (S (length bytes)) (zlen bytes) initial bytes).

(** The test vector of the authors: the key 00 .. 0f and the message 00 .. 0e. *)
Example siphash_vector :
  keyedConfigRevision (map byte.of_Z (seqZ 0 16)) (map byte.of_Z (seqZ 0 15)) = 0xa129ca6149be45e5.
Proof. by vm_compute. Qed.

(** ** SipHash *)

(** The instructions on the four words v0 .. v3. *)
Inductive instruction :=
  | v_add (i j : nat)
  | v_rotate (i : nat) (n : Z)
  | v_xor (i j : nat).

Definition at_ (v : list Z) (i : nat) : Z := default 0 (v !! i).

Definition execute (v : list Z) (c : instruction) : list Z :=
  match c with
  | v_add i j => <[i := u64 (at_ v i + at_ v j)]> v
  | v_rotate i n => <[i := rotateL (at_ v i) n]> v
  | v_xor i j => <[i := Z.lxor (at_ v i) (at_ v j)]> v
  end.

Definition sip_round : list instruction :=
  [v_add 0 1; v_add 2 3; v_rotate 1 13; v_rotate 3 16; v_xor 1 0; v_xor 3 2; v_rotate 0 32;
   v_add 2 1; v_add 0 3; v_rotate 1 17; v_rotate 3 21; v_xor 1 2; v_xor 3 0; v_rotate 2 32].

Definition rounds (n : nat) (v : list Z) : list Z := Nat.iter n (fun v => foldl execute v sip_round) v.

Definition xor_at (i : nat) (m : Z) (v : list Z) : list Z := <[i := Z.lxor (at_ v i) m]> v.

Definition compression (v : list Z) (m : Z) : list Z := xor_at 0 m (rounds 2 (xor_at 3 m v)).

(** The words of a message: its bytes, zeros to fill the last word, of which the last byte is the
    length modulo 256. *)
Definition padded (bytes : list byte) : list byte :=
  bytes ++ repeat (byte.of_Z 0) (Z.to_nat (7 - zlen bytes mod 8)) ++ [byte.of_Z (zlen bytes mod 256)].

Fixpoint words (n : nat) (bytes : list byte) : list Z :=
  match n with
  | O => []
  | S n => le_combine (ztake 8 bytes) :: words n (zdrop 8 bytes)
  end.

Definition siphash_2_4 (key bytes : list byte) : Z :=
  let k0 := le_combine (ztake 8 key) in
  let k1 := le_combine (zdrop 8 key) in
  let v := [Z.lxor k0 0x736f6d6570736575; Z.lxor k1 0x646f72616e646f6d;
            Z.lxor k0 0x6c7967656e657261; Z.lxor k1 0x7465646279746573] in
  let v := foldl compression v (words (S (length bytes / 8)) (padded bytes)) in
  foldr Z.lxor 0 (rounds 4 (xor_at 2 255 v)).

Example siphash_reference_vector :
  siphash_2_4 (map byte.of_Z (seqZ 0 16)) (map byte.of_Z (seqZ 0 15)) = 0xa129ca6149be45e5.
Proof. by vm_compute. Qed.

(** ** The code computes SipHash *)

(** A step of [word64LE]: the next byte, above those already read. *)
Definition word64LE_step (acc : Z * Z) (b : byte) : Z * Z :=
  (fst acc + 8, Z.lor (snd acc) (u64 (Z.shiftl (byte.unsigned b) (fst acc)))).

Lemma word64LE_fold bytes offset v :
  0 <= offset -> offset + 8 * zlen bytes <= 64 ->
  snd (foldl word64LE_step (offset, v) bytes) = Z.lor v (Z.shiftl (le_combine bytes) offset).
Proof.
  revert offset v. induction bytes as [|b bytes IH]; intros offset v Ho Hl.
  - cbn. by rewrite Z.shiftl_0_l, Z.lor_0_r.
  - cbn [length] in Hl.
    change (foldl word64LE_step (offset, v) (b :: bytes)) with
      (foldl word64LE_step (offset + 8, Z.lor v (u64 (Z.shiftl (byte.unsigned b) offset))) bytes).
    rewrite IH by lia. pose proof (byte.unsigned_range b) as Hb.
    rewrite u64_id.
    + change (le_combine (b :: bytes)) with (Z.lor (byte.unsigned b) (Z.shiftl (le_combine bytes) 8)).
      rewrite Z.shiftl_lor, Z.shiftl_shiftl, Z.lor_assoc by lia. do 2 f_equal. lia.
    + rewrite Z.shiftl_mul_pow2 by lia.
      pose proof (Z.pow_pos_nonneg 2 offset ltac:(lia) Ho).
      pose proof (Z.pow_le_mono_r 2 (8 + offset) 64 ltac:(lia) ltac:(lia)) as Hp.
      rewrite Z.pow_add_r in Hp by lia. nia.
Qed.

Lemma word64LE_combine bytes : zlen bytes <= 8 -> word64LE bytes = le_combine bytes.
Proof.
  intros H. unfold word64LE. change (fun acc b => _) with word64LE_step.
  rewrite word64LE_fold by lia. by rewrite Z.shiftl_0_r, Z.lor_0_l.
Qed.

(** The four words, as the instructions number them. *)
Definition listed (v : word) : list Z := let '(v0, v1, v2, v3) := v in [v0; v1; v2; v3].

Lemma sip_rounds_listed n v : listed (sipRounds n v) = rounds n (listed v).
Proof.
  unfold rounds. revert v. induction n as [|n IH]; intros [[[v0 v1] v2] v3]; [done|].
  rewrite Nat.iter_succ_r. cbn [sipRounds]. rewrite IH. f_equal.
Qed.

Lemma compression_listed v0 v1 v2 v3 m :
  compression (listed (v0, v1, v2, v3)) m =
  listed (let '(r0, r1, r2, r3) := sipRounds 2 (v0, v1, v2, Z.lxor v3 m) in (Z.lxor r0 m, r1, r2, r3)).
Proof.
  unfold compression. change (xor_at 3 m (listed (v0, v1, v2, v3))) with (listed (v0, v1, v2, Z.lxor v3 m)).
  rewrite <- sip_rounds_listed. by destruct (sipRounds 2 _) as [[[r0 r1] r2] r3].
Qed.

(** What follows the message: it depends on the length alone. *)
Definition padding (total : Z) : list byte :=
  repeat (byte.of_Z 0) (Z.to_nat (7 - total mod 8)) ++ [byte.of_Z (total mod 256)].

Lemma last_block total rest :
  zlen rest < 8 -> total mod 8 = zlen rest ->
  Z.lor (u64 (Z.shiftl total 56)) (word64LE rest) = le_combine (ztake 8 (rest ++ padding total)).
Proof.
  intros Hl Hm. rewrite word64LE_combine by lia. unfold padding. rewrite Hm.
  replace (ztake 8 _) with (rest ++ repeat (byte.of_Z 0) (Z.to_nat (7 - zlen rest)) ++ [byte.of_Z (total mod 256)]).
  2:{ unfold ztake. symmetry. apply take_ge. rewrite !length_app, repeat_length. cbn. lia. }
  rewrite app_assoc, le_combine_app, le_combine_app_0, le_combine_1, Z.lor_comm. f_equal.
  rewrite byte_unsigned_of_Z by (apply Z.mod_pos_bound; lia).
  rewrite length_app, repeat_length.
  replace (_ * 8) with 56 by lia. unfold u64. rewrite !Z.shiftl_mul_pow2 by lia.
  change (2 ^ 64) with (256 * 2 ^ 56). by rewrite Z.mul_mod_distr_r by lia.
Qed.

Lemma words_next n bytes : words (S n) bytes = le_combine (ztake 8 bytes) :: words n (zdrop 8 bytes).
Proof. done. Qed.

Lemma compress_blocks fuel total v rest :
  (length rest < fuel)%nat -> total mod 8 = zlen rest mod 8 ->
  listed (compressBlocks fuel total v rest) =
  foldl compression (listed v) (words (S (length rest / 8)) (rest ++ padding total)).
Proof.
  revert v rest. induction fuel as [|fuel IH]; intros [[[v0 v1] v2] v3] rest Hf Hm; [lia|].
  rewrite words_next. cbn [compressBlocks foldl]. destruct (Z.leb_spec 8 (zlen rest)) as [Hl|Hl].
  - assert (Ht : ztake 8 (rest ++ padding total) = ztake 8 rest).
    { unfold ztake. apply take_app_le. lia. }
    assert (Hd : zdrop 8 (rest ++ padding total) = zdrop 8 rest ++ padding total).
    { unfold zdrop. apply drop_app_le. lia. }
    pose proof (zlen_zdrop 8 rest ltac:(lia)) as Hz.
    rewrite Ht, Hd, word64LE_combine by (rewrite zlen_ztake by lia; lia).
    rewrite compression_listed. destruct (sipRounds 2 _) as [[[r0 r1] r2] r3].
    rewrite IH.
    + replace (length rest / 8)%nat with (S (length (zdrop 8 rest) / 8)); [done|].
      replace (length rest) with (length (zdrop 8 rest) + 1 * 8)%nat by lia.
      rewrite Nat.div_add by lia. lia.
    + lia.
    + rewrite Hm, Hz. replace (zlen rest) with (zlen rest - 8 + 1 * 8) at 1 by lia.
      by rewrite Z.mod_add by lia.
  - rewrite (Z.mod_small (zlen rest)) in Hm by lia. rewrite <- last_block, compression_listed by lia.
    rewrite Nat.div_small by lia. cbn [words foldl].
    by destruct (sipRounds 2 _) as [[[r0 r1] r2] r3].
Qed.

Lemma finalize_listed v : finalize v = foldr Z.lxor 0 (rounds 4 (xor_at 2 255 (listed v))).
Proof.
  destruct v as [[[v0 v1] v2] v3]. unfold finalize.
  change (xor_at 2 255 (listed (v0, v1, v2, v3))) with (listed (v0, v1, Z.lxor v2 255, v3)).
  rewrite <- sip_rounds_listed. destruct (sipRounds 4 _) as [[[r0 r1] r2] r3].
  cbn [listed foldr]. by rewrite Z.lxor_0_r, !Z.lxor_assoc.
Qed.

(** The revision that names a configuration is SipHash-2-4 of the bytes of its file under the
    16-byte key of the machine, for files of every length: the code's unrolled rounds, its fold
    over the bytes of a word and its last block compute what the instructions of the algorithm
    and the padding of the message define. *)
Theorem config_revision_siphash (key bytes : list byte) :
  length key = 16%nat -> keyedConfigRevision key bytes = siphash_2_4 key bytes.
Proof.
  intros Hk. unfold keyedConfigRevision, siphash_2_4.
  rewrite !word64LE_combine by (rewrite ?zlen_ztake, ?zlen_zdrop by lia; lia).
  rewrite finalize_listed, compress_blocks by (done || lia).
  unfold listed. by rewrite !(Z.lxor_comm (le_combine _)).
Qed.

Lemma config_revision_siphash_witness :
  let key := map byte.of_Z (seqZ 0 16) in
  length key = 16%nat /\ keyedConfigRevision key [] = siphash_2_4 key [].
Proof. split; [reflexivity|apply config_revision_siphash; reflexivity]. Defined.
