(* ===== verification/McpConfig.v ===== *)
(** * The machine's configuration

    The record of ~/.haskell-agent/config.json (agent-runtime/src/Agent/Runtime/Config.hs) and
    its JSON.  Aeson, Hermes and network-uri are parameters ([libraries]).
    [config_json_round_trip]: a valid configuration is read back from what is written of it,
    every field of it, secrets and opaque JSON included. *)

From stdpp Require Import base tactics option list gmap sorting strings.
From Stdlib Require Import ZArith Lia.
From coqutil Require Import Byte.
From S2P Require Import Prelude Utf8 BrowserAbi.
#[local] Open Scope Z_scope.

(** ** JSON

    A number that is not an integer, as Aeson writes it; of an object, what its keys map to. *)
Inductive json_value :=
  | JNull
  | JBool (b : bool)
  | JNumber (n : Z)
  | JDecimal (literal : text)
  | JString (s : text)
  | JArray (items : list json_value)
  | JObject (fields : gmap text json_value).

(** What network-uri finds in a URI with an authority. *)
Record uri := {
  uriScheme : text;
  uriUserInfo : text;
  uriRegName : text;
  uriPort : text;
  uriPath : text;
}.

(** The code that is not in the repository.  [parseURI] is that of network-uri, [None] also for
    a URI without authority. *)
Record libraries := {
  text_toCaseFold : text -> text;
  text_toLower : text -> text;
  parseURI : text -> option uri;
  aeson_encode : json_value -> list byte;
  hermes_parse : list byte -> option json_value;
}.

Definition ascii_lower (c : Z) : Z := if (65 <=? c) && (c <=? 90) then c + 32 else c.

(** What the code relies on. *)
Class libraries_ok (lib : libraries) : Prop := {
  casefold_ascii s :
    Forall (fun c => 0 <= c < 128) s -> text_toCaseFold lib s = map ascii_lower s;
  lower_ascii s :
    Forall (fun c => 0 <= c < 128) s -> text_toLower lib s = map ascii_lower s;
  parse_encode j : hermes_parse lib (aeson_encode lib j) = Some j;
  encode_object fields : head (aeson_encode lib (JObject fields)) = Some Byte.x7b;
}.

(** ** The records *)

Inductive McpProtocolPreference := McpProtocolAuto | McpProtocolModern | McpProtocolLegacy.

Inductive McpLogLevel :=
  | McpLogDebug | McpLogInfo | McpLogNotice | McpLogWarning
  | McpLogError | McpLogCritical | McpLogAlert | McpLogEmergency.

Record McpOAuthConfig := {
  mcpOAuthClientId : option text;
  mcpOAuthClientSecret : option text;
  mcpOAuthClientIdMetadataUrl : option text;
  mcpOAuthScopes : list text;
}.

Record McpServerConfig := {
  mcpEnabled : bool;
  mcpUrl : option text;
  mcpConnectionId : option text;
  mcpConnectionCredentials : option bool;
  mcpConnectionGeneration : option text;
  mcpDisplayName : option text;
  mcpCommand : text;
  mcpArgs : list text;
  mcpCwd : option text;
  mcpEnv : gmap text text;
  mcpStartupTimeoutSeconds : Z;
  mcpRequestTimeoutSeconds : Z;
  mcpOAuth : option McpOAuthConfig;
  mcpProtocol : McpProtocolPreference;
  mcpRoots : bool;
  mcpSampling : bool;
  mcpLogLevel : option McpLogLevel;
}.

Inductive McpInitStrategy := McpInitAuto | McpInitProgressive | McpInitBlocking.

Record WebFetchConfig := {
  webFetchEnabled : bool;
  webFetchAllowedDomains : list text;
  webFetchTimeoutSeconds : Z;
  webFetchMaxContentBytes : Z;
  webFetchMaxInlineBytes : Z;
}.

(** [RawJson]: the value of its bytes. *)
Record LspServerConfig := {
  lspCommand : text;
  lspArgs : list text;
  lspEnv : gmap text text;
  lspExtensionToLanguage : gmap text text;
  lspInitializationOptions : option json_value;
  lspSettings : option json_value;
  lspWorkspaceFolder : option text;
  lspStartupTimeoutMilliseconds : Z;
  lspShutdownTimeoutMilliseconds : Z;
}.

Record LspConfig := { lspEnabled : bool; lspServers : gmap text LspServerConfig }.

Record WorktreeConfig := { worktreeFetchLatestUpstream : bool; worktreeInactiveDays : Z }.

Inductive ThemeKind := Auto | Midnight | Daylight | TokyoNight | RosePineMoon | OscuraMidnight.

Record HarnessConfig := {
  configVersion : Z;
  configTheme : ThemeKind;
  configMcpInitStrategy : McpInitStrategy;
  configMcpServers : gmap text McpServerConfig;
  configWebFetch : WebFetchConfig;
  configLsp : LspConfig;
  configWorktree : WorktreeConfig;
  configMaxConcurrentAgents : option Z;
}.

#[export] Instance protocol_eq_dec : EqDecision McpProtocolPreference.
Proof. solve_decision. Defined.
#[export] Instance log_level_eq_dec : EqDecision McpLogLevel.
Proof. solve_decision. Defined.
#[export] Instance oauth_eq_dec : EqDecision McpOAuthConfig.
Proof. solve_decision. Defined.
#[export] Instance server_eq_dec : EqDecision McpServerConfig.
Proof. solve_decision. Defined.

(** [config { configMcpServers = servers }]. *)
Definition with_servers (servers : gmap text McpServerConfig) (config : HarnessConfig) : HarnessConfig :=
  {| configVersion := configVersion config;
     configTheme := configTheme config;
     configMcpInitStrategy := configMcpInitStrategy config;
     configMcpServers := servers;
     configWebFetch := configWebFetch config;
     configLsp := configLsp config;
     configWorktree := configWorktree config;
     configMaxConcurrentAgents := configMaxConcurrentAgents config |}.

Definition harnessConfigSchemaVersion : Z := 1.

Definition defaultWebFetch : WebFetchConfig := {|
  webFetchEnabled := false;
  webFetchAllowedDomains := [];
  webFetchTimeoutSeconds := 60;
  webFetchMaxContentBytes := 10 * 1024 * 1024;
  webFetchMaxInlineBytes := 100000;
|}.

Definition defaultHarnessConfig : HarnessConfig := {|
  configVersion := harnessConfigSchemaVersion;
  configTheme := Midnight;
  configMcpInitStrategy := McpInitAuto;
  configMcpServers := ∅;
  configWebFetch := defaultWebFetch;
  configLsp := {| lspEnabled := false; lspServers := ∅ |};
  configWorktree := {| worktreeFetchLatestUpstream := true; worktreeInactiveDays := 1 |};
  configMaxConcurrentAgents := None;
|}.

(** ** Writing: the [ToJSON] instances *)

Definition object (fields : list (string * json_value)) : json_value :=
  JObject (list_to_map (map (fun f => (txt (fst f), snd f)) fields)).

Definition nullable {A} (to : A -> json_value) (o : option A) : json_value := from_option to JNull o.
Definition texts (l : list text) : json_value := JArray (map JString l).
Definition text_map (m : gmap text text) : json_value := JObject (JString <$> m).

Definition oauth_json (oauth : McpOAuthConfig) : json_value :=
  object [("clientId", nullable JString (mcpOAuthClientId oauth));
          ("clientSecret", nullable JString (mcpOAuthClientSecret oauth));
          ("clientIdMetadataUrl", nullable JString (mcpOAuthClientIdMetadataUrl oauth));
          ("scopes", texts (mcpOAuthScopes oauth))]%string.

Definition strategy_json (s : McpInitStrategy) : json_value :=
  JString (match s with
           | McpInitAuto => txt "auto"
           | McpInitProgressive => txt "progressive"
           | McpInitBlocking => txt "blocking"
           end).

Definition protocolPreferenceText (p : McpProtocolPreference) : text :=
  match p with
  | McpProtocolAuto => txt "auto"
  | McpProtocolModern => txt "modern"
  | McpProtocolLegacy => txt "legacy"
  end.

Definition mcpLogLevelText (l : McpLogLevel) : text :=
  match l with
  | McpLogDebug => txt "debug" | McpLogInfo => txt "info" | McpLogNotice => txt "notice"
  | McpLogWarning => txt "warning" | McpLogError => txt "error" | McpLogCritical => txt "critical"
  | McpLogAlert => txt "alert" | McpLogEmergency => txt "emergency"
  end.

Definition server_json (s : McpServerConfig) : json_value :=
  object [("enabled", JBool (mcpEnabled s));
          ("url", nullable JString (mcpUrl s));
          ("connectionId", nullable JString (mcpConnectionId s));
          ("connectionCredentials", nullable JBool (mcpConnectionCredentials s));
          ("connectionGeneration", nullable JString (mcpConnectionGeneration s));
          ("displayName", nullable JString (mcpDisplayName s));
          ("command", JString (mcpCommand s));
          ("args", texts (mcpArgs s));
          ("cwd", nullable JString (mcpCwd s));
          ("env", text_map (mcpEnv s));
          ("startupTimeoutSeconds", JNumber (mcpStartupTimeoutSeconds s));
          ("requestTimeoutSeconds", JNumber (mcpRequestTimeoutSeconds s));
          ("oauth", nullable oauth_json (mcpOAuth s));
          ("protocol", JString (protocolPreferenceText (mcpProtocol s)));
          ("roots", JBool (mcpRoots s));
          ("sampling", JBool (mcpSampling s));
          ("logLevel", nullable (fun l => JString (mcpLogLevelText l)) (mcpLogLevel s))]%string.

Definition web_fetch_json (w : WebFetchConfig) : json_value :=
  object [("enabled", JBool (webFetchEnabled w));
          ("allowedDomains", texts (webFetchAllowedDomains w));
          ("timeoutSeconds", JNumber (webFetchTimeoutSeconds w));
          ("maxContentBytes", JNumber (webFetchMaxContentBytes w));
          ("maxInlineBytes", JNumber (webFetchMaxInlineBytes w))]%string.

Definition lsp_server_json (s : LspServerConfig) : json_value :=
  object [("command", JString (lspCommand s));
          ("args", texts (lspArgs s));
          ("env", text_map (lspEnv s));
          ("extensionToLanguage", text_map (lspExtensionToLanguage s));
          ("initializationOptions", nullable id (lspInitializationOptions s));
          ("settings", nullable id (lspSettings s));
          ("workspaceFolder", nullable JString (lspWorkspaceFolder s));
          ("startupTimeoutMilliseconds", JNumber (lspStartupTimeoutMilliseconds s));
          ("shutdownTimeoutMilliseconds", JNumber (lspShutdownTimeoutMilliseconds s))]%string.

Definition lsp_json (l : LspConfig) : json_value :=
  object [("enabled", JBool (lspEnabled l));
          ("servers", JObject (lsp_server_json <$> lspServers l))]%string.

Definition worktree_json (w : WorktreeConfig) : json_value :=
  object [("fetchLatestUpstream", JBool (worktreeFetchLatestUpstream w));
          ("inactivityDays", JNumber (worktreeInactiveDays w))]%string.

Definition themeKindText (k : ThemeKind) : text :=
  match k with
  | Auto => txt "Auto"
  | Midnight => txt "Midnight"
  | Daylight => txt "Daylight"
  | TokyoNight => txt "Tokyo Night"
  | RosePineMoon => txt "Rose Pine Moon"
  | OscuraMidnight => txt "Oscura Midnight"
  end.

Definition config_json (c : HarnessConfig) : json_value :=
  object [("version", JNumber (configVersion c));
          ("theme", JString (themeKindText (configTheme c)));
          ("mcpInitStrategy", strategy_json (configMcpInitStrategy c));
          ("mcpServers", JObject (server_json <$> configMcpServers c));
          ("webFetch", web_fetch_json (configWebFetch c));
          ("lsp", lsp_json (configLsp c));
          ("worktree", worktree_json (configWorktree c));
          ("maxConcurrentAgents", nullable JNumber (configMaxConcurrentAgents c))]%string.

(** ** Reading: the decoders

    Every caller here replaces the text of a failure by one of its own. *)

Definition as_bool (j : json_value) : option bool := match j with JBool b => Some b | _ => None end.

(** [Hermes.int]. *)
Definition as_int (j : json_value) : option Z :=
  match j with
  | JNumber n => if (- 2 ^ 63 <=? n) && (n <? 2 ^ 63) then Some n else None
  | _ => None
  end.

Definition as_text (j : json_value) : option text := match j with JString s => Some s | _ => None end.

Definition as_list {A} (item : json_value -> option A) (j : json_value) : option (list A) :=
  match j with JArray l => mapM item l | _ => None end.

Definition objectAsMap {A} (item : json_value -> option A) (j : json_value) : option (gmap text A) :=
  match j with
  | JObject fields =>
      if decide (map_Forall (fun _ v => is_Some (item v)) fields) then Some (omap item fields) else None
  | _ => None
  end.

Definition as_object {A} (k : gmap text json_value -> option A) (j : json_value) : option A :=
  match j with JObject fields => k fields | _ => None end.

(** A missing key and an explicit null are the same. *)
Definition optionalKey {A : Type} (fields : gmap text json_value) (key : string)
    (item : json_value -> option A) : option (option A) :=
  match fields !! txt key with
  | None | Some JNull => Some None
  | Some v => Some <$> item v
  end.

Definition defaultKey {A : Type} (fields : gmap text json_value) (fallback : A) (key : string)
    (item : json_value -> option A) : option A :=
  default fallback <$> optionalKey fields key item.

(** [Hermes.atKey]. *)
Definition atKey {A : Type} (fields : gmap text json_value) (key : string)
    (item : json_value -> option A) : option A :=
  v ← fields !! txt key; item v.

(** [fail] unless the condition holds. *)
Definition ensure (b : bool) : option unit := if b then Some tt else None.

Definition textMapDecoder : json_value -> option (gmap text text) := objectAsMap as_text.

(** A decoder of a name out of a list. *)
Definition named {A} (names : list (string * A)) (j : json_value) : option A :=
  s ← as_text j; snd <$> List.find (fun p => bool_decide (txt (fst p) = s)) names.

Definition mcpInitStrategyDecoder : json_value -> option McpInitStrategy :=
  named [("auto", McpInitAuto); ("progressive", McpInitProgressive); ("blocking", McpInitBlocking)]%string.

Definition protocolPreferenceDecoder : json_value -> option McpProtocolPreference :=
  named [("auto", McpProtocolAuto); ("modern", McpProtocolModern); ("legacy", McpProtocolLegacy)]%string.

Definition mcpLogLevelDecoder : json_value -> option McpLogLevel :=
  named [("debug", McpLogDebug); ("info", McpLogInfo); ("notice", McpLogNotice);
         ("warning", McpLogWarning); ("error", McpLogError); ("critical", McpLogCritical);
         ("alert", McpLogAlert); ("emergency", McpLogEmergency)]%string.

Definition mcpOAuthConfigDecoder : json_value -> option McpOAuthConfig :=
  as_object (fun o =>
    clientId ← optionalKey o "clientId" as_text;
    clientSecret ← optionalKey o "clientSecret" as_text;
    metadata ← optionalKey o "clientIdMetadataUrl" as_text;
    scopes ← defaultKey o [] "scopes" (as_list as_text);
    Some (Build_McpOAuthConfig clientId clientSecret metadata scopes)).

Definition mcpServerConfigDecoder : json_value -> option McpServerConfig :=
  as_object (fun o =>
    enabled ← defaultKey o true "enabled" as_bool;
    url ← optionalKey o "url" as_text;
    connectionId ← optionalKey o "connectionId" as_text;
    connectionCredentials ← optionalKey o "connectionCredentials" as_bool;
    connectionGeneration ← optionalKey o "connectionGeneration" as_text;
    displayName ← optionalKey o "displayName" as_text;
    command ← defaultKey o [] "command" as_text;
    args ← defaultKey o [] "args" (as_list as_text);
    cwd ← optionalKey o "cwd" as_text;
    env ← defaultKey o ∅ "env" textMapDecoder;
    startup ← defaultKey o 30 "startupTimeoutSeconds" as_int;
    request ← defaultKey o 60 "requestTimeoutSeconds" as_int;
    oauth ← optionalKey o "oauth" mcpOAuthConfigDecoder;
    protocol ← defaultKey o McpProtocolAuto "protocol" protocolPreferenceDecoder;
    roots ← defaultKey o false "roots" as_bool;
    sampling ← defaultKey o false "sampling" as_bool;
    logLevel ← optionalKey o "logLevel" mcpLogLevelDecoder;
    Some (Build_McpServerConfig enabled url connectionId connectionCredentials
            connectionGeneration displayName command args cwd env startup request oauth protocol
            roots sampling logLevel)).

Definition webFetchConfigDecoder : json_value -> option WebFetchConfig :=
  as_object (fun o =>
    enabled ← defaultKey o false "enabled" as_bool;
    domains ← defaultKey o [] "allowedDomains" (as_list as_text);
    timeout ← defaultKey o 60 "timeoutSeconds" as_int;
    content ← defaultKey o (10 * 1024 * 1024) "maxContentBytes" as_int;
    inline ← defaultKey o 100000 "maxInlineBytes" as_int;
    Some (Build_WebFetchConfig enabled domains timeout content inline)).

(** [rawJsonDecoder] takes any value. *)
Definition rawJsonDecoder : json_value -> option json_value := Some.

Definition worktreeConfigDecoder : json_value -> option WorktreeConfig :=
  as_object (fun o =>
    latest ← defaultKey o true "fetchLatestUpstream" as_bool;
    days ← defaultKey o 1 "inactivityDays" as_int;
    Some (Build_WorktreeConfig latest days)).

Section Libraries.
Context (lib : libraries).

Definition lspServerConfigDecoder : json_value -> option LspServerConfig :=
  as_object (fun o =>
    transport ← defaultKey o (txt "stdio") "transport" as_text;
    ensure (bool_decide (text_toLower lib (strip transport) = txt "stdio"));;
    restartOnCrash ← defaultKey o false "restartOnCrash" as_bool;
    ensure (negb restartOnCrash);;
    maxRestarts ← optionalKey o "maxRestarts" rawJsonDecoder;
    ensure (bool_decide (maxRestarts = None));;
    command ← atKey o "command" as_text;
    args ← defaultKey o [] "args" (as_list as_text);
    env ← defaultKey o ∅ "env" textMapDecoder;
    extensions ← defaultKey o ∅ "extensionToLanguage" textMapDecoder;
    initialization ← optionalKey o "initializationOptions" rawJsonDecoder;
    settings ← optionalKey o "settings" rawJsonDecoder;
    workspace ← optionalKey o "workspaceFolder" as_text;
    startup ← defaultKey o 15000 "startupTimeoutMilliseconds" as_int;
    shutdown ← defaultKey o 5000 "shutdownTimeoutMilliseconds" as_int;
    Some (Build_LspServerConfig command args env extensions initialization settings workspace
            startup shutdown)).

Definition lspConfigDecoder : json_value -> option LspConfig :=
  as_object (fun o =>
    enabled ← defaultKey o false "enabled" as_bool;
    servers ← defaultKey o ∅ "servers" (objectAsMap lspServerConfigDecoder);
    Some (Build_LspConfig enabled servers)).

Definition parseThemeKind (raw : text) : option ThemeKind :=
  let s := text_toCaseFold lib (strip raw) in
  let among := existsb (fun name => bool_decide (txt name = s)) in
  if among ["auto"; "system"]%string then Some Auto
  else if among ["midnight"; "night"]%string then Some Midnight
  else if among ["daylight"; "day"]%string then Some Daylight
  else if among ["tokyonight"; "tokyo-night"; "tokyo night"]%string then Some TokyoNight
  else if among ["rosepine-moon"; "rose pine moon"]%string
          || bool_decide (txt "ros" ++ 233 :: txt " pine moon" = s) then Some RosePineMoon
  else if among ["oscuramidnight"; "oscura-midnight"; "oscura midnight"]%string then Some OscuraMidnight
  else None.

Definition themeKindDecoder (j : json_value) : option ThemeKind := as_text j ≫= parseThemeKind.

Definition harnessConfigDecoder : json_value -> option HarnessConfig :=
  as_object (fun o =>
    version ← defaultKey o harnessConfigSchemaVersion "version" as_int;
    theme ← defaultKey o Midnight "theme" themeKindDecoder;
    strategy ← defaultKey o McpInitAuto "mcpInitStrategy" mcpInitStrategyDecoder;
    servers ← defaultKey o ∅ "mcpServers" (objectAsMap mcpServerConfigDecoder);
    web ← defaultKey o defaultWebFetch "webFetch" webFetchConfigDecoder;
    lsp ← defaultKey o (configLsp defaultHarnessConfig) "lsp" lspConfigDecoder;
    worktree ← defaultKey o (configWorktree defaultHarnessConfig) "worktree" worktreeConfigDecoder;
    agents ← optionalKey o "maxConcurrentAgents" as_int;
    Some (Build_HarnessConfig version theme strategy servers web lsp worktree agents)).

(** [decodeLazy harnessConfigDecoder]. *)
Definition decode_config (bytes : list byte) : option HarnessConfig :=
  hermes_parse lib bytes ≫= harnessConfigDecoder.

(** [Aeson.encode]. *)
Definition encode_config (config : HarnessConfig) : list byte := aeson_encode lib (config_json config).

End Libraries.

(** ** What is written is read back *)

(** A Haskell [Int]. *)
Definition is_int (n : Z) : Prop := - 2 ^ 63 <= n < 2 ^ 63.

Definition server_typed (s : McpServerConfig) : Prop :=
  is_int (mcpStartupTimeoutSeconds s) /\ is_int (mcpRequestTimeoutSeconds s).

(** Null options are absent. *)
Definition lsp_server_typed (s : LspServerConfig) : Prop :=
  is_int (lspStartupTimeoutMilliseconds s) /\ is_int (lspShutdownTimeoutMilliseconds s)
  /\ lspInitializationOptions s <> Some JNull /\ lspSettings s <> Some JNull.

Definition web_fetch_typed (w : WebFetchConfig) : Prop :=
  is_int (webFetchTimeoutSeconds w) /\ is_int (webFetchMaxContentBytes w)
  /\ is_int (webFetchMaxInlineBytes w).

(** A value of the type of configurations. *)
Definition config_typed (c : HarnessConfig) : Prop :=
  is_int (configVersion c)
  /\ map_Forall (fun _ => server_typed) (configMcpServers c)
  /\ web_fetch_typed (configWebFetch c)
  /\ map_Forall (fun _ => lsp_server_typed) (lspServers (configLsp c))
  /\ is_int (worktreeInactiveDays (configWorktree c))
  /\ (forall n, configMaxConcurrentAgents c = Some n -> is_int n).

#[export] Instance txt_injective : Inj (=) (=) txt.
Proof.
  intros s. induction s as [|a s IH]; intros [|b t]; cbn; try done.
  intros [= Hc Ht]. f_equal; [|by apply IH].
  apply N2Z.inj in Hc. rewrite <- (Ascii.ascii_N_embedding a), <- (Ascii.ascii_N_embedding b). by f_equal.
Qed.

(** The field of a written object. *)
Definition field (fields : list (string * json_value)) (key : string) : option json_value :=
  snd <$> List.find (fun f => bool_decide (fst f = key)) fields.

(** What [object] makes of the fields. *)
Abbreviation written_fields fields :=
  (list_to_map (map (fun f : string * json_value => (txt (fst f), snd f)) fields) : gmap text json_value).

Lemma object_field fields key :
  written_fields fields !! txt key =
  field fields key.
Proof.
  unfold field. induction fields as [|[k v] fields IH]; [done|].
  cbn [map List.find]. rewrite list_to_map_cons. cbn [fst snd]. case_bool_decide as E.
  - subst. by rewrite lookup_insert_eq.
  - rewrite lookup_insert_ne; [exact IH|]. intros H. by apply (inj txt) in H.
Qed.

(** [item] reads [a] from [j], which is not null. *)
Definition reads {A : Type} (item : json_value -> option A) (j : json_value) (a : A) : Prop :=
  item j = Some a /\ j <> JNull.

Section Fields.
Context (fields : list (string * json_value)) (key : string) {A : Type}.
Context (item : json_value -> option A).

Lemma optional_written to o :
  field fields key = Some (nullable to o) -> (forall a, o = Some a -> reads item (to a) a) ->
  optionalKey (written_fields fields) key item = Some o.
Proof.
  intros Hf Hr. unfold optionalKey. rewrite object_field, Hf.
  destruct o as [a|]; [|done]. cbn [nullable from_option]. destruct (Hr a eq_refl) as [Hi Hn].
  destruct (to a); [done|..]; by rewrite Hi.
Qed.

Lemma default_written d j a :
  field fields key = Some j -> reads item j a -> defaultKey (written_fields fields) d key item = Some a.
Proof.
  intros Hf [Hi Hn]. unfold defaultKey, optionalKey. rewrite object_field, Hf.
  destruct j; [done|..]; by rewrite Hi.
Qed.

Lemma optional_absent : field fields key = None -> optionalKey (written_fields fields) key item = Some None.
Proof. intros Hf. unfold optionalKey. by rewrite object_field, Hf. Qed.

Lemma default_absent d : field fields key = None -> defaultKey (written_fields fields) d key item = Some d.
Proof. intros Hf. unfold defaultKey. by rewrite optional_absent. Qed.

Lemma at_written j a :
  field fields key = Some j -> reads item j a -> atKey (written_fields fields) key item = Some a.
Proof. intros Hf [Hi _]. unfold atKey. rewrite object_field, Hf. exact Hi. Qed.

End Fields.

Lemma reads_text s : reads as_text (JString s) s.
Proof. done. Qed.
Lemma reads_bool b : reads as_bool (JBool b) b.
Proof. done. Qed.

Lemma reads_int n : is_int n -> reads as_int (JNumber n) n.
Proof.
  intros H. split; [|done]. unfold as_int, is_int in *.
  destruct (Z.leb_spec (- 2 ^ 63) n); [|lia]. by destruct (Z.ltb_spec n (2 ^ 63)); [|lia].
Qed.

Lemma reads_texts l : reads (as_list as_text) (texts l) l.
Proof.
  split; [|done]. unfold texts, as_list. apply mapM_Some.
  induction l as [|s l IH]; constructor; [done|exact IH].
Qed.

Lemma reads_map {A : Type} (item : json_value -> option A) to m :
  map_Forall (fun _ a => item (to a) = Some a) m ->
  reads (objectAsMap item) (JObject (to <$> m)) m.
Proof.
  intros H. split; [|done]. unfold objectAsMap. rewrite decide_True.
  - f_equal. apply map_eq. intros k. rewrite lookup_omap, lookup_fmap.
    destruct (m !! k) as [a|] eqn:E; [|done]. cbn. exact (H k a E).
  - intros k v Hk. rewrite lookup_fmap in Hk. apply fmap_Some in Hk as (a & Ha & ->).
    rewrite (H k a Ha). eauto.
Qed.

Lemma reads_text_map m : reads textMapDecoder (text_map m) m.
Proof. apply (reads_map as_text JString). intros k a _. done. Qed.

Lemma reads_raw j : j <> JNull -> reads rawJsonDecoder (id j) j.
Proof. done. Qed.

Lemma reads_strategy s : reads mcpInitStrategyDecoder (strategy_json s) s.
Proof. by destruct s. Qed.
Lemma reads_protocol p : reads protocolPreferenceDecoder (JString (protocolPreferenceText p)) p.
Proof. by destruct p. Qed.
Lemma reads_log_level l : reads mcpLogLevelDecoder (JString (mcpLogLevelText l)) l.
Proof. by destruct l. Qed.

(** The next field of a written object, by the lemmas about its kind. *)
Ltac read_written :=
  unfold as_object, object;
  repeat (first
    [ erewrite optional_absent by reflexivity
    | erewrite default_absent by reflexivity
    | erewrite optional_written; [|reflexivity|by (intros; eauto with reads)]
    | erewrite default_written; [|reflexivity|by eauto with reads]
    | erewrite at_written; [|reflexivity|by eauto with reads] ];
    cbn [mbind option_bind]).

Create HintDb reads.
#[export] Hint Resolve reads_text reads_bool reads_int reads_texts reads_text_map reads_raw
  reads_strategy reads_protocol reads_log_level : reads.

Lemma reads_oauth o : reads mcpOAuthConfigDecoder (oauth_json o) o.
Proof. split; [|done]. unfold mcpOAuthConfigDecoder, oauth_json. read_written. by destruct o. Qed.
#[export] Hint Resolve reads_oauth : reads.

Lemma reads_server s : server_typed s -> reads mcpServerConfigDecoder (server_json s) s.
Proof.
  intros [Hs Hr]. split; [|done]. unfold mcpServerConfigDecoder, server_json. read_written.
  by destruct s.
Qed.

#[export] Hint Resolve reads_server : reads.

Lemma reads_web_fetch w : web_fetch_typed w -> reads webFetchConfigDecoder (web_fetch_json w) w.
Proof.
  intros (? & ? & ?). split; [|done]. unfold webFetchConfigDecoder, web_fetch_json. read_written.
  by destruct w.
Qed.

Lemma reads_worktree w :
  is_int (worktreeInactiveDays w) -> reads worktreeConfigDecoder (worktree_json w) w.
Proof.
  intros ?. split; [|done]. unfold worktreeConfigDecoder, worktree_json. read_written.
  by destruct w.
Qed.

Lemma reads_servers m :
  map_Forall (fun _ => server_typed) m ->
  reads (objectAsMap mcpServerConfigDecoder) (JObject (server_json <$> m)) m.
Proof. intros H. apply reads_map. intros k s Hs. by apply reads_server, (H k). Qed.

#[export] Hint Resolve reads_web_fetch reads_worktree reads_servers : reads.

Section Reading.
Context (lib : libraries) `{!libraries_ok lib}.

Lemma reads_theme k : reads (themeKindDecoder lib) (JString (themeKindText k)) k.
Proof.
  split; [|done]. unfold themeKindDecoder, as_text, parseThemeKind. cbn [mbind option_bind].
  rewrite casefold_ascii.
  - by destruct k.
  - destruct k; (repeat constructor); lia.
Qed.

Lemma reads_lsp_server s :
  lsp_server_typed s -> reads (lspServerConfigDecoder lib) (lsp_server_json s) s.
Proof.
  intros (? & ? & Hi & Hs). split; [|done]. unfold lspServerConfigDecoder, lsp_server_json.
  assert (forall o j, o <> Some JNull -> o = Some j -> reads rawJsonDecoder (id j) j) as Hraw.
  { intros o j Ho ->. apply reads_raw. congruence. }
  pose proof (fun j => Hraw _ j Hi). pose proof (fun j => Hraw _ j Hs).
  read_written. rewrite lower_ascii by ((repeat constructor); lia).
  rewrite bool_decide_true by done. cbn [ensure mbind option_bind]. read_written.
  rewrite bool_decide_true by done. cbn [negb ensure mbind option_bind]. read_written.
  by destruct s.
Qed.

Lemma reads_lsp_servers m :
  map_Forall (fun _ => lsp_server_typed) m ->
  reads (objectAsMap (lspServerConfigDecoder lib)) (JObject (lsp_server_json <$> m)) m.
Proof. intros H. apply reads_map. intros k s Hs. by apply reads_lsp_server, (H k). Qed.

#[local] Hint Resolve reads_theme reads_lsp_servers : reads.

Lemma reads_lsp l :
  map_Forall (fun _ => lsp_server_typed) (lspServers l) -> reads (lspConfigDecoder lib) (lsp_json l) l.
Proof.
  intros ?. split; [|done]. unfold lspConfigDecoder, lsp_json. read_written. by destruct l.
Qed.

#[local] Hint Resolve reads_lsp : reads.

Lemma decode_encode_config c : config_typed c -> decode_config lib (encode_config lib c) = Some c.
Proof.
  intros (? & ? & ? & ? & ? & ?). unfold decode_config, encode_config. rewrite parse_encode.
  cbn [mbind option_bind]. unfold harnessConfigDecoder, config_json. read_written. by destruct c.
Qed.

(** *** What the decoders produce is typed *)

Lemma as_int_typed j n : as_int j = Some n -> is_int n.
Proof.
  destruct j; try done. cbn. destruct (Z.leb_spec (- 2 ^ 63) n0); [|done].
  destruct (Z.ltb_spec n0 (2 ^ 63)); [|done]. intros [= <-]. unfold is_int. lia.
Qed.

Lemma optional_reads {A : Type} fields key (item : json_value -> option A) a :
  optionalKey fields key item = Some (Some a) -> exists j, j <> JNull /\ item j = Some a.
Proof.
  unfold optionalKey. destruct (fields !! txt key) as [j|]; [|done].
  destruct j; [done|..]; intros (? & ? & [= ->])%fmap_Some; eexists; (split; [|eassumption]); done.
Qed.

Lemma default_reads {A : Type} fields d key (item : json_value -> option A) a :
  defaultKey fields d key item = Some a -> a = d \/ exists j, item j = Some a.
Proof.
  unfold defaultKey. intros ([b|] & H & ->)%fmap_Some; [|by left].
  apply optional_reads in H as (j & _ & H). right. by exists j.
Qed.

Lemma default_int fields d key n :
  is_int d -> defaultKey fields d key as_int = Some n -> is_int n.
Proof. intros Hd [->|[j Hj]]%default_reads; [done|by eapply as_int_typed]. Qed.

Lemma optional_raw fields key o :
  optionalKey fields key rawJsonDecoder = Some o -> o <> Some JNull.
Proof. intros H ->. apply optional_reads in H as (j & Hj & [= ->]). done. Qed.

Lemma default_map {A : Type} fields key (item : json_value -> option A) (P : A -> Prop) m :
  (forall j a, item j = Some a -> P a) ->
  defaultKey fields ∅ key (objectAsMap item) = Some m -> map_Forall (fun _ => P) m.
Proof.
  intros HP [->|[j Hj]]%default_reads; [apply map_Forall_empty|].
  destruct j; try done. unfold objectAsMap in Hj. destruct (decide _); [|done].
  injection Hj as <-. intros k a Ha. apply lookup_omap_Some in Ha as (j & Hj & _). by eapply HP.
Qed.

(** The fields of an object that was decoded. *)
Ltac fields_of H :=
  repeat match type of H with
    | (_ ≫= _) = Some _ => apply bind_Some in H as (? & ? & H)
    end.

Lemma server_decoded j s : mcpServerConfigDecoder j = Some s -> server_typed s.
Proof.
  destruct j; try done. unfold mcpServerConfigDecoder, as_object. intros H. fields_of H.
  injection H as <-. split; (eapply default_int; [|eassumption]); unfold is_int; lia.
Qed.

Lemma lsp_server_decoded j s : lspServerConfigDecoder lib j = Some s -> lsp_server_typed s.
Proof.
  destruct j; try done. unfold lspServerConfigDecoder, as_object. intros H. fields_of H.
  injection H as <-. repeat split; cbn;
    first [eapply default_int; [|eassumption]; unfold is_int; lia | by eapply optional_raw].
Qed.

Lemma web_fetch_decoded j w : webFetchConfigDecoder j = Some w -> web_fetch_typed w.
Proof.
  destruct j; try done. unfold webFetchConfigDecoder, as_object. intros H. fields_of H.
  injection H as <-. repeat split; (eapply default_int; [|eassumption]); unfold is_int; lia.
Qed.

Lemma worktree_decoded j w :
  worktreeConfigDecoder j = Some w -> is_int (worktreeInactiveDays w).
Proof.
  destruct j; try done. unfold worktreeConfigDecoder, as_object. intros H. fields_of H.
  injection H as <-. (eapply default_int; [|eassumption]); unfold is_int; lia.
Qed.

Lemma lsp_decoded j l :
  lspConfigDecoder lib j = Some l -> map_Forall (fun _ => lsp_server_typed) (lspServers l).
Proof.
  destruct j; try done. unfold lspConfigDecoder, as_object. intros H. fields_of H.
  injection H as <-. eapply default_map; [apply lsp_server_decoded|eassumption].
Qed.

Lemma config_decoded bytes c : decode_config lib bytes = Some c -> config_typed c.
Proof.
  unfold decode_config. intros (j & _ & H)%bind_Some. destruct j; try done.
  unfold harnessConfigDecoder, as_object in H. fields_of H. injection H as <-.
  unfold config_typed. cbn [configVersion configMcpServers configWebFetch configLsp configWorktree
    configMaxConcurrentAgents]. split_and!.
  - eapply default_int; [|eassumption]. unfold is_int, harnessConfigSchemaVersion. lia.
  - eapply default_map; [apply server_decoded|eassumption].
  - match goal with H : defaultKey _ _ "webFetch" _ = _ |- _ => apply default_reads in H as [->|[j Hj]] end;
      [repeat split; unfold is_int; cbn; lia|by eapply web_fetch_decoded].
  - match goal with H : defaultKey _ _ "lsp" _ = _ |- _ => apply default_reads in H as [->|[j Hj]] end;
      [apply map_Forall_empty|by eapply lsp_decoded].
  - match goal with H : defaultKey _ _ "worktree" _ = _ |- _ => apply default_reads in H as [->|[j Hj]] end;
      [unfold is_int; cbn; lia|by eapply worktree_decoded].
  - intros n ->. match goal with H : optionalKey _ _ _ = Some (Some n) |- _ =>
      apply optional_reads in H as (j & _ & Hj) end. by eapply as_int_typed.
Qed.

(** C10: a configuration of the machine survives its file.  Whatever the decoders accept is a
    configuration that, written as the [ToJSON] instances write it, is read back as itself: every
    field, the environments of servers and the JSON that is opaque to the agent included; and so
    is every value of the type of configurations. *)
Theorem config_json_round_trip (c : HarnessConfig) :
  (config_typed c -> decode_config lib (encode_config lib c) = Some c)
  /\ (forall bytes, decode_config lib bytes = Some c ->
        decode_config lib (encode_config lib c) = Some c).
Proof.
  split; [apply decode_encode_config|]. intros bytes H. by eapply decode_encode_config, config_decoded.
Qed.

End Reading.

(** ** A library that satisfies the laws

    ASCII case folding, no URI, and a document that is the bits of a tree after a brace. *)

Module Sample.

Fixpoint to_tree (j : json_value) : gen_tree (text + (Z + bool)) :=
  match j with
  | JNull => GenNode 0 []
  | JBool b => GenNode 1 [GenLeaf (inr (inr b))]
  | JNumber n => GenNode 2 [GenLeaf (inr (inl n))]
  | JDecimal s => GenNode 3 [GenLeaf (inl s)]
  | JString s => GenNode 4 [GenLeaf (inl s)]
  | JArray l => GenNode 5 (map to_tree l)
  | JObject m => GenNode 6 (map_fold (fun k v acc => GenLeaf (inl k) :: to_tree v :: acc) [] m)
  end.

(** The fields of an object, of which [rd] reads the values. *)
Definition fields_of (rd : gen_tree (text + (Z + bool)) -> json_value)
    : list (gen_tree (text + (Z + bool))) -> gmap text json_value :=
  fix go l := match l with
              | GenLeaf (inl k) :: t :: l => <[k := rd t]> (go l)
              | _ => ∅
              end.

Fixpoint of_tree (t : gen_tree (text + (Z + bool))) : json_value :=
  match t with
  | GenNode 1 [GenLeaf (inr (inr b))] => JBool b
  | GenNode 2 [GenLeaf (inr (inl n))] => JNumber n
  | GenNode 3 [GenLeaf (inl s)] => JDecimal s
  | GenNode 4 [GenLeaf (inl s)] => JString s
  | GenNode 5 l => JArray (map of_tree l)
  | GenNode 6 l => JObject (fields_of of_tree l)
  | _ => JNull
  end.

Fixpoint json_size (j : json_value) : nat :=
  match j with
  | JArray l => S (sum_list_with json_size l)
  | JObject m => S (map_fold (fun _ v acc => json_size v + acc)%nat O m)
  | _ => 1
  end.

Lemma size_field (m : gmap text json_value) k v :
  m !! k = Some v -> (json_size v <= map_fold (fun _ v acc => json_size v + acc) O m)%nat.
Proof.
  revert m. apply (map_fold_weak_ind (fun r m => m !! k = Some v -> (json_size v <= r)%nat)); [done|].
  intros i x m r Hi IH. destruct (decide (i = k)) as [->|Hne].
  - rewrite lookup_insert_eq. intros [= ->]. lia.
  - rewrite lookup_insert_ne by done. intros H. specialize (IH H). lia.
Qed.

Lemma of_to_tree j : of_tree (to_tree j) = j.
Proof.
  enough (forall n j, (json_size j < n)%nat -> of_tree (to_tree j) = j) as H by (eapply H, Nat.lt_succ_diag_r).
  clear j. intros n. induction n as [|n IH]; intros j Hn; [lia|].
  destruct j as [| | | | |l|m]; try done; cbn [json_size] in Hn; cbn [to_tree of_tree]; f_equal.
  - assert (sum_list_with json_size l < n)%nat as Hl by lia. clear Hn.
    induction l as [|j l IHl]; [done|]. cbn in Hl. cbn [map]. rewrite IH by lia. f_equal. apply IHl. lia.
  - assert (forall k v, m !! k = Some v -> of_tree (to_tree v) = v) as Hm.
    { intros k v Hk. apply IH. apply size_field in Hk. lia. }
    clear Hn. revert m Hm. apply (map_fold_weak_ind (fun r m =>
      (forall k v, m !! k = Some v -> of_tree (to_tree v) = v) -> fields_of of_tree r = m)); [done|].
    intros k v m r Hk IHm Hm. cbn [fields_of]. rewrite IHm.
    + f_equal. apply (Hm k). apply lookup_insert_eq.
    + intros k' v' Hk'. apply (Hm k'). rewrite lookup_insert_ne; [done|]. intros ->. congruence.
Qed.

(** A positive number, one byte for each of its bits. *)
Fixpoint bits (p : positive) : list byte :=
  match p with
  | xH => []
  | xO p => Byte.x00 :: bits p
  | xI p => Byte.x01 :: bits p
  end.

Fixpoint of_bits (l : list byte) : positive :=
  match l with
  | [] => xH
  | Byte.x00 :: l => xO (of_bits l)
  | _ :: l => xI (of_bits l)
  end.

Lemma of_bits_bits p : of_bits (bits p) = p.
Proof. induction p as [p IH|p IH|]; cbn; by rewrite ?IH. Qed.

(** Of one URI. *)
Definition parse_uri (url : text) : option uri :=
  if bool_decide (url = txt "https://example.org/mcp")
  then Some {| uriScheme := txt "https:"; uriUserInfo := []; uriRegName := txt "example.org"; uriPort := [];
               uriPath := txt "/mcp" |}
  else None.

Definition library : libraries := {|
  text_toCaseFold := map ascii_lower;
  text_toLower := map ascii_lower;
  parseURI := parse_uri;
  aeson_encode := fun j => Byte.x7b :: bits (encode (to_tree j));
  hermes_parse := fun l => of_tree <$> decode (of_bits (tail l));
|}.

#[global] Instance library_ok : libraries_ok library.
Proof.
  split; try done. intros j. cbn [library hermes_parse aeson_encode].
  cbn [tail]. rewrite of_bits_bits, decode_encode. cbn. by rewrite of_to_tree.
Defined.

End Sample.

Lemma config_json_round_trip_witness :
  let c := with_servers {[txt "docs" := Build_McpServerConfig true None None None None None (txt "d")
                            [] None {[txt "KEY" := txt "secret"]} 30 60 None McpProtocolAuto false
                            false (Some McpLogError)]} defaultHarnessConfig in
  decode_config Sample.library (encode_config Sample.library c) = Some c.
Proof.
  intros c. apply (proj1 (config_json_round_trip Sample.library c)). subst c.
  unfold config_typed, web_fetch_typed, is_int, with_servers, defaultHarnessConfig, defaultWebFetch,
    harnessConfigSchemaVersion.
  cbn [configVersion configMcpServers configWebFetch configLsp configWorktree lspServers
    configMaxConcurrentAgents webFetchTimeoutSeconds webFetchMaxContentBytes
    webFetchMaxInlineBytes worktreeInactiveDays].
  split_and!; try lia.
  - apply (map_Forall_singleton (fun _ => server_typed)).
    unfold server_typed, is_int. cbn [mcpStartupTimeoutSeconds mcpRequestTimeoutSeconds]. lia.
  - apply map_Forall_empty.
  - intros n. discriminate.
Defined.
