(* ===== verification/McpCatalog.v ===== *)
(** * The catalog of MCP servers and connections

    The configuration on disk under its lock (agent-runtime/src/Agent/Runtime/Config.hs), and the
    operations on its MCP servers (agent-native-bridge/src/Agent/CLI/McpAdmin.hs) and on its
    remote connections (McpConnection.hs there).  The files, the failures of the operations on
    them, /dev/urandom and the identifiers are those of a [disk]. *)

From stdpp Require Import base tactics option list gmap sorting strings pretty.
From Stdlib Require Import ZArith Lia.
From coqutil Require Import Byte.
From S2P Require Import Prelude Utf8 BrowserAbi ConfigRevision McpConfig.
#[local] Open Scope Z_scope.

(** ** Maps in the order of their keys *)

(** [Ord Text]. *)
Fixpoint text_leb (a b : text) : bool :=
  match a, b with
  | [], _ => true
  | _ :: _, [] => false
  | x :: a, y :: b => (x <? y) || (x =? y) && text_leb a b
  end.

Definition key_le {A : Type} (p q : text * A) : Prop := Is_true (text_leb (fst p) (fst q)).

#[export] Instance key_le_dec {A : Type} : RelDecision (@key_le A).
Proof. intros p q. unfold key_le. apply _. Defined.

(** [Map.toAscList]. *)
Definition toAscList {A : Type} (m : gmap text A) : list (text * A) := merge_sort key_le (map_to_list m).

(** ** URLs (agent-mcp/src/Agent/MCP/OAuth.hs) *)

Definition null {A : Type} (l : list A) : bool := match l with [] => true | _ => false end.

Definition dropWhileEnd (f : Z -> bool) (s : text) : text := rev (drop_while f (rev s)).

Record UrlParts := {
  urlScheme : text;
  urlAuthority : text;
  urlHost : text;
  urlPort : text;
  urlPath : text;
}.

Definition is_digit (c : Z) : bool := (48 <=? c) && (c <=? 57).

(** [read] of digits. *)
Definition read_digits (s : text) : Z := foldl (fun n c => 10 * n + (c - 48)) 0 s.

Definition validPort (port : text) : bool :=
  match port with
  | [] => true
  | c :: digits =>
      (c =? 58) && negb (null digits) && forallb is_digit digits
      && (0 <? read_digits digits) && (read_digits digits <? 65536)
  end.

Section Validation.
Context (lib : libraries).

Definition parseUrlParts (url : text) : option UrlParts :=
  u ← parseURI lib url;
  ensure (negb (null (uriScheme u)));;
  ensure (null (uriUserInfo u));;
  ensure (negb (null (uriRegName u)));;
  let scheme := text_toLower lib (dropWhileEnd (Z.eqb 58) (uriScheme u)) in
  let host := text_toLower lib (uriRegName u) in
  let port := uriPort u in
  ensure (validPort port);;
  Some {| urlScheme := scheme;
          urlAuthority := host ++ port;
          urlHost := host;
          urlPort := port;
          urlPath := dropWhileEnd (Z.eqb 47) (uriPath u) |}.

Definition isLoopback (host : text) : bool :=
  bool_decide (host = txt "localhost") || bool_decide (host = txt "127.0.0.1")
  || bool_decide (host = txt "[::1]").

(** The message of a refusal. *)
Definition checkSecureUrl (label url : text) : option text :=
  if existsb (Z.eqb 35) url then Some (label ++ txt " must not contain a fragment")
  else match parseUrlParts url with
       | None => Some (label ++ txt " is not a valid absolute URL")
       | Some parts =>
           if bool_decide (urlScheme parts = txt "https") then None
           else if bool_decide (urlScheme parts = txt "http") && isLoopback (urlHost parts) then None
           else Some (label ++ txt " must use https")
       end.

Definition validateOAuthEndpoint : text -> option text := checkSecureUrl (txt "OAuth endpoint").

Definition validateClientIdMetadataUrl (url : text) : option text :=
  match checkSecureUrl (txt "Client ID metadata URL") url with
  | Some e => Some e
  | None =>
      match parseUrlParts url with
      | Some parts =>
          if bool_decide (urlScheme parts = txt "https") && negb (null (urlPath parts)) then None
          else Some (txt "oauth.clientIdMetadataUrl must be an https URL with a path component: " ++ url)
      | None => Some (txt "oauth.clientIdMetadataUrl must be an https URL with a path component: " ++ url)
      end
  end.

(** ** Validation

    What refuses, and the message, in the order in which it is tried. *)

Abbreviation checks := (list (bool * text)).

Definition first_error (l : checks) : option text := snd <$> List.find fst l.

Definition quote (value : text) : text := 39 :: value ++ [39].

(** [Text.null (Text.strip s)]. *)
Definition blank_text (s : text) : bool := null (strip s).

Definition is_some {A : Type} (o : option A) : bool := match o with Some _ => true | None => false end.

Definition on_some {A : Type} (o : option A) (f : A -> checks) : checks := from_option f [] o.

Definition validateOAuth (label : text) (hasUrl : bool) (oauth : McpOAuthConfig) : checks :=
  let server := txt "MCP server " ++ quote label in
  [(negb hasUrl, server ++ txt " oauth requires url");
   (from_option blank_text false (mcpOAuthClientId oauth),
    server ++ txt " oauth.clientId must not be empty");
   (is_some (mcpOAuthClientSecret oauth) && negb (is_some (mcpOAuthClientId oauth)),
    server ++ txt " oauth.clientSecret requires oauth.clientId")]
  ++ on_some (mcpOAuthClientIdMetadataUrl oauth) (fun url =>
       [(is_some (validateClientIdMetadataUrl url),
         server ++ txt " oauth.clientIdMetadataUrl must be an https URL with a path")])
  ++ [(existsb blank_text (mcpOAuthScopes oauth),
       server ++ txt " oauth.scopes must not contain empty entries")].

Definition identity_char (c : Z) : bool :=
  (97 <=? c) && (c <=? 122) || is_digit c || (c =? 45).

Definition validateServer (label : text) (server : McpServerConfig) : checks :=
  let hasUrl := from_option (fun url => negb (blank_text url)) false (mcpUrl server) in
  let hasCommand := negb (blank_text (mcpCommand server)) in
  [(blank_text label, txt "MCP server label must not be empty");
   (Bool.eqb hasUrl hasCommand,
    txt "MCP server " ++ quote label ++ txt " must configure exactly one of url or command")]
  ++ on_some (mcpConnectionId server) (fun connectionId =>
       [(negb (hasUrl && (zlen connectionId <=? 128) && negb (null connectionId)
               && forallb identity_char connectionId),
         txt "MCP connection identity must be a nonempty remote identifier")])
  ++ on_some (mcpDisplayName server) (fun displayName =>
       [(blank_text displayName, txt "MCP connection display name must not be empty")])
  ++ [(mcpStartupTimeoutSeconds server <? 1,
       txt "MCP server " ++ quote label ++ txt " startupTimeoutSeconds must be positive");
      (mcpRequestTimeoutSeconds server <? 1,
       txt "MCP server " ++ quote label ++ txt " requestTimeoutSeconds must be positive")]
  ++ on_some (mcpOAuth server) (validateOAuth label hasUrl).

Definition validateWebFetch (web : WebFetchConfig) : checks :=
  [(webFetchTimeoutSeconds web <? 1, txt "webFetch timeoutSeconds must be positive");
   (300 <? webFetchTimeoutSeconds web, txt "webFetch timeoutSeconds must not exceed 300");
   (webFetchMaxContentBytes web <? 1, txt "webFetch maxContentBytes must be positive");
   (50 * 1024 * 1024 <? webFetchMaxContentBytes web,
    txt "webFetch maxContentBytes must not exceed 52428800");
   (webFetchMaxInlineBytes web <? 1, txt "webFetch maxInlineBytes must be positive");
   (1024 * 1024 <? webFetchMaxInlineBytes web, txt "webFetch maxInlineBytes must not exceed 1048576");
   (webFetchMaxContentBytes web <? webFetchMaxInlineBytes web,
    txt "webFetch maxInlineBytes must not exceed maxContentBytes");
   (existsb blank_text (webFetchAllowedDomains web),
    txt "webFetch allowedDomains must not contain empty entries")].

Definition validateLspServer (label : text) (server : LspServerConfig) : checks :=
  let lsp := txt "LSP server " ++ quote label in
  [(blank_text label, txt "LSP server label must not be empty");
   (blank_text (lspCommand server), lsp ++ txt " has an empty command");
   (bool_decide (lspExtensionToLanguage server = ∅), lsp ++ txt " must configure extensionToLanguage");
   (existsb blank_text (map fst (toAscList (lspExtensionToLanguage server))
                        ++ map snd (toAscList (lspExtensionToLanguage server))),
    lsp ++ txt " has an empty extension or language id");
   (lspStartupTimeoutMilliseconds server <? 1,
    lsp ++ txt " startupTimeoutMilliseconds must be positive");
   (120000 <? lspStartupTimeoutMilliseconds server,
    lsp ++ txt " startupTimeoutMilliseconds must not exceed 120000");
   (lspShutdownTimeoutMilliseconds server <? 1,
    lsp ++ txt " shutdownTimeoutMilliseconds must be positive");
   (120000 <? lspShutdownTimeoutMilliseconds server,
    lsp ++ txt " shutdownTimeoutMilliseconds must not exceed 120000")].

Definition connection_identifiers (config : HarnessConfig) : list text :=
  omap (fun p => mcpConnectionId (snd p)) (toAscList (configMcpServers config)).

Definition config_checks (config : HarnessConfig) : checks :=
  [(worktreeInactiveDays (configWorktree config) <=? 0,
    txt "worktree.inactivityDays must be a positive integer");
   (negb (configVersion config =? harnessConfigSchemaVersion),
    txt "Unsupported harness config version " ++ show_text (configVersion config)
    ++ txt "; expected " ++ show_text harnessConfigSchemaVersion)]
  ++ flat_map (fun p => validateServer (fst p) (snd p)) (toAscList (configMcpServers config))
  ++ [(negb (bool_decide (NoDup (connection_identifiers config))),
       txt "MCP connection identities must be unique")]
  ++ validateWebFetch (configWebFetch config)
  ++ flat_map (fun p => validateLspServer (fst p) (snd p)) (toAscList (lspServers (configLsp config)))
  ++ on_some (configMaxConcurrentAgents config) (fun limit =>
       [(limit <? 1, txt "maxConcurrentAgents must be at least 1")]).

(** The message of the first refusal. *)
Definition validateHarnessConfig (config : HarnessConfig) : option text := first_error (config_checks config).

End Validation.

(** ** The disk

    The configuration and the key of its revisions; the instant of the next operation; how often
    the fleets that run with connections were told that those have changed. *)
Record disk := {
  config_file : option (list byte);
  key_file : option (list byte);
  instant : nat;
  invalidations : nat;
}.

(** An exception, or the value. *)
Definition io (A : Type) : Type := disk -> (text + A) * disk.

(** The exception of the operation of an instant, if it throws (what retries do not cure); what
    a read of 16 bytes of /dev/urandom gives; what a random UUID is; the retirements of the fleets
    that are registered when connections change, by how often they changed before, in the order of
    registration (agent-cli/src/Agent/CLI/NativeRuntime.hs registers [restartMcpSupervisor], which
    throws while a lease is active); the exception of [finally] when both its actions throw. *)
Record nature := {
  fault : nat -> option text;
  urandom : nat -> list byte;
  nextRandom : nat -> text;
  retirements : nat -> list (io unit);
  both_threw : text -> text -> text;
}.

#[export] Instance io_ret : MRet io := fun A a d => (inr a, d).
#[export] Instance io_bind : MBind io := fun A B f m d =>
  match m d with
  | (inl e, d) => (inl e, d)
  | (inr a, d) => f a d
  end.

Definition throw {A : Type} (e : text) : io A := fun d => (inl e, d).

(** [tryIO]: every exception of a file operation is one. *)
Definition try_ {A : Type} (m : io A) : io (text + A) := fun d => let '(r, d) := m d in (inr r, d).

(** The environment and its libraries. *)
Record surroundings := {
  world_libraries : libraries;
  world_nature : nature;
  config_path : text;
}.

(** ** The administration's data (McpAdmin.hs) *)

Inductive McpAdminError :=
  | McpAdminConflict (revision : Z)
  | McpAdminNotFound (name : text)
  | McpAdminAlreadyExists (name : text)
  | McpAdminInvalid (error : text).

Record McpAdminSnapshot {A : Type} := { mcpAdminRevision : Z; mcpAdminValue : A }.
#[global] Arguments McpAdminSnapshot A : clear implicits.
#[global] Arguments Build_McpAdminSnapshot {A} mcpAdminRevision mcpAdminValue.

Record McpAdminServer := {
  mcpAdminName : text;
  mcpAdminEnabled : bool;
  mcpAdminCommand : text;
  mcpAdminArgs : list text;
  mcpAdminCwd : option text;
  mcpAdminEnvKeys : list text;
  mcpAdminStartupTimeoutSeconds : Z;
  mcpAdminRequestTimeoutSeconds : Z;
}.

Record McpAdminServerInput := {
  mcpAdminInputCommand : text;
  mcpAdminInputArgs : list text;
  mcpAdminInputCwd : option text;
  mcpAdminInputEnv : gmap text text;
  mcpAdminInputStartupTimeoutSeconds : Z;
  mcpAdminInputRequestTimeoutSeconds : Z;
}.

Abbreviation answer A := (McpAdminError + McpAdminSnapshot A)%type.

Section Catalog.
Context (w : surroundings).

Let lib := world_libraries w.

Definition next_instant (d : disk) : disk :=
  {| config_file := config_file d; key_file := key_file d; instant := S (instant d);
     invalidations := invalidations d |}.

(** An operation on the file system, of whose effects only its failure matters here. *)
Definition perform : io unit := fun d =>
  (match fault (world_nature w) (instant d) with Some e => inl e | None => inr tt end, next_instant d).

Definition createDirectoryIfMissing : io unit := perform.
Definition setFileMode : io unit := perform.

Definition gets {A : Type} (f : disk -> A) : io A := fun d => (inr (f d), d).

Definition modify (f : disk -> disk) : io unit := fun d => (inr tt, f d).

(** Sixteen bytes of /dev/urandom. *)
Definition read_urandom : io (list byte) :=
  n ← gets instant; perform;; mret (urandom (world_nature w) n).

Definition random_uuid : io text :=
  n ← gets instant; modify next_instant;; mret (nextRandom (world_nature w) n).

Definition set_config (bytes : list byte) (d : disk) : disk :=
  {| config_file := Some bytes; key_file := key_file d; instant := instant d;
     invalidations := invalidations d |}.

Definition set_key (key : list byte) (d : disk) : disk :=
  {| config_file := config_file d; key_file := Some key; instant := instant d;
     invalidations := invalidations d |}.

(** [writeLazyFileAtomically]: an exception leaves the file as it was. *)
Definition write_config (bytes : list byte) : io unit := perform;; modify (set_config bytes).

Definition write_key (key : list byte) : io unit := perform;; modify (set_key key).

(** [withPrivateFileLock]: the lock file and its directory are made private; then the operations
    of the others wait for the end of this one. *)
Definition withPrivateFileLock {A : Type} (action : io A) : io A :=
  createDirectoryIfMissing;; setFileMode;;          (* preparePrivateLockFile *)
  perform;; setFileMode;;                           (* its openFd *)
  perform;; setFileMode;;                           (* lockFile *)
  action.

(** ** The configuration under its lock *)

(** [loadHarnessRevisionKeyUnlocked] without a usable key. *)
Definition generateRevisionKey : io (text + list byte) :=
  generated ← try_ read_urandom;
  match generated with
  | inl e => mret (inl (txt "Failed to generate config revision key: " ++ e))
  | inr key =>
      if (length key =? 16)%nat then
        written ← try_ (createDirectoryIfMissing;; setFileMode;; write_key key);
        match written with
        | inl e => mret (inl (txt "Failed to store config revision key: " ++ e))
        | inr _ => mret (inr key)
        end
      else mret (inl (txt "Failed to generate config revision key"))
  end.

Definition loadHarnessRevisionKeyUnlocked : io (text + list byte) :=
  file ← gets key_file;
  existing ← match file with
             | Some key => try_ (perform;; mret key)
             | None => mret (inr [])
             end;
  match existing with
  | inr key =>
      if (length key =? 16)%nat then
        secured ← try_ setFileMode;
        match secured with
        | inl e => mret (inl (txt "Failed to secure config revision key: " ++ e))
        | inr _ => mret (inr key)
        end
      else generateRevisionKey
  | inl _ => generateRevisionKey
  end.

Definition writeHarnessConfigUnlocked (config : HarnessConfig) : io (text + Z) :=
  match validateHarnessConfig lib config with
  | Some e => mret (inl e)
  | None =>
      let bytes := encode_config lib config in
      loaded ← loadHarnessRevisionKeyUnlocked;
      match loaded with
      | inl e => mret (inl e)
      | inr key =>
          result ← try_ (createDirectoryIfMissing;; setFileMode;; write_config bytes);
          match result with
          | inl e => mret (inl (txt "Failed to write " ++ config_path w ++ txt ": " ++ e))
          | inr _ => mret (inr (keyedConfigRevision key bytes))
          end
      end
  end.

Definition hex_digit (n : Z) : Z := if n <? 10 then 48 + n else 87 + n.

(** [showHex] of the bytes, two digits each. *)
Definition hex (bytes : list byte) : text :=
  flat_map (fun b => [hex_digit (byte.unsigned b / 16); hex_digit (byte.unsigned b mod 16)]) bytes.

(** A remote server without an identity. *)
Definition unidentified (server : McpServerConfig) : bool :=
  is_some (mcpUrl server) && negb (is_some (mcpConnectionId server)).

(** [identify] with the identity that it draws. *)
Definition identified_as (identifier label : text) (s : McpServerConfig) : McpServerConfig :=
  {| mcpEnabled := mcpEnabled s;
     mcpUrl := mcpUrl s;
     mcpConnectionId := Some identifier;
     mcpConnectionCredentials := Some false;
     mcpConnectionGeneration := Some identifier;
     mcpDisplayName := match mcpDisplayName s with None => Some label | existing => existing end;
     mcpCommand := mcpCommand s;
     mcpArgs := mcpArgs s;
     mcpCwd := mcpCwd s;
     mcpEnv := mcpEnv s;
     mcpStartupTimeoutSeconds := mcpStartupTimeoutSeconds s;
     mcpRequestTimeoutSeconds := mcpRequestTimeoutSeconds s;
     mcpOAuth := mcpOAuth s;
     mcpProtocol := mcpProtocol s;
     mcpRoots := mcpRoots s;
     mcpSampling := mcpSampling s;
     mcpLogLevel := mcpLogLevel s |}.

Definition identify (label : text) (server : McpServerConfig) : io McpServerConfig :=
  if unidentified server then
    bytes ← read_urandom;
    if (length bytes =? 16)%nat then mret (identified_as (hex bytes) label server)
    else throw (txt "user error (Unable to generate MCP connection identity)")
  else mret server.

(** [Map.traverseWithKey] over the remaining entries. *)
Fixpoint identify_all (l : list (text * McpServerConfig)) : io (list (text * McpServerConfig)) :=
  match l with
  | [] => mret []
  | (label, server) :: l =>
      server ← identify label server;
      rest ← identify_all l;
      mret ((label, server) :: rest)
  end.

Definition assignMcpConnectionIds (config : HarnessConfig) : io HarnessConfig :=
  servers ← identify_all (toAscList (configMcpServers config));
  mret (with_servers (list_to_map servers) config).

Definition mcpUsesConnectionCredentials (server : McpServerConfig) : bool :=
  default (is_some (mcpConnectionId server)) (mcpConnectionCredentials server).

Definition isJsonWhitespace (b : byte) : bool :=
  let c := byte.unsigned b in (c =? 9) || (c =? 10) || (c =? 13) || (c =? 32).

Definition isBlankJson (bytes : list byte) : bool := forallb isJsonWhitespace bytes.

(** The configuration that the bytes of a file hold. *)
Definition stored_config (bytes : list byte) : option HarnessConfig :=
  if isBlankJson bytes then Some defaultHarnessConfig else decode_config lib bytes.

(** [None] for an error: its text reaches no caller in this file.  Of a configuration
    [assignMcpConnectionIds] changes the servers alone. *)
Definition loadHarnessConfigUnlocked : io (option (Z * HarnessConfig)) :=
  file ← gets config_file;
  read ← match file with
         | Some bytes => try_ (perform;; mret bytes)
         | None => mret (inr (encode_config lib defaultHarnessConfig))
         end;
  match read with
  | inl _ => mret None
  | inr bytes =>
      match stored_config bytes with
      | None => mret None
      | Some config =>
          match validateHarnessConfig lib config with
          | Some _ => mret None
          | None =>
              identified ← assignMcpConnectionIds config;
              if decide (configMcpServers identified = configMcpServers config) then
                key ← loadHarnessRevisionKeyUnlocked;
                mret (match key with
                      | inl _ => None
                      | inr key => Some (keyedConfigRevision key bytes, config)
                      end)
              else
                revision ← writeHarnessConfigUnlocked identified;
                mret (match revision with
                      | inl _ => None
                      | inr revision => Some (revision, identified)
                      end)
          end
      end
  end.

Definition unreadable : text := txt "Unable to read the machine configuration".

Definition loadHarnessConfigSnapshot : io (option (Z * HarnessConfig)) :=
  withPrivateFileLock loadHarnessConfigUnlocked.

Definition withHarnessConfigSnapshot {A : Type} (action : Z -> HarnessConfig -> io A) : io (text + A) :=
  withPrivateFileLock (
    loaded ← loadHarnessConfigUnlocked;
    match loaded with
    | None => mret (inl unreadable)
    | Some (revision, config) => a ← action revision config; mret (inr a)
    end).

Definition modifyHarnessConfigEffect {A : Type}
    (change : Z -> HarnessConfig -> io (text + HarnessConfig * A)) : io (text + Z * A) :=
  withPrivateFileLock (
    loaded ← loadHarnessConfigUnlocked;
    match loaded with
    | None => mret (inl unreadable)
    | Some (revision, config) =>
        changed ← change revision config;
        match changed with
        | inl e => mret (inl e)
        | inr (updated, value) =>
            identified ← assignMcpConnectionIds updated;
            written ← writeHarnessConfigUnlocked identified;
            mret (match written with
                  | inl e => inl e
                  | inr nextRevision => inr (nextRevision, value)
                  end)
        end
    end).


(** ** Servers *)

Definition publicServer (name : text) (server : McpServerConfig) : McpAdminServer := {|
  mcpAdminName := name;
  mcpAdminEnabled := mcpEnabled server;
  mcpAdminCommand := mcpCommand server;
  mcpAdminArgs := mcpArgs server;
  mcpAdminCwd := mcpCwd server;
  mcpAdminEnvKeys := map fst (toAscList (mcpEnv server));
  mcpAdminStartupTimeoutSeconds := mcpStartupTimeoutSeconds server;
  mcpAdminRequestTimeoutSeconds := mcpRequestTimeoutSeconds server;
|}.

Definition inputServer (enabled : bool) (input : McpAdminServerInput) : McpServerConfig := {|
  mcpEnabled := enabled;
  mcpUrl := None;
  mcpConnectionId := None;
  mcpConnectionCredentials := None;
  mcpConnectionGeneration := None;
  mcpDisplayName := None;
  mcpCommand := strip (mcpAdminInputCommand input);
  mcpArgs := mcpAdminInputArgs input;
  mcpCwd := mcpAdminInputCwd input;
  mcpEnv := mcpAdminInputEnv input;
  mcpStartupTimeoutSeconds := mcpAdminInputStartupTimeoutSeconds input;
  mcpRequestTimeoutSeconds := mcpAdminInputRequestTimeoutSeconds input;
  mcpOAuth := None;
  mcpProtocol := McpProtocolAuto;
  mcpRoots := false;
  mcpSampling := false;
  mcpLogLevel := None;
|}.

(** [existing { mcpCommand = .., .. }] of an edit. *)
Definition editedServer (existing : McpServerConfig) (input : McpAdminServerInput) : McpServerConfig := {|
  mcpEnabled := mcpEnabled existing;
  mcpUrl := mcpUrl existing;
  mcpConnectionId := mcpConnectionId existing;
  mcpConnectionCredentials := mcpConnectionCredentials existing;
  mcpConnectionGeneration := mcpConnectionGeneration existing;
  mcpDisplayName := mcpDisplayName existing;
  mcpCommand := strip (mcpAdminInputCommand input);
  mcpArgs := mcpAdminInputArgs input;
  mcpCwd := mcpAdminInputCwd input;
  mcpEnv := mcpAdminInputEnv input;
  mcpStartupTimeoutSeconds := mcpAdminInputStartupTimeoutSeconds input;
  mcpRequestTimeoutSeconds := mcpAdminInputRequestTimeoutSeconds input;
  mcpOAuth := mcpOAuth existing;
  mcpProtocol := mcpProtocol existing;
  mcpRoots := mcpRoots existing;
  mcpSampling := mcpSampling existing;
  mcpLogLevel := mcpLogLevel existing;
|}.

(** [server { mcpEnabled, mcpConnectionGeneration, mcpDisplayName }], the fields that the
    operations on existing servers change. *)
Definition with_state (enabled : bool) (generation displayName : option text) (s : McpServerConfig)
    : McpServerConfig := {|
  mcpEnabled := enabled;
  mcpUrl := mcpUrl s;
  mcpConnectionId := mcpConnectionId s;
  mcpConnectionCredentials := mcpConnectionCredentials s;
  mcpConnectionGeneration := generation;
  mcpDisplayName := displayName;
  mcpCommand := mcpCommand s;
  mcpArgs := mcpArgs s;
  mcpCwd := mcpCwd s;
  mcpEnv := mcpEnv s;
  mcpStartupTimeoutSeconds := mcpStartupTimeoutSeconds s;
  mcpRequestTimeoutSeconds := mcpRequestTimeoutSeconds s;
  mcpOAuth := mcpOAuth s;
  mcpProtocol := mcpProtocol s;
  mcpRoots := mcpRoots s;
  mcpSampling := mcpSampling s;
  mcpLogLevel := mcpLogLevel s;
|}.

(** *** Errors through the configuration's text errors *)

Definition stripPrefix (prefix s : text) : option text :=
  if bool_decide (take (length prefix) s = prefix) then Some (drop (length prefix) s) else None.

(** [reads] to the end, of digits: no other text follows that prefix. *)
Definition read_revision (s : text) : option Z :=
  if negb (null s) && forallb is_digit s then Some (u64 (read_digits s)) else None.

Definition renderMutationError (e : McpAdminError) : text :=
  match e with
  | McpAdminNotFound name => txt "not-found:" ++ name
  | McpAdminAlreadyExists name => txt "exists:" ++ name
  | McpAdminInvalid err => txt "invalid:" ++ err
  | McpAdminConflict revision => txt "conflict:" ++ show_text revision
  end.

Definition parseMutationError (err : text) : McpAdminError :=
  match (raw ← stripPrefix (txt "conflict:") err; read_revision raw) with
  | Some revision => McpAdminConflict revision
  | None =>
      match stripPrefix (txt "not-found:") err with
      | Some name => McpAdminNotFound name
      | None =>
          match stripPrefix (txt "exists:") err with
          | Some name => McpAdminAlreadyExists name
          | None =>
              match stripPrefix (txt "invalid:") err with
              | Some invalid => McpAdminInvalid invalid
              | None => McpAdminInvalid err
              end
          end
      end
  end.

Definition loadSnapshot {A : Type} (project : HarnessConfig -> A) : io (answer A) :=
  loaded ← loadHarnessConfigSnapshot;
  mret (match loaded with
        | None => inl (McpAdminInvalid unreadable)
        | Some (revision, config) => inr (Build_McpAdminSnapshot revision (project config))
        end).

Definition mutateEffect {A : Type} (expected : Z)
    (change : HarnessConfig -> io (McpAdminError + HarnessConfig * A)) : io (answer A) :=
  result ← modifyHarnessConfigEffect (fun current config =>
    if negb (expected =? current) then mret (inl (txt "conflict:" ++ show_text current))
    else
      changed ← change config;
      mret (match changed with inl e => inl (renderMutationError e) | inr p => inr p end));
  mret (match result with
        | inl err => inl (parseMutationError err)
        | inr (revision, value) => inr (Build_McpAdminSnapshot revision value)
        end).

Definition mutate {A : Type} (expected : Z)
    (change : HarnessConfig -> McpAdminError + HarnessConfig * A) : io (answer A) :=
  mutateEffect expected (fun config => mret (change config)).

(** *** The operations *)

(** [listMcpAdminServers]'s projection. *)
Definition listed_servers (config : HarnessConfig) : list McpAdminServer :=
  map (fun p => publicServer (fst p) (snd p))
      (List.filter (fun p => negb (mcpUsesConnectionCredentials (snd p)))
                   (toAscList (configMcpServers config))).

Definition listMcpAdminServers : io (answer (list McpAdminServer)) := loadSnapshot listed_servers.

Definition readMcpAdminServer (name : text) : io (answer McpAdminServer) :=
  loaded ← loadSnapshot configMcpServers;
  mret (match loaded with
        | inl e => inl e
        | inr snapshot =>
            match mcpAdminValue snapshot !! name with
            | None => inl (McpAdminNotFound name)
            | Some server =>
                inr (Build_McpAdminSnapshot (mcpAdminRevision snapshot) (publicServer name server))
            end
        end).

Definition insert_server (name : text) (server : McpServerConfig) (config : HarnessConfig) : HarnessConfig :=
  with_servers (<[name := server]> (configMcpServers config)) config.

Definition delete_server (name : text) (config : HarnessConfig) : HarnessConfig :=
  with_servers (delete name (configMcpServers config)) config.

Definition added_server (name : text) (input : McpAdminServerInput) (config : HarnessConfig)
    : McpAdminError + HarnessConfig * McpAdminServer :=
  if is_some (configMcpServers config !! name) then inl (McpAdminAlreadyExists name)
  else
    let server := inputServer true input in
    inr (insert_server name server config, publicServer name server).

Definition addMcpAdminServer (expected : Z) (name : text) (input : McpAdminServerInput)
    : io (answer McpAdminServer) := mutate expected (added_server name input).

Definition edited_server (name : text) (input : McpAdminServerInput) (config : HarnessConfig)
    : McpAdminError + HarnessConfig * McpAdminServer :=
  match configMcpServers config !! name with
  | None => inl (McpAdminNotFound name)
  | Some existing =>
      if is_some (mcpUrl existing)
      then inl (McpAdminInvalid (txt "remote HTTP MCP servers cannot be edited through this API"))
      else
        let server := editedServer existing input in
        inr (insert_server name server config, publicServer name server)
  end.

Definition editMcpAdminServer (expected : Z) (name : text) (input : McpAdminServerInput)
    : io (answer McpAdminServer) := mutate expected (edited_server name input).

Definition enabled_server (name : text) (enabled : bool) (config : HarnessConfig)
    : McpAdminError + HarnessConfig * McpAdminServer :=
  match configMcpServers config !! name with
  | None => inl (McpAdminNotFound name)
  | Some existing =>
      let server := with_state enabled (mcpConnectionGeneration existing) (mcpDisplayName existing) existing in
      inr (insert_server name server config, publicServer name server)
  end.

Definition setMcpAdminServerEnabled (expected : Z) (name : text) (enabled : bool)
    : io (answer McpAdminServer) := mutate expected (enabled_server name enabled).

Definition removed_server (name : text) (config : HarnessConfig)
    : McpAdminError + HarnessConfig * unit :=
  match configMcpServers config !! name with
  | None => inl (McpAdminNotFound name)
  | Some server =>
      if mcpUsesConnectionCredentials server
      then inl (McpAdminInvalid (txt "Managed MCP connections must be removed through the connection API"))
      else inr (delete_server name config, tt)
  end.

Definition removeMcpAdminServer (expected : Z) (name : text) : io (answer unit) :=
  mutate expected (removed_server name).

(** [restart] discards the engine's fleet. *)
Definition restartMcpAdminServer (expected : Z) (name : text) (restart : io unit)
    : io (answer McpAdminServer) :=
  result ← withHarnessConfigSnapshot (fun current config =>
    if negb (current =? expected) then mret (inl (McpAdminConflict current))
    else match configMcpServers config !! name with
         | None => mret (inl (McpAdminNotFound name))
         | Some server =>
             restart;; mret (inr (Build_McpAdminSnapshot current (publicServer name server)))
         end);
  mret (match result with
        | inl err => inl (McpAdminInvalid err)
        | inr result => result
        end).

(** ** Remote connections (McpConnection.hs) *)

Record McpConnection := {
  connectionId : text;
  connectionDisplayName : text;
  connectionUrl : text;
  connectionEnabled : bool;
  connectionGeneration : option text;
}.

Definition connectionServerName (identifier : text) : text := txt "connection_" ++ identifier.

Definition publicConnection (identifier url : text) (server : McpServerConfig) : McpConnection := {|
  connectionId := identifier;
  connectionDisplayName := default identifier (mcpDisplayName server);
  connectionUrl := url;
  connectionEnabled := mcpEnabled server;
  connectionGeneration := mcpConnectionGeneration server;
|}.

(** [isControl]. *)
Definition isControl (c : Z) : bool := (c <? 32) || (127 <=? c) && (c <=? 159).

Definition validateDisplayName (value : text) : McpAdminError + text :=
  let label := strip value in
  if null label || (200 <? zlen label) || existsb isControl label
  then inl (McpAdminInvalid (txt "Connection name must contain 1" ++ 8211 ::
              txt "200 characters and no control characters"))
  else inr label.

Definition validateEndpoint (value : text) : McpAdminError + text :=
  let endpoint := strip value in
  match validateOAuthEndpoint lib endpoint with
  | Some e => inl (McpAdminInvalid e)
  | None => inr endpoint
  end.

(** The rows that [findConnection] filters. *)
Definition connection_row (identifier : text) (p : text * McpServerConfig)
    : option (text * text * McpServerConfig) :=
  if bool_decide (mcpConnectionId (snd p) = Some identifier)
  then url ← mcpUrl (snd p); Some (fst p, url, snd p)
  else None.

Definition findConnection (identifier : text) (config : HarnessConfig)
    : McpAdminError + text * text * McpServerConfig :=
  match omap (connection_row identifier) (toAscList (configMcpServers config)) with
  | [connection] => inr connection
  | _ => inl (McpAdminNotFound identifier)
  end.

Definition listed_connections (config : HarnessConfig) : list McpConnection :=
  omap (fun p => identifier ← mcpConnectionId (snd p); url ← mcpUrl (snd p);
                 Some (publicConnection identifier url (snd p)))
       (toAscList (configMcpServers config)).

Definition listMcpConnections : io (answer (list McpConnection)) := loadSnapshot listed_connections.

(** [finally]: the second action runs whatever the first does. *)
Definition finally {A : Type} (action : io A) (after : io unit) : io A := fun d =>
  let '(r, d1) := action d in
  let '(s, d2) := after d1 in
  (match r, s with
   | inl e, inl e' => inl (both_threw (world_nature w) e e')
   | inl e, inr _ | inr _, inl e => inl e
   | inr a, inr _ => inr a
   end, d2).

Definition next_invalidation (d : disk) : disk :=
  {| config_file := config_file d; key_file := key_file d; instant := instant d;
     invalidations := S (invalidations d) |}.

(** Every registered fleet is retired, even if the retirement of another throws. *)
Definition invalidateMcpConnectionRuntimes : io unit :=
  n ← gets invalidations;
  modify next_invalidation;;
  foldr finally (mret tt) (retirements (world_nature w) n).

(** The change was made when the fleets are told of it: their exception is then that of the
    request. *)
Definition invalidateAfter {A : Type} (action : io (answer A)) : io (answer A) :=
  result ← action;
  match result with
  | inr _ => invalidateMcpConnectionRuntimes;; mret result
  | inl _ => mret result
  end.

Definition changed_connection (identifier : text)
    (change : McpServerConfig -> McpAdminError + McpServerConfig) (config : HarnessConfig)
    : McpAdminError + HarnessConfig * McpConnection :=
  match findConnection identifier config with
  | inl e => inl e
  | inr (name, url, existing) =>
      match change existing with
      | inl e => inl e
      | inr server => inr (insert_server name server config, publicConnection identifier url server)
      end
  end.

Definition changeConnection (expected : Z) (identifier : text)
    (change : McpServerConfig -> McpAdminError + McpServerConfig) : io (answer McpConnection) :=
  mutate expected (changed_connection identifier change).

Definition createdConnection (identifier generation displayName url : text) : McpServerConfig := {|
  mcpEnabled := true;
  mcpUrl := Some url;
  mcpConnectionId := Some identifier;
  mcpConnectionCredentials := Some true;
  mcpConnectionGeneration := Some generation;
  mcpDisplayName := Some displayName;
  mcpCommand := [];
  mcpArgs := [];
  mcpCwd := None;
  mcpEnv := ∅;
  mcpStartupTimeoutSeconds := 30;
  mcpRequestTimeoutSeconds := 60;
  mcpOAuth := None;
  mcpProtocol := McpProtocolAuto;
  mcpRoots := false;
  mcpSampling := false;
  mcpLogLevel := None;
|}.

Definition created_connection (identifier generation label endpoint : text) (config : HarnessConfig)
    : McpAdminError + HarnessConfig * McpConnection :=
  match validateDisplayName label, validateEndpoint endpoint with
  | inl e, _ => inl e
  | _, inl e => inl e
  | inr displayName, inr url =>
      let name := connectionServerName identifier in
      let server := createdConnection identifier generation displayName url in
      if is_some (configMcpServers config !! name) then inl (McpAdminAlreadyExists identifier)
      else inr (insert_server name server config, publicConnection identifier url server)
  end.

Definition createMcpConnection (expected : Z) (label endpoint : text) : io (answer McpConnection) :=
  identifier ← random_uuid;
  generation ← random_uuid;
  invalidateAfter (mutate expected (created_connection identifier generation label endpoint)).

Definition renamed_connection (label : text) (server : McpServerConfig) : McpAdminError + McpServerConfig :=
  match validateDisplayName label with
  | inl e => inl e
  | inr displayName =>
      inr (with_state (mcpEnabled server) (mcpConnectionGeneration server) (Some displayName) server)
  end.

Definition renameMcpConnection (expected : Z) (identifier label : text) : io (answer McpConnection) :=
  invalidateAfter (changeConnection expected identifier (renamed_connection label)).

Definition enabled_connection (enabled : bool) (generation : text) (server : McpServerConfig)
    : McpAdminError + McpServerConfig :=
  inr (with_state enabled (Some generation) (mcpDisplayName server) server).

Definition setMcpConnectionEnabled (expected : Z) (identifier : text) (enabled : bool)
    : io (answer McpConnection) :=
  generation ← random_uuid;
  invalidateAfter (changeConnection expected identifier (enabled_connection enabled generation)).

Definition removeMcpConnectionWith (deleteCredential : text -> io (text + unit)) (expected : Z)
    (identifier : text) : io (answer unit) :=
  invalidateAfter (mutateEffect expected (fun config =>
    match findConnection identifier config with
    | inl e => mret (inl e)
    | inr (name, _, server) =>
        deleted ← (if mcpUsesConnectionCredentials server
                   then deleteCredential identifier else mret (inr tt));
        mret (match deleted with
              | inl err => inl (McpAdminInvalid err)
              | inr _ => inr (delete_server name config, tt)
              end)
    end)).

End Catalog.
