(* ===== verification/McpTransactions.v ===== *)
(** * Transactions on the catalog

    The abstract machine that the configuration is to its clients, a configuration with its
    revision, and how the transactions of [McpCatalog] under the lock take its steps when no
    operation on the file system fails: [load_snapshot_represented], [mutate_represented],
    [with_snapshot_represented].  Errors of the administration survive the text that carries
    them through the configuration ([parse_render], [parse_plain]). *)

From stdpp Require Import base tactics option list gmap sorting strings pretty.
From Stdlib Require Import ZArith Lia.
From coqutil Require Import Byte.
From S2P Require Import Prelude Utf8 BrowserAbi ConfigRevision McpConfig McpCatalog.
#[local] Open Scope Z_scope.

(** ** Maps as lists *)

#[export] Instance key_le_total {A : Type} : Total (@key_le A).
Proof.
  intros [a x] [b y]. unfold key_le. cbn [fst]. clear x y. revert b.
  induction a as [|c a IH]; intros [|d b]; cbn; [by left|by left|by right|].
  destruct (Z.ltb_spec c d); [by left|]. destruct (Z.ltb_spec d c); [by right|].
  assert (c = d) as -> by lia. rewrite Z.eqb_refl. apply IH.
Qed.

#[export] Instance key_le_trans {A : Type} : Transitive (@key_le A).
Proof.
  intros [a x] [b y] [c z]. unfold key_le. cbn [fst]. clear x y z. revert b c.
  induction a as [|i a IH]; intros [|j b] [|k c]; cbn; try done.
  rewrite !orb_True, !andb_True, !Is_true_true, !Z.ltb_lt, !Z.eqb_eq.
  intros [?|[-> ?]] [?|[-> ?]]; [left; lia|by left|by left|right]. split; [done|].
  apply Is_true_true. by eapply IH; apply Is_true_true.
Qed.

Lemma toAscList_Permutation {A : Type} (m : gmap text A) : toAscList m ≡ₚ map_to_list m.
Proof. apply merge_sort_Permutation. Qed.

Lemma elem_of_toAscList {A : Type} (m : gmap text A) k a : (k, a) ∈ toAscList m <-> m !! k = Some a.
Proof. by rewrite toAscList_Permutation, elem_of_map_to_list. Qed.

Lemma NoDup_toAscList {A : Type} (m : gmap text A) : NoDup ((toAscList m).*1).
Proof. rewrite toAscList_Permutation. apply NoDup_fst_map_to_list. Qed.

(** The keys come in ascending order. *)
Lemma toAscList_ascending {A : Type} (m : gmap text A) : StronglySorted key_le (toAscList m).
Proof. apply StronglySorted_merge_sort; apply _. Qed.

Lemma toAscList_map {A : Type} (m : gmap text A) : list_to_map (toAscList m) = m.
Proof.
  rewrite <- (list_to_map_to_list m) at 2.
  apply list_to_map_proper; [apply NoDup_toAscList|apply toAscList_Permutation].
Qed.

Lemma with_same_servers c : with_servers (configMcpServers c) c = c.
Proof. by destruct c. Qed.

(** ** Revisions as text *)

Lemma u64_word z : u64 z = z <-> 0 <= z < 2 ^ 64.
Proof. unfold u64. split; [intros <-; apply Z.mod_pos_bound; lia|apply Z.mod_small]. Qed.

(** A word of 64 bits, by its high bits. *)
Definition is_word (z : Z) : Prop := 0 <= z /\ Z.shiftr z 64 = 0.

Lemma word_range z : is_word z <-> 0 <= z < 2 ^ 64.
Proof.
  unfold is_word. rewrite Z.shiftr_div_pow2 by lia. split; intros [? H].
  - split; [done|]. apply Z.div_small_iff in H; lia.
  - split; [done|]. apply Z.div_small. lia.
Qed.

Lemma word_xor a b : is_word a -> is_word b -> is_word (Z.lxor a b).
Proof.
  intros [? Ha] [? Hb]. split; [by apply Z.lxor_nonneg|]. by rewrite Z.shiftr_lxor, Ha, Hb.
Qed.

Lemma word_u64 z : is_word (u64 z).
Proof. apply word_range. apply Z.mod_pos_bound. lia. Qed.

Lemma word_rotate x n : is_word x -> 0 <= n <= 64 -> is_word (rotateL x n).
Proof.
  intros Hx Hn. unfold rotateL.
  assert (is_word (Z.shiftr x (64 - n))) as Hr.
  { apply word_range. apply word_range in Hx. rewrite Z.shiftr_div_pow2 by lia.
    pose proof (Z.pow_pos_nonneg 2 (64 - n) ltac:(lia) ltac:(lia)). split; [apply Z.div_pos; lia|].
    eapply Z.le_lt_trans; [apply Z.div_le_upper_bound with (q := x)|]; nia. }
  destruct Hr as [? Hr], (word_u64 (Z.shiftl x n)) as [? Hu].
  split; [by apply Z.lor_nonneg|]. by rewrite Z.shiftr_lor, Hr, Hu.
Qed.

Definition is_state (v : word) : Prop :=
  let '(v0, v1, v2, v3) := v in is_word v0 /\ is_word v1 /\ is_word v2 /\ is_word v3.

Lemma sip_rounds_words n v : is_state v -> is_state (sipRounds n v).
Proof.
  revert v. induction n as [|n IH]; intros [[[v0 v1] v2] v3]; [done|]. intros (? & ? & ? & ?).
  cbn [sipRounds]. apply IH.
  unfold is_state. split_and!;
    repeat first [assumption | apply word_u64 | apply word_xor | apply word_rotate; [|lia]].
Qed.

Lemma word_read l : is_word (word64LE l).
Proof.
  unfold word64LE. change (fun acc b => _) with word64LE_step.
  assert (forall acc, is_word (snd acc) -> is_word (snd (foldl word64LE_step acc l))) as H.
  { induction l as [|b l IH]; intros acc Ha; [done|]. cbn [foldl]. apply IH.
    destruct acc as [o v]. cbn [word64LE_step snd fst] in *.
    destruct Ha as [? Ha], (word_u64 (Z.shiftl (byte.unsigned b) o)) as [? Hu].
    split; [by apply Z.lor_nonneg|]. by rewrite Z.shiftr_lor, Ha, Hu. }
  by apply H.
Qed.

Lemma compress_words fuel total v l : is_state v -> is_state (compressBlocks fuel total v l).
Proof.
  revert v l. induction fuel as [|fuel IH]; intros [[[v0 v1] v2] v3] l; [done|].
  intros (? & ? & ? & ?). cbn [compressBlocks].
  destruct (8 <=? zlen l).
  - pose proof (word_read (ztake 8 l)) as Hm.
    pose proof (sip_rounds_words 2 (v0, v1, v2, Z.lxor v3 (word64LE (ztake 8 l)))) as Hs.
    destruct (sipRounds 2 _) as [[[r0 r1] r2] r3].
    destruct Hs as (? & ? & ? & ?); [by unfold is_state; split_and!; try assumption; apply word_xor|].
    apply IH. by unfold is_state; split_and!; try assumption; apply word_xor.
  - assert (is_word (Z.lor (u64 (Z.shiftl total 56)) (word64LE l))) as Hm.
    { destruct (word_read l) as [? Hl], (word_u64 (Z.shiftl total 56)) as [? Hu].
      split; [by apply Z.lor_nonneg|]. by rewrite Z.shiftr_lor, Hl, Hu. }
    pose proof (sip_rounds_words 2 (v0, v1, v2, Z.lxor v3 (Z.lor (u64 (Z.shiftl total 56)) (word64LE l)))) as Hs.
    destruct (sipRounds 2 _) as [[[r0 r1] r2] r3].
    destruct Hs as (? & ? & ? & ?); [by unfold is_state; split_and!; try assumption; apply word_xor|].
    by unfold is_state; split_and!; try assumption; apply word_xor.
Qed.

Lemma revision_in_word key bytes : 0 <= keyedConfigRevision key bytes < 2 ^ 64.
Proof.
  apply word_range. unfold keyedConfigRevision, finalize.
  match goal with |- context [compressBlocks ?f ?t ?v ?l] => pose proof (compress_words f t v l) as Hc end.
  destruct (compressBlocks _ _ _ _) as [[[v0 v1] v2] v3].
  destruct Hc as (? & ? & ? & ?).
  { unfold is_state. split_and!; (apply word_xor; [split; [lia|reflexivity]|apply word_read]). }
  pose proof (sip_rounds_words 4 (v0, v1, Z.lxor v2 255, v3)) as Hs.
  destruct (sipRounds 4 _) as [[[r0 r1] r2] r3].
  destruct Hs as (? & ? & ? & ?).
  { unfold is_state. split_and!; try assumption. apply word_xor; [assumption|]. split; [lia|reflexivity]. }
  repeat (assumption || apply word_xor).
Qed.

Definition digit_step (n c : Z) : Z := 10 * n + (c - 48).

Lemma pretty_digit x :
  (x < 10)%N ->
  is_digit (Z.of_N (Ascii.N_of_ascii (pretty_N_char x))) = true
  /\ Z.of_N (Ascii.N_of_ascii (pretty_N_char x)) - 48 = Z.of_N x.
Proof.
  intros Hx. assert (x = 0 \/ x = 1 \/ x = 2 \/ x = 3 \/ x = 4 \/ x = 5 \/ x = 6 \/ x = 7 \/ x = 8
                     \/ x = 9)%N as Hc by lia.
  by destruct_or! Hc; subst.
Qed.

Lemma read_pretty x s :
  foldl digit_step 0 (txt (pretty_N_go x s)) = foldl digit_step (Z.of_N x) (txt s)
  /\ (forallb is_digit (txt s) = true -> forallb is_digit (txt (pretty_N_go x s)) = true).
Proof.
  revert s. induction (N.lt_wf_0 x) as [x _ IH]; intros s.
  destruct (decide (0 < x)%N) as [Hx|Hx].
  - rewrite pretty_N_go_step by done.
    destruct (IH (x `div` 10)%N ltac:(by apply N.div_lt) (String (pretty_N_char (x `mod` 10)) s)) as [-> Hd].
    destruct (pretty_digit (x `mod` 10)) as [Hg Hv]; [by apply N.mod_lt|]. split.
    + cbn [txt foldl]. unfold digit_step at 2. rewrite Hv. f_equal.
      rewrite N2Z.inj_div, N2Z.inj_mod. pose proof (Z.div_mod (Z.of_N x) 10). lia.
    + intros H. apply Hd. cbn [txt forallb]. by rewrite Hg, H.
  - assert (x = 0%N) as -> by lia. by rewrite pretty_N_go_0.
Qed.

Lemma read_show_revision n : 0 <= n < 2 ^ 64 -> read_revision (show_text n) = Some n.
Proof.
  intros Hn. unfold show_text. assert (exists x, n = Z.of_N x) as [x ->].
  { exists (Z.to_N n). lia. }
  assert (pretty (Z.of_N x) = pretty x) as -> by by destruct x.
  unfold pretty, pretty_N. destruct (decide (x = 0)%N) as [->|Hx]; [done|].
  destruct (read_pretty x "") as [Hr Hd]. specialize (Hd eq_refl).
  unfold read_revision. rewrite Hd. unfold read_digits. change (fun n c => _) with digit_step.
  rewrite Hr. cbn [txt foldl]. rewrite u64_id by done.
  destruct (txt (pretty_N_go x "")) eqn:E; [|done].
  cbn [foldl txt] in Hr. lia.
Qed.

(** ** Errors as text *)

Lemma strip_prefix_app p s : stripPrefix p (p ++ s) = Some s.
Proof.
  unfold stripPrefix. rewrite take_app_length, bool_decide_true by done. by rewrite drop_app_length.
Qed.

(** What an error of the catalog may carry. *)
Definition error_ok (e : McpAdminError) : Prop :=
  match e with McpAdminConflict revision => 0 <= revision < 2 ^ 64 | _ => True end.

Lemma parse_render e : error_ok e -> parseMutationError (renderMutationError e) = e.
Proof.
  destruct e as [n|s|s|s]; intros H; unfold parseMutationError, renderMutationError; [|done..].
  rewrite strip_prefix_app. cbn [mbind option_bind]. by rewrite read_show_revision.
Qed.

(** A text that is no rendered error: none of them begins as the messages do. *)
Definition plain (s : text) : Prop :=
  match s with c :: _ => c ∉ [99; 110; 101; 105] | [] => False end.

Lemma strip_other (d : Z) p c s : c <> d -> stripPrefix (d :: p) (c :: s) = None.
Proof. intros Hne. unfold stripPrefix. cbn [length take]. by rewrite bool_decide_false by congruence. Qed.

Lemma parse_plain s : plain s -> parseMutationError s = McpAdminInvalid s.
Proof.
  destruct s as [|c s]; [done|]. unfold plain. rewrite !elem_of_cons, elem_of_nil. intros Hc.
  unfold parseMutationError. cbn [txt Ascii.N_of_ascii Ascii.N_of_digits].
  by rewrite !strip_other by (cbn; lia).
Qed.

Section Messages.
Context (lib : libraries).

Definition plain_checks (l : list (bool * text)) : Prop := Forall (fun c => plain (snd c)) l.

Lemma plain_app l k : plain_checks l -> plain_checks k -> plain_checks (l ++ k).
Proof. apply Forall_app_2. Qed.

Lemma plain_on_some {A : Type} (o : option A) f : (forall a, plain_checks (f a)) -> plain_checks (on_some o f).
Proof. intros H. destruct o; [apply H|constructor]. Qed.

Lemma plain_flat_map {A : Type} (l : list A) f : (forall a, plain_checks (f a)) -> plain_checks (flat_map f l).
Proof. intros H. induction l; [constructor|]. cbn. by apply plain_app. Qed.

Ltac plain_list :=
  cbv zeta; repeat first
    [ apply plain_app | apply plain_on_some; intros ? | apply plain_flat_map; intros ?
    | apply Forall_cons; split; [unfold plain; cbn; rewrite !elem_of_cons, elem_of_nil; lia|]
    | apply Forall_nil | exact I ].

Lemma plain_config c : plain_checks (config_checks lib c).
Proof.
  unfold config_checks. plain_list.
Qed.

Lemma validation_plain c e : validateHarnessConfig lib c = Some e -> plain e.
Proof.
  unfold validateHarnessConfig, first_error. intros ([b m] & H & ->)%fmap_Some.
  apply find_some in H as [H _]. pose proof (plain_config c) as Hp.
  unfold plain_checks in Hp. rewrite Forall_forall in Hp. apply (Hp (b, m)). by apply list_elem_of_In.
Qed.

End Messages.

(** ** Runs without failures *)

Section Runs.
Context (w : surroundings) `{!libraries_ok (world_libraries w)}.

Let lib := world_libraries w.

(** No operation fails from now on. *)
Definition quiet (d : disk) : Prop := forall n, (instant d <= n)%nat -> fault (world_nature w) n = None.

(** Time has passed and nothing else. *)
Definition later (d d' : disk) : Prop :=
  config_file d' = config_file d /\ key_file d' = key_file d
  /\ invalidations d' = invalidations d /\ (instant d <= instant d')%nat.

#[export] Instance later_refl : Reflexive later.
Proof. intros d. by repeat split. Qed.

#[export] Instance later_trans : Transitive later.
Proof. intros d1 d2 d3 (? & ? & ? & ?) (? & ? & ? & ?). repeat split; [congruence..|lia]. Qed.

Lemma quiet_later d d' : quiet d -> (instant d <= instant d')%nat -> quiet d'.
Proof. intros H Hl n Hn. apply H. lia. Qed.

Lemma perform_quiet d : quiet d -> perform w d = (inr tt, next_instant d).
Proof. intros H. unfold perform. by rewrite (H (instant d)). Qed.

Lemma quiet_next d : quiet d -> quiet (next_instant d).
Proof. intros H. eapply quiet_later; [exact H|]. cbn. lia. Qed.

Lemma later_next d : later d (next_instant d).
Proof. repeat split. cbn. lia. Qed.

Lemma bind_io {A B : Type} (m : io A) (f : A -> io B) d :
  (m ≫= f) d = match m d with (inl e, d) => (inl e, d) | (inr a, d) => f a d end.
Proof. done. Qed.

Lemma bind_inr {A B : Type} (m : io A) (f : A -> io B) d a d' :
  m d = (inr a, d') -> (m ≫= f) d = f a d'.
Proof. intros H. by rewrite bind_io, H. Qed.

Lemma try_inr {A : Type} (m : io A) d a d' : m d = (inr a, d') -> try_ m d = (inr (inr a), d').
Proof. intros H. unfold try_. by rewrite H. Qed.

Lemma lock_quiet {A : Type} (action : io A) d :
  quiet d -> withPrivateFileLock w action d = action (Nat.iter 6 next_instant d).
Proof.
  intros H. unfold withPrivateFileLock, createDirectoryIfMissing, setFileMode.
  do 6 (erewrite bind_inr; [|apply perform_quiet; repeat apply quiet_next; exact H]). done.
Qed.

Lemma later_locked d : later d (Nat.iter 6 next_instant d).
Proof. repeat split. cbn. lia. Qed.

(** *** The key, and writing *)

Lemma load_key_quiet key d :
  quiet d -> key_file d = Some key -> length key = 16%nat ->
  exists d', loadHarnessRevisionKeyUnlocked w d = (inr (inr key), d') /\ later d d'.
Proof.
  intros Hq Hk Hl. unfold loadHarnessRevisionKeyUnlocked, gets. rewrite bind_io, Hk.
  erewrite bind_inr; [|apply try_inr; erewrite bind_inr by (by apply perform_quiet); reflexivity].
  cbn beta iota. rewrite Hl. cbn [Nat.eqb].
  erewrite bind_inr; [|apply try_inr, perform_quiet, quiet_next; exact Hq].
  eexists. split; [reflexivity|]. repeat split. cbn. lia.
Qed.

(** A configuration was written. *)
Definition written (d : disk) (bytes : list byte) (d' : disk) : Prop :=
  config_file d' = Some bytes /\ key_file d' = key_file d
  /\ invalidations d' = invalidations d /\ (instant d <= instant d')%nat.

Lemma later_written d1 d2 bytes d3 : later d1 d2 -> written d2 bytes d3 -> written d1 bytes d3.
Proof. intros (? & ? & ? & ?) (? & ? & ? & ?). repeat split; [done|congruence..|lia]. Qed.

Lemma write_quiet key config d :
  quiet d -> key_file d = Some key -> length key = 16%nat ->
  exists r d', writeHarnessConfigUnlocked w config d = (inr r, d')
  /\ match validateHarnessConfig lib config with
     | Some e => r = inl e /\ later d d'
     | None =>
         r = inr (keyedConfigRevision key (encode_config lib config))
         /\ written d (encode_config lib config) d'
     end.
Proof.
  intros Hq Hk Hl. unfold writeHarnessConfigUnlocked. fold lib.
  destruct (validateHarnessConfig lib config) as [e|]; [by exists (inl e), d|].
  destruct (load_key_quiet key d Hq Hk Hl) as (d1 & H1 & Hd1).
  erewrite bind_inr by exact H1. cbn beta iota.
  assert (quiet d1) as Hq1 by (eapply quiet_later; [exact Hq|apply Hd1]).
  erewrite bind_inr.
  2:{ apply try_inr. unfold createDirectoryIfMissing, setFileMode, write_config.
      do 3 (erewrite bind_inr; [|apply perform_quiet; repeat apply quiet_next; exact Hq1]).
      reflexivity. }
  do 2 eexists. split; [reflexivity|]. split; [done|].
  eapply later_written; [exact Hd1|]. repeat split. cbn. lia.
Qed.

(** *** Identities *)

(** Every remote server has its identity. *)
Definition identified (config : HarnessConfig) : Prop :=
  map_Forall (fun _ server => unidentified server = false) (configMcpServers config).

Lemma identify_all_done l d :
  Forall (fun p => unidentified (snd p) = false) l -> identify_all w l d = (inr l, d).
Proof.
  induction 1 as [|[label s] l Hs _ IH]; [done|]. cbn [identify_all]. cbn [snd] in Hs.
  unfold identify. rewrite Hs. rewrite bind_io. cbn [mret io_ret]. erewrite bind_inr by exact IH. done.
Qed.

Lemma assign_identified config d : identified config -> assignMcpConnectionIds w config d = (inr config, d).
Proof.
  intros H. unfold assignMcpConnectionIds. erewrite bind_inr.
  - unfold mret, io_ret. by rewrite toAscList_map, with_same_servers.
  - apply identify_all_done, Forall_forall. intros [k s] Hs. apply elem_of_toAscList in Hs.
    exact (H k s Hs).
Qed.

(** ** The abstract machine *)

Record catalog := { cat_revision : Z; cat_config : HarnessConfig }.

(** The bytes of the configuration; a file that is missing holds the default. *)
Definition held_bytes (d : disk) : list byte :=
  default (encode_config lib defaultHarnessConfig) (config_file d).

(** The disk holds a configuration with its revision under a key. *)
Record represents (key : list byte) (c : catalog) (d : disk) : Prop := {
  rep_key : key_file d = Some key;
  rep_length : length key = 16%nat;
  rep_stored : stored_config w (held_bytes d) = Some (cat_config c);
  rep_revision : cat_revision c = keyedConfigRevision key (held_bytes d);
  rep_valid : validateHarnessConfig lib (cat_config c) = None;
  rep_identified : identified (cat_config c);
}.

Lemma represents_later key c d d' : represents key c d -> later d d' -> represents key c d'.
Proof.
  intros [H1 H2 H3 H4 H5 H6] (Hc & Hk & _).
  split; unfold held_bytes in *; rewrite ?Hc, ?Hk; done.
Qed.

Lemma encoded_not_blank config : isBlankJson (encode_config lib config) = false.
Proof.
  unfold isBlankJson, encode_config, config_json, object.
  match goal with |- context [aeson_encode lib (JObject ?m)] => pose proof (encode_object m) as H end.
  fold lib in H. destruct (aeson_encode lib _) as [|b l]; [done|]. injection H as ->. done.
Qed.

Lemma stored_encoded config :
  config_typed config -> stored_config w (encode_config lib config) = Some config.
Proof.
  intros H. unfold stored_config. fold lib. rewrite encoded_not_blank.
  by apply decode_encode_config.
Qed.

Lemma default_typed : config_typed defaultHarnessConfig.
Proof.
  unfold config_typed, web_fetch_typed, is_int, defaultHarnessConfig, defaultWebFetch,
    harnessConfigSchemaVersion.
  cbn [configVersion configMcpServers configWebFetch configLsp configWorktree lspServers
    configMaxConcurrentAgents webFetchTimeoutSeconds webFetchMaxContentBytes
    webFetchMaxInlineBytes worktreeInactiveDays].
  split_and!; try lia; try apply map_Forall_empty. intros n. discriminate.
Qed.

Lemma stored_typed bytes config : stored_config w bytes = Some config -> config_typed config.
Proof.
  unfold stored_config. destruct (isBlankJson bytes); [intros [= <-]; apply default_typed|].
  apply config_decoded.
Qed.

(** The catalog that a configuration makes when it is written. *)
Definition catalog_of (key : list byte) (config : HarnessConfig) : catalog :=
  {| cat_revision := keyedConfigRevision key (encode_config lib config); cat_config := config |}.

Lemma represents_written key config d d' :
  key_file d = Some key -> length key = 16%nat -> config_typed config -> identified config ->
  validateHarnessConfig lib config = None -> written d (encode_config lib config) d' ->
  represents key (catalog_of key config) d'.
Proof.
  intros Hk Hl Ht Hi Hv (Hc & Hk' & _). split; unfold held_bytes; rewrite ?Hc, ?Hk'; try done.
  by apply stored_encoded.
Qed.

(** Loading what is represented. *)
Lemma load_represented key c d :
  quiet d -> represents key c d ->
  exists d', loadHarnessConfigUnlocked w d = (inr (Some (cat_revision c, cat_config c)), d') /\ later d d'.
Proof.
  intros Hq H. unfold loadHarnessConfigUnlocked, gets. rewrite bind_io. fold lib.
  assert (exists d1, (match config_file d with
             | Some bytes => try_ (perform w;; mret bytes)
             | None => mret (inr (encode_config lib defaultHarnessConfig))
             end) d = (inr (inr (held_bytes d)), d1) /\ later d d1) as (d1 & H1 & Hd1).
  { unfold held_bytes. destruct (config_file d) as [bytes|]; [|by exists d].
    eexists. split; [apply try_inr; erewrite bind_inr by (by apply perform_quiet); reflexivity|].
    apply later_next. }
  erewrite bind_inr by exact H1. cbn beta iota.
  rewrite (rep_stored _ _ _ H), (rep_valid _ _ _ H).
  erewrite bind_inr by (by apply assign_identified, (rep_identified _ _ _ H)).
  rewrite decide_True by done.
  assert (quiet d1) as Hq1 by (eapply quiet_later; [exact Hq|apply Hd1]).
  destruct (load_key_quiet key d1 Hq1) as (d2 & H2 & Hd2).
  { destruct Hd1 as (_ & -> & _). apply H. }
  { apply H. }
  erewrite bind_inr by exact H2. exists d2. rewrite (rep_revision _ _ _ H).
  split; [done|]. by etrans.
Qed.

(** A change of the configuration, as [modifyHarnessConfigEffect] runs it: [f] is what the
    callback answers. *)
Definition spec_modify {A : Type} (key : list byte) (f : Z -> HarnessConfig -> text + HarnessConfig * A)
    (c : catalog) : (text + Z * A) * catalog :=
  match f (cat_revision c) (cat_config c) with
  | inl e => (inl e, c)
  | inr (config, v) =>
      match validateHarnessConfig lib config with
      | Some e => (inl e, c)
      | None => (inr (cat_revision (catalog_of key config), v), catalog_of key config)
      end
  end.

(** What a run did to the catalog; only the fleets may also have been told. *)
Definition moved (key : list byte) (c' : catalog) (d d' : disk) : Prop :=
  represents key c' d' /\ (instant d <= instant d')%nat.

(** The callback only takes time. *)
Definition timed {A : Type} (m : io A) : Prop :=
  forall d, quiet d -> exists a d', m d = (inr a, d') /\ later d d'.

Lemma modify_represented {A : Type} key c d (change : Z -> HarnessConfig -> io (text + HarnessConfig * A)) :
  quiet d -> represents key c d -> timed (change (cat_revision c) (cat_config c)) ->
  (forall d1 config v d2,
     change (cat_revision c) (cat_config c) d1 = (inr (inr (config, v)), d2) ->
     config_typed config /\ identified config) ->
  exists a d0 d1 d', change (cat_revision c) (cat_config c) d0 = (inr a, d1) /\ later d d0
  /\ let s := spec_modify key (fun _ _ => a) c in
     modifyHarnessConfigEffect w change d = (inr (fst s), d')
     /\ moved key (snd s) d d' /\ invalidations d' = invalidations d.
Proof.
  intros Hq Hr Ht Hok. unfold modifyHarnessConfigEffect. rewrite lock_quiet by done.
  set (d1 := Nat.iter 6 next_instant d).
  assert (later d d1) as Hd1 by apply later_locked.
  assert (quiet d1) as Hq1 by (eapply quiet_later; [exact Hq|apply Hd1]).
  destruct (load_represented key c d1 Hq1) as (d2 & H2 & Hd2); [by eapply represents_later|].
  erewrite bind_inr by exact H2. cbn beta iota.
  assert (quiet d2) as Hq2 by (eapply quiet_later; [exact Hq1|apply Hd2]).
  destruct (Ht d2 Hq2) as (a & d3 & H3 & Hd3).
  exists a, d2, d3. erewrite bind_inr by exact H3.
  assert (later d d3) as Hd by (transitivity d1; [done|by transitivity d2]).
  assert (later d d2) as Hd02 by (by transitivity d1).
  destruct a as [e|[config v]].
  { exists d3. cbn. split; [done|]. split; [done|]. split; [done|].
    split; [|apply Hd]. split; [by eapply represents_later|apply Hd]. }
  destruct (Hok _ _ _ _ H3) as [Htyped Hi]. cbn beta iota.
  erewrite bind_inr by (by apply assign_identified).
  assert (quiet d3) as Hq3 by (eapply quiet_later; [exact Hq|apply Hd]).
  destruct (write_quiet key config d3 Hq3) as (r & d4 & H4 & Hw).
  { destruct Hd as (_ & -> & _). apply Hr. }
  { apply Hr. }
  exists d4. split; [done|]. split; [done|]. erewrite bind_inr by exact H4.
  unfold spec_modify. destruct (validateHarnessConfig lib config) as [e|] eqn:Hv;
    destruct Hw as [-> Hw]; cbn [fst snd].
  - split; [done|]. assert (later d d4) as Hd4 by by transitivity d3.
    split; [|apply Hd4]. split; [by eapply represents_later|apply Hd4].
  - split; [done|]. assert (written d (encode_config lib config) d4) as Hd4
      by (eapply later_written; [exact Hd|exact Hw]).
    split; [|apply Hd4]. split; [|apply Hd4].
    eapply represents_written; [apply Hr..| | | |]; done.
Qed.

(** A change to the revision [expected], answered as the administration does: [change] is what
    the operation makes of the configuration. *)
Definition spec_mutate {A : Type} (key : list byte) (expected : Z)
    (change : HarnessConfig -> McpAdminError + HarnessConfig * A) (c : catalog) : answer A * catalog :=
  if negb (expected =? cat_revision c) then (inl (McpAdminConflict (cat_revision c)), c)
  else match change (cat_config c) with
  | inl e => (inl e, c)
  | inr (config, v) =>
      match validateHarnessConfig lib config with
      | Some e => (inl (McpAdminInvalid e), c)
      | None =>
          (inr (Build_McpAdminSnapshot (cat_revision (catalog_of key config)) v), catalog_of key config)
      end
  end.

(** What a change may answer: errors that a text can carry, configurations that can be
    written. *)
Definition change_ok {A : Type} (r : McpAdminError + HarnessConfig * A) : Prop :=
  match r with
  | inl e => error_ok e
  | inr (config, _) => config_typed config /\ identified config
  end.

Lemma mutate_represented {A : Type} key expected (change : HarnessConfig -> io (McpAdminError + HarnessConfig * A)) c d :
  quiet d -> represents key c d -> timed (change (cat_config c)) ->
  (forall d1 a d2, change (cat_config c) d1 = (inr a, d2) -> change_ok a) ->
  exists a d', (expected = cat_revision c -> exists d1 d2, change (cat_config c) d1 = (inr a, d2))
  /\ let s := spec_mutate key expected (fun _ => a) c in
     mutateEffect w expected change d = (inr (fst s), d')
     /\ moved key (snd s) d d' /\ invalidations d' = invalidations d.
Proof.
  intros Hq Hr Ht Hok. unfold mutateEffect, spec_mutate.
  match goal with |- context [modifyHarnessConfigEffect w ?f] => set (callback := f) end.
  destruct (modify_represented key c d callback Hq Hr) as (a & d0 & d1 & d' & Hc & _ & Hm & Hmv & Hi).
  { intros d1 Hq1. subst callback. cbn beta. destruct (negb (expected =? cat_revision c)).
    - do 2 eexists. split; [reflexivity|done].
    - destruct (Ht d1 Hq1) as (a & d2 & H2 & Hd2). erewrite bind_inr by exact H2.
      do 2 eexists. split; [reflexivity|done]. }
  { intros d1 config v d2. subst callback. cbn beta.
    destruct (negb (expected =? cat_revision c)); [done|]. rewrite bind_io.
    destruct (change (cat_config c) d1) as [[|[e|p]] d3] eqn:E; try done.
    intros [= -> ->]. exact (Hok _ _ _ E). }
  erewrite bind_inr by exact Hm. unfold spec_modify in *. subst callback. cbn beta in Hc.
  destruct (Z.eqb_spec expected (cat_revision c)) as [He|He]; cbn [negb] in *.
  - rewrite bind_io in Hc.
    destruct (change (cat_config c) d0) as [[|r] d2] eqn:E; [done|]. cbn in Hc. injection Hc as <- <-.
    exists r, d'. split; [by intros _; exists d0, d2|].
    pose proof (Hok _ _ _ E) as Hr'. destruct r as [e|[config v]]; cbn [fst snd] in *.
    + by rewrite parse_render.
    + destruct (validateHarnessConfig lib config) as [e|] eqn:Hv; cbn [fst snd] in *; [|done].
      rewrite parse_plain; [done|]. by eapply validation_plain.
  - injection Hc as <- _. exists (inl (McpAdminInvalid [])), d'. split; [done|].
    assert (error_ok (McpAdminConflict (cat_revision c))) as Hrev.
    { cbn. rewrite (rep_revision _ _ _ Hr). apply revision_in_word. }
    split; [|exact (conj Hmv Hi)].
    exact (f_equal (fun e => (inr (inl e), d')) (parse_render _ Hrev)).
Qed.

Lemma load_snapshot_represented {A : Type} key c d (project : HarnessConfig -> A) :
  quiet d -> represents key c d ->
  exists d', loadSnapshot w project d =
    (inr (inr (Build_McpAdminSnapshot (cat_revision c) (project (cat_config c)))), d') /\ later d d'.
Proof.
  intros Hq Hr. unfold loadSnapshot, loadHarnessConfigSnapshot. rewrite bind_io, lock_quiet by done.
  destruct (load_represented key c (Nat.iter 6 next_instant d)) as (d2 & -> & H2).
  { eapply quiet_later; [exact Hq|apply later_locked]. }
  { eapply represents_later; [done|apply later_locked]. }
  exists d2. split; [done|]. transitivity (Nat.iter 6 next_instant d); [apply later_locked|done].
Qed.

Lemma with_snapshot_represented {A : Type} key c d (action : Z -> HarnessConfig -> io A) :
  quiet d -> represents key c d -> timed (action (cat_revision c) (cat_config c)) ->
  exists a d0 d1 d', action (cat_revision c) (cat_config c) d0 = (inr a, d1)
  /\ withHarnessConfigSnapshot w action d = (inr (inr a), d') /\ later d d'.
Proof.
  intros Hq Hr Ht. unfold withHarnessConfigSnapshot. rewrite lock_quiet by done.
  destruct (load_represented key c (Nat.iter 6 next_instant d)) as (d2 & H2 & Hd2).
  { eapply quiet_later; [exact Hq|apply later_locked]. }
  { eapply represents_later; [done|apply later_locked]. }
  assert (later d d2) as Hd by (transitivity (Nat.iter 6 next_instant d); [apply later_locked|done]).
  destruct (Ht d2) as (a & d3 & H3 & Hd3); [eapply quiet_later; [exact Hq|apply Hd]|].
  exists a, d2, d3, d3. split; [done|]. erewrite bind_inr by exact H2. cbn beta iota.
  erewrite bind_inr by exact H3. split; [done|]. by transitivity d2.
Qed.

End Runs.

(** ** A world in which nothing fails *)

Module World.

Definition calm : surroundings := {|
  world_libraries := Sample.library;
  world_nature := {| fault := fun _ => None; urandom := fun _ => []; nextRandom := fun _ => txt "u";
                     retirements := fun _ => []; both_threw := fun e _ => e |};
  config_path := txt "/h/config.json";
|}.

(** A key of revisions. *)
Definition key : list byte := replicate 16 Byte.x07.

(** A server with a variable, as it is before and after its file. *)
Definition server (secret : text) : McpServerConfig :=
  Build_McpServerConfig true None None None None None (txt "npx") [txt "-y"] None
    {[txt "TOKEN" := secret]} 30 60 None McpProtocolAuto false false None.

Definition config (secret : text) : HarnessConfig :=
  with_servers {[txt "docs" := server secret]} defaultHarnessConfig.

Definition catalog (secret : text) : catalog := catalog_of calm key (config secret).

Definition disk_of (secret : text) : disk := {|
  config_file := Some (encode_config Sample.library (config secret));
  key_file := Some key;
  instant := 0;
  invalidations := 0;
|}.

Lemma calm_quiet d : quiet calm d.
Proof. intros n _. reflexivity. Qed.

Lemma config_is_typed secret : config_typed (config secret).
Proof.
  unfold config_typed, web_fetch_typed, is_int, config, with_servers, defaultHarnessConfig, defaultWebFetch,
    harnessConfigSchemaVersion.
  cbn [configVersion configMcpServers configWebFetch configLsp configWorktree lspServers
    configMaxConcurrentAgents webFetchTimeoutSeconds webFetchMaxContentBytes
    webFetchMaxInlineBytes worktreeInactiveDays].
  split_and!; try lia.
  - apply (map_Forall_singleton (fun _ => server_typed)).
    unfold server_typed, is_int. cbn [server mcpStartupTimeoutSeconds mcpRequestTimeoutSeconds]. lia.
  - apply map_Forall_empty.
  - intros n. discriminate.
Qed.

Lemma disk_represents secret : represents calm key (catalog secret) (disk_of secret).
Proof.
  apply (represents_written calm key (config secret) (disk_of secret) (disk_of secret)); try reflexivity.
  - apply config_is_typed.
  - by apply (map_Forall_singleton (fun _ s => unidentified s = false)).
  - unfold written. split_and!; done.
Qed.

End World.
