(* ===== verification/McpRequests.v ===== *)
(** * Requests to the catalog

    What the entries of the bridge ask of the catalog of MCP servers and connections.
    [catalog_refines]: sequences of requests are steps of the abstract machine, which changes
    only at the revision that the client has seen; [catalog_errors_keep]: whatever fails, a
    request that reports an error leaves the configuration as it was, but for identities that
    it lacked, and one that succeeds names what is stored.  Connections have an exception: their
    fleets are retired when a change is stored, and what a retirement throws is then the outcome
    of the request, although the change was made. *)

From stdpp Require Import base tactics option list gmap sorting strings.
From Stdlib Require Import ZArith Lia.
From coqutil Require Import Byte.
From S2P Require Import Prelude Utf8 BrowserAbi ConfigRevision McpConfig McpCatalog McpTransactions.
#[local] Open Scope Z_scope.

Inductive mcp_request :=
  | servers_list
  | server_read (name : text)
  | server_add (expected : Z) (name : text) (input : McpAdminServerInput)
  | server_edit (expected : Z) (name : text) (input : McpAdminServerInput)
  | server_set_enabled (expected : Z) (name : text) (enabled : bool)
  | server_remove (expected : Z) (name : text)
  | server_restart (expected : Z) (name : text)
  | connections_list
  | connection_create (expected : Z) (label endpoint : text)
  | connection_rename (expected : Z) (identifier label : text)
  | connection_set_enabled (expected : Z) (identifier : text) (enabled : bool)
  | connection_remove (expected : Z) (identifier : text).

Inductive mcp_response :=
  | servers_answer (a : answer (list McpAdminServer))
  | server_answer (a : answer McpAdminServer)
  | done_answer (a : answer unit)
  | connections_answer (a : answer (list McpConnection))
  | connection_answer (a : answer McpConnection).

Definition answered {A B : Type} (f : A -> B) (m : io A) : io B := a ← m; mret (f a).

Section Requests.
Context (w : surroundings).

(** The deletion of a record of the protected store, and the end of the engine's fleet. *)
Context (deleteCredential : text -> io (text + unit)) (restart : io unit).

Let lib := world_libraries w.

Definition run_request (r : mcp_request) : io mcp_response :=
  match r with
  | servers_list => answered servers_answer (listMcpAdminServers w)
  | server_read name => answered server_answer (readMcpAdminServer w name)
  | server_add expected name input => answered server_answer (addMcpAdminServer w expected name input)
  | server_edit expected name input => answered server_answer (editMcpAdminServer w expected name input)
  | server_set_enabled expected name enabled =>
      answered server_answer (setMcpAdminServerEnabled w expected name enabled)
  | server_remove expected name => answered done_answer (removeMcpAdminServer w expected name)
  | server_restart expected name =>
      answered server_answer (restartMcpAdminServer w expected name restart)
  | connections_list => answered connections_answer (listMcpConnections w)
  | connection_create expected label endpoint =>
      answered connection_answer (createMcpConnection w expected label endpoint)
  | connection_rename expected identifier label =>
      answered connection_answer (renameMcpConnection w expected identifier label)
  | connection_set_enabled expected identifier enabled =>
      answered connection_answer (setMcpConnectionEnabled w expected identifier enabled)
  | connection_remove expected identifier =>
      answered done_answer (removeMcpConnectionWith w deleteCredential expected identifier)
  end.

(** One after another, each with its outcome: a thread of its own runs each request. *)
Fixpoint run_requests (rs : list mcp_request) (d : disk) : list (text + mcp_response) * disk :=
  match rs with
  | [] => ([], d)
  | r :: rs =>
      let '(a, d1) := run_request r d in
      let '(l, d2) := run_requests rs d1 in
      (a :: l, d2)
  end.

(** ** The abstract machine *)

(** What a request draws: identifiers, whether the store deletes the record, and what the
    retirement of the fleets throws. *)
Record draws := {
  drawn_identifier : text;
  drawn_generation : text;
  drawn_deletion : text + unit;
  drawn_retirement : option text;
}.

(** [removeMcpConnectionWith]'s change, with the answer of the store. *)
Definition removed_connection (identifier : text) (deletion : text + unit) (config : HarnessConfig)
    : McpAdminError + HarnessConfig * unit :=
  match findConnection identifier config with
  | inl e => inl e
  | inr (name, _, server) =>
      match (if mcpUsesConnectionCredentials server then deletion else inr tt) with
      | inl err => inl (McpAdminInvalid err)
      | inr _ => inr (delete_server name config, tt)
      end
  end.

Definition seen {A : Type} (c : catalog) (a : A) : answer A :=
  inr (Build_McpAdminSnapshot (cat_revision c) a).

Definition spec_request (key : list byte) (x : draws) (r : mcp_request) (c : catalog)
    : mcp_response * catalog :=
  let servers := configMcpServers (cat_config c) in
  match r with
  | servers_list => (servers_answer (seen c (listed_servers (cat_config c))), c)
  | server_read name =>
      (server_answer (match servers !! name with
                      | None => inl (McpAdminNotFound name)
                      | Some server => seen c (publicServer name server)
                      end), c)
  | server_add expected name input =>
      prod_map server_answer id (spec_mutate w key expected (added_server name input) c)
  | server_edit expected name input =>
      prod_map server_answer id (spec_mutate w key expected (edited_server name input) c)
  | server_set_enabled expected name enabled =>
      prod_map server_answer id (spec_mutate w key expected (enabled_server name enabled) c)
  | server_remove expected name =>
      prod_map done_answer id (spec_mutate w key expected (removed_server name) c)
  | server_restart expected name =>
      (server_answer (if negb (cat_revision c =? expected) then inl (McpAdminConflict (cat_revision c))
                      else match servers !! name with
                           | None => inl (McpAdminNotFound name)
                           | Some server => seen c (publicServer name server)
                           end), c)
  | connections_list => (connections_answer (seen c (listed_connections (cat_config c))), c)
  | connection_create expected label endpoint =>
      prod_map connection_answer id (spec_mutate w key expected
        (created_connection w (drawn_identifier x) (drawn_generation x) label endpoint) c)
  | connection_rename expected identifier label =>
      prod_map connection_answer id (spec_mutate w key expected
        (changed_connection identifier (renamed_connection label)) c)
  | connection_set_enabled expected identifier enabled =>
      prod_map connection_answer id (spec_mutate w key expected
        (changed_connection identifier (enabled_connection enabled (drawn_generation x))) c)
  | connection_remove expected identifier =>
      prod_map done_answer id (spec_mutate w key expected
        (removed_connection identifier (drawn_deletion x)) c)
  end.

(** The fleets with connections are told of every change of a connection. *)
Definition notified (r : mcp_request) (a : mcp_response) : nat :=
  match r, a with
  | (connection_create _ _ _ | connection_rename _ _ _ | connection_set_enabled _ _ _),
    connection_answer (inr _) => 1
  | connection_remove _ _, done_answer (inr _) => 1
  | _, _ => 0
  end%nat.

(** The outcome of a request: the answer, or what a retirement threw after the change. *)
Definition spec_outcome (key : list byte) (x : draws) (r : mcp_request) (c : catalog)
    : (text + mcp_response) * catalog :=
  let '(a, c') := spec_request key x r c in
  (match notified r a, drawn_retirement x with
   | S _, Some e => inl e
   | _, _ => inr a
   end, c').

Fixpoint spec_requests (key : list byte) (l : list (draws * mcp_request)) (c : catalog)
    : list (text + mcp_response) * catalog :=
  match l with
  | [] => ([], c)
  | (x, r) :: l =>
      let '(a, c) := spec_outcome key x r c in
      let '(rest, c) := spec_requests key l c in
      (a :: rest, c)
  end.

(** The integers of a request are of their type. *)
Definition input_typed (input : McpAdminServerInput) : Prop :=
  is_int (mcpAdminInputStartupTimeoutSeconds input) /\ is_int (mcpAdminInputRequestTimeoutSeconds input).

Definition request_typed (r : mcp_request) : Prop :=
  match r with
  | server_add _ _ input | server_edit _ _ input => input_typed input
  | _ => True
  end.

(** ** The changes keep what is true of the configuration *)

Lemma typed_with_servers m c :
  config_typed c -> map_Forall (fun _ => server_typed) m -> config_typed (with_servers m c).
Proof. intros (? & _ & ? & ? & ? & ?) Hm. unfold config_typed. by split_and!. Qed.

Lemma insert_ok name s c :
  config_typed c -> identified c -> server_typed s -> unidentified s = false ->
  config_typed (insert_server name s c) /\ identified (insert_server name s c).
Proof.
  intros Hc Hi Hs Hu. split.
  - apply typed_with_servers; [done|]. apply map_Forall_insert_2; [done|apply Hc].
  - unfold identified. cbn. by apply map_Forall_insert_2.
Qed.

Lemma delete_ok name c :
  config_typed c -> identified c ->
  config_typed (delete_server name c) /\ identified (delete_server name c).
Proof.
  intros Hc Hi. split.
  - apply typed_with_servers; [done|]. apply map_Forall_delete, Hc.
  - unfold identified. cbn. by apply map_Forall_delete.
Qed.

Lemma find_connection_some identifier c name url s :
  findConnection identifier c = inr (name, url, s) ->
  configMcpServers c !! name = Some s /\ mcpUrl s = Some url /\ mcpConnectionId s = Some identifier.
Proof.
  unfold findConnection. destruct (omap _ _) as [|row [|]] eqn:E; try done. intros [= ->].
  assert ((name, url, s) ∈ omap (connection_row identifier) (toAscList (configMcpServers c))) as H.
  { rewrite E. by apply list_elem_of_singleton. }
  apply list_elem_of_omap in H as ([k s'] & Hk & H). unfold connection_row in H. cbn [fst snd] in H.
  case_bool_decide as Hid; [|done]. destruct (mcpUrl s') as [u|] eqn:Hu; [|done].
  injection H as -> -> ->. by apply elem_of_toAscList in Hk.
Qed.

Lemma find_connection_error identifier c e : findConnection identifier c = inl e -> error_ok e.
Proof.
  unfold findConnection. destruct (omap _ _) as [|row [|]]; try done; intros [= <-]; done.
Qed.

Section Changes.
Context (c : HarnessConfig) (Htyped : config_typed c) (Hidentified : identified c).

(** A server of the configuration. *)
Lemma stored_server name s :
  configMcpServers c !! name = Some s -> server_typed s /\ unidentified s = false.
Proof.
  intros H. destruct Htyped as (_ & Ht & _). split; [by apply (Ht name)|by apply (Hidentified name)].
Qed.

Lemma added_ok name input : input_typed input -> change_ok (added_server name input c).
Proof.
  intros Hi. unfold added_server. destruct (is_some _); [done|]. by apply insert_ok.
Qed.

Lemma edited_ok name input : input_typed input -> change_ok (edited_server name input c).
Proof.
  intros Hi. unfold edited_server. destruct (configMcpServers c !! name) as [s|] eqn:E; [|done].
  destruct (is_some (mcpUrl s)) eqn:Hu; [done|]. apply insert_ok; [done..|].
  unfold unidentified. cbn. by rewrite Hu.
Qed.

Lemma with_state_ok name s enabled generation displayName :
  configMcpServers c !! name = Some s ->
  config_typed (insert_server name (with_state enabled generation displayName s) c)
  /\ identified (insert_server name (with_state enabled generation displayName s) c).
Proof. intros H. apply stored_server in H as [Ht Hu]. by apply insert_ok. Qed.

Lemma enabled_ok name enabled : change_ok (enabled_server name enabled c).
Proof.
  unfold enabled_server. destruct (configMcpServers c !! name) as [s|] eqn:E; [|done].
  by apply with_state_ok.
Qed.

Lemma removed_ok name : change_ok (removed_server name c).
Proof.
  unfold removed_server. destruct (configMcpServers c !! name) as [s|]; [|done].
  destruct (mcpUsesConnectionCredentials s); [done|]. by apply delete_ok.
Qed.

Lemma created_ok identifier generation label endpoint :
  change_ok (created_connection w identifier generation label endpoint c).
Proof.
  unfold created_connection, validateDisplayName, validateEndpoint.
  destruct (_ || _); [done|]. destruct (validateOAuthEndpoint _ _); [done|].
  destruct (is_some _); [done|]. by apply insert_ok.
Qed.

Lemma changed_ok identifier change :
  (forall name s r, configMcpServers c !! name = Some s -> change s = r ->
     match r with
     | inl e => error_ok e
     | inr s' => server_typed s' /\ unidentified s' = false
     end) ->
  change_ok (changed_connection identifier change c).
Proof.
  intros H. unfold changed_connection. destruct (findConnection identifier c) as [e|[[name url] s]] eqn:E.
  { by eapply find_connection_error. }
  apply find_connection_some in E as (Hs & _). pose proof (H _ _ _ Hs eq_refl) as Hc.
  destruct (change s) as [e|s']; [done|]. destruct Hc. by apply insert_ok.
Qed.

Lemma renamed_ok identifier label :
  change_ok (changed_connection identifier (renamed_connection label) c).
Proof.
  apply changed_ok. intros name s r Hs <-. unfold renamed_connection, validateDisplayName.
  destruct (_ || _); [done|]. by apply stored_server in Hs.
Qed.

Lemma connection_enabled_ok identifier enabled generation :
  change_ok (changed_connection identifier (enabled_connection enabled generation) c).
Proof. apply changed_ok. intros name s r Hs <-. by apply stored_server in Hs. Qed.

Lemma removed_connection_ok identifier deletion :
  change_ok (removed_connection identifier deletion c).
Proof.
  unfold removed_connection. destruct (findConnection identifier c) as [e|[[name url] s]] eqn:E.
  { by eapply find_connection_error. }
  destruct (if mcpUsesConnectionCredentials s then deletion else inr tt); [done|]. by apply delete_ok.
Qed.

End Changes.

(** ** The requests are steps of the machine *)

Section Refinement.
Context `{!libraries_ok (world_libraries w)}.
Context (Hdelete : forall identifier, timed w (deleteCredential identifier)).
Context (Hrestart : timed w restart).

(** An action that may throw and only takes time. *)
Definition passes {A : Type} (m : io A) : Prop := forall d, quiet w d -> later d (snd (m d)).

(** The requests after which the fleets may be told. *)
Definition of_connections (r : mcp_request) : bool :=
  match r with
  | connection_create _ _ _ | connection_rename _ _ _ | connection_set_enabled _ _ _
  | connection_remove _ _ => true
  | _ => false
  end.

(** The other requests end in their answer. *)
Lemma silent_outcome key x r c :
  of_connections r = false ->
  spec_outcome key x r c = (inr (fst (spec_request key x r c)), snd (spec_request key x r c)).
Proof.
  intros Hc. unfold spec_outcome. destruct (spec_request key x r c) as [a c']. cbn [fst snd]. by destruct r.
Qed.

Definition retirements_pass : Prop := forall n, Forall passes (retirements (world_nature w) n).

Lemma represented_config key c d :
  represents w key c d -> config_typed (cat_config c) /\ identified (cat_config c).
Proof. intros H. split; [eapply stored_typed, H|apply H]. Qed.

Lemma mutate_step {A : Type} key c d expected (change : HarnessConfig -> McpAdminError + HarnessConfig * A) :
  quiet w d -> represents w key c d -> change_ok (change (cat_config c)) ->
  exists d', mutate w expected change d = (inr (fst (spec_mutate w key expected change c)), d')
  /\ moved w key (snd (spec_mutate w key expected change c)) d d' /\ invalidations d' = invalidations d.
Proof.
  intros Hq Hr Hok.
  destruct (mutate_represented w key expected (fun config => mret (change config)) c d Hq Hr)
    as (a & d' & Ha & Hm).
  { intros d1 Hq1. by exists (change (cat_config c)), d1. }
  { intros d1 a d2 [= <- _]. done. }
  exists d'. unfold mutate. unfold spec_mutate in *.
  destruct (Z.eqb_spec expected (cat_revision c)) as [He|He]; cbn [negb] in *; [|done].
  destruct (Ha He) as (d1 & d2 & [= <- _]). done.
Qed.

(** Every fleet is retired, whatever the others throw. *)
Lemma finally_passes {A : Type} (m : io A) after : passes m -> passes after -> passes (finally w m after).
Proof.
  intros Hm Ha d Hq. unfold finally. pose proof (Hm d Hq) as H1.
  destruct (m d) as [r d1]. cbn [snd] in H1.
  pose proof (Ha d1 (quiet_later w d d1 Hq ltac:(apply H1))) as H2.
  destruct (after d1) as [s d2]. cbn [snd] in *. by transitivity d1.
Qed.

Lemma invalidate_quiet d :
  retirements_pass -> quiet w d ->
  later (next_invalidation d) (snd (invalidateMcpConnectionRuntimes w d)).
Proof.
  intros Hp Hq. unfold invalidateMcpConnectionRuntimes, gets, modify. rewrite !bind_io.
  specialize (Hp (invalidations d)).
  assert (passes (foldr (finally w) (mret tt) (retirements (world_nature w) (invalidations d)))) as H.
  { induction Hp as [|m l Hm _ IH]; [by intros d' _|]. by apply finally_passes. }
  apply H. eapply quiet_later; [exact Hq|done].
Qed.

(** What the fleets answer when they are told. *)
Definition retired (x : draws) (d : disk) : Prop :=
  fst (invalidateMcpConnectionRuntimes w d) =
  match drawn_retirement x with Some e => inl e | None => inr tt end.

Definition retirement_at (d : disk) : option text :=
  match fst (invalidateMcpConnectionRuntimes w d) with inl e => Some e | inr _ => None end.

Lemma retired_at x d : drawn_retirement x = retirement_at d -> retired x d.
Proof.
  unfold retired, retirement_at. intros ->. by destruct (fst (invalidateMcpConnectionRuntimes w d)) as [|[]].
Qed.

(** What the world has to do with the draws of a request that the disk [d] is given. *)
Definition drawn (key : list byte) (x : draws) (r : mcp_request) (c : catalog) (d : disk) : Prop :=
  match r with
  | connection_create _ _ _ =>
      drawn_identifier x = nextRandom (world_nature w) (instant d)
      /\ drawn_generation x = nextRandom (world_nature w) (S (instant d))
  | connection_set_enabled _ _ _ => drawn_generation x = nextRandom (world_nature w) (instant d)
  | connection_remove _ identifier => exists d1, fst (deleteCredential identifier d1) = inr (drawn_deletion x)
  | _ => True
  end
  /\ (notified r (fst (spec_request key x r c)) = 1%nat ->
       exists d1, invalidations d1 = invalidations d
       /\ represents w key (snd (spec_request key x r c)) d1 /\ retired x d1).

(** A request that ran as the machine does. *)
Definition ran (key : list byte) (x : draws) (r : mcp_request) (c : catalog) (d d' : disk) : Prop :=
  run_request r d = (fst (spec_outcome key x r c), d')
  /\ represents w key (snd (spec_outcome key x r c)) d' /\ (instant d <= instant d')%nat
  /\ invalidations d' = (invalidations d + notified r (fst (spec_request key x r c)))%nat
  /\ drawn key x r c d.

(** A request of which the fleets are not told. *)
Lemma ran_silent key x r c d a c' d' :
  spec_request key x r c = (a, c') -> notified r a = 0%nat -> of_connections r = false ->
  run_request r d = (inr a, d') -> represents w key c' d' -> (instant d <= instant d')%nat ->
  invalidations d' = invalidations d -> ran key x r c d d'.
Proof.
  intros Hs Hn Hc Hrun Hr Hle Hi. unfold ran, drawn, spec_outcome. rewrite Hs. cbn [fst snd]. rewrite Hn.
  split_and!; [done..|lia| |done]. by destruct r.
Qed.

Definition some_draws : draws :=
  {| drawn_identifier := []; drawn_generation := []; drawn_deletion := inr tt; drawn_retirement := None |}.

Lemma represents_files key c d d' :
  represents w key c d -> config_file d' = config_file d -> key_file d' = key_file d ->
  represents w key c d'.
Proof. intros [] Hc Hk. split; unfold held_bytes in *; rewrite ?Hc, ?Hk; done. Qed.

(** A plain change. *)
Lemma ran_mutate {A : Type} key c d expected change (f : answer A -> mcp_response) r :
  quiet w d -> represents w key c d -> change_ok (change (cat_config c)) ->
  run_request r = answered f (mutate w expected change) ->
  spec_request key some_draws r c = prod_map f id (spec_mutate w key expected change c) ->
  notified r (f (fst (spec_mutate w key expected change c))) = 0%nat -> of_connections r = false ->
  ran key some_draws r c d (snd (mutate w expected change d)).
Proof.
  intros Hq Hr Hok Hrun Hspec Hn Hc. destruct (mutate_step key c d expected change Hq Hr Hok)
    as (d' & Hm & [Hmv Hle] & Hi).
  rewrite Hm. destruct (spec_mutate w key expected change c) as [a c']. cbn [prod_map fst snd] in *.
  eapply ran_silent; [exact Hspec|exact Hn|exact Hc| |exact Hmv|exact Hle|exact Hi].
  rewrite Hrun. unfold answered. by erewrite bind_inr by exact Hm.
Qed.

(** A change of connections after some draws, of which the fleets are told; [x] is what it draws
    but for their answer. *)
Lemma ran_connection {A : Type} key c d d0 x expected change (f : answer A -> mcp_response) m r :
  retirements_pass -> quiet w d -> represents w key c d -> later d d0 ->
  (exists d1, m d0 = (inr (fst (spec_mutate w key expected change c)), d1)
     /\ moved w key (snd (spec_mutate w key expected change c)) d0 d1
     /\ invalidations d1 = invalidations d0) ->
  run_request r d = answered f (invalidateAfter w m) d0 ->
  (forall o, let y := {| drawn_identifier := drawn_identifier x; drawn_generation := drawn_generation x;
                 drawn_deletion := drawn_deletion x; drawn_retirement := o |} in
     spec_request key y r c = prod_map f id (spec_mutate w key expected change c)
     /\ (match r with
         | connection_create _ _ _ =>
             drawn_identifier y = nextRandom (world_nature w) (instant d)
             /\ drawn_generation y = nextRandom (world_nature w) (S (instant d))
         | connection_set_enabled _ _ _ => drawn_generation y = nextRandom (world_nature w) (instant d)
         | connection_remove _ identifier => exists d1, fst (deleteCredential identifier d1) = inr (drawn_deletion y)
         | _ => True
         end)) ->
  (forall a, notified r (f a) = if a then 0 else 1)%nat ->
  exists y d', ran key y r c d d'.
Proof.
  intros Hp Hq Hr (Hc0 & Hk0 & Hi0 & Hle0) (d1 & Hm & [Hmv Hle] & Hi) Hrun Hspec Hn.
  set (y := {| drawn_identifier := drawn_identifier x; drawn_generation := drawn_generation x;
               drawn_deletion := drawn_deletion x; drawn_retirement := retirement_at d1 |}).
  destruct (Hspec (retirement_at d1)) as [Hs Hd]. fold y in Hs, Hd.
  assert (quiet w d1) as Hq1 by (eapply quiet_later; [exact Hq|lia]).
  pose proof (invalidate_quiet d1 Hp Hq1) as (Hc2 & Hk2 & Hi2 & Hle2).
  exists y. destruct (spec_mutate w key expected change c) as [a c'] eqn:E. cbn [prod_map fst snd] in *.
  unfold ran, drawn, spec_outcome. rewrite Hs, Hrun. cbn [fst snd]. rewrite (Hn a).
  unfold answered, invalidateAfter. rewrite !bind_io, Hm. destruct a as [e|v].
  - exists d1. cbn. split_and!; [done..|lia|lia|done|done].
  - exists (snd (invalidateMcpConnectionRuntimes w d1)). rewrite bind_io.
    change (drawn_retirement y) with (retirement_at d1). unfold retirement_at at 1.
    destruct (invalidateMcpConnectionRuntimes w d1) as [o d2] eqn:Ei. cbn [fst snd next_invalidation
      config_file key_file invalidations instant] in *.
    split_and!; [by destruct o as [|[]]|by eapply represents_files|lia|lia|done|].
    intros _. exists d1. split_and!; [lia|done|by apply retired_at].
Qed.

(** The effect of a removal is the change that it is with the answer of the store. *)
Definition removal (identifier : text) (config : HarnessConfig)
    : io (McpAdminError + HarnessConfig * unit) :=
  match findConnection identifier config with
  | inl e => mret (inl e)
  | inr (name, _, server) =>
      deleted ← (if mcpUsesConnectionCredentials server
                 then deleteCredential identifier else mret (inr tt));
      mret (match deleted with
            | inl err => inl (McpAdminInvalid err)
            | inr _ => inr (delete_server name config, tt)
            end)
  end.

Lemma removal_drawn identifier config d a d' :
  removal identifier config d = (inr a, d') ->
  exists deletion, a = removed_connection identifier deletion config.
Proof.
  unfold removal, removed_connection.
  destruct (findConnection identifier config) as [e|[[name url] s]]; [intros [= <- _]; by exists (inr tt)|].
  rewrite bind_io. destruct (mcpUsesConnectionCredentials s).
  - destruct (deleteCredential identifier d) as [[|deletion] d1]; [done|].
    intros [= <- _]. by exists deletion.
  - intros [= <- _]. by exists (inr tt).
Qed.

Lemma removal_timed identifier config : timed w (removal identifier config).
Proof.
  intros d Hq. unfold removal.
  destruct (findConnection identifier config) as [e|[[name url] s]]; [by do 2 eexists|].
  destruct (mcpUsesConnectionCredentials s); [|by do 2 eexists].
  destruct (Hdelete identifier d Hq) as (a & d' & H & Hl). erewrite bind_inr by exact H.
  by do 2 eexists.
Qed.

(** What the store answered, or would have answered. *)
Lemma removal_asked identifier config d0 d a d' :
  quiet w d0 -> removal identifier config d = (inr a, d') ->
  exists deletion d1, a = removed_connection identifier deletion config
  /\ fst (deleteCredential identifier d1) = inr deletion.
Proof.
  intros Hq. unfold removal, removed_connection.
  destruct (Hdelete identifier d0 Hq) as (other & d2 & Ho & _).
  destruct (findConnection identifier config) as [e|[[name url] s]];
    [intros [= <- _]; exists other, d0; by rewrite Ho|].
  rewrite bind_io. destruct (mcpUsesConnectionCredentials s).
  - destruct (deleteCredential identifier d) as [[|deletion] d1] eqn:Hd; [done|].
    intros [= <- _]. exists deletion, d. by rewrite Hd.
  - intros [= <- _]. exists other, d0. by rewrite Ho.
Qed.

Lemma connection_remove_refines key c d e identifier :
  retirements_pass -> quiet w d -> represents w key c d ->
  exists x d', ran key x (connection_remove e identifier) c d d'.
Proof.
  intros Hp Hq Hr. destruct (represented_config key c d Hr) as [Htyped Hi].
  destruct (mutate_represented w key e (removal identifier) c d Hq Hr) as (a & d' & Ha & Hm & Hmv & Hiv).
  { apply removal_timed. }
  { intros d1 a d2 H. apply removal_drawn in H as [deletion ->]. by apply removed_connection_ok. }
  assert (exists deletion, spec_mutate w key e (fun _ => a) c
                           = spec_mutate w key e (removed_connection identifier deletion) c
          /\ exists d1, fst (deleteCredential identifier d1) = inr deletion) as (deletion & Hs & Hd).
  { unfold spec_mutate. destruct (Z.eqb_spec e (cat_revision c)) as [He|He].
    - destruct (Ha He) as (d1 & d2 & H). apply (removal_asked identifier _ d) in H as (deletion & d3 & -> & H); [|done].
      exists deletion. split; [done|by exists d3].
    - destruct (Hdelete identifier d Hq) as (deletion & d1 & H & _). exists deletion. split; [done|].
      exists d. by rewrite H. }
  cbv zeta in *. rewrite Hs in *.
  eapply (ran_connection key c d d
    {| drawn_identifier := []; drawn_generation := []; drawn_deletion := deletion; drawn_retirement := None |});
    [done|done|done|done| |reflexivity| |].
  - by exists d'.
  - intros o y. by split.
  - by intros [].
Qed.

Lemma restart_step key c d e name :
  quiet w d -> represents w key c d ->
  exists d', restartMcpAdminServer w e name restart d =
    (inr (if negb (cat_revision c =? e) then inl (McpAdminConflict (cat_revision c))
          else match configMcpServers (cat_config c) !! name with
               | None => inl (McpAdminNotFound name)
               | Some server => seen c (publicServer name server)
               end), d') /\ later d d'.
Proof.
  intros Hq Hr. unfold restartMcpAdminServer.
  match goal with |- context [withHarnessConfigSnapshot w ?f] => set (action := f) end.
  destruct (with_snapshot_represented w key c d action Hq Hr) as (a & d0 & d1 & d' & Ha & H & Hl).
  { subst action. cbn beta. intros d1 Hq1. destruct (negb _); [by do 2 eexists|].
    destruct (configMcpServers (cat_config c) !! name); [|by do 2 eexists].
    destruct (Hrestart d1 Hq1) as ([] & d2 & H2 & Hd2). erewrite bind_inr by exact H2.
    by do 2 eexists. }
  exists d'. split; [|done]. rewrite bind_io, H. unfold mret, io_ret. do 2 f_equal.
  subst action. cbn beta in Ha. destruct (negb _); [by injection Ha as <- _|].
  destruct (configMcpServers (cat_config c) !! name); [|by injection Ha as <- _].
  rewrite bind_io in Ha. destruct (restart d0) as [[|[]] d2]; [done|]. by injection Ha as <- _.
Qed.

Lemma request_refines key c d r :
  (of_connections r = true -> retirements_pass) ->
  quiet w d -> represents w key c d -> request_typed r -> exists x d', ran key x r c d d'.
Proof.
  intros Hp Hq Hr Ht. destruct (represented_config key c d Hr) as [Htyped Hi].
  destruct r as [|name|e name input|e name input|e name enabled|e name|e name| |e label endpoint
                |e identifier label|e identifier enabled|e identifier]; try specialize (Hp eq_refl);
    try (exists some_draws; eexists; eapply ran_mutate; [done|done| |reflexivity|reflexivity|done|done]).
  - destruct (load_snapshot_represented w key c d listed_servers Hq Hr) as (d' & H & Hl).
    exists some_draws, d'. eapply ran_silent; [reflexivity|done|done| |by eapply represents_later|apply Hl|apply Hl].
    cbn. unfold answered, listMcpAdminServers. by erewrite bind_inr by exact H.
  - destruct (load_snapshot_represented w key c d configMcpServers Hq Hr) as (d' & H & Hl).
    exists some_draws, d'. eapply ran_silent; [reflexivity|done|done| |by eapply represents_later|apply Hl|apply Hl].
    cbn. unfold answered, readMcpAdminServer. rewrite !bind_io, H. cbn.
    by destruct (configMcpServers (cat_config c) !! name).
  - by apply added_ok.
  - by apply edited_ok.
  - by apply enabled_ok.
  - by apply removed_ok.
  - destruct (restart_step key c d e name Hq Hr) as (d' & H & Hl).
    exists some_draws, d'. eapply ran_silent; [reflexivity|done|done| |by eapply represents_later|apply Hl|apply Hl].
    cbn. unfold answered. by erewrite bind_inr by exact H.
  - destruct (load_snapshot_represented w key c d listed_connections Hq Hr) as (d' & H & Hl).
    exists some_draws, d'. eapply ran_silent; [reflexivity|done|done| |by eapply represents_later|apply Hl|apply Hl].
    cbn. unfold answered, listMcpConnections. by erewrite bind_inr by exact H.
  - set (d2 := next_instant (next_instant d)).
    assert (later d d2) as Hl2 by (repeat split; cbn; lia).
    set (identifier := nextRandom (world_nature w) (instant d)).
    set (generation := nextRandom (world_nature w) (instant (next_instant d))).
    eapply (ran_connection key c d d2 {| drawn_identifier := identifier; drawn_generation := generation;
      drawn_deletion := inr tt; drawn_retirement := None |}); [done|done|done|done| |reflexivity| |].
    + apply mutate_step; [by eapply quiet_later, Hl2|by eapply represents_later|by apply created_ok].
    + intros o y. by split.
    + by intros [].
  - eapply (ran_connection key c d d some_draws); [done|done|done|done| |reflexivity| |].
    + apply mutate_step; [done|done|by apply renamed_ok].
    + intros o y. by split.
    + by intros [].
  - set (d1 := next_instant d). assert (later d d1) as Hl1 by (repeat split; cbn; lia).
    set (generation := nextRandom (world_nature w) (instant d)).
    eapply (ran_connection key c d d1 {| drawn_identifier := []; drawn_generation := generation;
      drawn_deletion := inr tt; drawn_retirement := None |}); [done|done|done|done| |reflexivity| |].
    + apply mutate_step; [by eapply quiet_later, Hl1|by eapply represents_later|by apply connection_enabled_ok].
    + intros o y. by split.
    + by intros [].
  - by apply connection_remove_refines.
Qed.

(** Each step, with its draws: the disk that the request is given holds the catalog. *)
Fixpoint steps_drawn (key : list byte) (l : list (draws * mcp_request)) (c : catalog) (n : nat) : Prop :=
  match l with
  | [] => True
  | (x, r) :: l =>
      (exists d, represents w key c d /\ invalidations d = n /\ drawn key x r c d)
      /\ steps_drawn key l (snd (spec_request key x r c)) (n + notified r (fst (spec_request key x r c)))
  end.

Lemma requests_refine key c d rs :
  retirements_pass -> quiet w d -> represents w key c d -> Forall request_typed rs ->
  exists l d', l.*2 = rs
  /\ run_requests rs d = (fst (spec_requests key l c), d')
  /\ represents w key (snd (spec_requests key l c)) d' /\ steps_drawn key l c (invalidations d).
Proof.
  intros Hp Hq Hr Ht. revert c d Hq Hr. induction Ht as [|r rs Hr0 _ IH]; intros c d Hq Hr.
  { by exists [], d. }
  destruct (request_refines key c d r (fun _ => Hp) Hq Hr Hr0) as (x & d1 & H1 & Hr1 & Hle1 & Hi1 & Hd1).
  destruct (IH _ d1 (quiet_later w d d1 Hq Hle1) Hr1) as (l & d' & <- & H2 & Hr2 & Hs).
  exists ((x, r) :: l), d'. cbn [fmap list_fmap snd run_requests spec_requests steps_drawn].
  rewrite H1, H2. rewrite Hi1 in Hs. unfold spec_outcome in *.
  destruct (spec_request key x r c) as [a c1] eqn:E. cbn [fst snd] in *.
  destruct (spec_requests key l c1) as [rest c2]. cbn [fst snd] in *.
  split_and!; [done..|by exists d|done].
Qed.

(** The revision that a request expects. *)
Definition expected_revision (r : mcp_request) : option Z :=
  match r with
  | server_add e _ _ | server_edit e _ _ | server_set_enabled e _ _ | server_remove e _
  | server_restart e _ | connection_create e _ _ | connection_rename e _ _
  | connection_set_enabled e _ _ | connection_remove e _ => Some e
  | servers_list | server_read _ | connections_list => None
  end.

Definition answer_revision {A : Type} (a : answer A) : option Z :=
  match a with inl _ => None | inr s => Some (mcpAdminRevision s) end.

(** The revision of a success. *)
Definition response_revision (a : mcp_response) : option Z :=
  match a with
  | servers_answer a => answer_revision a
  | server_answer a => answer_revision a
  | done_answer a => answer_revision a
  | connections_answer a => answer_revision a
  | connection_answer a => answer_revision a
  end.

Definition answer_error {A : Type} (a : answer A) : option McpAdminError :=
  match a with inl e => Some e | inr _ => None end.

Definition response_error (a : mcp_response) : option McpAdminError :=
  match a with
  | servers_answer a => answer_error a
  | server_answer a => answer_error a
  | done_answer a => answer_error a
  | connections_answer a => answer_error a
  | connection_answer a => answer_error a
  end.

Lemma spec_mutate_seen {A : Type} key e (change : HarnessConfig -> McpAdminError + HarnessConfig * A) c a c' :
  spec_mutate w key e change c = (a, c') ->
  match a with
  | inr s => e = cat_revision c /\ mcpAdminRevision s = cat_revision c' /\ c' = catalog_of w key (cat_config c')
  | inl err => c' = c /\ (e <> cat_revision c -> err = McpAdminConflict (cat_revision c))
  end.
Proof.
  unfold spec_mutate. destruct (Z.eqb_spec e (cat_revision c)) as [He|He]; cbn [negb].
  - destruct (change (cat_config c)) as [err|[config v]]; [by intros [= <- <-]|].
    destruct (validateHarnessConfig _ config); by intros [= <- <-].
  - by intros [= <- <-].
Qed.

(** What a client may rely on in a step: an error changes nothing; a success names the revision of
    the catalog that it leaves; a request to a revision that is not the catalog's is refused with
    the catalog's own. *)
Definition step_seen (r : mcp_request) (c : catalog) (a : mcp_response) (c' : catalog) : Prop :=
  (forall e, response_error a = Some e -> c' = c)
  /\ (forall v, response_revision a = Some v -> v = cat_revision c')
  /\ (forall e, expected_revision r = Some e -> e <> cat_revision c ->
        response_error a = Some (McpAdminConflict (cat_revision c)))
  /\ (expected_revision r = None -> c' = c).

Lemma seen_mutation {A : Type} key e change c (f : answer A -> mcp_response) r :
  (forall a, response_error (f a) = answer_error a) ->
  (forall a, response_revision (f a) = answer_revision a) ->
  expected_revision r = Some e ->
  let s := spec_mutate w key e change c in step_seen r c (f (fst s)) (snd s).
Proof.
  intros He Hv Hr s. subst s. destruct (spec_mutate w key e change c) as [a c'] eqn:E.
  apply spec_mutate_seen in E. cbn [fst snd]. unfold step_seen. rewrite He, Hv, Hr.
  destruct a as [err|s]; cbn.
  - destruct E as [-> Hc]. split_and!; [done..| |done]. intros e' [= <-] Hne. by rewrite Hc.
  - destruct E as (-> & -> & _). split_and!; [done|congruence|congruence|done].
Qed.

Lemma request_seen key x r c :
  step_seen r c (fst (spec_request key x r c)) (snd (spec_request key x r c)).
Proof.
  destruct r; try (eapply seen_mutation; done); cbn.
  - by split_and!; [done| intros v [= <-]| |].
  - destruct (_ !! name); by split_and!; [done| intros v [= <-]| |].
  - destruct (Z.eqb_spec (cat_revision c) expected) as [He|He]; cbn [negb].
    + destruct (_ !! name); split_and!; try done; cbn; congruence.
    + split_and!; try done; cbn; congruence.
  - by split_and!; [done| intros v [= <-]| |].
Qed.

(** Consecutive steps, each as [step_seen] says. *)
Fixpoint steps_seen (key : list byte) (l : list (draws * mcp_request)) (c : catalog) : Prop :=
  match l with
  | [] => True
  | (x, r) :: l =>
      let '(a, c') := spec_request key x r c in step_seen r c a c' /\ steps_seen key l c'
  end.

Lemma requests_seen key l c : steps_seen key l c.
Proof.
  revert c. induction l as [|[x r] l IH]; intros c; [done|]. cbn [steps_seen].
  pose proof (request_seen key x r c) as H. by destruct (spec_request key x r c).
Qed.

(** C4: while no operation on the file system fails, any sequence of requests to the catalog of
    MCP servers and connections is answered as the abstract machine answers it, and leaves what
    the machine leaves, read back from the bytes of the file under their keyed hash.  In the
    machine an error changes nothing, a success names the revision that it leaves, and a request
    whose expected revision is not the current one is refused with the current one.  The draws of
    the machine are the world's: identifiers, the answer of the store of credentials, and what the
    fleets throw when they are told, after the step, of a change of a connection; an exception of
    theirs is the outcome of that request, whose step is made, and of no other. *)
Theorem catalog_refines key c d rs :
  retirements_pass -> quiet w d -> represents w key c d -> Forall request_typed rs ->
  exists l d', l.*2 = rs /\ steps_seen key l c /\ steps_drawn key l c (invalidations d)
  /\ run_requests rs d = (fst (spec_requests key l c), d')
  /\ represents w key (snd (spec_requests key l c)) d'.
Proof.
  intros Hp Hq Hr Ht. destruct (requests_refine key c d rs Hp Hq Hr Ht) as (l & d' & Hl & H & Hr' & Hd).
  exists l, d'. split_and!; [done|apply requests_seen|done..].
Qed.

End Refinement.

(** ** Whatever fails *)

(** The action does not touch the configuration. *)
Definition keeps {A : Type} (m : io A) : Prop :=
  forall d r d', m d = (r, d') -> config_file d' = config_file d.

Lemma keeps_ret {A : Type} (a : A) : keeps (mret a).
Proof. by intros d r d' [= _ <-]. Qed.

Lemma keeps_throw {A : Type} e : keeps (@throw A e).
Proof. by intros d r d' [= _ <-]. Qed.

Lemma keeps_gets {A : Type} (f : disk -> A) : keeps (gets f).
Proof. by intros d r d' [= _ <-]. Qed.

Lemma keeps_bind {A B : Type} (m : io A) (f : A -> io B) :
  keeps m -> (forall a, keeps (f a)) -> keeps (m ≫= f).
Proof.
  intros Hm Hf d r d'. rewrite bind_io. destruct (m d) as [[e|a] d1] eqn:E; intros H.
  - injection H as _ <-. by eapply Hm.
  - apply Hf in H. rewrite H. by eapply Hm.
Qed.

Lemma keeps_try {A : Type} (m : io A) : keeps m -> keeps (try_ m).
Proof.
  intros Hm d r d'. unfold try_. destruct (m d) as [x d1] eqn:E. intros [= _ <-]. by eapply Hm.
Qed.

Lemma keeps_perform : keeps (perform w).
Proof. by intros d r d' [= _ <-]. Qed.

Lemma keeps_write_key key : keeps (write_key w key).
Proof. apply keeps_bind; [apply keeps_perform|]. by intros _ d r d' [= _ <-]. Qed.

Create HintDb keeps.
#[local] Hint Resolve keeps_ret keeps_throw keeps_gets keeps_perform keeps_write_key : keeps.

(** Actions of such actions. *)
Ltac keep :=
  repeat first
    [ progress (eauto with keeps)
    | apply keeps_bind; [|intros ?]
    | apply keeps_try
    | match goal with |- keeps (match ?x with _ => _ end) => destruct x end
    | match goal with |- keeps (if ?x then _ else _) => destruct x end ].

Lemma keeps_urandom : keeps (read_urandom w).
Proof. unfold read_urandom. keep. Qed.
#[local] Hint Resolve keeps_urandom : keeps.

Lemma keeps_load_key : keeps (loadHarnessRevisionKeyUnlocked w).
Proof.
  unfold loadHarnessRevisionKeyUnlocked, generateRevisionKey, createDirectoryIfMissing, setFileMode. keep.
Qed.

Lemma keeps_identify_all l : keeps (identify_all w l).
Proof.
  induction l as [|[label s] l IH]; cbn [identify_all]; keep.
  unfold identify. keep.
Qed.

Lemma keeps_assign c : keeps (assignMcpConnectionIds w c).
Proof. unfold assignMcpConnectionIds. pose proof keeps_identify_all. keep. Qed.
#[local] Hint Resolve keeps_load_key keeps_assign : keeps.

(** Inverts a run of a sequence. *)
Lemma bind_run {A B : Type} (m : io A) (f : A -> io B) d r d' :
  (m ≫= f) d = (r, d') ->
  (exists e, m d = (inl e, d') /\ r = inl e) \/ (exists a d1, m d = (inr a, d1) /\ f a d1 = (r, d')).
Proof.
  rewrite bind_io. destruct (m d) as [[e|a] d1]; [intros [= <- <-]; left; by exists e|right; by exists a, d1].
Qed.

Lemma perform_run d r d' : perform w d = (r, d') -> later d d'.
Proof. intros [= _ <-]. apply later_next. Qed.

Lemma try_run {A : Type} (m : io A) d a d' : try_ m d = (inr (inr a), d') -> m d = (inr a, d').
Proof. unfold try_. destruct (m d) as [x d1]. by intros [= -> ->]. Qed.

Lemma generate_key_run d key d' :
  generateRevisionKey w d = (inr (inr key), d') -> key_file d' = Some key /\ length key = 16%nat.
Proof.
  unfold generateRevisionKey. intros [(e & _ & ?)|(g & d1 & _ & H)]%bind_run; [done|].
  destruct g as [e|k]; [done|]. destruct (Nat.eqb_spec (length k) 16) as [Hl|]; [|done].
  apply bind_run in H as [(e & _ & ?)|(wr & d2 & Hw & H)]; [done|].
  destruct wr as [e|[]]; [done|]. injection H as -> ->. split; [|done].
  apply try_run in Hw.
  apply bind_run in Hw as [(? & _ & ?)|(? & d3 & _ & Hw)]; [done|].
  apply bind_run in Hw as [(? & _ & ?)|(? & d4 & _ & Hw)]; [done|].
  apply bind_run in Hw as [(? & _ & ?)|(? & d5 & _ & Hw)]; [done|]. by injection Hw as <-.
Qed.

Lemma load_key_run d key d' :
  loadHarnessRevisionKeyUnlocked w d = (inr (inr key), d') ->
  key_file d' = Some key /\ length key = 16%nat.
Proof.
  unfold loadHarnessRevisionKeyUnlocked. intros [(e & _ & ?)|(file & d1 & Hf & H)]%bind_run; [done|].
  injection Hf as <- <-.
  apply bind_run in H as [(e & _ & ?)|(existing & d2 & He & H)]; [done|].
  destruct existing as [e|k]; [by eapply generate_key_run|].
  destruct (Nat.eqb_spec (length k) 16) as [Hl|]; [|by eapply generate_key_run].
  apply bind_run in H as [(e & _ & ?)|(secured & d3 & Hs & H)]; [done|].
  destruct secured as [e|[]]; [done|]. injection H as -> ->. split; [|done].
  apply try_run, perform_run in Hs as (_ & -> & _).
  destruct (key_file d) as [k'|] eqn:Hk; [|by injection He as <- _].
  apply try_run in He. apply bind_run in He as [(? & _ & ?)|([] & d4 & Hp & He)]; [done|].
  injection He as -> ->. by apply perform_run in Hp as (_ & -> & _).
Qed.

Lemma try_total {A : Type} (m : io A) d e d' : try_ m d <> (inl e, d').
Proof. unfold try_. by destruct (m d). Qed.

(** The write itself happens or not. *)
Lemma store_run bytes d x d' :
  (createDirectoryIfMissing w;; setFileMode w;; write_config w bytes) d = (x, d') ->
  (x = inr tt /\ config_file d' = Some bytes /\ key_file d' = key_file d)
  \/ ((exists e, x = inl e) /\ config_file d' = config_file d).
Proof.
  intros [(e & E & ->)|([] & d1 & (Hc1 & Hk1 & _)%perform_run & E)]%bind_run.
  { right. split; [by exists e|]. by apply perform_run in E as (? & _). }
  apply bind_run in E as [(e & E & ->)|([] & d2 & (Hc2 & Hk2 & _)%perform_run & E)].
  { right. split; [by exists e|]. apply perform_run in E as (? & _). congruence. }
  apply bind_run in E as [(e & E & ->)|([] & d3 & (Hc3 & Hk3 & _)%perform_run & E)].
  { right. split; [by exists e|]. apply perform_run in E as (? & _). congruence. }
  injection E as <- <-. left. cbn. split_and!; [done..|congruence].
Qed.

Lemma write_run c d r d' :
  writeHarnessConfigUnlocked w c d = (r, d') ->
  (exists key, r = inr (inr (keyedConfigRevision key (encode_config lib c)))
     /\ validateHarnessConfig lib c = None /\ length key = 16%nat
     /\ config_file d' = Some (encode_config lib c) /\ key_file d' = Some key)
  \/ ((forall v, r <> inr (inr v)) /\ config_file d' = config_file d).
Proof.
  unfold writeHarnessConfigUnlocked. fold lib.
  destruct (validateHarnessConfig lib c) as [e|] eqn:Hv; [by intros [= <- <-]; right|]. cbv zeta.
  intros [(e & H & ->)|(loaded & d1 & Hl & H)]%bind_run.
  { right. split; [done|]. by eapply keeps_load_key. }
  pose proof (keeps_load_key _ _ _ Hl) as Hd1.
  destruct loaded as [e|key]; [by injection H as <- <-; right|].
  apply load_key_run in Hl as [Hk Hlen].
  apply bind_run in H as [(e & H & _)|(result & d2 & H2 & H)]; [by apply try_total in H|].
  unfold try_ in H2.
  destruct ((createDirectoryIfMissing w;; setFileMode w;; write_config w (encode_config lib c)) d1)
    as [x d3] eqn:E. injection H2 as <- <-.
  apply store_run in E as [(-> & Hc & Hk')|[[e ->] Hc]].
  - injection H as <- <-. left. exists key. split_and!; [done..|congruence].
  - injection H as <- <-. right. split; [done|congruence].
Qed.

(** *** Identities *)

(** What [identify] may make of a server. *)
Definition server_identified (label : text) (s s' : McpServerConfig) : Prop :=
  s' = s \/ (unidentified s = true /\ exists identifier, s' = identified_as identifier label s).

(** The same configuration with identities that it lacked. *)
Definition only_identities (c c' : HarnessConfig) : Prop :=
  c' = with_servers (configMcpServers c') c
  /\ map_relation (fun label s s' => server_identified label s s') (fun _ _ => False) (fun _ _ => False)
       (configMcpServers c) (configMcpServers c').

Lemma identify_run label s d s' d' :
  identify w label s d = (inr s', d') -> server_identified label s s' /\ unidentified s' = false.
Proof.
  unfold identify. destruct (unidentified s) eqn:Hu; [|by intros [= <- _]; split; [left|]].
  intros [(e & _ & ?)|(bytes & d1 & _ & H)]%bind_run; [done|].
  destruct (length bytes =? 16)%nat; [|done]. injection H as <- _.
  split; [by right; split; [|eexists]|]. unfold unidentified. cbn. by rewrite andb_false_r.
Qed.

Lemma identify_all_run l d l' d' :
  identify_all w l d = (inr l', d') ->
  Forall2 (fun p p' => fst p' = fst p /\ server_identified (fst p) (snd p) (snd p')
                       /\ unidentified (snd p') = false) l l'.
Proof.
  revert d l'. induction l as [|[label s] l IH]; intros d l'; [by intros [= <- _]|].
  cbn [identify_all]. intros [(e & _ & ?)|(s' & d1 & Hs & H)]%bind_run; [done|].
  apply bind_run in H as [(e & _ & ?)|(rest & d2 & Hl & H)]; [done|]. injection H as <- <-.
  apply identify_run in Hs as [? ?]. constructor; [done|by eapply IH].
Qed.

Lemma assign_run c d c' d' :
  assignMcpConnectionIds w c d = (inr c', d') -> only_identities c c' /\ identified c'.
Proof.
  unfold assignMcpConnectionIds. intros [(e & _ & ?)|(l' & d1 & Hl & H)]%bind_run; [done|].
  injection H as <- <-. apply identify_all_run in Hl. unfold only_identities, identified. cbn.
  assert (l'.*1 = (toAscList (configMcpServers c)).*1) as Hkeys.
  { induction Hl as [|p p' l l' (H & _) _ IH]; [done|]. cbn. by rewrite H, IH. }
  assert (NoDup l'.*1) as Hnd by (rewrite Hkeys; apply NoDup_toAscList).
  split_and!; [done| |].
  - intros k. destruct (configMcpServers c !! k) as [s|] eqn:Hs.
    + apply elem_of_toAscList in Hs.
      apply list_elem_of_lookup in Hs as [i Hi].
      destruct (Forall2_lookup_l _ _ _ _ _ Hl Hi) as ([k' s'] & Hi' & Hk & Hsi & _). cbn in Hk, Hsi. subst k'.
      erewrite (elem_of_list_to_map_1 l'); [exact Hsi|done|]. by eapply list_elem_of_lookup_2.
    + rewrite not_elem_of_list_to_map_1; [done|]. rewrite Hkeys.
      intros ([k' s] & -> & H)%list_elem_of_fmap. apply elem_of_toAscList in H. cbn in Hs. congruence.
  - intros k s' Hk. apply elem_of_list_to_map_2 in Hk. apply list_elem_of_lookup in Hk as [i Hi].
    by destruct (Forall2_lookup_r _ _ _ _ _ Hl Hi) as (p & _ & _ & _ & H).
Qed.

Lemma only_identities_typed c c' : only_identities c c' -> config_typed c -> config_typed c'.
Proof.
  intros [He Hm] Hc. rewrite He. apply typed_with_servers; [done|]. intros k s' Hk. specialize (Hm k). rewrite Hk in Hm.
  destruct (configMcpServers c !! k) as [s|] eqn:Hs; [|done].
  destruct Hc as (_ & Ht & _). pose proof (Ht k s Hs). by destruct Hm as [->|[_ [identifier ->]]].
Qed.

Lemma only_identities_same c c' :
  only_identities c c' -> configMcpServers c' = configMcpServers c -> c' = c.
Proof. intros [He _] H. rewrite He, H. apply with_same_servers. Qed.

(** *** Transactions *)

Section Transactions.
Context `{!libraries_ok (world_libraries w)}.

(** The catalog as a transaction finds it. *)
Definition found (d : disk) (c : catalog) : Prop :=
  exists config, stored_config w (held_bytes w d) = Some config /\ only_identities config (cat_config c).

(** The configuration is what it was, but for identities. *)
Definition kept (d d' : disk) : Prop :=
  config_file d' = config_file d
  \/ exists config config', stored_config w (held_bytes w d) = Some config
      /\ only_identities config config' /\ config_file d' = Some (encode_config lib config').

Lemma kept_same d d1 d2 : kept d d1 -> config_file d2 = config_file d1 -> kept d d2.
Proof.
  intros [H|(c & c' & Hs & Hi & H)] H2; [left; congruence|right].
  exists c, c'. split_and!; [done..|congruence].
Qed.

Lemma same_kept d d1 d2 : config_file d1 = config_file d -> kept d1 d2 -> kept d d2.
Proof.
  intros H1 [H|(c & c' & Hs & Hi & H)]; [left; congruence|right].
  exists c, c'. split_and!; [|done..]. unfold held_bytes in *. by rewrite <- H1.
Qed.

Lemma same_found d d1 c : config_file d1 = config_file d -> found d1 c -> found d c.
Proof. intros H1 (config & Hs & Hi). exists config. unfold held_bytes in *. by rewrite <- H1. Qed.

(** What was written is what is read. *)
Lemma written_represents c key d :
  config_typed c -> identified c -> validateHarnessConfig lib c = None ->
  config_file d = Some (encode_config lib c) -> key_file d = Some key -> length key = 16%nat ->
  represents w key (catalog_of w key c) d.
Proof.
  intros Ht Hi Hv Hc Hk Hl. split; unfold held_bytes; rewrite ?Hc; try done. by apply stored_encoded.
Qed.

Lemma load_run d r d' :
  loadHarnessConfigUnlocked w d = (r, d') ->
  kept d d'
  /\ forall v config, r = inr (Some (v, config)) ->
       exists key, represents w key {| cat_revision := v; cat_config := config |} d'
       /\ found d {| cat_revision := v; cat_config := config |}.
Proof.
  unfold loadHarnessConfigUnlocked. intros [(e & ? & ?)|(file & d1 & Hf & H)]%bind_run; [done|].
  injection Hf as <- <-. fold lib in H.
  apply bind_run in H as [(e & H & ->)|(read & d1 & Hr & H)].
  { split; [|done]. left. destruct (config_file d); [by apply try_total in H|done]. }
  assert (config_file d1 = config_file d /\ forall bytes, read = inr bytes -> bytes = held_bytes w d) as [Hc1 Hb].
  { destruct (config_file d) as [bytes|] eqn:Hc.
    - unfold try_ in Hr. destruct ((perform w;; mret bytes) d) as [x d2] eqn:E. injection Hr as <- <-.
      apply bind_run in E as [(e & E & ->)|([] & d3 & E & H2)]; apply perform_run in E as (Hc' & _).
      + split; [congruence|done].
      + injection H2 as <- <-. split; [congruence|]. intros b [= <-]. unfold held_bytes. by rewrite Hc.
    - injection Hr as <- <-. split; [done|]. intros b [= <-]. unfold held_bytes. by rewrite Hc. }
  destruct read as [e|bytes]; [by injection H as <- <-; split; [left|]|].
  rewrite (Hb bytes eq_refl) in H. clear Hb Hr bytes.
  destruct (stored_config w (held_bytes w d)) as [config|] eqn:Hst; [|by injection H as <- <-; split; [left|]].
  destruct (validateHarnessConfig lib config) as [e|] eqn:Hv; [by injection H as <- <-; split; [left|]|].
  apply bind_run in H as [(e & H & ->)|(c' & d2 & Ha & H)].
  { split; [|done]. left. rewrite (keeps_assign _ _ _ _ H). done. }
  pose proof (keeps_assign _ _ _ _ Ha) as Hc2. apply assign_run in Ha as [Ho Hid].
  assert (config_typed c') as Ht by (eapply only_identities_typed, stored_typed; done).
  destruct (decide _) as [Hs|Hs].
  - apply (only_identities_same config) in Hs as ->; [|done].
    apply bind_run in H as [(e & H & ->)|(key & d3 & Hk & H)].
    { split; [|done]. left. rewrite (keeps_load_key _ _ _ H). congruence. }
    pose proof (keeps_load_key _ _ _ Hk) as Hc3. injection H as <- <-.
    assert (config_file d3 = config_file d) as Hcf by congruence.
    split; [by left|]. intros v config'. destruct key as [e|key]; [done|]. intros [= <- <-].
    apply load_key_run in Hk as [Hk Hl]. exists key. split; [|by exists config].
    split; try done; unfold held_bytes; by rewrite Hcf.
  - apply bind_run in H as [(e & H & ->)|(revision & d3 & Hw & H)].
    { split; [|done]. left. apply write_run in H as [(key & ? & _)|[_ H]]; [done|congruence]. }
    injection H as <- <-. apply write_run in Hw as [(key & [= ->] & Hv' & Hl & Hc & Hk)|[Hn Hc]].
    + split; [right; by exists config, c'|]. intros v config' [= <- <-].
      exists key. split; [by apply written_represents|by exists config].
    + split; [left; congruence|]. intros v config'. destruct revision as [e|v']; [done|].
      by destruct (Hn v').
Qed.

Lemma lock_run {A : Type} (action : io A) d r d' :
  withPrivateFileLock w action d = (r, d') ->
  (config_file d' = config_file d /\ exists e, r = inl e)
  \/ exists d1, config_file d1 = config_file d /\ action d1 = (r, d').
Proof.
  unfold withPrivateFileLock, createDirectoryIfMissing, setFileMode.
  assert (forall k d, (forall d1, config_file d1 = config_file d -> k d1 = (r, d') ->
      (config_file d' = config_file d /\ exists e, r = inl e)
      \/ exists d2, config_file d2 = config_file d /\ action d2 = (r, d')) ->
    (perform w;; k) d = (r, d') ->
    (config_file d' = config_file d /\ exists e, r = inl e)
    \/ exists d2, config_file d2 = config_file d /\ action d2 = (r, d')) as Hstep.
  { clear. intros k d Hk [(e & E & ->)|([] & d1 & E & H)]%bind_run;
      apply perform_run in E as (Hc & _); [left; by split; [|exists e]|by eapply Hk]. }
  do 6 (apply Hstep; intros ? Hc; rewrite <- ?Hc; clear Hc). intros H. right. by eexists.
Qed.

(** A transaction that did not end in success. *)
Definition unsuccessful {A E : Type} (r : text + (E + A)) : Prop := forall a, r <> inr (inr a).

Lemma modify_run {A : Type} (change : Z -> HarnessConfig -> io (text + HarnessConfig * A)) d r d' :
  (forall v c, keeps (change v c)) ->
  (forall v c d1 c' a d2, config_typed c -> identified c ->
     change v c d1 = (inr (inr (c', a)), d2) -> config_typed c' /\ identified c') ->
  modifyHarnessConfigEffect w change d = (r, d') ->
  (exists key c c' a d1 d2, found d c /\ change (cat_revision c) (cat_config c) d1 = (inr (inr (c', a)), d2)
     /\ validateHarnessConfig lib c' = None
     /\ r = inr (inr (cat_revision (catalog_of w key c'), a)) /\ represents w key (catalog_of w key c') d')
  \/ (unsuccessful r /\ kept d d').
Proof.
  intros Hk Hok. unfold modifyHarnessConfigEffect. intros [[Hc [e ->]]|(d0 & Hc0 & H)]%lock_run.
  { right. split; [done|by left]. }
  apply bind_run in H as [(e & H & ->)|(loaded & d1 & Hl & H)].
  { right. split; [done|]. eapply same_kept; [done|]. by apply load_run in H as [? _]. }
  apply load_run in Hl as [Hkept Hrep]. apply (same_kept d) in Hkept; [|done].
  destruct loaded as [[v config]|]; [|injection H as <- <-; by right].
  destruct (Hrep v config eq_refl) as (key & Hr & Hf). apply (same_found d) in Hf; [|done].
  assert (config_typed config /\ identified config) as [Ht Hi] by (split; [eapply stored_typed, Hr|apply Hr]).
  apply bind_run in H as [(e & H & ->)|(changed & d2 & Hch & H)].
  { right. split; [done|]. eapply kept_same; [done|]. by eapply Hk. }
  pose proof (Hk _ _ _ _ _ Hch) as Hc2. apply (kept_same d d1 d2) in Hkept; [|done].
  destruct changed as [e|[c' a]]; [injection H as <- <-; by right|].
  destruct (Hok _ _ _ _ _ _ Ht Hi Hch) as [Ht' Hi'].
  apply bind_run in H as [(e & H & ->)|(c2 & d3 & Ha & H)].
  { right. split; [done|]. eapply kept_same; [done|]. by eapply keeps_assign. }
  rewrite assign_identified in Ha by done. injection Ha as <- <-.
  apply bind_run in H as [(e & H & ->)|(written & d4 & Hw & H)].
  { right. split; [done|]. apply write_run in H as [(k & ? & _)|[_ H]]; [done|]. by eapply kept_same. }
  injection H as <- <-. apply write_run in Hw as [(k & [= ->] & Hv & Hlen & Hcf & Hkf)|[Hn Hcf]].
  - left. exists k, {| cat_revision := v; cat_config := config |}, c', a, d1, d2.
    split_and!; [done..|]. by apply written_represents.
  - right. split; [|by eapply kept_same]. destruct written as [e|v']; [done|by destruct (Hn v')].
Qed.

Lemma mutate_run {A : Type} expected (change : HarnessConfig -> io (McpAdminError + HarnessConfig * A)) d r d' :
  (forall c, keeps (change c)) ->
  (forall c d1 a d2, config_typed c -> identified c -> change c d1 = (inr a, d2) -> change_ok a) ->
  mutateEffect w expected change d = (r, d') ->
  (exists key c a d1 d2 s, found d c /\ change (cat_config c) d1 = (inr a, d2)
     /\ r = inr (inr s) /\ fst (spec_mutate w key expected (fun _ => a) c) = inr s
     /\ represents w key (snd (spec_mutate w key expected (fun _ => a) c)) d')
  \/ (unsuccessful r /\ kept d d').
Proof.
  intros Hk Hok. unfold mutateEffect. intros [(e & H & ->)|(result & d1 & Hm & H)]%bind_run.
  { right. split; [done|]. apply modify_run in H as [(?&?&?&?&?&?&_&_&_&?&_)|[_ H]]; [done|done| |].
    - intros v c. destruct (negb _); keep.
    - intros v c d1 c' a d2 Ht Hi. destruct (negb _); [done|].
      intros [(? & _ & ?)|(x & d3 & Hx & H')]%bind_run; [done|]. destruct x as [|p]; [done|].
      injection H' as -> <-. exact (Hok _ _ _ _ Ht Hi Hx). }
  injection H as <- <-.
  apply modify_run in Hm as [(key & c & c' & a & d2 & d3 & Hf & Hc & Hv & [= ->] & Hr)|[Hu H]].
  - left. destruct (Z.eqb_spec expected (cat_revision c)) as [->|]; cbn [negb] in Hc; [|done].
    apply bind_run in Hc as [(? & _ & ?)|(x & d4 & Hx & H')]; [done|]. destruct x as [|p]; [done|].
    injection H' as -> <-.
    exists key, c, (inr (c', a)), d2, d4, (Build_McpAdminSnapshot (cat_revision (catalog_of w key c')) a).
    unfold spec_mutate. rewrite Z.eqb_refl. cbn [negb]. fold lib. rewrite Hv. done.
  - right. split; [|done]. intros s. destruct result as [e|[v a]]; [done|]. by destruct (Hu (v, a)).
  - intros v c. destruct (negb _); keep.
  - intros v c d2 c' a d3 Ht Hi. destruct (negb _); [done|].
    intros [(? & _ & ?)|(x & d4 & Hx & H')]%bind_run; [done|]. destruct x as [|p]; [done|].
    injection H' as -> <-. exact (Hok _ _ _ _ Ht Hi Hx).
Qed.

Lemma load_snapshot_run {A : Type} (project : HarnessConfig -> A) d r d' :
  loadSnapshot w project d = (r, d') ->
  kept d d'
  /\ ((exists key c, found d c /\ r = inr (seen c (project (cat_config c))) /\ represents w key c d')
      \/ unsuccessful r).
Proof.
  unfold loadSnapshot, loadHarnessConfigSnapshot.
  intros [(e & H & ->)|(loaded & d1 & Hl & H)]%bind_run.
  { split; [|by right]. apply lock_run in H as [[Hc _]|(d1 & Hc & H)]; [by left|].
    eapply same_kept; [done|]. by apply load_run in H as [? _]. }
  injection H as <- <-. apply lock_run in Hl as [[Hc [e ?]]|(d2 & Hc & Hl)]; [done|].
  apply load_run in Hl as [Hkept Hrep]. split; [by eapply same_kept|].
  destruct loaded as [[v config]|]; [left|by right].
  destruct (Hrep v config eq_refl) as (key & Hr & Hf). exists key. eexists.
  split_and!; [by eapply same_found|done|done].
Qed.

Lemma with_snapshot_run {A : Type} (action : Z -> HarnessConfig -> io A) d r d' :
  (forall v c, keeps (action v c)) ->
  withHarnessConfigSnapshot w action d = (r, d') ->
  kept d d'
  /\ forall a, r = inr (inr a) ->
       exists key c d1, found d c /\ action (cat_revision c) (cat_config c) d1 = (inr a, d')
       /\ represents w key c d1.
Proof.
  intros Hk. unfold withHarnessConfigSnapshot. intros [[Hc [e ->]]|(d0 & Hc & H)]%lock_run.
  { split; [by left|done]. }
  apply bind_run in H as [(e & H & ->)|(loaded & d1 & Hl & H)].
  { split; [|done]. eapply same_kept; [done|]. by apply load_run in H as [? _]. }
  apply load_run in Hl as [Hkept Hrep]. apply (same_kept d) in Hkept; [|done].
  destruct loaded as [[v config]|]; [|by injection H as <- <-].
  destruct (Hrep v config eq_refl) as (key & Hr & Hf).
  apply bind_run in H as [(e & H & ->)|(a & d2 & Ha & H)].
  { split; [|done]. eapply kept_same; [done|]. by eapply Hk. }
  injection H as <- <-. split; [eapply kept_same; [done|by eapply Hk]|].
  intros b [= <-]. exists key. eexists. exists d1. split_and!; [by eapply same_found|done|done].
Qed.

(** *** Requests *)

(** The action is not about the files of the configuration. *)
Definition elsewhere {A : Type} (m : io A) : Prop :=
  forall d r d', m d = (r, d') -> config_file d' = config_file d /\ key_file d' = key_file d.

Lemma elsewhere_keeps {A : Type} (m : io A) : elsewhere m -> keeps m.
Proof. intros H d r d' Hm. by apply H in Hm as [? _]. Qed.

Context (Hdelete : forall identifier, elsewhere (deleteCredential identifier)) (Hrestart : elsewhere restart).

#[local] Hint Resolve elsewhere_keeps : keeps.

(** A change was stored with the answer [a]; of a change of connections the fleets are then told,
    and their exception is the outcome. *)
Definition noticed {A : Type} (told : bool) (a : A) (d1 : disk) (res : text + A) (d2 : disk) : Prop :=
  if told then exists o, invalidateMcpConnectionRuntimes w d1 = (o, d2)
                 /\ res = match o with inl e => inl e | inr _ => inr a end
  else res = inr a /\ d2 = d1.

Definition notifying {A : Type} (told : bool) (m : io (answer A)) : io (answer A) :=
  if told then invalidateAfter w m else m.

Lemma notifying_run {A : Type} told (m : io (answer A)) d1 r1 d2 :
  notifying told m d1 = (r1, d2) ->
  exists r3 d3, m d1 = (r3, d3)
  /\ match r3 with
     | inr (inr s) => noticed told (inr s) d3 r1 d2
     | _ => r1 = r3 /\ d2 = d3
     end.
Proof.
  unfold notifying, noticed. destruct told.
  - unfold invalidateAfter. intros [(e & H & ->)|(a & d3 & Hm & H)]%bind_run; [by exists (inl e), d2|].
    exists (inr a), d3. split; [done|]. destruct a as [e|s]; [by injection H as <- <-|].
    rewrite bind_io in H. destruct (invalidateMcpConnectionRuntimes w d3) as [o d4].
    destruct o as [e|[]]; injection H as <- <-; by eexists.
  - intros H. exists r1, d2. split; [done|]. by destruct r1 as [|[]].
Qed.

(** A request that succeeded is a step of the machine from the catalog as it was found; any other
    left it. *)
Definition request_ran (r : mcp_request) (d : disk) (res : text + mcp_response) (d' : disk) : Prop :=
  (exists key x c d1, found d c /\ response_error (fst (spec_request key x r c)) = None
     /\ represents w key (snd (spec_request key x r c)) d1
     /\ noticed (of_connections r) (fst (spec_request key x r c)) d1 res d')
  \/ ((forall a, res = inr a -> response_error a <> None) /\ kept d d').

Lemma ran_change {A : Type} r d d0 d' res x expected (change : HarnessConfig -> io (McpAdminError + HarnessConfig * A))
    (pure : draws -> HarnessConfig -> McpAdminError + HarnessConfig * A) (f : answer A -> mcp_response) :
  (forall a, response_error (f a) = answer_error a) ->
  (forall c, keeps (change c)) ->
  (forall c d1 a d2, change c d1 = (inr a, d2) ->
     exists y, a = pure y c /\ drawn_identifier y = drawn_identifier x /\ drawn_generation y = drawn_generation x) ->
  (forall c y, config_typed c -> identified c -> change_ok (pure y c)) ->
  (forall key y c, drawn_identifier y = drawn_identifier x -> drawn_generation y = drawn_generation x ->
     spec_request key y r c = prod_map f id (spec_mutate w key expected (pure y) c)) ->
  config_file d0 = config_file d ->
  answered f (notifying (of_connections r) (mutateEffect w expected change)) d0 = (res, d') ->
  request_ran r d res d'.
Proof.
  intros Hf Hk Hp Hok Hspec Hd0. unfold answered. intros Hrun.
  assert (exists r1, notifying (of_connections r) (mutateEffect w expected change) d0 = (r1, d')
    /\ res = match r1 with inl e => inl e | inr a => inr (f a) end) as (r1 & Hn & ->).
  { apply bind_run in Hrun as [(e & H & ->)|(a & d1 & H & [= <- <-])]; by eexists. }
  apply notifying_run in Hn as (r3 & d3 & Hm & Hr3). apply mutate_run in Hm; [|done|].
  - destruct Hm as [(key & c & a & d4 & d5 & s & Hfound & Ha & -> & Hs & Hr)|[Hu Hkept]].
    + left. apply Hp in Ha as (y & -> & Hy1 & Hy2). exists key, y, c, d3. rewrite Hspec by done.
      assert (spec_mutate w key expected (fun _ => pure y (cat_config c)) c = spec_mutate w key expected (pure y) c) as He
        by done.
      rewrite He in Hs, Hr. destruct (spec_mutate w key expected (pure y) c) as [b c']. cbn in *. subst b.
      split_and!; [by eapply same_found|by rewrite Hf|done|].
      unfold noticed in *. destruct (of_connections r).
      * destruct Hr3 as (o & Ho & ->). exists o. split; [done|]. by destruct o.
      * by destruct Hr3 as [-> ->].
    + right. assert (r1 = r3 /\ d' = d3) as [-> ->].
      { destruct r3 as [|[|s]]; [done..|by destruct (Hu s)]. }
      split; [|by eapply same_kept]. intros a Ha. destruct r3 as [|b]; [done|]. injection Ha as <-.
      rewrite Hf. destruct b as [e|s]; [done|by destruct (Hu s)].
  - intros c d4 a d5 Ht Hi Ha. apply Hp in Ha as (y & -> & _). by apply Hok.
Qed.

Lemma ran_load {A B : Type} r d d' res (project : HarnessConfig -> A) (g : A -> McpAdminError + B)
    (f : answer B -> mcp_response) :
  (forall a, response_error (f a) = answer_error a) ->
  (forall key x c, spec_request key x r c =
     (f (match g (project (cat_config c)) with inl e => inl e | inr b => seen c b end), c)) ->
  answered f (loaded ← loadSnapshot w project;
              mret (match loaded with
                    | inl e => inl e
                    | inr snapshot =>
                        match g (mcpAdminValue snapshot) with
                        | inl e => inl e
                        | inr b => inr (Build_McpAdminSnapshot (mcpAdminRevision snapshot) b)
                        end
                    end)) d = (res, d') ->
  of_connections r = false -> request_ran r d res d'.
Proof.
  intros Hf Hspec. unfold answered. intros H Hoc.
  apply bind_run in H as [(e & H & ->)|(a & d1 & Ha & H)].
  { apply bind_run in H as [(e' & H & [= <-])|(b & d2 & Hb & H)]; [|done].
    apply load_snapshot_run in H as [? _]. by right. }
  injection H as <- <-. apply bind_run in Ha as [(e & _ & ?)|(loaded & d2 & Hl & H)]; [done|].
  injection H as <- <-. apply load_snapshot_run in Hl as [Hk [(key & c & Hfd & [= ->] & Hr)|Hu]].
  - cbn. destruct (g (project (cat_config c))) as [e|b] eqn:Hg.
    + right. split; [|done]. intros a [= <-]. by rewrite Hf.
    + left. eexists key, some_draws, c, _. rewrite Hspec, Hg, Hoc. cbn. rewrite Hf. by split_and!.
  - right. split; [|done]. intros a [= <-]. rewrite Hf. destruct loaded as [e|s]; [done|by destruct (Hu s)].
Qed.

Lemma ran_restart e name d d' res :
  answered server_answer (restartMcpAdminServer w e name restart) d = (res, d') ->
  request_ran (server_restart e name) d res d'.
Proof.
  unfold answered, restartMcpAdminServer. intros H.
  match type of H with context [withHarnessConfigSnapshot w ?f] => set (action := f) in * end.
  assert (forall v c, keeps (action v c)) as Hk.
  { intros v c. subst action. cbn beta. keep. }
  apply bind_run in H as [(e' & H & ->)|(a & d1 & Ha & H)].
  { apply bind_run in H as [(? & H & _)|(b & d2 & Hb & H)]; [|done].
    apply with_snapshot_run in H as [? _]; [|done]. by right. }
  injection H as <- <-. apply bind_run in Ha as [(? & _ & ?)|(r & d2 & Hr & H)]; [done|].
  injection H as <- <-. apply with_snapshot_run in Hr as [Hkept Hin]; [|done].
  destruct r as [err|a]; [right; by split; [intros a [= <-]|]|].
  destruct (Hin a eq_refl) as (key & c & d3 & Hfd & Ha & Hrep). destruct a as [err|s].
  { right. by split; [intros a [= <-]|]. }
  left. eexists key, some_draws, c, _.
  subst action. cbn beta in Ha. cbn.
  destruct (negb (cat_revision c =? e)); [done|].
  destruct (configMcpServers (cat_config c) !! name) as [server|]; [|done].
  apply bind_run in Ha as [(? & _ & ?)|([] & d4 & Hrs & Ha)]; [done|]. injection Ha as <- <-.
  split_and!; [done|done| |done|done].
  apply Hrestart in Hrs as [? ?]. by eapply represents_files.
Qed.

(** A pure change. *)
Lemma ran_pure {A : Type} r d d0 d' res x expected (change : HarnessConfig -> McpAdminError + HarnessConfig * A)
    (f : answer A -> mcp_response) :
  (forall a, response_error (f a) = answer_error a) ->
  (forall c, config_typed c -> identified c -> change_ok (change c)) ->
  (forall key y c, drawn_identifier y = drawn_identifier x -> drawn_generation y = drawn_generation x ->
     spec_request key y r c = prod_map f id (spec_mutate w key expected change c)) ->
  config_file d0 = config_file d ->
  answered f (notifying (of_connections r) (mutate w expected change)) d0 = (res, d') -> request_ran r d res d'.
Proof.
  intros Hf Hok Hspec Hd0 H.
  eapply (ran_change r d d0 d' res x expected (fun c => mret (change c)) (fun _ => change) f);
    [done| | | |done|done|exact H].
  - intros c. apply keeps_ret.
  - intros c d1 a d2 [= <- _]. by exists x.
  - intros c _. apply Hok.
Qed.

Lemma request_any_run r d res d' :
  request_typed r -> run_request r d = (res, d') -> request_ran r d res d'.
Proof.
  intros Ht H.
  destruct r as [|name|e name input|e name input|e name enabled|e name|e name| |e label endpoint
                |e identifier label|e identifier enabled|e identifier]; cbn [run_request] in H.
  - eapply (ran_load servers_list d d' res listed_servers inr servers_answer); [done|done| |done].
    revert H. unfold answered, listMcpAdminServers. rewrite !bind_io.
    by destruct (loadSnapshot w listed_servers d) as [[|[|[]]] d1].
  - eapply (ran_load (server_read name) d d' res configMcpServers
      (fun servers => match servers !! name with
                      | None => inl (McpAdminNotFound name)
                      | Some server => inr (publicServer name server)
                      end) server_answer); [done| | |done].
    + intros key x c. cbn. by destruct (_ !! name).
    + revert H. unfold answered, readMcpAdminServer. rewrite !bind_io.
      destruct (loadSnapshot w configMcpServers d) as [[|[|[]]] d1]; try done. cbn.
      by destruct (_ !! name).
  - refine (ran_pure (server_add e name input) d d d' res some_draws e (added_server name input) server_answer _ _ _ eq_refl H);
      [done|intros c ? ?; by apply added_ok|done].
  - refine (ran_pure (server_edit e name input) d d d' res some_draws e (edited_server name input) server_answer _ _ _ eq_refl H);
      [done|intros c ? ?; by apply edited_ok|done].
  - refine (ran_pure (server_set_enabled e name enabled) d d d' res some_draws e (enabled_server name enabled) server_answer _ _ _ eq_refl H);
      [done|intros c ? ?; by apply enabled_ok|done].
  - refine (ran_pure (server_remove e name) d d d' res some_draws e (removed_server name) done_answer _ _ _ eq_refl H);
      [done|intros c ? ?; by apply removed_ok|done].
  - by apply ran_restart.
  - eapply (ran_load connections_list d d' res listed_connections inr connections_answer); [done|done| |done].
    revert H. unfold answered, listMcpConnections. rewrite !bind_io.
    by destruct (loadSnapshot w listed_connections d) as [[|[|[]]] d1].
  - unfold answered, createMcpConnection in H.
    refine (ran_pure (connection_create e label endpoint) d (next_instant (next_instant d)) d' res
      {| drawn_identifier := nextRandom (world_nature w) (instant d);
         drawn_generation := nextRandom (world_nature w) (instant (next_instant d));
         drawn_deletion := inr tt; drawn_retirement := None |} e _ _ _ _ _ _ H);
      [done|intros c ? ?|by intros key [] c [= ->] [= ->]|done].
    by apply created_ok.
  - refine (ran_pure (connection_rename e identifier label) d d d' res some_draws e (changed_connection identifier (renamed_connection label)) connection_answer _ _ _ eq_refl H);
      [done|intros c ? ?; by apply renamed_ok|done].
  - unfold answered, setMcpConnectionEnabled in H.
    refine (ran_pure (connection_set_enabled e identifier enabled) d (next_instant d) d' res
      {| drawn_identifier := []; drawn_generation := nextRandom (world_nature w) (instant d);
         drawn_deletion := inr tt; drawn_retirement := None |} e _ _ _ _ _ _ H);
      [done|intros c ? ?|by intros key [] c [= ->] [= ->]|done].
    by apply connection_enabled_ok.
  - refine (ran_change (connection_remove e identifier) d d d' res some_draws e (removal identifier)
      (fun y => removed_connection identifier (drawn_deletion y)) done_answer _ _ _ _ _ _ H);
      [done| | | |done|done].
    + intros c. unfold removal. keep.
    + intros c d1 a d2 Ha. apply removal_drawn in Ha as [deletion ->].
      by exists {| drawn_identifier := []; drawn_generation := []; drawn_deletion := deletion;
                   drawn_retirement := None |}.
    + intros c y ? ?. by apply removed_connection_ok.
Qed.

(** Retirements that are not about the files of the configuration. *)
Definition retirements_elsewhere : Prop := forall n, Forall elsewhere (retirements (world_nature w) n).

Lemma finally_elsewhere {A : Type} (m : io A) after : elsewhere m -> elsewhere after -> elsewhere (finally w m after).
Proof.
  intros Hm Ha d r d'. unfold finally. destruct (m d) as [x d1] eqn:E1, (after d1) as [y d2] eqn:E2.
  intros [= _ <-]. apply Hm in E1 as [H1 H2]. apply Ha in E2 as [H3 H4]. split; congruence.
Qed.

Lemma invalidate_elsewhere : retirements_elsewhere -> elsewhere (invalidateMcpConnectionRuntimes w).
Proof.
  intros He d r d'. unfold invalidateMcpConnectionRuntimes, gets, modify. rewrite !bind_io.
  specialize (He (invalidations d)).
  assert (elsewhere (foldr (finally w) (mret tt) (retirements (world_nature w) (invalidations d)))) as H.
  { induction He as [|m l Hm _ IH]; [by intros d0 r0 d1 [= _ <-]|]. by apply finally_elsewhere. }
  intros Hd. by apply H in Hd.
Qed.

Lemma noticed_elsewhere {A : Type} told (a : A) key c d1 res d2 :
  retirements_elsewhere -> noticed told a d1 res d2 -> represents w key c d1 -> represents w key c d2.
Proof.
  intros He. unfold noticed. destruct told; [|by intros [_ ->]].
  intros (o & Ho & _) Hr. apply invalidate_elsewhere in Ho as [? ?]; [|done]. by eapply represents_files.
Qed.

(** A request whose change was stored: it is a step of the abstract machine from the configuration
    that it found, of which the fleets are then told if it is of connections. *)
Definition stored (r : mcp_request) (d : disk) (res : text + mcp_response) (d' : disk) : Prop :=
  exists key x c d1, found d c /\ response_error (fst (spec_request key x r c)) = None
  /\ represents w key (snd (spec_request key x r c)) d1
  /\ noticed (of_connections r) (fst (spec_request key x r c)) d1 res d'
  /\ (retirements_elsewhere -> represents w key (snd (spec_request key x r c)) d').

(** C5: whatever operations on the file system, readings of /dev/urandom and deletions of
    credentials fail, whatever they throw, and whatever files there were: a request to the catalog
    that reports an error leaves the configuration as it was, but for identities that remote
    servers lacked; one that succeeds is a step of the abstract machine from the configuration that
    it found, whose outcome is stored under the revision of the answer; and one that ends in an
    exception left the configuration as well, or it was a change of a connection that is stored,
    and the exception is that of the fleets which were told of it. *)
Theorem catalog_errors_keep r d res d' :
  request_typed r -> run_request r d = (res, d') ->
  match res with
  | inr a =>
      match response_error a with
      | None => stored r d res d'
      | Some _ => kept d d'
      end
  | inl _ => kept d d' \/ of_connections r = true /\ stored r d res d'
  end.
Proof.
  intros Ht H. apply request_any_run in H as [(key & x & c & d1 & Hf & He & Hr & Hn)|[Hn Hk]]; [|..|done].
  - assert (stored r d res d') as Hs.
    { exists key, x, c, d1. split_and!; [done..|]. intros Hre. by eapply noticed_elsewhere. }
    unfold noticed in Hn. destruct (of_connections r) eqn:Hoc.
    + destruct Hn as (o & _ & ->). destruct o as [e|[]]; [by right|]. by rewrite He.
    + destruct Hn as [-> ->]. by rewrite He.
  - destruct res as [e|a]; [by left|]. specialize (Hn a eq_refl). by destruct (response_error a).
Qed.

End Transactions.

End Requests.

(** ** Examples *)

(** A world in which the read of the configuration fails, after the lock. *)
Definition broken : surroundings := {|
  world_libraries := Sample.library;
  world_nature := {| fault := fun n => if (n =? 6)%nat then Some (txt "input/output error") else None;
                     urandom := fun _ => []; nextRandom := fun _ => txt "u";
                     retirements := fun _ => []; both_threw := fun e _ => e |};
  config_path := txt "/h/config.json";
|}.

(** A world in which a fleet that has a lease throws when it is told of a change. *)
Definition leased : surroundings := {|
  world_libraries := Sample.library;
  world_nature := {| fault := fun _ => None; urandom := fun _ => []; nextRandom := fun _ => txt "u";
                     retirements := fun _ => [mret tt; throw (txt "user error (cannot restart MCP supervisor while a lease is active)")];
                     both_threw := fun e _ => e |};
  config_path := txt "/h/config.json";
|}.

Definition keep_credential (identifier : text) : io (text + unit) := mret (inr tt).

Definition no_restart : io unit := mret tt.

(** What a disk holds is a matter of the libraries. *)
Lemma represents_libraries w w' key c d :
  world_libraries w' = world_libraries w -> represents w key c d -> represents w' key c d.
Proof.
  intros H [H1 H2 H3 H4 H5 H6]. split; unfold held_bytes, stored_config in *; rewrite ?H; assumption.
Qed.

Lemma leased_represents secret :
  represents leased World.key (World.catalog secret) (World.disk_of secret).
Proof. apply (represents_libraries World.calm leased); [reflexivity|apply World.disk_represents]. Qed.

Lemma leased_passes : retirements_pass leased.
Proof. intros n. by repeat constructor. Qed.

(** There a connection is created, and the outcome is the exception. *)
Example lease_created :
  let c := World.catalog (txt "secret") in
  let x := {| drawn_identifier := txt "u"; drawn_generation := txt "u"; drawn_deletion := inr tt;
              drawn_retirement := Some (txt "user error (cannot restart MCP supervisor while a lease is active)") |} in
  let '(a, c') := spec_outcome leased World.key x
    (connection_create (cat_revision c) (txt "Docs") (txt "https://example.org/mcp")) c in
  a = inl (txt "user error (cannot restart MCP supervisor while a lease is active)")
  /\ configMcpServers (cat_config c') !! txt "connection_u" =
     Some (createdConnection (txt "u") (txt "u") (txt "Docs") (txt "https://example.org/mcp")).
Proof.
  intros c x. subst c. unfold spec_outcome. cbn [spec_request]. unfold spec_mutate. rewrite Z.eqb_refl. cbn [negb].
  change (cat_config (World.catalog (txt "secret"))) with (World.config (txt "secret")).
  destruct (created_connection _ _ _ _ _ _) as [e|[config v]] eqn:E; vm_compute in E; [done|].
  injection E as <- <-. destruct (validateHarnessConfig _ _) eqn:Hv; vm_compute in Hv; [done|].
  cbn [prod_map fst snd notified]. cbn [x drawn_retirement]. split; [done|]. cbn [id catalog_of cat_config].
  vm_compute. done.
Qed.

Lemma catalog_refines_witness :
  let c := World.catalog (txt "secret") in
  let rs := [servers_list; connection_create (cat_revision c) (txt "Docs") (txt "https://example.org/mcp");
             connections_list; server_set_enabled (cat_revision c) (txt "docs") false] in
  exists l d', l.*2 = rs /\ steps_seen leased World.key l c /\ steps_drawn leased keep_credential World.key l c 0
  /\ run_requests leased keep_credential no_restart rs (World.disk_of (txt "secret")) =
     (fst (spec_requests leased World.key l c), d')
  /\ represents leased World.key (snd (spec_requests leased World.key l c)) d'.
Proof.
  intros c rs.
  refine (catalog_refines leased keep_credential no_restart _ _ World.key c (World.disk_of (txt "secret")) rs _ _ _ _).
  - intros identifier d _. by exists (inr tt), d.
  - intros d _. by exists tt, d.
  - exact leased_passes.
  - intros n _. reflexivity.
  - apply leased_represents.
  - by repeat constructor.
Defined.

Lemma catalog_errors_keep_witness :
  let d := World.disk_of (txt "secret") in
  run_request broken keep_credential no_restart (server_remove 0 (txt "docs")) d =
    (inr (done_answer (inl (McpAdminInvalid unreadable))), Nat.iter 7 next_instant d)
  /\ kept broken d (Nat.iter 7 next_instant d).
Proof.
  intros d. assert (run_request broken keep_credential no_restart (server_remove 0 (txt "docs")) d =
    (inr (done_answer (inl (McpAdminInvalid unreadable))), Nat.iter 7 next_instant d)) as H.
  { vm_compute. reflexivity. }
  split; [exact H|].
  refine (catalog_errors_keep broken keep_credential no_restart _ _ (server_remove 0 (txt "docs")) d _ _ I H).
  - intros identifier d0 r d1 [= _ <-]. exact (conj eq_refl eq_refl).
  - intros d0 r d1 [= _ <-]. exact (conj eq_refl eq_refl).
Defined.
