(* ===== verification/McpOperations.v ===== *)
(** * What the requests to the catalog change

    [requests_change_named]: a successful request changes the server or the connection that it
    names, as it says, and nothing else of the configuration. *)

From stdpp Require Import base tactics option list gmap strings.
From Stdlib Require Import ZArith Lia.
From S2P Require Import Prelude Utf8 BrowserAbi ConfigRevision McpConfig McpCatalog McpTransactions McpRequests.
#[local] Open Scope Z_scope.

(** What the administration of servers may set, the rest of the record being [rest]. *)
Definition described (input : McpAdminServerInput) (s : McpServerConfig) : Prop :=
  mcpCommand s = strip (mcpAdminInputCommand input) /\ mcpArgs s = mcpAdminInputArgs input
  /\ mcpCwd s = mcpAdminInputCwd input /\ mcpEnv s = mcpAdminInputEnv input
  /\ mcpStartupTimeoutSeconds s = mcpAdminInputStartupTimeoutSeconds input
  /\ mcpRequestTimeoutSeconds s = mcpAdminInputRequestTimeoutSeconds input.

(** The part of a server that says who it is, where it is and how it is authorized. *)
Definition identity_of (s : McpServerConfig) :=
  (mcpUrl s, mcpConnectionId s, mcpConnectionCredentials s, mcpOAuth s, mcpProtocol s, mcpRoots s, mcpSampling s, mcpLogLevel s).

(** The part of a server that an edit sets. *)
Definition launch_of (s : McpServerConfig) :=
  (mcpCommand s, mcpArgs s, mcpCwd s, mcpEnv s, mcpStartupTimeoutSeconds s, mcpRequestTimeoutSeconds s).

(** What a successful request makes of the entry of a name, before and after. *)
Definition entry_change (x : draws) (r : mcp_request) (name : text) (before after : option McpServerConfig) : Prop :=
  match r with
  | server_add _ _ input =>
      before = None /\ exists s, after = Some s /\ mcpEnabled s = true /\ mcpUrl s = None /\ described input s
  | server_edit _ _ input =>
      exists s s', before = Some s /\ after = Some s' /\ mcpUrl s = None /\ described input s'
        /\ mcpEnabled s' = mcpEnabled s /\ identity_of s' = identity_of s
  | server_set_enabled _ _ enabled =>
      exists s s', before = Some s /\ after = Some s' /\ mcpEnabled s' = enabled
        /\ launch_of s' = launch_of s /\ identity_of s' = identity_of s
        /\ mcpConnectionGeneration s' = mcpConnectionGeneration s /\ mcpDisplayName s' = mcpDisplayName s
  | server_remove _ _ => exists s, before = Some s /\ mcpUsesConnectionCredentials s = false /\ after = None
  | connection_create _ label endpoint =>
      before = None /\ exists s, after = Some s /\ mcpConnectionId s = Some (drawn_identifier x)
        /\ mcpConnectionGeneration s = Some (drawn_generation x) /\ mcpConnectionCredentials s = Some true
        /\ mcpEnabled s = true /\ mcpUrl s = Some (strip endpoint) /\ mcpDisplayName s = Some (strip label)
        /\ mcpEnv s = ∅ /\ mcpOAuth s = None
  | connection_rename _ identifier label =>
      exists s s', before = Some s /\ after = Some s' /\ mcpConnectionId s = Some identifier
        /\ mcpDisplayName s' = Some (strip label) /\ mcpEnabled s' = mcpEnabled s
        /\ mcpConnectionGeneration s' = mcpConnectionGeneration s
        /\ launch_of s' = launch_of s /\ identity_of s' = identity_of s
  | connection_set_enabled _ identifier enabled =>
      exists s s', before = Some s /\ after = Some s' /\ mcpConnectionId s = Some identifier
        /\ mcpEnabled s' = enabled /\ mcpConnectionGeneration s' = Some (drawn_generation x)
        /\ mcpDisplayName s' = mcpDisplayName s /\ launch_of s' = launch_of s /\ identity_of s' = identity_of s
  | connection_remove _ identifier =>
      exists s, before = Some s /\ mcpConnectionId s = Some identifier /\ after = None
        /\ (mcpUsesConnectionCredentials s = true -> drawn_deletion x = inr tt)
  | servers_list | server_read _ | server_restart _ _ | connections_list => after = before
  end.

(** The name of the entry, for requests that say it. *)
Definition named_entry (r : mcp_request) : option text :=
  match r with
  | server_read name | server_add _ name _ | server_edit _ name _ | server_set_enabled _ name _
  | server_remove _ name | server_restart _ name => Some name
  | _ => None
  end.

(** Two configurations that differ in one entry at most. *)
Definition differ_at (name : text) (c c' : HarnessConfig) : Prop :=
  c' = with_servers (configMcpServers c') c
  /\ forall k, k <> name -> configMcpServers c' !! k = configMcpServers c !! k.

Lemma differ_refl name c : differ_at name c c.
Proof. split; [by rewrite with_same_servers|done]. Qed.

Lemma differ_insert name s c : differ_at name c (insert_server name s c).
Proof. split; [done|]. intros k Hk. by apply lookup_insert_ne. Qed.

Lemma differ_delete name c : differ_at name c (delete_server name c).
Proof. split; [done|]. intros k Hk. by apply lookup_delete_ne. Qed.

Section Exact.
Context (w : surroundings).

(** What a change of the configuration does when it succeeds. *)
Definition changes (x : draws) (r : mcp_request) (c c' : HarnessConfig) : Prop :=
  exists name, from_option (eq name) True (named_entry r) /\ differ_at name c c'
  /\ entry_change x r name (configMcpServers c !! name) (configMcpServers c' !! name).

Lemma mutation_changes {A : Type} key e change c x r (f : answer A -> mcp_response) :
  (forall a, response_error (f a) = answer_error a) ->
  (forall c' v, change (cat_config c) = inr (c', v) -> changes x r (cat_config c) c') ->
  let s := spec_mutate w key e change c in
  response_error (f (fst s)) = None -> changes x r (cat_config c) (cat_config (snd s)).
Proof.
  intros Hf Hch s. subst s. rewrite Hf. unfold spec_mutate. destruct (negb _); [done|].
  destruct (change (cat_config c)) as [err|[c' v]] eqn:E; [done|].
  destruct (validateHarnessConfig _ c'); [done|]. intros _. by apply (Hch c' v).
Qed.

Lemma unchanged x r name c : from_option (eq name) True (named_entry r) ->
  entry_change x r name (configMcpServers c !! name) (configMcpServers c !! name) -> changes x r c c.
Proof. intros Hn He. exists name. split_and!; [done|apply differ_refl|done]. Qed.

Lemma found_changes x r identifier change c c' v :
  named_entry r = None ->
  (forall name s s', configMcpServers c !! name = Some s -> mcpConnectionId s = Some identifier ->
     change s = inr s' -> entry_change x r name (Some s) (Some s')) ->
  changed_connection identifier change c = inr (c', v) -> changes x r c c'.
Proof.
  intros Hn He. unfold changed_connection. destruct (findConnection identifier c) as [|[[name url] s]] eqn:E; [done|].
  apply find_connection_some in E as (Hs & _ & Hid). destruct (change s) as [|s'] eqn:Ec; [done|].
  intros [= <- _]. exists name. rewrite Hn. split_and!; [done|apply differ_insert|].
  cbn. rewrite lookup_insert_eq, Hs. by apply (He name).
Qed.

Lemma created_changes x expected label endpoint c c' v :
  created_connection w (drawn_identifier x) (drawn_generation x) label endpoint c = inr (c', v) ->
  changes x (connection_create expected label endpoint) c c'.
Proof.
  unfold created_connection, validateDisplayName, validateEndpoint.
  destruct (_ || _); [done|]. destruct (validateOAuthEndpoint _ _); [done|].
  destruct (configMcpServers _ !! _) eqn:E; [done|]. intros [= <- _].
  exists (connectionServerName (drawn_identifier x)).
  split_and!; [exact I|apply differ_insert|]. cbn -[connectionServerName]. rewrite lookup_insert_eq, E. split; [done|].
  eexists. by split_and!.
Qed.

Lemma removed_changes x expected identifier c c' v :
  removed_connection identifier (drawn_deletion x) c = inr (c', v) ->
  changes x (connection_remove expected identifier) c c'.
Proof.
  unfold removed_connection.
  destruct (findConnection identifier _) as [|[[name url] s]] eqn:E; [done|].
  apply find_connection_some in E as (Hs & _ & Hid).
  destruct (if mcpUsesConnectionCredentials s then _ else _) as [|u] eqn:Hd; [done|]. intros [= <- _].
  exists name. split_and!; [done|apply differ_delete|]. cbn. rewrite lookup_delete_eq, Hs.
  exists s. split_and!; [done..|]. intros Hm. rewrite Hm in Hd. by destruct u.
Qed.

(** C6: a request to the catalog that succeeds changes one entry of the MCP servers, the one that it
    names, and nothing else of the configuration; and of that entry just what it says.  An edit
    keeps whether the server is enabled and is never of a remote server; enabling keeps the rest;
    managed connections are not removed as servers; a connection that is created has a new
    identity and lifecycle; a rename keeps its lifecycle, enabling starts a new one; and a
    connection goes only once its credentials were deleted. *)
Theorem requests_change_named key x r c :
  response_error (fst (spec_request w key x r c)) = None ->
  changes x r (cat_config c) (cat_config (snd (spec_request w key x r c))).
Proof.
  destruct r; cbn [spec_request].
  - intros _. by apply (unchanged _ _ []).
  - intros _. by apply (unchanged _ _ name).
  - apply (mutation_changes key expected _ c x (server_add expected name input)); [done|].
    intros c' v. unfold added_server. destruct (configMcpServers _ !! name) eqn:E; [done|]. intros [= <- _].
    exists name. split_and!; [done|apply differ_insert|]. cbn. rewrite lookup_insert_eq, E. split; [done|].
    eexists. split; [reflexivity|]. done.
  - apply (mutation_changes key expected _ c x (server_edit expected name input)); [done|].
    intros c' v. unfold edited_server. destruct (configMcpServers _ !! name) as [s|] eqn:E; [|done].
    destruct (mcpUrl s) eqn:Hu; [done|]. intros [= <- _].
    exists name. split_and!; [done|apply differ_insert|]. cbn. rewrite lookup_insert_eq, E.
    exists s. eexists. by split_and!.
  - apply (mutation_changes key expected _ c x (server_set_enabled expected name enabled)); [done|].
    intros c' v. unfold enabled_server. destruct (configMcpServers _ !! name) as [s|] eqn:E; [|done].
    intros [= <- _]. exists name. split_and!; [done|apply differ_insert|]. cbn. rewrite lookup_insert_eq, E.
    exists s. eexists. by split_and!.
  - apply (mutation_changes key expected _ c x (server_remove expected name)); [done|].
    intros c' v. unfold removed_server. destruct (configMcpServers _ !! name) as [s|] eqn:E; [|done].
    destruct (mcpUsesConnectionCredentials s) eqn:Hm; [done|]. intros [= <- _].
    exists name. split_and!; [done|apply differ_delete|]. cbn. rewrite lookup_delete_eq, E. by exists s.
  - intros _. by apply (unchanged _ _ name).
  - intros _. by apply (unchanged _ _ []).
  - apply (mutation_changes key expected _ c x (connection_create expected label endpoint)); [done|].
    intros c' v. apply created_changes.
  - apply (mutation_changes key expected _ c x (connection_rename expected identifier label)); [done|].
    intros c' v. apply found_changes; [done|]. intros name s s' Hs Hid.
    unfold renamed_connection, validateDisplayName. destruct (_ || _); [done|]. intros [= <-].
    exists s. eexists. by split_and!.
  - apply (mutation_changes key expected _ c x (connection_set_enabled expected identifier enabled)); [done|].
    intros c' v. apply found_changes; [done|]. intros name s s' Hs Hid [= <-].
    exists s. eexists. by split_and!.
  - apply (mutation_changes key expected _ c x (connection_remove expected identifier)); [done|].
    intros c' v. apply removed_changes.
Qed.

End Exact.

(** ** An example *)

(** A server is switched off; its variable stays. *)
Lemma requests_change_named_witness :
  let c := World.catalog (txt "secret") in
  let r := server_set_enabled (cat_revision c) (txt "docs") false in
  changes some_draws r (cat_config c) (cat_config (snd (spec_request World.calm World.key some_draws r c))).
Proof.
  intros c r. apply (requests_change_named World.calm World.key some_draws r c).
  subst r. cbn [spec_request]. unfold spec_mutate. rewrite Z.eqb_refl. cbn [negb].
  change (cat_config c) with (World.config (txt "secret")).
  assert (exists c', enabled_server (txt "docs") false (World.config (txt "secret")) =
    inr (c', publicServer (txt "docs") (with_state false None None (World.server (txt "secret"))))
    /\ validateHarnessConfig Sample.library c' = None) as (c' & -> & Hv).
  { eexists. split; [reflexivity|]. by vm_compute. }
  change (world_libraries World.calm) with Sample.library. rewrite Hv. reflexivity.
Defined.
