(* ===== verification/McpSecrets.v ===== *)
(** * Secrets of the catalog

    The values of the environment variables of MCP servers are written and never told.
    [env_values_withheld]: catalogs that differ in such values alone answer alike. *)

From stdpp Require Import base tactics option list gmap sorting strings.
From Stdlib Require Import ZArith Lia.
From coqutil Require Import Byte.
From S2P Require Import Prelude Utf8 BrowserAbi McpConfig McpCatalog McpTransactions McpRequests.
#[local] Open Scope Z_scope.

(** ** Without the values *)

Definition redact_env (env : gmap text text) : gmap text text := (fun _ => []) <$> env.

Definition redact_server (s : McpServerConfig) : McpServerConfig := {|
  mcpEnabled := mcpEnabled s;
  mcpUrl := mcpUrl s;
  mcpConnectionId := mcpConnectionId s;
  mcpConnectionCredentials := mcpConnectionCredentials s;
  mcpConnectionGeneration := mcpConnectionGeneration s;
  mcpDisplayName := mcpDisplayName s;
  mcpCommand := mcpCommand s;
  mcpArgs := mcpArgs s;
  mcpCwd := mcpCwd s;
  mcpEnv := redact_env (mcpEnv s);
  mcpStartupTimeoutSeconds := mcpStartupTimeoutSeconds s;
  mcpRequestTimeoutSeconds := mcpRequestTimeoutSeconds s;
  mcpOAuth := mcpOAuth s;
  mcpProtocol := mcpProtocol s;
  mcpRoots := mcpRoots s;
  mcpSampling := mcpSampling s;
  mcpLogLevel := mcpLogLevel s;
|}.

Definition redact (c : HarnessConfig) : HarnessConfig :=
  with_servers (redact_server <$> configMcpServers c) c.

Definition redact_input (input : McpAdminServerInput) : McpAdminServerInput := {|
  mcpAdminInputCommand := mcpAdminInputCommand input;
  mcpAdminInputArgs := mcpAdminInputArgs input;
  mcpAdminInputCwd := mcpAdminInputCwd input;
  mcpAdminInputEnv := redact_env (mcpAdminInputEnv input);
  mcpAdminInputStartupTimeoutSeconds := mcpAdminInputStartupTimeoutSeconds input;
  mcpAdminInputRequestTimeoutSeconds := mcpAdminInputRequestTimeoutSeconds input;
|}.

(** Configurations that differ in such values at most. *)
Definition alike (c c' : HarnessConfig) : Prop := redact c = redact c'.

#[export] Instance alike_equivalence : Equivalence alike.
Proof. split; [by intros c|by intros c c'|by intros c1 c2 c3 H1 H2; unfold alike; rewrite H1]. Qed.

(** ** Maps in order *)

Lemma toAscList_fmap {A B : Type} (f : A -> B) (m : gmap text A) :
  toAscList (f <$> m) = prod_map id f <$> toAscList m.
Proof.
  apply (StronglySorted_unique_strong key_le).
  - intros [k b] [k' b'] Hb Hb' H1 H2. apply elem_of_toAscList in Hb.
    apply list_elem_of_fmap in Hb' as ([k2 a] & [= -> ->] & Ha). apply elem_of_toAscList in Ha.
    assert (k = k2) as ->.
    { clear Hb Ha. unfold key_le in *. cbn in *. revert k2 H1 H2. induction k as [|x k IH]; intros [|y k2]; try done.
      cbn. rewrite !orb_True, !andb_True, !Is_true_true, !Z.ltb_lt, !Z.eqb_eq.
      intros [?|[? H1]] [?|[? H2]]; try lia. f_equal; [done|]. by apply IH; apply Is_true_true. }
    f_equal. rewrite lookup_fmap, Ha in Hb. by injection Hb.
  - apply toAscList_ascending.
  - pose proof (toAscList_ascending m) as H. induction H as [|[k a] l _ IH Hl]; [constructor|].
    cbn. constructor; [done|]. apply Forall_fmap. eapply Forall_impl; [exact Hl|]. by intros [k' a'].
  - rewrite toAscList_Permutation. rewrite toAscList_Permutation, map_to_list_fmap. done.
Qed.

Lemma public_redacted name s : publicServer name (redact_server s) = publicServer name s.
Proof.
  unfold publicServer. cbn. unfold redact_env. rewrite toAscList_fmap.
  by rewrite <- list_fmap_compose.
Qed.

Lemma servers_redacted c : toAscList (configMcpServers (redact c)) = prod_map id redact_server <$> toAscList (configMcpServers c).
Proof. cbn. apply toAscList_fmap. Qed.

Lemma listed_servers_redacted c : listed_servers (redact c) = listed_servers c.
Proof.
  unfold listed_servers. rewrite servers_redacted. induction (toAscList (configMcpServers c)) as [|[k s] l IH]; [done|].
  cbn. destruct (negb (mcpUsesConnectionCredentials s)) eqn:E; unfold mcpUsesConnectionCredentials in *; cbn; rewrite E; [|done].
  cbn. by rewrite public_redacted, IH.
Qed.

Lemma listed_connections_redacted c : listed_connections (redact c) = listed_connections c.
Proof.
  unfold listed_connections. rewrite servers_redacted.
  induction (toAscList (configMcpServers c)) as [|[k s] l IH]; [done|]. cbn.
  destruct (mcpConnectionId s) as [identifier|]; cbn; [|done]. destruct (mcpUrl s); cbn; [|done].
  by rewrite IH.
Qed.

Lemma flat_map_fmap {A B C : Type} (f : A -> B) (g : B -> list C) l :
  flat_map g (f <$> l) = flat_map (fun a => g (f a)) l.
Proof. induction l as [|a l IH]; [done|]. cbn. by rewrite IH. Qed.

Lemma omap_fmap {A B C : Type} (f : A -> B) (g : B -> option C) (l : list A) :
  omap g (f <$> l) = omap (fun a => g (f a)) l.
Proof. induction l as [|a l IH]; [done|]. cbn. by rewrite IH. Qed.

Lemma validate_redacted lib c : validateHarnessConfig lib (redact c) = validateHarnessConfig lib c.
Proof.
  unfold validateHarnessConfig, config_checks, connection_identifiers.
  rewrite servers_redacted, flat_map_fmap, omap_fmap. done.
Qed.

Lemma row_redacted identifier p :
  connection_row identifier (prod_map id redact_server p) =
  prod_map id redact_server <$> connection_row identifier p.
Proof.
  unfold connection_row. destruct p as [k s]. cbn. case_bool_decide; [|done]. by destruct (mcpUrl s).
Qed.

Lemma rows_redacted identifier (l : list (text * McpServerConfig)) :
  omap (fun p => connection_row identifier (prod_map id redact_server p)) l =
  prod_map id redact_server <$> omap (connection_row identifier) l.
Proof.
  induction l as [|p l IH]; [done|]. cbn. rewrite row_redacted.
  destruct (connection_row identifier p); cbn; [by f_equal|exact IH].
Qed.

Lemma find_redacted identifier c :
  findConnection identifier (redact c) =
  match findConnection identifier c with
  | inl e => inl e
  | inr (name, url, s) => inr (name, url, redact_server s)
  end.
Proof.
  unfold findConnection. rewrite servers_redacted, omap_fmap, rows_redacted.
  by destruct (omap _ _) as [|[[name url] s] [|]].
Qed.

(** ** Changes of redacted configurations *)

(** The outcome of a change, without the values. *)
Definition redact_result {A : Type} (r : McpAdminError + HarnessConfig * A) : McpAdminError + HarnessConfig * A :=
  match r with inl e => inl e | inr (c, a) => inr (redact c, a) end.

Lemma redact_insert name s c : redact (insert_server name s c) = insert_server name (redact_server s) (redact c).
Proof. unfold redact, insert_server, with_servers. cbn. by rewrite fmap_insert. Qed.

Lemma redact_delete name c : redact (delete_server name c) = delete_server name (redact c).
Proof. unfold redact, delete_server, with_servers. cbn. by rewrite fmap_delete. Qed.

Lemma lookup_redacted name c : configMcpServers (redact c) !! name = redact_server <$> (configMcpServers c !! name).
Proof. cbn. apply lookup_fmap. Qed.

Lemma added_redacted name input c :
  added_server name (redact_input input) (redact c) = redact_result (added_server name input c).
Proof.
  unfold added_server. rewrite lookup_redacted. destruct (configMcpServers c !! name); [done|]. cbn.
  by rewrite redact_insert, <- (public_redacted name (inputServer true input)).
Qed.

Lemma edited_redacted name input c :
  edited_server name (redact_input input) (redact c) = redact_result (edited_server name input c).
Proof.
  unfold edited_server. rewrite lookup_redacted. destruct (configMcpServers c !! name) as [s|]; [|done]. cbn.
  destruct (is_some (mcpUrl s)); [done|]. cbn.
  by rewrite redact_insert, <- (public_redacted name (editedServer s input)).
Qed.

Lemma enabled_redacted name enabled c :
  enabled_server name enabled (redact c) = redact_result (enabled_server name enabled c).
Proof.
  unfold enabled_server. rewrite lookup_redacted. destruct (configMcpServers c !! name) as [s|]; [|done]. cbn.
  by rewrite redact_insert, <- (public_redacted name (with_state _ _ _ s)).
Qed.

Lemma removed_redacted name c : removed_server name (redact c) = redact_result (removed_server name c).
Proof.
  unfold removed_server. rewrite lookup_redacted. destruct (configMcpServers c !! name) as [s|]; [|done]. cbn.
  unfold mcpUsesConnectionCredentials. cbn. destruct (default _ _); [done|]. cbn. by rewrite redact_delete.
Qed.

Lemma renamed_redacted identifier label c :
  changed_connection identifier (renamed_connection label) (redact c) =
  redact_result (changed_connection identifier (renamed_connection label) c).
Proof.
  unfold changed_connection. rewrite find_redacted.
  destruct (findConnection identifier c) as [e|[[name url] s]]; [done|].
  unfold renamed_connection. destruct (validateDisplayName label) as [e|displayName]; [done|]. cbn.
  by rewrite redact_insert.
Qed.

Lemma connection_enabled_redacted identifier enabled generation c :
  changed_connection identifier (enabled_connection enabled generation) (redact c) =
  redact_result (changed_connection identifier (enabled_connection enabled generation) c).
Proof.
  unfold changed_connection. rewrite find_redacted.
  destruct (findConnection identifier c) as [e|[[name url] s]]; [done|]. cbn. by rewrite redact_insert.
Qed.

Lemma created_redacted w identifier generation label endpoint c :
  created_connection w identifier generation label endpoint (redact c) =
  redact_result (created_connection w identifier generation label endpoint c).
Proof.
  unfold created_connection. destruct (validateDisplayName label) as [e|displayName]; [done|].
  destruct (validateEndpoint w endpoint) as [e|url]; [done|]. cbv zeta. rewrite lookup_redacted.
  destruct (configMcpServers c !! connectionServerName identifier); [done|]. cbn [fmap option_fmap option_map is_some redact_result].
  rewrite redact_insert. do 3 f_equal.
Qed.

Lemma removed_connection_redacted identifier deletion c :
  removed_connection identifier deletion (redact c) = redact_result (removed_connection identifier deletion c).
Proof.
  unfold removed_connection. rewrite find_redacted.
  destruct (findConnection identifier c) as [e|[[name url] s]]; [done|].
  unfold mcpUsesConnectionCredentials. cbn [redact_server mcpConnectionId mcpConnectionCredentials].
  match goal with |- context [if ?b then deletion else _] => destruct (if b then deletion else inr tt) end;
    [done|]. cbn. by rewrite redact_delete.
Qed.

(** ** Answers *)

Definition unrevised_answer {A : Type} (a : answer A) : answer A :=
  match a with
  | inl (McpAdminConflict _) => inl (McpAdminConflict 0)
  | inl e => inl e
  | inr s => inr (Build_McpAdminSnapshot 0 (mcpAdminValue s))
  end.

(** A response without its revision, which is a hash of the whole file. *)
Definition unrevised (a : mcp_response) : mcp_response :=
  match a with
  | servers_answer a => servers_answer (unrevised_answer a)
  | server_answer a => server_answer (unrevised_answer a)
  | done_answer a => done_answer (unrevised_answer a)
  | connections_answer a => connections_answer (unrevised_answer a)
  | connection_answer a => connection_answer (unrevised_answer a)
  end.

(** An outcome without its revision. *)
Definition unrevised_outcome (o : text + mcp_response) : text + mcp_response :=
  match o with inl e => inl e | inr a => inr (unrevised a) end.

(** A request without the values and the revision. *)
Definition redact_request (r : mcp_request) : mcp_request :=
  match r with
  | server_add _ name input => server_add 0 name (redact_input input)
  | server_edit _ name input => server_edit 0 name (redact_input input)
  | server_set_enabled _ name enabled => server_set_enabled 0 name enabled
  | server_remove _ name => server_remove 0 name
  | server_restart _ name => server_restart 0 name
  | connection_create _ label endpoint => connection_create 0 label endpoint
  | connection_rename _ identifier label => connection_rename 0 identifier label
  | connection_set_enabled _ identifier enabled => connection_set_enabled 0 identifier enabled
  | connection_remove _ identifier => connection_remove 0 identifier
  | servers_list | server_read _ | connections_list => r
  end.

(** The fleets are told of such requests alike. *)
Lemma notified_redacted r a : notified (redact_request r) (unrevised a) = notified r a.
Proof. by destruct r, a as [[[]|]|[[]|]|[[]|]|[[]|]|[[]|]]. Qed.

(** The draws that a request makes. *)
Definition same_draws (r : mcp_request) (x1 x2 : draws) : Prop :=
  match r with
  | connection_create _ _ _ =>
      drawn_identifier x1 = drawn_identifier x2 /\ drawn_generation x1 = drawn_generation x2
  | connection_set_enabled _ _ _ => drawn_generation x1 = drawn_generation x2
  | connection_remove _ _ => drawn_deletion x1 = drawn_deletion x2
  | _ => True
  end.

Section Answers.
Context (w : surroundings).

(** Two requests to two catalogs whose revisions both match, or both do not. *)
Definition same_expectation (r1 r2 : mcp_request) (c1 c2 : catalog) : Prop :=
  expected_revision r1 = Some (cat_revision c1) <-> expected_revision r2 = Some (cat_revision c2).

Definition alike_steps (s1 s2 : mcp_response * catalog) : Prop :=
  unrevised (fst s1) = unrevised (fst s2) /\ alike (cat_config (snd s1)) (cat_config (snd s2)).

Lemma mutate_alike {A : Type} key1 key2 e1 e2 (ch1 ch2 : HarnessConfig -> McpAdminError + HarnessConfig * A) c1 c2
    (f : answer A -> mcp_response) :
  (forall a b, unrevised_answer a = unrevised_answer b -> unrevised (f a) = unrevised (f b)) ->
  (e1 = cat_revision c1 <-> e2 = cat_revision c2) -> alike (cat_config c1) (cat_config c2) ->
  redact_result (ch1 (cat_config c1)) = redact_result (ch2 (cat_config c2)) ->
  alike_steps (prod_map f id (spec_mutate w key1 e1 ch1 c1)) (prod_map f id (spec_mutate w key2 e2 ch2 c2)).
Proof.
  intros Hf He Hc Hch. unfold spec_mutate, alike_steps.
  assert ((e1 =? cat_revision c1) = (e2 =? cat_revision c2)) as ->.
  { destruct (Z.eqb_spec e1 (cat_revision c1)), (Z.eqb_spec e2 (cat_revision c2)); tauto. }
  destruct (negb _); [cbn; auto|].
  destruct (ch1 (cat_config c1)) as [x1|[d1 v1]], (ch2 (cat_config c2)) as [x2|[d2 v2]]; try done;
    cbn [redact_result] in Hch.
  - assert (x1 = x2) as -> by congruence. cbn. auto.
  - assert (redact d1 = redact d2 /\ v1 = v2) as [H1 ->] by (split; congruence).
    rewrite <- (validate_redacted _ d1), H1, validate_redacted.
    destruct (validateHarnessConfig _ d2); cbn; auto.
Qed.

Lemma redact_env_twice env : redact_env (redact_env env) = redact_env env.
Proof. unfold redact_env. by rewrite <- map_fmap_compose. Qed.

Lemma alike_redact c : alike c (redact c).
Proof.
  unfold alike. unfold redact at 2. unfold redact. cbn. unfold with_servers. cbn. f_equal.
  rewrite <- map_fmap_compose. apply map_fmap_ext. intros k s _. unfold redact_server. cbn.
  by rewrite redact_env_twice.
Qed.

(** A catalog without the values, at a revision that says only whether the request matches it. *)
Definition canonical (r : mcp_request) (c : catalog) : catalog := {|
  cat_revision := if decide (expected_revision r = Some (cat_revision c)) then 0 else 1;
  cat_config := redact (cat_config c);
|}.

Lemma canonical_expected r e e' c :
  expected_revision r = Some e -> e' = 0 -> (e = cat_revision c <-> e' = cat_revision (canonical r c)).
Proof.
  intros He ->. unfold canonical. cbn. rewrite He. destruct (decide _) as [H|H].
  - split; congruence.
  - split; [congruence|lia].
Qed.

Lemma mutate_canonical {A : Type} r key e (ch ch' : HarnessConfig -> McpAdminError + HarnessConfig * A) c
    (f : answer A -> mcp_response) :
  (forall a b, unrevised_answer a = unrevised_answer b -> unrevised (f a) = unrevised (f b)) ->
  expected_revision r = Some e ->
  ch' (redact (cat_config c)) = redact_result (ch (cat_config c)) ->
  alike_steps (prod_map f id (spec_mutate w key e ch c))
              (prod_map f id (spec_mutate w [] 0 ch' (canonical r c))).
Proof.
  intros Hf He Hch. apply mutate_alike; [done|by apply canonical_expected|apply alike_redact|].
  cbn [canonical cat_config]. rewrite Hch. destruct (ch (cat_config c)) as [x|[c' v]]; [done|].
  cbn [redact_result]. do 2 f_equal. apply alike_redact.
Qed.

Lemma request_canonical key x r c :
  alike_steps (spec_request w key x r c) (spec_request w [] x (redact_request r) (canonical r c)).
Proof.
  pose proof (alike_redact (cat_config c)) as Hc.
  destruct r; cbn [redact_request spec_request];
    try (apply mutate_canonical; [by intros a b Hab; cbn; rewrite Hab|done|]).
  - split; [|done]. cbn. by rewrite listed_servers_redacted.
  - split; [|done]. cbn [fst canonical cat_config cat_revision]. rewrite lookup_redacted.
    destruct (configMcpServers (cat_config c) !! name); cbn; [by rewrite public_redacted|done].
  - apply added_redacted.
  - apply edited_redacted.
  - apply enabled_redacted.
  - apply removed_redacted.
  - split; [|done]. cbn [fst]. pose proof (canonical_expected (server_restart expected name) expected 0 c eq_refl eq_refl) as He.
    destruct (Z.eqb_spec (cat_revision c) expected) as [Heq|Hne],
      (Z.eqb_spec (cat_revision (canonical (server_restart expected name) c)) 0) as [H0|H0]; cbn [negb]; try done.
    + cbn [canonical cat_config]. rewrite lookup_redacted.
      destruct (configMcpServers (cat_config c) !! name); cbn; [by rewrite public_redacted|done].
    + exfalso. apply H0. symmetry. by apply He.
    + exfalso. apply Hne. symmetry. by apply He.
  - split; [|done]. cbn. by rewrite listed_connections_redacted.
  - apply created_redacted.
  - apply renamed_redacted.
  - apply connection_enabled_redacted.
  - apply removed_connection_redacted.
Qed.

Lemma request_draws key x1 x2 r c :
  same_draws r x1 x2 -> spec_request w key x1 r c = spec_request w key x2 r c.
Proof.
  destruct r; try done; cbn; [by intros [-> ->]|by intros ->|by intros ->].
Qed.

Lemma request_alike key1 key2 x1 x2 r1 r2 c1 c2 :
  alike (cat_config c1) (cat_config c2) -> redact_request r1 = redact_request r2 ->
  same_draws (redact_request r1) x1 x2 -> same_expectation r1 r2 c1 c2 ->
  alike_steps (spec_request w key1 x1 r1 c1) (spec_request w key2 x2 r2 c2).
Proof.
  intros Hc Hr Hx He. assert (canonical r1 c1 = canonical r2 c2) as Hcan.
  { unfold canonical. rewrite Hc. f_equal. unfold same_expectation in He.
    destruct (decide _), (decide _); tauto. }
  destruct (request_canonical key1 x1 r1 c1) as [H1 H1'].
  destruct (request_canonical key2 x2 r2 c2) as [H2 H2'].
  rewrite (request_draws [] x1 x2 (redact_request r1)), Hcan, Hr in H1, H1' by done. split; [by rewrite H1|by rewrite H1'].
Qed.

(** ** Draws *)

(** An action whose outcome is not a matter of the configuration. *)
Definition blind {A : Type} (m : io A) : Prop := forall d1 d2, fst (m d1) = fst (m d2).

Definition retirements_blind : Prop := forall n, Forall blind (retirements (world_nature w) n).

Lemma finally_blind {A : Type} (m : io A) after : blind m -> blind after -> blind (finally w m after).
Proof.
  intros Hm Ha d1 d2. unfold finally. pose proof (Hm d1 d2) as H.
  destruct (m d1) as [r1 d3], (m d2) as [r2 d4]. cbn in H. subst r2. pose proof (Ha d3 d4) as H.
  destruct (after d3), (after d4). cbn in *. by subst.
Qed.

Lemma retired_alike x1 x2 d1 d2 :
  retirements_blind -> invalidations d1 = invalidations d2 -> retired w x1 d1 -> retired w x2 d2 ->
  drawn_retirement x1 = drawn_retirement x2.
Proof.
  intros Hb Hi. unfold retired, invalidateMcpConnectionRuntimes, gets, modify. rewrite !bind_io, Hi.
  assert (blind (foldr (finally w) (mret tt) (retirements (world_nature w) (invalidations d2)))) as H.
  { induction (Hb (invalidations d2)) as [|m l Hm _ IH]; [by intros ? ?|]. by apply finally_blind. }
  intros H1 H2. rewrite (H _ (next_invalidation d2)) in H1.
  destruct (drawn_retirement x1), (drawn_retirement x2); congruence.
Qed.

Section Outcomes.
Context (deleteCredential : text -> io (text + unit)) (Hdelete : forall identifier, blind (deleteCredential identifier)).
Context (Hretire : retirements_blind).

Lemma drawn_alike key1 key2 x1 x2 r1 r2 c1 c2 d1 d2 :
  instant d1 = instant d2 -> redact_request r1 = redact_request r2 ->
  drawn w deleteCredential key1 x1 r1 c1 d1 -> drawn w deleteCredential key2 x2 r2 c2 d2 ->
  same_draws (redact_request r1) x1 x2.
Proof.
  intros Hn Hr [H1 _] [H2 _]. destruct r1, r2; try done; cbn in Hr |- *; injection Hr as Hr.
  - rewrite Hn in H1. destruct H1, H2. split; congruence.
  - congruence.
  - subst. destruct H1 as [d3 H1], H2 as [d4 H2]. rewrite (Hdelete _ d3 d4) in H1. congruence.
Qed.

Lemma outcome_alike key1 key2 x1 x2 r1 r2 c1 c2 d1 d2 :
  invalidations d1 = invalidations d2 -> redact_request r1 = redact_request r2 ->
  drawn w deleteCredential key1 x1 r1 c1 d1 -> drawn w deleteCredential key2 x2 r2 c2 d2 ->
  alike_steps (spec_request w key1 x1 r1 c1) (spec_request w key2 x2 r2 c2) ->
  unrevised_outcome (fst (spec_outcome w key1 x1 r1 c1)) = unrevised_outcome (fst (spec_outcome w key2 x2 r2 c2)).
Proof.
  intros Hi Hr [_ H1] [_ H2] [Ha _]. unfold spec_outcome.
  destruct (spec_request w key1 x1 r1 c1) as [a1 c1'], (spec_request w key2 x2 r2 c2) as [a2 c2']. cbn [fst snd] in *.
  assert (notified r1 a1 = notified r2 a2) as Hnot.
  { rewrite <- (notified_redacted r1), <- (notified_redacted r2). by rewrite Hr, Ha. }
  assert (notified r2 a2 = 0 \/ notified r2 a2 = 1)%nat as [H0|H0] by (destruct r2, a2 as [[]|[]|[]|[]|[]]; cbn; auto).
  - rewrite Hnot, H0. cbn. by rewrite Ha.
  - destruct H1 as (d3 & Hi1 & _ & Ht1); [congruence|]. destruct H2 as (d4 & Hi2 & _ & Ht2); [done|].
    rewrite Hnot, H0, (retired_alike x1 x2 d3 d4) by (done || congruence).
    destruct (drawn_retirement x2); cbn; by rewrite ?Ha.
Qed.

End Outcomes.

(** C7: no answer of the catalog depends on the value of an environment variable of a server, while
    no operation on the file system fails.  Take two disks whose configurations differ in such
    values alone, and the same request to both, but that the values in it may differ, and that each
    expects the revision of its own catalog, or neither does.  Both are made, with the same draws
    of identifiers, by a store of credentials and fleets that do not answer by these values.  Then
    the outcomes, be they answers or the exceptions of fleets, are the same but for the revision,
    which is a hash under a key that is not told, and the configurations that the requests leave
    differ again in such values alone. *)
Theorem env_values_withheld (deleteCredential : text -> io (text + unit)) (restart : io unit)
    `{!libraries_ok (world_libraries w)} key1 key2 c1 c2 d1 d2 r1 r2 :
  (forall identifier, timed w (deleteCredential identifier)) -> timed w restart -> retirements_pass w ->
  (forall identifier, blind (deleteCredential identifier)) -> retirements_blind ->
  quiet w d1 -> quiet w d2 -> represents w key1 c1 d1 -> represents w key2 c2 d2 ->
  instant d1 = instant d2 -> invalidations d1 = invalidations d2 ->
  request_typed r1 -> request_typed r2 ->
  alike (cat_config c1) (cat_config c2) -> redact_request r1 = redact_request r2 ->
  same_expectation r1 r2 c1 c2 ->
  exists o1 o2 c1' c2' d1' d2',
    run_request w deleteCredential restart r1 d1 = (o1, d1')
    /\ run_request w deleteCredential restart r2 d2 = (o2, d2')
    /\ unrevised_outcome o1 = unrevised_outcome o2
    /\ represents w key1 c1' d1' /\ represents w key2 c2' d2' /\ alike (cat_config c1') (cat_config c2').
Proof.
  intros Hd Hre Hp Hbd Hbr Hq1 Hq2 Hr1 Hr2 Hn Hi Ht1 Ht2 Hc Hr He.
  destruct (request_refines w deleteCredential restart Hd Hre key1 c1 d1 r1 (fun _ => Hp) Hq1 Hr1 Ht1)
    as (x1 & d1' & H1 & Hrep1 & _ & _ & Hd1).
  destruct (request_refines w deleteCredential restart Hd Hre key2 c2 d2 r2 (fun _ => Hp) Hq2 Hr2 Ht2)
    as (x2 & d2' & H2 & Hrep2 & _ & _ & Hd2).
  assert (alike_steps (spec_request w key1 x1 r1 c1) (spec_request w key2 x2 r2 c2)) as Hs.
  { apply request_alike; [done..| |done]. by eapply drawn_alike. }
  do 6 eexists. split_and!; [exact H1|exact H2| |exact Hrep1|exact Hrep2|].
  - by eapply outcome_alike.
  - unfold spec_outcome. destruct Hs as [_ Hs].
    by destruct (spec_request w key1 x1 r1 c1), (spec_request w key2 x2 r2 c2).
Qed.

End Answers.

(** ** An example *)

Lemma env_values_withheld_witness :
  let c1 := World.catalog (txt "secret") in
  let c2 := World.catalog (txt "other") in
  let create c := connection_create (cat_revision c) (txt "Docs") (txt "https://example.org/mcp") in
  exists o1 o2 c1' c2' d1' d2',
    run_request leased keep_credential no_restart (create c1) (World.disk_of (txt "secret")) = (o1, d1')
    /\ run_request leased keep_credential no_restart (create c2) (World.disk_of (txt "other")) = (o2, d2')
    /\ unrevised_outcome o1 = unrevised_outcome o2
    /\ represents leased World.key c1' d1' /\ represents leased World.key c2' d2'
    /\ alike (cat_config c1') (cat_config c2').
Proof.
  intros c1 c2 create.
  refine (env_values_withheld leased keep_credential no_restart World.key World.key c1 c2 _ _
    _ _ _ _ _ _ _ _ _ _ _ _ _ _ _ _ _ _).
  - intros identifier d _. by exists (inr tt), d.
  - intros d _. by exists tt, d.
  - exact leased_passes.
  - intros identifier d d'. reflexivity.
  - intros n. by repeat constructor.
  - intros n _. reflexivity.
  - intros n _. reflexivity.
  - apply leased_represents.
  - apply leased_represents.
  - exact (@eq_refl nat 0%nat).
  - exact (@eq_refl nat 0%nat).
  - exact I.
  - exact I.
  - change (redact (World.config (txt "secret")) = redact (World.config (txt "other"))).
    vm_compute. reflexivity.
  - subst create. cbn beta. cbn [redact_request]. reflexivity.
  - split; intros _; exact eq_refl.
Defined.
