(* ===== verification/McpServerCalls.v ===== *)
(** * The entries of the MCP servers

    The [ha_mcp_servers_list] and [ha_mcp_server_*] functions of HaskellAgentBridge.h
    (McpAdminBridge.hs of agent-native-bridge/ffi) over the memory that the host lends.
    [server_entries_contract]: each call is refused with the status of the header or accepted as
    the request that its arguments describe, within the limits of the header. *)

From stdpp Require Import base tactics option list gmap strings.
From Stdlib Require Import ZArith Lia.
From coqutil Require Import Byte.
From S2P Require Import Prelude Utf8 AbiLayout HostCall McpConfig McpCatalog McpTransactions McpRequests.
#[local] Open Scope Z_scope.

(** ** The header *)

Definition ha_utf8_slice : list (string * ctype) := [("bytes", c_pointer); ("length", c_size)]%string.

(** Two slices. *)
Definition ha_mcp_env_entry : list (string * ctype) :=
  [("key.bytes", c_pointer); ("key.length", c_size);
   ("value.bytes", c_pointer); ("value.length", c_size)]%string.

(** A pointer and a length. *)
Abbreviation buffer := (Z * Z)%type.

(** The arguments of an add and of an edit; a callback is the address of a function. *)
Record write_arguments := {
  wa_expected : Z;
  wa_name : buffer;
  wa_command : buffer;
  wa_arguments : buffer;
  wa_cwd : buffer;
  wa_environment : buffer;
  wa_startup : Z;
  wa_request : Z;
  wa_callback : Z;
}.

Inductive server_call :=
  | call_servers_list (callback field_callback : Z)
  | call_server_status (name : buffer) (callback field_callback : Z)
  | call_server_read (name : buffer) (callback field_callback : Z)
  | call_server_add (a : write_arguments)
  | call_server_edit (a : write_arguments)
  | call_server_enable (expected : Z) (name : buffer) (callback : Z)
  | call_server_disable (expected : Z) (name : buffer) (callback : Z)
  | call_server_remove (expected : Z) (name : buffer) (callback : Z).

(** ** The entries *)

Section Entries.
Context (m : memory).

Definition maxMcpTextBytes : Z := 1024 * 1024.
Definition maxMcpFields : Z := 4096.

(** The message of a refusal is not used. *)
Definition decodeMcpInput (pointer length : Z) : outcome (option text) :=
  if (pointer =? 0) || (length =? 0) then value (Some [])
  else bytes ← packCStringLen m pointer length; value (utf8_decode bytes).

Definition requireMcpInput (pointer length : Z) : outcome text :=
  decoded ← decodeMcpInput pointer length;
  match decoded with None => threw | Some s => value s end.

(** The slice at [offset] of the array at [pointer]. *)
Definition peek_slice (pointer offset : Z) : outcome text :=
  bytes ← peekByteOff m pointer (offset + 0) pointerSize;
  length ← peekByteOff m pointer (offset + pointerSize) sizeSize;
  if (bytes =? 0) && (0 <? length) || (maxMcpTextBytes <? length) then threw
  else requireMcpInput bytes length.

Definition peekUtf8Slice (pointer index : Z) : outcome text :=
  peek_slice pointer (index * (pointerSize + sizeSize)).

Definition peekEnvEntry (pointer index : Z) : outcome (text * text) :=
  let sliceSize := pointerSize + sizeSize in
  key ← peek_slice pointer (index * (sliceSize * 2));
  val ← peek_slice pointer (index * (sliceSize * 2) + sliceSize);
  value (key, val).

(** [Map.fromList]: of equal keys the last one counts. *)
Definition map_fromList (l : list (text * text)) : gmap text text := list_to_map (rev l).

(** A name that an entry takes. *)
Definition decode_name (name : buffer) (k : text -> mcp_request) : outcome (Z + mcp_request) :=
  let '(nameBytes, nameLength) := name in
  if (nameBytes =? 0) || (nameLength =? 0) || (maxMcpTextBytes <? nameLength) then value (inl 2)
  else
    decoded ← decodeMcpInput nameBytes nameLength;
    value (match decoded with None => inl 2 | Some s => inr (k s) end).

Definition ha_mcp_servers_list (callback fieldCallback : Z) : outcome (Z + mcp_request) :=
  if (callback =? 0) || (fieldCallback =? 0) then value (inl 1) else value (inr servers_list).

Definition ha_mcp_server_read (name : buffer) (callback fieldCallback : Z) : outcome (Z + mcp_request) :=
  if (callback =? 0) || (fieldCallback =? 0) then value (inl 1) else decode_name name server_read.

Definition ha_mcp_server_status := ha_mcp_server_read.

Definition mcpServerWrite (write : Z -> text -> McpAdminServerInput -> mcp_request) (a : write_arguments)
    : outcome (Z + mcp_request) :=
  let '(nameBytes, nameLength) := wa_name a in
  let '(commandBytes, commandLength) := wa_command a in
  let '(argsPointer, argsCount) := wa_arguments a in
  let '(cwdBytes, cwdLength) := wa_cwd a in
  let '(envPointer, envCount) := wa_environment a in
  if wa_callback a =? 0 then value (inl 1)
  else if (nameBytes =? 0) || (nameLength =? 0) || (maxMcpTextBytes <? nameLength)
       || (commandBytes =? 0) || (commandLength =? 0) || (maxMcpTextBytes <? commandLength)
       || (maxMcpTextBytes <? cwdLength)
       || (maxMcpFields <? argsCount) || (maxMcpFields <? envCount) then value (inl 2)
  else if (argsPointer =? 0) && (0 <? argsCount) || (envPointer =? 0) && (0 <? envCount)
       || (cwdBytes =? 0) && (0 <? cwdLength) then value (inl 2)
  else
    either_thrown (inl 2)
      (name ← requireMcpInput nameBytes nameLength;
       command ← requireMcpInput commandBytes commandLength;
       cwd ← requireMcpInput cwdBytes cwdLength;
       args ← map_outcome (peekUtf8Slice argsPointer) (seqZ 0 argsCount);
       env ← map_outcome (peekEnvEntry envPointer) (seqZ 0 envCount);
       value (inr (write (wa_expected a) name
         {| mcpAdminInputCommand := command;
            mcpAdminInputArgs := args;
            mcpAdminInputCwd := match cwd with [] => None | _ => Some cwd end;
            mcpAdminInputEnv := map_fromList env;
            mcpAdminInputStartupTimeoutSeconds := wa_startup a;
            mcpAdminInputRequestTimeoutSeconds := wa_request a |}))).

Definition ha_mcp_server_add := mcpServerWrite server_add.
Definition ha_mcp_server_edit := mcpServerWrite server_edit.

Definition mcpServerSetEnabled (enabled : bool) (expected : Z) (name : buffer) (callback : Z)
    : outcome (Z + mcp_request) :=
  if callback =? 0 then value (inl 1)
  else decode_name name (fun name => server_set_enabled expected name enabled).

Definition ha_mcp_server_enable := mcpServerSetEnabled true.
Definition ha_mcp_server_disable := mcpServerSetEnabled false.

Definition ha_mcp_server_remove (expected : Z) (name : buffer) (callback : Z) : outcome (Z + mcp_request) :=
  if callback =? 0 then value (inl 1) else decode_name name (server_remove expected).

Definition run_server_call (c : server_call) : outcome (Z + mcp_request) :=
  match c with
  | call_servers_list cb fcb => ha_mcp_servers_list cb fcb
  | call_server_status name cb fcb => ha_mcp_server_status name cb fcb
  | call_server_read name cb fcb => ha_mcp_server_read name cb fcb
  | call_server_add a => ha_mcp_server_add a
  | call_server_edit a => ha_mcp_server_edit a
  | call_server_enable expected name cb => ha_mcp_server_enable expected name cb
  | call_server_disable expected name cb => ha_mcp_server_disable expected name cb
  | call_server_remove expected name cb => ha_mcp_server_remove expected name cb
  end.

(** ** The contract *)

(** "Text fields are limited to 1 MiB each": the text of a buffer, absent if it is empty. *)
Definition text_argument (f : buffer) : option text :=
  if null_with_bytes (fst f) (snd f) || (1048576 <? snd f) then None
  else utf8_decode (bytes_at m (fst f) (snd f)).

Definition required_argument (f : buffer) : option text :=
  if (fst f =? 0) || (snd f =? 0) then None else text_argument f.

(** The slices of a structure. *)
Definition slice_of (fs : list (string * ctype)) (bytes length : string) (e : list byte) : buffer :=
  (struct_field fs bytes e, struct_field fs length e).

(** "argument/environment arrays to 4096 entries". *)
Definition array_argument {A : Type} (f : buffer) (size : Z) (rd : list byte -> option A) : option (list A) :=
  if null_with_bytes (fst f) (snd f) || (4096 <? snd f) then None
  else mapM rd (array_at m (fst f) (snd f) size).

Definition argument_of (e : list byte) : option text := text_argument (slice_of ha_utf8_slice "bytes" "length" e).

Definition entry_of (e : list byte) : option (text * text) :=
  key ← text_argument (slice_of ha_mcp_env_entry "key.bytes" "key.length" e);
  val ← text_argument (slice_of ha_mcp_env_entry "value.bytes" "value.length" e);
  Some (key, val).

Definition input_of (a : write_arguments) : option McpAdminServerInput :=
  command ← required_argument (wa_command a);
  args ← array_argument (wa_arguments a) (struct_size ha_utf8_slice) argument_of;
  cwd ← text_argument (wa_cwd a);
  env ← array_argument (wa_environment a) (struct_size ha_mcp_env_entry) entry_of;
  Some {| mcpAdminInputCommand := command;
          mcpAdminInputArgs := args;
          mcpAdminInputCwd := match cwd with [] => None | _ => Some cwd end;
          mcpAdminInputEnv := map_fromList env;
          mcpAdminInputStartupTimeoutSeconds := wa_startup a;
          mcpAdminInputRequestTimeoutSeconds := wa_request a |}.

Definition server_callbacks_of (c : server_call) : list Z :=
  match c with
  | call_servers_list cb fcb | call_server_status _ cb fcb | call_server_read _ cb fcb => [cb; fcb]
  | call_server_add a | call_server_edit a => [wa_callback a]
  | call_server_enable _ _ cb | call_server_disable _ _ cb | call_server_remove _ _ cb => [cb]
  end.

(** The request that the arguments describe. *)
Definition described_request (c : server_call) : option mcp_request :=
  match c with
  | call_servers_list _ _ => Some servers_list
  | call_server_status name _ _ | call_server_read name _ _ => server_read <$> required_argument name
  | call_server_add a => name ← required_argument (wa_name a); server_add (wa_expected a) name <$> input_of a
  | call_server_edit a => name ← required_argument (wa_name a); server_edit (wa_expected a) name <$> input_of a
  | call_server_enable expected name _ =>
      (fun name => server_set_enabled expected name true) <$> required_argument name
  | call_server_disable expected name _ =>
      (fun name => server_set_enabled expected name false) <$> required_argument name
  | call_server_remove expected name _ => server_remove expected <$> required_argument name
  end.

(** "These calls return 0 when accepted, 1 for a missing callback, and 2 for invalid or over-limit
    input." *)
Definition server_request_of (c : server_call) : Z + mcp_request :=
  if existsb (Z.eqb 0) (server_callbacks_of c) then inl 1
  else match described_request c with None => inl 2 | Some r => inr r end.

(** What the host lends: buffers, arrays, and what their slices point to. *)
Definition slice_lent (f : buffer) : Prop := lent m (fst f) (snd f).

Definition array_lent (f : buffer) (size : Z) (slices : list byte -> list buffer) : Prop :=
  0 <= snd f < 2 ^ 64
  /\ (fst f <> 0 -> snd f <= 4096 -> array_readable m (fst f) (snd f) size
      /\ Forall (fun e => Forall slice_lent (slices e)) (array_at m (fst f) (snd f) size)).

Definition write_lent (a : write_arguments) : Prop :=
  slice_lent (wa_name a) /\ slice_lent (wa_command a) /\ slice_lent (wa_cwd a)
  /\ array_lent (wa_arguments a) (struct_size ha_utf8_slice)
       (fun e => [slice_of ha_utf8_slice "bytes" "length" e])
  /\ array_lent (wa_environment a) (struct_size ha_mcp_env_entry)
       (fun e => [slice_of ha_mcp_env_entry "key.bytes" "key.length" e;
                  slice_of ha_mcp_env_entry "value.bytes" "value.length" e])
  /\ is_i32 (wa_startup a) /\ is_i32 (wa_request a).

Definition server_call_lent (c : server_call) : Prop :=
  match c with
  | call_servers_list _ _ => True
  | call_server_status name _ _ | call_server_read name _ _
  | call_server_enable _ name _ | call_server_disable _ name _ | call_server_remove _ name _ => slice_lent name
  | call_server_add a | call_server_edit a => write_lent a
  end.

(** ** The entries keep it *)

(** The value, or an exception. *)
Definition or_throw {A : Type} (o : option A) : outcome A :=
  match o with Some a => value a | None => threw end.

Lemma or_throw_bind {A B : Type} (o : option A) (f : A -> option B) (k : A -> outcome B) :
  (forall a, k a = or_throw (f a)) -> (or_throw o ≫= k) = or_throw (a ← o; f a).
Proof. intros H. destruct o; [apply H|done]. Qed.

Lemma map_or_throw {A B : Type} (f : A -> outcome B) (g : A -> option B) l :
  Forall (fun a => f a = or_throw (g a)) l -> map_outcome f l = or_throw (mapM g l).
Proof.
  induction 1 as [|a l Ha _ IH]; [done|]. cbn [map_outcome mapM]. rewrite Ha, IH.
  destruct (g a); cbn; [|done]. by destruct (mapM g l).
Qed.

Lemma positive_length n : 0 <= n -> (0 <? n) = negb (n =? 0).
Proof. intros H. destruct (Z.ltb_spec 0 n), (Z.eqb_spec n 0); try lia; done. Qed.

Lemma null_test p n : 0 <= n -> (p =? 0) && (0 <? n) = null_with_bytes p n.
Proof. intros H. unfold null_with_bytes. by rewrite positive_length. Qed.

(** A text that an entry copies. *)
Lemma decode_text f :
  slice_lent f -> null_with_bytes (fst f) (snd f) = false -> snd f <= 1048576 ->
  decodeMcpInput (fst f) (snd f) = value (text_argument f).
Proof.
  intros Hl Hn Hm. unfold decodeMcpInput, text_argument. rewrite Hn.
  destruct (Z.ltb_spec 1048576 (snd f)); [lia|]. cbn [orb].
  destruct (Z.eqb_spec (snd f) 0) as [H0|H0].
  - rewrite orb_true_r, H0. done.
  - destruct (Z.eqb_spec (fst f) 0) as [Hp|Hp].
    { unfold null_with_bytes in Hn. rewrite (proj2 (Z.eqb_eq _ _) Hp), (proj2 (Z.eqb_neq _ _) H0) in Hn. done. }
    cbn [orb]. by rewrite pack_lent.
Qed.

Lemma require_text f :
  slice_lent f -> null_with_bytes (fst f) (snd f) = false -> snd f <= 1048576 ->
  requireMcpInput (fst f) (snd f) = or_throw (text_argument f).
Proof.
  intros Hl Hn Hm. unfold requireMcpInput. rewrite decode_text by done. cbn. by destruct (text_argument f).
Qed.

(** A slice of an array. *)
Lemma peek_slice_value p n size i off f :
  array_readable m p n size -> 0 <= i < n -> 0 <= off -> off + 16 <= size ->
  f = (peek 8 off (element size i (default [] (m !! p))), peek 8 (off + 8) (element size i (default [] (m !! p)))) ->
  slice_lent f -> peek_slice p (i * size + off) = or_throw (text_argument f).
Proof.
  intros Hr Hi Ho Hs -> Hl. unfold peek_slice, pointerSize, sizeSize.
  rewrite Z.add_0_r. replace (i * size + off + 8) with (i * size + (off + 8)) by lia.
  rewrite !(peek_array m p n size) by (done || lia). cbn [mbind outcome_bind].
  set (e := element size i _) in *.
  assert (0 <= peek 8 (off + 8) e) as Hp by (destruct Hl as [[? _] _]; done).
  rewrite null_test by done. unfold maxMcpTextBytes. change (1024 * 1024) with 1048576.
  destruct (null_with_bytes (peek 8 off e) (peek 8 (off + 8) e)) eqn:Hn.
  { unfold text_argument. cbn [fst snd]. by rewrite Hn. }
  destruct (Z.ltb_spec 1048576 (peek 8 (off + 8) e)) as [Hm|Hm]; cbn [orb].
  { unfold text_argument. cbn [fst snd]. rewrite Hn. by destruct (Z.ltb_spec 1048576 (peek 8 (off + 8) e)); [|lia]. }
  by apply (require_text (peek 8 off e, peek 8 (off + 8) e)).
Qed.

(** Reading an array whose elements are read or throw. *)
Lemma array_or_throw {A : Type} f size slices (rd : Z -> outcome A) (of_element : list byte -> option A) :
  array_lent f size slices -> null_with_bytes (fst f) (snd f) = false -> snd f <= 4096 ->
  (forall i, 0 <= i < snd f -> array_readable m (fst f) (snd f) size ->
     Forall slice_lent (slices (element size i (default [] (m !! fst f)))) ->
     rd i = or_throw (of_element (element size i (default [] (m !! fst f))))) ->
  map_outcome rd (seqZ 0 (snd f)) = or_throw (array_argument f size of_element).
Proof.
  intros [Hc Ha] Hn Hm Hrd. unfold array_argument. rewrite Hn.
  destruct (Z.ltb_spec 4096 (snd f)); [lia|]. cbn [orb]. unfold array_at.
  rewrite (map_or_throw rd (fun i => of_element (element size i (default [] (m !! fst f))))).
  - f_equal. induction (seqZ 0 (snd f)) as [|i l IH]; [done|]. cbn. by rewrite IH.
  - apply Forall_forall. intros i Hi. apply elem_of_seqZ in Hi.
    assert (fst f <> 0) as Hp.
    { intros Hp. unfold null_with_bytes in Hn. rewrite Hp in Hn. destruct (Z.eqb_spec (snd f) 0); [lia|done]. }
    destruct (Ha Hp Hm) as [Hr Hall]. apply Hrd; [lia|done|].
    rewrite Forall_forall in Hall. apply Hall. unfold array_at. apply list_elem_of_fmap.
    exists i. split; [done|]. apply elem_of_seqZ. lia.
Qed.

Lemma slice_peeks e :
  slice_of ha_utf8_slice "bytes" "length" e = (peek 8 0 e, peek 8 8 e).
Proof. reflexivity. Qed.

Lemma entry_peeks e :
  slice_of ha_mcp_env_entry "key.bytes" "key.length" e = (peek 8 0 e, peek 8 8 e)
  /\ slice_of ha_mcp_env_entry "value.bytes" "value.length" e = (peek 8 16 e, peek 8 24 e).
Proof. split; reflexivity. Qed.

Lemma arguments_value f :
  array_lent f (struct_size ha_utf8_slice) (fun e => [slice_of ha_utf8_slice "bytes" "length" e]) ->
  null_with_bytes (fst f) (snd f) = false -> snd f <= 4096 ->
  map_outcome (peekUtf8Slice (fst f)) (seqZ 0 (snd f)) =
  or_throw (array_argument f (struct_size ha_utf8_slice) argument_of).
Proof.
  intros Hl Hn Hm. apply (array_or_throw _ _ _ _ _ Hl Hn Hm). intros i Hi Hr Hs.
  unfold peekUtf8Slice, argument_of. change (pointerSize + sizeSize) with 16.
  change (struct_size ha_utf8_slice) with 16 in *.
  rewrite <- (Z.add_0_r (i * 16)). rewrite slice_peeks in *.
  apply (peek_slice_value _ (snd f) 16 i 0 _ Hr Hi); [lia|lia|done|].
  by inversion Hs.
Qed.

Lemma environment_value f :
  array_lent f (struct_size ha_mcp_env_entry)
    (fun e => [slice_of ha_mcp_env_entry "key.bytes" "key.length" e;
               slice_of ha_mcp_env_entry "value.bytes" "value.length" e]) ->
  null_with_bytes (fst f) (snd f) = false -> snd f <= 4096 ->
  map_outcome (peekEnvEntry (fst f)) (seqZ 0 (snd f)) =
  or_throw (array_argument f (struct_size ha_mcp_env_entry) entry_of).
Proof.
  intros Hl Hn Hm. apply (array_or_throw _ _ _ _ _ Hl Hn Hm). intros i Hi Hr Hs.
  unfold peekEnvEntry, entry_of. change (pointerSize + sizeSize) with 16. cbn zeta.
  change (16 * 2) with 32. change (struct_size ha_mcp_env_entry) with 32 in *.
  destruct (entry_peeks (element 32 i (default [] (m !! fst f)))) as [Hk Hv]. rewrite Hk, Hv in *.
  inversion Hs as [|? ? Hs1 Hs']. inversion Hs' as [|? ? Hs2 _]. subst.
  rewrite <- (Z.add_0_r (i * 32)) at 1.
  rewrite (peek_slice_value _ (snd f) 32 i 0 _ Hr Hi (Z.le_refl 0) ltac:(lia) eq_refl Hs1).
  rewrite (peek_slice_value _ (snd f) 32 i 16 _ Hr Hi ltac:(lia) ltac:(lia) eq_refl Hs2).
  destruct (text_argument (peek 8 0 _, _)); cbn; [|done]. by destruct (text_argument (peek 8 16 _, _)).
Qed.

(** A name, and what is made of it. *)
Lemma name_value name k :
  slice_lent name ->
  decode_name name k =
  value (match k <$> required_argument name with None => inl 2 | Some r => inr r end).
Proof.
  intros Hl. destruct name as [p n]. unfold decode_name, required_argument. cbn [fst snd].
  destruct (Z.eqb_spec p 0) as [Hp|Hp]; [done|]. destruct (Z.eqb_spec n 0) as [Hn|Hn]; [done|]. cbn [orb].
  assert (null_with_bytes p n = false) as Hnull.
  { unfold null_with_bytes. by destruct (Z.eqb_spec p 0). }
  change maxMcpTextBytes with 1048576. destruct (Z.ltb_spec 1048576 n) as [Hm|Hm].
  { unfold text_argument. cbn [fst snd]. rewrite Hnull. by destruct (Z.ltb_spec 1048576 n); [|lia]. }
  pose proof (decode_text (p, n) Hl Hnull Hm) as E. cbn [fst snd] in E. rewrite E. cbn. by destruct (text_argument (p, n)).
Qed.

(** The tests of an add or an edit are those of its parts. *)
Lemma text_argument_none f :
  null_with_bytes (fst f) (snd f) || (maxMcpTextBytes <? snd f) = true -> text_argument f = None.
Proof. intros H. unfold text_argument. change 1048576 with maxMcpTextBytes. by rewrite H. Qed.

Lemma required_argument_none f :
  (fst f =? 0) || (snd f =? 0) || (maxMcpTextBytes <? snd f) = true -> required_argument f = None.
Proof.
  intros H. unfold required_argument. destruct ((fst f =? 0) || (snd f =? 0)); [done|].
  apply text_argument_none. cbn [orb] in H. rewrite H. apply orb_true_r.
Qed.

Lemma array_argument_none {A : Type} f size (rd : list byte -> option A) :
  null_with_bytes (fst f) (snd f) || (maxMcpFields <? snd f) = true -> array_argument f size rd = None.
Proof. intros H. unfold array_argument. change 4096 with maxMcpFields. by rewrite H. Qed.

Lemma required_text f :
  slice_lent f -> (fst f =? 0) || (snd f =? 0) || (maxMcpTextBytes <? snd f) = false ->
  requireMcpInput (fst f) (snd f) = or_throw (required_argument f).
Proof.
  intros Hl H. rewrite !orb_false_iff in H. destruct H as [[Hp Hn] Hm].
  unfold required_argument. rewrite Hp, Hn. cbn [orb]. apply require_text; [done| |].
  - unfold null_with_bytes. by rewrite Hp.
  - by apply Z.ltb_ge in Hm.
Qed.

Lemma bounded_argument p n : null_with_bytes p n || (maxMcpFields <? n) = false ->
  null_with_bytes p n = false /\ n <= 4096.
Proof. intros [? Hm]%orb_false_iff. by apply Z.ltb_ge in Hm. Qed.

Lemma bounded_text p n : null_with_bytes p n || (maxMcpTextBytes <? n) = false ->
  null_with_bytes p n = false /\ n <= 1048576.
Proof. intros [? Hm]%orb_false_iff. by apply Z.ltb_ge in Hm. Qed.

(** The guards of an add or an edit, argument by argument. *)
Definition write_refused (a : write_arguments) : bool :=
  let text_refused f := null_with_bytes (fst f) (snd f) || (maxMcpTextBytes <? snd f) in
  let required_refused f := (fst f =? 0) || (snd f =? 0) || (maxMcpTextBytes <? snd f) in
  let array_refused f := null_with_bytes (fst f) (snd f) || (maxMcpFields <? snd f) in
  required_refused (wa_name a) || required_refused (wa_command a)
  || array_refused (wa_arguments a) || text_refused (wa_cwd a) || array_refused (wa_environment a).

Lemma write_refused_none a (write : Z -> text -> McpAdminServerInput -> mcp_request) :
  write_refused a = true ->
  (name ← required_argument (wa_name a); write (wa_expected a) name <$> input_of a) = None.
Proof.
  unfold write_refused, input_of. cbn zeta.
  intros [[[[H|H]%orb_true_iff|H]%orb_true_iff|H]%orb_true_iff|H]%orb_true_iff.
  - by rewrite (required_argument_none (wa_name a)) by done.
  - destruct (required_argument (wa_name a)); cbn; [|done].
    by rewrite (required_argument_none (wa_command a)) by done.
  - destruct (required_argument (wa_name a)), (required_argument (wa_command a)); cbn; try done.
    by rewrite (array_argument_none (wa_arguments a)) by done.
  - destruct (required_argument (wa_name a)), (required_argument (wa_command a)); cbn; try done.
    destruct (array_argument (wa_arguments a) _ _); cbn; [|done].
    by rewrite (text_argument_none (wa_cwd a)) by done.
  - destruct (required_argument (wa_name a)), (required_argument (wa_command a)); cbn; try done.
    destruct (array_argument (wa_arguments a) _ _), (text_argument (wa_cwd a)); cbn; try done.
    by rewrite (array_argument_none (wa_environment a)) by done.
Qed.

Lemma write_value write a :
  write_lent a ->
  mcpServerWrite write a =
  value (if wa_callback a =? 0 then inl 1
         else match (name ← required_argument (wa_name a); write (wa_expected a) name <$> input_of a) with
              | None => inl 2
              | Some r => inr r
              end).
Proof.
  intros (Hn & Hc & Hd & Hargs & Henv & _). unfold mcpServerWrite.
  destruct (wa_callback a =? 0).
  { by destruct (wa_name a), (wa_command a), (wa_arguments a), (wa_cwd a), (wa_environment a). }
  destruct (write_refused a) eqn:Hg.
  - rewrite (write_refused_none a write Hg). unfold write_refused in Hg.
    destruct Hargs as [[Ha0 _] _], Henv as [[He0 _] _], Hd as [[Hd0 _] _].
    destruct (wa_name a), (wa_command a), (wa_arguments a), (wa_cwd a), (wa_environment a).
    cbn [fst snd] in *. rewrite !null_test by done.
    rewrite !orb_true_iff in Hg.
    match goal with |- (if ?x then _ else if ?y then _ else _) = _ => assert (x = true \/ y = true) as Hxy end.
    { rewrite !orb_true_iff. tauto. }
    destruct (_ || (maxMcpFields <? _)); [done|]. destruct Hxy as [|Hxy]; [done|]. by rewrite Hxy.
  - unfold write_refused in Hg. rewrite !orb_false_iff in Hg.
    destruct Hg as [[[[[[Hn1 Hn2] Hn3] [[Hc1 Hc2] Hc3]] [Ha1 Ha2]] [Hd1 Hd2]] [He1 He2]].
    pose proof (required_text _ Hn ltac:(rewrite Hn1, Hn2, Hn3; done)) as Tn.
    pose proof (required_text _ Hc ltac:(rewrite Hc1, Hc2, Hc3; done)) as Tc.
    pose proof (require_text _ Hd Hd1 (proj1 (Z.ltb_ge _ _) Hd2)) as Td.
    pose proof (arguments_value _ Hargs Ha1 (proj1 (Z.ltb_ge _ _) Ha2)) as Ta.
    pose proof (environment_value _ Henv He1 (proj1 (Z.ltb_ge _ _) He2)) as Te.
    destruct Hargs as [[Ha0 _] _], Henv as [[He0 _] _], Hd as [[Hd0 _] _]. unfold input_of.
    destruct (wa_name a) as [p1 n1], (wa_command a) as [p2 n2], (wa_arguments a) as [p3 n3],
      (wa_cwd a) as [p4 n4], (wa_environment a) as [p5 n5]. cbn [fst snd] in *.
    rewrite !null_test by done.
    rewrite Hn1, Hn2, Hn3, Hc1, Hc2, Hc3, Ha1, Ha2, Hd1, Hd2, He1, He2. cbn [orb].
    rewrite Tn, Tc, Td, Ta, Te.
    destruct (required_argument (p1, n1)); cbn; [|done]. destruct (required_argument (p2, n2)); cbn; [|done].
    destruct (text_argument (p4, n4)); cbn; [|by destruct (array_argument (p3, n3) _ _)].
    destruct (array_argument (p3, n3) _ _); cbn; [|done]. by destruct (array_argument (p5, n5) _ _).
Qed.

(** ** What an accepted request is *)

Definition text_within (s : text) : Prop := Forall scalar s /\ zlen (utf8_encode s) <= 1048576.

Definition name_within (s : text) : Prop := text_within s /\ s <> [].

Definition input_within (input : McpAdminServerInput) : Prop :=
  name_within (mcpAdminInputCommand input)
  /\ Forall text_within (mcpAdminInputArgs input) /\ zlen (mcpAdminInputArgs input) <= 4096
  /\ from_option name_within True (mcpAdminInputCwd input)
  /\ map_Forall (fun key val => text_within key /\ text_within val) (mcpAdminInputEnv input)
  /\ Z.of_nat (size (mcpAdminInputEnv input)) <= 4096
  /\ is_i32 (mcpAdminInputStartupTimeoutSeconds input) /\ is_i32 (mcpAdminInputRequestTimeoutSeconds input).

Definition request_within (r : mcp_request) : Prop :=
  match r with
  | server_read name | server_set_enabled _ name _ | server_remove _ name => name_within name
  | server_add _ name input | server_edit _ name input => name_within name /\ input_within input
  | _ => True
  end.

Lemma text_is f s : slice_lent f -> text_argument f = Some s ->
  text_within s /\ (snd f <> 0 -> s <> []).
Proof.
  intros Hl. unfold text_argument. destruct (null_with_bytes _ _) eqn:Hn; [done|]. cbn [orb].
  destruct (Z.ltb_spec 1048576 (snd f)); [done|]. intros [He Hs]%utf8_decode_sound.
  pose proof (zlen_bytes_at m _ _ (lent_readable _ _ _ Hl Hn)) as Hz. rewrite <- He in Hz.
  split; [split; [done|lia]|]. intros H0 ->. cbn in Hz. lia.
Qed.

Lemma required_within f s : slice_lent f -> required_argument f = Some s -> name_within s.
Proof.
  intros Hl. unfold required_argument. destruct (fst f =? 0); [done|].
  destruct (Z.eqb_spec (snd f) 0) as [|H0]; [done|]. cbn [orb]. intros H.
  apply text_is in H as [Hw Hne]; [|done]. split; [done|by apply Hne].
Qed.

Lemma array_is {A : Type} (P : A -> Prop) f size slices (rd : list byte -> option A) l :
  array_lent f size slices ->
  (forall e a, Forall slice_lent (slices e) -> rd e = Some a -> P a) ->
  array_argument f size rd = Some l -> Forall P l /\ zlen l <= 4096.
Proof.
  intros [Hc Ha] Hrd. unfold array_argument. destruct (null_with_bytes _ _) eqn:Hn; [done|]. cbn [orb].
  destruct (Z.ltb_spec 4096 (snd f)) as [|Hm]; [done|]. intros Hl%mapM_Some. split.
  - destruct (Z.eq_dec (fst f) 0) as [Hp|Hp].
    { assert (snd f = 0) as H0.
      { unfold null_with_bytes in Hn. rewrite Hp in Hn. cbn in Hn. by destruct (Z.eqb_spec (snd f) 0). }
      unfold array_at in Hl. rewrite H0 in Hl. by inversion Hl. }
    destruct (Ha Hp Hm) as [_ Hall]. revert Hl Hall. generalize (array_at m (fst f) (snd f) size).
    intros es Hl Hall. induction Hl as [|e a es' l He _ IH]; [constructor|]. inversion Hall; subst. constructor; [by apply (Hrd e)|by apply IH].
  - apply Forall2_length in Hl. rewrite <- Hl. unfold array_at. rewrite length_map, length_seqZ. lia.
Qed.

Lemma argument_is e s : Forall slice_lent [slice_of ha_utf8_slice "bytes" "length" e] ->
  argument_of e = Some s -> text_within s.
Proof. intros Hl H. inversion Hl; subst. by apply text_is in H as [? _]. Qed.

Lemma entry_is e p :
  Forall slice_lent [slice_of ha_mcp_env_entry "key.bytes" "key.length" e;
                     slice_of ha_mcp_env_entry "value.bytes" "value.length" e] ->
  entry_of e = Some p -> text_within (fst p) /\ text_within (snd p).
Proof.
  intros Hl. inversion Hl as [|? ? H1 H']. inversion H' as [|? ? H2 _]. subst. unfold entry_of.
  destruct (text_argument (slice_of ha_mcp_env_entry "key.bytes" _ e)) as [key|] eqn:Hk; [|done]. cbn.
  destruct (text_argument (slice_of ha_mcp_env_entry "value.bytes" _ e)) as [val|] eqn:Hv; [|done].
  intros [= <-]. apply text_is in Hk as [? _]; [|done]. by apply text_is in Hv as [? _].
Qed.

(** A map made of a list holds nothing else. *)
Lemma map_fromList_within (P : text -> text -> Prop) l :
  Forall (fun p => P (fst p) (snd p)) l ->
  map_Forall P (map_fromList l) /\ (size (map_fromList l) <= length l)%nat.
Proof.
  intros H. unfold map_fromList. rewrite <- (length_rev l). apply Forall_rev in H.
  induction H as [|[k v] l' Hp _ [IH1 IH2]]; cbn [list_to_map foldr length uncurry fst snd].
  - split; [apply map_Forall_empty|]. by rewrite map_size_empty.
  - split; [by apply map_Forall_insert_2|]. change (foldr _ _ l') with (list_to_map l' : gmap text text).
    rewrite map_size_insert. destruct (_ !! k); cbn; lia.
Qed.

Lemma input_is a input : write_lent a -> input_of a = Some input -> input_within input.
Proof.
  intros (Hn & Hc & Hd & Hargs & Henv & Hs & Hr). unfold input_of.
  destruct (required_argument (wa_command a)) as [command|] eqn:Ec; [|done]. cbn.
  destruct (array_argument (wa_arguments a) _ _) as [args|] eqn:Ea; [|done]. cbn.
  destruct (text_argument (wa_cwd a)) as [cwd|] eqn:Ed; [|done]. cbn.
  destruct (array_argument (wa_environment a) _ _) as [env|] eqn:Ee; [|done]. cbn. intros [= <-].
  apply required_within in Ec; [|done]. apply text_is in Ed as [Hw _]; [|done].
  apply (array_is text_within _ _ _ _ _ Hargs) in Ea as [Ha1 Ha2]; [|apply argument_is].
  apply (array_is _ _ _ _ _ _ Henv entry_is) in Ee as [He1 He2].
  destruct (map_fromList_within (fun key val => text_within key /\ text_within val) env He1) as [Hm1 Hm2].
  unfold input_within. cbn. split_and!; try done; [|lia]. by destruct cwd.
Qed.

Lemma described_within c r : server_call_lent c -> described_request c = Some r -> request_within r.
Proof.
  intros Hl H. destruct c; cbn [described_request server_call_lent] in *;
    try (injection H as <-; exact I);
    try (apply fmap_Some in H as (s & Hs & ->); exact (required_within _ s Hl Hs)).
  all: destruct (required_argument (wa_name a)) as [s|] eqn:En; [|done]; cbn in H;
    apply fmap_Some in H as (input & Hi & ->);
    (split; [exact (required_within _ s (proj1 Hl) En)|by eapply input_is]).
Qed.

Lemma request_within_typed r : request_within r -> request_typed r.
Proof.
  assert (forall z, is_i32 z -> is_int z) as Hw by (unfold is_i32, is_int; lia).
  destruct r; try done; intros [_ (_ & _ & _ & _ & _ & _ & ? & ?)]; split; by apply Hw.
Qed.

End Entries.

(** C9: under the host's bargain, every entry of the MCP servers is refused with 1 for a missing
    callback and with 2 for an argument that the header rules out, and otherwise accepted as the
    request that its arguments describe: all its texts and all the slices of its arrays copied,
    within the limits of the header. *)
Theorem server_entries_contract m c :
  server_call_lent m c ->
  run_server_call m c = value (server_request_of m c)
  /\ match server_request_of m c with
     | inl status => status = 1 \/ status = 2
     | inr r => request_within r /\ request_typed r
     end.
Proof.
  intros H. split.
  - unfold server_request_of. destruct c; cbn [run_server_call server_callbacks_of existsb described_request].
    + unfold ha_mcp_servers_list. rewrite orb_false_r, !(Z.eqb_sym 0). by destruct (_ || _).
    + unfold ha_mcp_server_status, ha_mcp_server_read. rewrite orb_false_r, !(Z.eqb_sym 0).
      destruct (_ || _); [done|]. by apply name_value.
    + unfold ha_mcp_server_read. rewrite orb_false_r, !(Z.eqb_sym 0).
      destruct (_ || _); [done|]. by apply name_value.
    + unfold ha_mcp_server_add. rewrite orb_false_r, !(Z.eqb_sym 0). by apply write_value.
    + unfold ha_mcp_server_edit. rewrite orb_false_r, !(Z.eqb_sym 0). by apply write_value.
    + unfold ha_mcp_server_enable, mcpServerSetEnabled. rewrite orb_false_r, !(Z.eqb_sym 0).
      destruct (callback =? 0); [done|]. by apply (name_value m name (fun name => server_set_enabled expected name true)).
    + unfold ha_mcp_server_disable, mcpServerSetEnabled. rewrite orb_false_r, !(Z.eqb_sym 0).
      destruct (callback =? 0); [done|]. by apply (name_value m name (fun name => server_set_enabled expected name false)).
    + unfold ha_mcp_server_remove. rewrite orb_false_r, !(Z.eqb_sym 0).
      destruct (callback =? 0); [done|]. by apply name_value.
  - unfold server_request_of. destruct (existsb _ _); [by left|].
    destruct (described_request m c) as [r|] eqn:E; [|by right].
    split; [by eapply described_within|]. by eapply request_within_typed, described_within.
Qed.

(** ** An example *)

Definition demo_memory : memory :=
  {[ 16 := utf8_encode (txt "docs"); 32 := utf8_encode (txt " npx "); 48 := utf8_encode [954; 945];
     64 := pokes [(8, 0, 32); (8, 8, 5); (8, 16, 0); (8, 24, 0)] (zeroed 32);
     128 := pokes [(8, 0, 16); (8, 8, 4); (8, 16, 48); (8, 24, 4)] (zeroed 32) ]}.

(** An edit with two arguments, of which one is empty, and a variable. *)
Definition demo_call : server_call := call_server_edit {|
  wa_expected := 7;
  wa_name := (16, 4);
  wa_command := (32, 5);
  wa_arguments := (64, 2);
  wa_cwd := (0, 0);
  wa_environment := (128, 1);
  wa_startup := 30;
  wa_request := -1;
  wa_callback := 4096;
|}.

Lemma server_entries_contract_witness :
  run_server_call demo_memory demo_call =
  value (inr (server_edit 7 (txt "docs") {|
    mcpAdminInputCommand := txt " npx ";
    mcpAdminInputArgs := [txt " npx "; []];
    mcpAdminInputCwd := None;
    mcpAdminInputEnv := {[txt "docs" := [954; 945]]};
    mcpAdminInputStartupTimeoutSeconds := 30;
    mcpAdminInputRequestTimeoutSeconds := -1;
  |})).
Proof.
  assert (H : server_call_lent demo_memory demo_call).
  { assert (forall p n b, demo_memory !! p = Some b -> 0 <= n < 2 ^ 63 -> n <= zlen b ->
              slice_lent demo_memory (p, n)) as Hs.
    { intros p n b Hp Hn Hb. split; cbn [fst snd]; [lia|]. intros _. split; [lia|]. right. by exists b. }
    assert (slice_lent demo_memory (0, 0)) as H0 by (split; [cbn; lia|intros []; reflexivity]).
    split; [by eapply Hs; [reflexivity|lia|vm_compute]|].
    split; [by eapply Hs; [reflexivity|lia|vm_compute]|]. split; [exact H0|].
    split_and!; [split; [cbn; lia|] .. | |]; try (cbn; unfold is_i32; lia).
    - intros _ _. split; [right; eexists; split; [reflexivity|by vm_compute]|].
      let l := eval vm_compute in (array_at demo_memory 64 2 16) in
      change (array_at _ _ _ _) with l.
      repeat apply Forall_cons_2; try apply Forall_nil_2.
      + by apply (Hs 32 5 (utf8_encode (txt " npx "))).
      + exact H0.
    - intros _ _. split; [right; eexists; split; [reflexivity|by vm_compute]|].
      let l := eval vm_compute in (array_at demo_memory 128 1 32) in
      change (array_at _ _ _ _) with l.
      repeat apply Forall_cons_2; try apply Forall_nil_2.
      + by apply (Hs 16 4 (utf8_encode (txt "docs"))).
      + by apply (Hs 48 4 (utf8_encode [954; 945])). }
  etransitivity; [exact (proj1 (server_entries_contract demo_memory demo_call H))|].
  vm_compute. reflexivity.
Defined.
