(* ===== verification/McpServerAnswers.v ===== *)
(** * What the calls on the MCP servers deliver

    The callbacks of an accepted request to the MCP servers (McpAdminBridge.hs of
    agent-native-bridge/ffi), and a host that reads them by the header.
    [server_callbacks_conform]: whatever fails, that host reads the answer of the request, and
    nothing but a prefix with one end; when nothing fails it is the abstract machine's. *)

From stdpp Require Import base tactics option list gmap strings.
From Stdlib Require Import ZArith Lia.
From S2P Require Import Prelude Utf8 BrowserAbi HostCall McpConfig McpCatalog McpTransactions McpRequests.
#[local] Open Scope Z_scope.

(** ** The header *)

(** One call of a callback: [ha_mcp_server_callback], [ha_mcp_server_field_callback] or
    [ha_mcp_result_callback]. *)
Record server_row := {
  sr_status : Z;
  sr_revision : Z;
  sr_name : callback_text;
  sr_enabled : Z;
  sr_command : callback_text;
  sr_cwd : callback_text;
  sr_startup : Z;
  sr_request : Z;
  sr_argument_count : Z;
  sr_environment_key_count : Z;
  sr_error : callback_text;
}.

Inductive server_event :=
  | row_event (row : server_row)
  | field_event (name : text) (kind index : Z) (value : text)
  | result_event (status revision : Z) (error : callback_text).

(** ** Emitting *)

Definition mcpAdminErrorRevision (e : McpAdminError) : Z :=
  match e with McpAdminConflict revision => revision | _ => 0 end.

Definition mcpAdminErrorText (e : McpAdminError) : text :=
  match e with
  | McpAdminConflict _ => txt "MCP catalog changed; reload before editing"
  | McpAdminNotFound name => txt "MCP server not found: " ++ name
  | McpAdminAlreadyExists name => txt "MCP server already exists: " ++ name
  | McpAdminInvalid err => err
  end.

(** A callback that carries no row. *)
Definition no_row (status revision : Z) (error : callback_text) : server_event := row_event {|
  sr_status := status; sr_revision := revision; sr_name := None; sr_enabled := 0;
  sr_command := None; sr_cwd := None; sr_startup := 0; sr_request := 0;
  sr_argument_count := 0; sr_environment_key_count := 0; sr_error := error;
|}.

Definition emitMcpServerError (e : McpAdminError) : list server_event :=
  [no_row (-1) (mcpAdminErrorRevision e) (Some (mcpAdminErrorText e))].

Definition emit_fields (name : text) (kind : Z) (values : list text) : list server_event :=
  imap (fun index value => field_event name kind (Z.of_nat index) value) values.

Definition emitMcpServerItem (revision : Z) (server : McpAdminServer) : list server_event :=
  emit_fields (mcpAdminName server) 0 (mcpAdminArgs server)
  ++ emit_fields (mcpAdminName server) 1 (mcpAdminEnvKeys server)
  ++ [row_event {|
        sr_status := 0;
        sr_revision := revision;
        sr_name := Some (mcpAdminName server);
        sr_enabled := if mcpAdminEnabled server then 1 else 0;
        sr_command := Some (mcpAdminCommand server);
        sr_cwd := Some (default [] (mcpAdminCwd server));
        sr_startup := i32 (mcpAdminStartupTimeoutSeconds server);
        sr_request := i32 (mcpAdminRequestTimeoutSeconds server);
        sr_argument_count := zlen (mcpAdminArgs server);
        sr_environment_key_count := zlen (mcpAdminEnvKeys server);
        sr_error := None;
      |}].

Definition emitMcpServers (r : answer (list McpAdminServer)) : list server_event :=
  match r with
  | inl e => emitMcpServerError e
  | inr snapshot =>
      flat_map (emitMcpServerItem (mcpAdminRevision snapshot)) (mcpAdminValue snapshot)
      ++ [no_row 1 (mcpAdminRevision snapshot) None]
  end.

Definition emitMcpServer (r : answer McpAdminServer) : list server_event :=
  match r with
  | inl e => emitMcpServerError e
  | inr snapshot => emitMcpServerItem (mcpAdminRevision snapshot) (mcpAdminValue snapshot)
  end.

Definition emitMcpResult {A : Type} (r : answer A) : list server_event :=
  match r with
  | inl e => [result_event (-1) (mcpAdminErrorRevision e) (Some (mcpAdminErrorText e))]
  | inr snapshot => [result_event 0 (mcpAdminRevision snapshot) None]
  end.

(** An exception is its text. *)
Definition mcpAdminTry {A : Type} (action : io (answer A)) (d : disk) : answer A * disk :=
  match action d with
  | (inl exception, d) => (inl (McpAdminInvalid exception), d)
  | (inr result, d) => (result, d)
  end.

(** What the thread of an accepted request does: [mcpAdminTry action >>= emit]. *)
Definition served {A : Type} (emit : answer A -> list server_event) (action : io (answer A)) (d : disk)
    : list server_event * disk := prod_map emit id (mcpAdminTry action d).

(** The requests of the entries of the servers, and their threads. *)
Definition serve_request (w : surroundings) (r : mcp_request) : option (disk -> list server_event * disk) :=
  match r with
  | servers_list => Some (served emitMcpServers (listMcpAdminServers w))
  | server_read name => Some (served emitMcpServer (readMcpAdminServer w name))
  | server_add expected name input => Some (served emitMcpResult (addMcpAdminServer w expected name input))
  | server_edit expected name input => Some (served emitMcpResult (editMcpAdminServer w expected name input))
  | server_set_enabled expected name enabled =>
      Some (served emitMcpResult (setMcpAdminServerEnabled w expected name enabled))
  | server_remove expected name => Some (served emitMcpResult (removeMcpAdminServer w expected name))
  | _ => None
  end.

(** ** A host that reads the callbacks by the header

    "Fields for a row are emitted before that row", by kind and index; a row says how many there
    were. *)
Record hearing := {
  h_rows : list (Z * McpAdminServer);
  h_name : option text;
  h_args : list text;
  h_keys : list text;
  h_end : option server_row;
}.

Definition hearing_start : hearing := Build_hearing [] None [] [] None.

Definition same_name (pending : option text) (name : text) : bool :=
  from_option (fun n => bool_decide (n = name)) true pending.

Definition hear (h : hearing) (e : server_event) : option hearing :=
  match h_end h, e with
  | None, field_event name kind index v =>
      if negb (same_name (h_name h) name) then None
      else if (kind =? 0) && null (h_keys h) && (index =? zlen (h_args h)) then
        Some (Build_hearing (h_rows h) (Some name) (h_args h ++ [v]) (h_keys h) None)
      else if (kind =? 1) && (index =? zlen (h_keys h)) then
        Some (Build_hearing (h_rows h) (Some name) (h_args h) (h_keys h ++ [v]) None)
      else None
  | None, row_event row =>
      if sr_status row =? 0 then
        name ← sr_name row;
        command ← sr_command row;
        if same_name (h_name h) name && (sr_argument_count row =? zlen (h_args h))
           && (sr_environment_key_count row =? zlen (h_keys h)) && ((sr_enabled row =? 0) || (sr_enabled row =? 1))
           && bool_decide (sr_error row = None) then
          Some (Build_hearing
            (h_rows h ++ [(sr_revision row,
               {| mcpAdminName := name;
                  mcpAdminEnabled := sr_enabled row =? 1;
                  mcpAdminCommand := command;
                  mcpAdminArgs := h_args h;
                  mcpAdminCwd := cwd ← sr_cwd row; if null cwd then None else Some cwd;
                  mcpAdminEnvKeys := h_keys h;
                  mcpAdminStartupTimeoutSeconds := sr_startup row;
                  mcpAdminRequestTimeoutSeconds := sr_request row |})]) None [] [] None)
        else None
      else if null (h_args h) && null (h_keys h) then
        Some (Build_hearing (h_rows h) None [] [] (Some row))
      else None
  | _, _ => None
  end.

Fixpoint hear_all (h : hearing) (l : list server_event) : option hearing :=
  match l with
  | [] => Some h
  | e :: l => h ← hear h e; hear_all h l
  end.

(** What the host learns. *)
Inductive news :=
  | news_servers (revision : Z) (servers : list McpAdminServer)
  | news_server (revision : Z) (server : McpAdminServer)
  | news_done (revision : Z)
  | news_failed (revision : Z) (message : text).

Definition failure_of (row : server_row) : option news :=
  if sr_status row =? -1 then news_failed (sr_revision row) <$> sr_error row else None.

(** "List uses status 0 for rows, 1 for terminal completion, and -1 for terminal failure." *)
Definition hear_list (l : list server_event) : option news :=
  h ← hear_all hearing_start l;
  row ← h_end h;
  if sr_status row =? 1 then
    if forallb (fun p => fst p =? sr_revision row) (h_rows h)
    then Some (news_servers (sr_revision row) (map snd (h_rows h))) else None
  else if null (h_rows h) then failure_of row else None.

(** "Read/status invokes exactly one callback: status 0 for its row or -1 for failure, with no
    trailing status 1." *)
Definition hear_read (l : list server_event) : option news :=
  h ← hear_all hearing_start l;
  match h_rows h, h_end h with
  | [(revision, server)], None => if null (h_args h) && null (h_keys h) then Some (news_server revision server) else None
  | [], Some row => failure_of row
  | _, _ => None
  end.

Definition hear_result (l : list server_event) : option news :=
  match l with
  | [result_event status revision error] =>
      if status =? 0 then match error with None => Some (news_done revision) | Some _ => None end
      else if status =? -1 then news_failed revision <$> error
      else None
  | _ => None
  end.

(** What it hears of a request. *)
Definition heard (r : mcp_request) (l : list server_event) : option news :=
  match r with
  | servers_list => hear_list l
  | server_read _ => hear_read l
  | _ => hear_result l
  end.

(** ** What it is told *)

(** A server across the interface: timeouts are [int32_t], and an empty directory is none. *)
Definition told_server (s : McpAdminServer) : McpAdminServer := {|
  mcpAdminName := mcpAdminName s;
  mcpAdminEnabled := mcpAdminEnabled s;
  mcpAdminCommand := mcpAdminCommand s;
  mcpAdminArgs := mcpAdminArgs s;
  mcpAdminCwd := cwd ← mcpAdminCwd s; if null cwd then None else Some cwd;
  mcpAdminEnvKeys := mcpAdminEnvKeys s;
  mcpAdminStartupTimeoutSeconds := i32 (mcpAdminStartupTimeoutSeconds s);
  mcpAdminRequestTimeoutSeconds := i32 (mcpAdminRequestTimeoutSeconds s);
|}.

(** "A conflict reports the current revision." *)
Definition told_error (e : McpAdminError) : news :=
  match e with
  | McpAdminConflict current => news_failed current (txt "MCP catalog changed; reload before editing")
  | McpAdminNotFound name => news_failed 0 (txt "MCP server not found: " ++ name)
  | McpAdminAlreadyExists name => news_failed 0 (txt "MCP server already exists: " ++ name)
  | McpAdminInvalid err => news_failed 0 err
  end.

Definition told_answer {A : Type} (f : Z -> A -> news) (a : answer A) : news :=
  match a with
  | inl e => told_error e
  | inr snapshot => f (mcpAdminRevision snapshot) (mcpAdminValue snapshot)
  end.

Definition told (r : mcp_request) (a : mcp_response) : news :=
  match a with
  | servers_answer a => told_answer (fun revision servers => news_servers revision (map told_server servers)) a
  | server_answer a =>
      match r with
      | server_read _ => told_answer (fun revision server => news_server revision (told_server server)) a
      | _ => told_answer (fun revision _ => news_done revision) a
      end
  | done_answer a => told_answer (fun revision _ => news_done revision) a
  | connections_answer a => told_answer (fun revision _ => news_done revision) a
  | connection_answer a => told_answer (fun revision _ => news_done revision) a
  end.

(** ** The host hears what it is told *)

Lemma hear_all_app h l1 l2 : hear_all h (l1 ++ l2) = (h' ← hear_all h l1; hear_all h' l2).
Proof. revert h. induction l1 as [|e l1 IH]; intros h; [done|]. cbn. destruct (hear h e); [apply IH|done]. Qed.

(** The name that is pending after some fields. *)
Definition named (name : text) (values : list text) (pending : option text) : option text :=
  match values with [] => pending | _ => Some name end.

Lemma same_named name values pending :
  same_name pending name = true -> same_name (named name values pending) name = true.
Proof. destruct values; [done|]. intros _. cbn. by rewrite bool_decide_eq_true_2. Qed.

Lemma named_snoc name values v pending : named name (values ++ [v]) pending = Some name.
Proof. by destruct values. Qed.

Lemma emit_fields_snoc name kind values v :
  emit_fields name kind (values ++ [v]) = emit_fields name kind values ++ [field_event name kind (zlen values) v].
Proof. unfold emit_fields. rewrite imap_app. cbn. by rewrite Nat.add_0_r. Qed.

Lemma hear_args rows name values pending :
  same_name pending name = true ->
  hear_all (Build_hearing rows pending [] [] None) (emit_fields name 0 values) =
  Some (Build_hearing rows (named name values pending) values [] None).
Proof.
  intros Hn. induction values as [|v values IH] using rev_ind; [done|].
  rewrite emit_fields_snoc, hear_all_app, IH. cbn -[same_name named]. rewrite same_named by done. cbn -[named].
  by rewrite Z.eqb_refl, named_snoc.
Qed.

Lemma hear_keys rows name args values pending :
  same_name pending name = true ->
  hear_all (Build_hearing rows pending args [] None) (emit_fields name 1 values) =
  Some (Build_hearing rows (named name values pending) args values None).
Proof.
  intros Hn. induction values as [|v values IH] using rev_ind; [done|].
  rewrite emit_fields_snoc, hear_all_app, IH. cbn -[same_name named]. rewrite same_named by done. cbn -[named].
  by rewrite Z.eqb_refl, named_snoc.
Qed.

Lemma hear_item rows revision server :
  hear_all (Build_hearing rows None [] [] None) (emitMcpServerItem revision server) =
  Some (Build_hearing (rows ++ [(revision, told_server server)]) None [] [] None).
Proof.
  unfold emitMcpServerItem. rewrite hear_all_app, hear_args by done. cbn [mbind option_bind].
  rewrite hear_all_app, hear_keys by (by apply same_named). cbn [mbind option_bind].
  cbn -[i32 same_name named]. rewrite !same_named by (done || by apply same_named). rewrite !Z.eqb_refl.
  unfold told_server. by destruct (mcpAdminEnabled server), (mcpAdminCwd server).
Qed.

Lemma hear_items rows revision servers :
  hear_all (Build_hearing rows None [] [] None) (flat_map (emitMcpServerItem revision) servers) =
  Some (Build_hearing (rows ++ map (fun s => (revision, told_server s)) servers) None [] [] None).
Proof.
  revert rows. induction servers as [|s servers IH]; intros rows; [by rewrite app_nil_r|].
  cbn [flat_map map]. rewrite hear_all_app, hear_item. cbn [mbind option_bind]. rewrite IH.
  by rewrite <- app_assoc.
Qed.

Lemma hear_list_told a :
  hear_list (emitMcpServers a) =
  Some (told_answer (fun revision servers => news_servers revision (map told_server servers)) a).
Proof.
  destruct a as [[]|[revision servers]]; [done..|]. unfold hear_list. cbn [emitMcpServers mcpAdminRevision mcpAdminValue].
  rewrite hear_all_app. unfold hearing_start at 1. rewrite hear_items. cbn.
  rewrite (proj2 (forallb_forall _ _)).
  - by rewrite map_map.
  - intros p (s & <- & _)%in_map_iff. cbn. apply Z.eqb_refl.
Qed.

Lemma hear_read_told a :
  hear_read (emitMcpServer a) =
  Some (told_answer (fun revision server => news_server revision (told_server server)) a).
Proof.
  destruct a as [[]|[revision server]]; [done..|]. unfold hear_read. cbn [emitMcpServer mcpAdminRevision mcpAdminValue].
  unfold hearing_start. by rewrite hear_item.
Qed.

Lemma hear_result_told {A : Type} (a : answer A) :
  hear_result (emitMcpResult a) = Some (told_answer (fun revision _ => news_done revision) a).
Proof. by destruct a as [[]|]. Qed.

(** ** The threads *)

Section Threads.
Context (w : surroundings) (deleteCredential : text -> io (text + unit)) (restart : io unit).

(** A thread does what its request does, and tells what it tells. *)
Lemma served_request {A : Type} r (f : answer A -> mcp_response) (emit : answer A -> list server_event) action d :
  run_request w deleteCredential restart r = answered f action ->
  (forall a, heard r (emit a) = Some (told r (f a))) ->
  (forall e, told r (f (inl e)) = told_error e) ->
  exists res, run_request w deleteCredential restart r d = (res, snd (served emit action d))
  /\ heard r (fst (served emit action d)) =
     Some (match res with inl e => news_failed 0 e | inr a => told r a end).
Proof.
  intros -> Hh He. unfold answered, served, mcpAdminTry. rewrite bind_io.
  destruct (action d) as [[e|a] d'].
  - exists (inl e). split; [done|].
    exact (eq_trans (Hh (inl (McpAdminInvalid e))) (f_equal Some (He (McpAdminInvalid e)))).
  - exists (inr (f a)). split; [done|]. apply Hh.
Qed.

Lemma serve_request_run r run d :
  serve_request w r = Some run ->
  exists res, run_request w deleteCredential restart r d = (res, snd (run d))
  /\ heard r (fst (run d)) = Some (match res with inl e => news_failed 0 e | inr a => told r a end).
Proof.
  destruct r; try done; intros [= <-]; eapply served_request; try reflexivity; intros a.
  - apply hear_list_told.
  - apply hear_read_told.
  - apply hear_result_told.
  - apply hear_result_told.
  - apply hear_result_told.
  - apply hear_result_told.
Qed.

(** These requests draw nothing. *)
Lemma serve_request_draws r run key x c :
  serve_request w r = Some run -> spec_request w key x r c = spec_request w key some_draws r c.
Proof. by destruct r. Qed.

End Threads.

Lemma told_failure r a e : response_error a = Some e -> told r a = told_error e.
Proof. destruct a as [[]|[]|[]|[]|[]]; try done; intros [= ->]; try done. by destruct r. Qed.

(** C8: whatever fails and whatever files there were, a host that follows the header makes sense of
    the callbacks of every accepted request to the MCP servers: fields by kind and index before
    their row, each row with the number of its fields, and one end, which for an exception is a
    failure with its text; and it learns just the answer of the request.  While nothing fails
    this is the answer of the abstract machine, from which the catalog moves; a request that
    expects another revision than the current one is told the current one. *)
Theorem server_callbacks_conform (w : surroundings) `{!libraries_ok (world_libraries w)} r run d events d' :
  serve_request w r = Some run -> run d = (events, d') ->
  (forall deleteCredential restart, exists res, run_request w deleteCredential restart r d = (res, d')
     /\ heard r events = Some (match res with inl e => news_failed 0 e | inr a => told r a end))
  /\ (forall key c, quiet w d -> represents w key c d -> request_typed r ->
        let '(a, c') := spec_request w key some_draws r c in
        heard r events = Some (told r a) /\ represents w key c' d'
        /\ (forall e, expected_revision r = Some e -> e <> cat_revision c ->
              heard r events = Some (told_error (McpAdminConflict (cat_revision c))) /\ c' = c)).
Proof.
  intros Hs Hrun.
  assert (forall deleteCredential restart, exists res, run_request w deleteCredential restart r d = (res, d')
    /\ heard r events = Some (match res with inl e => news_failed 0 e | inr a => told r a end)) as Hany.
  { intros dc rs. pose proof (serve_request_run w dc rs r run d Hs) as H. by rewrite Hrun in H. }
  split; [exact Hany|]. intros key c Hq Hr Ht.
  assert (of_connections r = false) as Hof by by destruct r.
  destruct (request_refines w (fun _ => mret (inr tt)) (mret tt)) with (key := key) (c := c) (d := d) (r := r)
    as (x & d2 & H & Hrep & _);
    [by intros _ d0 _; eexists _, d0|by intros d0 _; eexists _, d0|by rewrite Hof|done..|].
  rewrite silent_outcome in H, Hrep by done.
  destruct (Hany (fun _ => mret (inr tt)) (mret tt)) as (res & Hres & Hh).
  rewrite H in Hres. injection Hres as <- ->. rewrite (serve_request_draws w r run key x c Hs) in *.
  pose proof (request_seen w key some_draws r c) as Hseen.
  destruct (spec_request w key some_draws r c) as [a c'] eqn:Espec. cbn [fst snd] in *. split_and!; [done..|].
  intros e He Hne. destruct Hseen as (Hkept & _ & Hconflict & _). specialize (Hconflict e He Hne).
  split; [|by eapply Hkept]. rewrite Hh. f_equal. by apply told_failure.
Qed.

(** ** An example *)

(** A list, and an edit of another revision, in the world in which nothing fails. *)
Lemma server_callbacks_conform_witness :
  let c := World.catalog (txt "secret") in
  let d := World.disk_of (txt "secret") in
  let edit := server_set_enabled (cat_revision c + 1) (txt "docs") false in
  heard servers_list (fst (served emitMcpServers (listMcpAdminServers World.calm) d)) =
    Some (news_servers (cat_revision c)
      [Build_McpAdminServer (txt "docs") true (txt "npx") [txt "-y"] None [txt "TOKEN"] 30 60])
  /\ heard edit (fst (served emitMcpResult
         (setMcpAdminServerEnabled World.calm (cat_revision c + 1) (txt "docs") false) d)) =
     Some (news_failed (cat_revision c) (txt "MCP catalog changed; reload before editing")).
Proof.
  intros c d edit. split.
  - destruct (server_callbacks_conform World.calm servers_list _ d _ _ eq_refl (surjective_pairing _)) as [_ H].
    destruct (H World.key c (World.calm_quiet d) (World.disk_represents _) I) as [Hh _].
    etransitivity; [exact Hh|]. reflexivity.
  - destruct (server_callbacks_conform World.calm edit _ d _ _ eq_refl (surjective_pairing _)) as [_ H].
    specialize (H World.key c (World.calm_quiet d) (World.disk_represents _) I).
    destruct (spec_request World.calm World.key some_draws edit c) as [a c'].
    destruct H as (_ & _ & H). destruct (H (cat_revision c + 1) eq_refl) as [Hh _]; [lia|].
    etransitivity; [exact Hh|]. reflexivity.
Defined.
