(* ===== verification/BrowserResult.v ===== *)
(** * The browser bridge: results from the host

    The host answers a command with a borrowed [ha_browser_result]
    (HaskellAgentBridge.h).  This file has the structure, the header's contract for it, and
    the code that copies, checks and renders an answer (BrowserBridge.hs), down to the
    inspection of the PNG header.  [browser_result_accepted]: the code accepts an answer
    exactly when it satisfies the contract.  Decoding the image is a library's; what is
    assumed of it is that a decodable PNG starts with the signature and an IHDR chunk that
    carries the image's dimensions. *)

From stdpp Require Import base tactics option list gmap strings.
From Stdlib Require Import ZArith Lia.
From coqutil Require Import Byte Word.LittleEndianList.
From S2P Require Import Prelude Utf8 AbiLayout BrowserAbi.
#[local] Open Scope Z_scope.

(** ** The header *)

Inductive ha_browser_status :=
  | HA_BROWSER_STATUS_SUCCESS
  | HA_BROWSER_STATUS_INVALID_ARGUMENT
  | HA_BROWSER_STATUS_UNAVAILABLE
  | HA_BROWSER_STATUS_TIMEOUT
  | HA_BROWSER_STATUS_PERMISSION_DENIED
  | HA_BROWSER_STATUS_UNSUPPORTED
  | HA_BROWSER_STATUS_FAILED
  | HA_BROWSER_STATUS_OUTPUT_TOO_LARGE
  | HA_BROWSER_STATUS_CANCELLED.

Definition ha_browser_status_value (s : ha_browser_status) : Z :=
  match s with
  | HA_BROWSER_STATUS_SUCCESS => 0
  | HA_BROWSER_STATUS_INVALID_ARGUMENT => 1
  | HA_BROWSER_STATUS_UNAVAILABLE => 2
  | HA_BROWSER_STATUS_TIMEOUT => 3
  | HA_BROWSER_STATUS_PERMISSION_DENIED => 4
  | HA_BROWSER_STATUS_UNSUPPORTED => 5
  | HA_BROWSER_STATUS_FAILED => 6
  | HA_BROWSER_STATUS_OUTPUT_TOO_LARGE => 7
  | HA_BROWSER_STATUS_CANCELLED => 8
  end.

Definition HA_BROWSER_IMAGE_NONE : Z := 0.
Definition HA_BROWSER_IMAGE_PNG : Z := 1.

(** The declaration of [ha_browser_result], field by field. *)
Definition ha_browser_result_fields : list (string * ctype) :=
  [ ("struct_size", c_uint32);
    ("status", c_int32);
    ("image_format", c_int32);
    ("image_width", c_int32);
    ("image_height", c_int32);
    ("reserved", c_int32);
    ("text", c_pointer);
    ("text_length", c_size);
    ("image", c_pointer);
    ("image_length", c_size) ]%string.

Record ha_browser_result := {
  result_struct_size : Z;
  result_status : Z;
  result_image_format : Z;
  result_image_width : Z;
  result_image_height : Z;
  result_reserved : Z;
  result_text : Z;
  result_text_length : Z;
  result_image : Z;
  result_image_length : Z;
}.

(** [*result], read as the declared structure. *)
Definition load_ha_browser_result (buf : list byte) : option ha_browser_result :=
  let field := fun f => load_field ha_browser_result_fields f buf in
  sz ← field "struct_size"%string;
  status ← field "status"%string;
  format ← field "image_format"%string;
  width ← field "image_width"%string;
  height ← field "image_height"%string;
  reserved ← field "reserved"%string;
  text_ ← field "text"%string;
  text_len ← field "text_length"%string;
  image ← field "image"%string;
  image_len ← field "image_length"%string;
  Some (Build_ha_browser_result sz status format width height reserved
          text_ text_len image image_len).

(** The header's static assertions, where a pointer has 64 bits. *)
Definition ha_browser_static_asserts : bool :=
  (struct_size ha_browser_request_fields =? HA_BROWSER_REQUEST_STRUCT_SIZE)
  && (struct_size ha_browser_result_fields =? HA_BROWSER_RESULT_STRUCT_SIZE).

Lemma ha_browser_static_asserts_hold : ha_browser_static_asserts = true.
Proof. reflexivity. Qed.

(** ** Copying the answer *)

Record BrowserNativeResult := {
  browserNativeStatus : Z;
  browserNativeText : text;
  browserNativeImageFormat : Z;
  browserNativeImageWidth : Z;
  browserNativeImageHeight : Z;
  browserNativeImageBytes : list byte;
}.

Definition browserOutputCapacity : Z := 256 * 1024.
Definition browserResultStructSize : Z := 56.
Definition browserImageCapacity : Z := 16 * 1024 * 1024.

(** [BS.packCStringLen]: the bytes at a pointer. *)
Definition packCStringLen (m : memory) (p len : Z) : list byte :=
  ztake len (default [] (m !! p)).

Definition readBrowserBytes (m : memory) (label : text) (limit p len : Z)
    : text + list byte :=
  if limit <? len then
    inl (txt "The browser returned " ++ label ++ txt " data above its size limit.")
  else if len =? 0 then
    if p =? 0 then inr []
    else inl (txt "The browser returned a non-null " ++ label
              ++ txt " pointer for an empty slice.")
  else if p =? 0 then inl (txt "The browser returned a null " ++ label ++ txt " pointer.")
  else inr (packCStringLen m p len).

(** A signed field of the structure. *)
Definition peek_int (off : Z) (buf : list byte) : Z := i32 (peek 4 off buf).

Definition decodeBrowserNativeResult (m : memory) (pointer : Z)
    : text + BrowserNativeResult :=
  if pointer =? 0 then inl (txt "The browser returned a null result.")
  else
    let buf := default [] (m !! pointer) in
    let structSize := peek 4 0 buf in
    let status := peek_int 4 buf in
    let imageFormat := peek_int 8 buf in
    let imageWidth := peek_int 12 buf in
    let imageHeight := peek_int 16 buf in
    let reserved := peek_int 20 buf in
    let textPointer := peek 8 24 buf in
    let textLength := peek 8 32 buf in
    let imagePointer := peek 8 40 buf in
    let imageLength := peek 8 48 buf in
    if negb (structSize =? browserResultStructSize) then
      inl (txt "The browser returned an incompatible result structure.")
    else if negb (reserved =? 0) then
      inl (txt "The browser returned nonzero reserved fields.")
    else
      textBytes <- readBrowserBytes m (txt "text") browserOutputCapacity textPointer textLength;;
      match utf8_decode textBytes with
      | None => inl (txt "The browser returned invalid UTF-8.")
      | Some t =>
          imageBytes <- readBrowserBytes m (txt "image") browserImageCapacity
                          imagePointer imageLength;;
          inr (Build_BrowserNativeResult status t imageFormat imageWidth imageHeight imageBytes)
      end.

(** ** Rendering it *)

Record ToolResultImage := { imageUrl : text; imageDetail : option text }.
Record ToolHandlerResult := { resultText : text; resultImages : list ToolResultImage }.

Definition browserStatusMessage (status : Z) : text :=
  match status with
  | 1 => txt "The browser host rejected an invalid argument."
  | 2 => txt "The native browser bridge is unavailable."
  | 3 => txt "The browser command timed out."
  | 4 => txt "The browser host denied website or extension access."
  | 5 => txt "The browser host does not support this operation."
  | 6 => txt "The native browser bridge failed internally."
  | 7 => txt "The browser host returned a result that was too large."
  | 8 => txt "The browser command was cancelled."
  | _ => txt "The browser command failed (status " ++ show_text status ++ txt ")."
  end.

Definition browserLogicalImageMaxDimension : Z := 100000.
Definition browserPngMaxDimension : Z := 16384.
Definition browserPngMaxPixels : Z := 67108864.

(** Four bytes, most significant first. *)
Definition browserPngWord32At (offset : Z) (bytes : list byte) : Z :=
  foldl (fun value b => value * 256 + byte.unsigned b) 0 (ztake 4 (zdrop offset bytes)).

Definition pngSignature : list byte := bytes_of [137; 80; 78; 71; 13; 10; 26; 10].

Definition browserPngHeaderDimensions (bytes : list byte) : option (Z * Z) :=
  if zlen bytes <? 24 then None
  else if negb (bool_decide (ztake 8 bytes = pngSignature)) then None
  else if negb (browserPngWord32At 8 bytes =? 13) then None
  else if negb (bool_decide (ztake 4 (zdrop 12 bytes) = utf8_encode (txt "IHDR"))) then None
  else Some (browserPngWord32At 16 bytes, browserPngWord32At 20 bytes).

Section BrowserResults.

(** The image and Base64 libraries: the dimensions of a decoded PNG, and an encoding. *)
Context (decodePng : list byte -> option (Z * Z)) (base64 : list byte -> text).

Definition validateBrowserPng (bytes : list byte) : text + unit :=
  let invalid := inl (txt "The browser screenshot was not a valid PNG byte sequence.") in
  match browserPngHeaderDimensions bytes with
  | None => invalid
  | Some (width, height) =>
      if (width =? 0) || (height =? 0) || (browserPngMaxDimension <? width)
         || (browserPngMaxDimension <? height) || (browserPngMaxPixels <? u64 (width * height))
      then inl (txt "The browser screenshot PNG pixel dimensions were invalid.")
      else match decodePng bytes with
           | None => invalid
           | Some decodedDimensions =>
               if bool_decide (decodedDimensions = (width, height)) then inr tt else invalid
           end
  end.

Definition hasImage (r : BrowserNativeResult) : bool :=
  negb (browserNativeImageFormat r =? 0)
  || negb (bool_decide (browserNativeImageBytes r = []))
  || negb (browserNativeImageWidth r =? 0)
  || negb (browserNativeImageHeight r =? 0).

Definition screenshot_text (r : BrowserNativeResult) : text :=
  match browserNativeText r with
  | [] => txt "Captured browser viewport (" ++ show_text (browserNativeImageWidth r)
          ++ [215] ++ show_text (browserNativeImageHeight r) ++ txt ")."
  | t => t
  end.

Definition renderBrowserResult (command : BrowserCommand) (r : BrowserNativeResult)
    : text + ToolHandlerResult :=
  if negb (browserNativeStatus r =? 0) then
    if hasImage r then inl (txt "The browser returned an image with a failed result.")
    else inl match browserNativeText r with
             | [] => browserStatusMessage (browserNativeStatus r)
             | t => t
             end
  else if bool_decide (command = BrowserScreenshot) then
    if negb (browserNativeImageFormat r =? 1)
       || bool_decide (browserNativeImageBytes r = [])
    then inl (txt "The browser screenshot did not contain a PNG image.")
    else if (browserNativeImageWidth r <=? 0) || (browserNativeImageHeight r <=? 0)
            || (browserLogicalImageMaxDimension <? browserNativeImageWidth r)
            || (browserLogicalImageMaxDimension <? browserNativeImageHeight r)
    then inl (txt "The browser screenshot dimensions were invalid.")
    else
      _ <- validateBrowserPng (browserNativeImageBytes r);;
      inr (Build_ToolHandlerResult (screenshot_text r)
             [Build_ToolResultImage
                (txt "data:image/png;base64," ++ base64 (browserNativeImageBytes r))
                (Some (txt "high"))])
  else if hasImage r then
    inl (txt "The browser returned an unexpected image for this command.")
  else inr (Build_ToolHandlerResult (browserNativeText r) []).

(** The answer to an accepted command, from the completion to the model. *)
Definition browser_answer (command : BrowserCommand) (m : memory) (pointer : Z)
    : text + ToolHandlerResult :=
  r <- decodeBrowserNativeResult m pointer;; renderBrowserResult command r.

(** ** The contract *)

(** The pointers of an answer are valid C pointers: a nonnull slice within its limit is
    backed by memory. *)
Definition backed (m : memory) (p len limit : Z) : Prop :=
  p <> 0 -> len <= limit -> exists bs, m !! p = Some bs /\ len <= zlen bs.

Definition answer_backed (m : memory) (r : ha_browser_result) : Prop :=
  backed m (result_text r) (result_text_length r) HA_BROWSER_TEXT_RESULT_MAX_BYTES
  /\ backed m (result_image r) (result_image_length r) HA_BROWSER_IMAGE_RESULT_MAX_BYTES.

(** "NONE with NULL/zero image fields" *)
Definition no_image (r : ha_browser_result) : Prop :=
  result_image_format r = HA_BROWSER_IMAGE_NONE
  /\ result_image_width r = 0 /\ result_image_height r = 0
  /\ result_image r = 0 /\ result_image_length r = 0.

(** What a successful SCREENSHOT carries. *)
Definition png_image (m : memory) (r : ha_browser_result) : Prop :=
  result_image_format r = HA_BROWSER_IMAGE_PNG
  /\ 0 < result_image_width r <= HA_BROWSER_IMAGE_MAX_DIMENSION
  /\ 0 < result_image_height r <= HA_BROWSER_IMAGE_MAX_DIMENSION
  /\ result_image_length r <= HA_BROWSER_IMAGE_RESULT_MAX_BYTES
  /\ exists image width height,
       slice m (result_image r) (result_image_length r) = Some image
       /\ image <> []
       /\ decodePng image = Some (width, height)
       /\ 0 < width <= HA_BROWSER_PNG_MAX_DIMENSION
       /\ 0 < height <= HA_BROWSER_PNG_MAX_DIMENSION
       /\ width * height <= HA_BROWSER_PNG_MAX_PIXELS.

Definition result_contract (command : BrowserCommand) (m : memory) (r : ha_browser_result)
    : Prop :=
  result_struct_size r = HA_BROWSER_RESULT_STRUCT_SIZE
  /\ result_reserved r = 0
  /\ result_text_length r <= HA_BROWSER_TEXT_RESULT_MAX_BYTES
  /\ (exists t, slice_text m (result_text r) (result_text_length r) = Some t)
  /\ (if decide (result_status r = ha_browser_status_value HA_BROWSER_STATUS_SUCCESS
                 /\ command = BrowserScreenshot)
      then png_image m r else no_image r).

(** ** The code against the contract *)

Lemma readBrowserBytes_inr m label limit p len bs :
  0 <= len -> backed m p len limit ->
  readBrowserBytes m label limit p len = inr bs <-> len <= limit /\ slice m p len = Some bs.
Proof.
  intros Hlen Hb. unfold readBrowserBytes, slice, packCStringLen.
  destruct (Z.ltb_spec limit len); [split; [done|lia]|].
  destruct (Z.eqb_spec len 0) as [->|Hn].
  { destruct (Z.eqb_spec p 0); split; try done.
    - by intros [= <-].
    - by intros [_ [= <-]].
    - by intros [_ ?]. }
  destruct (Z.eqb_spec p 0) as [|Hp]; [split; [done|by intros [_ ?]]|].
  destruct (Hb Hp ltac:(lia)) as (b & Hm & Hl). rewrite Hm. cbn [default mbind option_bind].
  destruct (Z.leb_spec len (zlen b)); [|lia]. cbn [id].
  split; [by intros [= <-]|by intros [_ [= <-]]].
Qed.

(** The literal offsets of the reading code are the offsets of the declaration. *)
Lemma load_result_offsets buf :
  load_ha_browser_result buf =
  Some (Build_ha_browser_result (peek 4 0 buf) (peek_int 4 buf) (peek_int 8 buf)
          (peek_int 12 buf) (peek_int 16 buf) (peek_int 20 buf)
          (peek 8 24 buf) (peek 8 32 buf) (peek 8 40 buf) (peek 8 48 buf)).
Proof. unfold load_ha_browser_result. by erewrite !load_field_at by reflexivity. Qed.

(** What the copy keeps of the structure. *)
Definition copied (m : memory) (r : ha_browser_result) (n : BrowserNativeResult) : Prop :=
  result_struct_size r = HA_BROWSER_RESULT_STRUCT_SIZE /\ result_reserved r = 0
  /\ result_text_length r <= HA_BROWSER_TEXT_RESULT_MAX_BYTES
  /\ slice_text m (result_text r) (result_text_length r) = Some (browserNativeText n)
  /\ result_image_length r <= HA_BROWSER_IMAGE_RESULT_MAX_BYTES
  /\ slice m (result_image r) (result_image_length r) = Some (browserNativeImageBytes n)
  /\ browserNativeStatus n = result_status r
  /\ browserNativeImageFormat n = result_image_format r
  /\ browserNativeImageWidth n = result_image_width r
  /\ browserNativeImageHeight n = result_image_height r.

Lemma peek_nonneg w off buf : 0 <= peek w off buf.
Proof. unfold peek. apply le_combine_bound. Qed.

Lemma decodeBrowserNativeResult_inr m pointer r n :
  pointer <> 0 -> load_ha_browser_result (default [] (m !! pointer)) = Some r ->
  answer_backed m r ->
  decodeBrowserNativeResult m pointer = inr n <-> copied m r n.
Proof.
  intros Hp. rewrite load_result_offsets. intros [= <-] [Bt Bi].
  unfold decodeBrowserNativeResult, copied, slice_text.
  set (buf := default [] (m !! pointer)) in *.
  cbn [result_struct_size result_status result_image_format result_image_width
       result_image_height result_reserved result_text result_text_length result_image
       result_image_length] in *.
  destruct (Z.eqb_spec pointer 0); [done|].
  change (ha_browser_limit_value HA_BROWSER_RESULT_STRUCT_SIZE) with browserResultStructSize.
  destruct (Z.eqb_spec (peek 4 0 buf) browserResultStructSize); cbn [negb];
    [|split; [done|by intros (? & _)]].
  destruct (Z.eqb_spec (peek_int 20 buf) 0); cbn [negb]; [|split; [done|by intros (_ & ? & _)]].
  assert (Ht := fun bs => readBrowserBytes_inr m (txt "text") _ _ _ bs
                  (peek_nonneg 8 32 buf) Bt).
  assert (Hi := fun bs => readBrowserBytes_inr m (txt "image") _ _ _ bs
                  (peek_nonneg 8 48 buf) Bi).
  change (ha_browser_limit_value HA_BROWSER_TEXT_RESULT_MAX_BYTES)
    with browserOutputCapacity in *.
  change (ha_browser_limit_value HA_BROWSER_IMAGE_RESULT_MAX_BYTES)
    with browserImageCapacity in *.
  split.
  - intros (tb & Htb & H)%checked_inr. apply Ht in Htb as [? Htb].
    destruct (utf8_decode tb) as [t|] eqn:Eu; [|done].
    apply checked_inr in H as (ib & Hib & [= <-]). apply Hi in Hib as [? Hib].
    rewrite Htb. cbn. by rewrite Eu.
  - intros (_ & _ & Hl & Htt & Hil & Hii & E1 & E2 & E3 & E4).
    destruct (slice m _ (peek 8 32 buf)) as [tb|] eqn:Etb; [|done]. cbn in Htt.
    rewrite (proj2 (Ht tb) (conj Hl eq_refl)). cbn [checked]. rewrite Htt.
    rewrite (proj2 (Hi _) (conj Hil Hii)). cbn [checked].
    destruct n; cbn in *. by subst.
Qed.

Lemma slice_nil m p len : 0 <= len -> slice m p len = Some [] -> p = 0 /\ len = 0.
Proof.
  intros Hl. unfold slice. destruct (Z.eqb_spec len 0); destruct (Z.eqb_spec p 0); try done.
  destruct (m !! p) as [bs|]; [|done]. cbn [mbind option_bind].
  destruct (Z.leb_spec len (zlen bs)); [|done]. intros [= He].
  apply (f_equal (fun l => zlen l)) in He. rewrite zlen_ztake in He; simpl in *; lia.
Qed.

Lemma word32_nonneg off bytes : 0 <= browserPngWord32At off bytes.
Proof.
  unfold browserPngWord32At. generalize (ztake 4 (zdrop off bytes)). intros l.
  assert (forall a, 0 <= a -> 0 <= foldl (fun v b => v * 256 + byte.unsigned b) a l) as H;
    [|apply H; lia].
  clear. induction l as [|b l IH]; intros a Ha; [done|]. cbn [foldl]. apply IH.
  pose proof (byte.unsigned_range b). lia.
Qed.

(** Documented PNG format: a decodable image starts with the signature and an IHDR chunk
    of 13 bytes, whose first two words are its dimensions. *)
Hypothesis png_header : forall b d, decodePng b = Some d -> browserPngHeaderDimensions b = Some d.

Lemma validateBrowserPng_inr b :
  validateBrowserPng b = inr tt <->
  exists width height, decodePng b = Some (width, height)
    /\ 0 < width <= HA_BROWSER_PNG_MAX_DIMENSION
    /\ 0 < height <= HA_BROWSER_PNG_MAX_DIMENSION
    /\ width * height <= HA_BROWSER_PNG_MAX_PIXELS.
Proof.
  unfold validateBrowserPng.
  change (ha_browser_limit_value HA_BROWSER_PNG_MAX_DIMENSION) with browserPngMaxDimension.
  change (ha_browser_limit_value HA_BROWSER_PNG_MAX_PIXELS) with browserPngMaxPixels.
  assert (Hmax : browserPngMaxDimension = 16384) by done.
  split.
  - destruct (browserPngHeaderDimensions b) as [[w h]|] eqn:Eh; [|done].
    assert (0 <= w /\ 0 <= h) as [Hw Hh].
    { unfold browserPngHeaderDimensions in Eh. repeat case_match; try done.
      injection Eh as <- <-. split; apply word32_nonneg. }
    match goal with |- context [if ?c then _ else _] => destruct c eqn:E; [done|] end.
    rewrite !orb_false_iff in E. destruct E as [[[[E1 E2] E3] E4] E5].
    rewrite u64_id in E5 by nia.
    destruct (decodePng b) as [d|] eqn:Ed; [|done].
    destruct (bool_decide_reflect (d = (w, h))) as [->|]; [|done]. intros _.
    exists w, h. repeat split; lia.
  - intros (w & h & Ed & [? ?] & [? ?] & ?). rewrite (png_header _ _ Ed), Ed.
    rewrite u64_id by nia.
    match goal with |- context [if ?c then _ else _] => assert (c = false) as -> by lia end.
    by rewrite bool_decide_true.
Qed.

Lemma hasImage_false m r n :
  0 <= result_image_length r -> copied m r n -> hasImage n = false <-> no_image r.
Proof.
  intros Hl (_ & _ & _ & _ & _ & Hs & _ & E1 & E2 & E3).
  unfold hasImage, no_image. change HA_BROWSER_IMAGE_NONE with 0.
  rewrite !orb_false_iff, !negb_false_iff, bool_decide_eq_true, !Z.eqb_eq, E1, E2, E3. split.
  - intros [[[? Hb] ?] ?]. rewrite Hb in Hs. apply slice_nil in Hs as [? ?]; [|done].
    repeat split; done.
  - intros (? & ? & ? & Hp & Hn). rewrite Hp, Hn, slice_null in Hs. injection Hs as <-.
    repeat split; done.
Qed.

Lemma render_screenshot m r n :
  copied m r n -> browserNativeStatus n = 0 ->
  (exists h, renderBrowserResult BrowserScreenshot n = inr h) <-> png_image m r.
Proof.
  intros (_ & _ & _ & _ & Hil & Hs & _ & E1 & E2 & E3) Hst.
  unfold renderBrowserResult, png_image. rewrite Hst. cbn [negb Z.eqb].
  rewrite bool_decide_true by done. rewrite E1, E2, E3, Hs.
  change HA_BROWSER_IMAGE_PNG with 1.
  change (ha_browser_limit_value HA_BROWSER_IMAGE_MAX_DIMENSION)
    with browserLogicalImageMaxDimension.
  split.
  - intros [h H].
    match type of H with (if ?c then _ else _) = _ => destruct c eqn:Ea; [done|] end.
    match type of H with (if ?c then _ else _) = _ => destruct c eqn:Eb; [done|] end.
    apply checked_inr in H as ([] & (w & hh & Hd & Hrest)%validateBrowserPng_inr & _).
    rewrite !orb_false_iff in Ea, Eb.
    destruct Ea as [Ea1%negb_false_iff Ea2%bool_decide_eq_false].
    repeat split; try lia. by exists (browserNativeImageBytes n), w, hh.
  - intros (Hf & [? ?] & [? ?] & _ & image & w & h & [= <-] & Hne & Hpng).
    assert (bool_decide (browserNativeImageBytes n = []) = false) as ->
      by by apply bool_decide_eq_false.
    rewrite Hf. cbn [Z.eqb Pos.eqb negb orb].
    match goal with |- context [if ?c then _ else _] => assert (c = false) as -> by lia end.
    rewrite (proj2 (validateBrowserPng_inr _)) by by exists w, h. by eexists.
Qed.

Lemma render_plain m r n command :
  0 <= result_image_length r -> copied m r n -> command <> BrowserScreenshot ->
  browserNativeStatus n = 0 ->
  (exists h, renderBrowserResult command n = inr h) <-> no_image r.
Proof.
  intros Hl Hc Hcmd Hst. rewrite <- (hasImage_false m r n) by done.
  unfold renderBrowserResult. rewrite Hst. cbn [negb Z.eqb].
  rewrite bool_decide_false by done.
  destruct (hasImage n); split; try done; [by intros [? ?]|by eexists].
Qed.

Lemma contract_copied command m r :
  result_contract command m r -> exists n, copied m r n.
Proof.
  intros (? & ? & ? & [t Ht] & Hi).
  assert (exists image, slice m (result_image r) (result_image_length r) = Some image
            /\ result_image_length r <= HA_BROWSER_IMAGE_RESULT_MAX_BYTES) as (image & Him & Hl).
  { destruct (decide _).
    - destruct Hi as (_ & _ & _ & ? & image & _ & _ & ? & _). by exists image.
    - destruct Hi as (_ & _ & _ & Hp & Hn). exists []. by rewrite Hp, Hn. }
  by exists (Build_BrowserNativeResult (result_status r) t (result_image_format r)
            (result_image_width r) (result_image_height r) image).
Qed.

(** C26: of the answers to an accepted command, the code delivers to the model exactly the
    successful ones that satisfy the header's contract; a failed answer that satisfies it
    is reported with the host's own text, or with the message for its status when the host
    gave none; an answer that violates the contract is an error, never a result. *)
Theorem browser_result_accepted command m pointer r :
  pointer <> 0 -> load_ha_browser_result (default [] (m !! pointer)) = Some r ->
  answer_backed m r ->
  ((exists h, browser_answer command m pointer = inr h) <->
   result_status r = ha_browser_status_value HA_BROWSER_STATUS_SUCCESS
   /\ result_contract command m r)
  /\ (result_status r <> ha_browser_status_value HA_BROWSER_STATUS_SUCCESS ->
      result_contract command m r ->
      exists t, slice_text m (result_text r) (result_text_length r) = Some t
        /\ browser_answer command m pointer =
           inl match t with [] => browserStatusMessage (result_status r) | _ => t end).
Proof.
  intros Hp Hr Hb. change (ha_browser_status_value HA_BROWSER_STATUS_SUCCESS) with 0.
  assert (Hd := fun n => decodeBrowserNativeResult_inr m pointer r n Hp Hr Hb).
  assert (Hlen : 0 <= result_image_length r).
  { rewrite load_result_offsets in Hr. injection Hr as <-. apply peek_nonneg. }
  unfold browser_answer. split; [split|].
  - intros (h & (n & Hn & H)%checked_inr). apply Hd in Hn.
    assert (Hst : browserNativeStatus n = result_status r) by apply Hn.
    assert (Hst0 : browserNativeStatus n = 0).
    { destruct (Z.eqb_spec (browserNativeStatus n) 0) as [|Hne]; [done|].
      unfold renderBrowserResult in H. rewrite (proj2 (Z.eqb_neq _ _) Hne) in H. cbn [negb] in H.
      by destruct (hasImage n). }
    split; [by rewrite <- Hst|].
    unfold result_contract. change (ha_browser_status_value HA_BROWSER_STATUS_SUCCESS) with 0.
    pose proof Hn as (? & ? & ? & ? & _). repeat (split; [by eauto|]).
    destruct (decide _) as [[_ ->]|Hno].
    + apply (render_screenshot m r n); [done..|by exists h].
    + apply (render_plain m r n command); [done|done| |done|by exists h].
      intros ->. apply Hno. by rewrite <- Hst.
  - intros [Hst Hc]. destruct (contract_copied _ _ _ Hc) as [n Hn].
    rewrite (proj2 (Hd n) Hn). cbn [checked].
    assert (Hst' : browserNativeStatus n = 0) by (rewrite <- Hst; apply Hn).
    destruct Hc as (_ & _ & _ & _ & Hi).
    change (ha_browser_status_value HA_BROWSER_STATUS_SUCCESS) with 0 in Hi.
    destruct (decide _) as [[_ ->]|Hno].
    + by apply (render_screenshot m r n).
    + apply (render_plain m r n command); [done|done| |done|done]. intros ->. by apply Hno.
  - intros Hst Hc. destruct (contract_copied _ _ _ Hc) as [n Hn].
    rewrite (proj2 (Hd n) Hn). cbn [checked].
    destruct Hc as (_ & _ & _ & _ & Hi).
    change (ha_browser_status_value HA_BROWSER_STATUS_SUCCESS) with 0 in Hi.
    rewrite decide_False in Hi by tauto.
    exists (browserNativeText n). split; [apply Hn|].
    assert (Hst' : browserNativeStatus n = result_status r) by apply Hn.
    unfold renderBrowserResult. rewrite Hst', (proj2 (Z.eqb_neq _ _) Hst). cbn [negb].
    rewrite (proj2 (hasImage_false m r n Hlen Hn) Hi). by destruct (browserNativeText n).
Qed.

End BrowserResults.

(** A one-pixel screenshot, against a library that decodes whatever has a PNG header. *)
Definition demo_png : list byte :=
  bytes_of [137; 80; 78; 71; 13; 10; 26; 10; 0; 0; 0; 13; 73; 72; 68; 82; 0; 0; 0; 2; 0; 0; 0; 1].

(** The answer at [pointer], written as a host would. *)
Definition demo_answer (status format width height text_ text_len image image_len : Z)
    : list byte :=
  pokes [(4, 0, 56); (4, 4, status); (4, 8, format); (4, 12, width); (4, 16, height);
         (8, 24, text_); (8, 32, text_len); (8, 40, image); (8, 48, image_len)] (zeroed 56).

Definition demo_memory : memory :=
  <[4096 := demo_answer 0 1 2 1 0 0 8192 24]> (<[8192 := demo_png]> ∅).

Lemma browser_result_accepted_witness :
  exists r, load_ha_browser_result (default [] (demo_memory !! 4096)) = Some r
    /\ exists h, browser_answer browserPngHeaderDimensions (fun _ => []) BrowserScreenshot
                   demo_memory 4096 = inr h.
Proof.
  eexists. split; [vm_compute; reflexivity|].
  eapply (browser_result_accepted browserPngHeaderDimensions (fun _ => []));
    [done|discriminate|vm_compute; reflexivity| |].
  - split; intros Hp _; [done|]. exists demo_png. split; [vm_compute; reflexivity|].
    vm_compute. discriminate.
  - split; [reflexivity|]. split; [reflexivity|]. split; [reflexivity|].
    split; [vm_compute; discriminate|]. split; [exists []; reflexivity|].
    rewrite decide_True by (split; reflexivity). unfold png_image.
    split; [reflexivity|]. repeat (split; [vm_compute; split; congruence|]).
    split; [vm_compute; discriminate|]. exists demo_png, 2, 1.
    split; [vm_compute; reflexivity|]. split; [vm_compute; discriminate|].
    split; [vm_compute; reflexivity|]. repeat (split; [vm_compute; split; congruence|]).
    vm_compute. discriminate.
Defined.
