(* ===== verification/BrowserPending.v ===== *)
(** * The browser bridge: commands in flight

    A command registers an empty slot under a fresh identifier, hands the identifier to the
    host as the completion context, and waits for the slot.  The host completes on any
    thread, at any time: before its callback returns, after a cancellation, twice, or with
    an identifier that is not (or no longer) pending.  This file models the pending
    registry and one command at a time per host (the registration is locked while it runs)
    as a step relation over the threads' interleavings (BrowserBridge.hs,
    EngineHostRegistration.hs), and shows that every command takes exactly one completion,
    its own, and that a replaced registration is never used again. *)

From stdpp Require Import base tactics option list gmap strings.
From Stdlib Require Import ZArith Lia.
From coqutil Require Import Byte.
From S2P Require Import Prelude Utf8 AbiLayout BrowserAbi BrowserResult.
#[local] Open Scope Z_scope.

(** ** The registry *)

Definition maxWord64 : Z := 2 ^ 64 - 1.

Definition incrementBrowserPendingId (requestId : Z) : Z :=
  if requestId =? maxWord64 then 1 else requestId + 1.

(** The search of the source, cut off after [fuel] steps; [1 + size] are enough
    ([next_available_fresh]). *)
Fixpoint next_available {A} (fuel : nat) (candidate : Z) (pendingById : gmap Z A) : Z :=
  match fuel with
  | O => candidate
  | S fuel =>
      match pendingById !! candidate with
      | None => candidate
      | Some _ => next_available fuel (incrementBrowserPendingId candidate) pendingById
      end
  end.

Definition nextAvailableBrowserPendingId {A} (candidate : Z) (pendingById : gmap Z A) : Z :=
  next_available (S (size pendingById)) candidate pendingById.

Definition browser_id_ok (id : Z) : Prop := 1 <= id <= maxWord64.

(** ** Registrations *)

Record BrowserRegistration := {
  browserCallback : Z;
  browserCancelCallback : Z;
  browserContext : Z;
}.

(** [ha_engine_set_browser_callback]: the status, or the registration to install. *)
Definition ha_engine_set_browser_callback (engine callback cancelCallback context : Z)
    : Z + option BrowserRegistration :=
  if engine =? 0 then inl 1
  else if xorb (callback =? 0) (cancelCallback =? 0) then inl 2
  else inr (if callback =? 0 then None
            else Some (Build_BrowserRegistration callback cancelCallback context)).

(** ** The state *)

Definition answer : Type := text + BrowserNativeResult.

(** Where a command is.  The last argument of the closing stages is what it has taken:
    nothing when it was interrupted. *)
Inductive stage :=
  | Calling
  | Waiting
  | Releasing (taken : option answer)
  | Cancelling (taken : option answer)
  | Draining (taken : option answer).

Record running := {
  rn_registration : BrowserRegistration;
  rn_id : Z;
  rn_slot : nat;
  rn_stage : stage;
}.

Definition at_stage (r : running) (st : stage) : running :=
  Build_running (rn_registration r) (rn_id r) (rn_slot r) st.

(** A host: its registration and the command that holds its lock. *)
Record host := { ho_registration : option BrowserRegistration; ho_running : option running }.

Record bridge := {
  br_next : Z;
  br_pending : gmap Z nat;
  br_slots : gmap nat (option answer);
  br_flying : list (nat * answer);
  br_fresh : nat;
  br_hosts : gmap nat host;
}.

Definition bridge_init : bridge := Build_bridge 1 ∅ ∅ [] 0 ∅.

Definition host_at (s : bridge) (h : nat) : host := default (Build_host None None) (br_hosts s !! h).

Definition set_host (h : nat) (x : host) (s : bridge) : bridge :=
  Build_bridge (br_next s) (br_pending s) (br_slots s) (br_flying s) (br_fresh s)
    (<[h := x]> (br_hosts s)).

Definition set_running (h : nat) (r : option running) (s : bridge) : bridge :=
  set_host h (Build_host (ho_registration (host_at s h)) r) s.

Definition registerBrowserPending (s : bridge) : Z * nat * bridge :=
  let id := nextAvailableBrowserPendingId (br_next s) (br_pending s) in
  (id, br_fresh s,
   Build_bridge (incrementBrowserPendingId id) (<[id := br_fresh s]> (br_pending s))
     (<[br_fresh s := None]> (br_slots s)) (br_flying s) (S (br_fresh s)) (br_hosts s)).

Definition unregisterBrowserPending (id : Z) (s : bridge) : bridge :=
  Build_bridge (br_next s) (delete id (br_pending s)) (br_slots s) (br_flying s) (br_fresh s)
    (br_hosts s).

Definition browserPendingIsRegistered (id : Z) (s : bridge) : bool :=
  bool_decide (is_Some (br_pending s !! id)).

(** [completeBrowserPending], first half: the slot leaves the registry... *)
Definition complete_begin (id : Z) (slot : nat) (a : answer) (s : bridge) : bridge :=
  Build_bridge (br_next s) (delete id (br_pending s)) (br_slots s)
    ((slot, a) :: br_flying s) (br_fresh s) (br_hosts s).

(** ... and second half: [tryPutMVar] fills it, unless it is full already. *)
Definition try_put (slot : nat) (a : answer) (m : gmap nat (option answer))
    : gmap nat (option answer) :=
  match m !! slot with
  | Some None => <[slot := Some a]> m
  | _ => m
  end.

Definition complete_end (slot : nat) (a : answer) (flying : list (nat * answer)) (s : bridge)
    : bridge :=
  Build_bridge (br_next s) (br_pending s) (try_put slot a (br_slots s)) flying (br_fresh s)
    (br_hosts s).

Definition empty_slot (slot : nat) (s : bridge) : bridge :=
  Build_bridge (br_next s) (br_pending s) (<[slot := None]> (br_slots s)) (br_flying s)
    (br_fresh s) (br_hosts s).

(** What happens at the interface, and the runtime's own steps. *)
Inductive event :=
  | ev_set (h : nat) (reg : option BrowserRegistration)
  | ev_call (h : nat) (reg : BrowserRegistration) (id : Z)
  | ev_reject (h : nat) (id status : Z)
  | ev_accept (h : nat) (id : Z)
  | ev_complete (id : Z) (a : answer)
  | ev_ignore (id : Z) (a : answer)
  | ev_cancel (h : nat) (reg : BrowserRegistration) (id : Z)
  | ev_return (h : nat) (id : Z) (taken : option answer)
  | ev_internal.

Inductive step (s : bridge) : event -> bridge -> Prop :=
  (** The host replaces its registration: only while no command holds the lock. *)
  | step_set h reg :
      ho_running (host_at s h) = None ->
      step s (ev_set h reg) (set_host h (Build_host reg None) s)
  (** A command takes the lock, registers and calls the host. *)
  | step_call h reg id slot s' :
      host_at s h = Build_host (Some reg) None ->
      registerBrowserPending s = (id, slot, s') ->
      step s (ev_call h reg id) (set_running h (Some (Build_running reg id slot Calling)) s')
  (** The callback returns. *)
  | step_reject h r status :
      ho_running (host_at s h) = Some r -> rn_stage r = Calling -> status <> 0 ->
      step s (ev_reject h (rn_id r) status)
        (set_running h None (unregisterBrowserPending (rn_id r) s))
  | step_accept h r :
      ho_running (host_at s h) = Some r -> rn_stage r = Calling ->
      step s (ev_accept h (rn_id r)) (set_running h (Some (at_stage r Waiting)) s)
  (** A completion, on any thread, for any identifier. *)
  | step_complete id slot a :
      br_pending s !! id = Some slot ->
      step s (ev_complete id a) (complete_begin id slot a s)
  | step_ignore id a :
      br_pending s !! id = None -> step s (ev_ignore id a) s
  | step_put slot a l1 l2 :
      br_flying s = l1 ++ (slot, a) :: l2 ->
      step s ev_internal (complete_end slot a (l1 ++ l2) s)
  (** The command takes its slot, or is interrupted. *)
  | step_take h r a :
      ho_running (host_at s h) = Some r -> rn_stage r = Waiting ->
      br_slots s !! rn_slot r = Some (Some a) ->
      step s ev_internal
        (set_running h (Some (at_stage r (Releasing (Some a)))) (empty_slot (rn_slot r) s))
  | step_interrupt h r :
      ho_running (host_at s h) = Some r -> rn_stage r = Waiting ->
      step s ev_internal (set_running h (Some (at_stage r (Releasing None))) s)
  (** [cancelAndDrain]. *)
  | step_release h r t :
      ho_running (host_at s h) = Some r -> rn_stage r = Releasing t ->
      browserPendingIsRegistered (rn_id r) s = false ->
      step s (ev_return h (rn_id r) t) (set_running h None s)
  | step_still_pending h r t :
      ho_running (host_at s h) = Some r -> rn_stage r = Releasing t ->
      browserPendingIsRegistered (rn_id r) s = true ->
      step s ev_internal (set_running h (Some (at_stage r (Cancelling t))) s)
  | step_cancel h r t :
      ho_running (host_at s h) = Some r -> rn_stage r = Cancelling t ->
      step s (ev_cancel h (rn_registration r) (rn_id r))
        (set_running h (Some (at_stage r (Draining t))) s)
  | step_drain h r t a :
      ho_running (host_at s h) = Some r -> rn_stage r = Draining t ->
      br_slots s !! rn_slot r = Some (Some a) ->
      step s (ev_return h (rn_id r) t)
        (set_running h None (empty_slot (rn_slot r) s)).

(** Executions from an engine without commands. *)
Inductive reach : list event -> bridge -> Prop :=
  | reach_init : reach [] bridge_init
  | reach_step tr s e s' : reach tr s -> step s e s' -> reach (tr ++ [e]) s'.

(** ** Finding a free identifier *)

(** The [i]-th candidate after [c]. *)
Definition candidate_at (c : Z) (i : nat) : Z := (c - 1 + Z.of_nat i) mod maxWord64 + 1.

Lemma candidate_at_0 c : browser_id_ok c -> candidate_at c 0 = c.
Proof.
  unfold browser_id_ok, candidate_at. intros H. rewrite Z.mod_small; lia.
Qed.

Lemma candidate_at_ok c i : browser_id_ok (candidate_at c i).
Proof.
  unfold browser_id_ok, candidate_at.
  pose proof (Z.mod_pos_bound (c - 1 + Z.of_nat i) maxWord64 ltac:(reflexivity)). lia.
Qed.

Lemma candidate_at_S c i :
  candidate_at (incrementBrowserPendingId c) i = candidate_at c (S i).
Proof.
  unfold candidate_at, incrementBrowserPendingId. f_equal.
  destruct (Z.eqb_spec c maxWord64) as [->|].
  - replace (maxWord64 - 1 + Z.of_nat (S i)) with (1 - 1 + Z.of_nat i + 1 * maxWord64) by lia.
    by rewrite Z.mod_add by done.
  - f_equal. lia.
Qed.

Lemma incrementBrowserPendingId_ok c : browser_id_ok c -> browser_id_ok (incrementBrowserPendingId c).
Proof.
  unfold browser_id_ok, incrementBrowserPendingId, maxWord64. intros H.
  destruct (Z.eqb_spec c (2 ^ 64 - 1)); lia.
Qed.

Lemma next_available_spec {A} (m : gmap Z A) fuel c :
  browser_id_ok c ->
  m !! next_available fuel c m = None
  \/ forall i, (i < fuel)%nat -> is_Some (m !! candidate_at c i).
Proof.
  revert c. induction fuel as [|fuel IH]; intros c Hc; [right; lia|].
  cbn [next_available]. destruct (m !! c) eqn:E; [|by left].
  destruct (IH _ (incrementBrowserPendingId_ok c Hc)) as [H|H]; [by left|right].
  intros [|i] Hi.
  - rewrite candidate_at_0 by done. by eexists.
  - rewrite <- candidate_at_S. apply H. lia.
Qed.

Lemma candidates_distinct c n :
  Z.of_nat n <= maxWord64 -> NoDup (map (candidate_at c) (seq 0 n)).
Proof.
  intros Hn. apply (NoDup_fmap_2_strong (candidate_at c)).
  - intros i j Hi%elem_of_seq Hj%elem_of_seq. unfold candidate_at. intros H.
    assert ((c - 1 + Z.of_nat i) mod maxWord64 = (c - 1 + Z.of_nat j) mod maxWord64) as E by lia.
    assert (0 < maxWord64) by done.
    pose proof (Z.div_mod (c - 1 + Z.of_nat i) maxWord64 ltac:(lia)).
    pose proof (Z.div_mod (c - 1 + Z.of_nat j) maxWord64 ltac:(lia)).
    assert ((c - 1 + Z.of_nat i) / maxWord64 = (c - 1 + Z.of_nat j) / maxWord64) by nia. nia.
  - apply NoDup_seq.
Qed.

(** The search ends, within one step more than there are pending commands, at an identifier
    in range that is free: unless all 2^64 - 1 are taken. *)
Lemma next_available_fresh {A} (m : gmap Z A) c :
  browser_id_ok c -> Z.of_nat (size m) < maxWord64 ->
  m !! nextAvailableBrowserPendingId c m = None.
Proof.
  intros Hc Hm. destruct (next_available_spec m (S (size m)) c Hc) as [H|H]; [done|exfalso].
  set (l := map (candidate_at c) (seq 0 (S (size m)))).
  assert (NoDup l) as Hl by (apply candidates_distinct; lia).
  assert ((list_to_set l : gset Z) ⊆ dom m) as Hsub.
  { intros x Hx%elem_of_list_to_set. unfold l in Hx.
    apply list_elem_of_In, in_map_iff in Hx as (i & <- & Hi%in_seq).
    apply elem_of_dom, H. lia. }
  apply subseteq_size in Hsub. rewrite size_list_to_set, size_dom in Hsub by done.
  unfold l in Hsub. rewrite length_map, length_seq in Hsub. lia.
Qed.

(** ** The invariant *)

Definition flights (slot : nat) (l : list (nat * answer)) : list answer :=
  snd <$> filter (fun p => p.1 = slot) l.

(** The completions that reached the registry under an identifier. *)
Fixpoint completions (id : Z) (tr : list event) : list answer :=
  match tr with
  | [] => []
  | ev_complete i a :: tr => if decide (i = id) then a :: completions id tr else completions id tr
  | _ :: tr => completions id tr
  end.

(** The registrations of commands: one per callback. *)
Fixpoint calls (tr : list event) : Z :=
  match tr with
  | [] => 0
  | ev_call _ _ _ :: tr => 1 + calls tr
  | _ :: tr => calls tr
  end.

(** The registration that the host installed last. *)
Fixpoint installed (h : nat) (tr : list event) (reg : option BrowserRegistration)
    : option BrowserRegistration :=
  match tr with
  | [] => reg
  | ev_set h' reg' :: tr => installed h tr (if decide (h' = h) then reg' else reg)
  | _ :: tr => installed h tr reg
  end.

Lemma flights_app slot l k : flights slot (l ++ k) = flights slot l ++ flights slot k.
Proof. unfold flights. by rewrite filter_app, fmap_app. Qed.

Lemma flights_cons slot k a l :
  flights slot ((k, a) :: l) = (if decide (k = slot) then [a] else []) ++ flights slot l.
Proof. unfold flights. rewrite filter_cons. cbn. by destruct (decide _). Qed.

Lemma completions_app id tr tr' :
  completions id (tr ++ tr') = completions id tr ++ completions id tr'.
Proof.
  induction tr as [|e tr IH]; [done|]. destruct e; cbn; try done.
  destruct (decide _); by rewrite IH.
Qed.

Lemma calls_app tr tr' : calls (tr ++ tr') = calls tr + calls tr'.
Proof. induction tr as [|e tr IH]; [done|]. destruct e; cbn; lia. Qed.

Lemma calls_nonneg tr : 0 <= calls tr.
Proof. induction tr as [|e tr IH]; [done|]. destruct e; cbn; lia. Qed.

Lemma installed_app h tr tr' reg :
  installed h (tr ++ tr') reg = installed h tr' (installed h tr reg).
Proof. revert reg. induction tr as [|e tr IH]; intros reg; [done|]. destruct e; cbn; apply IH. Qed.

Lemma host_at_set_host h x s h' :
  host_at (set_host h x s) h' = if decide (h = h') then x else host_at s h'.
Proof.
  unfold host_at, set_host. cbn. destruct (decide (h = h')) as [->|].
  - by rewrite lookup_insert_eq.
  - by rewrite lookup_insert_ne.
Qed.

Definition taken_of (st : stage) : option answer :=
  match st with
  | Releasing t | Cancelling t | Draining t => t
  | _ => None
  end.

(** Where the completion of a command is: its registry entry, its slot, the completions
    on their way to the slot, and the completions that reached the registry. *)
Inductive located (slot : nat) (st : stage)
    : option nat -> option (option answer) -> list answer -> list answer -> Prop :=
  | in_registry :
      taken_of st = None -> located slot st (Some slot) (Some None) [] []
  | in_flight a :
      taken_of st = None -> located slot st None (Some None) [a] [a]
  | in_slot a :
      taken_of st = None -> located slot st None (Some (Some a)) [] [a]
  | has_taken a :
      st = Releasing (Some a) -> located slot st None (Some None) [] [a].

Definition located_in (tr : list event) (s : bridge) (r : running) : Prop :=
  located (rn_slot r) (rn_stage r) (br_pending s !! rn_id r) (br_slots s !! rn_slot r)
    (flights (rn_slot r) (br_flying s)) (completions (rn_id r) tr).

Record inv (tr : list event) (s : bridge) : Prop := {
  inv_next : br_next s = 1 + calls tr;
  inv_pending : forall id slot, br_pending s !! id = Some slot ->
    completions id tr = []
    /\ exists h r, ho_running (host_at s h) = Some r /\ rn_id r = id /\ rn_slot r = slot;
  inv_new_id : forall id, br_next s <= id -> completions id tr = [];
  inv_new_slot : forall slot, (br_fresh s <= slot)%nat -> flights slot (br_flying s) = [];
  inv_once : forall id, (length (completions id tr) <= 1)%nat;
  inv_running : forall h r, ho_running (host_at s h) = Some r ->
    1 <= rn_id r < br_next s /\ (rn_slot r < br_fresh s)%nat
    /\ ho_registration (host_at s h) = Some (rn_registration r)
    /\ located_in tr s r;
  inv_apart : forall h h' r r', ho_running (host_at s h) = Some r ->
    ho_running (host_at s h') = Some r' -> h <> h' ->
    rn_id r <> rn_id r' /\ rn_slot r <> rn_slot r';
  inv_installed : forall h, ho_registration (host_at s h) = installed h tr None;
}.

Lemma inv_init : inv [] bridge_init.
Proof.
  constructor; try done.
  - intros id. cbn. lia.
Qed.

(** The commands of a state, after one host's entry was replaced. *)
Lemma running_set h x s h' r :
  ho_running (host_at (set_host h x s) h') = Some r ->
  (h = h' /\ ho_running x = Some r) \/ (h <> h' /\ ho_running (host_at s h') = Some r).
Proof. rewrite host_at_set_host. destruct (decide (h = h')); eauto. Qed.

Lemma at_stage_id r st : rn_id (at_stage r st) = rn_id r.
Proof. done. Qed.

Lemma at_stage_same r : at_stage r (rn_stage r) = r.
Proof. by destruct r. Qed.

Lemma host_at_set_running h x s h' :
  host_at (set_running h x s) h' =
  if decide (h = h') then Build_host (ho_registration (host_at s h)) x else host_at s h'.
Proof. apply host_at_set_host. Qed.

Lemma located_pending slot st p c f k :
  located slot st (Some p) c f k -> p = slot /\ k = [].
Proof. intros H. by inversion H. Qed.

Lemma located_once slot st p c f k : located slot st p c f k -> (length k <= 1)%nat.
Proof. destruct 1; cbn; lia. Qed.

(** A step of the command [r] of [h], or of its completion: it changes nothing but the
    entry, the slot and the stage of [r]. *)
Lemma inv_touch tr s e s' h r (r' : option stage) :
  inv tr s -> ho_running (host_at s h) = Some r ->
  (forall h', host_at s' h' = host_at (set_running h (at_stage r <$> r') s) h') ->
  br_next s' = br_next s -> br_fresh s' = br_fresh s ->
  calls [e] = 0 -> (forall k reg, installed k [e] reg = reg) ->
  (forall i, i <> rn_id r -> br_pending s' !! i = br_pending s !! i /\ completions i [e] = []) ->
  (forall k, k <> rn_slot r ->
     br_slots s' !! k = br_slots s !! k /\ flights k (br_flying s') = flights k (br_flying s)) ->
  match r' with
  | Some st => located_in (tr ++ [e]) s' (at_stage r st)
  | None => br_pending s' !! rn_id r = None /\ completions (rn_id r) [e] = []
  end ->
  inv (tr ++ [e]) s'.
Proof.
  intros I Hr Hhost Hnext Hfresh Hcalls Hinst Hids Hslots Hloc.
  destruct (inv_running _ _ I _ _ Hr) as (Hid & Hslot & Hreg & _).
  assert (Hrun : forall h' q, ho_running (host_at s' h') = Some q ->
            (h' = h /\ exists st, r' = Some st /\ q = at_stage r st)
            \/ (h' <> h /\ ho_running (host_at s h') = Some q
                /\ rn_id q <> rn_id r /\ rn_slot q <> rn_slot r)).
  { intros h' q Hq. rewrite Hhost in Hq. apply running_set in Hq as [[-> Hq]|[Hne Hq]].
    - left. cbn in Hq. destruct r' as [st|]; [|done]. injection Hq as <-. eauto.
    - right. split; [done|]. split; [done|]. by apply (inv_apart _ _ I h' h). }
  assert (Hc : forall i, i <> rn_id r -> completions i (tr ++ [e]) = completions i tr).
  { intros i Hi. rewrite completions_app, (proj2 (Hids i Hi)). apply app_nil_r. }
  constructor.
  - rewrite Hnext, (inv_next _ _ I), calls_app, Hcalls. lia.
  - intros i k Hk. destruct (decide (i = rn_id r)) as [->|Hi].
    + destruct r' as [st|]; [|destruct Hloc as [Hloc _]; congruence].
      unfold located_in in Hloc. cbn [rn_id rn_slot at_stage] in Hloc. rewrite Hk in Hloc.
      apply located_pending in Hloc as [-> ->]. split; [done|]. exists h, (at_stage r st). split; [|done].
      by rewrite Hhost, host_at_set_running, decide_True.
    + rewrite (proj1 (Hids i Hi)) in Hk. apply (inv_pending _ _ I) in Hk as (Hk & h0 & r0 & H0 & <- & H2).
      rewrite Hc by done. split; [done|]. exists h0, r0. split; [|done].
      rewrite Hhost, host_at_set_running. destruct (decide (h = h0)) as [->|]; [congruence|done].
  - intros i Hi. rewrite Hnext in Hi. rewrite Hc by lia. by apply (inv_new_id _ _ I).
  - intros k Hk. rewrite Hfresh in Hk. rewrite (proj2 (Hslots k ltac:(lia))).
    by apply (inv_new_slot _ _ I).
  - intros i. destruct (decide (i = rn_id r)) as [->|Hi].
    + destruct r' as [st|]; [by eapply located_once, Hloc|].
      rewrite completions_app, (proj2 Hloc), app_nil_r. apply (inv_once _ _ I).
    + rewrite Hc by done. apply (inv_once _ _ I).
  - intros h' q Hq. rewrite Hnext, Hfresh.
    apply Hrun in Hq as [(-> & st & -> & ->)|(Hne & Hq & Hqi & Hqs)].
    + repeat split; try apply Hid; try done. by rewrite Hhost, host_at_set_running, decide_True.
    + destruct (inv_running _ _ I _ _ Hq) as (? & ? & ? & Hl). split; [done|]. split; [done|].
      split; [by rewrite Hhost, host_at_set_running, decide_False|].
      unfold located_in. rewrite (proj1 (Hids _ Hqi)), (Hc _ Hqi).
      by rewrite (proj1 (Hslots _ Hqs)), (proj2 (Hslots _ Hqs)).
  - intros h1 h2 r1 r2 H1 H2 Hne.
    apply Hrun in H1 as [(-> & st1 & -> & ->)|(Hn1 & H1 & ? & ?)];
      apply Hrun in H2 as [(-> & st2 & ? & ->)|(Hn2 & H2 & ? & ?)]; try congruence.
    + cbn. split; by apply not_eq_sym.
    + by split.
    + by apply (inv_apart _ _ I h1 h2).
  - intros k. rewrite installed_app, Hinst, Hhost, host_at_set_running.
    rewrite <- (inv_installed _ _ I). by destruct (decide (h = k)) as [->|].
Qed.

(** A step that is invisible to every command. *)
Lemma inv_quiet tr s e :
  inv tr s -> calls [e] = 0 -> (forall k reg, installed k [e] reg = reg) ->
  (forall i, completions i [e] = []) -> inv (tr ++ [e]) s.
Proof.
  intros I Hcalls Hinst Hc.
  assert (Hc' : forall i, completions i (tr ++ [e]) = completions i tr)
    by (intros i; by rewrite completions_app, Hc, app_nil_r).
  destruct I. constructor; try done.
  - rewrite calls_app, Hcalls. lia.
  - intros i k Hk. rewrite Hc'. by apply inv_pending0.
  - intros i Hi. rewrite Hc'. by apply inv_new_id0.
  - intros i. by rewrite Hc'.
  - intros h r Hr. destruct (inv_running0 h r Hr) as (? & ? & ? & ?).
    unfold located_in. by rewrite Hc'.
  - intros h. by rewrite installed_app, Hinst.
Qed.

Lemma try_put_other slot a m k : k <> slot -> try_put slot a m !! k = m !! k.
Proof. intros H. unfold try_put. repeat case_match; try done. by rewrite lookup_insert_ne. Qed.

(** A completion on its way arrives: at the slot of a command, or at one that nobody waits
    for any more. *)
Lemma inv_put tr s slot a l1 l2 :
  inv tr s -> br_flying s = l1 ++ (slot, a) :: l2 ->
  inv (tr ++ [ev_internal]) (complete_end slot a (l1 ++ l2) s).
Proof.
  intros I Hf. apply inv_quiet; [|done..].
  assert (Hfl : forall k, k <> slot -> flights k (br_flying s) = flights k (l1 ++ l2)).
  { intros k Hk. rewrite Hf, !flights_app, flights_cons, decide_False by congruence. done. }
  destruct I. constructor; try done.
  - intros k Hk. cbn [complete_end br_fresh br_flying] in *.
    destruct (decide (k = slot)) as [->|].
    + specialize (inv_new_slot0 slot Hk).
      rewrite Hf, flights_app, flights_cons, decide_True in inv_new_slot0 by done.
      by apply app_eq_nil in inv_new_slot0 as [_ ?].
    + rewrite <- Hfl by done. by apply inv_new_slot0.
  - intros h r Hr. destruct (inv_running0 h r Hr) as (Hid & Hk & Hreg & Hl).
    repeat (split; [done|]). unfold located_in in *. cbn [complete_end br_pending br_slots br_flying].
    destruct (decide (rn_slot r = slot)) as [E|]; [|by rewrite <- Hfl, try_put_other].
    rewrite E in *. rewrite Hf, flights_app, flights_cons, decide_True in Hl by done.
    rewrite flights_app. unfold try_put.
    inversion Hl as [Ht E1 E2 E3 E4|b Ht E1 E2 E3 E4|b Ht E1 E2 E3 E4|b Ht E1 E2 E3 E4];
      try (symmetry in E3; by apply app_eq_nil in E3 as [_ ?]).
    rewrite lookup_insert_eq.
    assert (flights slot l1 = [] /\ flights slot l2 = [] /\ a = b) as (-> & -> & ->).
    { destruct (flights slot l1) as [|x l]; cbn in E3; [|by destruct l].
      injection E3 as -> E3. by rewrite <- E3. }
    by constructor.
Qed.

Lemma inv_set tr s h reg :
  inv tr s -> ho_running (host_at s h) = None ->
  inv (tr ++ [ev_set h reg]) (set_host h (Build_host reg None) s).
Proof.
  intros I Hno.
  assert (Hc : forall i, completions i (tr ++ [ev_set h reg]) = completions i tr)
    by (intros i; by rewrite completions_app, app_nil_r).
  assert (Hrun : forall h' r, ho_running (host_at (set_host h (Build_host reg None) s) h') = Some r ->
            h <> h' /\ ho_running (host_at s h') = Some r)
    by (intros h' r [[_ ?]|?]%running_set; done).
  destruct I. constructor.
  - rewrite calls_app. cbn. rewrite inv_next0. lia.
  - intros i k Hk. rewrite Hc. apply inv_pending0 in Hk as (? & h0 & r0 & H0 & ?).
    split; [done|]. exists h0, r0. split; [|done].
    rewrite host_at_set_host. destruct (decide (h = h0)); [congruence|done].
  - intros i Hi. rewrite Hc. by apply inv_new_id0.
  - done.
  - intros i. by rewrite Hc.
  - intros h' r [Hne Hr]%Hrun. destruct (inv_running0 h' r Hr) as (? & ? & ? & ?).
    unfold located_in. rewrite Hc. rewrite host_at_set_host, decide_False by done. done.
  - intros h1 h2 r1 r2 [_ H1]%Hrun [_ H2]%Hrun. by apply inv_apart0.
  - intros k. rewrite installed_app, host_at_set_host. cbn.
    destruct (decide (h = k)); [done|]. by rewrite <- inv_installed0.
Qed.

Lemma next_available_hit {A} (m : gmap Z A) c :
  m !! c = None -> nextAvailableBrowserPendingId c m = c.
Proof. intros H. unfold nextAvailableBrowserPendingId. cbn. by rewrite H. Qed.

Lemma inv_call tr s h reg id slot s' :
  inv tr s -> calls tr < maxWord64 - 1 -> host_at s h = Build_host (Some reg) None ->
  registerBrowserPending s = (id, slot, s') ->
  inv (tr ++ [ev_call h reg id])
    (set_running h (Some (Build_running reg id slot Calling)) s').
Proof.
  intros I Hb Hh Hreg.
  assert (Hfree : br_pending s !! br_next s = None).
  { destruct (br_pending s !! br_next s) as [k|] eqn:E; [|done].
    apply (inv_pending _ _ I) in E as (_ & h0 & r0 & H0 & Hi & _).
    apply (inv_running _ _ I) in H0 as ((_ & Hlt) & _). lia. }
  unfold registerBrowserPending in Hreg. rewrite next_available_hit in Hreg by done.
  injection Hreg as <- <- <-.
  assert (Hinc : incrementBrowserPendingId (br_next s) = br_next s + 1).
  { unfold incrementBrowserPendingId. rewrite (inv_next _ _ I).
    destruct (Z.eqb_spec (1 + calls tr) maxWord64); [lia|done]. }
  rewrite Hinc. set (e := ev_call h reg (br_next s)).
  assert (Hc : forall i, completions i (tr ++ [e]) = completions i tr)
    by (intros i; by rewrite completions_app, app_nil_r).
  set (r0 := Build_running reg (br_next s) (br_fresh s) Calling).
  match goal with |- inv _ (set_running h _ ?x) => set (s1 := x) end.
  assert (Hat : forall h', host_at s1 h' = host_at s h') by done.
  assert (Hrun : forall h' r, ho_running (host_at (set_running h (Some r0) s1) h') = Some r ->
            (h = h' /\ r = r0)
            \/ (h <> h' /\ ho_running (host_at s h') = Some r
                /\ rn_id r <> br_next s /\ rn_slot r <> br_fresh s)).
  { intros h' r [[-> [= <-]]|[Hne Hr]]%running_set; [by left|right].
    split; [done|]. split; [done|].
    apply (inv_running _ _ I) in Hr as (? & ? & _). split; lia. }
  constructor.
  - cbn. rewrite calls_app. cbn. rewrite (inv_next _ _ I). lia.
  - intros i k Hk. rewrite Hc. cbn [set_running set_host br_pending s1] in Hk.
    destruct (decide (br_next s = i)) as [<-|Hi].
    + rewrite lookup_insert_eq in Hk. injection Hk as <-.
      split; [by apply (inv_new_id _ _ I)|]. exists h, r0.
      by rewrite host_at_set_running, decide_True.
    + rewrite lookup_insert_ne in Hk by done.
      apply (inv_pending _ _ I) in Hk as (? & h1 & r1 & H1 & ?). split; [done|].
      exists h1, r1. split; [|done]. rewrite host_at_set_running.
      destruct (decide (h = h1)) as [->|]; [|done]. rewrite Hh in H1. done.
  - intros i Hi. rewrite Hc. cbn in Hi. apply (inv_new_id _ _ I). lia.
  - intros k Hk. cbn in Hk. apply (inv_new_slot _ _ I). lia.
  - intros i. rewrite Hc. apply (inv_once _ _ I).
  - intros h' r [[<- ->]|(Hne & Hr & Hi & Hk)]%Hrun.
    + rewrite host_at_set_running, decide_True by done. cbn [rn_id rn_slot rn_registration r0].
      split; [cbn; pose proof (calls_nonneg tr); rewrite (inv_next _ _ I); lia|].
      split; [cbn; lia|]. split; [cbn; by rewrite Hat, Hh|].
      unfold located_in. cbn [set_running set_host br_pending br_slots br_flying s1 rn_id rn_slot r0].
      rewrite !lookup_insert_eq, Hc, (inv_new_id _ _ I), (inv_new_slot _ _ I) by lia.
      by constructor.
    + destruct (inv_running _ _ I _ _ Hr) as (? & ? & ? & Hl).
      rewrite host_at_set_running, decide_False by done.
      split; [cbn; lia|]. split; [cbn; lia|]. split; [done|].
      unfold located_in in *. cbn [set_running set_host br_pending br_slots br_flying s1].
      rewrite Hc, !lookup_insert_ne by congruence. done.
  - intros h1 h2 r1 r2 H1 H2 Hne.
    apply Hrun in H1 as [[-> ->]|(Hn1 & H1 & ? & ?)];
      apply Hrun in H2 as [[? ->]|(Hn2 & H2 & ? & ?)]; try congruence.
    + cbn. split; by apply not_eq_sym.
    + by split.
    + by apply (inv_apart _ _ I h1 h2).
  - intros k. rewrite installed_app, host_at_set_running. cbn [installed e].
    rewrite <- (inv_installed _ _ I). destruct (decide (h = k)) as [->|]; [|done].
    cbn. by rewrite Hat.
Qed.

Lemma delete_other {A} (m : gmap Z A) i j : j <> i -> delete i m !! j = m !! j.
Proof. intros H. by rewrite lookup_delete_ne. Qed.

(** The stage and the entry of a command that a step is about. *)
Lemma inv_located tr s h r :
  inv tr s -> ho_running (host_at s h) = Some r -> located_in tr s r.
Proof. intros I Hr. apply (inv_running _ _ I) in Hr as (_ & _ & _ & Hl). done. Qed.

(** A stage change that keeps what the command has taken. *)
Lemma located_stage slot st st' p c f k :
  located slot st p c f k -> taken_of st = None -> taken_of st' = None ->
  located slot st' p c f k.
Proof.
  intros H Ht Ht'. destruct H as [?|?|?|a ->]; by constructor.
Qed.

Lemma taken_none st slot p c f k :
  located slot st p c f k -> (forall a, st <> Releasing (Some a)) -> taken_of st = None.
Proof. intros H Hs. destruct H as [| | |a E]; try done. by destruct (Hs a). Qed.

(** A step that only moves a command to another stage. *)
Lemma inv_stage tr s e h r st :
  inv tr s -> ho_running (host_at s h) = Some r ->
  calls [e] = 0 -> (forall k reg, installed k [e] reg = reg) ->
  (forall i, completions i [e] = []) ->
  (forall a, rn_stage r <> Releasing (Some a)) ->
  (taken_of (rn_stage r) = None -> taken_of st = None) ->
  inv (tr ++ [e]) (set_running h (Some (at_stage r st)) s).
Proof.
  intros I Hr Hcalls Hinst Hc Hs Ht.
  apply (inv_touch tr s e _ h r (Some st)); try done.
  pose proof (inv_located _ _ _ _ I Hr) as Hl. unfold located_in in *.
  rewrite completions_app, Hc, app_nil_r. cbn [rn_id rn_slot rn_stage at_stage].
  pose proof (taken_none _ _ _ _ _ _ Hl Hs). eapply located_stage; eauto.
Qed.

Lemma try_flights slot a l k : k <> slot -> flights k ((slot, a) :: l) = flights k l.
Proof. intros H. by rewrite flights_cons, decide_False by congruence. Qed.

Lemma browserPendingIsRegistered_false id s :
  browserPendingIsRegistered id s = false -> br_pending s !! id = None.
Proof.
  unfold browserPendingIsRegistered. rewrite bool_decide_eq_false, <- eq_None_not_Some. done.
Qed.

Lemma inv_complete tr s id slot a :
  inv tr s -> br_pending s !! id = Some slot ->
  inv (tr ++ [ev_complete id a]) (complete_begin id slot a s).
Proof.
  intros I Hp. destruct (inv_pending _ _ I _ _ Hp) as (Hnone & h & r & Hr & <- & <-).
  apply (inv_touch tr s _ _ h r (Some (rn_stage r))); try done.
  - intros h'. rewrite host_at_set_running. cbn [fmap option_fmap option_map]. rewrite at_stage_same.
    destruct (decide (h = h')) as [<-|]; [|done].
    transitivity (host_at s h); [done|]. rewrite <- Hr. by destruct (host_at s h).
  - intros i Hi. cbn [complete_begin br_pending completions]. rewrite delete_other by done.
    by rewrite decide_False by congruence.
  - intros k Hk. cbn [complete_begin br_slots br_flying]. by rewrite try_flights.
  - pose proof (inv_located _ _ _ _ I Hr) as Hl. unfold located_in in *.
    cbn [complete_begin br_pending br_slots br_flying]. rewrite at_stage_same.
    rewrite lookup_delete_eq, completions_app, flights_cons, Hnone. cbn [completions].
    rewrite !decide_True by done. rewrite Hp, Hnone in Hl.
    inversion Hl. by constructor.
Qed.

(** A command leaves: its entry is gone. *)
Lemma inv_leave tr s e h r s' :
  inv tr s -> ho_running (host_at s h) = Some r ->
  calls [e] = 0 -> (forall k reg, installed k [e] reg = reg) ->
  (forall i, completions i [e] = []) ->
  br_next s' = br_next s -> br_fresh s' = br_fresh s -> br_hosts s' = br_hosts s ->
  br_flying s' = br_flying s ->
  br_pending s' = delete (rn_id r) (br_pending s) ->
  (forall k, k <> rn_slot r -> br_slots s' !! k = br_slots s !! k) ->
  inv (tr ++ [e]) (set_running h None s').
Proof.
  intros I Hr Hcalls Hinst Hc Hn Hf Hh Hfl Hp Hs.
  apply (inv_touch tr s e _ h r None); try done.
  - intros h'. rewrite !host_at_set_running. unfold host_at. by rewrite Hh.
  - intros i Hi. split; [|apply Hc]. cbn. rewrite Hp. by apply delete_other.
  - intros k Hk. cbn. rewrite Hfl. split; [by apply Hs|done].
  - split; [|apply Hc]. cbn. by rewrite Hp, lookup_delete_eq.
Qed.

Lemma inv_take tr s h r a :
  inv tr s -> ho_running (host_at s h) = Some r -> rn_stage r = Waiting ->
  br_slots s !! rn_slot r = Some (Some a) ->
  inv (tr ++ [ev_internal])
    (set_running h (Some (at_stage r (Releasing (Some a)))) (empty_slot (rn_slot r) s)).
Proof.
  intros I Hr Hst Hfull. apply (inv_touch tr s _ _ h r (Some (Releasing (Some a)))); try done.
  - intros k Hk. cbn. by rewrite lookup_insert_ne.
  - pose proof (inv_located _ _ _ _ I Hr) as Hl. unfold located_in in *.
    cbn [set_running set_host empty_slot br_pending br_slots br_flying rn_id rn_slot rn_stage at_stage].
    rewrite lookup_insert_eq, completions_app, app_nil_r.
    rewrite Hfull in Hl. inversion Hl. by apply has_taken.
Qed.

Lemma inv_step tr s e s' :
  inv tr s -> calls (tr ++ [e]) < maxWord64 -> step s e s' -> inv (tr ++ [e]) s'.
Proof.
  intros I Hb Hstep. rewrite calls_app in Hb. destruct Hstep.
  - by apply inv_set.
  - eapply inv_call; try done. cbn in Hb. lia.
  - by apply (inv_leave tr s _ h r).
  - apply inv_stage; try done. by rewrite H0.
  - by apply inv_complete.
  - by apply inv_quiet.
  - by apply inv_put.
  - by apply inv_take.
  - apply inv_stage; try done. by rewrite H0.
  - apply (inv_leave tr s _ h r); try done. apply browserPendingIsRegistered_false in H1.
    by rewrite delete_id.
  - apply inv_stage; try done.
    + intros a Ha. pose proof (inv_located _ _ _ _ I H) as Hl. unfold located_in in Hl.
      unfold browserPendingIsRegistered in H1. apply bool_decide_eq_true in H1 as [p Hp].
      rewrite Hp, Ha in Hl. inversion Hl. done.
    + rewrite H0. done.
  - apply inv_stage; try done; [by rewrite H0|]. by rewrite H0.
  - apply (inv_leave tr s _ h r); try done.
    + pose proof (inv_located _ _ _ _ I H) as Hl. unfold located_in in Hl.
      rewrite H1 in Hl. inversion Hl. cbn. by rewrite delete_id.
    + intros k Hk. cbn. by rewrite lookup_insert_ne.
Qed.

Lemma reach_inv tr s : reach tr s -> calls tr < maxWord64 -> inv tr s.
Proof.
  induction 1 as [|tr s e s' Hr IH Hs]; intros Hb; [apply inv_init|].
  eapply inv_step; [|done|done]. apply IH. rewrite calls_app in Hb.
  pose proof (calls_nonneg [e]). lia.
Qed.

(** ** What every execution guarantees *)

(** A command that was called has ended, or is running under its identifier and
    registration. *)
Definition ended (h : nat) (id : Z) (tr : list event) : Prop :=
  (exists t, In (ev_return h id t) tr) \/ (exists status, In (ev_reject h id status) tr).

Definition running_as (h : nat) (reg : BrowserRegistration) (id : Z) (s : bridge) : Prop :=
  exists r, ho_running (host_at s h) = Some r /\ rn_registration r = reg /\ rn_id r = id.

Lemma ended_app h id tr tr' : ended h id tr -> ended h id (tr ++ tr').
Proof. intros [[t H]|[t H]]; [left|right]; exists t; apply in_or_app; by left. Qed.

Lemma ended_last h id tr e :
  (exists t, e = ev_return h id t) \/ (exists status, e = ev_reject h id status) ->
  ended h id (tr ++ [e]).
Proof. intros [[t ->]|[t ->]]; [left|right]; exists t; apply in_or_app; right; by left. Qed.

(** A running command keeps running, or the step ends it. *)
Lemma step_running s e s' h reg id :
  step s e s' -> running_as h reg id s ->
  running_as h reg id s'
  \/ (exists t, e = ev_return h id t) \/ (exists status, e = ev_reject h id status).
Proof.
  intros Hstep (r & Hr & Hreg & Hid). unfold running_as.
  destruct Hstep as [h' ? H|h' ? ? ? ? H E|h' q ? H|h' q H| | | |h' q ? H|h' q H|h' q ? H
                    |h' q ? H|h' q ? H|h' q ? ? H]; try (left; by exists r);
    destruct (decide (h' = h)) as [->|Hne].
  all: try (left; exists r; split; [|done];
            rewrite ?host_at_set_running, ?host_at_set_host, decide_False by done; done).
  all: try (rewrite Hr in H; injection H as <-; subst; first
         [ right; solve [eauto]
         | left; rewrite host_at_set_running, decide_True by done; eexists;
           split; [reflexivity|]; split; reflexivity ]).
  - congruence.
  - rewrite H in Hr. done.
  - left. exists r. split; [|done]. rewrite host_at_set_running, decide_False by done.
    unfold registerBrowserPending in E. by injection E as _ _ <-.
Qed.

Lemma calls_accounted tr s :
  reach tr s -> forall h reg id, In (ev_call h reg id) tr -> running_as h reg id s \/ ended h id tr.
Proof.
  induction 1 as [|tr s e s' Hr IH Hs]; intros h reg id Hin; [done|].
  apply in_app_or in Hin as [Hin|[->|[]]].
  - destruct (IH _ _ _ Hin) as [Hrun|He]; [|right; by apply ended_app].
    destruct (step_running _ _ _ _ _ _ Hs Hrun) as [?|He]; [by left|right].
    by apply ended_last.
  - left. inversion Hs; subst. eexists. rewrite host_at_set_running, decide_True by done.
    split; [reflexivity|]. done.
Qed.

Lemma running_called tr s :
  reach tr s -> forall h r, ho_running (host_at s h) = Some r ->
  In (ev_call h (rn_registration r) (rn_id r)) tr.
Proof.
  assert (Hset : forall s h x h' r (P : Prop), ho_running (host_at (set_running h x s) h') = Some r ->
            (h = h' -> x = Some r -> P) -> (ho_running (host_at s h') = Some r -> P) -> P).
  { intros s0 h0 x h' r P [[-> H]|[Hne H]]%running_set H1 H2; eauto. }
  induction 1 as [|tr s e s' Hr IH Hs]; intros h r Hrun; [done|].
  apply in_or_app. destruct Hs.
  all: try (left; by apply IH).
  all: try (eapply Hset; [exact Hrun| |]; [intros <- Hx; left; first [discriminate Hx
              | injection Hx as <-; match goal with H1 : ho_running (host_at _ ?k) = Some ?q |- _ =>
                  apply (IH k q H1) end]|intros; left; by apply IH]).
  - apply running_set in Hrun as [[_ ?]|[_ ?]]; [done|]. left. by apply IH.
  - eapply Hset; [exact Hrun| |].
    + intros <- [= <-]. right. by left.
    + intros H1. left. apply IH. unfold registerBrowserPending in H0. by injection H0 as _ _ <-.
Qed.

(** C21: whatever the host does - completing early, late, twice, under identifiers that are
    not pending - at most one completion per command reaches the registry; the result that
    a command returns is the one completed under its own identifier; and a command that
    waits is either still registered, for the host to complete, or its completion has
    arrived or is on its way.  The bound on commands is that of the identifiers: 2^64 - 2. *)
Theorem browser_completes_once tr s :
  reach tr s -> calls tr < maxWord64 ->
  (forall id, (length (completions id tr) <= 1)%nat)
  /\ (forall h id a, In (ev_return h id (Some a)) tr -> completions id tr = [a])
  /\ (forall h r, ho_running (host_at s h) = Some r ->
        rn_stage r = Waiting \/ (exists t, rn_stage r = Draining t) ->
        br_pending s !! rn_id r = Some (rn_slot r)
        \/ exists a, completions (rn_id r) tr = [a]
             /\ (In (rn_slot r, a) (br_flying s)
                 \/ br_slots s !! rn_slot r = Some (Some a))).
Proof.
  intros Hr Hb. pose proof (reach_inv _ _ Hr Hb) as I.
  split; [apply (inv_once _ _ I)|]. split.
  - clear I. induction Hr as [|tr s e s' Hr IH Hs]; [done|]. intros h id a Hin.
    assert (Hb' : calls tr < maxWord64)
      by (rewrite calls_app in Hb; pose proof (calls_nonneg [e]); lia).
    pose proof (reach_inv _ _ Hr Hb') as I.
    pose proof (inv_once _ _ (inv_step _ _ _ _ I Hb Hs) id) as Hone.
    rewrite completions_app in *. apply in_app_or in Hin as [Hin|[->|[]]].
    + rewrite (IH Hb' _ _ _ Hin) in *. destruct (completions id [e]); [done|cbn in Hone; lia].
    + inversion Hs as [| | | | | | | | |h0 r t Hrun Hst Hreg| | |h0 r t a0 Hrun Hst Hfull]; subst.
      * pose proof (inv_located _ _ _ _ I Hrun) as Hl. unfold located_in in Hl.
        rewrite Hst in Hl. inversion Hl; subst; try done. cbn. congruence.
      * pose proof (inv_located _ _ _ _ I Hrun) as Hl. unfold located_in in Hl.
        rewrite Hst in Hl. inversion Hl; subst; done.
  - intros h r Hrun Hst. pose proof (inv_located _ _ _ _ I Hrun) as Hl. unfold located_in in Hl.
    inversion Hl as [Ht E1 E2 E3 E4|a Ht E1 E2 E3 E4|a Ht E1 E2 E3 E4|a Ht E1 E2 E3 E4].
    + by left.
    + right. exists a. split; [done|left].
      assert (a ∈ flights (rn_slot r) (br_flying s)) as Ha by (rewrite <- E3; set_solver).
      unfold flights in Ha. apply list_elem_of_fmap in Ha as ([k b] & -> & Hkb).
      apply list_elem_of_filter in Hkb as [Hk Hkb]. cbn in Hk. subst k.
      by apply list_elem_of_In.
    + right. exists a. split; [done|by right].
    + rewrite Ht in Hst. by destruct Hst as [?|[? ?]].
Qed.

(** A host's callbacks are called only as the registration that is installed at that
    moment; a cancellation names the identifier of a command that was called through the
    same registration; and by the time a registration is replaced every command of the
    host has ended, so that no command that was called through it can still use it. *)
Theorem browser_registration_current tr s e s' :
  reach tr s -> calls tr < maxWord64 -> step s e s' ->
  match e with
  | ev_call h reg id => installed h tr None = Some reg
  | ev_cancel h reg id => installed h tr None = Some reg /\ In (ev_call h reg id) tr
  | ev_set h _ => forall reg id, In (ev_call h reg id) tr -> ended h id tr
  | _ => True
  end.
Proof.
  intros Hr Hb Hs. pose proof (reach_inv _ _ Hr Hb) as I.
  destruct Hs as [h reg Hno|h reg id slot s1 Hh Hreg| | | | | | | | | |h r t Hrun Hst|]; try done.
  - intros reg0 id Hin. destruct (calls_accounted _ _ Hr _ _ _ Hin) as [(r & Hrun & _)|?]; [|done].
    congruence.
  - rewrite <- (inv_installed _ _ I), Hh. done.
  - destruct (inv_running _ _ I _ _ Hrun) as (_ & _ & Hreg & _).
    split; [by rewrite <- (inv_installed _ _ I)|]. by apply (running_called _ _ Hr).
Qed.

(** The runtime's own steps: neither the host nor a new command takes part. *)
Definition runtime_event (e : event) : Prop :=
  e = ev_internal \/ exists h id t, e = ev_return h id t.

Inductive runtime_steps : bridge -> list event -> bridge -> Prop :=
  | runtime_done s : runtime_steps s [] s
  | runtime_step s e s1 tr s2 :
      runtime_event e -> step s e s1 -> runtime_steps s1 tr s2 -> runtime_steps s (e :: tr) s2.

Lemma returns_from_slot s h r a :
  ho_running (host_at s h) = Some r -> rn_stage r = Waiting ->
  br_pending s !! rn_id r = None -> br_slots s !! rn_slot r = Some (Some a) ->
  exists s', runtime_steps s [ev_internal; ev_return h (rn_id r) (Some a)] s'.
Proof.
  intros Hrun Hst Hp Hs. eexists. eapply runtime_step; [by left|by eapply step_take|].
  set (s1 := set_running h _ _).
  assert (H1 : ho_running (host_at s1 h) = Some (at_stage r (Releasing (Some a))))
    by (unfold s1; by rewrite host_at_set_running, decide_True).
  eapply (runtime_step _ (ev_return h (rn_id r) (Some a))); [right; eauto| |apply runtime_done].
  apply (step_release s1 h (at_stage r (Releasing (Some a)))); [done..|].
  unfold browserPendingIsRegistered. cbn. by rewrite Hp.
Qed.

(** A command whose completion has reached the registry always returns it: three of
    the runtime's own steps are enough, without the host. *)
Theorem browser_command_returns tr s h r a :
  reach tr s -> calls tr < maxWord64 ->
  ho_running (host_at s h) = Some r -> rn_stage r = Waiting -> completions (rn_id r) tr = [a] ->
  exists tr' s', runtime_steps s tr' s' /\ In (ev_return h (rn_id r) (Some a)) tr'
    /\ (length tr' <= 3)%nat.
Proof.
  intros Hr Hb Hrun Hst Hc. pose proof (reach_inv _ _ Hr Hb) as I.
  pose proof (inv_located _ _ _ _ I Hrun) as Hl. unfold located_in in Hl. rewrite Hc in Hl.
  inversion Hl as [|b Ht E1 E2 E3 E4|b Ht E1 E2 E3 E4|b Ht]; subst.
  - assert (exists l1 l2, br_flying s = l1 ++ (rn_slot r, a) :: l2) as (l1 & l2 & Hf).
    { assert (a ∈ flights (rn_slot r) (br_flying s)) as Ha by (rewrite <- E3; set_solver).
      unfold flights in Ha. apply list_elem_of_fmap in Ha as ([k b] & -> & Hkb).
      apply list_elem_of_filter in Hkb as [Hk Hkb]. cbn in Hk. subst k.
      by apply list_elem_of_split in Hkb. }
    destruct (returns_from_slot (complete_end (rn_slot r) a (l1 ++ l2) s) h r a) as [s' Hs'];
      [done..| |].
    + cbn. unfold try_put. rewrite <- E2. by rewrite lookup_insert_eq.
    + exists (ev_internal :: [ev_internal; ev_return h (rn_id r) (Some a)]), s'.
      split; [|split; [cbn; auto|cbn; lia]].
      eapply runtime_step; [by left|by eapply step_put|done].
  - destruct (returns_from_slot s h r a) as [s' Hs']; [done..|].
    eexists _, s'. split; [done|]. split; [cbn; auto|cbn; lia].
  - rewrite Ht in Hst. done.
Qed.

(** An execution: the host installs its callbacks, a command is called, the host completes
    before its callback returns, and again with the same identifier. *)
Definition demo_registration : BrowserRegistration := Build_BrowserRegistration 1 2 3.

Definition demo_completion : answer := inl (txt "done").

Definition demo_trace : list event :=
  [ev_set 0 (Some demo_registration); ev_call 0 demo_registration 1;
   ev_complete 1 demo_completion; ev_ignore 1 demo_completion; ev_accept 0 1].

Lemma browser_demo_reach :
  exists s, reach demo_trace s
    /\ ho_running (host_at s 0) = Some (Build_running demo_registration 1 0 Waiting)
    /\ br_pending s !! 1 = None.
Proof.
  eexists. split; [|split].
  - unfold demo_trace.
    refine (reach_step [_; _; _; _] _ _ _ (reach_step [_; _; _] _ _ _ (reach_step [_; _] _ _ _
      (reach_step [_] _ _ _ (reach_step [] _ _ _ reach_init _) _) _) _) _).
    + by apply step_set.
    + eapply step_call; vm_compute; reflexivity.
    + eapply (step_complete _ 1 0%nat). vm_compute. reflexivity.
    + apply step_ignore. vm_compute. reflexivity.
    + eapply (step_accept _ 0 (Build_running demo_registration 1 0 Calling)); vm_compute; reflexivity.
  - vm_compute. reflexivity.
  - vm_compute. reflexivity.
Qed.

Lemma browser_completes_once_witness :
  exists s, reach demo_trace s /\ completions 1 demo_trace = [demo_completion]
    /\ (forall id, (length (completions id demo_trace) <= 1)%nat).
Proof.
  destruct browser_demo_reach as (s & Hr & _). exists s. split; [done|]. split; [done|].
  apply (browser_completes_once demo_trace s Hr). reflexivity.
Defined.

Lemma browser_registration_current_witness :
  exists s, reach demo_trace s
    /\ forall s', step s (ev_set 0 None) s' ->
         forall reg id, In (ev_call 0 reg id) demo_trace -> ended 0 id demo_trace.
Proof.
  destruct browser_demo_reach as (s & Hr & _). exists s. split; [done|]. intros s' Hs.
  apply (browser_registration_current demo_trace s (ev_set 0 None) s' Hr); [reflexivity|done].
Defined.

Lemma browser_command_returns_witness :
  exists s tr' s', reach demo_trace s /\ runtime_steps s tr' s'
    /\ In (ev_return 0 1 (Some demo_completion)) tr'.
Proof.
  destruct browser_demo_reach as (s & Hr & Hrun & _).
  destruct (browser_command_returns demo_trace s 0 _ demo_completion Hr eq_refl Hrun eq_refl
              eq_refl) as (tr' & s' & Hs & Hin & _).
  by exists s, tr', s'.
Defined.
