(* ===== verification/SessionObservation.v ===== *)
(** * Session observation

    A host application can watch a session that another process runs
    ([ha_session_observation_start], [_cancel], [_destroy] of HaskellAgentBridge.h).  One
    worker turns the frames that it receives into callbacks, and ends with one terminal
    callback (SessionObservationBridge.hs).  This file has the header's event kinds and the
    two sides of its contract as executable definitions, a monitor of the callback order
    ([protocol_step]) and a consumer that commits at READY ([consume]), and the worker as a
    step relation in which cancellation, destruction and failures of the connection can
    come between any two callbacks. *)

From stdpp Require Import base tactics option list strings.
From Stdlib Require Import ZArith Lia.
From coqutil Require Import Byte.
From S2P Require Import Prelude Utf8.
#[local] Open Scope Z_scope.

(** ** The header *)

Inductive ha_session_observation_kind :=
  | HA_SESSION_OBSERVATION_RESET
  | HA_SESSION_OBSERVATION_READY
  | HA_SESSION_OBSERVATION_TEXT
  | HA_SESSION_OBSERVATION_REASONING
  | HA_SESSION_OBSERVATION_STATUS
  | HA_SESSION_OBSERVATION_TOOL_STARTED
  | HA_SESSION_OBSERVATION_TOOL_FINISHED
  | HA_SESSION_OBSERVATION_PERSISTED
  | HA_SESSION_OBSERVATION_TOOL_OUTPUT
  | HA_SESSION_OBSERVATION_TOOL_RETRACTED
  | HA_SESSION_OBSERVATION_RESPONSE_RESTARTED
  | HA_SESSION_OBSERVATION_RESPONSE_DISCARDED
  | HA_SESSION_OBSERVATION_RESPONSE_FAILED
  | HA_SESSION_OBSERVATION_UNAVAILABLE
  | HA_SESSION_OBSERVATION_DISCONNECTED
  | HA_SESSION_OBSERVATION_CANCELLED
  | HA_SESSION_OBSERVATION_FAILURE.

Definition ha_session_observation_kind_of (z : Z) : option ha_session_observation_kind :=
  match z with
  | 1 => Some HA_SESSION_OBSERVATION_RESET
  | 2 => Some HA_SESSION_OBSERVATION_READY
  | 3 => Some HA_SESSION_OBSERVATION_TEXT
  | 4 => Some HA_SESSION_OBSERVATION_REASONING
  | 5 => Some HA_SESSION_OBSERVATION_STATUS
  | 6 => Some HA_SESSION_OBSERVATION_TOOL_STARTED
  | 7 => Some HA_SESSION_OBSERVATION_TOOL_FINISHED
  | 8 => Some HA_SESSION_OBSERVATION_PERSISTED
  | 9 => Some HA_SESSION_OBSERVATION_TOOL_OUTPUT
  | 10 => Some HA_SESSION_OBSERVATION_TOOL_RETRACTED
  | 11 => Some HA_SESSION_OBSERVATION_RESPONSE_RESTARTED
  | 12 => Some HA_SESSION_OBSERVATION_RESPONSE_DISCARDED
  | 13 => Some HA_SESSION_OBSERVATION_RESPONSE_FAILED
  | 100 => Some HA_SESSION_OBSERVATION_UNAVAILABLE
  | 101 => Some HA_SESSION_OBSERVATION_DISCONNECTED
  | 102 => Some HA_SESSION_OBSERVATION_CANCELLED
  | 103 => Some HA_SESSION_OBSERVATION_FAILURE
  | _ => None
  end.

(** The arguments of [ha_session_observation_callback] but the context; each text is the
    bytes of its borrowed slice. *)
Record ha_session_observation_callback := {
  cb_kind : Z;
  cb_owner_id : list byte;
  cb_turn_id : list byte;
  cb_sequence : Z;
  cb_generation_start : Z;
  cb_durable_turn_count : Z;
  cb_text : list byte;
  cb_call_id : list byte;
  cb_tool_name : list byte;
  cb_tool_summary : list byte;
  cb_flags : Z;
}.
Abbreviation callback := ha_session_observation_callback.

(** ** What the worker receives *)

Inductive SessionObservationState :=
  | ObservationRunning
  | ObservationWaiting
  | ObservationCompleted
  | ObservationInterrupted.

Inductive SessionObservationEventKind :=
  | ObservationText | ObservationReasoning | ObservationPlan
  | ObservationActivity | ObservationWarning
  | ObservationToolStarted | ObservationToolUpdated | ObservationToolOutput
  | ObservationToolFinished | ObservationToolRetracted
  | ObservationResponseRestarted | ObservationResponseDiscarded
  | ObservationResponseFailed
  | ObservationAgentStarted | ObservationAgentOutput | ObservationAgentFinished.

Record SessionObservationEvent := {
  oe_kind : SessionObservationEventKind;
  oe_identifier : text;
  oe_name : text;
  oe_text : text;
  oe_arguments : text;
  oe_isError : bool;
  oe_summary : text;
  oe_argumentsEncrypted : bool;
  oe_isAsync : bool;
  oe_isTruncated : bool;
}.

Record SessionObservationFrame := {
  of_ownerID : text;
  of_turnID : text;
  of_sequence : Z;
  of_generationStart : Z;
  of_durableTurnCount : Z;
  of_state : SessionObservationState;
  of_reset : bool;
  of_truncated : bool;
  of_userText : text;
  of_events : list SessionObservationEvent;
}.

Inductive SessionObservationUpdate :=
  | ObservationUnavailable
  | ObservationDisconnected
  | ObservationFrame (frame : SessionObservationFrame).

(** ** The callbacks of an update *)

Definition deliverFields (kind : Z) (ownerID turnID : text)
    (sequence generationStart durableTurnCount : Z)
    (t callID toolName toolSummary : text) (flags : Z) : callback :=
  Build_ha_session_observation_callback kind (utf8_encode ownerID) (utf8_encode turnID)
    sequence generationStart durableTurnCount (utf8_encode t) (utf8_encode callID)
    (utf8_encode toolName) (utf8_encode toolSummary) flags.

Definition deliverTerminal (kind : Z) (t : text) : callback :=
  deliverFields kind [] [] 0 0 0 t [] [] [] 0.

Definition event_flags (e : SessionObservationEvent) : Z :=
  (if oe_argumentsEncrypted e then 1 else 0)
  + (if oe_isTruncated e then 2 else 0)
  + (if oe_isAsync e then 4 else 0)
  + (if oe_isError e then 8 else 0).

Definition deliverEvent {A} (send : Z -> text -> text -> text -> text -> Z -> A)
    (e : SessionObservationEvent) : A :=
  let message := fun kind t => send kind t [] [] [] 0 in
  let flags := event_flags e in
  let tool := fun kind => send kind (oe_text e) (oe_identifier e) (oe_name e) (oe_summary e) flags in
  match oe_kind e with
  | ObservationText => message 3 (oe_text e)
  | ObservationReasoning => message 4 (oe_text e)
  | ObservationPlan => message 3 (oe_text e)
  | ObservationActivity => message 5 (oe_text e)
  | ObservationWarning => message 5 (oe_text e)
  | ObservationResponseRestarted => message 11 (oe_text e)
  | ObservationResponseDiscarded => message 12 []
  | ObservationResponseFailed => message 13 (oe_text e)
  | ObservationToolStarted | ObservationToolUpdated =>
      send 6 (oe_arguments e) (oe_identifier e) (oe_name e) (oe_summary e) flags
  | ObservationToolFinished => tool 7
  | ObservationToolOutput => tool 9
  | ObservationToolRetracted => tool 10
  | ObservationAgentStarted => message 5 (txt "Agent started: " ++ oe_text e)
  | ObservationAgentOutput => message 5 (oe_text e)
  | ObservationAgentFinished => message 5 (oe_text e)
  end.

Definition state_flags (s : SessionObservationState) : Z :=
  match s with
  | ObservationRunning => 0
  | ObservationWaiting => 1
  | ObservationCompleted => 2
  | ObservationInterrupted => 3
  end.

Definition frame_flags (f : SessionObservationFrame) : Z :=
  state_flags (of_state f) + (if of_truncated f then 256 else 0).

Definition is_persisted (f : SessionObservationFrame) : bool :=
  match of_state f with ObservationCompleted | ObservationInterrupted => true | _ => false end.

Definition frame_send (f : SessionObservationFrame)
    (kind : Z) (t callID name summary : text) (flags : Z) : callback :=
  deliverFields kind (of_ownerID f) (of_turnID f) (of_sequence f) (of_generationStart f)
    (of_durableTurnCount f) t callID name summary flags.

Definition deliverUpdate (u : SessionObservationUpdate) : list callback :=
  match u with
  | ObservationUnavailable =>
      [deliverTerminal 100 (txt "Live updates are unavailable from this CLI.")]
  | ObservationDisconnected =>
      [deliverTerminal 101 (txt "The CLI disconnected. Reconnecting" ++ [8230])]
  | ObservationFrame f =>
      let send := frame_send f in
      let flags := frame_flags f in
      (if of_reset f then [send 1 (of_userText f) [] [] [] flags] else [])
      ++ map (deliverEvent send) (of_events f)
      ++ (if is_persisted f then [send 8 [] [] [] [] flags] else [])
      ++ [send 2 [] [] [] [] flags]
  end.

(** ** Starting, cancelling, destroying *)

(** The status of [ha_session_observation_start]: the bytes of the identifier ([None] when
    the pointer is null), whether the callback and the out pointer are nonnull, and whether
    the worker could be created. *)
Definition ha_session_observation_start (session : option (list byte))
    (callback outHandle started : bool) : Z :=
  match session with
  | None => 1
  | Some bs =>
      if (zlen bs =? 0) || (4096 <? zlen bs) || negb callback || negb outHandle then 1
      else match utf8_decode bs with
           | None => 1
           | Some sessionID =>
               if existsb (Z.eqb 0) sessionID then 1 else if started then 0 else 2
           end
  end.

(** The worker of an accepted observation. *)
Inductive worker :=
  | Gated
  | Observing (queue : list callback)
  | Ending (terminal : callback)
  | Finished.

Record observation := {
  ob_worker : worker;
  ob_cancellation : bool;
  ob_destroying : bool;
  ob_freed : bool;
}.

Definition observation_init : observation := Build_observation Gated false false false.

Definition set_worker (w : worker) (s : observation) : observation :=
  Build_observation w (ob_cancellation s) (ob_destroying s) (ob_freed s).

Inductive event :=
  | ev_update (u : SessionObservationUpdate)
  | ev_callback (cb : callback)
  | ev_cancel
  | ev_destroy
  | ev_destroyed
  | ev_internal.

Inductive step (s : observation) : event -> observation -> Prop :=
  (** [start] has stored the handle and opens the gate. *)
  | step_gate :
      ob_worker s = Gated -> step s ev_internal (set_worker (Observing []) s)
  (** [observeSession] has an update, whose callbacks follow one by one. *)
  | step_update u :
      ob_worker s = Observing [] -> step s (ev_update u) (set_worker (Observing (deliverUpdate u)) s)
  | step_deliver cb q :
      ob_worker s = Observing (cb :: q) -> step s (ev_callback cb) (set_worker (Observing q) s)
  (** The scoped race: cancellation wins, [observeSession] fails, or it returns. *)
  | step_interrupt q :
      ob_worker s = Observing q -> ob_cancellation s = true ->
      step s ev_internal (set_worker (Ending (deliverTerminal 102 [])) s)
  | step_exception q message :
      ob_worker s = Observing q ->
      step s ev_internal (set_worker (Ending (deliverTerminal 103 message)) s)
  | step_return :
      ob_worker s = Observing [] ->
      step s ev_internal
        (set_worker (Ending (deliverTerminal 103
           (txt "Session observation ended unexpectedly."))) s)
  | step_terminal cb :
      ob_worker s = Ending cb -> step s (ev_callback cb) (set_worker Finished s)
  (** [ha_session_observation_cancel]. *)
  | step_cancel :
      ob_freed s = false ->
      step s ev_cancel (Build_observation (ob_worker s) true (ob_destroying s) false)
  (** [ha_session_observation_destroy]: cancel, then wait for the worker, then free. *)
  | step_destroy :
      ob_freed s = false -> ob_destroying s = false ->
      step s ev_destroy (Build_observation (ob_worker s) true true false)
  | step_destroyed :
      ob_destroying s = true -> ob_freed s = false -> ob_worker s = Finished ->
      step s ev_destroyed (Build_observation Finished (ob_cancellation s) true true).

Inductive reach : list event -> observation -> Prop :=
  | reach_init : reach [] observation_init
  | reach_step tr s e s' : reach tr s -> step s e s' -> reach (tr ++ [e]) s'.

Fixpoint callbacks (tr : list event) : list callback :=
  match tr with
  | [] => []
  | ev_callback cb :: tr => cb :: callbacks tr
  | _ :: tr => callbacks tr
  end.

Fixpoint updates (tr : list event) : list SessionObservationUpdate :=
  match tr with
  | [] => []
  | ev_update u :: tr => u :: updates tr
  | _ :: tr => updates tr
  end.

Lemma callbacks_app tr tr' : callbacks (tr ++ tr') = callbacks tr ++ callbacks tr'.
Proof. induction tr as [|e tr IH]; [done|]. destruct e; cbn; by rewrite IH. Qed.

Lemma updates_app tr tr' : updates (tr ++ tr') = updates tr ++ updates tr'.
Proof. induction tr as [|e tr IH]; [done|]. destruct e; cbn; by rewrite IH. Qed.

(** ** The order of callbacks *)

(** What all callbacks of one batch share. *)
Definition identity (cb : callback) : list byte * list byte * Z * Z * Z :=
  (cb_owner_id cb, cb_turn_id cb, cb_sequence cb, cb_generation_start cb,
   cb_durable_turn_count cb).

Inductive protocol_state :=
  | between
  | inside (id : list byte * list byte * Z * Z * Z) (persisted : bool)
  | closed.

Definition no_tool_fields (cb : callback) : bool :=
  bool_decide (cb_call_id cb = []) && bool_decide (cb_tool_name cb = [])
  && bool_decide (cb_tool_summary cb = []).

(** Only bits of [mask]. *)
Definition flags_within (mask flags : Z) : bool := (0 <=? flags) && (Z.land flags (Z.lnot mask) =? 0).

(** State in the low two bits, truncation in bit 8. *)
Definition state_flags_ok (cb : callback) : bool := flags_within 259 (cb_flags cb).

(** Continues a batch, or begins one. *)
Definition same_batch (st : protocol_state) (cb : callback) : bool :=
  match st with
  | between => true
  | inside id _ => bool_decide (id = identity cb)
  | closed => false
  end.

Definition not_persisted (st : protocol_state) : bool :=
  match st with inside _ true => false | _ => true end.

(** The header's contract on the order and the fields of callbacks. *)
Definition protocol_step (st : protocol_state) (cb : callback) : option protocol_state :=
  let when := fun (ok : bool) st' => if ok then Some st' else None in
  match st, ha_session_observation_kind_of (cb_kind cb) with
  | closed, _ => None
  | _, None => None
  | between, Some HA_SESSION_OBSERVATION_RESET =>
      when (no_tool_fields cb && state_flags_ok cb) (inside (identity cb) false)
  | _, Some HA_SESSION_OBSERVATION_RESET => None
  | _, Some HA_SESSION_OBSERVATION_READY =>
      when (same_batch st cb && no_tool_fields cb && state_flags_ok cb) between
  | _, Some HA_SESSION_OBSERVATION_PERSISTED =>
      when (same_batch st cb && not_persisted st && no_tool_fields cb && state_flags_ok cb
            && Z.testbit (cb_flags cb) 1)
        (inside (identity cb) true)
  | _, Some (HA_SESSION_OBSERVATION_TOOL_STARTED | HA_SESSION_OBSERVATION_TOOL_FINISHED
             | HA_SESSION_OBSERVATION_TOOL_OUTPUT | HA_SESSION_OBSERVATION_TOOL_RETRACTED) =>
      when (same_batch st cb && not_persisted st && flags_within 15 (cb_flags cb))
        (inside (identity cb) false)
  | _, Some (HA_SESSION_OBSERVATION_TEXT | HA_SESSION_OBSERVATION_REASONING
             | HA_SESSION_OBSERVATION_STATUS | HA_SESSION_OBSERVATION_RESPONSE_RESTARTED
             | HA_SESSION_OBSERVATION_RESPONSE_DISCARDED
             | HA_SESSION_OBSERVATION_RESPONSE_FAILED) =>
      when (same_batch st cb && not_persisted st && no_tool_fields cb && (cb_flags cb =? 0))
        (inside (identity cb) false)
  | between, Some (HA_SESSION_OBSERVATION_UNAVAILABLE | HA_SESSION_OBSERVATION_DISCONNECTED) =>
      when (no_tool_fields cb) between
  | _, Some (HA_SESSION_OBSERVATION_UNAVAILABLE | HA_SESSION_OBSERVATION_DISCONNECTED) => None
  | _, Some (HA_SESSION_OBSERVATION_CANCELLED | HA_SESSION_OBSERVATION_FAILURE) =>
      when (no_tool_fields cb) closed
  end.

Fixpoint protocol (st : protocol_state) (cbs : list callback) : option protocol_state :=
  match cbs with
  | [] => Some st
  | cb :: cbs => st' ← protocol_step st cb; protocol st' cbs
  end.

Lemma protocol_app st k l :
  protocol st (k ++ l) = protocol st k ≫= fun st' => protocol st' l.
Proof.
  revert st. induction k as [|cb k IH]; intros st; [done|]. cbn.
  destruct (protocol_step st cb); [apply IH|done].
Qed.

Definition frame_identity (f : SessionObservationFrame) : list byte * list byte * Z * Z * Z :=
  (utf8_encode (of_ownerID f), utf8_encode (of_turnID f), of_sequence f,
   of_generationStart f, of_durableTurnCount f).

(** Within the events of a frame. *)
Definition in_events (f : SessionObservationFrame) (st : protocol_state) : Prop :=
  st = between \/ st = inside (frame_identity f) false.

Lemma event_flags_within e : flags_within 15 (event_flags e) = true.
Proof.
  unfold event_flags.
  by destruct (oe_argumentsEncrypted e), (oe_isTruncated e), (oe_isAsync e), (oe_isError e).
Qed.

Lemma frame_flags_within f : flags_within 259 (frame_flags f) = true.
Proof. unfold frame_flags. by destruct (of_state f), (of_truncated f). Qed.

Lemma frame_flags_persisted f : Z.testbit (frame_flags f) 1 = is_persisted f.
Proof. unfold frame_flags, is_persisted. by destruct (of_state f), (of_truncated f). Qed.

Lemma same_batch_sent f st k t a b d fl :
  in_events f st -> same_batch st (frame_send f k t a b d fl) = true.
Proof. intros [->| ->]; [done|]. cbn. by apply bool_decide_eq_true. Qed.

Lemma not_persisted_events f st : in_events f st -> not_persisted st = true.
Proof. by intros [->| ->]. Qed.

Lemma protocol_event f st e :
  in_events f st ->
  protocol_step st (deliverEvent (frame_send f) e) = Some (inside (frame_identity f) false).
Proof.
  intros Hst. pose proof (event_flags_within e) as Hf.
  assert (Hs := fun k t a b d fl => same_batch_sent f st k t a b d fl Hst).
  pose proof (not_persisted_events f st Hst) as Hp.
  unfold deliverEvent. destruct (oe_kind e); unfold protocol_step, frame_send at 1, deliverFields at 1;
    cbn [cb_kind ha_session_observation_kind_of];
    rewrite Hs, Hp; unfold frame_send, deliverFields; cbn [cb_flags]; rewrite ?Hf;
    by destruct Hst as [->| ->].
Qed.

Lemma protocol_events f st l :
  in_events f st ->
  exists st', protocol st (map (deliverEvent (frame_send f)) l) = Some st' /\ in_events f st'.
Proof.
  revert st. induction l as [|e l IH]; intros st Hst; [by exists st|]. cbn [map protocol].
  rewrite protocol_event by done. apply IH. by right.
Qed.

Lemma protocol_frame_end f st :
  in_events f st ->
  protocol st ((if is_persisted f then [frame_send f 8 [] [] [] [] (frame_flags f)] else [])
               ++ [frame_send f 2 [] [] [] [] (frame_flags f)]) = Some between.
Proof.
  intros Hst. pose proof (frame_flags_within f) as Hf.
  pose proof (frame_flags_persisted f) as Hb.
  assert (Hid : identity (frame_send f 2 [] [] [] [] (frame_flags f)) = frame_identity f) by done.
  assert (Hready : forall st, same_batch st (frame_send f 2 [] [] [] [] (frame_flags f)) = true ->
            protocol_step st (frame_send f 2 [] [] [] [] (frame_flags f)) = Some between).
  { intros st0 H0. unfold protocol_step, frame_send at 1, deliverFields at 1.
    cbn [cb_kind ha_session_observation_kind_of]. rewrite H0. unfold state_flags_ok.
    cbn [frame_send deliverFields cb_flags]. rewrite Hf. by destruct st0. }
  destruct (is_persisted f) eqn:Ep; cbn [app protocol].
  - assert (protocol_step st (frame_send f 8 [] [] [] [] (frame_flags f))
            = Some (inside (frame_identity f) true)) as ->.
    { unfold protocol_step, frame_send at 1, deliverFields at 1.
      cbn [cb_kind ha_session_observation_kind_of].
      rewrite same_batch_sent, (not_persisted_events f) by done. unfold state_flags_ok.
      cbn [frame_send deliverFields cb_flags]. rewrite Hf, Hb. by destruct Hst as [->| ->]. }
    cbn [mbind option_bind]. rewrite Hready; [done|]. cbn. by apply bool_decide_eq_true.
  - rewrite Hready; [done|]. by apply same_batch_sent.
Qed.

(** One update is one well-formed batch. *)
Lemma protocol_update u : protocol between (deliverUpdate u) = Some between.
Proof.
  destruct u as [| |f]; [reflexivity..|]. unfold deliverUpdate.
  assert (exists st, protocol between
            (if of_reset f then [frame_send f 1 (of_userText f) [] [] [] (frame_flags f)] else [])
            = Some st /\ in_events f st) as (st1 & H1 & Hin1).
  { destruct (of_reset f); [|exists between; split; [done|by left]].
    exists (inside (frame_identity f) false). split; [|by right].
    cbn [protocol]. unfold protocol_step, frame_send at 1, deliverFields at 1.
    cbn [cb_kind ha_session_observation_kind_of]. unfold state_flags_ok.
    cbn [frame_send deliverFields cb_flags]. by rewrite frame_flags_within. }
  rewrite protocol_app, H1. cbn [mbind option_bind].
  rewrite protocol_app. destruct (protocol_events f st1 (of_events f) Hin1) as (st2 & -> & Hin2).
  by apply protocol_frame_end.
Qed.

(** Where the monitor is, for each state of the worker. *)
Definition protocol_inv (tr : list event) (s : observation) : Prop :=
  exists st, protocol between (callbacks tr) = Some st /\
  match ob_worker s with
  | Gated => st = between
  | Observing q => st <> closed /\ protocol st q = Some between
  | Ending cb => protocol_step st cb = Some closed
  | Finished => st = closed
  end.

Lemma terminal_closes st kind message :
  st <> closed -> kind = 102 \/ kind = 103 ->
  protocol_step st (deliverTerminal kind message) = Some closed.
Proof. intros Hst [-> | ->]; by destruct st. Qed.

Lemma protocol_inv_step tr s e s' :
  protocol_inv tr s -> step s e s' -> protocol_inv (tr ++ [e]) s'.
Proof.
  intros (st & Hp & Hw) Hstep. unfold protocol_inv. rewrite callbacks_app, protocol_app, Hp.
  cbn [mbind option_bind].
  destruct Hstep as [Hs|u Hs|cb q Hs|q Hs Hc|q m Hs|Hs|cb Hs|Hf|Hf Hd|Hd Hf Hs];
    try rewrite Hs in Hw; cbn [callbacks protocol set_worker ob_worker].
  - exists between. subst st. done.
  - destruct Hw as [Hne Hw]. injection Hw as ->. exists between. split; [done|].
    split; [done|]. apply protocol_update.
  - destruct Hw as [Hne Hw]. cbn [protocol] in Hw.
    destruct (protocol_step st cb) as [st'|] eqn:E; [|done]. cbn [mbind option_bind] in *.
    exists st'. split; [done|]. split; [|done]. intros ->. by destruct q.
  - exists st. split; [done|]. apply terminal_closes; [apply Hw|by left].
  - exists st. split; [done|]. apply terminal_closes; [apply Hw|by right].
  - exists st. split; [done|]. apply terminal_closes; [apply Hw|by right].
  - rewrite Hw. by exists closed.
  - by exists st.
  - by exists st.
  - by exists st.
Qed.

Lemma reach_protocol tr s : reach tr s -> protocol_inv tr s.
Proof.
  induction 1 as [|tr s e s' Hr IH Hs]; [by exists between|]. by eapply protocol_inv_step.
Qed.

(** Executions from a state. *)
Inductive runs : observation -> list event -> observation -> Prop :=
  | runs_done s : runs s [] s
  | runs_step s e s1 tr s2 : step s e s1 -> runs s1 tr s2 -> runs s (e :: tr) s2.

Lemma reach_freed tr s : reach tr s -> ob_freed s = true -> ob_worker s = Finished.
Proof.
  induction 1 as [|tr s e s' Hr IH Hs]; [done|].
  destruct Hs; cbn in *; try done; intros Hf; specialize (IH Hf); congruence.
Qed.

Lemma reach_destroying tr s : reach tr s -> ob_destroying s = true -> ob_cancellation s = true.
Proof. induction 1 as [|tr s e s' Hr IH Hs]; [done|]. destruct Hs; cbn in *; auto. Qed.

(** The worker of a cancelled observation comes to its end on its own. *)
Lemma cancelled_finishes s :
  ob_cancellation s = true ->
  exists tr s', runs s tr s' /\ ob_worker s' = Finished /\ (length tr <= 3)%nat
    /\ ob_destroying s' = ob_destroying s /\ ob_freed s' = ob_freed s.
Proof.
  intros Hc.
  assert (Hend : forall s cb, ob_worker s = Ending cb -> runs s [ev_callback cb] (set_worker Finished s))
    by (intros s0 cb H0; eapply runs_step; [by apply step_terminal|apply runs_done]).
  assert (Hobs : forall s q, ob_worker s = Observing q -> ob_cancellation s = true ->
            runs s [ev_internal; ev_callback (deliverTerminal 102 [])]
              (set_worker Finished (set_worker (Ending (deliverTerminal 102 [])) s)))
    by (intros s0 q H0 H1; eapply runs_step; [by eapply step_interrupt|by apply Hend]).
  destruct (ob_worker s) as [|q|cb|] eqn:E.
  - eexists _, _. split; [eapply runs_step; [by apply step_gate|by eapply Hobs]|].
    repeat split; cbn; lia.
  - eexists _, _. split; [by eapply Hobs|]. repeat split; cbn; lia.
  - eexists _, _. split; [by apply Hend|]. repeat split; cbn; lia.
  - exists [], s. split; [apply runs_done|]. repeat split; cbn; done || lia.
Qed.

(** C23: the callbacks of an observation follow the header's contract in every execution,
    wherever the connection fails and whenever it is cancelled or destroyed: whole batches
    with one identity, RESET only first, PERSISTED only for an ended turn, READY last, then
    exactly one terminal callback and nothing after it; a destroyed observation has
    delivered its terminal callback, and destruction always completes. *)
Theorem observation_protocol tr s :
  reach tr s ->
  (exists st, protocol between (callbacks tr) = Some st
     /\ (ob_worker s = Finished <-> st = closed) /\ (ob_freed s = true -> st = closed))
  /\ (ob_destroying s = true -> ob_freed s = false ->
      exists tr' s', runs s tr' s' /\ ob_freed s' = true /\ (length tr' <= 4)%nat).
Proof.
  intros Hr. split.
  - destruct (reach_protocol tr s Hr) as (st & Hp & Hw). exists st. split; [done|].
    assert (Hiff : ob_worker s = Finished <-> st = closed).
    { destruct (ob_worker s) as [|q|cb|]; try (subst; done).
      - by split; [|intros ->; destruct Hw].
      - by split; [|intros ->]. }
    split; [done|]. intros Hf. by apply Hiff, (reach_freed tr).
  - intros Hd Hf. destruct (cancelled_finishes s (reach_destroying tr s Hr Hd))
      as (tr1 & s1 & Hruns & Hfin & Hlen & Hd1 & Hf1).
    exists (tr1 ++ [ev_destroyed]), (Build_observation Finished (ob_cancellation s1) true true).
    split; [|rewrite length_app; cbn; split; [done|lia]].
    assert (Hlast : runs s1 [ev_destroyed] (Build_observation Finished (ob_cancellation s1) true true)).
    { eapply runs_step; [apply step_destroyed; congruence|apply runs_done]. }
    clear -Hruns Hlast. induction Hruns; [done|]. eapply runs_step; [done|]. by apply IHHruns.
Qed.

(** ** The consumer *)

(** An event of the live turn, with the fields that the header gives to its kind. *)
Inductive observed :=
  | observed_text (t : text)
  | observed_reasoning (t : text)
  | observed_status (t : text)
  | observed_tool_started (arguments call_id tool_name tool_summary : text)
      (encrypted truncated async : bool)
  | observed_tool_finished (output call_id : text) (truncated async error : bool)
  | observed_tool_output (output call_id : text) (truncated async : bool)
  | observed_tool_retracted (call_id : text)
  | observed_response_restarted (t : text)
  | observed_response_discarded
  | observed_response_failed (t : text).

(** A slice as text. *)
Definition slice_of (l : list byte) : text := default [] (utf8_decode l).

Definition observed_of (k : ha_session_observation_kind) (cb : callback) : option observed :=
  let t := slice_of (cb_text cb) in
  let call := slice_of (cb_call_id cb) in
  let bit := Z.testbit (cb_flags cb) in
  match k with
  | HA_SESSION_OBSERVATION_TEXT => Some (observed_text t)
  | HA_SESSION_OBSERVATION_REASONING => Some (observed_reasoning t)
  | HA_SESSION_OBSERVATION_STATUS => Some (observed_status t)
  | HA_SESSION_OBSERVATION_TOOL_STARTED =>
      Some (observed_tool_started t call (slice_of (cb_tool_name cb))
              (slice_of (cb_tool_summary cb)) (bit 0) (bit 1) (bit 2))
  | HA_SESSION_OBSERVATION_TOOL_FINISHED =>
      Some (observed_tool_finished t call (bit 1) (bit 2) (bit 3))
  | HA_SESSION_OBSERVATION_TOOL_OUTPUT => Some (observed_tool_output t call (bit 1) (bit 2))
  | HA_SESSION_OBSERVATION_TOOL_RETRACTED => Some (observed_tool_retracted call)
  | HA_SESSION_OBSERVATION_RESPONSE_RESTARTED => Some (observed_response_restarted t)
  | HA_SESSION_OBSERVATION_RESPONSE_DISCARDED => Some observed_response_discarded
  | HA_SESSION_OBSERVATION_RESPONSE_FAILED => Some (observed_response_failed t)
  | _ => None
  end.

(** What the runtime means by an event. *)
Definition observe (e : SessionObservationEvent) : observed :=
  match oe_kind e with
  | ObservationText | ObservationPlan => observed_text (oe_text e)
  | ObservationReasoning => observed_reasoning (oe_text e)
  | ObservationActivity | ObservationWarning | ObservationAgentOutput
  | ObservationAgentFinished => observed_status (oe_text e)
  | ObservationAgentStarted => observed_status (txt "Agent started: " ++ oe_text e)
  | ObservationToolStarted | ObservationToolUpdated =>
      observed_tool_started (oe_arguments e) (oe_identifier e) (oe_name e) (oe_summary e)
        (oe_argumentsEncrypted e) (oe_isTruncated e) (oe_isAsync e)
  | ObservationToolFinished =>
      observed_tool_finished (oe_text e) (oe_identifier e) (oe_isTruncated e) (oe_isAsync e)
        (oe_isError e)
  | ObservationToolOutput =>
      observed_tool_output (oe_text e) (oe_identifier e) (oe_isTruncated e) (oe_isAsync e)
  | ObservationToolRetracted => observed_tool_retracted (oe_identifier e)
  | ObservationResponseRestarted => observed_response_restarted (oe_text e)
  | ObservationResponseDiscarded => observed_response_discarded
  | ObservationResponseFailed => observed_response_failed (oe_text e)
  end.

(** The state and truncation bits of RESET, READY and PERSISTED. *)
Definition turn_state (flags : Z) : Z * bool := (Z.land flags 3, Z.testbit flags 8).

Section Consumer.

(** A display of the live turn, whatever it looks like: a fresh one from the user's input,
    and its changes by an event, by the end of the saved turn and by the turn's state. *)
Context {D : Type} (on_reset : text -> D) (on_event : D -> observed -> D)
  (on_persisted : D -> D) (on_ready : D -> Z * bool -> D).

Record consumer := { committed : D; working : D }.

(** READY commits; everything before it in the batch is provisional. *)
Definition consume (c : consumer) (cb : callback) : consumer :=
  match ha_session_observation_kind_of (cb_kind cb) with
  | Some HA_SESSION_OBSERVATION_RESET =>
      Build_consumer (committed c) (on_reset (slice_of (cb_text cb)))
  | Some HA_SESSION_OBSERVATION_READY =>
      let d := on_ready (working c) (turn_state (cb_flags cb)) in Build_consumer d d
  | Some HA_SESSION_OBSERVATION_PERSISTED =>
      Build_consumer (committed c) (on_persisted (working c))
  | Some k =>
      match observed_of k cb with
      | Some o => Build_consumer (committed c) (on_event (working c) o)
      | None => c
      end
  | None => c
  end.

(** The specification: the display after a whole frame. *)
Definition apply_frame (d : D) (f : SessionObservationFrame) : D :=
  let d := if of_reset f then on_reset (of_userText f) else d in
  let d := foldl on_event d (map observe (of_events f)) in
  let d := if is_persisted f then on_persisted d else d in
  on_ready d (state_flags (of_state f), of_truncated f).

Definition apply_update (d : D) (u : SessionObservationUpdate) : D :=
  match u with ObservationFrame f => apply_frame d f | _ => d end.

(** The texts of an update are [Text]s. *)
Definition event_text_ok (e : SessionObservationEvent) : Prop :=
  Forall (Forall scalar)
    [oe_identifier e; oe_name e; oe_text e; oe_arguments e; oe_summary e].

Definition update_ok (u : SessionObservationUpdate) : Prop :=
  match u with
  | ObservationFrame f => Forall scalar (of_userText f) /\ Forall event_text_ok (of_events f)
  | _ => True
  end.

Lemma slice_of_text t : Forall scalar t -> slice_of (utf8_encode t) = t.
Proof. intros H. unfold slice_of. by rewrite utf8_roundtrip. Qed.

Lemma event_flag_bits e :
  Z.testbit (event_flags e) 0 = oe_argumentsEncrypted e
  /\ Z.testbit (event_flags e) 1 = oe_isTruncated e
  /\ Z.testbit (event_flags e) 2 = oe_isAsync e
  /\ Z.testbit (event_flags e) 3 = oe_isError e.
Proof.
  unfold event_flags.
  by destruct (oe_argumentsEncrypted e), (oe_isTruncated e), (oe_isAsync e), (oe_isError e).
Qed.

Lemma frame_turn_state f : turn_state (frame_flags f) = (state_flags (of_state f), of_truncated f).
Proof. unfold turn_state, frame_flags. by destruct (of_state f), (of_truncated f). Qed.

(** Each callback of an event carries what the header says its kind carries. *)
Lemma consume_event f e c :
  event_text_ok e ->
  consume c (deliverEvent (frame_send f) e)
  = Build_consumer (committed c) (on_event (working c) (observe e)).
Proof.
  intros Hok. unfold event_text_ok in Hok. rewrite !list.Forall_cons in Hok.
  destruct Hok as (Hi & Hn & Ht & Ha & Hs & _).
  destruct (event_flag_bits e) as (B0 & B1 & B2 & B3).
  unfold deliverEvent, observe, consume, frame_send, deliverFields.
  destruct (oe_kind e); cbn [cb_kind ha_session_observation_kind_of observed_of cb_text
    cb_call_id cb_tool_name cb_tool_summary cb_flags];
    rewrite ?B0, ?B1, ?B2, ?B3, ?slice_of_text by first [done | apply Forall_app; split;
      [apply txt_scalar|done]]; done.
Qed.

Lemma consume_events f l c :
  Forall event_text_ok l ->
  foldl consume c (map (deliverEvent (frame_send f)) l)
  = Build_consumer (committed c) (foldl on_event (working c) (map observe l)).
Proof.
  intros Hl. revert c. induction Hl as [|e l He Hl IH]; intros c; [by destruct c|].
  cbn [map foldl]. rewrite consume_event by done. apply IH.
Qed.

(** A whole update commits the specification's display. *)
Lemma consume_update u c :
  update_ok u -> working c = committed c ->
  foldl consume c (deliverUpdate u)
  = Build_consumer (apply_update (committed c) u) (apply_update (committed c) u).
Proof.
  destruct u as [| |f]; [intros _ H; destruct c; cbn in *; by subst..|].
  intros [Hu He] Hc. unfold deliverUpdate, apply_update, apply_frame.
  set (r := if of_reset f then _ else _). set (c1 := foldl consume c r).
  assert (c1 = Build_consumer (committed c)
            (if of_reset f then on_reset (of_userText f) else committed c)) as Hc1.
  { unfold c1, r. destruct (of_reset f); cbn [foldl].
    - unfold consume, frame_send, deliverFields.
      cbn [cb_kind ha_session_observation_kind_of cb_text]. by rewrite slice_of_text.
    - destruct c. cbn in *. by subst. }
  rewrite foldl_app. fold c1. rewrite Hc1, foldl_app, consume_events by done.
  cbn [committed working]. rewrite <- frame_turn_state.
  destruct (is_persisted f); reflexivity.
Qed.

(** Before its READY, a batch has committed nothing. *)
Lemma consume_uncommitted l c :
  Forall (fun cb => cb_kind cb <> 2) l -> committed (foldl consume c l) = committed c.
Proof.
  intros H. revert c. induction H as [|cb l Hcb Hl IH]; intros c; [done|].
  cbn [foldl]. rewrite IH. unfold consume.
  destruct (ha_session_observation_kind_of (cb_kind cb)) as [k|] eqn:E; [|done].
  destruct k; try done. exfalso. apply Hcb.
  unfold ha_session_observation_kind_of in E. repeat case_match; congruence.
Qed.

Lemma deliverEvent_kind f e : cb_kind (deliverEvent (frame_send f) e) <> 2.
Proof. unfold deliverEvent. by destruct (oe_kind e). Qed.

Lemma update_prefix u q1 q2 :
  deliverUpdate u = q1 ++ q2 -> q2 <> [] -> Forall (fun cb => cb_kind cb <> 2) q1.
Proof.
  assert (Hlast : forall (body : list callback) cb, Forall (fun cb => cb_kind cb <> 2) body ->
            body ++ [cb] = q1 ++ q2 -> q2 <> [] -> Forall (fun cb => cb_kind cb <> 2) q1).
  { intros body cb Hb Heq Hq2. destruct (exists_last Hq2) as (q & x & ->).
    rewrite app_assoc in Heq. apply app_inj_tail in Heq as [-> _].
    by apply Forall_app in Hb as [? _]. }
  destruct u as [| |f]; intros Heq Hq2.
  - apply (Hlast [] _ ltac:(constructor) Heq Hq2).
  - apply (Hlast [] _ ltac:(constructor) Heq Hq2).
  - unfold deliverUpdate in Heq. rewrite !app_assoc in Heq.
    refine (Hlast _ _ _ Heq Hq2). rewrite !Forall_app. split; [split|].
    + destruct (of_reset f); by repeat constructor.
    + apply Forall_forall. intros cb Hcb%list_elem_of_In%in_map_iff.
      destruct Hcb as (e & <- & _). apply deliverEvent_kind.
    + destruct (is_persisted f); by repeat constructor.
Qed.

(** The committed display, for each state of the worker: every whole frame so far. *)
Definition consumer_inv (d0 : D) (tr : list event) (s : observation) : Prop :=
  let c := foldl consume (Build_consumer d0 d0) (callbacks tr) in
  let spec := fun l => foldl apply_update d0 l in
  let whole := exists k, (length (updates tr) - 1 <= k)%nat
                 /\ committed c = spec (take k (updates tr)) in
  match ob_worker s with
  | Gated => updates tr = [] /\ c = Build_consumer d0 d0
  | Observing q =>
      (q = [] /\ c = Build_consumer (spec (updates tr)) (spec (updates tr)))
      \/ exists us u q1, updates tr = us ++ [u] /\ deliverUpdate u = q1 ++ q /\ q <> []
           /\ c = foldl consume (Build_consumer (spec us) (spec us)) q1
  | Ending cb =>
      (exists kind m, cb = deliverTerminal kind m /\ (kind = 102 \/ kind = 103)) /\ whole
  | Finished => whole
  end.

Lemma consume_terminal c kind m :
  kind = 102 \/ kind = 103 -> consume c (deliverTerminal kind m) = c.
Proof. by intros [-> | ->]. Qed.

Lemma consumer_inv_observing d0 tr s q :
  consumer_inv d0 tr s -> ob_worker s = Observing q ->
  exists k, (length (updates tr) - 1 <= k)%nat
    /\ committed (foldl consume (Build_consumer d0 d0) (callbacks tr))
       = foldl apply_update d0 (take k (updates tr)).
Proof.
  unfold consumer_inv. intros H E. rewrite E in H.
  destruct H as [[-> ->]|(us & u & q1 & -> & Hu & Hq & ->)].
  - exists (length (updates tr)). rewrite take_ge by lia. split; [lia|done].
  - exists (length us). rewrite length_app. cbn. split; [lia|].
    rewrite take_app_length, consume_uncommitted by (by eapply update_prefix). done.
Qed.

Lemma deliverUpdate_nonempty u : deliverUpdate u <> [].
Proof. destruct u as [| |f]; [done..|]. cbn. destruct (is_persisted f), (map _ _), (of_reset f); done. Qed.

Lemma consumer_inv_step d0 tr s e s' :
  Forall update_ok (updates (tr ++ [e])) ->
  consumer_inv d0 tr s -> step s e s' -> consumer_inv d0 (tr ++ [e]) s'.
Proof.
  intros Hok Hinv Hstep. pose proof Hinv as Hold. unfold consumer_inv in Hinv |- *.
  rewrite updates_app in Hok. rewrite callbacks_app, updates_app, foldl_app.
  destruct Hstep as [Hs|u Hs|cb q Hs|q Hs Hc|q m Hs|Hs|cb Hs|Hf|Hf Hd|Hd Hf Hs];
    cbn [set_worker ob_worker callbacks updates foldl] in *; rewrite ?app_nil_r in *;
    try exact Hinv; try rewrite Hs in Hinv.
  - destruct Hinv as [Hu Hc]. left. split; [done|]. by rewrite Hu.
  - destruct Hinv as [[_ Hc]|(us & u' & q1 & _ & _ & Hne & _)]; [|done].
    right. exists (updates tr), u, []. split; [done|]. split; [done|].
    split; [apply deliverUpdate_nonempty|done].
  - destruct Hinv as [[? _]|(us & u & q1 & Hus & Hu & _ & Hc)]; [done|].
    rewrite Hus in *. destruct q as [|cb' q].
    + left. split; [done|]. rewrite Hc.
      assert (update_ok u) as Hok' by (apply Forall_app in Hok as [_ Hok]; by inversion Hok).
      pose proof (consume_update u (Build_consumer (foldl apply_update d0 us)
        (foldl apply_update d0 us)) Hok' eq_refl) as Hw.
      rewrite Hu, foldl_app in Hw. cbn [foldl committed] in Hw. rewrite Hw, foldl_app. done.
    + right. exists us, u, (q1 ++ [cb]). split; [done|]. split; [by rewrite <- app_assoc|].
      split; [done|]. by rewrite Hc, foldl_app.
  - split; [eauto|]. by eapply consumer_inv_observing.
  - split; [eauto|]. by eapply consumer_inv_observing.
  - split; [eauto|]. by eapply consumer_inv_observing.
  - destruct Hinv as [(kind & m & -> & Hk) Hw]. by rewrite consume_terminal.
  - exact Hinv.
Qed.

(** A consumer that commits at READY shows, at every moment of every execution, the
    display of a whole number of the frames that the worker received: all of them while the
    worker waits for the next, and at most the last one missing when the observation was
    cut; whatever the display is, its events carry what the runtime observed. *)
Theorem observation_commits_frames d0 tr s :
  reach tr s -> Forall update_ok (updates tr) ->
  exists k, (length (updates tr) - 1 <= k)%nat
    /\ committed (foldl consume (Build_consumer d0 d0) (callbacks tr))
       = foldl apply_update d0 (take k (updates tr))
    /\ (ob_worker s = Observing [] -> (length (updates tr) <= k)%nat).
Proof.
  intros Hr Hok. assert (consumer_inv d0 tr s) as Hinv.
  { induction Hr as [|tr s e s' Hr IH Hs]; [by split|].
    apply (consumer_inv_step d0 tr s e s'); [done| |done]. apply IH.
    rewrite updates_app in Hok. by apply Forall_app in Hok as [? _]. }
  destruct (ob_worker s) as [|q|cb|] eqn:E.
  - unfold consumer_inv in Hinv. rewrite E in Hinv. destruct Hinv as [-> ->].
    exists 0%nat. by cbn.
  - destruct q as [|cb q].
    + unfold consumer_inv in Hinv. rewrite E in Hinv.
      destruct Hinv as [[_ ->]|(? & ? & ? & _ & _ & ? & _)]; [|done].
      exists (length (updates tr)). rewrite take_ge by lia. cbn. repeat split; lia.
    + destruct (consumer_inv_observing _ _ _ _ Hinv E) as (k & ? & ?). by exists k.
  - unfold consumer_inv in Hinv. rewrite E in Hinv. destruct Hinv as [_ (k & ? & ?)].
    by exists k.
  - unfold consumer_inv in Hinv. rewrite E in Hinv. destruct Hinv as (k & ? & ?).
    by exists k.
Qed.

End Consumer.

(** An observation at work: a reset frame with one event arrives and the display, which
    lists what it was told, commits it; then it is cancelled in the middle of a second. *)
Definition demo_event : SessionObservationEvent :=
  Build_SessionObservationEvent ObservationText [] [] (txt "hello") [] false [] false false false.

Definition demo_frame (reset : bool) : SessionObservationFrame :=
  Build_SessionObservationFrame (txt "owner") (txt "turn") 1 0 3 ObservationRunning reset false
    (txt "hi") [demo_event].

Definition demo_observation : list event :=
  ev_internal :: ev_update (ObservationFrame (demo_frame true))
  :: map ev_callback (deliverUpdate (ObservationFrame (demo_frame true)))
  ++ [ev_update (ObservationFrame (demo_frame false));
      ev_callback (deliverEvent (frame_send (demo_frame false)) demo_event);
      ev_destroy; ev_internal; ev_callback (deliverTerminal 102 []); ev_destroyed].

Lemma demo_frame_ok reset : update_ok (ObservationFrame (demo_frame reset)).
Proof.
  split; [apply txt_scalar|]. constructor; [|constructor].
  repeat (apply list.Forall_cons; split; [first [apply txt_scalar | constructor]|]). constructor.
Qed.

Lemma demo_observation_reach :
  reach demo_observation (Build_observation Finished true true true).
Proof.
  assert (Happ : forall tr0 s0 tr s, reach tr0 s0 -> runs s0 tr s -> reach (tr0 ++ tr) s).
  { intros tr0 s0 tr s Hr Hs. revert tr0 Hr. induction Hs as [|s0 e s1 tr s Hs Hruns IH];
      intros tr0 Hr; [by rewrite app_nil_r|].
    rewrite (app_assoc tr0 [e] tr : tr0 ++ e :: tr = _). apply IH. by eapply reach_step. }
  apply (Happ [] observation_init _ _ reach_init).
  eapply runs_step; [by apply step_gate|]. eapply runs_step; [by apply step_update|].
  cbn -[deliverEvent frame_send].
  do 3 (eapply runs_step; [by apply step_deliver|]).
  eapply runs_step; [by apply step_update|]. eapply runs_step; [by apply step_deliver|].
  eapply runs_step; [by apply step_destroy|].
  eapply runs_step; [by eapply step_interrupt|]. eapply runs_step; [by apply step_terminal|].
  eapply runs_step; [by apply step_destroyed|]. apply runs_done.
Qed.

Lemma observation_protocol_witness :
  reach demo_observation (Build_observation Finished true true true)
  /\ exists st, protocol between (callbacks demo_observation) = Some st
       /\ (Finished = Finished <-> st = closed) /\ (true = true -> st = closed).
Proof.
  split; [apply demo_observation_reach|].
  destruct (observation_protocol _ _ demo_observation_reach) as [H _]. exact H.
Defined.

Lemma observation_commits_frames_witness :
  exists k, (1 <= k)%nat
    /\ committed (foldl (consume (fun t => [observed_text t]) (fun d o => d ++ [o]) id (fun d _ => d))
                    (Build_consumer [] []) (callbacks demo_observation))
       = foldl (apply_update (fun t => [observed_text t]) (fun d o => d ++ [o]) id (fun d _ => d))
           [] (take k (updates demo_observation)).
Proof.
  destruct (observation_commits_frames (fun t => [observed_text t]) (fun d o => d ++ [o]) id
              (fun d _ => d) [] _ _ demo_observation_reach) as (k & Hk & Hc & _).
  - apply list.Forall_cons. split; [apply demo_frame_ok|].
    apply list.Forall_cons. split; [apply demo_frame_ok|constructor].
  - exists k. split; [exact Hk|exact Hc].
Defined.
