(* ===== verification/LoopEvents.v ===== *)
(** * Native loop events

    The engine streams what a turn does to the host through [ha_event_callback]; loop
    events are binary HAEV frames, described in HaskellAgentBridge.h at the callback's
    declaration and written by NativeLoopEvent.hs.  This file has the writer, a reader that
    follows the header's description, and [loop_event_round_trip]: what the writer emits, the
    reader understands as the event that was meant, with its texts and its flags, but for usage
    without a cost.  The writer marks a field that is absent with a length of 2^32 - 1, of which
    the header says nothing: a reader by the header takes such a frame for one that was cut off,
    and only one that also knows the mark understands it. *)

From stdpp Require Import base tactics option list strings.
From Stdlib Require Import ZArith Lia.
From coqutil Require Import Byte Word.LittleEndianList.
From S2P Require Import Prelude Utf8.
#[local] Open Scope Z_scope.

(** ** Events *)

Inductive ToolCallMode := BlockingToolCall | AsyncToolCall.

Record ToolCall := {
  tc_callId : text;
  tc_name : text;
  tc_arguments : text;
  tc_argumentsEncrypted : bool;
  tc_mode : ToolCallMode;
}.

(** Whether the outcome is absent or [ToolSucceeded], and whether the call drove the
    computer, are all that the writer asks of the two fields. *)
Record ToolCallResult := {
  tr_callId : text;
  tr_output : text;
  tr_mode : ToolCallMode;
  tr_computer : bool;
  tr_succeeded : bool;
}.

Record TokenUsage := { inputTokens : Z; outputTokens : Z; cachedTokens : Z }.

(** [LoopEvent]; the constructors that have no native frame are one. *)
Inductive LoopEvent :=
  | TextDelta (t : text)
  | PlanDelta (t : text)
  | ReasoningDelta (t : text)
  | ActivityUpdated (t : text)
  | WarningRaised (t : text)
  | ResponseRestarted (t : text)
  | ToolStarted (call : ToolCall)
  | ToolUpdated (call : ToolCall)
  | ToolArgumentsUpdated (call : ToolCall)
  | ToolFinished (result : ToolCallResult)
  | TurnFinished (usage : TokenUsage)
  | OtherLoopEvent.

Definition is_async (m : ToolCallMode) : bool :=
  match m with AsyncToolCall => true | BlockingToolCall => false end.

(** ** The writer *)

(** [word32BE], [word16BE]. *)
Definition be (w : nat) (v : Z) : list byte := rev (le_split w v).

Definition maxNativeFieldBytes : Z := 16 * 1024 * 1024.
Definition maxWord32 : Z := 2 ^ 32 - 1.

Definition field (value : option text) : option (list byte) :=
  match value with
  | None => Some (be 4 maxWord32)
  | Some value =>
      let bytes := utf8_encode value in
      if maxNativeFieldBytes <? zlen bytes then None
      else Some (be 4 (u32 (zlen bytes)) ++ bytes)
  end.

Fixpoint traverse_fields (fields : list (option text)) : option (list byte) :=
  match fields with
  | [] => Some []
  | f :: fields =>
      b ← field f;
      bs ← traverse_fields fields;
      Some (b ++ bs)
  end.

Definition haev : list byte := utf8_encode (txt "HAEV").

Definition frame (kind flags : Z) (turnId : text) (fields : list (option text))
    : option (list byte) :=
  turnIdField ← field (Some turnId);
  fields' ← traverse_fields fields;
  Some (haev ++ be 1 1 ++ be 1 kind ++ be 2 flags ++ turnIdField ++ fields').

Definition boundedEventText (value : text) : text * bool :=
  (ztake 8192 value, negb (bool_decide (zdrop 8192 value = []))).

Section Writer.

(** Parts of the engine that choose texts: the summary of a call (Render.hs), the redaction
    of screenshots, the chart document of a result and its summary (RenderChart.hs), and
    the decimal notation of a cost. *)
Context (summarizeToolCall : ToolCall -> text) (redactComputerScreenshot : text -> text)
  (chartResultDocument chartResultSummary : text -> option text).

Definition encodeNativeUsageEvent (aggregate : bool) (turnId : text) (usage : TokenUsage)
    (providerCost : option text) : option (list byte) :=
  frame (if aggregate then 7 else 6) 0 turnId
    [Some (show_text (inputTokens usage)); Some (show_text (outputTokens usage));
     Some (show_text (cachedTokens usage)); providerCost].

Definition toolStartedEvent (turnId : text) (call : ToolCall) : option (list byte) :=
  let '(arguments, truncated) :=
    boundedEventText (if tc_argumentsEncrypted call then [] else tc_arguments call) in
  let flags :=
    (if tc_argumentsEncrypted call then 1 else 0) + (if truncated then 2 else 0)
    + (if is_async (tc_mode call) then 4 else 0) in
  frame 4 flags turnId
    [Some (tc_callId call); Some (tc_name call); Some (summarizeToolCall call); Some arguments].

(** The chart that a finished call contributes: only for a call that was announced as one. *)
Definition finished_chart (chartCalls : text -> bool) (result : ToolCallResult) : option text :=
  if chartCalls (tr_callId result) && tr_succeeded result
  then chartResultDocument (tr_output result) else None.

Definition finished_output (chartCalls : text -> bool) (result : ToolCallResult) : text :=
  if tr_computer result then redactComputerScreenshot (tr_output result)
  else match finished_chart chartCalls result with
       | Some _ => default (tr_output result) (chartResultSummary (tr_output result))
       | None => tr_output result
       end.

Definition encodeNativeLoopEventWithChartCalls (chartCalls : text -> bool) (turnId : text)
    (event : LoopEvent) : option (list byte) :=
  let textEvent := fun kind t => frame kind 0 turnId [Some t] in
  match event with
  | ReasoningDelta t => textEvent 1 t
  | TextDelta t => textEvent 2 t
  | PlanDelta t => textEvent 2 t
  | ActivityUpdated t => textEvent 3 t
  | WarningRaised t => textEvent 3 t
  | ResponseRestarted t => textEvent 3 t
  | ToolStarted call | ToolUpdated call | ToolArgumentsUpdated call =>
      toolStartedEvent turnId call
  | ToolFinished result =>
      let chart := finished_chart chartCalls result in
      let '(output, truncated) := boundedEventText (finished_output chartCalls result) in
      let flags :=
        (if truncated then 2 else 0) + (if is_async (tr_mode result) then 4 else 0)
        + (if bool_decide (is_Some chart) then 8 else 0) in
      frame 5 flags turnId
        ([Some (tr_callId result); Some output] ++ (if bool_decide (is_Some chart) then [chart] else []))
  | TurnFinished usage => encodeNativeUsageEvent false turnId usage None
  | OtherLoopEvent => None
  end.

(** ** The header's reader *)

Definition read_be (l : list byte) : Z := le_combine (rev l).

(** "Length-prefixed": a length of 32 bits and as many bytes; and the rest.  The header knows no
    other field; with [marks], a length of 2^32 - 1 is that of an absent one, as it is in
    NativeLoopEvent.hs. *)
Definition read_field (marks : bool) (l : list byte) : option (option text * list byte) :=
  if zlen l <? 4 then None
  else
    let len := read_be (ztake 4 l) in
    let rest := zdrop 4 l in
    if marks && (len =? maxWord32) then Some (None, rest)
    else if zlen rest <? len then None
    else t ← utf8_decode (ztake len rest); Some (Some t, zdrop len rest).

Fixpoint read_fields (marks : bool) (fuel : nat) (l : list byte) : option (list (option text)) :=
  match l, fuel with
  | [], _ => Some []
  | _, O => None
  | _, S fuel =>
      '(f, rest) ← read_field marks l;
      fs ← read_fields marks fuel rest;
      Some (f :: fs)
  end.

(** Kind, flags, turn identifier and fields of a version 1 frame. *)
Definition read_frame (marks : bool) (l : list byte) : option (Z * Z * text * list (option text)) :=
  if negb (bool_decide (ztake 4 l = haev)) || (zlen l <? 8)
     || negb (read_be (ztake 1 (zdrop 4 l)) =? 1) then None
  else
    let kind := read_be (ztake 1 (zdrop 5 l)) in
    let flags := read_be (ztake 2 (zdrop 6 l)) in
    fs ← read_fields marks (length l) (zdrop 8 l);
    match fs with
    | Some turn :: fs => Some (kind, flags, turn, fs)
    | _ => None
    end.

(** What the header says a frame means. *)
Inductive native_event :=
  | native_reasoning (t : text)
  | native_text (t : text)
  | native_status (t : text)
  | native_tool (call_id name summary arguments : text) (encrypted truncated async : bool)
  | native_tool_finished (call_id output : text) (truncated async : bool) (chart : option text)
  | native_usage (aggregate : bool) (input output cached : text) (cost : option text).

(** "The cost field is absent when unavailable": it is not there, or marked as such. *)
Definition read_cost (rest : list (option text)) : option (option text) :=
  match rest with
  | [] => Some None
  | [cost] => Some cost
  | _ => None
  end.

Definition native_event_of (kind flags : Z) (fs : list (option text)) : option native_event :=
  let bit := Z.testbit flags in
  match kind, fs with
  | 1, [Some t] => Some (native_reasoning t)
  | 2, [Some t] => Some (native_text t)
  | 3, [Some t] => Some (native_status t)
  | 4, [Some call; Some name; Some summary; Some arguments] =>
      Some (native_tool call name summary arguments (bit 0) (bit 1) (bit 2))
  | 5, Some call :: Some output :: rest =>
      match rest, bit 3 with
      | [Some chart], true => Some (native_tool_finished call output (bit 1) (bit 2) (Some chart))
      | [], false => Some (native_tool_finished call output (bit 1) (bit 2) None)
      | _, _ => None
      end
  | 6, Some i :: Some o :: Some c :: cost => native_usage false i o c <$> read_cost cost
  | 7, Some i :: Some o :: Some c :: cost => native_usage true i o c <$> read_cost cost
  | _, _ => None
  end.

Definition read_event (marks : bool) (l : list byte) : option (text * native_event) :=
  '(kind, flags, turn, fs) ← read_frame marks l;
  e ← native_event_of kind flags fs;
  Some (turn, e).

(** ** What an event means *)

Definition visible (t : text) : text := ztake 8192 t.
Definition is_truncated (t : text) : bool := (8192 <? zlen t).

Definition tool_event (call : ToolCall) : native_event :=
  let arguments := if tc_argumentsEncrypted call then [] else tc_arguments call in
  native_tool (tc_callId call) (tc_name call) (summarizeToolCall call) (visible arguments)
    (tc_argumentsEncrypted call) (is_truncated arguments) (is_async (tc_mode call)).

Definition meaning (chartCalls : text -> bool) (event : LoopEvent) : option native_event :=
  match event with
  | ReasoningDelta t => Some (native_reasoning t)
  | TextDelta t | PlanDelta t => Some (native_text t)
  | ActivityUpdated t | WarningRaised t | ResponseRestarted t => Some (native_status t)
  | ToolStarted call | ToolUpdated call | ToolArgumentsUpdated call => Some (tool_event call)
  | ToolFinished r =>
      let output := finished_output chartCalls r in
      Some (native_tool_finished (tr_callId r) (visible output) (is_truncated output)
              (is_async (tr_mode r)) (finished_chart chartCalls r))
  | TurnFinished u =>
      Some (native_usage false (show_text (inputTokens u)) (show_text (outputTokens u))
              (show_text (cachedTokens u)) None)
  | OtherLoopEvent => None
  end.

(** Usage that comes without a cost. *)
Definition without_cost (e : native_event) : bool :=
  match e with native_usage _ _ _ _ None => true | _ => false end.

(** ** Round trip *)

Definition field_ok (f : option text) : Prop :=
  match f with Some t => Forall scalar t | None => True end.

Lemma length_be w v : length (be w v) = w.
Proof. unfold be. by rewrite length_rev, length_le_split. Qed.

Lemma read_be_be w v : read_be (be w v) = v mod 2 ^ (8 * Z.of_nat w).
Proof. unfold read_be, be. rewrite rev_involutive, le_combine_split. f_equal. f_equal. lia. Qed.

Lemma take_be w v l : ztake (Z.of_nat w) (be w v ++ l) = be w v.
Proof. rewrite <- (length_be w v) at 1. apply ztake_app. Qed.

Lemma drop_be w v l : zdrop (Z.of_nat w) (be w v ++ l) = l.
Proof. rewrite <- (length_be w v) at 1. apply zdrop_app. Qed.

(** A length is never mistaken for the mark of an absent field: fields are bounded. *)
Lemma read_field_written marks f b rest :
  field f = Some b -> field_ok f -> (f = None -> marks = true) ->
  read_field marks (b ++ rest) = Some (f, rest) /\ (4 <= length b)%nat.
Proof.
  unfold field, field_ok, read_field. destruct f as [t|].
  - destruct (Z.ltb_spec maxNativeFieldBytes (zlen (utf8_encode t))) as [|Hmax]; [done|].
    intros Hb%(inj Some) Ht _. subst b. set (bs := utf8_encode t) in *. unfold maxNativeFieldBytes in Hmax.
    assert (Hlen : u32 (zlen bs) = zlen bs) by (apply u32_id; unfold is_u32; lia).
    rewrite <- app_assoc, Hlen. split; [|rewrite length_app, length_be; lia].
    destruct (Z.ltb_spec (zlen (be 4 (zlen bs) ++ bs ++ rest)) 4) as [Hs|_];
      [rewrite length_app, length_be in Hs; lia|].
    change 4 with (Z.of_nat 4). rewrite take_be, drop_be, read_be_be, Z.mod_small by lia.
    unfold maxWord32. destruct (Z.eqb_spec (zlen bs) (2 ^ 32 - 1)); [lia|]. rewrite andb_false_r.
    destruct (Z.ltb_spec (zlen (bs ++ rest)) (zlen bs)) as [Hs|_]; [rewrite length_app in Hs; lia|].
    rewrite ztake_app, zdrop_app. unfold bs. by rewrite utf8_roundtrip.
  - intros Hb%(inj Some) _ ->; [|done]. subst b. split; [|by rewrite length_be].
    destruct (Z.ltb_spec (zlen (be 4 maxWord32 ++ rest)) 4) as [Hs|_];
      [rewrite length_app, length_be in Hs; lia|].
    change 4 with (Z.of_nat 4). rewrite take_be, drop_be, read_be_be. reflexivity.
Qed.

(** By the header the mark is the length of a field of which most is missing. *)
Lemma read_field_mark rest : zlen rest < maxWord32 -> read_field false (be 4 maxWord32 ++ rest) = None.
Proof.
  intros Hr. unfold read_field. destruct (_ <? 4); [done|].
  change 4 with (Z.of_nat 4). rewrite take_be, drop_be, read_be_be. cbn [andb].
  unfold maxWord32 in *. rewrite Z.mod_small by lia. by rewrite (proj2 (Z.ltb_lt _ _) Hr).
Qed.

Lemma traverse_fields_cons f fs bs :
  traverse_fields (f :: fs) = Some bs ->
  exists b bs', field f = Some b /\ traverse_fields fs = Some bs' /\ bs = b ++ bs'.
Proof.
  cbn [traverse_fields]. destruct (field f) as [b|]; [|done].
  destruct (traverse_fields fs) as [bs'|]; [|done]. intros H%(inj Some). subst bs. eauto.
Qed.

Lemma read_fields_written marks fs : forall bs fuel,
  traverse_fields fs = Some bs -> Forall field_ok fs -> (None ∈ fs -> marks = true) ->
  (length bs <= fuel)%nat -> read_fields marks fuel bs = Some fs.
Proof.
  induction fs as [|f fs IH]; intros bs fuel Hw Hok Hm Hfuel.
  - injection Hw as <-. by destruct fuel.
  - apply traverse_fields_cons in Hw as (b & bs' & Hb & Hw & ->).
    apply list.Forall_cons in Hok as [Hf Hok].
    destruct (read_field_written marks f b bs' Hb Hf) as [Hr Hl]; [intros ->; apply Hm; left|].
    rewrite length_app in Hfuel.
    destruct b as [|x b]; [cbn in Hl; lia|]. destruct fuel as [|fuel]; [cbn in Hfuel; lia|].
    cbn [read_fields app]. cbn [app] in Hr. rewrite Hr. cbn [mbind option_bind].
    rewrite (IH bs' fuel); [done..| |].
    + intros H. apply Hm. by right.
    + cbn in Hfuel. lia.
Qed.

(** A marked field at the end is one too many for a reader by the header. *)
Lemma read_fields_marked fs : forall bs fuel,
  traverse_fields (map Some fs ++ [None]) = Some bs -> Forall (Forall scalar) fs ->
  read_fields false fuel bs = None.
Proof.
  induction fs as [|f fs IH]; intros bs fuel Hw Hok.
  - assert (bs = be 4 maxWord32 ++ []) as -> by (by apply (inj Some)).
    destruct fuel; [by vm_compute in Hw|].
    change (read_fields false (S fuel) (be 4 maxWord32 ++ [])) with
      ('(f, rest) ← read_field false (be 4 maxWord32 ++ []); fs ← read_fields false fuel rest; Some (f :: fs)).
    by rewrite read_field_mark.
  - apply traverse_fields_cons in Hw as (b & bs' & Hb & Hw & ->).
    apply list.Forall_cons in Hok as [Hf Hok].
    destruct (read_field_written false (Some f) b bs' Hb Hf) as [Hr Hl]; [done|].
    destruct b as [|x b]; [cbn in Hl; lia|]. destruct fuel as [|fuel]; [done|].
    cbn [read_fields app]. cbn [app] in Hr. rewrite Hr. cbn [mbind option_bind].
    by rewrite (IH bs' fuel).
Qed.

(** The head of a frame, and what follows it. *)
Lemma read_frame_head marks kind flags turnId fs l :
  frame kind flags turnId fs = Some l -> 0 <= kind < 256 -> 0 <= flags < 65536 ->
  exists bs, traverse_fields (Some turnId :: fs) = Some bs /\ (length bs <= length l)%nat
  /\ read_frame marks l =
       (fs ← read_fields marks (length l) bs;
        match fs with Some turn :: fs => Some (kind, flags, turn, fs) | _ => None end).
Proof.
  unfold frame. intros Hw Hk Hf.
  destruct (field (Some turnId)) as [tb|] eqn:Et; [|done].
  destruct (traverse_fields fs) as [fb|] eqn:Ef; [|done].
  apply (inj Some) in Hw. subst l. unfold read_frame.
  assert (H4 : forall l, ztake 4 (haev ++ l) = haev) by (intros l0; apply (ztake_app haev)).
  assert (Hd : forall n l, 0 <= n -> zdrop (4 + n) (haev ++ l) = zdrop n l).
  { intros n l0 Hn. unfold zdrop. replace (Z.to_nat (4 + n)) with (4 + Z.to_nat n)%nat by lia.
    rewrite <- drop_drop. f_equal. }
  assert (Hd1 : forall v n l, 0 <= n -> zdrop (1 + n) (be 1 v ++ l) = zdrop n l).
  { intros v n l0 Hn. unfold zdrop. replace (Z.to_nat (1 + n)) with (1 + Z.to_nat n)%nat by lia.
    by rewrite <- drop_drop. }
  rewrite H4, bool_decide_true by done. cbn [negb orb].
  destruct (Z.ltb_spec (zlen (haev ++ be 1 1 ++ be 1 kind ++ be 2 flags ++ tb ++ fb)) 8) as [Hs|_].
  { rewrite !length_app, !length_be in Hs. assert (length haev = 4%nat) by reflexivity. lia. }
  change 8 with (4 + (1 + (1 + 2))). rewrite (Hd (1 + (1 + 2))), !Hd1 by lia.
  change 6 with (4 + (1 + (1 + 0))). rewrite (Hd (1 + (1 + 0))), !Hd1 by lia.
  change 5 with (4 + (1 + 0)). rewrite (Hd (1 + 0)), !Hd1 by lia.
  change (zdrop 4 (haev ++ be 1 1 ++ be 1 kind ++ be 2 flags ++ tb ++ fb))
    with (zdrop (4 + 0) (haev ++ be 1 1 ++ be 1 kind ++ be 2 flags ++ tb ++ fb)).
  rewrite Hd by lia. assert (H0 : forall l : list byte, zdrop 0 l = l) by done. rewrite !H0.
  change (ztake 1) with (@ztake byte (Z.of_nat 1)). change (ztake 2) with (@ztake byte (Z.of_nat 2)).
  change (zdrop 2) with (@zdrop byte (Z.of_nat 2)).
  rewrite !take_be, drop_be, !read_be_be. cbn [negb].
  exists (tb ++ fb). split; [by cbn [traverse_fields]; rewrite Et, Ef|].
  split; [rewrite !length_app; lia|]. by rewrite !Z.mod_small by lia.
Qed.

Lemma read_frame_written marks kind flags turnId fs l :
  frame kind flags turnId fs = Some l ->
  0 <= kind < 256 -> 0 <= flags < 65536 -> Forall scalar turnId -> Forall field_ok fs ->
  (None ∈ fs -> marks = true) ->
  read_frame marks l = Some (kind, flags, turnId, fs).
Proof.
  intros Hw Hk Hf Ht Hfs Hm. destruct (read_frame_head marks _ _ _ _ _ Hw Hk Hf) as (bs & Hbs & Hl & ->).
  rewrite (read_fields_written marks (Some turnId :: fs)); [done|done|by constructor| |done].
  intros [[=]|H]%elem_of_cons. by apply Hm.
Qed.

(** The texts that the engine hands to the writer. *)
Definition event_texts (chartCalls : text -> bool) (event : LoopEvent) : list text :=
  match event with
  | TextDelta t | PlanDelta t | ReasoningDelta t | ActivityUpdated t | WarningRaised t
  | ResponseRestarted t => [t]
  | ToolStarted c | ToolUpdated c | ToolArgumentsUpdated c =>
      [tc_callId c; tc_name c; summarizeToolCall c; tc_arguments c]
  | ToolFinished r =>
      [tr_callId r; finished_output chartCalls r] ++ option_list (finished_chart chartCalls r)
  | TurnFinished u =>
      [show_text (inputTokens u); show_text (outputTokens u); show_text (cachedTokens u)]
  | OtherLoopEvent => []
  end.

Lemma boundedEventText_eq t : boundedEventText t = (visible t, is_truncated t).
Proof.
  unfold boundedEventText, visible, is_truncated. f_equal.
  destruct (Z.ltb_spec 8192 (zlen t)) as [Hl|Hl].
  - rewrite bool_decide_false; [done|]. intros E.
    apply (f_equal (fun l => zlen l)) in E. rewrite zlen_zdrop in E by lia. cbn in E. lia.
  - rewrite bool_decide_true; [done|]. unfold zdrop. apply drop_ge. lia.
Qed.

Lemma visible_ok t : Forall scalar t -> Forall scalar (visible t).
Proof. apply Forall_take. Qed.

Lemma read_event_written marks kind flags turnId fs l e :
  frame kind flags turnId fs = Some l ->
  0 <= kind < 256 -> 0 <= flags < 65536 -> Forall scalar turnId -> Forall field_ok fs ->
  (None ∈ fs -> marks = true) -> native_event_of kind flags fs = Some e ->
  read_event marks l = Some (turnId, e).
Proof.
  intros Hw Hk Hf Ht Hfs Hm He. unfold read_event.
  rewrite (read_frame_written marks kind flags turnId fs) by done. cbn [mbind option_bind].
  by rewrite He.
Qed.

Lemma tool_started_round_trip marks turnId call l :
  toolStartedEvent turnId call = Some l -> Forall scalar turnId ->
  Forall (Forall scalar)
    [tc_callId call; tc_name call; summarizeToolCall call; tc_arguments call] ->
  read_event marks l = Some (turnId, tool_event call).
Proof.
  unfold toolStartedEvent, tool_event. rewrite boundedEventText_eq.
  set (a := if tc_argumentsEncrypted call then [] else tc_arguments call).
  rewrite !list.Forall_cons. intros Hw Ht (H1 & H2 & H3 & H4 & _).
  assert (Ha : Forall scalar a) by (unfold a; by destruct (tc_argumentsEncrypted call)).
  eapply read_event_written; [exact Hw|lia| |done| | |].
  - destruct (tc_argumentsEncrypted call), (is_truncated a), (is_async (tc_mode call)); lia.
  - repeat constructor; try done. by apply visible_ok.
  - rewrite !elem_of_cons, elem_of_nil. by intros [?|[?|[?|[?|?]]]].
  - by destruct (tc_argumentsEncrypted call), (is_truncated a), (is_async (tc_mode call)).
Qed.

Lemma tool_finished_round_trip marks chartCalls turnId r l :
  encodeNativeLoopEventWithChartCalls chartCalls turnId (ToolFinished r) = Some l ->
  Forall scalar turnId ->
  Forall (Forall scalar) (event_texts chartCalls (ToolFinished r)) ->
  (e ← meaning chartCalls (ToolFinished r); Some (turnId, e)) = read_event marks l.
Proof.
  cbn [encodeNativeLoopEventWithChartCalls event_texts meaning mbind option_bind].
  rewrite boundedEventText_eq. set (o := finished_output chartCalls r).
  intros Hw Ht Hts. symmetry.
  apply Forall_app in Hts as [Hts Hc]. rewrite !list.Forall_cons in Hts.
  destruct Hts as (H1 & H2 & _).
  eapply read_event_written; [exact Hw|lia| |done| | |].
  - destruct (is_truncated o), (is_async (tr_mode r)), (bool_decide _); lia.
  - constructor; [done|]. constructor; [by apply visible_ok|].
    destruct (finished_chart chartCalls r) as [c|]; [|constructor].
    cbn in Hc. constructor; [|constructor]. by inversion Hc.
  - destruct (finished_chart chartCalls r) as [c|]; cbn;
      rewrite !elem_of_cons, elem_of_nil; [by intros [?|[?|[?|?]]]|by intros [?|[?|?]]].
  - destruct (finished_chart chartCalls r) as [c|];
      by destruct (is_truncated o), (is_async (tr_mode r)).
Qed.

Lemma show_text_scalar z : Forall scalar (show_text z).
Proof. apply txt_scalar. Qed.

(** Usage, with and without a cost, to both readers. *)
Lemma usage_round_trip aggregate turnId usage cost l :
  encodeNativeUsageEvent aggregate turnId usage cost = Some l -> Forall scalar turnId -> field_ok cost ->
  let e := native_usage aggregate (show_text (inputTokens usage)) (show_text (outputTokens usage))
             (show_text (cachedTokens usage)) cost in
  read_event true l = Some (turnId, e)
  /\ read_event false l = if without_cost e then None else Some (turnId, e).
Proof.
  intros Hw Ht Hc e. unfold encodeNativeUsageEvent in Hw.
  pose proof (show_text_scalar (inputTokens usage)) as Hi.
  pose proof (show_text_scalar (outputTokens usage)) as Ho.
  pose proof (show_text_scalar (cachedTokens usage)) as Ha.
  assert (0 <= (if aggregate then 7 else 6) < 256) as Hk by (destruct aggregate; lia).
  split.
  - eapply read_event_written; [exact Hw|exact Hk|lia|done|by repeat constructor|done|by destruct aggregate].
  - destruct cost as [cost|]; cbn [without_cost e].
    + eapply read_event_written; [exact Hw|exact Hk|lia|done|by repeat constructor| |by destruct aggregate].
      rewrite !elem_of_cons, elem_of_nil. by intros [?|[?|[?|[?|?]]]].
    + unfold read_event. destruct (read_frame_head false _ _ _ _ _ Hw Hk ltac:(lia)) as (bs & Hbs & _ & ->).
      rewrite (read_fields_marked [turnId; show_text (inputTokens usage); show_text (outputTokens usage);
        show_text (cachedTokens usage)]); [done|exact Hbs|by repeat constructor].
Qed.

(** C25: a reader that follows the header understands the frames that the writer emits, of loop
    events and of usage, as what was meant: kind, turn and texts (those of tools cut to 8192
    characters, with the truncation bit set exactly when something was cut), encryption,
    asynchrony, charts, counts and cost.  The one exception is usage without a cost: to the header
    its frame is malformed, since the writer marks the absent field with a length of 2^32 - 1; a
    reader that knows the mark understands those frames too. *)
Theorem loop_event_round_trip turnId :
  Forall scalar turnId ->
  (forall chartCalls event l,
     Forall (Forall scalar) (event_texts chartCalls event) ->
     encodeNativeLoopEventWithChartCalls chartCalls turnId event = Some l ->
     exists e, meaning chartCalls event = Some e
     /\ read_event true l = Some (turnId, e)
     /\ read_event false l = if without_cost e then None else Some (turnId, e))
  /\ (forall aggregate usage cost l, field_ok cost ->
     encodeNativeUsageEvent aggregate turnId usage cost = Some l ->
     let e := native_usage aggregate (show_text (inputTokens usage)) (show_text (outputTokens usage))
                (show_text (cachedTokens usage)) cost in
     read_event true l = Some (turnId, e)
     /\ read_event false l = if without_cost e then None else Some (turnId, e)).
Proof.
  intros Ht. split; [|intros; by apply usage_round_trip].
  intros chartCalls event l Hts Hw. destruct event.
  all: try solve [eexists; split; [reflexivity|]; cbn [without_cost]; split; (eapply read_event_written;
    [exact Hw|lia|lia|done|constructor; [by inversion Hts|constructor]
    |rewrite !elem_of_cons, elem_of_nil; by intros [?|?]|reflexivity])].
  all: try (eexists; split; [reflexivity|]; cbn [without_cost tool_event]; split; by apply tool_started_round_trip).
  - pose proof (fun marks => tool_finished_round_trip marks chartCalls turnId result l Hw Ht Hts) as H.
    eexists. split; [reflexivity|]. split; by rewrite <- H.
  - eexists. split; [reflexivity|]. by apply (usage_round_trip false).
  - done.
Qed.

(** A text within the limit of a field. *)
Definition fits (t : text) : Prop := zlen (utf8_encode t) <= maxNativeFieldBytes.

Definition field_fits (f : option text) : Prop := match f with Some t => fits t | None => True end.

Lemma field_emitted f : field_fits f -> exists b, field f = Some b.
Proof.
  unfold field_fits, fits, field. destruct f as [t|]; [|eauto].
  destruct (Z.ltb_spec maxNativeFieldBytes (zlen (utf8_encode t))); [lia|eauto].
Qed.

Lemma frame_emitted kind flags turnId fs :
  fits turnId -> Forall field_fits fs -> frame kind flags turnId fs <> None.
Proof.
  intros Ht Hfs. unfold frame.
  destruct (field_emitted (Some turnId) Ht) as [tb ->]. cbn [mbind option_bind].
  assert (exists bs, traverse_fields fs = Some bs) as [bs ->]; [|done].
  induction Hfs as [|f fs Hf Hfs [bs IH]]; [by eexists|]. cbn [traverse_fields].
  destruct (field_emitted f Hf) as [b ->]. rewrite IH. by eexists.
Qed.

(** Cutting a text does not lengthen its encoding. *)
Lemma visible_fits t : fits t -> fits (visible t).
Proof.
  unfold fits, visible. intros H. rewrite <- (ztake_zdrop 8192 t), utf8_encode_app, length_app in H.
  lia.
Qed.

(** An event is dropped only when it has no native frame or when one of its texts
    exceeds the field limit of 16 MiB; no frame of a bounded event is ever lost. *)
Theorem loop_event_emitted chartCalls turnId event :
  meaning chartCalls event <> None ->
  fits turnId -> Forall fits (event_texts chartCalls event) ->
  encodeNativeLoopEventWithChartCalls chartCalls turnId event <> None.
Proof.
  intros Hm Ht Hts. assert (fits []) as Hnil by done.
  destruct event; cbn [event_texts] in Hts; try done.
  all: cbn [encodeNativeLoopEventWithChartCalls]; unfold toolStartedEvent, encodeNativeUsageEvent.
  all: rewrite ?boundedEventText_eq; apply frame_emitted; [done|].
  all: try apply Forall_app in Hts as [Hts Hc]; rewrite ?list.Forall_cons in Hts; destruct_and!.
  all: repeat (apply list.Forall_cons; split); try done.
  all: try (apply visible_fits; try done; by destruct (tc_argumentsEncrypted call)).
  destruct (finished_chart chartCalls result) as [c|]; [|constructor].
  cbn in Hc. constructor; [by inversion Hc|constructor].
Qed.

End Writer.

(** A call with Unicode arguments and a usage without cost. *)
Definition demo_call : ToolCall :=
  Build_ToolCall (txt "call-1") (txt "search") ([955] ++ txt "-calculus") false AsyncToolCall.

Lemma loop_event_round_trip_witness :
  (exists l, encodeNativeLoopEventWithChartCalls tc_name id (fun _ => None) (fun _ => None)
              (fun _ => false) (txt "turn") (ToolStarted demo_call) = Some l
    /\ exists e, meaning tc_name id (fun _ => None) (fun _ => None) (fun _ => false)
                   (ToolStarted demo_call) = Some e
         /\ read_event false l = Some (txt "turn", e))
  /\ exists l, encodeNativeUsageEvent true (txt "turn") (Build_TokenUsage 12 34 5) (Some (txt "0.5")) = Some l
    /\ read_event false l =
         Some (txt "turn", native_usage true (txt "12") (txt "34") (txt "5") (Some (txt "0.5"))).
Proof.
  destruct (loop_event_round_trip tc_name id (fun _ => None) (fun _ => None) (txt "turn")
    (txt_scalar "turn")) as [H1 H2].
  split.
  - eexists. split; [vm_compute; reflexivity|].
    destruct (H1 (fun _ => false) (ToolStarted demo_call)
      (default [] (encodeNativeLoopEventWithChartCalls tc_name id (fun _ => None) (fun _ => None)
         (fun _ => false) (txt "turn") (ToolStarted demo_call)))) as (e & He & _ & Hr).
    + cbn [event_texts demo_call tc_callId tc_name tc_arguments].
      do 3 (apply list.Forall_cons; split; [apply txt_scalar|]).
      apply list.Forall_cons. split; [|constructor].
      apply list.Forall_cons. split; [left; lia|apply txt_scalar].
    + vm_compute. reflexivity.
    + exists e. split; [exact He|]. injection He as <-. exact Hr.
  - eexists. split; [vm_compute; reflexivity|].
    apply (H2 true (Build_TokenUsage 12 34 5) (Some (txt "0.5"))); [apply txt_scalar|].
    vm_compute. reflexivity.
Defined.

Lemma loop_event_emitted_witness :
  encodeNativeLoopEventWithChartCalls tc_name id (fun _ => None) (fun _ => None)
    (fun _ => false) (txt "turn") (TurnFinished (Build_TokenUsage 12 34 5)) <> None.
Proof.
  apply loop_event_emitted; [discriminate|vm_compute; discriminate|].
  repeat (constructor; [vm_compute; discriminate|]). constructor.
Defined.
