(* ===== verification/ComputerAbi.v ===== *)
(** * The computer bridge: one call of the host

    Native computer control goes through [ha_computer_callback] of HaskellAgentBridge.h,
    which writes its results into bounded buffers.  This file has the header's operations,
    statuses and capacities, the marshalling of one call (the [invokeComputerRaw],
    [readOutput] and [openComputerSession] of ComputerBridge.hs) and the header's contract
    for a reply; [computer_reply_accepted]: the runtime accepts a reply exactly when it
    satisfies the contract. *)

From stdpp Require Import base tactics option list strings.
From Stdlib Require Import ZArith Lia.
From coqutil Require Import Byte.
From S2P Require Import Prelude Utf8.
#[local] Open Scope Z_scope.

(** ** The header *)

Definition HA_COMPUTER_ABI_VERSION : Z := 3.

Inductive ha_computer_operation :=
  | HA_COMPUTER_OPEN
  | HA_COMPUTER_LIST
  | HA_COMPUTER_BIND
  | HA_COMPUTER_OBSERVE_OR_ACT
  | HA_COMPUTER_CLOSE
  | HA_COMPUTER_OPEN_ATTACHED
  | HA_COMPUTER_CAPABILITIES.

#[export] Instance ha_computer_operation_eq_dec : EqDecision ha_computer_operation.
Proof. solve_decision. Defined.

Definition ha_computer_operation_value (op : ha_computer_operation) : Z :=
  match op with
  | HA_COMPUTER_OPEN => 1
  | HA_COMPUTER_LIST => 2
  | HA_COMPUTER_BIND => 3
  | HA_COMPUTER_OBSERVE_OR_ACT => 4
  | HA_COMPUTER_CLOSE => 5
  | HA_COMPUTER_OPEN_ATTACHED => 6
  | HA_COMPUTER_CAPABILITIES => 7
  end.

Definition HA_COMPUTER_IMAGE_NONE : Z := 0.
Definition HA_COMPUTER_IMAGE_PNG : Z := 1.
Definition HA_COMPUTER_IMAGE_JPEG : Z := 2.

Inductive ha_computer_status :=
  | HA_COMPUTER_STATUS_SUCCESS
  | HA_COMPUTER_STATUS_INVALID_ARGUMENT
  | HA_COMPUTER_STATUS_UNAVAILABLE
  | HA_COMPUTER_STATUS_TIMEOUT
  | HA_COMPUTER_STATUS_PERMISSION_DENIED
  | HA_COMPUTER_STATUS_UNSUPPORTED
  | HA_COMPUTER_STATUS_FAILED
  | HA_COMPUTER_STATUS_OUTPUT_TOO_LARGE
  | HA_COMPUTER_STATUS_SESSION_LOCKED
  | HA_COMPUTER_STATUS_TARGET_STALE.

Definition ha_computer_status_value (s : ha_computer_status) : Z :=
  match s with
  | HA_COMPUTER_STATUS_SUCCESS => 0
  | HA_COMPUTER_STATUS_INVALID_ARGUMENT => 1
  | HA_COMPUTER_STATUS_UNAVAILABLE => 2
  | HA_COMPUTER_STATUS_TIMEOUT => 3
  | HA_COMPUTER_STATUS_PERMISSION_DENIED => 4
  | HA_COMPUTER_STATUS_UNSUPPORTED => 5
  | HA_COMPUTER_STATUS_FAILED => 6
  | HA_COMPUTER_STATUS_OUTPUT_TOO_LARGE => 7
  | HA_COMPUTER_STATUS_SESSION_LOCKED => 8
  | HA_COMPUTER_STATUS_TARGET_STALE => 9
  end.

(** Source compatibility for early ABI-v3 adopters. *)
Definition HA_COMPUTER_STATUS_DISPLAY_CHANGED : ha_computer_status := HA_COMPUTER_STATUS_TARGET_STALE.

Inductive ha_computer_limit :=
  | HA_COMPUTER_REQUEST_MAX_BYTES
  | HA_COMPUTER_RESULT_CAPACITY
  | HA_COMPUTER_ERROR_CAPACITY
  | HA_COMPUTER_IMAGE_CAPACITY
  | HA_COMPUTER_ACCESSIBILITY_CAPACITY.

Definition ha_computer_limit_value (l : ha_computer_limit) : Z :=
  match l with
  | HA_COMPUTER_REQUEST_MAX_BYTES => 1048576
  | HA_COMPUTER_RESULT_CAPACITY => 1048576
  | HA_COMPUTER_ERROR_CAPACITY => 65536
  | HA_COMPUTER_IMAGE_CAPACITY => 16777216
  | HA_COMPUTER_ACCESSIBILITY_CAPACITY => 524288
  end.

Coercion ha_computer_limit_value : ha_computer_limit >-> Z.

(** ** One call

    An output channel after the call: the length that the host stored through the length
    pointer (initially zero) and the bytes of the buffer, [None] for a null buffer. *)
Record channel := { ch_buffer : option (list byte); ch_length : Z }.

(** Everything that the host leaves behind when its callback returns. *)
Record computer_reply := {
  reply_status : Z;
  reply_result : channel;
  reply_accessibility : channel;
  reply_image : channel;
  reply_error : channel;
  reply_session_token : Z;
  reply_image_format : Z;
}.

Definition computerRequestCapacity : Z := 1024 * 1024.
Definition computerResultCapacity : Z := 1024 * 1024.
Definition computerAccessibilityCapacity : Z := 512 * 1024.
Definition computerImageCapacity : Z := 16 * 1024 * 1024.
Definition computerErrorCapacity : Z := 64 * 1024.

(** The capacity that the image channel is offered: none unless a screenshot is wanted. *)
Definition image_capacity (includeScreenshot : bool) : Z :=
  if includeScreenshot then computerImageCapacity else 0.

Record RawComputerResponse := {
  rawResult : list byte;
  rawAccessibility : list byte;
  rawImage : list byte;
  rawSessionToken : Z;
  rawImageFormat : Z;
}.

Definition readOutput (label : text) (capacity : Z) (c : channel) : text + list byte :=
  if capacity <? ch_length c then
    inl (txt "The native computer host reported " ++ label ++ txt " output beyond its buffer.")
  else if ch_length c =? 0 then inr []
  else match ch_buffer c with
       | None => inl (txt "The native computer host reported " ++ label
                      ++ txt " output without a buffer.")
       | Some b => inr (ztake (ch_length c) b)
       end.

Definition computerStatusMessage (status : Z) : text :=
  match status with
  | 1 => txt "The native computer host rejected an invalid argument."
  | 2 => txt "Native computer control is unavailable."
  | 3 => txt "The native computer operation timed out."
  | 4 => txt "Accessibility permission is required."
  | 5 => txt "The native computer host does not support this operation."
  | 6 => txt "The native computer host failed internally."
  | 7 => txt "A native computer output exceeded its bounded buffer."
  | 8 => txt "Computer use is unavailable while the macOS session is locked."
  | 9 => txt "The selected application or window is stale."
  | _ => txt "The native computer operation failed (status " ++ show_text status ++ txt ")."
  end.

Definition computerFailureMessage (status : Z) (bytes : list byte) : text :=
  match utf8_decode bytes with
  | Some (c :: message) => c :: message
  | _ => computerStatusMessage status
  end.

(** [invokeComputerRaw] after the callback has returned. *)
Definition computer_response (includeScreenshot : bool) (r : computer_reply)
    : text + RawComputerResponse :=
  match readOutput (txt "result") computerResultCapacity (reply_result r) with
  | inl e => inl e
  | inr resultValue =>
  match readOutput (txt "accessibility") computerAccessibilityCapacity (reply_accessibility r) with
  | inl e => inl e
  | inr accessibilityValue =>
  match readOutput (txt "image") (image_capacity includeScreenshot) (reply_image r) with
  | inl e => inl e
  | inr imageValue =>
  match readOutput (txt "error") computerErrorCapacity (reply_error r) with
  | inl e => inl e
  | inr errorValue =>
      if negb (reply_status r =? 0) then inl (computerFailureMessage (reply_status r) errorValue)
      else if negb (bool_decide (errorValue = [])) then
        inl (txt "The native computer host returned an error on success.")
      else inr (Build_RawComputerResponse resultValue accessibilityValue imageValue
                  (reply_session_token r) (reply_image_format r))
  end end end end.

(** ** The contract of a reply *)

(** The buffers are those that the runtime offered: a channel holds at least its capacity,
    and only the image channel of a call without a screenshot has none. *)
Definition offered (capacity : Z) (c : channel) : Prop :=
  0 <= ch_length c /\
  match ch_buffer c with
  | Some b => zlen b = capacity
  | None => capacity = 0
  end.

Definition reply_offered (includeScreenshot : bool) (r : computer_reply) : Prop :=
  offered HA_COMPUTER_RESULT_CAPACITY (reply_result r)
  /\ offered HA_COMPUTER_ACCESSIBILITY_CAPACITY (reply_accessibility r)
  /\ offered (if includeScreenshot then HA_COMPUTER_IMAGE_CAPACITY : Z else 0) (reply_image r)
  /\ offered HA_COMPUTER_ERROR_CAPACITY (reply_error r).

(** "Each length must not exceed its independent capacity." *)
Definition lengths_ok (includeScreenshot : bool) (r : computer_reply) : Prop :=
  ch_length (reply_result r) <= HA_COMPUTER_RESULT_CAPACITY
  /\ ch_length (reply_accessibility r) <= HA_COMPUTER_ACCESSIBILITY_CAPACITY
  /\ ch_length (reply_image r) <= (if includeScreenshot then HA_COMPUTER_IMAGE_CAPACITY : Z else 0)
  /\ ch_length (reply_error r) <= HA_COMPUTER_ERROR_CAPACITY.

(** The bytes of a channel. *)
Definition channel_bytes (c : channel) : list byte := ztake (ch_length c) (default [] (ch_buffer c)).

Lemma readOutput_inr label capacity c :
  offered capacity c -> ch_length c <= capacity -> readOutput label capacity c = inr (channel_bytes c).
Proof.
  intros [Hl Hb] Hc. unfold readOutput, channel_bytes.
  destruct (Z.ltb_spec capacity (ch_length c)); [lia|].
  destruct (Z.eqb_spec (ch_length c) 0) as [->|]; [done|].
  destruct (ch_buffer c); [done|lia].
Qed.

Lemma readOutput_bounded label capacity c b :
  readOutput label capacity c = inr b -> ch_length c <= capacity.
Proof. unfold readOutput. by destruct (Z.ltb_spec capacity (ch_length c)). Qed.

Lemma computer_response_read includeScreenshot r :
  reply_offered includeScreenshot r -> lengths_ok includeScreenshot r ->
  computer_response includeScreenshot r =
  if negb (reply_status r =? 0)
  then inl (computerFailureMessage (reply_status r) (channel_bytes (reply_error r)))
  else if negb (bool_decide (channel_bytes (reply_error r) = []))
  then inl (txt "The native computer host returned an error on success.")
  else inr (Build_RawComputerResponse (channel_bytes (reply_result r))
              (channel_bytes (reply_accessibility r)) (channel_bytes (reply_image r))
              (reply_session_token r) (reply_image_format r)).
Proof.
  intros (O1 & O2 & O3 & O4) (L1 & L2 & L3 & L4). unfold computer_response.
  assert (Hi : image_capacity includeScreenshot
               = if includeScreenshot then HA_COMPUTER_IMAGE_CAPACITY : Z else 0) by done.
  rewrite !readOutput_inr by (done || by rewrite Hi). done.
Qed.

Lemma channel_bytes_nil capacity c :
  offered capacity c -> ch_length c <= capacity -> channel_bytes c = [] <-> ch_length c = 0.
Proof.
  intros [Hl Hb] Hc. unfold channel_bytes. split.
  - intros E. apply (f_equal (fun l => zlen l)) in E.
    destruct (ch_buffer c) as [b|]; cbn [default id] in E; [|lia].
    rewrite zlen_ztake in E by lia. done.
  - intros ->. done.
Qed.

(** A reply is taken as a success exactly when the host reports success within the
    capacities of every channel and with no error text; its channels are then exactly the
    bytes that the host wrote, and a failure within the capacities carries the host's
    message, or the one for its status when it gave none that is valid text. *)
Theorem computer_reply_accepted includeScreenshot r :
  reply_offered includeScreenshot r ->
  ((exists raw, computer_response includeScreenshot r = inr raw) <->
   reply_status r = ha_computer_status_value HA_COMPUTER_STATUS_SUCCESS
   /\ lengths_ok includeScreenshot r /\ ch_length (reply_error r) = 0)
  /\ (forall raw, computer_response includeScreenshot r = inr raw ->
        rawResult raw = channel_bytes (reply_result r)
        /\ rawAccessibility raw = channel_bytes (reply_accessibility r)
        /\ rawImage raw = channel_bytes (reply_image r))
  /\ (reply_status r <> ha_computer_status_value HA_COMPUTER_STATUS_SUCCESS ->
      lengths_ok includeScreenshot r ->
      computer_response includeScreenshot r =
      inl match utf8_decode (channel_bytes (reply_error r)) with
          | Some (c :: message) => c :: message
          | _ => computerStatusMessage (reply_status r)
          end).
Proof.
  intros Ho. change (ha_computer_status_value HA_COMPUTER_STATUS_SUCCESS) with 0.
  assert (Hlen : forall raw, computer_response includeScreenshot r = inr raw ->
            lengths_ok includeScreenshot r).
  { intros raw. unfold computer_response.
    destruct (readOutput (txt "result") _ _) eqn:E1; [done|].
    destruct (readOutput (txt "accessibility") _ _) eqn:E2; [done|].
    destruct (readOutput (txt "image") _ _) eqn:E3; [done|].
    destruct (readOutput (txt "error") _ _) eqn:E4; [done|]. intros _.
    repeat split; by eapply readOutput_bounded. }
  assert (Herr : lengths_ok includeScreenshot r ->
            channel_bytes (reply_error r) = [] <-> ch_length (reply_error r) = 0).
  { intros (_ & _ & _ & L4). destruct Ho as (_ & _ & _ & O4). by eapply channel_bytes_nil. }
  split; [split|split].
  - intros [raw Hraw]. pose proof (Hlen _ Hraw) as Hl.
    rewrite computer_response_read in Hraw by done.
    destruct (Z.eqb_spec (reply_status r) 0); [|done]. cbn [negb] in Hraw.
    destruct (bool_decide_reflect (channel_bytes (reply_error r) = [])) as [He|]; [|done].
    split; [done|]. split; [done|]. by apply Herr.
  - intros (Hst & Hl & He). rewrite computer_response_read, Hst by done.
    apply Herr in He; [|done]. rewrite He, bool_decide_true by done. by eexists.
  - intros raw Hraw. rewrite computer_response_read in Hraw by (done || by eapply Hlen).
    repeat case_match; try done. by injection Hraw as <-.
  - intros Hst Hl. rewrite computer_response_read by done.
    by rewrite (proj2 (Z.eqb_neq _ _) Hst).
Qed.

(** ** Opening a session *)

Definition rawChannelsEmpty (r : RawComputerResponse) : bool :=
  bool_decide (rawResult r = []) && bool_decide (rawAccessibility r = [])
  && bool_decide (rawImage r = []) && (rawImageFormat r =? HA_COMPUTER_IMAGE_NONE).

(** What [openComputerSession] does with the reply to OPEN. *)
Inductive open_outcome :=
  | open_failed (message : text)
  | open_invalid (token : Z) (message : text)
  | opened (token : Z).

Definition open_outcome_of (r : computer_reply) : open_outcome :=
  match computer_response false r with
  | inl e => open_failed e
  | inr response =>
      if rawSessionToken response =? 0 then
        open_failed (txt "The native computer host returned an invalid session token.")
      else if negb (rawChannelsEmpty response) then
        open_invalid (rawSessionToken response)
          (txt "The native computer host returned data while opening a session.")
      else opened (rawSessionToken response)
  end.

(** The reply of a host that opens a session, and says nothing else. *)
Definition demo_channel (capacity : Z) : channel :=
  Build_channel (Some (replicate (Z.to_nat capacity) Byte.x00)) 0.

Definition demo_open_reply (token : Z) : computer_reply :=
  Build_computer_reply 0 (demo_channel HA_COMPUTER_RESULT_CAPACITY)
    (demo_channel HA_COMPUTER_ACCESSIBILITY_CAPACITY) (Build_channel None 0)
    (demo_channel HA_COMPUTER_ERROR_CAPACITY) token 0.

Lemma demo_channel_offered capacity : 0 <= capacity -> offered capacity (demo_channel capacity).
Proof.
  intros H. split; [cbn; lia|]. cbn [demo_channel ch_buffer]. rewrite length_replicate. lia.
Qed.

Lemma computer_reply_accepted_witness :
  reply_offered false (demo_open_reply 7)
  /\ exists raw, computer_response false (demo_open_reply 7) = inr raw.
Proof.
  assert (reply_offered false (demo_open_reply 7)) as Ho.
  { split; [by apply demo_channel_offered|]. split; [by apply demo_channel_offered|].
    split; [by split|by apply demo_channel_offered]. }
  split; [exact Ho|]. apply (computer_reply_accepted false (demo_open_reply 7) Ho).
  split; [reflexivity|]. split; [|reflexivity].
  repeat split; cbn [demo_open_reply demo_channel reply_result reply_accessibility reply_image
                     reply_error ch_length ha_computer_limit_value]; lia.
Defined.

Example demo_opened : open_outcome_of (demo_open_reply 7) = opened 7.
Proof. reflexivity. Qed.
