(* ===== verification/ComputerSessions.v ===== *)
(** * The computer bridge: sessions and registrations

    Replacing the computer callback takes effect at once for new sessions; a session that
    is open keeps the generation of the registration it was opened with, until its CLOSE
    has returned.  This file models the registration store and the sessions of
    ComputerBridge.hs as a step relation (opening, requests, closing and replacements
    interleave freely; requests of one session exclude each other), the header's contract
    for the calls of one session as an automaton ([session_call]), and shows that every
    execution respects it: [computer_sessions_protocol], and [computer_registration_retained]
    for the lifetime of a registration. *)

From stdpp Require Import base tactics option list gmap.
From Stdlib Require Import ZArith Lia.
From coqutil Require Import Byte.
From S2P Require Import Prelude Utf8 ComputerAbi.
#[local] Open Scope Z_scope.

(** ** The registration store *)

Record ComputerRegistration := { computerCallback : Z; computerContext : Z }.

Record RegistrationGeneration := {
  generationRegistration : ComputerRegistration;
  generationSessions : Z;
}.

Record ComputerHostState := {
  hostCurrentGeneration : option Z;
  hostGenerations : gmap Z RegistrationGeneration;
  hostNextGeneration : Z;
}.

Definition newComputerHost : ComputerHostState := Build_ComputerHostState None ∅ 1.

(** Forgets the current generation unless sessions use it. *)
Definition without_unused (st : ComputerHostState) : gmap Z RegistrationGeneration :=
  match hostCurrentGeneration st with
  | None => hostGenerations st
  | Some old =>
      match hostGenerations st !! old with
      | Some g => if generationSessions g =? 0 then delete old (hostGenerations st)
                  else hostGenerations st
      | None => hostGenerations st
      end
  end.

Definition replaceComputerRegistration (replacement : option ComputerRegistration)
    (st : ComputerHostState) : ComputerHostState :=
  match replacement with
  | None => Build_ComputerHostState None (without_unused st) (hostNextGeneration st)
  | Some registration =>
      let generation := hostNextGeneration st in
      Build_ComputerHostState (Some generation)
        (<[generation := Build_RegistrationGeneration registration 0]> (without_unused st))
        (u64 (generation + 1))
  end.

Definition acquireCurrentGeneration (st : ComputerHostState)
    : ComputerHostState * option (Z * ComputerRegistration) :=
  match hostCurrentGeneration st with
  | None => (st, None)
  | Some generation =>
      match hostGenerations st !! generation with
      | None => (st, None)
      | Some entry =>
          (Build_ComputerHostState (hostCurrentGeneration st)
             (<[generation := Build_RegistrationGeneration (generationRegistration entry)
                                (generationSessions entry + 1)]> (hostGenerations st))
             (hostNextGeneration st),
           Some (generation, generationRegistration entry))
      end
  end.

Definition releaseGeneration (generation : Z) (st : ComputerHostState) : ComputerHostState :=
  let updated :=
    match hostGenerations st !! generation with
    | None => hostGenerations st
    | Some entry =>
        let sessions := Z.max 0 (generationSessions entry - 1) in
        if (sessions =? 0) && negb (bool_decide (hostCurrentGeneration st = Some generation))
        then delete generation (hostGenerations st)
        else <[generation := Build_RegistrationGeneration (generationRegistration entry) sessions]>
               (hostGenerations st)
    end in
  Build_ComputerHostState (hostCurrentGeneration st) updated (hostNextGeneration st).

(** [ha_engine_set_computer_callback]: the status, or the registration to publish. *)
Definition ha_engine_set_computer_callback (engine callback context : Z)
    : Z + option ComputerRegistration :=
  if engine =? 0 then inl 1
  else inr (if callback =? 0 then None else Some (Build_ComputerRegistration callback context)).

(** ** Sessions *)

(** Where a session is: in its OPEN call, open, open but refused for the data that came with
    the token, in a request, or in its CLOSE call. *)
Inductive phase :=
  | Opening
  | Open (token : Z)
  | Invalid (token : Z)
  | Busy (token : Z)
  | Closing (token : Z).

Record session := {
  ss_generation : Z;
  ss_registration : ComputerRegistration;
  ss_phase : phase;
}.

Definition at_phase (x : session) (p : phase) : session :=
  Build_session (ss_generation x) (ss_registration x) p.

(** The store and the sessions that hold a lease on it. *)
Record computer := { cp_host : ComputerHostState; cp_sessions : gmap nat session; cp_fresh : nat }.

Definition computer_init : computer := Build_computer newComputerHost ∅ 0.

Definition set_session (i : nat) (x : session) (s : computer) : computer :=
  Build_computer (cp_host s) (<[i := x]> (cp_sessions s)) (cp_fresh s).

(** A session's lease ends. *)
Definition release (i : nat) (x : session) (s : computer) : computer :=
  Build_computer (releaseGeneration (ss_generation x) (cp_host s)) (delete i (cp_sessions s))
    (cp_fresh s).

Inductive event :=
  | ev_replace (reg : option ComputerRegistration)
  | ev_call (i : nat) (reg : ComputerRegistration) (op : ha_computer_operation) (token : Z)
      (request : list byte)
  | ev_reply (i : nat) (r : computer_reply)
  | ev_request_reply (i : nat)
  | ev_close_reply (i : nat).

(** The operations of a request, and CAPABILITIES, whose request is empty. *)
Definition request_ok (op : ha_computer_operation) (request : list byte) : Prop :=
  match op with
  | HA_COMPUTER_LIST | HA_COMPUTER_BIND | HA_COMPUTER_OBSERVE_OR_ACT =>
      zlen request <= computerRequestCapacity
  | HA_COMPUTER_CAPABILITIES => request = []
  | _ => False
  end.

Inductive step (s : computer) : event -> computer -> Prop :=
  | step_replace reg :
      step s (ev_replace reg)
        (Build_computer (replaceComputerRegistration reg (cp_host s)) (cp_sessions s) (cp_fresh s))
  (** [openComputerSession]: lease the current generation, call OPEN. *)
  | step_open attachment st generation reg :
      acquireCurrentGeneration (cp_host s) = (st, Some (generation, reg)) ->
      step s (ev_call (cp_fresh s) reg
                (if attachment =? 0 then HA_COMPUTER_OPEN else HA_COMPUTER_OPEN_ATTACHED)
                attachment [])
        (Build_computer st (<[cp_fresh s := Build_session generation reg Opening]> (cp_sessions s))
           (S (cp_fresh s)))
  | step_open_failed i x r message :
      cp_sessions s !! i = Some x -> ss_phase x = Opening ->
      open_outcome_of r = open_failed message ->
      step s (ev_reply i r) (release i x s)
  | step_opened i x r token :
      cp_sessions s !! i = Some x -> ss_phase x = Opening -> open_outcome_of r = opened token ->
      step s (ev_reply i r) (set_session i (at_phase x (Open token)) s)
  (** A session that must not be used, only closed ([closeInvalidOpen]). *)
  | step_open_invalid i x r token message :
      cp_sessions s !! i = Some x -> ss_phase x = Opening ->
      open_outcome_of r = open_invalid token message ->
      step s (ev_reply i r) (set_session i (at_phase x (Invalid token)) s)
  (** A request holds the session's lock until its callback has returned. *)
  | step_request i x token op request :
      cp_sessions s !! i = Some x -> ss_phase x = Open token -> request_ok op request ->
      step s (ev_call i (ss_registration x) op token request)
        (set_session i (at_phase x (Busy token)) s)
  | step_request_reply i x token :
      cp_sessions s !! i = Some x -> ss_phase x = Busy token ->
      step s (ev_request_reply i) (set_session i (at_phase x (Open token)) s)
  (** [closeComputerSession], [closeInvalidOpen]. *)
  | step_close i x token :
      cp_sessions s !! i = Some x -> ss_phase x = Open token \/ ss_phase x = Invalid token ->
      step s (ev_call i (ss_registration x) HA_COMPUTER_CLOSE token [])
        (set_session i (at_phase x (Closing token)) s)
  | step_close_reply i x token :
      cp_sessions s !! i = Some x -> ss_phase x = Closing token ->
      step s (ev_close_reply i) (release i x s).

Inductive reach : list event -> computer -> Prop :=
  | reach_init : reach [] computer_init
  | reach_step tr s e s' : reach tr s -> step s e s' -> reach (tr ++ [e]) s'.

(** ** The calls of a session *)

(** The tokens that OPEN returned to session [i], and those that CLOSE was called with. *)
Definition opened_token (i : nat) (e : event) : list Z :=
  match e with
  | ev_reply j r =>
      if decide (j = i) then
        match open_outcome_of r with
        | opened t | open_invalid t _ => [t]
        | open_failed _ => []
        end
      else []
  | _ => []
  end.

Definition closed_token (i : nat) (e : event) : list Z :=
  match e with
  | ev_call j _ HA_COMPUTER_CLOSE t _ => if decide (j = i) then [t] else []
  | _ => []
  end.

Definition opened_tokens (i : nat) (tr : list event) : list Z := flat_map (opened_token i) tr.
Definition closed_tokens (i : nat) (tr : list event) : list Z := flat_map (closed_token i) tr.

(** A call of session [i] begins, or returns. *)
Definition call_change (i : nat) (e : event) : Z :=
  match e with
  | ev_call j _ _ _ _ => if decide (j = i) then 1 else 0
  | ev_reply j _ | ev_request_reply j | ev_close_reply j => if decide (j = i) then -1 else 0
  | ev_replace _ => 0
  end.

Definition outstanding (i : nat) (tr : list event) : Z := foldr (fun e n => call_change i e + n) 0 tr.

(** Every call of session [i] goes through one registration. *)
Definition calls_through (i : nat) (reg : ComputerRegistration) (tr : list event) : Prop :=
  forall reg' op token request, In (ev_call i reg' op token request) tr -> reg' = reg.

Lemma outstanding_app i tr tr' : outstanding i (tr ++ tr') = outstanding i tr + outstanding i tr'.
Proof. induction tr as [|e tr IH]; [done|]. cbn. unfold outstanding in *. lia. Qed.

Lemma opened_tokens_app i tr tr' : opened_tokens i (tr ++ tr') = opened_tokens i tr ++ opened_tokens i tr'.
Proof. apply flat_map_app. Qed.

Lemma closed_tokens_app i tr tr' : closed_tokens i (tr ++ tr') = closed_tokens i tr ++ closed_tokens i tr'.
Proof. apply flat_map_app. Qed.

(** What the trace says of a session in a phase: tokens opened, tokens closed, calls
    outstanding. *)
Definition phase_trace (p : phase) : list Z * list Z * Z :=
  match p with
  | Opening => ([], [], 1)
  | Open t | Invalid t => ([t], [], 0)
  | Busy t => ([t], [], 1)
  | Closing t => ([t], [t], 1)
  end.

Definition trace_of (i : nat) (tr : list event) : list Z * list Z * Z :=
  (opened_tokens i tr, closed_tokens i tr, outstanding i tr).

Definition session_inv (tr : list event) (s : computer) (i : nat) : Prop :=
  match cp_sessions s !! i with
  | Some x => trace_of i tr = phase_trace (ss_phase x) /\ calls_through i (ss_registration x) tr
              /\ (i < cp_fresh s)%nat
  | None =>
      (exists l, trace_of i tr = (l, l, 0) /\ (length l <= 1)%nat)
      /\ (exists reg, calls_through i reg tr)
      /\ ((cp_fresh s <= i)%nat -> trace_of i tr = ([], [], 0)
            /\ forall reg, calls_through i reg tr)
  end.

(** An event that is not about session [i]. *)
Definition elsewhere (i : nat) (e : event) : Prop :=
  opened_token i e = [] /\ closed_token i e = [] /\ call_change i e = 0
  /\ forall reg op token request, e <> ev_call i reg op token request.

Lemma trace_of_snoc i tr e :
  trace_of i (tr ++ [e])
  = (opened_tokens i tr ++ opened_token i e, closed_tokens i tr ++ closed_token i e,
     outstanding i tr + call_change i e).
Proof.
  unfold trace_of. rewrite opened_tokens_app, closed_tokens_app, outstanding_app. cbn.
  rewrite !app_nil_r. repeat f_equal. lia.
Qed.

Lemma trace_of_elsewhere i tr e : elsewhere i e -> trace_of i (tr ++ [e]) = trace_of i tr.
Proof.
  intros (E1 & E2 & E3 & _). rewrite trace_of_snoc, E1, E2, E3, !app_nil_r. unfold trace_of.
  repeat f_equal. lia.
Qed.

Lemma calls_through_elsewhere i reg tr e :
  elsewhere i e -> calls_through i reg tr -> calls_through i reg (tr ++ [e]).
Proof.
  intros (_ & _ & _ & E) H reg' op token request Hin.
  apply in_app_or in Hin as [Hin|[->|[]]]; [by eapply H|]. by destruct (E reg' op token request).
Qed.

Lemma calls_through_call i reg tr op token request :
  calls_through i reg tr -> calls_through i reg (tr ++ [ev_call i reg op token request]).
Proof.
  intros H reg' op' token' request' Hin. apply in_app_or in Hin as [Hin|[[= -> _ _ _]|[]]]; [|done].
  by eapply H.
Qed.

Lemma calls_through_reply i reg tr e :
  (forall j reg op token request, e <> ev_call j reg op token request) ->
  calls_through i reg tr -> calls_through i reg (tr ++ [e]).
Proof.
  intros E H reg' op token request Hin.
  apply in_app_or in Hin as [Hin|[->|[]]]; [by eapply H|]. by destruct (E i reg' op token request).
Qed.

(** A step of another session leaves what is known about [i] alone. *)
Lemma session_inv_elsewhere tr s e s' i :
  elsewhere i e -> cp_sessions s' !! i = cp_sessions s !! i ->
  (cp_fresh s <= cp_fresh s')%nat ->
  session_inv tr s i -> session_inv (tr ++ [e]) s' i.
Proof.
  intros He Hi Hf. unfold session_inv. rewrite Hi, trace_of_elsewhere by done.
  destruct (cp_sessions s !! i) as [x|].
  - intros (? & ? & ?). split; [done|]. split; [by apply calls_through_elsewhere|lia].
  - intros (? & [reg ?] & Hnew). split; [done|].
    split; [exists reg; by apply calls_through_elsewhere|].
    intros Hle. destruct Hnew as [? Hr]; [lia|]. split; [done|]. intros reg'.
    by apply calls_through_elsewhere.
Qed.

(** The session that an event is about. *)
Definition event_session (e : event) : option nat :=
  match e with
  | ev_replace _ => None
  | ev_call i _ _ _ _ | ev_reply i _ | ev_request_reply i | ev_close_reply i => Some i
  end.

Lemma elsewhere_other i e : event_session e <> Some i -> elsewhere i e.
Proof.
  intros H. destruct e as [r|j reg op t rq|j r|j|j]; cbn in *; repeat split; cbn;
    rewrite ?decide_False by congruence; try done; try congruence.
  by destruct op.
Qed.

(** Session [i] moves to a phase, with an event whose contribution leads there. *)
Lemma session_inv_move tr s e i x p :
  session_inv tr s i -> cp_sessions s !! i = Some x ->
  (let '(o, c, n) := phase_trace (ss_phase x) in
   (o ++ opened_token i e, c ++ closed_token i e, n + call_change i e)) = phase_trace p ->
  (forall reg op token request, e = ev_call i reg op token request -> reg = ss_registration x) ->
  session_inv (tr ++ [e]) (set_session i (at_phase x p) s) i.
Proof.
  unfold session_inv. intros H Hi Hp Hreg. rewrite Hi in H.
  cbn [set_session cp_sessions cp_fresh]. rewrite lookup_insert_eq.
  destruct H as (Ht & Hc & Hf). split; [|split; [|done]].
  - rewrite trace_of_snoc. cbn [at_phase ss_phase]. rewrite <- Hp, <- Ht. done.
  - cbn [at_phase ss_registration]. intros reg op token request Hin.
    apply in_app_or in Hin as [Hin|[He|[]]]; [by eapply Hc|by eapply Hreg].
Qed.

(** Session [i] ends. *)
Lemma session_inv_release tr s e i x :
  session_inv tr s i -> cp_sessions s !! i = Some x ->
  (let '(o, c, n) := phase_trace (ss_phase x) in
   o ++ opened_token i e = c ++ closed_token i e /\ n + call_change i e = 0
   /\ (length (o ++ opened_token i e) <= 1)%nat) ->
  (forall reg op token request, e <> ev_call i reg op token request) ->
  session_inv (tr ++ [e]) (release i x s) i.
Proof.
  unfold session_inv. intros H Hi Hp He. rewrite Hi in H.
  cbn [release cp_sessions cp_fresh]. rewrite lookup_delete_eq.
  destruct H as (Ht & Hc & Hf). split; [|split].
  - rewrite trace_of_snoc. unfold trace_of in Ht. rewrite <- Ht in Hp.
    destruct Hp as (H1 & H2 & H3). rewrite H1, H2 in *. eauto.
  - exists (ss_registration x). intros reg op token request Hin.
    apply in_app_or in Hin as [Hin|[->|[]]]; [by eapply Hc|]. by destruct (He reg op token request).
  - lia.
Qed.

Lemma closed_token_request i reg op token request :
  request_ok op request -> closed_token i (ev_call i reg op token request) = [].
Proof. by destruct op. Qed.

Lemma session_inv_step tr s e s' :
  (forall i, session_inv tr s i) -> step s e s' -> forall i, session_inv (tr ++ [e]) s' i.
Proof.
  intros H Hstep i. specialize (H i).
  destruct (decide (event_session e = Some i)) as [Hi|Hi].
  - destruct Hstep as [reg|att st g reg Hacq|j x r m Hx Hp Ho|j x r t Hx Hp Ho|j x r t m Hx Hp Ho
                      |j x t op rq Hx Hp Hok|j x t Hx Hp|j x t Hx Hp|j x t Hx Hp];
      [done|cbn in Hi; injection Hi as <-..].
    + unfold session_inv in *. cbn [cp_sessions cp_fresh]. rewrite lookup_insert_eq.
      assert (trace_of (cp_fresh s) tr = ([], [], 0) /\ forall r, calls_through (cp_fresh s) r tr)
        as [Ht Hc].
      { destruct (cp_sessions s !! cp_fresh s) as [x|]; [lia|]. destruct H as (_ & _ & H).
        by apply H. }
      split; [|split; [by apply calls_through_call|lia]].
      rewrite trace_of_snoc. unfold trace_of in Ht. injection Ht as -> -> ->.
      destruct (att =? 0); cbn; by rewrite !decide_True by done.
    + eapply session_inv_release; [done..| |done]. rewrite Hp. cbn.
      rewrite !decide_True, Ho by done. cbn. repeat split; lia.
    + eapply session_inv_move; [done..| |done]. rewrite Hp. cbn. by rewrite !decide_True, Ho by done.
    + eapply session_inv_move; [done..| |done]. rewrite Hp. cbn. by rewrite !decide_True, Ho by done.
    + eapply session_inv_move; [done..| |intros ? ? ? ? [= -> _ _ _]; done].
      rewrite Hp, closed_token_request by done. cbn. by rewrite !decide_True by done.
    + eapply session_inv_move; [done..| |done]. rewrite Hp. cbn. by rewrite !decide_True by done.
    + eapply session_inv_move; [done..| |intros ? ? ? ? [= -> _ _ _]; done].
      destruct Hp as [-> | ->]; cbn; by rewrite !decide_True by done.
    + eapply session_inv_release; [done..| |done]. rewrite Hp. cbn.
      rewrite !decide_True by done. cbn. repeat split; lia.
  - apply (session_inv_elsewhere tr s); [by apply elsewhere_other| | |done].
    + destruct Hstep; cbn in *; rewrite ?lookup_insert_ne, ?lookup_delete_ne by congruence; done.
    + destruct Hstep; cbn; lia.
Qed.

Lemma reach_session_inv tr s : reach tr s -> forall i, session_inv tr s i.
Proof.
  induction 1 as [|tr s e s' Hr IH Hs].
  - intros i. unfold session_inv. cbn. rewrite lookup_empty.
    assert (forall reg, calls_through i reg []) as H by (intros reg ? ? ? ? []).
    split; [exists []; split; [done|cbn; lia]|].
    split; [by exists (Build_ComputerRegistration 0 0)|done].
  - by eapply session_inv_step.
Qed.

(** In every interleaving of sessions and replacements, the calls of one session are
    sequential and all go through the registration it was opened with; the host returns at
    most one token to it; CLOSE is called only with that token, at most once, and exactly
    once by the time the session has ended. *)
Theorem computer_closes_once tr s i :
  reach tr s ->
  closed_tokens i tr `prefix_of` opened_tokens i tr
  /\ (length (opened_tokens i tr) <= 1)%nat
  /\ 0 <= outstanding i tr <= 1
  /\ (exists reg, calls_through i reg tr)
  /\ (cp_sessions s !! i = None ->
      closed_tokens i tr = opened_tokens i tr /\ outstanding i tr = 0).
Proof.
  intros Hr. pose proof (reach_session_inv tr s Hr i) as H. unfold session_inv in H.
  destruct (cp_sessions s !! i) as [x|].
  - destruct H as (Ht & Hc & _). unfold trace_of in Ht.
    destruct (ss_phase x); injection Ht as -> -> ->; cbn; repeat split; try lia; eauto;
      first [apply prefix_nil | done].
  - destruct H as ((l & Ht & Hl) & Hc & _). unfold trace_of in Ht. injection Ht as -> -> ->.
    repeat split; try lia; done.
Qed.

(** ** The lifetime of a registration *)

(** The sessions that lease a generation. *)
Definition leases (g : Z) (m : gmap nat session) : Z :=
  Z.of_nat (size (filter (fun p => ss_generation p.2 = g) m)).

Lemma leases_insert g i x m :
  m !! i = None ->
  leases g (<[i := x]> m) = leases g m + if decide (ss_generation x = g) then 1 else 0.
Proof.
  intros Hi. unfold leases. destruct (decide (ss_generation x = g)) as [E|E].
  - rewrite map_filter_insert_True by done.
    rewrite map_size_insert_None; [lia|]. apply map_lookup_filter_None. by left.
  - rewrite map_filter_insert_False by done. rewrite delete_id by done. lia.
Qed.

Lemma leases_delete g i x m :
  m !! i = Some x ->
  leases g (delete i m) = leases g m - if decide (ss_generation x = g) then 1 else 0.
Proof.
  intros Hi. rewrite <- (insert_delete_id m i x Hi) at 2.
  rewrite leases_insert by apply lookup_delete_eq. lia.
Qed.

Lemma leases_update g i x p m :
  m !! i = Some x -> leases g (<[i := at_phase x p]> m) = leases g m.
Proof.
  intros Hi. rewrite <- (insert_delete_eq m i (at_phase x p)).
  rewrite leases_insert by apply lookup_delete_eq. rewrite (leases_delete g i x) by done.
  cbn [at_phase ss_generation]. lia.
Qed.

Lemma leases_nonneg g m : 0 <= leases g m.
Proof. unfold leases. lia. Qed.

Lemma leases_pos g i x m : m !! i = Some x -> ss_generation x = g -> 0 < leases g m.
Proof.
  intros Hi Hg. pose proof (leases_delete g i x m Hi) as H. rewrite decide_True in H by done.
  pose proof (leases_nonneg g (delete i m)). lia.
Qed.

(** The registrations that were published. *)
Fixpoint published (tr : list event) : Z :=
  match tr with
  | [] => 0
  | ev_replace (Some _) :: tr => 1 + published tr
  | _ :: tr => published tr
  end.

Lemma published_app tr tr' : published (tr ++ tr') = published tr + published tr'.
Proof. induction tr as [|e tr IH]; [done|]. destruct e as [[r|]| | | |]; cbn; lia. Qed.

Lemma published_nonneg tr : 0 <= published tr.
Proof. induction tr as [|e tr IH]; [done|]. destruct e as [[r|]| | | |]; cbn; lia. Qed.

Record store_inv (tr : list event) (s : computer) : Prop := {
  st_entry : forall g e, hostGenerations (cp_host s) !! g = Some e ->
    1 <= g < hostNextGeneration (cp_host s)
    /\ generationSessions e = leases g (cp_sessions s)
    /\ (0 < leases g (cp_sessions s) \/ hostCurrentGeneration (cp_host s) = Some g);
  st_lease : forall i x, cp_sessions s !! i = Some x ->
    exists e, hostGenerations (cp_host s) !! ss_generation x = Some e
      /\ generationRegistration e = ss_registration x;
  st_current : forall g, hostCurrentGeneration (cp_host s) = Some g ->
    is_Some (hostGenerations (cp_host s) !! g);
  st_next : hostNextGeneration (cp_host s) = 1 + published tr;
  st_fresh : forall i, (cp_fresh s <= i)%nat -> cp_sessions s !! i = None;
}.

Lemma store_inv_init : store_inv [] computer_init.
Proof. by constructor. Qed.

(** A generation that nobody leases is not one of a session. *)
Lemma store_no_lease tr s g i x :
  store_inv tr s -> leases g (cp_sessions s) = 0 -> cp_sessions s !! i = Some x ->
  ss_generation x <> g.
Proof. intros _ Hg Hx E. pose proof (leases_pos g i x _ Hx E). lia. Qed.

Lemma without_unused_lookup tr s g e :
  store_inv tr s ->
  without_unused (cp_host s) !! g = Some e <->
  hostGenerations (cp_host s) !! g = Some e /\ 0 < leases g (cp_sessions s).
Proof.
  intros I. unfold without_unused.
  destruct (hostCurrentGeneration (cp_host s)) as [old|] eqn:Ec.
  - destruct (st_current _ _ I _ Ec) as [eo Ho]. rewrite Ho.
    destruct (st_entry _ _ I _ _ Ho) as (_ & Hs & _). rewrite Hs.
    destruct (Z.eqb_spec (leases old (cp_sessions s)) 0) as [Hz|Hz].
    + rewrite lookup_delete_Some. split.
      * intros [Hne Hg]. split; [done|]. destruct (st_entry _ _ I _ _ Hg) as (_ & _ & [?|E]); [done|].
        congruence.
      * intros [Hg Hp]. split; [|done]. intros <-. lia.
    + split; [|by intros [? _]]. intros Hg. split; [done|].
      destruct (st_entry _ _ I _ _ Hg) as (_ & _ & [?|E]); [done|].
      assert (g = old) as -> by congruence. pose proof (leases_nonneg old (cp_sessions s)). lia.
  - split; [|by intros [? _]]. intros Hg. split; [done|].
    destruct (st_entry _ _ I _ _ Hg) as (_ & _ & [?|E]); [done|congruence].
Qed.

Lemma store_inv_replace tr s reg :
  store_inv tr s -> published (tr ++ [ev_replace reg]) < 2 ^ 64 - 1 ->
  store_inv (tr ++ [ev_replace reg])
    (Build_computer (replaceComputerRegistration reg (cp_host s)) (cp_sessions s) (cp_fresh s)).
Proof.
  intros I Hb. assert (Hold := fun g e => without_unused_lookup tr s g e I).
  assert (Hlease : forall i x, cp_sessions s !! i = Some x ->
            exists e, without_unused (cp_host s) !! ss_generation x = Some e
              /\ generationRegistration e = ss_registration x).
  { intros i x Hx. destruct (st_lease _ _ I _ _ Hx) as (e & He & Hr). exists e. split; [|done].
    apply Hold. split; [done|]. by eapply leases_pos. }
  pose proof (st_next _ _ I) as Hn. pose proof (published_nonneg tr).
  rewrite published_app in Hb. destruct reg as [reg|]; cbn in Hb.
  - assert (Hn' : u64 (hostNextGeneration (cp_host s) + 1) = hostNextGeneration (cp_host s) + 1)
      by (apply u64_id; lia).
    assert (Hfree : leases (hostNextGeneration (cp_host s)) (cp_sessions s) = 0).
    { unfold leases. rewrite map_empty_filter_2; [done|]. intros i x Hx. cbn. intros E.
      destruct (st_lease _ _ I _ _ Hx) as (e & He & _). apply (st_entry _ _ I) in He as (? & _). lia. }
    constructor; cbn [cp_host cp_sessions cp_fresh replaceComputerRegistration hostCurrentGeneration
                      hostGenerations hostNextGeneration]; rewrite ?Hn'.
    + intros g e [[<- <-]|[Hne Hg]]%lookup_insert_Some.
      * cbn. rewrite Hfree. repeat split; first [lia | by right].
      * apply Hold in Hg as [Hg Hp]. destruct (st_entry _ _ I _ _ Hg) as (? & ? & _).
        repeat split; first [lia | by left].
    + intros i x Hx. destruct (Hlease _ _ Hx) as (e & He & Hr). exists e. split; [|done].
      rewrite lookup_insert_ne; [done|]. apply Hold in He as [He _].
      apply (st_entry _ _ I) in He as (? & _). lia.
    + intros g [= <-]. rewrite lookup_insert_eq. by eexists.
    + rewrite published_app. cbn. lia.
    + apply (st_fresh _ _ I).
  - constructor; cbn [cp_host cp_sessions cp_fresh replaceComputerRegistration hostCurrentGeneration
                      hostGenerations hostNextGeneration].
    + intros g e [Hg Hp]%Hold. destruct (st_entry _ _ I _ _ Hg) as (? & ? & _).
      repeat split; first [lia | by left].
    + apply Hlease.
    + done.
    + rewrite published_app. cbn. lia.
    + apply (st_fresh _ _ I).
Qed.

Lemma published_quiet tr e :
  (forall reg, e <> ev_replace reg) -> published (tr ++ [e]) = published tr.
Proof.
  intros H. rewrite published_app. destruct e as [r|? ? ? ? ?|? ?|?|?]; cbn; try lia.
  by destruct (H r).
Qed.

Lemma store_inv_open tr s e st g reg :
  store_inv tr s -> acquireCurrentGeneration (cp_host s) = (st, Some (g, reg)) ->
  (forall r, e <> ev_replace r) ->
  store_inv (tr ++ [e])
    (Build_computer st (<[cp_fresh s := Build_session g reg Opening]> (cp_sessions s))
       (S (cp_fresh s))).
Proof.
  intros I Hacq He. unfold acquireCurrentGeneration in Hacq.
  destruct (hostCurrentGeneration (cp_host s)) as [g'|] eqn:Ec; [|done].
  destruct (hostGenerations (cp_host s) !! g') as [entry|] eqn:Eg; [|done].
  injection Hacq as <- <- <-.
  destruct (st_entry _ _ I _ _ Eg) as (Hr & Hs & _).
  assert (Hnone : cp_sessions s !! cp_fresh s = None) by (apply (st_fresh _ _ I); lia).
  constructor; cbn [cp_host cp_sessions cp_fresh hostCurrentGeneration hostGenerations
                    hostNextGeneration].
  - intros k x. rewrite leases_insert by done. cbn [ss_generation].
    intros [[<- <-]|[Hne Hk]]%lookup_insert_Some.
    + rewrite decide_True by done. cbn. rewrite Hs. repeat split; first [lia | by right].
    + rewrite decide_False by done. destruct (st_entry _ _ I _ _ Hk) as (? & ? & [?|E]).
      * repeat split; first [lia | left; lia].
      * repeat split; first [lia | right; congruence].
  - intros i x [[<- <-]|[Hne Hx]]%lookup_insert_Some.
    + cbn [ss_generation ss_registration]. rewrite lookup_insert_eq. by eexists.
    + destruct (st_lease _ _ I _ _ Hx) as (e' & He' & Hreg).
      destruct (decide (ss_generation x = g')) as [E|E].
      * rewrite E, lookup_insert_eq. eexists. split; [done|]. cbn. congruence.
      * rewrite lookup_insert_ne by done. by exists e'.
  - intros k [= <-]. rewrite lookup_insert_eq. by eexists.
  - rewrite published_quiet by done. apply (st_next _ _ I).
  - intros i Hi. rewrite lookup_insert_ne by lia. apply (st_fresh _ _ I). lia.
Qed.

Lemma store_inv_phase tr s e i x p :
  store_inv tr s -> cp_sessions s !! i = Some x -> (forall r, e <> ev_replace r) ->
  store_inv (tr ++ [e]) (set_session i (at_phase x p) s).
Proof.
  intros I Hx He. constructor; cbn [set_session cp_host cp_sessions cp_fresh].
  - intros g en Hg. rewrite leases_update by done. by apply (st_entry _ _ I).
  - intros j y [[<- <-]|[Hne Hy]]%lookup_insert_Some; [|by apply (st_lease _ _ I j)].
    exact (st_lease _ _ I i x Hx).
  - apply (st_current _ _ I).
  - rewrite published_quiet by done. apply (st_next _ _ I).
  - intros j Hj. pose proof (st_fresh _ _ I j Hj). rewrite lookup_insert_ne; [done|congruence].
Qed.

Lemma store_inv_release tr s e i x :
  store_inv tr s -> cp_sessions s !! i = Some x -> (forall r, e <> ev_replace r) ->
  store_inv (tr ++ [e]) (release i x s).
Proof.
  intros I Hx He. destruct (st_lease _ _ I _ _ Hx) as (entry & Hen & Hreg).
  destruct (st_entry _ _ I _ _ Hen) as (Hr & Hs & _).
  pose proof (leases_pos _ _ _ _ Hx eq_refl) as Hpos.
  assert (Hl := fun g => leases_delete g i x _ Hx).
  assert (Hz : Z.max 0 (generationSessions entry - 1)
               = leases (ss_generation x) (delete i (cp_sessions s))).
  { rewrite Hl, decide_True by done. lia. }
  unfold release, releaseGeneration. rewrite Hen, Hz.
  assert (Hother : forall g en, g <> ss_generation x ->
            hostGenerations (cp_host s) !! g = Some en ->
            1 <= g < hostNextGeneration (cp_host s)
            /\ generationSessions en = leases g (delete i (cp_sessions s))
            /\ (0 < leases g (delete i (cp_sessions s))
                \/ hostCurrentGeneration (cp_host s) = Some g)).
  { intros g en Hne Hg. rewrite Hl, decide_False by done.
    destruct (st_entry _ _ I _ _ Hg) as (? & ? & [?|?]);
      repeat split; first [lia | left; lia | by right]. }
  assert (Hfresh : forall j, (cp_fresh s <= j)%nat -> delete i (cp_sessions s) !! j = None).
  { intros j Hj. apply lookup_delete_None. right. by apply (st_fresh _ _ I). }
  destruct (Z.eqb_spec (leases (ss_generation x) (delete i (cp_sessions s))) 0) as [E0|E0];
    destruct (bool_decide_reflect (hostCurrentGeneration (cp_host s) = Some (ss_generation x)))
      as [Ec|Ec]; cbn [negb andb].
  all: constructor; cbn [cp_host cp_sessions cp_fresh hostCurrentGeneration hostGenerations
                         hostNextGeneration]; try (rewrite published_quiet by done; apply (st_next _ _ I));
    try apply Hfresh.
  all: try (intros g en [[<- <-]|[Hne Hg]]%lookup_insert_Some; [|by apply Hother];
            cbn [generationSessions]; pose proof (leases_nonneg (ss_generation x) (delete i (cp_sessions s)));
            repeat split; first [lia | left; lia | by right]).
  all: try (intros g en [Hne Hg]%lookup_delete_Some; by apply Hother).
  all: try (intros j y [Hne Hy]%lookup_delete_Some;
            destruct (st_lease _ _ I _ _ Hy) as (en & Hen' & Hreg');
            destruct (decide (ss_generation y = ss_generation x)) as [E|E];
            [rewrite E in *|]; first
              [ rewrite lookup_insert_eq; eexists; split; [reflexivity|]; cbn; congruence
              | rewrite lookup_insert_ne by done; by exists en
              | rewrite lookup_delete_ne by done; by exists en
              | exfalso; assert (Hd : delete i (cp_sessions s) !! j = Some y)
                  by (by rewrite lookup_delete_ne);
                pose proof (leases_pos _ _ _ _ Hd E); lia ]).
  all: intros g Hg; destruct (decide (g = ss_generation x)) as [->|Hne];
    first [ rewrite lookup_insert_eq; by eexists
          | rewrite lookup_insert_ne by done; by apply (st_current _ _ I)
          | rewrite lookup_delete_ne by done; by apply (st_current _ _ I)
          | congruence ].
Qed.

Lemma store_inv_step tr s e s' :
  store_inv tr s -> published (tr ++ [e]) < 2 ^ 64 - 1 -> step s e s' ->
  store_inv (tr ++ [e]) s'.
Proof.
  intros I Hb Hstep. destruct Hstep.
  - by apply store_inv_replace.
  - by eapply store_inv_open.
  - by apply store_inv_release.
  - by apply store_inv_phase.
  - by apply store_inv_phase.
  - by apply store_inv_phase.
  - by apply store_inv_phase.
  - by apply store_inv_phase.
  - by apply store_inv_release.
Qed.

Lemma reach_store tr s : reach tr s -> published tr < 2 ^ 64 - 1 -> store_inv tr s.
Proof.
  induction 1 as [|tr s e s' Hr IH Hs]; intros Hb; [apply store_inv_init|].
  eapply store_inv_step; [|done|done]. apply IH. rewrite published_app in Hb.
  pose proof (published_nonneg [e]). lia.
Qed.

Lemma leases_session g m : 0 < leases g m -> exists i x, m !! i = Some x /\ ss_generation x = g.
Proof.
  unfold leases. intros H.
  destruct (map_choose (filter (fun p => ss_generation p.2 = g) m)) as (i & x & Hx).
  - intros E. rewrite E in H. rewrite map_size_empty in H. lia.
  - apply map_lookup_filter_Some in Hx as [Hx Hg]. by exists i, x.
Qed.

(** Steps of sessions neither bring a generation back nor forget a leased one. *)
Lemma dropped_stays tr s e s' g :
  store_inv tr s -> step s e s' -> g < hostNextGeneration (cp_host s) ->
  hostGenerations (cp_host s) !! g = None -> hostGenerations (cp_host s') !! g = None.
Proof.
  intros I Hstep Hg Hno.
  assert (Hold : without_unused (cp_host s) !! g = None).
  { destruct (without_unused (cp_host s) !! g) as [e0|] eqn:E; [|done].
    apply (without_unused_lookup tr) in E as [E _]; [congruence|done]. }
  assert (Hrel : forall i x, hostGenerations (cp_host (release i x s)) !! g = None).
  { intros i x. unfold release, releaseGeneration. cbn [cp_host hostGenerations].
    destruct (hostGenerations (cp_host s) !! ss_generation x) as [en|] eqn:E; [|done].
    destruct (decide (ss_generation x = g)) as [<-|Hne]; [congruence|].
    case_match; [by rewrite lookup_delete_ne|by rewrite lookup_insert_ne]. }
  destruct Hstep as [[reg|]|att st g' reg Hacq| | | | | | | ]; try apply Hrel; try done.
  - cbn. rewrite lookup_insert_ne; [done|lia].
  - unfold acquireCurrentGeneration in Hacq. repeat case_match; try done.
    injection Hacq as <- <- <-. cbn. rewrite lookup_insert_ne; [done|congruence].
Qed.

(** C24: the engine keeps a registration exactly as long as it may be used: every call of
    the host goes through a registration that is stored and leased by the calling session,
    a session opens only with the current one, every stored registration is the current one
    or that of a session still to be closed, and one that was dropped never comes back. *)
Theorem computer_registration_retained tr s e s' :
  reach tr s -> published (tr ++ [e]) < 2 ^ 64 - 1 -> step s e s' ->
  match e with
  | ev_call i reg op token request =>
      exists x en, cp_sessions s' !! i = Some x /\ ss_registration x = reg
        /\ hostGenerations (cp_host s') !! ss_generation x = Some en
        /\ generationRegistration en = reg
        /\ (op = HA_COMPUTER_OPEN \/ op = HA_COMPUTER_OPEN_ATTACHED ->
            hostCurrentGeneration (cp_host s') = Some (ss_generation x))
  | _ => True
  end
  /\ (forall g en, hostGenerations (cp_host s') !! g = Some en ->
        hostCurrentGeneration (cp_host s') = Some g
        \/ exists i x, cp_sessions s' !! i = Some x /\ ss_generation x = g)
  /\ (forall g, g < hostNextGeneration (cp_host s) ->
        hostGenerations (cp_host s) !! g = None -> hostGenerations (cp_host s') !! g = None).
Proof.
  intros Hr Hb Hstep.
  assert (Hb' : published tr < 2 ^ 64 - 1)
    by (rewrite published_app in Hb; pose proof (published_nonneg [e]); lia).
  pose proof (reach_store _ _ Hr Hb') as I. pose proof (store_inv_step _ _ _ _ I Hb Hstep) as I'.
  split; [|split].
  - assert (Hcall : forall i x p op, cp_sessions s !! i = Some x ->
              ~ (op = HA_COMPUTER_OPEN \/ op = HA_COMPUTER_OPEN_ATTACHED) ->
              exists y en, cp_sessions (set_session i (at_phase x p) s) !! i = Some y
                /\ ss_registration y = ss_registration x
                /\ hostGenerations (cp_host s) !! ss_generation y = Some en
                /\ generationRegistration en = ss_registration x
                /\ (op = HA_COMPUTER_OPEN \/ op = HA_COMPUTER_OPEN_ATTACHED ->
                    hostCurrentGeneration (cp_host s) = Some (ss_generation y))).
    { intros i x p op Hx Hop. destruct (st_lease _ _ I _ _ Hx) as (en & He & Hreg).
      exists (at_phase x p), en. cbn [set_session cp_sessions]. by rewrite lookup_insert_eq. }
    destruct Hstep as [?|att st g reg Hacq|? ? ? ? ?|? ? ? ? ?|? ? ? ? ? ?|i x t op rq Hx Hp Hok
                      |? ? ? ?|i x t Hx Hp|? ? ? ?]; try done.
    + destruct (st_lease _ _ I' (cp_fresh s) (Build_session g reg Opening)) as (en & He & Hreg);
        [apply lookup_insert_eq|].
      exists (Build_session g reg Opening), en. cbn [cp_sessions]. rewrite lookup_insert_eq.
      repeat split; try done. intros _. cbn [cp_host ss_generation].
      unfold acquireCurrentGeneration in Hacq.
      destruct (hostCurrentGeneration (cp_host s)) as [g0|] eqn:Ec; [|done].
      destruct (hostGenerations (cp_host s) !! g0) as [en0|]; [|done].
      by injection Hacq as <- <- _.
    + apply Hcall; [done|]. by intros [-> | ->].
    + apply Hcall; [done|]. by intros [? | ?].
  - intros g en Hg. destruct (st_entry _ _ I' _ _ Hg) as (_ & _ & [Hp|Hc]); [right|by left].
    by apply leases_session.
  - intros g Hg Hno. by apply (dropped_stays tr s e s').
Qed.

(** A session that outlives the registration it was opened with. *)
Definition demo_registration : ComputerRegistration := Build_ComputerRegistration 1 2.

Definition demo_trace : list event :=
  [ev_replace (Some demo_registration); ev_call 0 demo_registration HA_COMPUTER_OPEN 0 [];
   ev_reply 0 (demo_open_reply 7); ev_replace None].

Lemma computer_demo_reach :
  exists s, reach demo_trace s
    /\ cp_sessions s !! 0%nat = Some (Build_session 1 demo_registration (Open 7)).
Proof.
  set (s1 := Build_computer (replaceComputerRegistration (Some demo_registration) newComputerHost)
               ∅ 0).
  assert (R1 : reach [ev_replace (Some demo_registration)] s1)
    by exact (reach_step [] computer_init _ s1 reach_init (step_replace computer_init _)).
  assert (R2 := reach_step _ s1 _ _ R1 (step_open s1 0 _ 1 demo_registration eq_refl)).
  match type of R2 with reach _ ?x => set (s2 := x) in R2 end.
  assert (R3 := reach_step _ s2 _ _ R2
    (step_opened s2 0 (Build_session 1 demo_registration Opening) (demo_open_reply 7) 7
       eq_refl eq_refl eq_refl)).
  assert (R4 := reach_step _ _ _ _ R3 (step_replace _ None)).
  eexists. split; [exact R4|reflexivity].
Qed.

Lemma computer_closes_once_witness :
  exists s, reach demo_trace s
    /\ closed_tokens 0 demo_trace `prefix_of` opened_tokens 0 demo_trace
    /\ 0 <= outstanding 0 demo_trace <= 1.
Proof.
  destruct computer_demo_reach as (s & Hr & _). exists s.
  destruct (computer_closes_once demo_trace s 0 Hr) as (H1 & _ & H2 & _).
  split; [exact Hr|]. split; [exact H1|exact H2].
Defined.

Lemma computer_registration_retained_witness :
  exists s s', reach demo_trace s
    /\ step s (ev_call 0 demo_registration HA_COMPUTER_CLOSE 7 []) s'
    /\ exists x en, cp_sessions s' !! 0%nat = Some x
         /\ hostGenerations (cp_host s') !! ss_generation x = Some en
         /\ generationRegistration en = demo_registration.
Proof.
  destruct computer_demo_reach as (s & Hr & Hx). eexists s, _. split; [exact Hr|].
  assert (Hs := step_close s 0 _ 7 Hx (or_introl eq_refl)). split; [exact Hs|].
  assert (Hb : published (demo_trace ++ [ev_call 0 demo_registration HA_COMPUTER_CLOSE 7 []])
               < 2 ^ 64 - 1) by reflexivity.
  destruct (computer_registration_retained demo_trace s _ _ Hr Hb Hs)
    as ((x & en & H1 & _ & H2 & H3 & _) & _).
  exists x, en. split; [exact H1|]. split; [exact H2|exact H3].
Defined.
